(* ===== verification/_CoqProject ===== *)
-Q . S2P
Prelude.v
JsNumber.v
JsText.v
JsObject.v
CborWriter.v
CborValue.v
CborEncoder.v
CborDecoder.v
Framing.v
JsTree.v
Messages.v
SessionTypes.v
SessionState.v
SessionInvariant.v
SessionReads.v
SessionFork.v
SessionStore.v
Session.v
SessionTheorems.v
SessionContext.v
JsonText.v
JsonRoundTrip.v
MessageViews.v
JsonlCodec.v
Jsonl.v
JsonlRecovery.v
JsonlTheorems.v
Reducer.v
ReducerValid.v
LaneReduction.v
AgentTypes.v
AgentTools.v
AgentLoop.v
AgentLifecycle.v
AgentTranscript.v
AgentGate.v
AgentTermination.v
AgentInvariant.v
Agent.v
AgentRuns.v
AgentTheorems.v
Truncate.v
JsData.v
Schema.v
SchemaCheck.v
SchemaTypes.v
ProtocolSchemas.v
ProtocolValue.v
ProtocolCodec.v
ProtocolTheorems.v
SchemaConvert.v
Validation.v
ValidationFacts.v
ValidationTheorems.v
MiniDiff.v
EditDiff.v
EditFacts.v
EditTheorems.v
FileQueue.v
FileQueueTheorems.v
Retry.v
Compaction.v
CompactionFacts.v
CompactionTheorems.v
Summaries.v
SummaryTheorems.v
ClientMessages.v
ClientWorld.v
ClientConnection.v
PiClient.v
ClientSpec.v
ClientKeeps.v
ClientTheorems.v
ServerWorld.v
Server.v
ServerLogic.v
ServerSpec.v
ServerKeeps.v
ServerTheorems.v
Conversation.v
