(* ===== verification/Prelude.v ===== *)
(** A verification of the core of the pi coding agent.

    The repository holds a coding agent as TypeScript packages under [src/pi/packages]
    (paths below are relative to it).  This library models, as executable definitions, the
    parts that carry state and data between the model, the tools, the disk and the wire:

    - [protocol]: values are encoded to CBOR and sent as length-prefixed frames;
    - [agent], the session side: a session is a log of mutations (entries of a tree, lane
      records, names, labels) kept in memory or in a file; from the log come the context of
      a branch and, after a crash, the work a lane still has to do;
    - [agent], compaction: what of a long context is summarized, what is kept, and the summaries
      of branches that are left;
    - [agent], the running side: the loop that streams an answer, runs its tools and goes on
      with what is queued, and the agent that owns the loop's state;
    - [agent], what the tools do: truncation of their outputs, the edits of files and the
      queue that keeps the mutations of a file apart;
    - [client], the client of a server that runs sessions: its connection, its requests, the
      snapshots it caches, its listeners and the leases of sessions;
    - [server], that server: connections with their handshakes, requests, live sessions with
      their runtimes, and the snapshots it publishes;
    - [ai], the retries of a call of a model;
    - [ai], the schemas: what the messages on the wire and the arguments of tool calls must
      look like, and the validation and coercion of values against them.

    ** Files

    [Prelude]        generic lemmas, tactics, notations, error sum of the development.
    [JsNumber], [JsText], [JsObject], [JsTree]
                     the language: numbers (integral values and the other binary64 values
                     apart), binary64 addition and order, fixed-length byte arrays, UTF-16
                     strings with the platform's UTF-8 encoder and decoder, own properties
                     of objects, values without sharing.
    [CborWriter], [CborEncoder], [CborDecoder], [CborValue]
                     [protocol/src/cbor]: limits and errors, the growing buffer, the encoder
                     over a heap of objects (so that cycles exist), the decoder over an offset;
                     [CborValue] is the specification: value trees and their canonical bytes.
    [Framing]        [protocol/src/framing.ts].
    [Messages]       message types of [ai/src/types.ts] and [agent/src/harness/messages.ts].
    [SessionTypes], [SessionState], [SessionInvariant], [SessionReads], [SessionFork]
                     [agent/src/harness/session/types.ts] and [state.ts]: data, the state with
                     its mutations and queries, the invariant, what reads return, forks.
    [SessionStore], [Session], [SessionContext], [SessionTheorems]
                     [memory.ts], [session.ts] and [context.ts] of the same directory.  The
                     session is written against the interface of a storage ([SessionStorage]);
                     the in-memory storage is its instance.
    [JsonText], [JsonRoundTrip], [MessageViews], [JsonlCodec], [Jsonl],
    [JsonlRecovery], [JsonlTheorems]
                     [agent/src/harness/session/jsonl]: JSON text, typed readings of objects,
                     the line format, and the storage over the interface of a file system
                     ([FileSystem], laws in [FileSystemLaws]); a method keeps what it did
                     to the file and the storage also when it throws.
    [Reducer], [ReducerValid], [LaneReduction]
                     [agent/src/harness/reducer.ts]: the validation of a lane's log and the
                     reconstruction of the lane's state from it.
    [AgentTypes], [AgentTools], [AgentLoop]
                     [agent/src/types.ts] and [agent/src/agent-loop.ts].  Code the loop is
                     given (provider stream, tools, hooks, queues, listeners) is an environment
                     over a world of its own, with a result for every call, errors included.
    [AgentLifecycle], [AgentTranscript], [AgentGate], [AgentTermination],
    [AgentInvariant], [AgentTheorems]
                     the four groups of facts on the loop, shown with the program logic of [AgentLoop].
    [Agent], [AgentRuns]
                     [agent/src/agent.ts]: the agent is a part of the world the loop runs in;
                     its queues and its event reduction are the callbacks of the loop.  Its
                     listeners may throw; a run ends through its [finally].  What outside code
                     may do to the agent between is [api_step].
    [Truncate]       [agent/src/harness/utils/truncate.ts].
    [JsData]         data of unknown type: properties, inherited names, texts of numbers; the
                     class [Platform] is what the language computes for other patterns than
                     that of records, and for numbers and texts.
    [Schema], [SchemaCheck], [SchemaTypes], [SchemaConvert]
                     [ai/src/schema.ts]: the builders, the validator with its errors, the type
                     [Static] of a schema, the facts that relate them, and [Value.Convert].
    [ProtocolSchemas], [ProtocolValue], [ProtocolCodec], [ProtocolTheorems]
                     [protocol/src/schemas.ts] and [codec.ts]: the schemas of messages, values
                     of a heap and decoded trees as data, and the message codec on top of the
                     CBOR codec and the framing.
    [Validation], [ValidationFacts], [ValidationTheorems]
                     [ai/src/utils/validation.ts]: the arguments of a tool call.
    [MiniDiff]
                     [ai/src/utils/mini-diff.ts]: differences of texts, by lines and by words,
                     and unified patches.
    [EditDiff], [EditFacts], [EditTheorems]
                     [agent/src/harness/tools/edit-diff.ts]: matching and applying edits, and
                     the differences shown for them; [edit_content] is the part of [edit.ts]
                     between reading and writing the file.  The class [Unicode] is the
                     platform's compatibility normalization.
    [FileQueue], [FileQueueTheorems]
                     [agent/src/harness/tools/file-mutation-queue.ts] as a transition system:
                     the events are the steps of concurrent calls, in any order.
    [Retry]          [ai/src/utils/retry.ts]: which errors are transient, delays, the loop and
                     the trace of its calls and callbacks.
    [Compaction], [CompactionFacts], [CompactionTheorems]
                     [agent/src/harness/compaction/compaction.ts] up to [prepareCompaction]:
                     estimates, cut points, the preparation; file operations of [utils.ts].
    [Summaries], [SummaryTheorems]
                     the requests for summaries of [compaction.ts] and [utils.ts], and
                     [branch-summarization.ts]; the provider of the model is the environment
                     of a retried call.
    [ClientMessages]  the messages of the protocol as the client reads and writes them.
    [ClientWorld], [ClientConnection], [PiClient]
                     [client/src]: the state and its environment, then [state.ts],
                     [connection.ts], and [client.ts] with [session-handle.ts].  Listeners,
                     transport and factory are code of the environment, which may call the
                     client while it runs: a script says what the next invocations do.  An
                     asynchronous function is a task that a call of the environment resumes.
    [ClientSpec], [ClientKeeps], [ClientTheorems]
                     a transition system over what the client outputs, the proof that every
                     operation follows it in every context, and the theorems.
    [ServerWorld], [Server]
                     [server/src]: the state, the messages and asynchronous functions, then
                     [sessions.ts], [snapshots.ts] and [server.ts].  A function runs until it
                     waits; what is left of it is a thread in a pool, and any thread whose
                     answer is there may go on next.  Transports, listeners, runtimes and the
                     service are the environment, whose calls and answers are events.
    [ServerLogic], [ServerSpec], [ServerKeeps], [ServerTheorems]
                     a program logic in which a waiting call owns tokens for what it still has
                     to do; the automata over the outputs and the invariant, with its tokens;
                     the proof that every operation keeps the invariant, and the theorems.
    [Conversation]   what client and server send is what the other reads.

    ** What the theorems show

    Codec: the encoder returns the canonical bytes of the tree a value unfolds to, exactly
    when that tree is finite and within the limits, rejects cycles, and is inverted by the
    decoder, which accepts only payloads within the limits.  Framing: pushing chunks finds
    the frames that a byte-at-a-time splitter finds, whatever the chunks.

    Sessions: every storage a program can make satisfies the invariant (sequence numbers,
    parents, lanes, one open operation per lane), and mutations keep it; queries, branches, forks and open operations are what their
    specifications in terms of the log say; repositories stay well formed; what is committed
    is JSON data of bounded depth.  Files: the line format round-trips; a load after a crash
    at any byte of the last append recovers the acknowledged writes; a write of the file
    storage is one append of the line of the mutation the in-memory write applies, with its
    state and result when the append succeeds and no effect on the storage when it fails; a
    fork is published whole or not at all.

    Recovery: validation accepts exactly the logs of the single-writer protocol, and the
    reduction of a valid log gives the pending work and the point to resume at.

    Agent: every run, also one that fails, emits a well-formed life cycle; its transcript
    holds everything taken from the queues and a result for each tool call; a tool starts
    only through the gate and at most once per batch, under every interleaving; a run in a
    bounded environment ends; the agent settles after every request, also when listeners throw.
    These last two facts ask that the outside code leaves alone whether the agent runs; that
    the transcript is what was announced also asks that nothing assigns [state.messages].

    Truncation: outputs obey both limits and are as long as whole lines allow.

    Compaction: no message is lost or repeated between the summarized and the retained ones;
    the cut is the first cut point from where the kept messages reach the budget; calls keep
    their results; the next compaction asks to update the summary of the last, and no file of it
    is forgotten; a branch that is left is summarized from where it parted.  Retries:
    only transient errors, as often as the policy allows, with bounded delays.

    Edits: an edit that is accepted replaces each old text where it first is and keeps the
    rest of the file; otherwise its error says why.  A difference projects to both texts and
    keeps as much as possible.  Under every interleaving the mutations of a file happen one
    after the other.

    Schemas: with enough fuel the validator accepts exactly the values of the schema's type,
    also for recursive types.  Messages: what is encoded is decoded again whatever the chunks,
    and what a decoder delivers has the type of its side.  Tool calls: the validated
    arguments have the type of the tool's schema; arguments of the type are not changed, unless
    a record of the schema has a schema for other keys.

    Client: under every behaviour of the server, the transport and the program, calls made
    while the client runs listeners included, what it outputs follows a protocol automaton; a
    request is settled once, never later than the end of the connection, and succeeds only with
    the server's result for its id and command; leases are readers-writer locks as long as only
    holders release.  [ClientTheorems.Scenes] shows where the last condition, and others, fail.

    Server: under every interleaving of its calls, what it says on its connections follows a
    protocol automaton; until it closes its sessions each has one runtime at most, which is
    used by its holder and disposed of once; a request the decoder delivers is handled and
    answered once at most, and when no call waits any more, every request of a ready connection
    has its response; attachments agree on both sides.
    [ServerTheorems.ServerScenes] shows an attachment to a session that is disposed of, and what
    a session without a name does.  Client and server: the messages of each, sent in any chunks,
    are read by the other as they are.

    ** Conventions

    A string is its UTF-16 code units ([jsstr]) in the codec, the schemas and truncation, and
    a [string] where the code only compares, stores and prints it.  Errors are values of a
    sum.  Functions that recurse on a decoder's depth or over calls of outside code take fuel:
    for the codec the depth limit is fuel enough ([cbor_terminates]); for the agent the bound
    on its environment is ([agent_terminates], [agent_returns]); for the validator it is a
    product of the value's depth and the schema's height ([fuel_for], [steps_for]); running
    out of fuel is an outcome of its own, never a result.  The clock, generated identifiers
    and the order in which parallel tools proceed are arguments of the operations that use
    them.  The client's calls are nested as deep as the script of its environment is long, and
    an iteration over a set visits what it holds and what the script adds: both bounds are
    never reached ([client_follows_protocol]: the automaton has no step for it).  Its transport
    is closed without an exception; what waits for promises is resumed in any order.
    So are the calls of the server, also a broadcast whose turn has come, which covers every order
    of promise reactions and more; an answer of the environment comes at any time or never.  A
    mark of the trace that is no output ([OReceived]) tells which requests the decoder delivered.
    A runtime may refuse to be subscribed to ([Runtimes]).  Of
    its environment the server model assumes that ending a subscription and the phase
    of a runtime return without an exception, that a subscription does not call its listener at once, that the error
    observer and transports do not call the server while it calls them, and that a runtime
    acquired is a new one.  Random identifiers are any function of their number ([uuid]).

    ** Not modelled

    Providers, credentials, sockets, processes and the terminal ([ai/src/api],
    [client/src/unix.ts], [server/src/transports], [tui], [coding-agent]) are input and output around these parts.  The event
    stream ([ai/src/utils/event-stream.ts]) is seen as its iteration.  The directory layout
    of session files ([jsonl/repo.ts]), the agent harness, which wires the parts together, subscriptions
    to the agent that change during a run, and the conversion of model messages to transcripts ([server/src/protocol.ts]) are not modelled; of
    the file tools, checks of access, legacy arguments, [read.ts] and [bash.ts] are not.  Number printing and parsing ([JsonText.number_text],
    [JsonText.number_value]) are parameters with the laws of the language's standard.
    The cache of compiled validators is not visible, as schemas are not changed.  Objects have
    no property named [__proto__].  [formatSize] rounds a decimal for display.  [src/scriptc]
    is a bundled compiler that the repository does not change. *)
From stdpp Require Export base tactics list option gmap strings pretty numbers sorting.
From Stdlib Require Export ZArith Lia.

(** * Results

    TypeScript code of the repository signals failure by [throw]; a function
    that may throw is modelled as one that returns a [result].  [Err e] is a
    thrown value, and the monadic bind is sequencing of statements. *)

Inductive result (E A : Type) : Type :=
  | Ok (a : A)
  | Err (e : E).
Arguments Ok {E A} a.
Arguments Err {E A} e.

#[export] Instance result_ret {E} : MRet (result E) := fun A a => Ok a.
#[export] Instance result_bind {E} : MBind (result E) := fun A B f m =>
  match m with Ok a => f a | Err e => Err e end.
#[export] Instance result_fmap {E} : FMap (result E) := fun A B f m =>
  match m with Ok a => Ok (f a) | Err e => Err e end.

#[export] Instance result_eq_dec {E A} `{EqDecision E, EqDecision A} : EqDecision (result E A).
Proof. solve_decision. Defined.

(** [if (b) throw e;] *)
Definition throw_if {E} (b : bool) (e : E) : result E unit := if b then Err e else Ok ().

(** The value or the thrown error of an optional lookup:
    [const x = f(); if (x === undefined) throw e;] *)
Definition or_throw {E A} (e : E) (o : option A) : result E A :=
  match o with Some a => Ok a | None => Err e end.

Definition is_ok {E A} (m : result E A) : bool := match m with Ok _ => true | Err _ => false end.

(** [for (const a of l) s = f(s, a);] where the body may throw. *)
Fixpoint mfold {E S A} (f : S -> A -> result E S) (s : S) (l : list A) : result E S :=
  match l with
  | [] => Ok s
  | a :: l' => match f s a with Ok s' => mfold f s' l' | Err e => Err e end
  end.

(** [while (cond) body;] with a bound on the number of rounds: [exhausted] is the
    error of the model when the bound is too small. *)
Fixpoint loop {E S} (fuel : nat) (exhausted : E) (cond : S -> bool) (body : S -> result E S) (s : S)
    : result E S :=
  if cond s then
    match fuel with
    | O => Err exhausted
    | Datatypes.S fuel' =>
        match body s with Ok s' => loop fuel' exhausted cond body s' | Err e => Err e end
    end
  else Ok s.

(** The rule of the loop: an invariant, a measure that bounds the rounds, and
    what holds of the errors of the body. *)
Lemma loop_rule {E S} (I : S -> Prop) (measure : S -> nat) (Q : E -> Prop) exhausted cond body :
  (forall s, I s -> cond s = true -> (0 < measure s)%nat /\
     match body s with Ok s' => I s' /\ (measure s' < measure s)%nat | Err e => Q e end) ->
  forall fuel s, I s -> (measure s <= fuel)%nat ->
  match loop fuel exhausted cond body s with
  | Ok s' => I s' /\ cond s' = false
  | Err e => Q e
  end.
Proof.
  intros Hbody. induction fuel as [|fuel IH]; intros s HI Hm; cbn [loop];
    (destruct (cond s) eqn:Hc; [|done]); destruct (Hbody s HI Hc) as [Hpos Hs]; [lia|].
  destruct (body s) as [s'|e]; [|done]. destruct Hs as [HI' Hlt]. apply IH; [done|lia].
Qed.

Section result_lemmas.
Context {E : Type}.

Lemma bind_Ok {A B} (m : result E A) (f : A -> result E B) b :
  m ≫= f = Ok b <-> exists a, m = Ok a /\ f a = Ok b.
Proof. destruct m; cbn; split; [eauto|by intros (? & [= ->] & ?)|done|by intros (? & ? & ?)]. Qed.

Lemma bind_Err {A B} (m : result E A) (f : A -> result E B) e :
  m ≫= f = Err e <-> m = Err e \/ exists a, m = Ok a /\ f a = Err e.
Proof.
  destruct m; cbn; split.
  - eauto.
  - by intros [?|(? & [= ->] & ?)].
  - intros [= ->]. by left.
  - by intros [[= ->]|(? & ? & ?)].
Qed.

Lemma fmap_Ok {A B} (m : result E A) (f : A -> B) b :
  f <$> m = Ok b <-> exists a, m = Ok a /\ b = f a.
Proof. destruct m; cbn; split; [intros [= <-]; eauto|by intros (? & [= ->] & ->)|done|by intros (? & ? & ?)]. Qed.

Lemma throw_if_Ok b (e : E) u : throw_if b e = Ok u <-> b = false.
Proof. by destruct b, u. Qed.

Lemma or_throw_Ok {A} (e : E) (o : option A) a : or_throw e o = Ok a <-> o = Some a.
Proof. destruct o; cbn; split; congruence. Qed.

Lemma mfold_app {S A} (f : S -> A -> result E S) s l1 l2 :
  mfold f s (l1 ++ l2) = mfold f s l1 ≫= fun s' => mfold f s' l2.
Proof. revert s; induction l1 as [|a l1 IH]; intros s; cbn; [done|]. by destruct (f s a). Qed.

Lemma mfold_inv {S A} (P : S -> Prop) (f : S -> A -> result E S) l : forall s s',
  P s -> (forall s a s', a ∈ l -> P s -> f s a = Ok s' -> P s') ->
  mfold f s l = Ok s' -> P s'.
Proof.
  induction l as [|a l IH]; cbn; intros s s' Hs Hf Heq; [naive_solver|].
  destruct (f s a) as [s1|] eqn:Hfa; [|done].
  eapply IH; [|intros ????; eapply Hf; by right|done].
  eapply Hf; [left|done|done].
Qed.
Lemma mfold_Forall {S A} (f : S -> A -> result E S) l : forall s s',
  mfold f s l = Ok s' -> Forall (fun a => exists s1 s2, f s1 a = Ok s2) l.
Proof.
  induction l as [|a l IH]; cbn; intros s s' Heq; [constructor|].
  destruct (f s a) as [s1|] eqn:Hfa; [|done]. constructor; [eauto|]. by eapply IH.
Qed.
(** A fold whose state summarises the elements already seen succeeds when every
    element is valid with respect to those before it. *)
Lemma mfold_valid {S A} (summary : list A -> S -> Prop) (valid : list A -> A -> Prop) (f : S -> A -> result E S) :
  (forall done s a, summary done s ->
     match f s a with Ok s' => valid done a /\ summary (done ++ [a]) s' | Err _ => ~ valid done a end) ->
  forall l done s, summary done s ->
  (exists s', mfold f s l = Ok s') <-> (forall i a, l !! i = Some a -> valid (done ++ take i l) a).
Proof.
  intros Hf l. induction l as [|a l IH]; intros done s Hs; cbn [mfold]; [split; [|eauto]; by intros _ i a ?|].
  specialize (Hf done s a Hs). destruct (f s a) as [s'|e].
  - destruct Hf as [Hv Hs']. rewrite (IH (done ++ [a]) s' Hs'). split.
    + intros Hl [|i] b Hb; cbn in *; [simplify_eq; by rewrite app_nil_r|].
      specialize (Hl i b Hb). by rewrite <-app_assoc in Hl.
    + intros Hl i b Hb. rewrite <-app_assoc. by apply (Hl (Datatypes.S i) b).
  - split; [by intros (? & ?)|]. intros Hl. destruct Hf. specialize (Hl 0%nat a eq_refl). cbn in Hl.
    by rewrite app_nil_r in Hl.
Qed.
End result_lemmas.

(** [m2] returns whatever [m1] returns: more fuel changes no result. *)
Definition below {E A} (m1 m2 : result E A) : Prop := forall a, m1 = Ok a -> m2 = Ok a.

Lemma below_refl {E A} (m : result E A) : below m m.
Proof. by intros a. Qed.

Lemma below_bind {E A B} (m1 m2 : result E A) (f1 f2 : A -> result E B) :
  below m1 m2 -> (forall a, below (f1 a) (f2 a)) -> below (m1 ≫= f1) (m2 ≫= f2).
Proof. intros Hm Hf b (a & Ha & Hb)%bind_Ok. rewrite (Hm a Ha). by apply Hf. Qed.

Lemma below_mfold {E S A} (f1 f2 : S -> A -> result E S) l : (forall s a, below (f1 s a) (f2 s a)) -> forall s, below (mfold f1 s l) (mfold f2 s l).
Proof. intros Hf. induction l as [|a l IH]; intros s; cbn [mfold]; [apply below_refl|]. by apply below_bind. Qed.

Create HintDb below.
#[export] Hint Resolve below_refl below_bind below_mfold : below.

(** Opens every hypothesis that says a sequence of statements returned. *)
Ltac inv_ok :=
  repeat match goal with
  | H : Ok _ = Ok _ |- _ => injection H; clear H; intros; subst
  | H : Err _ = Err _ |- _ => injection H; clear H; intros; subst
  | H : Ok _ = Err _ |- _ => discriminate H
  | H : Err _ = Ok _ |- _ => discriminate H
  | H : mret _ = Ok _ |- _ => unfold mret, result_ret in H
  | H : _ ≫= _ = Ok _ |- _ => apply bind_Ok in H as (? & ? & ?)
  | H : _ <$> _ = Ok _ |- _ => apply fmap_Ok in H as (? & ? & ?)
  | H : throw_if _ _ = Ok _ |- _ => apply throw_if_Ok in H
  | H : or_throw _ _ = Ok _ |- _ => apply or_throw_Ok in H
  end.

(** ** Lists *)

(** Chooses a related element for every element of a list. *)
Lemma Forall_choose {A B} (R : A -> B -> Prop) l :
  Forall (fun a => exists b, R a b) l -> exists l', Forall2 R l l'.
Proof.
  induction 1 as [|a l [b Hb] _ [l' IH]]; [by exists []|]. exists (b :: l'). by constructor.
Qed.

Lemma Forall2_Forall_r' {A B} (R : A -> B -> Prop) (P : B -> Prop) l l' :
  Forall2 R l l' -> (forall a b, R a b -> P b) -> Forall P l'.
Proof. intros H HP. induction H; constructor; eauto. Qed.

Lemma forallb_Forall {A} (f : A -> bool) l : forallb f l = true <-> Forall (fun a => f a = true) l.
Proof. rewrite forallb_forall, Forall_forall. by setoid_rewrite list_elem_of_In. Qed.

Lemma elem_of_rev {A} (x : A) l : x ∈ rev l <-> x ∈ l.
Proof. rewrite !list_elem_of_In. symmetry. apply in_rev. Qed.

(** [lia] with division and remainder by constants. *)
Ltac dlia := zify; Z.to_euclidean_division_equations; lia.

(** Equates two lists of integers element by element. *)
Ltac list_dlia := repeat (apply (f_equal2 cons); [dlia|]); try reflexivity.

(** Turns the boolean comparison of a goal into the proposition it decides. *)
Ltac bool_to_prop :=
  rewrite ?Z.gtb_ltb, ?Z.geb_leb, ?andb_true_iff, ?andb_false_iff, ?orb_true_iff, ?orb_false_iff,
    ?negb_true_iff, ?negb_false_iff, ?Z.leb_le, ?Z.leb_gt, ?Z.ltb_lt, ?Z.ltb_ge, ?Z.eqb_eq, ?Z.eqb_neq.

Ltac zlia := first [lia | bool_to_prop; lia].

(** Proves a decidable statement about a concrete input by evaluating it. *)
Ltac by_decide := apply (bool_decide_unpack _); vm_compute; exact I.

(** Decides the conditions of the goal that follow by arithmetic. *)
Ltac if_lia :=
  repeat match goal with
  | |- context [if ?b then _ else _] =>
      first [ replace b with true by (symmetry; zlia) | replace b with false by (symmetry; zlia) ];
      cbv iota
  end.

(** * Lines

    [s.split(sep)] and [pieces.join(sep)] for a separator of one character. *)
Section split.
Context {A : Type} `{EqDecision A} (sep : A).

Fixpoint split_on (s : list A) : list (list A) :=
  match s with
  | [] => [[]]
  | c :: s' =>
      if decide (c = sep) then [] :: split_on s'
      else match split_on s' with l :: ls => (c :: l) :: ls | [] => [[c]] end
  end.

Fixpoint join_with (ls : list (list A)) : list A :=
  match ls with [] => [] | [l] => l | l :: ls' => l ++ sep :: join_with ls' end.

Definition without_sep (l : list A) : Prop := Forall (fun c => c <> sep) l.

Lemma split_on_cons l s : without_sep l -> split_on (l ++ sep :: s) = l :: split_on s.
Proof.
  induction 1 as [|c l Hc _ IH]; cbn [app split_on]; [by rewrite decide_True|]. rewrite decide_False by done. by rewrite IH.
Qed.

Lemma split_on_last l : without_sep l -> split_on l = [l].
Proof. induction 1 as [|c l Hc _ IH]; cbn [split_on]; [done|]. rewrite decide_False by done. by rewrite IH. Qed.

Lemma split_on_nonempty s : split_on s <> [].
Proof. destruct s as [|c s]; cbn; [done|]. case_decide; [done|]. by destruct (split_on s). Qed.

Lemma join_cons l ls : ls <> [] -> join_with (l :: ls) = l ++ sep :: join_with ls.
Proof. by destruct ls. Qed.

Lemma join_split s : join_with (split_on s) = s.
Proof.
  induction s as [|c s IH]; cbn [split_on]; [done|]. pose proof (split_on_nonempty s) as Hne. case_decide as Hc.
  - subst. rewrite join_cons by done. cbn. by rewrite IH.
  - destruct (split_on s) as [|l [|l' ls]]; [done|cbn in *; congruence|]. rewrite !join_cons in * by done. cbn [app]. congruence.
Qed.

Lemma join_snoc ls l : ls <> [] -> join_with (ls ++ [l]) = join_with ls ++ sep :: l.
Proof.
  induction ls as [|l0 ls IH]; [done|]. intros _. destruct ls as [|l1 ls]; [done|].
  rewrite <- app_comm_cons, !join_cons by (done || by destruct ls). rewrite IH by done. by rewrite <- app_assoc.
Qed.

(** The last piece is empty exactly when the string ends with the separator. *)
Lemma split_on_snoc s : split_on (s ++ [sep]) = split_on s ++ [[]].
Proof.
  induction s as [|c s IH]; cbn [app split_on]; [by rewrite decide_True|]. rewrite IH. case_decide; [done|].
  pose proof (split_on_nonempty s). by destruct (split_on s).
Qed.
End split.

(** * JavaScript [Map]s

    A [Map] iterates in insertion order and [set] of a present key keeps the
    key's position, so a [Map] whose iteration order the code observes is an
    association list. *)
Module JsMap.
Section jsmap.
Context {K V : Type} `{EqDecision K}.

Fixpoint get (k : K) (m : list (K * V)) : option V :=
  match m with
  | [] => None
  | (k', v) :: m' => if decide (k = k') then Some v else get k m'
  end.

Definition has (k : K) (m : list (K * V)) : bool :=
  match get k m with Some _ => true | None => false end.

Fixpoint set (k : K) (v : V) (m : list (K * V)) : list (K * V) :=
  match m with
  | [] => [(k, v)]
  | (k', v') :: m' => if decide (k = k') then (k', v) :: m' else (k', v') :: set k v m'
  end.

Fixpoint delete (k : K) (m : list (K * V)) : list (K * V) :=
  match m with
  | [] => []
  | (k', v') :: m' => if decide (k = k') then delete k m' else (k', v') :: delete k m'
  end.

Definition keys (m : list (K * V)) : list K := m.*1.
Definition values (m : list (K * V)) : list V := m.*2.

Lemma get_set k k' v m : get k (set k' v m) = if decide (k = k') then Some v else get k m.
Proof.
  induction m as [|[k1 v1] m IH]; cbn; [by repeat case_decide|].
  destruct (decide (k' = k1)) as [->|]; cbn; repeat case_decide; congruence.
Qed.

Lemma get_set_eq k v m : get k (set k v m) = Some v.
Proof. rewrite get_set. by case_decide. Qed.

Lemma get_set_ne k k' v m : k <> k' -> get k (set k' v m) = get k m.
Proof. intros. rewrite get_set. by case_decide. Qed.

Lemma get_delete k k' m : get k (delete k' m) = if decide (k = k') then None else get k m.
Proof.
  induction m as [|[k1 v1] m IH]; cbn; [by case_decide|].
  destruct (decide (k' = k1)) as [->|Hne]; cbn; rewrite IH; repeat case_decide; congruence.
Qed.

Lemma get_Some_elem k v m : get k m = Some v -> (k, v) ∈ m.
Proof.
  induction m as [|[k1 v1] m IH]; cbn; [done|]. case_decide; intros.
  - simplify_eq. left.
  - right; auto.
Qed.

Lemma get_None k m : get k m = None <-> k ∉ keys m.
Proof.
  unfold keys. induction m as [|[k1 v1] m IH]; cbn; [split; [intros _; apply not_elem_of_nil|done]|].
  rewrite not_elem_of_cons. case_decide; naive_solver.
Qed.

Lemma elem_get k v m : NoDup (keys m) -> (k, v) ∈ m -> get k m = Some v.
Proof.
  unfold keys. induction m as [|[k1 v1] m IH]; cbn; intros Hnd Hin; [by apply elem_of_nil in Hin|].
  apply NoDup_cons in Hnd as [Hk1 Hnd]. apply elem_of_cons in Hin as [Heq|Hin].
  - simplify_eq. by case_decide.
  - case_decide as Heq; [|by apply IH]. subst. destruct Hk1.
    apply list_elem_of_fmap. by exists (k1, v).
Qed.

Lemma keys_set k v m : keys (set k v m) = if has k m then keys m else keys m ++ [k].
Proof.
  unfold has, keys. induction m as [|[k1 v1] m IH]; cbn; [done|]. case_decide; cbn; [done|].
  rewrite IH. by destruct (get k m).
Qed.

Lemma set_keys_NoDup k v m : NoDup (keys m) -> NoDup (keys (set k v m)).
Proof.
  intros Hnd. rewrite keys_set. unfold has. destruct (get k m) eqn:Hg; [done|].
  apply get_None in Hg. apply NoDup_app; split_and!; [done| |apply NoDup_singleton].
  intros x Hx Hx'. apply list_elem_of_singleton in Hx'. by subst.
Qed.

Lemma set_new k v m : get k m = None -> set k v m = m ++ [(k, v)].
Proof. induction m as [|[k1 v1] m IH]; cbn; [done|]. case_decide; [done|]. intros. by rewrite IH. Qed.

Lemma keys_delete_subset k k' m : k ∈ keys (delete k' m) -> k ∈ keys m /\ k <> k'.
Proof.
  unfold keys. induction m as [|[k1 v1] m IH]; cbn; [by intros ?%elem_of_nil|].
  rewrite elem_of_cons. case_decide; cbn; [naive_solver|]. rewrite elem_of_cons. naive_solver.
Qed.

Lemma delete_keys_NoDup k m : NoDup (keys m) -> NoDup (keys (delete k m)).
Proof.
  induction m as [|[k1 v1] m IH]; cbn; [done|].
  rewrite NoDup_cons. intros [Hk Hnd]. case_decide; cbn; [by apply IH|].
  apply NoDup_cons. split; [|by apply IH].
  intros Hin. apply Hk. by apply (keys_delete_subset _ k).
Qed.

Lemma delete_notin k m : get k m = None -> delete k m = m.
Proof.
  induction m as [|[k1 v1] m IH]; cbn; [done|]. case_decide; [done|]. intros Hg. by rewrite IH.
Qed.
End jsmap.
End JsMap.

Create HintDb jsmap.
#[export] Hint Rewrite @JsMap.get_set_eq @JsMap.get_delete : jsmap.
#[export] Hint Resolve JsMap.set_keys_NoDup JsMap.delete_keys_NoDup : jsmap.
