(* ===== verification/JsNumber.v ===== *)
(** JavaScript numbers.

    A number is an IEEE 754 binary64 value.  [JInt z] is the integral value
    [z] (other than negative zero); [JFrac b] is any other value (a fraction,
    negative zero, an infinity, a NaN), given by its 64-bit pattern [b].  The
    predicates are those of the [Number] object that the modelled code calls. *)
From S2P Require Import Prelude.
Local Open Scope Z_scope.

Inductive jsnum : Type :=
  | JInt (z : Z)
  | JFrac (bits : Z).

#[export] Instance jsnum_eq_dec : EqDecision jsnum.
Proof. solve_decision. Defined.

Definition NEG_ZERO_BITS : Z := 2 ^ 63.
Definition MAX_SAFE_INTEGER : Z := 2 ^ 53 - 1.

Definition exponent_of (bits : Z) : Z := (bits / 2 ^ 52) mod 2 ^ 11.

(** The value a 64-bit pattern stands for ([DataView.getFloat64]). *)
Definition num_of_bits (bits : Z) : jsnum :=
  let negative := Z.testbit bits 63 in
  let signed z := if negative then - z else z in
  let ex := exponent_of bits in
  let frac := bits mod 2 ^ 52 in
  if ex =? 2047 then JFrac bits
  else
    let m := if ex =? 0 then frac else frac + 2 ^ 52 in
    let e := (if ex =? 0 then 1 else ex) - 1075 in
    if m =? 0 then (if negative then JFrac bits else JInt 0)
    else if 0 <=? e then JInt (signed (m * 2 ^ e))
    else if m mod 2 ^ (- e) =? 0 then JInt (signed (m / 2 ^ (- e)))
    else JFrac bits.

(** The pattern in a [JFrac] is that of a value no [JInt] stands for. *)
Definition wf_num (n : jsnum) : Prop :=
  match n with
  | JInt _ => True
  | JFrac b => 0 <= b < 2 ^ 64 /\ num_of_bits b = JFrac b
  end.

Definition isFinite (n : jsnum) : bool :=
  match n with JInt _ => true | JFrac b => negb (exponent_of b =? 2047) end.

Definition is_neg_zero (n : jsnum) : bool :=
  match n with JInt _ => false | JFrac b => b =? NEG_ZERO_BITS end.

(** The integer a number is equal to under [===], if any. *)
Definition num_to_Z (n : jsnum) : option Z :=
  match n with
  | JInt z => Some z
  | JFrac b => if b =? NEG_ZERO_BITS then Some 0 else None
  end.

Definition isInteger (n : jsnum) : bool :=
  match num_to_Z n with Some _ => true | None => false end.

Definition is_safe_Z (z : Z) : bool := (- MAX_SAFE_INTEGER <=? z) && (z <=? MAX_SAFE_INTEGER).

Definition isSafeInteger (n : jsnum) : bool :=
  match num_to_Z n with Some z => is_safe_Z z | None => false end.

(** 32-bit conversions and shifts of the language. *)
Definition uint32 (z : Z) : Z := z mod 2 ^ 32.
Definition shr_u (z n : Z) : Z := Z.shiftr (uint32 z) n.

(** A byte: an element of a [Uint8Array]; storing a number keeps its low 8 bits. *)
Definition is_byte (b : Z) : Prop := 0 <= b < 256.
Definition to_byte (z : Z) : Z := z mod 256.

#[export] Instance is_byte_dec b : Decision (is_byte b).
Proof. unfold is_byte. apply _. Defined.

Lemma to_byte_is_byte z : is_byte (to_byte z).
Proof. unfold is_byte, to_byte. dlia. Qed.

Lemma to_byte_id b : is_byte b -> to_byte b = b.
Proof. unfold is_byte, to_byte. intros. by apply Z.mod_small. Qed.

Lemma shr_u_spec z n : 0 <= z < 2 ^ 32 -> 0 <= n -> shr_u z n = z / 2 ^ n.
Proof. intros. unfold shr_u, uint32. rewrite Z.mod_small by done. by apply Z.shiftr_div_pow2. Qed.

(** Big-endian bytes of an unsigned [n]-byte integer. *)
Fixpoint be_bytes (n : nat) (z : Z) : list Z :=
  match n with
  | O => []
  | S n' => (z / 256 ^ Z.of_nat n') mod 256 :: be_bytes n' z
  end.

Fixpoint be_value (bs : list Z) : Z :=
  match bs with
  | [] => 0
  | b :: bs' => b * 256 ^ Z.of_nat (length bs') + be_value bs'
  end.

Lemma length_be_bytes n z : length (be_bytes n z) = n.
Proof. induction n; cbn; congruence. Qed.

Lemma be_bytes_are_bytes n z : Forall is_byte (be_bytes n z).
Proof. induction n; cbn; constructor; [unfold is_byte; dlia|done]. Qed.

Lemma be_value_bytes n z : 0 <= z -> be_value (be_bytes n z) = z mod 256 ^ Z.of_nat n.
Proof.
  intros Hz. induction n as [|n IH]; cbn [be_bytes be_value].
  { cbn. by rewrite Z.mod_1_r. }
  rewrite length_be_bytes, IH, Nat2Z.inj_succ, Z.pow_succ_r by lia.
  set (p := 256 ^ Z.of_nat n). assert (0 < p) by (apply Z.pow_pos_nonneg; lia).
  rewrite (Z.mul_comm 256 p), Z.rem_mul_r by lia. dlia.
Qed.

Lemma be_value_range bs : Forall is_byte bs -> 0 <= be_value bs < 256 ^ Z.of_nat (length bs).
Proof.
  induction 1 as [|b bs Hb _ IH]; [cbn; lia|]. cbn [be_value length].
  rewrite Nat2Z.inj_succ, Z.pow_succ_r by lia. unfold is_byte in Hb. nia.
Qed.

Create HintDb bytes.
#[export] Hint Resolve to_byte_is_byte be_bytes_are_bytes : bytes.

(** * Addition and order of JavaScript numbers, in IEEE 754 binary64 arithmetic.

    The arithmetic is that of the Standard Library's [SpecFloat]; a number is
    converted to it and back. *)
From Stdlib Require Import Floats.SpecFloat.
Local Open Scope Z_scope.

Definition sf_of_num (n : jsnum) : spec_float :=
  match n with
  | JInt z => binary_normalize 53 1024 z 0 false
  | JFrac bits =>
      let s := Z.testbit bits 63 in
      let ex := exponent_of bits in
      let frac := bits mod 2 ^ 52 in
      if ex =? 2047 then (if frac =? 0 then S754_infinity s else S754_nan)
      else if ex =? 0 then match frac with Zpos m => S754_finite s m (-1074) | _ => S754_zero s end
      else match frac + 2 ^ 52 with Zpos m => S754_finite s m (ex - 1075) | _ => S754_nan end
  end.

Definition NAN_BITS : Z := 0x7ff8000000000000.

Definition num_of_sf (x : spec_float) : jsnum :=
  let sign (s : bool) := if s then NEG_ZERO_BITS else 0 in
  match x with
  | S754_zero s => if s then JFrac NEG_ZERO_BITS else JInt 0
  | S754_infinity s => JFrac (sign s + 0x7ff0000000000000)
  | S754_nan => JFrac NAN_BITS
  | S754_finite s m e =>
      let signed z := if s then - z else z in
      if 0 <=? e then JInt (signed (Zpos m * 2 ^ e))
      else if Zpos m mod 2 ^ (- e) =? 0 then JInt (signed (Zpos m / 2 ^ (- e)))
      else if Zpos m <? 2 ^ 52 then JFrac (sign s + Zpos m)
      else JFrac (sign s + (e + 1075) * 2 ^ 52 + (Zpos m - 2 ^ 52))
  end.

(** The operator [+] on numbers. *)
Definition num_add (a b : jsnum) : jsnum := num_of_sf (SFadd 53 1024 (sf_of_num a) (sf_of_num b)).

(** The operator [===] on numbers: a NaN differs from itself, the zeros are equal. *)
Definition num_strict_eq (a b : jsnum) : bool :=
  match SFcompare (sf_of_num a) (sf_of_num b) with Some Eq => true | _ => false end.

(** 0.1 + 0.2 is 0.30000000000000004. *)
Example num_add_example :
  num_add (JFrac 0x3fb999999999999a) (JFrac 0x3fc999999999999a) = JFrac 0x3fd3333333333334.
Proof. vm_compute. reflexivity. Qed.

Example num_add_integers : num_add (JInt 41) (JInt (-83)) = JInt (-42).
Proof. vm_compute. reflexivity. Qed.

Example num_add_half : num_add (JFrac 0x3fe0000000000000) (JFrac 0x3fe0000000000000) = JInt 1.
Proof. vm_compute. reflexivity. Qed.

(** * Stores into fixed-length byte arrays ([Uint8Array]). *)

(** [buffer[i] = v]: the low 8 bits are stored, an index out of range is ignored. *)
Definition store (i v : Z) (buffer : list Z) : list Z := <[Z.to_nat i := to_byte v]> buffer.

(** [buffer.set(bytes, i)]; the ranges the code passes always fit. *)
Definition store_all (i : Z) (bytes buffer : list Z) : list Z :=
  let i := Z.to_nat i in
  take i buffer ++ bytes ++ drop (i + length bytes) buffer.

Lemma store_as_all i v buf :
  0 <= i < Z.of_nat (length buf) -> store i v buf = store_all i [to_byte v] buf.
Proof.
  intros Hi. unfold store, store_all. rewrite insert_take_drop by lia. cbn. by rewrite Nat.add_1_r.
Qed.

Lemma store_all_app i bs1 bs2 buf :
  0 <= i -> i + Z.of_nat (length bs1) + Z.of_nat (length bs2) <= Z.of_nat (length buf) ->
  store_all (i + Z.of_nat (length bs1)) bs2 (store_all i bs1 buf) = store_all i (bs1 ++ bs2) buf.
Proof.
  intros Hi Hlen. unfold store_all. rewrite Z2Nat.inj_add, Nat2Z.id by lia.
  set (n := Z.to_nat i). assert (length (take n buf) = n) as Hn by (rewrite length_take; lia).
  rewrite (app_assoc (take n buf)), take_app_length' by (rewrite length_app; lia).
  rewrite (drop_app_ge (take n buf ++ bs1)) by (rewrite length_app; lia).
  rewrite drop_drop, !length_app, Hn, <- !app_assoc. do 4 f_equal. lia.
Qed.

Lemma length_store i v buf : length (store i v buf) = length buf.
Proof. apply length_insert. Qed.

(** Stores at consecutive offsets. *)
Fixpoint store_seq (i : Z) (vs : list Z) (buf : list Z) : list Z :=
  match vs with
  | [] => buf
  | v :: vs' => store_seq (i + 1) vs' (store i v buf)
  end.

Lemma store_seq_all i vs buf :
  0 <= i -> i + Z.of_nat (length vs) <= Z.of_nat (length buf) ->
  store_seq i vs buf = store_all i (map to_byte vs) buf.
Proof.
  revert i buf. induction vs as [|v vs IH]; intros i buf Hi Hlen; cbn [store_seq map length] in *.
  - unfold store_all. cbn. by rewrite Nat.add_0_r, take_drop.
  - rewrite IH by (rewrite ?length_store; lia). rewrite store_as_all by lia.
    rewrite (store_all_app i [to_byte v] (map to_byte vs)); [done|lia|]. rewrite length_map. cbn. lia.
Qed.

Lemma length_store_all i bs buf :
  0 <= i -> i + Z.of_nat (length bs) <= Z.of_nat (length buf) -> length (store_all i bs buf) = length buf.
Proof. intros Hi Hlen. unfold store_all. rewrite !length_app, length_take, length_drop. lia. Qed.

(** A prefix of the array followed by the bytes just stored after it. *)
Lemma take_store_all i bs buf :
  0 <= i -> i + Z.of_nat (length bs) <= Z.of_nat (length buf) ->
  take (Z.to_nat (i + Z.of_nat (length bs))) (store_all i bs buf) = take (Z.to_nat i) buf ++ bs.
Proof.
  intros Hi Hlen. unfold store_all. rewrite app_assoc, take_app_le by (rewrite length_app, length_take; lia).
  apply take_ge. rewrite length_app, length_take. lia.
Qed.

(** Element [i] of an array of the right length. *)
Definition byte_at (i : nat) (bytes : list Z) : Z := nth i bytes 0.

Lemma byte_at_byte i bs : Forall is_byte bs -> is_byte (byte_at i bs).
Proof.
  intros Hbs. unfold byte_at. destruct (Nat.lt_ge_cases i (length bs)) as [Hi|Hi].
  - by apply Forall_nth.
  - rewrite nth_overflow by done. unfold is_byte. lia.
Qed.
