(* ===== verification/JsText.v ===== *)
(** JavaScript strings and the UTF-8 text codec of the platform.

    A string is its list of UTF-16 code units.  [text_encode] is
    [TextEncoder.encode] (a lone surrogate becomes U+FFFD) and [text_decode]
    is [TextDecoder("utf-8", {fatal: true, ignoreBOM: true}).decode], which
    throws on ill-formed input. *)
From S2P Require Import Prelude JsNumber.
Local Open Scope Z_scope.

Abbreviation jsstr := (list Z).

Definition is_code_unit (u : Z) : Prop := 0 <= u < 65536.

(** String literals. *)
Definition js (s : string) : jsstr :=
  map (fun a => Z.of_N (Ascii.N_of_ascii a)) (String.list_ascii_of_string s).

Definition is_high_surrogate (u : Z) : bool := (0xd800 <=? u) && (u <=? 0xdbff).
Definition is_low_surrogate (u : Z) : bool := (0xdc00 <=? u) && (u <=? 0xdfff).
Definition is_surrogate (u : Z) : bool := (0xd800 <=? u) && (u <=? 0xdfff).

Definition combine_surrogates (hi lo : Z) : Z := (hi - 0xd800) * 0x400 + (lo - 0xdc00) + 0x10000.

(** The scalar values of a string, U+FFFD standing for each lone surrogate. *)
Fixpoint scalar_values (s : jsstr) : list Z :=
  match s with
  | [] => []
  | u :: s' =>
      if is_high_surrogate u then
        match s' with
        | v :: s'' =>
            if is_low_surrogate v then combine_surrogates u v :: scalar_values s''
            else 0xfffd :: scalar_values s'
        | [] => [0xfffd]
        end
      else if is_low_surrogate u then 0xfffd :: scalar_values s'
      else u :: scalar_values s'
  end.

(** Well-formed strings hold no lone surrogate ([String.prototype.isWellFormed]). *)
Fixpoint well_formed (s : jsstr) : bool :=
  match s with
  | [] => true
  | u :: s' =>
      if is_high_surrogate u then
        match s' with
        | v :: s'' => is_low_surrogate v && well_formed s''
        | [] => false
        end
      else if is_low_surrogate u then false
      else well_formed s'
  end.

Definition is_scalar (c : Z) : Prop := 0 <= c <= 0x10ffff /\ is_surrogate c = false.

Definition utf8_char (c : Z) : list Z :=
  if c <? 0x80 then [c]
  else if c <? 0x800 then [0xc0 + c / 64; 0x80 + c mod 64]
  else if c <? 0x10000 then [0xe0 + c / 4096; 0x80 + (c / 64) mod 64; 0x80 + c mod 64]
  else [0xf0 + c / 262144; 0x80 + (c / 4096) mod 64; 0x80 + (c / 64) mod 64; 0x80 + c mod 64].

Definition text_encode (s : jsstr) : list Z := concat (map utf8_char (scalar_values s)).

Definition in_range (lo hi b : Z) : bool := (lo <=? b) && (b <=? hi).

(** The UTF-8 decoder of the Encoding Standard, fatal on error: the range of
    the second byte excludes overlong forms, surrogates and values past U+10FFFF. *)
Fixpoint utf8_decode (bs : list Z) : option (list Z) :=
  match bs with
  | [] => Some []
  | b0 :: t =>
      if b0 <? 0x80 then cons b0 <$> utf8_decode t
      else if in_range 0xc2 0xdf b0 then
        match t with
        | b1 :: t1 =>
            if in_range 0x80 0xbf b1
            then cons ((b0 - 0xc0) * 64 + (b1 - 0x80)) <$> utf8_decode t1
            else None
        | [] => None
        end
      else if in_range 0xe0 0xef b0 then
        let lo := if b0 =? 0xe0 then 0xa0 else 0x80 in
        let hi := if b0 =? 0xed then 0x9f else 0xbf in
        match t with
        | b1 :: b2 :: t2 =>
            if in_range lo hi b1 && in_range 0x80 0xbf b2
            then cons ((b0 - 0xe0) * 4096 + (b1 - 0x80) * 64 + (b2 - 0x80)) <$> utf8_decode t2
            else None
        | _ => None
        end
      else if in_range 0xf0 0xf4 b0 then
        let lo := if b0 =? 0xf0 then 0x90 else 0x80 in
        let hi := if b0 =? 0xf4 then 0x8f else 0xbf in
        match t with
        | b1 :: b2 :: b3 :: t3 =>
            if in_range lo hi b1 && in_range 0x80 0xbf b2 && in_range 0x80 0xbf b3
            then cons ((b0 - 0xf0) * 262144 + (b1 - 0x80) * 4096 + (b2 - 0x80) * 64 + (b3 - 0x80))
                   <$> utf8_decode t3
            else None
        | _ => None
        end
      else None
  end.

Definition utf16_char (c : Z) : jsstr :=
  if c <? 0x10000 then [c]
  else [0xd800 + (c - 0x10000) / 0x400; 0xdc00 + (c - 0x10000) mod 0x400].

Definition text_decode (bs : list Z) : option jsstr :=
  (fun cs => concat (map utf16_char cs)) <$> utf8_decode bs.

(** ** Round trip *)

Ltac unfold_ranges :=
  unfold is_scalar, in_range, is_high_surrogate, is_low_surrogate, is_surrogate, is_code_unit in *.

(** Decides the boolean comparisons of a goal by arithmetic. *)
Ltac bool_lia :=
  repeat match goal with
  | |- context [if ?b then _ else _] =>
      first [ replace b with true by (symmetry; unfold_ranges; dlia)
            | replace b with false by (symmetry; unfold_ranges; dlia) ]
  end.

Lemma utf8_decode_char c bs :
  is_scalar c -> utf8_decode (utf8_char c ++ bs) = cons c <$> utf8_decode bs.
Proof.
  unfold utf8_char. intros [Hr Hs]. unfold is_surrogate in Hs.
  destruct (c <? 0x80) eqn:H1; [cbn [app utf8_decode]; bool_lia; reflexivity|].
  destruct (c <? 0x800) eqn:H2.
  { cbn [app utf8_decode]. bool_lia. by replace (_ + _) with c by dlia. }
  destruct (c <? 0x10000) eqn:H3; cbn [app utf8_decode].
  - bool_lia. destruct (_ =? 0xe0) eqn:?, (_ =? 0xed) eqn:?; bool_lia;
      by replace (_ + _ + _) with c by dlia.
  - bool_lia. destruct (_ =? 0xf0) eqn:?, (_ =? 0xf4) eqn:?; bool_lia;
      by replace (_ + _ + _ + _) with c by dlia.
Qed.

Lemma utf8_decode_chars cs : Forall is_scalar cs -> utf8_decode (concat (map utf8_char cs)) = Some cs.
Proof.
  induction 1 as [|c cs Hc _ IH]; [done|]. cbn [map concat]. by rewrite utf8_decode_char, IH.
Qed.

(** Strings are handled by blocks: a pair of surrogates or one code unit. *)
Lemma jsstr_ind (P : jsstr -> Prop) :
  P [] ->
  (forall u v s, is_high_surrogate u = true -> is_low_surrogate v = true -> P s -> P (u :: v :: s)) ->
  (forall u s, (is_high_surrogate u = true -> match s with v :: _ => is_low_surrogate v = false | [] => True end) ->
     P s -> P (u :: s)) ->
  forall s, P s.
Proof.
  intros Hnil Hpair Hone s.
  remember (length s) as n eqn:Hn. assert (length s <= n)%nat as Hle by lia. clear Hn.
  revert s Hle. induction n as [|n IH]; intros [|u s] Hle; cbn in Hle; try done; try lia.
  destruct s as [|v s].
  { apply Hone; [done|]. done. }
  destruct (is_high_surrogate u && is_low_surrogate v) eqn:Huv.
  - apply andb_true_iff in Huv as [Hu Hv]. apply Hpair; [done..|]. apply IH. cbn in Hle. lia.
  - apply Hone.
    + intros Hu. rewrite Hu in Huv. cbn in Huv. done.
    + apply IH. cbn in *. lia.
Qed.

Lemma scalar_values_scalar s : Forall is_code_unit s -> Forall is_scalar (scalar_values s).
Proof.
  induction s as [|u v s Hu Hv IH|u s Hlone IH] using jsstr_ind; intros Hs; cbn [scalar_values].
  - constructor.
  - rewrite Hu, Hv. apply Forall_cons in Hs as [_ [_ Hs]%Forall_cons].
    constructor; [|by apply IH]. unfold combine_surrogates. unfold_ranges. split; dlia.
  - apply Forall_cons in Hs as [Hr Hs]. specialize (IH Hs).
    assert (is_scalar 0xfffd) by (split; [lia|done]).
    destruct (is_high_surrogate u) eqn:Hu.
    { destruct s as [|v s]; [by repeat constructor|]. specialize (Hlone eq_refl). cbn in Hlone.
      rewrite Hlone. by constructor. }
    clear Hlone. destruct (is_low_surrogate u) eqn:Hl; constructor; try done.
    unfold_ranges. split; lia.
Qed.

Lemma utf16_scalar_values s :
  Forall is_code_unit s -> well_formed s = true -> concat (map utf16_char (scalar_values s)) = s.
Proof.
  induction s as [|u v s Hu Hv IH|u s Hlone IH] using jsstr_ind; intros Hs Hw; [done|..].
  - cbn [scalar_values well_formed] in *. rewrite Hu in *. rewrite Hv in *. cbn [map concat].
    apply Forall_cons in Hs as [_ [_ Hs]%Forall_cons]. rewrite IH by done.
    unfold utf16_char, combine_surrogates. bool_lia. cbn [app]. unfold_ranges. repeat f_equal; dlia.
  - apply Forall_cons in Hs as [Hr Hs]. cbn [scalar_values well_formed] in *.
    destruct (is_high_surrogate u) eqn:Hu.
    { destruct s as [|v s]; [done|]. specialize (Hlone eq_refl). cbn in Hlone. by rewrite Hlone in Hw. }
    destruct (is_low_surrogate u) eqn:Hl; [done|]. cbn [map concat]. rewrite IH by done.
    unfold utf16_char. bool_lia. done.
Qed.

(** Conversely the scalar values of any string are those of a well-formed one. *)
Lemma utf16_chars_well_formed cs :
  Forall is_scalar cs -> well_formed (concat (map utf16_char cs)) = true.
Proof.
  induction 1 as [|c cs [Hr Hs] _ IH]; [done|]. cbn [map concat]. unfold utf16_char at 1.
  destruct (c <? 0x10000) eqn:Hc; cbn [app well_formed].
  - unfold is_surrogate in Hs. by bool_lia.
  - bool_lia. rewrite IH, andb_true_r. unfold_ranges. dlia.
Qed.

Lemma text_decode_encode s :
  Forall is_code_unit s ->
  text_decode (text_encode s) = Some (concat (map utf16_char (scalar_values s))).
Proof.
  intros Hs. unfold text_decode, text_encode. by rewrite utf8_decode_chars by by apply scalar_values_scalar.
Qed.

(** The codec gives a string back exactly when the string is well-formed. *)
Lemma text_round_trip s :
  Forall is_code_unit s -> text_decode (text_encode s) = Some s <-> well_formed s = true.
Proof.
  intros Hs. rewrite text_decode_encode by done. split.
  - intros [= Heq]. rewrite <- Heq. by apply utf16_chars_well_formed, scalar_values_scalar.
  - intros Hw. by rewrite utf16_scalar_values.
Qed.

Lemma utf8_char_bytes c : 0 <= c <= 0x10ffff -> Forall is_byte (utf8_char c).
Proof.
  intros Hc. unfold utf8_char, is_byte. repeat (case_match; try lia); repeat constructor; dlia.
Qed.

Lemma text_encode_bytes s : Forall is_code_unit s -> Forall is_byte (text_encode s).
Proof.
  intros Hs. unfold text_encode. apply Forall_concat, Forall_map.
  eapply Forall_impl; [by apply scalar_values_scalar|]. intros c [Hc _]. by apply utf8_char_bytes.
Qed.

(** ** Soundness of decoding *)

Ltac split_andb := repeat match goal with H : _ && _ = true |- _ => apply andb_true_iff in H as [? ?] end.

(** One step of the decoder consumes one encoded character. *)
Lemma utf8_decode_step b bs cs :
  0 <= b -> utf8_decode (b :: bs) = Some cs ->
  exists c cs' bs', is_scalar c /\ b :: bs = utf8_char c ++ bs' /\
    cs = c :: cs' /\ utf8_decode bs' = Some cs' /\ (length bs' <= length bs)%nat.
Proof.
  intros Hb. cbn [utf8_decode]. intros Hdec.
  destruct (b <? 0x80) eqn:H1; [|destruct (in_range 0xc2 0xdf b) eqn:H2;
    [|destruct (in_range 0xe0 0xef b) eqn:H3; [|destruct (in_range 0xf0 0xf4 b) eqn:H4; [|done]]]].
  - apply fmap_Some in Hdec as (cs' & Hd & ->). exists b, cs', bs.
    unfold utf8_char. rewrite H1. split_and!; try done. unfold_ranges; lia.
  - destruct bs as [|b1 bs]; [done|]. destruct (in_range _ _ b1) eqn:Hb1; [|done].
    apply fmap_Some in Hdec as (cs' & Hd & ->).
    eexists _, cs', bs. split_and!; [| |done|done|cbn; lia].
    + unfold_ranges; lia.
    + unfold utf8_char. bool_lia. cbn [app]. unfold_ranges. repeat f_equal; dlia.
  - destruct bs as [|b1 [|b2 bs]]; [done..|]. cbv zeta in Hdec.
    destruct (_ && _) eqn:Hbs in Hdec; [|done].
    apply fmap_Some in Hdec as (cs' & Hd & ->).
    eexists _, cs', bs. split_and!; [| |done|done|cbn; lia].
    + unfold_ranges. destruct (b =? 0xe0) eqn:?, (b =? 0xed) eqn:?; lia.
    + unfold utf8_char. unfold_ranges. destruct (b =? 0xe0) eqn:?, (b =? 0xed) eqn:?;
        bool_lia; cbn [app]; repeat f_equal; dlia.
  - destruct bs as [|b1 [|b2 [|b3 bs]]]; [done..|]. cbv zeta in Hdec.
    destruct (_ && _) eqn:Hbs in Hdec; [|done].
    apply fmap_Some in Hdec as (cs' & Hd & ->).
    eexists _, cs', bs. split_and!; [| |done|done|cbn; lia].
    + unfold_ranges. destruct (b =? 0xf0) eqn:?, (b =? 0xf4) eqn:?; lia.
    + unfold utf8_char. unfold_ranges. destruct (b =? 0xf0) eqn:?, (b =? 0xf4) eqn:?;
        bool_lia; cbn [app]; repeat f_equal; dlia.
Qed.

Lemma utf8_decode_sound n : forall bs cs, (length bs <= n)%nat -> Forall is_byte bs ->
  utf8_decode bs = Some cs -> Forall is_scalar cs /\ concat (map utf8_char cs) = bs.
Proof.
  induction n as [|n IH]; intros [|b bs] cs Hn Hbs; cbn [length] in Hn; try (intros [= <-]; done); try lia.
  intros Hdec. pose proof Hbs as [[Hb _] _]%Forall_cons.
  apply utf8_decode_step in Hdec as (c & cs' & bs' & Hc & Heq & -> & Hd & Hlen); [|done].
  rewrite Heq in Hbs |- *. apply Forall_app in Hbs as [_ Hbs].
  apply IH in Hd as [Hcs Henc]; [|lia|done]. split; [by constructor|].
  cbn [map concat]. by rewrite Henc.
Qed.

Lemma scalar_values_utf16_chars cs :
  Forall is_scalar cs -> scalar_values (concat (map utf16_char cs)) = cs.
Proof.
  induction 1 as [|c cs [Hr Hs] _ IH]; [done|]. cbn [map concat]. unfold utf16_char at 1.
  destruct (c <? 0x10000) eqn:Hc; cbn [app scalar_values].
  - unfold is_surrogate in Hs. bool_lia. by rewrite IH.
  - bool_lia. rewrite IH. f_equal. unfold combine_surrogates. dlia.
Qed.

Lemma text_decode_sound bs s :
  Forall is_byte bs -> text_decode bs = Some s ->
  Forall is_code_unit s /\ well_formed s = true /\ text_encode s = bs.
Proof.
  unfold text_decode. intros Hbs (cs & Hcs & ->)%fmap_Some.
  eapply utf8_decode_sound in Hcs as [Hsc Henc]; [|done..]. split_and!.
  - apply Forall_concat, Forall_map. eapply Forall_impl; [done|]. intros c [Hc _].
    unfold utf16_char. case_match; repeat constructor; dlia.
  - by apply utf16_chars_well_formed.
  - unfold text_encode. by rewrite scalar_values_utf16_chars.
Qed.

Create HintDb text.
#[export] Hint Resolve text_encode_bytes scalar_values_scalar : text.

(** * The UTF-16 code units of the strings of the session types.

    A [string] of the model is the text in UTF-8, a lone surrogate as the three bytes of its
    code point.  Where the code counts, cuts or matches characters, the string is read as its
    code units. *)

Fixpoint utf8_units (bs : list Z) : jsstr :=
  match bs with
  | [] => []
  | b0 :: t =>
      if b0 <? 0x80 then b0 :: utf8_units t
      else match t with
           | [] => []
           | b1 :: t1 =>
               if b0 <? 0xe0 then ((b0 - 0xc0) * 64 + (b1 - 0x80)) :: utf8_units t1
               else match t1 with
                    | [] => []
                    | b2 :: t2 =>
                        if b0 <? 0xf0 then ((b0 - 0xe0) * 4096 + (b1 - 0x80) * 64 + (b2 - 0x80)) :: utf8_units t2
                        else match t2 with
                             | [] => []
                             | b3 :: t3 => utf16_char ((b0 - 0xf0) * 262144 + (b1 - 0x80) * 4096 + (b2 - 0x80) * 64 + (b3 - 0x80)) ++ utf8_units t3
                             end
                    end
           end
  end.

(** The code units of a string, and its [length]. *)
Definition units (s : string) : jsstr := utf8_units (js s).
Definition js_length (s : string) : Z := Z.of_nat (length (units s)).

(** Strings of ASCII characters are their bytes. *)
Lemma ascii_units bs : Forall (fun b => b < 0x80) bs -> utf8_units bs = bs.
Proof. induction 1 as [|b bs Hb _ IH]; [done|]. cbn [utf8_units]. apply Z.ltb_lt in Hb. by rewrite Hb, IH. Qed.

Lemma js_length_nonneg s : 0 <= js_length s.
Proof. unfold js_length. lia. Qed.
#[export] Hint Resolve js_length_nonneg : core.
#[global] Arguments js_length _ : simpl never.

(** The order of [Array.prototype.sort] on strings: by code units. *)
Fixpoint units_le (a b : jsstr) : bool :=
  match a, b with
  | [], _ => true
  | _ :: _, [] => false
  | x :: a', y :: b' => (x <? y) || ((x =? y) && units_le a' b')
  end.

Lemma units_le_refl a : units_le a a = true.
Proof. induction a as [|x a IH]; [done|]. cbn. rewrite Z.eqb_refl, IH. by rewrite orb_true_r. Qed.

Lemma units_le_total a : forall b, units_le a b = true \/ units_le b a = true.
Proof.
  induction a as [|x a IH]; intros [|y b]; cbn; auto. destruct (Z.lt_trichotomy x y) as [H|[->|H]].
  - left. apply Z.ltb_lt in H. by rewrite H.
  - rewrite Z.ltb_irrefl, Z.eqb_refl. cbn. apply IH.
  - right. apply Z.ltb_lt in H. by rewrite H.
Qed.

Lemma units_le_trans a : forall b c, units_le a b = true -> units_le b c = true -> units_le a c = true.
Proof.
  induction a as [|x a IH]; intros [|y b] [|z c]; cbn; try done. rewrite !orb_true_iff, !andb_true_iff, !Z.ltb_lt, !Z.eqb_eq.
  intros [Hxy|[-> Hab]] [Hyz|[-> Hbc]]; [left; lia|by left|by left|right; split; [done|by eapply IH]].
Qed.

Lemma units_le_antisym a : forall b, units_le a b = true -> units_le b a = true -> a = b.
Proof.
  induction a as [|x a IH]; intros [|y b]; cbn; try done. rewrite !orb_true_iff, !andb_true_iff, !Z.ltb_lt, !Z.eqb_eq.
  intros [Hxy|[-> Hab]] [Hyx|[Heq Hba]]; try lia. f_equal. by apply IH.
Qed.

Example units_ascii : units "abc" = [97; 98; 99].
Proof. reflexivity. Qed.

(** The text of U+1F600 is two code units. *)
Example units_pair : utf8_units (text_encode [0xd83d; 0xde00]) = [0xd83d; 0xde00].
Proof. reflexivity. Qed.
