(* ===== verification/JsObject.v ===== *)
(** Own properties of plain JavaScript objects.

    [Object.keys] lists the array-index keys in ascending order and then the
    other string keys in insertion order; [define] is [Object.defineProperty]
    (and plain assignment) of an enumerable data property. *)
From S2P Require Import Prelude JsNumber JsText.
Local Open Scope Z_scope.

Definition is_digit (u : Z) : bool := in_range 48 57 u.

Definition decimal_value (s : jsstr) : Z := foldl (fun acc u => acc * 10 + (u - 48)) 0 s.

(** An array index: a canonical decimal below 2^32 - 1. *)
Definition array_index (s : jsstr) : option Z :=
  match s with
  | [] => None
  | u :: s' =>
      if forallb is_digit s && (negb (u =? 48) || bool_decide (s' = [])) then
        let v := decimal_value s in if v <? 2 ^ 32 - 1 then Some v else None
      else None
  end.

(** [key_le k1 k2]: property [k1] may be listed before property [k2]. *)
Definition key_le (k1 k2 : jsstr) : bool :=
  match array_index k1, array_index k2 with
  | Some i, Some j => i <=? j
  | None, Some _ => false
  | _, None => true
  end.

Section properties.
Context {V : Type}.

(** Inserts a key before the first one that must be listed after it. *)
Fixpoint insert_key (k : jsstr) (v : V) (o : list (jsstr * V)) : list (jsstr * V) :=
  match o with
  | [] => [(k, v)]
  | (k', v') :: o' => if key_le k' k then (k', v') :: insert_key k v o' else (k, v) :: (k', v') :: o'
  end.

Definition define (k : jsstr) (v : V) (o : list (jsstr * V)) : list (jsstr * V) :=
  if JsMap.has k o then JsMap.set k v o else insert_key k v o.

(** Every property list of an object is ordered and without duplicates. *)
Fixpoint ordered (ks : list jsstr) : bool :=
  match ks with
  | [] => true
  | k :: ks' => forallb (fun k' => key_le k k' && bool_decide (k <> k')) ks' && ordered ks'
  end.

Lemma ordered_app_inv ks k : ordered (ks ++ [k]) = true ->
  ordered ks = true /\ forall k', k' ∈ ks -> key_le k' k = true /\ k' <> k.
Proof.
  induction ks as [|k1 ks IH]; cbn [app ordered]; intros H.
  { split; [done|]. intros k' Hk'. by apply elem_of_nil in Hk'. }
  apply andb_true_iff in H as [Hall H]. apply IH in H as [Ho Hlt].
  rewrite forallb_app, andb_true_iff in Hall. destruct Hall as [Hall1 Hall2].
  split; [by rewrite Hall1, Ho|]. cbn in Hall2. rewrite andb_true_r, andb_true_iff, bool_decide_eq_true in Hall2.
  intros k' [->|Hk']%elem_of_cons; [done|]. by apply Hlt.
Qed.

(** A key that belongs at the end is appended. *)
Lemma define_last k v o : ordered (o.*1 ++ [k]) = true -> define k v o = o ++ [(k, v)].
Proof.
  intros Ho. apply ordered_app_inv in Ho as [_ Hlt]. unfold define.
  assert (JsMap.has k o = false) as ->.
  { unfold JsMap.has. destruct (JsMap.get k o) eqn:Hg; [|done].
    apply JsMap.get_Some_elem in Hg. destruct (Hlt k) as [_ []]; [|done].
    apply list_elem_of_fmap. by exists (k, v0). }
  induction o as [|[k' v'] o IH]; cbn; [done|].
  destruct (Hlt k') as [-> _]; [left|]. f_equal. apply IH. intros k1 Hk1. apply Hlt. by right.
Qed.

Lemma key_le_trans k1 k2 k3 : key_le k1 k2 = true -> key_le k2 k3 = true -> key_le k1 k3 = true.
Proof.
  unfold key_le. destruct (array_index k1), (array_index k2), (array_index k3); try done. lia.
Qed.

Lemma key_le_total k1 k2 : key_le k1 k2 = false -> key_le k2 k1 = true.
Proof. unfold key_le. destruct (array_index k1), (array_index k2); try done. lia. Qed.

Lemma insert_key_keys k v o : (insert_key k v o).*1 ≡ₚ k :: o.*1.
Proof.
  induction o as [|[k' v'] o IH]; cbn; [done|]. destruct (key_le k' k); cbn; [|done].
  by rewrite IH, Permutation_swap.
Qed.

Lemma ordered_forall k ks :
  forallb (fun k' => key_le k k' && bool_decide (k <> k')) ks = true <->
  forall k', k' ∈ ks -> key_le k k' = true /\ k <> k'.
Proof.
  rewrite forallb_forall. setoid_rewrite <- list_elem_of_In.
  split; intros H k' Hk'; specialize (H k' Hk'); rewrite andb_true_iff, bool_decide_eq_true in *; done.
Qed.

Lemma insert_key_ordered k v o : ordered o.*1 = true -> k ∉ o.*1 -> ordered (insert_key k v o).*1 = true.
Proof.
  induction o as [|[k' v'] o IH]; cbn [insert_key fmap list_fmap fst]; [done|].
  cbn [ordered]. rewrite andb_true_iff, ordered_forall. intros [Hall Ho] Hk.
  apply not_elem_of_cons in Hk as [Hne Hk].
  destruct (key_le k' k) eqn:Hle; cbn [fmap list_fmap fst ordered]; rewrite andb_true_iff.
  - split; [|by apply IH]. apply ordered_forall. intros k1 Hk1. rewrite insert_key_keys in Hk1.
    apply elem_of_cons in Hk1 as [->|Hk1]; [done|]. by apply Hall.
  - apply key_le_total in Hle. split.
    + apply ordered_forall. intros k1 [->|Hk1]%elem_of_cons; [done|].
      split; [|by intros ->]. eapply key_le_trans; [done|]. by apply Hall.
    + rewrite andb_true_iff, ordered_forall. done.
Qed.

(** Defining a property of an object gives an object. *)
Lemma define_new_ordered k v o :
  ordered o.*1 = true -> k ∉ o.*1 ->
  ordered (define k v o).*1 = true /\ (define k v o).*1 ≡ₚ k :: o.*1 /\ define k v o ≡ₚ (k, v) :: o.
Proof.
  intros Ho Hk. unfold define, JsMap.has.
  assert (JsMap.get k o = None) as -> by by apply JsMap.get_None.
  split_and!; [by apply insert_key_ordered|by apply insert_key_keys|].
  clear. induction o as [|[k' v'] o IH]; cbn; [done|]. destruct (key_le k' k); [|done].
  by rewrite IH, Permutation_swap.
Qed.
End properties.
