(* ===== verification/CborWriter.v ===== *)
(** CBOR limits and errors: [packages/protocol/src/cbor/options.ts]. *)
From S2P Require Import Prelude JsNumber.
Local Open Scope Z_scope.

Definition UINT32_BASE : Z := 0x100000000.
Definition MAX_UINT32 : Z := 0xffffffff.
Definition MAX_CONFIGURED_DEPTH : Z := 512.

Definition DEFAULT_MAX_CBOR_BYTE_LENGTH : Z := 16 * 1024 * 1024.
Definition DEFAULT_MAX_CBOR_CONTAINER_LENGTH : Z := 1000000.
Definition DEFAULT_MAX_CBOR_DEPTH : Z := 64.

(** Every field may be undefined. *)
Record CborOptions := mkCborOptions {
  o_maxByteLength : option jsnum;
  o_maxContainerLength : option jsnum;
  o_maxDepth : option jsnum;
}.

Record ResolvedCborOptions := mkResolved {
  maxByteLength : Z;
  maxContainerLength : Z;
  maxDepth : Z;
}.

(** What the codec throws.  [OutOfFuel] is no error of the code: it marks an
    exhausted recursion bound of the model, and is proved unreachable. *)
Inductive cbor_error : Type :=
  | CborError (message : string)
  | CborRangeError (message : string)
  | CborTypeError (message : string)
  | OutOfFuel.

#[export] Instance cbor_error_eq_dec : EqDecision cbor_error.
Proof. solve_decision. Defined.

Definition resolveLimit (name : string) (value : jsnum) (maximum : Z) : result cbor_error Z :=
  let err := CborRangeError (name +:+ " must be an integer between 0 and " +:+ pretty maximum) in
  match num_to_Z value with
  | Some z => if negb (isSafeInteger value) || (z <? 0) || (z >? maximum) then Err err else Ok z
  | None => Err err
  end.

Definition resolveOptions (options : option CborOptions) : result cbor_error ResolvedCborOptions :=
  let field (f : CborOptions -> option jsnum) : option jsnum := options ≫= f in
  bytes ← resolveLimit "maxByteLength"
            (default (JInt DEFAULT_MAX_CBOR_BYTE_LENGTH) (field o_maxByteLength)) MAX_UINT32;
  container ← resolveLimit "maxContainerLength"
            (default (JInt DEFAULT_MAX_CBOR_CONTAINER_LENGTH) (field o_maxContainerLength)) MAX_UINT32;
  depth ← resolveLimit "maxDepth"
            (default (JInt DEFAULT_MAX_CBOR_DEPTH) (field o_maxDepth)) MAX_CONFIGURED_DEPTH;
  mret (mkResolved bytes container depth).

(** The limits every codec run works under. *)
Definition resolved_ok (o : ResolvedCborOptions) : Prop :=
  0 <= maxByteLength o <= MAX_UINT32 /\
  0 <= maxContainerLength o <= MAX_UINT32 /\
  0 <= maxDepth o <= MAX_CONFIGURED_DEPTH.

(** ** The recursion bound is never hit *)

Definition fueled {A} (m : result cbor_error A) : Prop := m <> Err OutOfFuel.

Lemma fueled_bind {A B} (m : result cbor_error A) (f : A -> result cbor_error B) :
  fueled m -> (forall a, fueled (f a)) -> fueled (m ≫= f).
Proof. unfold fueled. destruct m; cbn; naive_solver. Qed.

Lemma fueled_ret {A} (a : A) : fueled (mret a).
Proof. done. Qed.

Lemma fueled_Ok {A} (a : A) : fueled (Ok a).
Proof. done. Qed.

Lemma fueled_CborError {A} m : fueled (A:=A) (Err (CborError m)).
Proof. done. Qed.

Lemma fueled_throw_if b e : e <> OutOfFuel -> fueled (throw_if b e).
Proof. unfold fueled. destruct b; cbn; naive_solver. Qed.

Lemma fueled_check {A} b e (m : result cbor_error A) :
  e <> OutOfFuel -> (b = false -> fueled m) -> fueled (throw_if b e;; m).
Proof. unfold fueled. destruct b; cbn; naive_solver. Qed.

Ltac fuel_steps :=
  cbv zeta;
  repeat match goal with
  | |- fueled (throw_if _ _ ≫= _) => apply fueled_check; [discriminate|intros _]
  | |- fueled (_ ≫= _) => apply fueled_bind; [|intros ?]
  end.

Lemma fueled_mfold {S A} (f : S -> A -> result cbor_error S) l : forall s,
  (forall s a, a ∈ l -> fueled (f s a)) -> fueled (mfold f s l).
Proof.
  induction l as [|a l IH]; intros s Hf; cbn; [done|].
  pose proof (Hf s a ltac:(left)) as Ha. unfold fueled in *. destruct (f s a) as [s'|e]; [|congruence].
  apply IH. intros; apply Hf. by right.
Qed.

Create HintDb fueled.
#[export] Hint Resolve fueled_ret fueled_Ok fueled_CborError fueled_throw_if : fueled.
#[export] Hint Extern 1 (fueled (_ ≫= _)) => apply fueled_bind; [|intros ?] : fueled.
#[export] Hint Extern 1 (fueled (if ?b then _ else _)) => destruct b : fueled.
#[export] Hint Extern 1 (_ <> OutOfFuel) => discriminate : fueled.

Lemma fueled_resolveOptions options : fueled (resolveOptions options).
Proof.
  unfold resolveOptions. repeat apply fueled_bind; intros; unfold resolveLimit;
    repeat case_match; auto with fueled; done.
Qed.

Lemma resolveLimit_Ok name value maximum z :
  resolveLimit name value maximum = Ok z -> num_to_Z value = Some z /\ 0 <= z <= maximum.
Proof.
  unfold resolveLimit. destruct (num_to_Z value) as [z'|]; [|done].
  destruct (_ || _) eqn:Hb; [done|]. intros [= <-]. split; [done|]. lia.
Qed.

Lemma resolveOptions_ok options o : resolveOptions options = Ok o -> resolved_ok o.
Proof.
  unfold resolveOptions. intros H. inv_ok.
  repeat match goal with H : resolveLimit _ _ _ = Ok _ |- _ => apply resolveLimit_Ok in H as [_ ?] end.
  split_and!; cbn; lia.
Qed.

Lemma resolveOptions_default :
  resolveOptions None =
  Ok (mkResolved DEFAULT_MAX_CBOR_BYTE_LENGTH DEFAULT_MAX_CBOR_CONTAINER_LENGTH DEFAULT_MAX_CBOR_DEPTH).
Proof. vm_compute. reflexivity. Qed.

(** * The growing output buffer of the CBOR encoder: class [CborWriter] and
    [writeArgument] of [packages/protocol/src/cbor/encoder.ts].

    The writer is a fixed array of bytes, an offset into it and a size limit.
    It implements an append-only byte sequence ([written]): every operation
    appends its bytes or throws because the limit is passed ([appends]). *)

Record CborWriter := mkWriter {
  w_buffer : list Z;
  w_offset : Z;
  w_maxByteLength : Z;
}.

Definition new_CborWriter (maxByteLength : Z) : CborWriter :=
  mkWriter (replicate (Z.to_nat (Z.min 256 maxByteLength)) 0) 0 maxByteLength.

(** [while (capacity < required) capacity = ...]: one round is enough
    ([grow_capacity_enough]), the fuel is two. *)
Fixpoint grow_capacity (fuel : nat) (capacity required maxByteLength : Z) : Z :=
  match fuel with
  | O => capacity
  | S fuel' =>
      if capacity <? required
      then grow_capacity fuel' (Z.min maxByteLength (Z.max required (capacity * 2))) required maxByteLength
      else capacity
  end.

Definition ensureCapacity (additionalBytes : Z) (w : CborWriter) : result cbor_error CborWriter :=
  let required := w_offset w + additionalBytes in
  throw_if (required >? w_maxByteLength w)
    (CborError ("CBOR byte length exceeds configured limit of " +:+ pretty (w_maxByteLength w)));;
  if required <=? Z.of_nat (length (w_buffer w)) then mret w
  else
    let capacity := grow_capacity 2 (Z.max 1 (Z.of_nat (length (w_buffer w)))) required (w_maxByteLength w) in
    let expanded := store_all 0 (w_buffer w) (replicate (Z.to_nat capacity) 0) in
    mret (mkWriter expanded (w_offset w) (w_maxByteLength w)).

Definition writeByte (value : Z) (w : CborWriter) : result cbor_error CborWriter :=
  w ← ensureCapacity 1 w;
  mret (mkWriter (store (w_offset w) value (w_buffer w)) (w_offset w + 1) (w_maxByteLength w)).

Definition writeBytes (bytes : list Z) (w : CborWriter) : result cbor_error CborWriter :=
  w ← ensureCapacity (Z.of_nat (length bytes)) w;
  mret (mkWriter (store_all (w_offset w) bytes (w_buffer w))
          (w_offset w + Z.of_nat (length bytes)) (w_maxByteLength w)).

Definition writeUint16 (value : Z) (w : CborWriter) : result cbor_error CborWriter :=
  w ← ensureCapacity 2 w;
  let o := w_offset w in
  let buffer := store (o + 1) value (store o (shr_u value 8) (w_buffer w)) in
  mret (mkWriter buffer (o + 2) (w_maxByteLength w)).

Definition writeUint32 (value : Z) (w : CborWriter) : result cbor_error CborWriter :=
  w ← ensureCapacity 4 w;
  let o := w_offset w in
  let buffer := store o (shr_u value 24) (w_buffer w) in
  let buffer := store (o + 1) (shr_u value 16) buffer in
  let buffer := store (o + 2) (shr_u value 8) buffer in
  let buffer := store (o + 3) value buffer in
  mret (mkWriter buffer (o + 4) (w_maxByteLength w)).

Definition writeUint64 (value : Z) (w : CborWriter) : result cbor_error CborWriter :=
  let high := value / UINT32_BASE in
  let low := value - high * UINT32_BASE in
  w ← writeUint32 high w;
  writeUint32 low w.

(** [bits] is the IEEE 754 pattern of the number, stored big-endian by [setFloat64]. *)
Definition writeFloat64 (bits : Z) (w : CborWriter) : result cbor_error CborWriter :=
  w ← ensureCapacity 9 w;
  let o := w_offset w in
  let buffer := store_all (o + 1) (be_bytes 8 bits) (store o 0xfb (w_buffer w)) in
  mret (mkWriter buffer (o + 9) (w_maxByteLength w)).

Definition finish (w : CborWriter) : list Z := take (Z.to_nat (w_offset w)) (w_buffer w).

Definition writeArgument (majorType value : Z) (w : CborWriter) : result cbor_error CborWriter :=
  let prefix := Z.shiftl majorType 5 in
  if value <? 24 then writeByte (Z.lor prefix value) w
  else if value <=? 0xff then
    w ← writeByte (Z.lor prefix 24) w; writeByte value w
  else if value <=? 0xffff then
    w ← writeByte (Z.lor prefix 25) w; writeUint16 value w
  else if value <=? MAX_UINT32 then
    w ← writeByte (Z.lor prefix 26) w; writeUint32 value w
  else
    w ← writeByte (Z.lor prefix 27) w; writeUint64 value w.

(** ** The append-only sequence the writer implements *)

Definition writer_ok (w : CborWriter) : Prop :=
  0 <= w_offset w <= Z.of_nat (length (w_buffer w)) /\
  Z.of_nat (length (w_buffer w)) <= w_maxByteLength w.

Abbreviation written := finish.

Definition appends (f : CborWriter -> result cbor_error CborWriter) (bs : list Z) : Prop :=
  forall w, writer_ok w ->
  if w_offset w + Z.of_nat (length bs) <=? w_maxByteLength w
  then exists w', f w = Ok w' /\ writer_ok w' /\ written w' = written w ++ bs /\
         w_maxByteLength w' = w_maxByteLength w
  else exists m, f w = Err (CborError m).

Lemma length_written w : writer_ok w -> Z.of_nat (length (written w)) = w_offset w.
Proof. intros [? ?]. unfold finish. rewrite length_take. lia. Qed.

Lemma new_writer_ok m : 0 <= m -> writer_ok (new_CborWriter m) /\ written (new_CborWriter m) = [].
Proof. intros. split; [|done]. split; cbn; rewrite length_replicate; lia. Qed.

Lemma grow_capacity_enough fuel c r m :
  (1 <= fuel)%nat -> c <= m -> r <= m ->
  grow_capacity fuel c r m = grow_capacity 1 c r m /\ r <= grow_capacity fuel c r m <= m /\
  c <= grow_capacity fuel c r m.
Proof.
  intros Hf Hc Hr. destruct fuel as [|fuel]; [lia|]. cbn [grow_capacity].
  destruct (c <? r) eqn:Hcr; [|lia].
  assert (grow_capacity fuel (m `min` (r `max` (c * 2))) r m = m `min` (r `max` (c * 2))) as ->.
  { destruct fuel; cbn [grow_capacity]; [done|].
    by replace (Z.min m _ <? r) with false by lia. }
  lia.
Qed.

Lemma ensureCapacity_spec n w :
  writer_ok w -> 0 <= n ->
  if w_offset w + n <=? w_maxByteLength w
  then exists w', ensureCapacity n w = Ok w' /\ writer_ok w' /\ written w' = written w /\
         w_offset w' = w_offset w /\ w_maxByteLength w' = w_maxByteLength w /\
         w_offset w' + n <= Z.of_nat (length (w_buffer w'))
  else exists m, ensureCapacity n w = Err (CborError m).
Proof.
  intros Hw Hn. pose proof Hw as [? ?]. unfold ensureCapacity, throw_if.
  destruct (w_offset w + n <=? w_maxByteLength w) eqn:Hle.
  2:{ replace (_ >? _) with true by lia. cbn. eauto. }
  replace (_ >? _) with false by lia. cbn [mbind result_bind].
  destruct (_ <=? Z.of_nat (length (w_buffer w))) eqn:Hcap.
  { exists w. split_and!; try done; lia. }
  set (g := grow_capacity 2 _ _ _).
  destruct (grow_capacity_enough 2 (Z.max 1 (Z.of_nat (length (w_buffer w)))) (w_offset w + n)
              (w_maxByteLength w)) as (_ & Hg & Hg'); [lia..|]. fold g in Hg, Hg'.
  eexists. split; [done|]. unfold store_all. cbn [w_buffer w_offset w_maxByteLength writer_ok].
  unfold writer_ok, finish. cbn [w_buffer w_offset w_maxByteLength].
  rewrite Z2Nat.inj_0, take_0, app_nil_l, Nat.add_0_l. rewrite length_app, length_drop, length_replicate.
  split_and!; try lia. rewrite take_app_le; [done|lia].
Qed.

(** Storing bytes just past the offset appends them. *)
Lemma store_all_written w bs :
  writer_ok w -> w_offset w + Z.of_nat (length bs) <= Z.of_nat (length (w_buffer w)) ->
  let w' := mkWriter (store_all (w_offset w) bs (w_buffer w)) (w_offset w + Z.of_nat (length bs))
              (w_maxByteLength w) in
  writer_ok w' /\ written w' = written w ++ bs.
Proof.
  intros [? ?] Hfit. cbn zeta. unfold writer_ok, finish, store_all. cbn [w_buffer w_offset w_maxByteLength].
  rewrite !length_app, length_take, length_drop. split; [lia|].
  rewrite app_assoc, take_app_le by (rewrite length_app, length_take; lia).
  apply take_ge. rewrite length_app, length_take. lia.
Qed.

Lemma appends_bind f g xs ys :
  appends f xs -> appends g ys -> appends (fun w => w ← f w; g w) (xs ++ ys).
Proof.
  intros Hf Hg w Hw. specialize (Hf w Hw). rewrite length_app, Nat2Z.inj_add.
  destruct (w_offset w + Z.of_nat (length xs) <=? w_maxByteLength w) eqn:Hx.
  - destruct Hf as (w1 & Hf & Hw1 & Hwr & Hm). rewrite Hf. cbn [mbind result_bind].
    specialize (Hg w1 Hw1). pose proof (length_written w Hw). pose proof (length_written w1 Hw1) as Hl.
    rewrite Hwr, length_app in Hl.
    replace (w_offset w1) with (w_offset w + Z.of_nat (length xs)) in Hg by lia. rewrite Hm in Hg.
    rewrite Z.add_assoc.
    destruct (w_offset w + Z.of_nat (length xs) + Z.of_nat (length ys) <=? w_maxByteLength w) eqn:Hy; [|done].
    destruct Hg as (w2 & Hg & Hw2 & Hwr2 & Hm2). exists w2.
    split_and!; try done. by rewrite Hwr2, Hwr, app_assoc.
  - destruct Hf as [m Hf]. rewrite Hf. if_lia. cbn. eauto.
Qed.

Lemma appends_ext f g xs : (forall w, f w = g w) -> appends f xs -> appends g xs.
Proof. intros Hext Hf w Hw. specialize (Hf w Hw). by rewrite Hext in Hf. Qed.

Lemma appends_nil : appends mret [].
Proof.
  intros w Hw. pose proof Hw as [? ?]. cbn. if_lia.
  exists w. by rewrite app_nil_r.
Qed.

(** An operation that reserves its bytes and then stores them appends them. *)
Lemma appends_store n bs g (f : CborWriter -> result cbor_error CborWriter) :
  Z.of_nat (length bs) = n ->
  (forall w, f w = (w ← ensureCapacity n w; mret (g w))) ->
  (forall w, 0 <= w_offset w -> w_offset w + n <= Z.of_nat (length (w_buffer w)) ->
     g w = mkWriter (store_all (w_offset w) bs (w_buffer w)) (w_offset w + n) (w_maxByteLength w)) ->
  appends f bs.
Proof.
  intros Hn Hf Hg w Hw. pose proof (ensureCapacity_spec n w Hw ltac:(lia)) as Hens. rewrite Hn, Hf.
  destruct (w_offset w + n <=? w_maxByteLength w) eqn:Hle.
  - destruct Hens as (w1 & -> & Hw1 & Hwr & Ho & Hm & Hfit).
    destruct (store_all_written w1 bs Hw1 ltac:(lia)) as [Hok Hst]. rewrite Hn in Hok, Hst.
    cbn [mbind result_bind]. eexists. split; [done|]. pose proof Hw1 as [[? ?] ?].
    rewrite Hg by lia. by rewrite Hst, Hwr.
  - destruct Hens as [m ->]. cbn. eauto.
Qed.

Lemma appends_writeBytes bs : appends (writeBytes bs) bs.
Proof. by eapply (appends_store (Z.of_nat (length bs))). Qed.

Lemma appends_store_seq n vs g (f : CborWriter -> result cbor_error CborWriter) :
  Z.of_nat (length vs) = n ->
  (forall w, f w = (w ← ensureCapacity n w; mret (g w))) ->
  (forall w, g w = mkWriter (store_seq (w_offset w) vs (w_buffer w)) (w_offset w + n) (w_maxByteLength w)) ->
  appends f (map to_byte vs).
Proof.
  intros Hn Hf Hg. eapply (appends_store n); [by rewrite length_map|exact Hf|].
  intros w Hlo Hhi. by rewrite Hg, store_seq_all by lia.
Qed.

Ltac stores_of vs :=
  eapply (appends_store_seq _ vs);
  [reflexivity|intros ?; reflexivity|intros ?; cbn [store_seq]; rewrite <- ?Z.add_assoc; reflexivity].

Lemma appends_writeByte v : appends (writeByte v) [to_byte v].
Proof. stores_of [v]. Qed.

Lemma appends_writeUint16 v : 0 <= v < 2 ^ 16 -> appends (writeUint16 v) (be_bytes 2 v).
Proof.
  intros Hv. replace (be_bytes 2 v) with (map to_byte [shr_u v 8; v]); [stores_of [shr_u v 8; v]|].
  cbn. rewrite shr_u_spec by lia. unfold to_byte. list_dlia.
Qed.

Lemma appends_writeUint32 v : 0 <= v < 2 ^ 32 -> appends (writeUint32 v) (be_bytes 4 v).
Proof.
  intros Hv. replace (be_bytes 4 v) with (map to_byte [shr_u v 24; shr_u v 16; shr_u v 8; v]);
    [stores_of [shr_u v 24; shr_u v 16; shr_u v 8; v]|].
  cbn. rewrite !shr_u_spec by lia. unfold to_byte. list_dlia.
Qed.

Lemma be_bytes_8 v : 0 <= v < 2 ^ 64 -> be_bytes 8 v = be_bytes 4 (v / 2 ^ 32) ++ be_bytes 4 (v mod 2 ^ 32).
Proof. intros Hv. cbn. list_dlia. Qed.

Lemma appends_writeUint64 v : 0 <= v < 2 ^ 64 -> appends (writeUint64 v) (be_bytes 8 v).
Proof.
  intros Hv. rewrite be_bytes_8 by done. unfold writeUint64, UINT32_BASE.
  replace (v - v / 0x100000000 * 0x100000000) with (v mod 2 ^ 32) by dlia.
  apply appends_bind; apply appends_writeUint32; dlia.
Qed.

Lemma appends_writeFloat64 b : appends (writeFloat64 b) (0xfb :: be_bytes 8 b).
Proof.
  eapply (appends_store 9); [cbn [length]; by rewrite length_be_bytes|intros ?; reflexivity|].
  intros w Hlo Hhi. cbv beta zeta. f_equal. rewrite store_as_all by lia.
  apply (store_all_app _ [0xfb]); [lia|]. rewrite length_be_bytes. cbn. lia.
Qed.

Lemma fueled_ensureCapacity n w : fueled (ensureCapacity n w).
Proof. unfold ensureCapacity. auto with fueled. Qed.
#[export] Hint Resolve fueled_ensureCapacity : fueled.

Lemma fueled_writeArgument m v w : fueled (writeArgument m v w).
Proof.
  unfold writeArgument, writeByte, writeUint16, writeUint64, writeUint32; auto 20 with fueled.
Qed.

Lemma fueled_writeByte v w : fueled (writeByte v w).
Proof. unfold writeByte. auto with fueled. Qed.

Lemma fueled_writeBytes bs w : fueled (writeBytes bs w).
Proof. unfold writeBytes. auto with fueled. Qed.

Lemma fueled_writeFloat64 b w : fueled (writeFloat64 b w).
Proof. unfold writeFloat64. auto with fueled. Qed.
#[export] Hint Resolve fueled_writeArgument fueled_writeByte fueled_writeBytes fueled_writeFloat64 : fueled.

(** ** Item heads *)

(** The head of an item: its major type and its argument in the shortest form. *)
Definition head_bytes (majorType value : Z) : list Z :=
  let prefix := majorType * 32 in
  if value <? 24 then [prefix + value]
  else if value <=? 0xff then [prefix + 24; value]
  else if value <=? 0xffff then (prefix + 25) :: be_bytes 2 value
  else if value <=? MAX_UINT32 then (prefix + 26) :: be_bytes 4 value
  else (prefix + 27) :: be_bytes 8 value.

Lemma lor_prefix m v : 0 <= m < 8 -> 0 <= v < 32 -> to_byte (Z.lor (Z.shiftl m 5) v) = m * 32 + v.
Proof.
  intros Hm Hv. rewrite Z.shiftl_mul_pow2 by lia.
  assert (Z.land (m * 2 ^ 5) v = 0) as Hland.
  { apply Z.bits_inj'. intros n Hn. rewrite Z.land_spec, Z.bits_0.
    destruct (Z.lt_ge_cases n 5).
    - rewrite Z.mul_pow2_bits_low by lia. done.
    - rewrite (Z.bits_above_log2 v n), andb_false_r; [done|lia|].
      destruct (decide (v = 0)) as [->|]; [cbn; lia|]. apply Z.log2_lt_pow2; [lia|].
      eapply Z.lt_le_trans; [apply Hv|]. change 32 with (2 ^ 5). apply Z.pow_le_mono_r; lia. }
  pose proof (Z.add_lor_land (m * 2 ^ 5) v) as Hadd. rewrite Hland in Hadd.
  unfold to_byte. dlia.
Qed.

Lemma appends_writeArgument m v :
  0 <= m < 8 -> 0 <= v < 2 ^ 64 -> appends (writeArgument m v) (head_bytes m v).
Proof.
  intros Hm Hv. unfold writeArgument, head_bytes, MAX_UINT32.
  assert (forall x f bs, 0 <= x < 32 -> appends f bs ->
    appends (fun w => w ← writeByte (Z.lor (Z.shiftl m 5) x) w; f w) ((m * 32 + x) :: bs)) as Hpre.
  { intros x f bs Hx Hf. rewrite <- lor_prefix by done.
    by apply (appends_bind _ _ [_]); [apply appends_writeByte|]. }
  destruct (v <? 24) eqn:?; [|destruct (v <=? 0xff) eqn:?; [|destruct (v <=? 0xffff) eqn:?;
    [|destruct (v <=? 0xffffffff) eqn:?]]].
  - rewrite <- lor_prefix by lia. apply appends_writeByte.
  - apply Hpre; [lia|]. rewrite <- (to_byte_id v) at 2 by (unfold is_byte; lia). apply appends_writeByte.
  - apply Hpre; [lia|]. apply appends_writeUint16; lia.
  - apply Hpre; [lia|]. apply appends_writeUint32; lia.
  - apply Hpre; [lia|]. by apply appends_writeUint64.
Qed.

Create HintDb appends.
#[export] Hint Resolve appends_writeByte appends_writeBytes appends_writeArgument appends_writeFloat64 : appends.
