(* ===== verification/CborValue.v ===== *)
(** The data the codec transports.

    [cbor_value] is the tree a payload stands for, [encode_tree] its canonical
    encoding (definite lengths, shortest heads), [conforms] the limits of a
    [ResolvedCborOptions], and [wf_tree] the ranges JavaScript values keep
    by construction.  This is the specification the encoder and the decoder
    are proved against. *)
From S2P Require Import Prelude JsNumber JsText JsObject CborWriter.
Local Open Scope Z_scope.

Inductive cbor_value : Type :=
  | CNull
  | CBool (b : bool)
  | CNum (n : jsnum)
  | CText (s : jsstr)
  | CBytes (bytes : list Z)
  | CArray (items : list cbor_value)
  | CMap (entries : list (jsstr * cbor_value)).

(** Induction with hypotheses for the elements of arrays and maps. *)
Section cbor_value_induction.
Context (P : cbor_value -> Prop).
Hypothesis Hnull : P CNull.
Hypothesis Hbool : forall b, P (CBool b).
Hypothesis Hnum : forall n, P (CNum n).
Hypothesis Htext : forall s, P (CText s).
Hypothesis Hbytes : forall bs, P (CBytes bs).
Hypothesis Harray : forall ts, Forall P ts -> P (CArray ts).
Hypothesis Hmap : forall es, Forall (fun e => P e.2) es -> P (CMap es).

Fixpoint cbor_value_ind' (t : cbor_value) : P t :=
  match t with
  | CNull => Hnull
  | CBool b => Hbool b
  | CNum n => Hnum n
  | CText s => Htext s
  | CBytes bs => Hbytes bs
  | CArray ts =>
      Harray ts ((fix go ts := match ts return Forall P ts with
                  | [] => Forall_nil_2 _
                  | t :: ts' => Forall_cons_2 _ _ _ (cbor_value_ind' t) (go ts')
                  end) ts)
  | CMap es =>
      Hmap es ((fix go es := match es return Forall (fun e => P e.2) es with
                | [] => Forall_nil_2 _
                | e :: es' => Forall_cons_2 (fun e => P e.2) e es' (cbor_value_ind' e.2) (go es')
                end) es)
  end.
End cbor_value_induction.

Fixpoint tree_size (t : cbor_value) : nat :=
  match t with
  | CArray ts => S (sum_list_with tree_size ts)
  | CMap es => S (sum_list_with (fun e => tree_size e.2) es)
  | _ => 1
  end.

Definition encode_text (s : jsstr) : list Z :=
  let bytes := text_encode s in head_bytes 3 (Z.of_nat (length bytes)) ++ bytes.

Definition encode_num (n : jsnum) : list Z :=
  match n with
  | JInt z => if z >=? 0 then head_bytes 0 z else head_bytes 1 (-1 - z)
  | JFrac bits => 0xfb :: be_bytes 8 bits
  end.

Fixpoint encode_tree (t : cbor_value) : list Z :=
  match t with
  | CNull => [0xf6]
  | CBool b => [if b then 0xf5 else 0xf4]
  | CNum n => encode_num n
  | CText s => encode_text s
  | CBytes bytes => head_bytes 2 (Z.of_nat (length bytes)) ++ bytes
  | CArray ts => head_bytes 4 (Z.of_nat (length ts)) ++ concat (map encode_tree ts)
  | CMap es =>
      head_bytes 5 (Z.of_nat (length es)) ++ concat (map (fun e => encode_text e.1 ++ encode_tree e.2) es)
  end.

Section limits.
Context (o : ResolvedCborOptions).

Definition text_ok (s : jsstr) : bool :=
  (Z.of_nat (length (text_encode s)) <=? maxByteLength o) && well_formed s.

Definition num_ok (n : jsnum) : bool :=
  isFinite n && match n with JInt z => is_safe_Z z | JFrac _ => true end.

Fixpoint conforms (depth : Z) (t : cbor_value) : bool :=
  (depth <=? maxDepth o) &&
  match t with
  | CNull | CBool _ => true
  | CNum n => num_ok n
  | CText s => text_ok s
  | CBytes bytes => Z.of_nat (length bytes) <=? maxByteLength o
  | CArray ts => (Z.of_nat (length ts) <=? maxContainerLength o) && forallb (conforms (depth + 1)) ts
  | CMap es =>
      (Z.of_nat (length es) <=? maxContainerLength o) &&
      forallb (fun e => text_ok e.1 && conforms (depth + 1) e.2) es
  end.

Lemma conforms_depth depth t : conforms depth t = true -> depth <= maxDepth o.
Proof. destruct t; cbn; rewrite ?andb_true_iff; lia. Qed.
End limits.

Fixpoint wf_tree (t : cbor_value) : Prop :=
  match t with
  | CNull | CBool _ => True
  | CNum n => wf_num n
  | CText s => Forall is_code_unit s
  | CBytes bytes => Forall is_byte bytes
  | CArray ts => fold_right (fun t acc => wf_tree t /\ acc) True ts
  | CMap es =>
      ordered es.*1 = true /\
      fold_right (fun e acc => Forall is_code_unit e.1 /\ wf_tree e.2 /\ acc) True es
  end.

Lemma wf_tree_array ts : wf_tree (CArray ts) <-> Forall wf_tree ts.
Proof. cbn. induction ts; cbn; [done|]. by rewrite Forall_cons, IHts. Qed.

Lemma wf_tree_map es :
  wf_tree (CMap es) <->
  ordered es.*1 = true /\ Forall (fun e => Forall is_code_unit e.1 /\ wf_tree e.2) es.
Proof.
  cbn. enough (fold_right (fun e acc => Forall is_code_unit e.1 /\ wf_tree e.2 /\ acc) True es <->
    Forall (fun e => Forall is_code_unit e.1 /\ wf_tree e.2) es) by naive_solver.
  induction es as [|e es IH]; cbn; [done|]. rewrite Forall_cons, IH. naive_solver.
Qed.

Lemma tree_size_pos t : (0 < tree_size t)%nat.
Proof. destruct t; cbn; lia. Qed.

Lemma tree_size_elem t ts : t ∈ ts -> (tree_size t < tree_size (CArray ts))%nat.
Proof. intros H. cbn. induction H; cbn; lia. Qed.

Lemma tree_size_entry e es : e ∈ es -> (tree_size e.2 < tree_size (CMap es))%nat.
Proof. intros H. cbn. induction H; cbn; lia. Qed.
