(* ===== verification/CborEncoder.v ===== *)
(** The CBOR encoder: [packages/protocol/src/cbor/encoder.ts].

    The encoder walks JavaScript values.  Objects live in a store ([heap]), so
    that sharing and cycles are those of the program; [ancestors] is the set of
    the containers being encoded.  The recursion is bounded by the depth check
    of the code itself: the fuel [maxDepth + 2] is never used up. *)
From S2P Require Import Prelude JsNumber JsText JsObject CborWriter CborValue.
Local Open Scope Z_scope.

Abbreviation loc := positive.

Inductive jsval : Type :=
  | VNull
  | VUndefined
  | VBool (b : bool)
  | VNum (n : jsnum)
  | VStr (s : jsstr)
  | VRef (l : loc)
  | VOther (typeof : string).  (* a function, a symbol, a bigint *)

(** [OArray]: [None] is a hole.  [OPlain]: an object whose prototype is
    [Object.prototype] or [null], its enumerable string-keyed properties in
    order, and whether it has an enumerable symbol key.  [OExotic]: any other
    object. *)
Inductive jsobj : Type :=
  | OBytes (bytes : list Z)
  | OArray (items : list (option jsval))
  | OPlain (props : list (jsstr * jsval)) (symbolKeys : bool)
  | OExotic.

Abbreviation heap := (gmap loc jsobj).

#[export] Instance jsval_eq_dec : EqDecision jsval.
Proof. solve_decision. Defined.

Section encoder.
Context (h : heap) (options : ResolvedCborOptions).

Definition limit_error (what : string) (limit : Z) : cbor_error :=
  CborError ("CBOR " +:+ what +:+ " exceeds configured limit of " +:+ pretty limit).

Definition encodeText (value : jsstr) (w : CborWriter) : result cbor_error CborWriter :=
  let bytes := text_encode value in
  throw_if (Z.of_nat (length bytes) >? maxByteLength options)
    (limit_error "text string length" (maxByteLength options));;
  throw_if (bool_decide (text_decode bytes <> Some value))
    (CborError "CBOR text strings must contain valid Unicode scalar values");;
  w ← writeArgument 3 (Z.of_nat (length bytes)) w;
  writeBytes bytes w.

Definition encodeNumber (value : jsnum) (w : CborWriter) : result cbor_error CborWriter :=
  throw_if (negb (isFinite value)) (CborError "CBOR numbers must be finite");;
  match value with
  | JInt z =>
      throw_if (negb (isSafeInteger value)) (CborError "CBOR integers must be safe JavaScript integers");;
      if z >=? 0 then writeArgument 0 z w else writeArgument 1 (-1 - z) w
  | JFrac bits => writeFloat64 bits w
  end.

(** [Object.keys(value)] without the keys whose value is undefined. *)
Definition defined_entries (props : list (jsstr * jsval)) : list (jsstr * jsval) :=
  List.filter (fun kv => negb (bool_decide (kv.2 = VUndefined))) props.

Fixpoint encodeValue (fuel : nat) (w : CborWriter) (value : jsval) (depth : Z) (ancestors : gset loc)
    : result cbor_error CborWriter :=
  match fuel with
  | O => Err OutOfFuel
  | S fuel' =>
      throw_if (depth >? maxDepth options) (limit_error "nesting depth" (maxDepth options));;
      match value with
      | VNull => writeByte 0xf6 w
      | VBool b => writeByte (if b then 0xf5 else 0xf4) w
      | VNum n => encodeNumber n w
      | VStr s => encodeText s w
      | VUndefined => Err (CborError "Unsupported CBOR value type: undefined")
      | VOther typeof => Err (CborError ("Unsupported CBOR value type: " +:+ typeof))
      | VRef l =>
          match h !! l with
          | Some (OBytes bytes) =>
              throw_if (Z.of_nat (length bytes) >? maxByteLength options)
                (limit_error "byte string length" (maxByteLength options));;
              w ← writeArgument 2 (Z.of_nat (length bytes)) w;
              writeBytes bytes w
          | Some (OArray items) =>
              throw_if (bool_decide (l ∈ ancestors)) (CborError "CBOR values must not contain cycles");;
              throw_if (Z.of_nat (length items) >? maxContainerLength options)
                (limit_error "array length" (maxContainerLength options));;
              w ← writeArgument 4 (Z.of_nat (length items)) w;
              mfold (fun w item =>
                match item with
                | None | Some VUndefined =>
                    Err (CborError "CBOR arrays must not contain holes or undefined values")
                | Some v => encodeValue fuel' w v (depth + 1) ({[l]} ∪ ancestors)
                end) w items
          | Some (OPlain props symbolKeys) =>
              throw_if (bool_decide (l ∈ ancestors)) (CborError "CBOR values must not contain cycles");;
              throw_if symbolKeys (CborError "CBOR map keys must be strings");;
              let entries := defined_entries props in
              throw_if (Z.of_nat (length entries) >? maxContainerLength options)
                (limit_error "map length" (maxContainerLength options));;
              w ← writeArgument 5 (Z.of_nat (length entries)) w;
              mfold (fun w entry =>
                w ← encodeText entry.1 w;
                encodeValue fuel' w entry.2 (depth + 1) ({[l]} ∪ ancestors)) w entries
          | Some OExotic | None => Err (CborError "Unsupported CBOR value type: object")
          end
      end
  end.
End encoder.

Definition encode_fuel (o : ResolvedCborOptions) : nat := Z.to_nat (maxDepth o + 2).

Definition encodeCbor (h : heap) (value : jsval) (options : option CborOptions) : result cbor_error (list Z) :=
  resolved ← resolveOptions options;
  let writer := new_CborWriter (maxByteLength resolved) in
  writer ← encodeValue h resolved (encode_fuel resolved) writer value 0 ∅;
  mret (finish writer).

(** ** The tree a value unfolds to *)

Section correctness.
Context (h : heap) (o : ResolvedCborOptions).

(** [repr v t]: following references, [v] is the tree [t]. *)
Fixpoint repr (v : jsval) (t : cbor_value) : Prop :=
  match t with
  | CNull => v = VNull
  | CBool b => v = VBool b
  | CNum n => v = VNum n
  | CText s => v = VStr s
  | CBytes bytes => exists l, v = VRef l /\ h !! l = Some (OBytes bytes)
  | CArray ts =>
      exists l items, v = VRef l /\ h !! l = Some (OArray items) /\
      (fix go items (ts : list cbor_value) {struct ts} : Prop := match ts, items with
       | [], [] => True
       | t :: ts', Some v :: items' => repr v t /\ go items' ts'
       | _, _ => False
       end) items ts
  | CMap es =>
      exists l props, v = VRef l /\ h !! l = Some (OPlain props false) /\
      (fix go props (es : list (jsstr * cbor_value)) {struct es} : Prop := match es, props with
       | [], [] => True
       | (k', t) :: es', (k, v) :: props' => k = k' /\ repr v t /\ go props' es'
       | _, _ => False
       end) (defined_entries props) es
  end.

Definition item_repr (item : option jsval) (t : cbor_value) : Prop :=
  exists v, item = Some v /\ repr v t.
Definition entry_repr (e : jsstr * jsval) (e' : jsstr * cbor_value) : Prop :=
  e.1 = e'.1 /\ repr e.2 e'.2.

Lemma repr_array v ts :
  repr v (CArray ts) <->
  exists l items, v = VRef l /\ h !! l = Some (OArray items) /\ Forall2 item_repr items ts.
Proof.
  cbn. f_equiv; intros l. f_equiv; intros items. do 2 f_equiv. revert ts.
  induction items as [|[v'|] items IH]; intros [|t ts]; try (split; [done|by inversion 1]).
  - rewrite Forall2_cons, IH. unfold item_repr. naive_solver.
  - split; [done|]. rewrite Forall2_cons. by intros [(? & ? & _) _].
Qed.

Lemma repr_map v es :
  repr v (CMap es) <->
  exists l props, v = VRef l /\ h !! l = Some (OPlain props false) /\
    Forall2 entry_repr (defined_entries props) es.
Proof.
  cbn. f_equiv; intros l. f_equiv; intros props. do 2 f_equiv.
  generalize (defined_entries props). intros ps. revert es.
  induction ps as [|[k v'] ps IH]; intros [|[k' t] es]; try (split; [done|by inversion 1]).
  - rewrite Forall2_cons, IH. unfold entry_repr. cbn. naive_solver.
Qed.

(** A value has at most one tree. *)
Lemma repr_functional t1 : forall v t2, repr v t1 -> repr v t2 -> t1 = t2.
Proof.
  induction t1 as [|b|n|s|bs|ts IH|es IH] using cbor_value_ind'; intros v t2.
  1-4: intros ->; destruct t2; cbn; intros Hr; destruct_and?; naive_solver.
  - intros (l & -> & Hl). destruct t2; cbn; naive_solver.
  - rewrite repr_array. intros (l & items & -> & Hl & Hts).
    destruct t2 as [| | | | |ts2|]; try (cbn; naive_solver).
    rewrite repr_array. intros (l' & items' & [= <-] & Hl' & Hts2). rewrite Hl in Hl'. simplify_eq.
    f_equal. clear Hl. revert ts2 Hts2. induction Hts as [|item t items ts Hi _ IHts]; intros ts2 Hts2;
      inversion Hts2; subst; [done|]. apply Forall_cons in IH as [IHt IH]. f_equal.
    + destruct Hi as (v & -> & Hv), H1 as (? & [= <-] & ?). by eapply IHt.
    + by apply IHts.
  - rewrite repr_map. intros (l & props & -> & Hl & Hes).
    destruct t2 as [| | | | | |es2]; try (cbn; naive_solver).
    rewrite repr_map. intros (l' & props' & [= <-] & Hl' & Hes2). rewrite Hl in Hl'. simplify_eq.
    f_equal. clear Hl. revert es2 Hes2. induction Hes as [|item e props es Hi _ IHes]; intros es2 Hes2;
      inversion Hes2; subst; [done|]. apply Forall_cons in IH as [IHe IH]. f_equal.
    + destruct Hi as [Hk Hv], H1 as [Hk' Hv']. destruct e, y; cbn in *. subst. f_equal. by eapply IHe.
    + by apply IHes.
Qed.

(** ** Values that conform are encoded to their canonical encoding *)

Lemma appends_check b e f bs :
  b = false -> appends f bs -> appends (fun w => throw_if b e;; f w) bs.
Proof. intros ->. apply appends_ext. done. Qed.

Lemma appends_mfold {A} (f : CborWriter -> A -> result cbor_error CborWriter) l bss :
  Forall2 (fun a bs => appends (fun w => f w a) bs) l bss ->
  appends (fun w => mfold f w l) (concat bss).
Proof.
  induction 1 as [|a bs l bss Ha _ IH]; cbn [mfold concat]; [apply appends_nil|].
  eapply appends_ext; [|apply (appends_bind _ _ _ _ Ha IH)]. intros w. cbn. by destruct (f w a).
Qed.

Hypothesis Hok : resolved_ok o.

Lemma appends_encodeText s :
  Forall is_code_unit s -> text_ok o s = true -> appends (encodeText o s) (encode_text s).
Proof.
  intros Hs [Hlen Hwf]%andb_true_iff. destruct Hok as (? & _ & _). unfold MAX_UINT32 in *.
  unfold encodeText, encode_text. cbv zeta. apply appends_check; [lia|]. apply appends_check.
  { apply bool_decide_eq_false. intros Hne. apply Hne. by apply text_round_trip. }
  apply appends_bind; [|apply appends_writeBytes]. apply appends_writeArgument; lia.
Qed.

Lemma appends_encodeNumber n : num_ok n = true -> appends (encodeNumber n) (encode_num n).
Proof.
  intros [Hfin Hsafe]%andb_true_iff. unfold encodeNumber. apply appends_check; [by rewrite Hfin|].
  destruct n as [z|bits]; [|apply appends_writeFloat64].
  unfold isSafeInteger. cbn. apply appends_check; [by rewrite Hsafe|].
  unfold is_safe_Z, MAX_SAFE_INTEGER in Hsafe.
  destruct (z >=? 0) eqn:?; apply appends_writeArgument; lia.
Qed.

(** No ancestor is (part of) the value being encoded: its tree is larger. *)
Definition ancestors_above (ancestors : gset loc) (t : cbor_value) : Prop :=
  forall l, l ∈ ancestors -> exists t', repr (VRef l) t' /\ (tree_size t < tree_size t')%nat.

Lemma ancestors_above_self anc l t : ancestors_above anc t -> repr (VRef l) t -> l ∉ anc.
Proof.
  intros Habove Hr Hl. destruct (Habove l Hl) as (t' & Hr' & Hlt).
  assert (t' = t) as -> by (by eapply repr_functional). lia.
Qed.

Lemma ancestors_above_child anc l t t' :
  ancestors_above anc t -> repr (VRef l) t -> (tree_size t' < tree_size t)%nat ->
  ancestors_above ({[l]} ∪ anc) t'.
Proof.
  intros Habove Hr Hlt l' [->%elem_of_singleton|Hl']%elem_of_union; [by exists t|].
  destruct (Habove l' Hl') as (t1 & ? & ?). exists t1. split; [done|lia].
Qed.

Lemma encodeValue_appends t : forall fuel v depth anc,
  repr v t -> wf_tree t -> conforms o depth t = true -> (maxDepth o - depth < Z.of_nat fuel) ->
  ancestors_above anc t ->
  appends (fun w => encodeValue h o fuel w v depth anc) (encode_tree t).
Proof.
  destruct Hok as (Hmb & Hmc & _). unfold MAX_UINT32 in *.
  induction t as [|b|n|s|bs|ts IH|es IH] using cbor_value_ind';
    intros fuel v depth anc Hr Hwf Hc Hfuel Habove;
    pose proof (conforms_depth _ _ _ Hc) as Hd; apply andb_true_iff in Hc as [_ Hc];
    (destruct fuel as [|fuel]; [lia|]); cbn [encodeValue];
    (apply appends_check; [zlia|]).
  - rewrite Hr. apply appends_writeByte.
  - rewrite Hr. destruct b; apply appends_writeByte.
  - rewrite Hr. by apply appends_encodeNumber.
  - rewrite Hr. by apply appends_encodeText.
  - destruct Hr as (l & -> & ->). apply appends_check; [zlia|].
    apply appends_bind; [|apply appends_writeBytes]. apply appends_writeArgument; lia.
  - pose proof Hr as Hr'. apply repr_array in Hr' as (l & items & -> & -> & Hitems).
    pose proof (Forall2_length _ _ _ Hitems) as Hlen. apply andb_true_iff in Hc as [Hlim Hc].
    apply appends_check; [apply bool_decide_eq_false; by eapply ancestors_above_self|].
    apply appends_check; [zlia|]. rewrite Hlen.
    apply appends_bind; [apply appends_writeArgument; lia|]. apply appends_mfold.
    apply wf_tree_array in Hwf. rewrite forallb_Forall in Hc. apply Forall2_fmap_r.
    apply Forall2_same_length_lookup_2; [done|]. intros i item t Hi Ht.
    eapply Forall2_lookup_lr in Hitems as (v & -> & Hv); [|done..].
    rewrite Forall_lookup in IH, Hwf, Hc.
    assert (v <> VUndefined) by (intros ->; by destruct t; cbn in Hv; naive_solver).
    eapply appends_ext with (f := fun w => encodeValue h o fuel w v (depth + 1) ({[l]} ∪ anc)).
    { intros w. by destruct v. }
    eapply IH; eauto with lia. eapply ancestors_above_child; [done..|].
    apply tree_size_elem. by eapply list_elem_of_lookup_2.
  - pose proof Hr as Hr'. apply repr_map in Hr' as (l & props & -> & -> & Hprops).
    pose proof (Forall2_length _ _ _ Hprops) as Hlen. apply andb_true_iff in Hc as [Hlim Hc].
    apply appends_check; [apply bool_decide_eq_false; by eapply ancestors_above_self|].
    apply appends_check; [done|]. cbv zeta. apply appends_check; [zlia|]. rewrite Hlen.
    apply appends_bind; [apply appends_writeArgument; lia|]. apply appends_mfold.
    apply wf_tree_map in Hwf as [_ Hwf]. rewrite forallb_Forall in Hc. apply Forall2_fmap_r.
    apply Forall2_same_length_lookup_2; [done|]. intros i [k v] [k' t] Hi Ht.
    eapply Forall2_lookup_lr in Hprops as [Hk Hv]; [|done..]. cbn in Hk, Hv. subst k'.
    rewrite Forall_lookup in IH, Hwf, Hc. specialize (Hwf _ _ Ht) as [Hks Hwt]. cbn in Hks, Hwt.
    specialize (Hc _ _ Ht). apply andb_true_iff in Hc as [Hkc Hvc]. cbn in Hkc, Hvc.
    cbn [fst snd]. apply appends_bind; [by apply appends_encodeText|].
    eapply (IH _ _ Ht); cbn; eauto with lia. eapply ancestors_above_child; [done..|].
    apply (tree_size_entry (k, t)). by eapply list_elem_of_lookup_2.
Qed.

(** ** Only such values are encoded *)

(** What holds of every JavaScript value and object: numbers, code units and
    bytes are in range, and the properties of an object are listed in order. *)
Definition wf_val (v : jsval) : Prop :=
  match v with
  | VNum n => wf_num n
  | VStr s => Forall is_code_unit s
  | _ => True
  end.

Definition wf_obj (obj : jsobj) : Prop :=
  match obj with
  | OBytes bytes => Forall is_byte bytes
  | OArray items => Forall (fun item => match item with Some v => wf_val v | None => True end) items
  | OPlain props _ =>
      ordered props.*1 = true /\ Forall (fun e => Forall is_code_unit e.1 /\ wf_val e.2) props
  | OExotic => True
  end.

Definition wf_heap : Prop := forall l obj, h !! l = Some obj -> wf_obj obj.

Lemma defined_entries_wf props sym : wf_obj (OPlain props sym) -> wf_obj (OPlain (defined_entries props) false).
Proof.
  cbn. induction props as [|[k v] props IH]; cbn [defined_entries List.filter]; [done|].
  cbn [fmap list_fmap fst ordered]. rewrite andb_true_iff, ordered_forall, Forall_cons.
  intros [[Hk Ho] [Hkv Hp]]. destruct IH as [IHo IHp]; [done|].
  destruct (negb _); [|done]. cbn [fmap list_fmap fst ordered].
  rewrite andb_true_iff, ordered_forall, Forall_cons. split; [split; [|done]|done].
  intros k' Hk'. apply Hk. apply list_elem_of_fmap in Hk' as (e & -> & He).
  apply list_elem_of_In, filter_In in He as [He _]. apply list_elem_of_fmap. exists e.
  by rewrite list_elem_of_In.
Qed.

Lemma encodeText_Ok s w w' : encodeText o s w = Ok w' -> Forall is_code_unit s -> text_ok o s = true.
Proof.
  unfold encodeText. intros (? & Hl%throw_if_Ok & H)%bind_Ok Hs.
  apply bind_Ok in H as (? & Hd%throw_if_Ok & _). apply bool_decide_eq_false, dec_stable in Hd.
  unfold text_ok. apply text_round_trip in Hd; [|done]. rewrite Hd. zlia.
Qed.

Lemma encodeNumber_Ok n w w' : encodeNumber n w = Ok w' -> num_ok n = true.
Proof.
  unfold encodeNumber, num_ok. intros (? & Hf%throw_if_Ok%negb_false_iff & H)%bind_Ok. rewrite Hf.
  destruct n as [z|]; [|done]. apply bind_Ok in H as (? & Hs%throw_if_Ok%negb_false_iff & _).
  by unfold isSafeInteger in Hs.
Qed.

(** What a successful encoding of [v] at [depth] says of it. *)
Definition encodable (depth : Z) (v : jsval) (t : cbor_value) : Prop :=
  repr v t /\ wf_tree t /\ conforms o depth t = true.

Definition encodable_item (depth : Z) (item : option jsval) (t : cbor_value) : Prop :=
  exists v, item = Some v /\ encodable depth v t.

Definition encodable_entry (depth : Z) (e : jsstr * jsval) (e' : jsstr * cbor_value) : Prop :=
  e.1 = e'.1 /\ Forall is_code_unit e.1 /\ text_ok o e.1 = true /\ encodable depth e.2 e'.2.

Lemma encodable_array depth l items ts :
  depth <= maxDepth o -> Z.of_nat (length items) <= maxContainerLength o ->
  h !! l = Some (OArray items) -> Forall2 (encodable_item (depth + 1)) items ts ->
  encodable depth (VRef l) (CArray ts).
Proof.
  intros Hd Hlim Hl Hts. pose proof (Forall2_length _ _ _ Hts) as Hlen. split_and!.
  - apply repr_array. exists l, items. split_and!; try done. eapply Forall2_impl; [done|].
    intros item t (v & -> & Hv' & _). by exists v.
  - apply wf_tree_array. eapply Forall2_Forall_r'; [done|]. by intros item t (v & -> & _ & ? & _).
  - cbn. rewrite !andb_true_iff. split_and!; [lia..|].
    apply forallb_Forall. eapply Forall2_Forall_r'; [done|]. by intros item t (v & -> & _ & _ & ?).
Qed.

Lemma encodable_map depth l props es :
  depth <= maxDepth o -> Z.of_nat (length (defined_entries props)) <= maxContainerLength o ->
  h !! l = Some (OPlain props false) -> ordered (defined_entries props).*1 = true ->
  Forall2 (encodable_entry (depth + 1)) (defined_entries props) es ->
  encodable depth (VRef l) (CMap es).
Proof.
  intros Hd Hlim Hl Hord Hes. pose proof (Forall2_length _ _ _ Hes) as Hlen. split_and!.
  - apply repr_map. exists l, props. split_and!; try done. eapply Forall2_impl; [done|].
    intros e e' (? & _ & _ & ? & _). done.
  - apply wf_tree_map. split.
    { replace es.*1 with (defined_entries props).*1; [done|]. clear -Hes.
      induction Hes as [|e e' es ts (? & _) _ IHts]; cbn; congruence. }
    eapply Forall2_Forall_r'; [done|]. intros e e' (-> & ? & _ & _ & ? & _). done.
  - cbn. rewrite !andb_true_iff. split_and!; [lia..|].
    apply forallb_Forall. eapply Forall2_Forall_r'; [done|].
    intros e e' (-> & _ & Ht & _ & _ & ->). by rewrite Ht.
Qed.

Lemma encodeValue_Ok fuel : forall w v depth anc w',
  wf_heap -> wf_val v -> encodeValue h o fuel w v depth anc = Ok w' ->
  exists t, encodable depth v t.
Proof.
  induction fuel as [|fuel IH]; intros w v depth anc w' Hh Hv; [done|].
  cbn [encodeValue]. intros H. apply bind_Ok in H as (? & Hd & H). apply throw_if_Ok in Hd.
  assert (depth <=? maxDepth o = true) as Hdepth by lia. unfold encodable.
  destruct v as [| |b|n|s|l|]; try done.
  - exists CNull. cbn. by rewrite Hdepth.
  - exists (CBool b). cbn. by rewrite Hdepth.
  - exists (CNum n). cbn. rewrite Hdepth. split_and!; try done. by eapply encodeNumber_Ok.
  - exists (CText s). cbn. rewrite Hdepth. split_and!; try done. by eapply encodeText_Ok.
  - destruct (h !! l) as [[bytes|items|props sym|]|] eqn:Hl; try done; pose proof (Hh _ _ Hl) as Hobj.
    + apply bind_Ok in H as (? & Hlen%throw_if_Ok & _).
      exists (CBytes bytes). cbn. rewrite Hdepth. split_and!; [by exists l|done|lia].
    + apply bind_Ok in H as (? & _ & H). apply bind_Ok in H as (? & Hlen%throw_if_Ok & H).
      apply bind_Ok in H as (? & _ & H%mfold_Forall).
      destruct (Forall_choose (encodable_item (depth + 1)) items) as [ts Hts].
      { eapply Forall_impl; [apply Forall_and; split; [exact H|done]|].
        intros [v|] [(s1 & s2 & Hs) Hv']; [|done].
        assert (encodeValue h o fuel s1 v (depth + 1) ({[l]} ∪ anc) = Ok s2) as Hs' by by destruct v.
        apply IH in Hs' as [t Ht]; [|done..]. by exists t, v. }
      exists (CArray ts). apply (encodable_array _ _ items); [lia|lia|done..].
    + apply bind_Ok in H as (? & _ & H). apply bind_Ok in H as (? & Hsym%throw_if_Ok & H).
      apply bind_Ok in H as (? & Hlen%throw_if_Ok & H). apply bind_Ok in H as (? & _ & H%mfold_Forall).
      apply defined_entries_wf in Hobj as [Hord Hes]. subst sym.
      destruct (Forall_choose (encodable_entry (depth + 1)) (defined_entries props)) as [ts Hts].
      { eapply Forall_impl; [apply Forall_and; split; [exact H|done]|].
        intros e [(s1 & s2 & Hs) [Hk He]]. apply bind_Ok in Hs as (s3 & Hs3 & Hs).
        eapply IH in Hs as [t Ht]; [|done..].
        exists (e.1, t). split_and!; [done|done|by eapply encodeText_Ok|apply Ht..]. }
      exists (CMap ts). apply (encodable_map _ _ props); [lia|lia|done..].
Qed.

Lemma repr_wf t : forall v, wf_heap -> wf_val v -> repr v t -> wf_tree t.
Proof.
  intros v Hh. revert v. induction t as [|b|n|s|bs|ts IH|es IH] using cbor_value_ind'; intros v Hv Hr.
  1-4: cbn in Hr; by subst.
  - destruct Hr as (l & -> & Hl). exact (Hh _ _ Hl).
  - apply repr_array in Hr as (l & items & -> & Hl & Hts). apply Hh in Hl. cbn in Hl.
    apply wf_tree_array. clear Hv. induction Hts as [|item t items ts (v & -> & Hr) _ IHts]; [done|].
    apply Forall_cons in Hl as [Hv Hl], IH as [IHt IH]. constructor; [by eapply IHt|by apply IHts].
  - apply repr_map in Hr as (l & props & -> & Hl & Hes). apply Hh, defined_entries_wf in Hl as [Ho Hl].
    apply wf_tree_map. clear Hv. split.
    { replace es.*1 with (defined_entries props).*1; [done|]. clear -Hes.
      induction Hes as [|e e' ps es [? _] _ IHes]; cbn; congruence. }
    clear Ho. induction Hes as [|e e' ps es [Hk Hr] _ IHes]; [done|].
    apply Forall_cons in Hl as [[Hks Hv] Hl], IH as [IHt IH]. constructor; [|by apply IHes].
    rewrite <- Hk. split; [done|by eapply IHt].
Qed.

(** ** Cycles *)

(** [contains l l']: encoding the object at [l] reaches the one at [l']. *)
Definition contains (l l' : loc) : Prop :=
  (exists items, h !! l = Some (OArray items) /\ Some (VRef l') ∈ items) \/
  (exists props, h !! l = Some (OPlain props false) /\ VRef l' ∈ (defined_entries props).*2).

Lemma repr_contains l l' t :
  contains l l' -> repr (VRef l) t -> exists t', repr (VRef l') t' /\ (tree_size t' < tree_size t)%nat.
Proof.
  intros [(items & Hl & Hin)|(props & Hl & Hin)] Hr.
  - destruct t as [| | | | |ts|]; try (cbn in Hr; naive_solver).
    apply repr_array in Hr as (? & ? & [= <-] & Hl' & Hts). rewrite Hl in Hl'. simplify_eq.
    apply list_elem_of_lookup in Hin as [i Hi].
    destruct (Forall2_lookup_l _ _ _ _ _ Hts Hi) as (t & Ht & v & [= <-] & Hr).
    exists t. split; [done|]. apply tree_size_elem. by eapply list_elem_of_lookup_2.
  - destruct t as [| | | | | |es]; try (cbn in Hr; naive_solver).
    apply repr_map in Hr as (? & ? & [= <-] & Hl' & Hes). rewrite Hl in Hl'. simplify_eq.
    apply list_elem_of_fmap in Hin as ([k v] & Heq & [i Hi]%list_elem_of_lookup). cbn in Heq. subst v.
    destruct (Forall2_lookup_l _ _ _ _ _ Hes Hi) as ([k' t] & Ht & _ & Hr).
    exists t. split; [done|]. apply (tree_size_entry (k', t)). by eapply list_elem_of_lookup_2.
Qed.

Lemma repr_reachable l l' : tc contains l l' ->
  forall t, repr (VRef l) t -> exists t', repr (VRef l') t' /\ (tree_size t' < tree_size t)%nat.
Proof.
  induction 1 as [l l' Hc|l l1 l' Hc _ IH]; intros t Hr; [by eapply repr_contains|].
  destruct (repr_contains _ _ _ Hc Hr) as (t1 & Hr1 & ?). destruct (IH _ Hr1) as (t' & ? & ?).
  exists t'. split; [done|lia].
Qed.

Lemma cyclic_not_repr l t : tc contains l l -> ~ repr (VRef l) t.
Proof.
  intros Hc Hr. destruct (repr_reachable _ _ Hc _ Hr) as (t' & Hr' & Hlt).
  assert (t' = t) as -> by (by eapply repr_functional). lia.
Qed.

(** ** The recursion bound *)

Lemma fueled_encodeText s w : fueled (encodeText o s w).
Proof. unfold encodeText. fuel_steps; auto with fueled. Qed.

Lemma fueled_encodeNumber n w : fueled (encodeNumber n w).
Proof. unfold encodeNumber. fuel_steps. destruct n; fuel_steps; auto with fueled. Qed.

Lemma fueled_encodeValue fuel : forall w v depth anc,
  depth <= maxDepth o + 1 -> maxDepth o + 2 <= depth + Z.of_nat fuel ->
  fueled (encodeValue h o fuel w v depth anc).
Proof.
  induction fuel as [|fuel IH]; intros w v depth anc Hd Hfuel; cbn [encodeValue]; [lia|].
  apply fueled_check; [done|]. intros Hdepth.
  assert (forall w v l, fueled (encodeValue h o fuel w v (depth + 1) ({[l]} ∪ anc))) as Hrec.
  { intros w' v' l'. apply IH; lia. }
  destruct v as [| |b|n|s|l|]; auto using fueled_encodeNumber, fueled_encodeText with fueled.
  destruct (h !! l) as [[bytes|items|props sym|]|]; fuel_steps; auto with fueled.
  - apply fueled_mfold. intros w' item _. destruct item as [[]|]; auto with fueled.
  - apply fueled_mfold. intros w' e _. fuel_steps; auto using fueled_encodeText.
Qed.
End correctness.

(** ** The encoder *)

(** Encoding with enough room writes the canonical encoding of the tree. *)
Lemma encode_writes h v o t w :
  wf_heap h -> wf_val v -> resolved_ok o -> repr h v t -> conforms o 0 t = true ->
  w = new_CborWriter (maxByteLength o) ->
  if Z.of_nat (length (encode_tree t)) <=? maxByteLength o
  then exists w', encodeValue h o (encode_fuel o) w v 0 ∅ = Ok w' /\ finish w' = encode_tree t
  else exists e, encodeValue h o (encode_fuel o) w v 0 ∅ = Err e.
Proof.
  intros Hh Hv Hok Hr Hc ->. pose proof Hok as (Hm & _ & Hd).
  destruct (new_writer_ok (maxByteLength o)) as [Hnew Hnil]; [lia|].
  assert (appends (fun w => encodeValue h o (encode_fuel o) w v 0 ∅) (encode_tree t)) as Happ.
  { apply encodeValue_appends; [done..|by eapply repr_wf|done|unfold encode_fuel; lia|].
    intros l Hl. by apply not_elem_of_empty in Hl. }
  specialize (Happ _ Hnew). cbn [w_offset new_CborWriter w_maxByteLength] in Happ.
  rewrite Z.add_0_l in Happ. destruct (_ <=? _); [|by destruct Happ as [m ?]; eexists].
  destruct Happ as (w' & Hw' & _ & Hfin & _). exists w'. split; [done|]. by rewrite Hfin, Hnil.
Qed.

Lemma encodeCbor_sound h v options bs :
  wf_heap h -> wf_val v -> encodeCbor h v options = Ok bs ->
  exists o t, resolveOptions options = Ok o /\ repr h v t /\ wf_tree t /\ conforms o 0 t = true /\
    Z.of_nat (length (encode_tree t)) <= maxByteLength o /\ bs = encode_tree t.
Proof.
  intros Hh Hv (o & Ho & (w & Hw & [= <-])%bind_Ok)%bind_Ok.
  pose proof (resolveOptions_ok _ _ Ho) as Hok.
  destruct (encodeValue_Ok h o _ _ _ _ _ _ Hh Hv Hw) as (t & Hr & Hwf & Hc).
  pose proof (encode_writes h v o t _ Hh Hv Hok Hr Hc eq_refl) as Hwr.
  exists o, t. destruct (_ <=? _) eqn:Hle; [|destruct Hwr; congruence].
  destruct Hwr as (w' & Hw' & Hfin). rewrite Hw in Hw'. injection Hw' as <-. split_and!; try done. lia.
Qed.

Lemma encodeCbor_complete h v options o t :
  wf_heap h -> wf_val v -> resolveOptions options = Ok o -> repr h v t -> conforms o 0 t = true ->
  Z.of_nat (length (encode_tree t)) <= maxByteLength o -> encodeCbor h v options = Ok (encode_tree t).
Proof.
  intros Hh Hv Ho Hr Hc Hle. unfold encodeCbor. rewrite Ho. cbn.
  pose proof (encode_writes h v o t _ Hh Hv (resolveOptions_ok _ _ Ho) Hr Hc eq_refl) as Hwr.
  destruct (_ <=? _) eqn:?; [|lia]. destruct Hwr as (w' & -> & Hfin). cbn. by rewrite Hfin.
Qed.

Lemma fueled_encodeCbor h v options : fueled (encodeCbor h v options).
Proof.
  unfold encodeCbor, encode_fuel. pose proof (fueled_resolveOptions options) as Hf.
  destruct (resolveOptions options) as [o|] eqn:Ho; [|by intros [= ->]].
  apply resolveOptions_ok in Ho as (_ & _ & ?). cbn [mbind result_bind].
  apply fueled_bind; [|intros; done]. apply fueled_encodeValue; lia.
Qed.

(** C1: refinement of the encoder.  Encoding a JavaScript value returns bytes
    exactly when the options are valid and the value unfolds to a finite tree
    within the limits whose canonical encoding fits; the bytes are that
    encoding. *)
Theorem encodeCbor_spec h v options bs :
  wf_heap h -> wf_val v ->
  encodeCbor h v options = Ok bs <->
  exists o t, resolveOptions options = Ok o /\ repr h v t /\ conforms o 0 t = true /\
    Z.of_nat (length (encode_tree t)) <= maxByteLength o /\ bs = encode_tree t.
Proof.
  intros Hh Hv. split.
  - intros (o & t & ? & ? & _ & ? & ? & ?)%encodeCbor_sound; [|done..]. by exists o, t.
  - intros (o & t & ? & ? & ? & ? & ->). by eapply encodeCbor_complete.
Qed.

(** Cyclic values are rejected, whatever the options, and the model's
    recursion bound is never what stops the encoder. *)
Theorem encodeCbor_cycle h l options :
  wf_heap h -> tc (contains h) l l ->
  exists e, encodeCbor h (VRef l) options = Err e /\ e <> OutOfFuel.
Proof.
  intros Hh Hc. destruct (encodeCbor h (VRef l) options) as [bs|e] eqn:He.
  { apply encodeCbor_sound in He as (o & t & _ & Hr & _); [|done..]. by apply cyclic_not_repr in Hr. }
  exists e. split; [done|]. intros ->. by apply (fueled_encodeCbor h (VRef l) options).
Qed.

(** ** Examples *)

(** [{a: 1, b: [true, null]}], and [x = [x]]. *)
Definition example_heap : heap :=
  <[1%positive := OPlain [(js "a", VNum (JInt 1)); (js "b", VRef 2)] false]>
  (<[2%positive := OArray [Some (VBool true); Some VNull]]>
  (<[3%positive := OArray [Some (VRef 3)]]> ∅)).

Definition example_tree : cbor_value :=
  CMap [(js "a", CNum (JInt 1)); (js "b", CArray [CBool true; CNull])].

Lemma example_heap_ok : wf_heap example_heap.
Proof.
  unfold wf_heap, example_heap. intros l obj Hl.
  repeat (apply lookup_insert_Some in Hl as [[_ <-]|[_ Hl]]).
  - split; [vm_compute; reflexivity|]. repeat constructor; cbn; lia.
  - repeat constructor.
  - repeat constructor.
  - by apply lookup_empty_Some in Hl.
Qed.

Lemma encodeCbor_spec_witness :
  wf_heap example_heap /\ wf_val (VRef 1) /\
  exists bs o t, encodeCbor example_heap (VRef 1) None = Ok bs /\ resolveOptions None = Ok o /\
    repr example_heap (VRef 1) t /\ conforms o 0 t = true /\ bs = encode_tree t.
Proof.
  assert (wf_val (VRef 1)) as Hv by exact I. split; [exact example_heap_ok|split; [exact Hv|]].
  destruct (proj1 (encodeCbor_spec example_heap (VRef 1) None (encode_tree example_tree) example_heap_ok Hv)
    ltac:(vm_compute; reflexivity)) as (o & t & Ho & Hr & Hc & Hl & Ht).
  exists (encode_tree example_tree), o, t.
  split; [vm_compute; reflexivity|split; [exact Ho|split; [exact Hr|split; [exact Hc|exact Ht]]]].
Defined.

Lemma encodeCbor_cycle_witness :
  wf_heap example_heap /\ tc (contains example_heap) 3%positive 3%positive /\
  exists e, encodeCbor example_heap (VRef 3) None = Err e /\ e <> OutOfFuel.
Proof.
  assert (tc (contains example_heap) 3%positive 3%positive) as Hc.
  { apply tc_once. left. exists [Some (VRef 3)]. split; [vm_compute; reflexivity|constructor]. }
  split; [exact example_heap_ok|split; [exact Hc|]].
  exact (encodeCbor_cycle example_heap 3 None example_heap_ok Hc).
Defined.
