(* ===== verification/CborDecoder.v ===== *)
(** The CBOR decoder: [packages/protocol/src/cbor/decoder.ts].

    The reader is the payload and an offset into it.  As for the encoder, the
    recursion is bounded by the code's own depth check. *)
From S2P Require Import Prelude JsNumber JsText JsObject CborWriter CborValue CborEncoder.
Local Open Scope Z_scope.

Record CborReader := mkReader {
  r_bytes : list Z;
  r_offset : Z;
}.

Abbreviation read A := (result cbor_error (A * CborReader)).

Definition readByte (r : CborReader) : read Z :=
  throw_if (r_offset r >=? Z.of_nat (length (r_bytes r))) (CborError "Truncated CBOR payload");;
  value ← or_throw (CborError "Truncated CBOR payload") (r_bytes r !! Z.to_nat (r_offset r));
  mret (value, mkReader (r_bytes r) (r_offset r + 1)).

(** [subarray(offset, offset + length)]. *)
Definition readBytes (len : Z) (r : CborReader) : read (list Z) :=
  throw_if (len >? Z.of_nat (length (r_bytes r)) - r_offset r) (CborError "Truncated CBOR payload");;
  let value := take (Z.to_nat len) (drop (Z.to_nat (r_offset r)) (r_bytes r)) in
  mret (value, mkReader (r_bytes r) (r_offset r + len)).

Definition readUint32 (r : CborReader) : read Z :=
  ' (bytes, r) ← readBytes 4 r;
  mret (byte_at 0 bytes * 0x1000000 + byte_at 1 bytes * 0x10000 + byte_at 2 bytes * 0x100 + byte_at 3 bytes, r).

Definition readArgument (additionalInformation : Z) (r : CborReader) : read Z :=
  if additionalInformation <? 24 then mret (additionalInformation, r)
  else if additionalInformation =? 24 then readByte r
  else if additionalInformation =? 25 then
    ' (bytes, r) ← readBytes 2 r;
    mret (byte_at 0 bytes * 0x100 + byte_at 1 bytes, r)
  else if additionalInformation =? 26 then readUint32 r
  else if additionalInformation =? 27 then
    ' (high, r) ← readUint32 r;
    ' (low, r) ← readUint32 r;
    throw_if (high >? 0x1fffff) (CborError "Decoded CBOR integer or length is outside the safe range");;
    mret (high * UINT32_BASE + low, r)
  else if additionalInformation =? 31 then Err (CborError "Indefinite-length CBOR items are not supported")
  else Err (CborError "Malformed CBOR additional information").

Definition readLength (additionalInformation : Z) (kind : string) (limit : Z) (r : CborReader) : read Z :=
  throw_if (additionalInformation =? 31)
    (CborError ("Indefinite-length CBOR " +:+ kind +:+ "s are not supported"));;
  ' (len, r) ← readArgument additionalInformation r;
  throw_if (len >? limit)
    (CborError ("CBOR " +:+ kind +:+ " length exceeds configured limit of " +:+ pretty limit));;
  mret (len, r).

Definition readSimple (additionalInformation : Z) (r : CborReader) : read cbor_value :=
  if additionalInformation =? 20 then mret (CBool false, r)
  else if additionalInformation =? 21 then mret (CBool true, r)
  else if additionalInformation =? 22 then mret (CNull, r)
  else if additionalInformation =? 27 then
    ' (bytes, r) ← readBytes 8 r;
    let value := num_of_bits (be_value bytes) in
    throw_if (negb (isFinite value)) (CborError "Decoded CBOR number must be finite");;
    throw_if (isInteger value && negb (isSafeInteger value))
      (CborError "Decoded CBOR integer is outside the safe range");;
    mret (CNum value, r)
  else if additionalInformation =? 31 then Err (CborError "CBOR break marker is not supported")
  else Err (CborError "Unsupported CBOR simple value or floating-point width").

(** [for (let index = 0; index < n; index++) s = f(s);] *)
Fixpoint iterate {E S} (n : nat) (f : S -> result E S) (s : S) : result E S :=
  match n with
  | O => Ok s
  | S n' => match f s with Ok s' => iterate n' f s' | Err e => Err e end
  end.

Section decoder.
Context (options : ResolvedCborOptions).

(** The [switch] on the major type; [rec] reads an item at the next depth. *)
Definition readMajor (rec : CborReader -> read cbor_value) (majorType additionalInformation : Z)
    (r : CborReader) : read cbor_value :=
  if majorType =? 0 then
    ' (value, r) ← readArgument additionalInformation r;
    mret (CNum (JInt value), r)
  else if majorType =? 1 then
    ' (argument, r) ← readArgument additionalInformation r;
    let value := -1 - argument in
    throw_if (negb (is_safe_Z value)) (CborError "Decoded CBOR integer is outside the safe range");;
    mret (CNum (JInt value), r)
  else if majorType =? 2 then
    ' (len, r) ← readLength additionalInformation "byte string" (maxByteLength options) r;
    ' (bytes, r) ← readBytes len r;
    mret (CBytes bytes, r)
  else if majorType =? 3 then
    ' (len, r) ← readLength additionalInformation "text string" (maxByteLength options) r;
    ' (bytes, r) ← readBytes len r;
    text ← or_throw (CborError "CBOR text string contains invalid UTF-8") (text_decode bytes);
    mret (CText text, r)
  else if majorType =? 4 then
    ' (len, r) ← readLength additionalInformation "array" (maxContainerLength options) r;
    ' (items, r) ← iterate (Z.to_nat len) (fun '(items, r) =>
      ' (item, r) ← rec r;
      mret (items ++ [item], r)) ([], r);
    mret (CArray items, r)
  else if majorType =? 5 then
    ' (len, r) ← readLength additionalInformation "map" (maxContainerLength options) r;
    ' (entries, r) ← iterate (Z.to_nat len) (fun '(entries, r) =>
      ' (key, r) ← rec r;
      match key with
      | CText k =>
          throw_if (JsMap.has k entries) (CborError "CBOR map contains a duplicate key");;
          ' (value, r) ← rec r;
          mret (define k value entries, r)
      | _ => Err (CborError "CBOR map keys must be strings")
      end) ([], r);
    mret (CMap entries, r)
  else if majorType =? 6 then Err (CborError "CBOR tags are not supported")
  else if majorType =? 7 then readSimple additionalInformation r
  else Err (CborError "Malformed CBOR major type").

Fixpoint readItem (fuel : nat) (depth : Z) (r : CborReader) : read cbor_value :=
  match fuel with
  | O => Err OutOfFuel
  | S fuel' =>
      throw_if (depth >? maxDepth options)
        (CborError ("CBOR nesting depth exceeds configured limit of " +:+ pretty (maxDepth options)));;
      ' (initial, r) ← readByte r;
      readMajor (readItem fuel' (depth + 1)) (shr_u initial 5) (Z.land initial 0x1f) r
  end.
End decoder.

Definition decode_fuel (o : ResolvedCborOptions) : nat := Z.to_nat (maxDepth o + 2).

Definition decode (options : ResolvedCborOptions) (r : CborReader) : result cbor_error cbor_value :=
  ' (value, r) ← readItem options (decode_fuel options) 0 r;
  throw_if (negb (r_offset r =? Z.of_nat (length (r_bytes r))))
    (CborError "CBOR payload contains trailing data");;
  mret value.

Definition decodeCbor (bytes : list Z) (options : option CborOptions) : result cbor_error cbor_value :=
  resolved ← resolveOptions options;
  throw_if (Z.of_nat (length bytes) >? maxByteLength resolved)
    (CborError ("CBOR byte length exceeds configured limit of " +:+ pretty (maxByteLength resolved)));;
  decode resolved (mkReader bytes 0).

(** ** Reading what was written *)

Definition rest (r : CborReader) : list Z := drop (Z.to_nat (r_offset r)) (r_bytes r).
Definition reader_ok (r : CborReader) : Prop := 0 <= r_offset r <= Z.of_nat (length (r_bytes r)).

(** [f] consumes exactly [bs] and returns [a]. *)
Definition reads {A} (f : CborReader -> read A) (bs : list Z) (a : A) : Prop :=
  forall r tl, reader_ok r -> rest r = bs ++ tl ->
  exists r', f r = Ok (a, r') /\ reader_ok r' /\ rest r' = tl /\ r_bytes r' = r_bytes r.

Lemma reads_ret {A} (a : A) : reads (fun r => mret (a, r)) [] a.
Proof. intros r tl Hr Hrest. by exists r. Qed.

Lemma reads_ret_eq {A} (a b : A) : a = b -> reads (fun r => mret (a, r)) [] b.
Proof. intros ->. apply reads_ret. Qed.

Lemma reads_bind {A B} (f : CborReader -> read A) (g : A -> CborReader -> read B) xs ys a b :
  reads f xs a -> reads (g a) ys b ->
  reads (fun r => ' (a, r) ← f r; g a r) (xs ++ ys) b.
Proof.
  intros Hf Hg r tl Hr Hrest. rewrite <- app_assoc in Hrest.
  destruct (Hf r _ Hr Hrest) as (r1 & -> & Hr1 & Hrest1 & Hb1).
  destruct (Hg r1 _ Hr1 Hrest1) as (r2 & Hg2 & ? & ? & ?). exists r2. cbn. rewrite Hg2. split_and!; congruence.
Qed.

Lemma reads_bind_last {A B} (f : CborReader -> read A) (g : A -> CborReader -> read B) bs a b :
  reads f bs a -> reads (g a) [] b -> reads (fun r => ' (a, r) ← f r; g a r) bs b.
Proof. intros Hf Hg. rewrite <- (app_nil_r bs). by eapply reads_bind. Qed.

Lemma reads_check {A} c e (f : CborReader -> read A) bs a :
  c = false -> reads f bs a -> reads (fun r => throw_if c e;; f r) bs a.
Proof. intros -> Hf r tl Hr Hrest. by apply (Hf r tl). Qed.

Lemma reads_map {A B} (f : CborReader -> read A) (g : A -> B) bs a :
  reads f bs a -> reads (fun r => ' (a, r) ← f r; mret (g a, r)) bs (g a).
Proof. intros Hf. eapply reads_bind_last; [done|]. apply reads_ret. Qed.

Lemma rest_advance r bs tl :
  reader_ok r -> rest r = bs ++ tl ->
  let r' := mkReader (r_bytes r) (r_offset r + Z.of_nat (length bs)) in
  reader_ok r' /\ rest r' = tl /\ Z.of_nat (length bs) <= Z.of_nat (length (r_bytes r)) - r_offset r.
Proof.
  intros Hr Hrest. unfold reader_ok, rest in *. cbn [r_bytes r_offset].
  assert (length (r_bytes r) - Z.to_nat (r_offset r) = length bs + length tl)%nat as Hlen.
  { by rewrite <- length_drop, Hrest, length_app. }
  split_and!; [lia|lia| |lia].
  rewrite Z2Nat.inj_add, Nat2Z.id, <- drop_drop, Hrest by lia. by rewrite drop_app_length.
Qed.

Lemma reads_readByte b : reads readByte [b] b.
Proof.
  intros r tl Hr Hrest. destruct (rest_advance _ _ _ Hr Hrest) as (Hr' & Hrest' & Hlen).
  eexists. split; [|split_and!; [exact Hr'|exact Hrest'|done]].
  unfold readByte, throw_if. cbn [length] in Hlen. if_lia. cbn [mbind result_bind].
  unfold rest in Hrest. rewrite <- (Nat.add_0_r (Z.to_nat _)), <- lookup_drop, Hrest. done.
Qed.

Lemma reads_readBytes bs n : n = Z.of_nat (length bs) -> reads (readBytes n) bs bs.
Proof.
  intros -> r tl Hr Hrest. destruct (rest_advance _ _ _ Hr Hrest) as (Hr' & Hrest' & Hlen).
  eexists. split; [|split_and!; [exact Hr'|exact Hrest'|done]].
  unfold readBytes, throw_if. if_lia. cbn. unfold rest in Hrest.
  by rewrite Hrest, Nat2Z.id, take_app_length.
Qed.

Lemma reads_readUint32 v : 0 <= v < 2 ^ 32 -> reads readUint32 (be_bytes 4 v) v.
Proof.
  intros Hv. eapply reads_bind_last; [by apply reads_readBytes|].
  apply reads_ret_eq. unfold byte_at. cbn. dlia.
Qed.

(** The argument of a head is read back. *)
Lemma reads_head m v : 0 <= m < 8 -> 0 <= v <= MAX_SAFE_INTEGER ->
  exists ai arg, head_bytes m v = (m * 32 + ai) :: arg /\ 0 <= ai < 28 /\ reads (readArgument ai) arg v.
Proof.
  intros Hm Hv. unfold head_bytes, MAX_SAFE_INTEGER, MAX_UINT32 in *.
  repeat case_match; eexists _, _; (split; [reflexivity|split; [lia|]]); unfold readArgument; if_lia.
  - apply reads_ret.
  - apply reads_readByte.
  - eapply reads_bind_last; [by apply reads_readBytes|].
    apply reads_ret_eq. unfold byte_at. cbn. dlia.
  - apply reads_readUint32. lia.
  - rewrite be_bytes_8 by lia. eapply reads_bind; [apply reads_readUint32; dlia|].
    cbv beta. eapply reads_bind_last; [apply reads_readUint32; dlia|].
    cbv beta. apply reads_check; [dlia|].
    apply reads_ret_eq. unfold UINT32_BASE. dlia.
Qed.

Lemma initial_byte m ai : 0 <= m < 8 -> 0 <= ai < 32 ->
  shr_u (m * 32 + ai) 5 = m /\ Z.land (m * 32 + ai) 0x1f = ai.
Proof.
  intros Hm Hai. rewrite shr_u_spec by lia. change 0x1f with (Z.ones 5). rewrite Z.land_ones by lia.
  split; dlia.
Qed.

(** Reads every element of a list, one round of the loop each. *)
Lemma reads_iterate {A} (step : list A * CborReader -> read (list A)) (enc : A -> list Z) l :
  (forall pre a post, l = pre ++ a :: post -> reads (fun r => step (pre, r)) (enc a) (pre ++ [a])) ->
  reads (fun r => iterate (length l) step ([], r)) (concat (map enc l)) l.
Proof.
  intros Hstep. cut (forall post pre, l = pre ++ post ->
    reads (fun r => iterate (length post) step (pre, r)) (concat (map enc post)) l).
  { intros H. by apply (H l []). }
  induction post as [|a post IH]; intros pre ->; cbn [length iterate map concat].
  { rewrite app_nil_r. apply reads_ret. }
  intros r tl Hr Hrest. rewrite <- app_assoc in Hrest.
  destruct (Hstep _ _ _ eq_refl r _ Hr Hrest) as (r1 & -> & Hr1 & Hrest1 & Hb1).
  destruct (IH (pre ++ [a]) ltac:(by rewrite <- app_assoc) r1 _ Hr1 Hrest1) as (r2 & Hit & ? & ? & ?).
  exists r2. rewrite Hit. split_and!; congruence.
Qed.

Lemma num_ok_range z : num_ok (JInt z) = true -> - MAX_SAFE_INTEGER <= z <= MAX_SAFE_INTEGER.
Proof. unfold num_ok, is_safe_Z. cbn. lia. Qed.

Lemma ordered_prefix {V} (pre : list (jsstr * V)) k v post :
  ordered (pre ++ (k, v) :: post).*1 = true -> ordered (pre.*1 ++ [k]) = true.
Proof.
  rewrite fmap_app. cbn [fmap list_fmap fst]. generalize (pre.*1). intros ks.
  induction ks as [|k1 ks IH]; cbn [app ordered]; [done|].
  rewrite !andb_true_iff, !ordered_forall. intros [Hall Ho]. split; [|by apply IH].
  intros k' Hk'. apply Hall. set_solver.
Qed.

Section roundtrip.
Context (o : ResolvedCborOptions) (Hok : resolved_ok o).

Lemma reads_item fuel depth m ai bs t :
  0 <= m < 8 -> 0 <= ai < 32 -> depth <= maxDepth o ->
  reads (readMajor o (readItem o fuel (depth + 1)) m ai) bs t ->
  reads (readItem o (S fuel) depth) ((m * 32 + ai) :: bs) t.
Proof.
  intros Hm Hai Hd Hbody. cbn [readItem]. apply reads_check; [zlia|].
  destruct (initial_byte m ai Hm Hai) as [Hmt Hadd].
  apply (reads_bind readByte _ [m * 32 + ai] bs (m * 32 + ai)); [apply reads_readByte|].
  cbv beta. by rewrite Hmt, Hadd.
Qed.

(** An item that starts with a head. *)
Lemma reads_headed fuel depth m v bs t :
  0 <= m < 7 -> 0 <= v <= MAX_SAFE_INTEGER -> depth <= maxDepth o ->
  (forall ai arg, 0 <= ai < 28 -> reads (readArgument ai) arg v ->
     reads (readMajor o (readItem o fuel (depth + 1)) m ai) (arg ++ bs) t) ->
  reads (readItem o (S fuel) depth) (head_bytes m v ++ bs) t.
Proof.
  intros Hm Hv Hd Hbody. destruct (reads_head m v) as (ai & arg & -> & Hai & Harg); [lia..|].
  cbn [app]. apply reads_item; [lia..|]. by apply Hbody.
Qed.

Lemma reads_readLength ai arg kind limit v :
  0 <= ai < 28 -> v <= limit -> reads (readArgument ai) arg v -> reads (readLength ai kind limit) arg v.
Proof.
  intros Hai Hv Harg. unfold readLength. apply reads_check; [lia|].
  eapply reads_bind_last; [done|]. cbv beta. apply reads_check; [zlia|apply reads_ret].
Qed.

Lemma reads_text fuel depth s :
  depth <= maxDepth o -> Forall is_code_unit s -> text_ok o s = true ->
  reads (readItem o (S fuel) depth) (encode_text s) (CText s).
Proof.
  destruct Hok as (Hmb & _). unfold MAX_UINT32 in Hmb.
  intros Hd Hs [Hlen Hwf]%andb_true_iff. unfold encode_text. cbv zeta.
  apply reads_headed; [lia|unfold MAX_SAFE_INTEGER; lia|done|].
  intros ai arg Hai Harg. unfold readMajor. if_lia.
  eapply reads_bind; [apply reads_readLength; [done| |done]; lia|]. cbv beta.
  eapply reads_bind_last; [by apply reads_readBytes|]. cbv beta.
  rewrite (proj2 (text_round_trip s Hs)) by done. apply reads_ret.
Qed.

Lemma reads_num fuel depth n :
  depth <= maxDepth o -> wf_num n -> num_ok n = true ->
  reads (readItem o (S fuel) depth) (encode_num n) (CNum n).
Proof.
  intros Hd Hwf Hn. destruct n as [z|bits].
  - apply num_ok_range in Hn. unfold encode_num.
    destruct (z >=? 0) eqn:Hz; rewrite <- (app_nil_r (head_bytes _ _));
      (apply reads_headed; [lia|unfold MAX_SAFE_INTEGER in *; lia|done|]);
      intros ai arg Hai Harg; unfold readMajor; if_lia; rewrite app_nil_r;
      (eapply reads_bind_last; [done|]); cbv beta zeta.
    + apply reads_ret.
    + apply reads_check; [unfold is_safe_Z, MAX_SAFE_INTEGER in *; lia|]. apply reads_ret_eq. do 2 f_equal. lia.
  - destruct Hwf as [Hb Hbits]. apply andb_true_iff in Hn as [Hfin _]. cbn [encode_num].
    apply (reads_item _ _ 7 27); [lia..|]. unfold readMajor, readSimple. if_lia.
    eapply reads_bind_last.
    { apply reads_readBytes. by rewrite length_be_bytes. }
    cbv beta zeta. rewrite be_value_bytes, Z.mod_small by (cbn; lia). rewrite Hbits.
    apply reads_check; [by rewrite Hfin|]. apply reads_check; [|apply reads_ret].
    unfold isInteger, isSafeInteger. cbn. by destruct (bits =? NEG_ZERO_BITS).
Qed.

Lemma reads_tree t : forall fuel depth,
  wf_tree t -> conforms o depth t = true -> maxDepth o - depth < Z.of_nat fuel ->
  reads (readItem o fuel depth) (encode_tree t) t.
Proof.
  destruct Hok as (Hmb & Hmc & _). unfold MAX_UINT32 in *.
  assert (forall n, n < 2 ^ 32 -> n <= MAX_SAFE_INTEGER) as Hsafe by (unfold MAX_SAFE_INTEGER; lia).
  induction t as [|b|n|s|bs|ts IH|es IH] using cbor_value_ind'; intros fuel depth Hwf Hc Hfuel;
    pose proof (conforms_depth _ _ _ Hc) as Hd; apply andb_true_iff in Hc as [_ Hc];
    (destruct fuel as [|fuel]; [lia|]); cbn [encode_tree].
  - apply (reads_item _ _ 7 22 []); [lia..|]. apply reads_ret.
  - destruct b; [apply (reads_item _ _ 7 21 [])|apply (reads_item _ _ 7 20 [])]; try lia; apply reads_ret.
  - by apply reads_num.
  - by apply reads_text.
  - apply reads_headed; [lia|split; [lia|apply Hsafe; lia]|done|].
    intros ai arg Hai Harg. unfold readMajor. if_lia.
    eapply reads_bind; [apply reads_readLength; [done| |done]; lia|]. cbv beta.
    apply (reads_map (readBytes _) CBytes). by apply reads_readBytes.
  - apply andb_true_iff in Hc as [Hlim Hc]. rewrite forallb_Forall in Hc. apply wf_tree_array in Hwf.
    apply reads_headed; [lia|split; [lia|apply Hsafe; lia]|done|].
    intros ai arg Hai Harg. unfold readMajor. if_lia.
    eapply reads_bind; [apply reads_readLength; [done| |done]; lia|]. cbv beta. rewrite Nat2Z.id.
    apply (reads_map (fun r => iterate _ _ ([], r)) CArray). apply reads_iterate.
    intros pre t post ->. apply Forall_elt in IH, Hwf, Hc.
    apply (reads_map (readItem o fuel (depth + 1)) (fun t => pre ++ [t])). apply IH; [done..|lia].
  - apply andb_true_iff in Hc as [Hlim Hc]. rewrite forallb_Forall in Hc.
    apply wf_tree_map in Hwf as [Hord Hwf].
    apply reads_headed; [lia|split; [lia|apply Hsafe; lia]|done|].
    intros ai arg Hai Harg. unfold readMajor. if_lia.
    eapply reads_bind; [apply reads_readLength; [done| |done]; lia|]. cbv beta. rewrite Nat2Z.id.
    apply (reads_map (fun r => iterate _ _ ([], r)) CMap). apply reads_iterate.
    intros pre [k t] post ->. apply Forall_elt in IH, Hwf, Hc. cbn [fst snd] in *.
    apply andb_true_iff in Hc as [Hkc Htc]. destruct Hwf as [Hks Hwt].
    apply ordered_prefix in Hord. pose proof (conforms_depth _ _ _ Htc).
    destruct fuel as [|fuel]; [lia|].
    eapply reads_bind; [apply reads_text; [lia|done|done]|]. cbv beta iota.
    rewrite <- (define_last k t pre) by done.
    apply reads_check; [|apply (reads_map _ (fun t => define k t pre)); apply IH; [done..|lia]].
    unfold JsMap.has. destruct (JsMap.get k pre) eqn:Hg; [|done]. apply JsMap.get_Some_elem in Hg.
    apply ordered_app_inv in Hord as [_ Hlt]. destruct (Hlt k) as [_ []]; [|done].
    apply list_elem_of_fmap. by exists (k, c).
Qed.
End roundtrip.

(** ** What a successful read returns *)

Definition bytes_ok (r : CborReader) : Prop := reader_ok r /\ Forall is_byte (r_bytes r).

(** Whenever [f] returns [a] after consuming [n] bytes, [P a n] holds. *)
Definition yields {A} (f : CborReader -> read A) (P : A -> Z -> Prop) : Prop :=
  forall r a r', bytes_ok r -> f r = Ok (a, r') ->
  exists n, 0 <= n /\ r' = mkReader (r_bytes r) (r_offset r + n) /\ bytes_ok r' /\ P a n.

Lemma yields_ret {A} (a : A) (P : A -> Z -> Prop) : P a 0 -> yields (fun r => mret (a, r)) P.
Proof.
  intros HP r a' r' Hr Heq. injection Heq as <- <-. exists 0. rewrite Z.add_0_r. by destruct r.
Qed.

Lemma yields_bind {A B} (f : CborReader -> read A) (g : A -> CborReader -> read B) P Q :
  yields f P -> (forall a n, P a n -> 0 <= n -> yields (g a) (fun b m => Q b (n + m))) ->
  yields (fun r => ' (a, r) ← f r; g a r) Q.
Proof.
  intros Hf Hg r b r' Hr ([a r1] & Hf1 & Hg1)%bind_Ok.
  destruct (Hf _ _ _ Hr Hf1) as (n & Hn & -> & Hr1 & HP).
  destruct (Hg a n HP Hn _ _ _ Hr1 Hg1) as (m & Hm & -> & Hr2 & HQ).
  exists (n + m). cbn [r_bytes r_offset] in *. rewrite Z.add_assoc. split_and!; [lia|done..].
Qed.

Lemma yields_check {A} c e (f : CborReader -> read A) P :
  (c = false -> yields f P) -> yields (fun r => throw_if c e;; f r) P.
Proof. destruct c; [by intros _ r a r' _|]. intros Hf. by apply Hf. Qed.

Lemma yields_throw {A} e P : yields (fun _ => Err e : read A) P.
Proof. by intros r a r' _. Qed.

Lemma yields_impl {A} (f : CborReader -> read A) (P Q : A -> Z -> Prop) :
  yields f P -> (forall a n, 0 <= n -> P a n -> Q a n) -> yields f Q.
Proof. intros Hf HPQ r a r' Hr Heq. destruct (Hf _ _ _ Hr Heq) as (n & ? & ? & ? & ?). exists n. eauto. Qed.

Lemma yields_or_throw {A B} e (x : option A) (f : A -> CborReader -> read B) P :
  (forall a, x = Some a -> yields (f a) P) -> yields (fun r => a ← or_throw e x; f a r) P.
Proof. destruct x; [|by intros _ r a r' _]. intros Hf. by apply Hf. Qed.

Lemma yields_readByte : yields readByte (fun b n => is_byte b /\ n = 1).
Proof.
  intros r b r' [Hr Hb] (? & Hc%throw_if_Ok & H)%bind_Ok.
  apply bind_Ok in H as (v & Hv%or_throw_Ok & H). injection H as <- <-.
  exists 1. split_and!; [lia|done|split; [|done]|by eapply Forall_lookup_1|done].
  unfold reader_ok in *. cbn. lia.
Qed.

Lemma yields_readBytes len : 0 <= len ->
  yields (readBytes len) (fun bs n => Forall is_byte bs /\ Z.of_nat (length bs) = len /\ n = len).
Proof.
  intros Hlen r b r' [Hr Hb] (? & Hc%throw_if_Ok & H)%bind_Ok. injection H as <- <-.
  unfold reader_ok in Hr. exists len. split_and!; [lia|done|split; [unfold reader_ok; cbn; lia|done]| | |done].
  - by apply Forall_take, Forall_drop.
  - rewrite length_take, length_drop. lia.
Qed.

Lemma yields_readUint32 : yields readUint32 (fun v n => 0 <= v < 2 ^ 32 /\ n = 4).
Proof.
  apply (yields_bind (readBytes 4) _ _ _ (yields_readBytes 4 ltac:(lia))).
  intros bs n (Hbs & _ & ->) _. apply yields_ret. split; [|done].
  pose proof (byte_at_byte 0 bs Hbs). pose proof (byte_at_byte 1 bs Hbs).
  pose proof (byte_at_byte 2 bs Hbs). pose proof (byte_at_byte 3 bs Hbs). unfold is_byte in *. lia.
Qed.

Lemma length_head_bytes m v : 0 <= v <= MAX_SAFE_INTEGER ->
  Z.of_nat (length (head_bytes m v)) =
    if v <? 24 then 1 else if v <=? 0xff then 2 else if v <=? 0xffff then 3 else if v <=? MAX_UINT32 then 5 else 9.
Proof. intros Hv. unfold head_bytes, MAX_UINT32. by repeat case_match; cbn [length]; rewrite ?length_be_bytes. Qed.

(** The shortest head of an argument is never longer than the head it was read from. *)
Definition head_read (v n : Z) : Prop :=
  0 <= v <= MAX_SAFE_INTEGER /\ forall m, Z.of_nat (length (head_bytes m v)) <= 1 + n.

Lemma yields_readArgument ai : 0 <= ai < 32 -> yields (readArgument ai) head_read.
Proof.
  intros Hai. unfold readArgument, head_read.
  assert (forall v n, 0 <= v <= MAX_SAFE_INTEGER ->
    (if v <? 24 then 1 else if v <=? 0xff then 2 else if v <=? 0xffff then 3 else if v <=? MAX_UINT32 then 5 else 9)
      <= 1 + n -> 0 <= v <= MAX_SAFE_INTEGER /\ forall m, Z.of_nat (length (head_bytes m v)) <= 1 + n) as Hhead.
  { intros v n Hv Hn. split; [done|]. intros m. by rewrite length_head_bytes. }
  unfold MAX_SAFE_INTEGER, MAX_UINT32 in *.
  destruct (ai <? 24) eqn:?; [apply yields_ret, Hhead; [lia|by if_lia]|].
  destruct (ai =? 24).
  { eapply yields_impl; [apply yields_readByte|]. intros v n _ [Hv ->]. unfold is_byte in Hv.
    apply Hhead; [lia|]. repeat case_match; lia. }
  destruct (ai =? 25).
  { eapply yields_bind; [apply (yields_readBytes 2); lia|]. intros bs n (Hbs & _ & ->) _.
    pose proof (byte_at_byte 0 bs Hbs). pose proof (byte_at_byte 1 bs Hbs). unfold is_byte in *.
    apply yields_ret, Hhead; [lia|]. repeat case_match; lia. }
  destruct (ai =? 26).
  { eapply yields_impl; [apply yields_readUint32|]. intros v n _ [Hv ->].
    apply Hhead; [lia|]. repeat case_match; lia. }
  destruct (ai =? 27); [|destruct (ai =? 31); apply yields_throw].
  eapply yields_bind; [apply yields_readUint32|]. intros high n [Hh ->] _.
  eapply yields_bind; [apply yields_readUint32|]. intros low n [Hl ->] _.
  apply yields_check. intros Hhigh. unfold UINT32_BASE.
  apply yields_ret, Hhead; [lia|]. repeat case_match; lia.
Qed.

Lemma yields_readLength ai kind limit : 0 <= ai < 32 ->
  yields (readLength ai kind limit) (fun v n => head_read v n /\ v <= limit).
Proof.
  intros Hai. apply yields_check. intros _. eapply yields_bind; [by apply yields_readArgument|].
  intros v n Hv _. apply yields_check. intros Hlim. apply yields_ret. rewrite Z.add_0_r. split; [done|lia].
Qed.

(** An invariant of a loop of reads: [Inv k s n] after [k] rounds that read [n] bytes. *)
Lemma yields_iterate {S} (Inv : nat -> S -> Z -> Prop) (step : S * CborReader -> read S) len s :
  (forall k s n, (k < len)%nat -> Inv k s n -> yields (fun r => step (s, r)) (fun s' m => Inv (1 + k)%nat s' (n + m))) ->
  Inv O s 0 -> yields (fun r => iterate len step (s, r)) (Inv len).
Proof.
  intros Hstep H0. cut (forall i k s n, (k + i = len)%nat -> Inv k s n -> 0 <= n ->
    yields (fun r => iterate i step (s, r)) (fun s' m => Inv len s' (n + m))).
  { intros H. apply (H len O s 0); [lia|done|lia]. }
  induction i as [|i IH]; intros k s1 n Hk HInv Hn; cbn [iterate].
  { apply yields_ret. rewrite Z.add_0_r. by replace len with k by lia. }
  intros r s' r' Hr Heq. destruct (step (s1, r)) as [[s2 r2]|] eqn:Hs; [|done].
  destruct (Hstep k s1 n ltac:(lia) HInv _ _ _ Hr Hs) as (m & Hm & -> & Hr2 & HI2).
  destruct (IH (1 + k)%nat s2 (n + m) ltac:(lia) HI2 ltac:(lia) _ _ _ Hr2 Heq) as (m' & Hm' & -> & Hr3 & HI3).
  exists (m + m'). cbn [r_bytes r_offset] in *. rewrite !Z.add_assoc in *. split_and!; [lia|done..].
Qed.

Lemma num_of_bits_cases bits : (exists z, num_of_bits bits = JInt z) \/ num_of_bits bits = JFrac bits.
Proof. unfold num_of_bits. repeat case_match; eauto. Qed.

Lemma encode_text_length bs s n : Forall is_byte bs -> text_decode bs = Some s ->
  head_read (Z.of_nat (length bs)) n ->
  Z.of_nat (length (encode_text s)) <= 1 + n + Z.of_nat (length bs).
Proof.
  intros Hbs Hd [_ Hn]. apply text_decode_sound in Hd as (_ & _ & He); [|done].
  unfold encode_text. cbv zeta. rewrite He, length_app. specialize (Hn 3). lia.
Qed.

Section soundness.
Context (o : ResolvedCborOptions).

(** What decoding an item at [depth] from [n] bytes guarantees. *)
Definition decoded (depth : Z) (t : cbor_value) (n : Z) : Prop :=
  wf_tree t /\ conforms o depth t = true /\ Z.of_nat (length (encode_tree t)) <= n.

Lemma decoded_text depth k n :
  decoded depth (CText k) n -> Forall is_code_unit k /\ text_ok o k = true /\ Z.of_nat (length (encode_text k)) <= n.
Proof. intros (? & [_ ?]%andb_true_iff & ?). done. Qed.

Lemma decoded_num depth v n : depth <= maxDepth o ->
  0 <= v <= MAX_SAFE_INTEGER -> (forall m, Z.of_nat (length (head_bytes m v)) <= n) ->
  decoded depth (CNum (JInt v)) n /\ (is_safe_Z (-1 - v) = true -> decoded depth (CNum (JInt (-1 - v))) n).
Proof.
  intros Hd Hv Hn. unfold decoded. cbn. split; [|intros ->]; (split_and!; [done| |]); rewrite ?andb_true_iff.
  - split; [lia|]. unfold num_ok, is_safe_Z. cbn. lia.
  - if_lia. apply Hn.
  - split; [lia|done].
  - if_lia. replace (-1 - (-1 - v)) with v by lia. apply Hn.
Qed.

Lemma yields_readSimple depth ai : depth <= maxDepth o ->
  yields (readSimple ai) (fun t n => decoded depth t (1 + n)).
Proof.
  intros Hd. unfold readSimple.
  assert (forall t, (t = CNull \/ exists b, t = CBool b) -> decoded depth t 1) as Hconst.
  { unfold decoded. intros t [->|[b ->]]; cbn; (split_and!; [done|lia|done]). }
  destruct (ai =? 20); [apply yields_ret, Hconst; eauto|].
  destruct (ai =? 21); [apply yields_ret, Hconst; eauto|].
  destruct (ai =? 22); [apply yields_ret, Hconst; eauto|].
  destruct (ai =? 27); [|destruct (ai =? 31); apply yields_throw].
  eapply yields_bind; [apply (yields_readBytes 8); lia|]. intros bs n (Hbs & Hlen & ->) _. cbv zeta.
  apply yields_check. intros Hfin. apply yields_check. intros Hint. apply yields_ret.
  pose proof (be_value_range bs Hbs) as Hv. replace (length bs) with 8%nat in Hv by lia.
  apply negb_false_iff in Hfin.
  destruct (num_of_bits_cases (be_value bs)) as [[z Hz]|Hz]; rewrite Hz in *; unfold decoded.
  - cbn in Hint |- *. apply negb_false_iff in Hint. rewrite Hint. split_and!; [done|lia|].
    apply num_ok_range in Hint. unfold is_safe_Z, MAX_SAFE_INTEGER in *.
    destruct (z >=? 0) eqn:?; rewrite length_head_bytes by (unfold MAX_SAFE_INTEGER; lia); repeat case_match; lia.
  - cbn [wf_tree wf_num conforms encode_tree encode_num length]. unfold num_ok.
    rewrite Hfin, length_be_bytes. split_and!; [lia|lia|done|lia|lia].
Qed.

Definition array_read (depth : Z) (k : nat) (ts : list cbor_value) (n : Z) : Prop :=
  length ts = k /\ Forall wf_tree ts /\ Forall (fun t => conforms o depth t = true) ts /\
  Z.of_nat (length (concat (map encode_tree ts))) <= n.

Definition map_read (depth : Z) (k : nat) (es : list (jsstr * cbor_value)) (n : Z) : Prop :=
  length es = k /\ ordered es.*1 = true /\ Forall (fun e => Forall is_code_unit e.1 /\ wf_tree e.2) es /\
  Forall (fun e => text_ok o e.1 && conforms o depth e.2 = true) es /\
  Z.of_nat (length (concat (map (fun e => encode_text e.1 ++ encode_tree e.2) es))) <= n.

Lemma array_read_done depth ts v n m :
  depth <= maxDepth o -> head_read v n -> v <= maxContainerLength o ->
  array_read (depth + 1) (Z.to_nat v) ts m -> decoded depth (CArray ts) (1 + n + m).
Proof.
  intros Hd [Hv Hhead] Hlim (Hlen & Hwf & Hc & Hn). split_and!.
  - by apply wf_tree_array.
  - cbn. rewrite !andb_true_iff, forallb_Forall. split_and!; [lia|lia|done].
  - cbn. rewrite Hlen, length_app, Z2Nat.id by lia. specialize (Hhead 4). lia.
Qed.

Lemma map_read_done depth es v n m :
  depth <= maxDepth o -> head_read v n -> v <= maxContainerLength o ->
  map_read (depth + 1) (Z.to_nat v) es m -> decoded depth (CMap es) (1 + n + m).
Proof.
  intros Hd [Hv Hhead] Hlim (Hlen & Hord & Hwf & Hc & Hn). split_and!.
  - by apply wf_tree_map.
  - cbn. rewrite !andb_true_iff, forallb_Forall. split_and!; [lia|lia|done].
  - cbn. rewrite Hlen, length_app, Z2Nat.id by lia. specialize (Hhead 5). lia.
Qed.

Lemma array_read_snoc depth k ts n t m :
  array_read depth k ts n -> decoded depth t m -> array_read depth (1 + k) (ts ++ [t]) (n + m).
Proof.
  intros (Hlen & Hwf & Hc & Hn) (Hw & Hct & Hm). unfold array_read.
  rewrite !Forall_app, !Forall_singleton, map_app, concat_app, !length_app. cbn. rewrite app_nil_r.
  split_and!; [lia|done..|lia].
Qed.

Lemma map_read_define depth k es n key t m1 m2 :
  map_read depth k es n -> JsMap.has key es = false ->
  Forall is_code_unit key -> text_ok o key = true -> Z.of_nat (length (encode_text key)) <= m1 ->
  decoded depth t m2 -> map_read depth (1 + k) (define key t es) (n + (m1 + m2)).
Proof.
  intros (Hlen & Hord & Hwf & Hc & Hn) Hhas Hks Hkok Hm1 (Hw & Hct & Hm2).
  assert (key ∉ es.*1) as Hnew.
  { apply JsMap.get_None. revert Hhas. unfold JsMap.has. by destruct (JsMap.get key es). }
  destruct (define_new_ordered key t es Hord Hnew) as (Ho & _ & Hp). unfold map_read. split_and!.
  - rewrite Hp. cbn. lia.
  - done.
  - rewrite Hp. by constructor.
  - rewrite Hp. constructor; [|done]. cbn. by rewrite Hkok, Hct.
  - assert (forall l l', l ≡ₚ l' -> length (concat (map (fun e => encode_text e.1 ++ encode_tree e.2) l)) =
        length (concat (map (fun e => encode_text e.1 ++ encode_tree e.2) l'))) as Hperm.
    { induction 1; cbn; rewrite ?length_app; lia. }
    rewrite (Hperm _ _ Hp). cbn. rewrite !length_app. lia.
Qed.

(** One major type: the items of its payload are read by [rec]. *)
Section major.
Context (depth : Z) (rec : CborReader -> read cbor_value) (Hdepth : depth <= maxDepth o).
Context (Hrec : yields rec (decoded (depth + 1))).

Definition major_ok (m : Z) : Prop :=
  forall ai, 0 <= ai < 32 -> yields (readMajor o rec m ai) (fun t n => decoded depth t (1 + n)).

Lemma yields_number m : m = 0 \/ m = 1 -> major_ok m.
Proof.
  intros [-> | ->] ai Hai; unfold readMajor; if_lia;
    (eapply yields_bind; [by apply yields_readArgument|]); intros v n [Hv Hn] _; cbv zeta.
  - apply yields_ret. rewrite Z.add_0_r. by apply decoded_num.
  - apply yields_check. intros Hs%negb_false_iff. apply yields_ret. rewrite Z.add_0_r. by apply (decoded_num depth v).
Qed.

Lemma yields_string m : m = 2 \/ m = 3 -> major_ok m.
Proof.
  intros [-> | ->] ai Hai; unfold readMajor; if_lia;
    (eapply yields_bind; [by apply yields_readLength|]); intros v n [Hhead Hlim] _;
    (eapply yields_bind; [apply yields_readBytes; destruct Hhead; lia|]); intros bs n' (Hbs & Hlen & ->) _.
  - apply yields_ret. unfold decoded. cbn. rewrite length_app, Hlen. destruct Hhead as [Hv Hn].
    specialize (Hn 2). split_and!; [done|lia|lia].
  - apply yields_or_throw. intros s Hs. apply yields_ret. rewrite <- Hlen in Hhead.
    pose proof (encode_text_length _ _ _ Hbs Hs Hhead).
    apply text_decode_sound in Hs as (Hcu & Hwf & Henc); [|done].
    unfold decoded. cbn. unfold text_ok. rewrite Henc, Hwf. split_and!; [done|lia|lia].
Qed.

Lemma yields_array : major_ok 4.
Proof.
  intros ai Hai. unfold readMajor. if_lia.
  eapply yields_bind; [by apply yields_readLength|]. intros v n [Hhead Hlim] _. eapply yields_bind.
  - apply (yields_iterate (array_read (depth + 1))); [|split_and!; done].
    intros k ts n' _ Hts. eapply yields_bind; [apply Hrec|]. intros t m' Ht _. apply yields_ret.
    rewrite Z.add_0_r. by apply array_read_snoc.
  - intros ts n' Hts _. apply yields_ret. rewrite Z.add_0_r, Z.add_assoc. by eapply array_read_done.
Qed.

Lemma yields_map : major_ok 5.
Proof.
  intros ai Hai. unfold readMajor. if_lia.
  eapply yields_bind; [by apply yields_readLength|]. intros v n [Hhead Hlim] _. eapply yields_bind.
  - apply (yields_iterate (map_read (depth + 1))); [|split_and!; done].
    intros k es n' _ Hes. eapply yields_bind; [apply Hrec|]. intros key m1 Hkey _.
    destruct key as [| | |key| | |]; try apply yields_throw.
    apply decoded_text in Hkey as (Hks & Hkok & Hm1). apply yields_check. intros Hhas.
    eapply yields_bind; [apply Hrec|]. intros t m2 Ht _. apply yields_ret.
    rewrite Z.add_0_r. by apply map_read_define.
  - intros es n' Hes _. apply yields_ret. rewrite Z.add_0_r, Z.add_assoc. by eapply map_read_done.
Qed.

Lemma yields_readMajor m : 0 <= m < 8 -> major_ok m.
Proof.
  intros Hm.
  assert (m = 0 \/ m = 1 \/ m = 2 \/ m = 3 \/ m = 4 \/ m = 5 \/ m = 6 \/ m = 7) as Hcases by lia.
  destruct Hcases as [-> |[-> |[-> |[-> |[-> |[-> |[-> | ->]]]]]]];
    auto using yields_number, yields_string, yields_array, yields_map.
  - intros ai Hai. apply yields_throw.
  - intros ai Hai. by apply yields_readSimple.
Qed.
End major.

Lemma yields_readItem fuel : forall depth, yields (readItem o fuel depth) (decoded depth).
Proof.
  induction fuel as [|fuel IH]; intros depth; [apply yields_throw|]. cbn [readItem].
  apply yields_check. intros Hd. assert (depth <= maxDepth o) as Hdepth by lia.
  eapply yields_bind; [apply yields_readByte|]. intros b n [Hb ->] _. unfold is_byte in Hb.
  rewrite shr_u_spec by lia. change 0x1f with (Z.ones 5). rewrite Z.land_ones by lia.
  apply yields_readMajor; [done|apply IH|dlia|dlia].
Qed.
End soundness.

(** ** The recursion bound *)

Lemma fueled_readBytes n r : fueled (readBytes n r).
Proof. unfold readBytes. fuel_steps. done. Qed.

Lemma fueled_readByte r : fueled (readByte r).
Proof. unfold readByte. fuel_steps; [|done]. by destruct (r_bytes r !! _). Qed.

Lemma fueled_readUint32 r : fueled (readUint32 r).
Proof. unfold readUint32. apply fueled_bind; [apply fueled_readBytes|]. by intros []. Qed.

#[export] Hint Resolve fueled_readBytes fueled_readByte fueled_readUint32 : fueled.

Lemma fueled_readArgument ai r : fueled (readArgument ai r).
Proof.
  unfold readArgument. repeat case_match; auto with fueled;
    repeat (apply fueled_bind; [auto with fueled|intros []]); auto with fueled.
Qed.

Lemma fueled_readLength ai kind limit r : fueled (readLength ai kind limit r).
Proof.
  unfold readLength. fuel_steps; [apply fueled_readArgument|]. destruct a. fuel_steps. done.
Qed.

Lemma fueled_iterate {S} (f : S -> result cbor_error S) n : forall s,
  (forall s, fueled (f s)) -> fueled (iterate n f s).
Proof.
  induction n as [|n IH]; intros s Hf; cbn; [done|].
  pose proof (Hf s) as Hs. unfold fueled in *. destruct (f s) as [s'|e]; [by apply IH|congruence].
Qed.

Lemma fueled_readMajor o rec m ai r : (forall r, fueled (rec r)) -> fueled (readMajor o rec m ai r).
Proof.
  intros Hrec. unfold readMajor, readSimple. repeat (case_match; [fuel_steps|]);
    auto using fueled_readArgument, fueled_readLength with fueled;
    repeat (case_match || fuel_steps); auto using fueled_readArgument, fueled_readLength with fueled.
  all: try (apply fueled_iterate; intros []; fuel_steps; [apply Hrec|]; destruct a0; try done).
  - match goal with |- context [or_throw _ ?x] => by destruct x end.
  - match goal with |- context [match ?c with _ => _ end] => destruct c end; auto with fueled.
    fuel_steps; [apply Hrec|]. by destruct a0.
Qed.

Lemma fueled_readItem o fuel : forall depth r,
  depth <= maxDepth o + 1 -> maxDepth o + 2 <= depth + Z.of_nat fuel -> fueled (readItem o fuel depth r).
Proof.
  induction fuel as [|fuel IH]; intros depth r Hd Hfuel; [lia|]. cbn [readItem].
  apply fueled_check; [done|]. intros Hdepth. apply fueled_bind; [apply fueled_readByte|]. intros [b r'].
  apply fueled_readMajor. intros r1. apply IH; lia.
Qed.

(** ** The decoder *)

Lemma decodeCbor_tree o options t :
  resolveOptions options = Ok o -> wf_tree t -> conforms o 0 t = true ->
  Z.of_nat (length (encode_tree t)) <= maxByteLength o ->
  decodeCbor (encode_tree t) options = Ok t.
Proof.
  intros Ho Hwf Hc Hlen. pose proof (resolveOptions_ok _ _ Ho) as Hok. unfold decodeCbor. rewrite Ho. cbn.
  unfold throw_if at 1. if_lia. cbn. unfold decode.
  destruct (reads_tree o Hok t (decode_fuel o) 0 Hwf Hc ltac:(unfold decode_fuel; destruct Hok; lia)
    (mkReader (encode_tree t) 0) []) as (r & -> & Hr & Hrest & Hb).
  { unfold reader_ok. cbn. lia. }
  { unfold rest. cbn. by rewrite app_nil_r. }
  cbn. unfold throw_if. unfold rest, reader_ok in *. rewrite Hb in *. cbn [r_bytes] in *.
  apply (f_equal length) in Hrest. rewrite length_drop in Hrest. cbn in Hrest. by if_lia.
Qed.

Lemma decodeCbor_sound bs options t :
  Forall is_byte bs -> decodeCbor bs options = Ok t ->
  exists o, resolveOptions options = Ok o /\ wf_tree t /\ conforms o 0 t = true /\
    Z.of_nat (length (encode_tree t)) <= Z.of_nat (length bs) <= maxByteLength o.
Proof.
  intros Hbs (o & Ho & (_ & Hlen%throw_if_Ok & ([t' r] & Ht & (_ & Hend%throw_if_Ok & [= ->])%bind_Ok)%bind_Ok)%bind_Ok)%bind_Ok.
  apply (yields_readItem o) in Ht as (n & Hn & -> & [Hr _] & Hwf & Hc & Hle).
  2:{ split; [unfold reader_ok; cbn; lia|done]. }
  exists o. unfold reader_ok in Hr. cbn [r_bytes r_offset] in *. split_and!; [done..|lia|lia].
Qed.

(** C2: round trip.  Decoding what was encoded under the same options gives
    the tree the value unfolds to: nothing is lost, no limit the encoder
    accepts is refused by the decoder. *)
Theorem cbor_round_trip h v options bs :
  wf_heap h -> wf_val v -> encodeCbor h v options = Ok bs ->
  exists t, repr h v t /\ decodeCbor bs options = Ok t.
Proof.
  intros Hh Hv (o & t & Ho & Hr & Hwf & Hc & Hlen & ->)%encodeCbor_sound; [|done..].
  exists t. split; [done|]. by eapply decodeCbor_tree.
Qed.

(** C3: soundness of the decoder on untrusted bytes.  Whatever payload is
    accepted (with longer heads than needed, or integers sent as floats), the
    value satisfies every limit of the options and its canonical encoding is
    no longer than the payload and decodes to the same value. *)
Theorem decodeCbor_canonical bs options t :
  Forall is_byte bs -> decodeCbor bs options = Ok t ->
  exists o, resolveOptions options = Ok o /\ wf_tree t /\ conforms o 0 t = true /\
    (length (encode_tree t) <= length bs)%nat /\ decodeCbor (encode_tree t) options = Ok t.
Proof.
  intros Hbs (o & Ho & Hwf & Hc & Hlen)%decodeCbor_sound; [|done]. exists o.
  split_and!; [done..|lia|]. eapply decodeCbor_tree; [done..|lia].
Qed.

(** Both directions terminate within the depth limit: the recursion bound
    of the model is never reached, on any value (cyclic ones included) and on
    any payload. *)
Theorem cbor_terminates h v bs options :
  encodeCbor h v options <> Err OutOfFuel /\ decodeCbor bs options <> Err OutOfFuel.
Proof.
  split; [apply fueled_encodeCbor|]. change (fueled (decodeCbor bs options)).
  unfold decodeCbor, decode, decode_fuel. pose proof (fueled_resolveOptions options) as Hf.
  destruct (resolveOptions options) as [o|] eqn:Ho; [|by intros [= ->]].
  apply resolveOptions_ok in Ho as (_ & _ & ?). cbn [mbind result_bind]. fuel_steps.
  - apply fueled_readItem; lia.
  - destruct a. fuel_steps. done.
Qed.

Lemma cbor_round_trip_witness :
  wf_heap example_heap /\ wf_val (VRef 1) /\
  exists bs t, encodeCbor example_heap (VRef 1) None = Ok bs /\ repr example_heap (VRef 1) t /\
    decodeCbor bs None = Ok t.
Proof.
  assert (wf_val (VRef 1)) as Hv by exact I. split; [exact example_heap_ok|split; [exact Hv|]].
  assert (encodeCbor example_heap (VRef 1) None = Ok (encode_tree example_tree)) as He
    by (vm_compute; reflexivity).
  destruct (cbor_round_trip example_heap (VRef 1) None _ example_heap_ok Hv He) as (t & Hr & Hd).
  exists (encode_tree example_tree), t. split; [exact He|split; [exact Hr|exact Hd]].
Defined.

(** The float 1.0 is accepted, and is the integer 1. *)
Lemma decodeCbor_canonical_witness :
  let bs := [0xfb; 0x3f; 0xf0; 0; 0; 0; 0; 0; 0] in
  decodeCbor bs None = Ok (CNum (JInt 1)) /\ encode_tree (CNum (JInt 1)) = [1] /\
  decodeCbor (encode_tree (CNum (JInt 1))) None = Ok (CNum (JInt 1)).
Proof.
  cbv zeta. set (bs := [0xfb; 0x3f; 0xf0; 0; 0; 0; 0; 0; 0]).
  assert (Forall is_byte bs) as Hbs by by_decide.
  assert (decodeCbor bs None = Ok (CNum (JInt 1))) as Hd by (vm_compute; reflexivity).
  destruct (decodeCbor_canonical bs None _ Hbs Hd) as (o & _ & _ & _ & _ & Hd').
  split; [exact Hd|split; [vm_compute; reflexivity|exact Hd']].
Defined.
