(* ===== verification/Framing.v ===== *)
(** Length-prefixed frames: [packages/protocol/src/framing.ts].

    [FrameDecoder] splits an arbitrarily chunked byte stream into payloads.
    Its blocks are mutable arrays: the current block is an index into the list
    of blocks, so that a store through it is seen in the list.  A method that
    throws leaves the decoder modified, so a method returns the decoder after
    the call together with its result.

    The specification is a splitter that reads one byte at a time ([feed]). *)
From S2P Require Import Prelude JsNumber.
Local Open Scope Z_scope.

Definition FRAME_HEADER_LENGTH : Z := 4.
Definition FRAME_MAX_UINT32 : Z := 0xffffffff.
Definition PAYLOAD_BLOCK_SIZE : Z := 64 * 1024.
Definition DEFAULT_MAX_FRAME_LENGTH : Z := 16 * 1024 * 1024.

Record FrameDecoderOptions := mkFrameDecoderOptions {
  o_maxFrameLength : option jsnum;
}.

(** [FrameFuel] marks an exhausted bound of the model, and is proved unreachable. *)
Inductive frame_error : Type :=
  | FrameError (message : string)
  | FrameRangeError (message : string)
  | FrameFuel.

Definition resolveMaxFrameLength (options : option FrameDecoderOptions) : result frame_error Z :=
  let value := default (JInt DEFAULT_MAX_FRAME_LENGTH) (options ≫= o_maxFrameLength) in
  let err := FrameRangeError ("maxFrameLength must be an integer between 0 and " +:+ pretty FRAME_MAX_UINT32) in
  match num_to_Z value with
  | Some z => if negb (isSafeInteger value) || (z <? 0) || (z >? FRAME_MAX_UINT32) then Err err else Ok z
  | None => Err err
  end.

(** Length of an array. *)
Abbreviation blen l := (Z.of_nat (length l)).

Definition encodeFrame (payload : list Z) : result frame_error (list Z) :=
  throw_if (blen payload >? FRAME_MAX_UINT32)
    (FrameRangeError "Frame payload exceeds the unsigned 32-bit length limit");;
  let frame := replicate (Z.to_nat (FRAME_HEADER_LENGTH + blen payload)) 0 in
  let len := blen payload in
  let frame := store 0 (shr_u len 24) frame in
  let frame := store 1 (shr_u len 16) frame in
  let frame := store 2 (shr_u len 8) frame in
  let frame := store 3 len frame in
  mret (store_all FRAME_HEADER_LENGTH payload frame).

Definition header_value (hd : list Z) : Z :=
  byte_at 0 hd * 0x1000000 + byte_at 1 hd * 0x10000 + byte_at 2 hd * 0x100 + byte_at 3 hd.

Definition frame_limit_error (len limit : Z) : frame_error :=
  FrameError ("Frame length " +:+ pretty len +:+ " exceeds configured limit of " +:+ pretty limit).

Definition assertCompleteFrame (frame : list Z) (options : option FrameDecoderOptions) : result frame_error unit :=
  throw_if (blen frame <? FRAME_HEADER_LENGTH) (FrameError "Frame does not contain a complete length prefix");;
  let len := header_value frame in
  maxFrameLength ← resolveMaxFrameLength options;
  throw_if (len >? maxFrameLength) (frame_limit_error len maxFrameLength);;
  throw_if (negb (blen frame =? FRAME_HEADER_LENGTH + len))
    (FrameError "Frame must contain exactly one complete payload");;
  mret ().

Inductive DecoderState : Type := Open | Ended | Failed.

Record FrameDecoder := mkDecoder {
  header : list Z;
  headerLength : Z;
  maxFrameLength : Z;
  payloadBlocks : list (list Z);
  currentPayloadBlock : option nat;  (* an element of [payloadBlocks] *)
  currentPayloadBlockLength : Z;
  expectedPayloadLength : option Z;
  payloadLength : Z;
  state : DecoderState;
}.

Definition new_FrameDecoder (options : option FrameDecoderOptions) : result frame_error FrameDecoder :=
  maxFrameLength ← resolveMaxFrameLength options;
  mret (mkDecoder (replicate 4 0) 0 maxFrameLength [] None 0 None 0 Open).

(** The state [fail] leaves behind; it then throws [FrameError message]. *)
Definition fail (d : FrameDecoder) : FrameDecoder :=
  mkDecoder (header d) 0 (maxFrameLength d) [] None 0 None 0 Failed.

(** The local state of [push]: the decoder, [chunkOffset] and [frames]. *)
Definition push_state : Type := FrameDecoder * Z * list (list Z).
Abbreviation push_result A := (result (FrameDecoder * frame_error) A).

(** Reads header bytes if no payload is under way.  The two [continue]s of the
    code leave [expectedPayloadLength] undefined, and so does this function:
    [readPayload] then does nothing. *)
Definition readHeader (chunk : list Z) (s : push_state) : push_result push_state :=
  let '(d, chunkOffset, frames) := s in
  match expectedPayloadLength d with
  | Some _ => Ok s
  | None =>
      let headerBytes := Z.min (FRAME_HEADER_LENGTH - headerLength d) (blen chunk - chunkOffset) in
      let bytes := take (Z.to_nat headerBytes) (drop (Z.to_nat chunkOffset) chunk) in
      let hd := store_all (headerLength d) bytes (header d) in
      let hdLength := headerLength d + headerBytes in
      let chunkOffset := chunkOffset + headerBytes in
      let d1 len := mkDecoder hd len (maxFrameLength d) (payloadBlocks d) (currentPayloadBlock d)
                      (currentPayloadBlockLength d) None (payloadLength d) (state d) in
      if hdLength <? FRAME_HEADER_LENGTH then Ok (d1 hdLength, chunkOffset, frames)
      else
        let frameLength := header_value hd in
        if frameLength >? maxFrameLength d
        then Err (fail (d1 0), frame_limit_error frameLength (maxFrameLength d))
        else if frameLength =? 0 then Ok (d1 0, chunkOffset, frames ++ [[]])
        else Ok (mkDecoder hd 0 (maxFrameLength d) [] None 0 (Some frameLength) 0 (state d), chunkOffset, frames)
  end.

(** One round of the loop that copies payload bytes. *)
Definition fillBlock (chunk : list Z) (expected : Z) (s : FrameDecoder * Z) : FrameDecoder * Z :=
  let '(d, chunkOffset) := s in
  let fresh :=
    let block := replicate (Z.to_nat (Z.min PAYLOAD_BLOCK_SIZE (expected - payloadLength d))) 0 in
    (payloadBlocks d ++ [block], length (payloadBlocks d), block, 0) in
  let '(blocks, current, block, blockLength) :=
    match currentPayloadBlock d with
    | Some i =>
        let block := default [] (payloadBlocks d !! i) in
        if currentPayloadBlockLength d =? blen block then fresh
        else (payloadBlocks d, i, block, currentPayloadBlockLength d)
    | None => fresh
    end in
  let payloadBytes := Z.min (blen block - blockLength) (blen chunk - chunkOffset) in
  let bytes := take (Z.to_nat payloadBytes) (drop (Z.to_nat chunkOffset) chunk) in
  let blocks := <[current := store_all blockLength bytes block]> blocks in
  (mkDecoder (header d) (headerLength d) (maxFrameLength d) blocks (Some current) (blockLength + payloadBytes)
     (expectedPayloadLength d) (payloadLength d + payloadBytes) (state d),
   chunkOffset + payloadBytes).

(** The frame of a complete payload: the only block, or a copy of all of them. *)
Definition joinBlocks (expected : Z) (blocks : list (list Z)) : list Z :=
  match blocks with
  | [block] => block
  | _ =>
      (foldl (fun '(payload, offset) block => (store_all offset block payload, offset + blen block))
         (replicate (Z.to_nat expected) 0, 0) blocks).1
  end.

Definition readPayload (chunk : list Z) (s : push_state) : push_result push_state :=
  let '(d, chunkOffset, frames) := s in
  match expectedPayloadLength d with
  | None => Ok s
  | Some expected =>
      ' (d, chunkOffset) ← loop (length chunk) (d, FrameFuel)
        (fun '(d, chunkOffset) => (chunkOffset <? blen chunk) && (payloadLength d <? expected))
        (fun s => Ok (fillBlock chunk expected s)) (d, chunkOffset);
      if payloadLength d =? expected then
        let d' := mkDecoder (header d) (headerLength d) (maxFrameLength d) [] None 0 None 0 (state d) in
        Ok (d', chunkOffset, frames ++ [joinBlocks expected (payloadBlocks d)])
      else Ok (d, chunkOffset, frames)
  end.

Definition push_loop (chunk : list Z) (s : push_state) : push_result push_state :=
  loop (length chunk) (s.1.1, FrameFuel) (fun '(_, chunkOffset, _) => chunkOffset <? blen chunk)
    (fun s => s ← readHeader chunk s; readPayload chunk s) s.

Definition closed_error (d : FrameDecoder) : option frame_error :=
  match state d with
  | Open => None
  | Ended => Some (FrameError "Frame decoder has ended")
  | Failed => Some (FrameError "Frame decoder has failed")
  end.

Definition push (d : FrameDecoder) (chunk : list Z) : FrameDecoder * result frame_error (list (list Z)) :=
  match closed_error d with
  | Some e => (d, Err e)
  | None =>
      match push_loop chunk (d, 0, []) with
      | Ok (d, _, frames) => (d, Ok frames)
      | Err (d, e) => (d, Err e)
      end
  end.

(** Method [end]. *)
Definition end_ (d : FrameDecoder) : FrameDecoder * result frame_error unit :=
  match closed_error d with
  | Some e => (d, Err e)
  | None =>
      if negb (headerLength d =? 0) || bool_decide (expectedPayloadLength d <> None)
      then (fail d, Err (FrameError "Truncated frame at end of stream"))
      else (mkDecoder (header d) (headerLength d) (maxFrameLength d) (payloadBlocks d) (currentPayloadBlock d)
              (currentPayloadBlockLength d) (expectedPayloadLength d) (payloadLength d) Ended, Ok ())
  end.

(** ** The specification: a splitter that reads one byte at a time

    Its state is the part of the current frame read so far, header included. *)

Section splitter.
Context (max : Z).

(** What [buf], one byte longer than a state, becomes: [None] is a frame over
    the limit, otherwise the frames completed (one at most) and the next state. *)
Definition settle (buf : list Z) : option (list (list Z) * list Z) :=
  if blen buf <? FRAME_HEADER_LENGTH then Some ([], buf)
  else if (blen buf =? FRAME_HEADER_LENGTH) && (header_value buf >? max) then None
  else if blen buf =? FRAME_HEADER_LENGTH + header_value buf then Some ([drop 4 buf], [])
  else Some ([], buf).

Fixpoint feed (buf : list Z) (bytes : list Z) : option (list (list Z) * list Z) :=
  match bytes with
  | [] => Some ([], buf)
  | b :: bytes' =>
      ' (fs, buf') ← settle (buf ++ [b]);
      ' (fs', buf'') ← feed buf' bytes';
      Some (fs ++ fs', buf'')
  end.

Lemma feed_app buf xs ys :
  feed buf (xs ++ ys) =
  (' (fs, buf') ← feed buf xs; ' (fs', buf'') ← feed buf' ys; Some (fs ++ fs', buf'')).
Proof.
  revert buf. induction xs as [|x xs IH]; intros buf; cbn.
  { by destruct (feed buf ys) as [[]|]. }
  destruct (settle _) as [[fs buf']|]; cbn; [|done]. rewrite IH.
  destruct (feed buf' xs) as [[fs1 buf1]|]; cbn; [|done].
  destruct (feed buf1 ys) as [[fs2 buf2]|]; cbn; [|done]. by rewrite app_assoc.
Qed.

(** The length at which the state is looked at next. *)
Definition milestone (buf : list Z) : Z :=
  if blen buf <? FRAME_HEADER_LENGTH then FRAME_HEADER_LENGTH else FRAME_HEADER_LENGTH + header_value buf.

Definition buf_ok (buf : list Z) : Prop :=
  blen buf < FRAME_HEADER_LENGTH \/
  (FRAME_HEADER_LENGTH <= blen buf < FRAME_HEADER_LENGTH + header_value buf /\ header_value buf <= max).

Lemma header_value_app buf xs : FRAME_HEADER_LENGTH <= blen buf -> header_value (buf ++ xs) = header_value buf.
Proof.
  unfold FRAME_HEADER_LENGTH, header_value, byte_at. intros Hlen. by rewrite !app_nth1 by lia.
Qed.

(** Up to the milestone, feeding bytes one by one is looking once at the result. *)
Lemma feed_upto xs : forall buf,
  buf_ok buf -> xs <> [] -> blen buf + blen xs <= milestone buf -> feed buf xs = settle (buf ++ xs).
Proof.
  induction xs as [|x xs IH]; intros buf Hbuf Hne Hlen; [done|]. cbn [feed].
  destruct xs as [|y xs].
  { cbn. destruct (settle (buf ++ [x])) as [[fs buf']|]; cbn; [|done]. by rewrite app_nil_r. }
  assert (settle (buf ++ [x]) = Some ([], buf ++ [x]) /\ buf_ok (buf ++ [x]) /\
          milestone (buf ++ [x]) = milestone buf) as (-> & Hok & Hm).
  { unfold settle, buf_ok, milestone, FRAME_HEADER_LENGTH in *. rewrite !length_app in *. cbn [length] in *.
    destruct (blen buf <? 4) eqn:Hb.
    - if_lia. split_and!; [done|left; lia|done].
    - rewrite header_value_app by (unfold FRAME_HEADER_LENGTH; lia). destruct Hbuf as [?|[? ?]]; [lia|].
      if_lia. split_and!; [done|right; lia|done]. }
  cbn [mbind option_bind]. rewrite IH; [|done..|].
  - rewrite <- app_assoc. cbn. destruct (settle _) as [[]|]; done.
  - rewrite Hm. rewrite length_app. cbn [length] in *. lia.
Qed.

End splitter.

(** ** The decoder implements the splitter *)

(** The blocks hold [n] bytes of a payload of [expected]: all are full but the
    last, which is the current one and holds [current_len] bytes. *)
Definition blocks_ok (expected : Z) (blocks : list (list Z)) (current : option nat) (current_len n : Z) : Prop :=
  (blocks = [] /\ current = None /\ current_len = 0 /\ n = 0) \/
  (exists pre last, blocks = pre ++ [last] /\ current = Some (length pre) /\ 0 <= current_len <= blen last /\
     n = blen (concat pre) + current_len /\ blen (concat blocks) <= expected).

Definition decoder_ok (d : FrameDecoder) : Prop :=
  state d = Open /\ length (header d) = 4%nat /\ Forall is_byte (header d) /\
  match expectedPayloadLength d with
  | None => 0 <= headerLength d < FRAME_HEADER_LENGTH
  | Some expected =>
      headerLength d = 0 /\ header_value (header d) = expected /\ expected <= maxFrameLength d /\
      0 <= payloadLength d < expected /\
      blocks_ok expected (payloadBlocks d) (currentPayloadBlock d) (currentPayloadBlockLength d) (payloadLength d)
  end.

Definition filled (d : FrameDecoder) : list Z := take (Z.to_nat (payloadLength d)) (concat (payloadBlocks d)).

(** The state of the splitter a decoder stands for. *)
Definition pending (d : FrameDecoder) : list Z :=
  match expectedPayloadLength d with
  | None => take (Z.to_nat (headerLength d)) (header d)
  | Some _ => header d ++ filled d
  end.

Lemma blocks_ok_length expected blocks cur len n :
  blocks_ok expected blocks cur len n -> 0 <= n <= blen (concat blocks).
Proof.
  intros [(-> & -> & -> & ->)|(pre & last & -> & -> & Hl & -> & _)]; [cbn; lia|].
  rewrite concat_app, length_app. cbn. rewrite app_nil_r. lia.
Qed.

Lemma length_pending d : decoder_ok d -> blen (pending d) =
  match expectedPayloadLength d with None => headerLength d | Some _ => 4 + payloadLength d end.
Proof.
  unfold pending, FRAME_HEADER_LENGTH. intros (_ & Hh & _ & Hd). unfold FRAME_HEADER_LENGTH in Hd.
  destruct (expectedPayloadLength d).
  - destruct Hd as (_ & _ & _ & _ & Hb%blocks_ok_length). unfold filled. rewrite length_app, length_take. lia.
  - rewrite length_take. lia.
Qed.

Lemma pending_ok d : decoder_ok d -> buf_ok (maxFrameLength d) (pending d).
Proof.
  intros Hd. pose proof (length_pending d Hd) as Hlen. destruct Hd as (_ & Hh & _ & Hd).
  unfold buf_ok. rewrite Hlen. unfold pending. destruct (expectedPayloadLength d) as [n|].
  - right. rewrite header_value_app by (unfold FRAME_HEADER_LENGTH; lia). unfold FRAME_HEADER_LENGTH.
    destruct Hd as (_ & -> & ? & ? & _). lia.
  - left. lia.
Qed.

(** *** Copying payload bytes *)

Lemma fillBlock_selected expected pre last cur_len n (chunk : list Z) off :
  0 <= cur_len < blen last -> 0 <= off < blen chunk -> n = blen (concat pre) + cur_len ->
  blen (concat (pre ++ [last])) <= expected ->
  let k := Z.min (blen last - cur_len) (blen chunk - off) in
  let bytes := take (Z.to_nat k) (drop (Z.to_nat off) chunk) in
  let blocks := <[length pre := store_all cur_len bytes last]> (pre ++ [last]) in
  0 < k <= blen chunk - off /\ blen bytes = k /\
  blocks_ok expected blocks (Some (length pre)) (cur_len + k) (n + k) /\
  take (Z.to_nat (n + k)) (concat blocks) = take (Z.to_nat n) (concat (pre ++ [last])) ++ bytes.
Proof.
  intros Hcur Hoff -> Hexp. cbv zeta. set (k := Z.min _ _). set (bytes := take _ (drop _ chunk)).
  assert (0 < k <= blen chunk - off) as Hk by lia.
  assert (blen bytes = k) as Hbytes by (unfold bytes; rewrite length_take, length_drop; lia).
  assert (length (store_all cur_len bytes last) = length last) as Hst by (apply length_store_all; lia).
  rewrite insert_app_r_alt, Nat.sub_diag by lia. cbn [insert list_insert].
  rewrite !concat_app, !length_app in *. cbn [concat] in *. rewrite !app_nil_r in *.
  split_and!; [lia|lia|done| |].
  - right. exists pre, (store_all cur_len bytes last). rewrite concat_app, length_app. cbn [concat].
    rewrite app_nil_r, Hst. split_and!; [done|done|lia|lia|lia|lia].
  - rewrite !take_app. rewrite !(take_ge (concat pre)) by lia.
    rewrite <- app_assoc. f_equal. replace (Z.to_nat (blen (concat pre) + cur_len + k) - length (concat pre))%nat
      with (Z.to_nat (cur_len + blen bytes)) by lia.
    rewrite take_store_all by lia. f_equal. f_equal. lia.
Qed.

Definition same_frame (d d' : FrameDecoder) : Prop :=
  header d' = header d /\ headerLength d' = headerLength d /\ maxFrameLength d' = maxFrameLength d /\
  expectedPayloadLength d' = expectedPayloadLength d /\ state d' = state d.

Definition payload_ok (expected : Z) (d : FrameDecoder) : Prop :=
  payloadLength d <= expected /\
  blocks_ok expected (payloadBlocks d) (currentPayloadBlock d) (currentPayloadBlockLength d) (payloadLength d).

(** [d'] is [d] after copying the bytes of [chunk] from [off] to [off']. *)
Definition copied (expected : Z) (chunk : list Z) (d : FrameDecoder) (off : Z) (d' : FrameDecoder) (off' : Z) : Prop :=
  off <= off' <= blen chunk /\ same_frame d d' /\ payload_ok expected d' /\
  payloadLength d' = payloadLength d + (off' - off) /\
  filled d' = filled d ++ take (Z.to_nat (off' - off)) (drop (Z.to_nat off) chunk).

(** The block the round stores into: a fresh one when the current one is full. *)
Lemma fillBlock_select expected chunk d off :
  payload_ok expected d -> payloadLength d < expected -> exists pre last cur_len,
  0 <= cur_len < blen last /\ payloadLength d = blen (concat pre) + cur_len /\
  blen (concat (pre ++ [last])) <= expected /\
  take (Z.to_nat (payloadLength d)) (concat (pre ++ [last])) = filled d /\
  fillBlock chunk expected (d, off) =
    (let k := Z.min (blen last - cur_len) (blen chunk - off) in
     let bytes := take (Z.to_nat k) (drop (Z.to_nat off) chunk) in
     (mkDecoder (header d) (headerLength d) (maxFrameLength d)
        (<[length pre := store_all cur_len bytes last]> (pre ++ [last])) (Some (length pre)) (cur_len + k)
        (expectedPayloadLength d) (payloadLength d + k) (state d), off + k)).
Proof.
  intros [_ Hb] Hn. unfold filled.
  set (fresh := replicate (Z.to_nat (Z.min PAYLOAD_BLOCK_SIZE (expected - payloadLength d))) 0).
  assert (blen fresh = Z.min PAYLOAD_BLOCK_SIZE (expected - payloadLength d)) as Hfresh.
  { unfold fresh. rewrite length_replicate. unfold PAYLOAD_BLOCK_SIZE. lia. }
  unfold PAYLOAD_BLOCK_SIZE in Hfresh.
  assert (payloadLength d = blen (concat (payloadBlocks d)) -> exists cur_len, cur_len = 0 /\
    0 <= cur_len < blen fresh /\ payloadLength d = blen (concat (payloadBlocks d)) + cur_len /\
    blen (concat (payloadBlocks d ++ [fresh])) <= expected /\
    take (Z.to_nat (payloadLength d)) (concat (payloadBlocks d ++ [fresh])) =
      take (Z.to_nat (payloadLength d)) (concat (payloadBlocks d))) as Hfull.
  { intros Heq. exists 0. rewrite concat_app, length_app. cbn [concat]. rewrite app_nil_r.
    split_and!; try lia. rewrite take_app_le by lia. done. }
  destruct Hb as [(Hbl & Hc & Hl & Hp)|(pre & last & Hbl & Hc & Hl & Hp & He)].
  - destruct Hfull as (? & -> & ? & ? & ? & Htake); [rewrite Hbl; cbn; lia|].
    exists (payloadBlocks d), fresh, 0. split_and!; [lia|lia|done|done|done|]. unfold fillBlock. by rewrite Hc.
  - assert (default [] (payloadBlocks d !! length pre) = last) as Hlast.
    { by rewrite Hbl, lookup_app_r, Nat.sub_diag by lia. }
    destruct (currentPayloadBlockLength d =? blen last) eqn:Hfin.
    + destruct Hfull as (? & -> & ? & ? & ? & Htake).
      { rewrite Hbl, concat_app, length_app. cbn. rewrite app_nil_r. lia. }
      exists (payloadBlocks d), fresh, 0. split_and!; [lia|lia|done|done|done|]. unfold fillBlock.
      by rewrite Hc, Hlast, Hfin.
    + exists pre, last, (currentPayloadBlockLength d). rewrite <- Hbl. split_and!; try lia; [done|].
      unfold fillBlock. by rewrite Hc, Hlast, Hfin.
Qed.

Lemma fillBlock_copied expected chunk d off :
  payload_ok expected d -> payloadLength d < expected -> 0 <= off < blen chunk ->
  let '(d', off') := fillBlock chunk expected (d, off) in off < off' /\ copied expected chunk d off d' off'.
Proof.
  intros Hp Hn Hoff. destruct (fillBlock_select expected chunk d off Hp Hn)
    as (pre & last & cur_len & Hcur & Hpl & Hexp & Hfilled & ->). cbv zeta.
  destruct (fillBlock_selected expected pre last cur_len (payloadLength d) chunk off Hcur Hoff Hpl Hexp)
    as (Hk & Hbytes & Hblocks & Htake). cbv zeta in *. revert Hk Hbytes Hblocks Htake.
  set (k := Z.min _ _). intros Hk Hbytes Hblocks Htake.
  assert (off + k - off = k) as Hdiff by lia. unfold copied, payload_ok, same_frame. cbn. rewrite Hdiff.
  split_and!; try done; try lia.
  - apply blocks_ok_length in Hblocks as Hlen. revert Hlen. rewrite insert_app_r_alt, Nat.sub_diag by lia.
    cbn [insert list_insert]. rewrite !concat_app, !length_app in *. cbn [concat] in *. rewrite !app_nil_r in *.
    rewrite length_store_all by lia. lia.
  - unfold filled at 1. cbn. rewrite Htake. by rewrite Hfilled.
Qed.

Lemma copied_refl expected chunk d off :
  payload_ok expected d -> 0 <= off <= blen chunk -> copied expected chunk d off d off.
Proof.
  intros Hp Hoff. unfold copied, same_frame. rewrite Z.sub_diag, take_0, app_nil_r.
  split_and!; (done || lia).
Qed.

Lemma copied_trans expected chunk d0 off0 d1 off1 d2 off2 : 0 <= off0 ->
  copied expected chunk d0 off0 d1 off1 -> copied expected chunk d1 off1 d2 off2 ->
  copied expected chunk d0 off0 d2 off2.
Proof.
  intros H0 (Ho1 & Hs1 & Hp1 & Hn1 & Hf1) (Ho2 & Hs2 & Hp2 & Hn2 & Hf2).
  unfold copied, same_frame in *. destruct_and?. split_and!; try lia; try congruence; try done.
  rewrite Hf2, Hf1, <- app_assoc. f_equal.
  replace (Z.to_nat (off2 - off0)) with (Z.to_nat (off1 - off0) + Z.to_nat (off2 - off1))%nat by lia.
  replace (Z.to_nat off1) with (Z.to_nat off0 + Z.to_nat (off1 - off0))%nat by lia.
  rewrite <- drop_drop. generalize (drop (Z.to_nat off0) chunk). intros l.
  by rewrite <- take_take_drop.
Qed.

(** The loop copies until the chunk or the payload ends, within its bound. *)
Lemma fill_loop {E} expected chunk d off (e : E) :
  payload_ok expected d -> 0 <= off <= blen chunk ->
  exists d' off',
    loop (length chunk) e (fun '(d, chunkOffset) => (chunkOffset <? blen chunk) && (payloadLength d <? expected))
      (fun s => Ok (fillBlock chunk expected s)) (d, off) = Ok (d', off') /\
    copied expected chunk d off d' off' /\ (off' = blen chunk \/ payloadLength d' = expected).
Proof.
  intros Hp Hoff.
  pose proof (loop_rule (fun '(d1, off1) => copied expected chunk d off d1 off1)
    (fun '(_, off1) => Z.to_nat (blen chunk - off1)) (fun _ => False) e
    (fun '(d, chunkOffset) => (chunkOffset <? blen chunk) && (payloadLength d <? expected))
    (fun s => Ok (fillBlock chunk expected s))) as Hrule.
  ospecialize (Hrule _).
  { intros [d1 off1] Hc Hcond. split; [lia|].
    pose proof (fillBlock_copied expected chunk d1 off1 ltac:(apply Hc) ltac:(lia) ltac:(destruct Hc; lia)) as Hfill.
    destruct (fillBlock chunk expected (d1, off1)) as [d2 off2]. destruct Hfill as [Hlt Hfill].
    split; [eapply copied_trans; [lia|done..]|]. destruct Hfill; lia. }
  specialize (Hrule (length chunk) (d, off) (copied_refl _ _ _ _ Hp Hoff) ltac:(cbn; lia)).
  destruct (loop _ _ _ _ _) as [[d' off']|]; [|done]. destruct Hrule as [Hc Hcond].
  exists d', off'. split_and!; [done..|]. destruct Hc as (? & _ & [? _] & _). lia.
Qed.

Lemma joinBlocks_concat expected blocks : expected = blen (concat blocks) -> joinBlocks expected blocks = concat blocks.
Proof.
  intros ->. assert (forall pre buf, blen (concat pre) + blen (concat blocks) = blen buf ->
    take (length (concat pre)) buf = concat pre ->
    (foldl (fun '(payload, offset) block => (store_all offset block payload, offset + blen block))
       (buf, blen (concat pre)) blocks).1 = concat pre ++ concat blocks) as Hfold.
  { induction blocks as [|b blocks IH]; intros pre buf Hlen Htake; cbn [foldl concat] in *.
    - rewrite app_nil_r, <- Htake. cbn in *. by rewrite take_ge by lia.
    - rewrite length_app in Hlen. replace (blen (concat pre) + blen b) with (blen (concat (pre ++ [b]))).
      2:{ rewrite concat_app, length_app. cbn. rewrite app_nil_r. lia. }
      assert (concat (pre ++ [b]) = concat pre ++ b) as Heq by (rewrite concat_app; cbn; by rewrite app_nil_r).
      rewrite IH, Heq, <- app_assoc; [done| |]; rewrite Heq, ?length_app.
      + rewrite length_store_all by lia. lia.
      + pose proof (take_store_all (blen (concat pre)) b buf ltac:(lia) ltac:(lia)) as Hst.
        rewrite Nat2Z.id, Htake in Hst. rewrite <- Hst. f_equal. lia. }
  specialize (Hfold [] (replicate (Z.to_nat (blen (concat blocks))) 0)). unfold joinBlocks.
  destruct blocks as [|b [|b2 blocks]]; [done|cbn; by rewrite app_nil_r|].
  apply Hfold; [rewrite length_replicate; cbn [concat length]; lia|done].
Qed.

(** *** One round of [push] *)

Definition seg (chunk : list Z) (off off' : Z) : list Z :=
  take (Z.to_nat (off' - off)) (drop (Z.to_nat off) chunk).

Lemma seg_app chunk off off1 off2 :
  0 <= off <= off1 -> off1 <= off2 -> seg chunk off off2 = seg chunk off off1 ++ seg chunk off1 off2.
Proof.
  intros H1 H2. unfold seg.
  replace (Z.to_nat (off2 - off)) with (Z.to_nat (off1 - off) + Z.to_nat (off2 - off1))%nat by lia.
  replace (Z.to_nat off1) with (Z.to_nat off + Z.to_nat (off1 - off))%nat by lia.
  rewrite <- drop_drop. by rewrite take_take_drop.
Qed.

Lemma length_seg chunk off off' : 0 <= off <= off' -> off' <= blen chunk -> blen (seg chunk off off') = off' - off.
Proof. intros. unfold seg. rewrite length_take, length_drop. lia. Qed.

(** From [s], a piece of [push] comes to [r] as the splitter does. *)
Definition simulates (chunk : list Z) (s : push_state) (r : push_result push_state) : Prop :=
  let '(d, off, frames) := s in
  match r with
  | Ok (d', off', frames') =>
      off <= off' <= blen chunk /\ decoder_ok d' /\ maxFrameLength d' = maxFrameLength d /\
      exists fs, feed (maxFrameLength d) (pending d) (seg chunk off off') = Some (fs, pending d') /\
        frames' = frames ++ fs
  | Err (d', e) =>
      state d' = Failed /\ (exists m, e = FrameError m) /\ exists off', off <= off' <= blen chunk /\
        feed (maxFrameLength d) (pending d) (seg chunk off off') = None
  end.

Lemma simulates_refl chunk d off frames :
  decoder_ok d -> off <= blen chunk -> simulates chunk (d, off, frames) (Ok (d, off, frames)).
Proof.
  intros Hd Hoff. split_and!; try done; try lia. exists []. unfold seg.
  rewrite Z.sub_diag, take_0, app_nil_r. done.
Qed.

Lemma simulates_trans chunk s s1 r : 0 <= s.1.2 ->
  simulates chunk s (Ok s1) -> simulates chunk s1 r -> simulates chunk s r.
Proof.
  destruct s as [[d off] frames], s1 as [[d1 off1] frames1]. cbn [fst snd]. intros H0.
  intros (Ho & Hd1 & Hm & fs & Hf & ->). unfold simulates.
  destruct r as [[[d2 off2] frames2]|[d2 e]].
  - intros (Ho2 & Hd2 & Hm2 & fs2 & Hf2 & ->). split_and!; [lia|lia|done|congruence|].
    exists (fs ++ fs2). rewrite Hm in Hf2. rewrite (seg_app _ _ off1), feed_app, Hf by lia. cbn.
    rewrite Hf2. cbn. by rewrite app_assoc.
  - intros (? & ? & off2 & Ho2 & Hf2). split_and!; try done. exists off2. split; [lia|].
    rewrite Hm in Hf2. rewrite (seg_app _ _ off1), feed_app, Hf by lia. cbn. by rewrite Hf2.
Qed.

(** What the splitter sees of copied payload bytes. *)
Lemma copied_feed expected chunk d off d' off' :
  decoder_ok d -> expectedPayloadLength d = Some expected -> 0 <= off ->
  copied expected chunk d off d' off' ->
  pending d ++ seg chunk off off' = header d ++ filled d' /\
  blen (header d ++ filled d') = 4 + payloadLength d' /\
  header_value (header d ++ filled d') = expected /\
  (off < off' -> feed (maxFrameLength d) (pending d) (seg chunk off off') =
     settle (maxFrameLength d) (header d ++ filled d')).
Proof.
  intros Hd He H0 (Ho & _ & [Hle _] & Hpl & Hfilled). change (take _ _) with (seg chunk off off') in Hfilled.
  pose proof (length_pending d Hd) as Hl. rewrite He in Hl.
  pose proof (length_seg chunk off off' ltac:(lia) ltac:(lia)) as Hs.
  assert (pending d ++ seg chunk off off' = header d ++ filled d') as Hpend.
  { unfold pending. by rewrite He, <- app_assoc, Hfilled. }
  pose proof Hd as (_ & Hhd & _ & Hp). rewrite He in Hp. destruct Hp as (_ & Hhv & _ & Hn & _).
  split_and!; [done| | |].
  - rewrite <- Hpend, length_app. lia.
  - by rewrite header_value_app by (unfold FRAME_HEADER_LENGTH; lia).
  - intros Hlt. rewrite <- Hpend. apply feed_upto; [by apply pending_ok| |].
    + intros Hnil. rewrite Hnil in Hs. cbn in Hs. lia.
    + unfold milestone, FRAME_HEADER_LENGTH. rewrite Hl. if_lia. unfold pending; rewrite He.
      rewrite header_value_app by (unfold FRAME_HEADER_LENGTH; lia). lia.
Qed.

Lemma payload_complete expected d :
  payload_ok expected d -> payloadLength d = expected -> joinBlocks expected (payloadBlocks d) = filled d.
Proof.
  intros [_ Hb] Hn. pose proof (blocks_ok_length _ _ _ _ _ Hb).
  assert (blen (concat (payloadBlocks d)) = expected) as Hfull.
  { destruct Hb as [(Hnil & _ & _ & ?)|(? & ? & _ & _ & _ & _ & ?)]; [rewrite Hnil in *; cbn in *; lia|lia]. }
  unfold filled. rewrite take_ge by lia. by apply joinBlocks_concat.
Qed.

Lemma readPayload_simulates chunk d off frames :
  decoder_ok d -> 0 <= off <= blen chunk ->
  simulates chunk (d, off, frames) (readPayload chunk (d, off, frames)) /\
  forall d' off' frames', readPayload chunk (d, off, frames) = Ok (d', off', frames') ->
    expectedPayloadLength d <> None -> off < blen chunk -> off < off'.
Proof.
  intros Hd Hoff. unfold readPayload. destruct (expectedPayloadLength d) as [expected|] eqn:He.
  2:{ split; [|naive_solver]. apply simulates_refl; [done|lia]. }
  pose proof Hd as (Hst & Hhd & Hbytes & Hp). rewrite He in Hp. destruct Hp as (Hhl & Hhv & Hmax & Hn & Hb).
  destruct (fill_loop expected chunk d off (d, FrameFuel)) as (d' & off' & -> & Hc & Hend); [split; [lia|done]|done|].
  destruct (copied_feed _ _ _ _ _ _ Hd He (proj1 Hoff) Hc) as (Hpend & Hlen & Hvalue & Hfeed).
  cbn [mbind result_bind]. destruct Hc as (Ho & (Hh' & Hhl' & Hm' & He' & Hst') & Hp' & Hpl & _).
  pose proof Hp' as [Hle Hb']. destruct (payloadLength d' =? expected) eqn:Hdone.
  - split; [|intros ??? [= <- <- <-]; lia]. unfold simulates, decoder_ok.
    cbn [state header expectedPayloadLength headerLength maxFrameLength].
    rewrite Hh', Hhl', Hhl, Hst', Hm'. unfold FRAME_HEADER_LENGTH. split_and!; try done; try lia.
    eexists. split; [|reflexivity]. rewrite Hfeed by lia. unfold settle, FRAME_HEADER_LENGTH, pending.
    cbn [expectedPayloadLength headerLength]. rewrite Hlen, Hvalue. if_lia. do 3 f_equal.
    rewrite drop_app_length' by lia. f_equal. symmetry. apply payload_complete; [done|lia].
  - split; [|intros ??? [= <- <- <-]; lia]. unfold simulates, decoder_ok.
    rewrite Hh', Hhl', Hhl, Hst', Hm', He', He. split_and!; try done; try lia.
    exists []. split; [|by rewrite app_nil_r].
    assert (pending d' = header d ++ filled d') as -> by (unfold pending; by rewrite He', He, Hh').
    destruct (Z.eq_dec off off') as [<-|Hne].
    + rewrite <- Hpend. unfold seg. rewrite Z.sub_diag, take_0, app_nil_r. done.
    + rewrite Hfeed by lia. unfold settle, FRAME_HEADER_LENGTH. rewrite Hlen, Hvalue.
      destruct (4 + payloadLength d' =? 4) eqn:?; by if_lia.
Qed.

Lemma Forall_store_all (P : Z -> Prop) i bs buf : Forall P bs -> Forall P buf -> Forall P (store_all i bs buf).
Proof. intros Hbs Hbuf. unfold store_all. rewrite !Forall_app. auto using Forall_take, Forall_drop. Qed.

Lemma header_value_nonneg hd : Forall is_byte hd -> 0 <= header_value hd.
Proof.
  intros Hhd. unfold header_value. pose proof (byte_at_byte 0 hd Hhd). pose proof (byte_at_byte 1 hd Hhd).
  pose proof (byte_at_byte 2 hd Hhd). pose proof (byte_at_byte 3 hd Hhd). unfold is_byte in *. lia.
Qed.

Lemma readHeader_simulates chunk d off frames :
  Forall is_byte chunk -> decoder_ok d -> 0 <= off < blen chunk ->
  simulates chunk (d, off, frames) (readHeader chunk (d, off, frames)) /\
  forall d' off' frames', readHeader chunk (d, off, frames) = Ok (d', off', frames') ->
    off < off' \/ (off' = off /\ expectedPayloadLength d' <> None).
Proof.
  intros Hchunk Hd Hoff. unfold readHeader. destruct (expectedPayloadLength d) as [expected|] eqn:He.
  { split; [apply simulates_refl; [done|lia]|]. intros ??? [= <- <- <-]. rewrite He. by right. }
  pose proof Hd as (Hst & Hhd & Hbytes & Hp). rewrite He in Hp. unfold FRAME_HEADER_LENGTH in *.
  set (k := Z.min (4 - headerLength d) (blen chunk - off)). cbv zeta.
  set (bytes := take (Z.to_nat k) (drop (Z.to_nat off) chunk)).
  set (hd := store_all (headerLength d) bytes (header d)).
  assert (blen bytes = k) as Hlb by (unfold bytes; rewrite length_take, length_drop; lia).
  assert (seg chunk off (off + k) = bytes) as Hseg by (unfold seg; by replace (off + k - off) with k by lia).
  assert (length hd = 4%nat) as Hhdlen by (unfold hd; rewrite length_store_all; lia).
  assert (Forall is_byte hd) as Hhdb by (apply Forall_store_all; [by apply Forall_take, Forall_drop|done]).
  assert (pending d ++ bytes = take (Z.to_nat (headerLength d + k)) hd) as Hpend.
  { unfold pending. rewrite He. rewrite <- Hlb. symmetry. apply take_store_all; lia. }
  assert (feed (maxFrameLength d) (pending d) bytes = settle (maxFrameLength d) (pending d ++ bytes)) as Hfeed.
  { pose proof (length_pending d Hd) as Hl. rewrite He in Hl. apply feed_upto; [by apply pending_ok| |].
    - intros Hnil. rewrite Hnil in Hlb. cbn in Hlb. lia.
    - unfold milestone, FRAME_HEADER_LENGTH. rewrite Hl. if_lia. lia. }
  pose proof (header_value_nonneg hd Hhdb) as Hpos. rewrite Hpend in Hfeed.
  destruct (headerLength d + k <? 4) eqn:Hshort; [|rewrite (take_ge hd) in Hfeed by lia;
    destruct (header_value hd >? maxFrameLength d) eqn:Hbig; [|destruct (header_value hd =? 0) eqn:Hzero]];
    (split; [|intros ??? [= <- <- <-]; left; lia]); unfold simulates, decoder_ok; rewrite ?Hseg, ?Hfeed;
    unfold settle, FRAME_HEADER_LENGTH; cbn.
  - rewrite length_take. if_lia. split_and!; try done; try lia. exists []. by rewrite app_nil_r.
  - split_and!; try done; [by eexists|]. exists (off + k). rewrite Hseg, Hfeed. unfold settle, FRAME_HEADER_LENGTH.
    rewrite Hhdlen. if_lia. split; [lia|done].
  - rewrite Hhdlen. if_lia. split_and!; try done; try lia. exists [[]]. split; [|done].
    rewrite drop_ge by lia. done.
  - rewrite Hhdlen. if_lia. split_and!; try done; try lia; [by left|].
    exists []. unfold pending, filled. cbn. by rewrite !app_nil_r.
Qed.

Lemma push_loop_simulates chunk d frames :
  Forall is_byte chunk -> decoder_ok d ->
  simulates chunk (d, 0, frames) (push_loop chunk (d, 0, frames)) /\
  forall s, push_loop chunk (d, 0, frames) = Ok s -> s.1.2 = blen chunk.
Proof.
  intros Hchunk Hd. unfold push_loop.
  pose proof (loop_rule (fun s => simulates chunk (d, 0, frames) (Ok s)) (fun s => Z.to_nat (blen chunk - s.1.2))
    (fun e => simulates chunk (d, 0, frames) (Err e)) ((d, 0, frames).1.1, FrameFuel)
    (fun '(_, chunkOffset, _) => chunkOffset <? blen chunk)
    (fun s => s ← readHeader chunk s; readPayload chunk s)) as Hrule.
  ospecialize (Hrule _).
  { intros [[d1 off1] frames1] Hs Hcond. pose proof Hs as (Ho1 & Hd1 & _). cbn [fst snd] in Hcond |- *. split; [lia|].
    destruct (readHeader_simulates chunk d1 off1 frames1 Hchunk Hd1 ltac:(lia)) as [Hh Hhpos].
    apply (simulates_trans _ (d, 0, frames)) in Hh; [|done|done].
    destruct (readHeader chunk (d1, off1, frames1)) as [[[d2 off2] frames2]|[d2 e]]; [|exact Hh]. cbn [mbind result_bind].
    pose proof Hh as (Ho2 & Hd2 & _).
    destruct (readPayload_simulates chunk d2 off2 frames2 Hd2 ltac:(lia)) as [Hp Hppos].
    apply (simulates_trans _ (d, 0, frames)) in Hp; [|done|done].
    destruct (readPayload chunk (d2, off2, frames2)) as [[[d3 off3] frames3]|[d3 e]] eqn:Hr; [|exact Hp]. split; [done|].
    specialize (Hhpos _ _ _ eq_refl). specialize (Hppos _ _ _ eq_refl). cbn.
    destruct (readPayload_simulates chunk d2 off2 frames2 Hd2 ltac:(lia)) as [Hp' _]. rewrite Hr in Hp'.
    destruct Hp' as (Ho3 & _). destruct Hhpos as [?|[-> Hne]]; [lia|]. specialize (Hppos Hne). lia. }
  specialize (Hrule (length chunk) (d, 0, frames) (simulates_refl chunk d 0 frames Hd ltac:(lia)) ltac:(cbn; lia)).
  destruct (loop _ _ _ _ _) as [[[d' off'] frames']|e]; [|split; [done|by intros]].
  destruct Hrule as [Hs Hcond]. split; [done|]. intros s [= <-]. destruct Hs as (? & _). cbn. lia.
Qed.

(** [push] is the splitter run over the chunk. *)
Lemma push_feed d chunk :
  decoder_ok d -> Forall is_byte chunk ->
  match feed (maxFrameLength d) (pending d) chunk with
  | Some (frames, buf) => exists d', push d chunk = (d', Ok frames) /\ decoder_ok d' /\ pending d' = buf /\
      maxFrameLength d' = maxFrameLength d
  | None => exists d' m, push d chunk = (d', Err (FrameError m)) /\ state d' = Failed
  end.
Proof.
  intros Hd Hchunk. unfold push, closed_error. pose proof Hd as (-> & _).
  destruct (push_loop_simulates chunk d [] Hchunk Hd) as [Hs Hend].
  destruct (push_loop _ _) as [[[d' off'] frames]|[d' e]].
  - specialize (Hend _ eq_refl). cbn in Hend. subst off'. destruct Hs as (_ & Hd' & Hm & fs & Hf & ->).
    unfold seg in Hf. rewrite Z.sub_0_r, Nat2Z.id in Hf. cbn [Z.to_nat drop] in Hf.
    rewrite drop_0, firstn_all in Hf. rewrite Hf. by exists d'.
  - destruct Hs as (Hst & [m ->] & off' & Ho & Hf).
    rewrite <- (take_drop (Z.to_nat off') chunk), feed_app. unfold seg in Hf.
    rewrite Z.sub_0_r in Hf. cbn [Z.to_nat drop] in Hf. rewrite drop_0 in Hf. rewrite Hf. cbn. by exists d', m.
Qed.

(** ** The stream *)

(** The chunks of a stream pushed in order, up to the first error. *)
Fixpoint push_all (d : FrameDecoder) (chunks : list (list Z)) : FrameDecoder * result frame_error (list (list Z)) :=
  match chunks with
  | [] => (d, Ok [])
  | chunk :: chunks' =>
      match push d chunk with
      | (d, Ok frames) =>
          let '(d, r) := push_all d chunks' in (d, (fun frames' => frames ++ frames') <$> r)
      | r => r
      end
  end.

Lemma push_all_feed chunks : forall d,
  decoder_ok d -> Forall is_byte (concat chunks) ->
  match feed (maxFrameLength d) (pending d) (concat chunks) with
  | Some (frames, buf) => exists d', push_all d chunks = (d', Ok frames) /\ decoder_ok d' /\ pending d' = buf
  | None => exists d' m, push_all d chunks = (d', Err (FrameError m)) /\ state d' = Failed
  end.
Proof.
  induction chunks as [|chunk chunks IH]; intros d Hd Hb; cbn [concat push_all feed]; [by exists d|].
  cbn in Hb. apply Forall_app in Hb as [Hchunk Hb]. rewrite feed_app.
  pose proof (push_feed d chunk Hd Hchunk) as Hpush.
  destruct (feed _ _ chunk) as [[fs buf]|].
  - destruct Hpush as (d1 & -> & Hd1 & <- & Hm). cbn [mbind option_bind]. rewrite <- Hm.
    specialize (IH d1 Hd1 Hb). destruct (feed _ _ (concat chunks)) as [[fs' buf']|].
    + destruct IH as (d' & -> & ? & ?). cbn. by exists d'.
    + destruct IH as (d' & m & -> & ?). cbn. by exists d', m.
  - destruct Hpush as (d' & m & -> & Hf). cbn. by exists d', m.
Qed.

Lemma new_decoder_ok options d :
  new_FrameDecoder options = Ok d ->
  decoder_ok d /\ pending d = [] /\ resolveMaxFrameLength options = Ok (maxFrameLength d).
Proof.
  intros (m & Hm & [= <-])%bind_Ok. unfold decoder_ok, pending, FRAME_HEADER_LENGTH. cbn. split_and!; try done.
  repeat constructor; done.
Qed.

Lemma resolveMaxFrameLength_range options m :
  resolveMaxFrameLength options = Ok m -> 0 <= m <= FRAME_MAX_UINT32.
Proof.
  unfold resolveMaxFrameLength. destruct (num_to_Z _); [|done]. destruct (_ || _) eqn:?; [done|]. intros [= <-]. lia.
Qed.

Lemma encodeFrame_bytes payload frame :
  encodeFrame payload = Ok frame <-> blen payload <= FRAME_MAX_UINT32 /\ frame = be_bytes 4 (blen payload) ++ payload.
Proof.
  unfold encodeFrame, throw_if, FRAME_MAX_UINT32, FRAME_HEADER_LENGTH.
  destruct (_ >? _) eqn:Hlen; cbn [mbind result_bind]; [split; [done|lia]|].
  cbv zeta. change (store 3 ?d (store 2 ?c (store 1 ?b (store 0 ?a ?buf)))) with (store_seq 0 [a; b; c; d] buf).
  rewrite store_seq_all; [|lia|rewrite length_replicate; cbn; lia]. cbn [map].
  assert (forall v, 0 <= v < 2 ^ 32 -> [to_byte (shr_u v 24); to_byte (shr_u v 16); to_byte (shr_u v 8); to_byte v] =
    be_bytes 4 v) as ->.
  { intros v Hv. rewrite !shr_u_spec by lia. cbn. unfold to_byte. list_dlia. }
  2:{ lia. }
  pose proof (length_be_bytes 4 (blen payload)) as Hhd.
  assert (store_all 4 payload (store_all 0 (be_bytes 4 (blen payload)) (replicate (Z.to_nat (4 + blen payload)) 0)) =
    be_bytes 4 (blen payload) ++ payload) as ->.
  { replace 4 with (0 + blen (be_bytes 4 (blen payload))) at 1 by (rewrite Hhd; lia).
    rewrite store_all_app; [|lia|rewrite length_replicate, Hhd; lia]. unfold store_all.
    rewrite drop_ge by (rewrite length_replicate, length_app, Hhd; lia). by rewrite app_nil_r. }
  split; [intros [= <-]; split; [lia|done]|by intros [_ ->]].
Qed.

Lemma header_value_be v l : 0 <= v < 2 ^ 32 -> header_value (be_bytes 4 v ++ l) = v.
Proof. intros Hv. unfold header_value, byte_at. cbn. dlia. Qed.

Lemma be_bytes_header_value hd : length hd = 4%nat -> Forall is_byte hd -> be_bytes 4 (header_value hd) = hd.
Proof.
  intros Hlen Hb. destruct hd as [|a [|b [|c [|e [|]]]]]; try done.
  unfold is_byte in Hb. rewrite !Forall_cons in Hb. destruct Hb as (? & ? & ? & ? & _).
  unfold header_value, byte_at. cbn. list_dlia.
Qed.

(** The splitter gives back the payload of a frame. *)
Lemma feed_frame max payload frame :
  encodeFrame payload = Ok frame -> blen payload <= max -> feed max [] frame = Some ([payload], []).
Proof.
  intros [Hlen ->]%encodeFrame_bytes Hmax. unfold FRAME_MAX_UINT32 in Hlen.
  pose proof (length_be_bytes 4 (blen payload)) as Hhd.
  rewrite feed_app, (feed_upto max (be_bytes 4 (blen payload))); [|by left| |rewrite Hhd; done].
  2:{ intros Hnil. by rewrite Hnil in Hhd. }
  pose proof (header_value_be (blen payload) [] ltac:(lia)) as Hv. rewrite app_nil_r in Hv.
  rewrite app_nil_l. unfold settle at 1, FRAME_HEADER_LENGTH. rewrite Hhd, Hv.
  destruct (Z.eq_dec (blen payload) 0) as [Hz|Hz].
  { destruct payload; [|cbn in Hz; lia]. cbn. by if_lia. }
  if_lia. cbn [mbind option_bind app]. rewrite (feed_upto max payload); [| | |].
  - unfold settle, FRAME_HEADER_LENGTH. rewrite length_app, Hhd, header_value_be by lia. if_lia.
    by rewrite drop_app_length' by lia.
  - right. unfold FRAME_HEADER_LENGTH. rewrite Hv, Hhd. lia.
  - intros ->. done.
  - unfold milestone, FRAME_HEADER_LENGTH. rewrite Hv, Hhd. if_lia. lia.
Qed.

Lemma feed_frames max payloads frames :
  Forall2 (fun p f => encodeFrame p = Ok f) payloads frames -> Forall (fun p => blen p <= max) payloads ->
  feed max [] (concat frames) = Some (payloads, []).
Proof.
  induction 1 as [|p f ps fs Hf _ IH]; intros Hmax; [done|]. apply Forall_cons in Hmax as [Hp Hmax].
  cbn [concat]. rewrite feed_app, (feed_frame max p f) by done. cbn. by rewrite IH.
Qed.

(** C4: the frame decoder refines the byte-at-a-time splitter, whatever the
    chunking: pushing chunks delivers exactly the frames of their
    concatenation and keeps the unfinished frame, and throws (for good)
    exactly when some length prefix passes the limit.  The loops of [push]
    end: the model's bound on their rounds is never what stops it. *)
Theorem push_refines d chunks :
  decoder_ok d -> Forall is_byte (concat chunks) ->
  match feed (maxFrameLength d) (pending d) (concat chunks) with
  | Some (frames, buf) => exists d', push_all d chunks = (d', Ok frames) /\ decoder_ok d' /\ pending d' = buf
  | None => exists d' m, push_all d chunks = (d', Err (FrameError m)) /\ state d' = Failed
  end.
Proof. apply push_all_feed. Qed.

Lemma frames_decoded options d payloads frames chunks :
  new_FrameDecoder options = Ok d ->
  Forall2 (fun p f => encodeFrame p = Ok f) payloads frames ->
  Forall (fun p => Forall is_byte p /\ blen p <= maxFrameLength d) payloads ->
  concat chunks = concat frames ->
  exists d1 d2, push_all d chunks = (d1, Ok payloads) /\ end_ d1 = (d2, Ok ()) /\ state d2 = Ended.
Proof.
  intros (Hd & Hp & _)%new_decoder_ok Hf Hps Hc. apply Forall_and in Hps as [Hbytes Hmax].
  assert (Forall is_byte (concat frames)) as Hb.
  { clear -Hf Hbytes. induction Hf as [|p f ps fs Hf _ IH]; [constructor|].
    apply Forall_cons in Hbytes as [Hp Hbytes]. cbn. apply Forall_app. split; [|by apply IH].
    apply encodeFrame_bytes in Hf as [_ ->]. apply Forall_app. split; [apply be_bytes_are_bytes|done]. }
  pose proof (push_all_feed chunks d Hd ltac:(by rewrite Hc)) as Hpush.
  rewrite Hp, Hc, (feed_frames _ payloads frames) in Hpush by done.
  destruct Hpush as (d1 & Hd1 & Hok & Hpend). exists d1. eexists. split; [done|].
  pose proof (length_pending d1 Hok) as Hlen. rewrite Hpend in Hlen. cbn in Hlen.
  pose proof Hok as (Hst & _ & _ & Hstate). unfold end_, closed_error. rewrite Hst.
  destruct (expectedPayloadLength d1) as [n|] eqn:He.
  { destruct Hstate as (_ & _ & _ & ? & _). lia. }
  rewrite <- Hlen. cbn. done.
Qed.

(** Round trip: however the frames of some payloads are cut into chunks,
    a new decoder delivers the payloads in order and accepts the end. *)
Theorem frames_round_trip options d payloads frames chunks :
  new_FrameDecoder options = Ok d ->
  Forall2 (fun p f => encodeFrame p = Ok f) payloads frames ->
  Forall (fun p => Forall is_byte p /\ blen p <= maxFrameLength d) payloads ->
  concat chunks = concat frames ->
  exists d1 d2, push_all d chunks = (d1, Ok payloads) /\ end_ d1 = (d2, Ok ()) /\ state d2 = Ended.
Proof. apply frames_decoded. Qed.

(** [assertCompleteFrame] accepts exactly the encodings of payloads within
    the limit. *)
Theorem assertCompleteFrame_spec frame options m :
  Forall is_byte frame -> resolveMaxFrameLength options = Ok m ->
  assertCompleteFrame frame options = Ok () <->
  exists payload, encodeFrame payload = Ok frame /\ blen payload <= m.
Proof.
  intros Hb Hm. unfold assertCompleteFrame, FRAME_HEADER_LENGTH. rewrite Hm. cbn [mbind result_bind].
  split.
  - intros (_ & Hlen%throw_if_Ok & (_ & Hlim%throw_if_Ok & (_ & Hfull%throw_if_Ok & _)%bind_Ok)%bind_Ok)%bind_Ok.
    exists (drop 4 frame). pose proof (resolveMaxFrameLength_range _ _ Hm).
    assert (blen (drop 4 frame) = header_value frame) as Hd by (rewrite length_drop; lia).
    rewrite encodeFrame_bytes, Hd. split_and!; [lia| |lia].
    rewrite <- (take_drop 4 frame) at 1. f_equal. rewrite <- (take_drop 4 frame) at 2.
    rewrite header_value_app by (unfold FRAME_HEADER_LENGTH; rewrite length_take; lia).
    symmetry. apply be_bytes_header_value; [rewrite length_take; lia|by apply Forall_take].
  - intros (p & [Hlen ->]%encodeFrame_bytes & Hp). unfold FRAME_MAX_UINT32 in Hlen.
    rewrite header_value_be by lia. unfold throw_if. rewrite length_app, length_be_bytes. by if_lia.
Qed.

(** The life of a decoder.  [end] of an open decoder succeeds exactly when
    no frame is under way, and otherwise fails it; once ended or failed, every
    call throws and changes nothing. *)
Theorem decoder_life d :
  (decoder_ok d ->
     if decide (pending d = []) then (end_ d).2 = Ok () /\ state (end_ d).1 = Ended
     else (end_ d).2 = Err (FrameError "Truncated frame at end of stream") /\ state (end_ d).1 = Failed) /\
  (state d <> Open -> exists m, end_ d = (d, Err (FrameError m)) /\ forall chunk, push d chunk = (d, Err (FrameError m))).
Proof.
  split.
  - intros Hd. pose proof (length_pending d Hd) as Hlen. pose proof Hd as (Hst & _ & _ & Hs).
    unfold end_, closed_error. rewrite Hst. destruct (expectedPayloadLength d) as [n|] eqn:He.
    + case_decide as Hn; [rewrite Hn in Hlen; destruct Hs as (_ & _ & _ & ? & _); cbn in Hlen; lia|].
      rewrite orb_true_r. done.
    + case_decide as Hn; [rewrite Hn in Hlen; rewrite <- Hlen; done|].
      destruct (headerLength d =? 0) eqn:Hz; [|done]. destruct (pending d); [done|]. cbn in Hlen. lia.
  - intros Hst. unfold end_, push, closed_error. destruct (state d); [done|by eexists..].
Qed.

(** ** Examples *)

Definition example_options : option FrameDecoderOptions := Some (mkFrameDecoderOptions (Some (JInt 5))).
Definition example_decoder : FrameDecoder := mkDecoder [0; 0; 0; 0] 0 5 [] None 0 None 0 Open.
Definition example_payloads : list (list Z) := [[1; 2; 3]; []].
Definition example_frames : list (list Z) := [[0; 0; 0; 3; 1; 2; 3]; [0; 0; 0; 0]].
Definition example_chunks : list (list Z) := [[0]; [0; 0; 3; 1; 2]; [3; 0; 0]; []; [0; 0]].

Lemma example_decoder_ok : decoder_ok example_decoder.
Proof. by apply (new_decoder_ok example_options). Qed.

Lemma push_refines_witness :
  decoder_ok example_decoder /\ Forall is_byte (concat example_chunks) /\
  exists d', push_all example_decoder example_chunks = (d', Ok example_payloads) /\ decoder_ok d' /\ pending d' = [].
Proof.
  assert (Forall is_byte (concat example_chunks)) as Hb by by_decide.
  pose proof (push_refines example_decoder example_chunks example_decoder_ok Hb) as H.
  split; [exact example_decoder_ok|split; [exact Hb|exact H]].
Defined.

Lemma frames_round_trip_witness :
  new_FrameDecoder example_options = Ok example_decoder /\ concat example_chunks = concat example_frames /\
  exists d1 d2, push_all example_decoder example_chunks = (d1, Ok example_payloads) /\ end_ d1 = (d2, Ok ()) /\
    state d2 = Ended.
Proof.
  assert (new_FrameDecoder example_options = Ok example_decoder) as Hn by reflexivity.
  assert (concat example_chunks = concat example_frames) as Hc by reflexivity.
  split; [exact Hn|split; [exact Hc|]].
  apply (frames_round_trip example_options example_decoder example_payloads example_frames example_chunks Hn);
    [repeat constructor| |exact Hc].
  by_decide.
Defined.

Lemma assertCompleteFrame_spec_witness :
  assertCompleteFrame [0; 0; 0; 2; 7; 8] example_options = Ok () /\
  exists payload, encodeFrame payload = Ok [0; 0; 0; 2; 7; 8] /\ blen payload <= 5.
Proof.
  assert (Forall is_byte [0; 0; 0; 2; 7; 8]) as Hb by by_decide.
  assert (assertCompleteFrame [0; 0; 0; 2; 7; 8] example_options = Ok ()) as Ha by reflexivity.
  split; [exact Ha|].
  exact (proj1 (assertCompleteFrame_spec [0; 0; 0; 2; 7; 8] example_options 5 Hb ltac:(reflexivity)) Ha).
Defined.

Lemma decoder_life_witness :
  (end_ example_decoder).2 = Ok () /\ exists m, end_ (fail example_decoder) = (fail example_decoder, Err (FrameError m)).
Proof.
  split.
  - exact (proj1 (proj1 (decoder_life example_decoder) example_decoder_ok)).
  - destruct (proj2 (decoder_life (fail example_decoder)) ltac:(discriminate)) as (m & Hm & _).
    exists m. exact Hm.
Defined.
