(* ===== verification/JsTree.v ===== *)
(** JavaScript values without sharing: the data that messages, entries and
    records carry ([unknown], [JsonValue]), and the view of a typed object as
    such a value.

    An object is the list of its own properties.  A typed record of the model
    stands for the object with the fields that are present; an optional field
    that is [None] is an absent property. *)
From S2P Require Import Prelude JsNumber.
Local Open Scope Z_scope.

Inductive jstree : Type :=
  | JNull
  | JUndefined
  | JBool (b : bool)
  | JNum (n : jsnum)
  | JStr (s : string)
  | JArr (items : list jstree)
  | JObj (props : list (string * jstree))
  | JOther (typeof : string).  (* a function, a symbol, a bigint *)

(** Induction with hypotheses for the elements of arrays and objects. *)
Section jstree_induction.
Context (P : jstree -> Prop).
Hypothesis Hnull : P JNull.
Hypothesis Hundef : P JUndefined.
Hypothesis Hbool : forall b, P (JBool b).
Hypothesis Hnum : forall n, P (JNum n).
Hypothesis Hstr : forall s, P (JStr s).
Hypothesis Harr : forall ts, Forall P ts -> P (JArr ts).
Hypothesis Hobj : forall ps, Forall (fun p => P p.2) ps -> P (JObj ps).
Hypothesis Hother : forall s, P (JOther s).

Fixpoint jstree_ind' (t : jstree) : P t :=
  match t with
  | JNull => Hnull
  | JUndefined => Hundef
  | JBool b => Hbool b
  | JNum n => Hnum n
  | JStr s => Hstr s
  | JArr ts =>
      Harr ts ((fix go ts := match ts return Forall P ts with
                | [] => Forall_nil_2 _
                | t :: ts' => Forall_cons_2 _ _ _ (jstree_ind' t) (go ts')
                end) ts)
  | JObj ps =>
      Hobj ps ((fix go ps := match ps return Forall (fun p => P p.2) ps with
                | [] => Forall_nil_2 _
                | p :: ps' => Forall_cons_2 (fun p => P p.2) p ps' (jstree_ind' p.2) (go ps')
                end) ps)
  | JOther s => Hother s
  end.
End jstree_induction.

(** [deepEqual] of [packages/ai/src/schema.ts] on values without sharing.
    [b[aKey]] of an absent own key is inherited or undefined, never equal to
    a data value. *)
Fixpoint deepEqual (left right : jstree) {struct left} : bool :=
  match left, right with
  | JNull, JNull | JUndefined, JUndefined => true
  | JBool a, JBool b => Bool.eqb a b
  | JNum a, JNum b => num_strict_eq a b
  | JStr a, JStr b => String.eqb a b
  | JArr xs, JArr ys =>
      (fix go (xs ys : list jstree) {struct xs} : bool :=
        match xs, ys with
        | [], [] => true
        | x :: xs', y :: ys' => deepEqual x y && go xs' ys'
        | _, _ => false
        end) xs ys
  | JObj a, JObj b =>
      Nat.eqb (length a) (length b) &&
      (fix go (a : list (string * jstree)) : bool :=
        match a with
        | [] => true
        | (k, v) :: a' => match JsMap.get k b with Some w => deepEqual v w | None => false end && go a'
        end) a
  | _, _ => false
  end.

(** Numbers equal to themselves, keys listed once, and no function or symbol:
    what a structured clone of plain data holds. *)
Fixpoint plain_data (t : jstree) : Prop :=
  match t with
  | JNum n => num_strict_eq n n = true
  | JArr ts => fold_right (fun t acc => plain_data t /\ acc) True ts
  | JObj ps => NoDup ps.*1 /\ fold_right (fun p acc => plain_data p.2 /\ acc) True ps
  | JOther _ => False
  | _ => True
  end.

Lemma plain_array ts : plain_data (JArr ts) <-> Forall plain_data ts.
Proof. cbn. induction ts; cbn; [done|]. by rewrite Forall_cons, IHts. Qed.

Lemma plain_object ps : plain_data (JObj ps) <-> NoDup ps.*1 /\ Forall (fun p => plain_data p.2) ps.
Proof.
  cbn. enough (fold_right (fun p acc => plain_data p.2 /\ acc) True ps <-> Forall (fun p => plain_data p.2) ps)
    by naive_solver.
  induction ps as [|p ps IH]; cbn; [done|]. by rewrite Forall_cons, IH.
Qed.

(** A copy of plain data is deeply equal to it. *)
Lemma deepEqual_refl t : plain_data t -> deepEqual t t = true.
Proof.
  induction t as [| |b|n|s|ts IH|ps IH|s] using jstree_ind'; intros Hp; cbn [deepEqual]; try done.
  - by destruct b.
  - apply String.eqb_refl.
  - apply plain_array in Hp. induction ts as [|t ts IHts]; [done|].
    apply Forall_cons in IH as [IHt IH], Hp as [Ht Hp]. by rewrite IHt, IHts.
  - apply plain_object in Hp as [Hnd Hp]. rewrite Nat.eqb_refl. cbn [andb].
    assert (forall qs, qs ⊆ ps -> Forall (fun p => plain_data p.2 -> deepEqual p.2 p.2 = true) qs ->
      Forall (fun p => plain_data p.2) qs ->
      (fix go (a : list (string * jstree)) : bool :=
        match a with
        | [] => true
        | (k, v) :: a' => match JsMap.get k ps with Some w => deepEqual v w | None => false end && go a'
        end) qs = true) as Hgo.
    { induction qs as [|[k v] qs IHq]; intros Hsub HIH Hqs; [done|].
      apply Forall_cons in HIH as [Hv HIH], Hqs as [Hpv Hqs].
      rewrite (JsMap.elem_get k v) by (done || apply Hsub; left). cbn in Hv. rewrite Hv by done. cbn [andb].
      apply IHq; [|done..]. intros x Hx. apply Hsub. by right. }
    by apply Hgo.
Qed.

(** ** Building objects *)

(** [{k: v}] and [...(v === undefined ? {} : {k: v})]. *)
Definition prop {A} (f : A -> jstree) (k : string) (v : A) : list (string * jstree) := [(k, f v)].
Definition opt_prop {A} (f : A -> jstree) (k : string) (v : option A) : list (string * jstree) :=
  match v with Some a => [(k, f a)] | None => [] end.
Definition j_int (z : Z) : jstree := JNum (JInt z).
Definition j_nullable (v : option string) : jstree := match v with Some s => JStr s | None => JNull end.
Definition j_list {A} (f : A -> jstree) (l : list A) : jstree := JArr (map f l).
