(* ===== verification/Messages.v ===== *)
(** Messages: the message types of [packages/ai/src/types.ts] and
    [packages/agent/src/types.ts], and [packages/agent/src/harness/messages.ts].

    Every record comes with its view as a JavaScript object ([js_...]), which is
    what generic code (deep equality, the JSON check) works on. *)
From S2P Require Import Prelude JsNumber JsTree.
Local Open Scope Z_scope.

Record ToolCall := mkToolCall {
  tc_id : string;
  tc_name : string;
  tc_arguments : list (string * jstree);
  tc_thoughtSignature : option string;
  tc_namespace : option string;
}.

(** [TextContent], [ThinkingContent], [ImageContent] and [ToolCall] by their [type]. *)
Inductive Content : Type :=
  | TextC (text : string) (textSignature : option string)
  | ThinkingC (thinking : string) (thinkingSignature : option string) (redacted : option bool)
  | ImageC (data mimeType : string)
  | ToolCallC (toolCall : ToolCall).

Record Cost := mkCost {
  cost_input : jsnum;
  cost_output : jsnum;
  cost_cacheRead : jsnum;
  cost_cacheWrite : jsnum;
  cost_total : jsnum;
}.

Record Usage := mkUsage {
  u_input : jsnum;
  u_output : jsnum;
  u_cacheRead : jsnum;
  u_cacheWrite : jsnum;
  u_cacheWrite1h : option jsnum;
  u_reasoning : option jsnum;
  u_totalTokens : jsnum;
  u_cost : Cost;
}.

Inductive StopReason : Type :=
  | SRpending | SRstop | SRlength | SRtoolUse | SRerror | SRaborted | SRdeferred.

#[export] Instance StopReason_eq_dec : EqDecision StopReason.
Proof. solve_decision. Defined.

Record DeferredHandle := mkDeferredHandle {
  dh_provider : string;
  dh_modelId : string;
  dh_api : string;
  dh_id : string;
  dh_expiresAt : option jsnum;
  dh_pollAfterMs : option jsnum;
  dh_data : option jstree;
}.

(** [content: string | ...[]]. *)
Inductive MessageContent : Type :=
  | PlainContent (text : string)
  | Blocks (blocks : list Content).

Record UserMessage := mkUserMessage {
  um_content : MessageContent;
  um_timestamp : jsnum;
}.

Record AssistantMessage := mkAssistantMessage {
  am_content : list Content;
  am_api : string;
  am_provider : string;
  am_model : string;
  am_responseModel : option string;
  am_responseId : option string;
  am_diagnostics : option (list jstree);
  am_usage : Usage;
  am_stopReason : StopReason;
  am_deferred : option DeferredHandle;
  am_errorMessage : option string;
  am_rawStopReason : option string;
  am_endTurn : option bool;
  am_timestamp : jsnum;
}.

Record ToolResultMessage := mkToolResultMessage {
  tr_toolCallId : string;
  tr_toolName : string;
  tr_content : list Content;
  tr_details : option jstree;
  tr_usage : option Usage;
  tr_addedToolNames : option (list string);
  tr_isError : bool;
  tr_timestamp : jsnum;
}.

Record BashExecutionMessage := mkBashExecutionMessage {
  be_command : string;
  be_output : string;
  be_exitCode : option jsnum;
  be_cancelled : bool;
  be_truncated : bool;
  be_fullOutputPath : option string;
  be_timestamp : jsnum;
  be_excludeFromContext : option bool;
}.

Record CustomMessage := mkCustomMessage {
  cm_customType : string;
  cm_content : MessageContent;
  cm_display : bool;
  cm_details : option jstree;
  cm_timestamp : jsnum;
}.

Record BranchSummaryMessage := mkBranchSummaryMessage {
  bs_summary : string;
  bs_fromId : string;
  bs_timestamp : jsnum;
}.

Record CompactionSummaryMessage := mkCompactionSummaryMessage {
  cs_summary : string;
  cs_tokensBefore : jsnum;
  cs_timestamp : jsnum;
}.

(** [AgentMessage], discriminated by [role]; the first three are [Message]. *)
Inductive AgentMessage : Type :=
  | MUser (m : UserMessage)
  | MAssistant (m : AssistantMessage)
  | MToolResult (m : ToolResultMessage)
  | MBashExecution (m : BashExecutionMessage)
  | MCustom (m : CustomMessage)
  | MBranchSummary (m : BranchSummaryMessage)
  | MCompactionSummary (m : CompactionSummaryMessage).

Definition role (m : AgentMessage) : string :=
  match m with
  | MUser _ => "user"
  | MAssistant _ => "assistant"
  | MToolResult _ => "toolResult"
  | MBashExecution _ => "bashExecution"
  | MCustom _ => "custom"
  | MBranchSummary _ => "branchSummary"
  | MCompactionSummary _ => "compactionSummary"
  end.

Definition is_tool_call (c : Content) : option ToolCall :=
  match c with ToolCallC tc => Some tc | _ => None end.

(** [content.filter((c) => c.type === "toolCall")]. *)
Definition toolCalls (content : list Content) : list ToolCall := omap is_tool_call content.

(** ** The object view *)

Definition js_tool_call (tc : ToolCall) : jstree :=
  JObj (prop JStr "type" "toolCall" ++ prop JStr "id" (tc_id tc) ++ prop JStr "name" (tc_name tc) ++
    prop JObj "arguments" (tc_arguments tc) ++ opt_prop JStr "thoughtSignature" (tc_thoughtSignature tc) ++
    opt_prop JStr "namespace" (tc_namespace tc)).

Definition js_content (c : Content) : jstree :=
  match c with
  | TextC text signature =>
      JObj (prop JStr "type" "text" ++ prop JStr "text" text ++ opt_prop JStr "textSignature" signature)
  | ThinkingC thinking signature redacted =>
      JObj (prop JStr "type" "thinking" ++ prop JStr "thinking" thinking ++
        opt_prop JStr "thinkingSignature" signature ++ opt_prop JBool "redacted" redacted)
  | ImageC data mimeType =>
      JObj (prop JStr "type" "image" ++ prop JStr "data" data ++ prop JStr "mimeType" mimeType)
  | ToolCallC tc => js_tool_call tc
  end.

Definition js_cost (c : Cost) : jstree :=
  JObj (prop JNum "input" (cost_input c) ++ prop JNum "output" (cost_output c) ++
    prop JNum "cacheRead" (cost_cacheRead c) ++ prop JNum "cacheWrite" (cost_cacheWrite c) ++
    prop JNum "total" (cost_total c)).

Definition js_usage (u : Usage) : jstree :=
  JObj (prop JNum "input" (u_input u) ++ prop JNum "output" (u_output u) ++
    prop JNum "cacheRead" (u_cacheRead u) ++ prop JNum "cacheWrite" (u_cacheWrite u) ++
    opt_prop JNum "cacheWrite1h" (u_cacheWrite1h u) ++ opt_prop JNum "reasoning" (u_reasoning u) ++
    prop JNum "totalTokens" (u_totalTokens u) ++ prop js_cost "cost" (u_cost u)).

Definition js_stop_reason (r : StopReason) : string :=
  match r with
  | SRpending => "pending" | SRstop => "stop" | SRlength => "length" | SRtoolUse => "toolUse"
  | SRerror => "error" | SRaborted => "aborted" | SRdeferred => "deferred"
  end.

Definition js_deferred (d : DeferredHandle) : jstree :=
  JObj (prop JStr "provider" (dh_provider d) ++ prop JStr "modelId" (dh_modelId d) ++
    prop JStr "api" (dh_api d) ++ prop JStr "id" (dh_id d) ++ opt_prop JNum "expiresAt" (dh_expiresAt d) ++
    opt_prop JNum "pollAfterMs" (dh_pollAfterMs d) ++ opt_prop id "data" (dh_data d)).

Definition js_message_content (c : MessageContent) : jstree :=
  match c with PlainContent s => JStr s | Blocks bs => j_list js_content bs end.

Definition js_message (m : AgentMessage) : jstree :=
  JObj (prop JStr "role" (role m) ++
  match m with
  | MUser m =>
      prop js_message_content "content" (um_content m) ++ prop JNum "timestamp" (um_timestamp m)
  | MAssistant m =>
      prop (j_list js_content) "content" (am_content m) ++ prop JStr "api" (am_api m) ++
      prop JStr "provider" (am_provider m) ++ prop JStr "model" (am_model m) ++
      opt_prop JStr "responseModel" (am_responseModel m) ++ opt_prop JStr "responseId" (am_responseId m) ++
      opt_prop JArr "diagnostics" (am_diagnostics m) ++ prop js_usage "usage" (am_usage m) ++
      prop JStr "stopReason" (js_stop_reason (am_stopReason m)) ++ opt_prop js_deferred "deferred" (am_deferred m) ++
      opt_prop JStr "errorMessage" (am_errorMessage m) ++ opt_prop JStr "rawStopReason" (am_rawStopReason m) ++
      opt_prop JBool "endTurn" (am_endTurn m) ++ prop JNum "timestamp" (am_timestamp m)
  | MToolResult m =>
      prop JStr "toolCallId" (tr_toolCallId m) ++ prop JStr "toolName" (tr_toolName m) ++
      prop (j_list js_content) "content" (tr_content m) ++ opt_prop id "details" (tr_details m) ++
      opt_prop js_usage "usage" (tr_usage m) ++ opt_prop (j_list JStr) "addedToolNames" (tr_addedToolNames m) ++
      prop JBool "isError" (tr_isError m) ++ prop JNum "timestamp" (tr_timestamp m)
  | MBashExecution m =>
      prop JStr "command" (be_command m) ++ prop JStr "output" (be_output m) ++
      opt_prop JNum "exitCode" (be_exitCode m) ++ prop JBool "cancelled" (be_cancelled m) ++
      prop JBool "truncated" (be_truncated m) ++ opt_prop JStr "fullOutputPath" (be_fullOutputPath m) ++
      prop JNum "timestamp" (be_timestamp m) ++ opt_prop JBool "excludeFromContext" (be_excludeFromContext m)
  | MCustom m =>
      prop JStr "customType" (cm_customType m) ++ prop js_message_content "content" (cm_content m) ++
      prop JBool "display" (cm_display m) ++ opt_prop id "details" (cm_details m) ++
      prop JNum "timestamp" (cm_timestamp m)
  | MBranchSummary m =>
      prop JStr "summary" (bs_summary m) ++ prop JStr "fromId" (bs_fromId m) ++
      prop JNum "timestamp" (bs_timestamp m)
  | MCompactionSummary m =>
      prop JStr "summary" (cs_summary m) ++ prop JNum "tokensBefore" (cs_tokensBefore m) ++
      prop JNum "timestamp" (cs_timestamp m)
  end).

(** ** [messages.ts] *)

(** A line feed, for the template strings. *)
Definition NL : string := String (Ascii.ascii_of_nat 10) EmptyString.
Definition BACKTICK : string := "`".

Definition COMPACTION_SUMMARY_PREFIX : string :=
  "The conversation history before this point was compacted into the following summary:" +:+ NL +:+ NL +:+
  "<summary>" +:+ NL.
Definition COMPACTION_SUMMARY_SUFFIX : string := NL +:+ "</summary>".
Definition BRANCH_SUMMARY_PREFIX : string :=
  "The following is a summary of a branch that this conversation came back from:" +:+ NL +:+ NL +:+
  "<summary>" +:+ NL.
Definition BRANCH_SUMMARY_SUFFIX : string := "</summary>".

(** A string is falsy when it is empty, an absent one too. *)
Definition truthy_str (s : option string) : option string :=
  match s with Some s => if String.eqb s "" then None else Some s | None => None end.

(** [show_num] prints a number in a template string: the platform's
    [Number.prototype.toString], which the functions below only rely on for
    their text. *)
Section text.
Context (show_num : jsnum -> string).

Definition bashExecutionToText (msg : BashExecutionMessage) : string :=
  let text := "Ran " +:+ BACKTICK +:+ be_command msg +:+ BACKTICK +:+ NL in
  let text :=
    if negb (String.eqb (be_output msg) "")
    then text +:+ BACKTICK +:+ BACKTICK +:+ BACKTICK +:+ NL +:+ be_output msg +:+ NL +:+
      BACKTICK +:+ BACKTICK +:+ BACKTICK
    else text +:+ "(no output)" in
  let text :=
    if be_cancelled msg then text +:+ NL +:+ NL +:+ "(command cancelled)"
    else match be_exitCode msg with
         | Some code =>
             if negb (bool_decide (num_to_Z code = Some 0))
             then text +:+ NL +:+ NL +:+ "Command exited with code " +:+ show_num code
             else text
         | None => text
         end in
  match (if be_truncated msg then truthy_str (be_fullOutputPath msg) else None) with
  | Some path => text +:+ NL +:+ NL +:+ "[Output truncated. Full output: " +:+ path +:+ "]"
  | None => text
  end.

Definition createBranchSummaryMessage (summary fromId : string) (timestamp : jsnum) : AgentMessage :=
  MBranchSummary (mkBranchSummaryMessage summary fromId timestamp).

Definition createCompactionSummaryMessage (summary : string) (tokensBefore timestamp : jsnum) : AgentMessage :=
  MCompactionSummary (mkCompactionSummaryMessage summary tokensBefore timestamp).

Definition createCustomMessage (customType : string) (content : MessageContent) (display : bool)
    (details : option jstree) (timestamp : jsnum) : AgentMessage :=
  MCustom (mkCustomMessage customType content display details timestamp).

Definition user_text (text : string) (timestamp : jsnum) : AgentMessage :=
  MUser (mkUserMessage (Blocks [TextC text None]) timestamp).

(** The callback of [convertToLlm]; [None] is [undefined], dropped by the filter. *)
Definition toLlm (m : AgentMessage) : option AgentMessage :=
  match m with
  | MBashExecution b =>
      if bool_decide (be_excludeFromContext b = Some true) then None
      else Some (user_text (bashExecutionToText b) (be_timestamp b))
  | MCustom c =>
      let content := match cm_content c with PlainContent s => Blocks [TextC s None] | Blocks bs => Blocks bs end in
      Some (MUser (mkUserMessage content (cm_timestamp c)))
  | MBranchSummary b =>
      Some (user_text (BRANCH_SUMMARY_PREFIX +:+ bs_summary b +:+ BRANCH_SUMMARY_SUFFIX) (bs_timestamp b))
  | MCompactionSummary c =>
      Some (user_text (COMPACTION_SUMMARY_PREFIX +:+ cs_summary c +:+ COMPACTION_SUMMARY_SUFFIX) (cs_timestamp c))
  | MUser _ | MAssistant _ | MToolResult _ => Some m
  end.

Definition convertToLlm (messages : list AgentMessage) : list AgentMessage := omap toLlm messages.

(** The three roles a provider understands. *)
Definition is_llm (m : AgentMessage) : bool :=
  match m with MUser _ | MAssistant _ | MToolResult _ => true | _ => false end.

Definition excluded (m : AgentMessage) : bool :=
  match m with MBashExecution b => bool_decide (be_excludeFromContext b = Some true) | _ => false end.

Lemma toLlm_is_llm m m' : toLlm m = Some m' -> is_llm m' = true.
Proof. destruct m; cbn; repeat case_match; naive_solver. Qed.

Lemma toLlm_None m : toLlm m = None <-> excluded m = true.
Proof. destruct m; cbn; try done. by case_bool_decide. Qed.

Lemma toLlm_id m : is_llm m = true -> toLlm m = Some m.
Proof. by destruct m. Qed.

Lemma convertToLlm_all_llm messages : Forall (fun m => is_llm m = true) (convertToLlm messages).
Proof.
  unfold convertToLlm. apply Forall_forall. intros m (m0 & _ & Hm)%list_elem_of_omap. by eapply toLlm_is_llm.
Qed.

Lemma convertToLlm_llm messages : Forall (fun m => is_llm m = true) messages -> convertToLlm messages = messages.
Proof.
  unfold convertToLlm. induction 1 as [|m ms Hm _ IH]; [done|]. cbn [omap list_omap]. by rewrite toLlm_id, IH.
Qed.
End text.
