(* ===== verification/SessionTypes.v ===== *)
(** Session data: [packages/agent/src/harness/session/types.ts].

    An entry is a node of the session tree; a lane record is an event of a
    lane's operation log.  The fields every variant shares are the record, the
    discriminated part is its body. *)
From S2P Require Import Prelude JsNumber JsTree Messages.
Local Open Scope Z_scope.

Inductive EntryBody : Type :=
  | BMessage (message : AgentMessage) (terminate : bool)
  | BModelChange (provider modelId : string)
  | BThinkingLevel (thinkingLevel : string)
  | BActiveTools (activeToolNames : list string)
  | BCompaction (summary : string) (retainedTail : list AgentMessage) (tokensBefore : jsnum)
      (details : option jstree) (usage : option Usage)
  | BBranchSummary (fromId summary : string) (details : option jstree) (usage : option Usage)
  | BCustom (customType : string) (data : option jstree).

Record Entry := mkEntry {
  e_id : string;
  e_seq : Z;
  e_parentId : option string;
  e_timestamp : Z;
  e_body : EntryBody;
}.

Record ProvisionedEntry := mkProvisioned {
  p_id : string;
  p_body : EntryBody;
}.

Inductive EntryType : Type :=
  | Tmessage | Tmodel_change | Tthinking_level_change | Tactive_tools_change | Tcompaction
  | Tbranch_summary | Tcustom.

#[export] Instance EntryType_eq_dec : EqDecision EntryType.
Proof. solve_decision. Defined.

Definition body_type (b : EntryBody) : EntryType :=
  match b with
  | BMessage _ _ => Tmessage
  | BModelChange _ _ => Tmodel_change
  | BThinkingLevel _ => Tthinking_level_change
  | BActiveTools _ => Tactive_tools_change
  | BCompaction _ _ _ _ _ => Tcompaction
  | BBranchSummary _ _ _ _ => Tbranch_summary
  | BCustom _ _ => Tcustom
  end.

Definition entry_type (e : Entry) : EntryType := body_type (e_body e).

(** The message of a message entry. *)
Definition entry_message (e : Entry) : option AgentMessage :=
  match e_body e with BMessage m _ => Some m | _ => None end.

Definition entry_assistant (e : Entry) : option AssistantMessage :=
  match entry_message e with Some (MAssistant m) => Some m | _ => None end.

(** ** Records *)

Inductive Intent : Type :=
  | IRun (originalPrompt : list AgentMessage) (initialMessages : list ProvisionedEntry)
      (systemPromptOverride : option string) (resumeData : option (list (string * jstree)))
  | ICompaction (customInstructions : option string) (resultEntryId : string)
  | INavigation (targetId : option string) (summarize : bool) (customInstructions label summaryEntryId : option string).

Inductive OperationKind : Type := Krun | Kcompaction | Knavigation.
#[export] Instance OperationKind_eq_dec : EqDecision OperationKind.
Proof. solve_decision. Defined.

Definition intent_kind (i : Intent) : OperationKind :=
  match i with IRun _ _ _ _ => Krun | ICompaction _ _ => Kcompaction | INavigation _ _ _ _ _ => Knavigation end.

Inductive Outcome : Type := Ocompleted | Oaborted | Ofailed | Odeclined.

Inductive StepKind : Type := Sassistant | Scompaction | Sbranch_summary.
#[export] Instance StepKind_eq_dec : EqDecision StepKind.
Proof. solve_decision. Defined.

Inductive Queue : Type := Qsteer | QfollowUp | QnextRun.
#[export] Instance Queue_eq_dec : EqDecision Queue.
Proof. solve_decision. Defined.

(** The variants of [UsageRecord] by [cause]; [UCGeneration] is the first, of four causes. *)
Inductive GenerationCause : Type := Gassistant | Gcompaction | Gbranch_summary | Gdeferred_fetch.
#[export] Instance GenerationCause_eq_dec : EqDecision GenerationCause.
Proof. solve_decision. Defined.

Inductive UsageCause : Type :=
  | UCGeneration (cause : GenerationCause) (runId entryId : string) (attempt : Z) (stopReason : string)
  | UCTool (runId entryId toolCallId : string)
  | UCHook (runId entryId : string)
  | UCAdjustment (runId entryId : option string) (details : option jstree).

Inductive RecordBody : Type :=
  | ROperationStarted (sourceLeafId : option string) (intent : Intent)
  | RAbortRequested (runId : string)
  | ROperationFinished (runId : string) (outcome : Outcome) (error : option (string * string))
  | RStepAttempt (runId : string) (step : StepKind) (attempt : Z) (resultEntryId : string)
      (compactionReason : option string)
  | RToolStarted (runId assistantEntryId : string) (toolIndex : Z) (toolCallId toolName : string)
      (effectiveArgs : list (string * jstree)) (resultEntryId : string) (replay_safe : bool)
  | RQueueEnqueued (queue : Queue) (runId : option string) (target : ProvisionedEntry)
  | RQueueCancelled (runId : option string) (entryId : string)
  | RWriteDeferred (runId : string) (target : ProvisionedEntry)
  | RUsage (usage : Usage) (cause : UsageCause).

Record LaneRecord := mkLaneRecord {
  r_id : string;
  r_seq : Z;
  r_lane : string;
  r_timestamp : Z;
  r_body : RecordBody;
}.

Record NewRecord := mkNewRecord {
  n_id : string;
  n_lane : string;
  n_body : RecordBody;
}.

Inductive RecordType : Type :=
  | Toperation_started | Tabort_requested | Toperation_finished | Tstep_attempt | Ttool_started
  | Tqueue_enqueued | Tqueue_cancelled | Twrite_deferred | Tusage.

#[export] Instance RecordType_eq_dec : EqDecision RecordType.
Proof. solve_decision. Defined.

Definition record_type (r : LaneRecord) : RecordType :=
  match r_body r with
  | ROperationStarted _ _ => Toperation_started
  | RAbortRequested _ => Tabort_requested
  | ROperationFinished _ _ _ => Toperation_finished
  | RStepAttempt _ _ _ _ _ => Tstep_attempt
  | RToolStarted _ _ _ _ _ _ _ _ => Ttool_started
  | RQueueEnqueued _ _ _ => Tqueue_enqueued
  | RQueueCancelled _ _ => Tqueue_cancelled
  | RWriteDeferred _ _ => Twrite_deferred
  | RUsage _ _ => Tusage
  end.

Definition cause_runId (c : UsageCause) : option string :=
  match c with
  | UCGeneration _ runId _ _ _ | UCTool runId _ _ | UCHook runId _ => Some runId
  | UCAdjustment runId _ _ => runId
  end.

(** The [runId] property of a record, if it has one. *)
Definition record_runId (r : LaneRecord) : option string :=
  match r_body r with
  | ROperationStarted _ _ => None
  | RAbortRequested runId | ROperationFinished runId _ _ | RStepAttempt runId _ _ _ _
  | RToolStarted runId _ _ _ _ _ _ _ | RWriteDeferred runId _ => Some runId
  | RQueueEnqueued _ runId _ | RQueueCancelled runId _ => runId
  | RUsage _ cause => cause_runId cause
  end.

Definition is_operation_started (r : LaneRecord) : bool := bool_decide (record_type r = Toperation_started).

(** ** Queries and results *)

Inductive EntryOrder : Type := newestFirst | oldestFirst.
#[export] Instance EntryOrder_eq_dec : EqDecision EntryOrder.
Proof. solve_decision. Defined.

(** [limit] and [afterSeq] are numbers a caller passes, valid or not. *)
Record EntryQuery := mkEntryQuery {
  q_type : option EntryType;
  q_customType : option string;
  q_order : option EntryOrder;
  q_limit : option jsnum;
  q_cursor : option jsnum;  (* [cursor.afterSeq] *)
}.

Record BranchBounds := mkBranchBounds {
  b_start : option string;
  b_stopAtType : option EntryType;
  b_stopAtId : option string;
}.

Record RecordQuery := mkRecordQuery {
  rq_lane : option string;
  rq_type : option RecordType;
  rq_runId : option string;
  rq_operationKind : option OperationKind;
  rq_afterSeq : option jsnum;
  rq_order : option EntryOrder;
  rq_limit : option jsnum;
}.

Record SessionMetadata := mkSessionMetadata {
  md_id : string;
  md_createdAt : Z;
  md_parentSessionId : option string;
}.

Record SessionStats := mkSessionStats {
  messageCount : Z;
  cachedTokens : jsnum;
  uncachedTokens : jsnum;
  totalTokens : jsnum;
  costTotal : jsnum;
}.

Record LanePointer := mkLanePointer {
  lp_lane : string;
  lp_leafId : option string;
}.

Inductive LogItem : Type :=
  | LogEntry (seq : Z) (entry : Entry)
  | LogRecord (seq : Z) (record : LaneRecord)
  | LogLane (seq : Z) (lane : string) (leafId : option string)
  | LogName (seq : Z) (name : option string)
  | LogLabel (seq : Z) (targetId : string) (label : option string).

Definition log_seq (i : LogItem) : Z :=
  match i with
  | LogEntry s _ | LogRecord s _ | LogLane s _ _ | LogName s _ | LogLabel s _ _ => s
  end.

Record LogOptions := mkLogOptions {
  lo_afterSeq : option jsnum;
  lo_limit : option jsnum;
}.

(** [SessionCreateOptions]. *)
Record SessionCreateOptions := mkCreateOptions {
  co_id : option string;
  co_parentSessionId : option string;
}.

Inductive ForkPosition : Type := Pbefore | Pat.

Inductive ForkOptions : Type :=
  | ForkBranch (entryId : option string) (position : option ForkPosition)
  | ForkTree.

Inductive SessionErrorCode : Type :=
  | not_found | already_exists | invalid_entry | invalid_payload | invalid_lane | invalid_query
  | invalid_fork_target | storage.

#[export] Instance SessionErrorCode_eq_dec : EqDecision SessionErrorCode.
Proof. solve_decision. Defined.

Record session_error := SessionError {
  se_code : SessionErrorCode;
  se_message : string;
}.

#[export] Instance session_error_eq_dec : EqDecision session_error.
Proof. solve_decision. Defined.

(** ** The object view *)

Definition js_messages (ms : list AgentMessage) : jstree := j_list js_message ms.

Definition type_name (t : EntryType) : string :=
  match t with
  | Tmessage => "message" | Tmodel_change => "model_change" | Tthinking_level_change => "thinking_level_change"
  | Tactive_tools_change => "active_tools_change" | Tcompaction => "compaction"
  | Tbranch_summary => "branch_summary" | Tcustom => "custom"
  end.

(** The properties of the payload of an entry: [id], [type] and the body. *)
Definition js_provisioned_props (p : ProvisionedEntry) : list (string * jstree) :=
  prop JStr "type" (type_name (body_type (p_body p))) ++ prop JStr "id" (p_id p) ++
  match p_body p with
  | BMessage m terminate => prop js_message "message" m ++ (if terminate then prop JBool "terminate" true else [])
  | BModelChange provider modelId => prop JStr "provider" provider ++ prop JStr "modelId" modelId
  | BThinkingLevel level => prop JStr "thinkingLevel" level
  | BActiveTools names => prop (j_list JStr) "activeToolNames" names
  | BCompaction summary tail tokens details usage =>
      prop JStr "summary" summary ++ prop js_messages "retainedTail" tail ++ prop JNum "tokensBefore" tokens ++
      opt_prop id "details" details ++ opt_prop js_usage "usage" usage
  | BBranchSummary fromId summary details usage =>
      prop JStr "fromId" fromId ++ prop JStr "summary" summary ++ opt_prop id "details" details ++
      opt_prop js_usage "usage" usage
  | BCustom customType data => prop JStr "customType" customType ++ opt_prop id "data" data
  end.

Definition js_provisioned (p : ProvisionedEntry) : jstree := JObj (js_provisioned_props p).

Definition js_intent (i : Intent) : jstree :=
  JObj match i with
  | IRun prompt initial override resume =>
      prop JStr "kind" "run" ++ prop js_messages "originalPrompt" prompt ++
      prop (j_list js_provisioned) "initialMessages" initial ++ opt_prop JStr "systemPromptOverride" override ++
      opt_prop JObj "resumeData" resume
  | ICompaction instructions resultEntryId =>
      prop JStr "kind" "compaction" ++ opt_prop JStr "customInstructions" instructions ++
      prop JStr "resultEntryId" resultEntryId
  | INavigation target summarize instructions label summaryEntryId =>
      prop JStr "kind" "navigation" ++ prop j_nullable "targetId" target ++ prop JBool "summarize" summarize ++
      opt_prop JStr "customInstructions" instructions ++ opt_prop JStr "label" label ++
      opt_prop JStr "summaryEntryId" summaryEntryId
  end.

Definition js_cause (c : UsageCause) : list (string * jstree) :=
  match c with
  | UCGeneration cause runId entryId attempt stopReason =>
      prop JStr "cause" (match cause with Gassistant => "assistant" | Gcompaction => "compaction"
        | Gbranch_summary => "branch_summary" | Gdeferred_fetch => "deferred_fetch" end) ++
      prop JStr "runId" runId ++ prop JStr "entryId" entryId ++ prop j_int "attempt" attempt ++
      prop JStr "stopReason" stopReason
  | UCTool runId entryId toolCallId =>
      prop JStr "cause" "tool" ++ prop JStr "runId" runId ++ prop JStr "entryId" entryId ++
      prop JStr "toolCallId" toolCallId
  | UCHook runId entryId => prop JStr "cause" "hook" ++ prop JStr "runId" runId ++ prop JStr "entryId" entryId
  | UCAdjustment runId entryId details =>
      prop JStr "cause" "adjustment" ++ opt_prop JStr "runId" runId ++ opt_prop JStr "entryId" entryId ++
      opt_prop id "details" details
  end.

Definition js_record_body (b : RecordBody) : list (string * jstree) :=
  match b with
  | ROperationStarted source intent =>
      prop JStr "type" "operation_started" ++ prop j_nullable "sourceLeafId" source ++ prop js_intent "intent" intent
  | RAbortRequested runId => prop JStr "type" "abort_requested" ++ prop JStr "runId" runId
  | ROperationFinished runId outcome error =>
      prop JStr "type" "operation_finished" ++ prop JStr "runId" runId ++
      prop JStr "outcome" (match outcome with Ocompleted => "completed" | Oaborted => "aborted"
        | Ofailed => "failed" | Odeclined => "declined" end) ++
      opt_prop (fun e => JObj (prop JStr "code" e.1 ++ prop JStr "message" e.2)) "error" error
  | RStepAttempt runId step attempt resultEntryId reason =>
      prop JStr "type" "step_attempt" ++ prop JStr "runId" runId ++
      prop JStr "step" (match step with Sassistant => "assistant" | Scompaction => "compaction"
        | Sbranch_summary => "branch_summary" end) ++
      prop j_int "attempt" attempt ++ prop JStr "resultEntryId" resultEntryId ++
      opt_prop JStr "compactionReason" reason
  | RToolStarted runId assistantEntryId toolIndex toolCallId toolName args resultEntryId safe =>
      prop JStr "type" "tool_started" ++ prop JStr "runId" runId ++ prop JStr "assistantEntryId" assistantEntryId ++
      prop j_int "toolIndex" toolIndex ++ prop JStr "toolCallId" toolCallId ++ prop JStr "toolName" toolName ++
      prop JObj "effectiveArgs" args ++ prop JStr "resultEntryId" resultEntryId ++
      prop JStr "replay" (if safe then "safe" else "never")
  | RQueueEnqueued queue runId target =>
      prop JStr "type" "queue_enqueued" ++
      prop JStr "queue" (match queue with Qsteer => "steer" | QfollowUp => "followUp" | QnextRun => "nextRun" end) ++
      opt_prop JStr "runId" runId ++ prop js_provisioned "target" target
  | RQueueCancelled runId entryId =>
      prop JStr "type" "queue_cancelled" ++ opt_prop JStr "runId" runId ++ prop JStr "entryId" entryId
  | RWriteDeferred runId target =>
      prop JStr "type" "write_deferred" ++ prop JStr "runId" runId ++ prop js_provisioned "target" target
  | RUsage usage cause => prop JStr "type" "usage" ++ prop js_usage "usage" usage ++ js_cause cause
  end.

Definition js_new_record (n : NewRecord) : jstree :=
  JObj (prop JStr "id" (n_id n) ++ prop JStr "lane" (n_lane n) ++ js_record_body (n_body n)).
