(* ===== verification/SessionState.v ===== *)
(** The state of a session: class [SessionState] of
    [packages/agent/src/harness/session/state.ts].

    The state is a function of the mutations applied to it.  [applyMutation]
    checks everything before it changes anything, so a rejected mutation
    leaves the state as it was and the model returns either the new state or
    the error.  Maps whose order no method observes are [gmap]s; the lanes and
    the open operations of a lane are listed, so they are association lists. *)
From S2P Require Import Prelude JsNumber JsTree Messages SessionTypes.
Local Open Scope Z_scope.

Inductive SessionMutation : Type :=
  | MutEntry (lane : option string) (entry : Entry)
  | MutRecord (record : LaneRecord)
  | MutLane (seq : Z) (lane : string) (leafId : option string)
  | MutName (seq : Z) (name : option string)
  | MutLabel (seq : Z) (targetId : string) (label : option string).

Definition mutation_seq (m : SessionMutation) : Z :=
  match m with
  | MutEntry _ e => e_seq e
  | MutRecord r => r_seq r
  | MutLane s _ _ | MutName s _ | MutLabel s _ _ => s
  end.

Definition invalidMutation (message : string) : session_error :=
  SessionError invalid_entry ("Invalid session mutation: " +:+ message).

Record SessionState := mkState {
  sequence : Z;
  usedIds : gset string;
  entries : list Entry;
  entriesById : gmap string Entry;
  records : list LaneRecord;
  openOperationsByLane : gmap string (list (string * LaneRecord));
  lanes : list (string * option string);
  log : list LogItem;
  stats : SessionStats;
  name : option string;
  labels : gmap string string;
}.

Definition initial_stats : SessionStats := mkSessionStats 0 (JInt 0) (JInt 0) (JInt 0) (JInt 0).

Definition new_SessionState : SessionState :=
  mkState 0 ∅ [] ∅ [] ∅ [("main", None)] [] initial_stats None ∅.

(** ** Validation *)

Definition assertValidLimit (limit : option jsnum) : result session_error unit :=
  match limit with
  | None => Ok ()
  | Some n =>
      match num_to_Z n with
      | Some z => throw_if (z <=? 0) (SessionError invalid_query "limit must be a positive integer")
      | None => Err (SessionError invalid_query "limit must be a positive integer")
      end
  end.

Definition assertValidCursor (afterSeq : option jsnum) : result session_error unit :=
  match afterSeq with
  | None => Ok ()
  | Some n =>
      match num_to_Z n with
      | Some z => throw_if (z <? 0) (SessionError invalid_query "cursor sequence must be a non-negative integer")
      | None => Err (SessionError invalid_query "cursor sequence must be a non-negative integer")
      end
  end.

Definition nextSequence (st : SessionState) : Z := sequence st + 1.

Definition getLanes (st : SessionState) : list LanePointer := map (fun p => mkLanePointer p.1 p.2) (lanes st).

Definition requireLane (lane : string) (st : SessionState) : result session_error (option string) :=
  or_throw (SessionError invalid_lane ("Lane not found: " +:+ lane)) (JsMap.get lane (lanes st)).

Definition validateNewLane (lane : string) (st : SessionState) : result session_error unit :=
  throw_if (JsMap.has lane (lanes st)) (SessionError already_exists ("Lane already exists: " +:+ lane)).

Definition has_entry (id : string) (st : SessionState) : bool := bool_decide (is_Some (entriesById st !! id)).

Definition validateTarget (targetId : option string) (st : SessionState) : result session_error unit :=
  match targetId with
  | None => Ok ()
  | Some id => throw_if (negb (has_entry id st)) (SessionError not_found ("Entry not found: " +:+ id))
  end.

Definition validateUnusedId (id : string) (st : SessionState) : result session_error unit :=
  throw_if (bool_decide (id ∈ usedIds st)) (SessionError already_exists ("Session id already exists: " +:+ id)).

(** ** [applyMutation] *)

Section apply.
Context (invalid : string -> session_error).

Definition nullable (o : option string) : string := default "null" o.

Definition applyEntry (lane : option string) (entry : Entry) (st : SessionState) : result session_error SessionState :=
  throw_if (bool_decide (e_id entry ∈ usedIds st)) (invalid ("contains duplicate id " +:+ e_id entry));;
  match lane with
  | None => Ok ()
  | Some l =>
      leafId ← or_throw (invalid ("references missing lane " +:+ l)) (JsMap.get l (lanes st));
      throw_if (bool_decide (e_parentId entry <> leafId)) (invalid "does not chain to the lane leaf")
  end;;
  match e_parentId entry with
  | None => Ok ()
  | Some p => throw_if (negb (has_entry p st)) (invalid ("references missing parent " +:+ p))
  end;;
  let seq := e_seq entry in
  let lanes' := match lane with Some l => JsMap.set l (Some (e_id entry)) (lanes st) | None => lanes st end in
  let s := stats st in
  let stats' :=
    if bool_decide (entry_type entry = Tmessage)
    then mkSessionStats (messageCount s + 1) (cachedTokens s) (uncachedTokens s) (totalTokens s) (costTotal s)
    else s in
  Ok (mkState seq ({[e_id entry]} ∪ usedIds st) (entries st ++ [entry]) (<[e_id entry := entry]> (entriesById st))
        (records st) (openOperationsByLane st) lanes' (log st ++ [LogEntry seq entry]) stats' (name st) (labels st)).

(** The open operations of all lanes after a record. *)
Definition trackOperation (record : LaneRecord) (open : gmap string (list (string * LaneRecord)))
    : gmap string (list (string * LaneRecord)) :=
  match r_body record with
  | ROperationStarted _ _ =>
      <[r_lane record := JsMap.set (r_id record) record (default [] (open !! r_lane record))]> open
  | ROperationFinished runId _ _ =>
      match open !! r_lane record with
      | Some ops => <[r_lane record := JsMap.delete runId ops]> open
      | None => open
      end
  | _ => open
  end.

Definition trackUsage (record : LaneRecord) (s : SessionStats) : SessionStats :=
  match r_body record with
  | RUsage u _ =>
      mkSessionStats (messageCount s)
        (num_add (cachedTokens s) (u_cacheRead u))
        (num_add (uncachedTokens s) (num_add (u_input u) (u_cacheWrite u)))
        (num_add (totalTokens s) (u_totalTokens u))
        (num_add (costTotal s) (cost_total (u_cost u)))
  | _ => s
  end.

Definition applyRecord (record : LaneRecord) (st : SessionState) : result session_error SessionState :=
  throw_if (negb (JsMap.has (r_lane record) (lanes st))) (invalid ("references missing lane " +:+ r_lane record));;
  throw_if (bool_decide (r_id record ∈ usedIds st)) (invalid ("contains duplicate id " +:+ r_id record));;
  let seq := r_seq record in
  Ok (mkState seq ({[r_id record]} ∪ usedIds st) (entries st) (entriesById st) (records st ++ [record])
        (trackOperation record (openOperationsByLane st)) (lanes st) (log st ++ [LogRecord seq record])
        (trackUsage record (stats st)) (name st) (labels st)).

Definition applyLane (seq : Z) (lane : string) (leafId : option string) (st : SessionState)
    : result session_error SessionState :=
  match leafId with
  | None => Ok ()
  | Some id => throw_if (negb (has_entry id st)) (invalid ("references missing lane target " +:+ id))
  end;;
  Ok (mkState seq (usedIds st) (entries st) (entriesById st) (records st) (openOperationsByLane st)
        (JsMap.set lane leafId (lanes st)) (log st ++ [LogLane seq lane leafId]) (stats st) (name st) (labels st)).

Definition applyName (seq : Z) (name' : option string) (st : SessionState) : result session_error SessionState :=
  Ok (mkState seq (usedIds st) (entries st) (entriesById st) (records st) (openOperationsByLane st)
        (lanes st) (log st ++ [LogName seq name']) (stats st) name' (labels st)).

Definition applyLabel (seq : Z) (targetId : string) (label : option string) (st : SessionState)
    : result session_error SessionState :=
  throw_if (negb (has_entry targetId st)) (invalid ("references missing label target " +:+ targetId));;
  let labels' := match label with None => delete targetId (labels st) | Some l => <[targetId := l]> (labels st) end in
  Ok (mkState seq (usedIds st) (entries st) (entriesById st) (records st) (openOperationsByLane st)
        (lanes st) (log st ++ [LogLabel seq targetId label]) (stats st) (name st) labels').

Definition applyMutation (mutation : SessionMutation) (st : SessionState) : result session_error SessionState :=
  let seq := mutation_seq mutation in
  throw_if (negb (seq =? sequence st + 1)) (invalid ("has non-consecutive seq " +:+ pretty seq));;
  match mutation with
  | MutEntry lane entry => applyEntry lane entry st
  | MutRecord record => applyRecord record st
  | MutLane seq lane leafId => applyLane seq lane leafId st
  | MutName seq name' => applyName seq name' st
  | MutLabel seq targetId label => applyLabel seq targetId label st
  end.

Definition applyMutations (ms : list SessionMutation) (st : SessionState) : result session_error SessionState :=
  mfold (fun st m => applyMutation m st) st ms.
End apply.

(** ** Reads *)

Definition getEntry (id : string) (st : SessionState) : option Entry := entriesById st !! id.

(** The generator [ordered]. *)
Definition ordered {T} (items : list T) (order : option EntryOrder) : list T :=
  if bool_decide (order = Some oldestFirst) then items else rev items.

(** [results.length === limit]. *)
Definition at_limit (limit : option jsnum) {T} (results : list T) : bool :=
  match limit with
  | Some n => bool_decide (num_to_Z n = Some (Z.of_nat (length results)))
  | None => false
  end.

(** The loop [for (const item of items) { if (!matches(item)) continue;
    results.push(item); if (results.length === limit) break; }]. *)
Fixpoint scan {T} (matches : T -> bool) (limit : option jsnum) (results : list T) (items : list T) : list T :=
  match items with
  | [] => results
  | item :: items' =>
      if matches item then
        let results := results ++ [item] in
        if at_limit limit results then results else scan matches limit results items'
      else scan matches limit results items'
  end.

Definition opt_matches {A} `{EqDecision A} (wanted : option A) (actual : A) : bool :=
  match wanted with None => true | Some a => bool_decide (actual = a) end.

(** [seq > afterSeq] and [seq < afterSeq] for a valid cursor. *)
Definition seq_gt (seq : Z) (afterSeq : jsnum) : bool :=
  match num_to_Z afterSeq with Some z => seq >? z | None => false end.
Definition seq_lt (seq : Z) (afterSeq : jsnum) : bool :=
  match num_to_Z afterSeq with Some z => seq <? z | None => false end.

Definition matchesEntryQuery (q : EntryQuery) (e : Entry) : bool :=
  opt_matches (q_type q) (entry_type e) &&
  match q_customType q with
  | None => true
  | Some c => match e_body e with BCustom customType _ => String.eqb customType c | _ => false end
  end &&
  match q_cursor q with
  | None => true
  | Some afterSeq =>
      if bool_decide (q_order q = Some oldestFirst) then seq_gt (e_seq e) afterSeq else seq_lt (e_seq e) afterSeq
  end.

Definition matchesRecordQuery (q : RecordQuery) (r : LaneRecord) : bool :=
  opt_matches (rq_lane q) (r_lane r) &&
  opt_matches (rq_type q) (record_type r) &&
  match rq_runId q with
  | None => true
  | Some runId =>
      if is_operation_started r then bool_decide (r_id r = runId) else bool_decide (record_runId r = Some runId)
  end &&
  match rq_operationKind q with
  | None => true
  | Some k => match r_body r with ROperationStarted _ intent => bool_decide (intent_kind intent = k) | _ => false end
  end &&
  match rq_afterSeq q with None => true | Some afterSeq => seq_gt (r_seq r) afterSeq end.

Definition findEntries (q : EntryQuery) (st : SessionState) : result session_error (list Entry) :=
  assertValidLimit (q_limit q);;
  assertValidCursor (q_cursor q);;
  Ok (scan (matchesEntryQuery q) (q_limit q) [] (ordered (entries st) (q_order q))).

Definition findRecords (q : RecordQuery) (st : SessionState) : result session_error (list LaneRecord) :=
  assertValidLimit (rq_limit q);;
  assertValidCursor (rq_afterSeq q);;
  Ok (scan (matchesRecordQuery q) (rq_limit q) [] (ordered (records st) (rq_order q))).

Definition findOpenOperations (lane : string) (limit : option jsnum) (st : SessionState)
    : result session_error (list LaneRecord) :=
  assertValidLimit limit;;
  let openOperations :=
    match openOperationsByLane st !! lane with Some ops => rev (JsMap.values ops) | None => [] end in
  Ok match limit with
     | None => openOperations
     | Some n => take (Z.to_nat (default 0 (num_to_Z n))) openOperations
     end.

Definition getLog (o : LogOptions) (st : SessionState) : result session_error (list LogItem) :=
  assertValidLimit (lo_limit o);;
  assertValidCursor (lo_afterSeq o);;
  let after item := match lo_afterSeq o with None => true | Some afterSeq => seq_gt (log_seq item) afterSeq end in
  Ok (scan after (lo_limit o) [] (log st)).

Definition getLabel (id : string) (st : SessionState) : option string := labels st !! id.

(** *** Branches

    A generator yields entries until it returns or throws: the entries yielded
    if the consumer never stops, and how it ends. *)
Inductive walk_end : Type :=
  | WDone
  | WThrow (e : session_error)
  | WFuel.  (* the model's bound; proved unreachable *)

(** The loop of [walkToRoot]; [stops] is the bound of the scan. *)
Fixpoint walk (byId : gmap string Entry) (stops : Entry -> bool) (fuel : nat) (visited : gset string) (current : Entry)
    : list Entry * walk_end :=
  match fuel with
  | O => ([], WFuel)
  | S fuel' =>
      if bool_decide (e_id current ∈ visited)
      then ([], WThrow (SessionError invalid_entry ("Session branch contains a cycle at " +:+ e_id current)))
      else if stops current then ([current], WDone)
      else
        match e_parentId current with
        | None => ([current], WDone)
        | Some parentId =>
            match byId !! parentId with
            | None => ([current], WThrow (SessionError invalid_entry ("Entry not found: " +:+ parentId)))
            | Some parent =>
                let '(rest, e) := walk byId stops fuel' ({[e_id current]} ∪ visited) parent in (current :: rest, e)
            end
        end
  end.

Definition walkToRoot (start : option string) (stops : Entry -> bool) (st : SessionState) : list Entry * walk_end :=
  match start with
  | None => ([], WDone)
  | Some id =>
      match entriesById st !! id with
      | None => ([], WThrow (SessionError not_found ("Entry not found: " +:+ id)))
      | Some current => walk (entriesById st) stops (S (size (entriesById st))) ∅ current
      end
  end.

Definition reachedBound (b : BranchBounds) (e : Entry) : bool :=
  match b_stopAtId b with Some id => String.eqb (e_id e) id | None => false end ||
  match b_stopAtType b with Some t => bool_decide (entry_type e = t) | None => false end.

(** The end of a generator a consumer ran to completion. *)
Definition walk_finish {A} (e : walk_end) (a : A) : result session_error A :=
  match e with
  | WDone => Ok a
  | WThrow err => Err err
  | WFuel => Err (SessionError invalid_entry "fuel")
  end.

(** The newest-first loop: it stops at the limit, and otherwise runs the
    generator to its end. *)
Fixpoint scanBranch (matches : Entry -> bool) (limit : option jsnum) (results items : list Entry) (e : walk_end)
    : result session_error (list Entry) :=
  match items with
  | [] => walk_finish e results
  | item :: items' =>
      let results := if matches item then results ++ [item] else results in
      if at_limit limit results then Ok results else scanBranch matches limit results items' e
  end.

(** The oldest-first loop over the reversed path. *)
Fixpoint scanReversed (matches stops : Entry -> bool) (limit : option jsnum) (results items : list Entry) : list Entry :=
  match items with
  | [] => results
  | item :: items' =>
      let results := if matches item then results ++ [item] else results in
      if stops item || at_limit limit results then results else scanReversed matches stops limit results items'
  end.

Definition findEntriesOnBranch (q : EntryQuery) (b : BranchBounds) (start : string) (st : SessionState)
    : result session_error (list Entry) :=
  assertValidLimit (q_limit q);;
  assertValidCursor (q_cursor q);;
  if bool_decide (q_order q = Some oldestFirst) then
    let '(path, e) := walkToRoot (Some start) (fun _ => false) st in
    path ← walk_finish e path;
    Ok (scanReversed (matchesEntryQuery q) (reachedBound b) (q_limit q) [] (rev path))
  else
    let '(path, e) := walkToRoot (Some start) (reachedBound b) st in
    scanBranch (matchesEntryQuery q) (q_limit q) [] path e.

(** ** Forks *)

Definition all_entries_query (order : EntryOrder) : EntryQuery := mkEntryQuery None None (Some order) None None.
Definition no_bounds : BranchBounds := mkBranchBounds None None None.

Definition set_seq (seq : Z) (e : Entry) : Entry := mkEntry (e_id e) seq (e_parentId e) (e_timestamp e) (e_body e).

(** The target of a branch fork: a message entry, or its parent. *)
Definition forkTarget (entryId : option string) (position : option ForkPosition) (st : SessionState)
    : result session_error (option string) :=
  selectedEntryId ← match entryId with Some id => Ok (Some id) | None => requireLane "main" st end;
  match selectedEntryId with
  | None => Ok None
  | Some id =>
      let err := SessionError invalid_fork_target ("Fork target is not a message entry: " +:+ id) in
      entry ← or_throw err (getEntry id st);
      throw_if (bool_decide (entry_type entry <> Tmessage)) err;;
      let position :=
        default (match entryId with None => Pat | Some _ => Pbefore end) position in
      Ok match position with Pat => Some (e_id entry) | Pbefore => e_parentId entry end
  end.

(** The entries and lanes a fork copies. *)
Definition forkSelection (options : ForkOptions) (st : SessionState)
    : result session_error (list Entry * list LanePointer) :=
  match options with
  | ForkTree =>
      copiedEntries ← findEntries (all_entries_query oldestFirst) st;
      Ok (copiedEntries, getLanes st)
  | ForkBranch entryId position =>
      targetId ← forkTarget entryId position st;
      copiedEntries ←
        match targetId with
        | None => Ok []
        | Some id => findEntriesOnBranch (all_entries_query oldestFirst) no_bounds id st
        end;
      Ok (copiedEntries, [mkLanePointer "main" targetId])
  end.

(** Gives consecutive sequence numbers to a list of mutations. *)
Fixpoint numbered (sequence : Z) (make : list (Z -> SessionMutation)) : list SessionMutation :=
  match make with
  | [] => []
  | f :: make' => f sequence :: numbered (sequence + 1) make'
  end.

Definition createForkMutations (options : ForkOptions) (st : SessionState) : result session_error (list SessionMutation) :=
  ' (copiedEntries, forkLanes) ← forkSelection options st;
  Ok (numbered 1
    (map (fun e seq => MutEntry None (set_seq seq e)) copiedEntries ++
     map (fun p seq => MutLane seq (lp_lane p) (lp_leafId p)) forkLanes ++
     match name st with Some n => [fun seq => MutName seq (Some n)] | None => [] end ++
     omap (fun e => match labels st !! e_id e with
                    | Some l => Some (fun seq => MutLabel seq (e_id e) (Some l))
                    | None => None
                    end) copiedEntries)).
