(* ===== verification/SessionInvariant.v ===== *)
(** The invariant of a session state.

    Every mutation [applyMutation] accepts preserves [state_ok], from the empty
    session on; what the reads return in a state of that kind is then proved
    from the invariant alone. *)
From S2P Require Import Prelude JsNumber JsTree Messages SessionTypes SessionState.
Local Open Scope Z_scope.

(** ** Sequences sorted by a number *)

Definition sorted_by {A} (key : A -> Z) (l : list A) : Prop := StronglySorted (fun a b => key a < key b) l.

Lemma sorted_snoc {A} (key : A -> Z) l x :
  sorted_by key l -> (forall y, y ∈ l -> key y < key x) -> sorted_by key (l ++ [x]).
Proof.
  intros Hl Hx. apply StronglySorted_app. split_and!; [|done|repeat constructor].
  intros y z Hy Hz%list_elem_of_singleton. subst. by apply Hx.
Qed.

Lemma sorted_lookup {A} (key : A -> Z) l i j a b :
  sorted_by key l -> l !! i = Some a -> l !! j = Some b -> (i < j)%nat <-> key a < key b.
Proof.
  intros Hl. assert (forall i j a b, l !! i = Some a -> l !! j = Some b -> (i < j)%nat -> key a < key b) as Hlt.
  { clear -Hl. induction Hl as [|x l _ IH Hx]; intros i j a b Ha Hb Hij; [done|].
    destruct i as [|i], j as [|j]; try lia; cbn in Ha, Hb; simplify_eq.
    - rewrite Forall_forall in Hx. apply Hx. by eapply list_elem_of_lookup_2.
    - eapply IH; [done..|lia]. }
  intros Ha Hb. split; [by apply Hlt|]. intros Hkey.
  destruct (Nat.lt_trichotomy i j) as [|[->|Hji]]; [done|simplify_eq; lia|].
  pose proof (Hlt j i b a Hb Ha Hji). lia.
Qed.

(** A list sorted by a number is determined by its elements. *)
Lemma sorted_unique {A} (key : A -> Z) l1 l2 :
  sorted_by key l1 -> sorted_by key l2 -> (forall x, x ∈ l1 <-> x ∈ l2) -> l1 = l2.
Proof.
  revert l2. induction l1 as [|a l1 IH]; intros [|b l2] H1 H2 Heq.
  - done.
  - exfalso. apply (not_elem_of_nil b), Heq. left.
  - exfalso. apply (not_elem_of_nil a), Heq. left.
  - apply StronglySorted_cons in H1 as [Ha H1], H2 as [Hb H2]. rewrite Forall_forall in Ha, Hb.
    assert (a = b) as <-.
    { assert (a ∈ b :: l2) as Hin by (apply Heq; left). assert (b ∈ a :: l1) as Hin' by (apply Heq; left).
      apply elem_of_cons in Hin as [|Hin], Hin' as [|Hin']; try done. specialize (Ha _ Hin'). specialize (Hb _ Hin). lia. }
    f_equal. apply IH; [done..|]. intros x. specialize (Heq x). rewrite !elem_of_cons in Heq.
    split; intros Hx; [specialize (Ha _ Hx)|specialize (Hb _ Hx)];
      destruct Heq as [Heq1 Heq2]; [destruct Heq1; [by right|subst; lia|done]|destruct Heq2; [by right|subst; lia|done]].
Qed.

Lemma sorted_filter {A} (key : A -> Z) (P : A -> bool) l : sorted_by key l -> sorted_by key (List.filter P l).
Proof.
  induction 1 as [|x l Hl IH Hx]; cbn; [constructor|]. destruct (P x); [|done]. constructor; [done|].
  rewrite Forall_forall in Hx |- *. intros y [Hy _]%list_elem_of_In%filter_In. by apply Hx, list_elem_of_In.
Qed.

(** ** The invariant *)

(** [r] is an operation started in [lane] that no later record of the lane finishes. *)
Definition finishes (f r : LaneRecord) : Prop :=
  r_lane f = r_lane r /\ exists outcome err, r_body f = ROperationFinished (r_id r) outcome err.

Definition open_in (rs : list LaneRecord) (lane : string) (r : LaneRecord) : Prop :=
  r ∈ rs /\ record_type r = Toperation_started /\ r_lane r = lane /\
  forall f, f ∈ rs -> finishes f r -> r_seq f < r_seq r.

Definition log_entry (i : LogItem) : option Entry := match i with LogEntry _ e => Some e | _ => None end.
Definition log_record (i : LogItem) : option LaneRecord := match i with LogRecord _ r => Some r | _ => None end.

(** The stats a session with these entries and records has. *)
Definition stats_of (es : list Entry) (rs : list LaneRecord) : SessionStats :=
  foldl (fun s r => trackUsage r s)
    (mkSessionStats (Z.of_nat (length (List.filter (fun e => bool_decide (entry_type e = Tmessage)) es)))
       (JInt 0) (JInt 0) (JInt 0) (JInt 0)) rs.

Definition target_ok (byId : gmap string Entry) (target : option string) : Prop :=
  match target with Some id => is_Some (byId !! id) | None => True end.

Record state_ok (st : SessionState) : Prop := {
  ok_sequence : 0 <= sequence st;
  ok_log_seq : map log_seq (log st) = seqZ 1 (sequence st);
  ok_log_entries : entries st = omap log_entry (log st);
  ok_log_records : records st = omap log_record (log st);
  ok_ids : NoDup (map e_id (entries st) ++ map r_id (records st));
  ok_usedIds : forall id, id ∈ usedIds st <-> id ∈ map e_id (entries st) ++ map r_id (records st);
  ok_index : forall id e, entriesById st !! id = Some e <-> e ∈ entries st /\ e_id e = id;
  ok_entry_seq : sorted_by e_seq (entries st) /\ Forall (fun e => 1 <= e_seq e <= sequence st) (entries st);
  ok_record_seq : sorted_by r_seq (records st) /\ Forall (fun r => 1 <= r_seq r <= sequence st) (records st);
  ok_parents : forall e p, e ∈ entries st -> e_parentId e = Some p ->
    exists e', entriesById st !! p = Some e' /\ e_seq e' < e_seq e;
  ok_lanes : NoDup (JsMap.keys (lanes st)) /\ JsMap.has "main" (lanes st) = true /\
    forall lane leaf, JsMap.get lane (lanes st) = Some leaf -> target_ok (entriesById st) leaf;
  ok_record_lanes : forall r, r ∈ records st -> JsMap.has (r_lane r) (lanes st) = true;
  ok_open : forall lane,
    let ops := default [] (openOperationsByLane st !! lane) in
    NoDup (JsMap.keys ops) /\ sorted_by r_seq (JsMap.values ops) /\
    forall id r, JsMap.get id ops = Some r <-> open_in (records st) lane r /\ r_id r = id;
  ok_labels : forall id l, labels st !! id = Some l -> is_Some (entriesById st !! id);
  ok_stats : stats st = stats_of (entries st) (records st);
}.

Lemma state_ok_initial : state_ok new_SessionState.
Proof.
  split; cbn; try done.
  - constructor.
  - intros id. by rewrite elem_of_empty, elem_of_nil.
  - intros id e. rewrite lookup_empty, elem_of_nil. naive_solver.
  - split; constructor.
  - split; constructor.
  - intros e p He. by apply elem_of_nil in He.
  - split_and!; [apply NoDup_singleton|done|]. intros lane leaf. case_decide; naive_solver.
  - intros r Hr. by apply elem_of_nil in Hr.
  - intros lane. rewrite lookup_empty. cbn. split_and!; [constructor|constructor|].
    intros id r. split; [done|]. intros [[Hr _] _]. by apply elem_of_nil in Hr.
Qed.

(** *** Consequences of the invariant *)

Lemma has_entry_Some id st : has_entry id st = true <-> is_Some (entriesById st !! id).
Proof. unfold has_entry. by rewrite bool_decide_eq_true. Qed.

Lemma entry_by_id st e : state_ok st -> e ∈ entries st -> entriesById st !! e_id e = Some e.
Proof. intros Hok He. by apply (ok_index _ Hok). Qed.

Lemma entry_seq_inj st e1 e2 :
  state_ok st -> e1 ∈ entries st -> e2 ∈ entries st -> e_seq e1 = e_seq e2 -> e1 = e2.
Proof.
  intros Hok [i Hi]%list_elem_of_lookup [j Hj]%list_elem_of_lookup Heq. destruct (ok_entry_seq _ Hok) as [Hs _].
  destruct (Nat.lt_trichotomy i j) as [Hij|[->|Hij]]; [|congruence|].
  - apply (sorted_lookup e_seq _ _ _ _ _ Hs Hi Hj) in Hij. lia.
  - apply (sorted_lookup e_seq _ _ _ _ _ Hs Hj Hi) in Hij. lia.
Qed.

Lemma log_seq_next st item :
  state_ok st -> log_seq item = sequence st + 1 ->
  map log_seq (log st ++ [item]) = seqZ 1 (sequence st + 1).
Proof.
  intros Hok Hs. rewrite map_app, (ok_log_seq _ Hok). cbn. pose proof (ok_sequence _ Hok).
  rewrite (seqZ_app 1 (sequence st) 1) by lia. by rewrite Hs, Z.add_comm.
Qed.

Lemma target_ok_insert byId e target : target_ok byId target -> target_ok (<[e_id e := e]> byId) target.
Proof.
  destruct target as [id|]; cbn; [|done]. intros Hs. destruct (decide (e_id e = id)) as [<-|Hne].
  - by rewrite lookup_insert_eq.
  - by rewrite lookup_insert_ne.
Qed.

Lemma has_set {V} k k' (v : V) (m : list (string * V)) : JsMap.has k m = true -> JsMap.has k (JsMap.set k' v m) = true.
Proof. unfold JsMap.has. rewrite JsMap.get_set. by case_decide. Qed.

Lemma values_sorted_set (ops : list (string * LaneRecord)) id (r : LaneRecord) :
  sorted_by r_seq (JsMap.values ops) -> JsMap.get id ops = None ->
  (forall r', r' ∈ JsMap.values ops -> r_seq r' < r_seq r) -> sorted_by r_seq (JsMap.values (JsMap.set id r ops)).
Proof.
  intros Hs Hnew Hlt. rewrite JsMap.set_new by done. unfold JsMap.values. rewrite fmap_app. by apply sorted_snoc.
Qed.

Lemma values_delete (ops : list (string * LaneRecord)) id (r : LaneRecord) : r ∈ JsMap.values (JsMap.delete id ops) -> r ∈ JsMap.values ops.
Proof.
  unfold JsMap.values. induction ops as [|[k v] ops IH]; cbn; [done|].
  case_decide; cbn; rewrite !elem_of_cons; naive_solver.
Qed.

Lemma values_sorted_delete (ops : list (string * LaneRecord)) id : sorted_by r_seq (JsMap.values ops) ->
  sorted_by r_seq (JsMap.values (JsMap.delete id ops)).
Proof.
  induction ops as [|[k v] ops IH]; cbn; [done|].
  intros [Hv Hs]%StronglySorted_cons. case_decide; cbn; [by apply IH|].
  apply StronglySorted_cons. split; [|by apply IH]. rewrite Forall_forall in Hv |- *.
  intros r Hr. by eapply Hv, values_delete.
Qed.

Lemma values_get {K V} `{EqDecision K} (m : list (K * V)) v : v ∈ JsMap.values m -> NoDup (JsMap.keys m) ->
  exists k, JsMap.get k m = Some v.
Proof.
  intros Hv Hnd. unfold JsMap.values in Hv. apply list_elem_of_fmap in Hv as ([k v'] & -> & Hin).
  exists k. by apply JsMap.elem_get.
Qed.

Definition count_message (s : SessionStats) : SessionStats :=
  mkSessionStats (messageCount s + 1) (cachedTokens s) (uncachedTokens s) (totalTokens s) (costTotal s).

Lemma stats_of_snoc es rs e :
  stats_of (es ++ [e]) rs =
  if bool_decide (entry_type e = Tmessage) then count_message (stats_of es rs) else stats_of es rs.
Proof.
  assert (forall s, foldl (fun s r => trackUsage r s) (count_message s) rs =
    count_message (foldl (fun s r => trackUsage r s) s rs)) as Hcount.
  { induction rs as [|r rs IH]; intros s; [done|]. cbn [foldl]. rewrite <- IH. f_equal.
    unfold trackUsage. by destruct (r_body r). }
  unfold stats_of. rewrite List.filter_app, length_app. cbn [List.filter].
  case_bool_decide; cbn [length]; [|by rewrite Nat.add_0_r].
  rewrite <- Hcount. unfold count_message. cbn [messageCount cachedTokens uncachedTokens totalTokens costTotal].
  by rewrite Nat2Z.inj_add.
Qed.

(** *** Preservation *)

Section preserve.
Context (invalid : string -> session_error) (st st' : SessionState) (Hok : state_ok st).

Lemma seqs_weaken {A} (f : A -> Z) l :
  Forall (fun a => 1 <= f a <= sequence st) l -> Forall (fun a => 1 <= f a <= sequence st + 1) l.
Proof. intros H. eapply Forall_impl; [exact H|]. cbn. lia. Qed.

Lemma fresh_id id : id ∉ usedIds st -> id ∉ map e_id (entries st) /\ id ∉ map r_id (records st).
Proof. intros Hid. rewrite (ok_usedIds _ Hok), elem_of_app in Hid. naive_solver. Qed.

Lemma index_snoc entry id e :
  e_id entry ∉ usedIds st ->
  <[e_id entry := entry]> (entriesById st) !! id = Some e <-> e ∈ entries st ++ [entry] /\ e_id e = id.
Proof.
  intros [Hfresh _]%fresh_id. rewrite elem_of_app, list_elem_of_singleton.
  destruct (decide (e_id entry = id)) as [<-|Hne].
  - rewrite lookup_insert_eq. split; [intros [= <-]; auto|]. intros [[Hin| ->] Heq]; [|done].
    destruct Hfresh. rewrite <- Heq. apply list_elem_of_fmap. by exists e.
  - rewrite lookup_insert_ne, (ok_index _ Hok) by done. naive_solver.
Qed.

Lemma preserve_entry lane entry :
  e_seq entry = sequence st + 1 -> applyEntry invalid lane entry st = Ok st' -> state_ok st'.
Proof.
  intros Hseq (_ & Hid%throw_if_Ok%bool_decide_eq_false & (u & Hlane & (u2 & Hparent & [= <-])%bind_Ok)%bind_Ok)%bind_Ok.
  pose proof (fresh_id _ Hid) as [Hfe Hfr]. pose proof (ok_sequence _ Hok). rewrite Hseq.
  destruct (ok_entry_seq _ Hok) as [Hes Heb], (ok_record_seq _ Hok) as [Hrs Hrb].
  assert (forall x, is_Some (entriesById st !! x) -> is_Some (<[e_id entry := entry]> (entriesById st) !! x)) as Hmono.
  { intros x. apply (target_ok_insert _ _ (Some x)). }
  rewrite Forall_forall in Heb.
  split; cbn [sequence usedIds entries entriesById records openOperationsByLane lanes log stats name labels].
  - lia.
  - by apply log_seq_next.
  - by rewrite (ok_log_entries _ Hok), omap_app.
  - by rewrite (ok_log_records _ Hok), omap_app, app_nil_r.
  - rewrite map_app, <- app_assoc. cbn. rewrite <- Permutation_middle. apply NoDup_cons.
    split; [rewrite elem_of_app; naive_solver|apply Hok].
  - intros id. rewrite map_app, elem_of_union, elem_of_singleton, (ok_usedIds _ Hok), !elem_of_app. cbn.
    rewrite list_elem_of_singleton. naive_solver.
  - intros id e. by apply index_snoc.
  - split; [apply sorted_snoc; [done|]; intros y Hy; specialize (Heb _ Hy); lia|].
    apply Forall_app; split; [|repeat constructor; lia]. apply seqs_weaken, Forall_forall. exact Heb.
  - split; [done|by apply seqs_weaken].
  - intros e p He Hp. apply elem_of_app in He as [He|He%list_elem_of_singleton].
    + destruct (ok_parents _ Hok e p He Hp) as (e' & He' & Hlt). exists e'. split; [|done].
      apply index_snoc; [done|]. apply (ok_index _ Hok) in He' as [? <-]. split; [|done]. rewrite elem_of_app. auto.
    + subst e. rewrite Hp in Hparent. apply throw_if_Ok, negb_false_iff, has_entry_Some in Hparent as [e' He'].
      exists e'. rewrite index_snoc by done. apply (ok_index _ Hok) in He' as [Hin <-].
      split; [split; [rewrite elem_of_app; auto|done]|]. specialize (Heb _ Hin). lia.
  - destruct (ok_lanes _ Hok) as (Hnd & Hmain & Hl). destruct lane as [l|].
    + split_and!; [by apply JsMap.set_keys_NoDup|by apply has_set|]. intros l' leaf. rewrite JsMap.get_set.
      case_decide; [intros [= <-]; cbn; by rewrite lookup_insert_eq|].
      intros Hg. apply target_ok_insert. by eapply Hl.
    + split_and!; [done..|]. intros l' leaf Hg. apply target_ok_insert. by eapply Hl.
  - intros r Hr. pose proof (ok_record_lanes _ Hok _ Hr). destruct lane; [by apply has_set|done].
  - apply (ok_open _ Hok).
  - intros id l Hl. apply Hmono. by eapply (ok_labels _ Hok).
  - rewrite (ok_stats _ Hok), stats_of_snoc. by case_bool_decide.
Qed.

(** What the mutations that add no entry keep. *)
Lemma seqs_keep :
  (sorted_by e_seq (entries st) /\ Forall (fun e => 1 <= e_seq e <= sequence st + 1) (entries st)) /\
  (sorted_by r_seq (records st) /\ Forall (fun r => 1 <= r_seq r <= sequence st + 1) (records st)).
Proof.
  destruct (ok_entry_seq _ Hok) as [? ?], (ok_record_seq _ Hok) as [? ?].
  split; (split; [done|]); by apply seqs_weaken.
Qed.

Ltac keep_fields :=
  pose proof (ok_sequence _ Hok); pose proof seqs_keep as [? ?];
  split; cbn [sequence usedIds entries entriesById records openOperationsByLane lanes log stats name labels];
  [ lia | by apply log_seq_next
  | by rewrite ?(ok_log_entries _ Hok), omap_app, app_nil_r
  | by rewrite ?(ok_log_records _ Hok), omap_app, app_nil_r
  | by apply Hok | by apply Hok | by apply Hok | by first [done | apply Hok] | by first [done | apply Hok]
  | by apply Hok | .. ]; try by apply Hok.

Lemma preserve_lane seq lane leafId :
  seq = sequence st + 1 -> applyLane invalid seq lane leafId st = Ok st' -> state_ok st'.
Proof.
  intros -> (u & Htarget & [= <-])%bind_Ok. destruct (ok_lanes _ Hok) as (Hnd & Hmain & Hl). keep_fields.
  - split_and!; [by apply JsMap.set_keys_NoDup|by apply has_set|]. intros l leaf. rewrite JsMap.get_set.
    case_decide; [|apply Hl]. intros [= <-]. destruct leafId as [id|]; [|done].
    by apply throw_if_Ok, negb_false_iff, has_entry_Some in Htarget.
  - intros r Hr. by apply has_set, (ok_record_lanes _ Hok).
Qed.

Lemma preserve_name seq name' : seq = sequence st + 1 -> applyName seq name' st = Ok st' -> state_ok st'.
Proof. intros -> [= <-]. keep_fields. Qed.

Lemma preserve_label seq targetId label :
  seq = sequence st + 1 -> applyLabel invalid seq targetId label st = Ok st' -> state_ok st'.
Proof.
  intros -> (u & Htarget%throw_if_Ok & [= <-])%bind_Ok. apply negb_false_iff, has_entry_Some in Htarget.
  keep_fields. intros id l. destruct label as [l'|].
  - intros [[<- _]|[_ Hl]]%lookup_insert_Some; [done|]. by eapply (ok_labels _ Hok).
  - intros [_ Hl]%lookup_delete_Some. by eapply (ok_labels _ Hok).
Qed.

(** The open operations after one more record. *)
Lemma open_in_snoc record lane r :
  (forall x, x ∈ records st -> r_seq x < r_seq record) ->
  open_in (records st ++ [record]) lane r <->
  (open_in (records st) lane r /\ ~ finishes record r) \/
  (r = record /\ record_type record = Toperation_started /\ r_lane record = lane).
Proof.
  intros Hlt. unfold open_in. setoid_rewrite elem_of_app. setoid_rewrite list_elem_of_singleton. split.
  - intros ([Hr| ->] & Ht & Hl & Hf); [left|right; done]. split_and!; [done..| |].
    + intros f Hf'. by apply Hf; left.
    + intros Hfin. specialize (Hf record (or_intror eq_refl) Hfin). specialize (Hlt r Hr). lia.
  - intros [[(Hr & Ht & Hl & Hf) Hn]|(-> & Ht & Hl)].
    + split_and!; [by left|done..|]. intros f [Hf'| ->] Hfin; [by apply Hf|done].
    + split_and!; [by right|done..|]. intros f [Hf'| ->] Hfin; [by apply Hlt|].
      destruct Hfin as (_ & ? & ? & Hb). unfold record_type in Ht. by rewrite Hb in Ht.
Qed.

(** Every lane keeps the list of its open operations, oldest first. *)
Lemma preserve_open record lane :
  r_seq record = sequence st + 1 -> r_id record ∉ usedIds st ->
  let ops := default [] (trackOperation record (openOperationsByLane st) !! lane) in
  NoDup (JsMap.keys ops) /\ sorted_by r_seq (JsMap.values ops) /\
  forall id r, JsMap.get id ops = Some r <-> open_in (records st ++ [record]) lane r /\ r_id r = id.
Proof.
  intros Hseq [_ Hfresh]%fresh_id. destruct (ok_record_seq _ Hok) as [_ Hb]. rewrite Forall_forall in Hb.
  assert (forall x, x ∈ records st -> r_seq x < r_seq record) as Hlt by (intros x Hx; specialize (Hb x Hx); lia).
  destruct (ok_open _ Hok lane) as (Hnd & Hs & Hget). cbv zeta in *. unfold trackOperation.
  assert (record_type record <> Toperation_started -> (forall r, open_in (records st) lane r -> ~ finishes record r) ->
    forall id r, JsMap.get id (default [] (openOperationsByLane st !! lane)) = Some r <->
      open_in (records st ++ [record]) lane r /\ r_id r = id) as Hsame.
  { intros Hns Hnf id r. rewrite Hget, open_in_snoc by done. specialize (Hnf r). naive_solver. }
  destruct (r_body record) as [src intent| |runId outcome err| | | | | |] eqn:Hbody;
    try (split_and!; [done|done|apply Hsame]; [unfold record_type; by rewrite Hbody|];
         intros r _ (_ & ? & ? & Heq); rewrite Hbody in Heq; done).
  - destruct (decide (r_lane record = lane)) as [<-|Hne].
    2:{ rewrite lookup_insert_ne by done. split_and!; [done..|]. intros id r. rewrite Hget, open_in_snoc by done.
        assert (~ finishes record r) by (intros (_ & ? & ? & Heq); by rewrite Hbody in Heq). naive_solver. }
    rewrite lookup_insert_eq. cbn [default Datatypes.id].
    assert (JsMap.get (r_id record) (default [] (openOperationsByLane st !! r_lane record)) = None) as Hnew.
    { destruct (JsMap.get _ _) as [r|] eqn:Hg; [|done]. apply Hget in Hg as [[Hr _] Heq].
      destruct Hfresh. rewrite <- Heq. apply list_elem_of_fmap. by exists r. }
    split_and!; [by apply JsMap.set_keys_NoDup| |].
    + apply values_sorted_set; [done..|]. intros r (id & Hg)%values_get; [|done].
      apply Hget in Hg as [[Hr _] _]. by apply Hlt.
    + intros id r. rewrite JsMap.get_set, open_in_snoc by done.
      assert (forall x, ~ finishes record x) as Hnf by (intros x (_ & ? & ? & Heq); by rewrite Hbody in Heq).
      assert (record_type record = Toperation_started) as Ht by (unfold record_type; by rewrite Hbody).
      case_decide as Heq; [|rewrite Hget; specialize (Hnf r); naive_solver].
      split; [intros [= <-]; naive_solver|]. intros [[[Hopen _]|[-> _]] Hid]; [|done].
      destruct Hfresh. rewrite <- Heq, <- Hid. apply list_elem_of_fmap. exists r. split; [done|apply Hopen].
  - destruct (openOperationsByLane st !! r_lane record) as [ops|] eqn:Hops.
    2:{ split_and!; [done|done|apply Hsame]; [unfold record_type; by rewrite Hbody|].
        intros r Hr (Hl & _). pose proof Hr as (_ & _ & Hlr & _). rewrite Hl, Hlr in Hops.
        pose proof (proj2 (Hget (r_id r) r) (conj Hr eq_refl)) as Hbad. by rewrite Hops in Hbad. }
    destruct (decide (r_lane record = lane)) as [<-|Hne].
    2:{ rewrite lookup_insert_ne by done. split_and!; [done|done|apply Hsame]; [unfold record_type; by rewrite Hbody|].
        intros r (_ & _ & Hl & _) (Hl' & _). congruence. }
    rewrite lookup_insert_eq. rewrite Hops in *. cbn [default Datatypes.id] in *.
    split_and!; [by apply JsMap.delete_keys_NoDup|by apply values_sorted_delete|].
    intros id r. rewrite JsMap.get_delete, open_in_snoc by done. unfold finishes. rewrite Hbody.
    assert (record_type record <> Toperation_started) by (unfold record_type; by rewrite Hbody).
    case_decide as Heq; [subst id|rewrite Hget]; [split; [done|]|].
    + intros [[[Hr Hnf]|[_ [? _]]] Hid]; [|done]. destruct Hnf. rewrite Hid. destruct Hr as (_ & _ & -> & _).
      split; [done|by eexists _, _].
    + split; [|naive_solver]. intros [Hr Hid]. split; [left|done]. split; [done|].
      intros (_ & ? & ? & [= Hrun _ _]). congruence.
Qed.

Lemma preserve_record record :
  r_seq record = sequence st + 1 -> applyRecord invalid record st = Ok st' -> state_ok st'.
Proof.
  intros Hseq (_ & Hlane%throw_if_Ok%negb_false_iff & (_ & Hid%throw_if_Ok%bool_decide_eq_false & [= <-])%bind_Ok)%bind_Ok.
  pose proof (fresh_id _ Hid) as [Hfe Hfr]. pose proof (ok_sequence _ Hok). pose proof seqs_keep as [He [Hs Hb]].
  destruct (ok_record_seq _ Hok) as [_ Hlt]. rewrite Forall_forall in Hlt. rewrite Hseq.
  split; cbn [sequence usedIds entries entriesById records openOperationsByLane lanes log stats name labels];
    try (by apply Hok); try exact He.
  - lia.
  - by apply log_seq_next.
  - by rewrite (ok_log_entries _ Hok), omap_app, app_nil_r.
  - by rewrite (ok_log_records _ Hok), omap_app.
  - rewrite map_app, app_assoc. apply NoDup_app. cbn. split_and!; [apply Hok| |apply NoDup_singleton].
    intros x Hx ->%list_elem_of_singleton. apply elem_of_app in Hx. naive_solver.
  - intros id. rewrite map_app, elem_of_union, elem_of_singleton, (ok_usedIds _ Hok), !elem_of_app. cbn.
    rewrite list_elem_of_singleton. naive_solver.
  - split; [apply sorted_snoc; [done|]; intros y Hy; specialize (Hlt _ Hy); lia|].
    apply Forall_app. split; [done|]. repeat constructor; lia.
  - intros r [Hr|Hr%list_elem_of_singleton]%elem_of_app; [by apply (ok_record_lanes _ Hok)|by subst].
  - intros lane. by apply preserve_open.
  - rewrite (ok_stats _ Hok). unfold stats_of. by rewrite foldl_app.
Qed.

Lemma preserve_mutation m : applyMutation invalid m st = Ok st' -> state_ok st' /\ sequence st' = sequence st + 1.
Proof.
  unfold applyMutation. intros (_ & Hseq%throw_if_Ok & H)%bind_Ok. assert (mutation_seq m = sequence st + 1) as Hs by lia.
  destruct m; cbn in Hs.
  - split; [by eapply preserve_entry|]. by apply bind_Ok in H as (? & _ & (? & _ & (? & _ & [= <-])%bind_Ok)%bind_Ok).
  - split; [by eapply preserve_record|]. by apply bind_Ok in H as (? & _ & (? & _ & [= <-])%bind_Ok).
  - split; [by eapply preserve_lane|]. by apply bind_Ok in H as (? & _ & [= <-]).
  - split; [by eapply preserve_name|]. by injection H as <-.
  - split; [by eapply preserve_label|]. by apply bind_Ok in H as (? & _ & [= <-]).
Qed.
End preserve.
