(* ===== verification/SessionReads.v ===== *)
(** What the reads of a session state return, in every state the invariant
    allows: queries are filters in sequence order cut at the limit, a branch is
    the chain of parents of its leaf, and walking it ends at the root. *)
From S2P Require Import Prelude JsNumber JsTree Messages SessionTypes SessionState SessionInvariant.
Local Open Scope Z_scope.

(** ** Limits *)

(** The limit of a valid query. *)
Definition limit_value (limit : option jsnum) : option nat :=
  n ← limit; z ← num_to_Z n; Some (Z.to_nat z).

Definition take_limit {A} (limit : option jsnum) (l : list A) : list A :=
  match limit_value limit with Some n => take n l | None => l end.

Definition valid_query (limit afterSeq : option jsnum) : bool :=
  is_ok (assertValidLimit limit) && is_ok (assertValidCursor afterSeq).

Lemma assertValidLimit_pos limit :
  is_ok (assertValidLimit limit) = true <->
  match limit with None => True | Some n => exists z, num_to_Z n = Some z /\ 0 < z end.
Proof.
  unfold assertValidLimit, throw_if. destruct limit as [n|]; [|done]. destruct (num_to_Z n) as [z|].
  - destruct (z <=? 0) eqn:Hz; cbn; split; try done; [intros (? & [= <-] & ?); lia|]. intros _. exists z. split; [done|lia].
  - cbn. split; [done|by intros (? & ? & _)].
Qed.

Lemma assertValidCursor_nonneg afterSeq :
  is_ok (assertValidCursor afterSeq) = true <->
  match afterSeq with None => True | Some n => exists z, num_to_Z n = Some z /\ 0 <= z end.
Proof.
  unfold assertValidCursor, throw_if. destruct afterSeq as [n|]; [|done]. destruct (num_to_Z n) as [z|].
  - destruct (z <? 0) eqn:Hz; cbn; split; try done; [intros (? & [= <-] & ?); lia|]. intros _. exists z. split; [done|lia].
  - cbn. split; [done|by intros (? & ? & _)].
Qed.

(** An invalid query is rejected before anything is read. *)
Lemma checked {A} limit afterSeq (r : result session_error A) :
  (assertValidLimit limit;; assertValidCursor afterSeq;; r) =
  if valid_query limit afterSeq then r
  else Err (SessionError invalid_query (if is_ok (assertValidLimit limit)
         then "cursor sequence must be a non-negative integer" else "limit must be a positive integer")).
Proof.
  unfold valid_query, assertValidLimit, assertValidCursor, throw_if.
  destruct limit as [n|]; [destruct (num_to_Z n) as [z|]; [destruct (z <=? 0)|]|];
    (destruct afterSeq as [m|]; [destruct (num_to_Z m) as [w|]; [destruct (w <? 0)|]|]); reflexivity.
Qed.

(** Room for more results. *)
Definition below (limit : option jsnum) {A} (l : list A) : Prop :=
  match limit with Some n => exists z, num_to_Z n = Some z /\ Z.of_nat (length l) < z | None => True end.

Lemma below_nil {A} limit : is_ok (assertValidLimit limit) = true -> below limit (@nil A).
Proof. rewrite assertValidLimit_pos. unfold below. by destruct limit. Qed.

Lemma at_limit_snoc {A} limit (l : list A) x : below limit l ->
  if at_limit limit (l ++ [x]) then forall more, take_limit limit (l ++ x :: more) = l ++ [x]
  else below limit (l ++ [x]).
Proof.
  unfold below, at_limit, take_limit, limit_value. destruct limit as [n|]; [|done]. intros (z & Hz & Hlt). cbn.
  rewrite Hz. cbn. rewrite length_app. cbn [length]. case_bool_decide as Heq.
  - intros more. injection Heq as Heq. rewrite cons_middle, app_assoc, take_app_le by (rewrite length_app; cbn; lia).
    apply take_ge. rewrite length_app. cbn. lia.
  - exists z. split; [done|]. assert (z <> Z.of_nat (length l + 1)) by congruence. lia.
Qed.

Lemma at_limit_below {A} limit (l : list A) : below limit l -> at_limit limit l = false.
Proof.
  unfold below, at_limit. destruct limit as [n|]; [|done]. intros (z & -> & Hlt).
  apply bool_decide_eq_false. intros [= ->]. lia.
Qed.

Lemma take_limit_below {A} limit (l : list A) : below limit l -> take_limit limit l = l.
Proof.
  unfold below, take_limit, limit_value. destruct limit as [n|]; [|done]. intros (z & Hz & Hlt). cbn.
  rewrite Hz. cbn. apply take_ge. lia.
Qed.

(** The loop of the queries: the matches, cut at the limit. *)
Lemma scan_filter {T} (matches : T -> bool) limit items : forall results,
  below limit results ->
  scan matches limit results items = take_limit limit (results ++ List.filter matches items).
Proof.
  induction items as [|item items IH]; intros results Hb; cbn [scan List.filter].
  { by rewrite app_nil_r, take_limit_below. }
  destruct (matches item); [|by apply IH].
  pose proof (at_limit_snoc limit results item Hb) as Hl. destruct (at_limit _ _).
  - by rewrite Hl.
  - rewrite IH by done. by rewrite <- app_assoc.
Qed.

(** ** Branches *)

(** [chain byId e l]: [l] is the path from [e] to the root. *)
Inductive chain (byId : gmap string Entry) : Entry -> list Entry -> Prop :=
  | chain_root e : e_parentId e = None -> chain byId e [e]
  | chain_step e p e' l : e_parentId e = Some p -> byId !! p = Some e' -> chain byId e' l -> chain byId e (e :: l).

(** The items up to the first that stops, inclusive. *)
Fixpoint take_until {A} (stops : A -> bool) (l : list A) : list A :=
  match l with
  | [] => []
  | a :: l' => if stops a then [a] else a :: take_until stops l'
  end.

Lemma take_until_never {A} (l : list A) : take_until (fun _ => false) l = l.
Proof. induction l as [|a l IH]; cbn; [done|]. by rewrite IH. Qed.

Section branch.
Context (st : SessionState) (Hok : state_ok st).

Lemma chain_exists e : e ∈ entries st -> exists l, chain (entriesById st) e l.
Proof.
  assert (forall n e, (Z.to_nat (e_seq e) <= n)%nat -> e ∈ entries st -> exists l, chain (entriesById st) e l) as Hind.
  { destruct (ok_entry_seq _ Hok) as [_ Hb]. rewrite Forall_forall in Hb.
    induction n as [|n IH]; intros e0 Hn He; pose proof (Hb _ He); [lia|].
    destruct (e_parentId e0) as [p|] eqn:Hp; [|exists [e0]; by constructor].
    destruct (ok_parents _ Hok e0 p He Hp) as (e' & He' & Hlt).
    destruct (IH e') as [l Hl]; [lia|by apply (ok_index _ Hok) in He' as [? _]|].
    exists (e0 :: l). by econstructor. }
  intros He. by eapply Hind.
Qed.

Lemma chain_entries e l : e ∈ entries st -> chain (entriesById st) e l ->
  Forall (fun x => x ∈ entries st /\ e_seq x <= e_seq e) l /\ StronglySorted (fun a b => e_seq b < e_seq a) l.
Proof.
  intros He Hc. induction Hc as [e Hp|e p e' l Hp He' Hc IH].
  { split; [apply Forall_singleton; split; [done|lia]|repeat constructor]. }
  destruct (ok_parents _ Hok e p He Hp) as (e'' & He'' & Hlt). rewrite He' in He''. simplify_eq.
  destruct IH as [Hall Hs]; [by apply (ok_index _ Hok) in He' as [? _]|].
  split; constructor.
  - split; [done|lia].
  - eapply Forall_impl; [exact Hall|]. cbn. intros x [? ?]. split; [done|lia].
  - done.
  - eapply Forall_impl; [exact Hall|]. cbn. intros x [? ?]. lia.
Qed.

Lemma chain_ids e l : e ∈ entries st -> chain (entriesById st) e l -> NoDup (map e_id l).
Proof.
  intros He Hc. destruct (chain_entries e l He Hc) as [Hall Hs]. clear Hc.
  induction Hs as [|x l Hs IH Hx]; cbn; [constructor|]. apply Forall_cons in Hall as [[Hxe _] Hall].
  apply NoDup_cons. split; [|by apply IH]. intros (y & Heq & Hy)%list_elem_of_fmap.
  rewrite Forall_forall in Hx, Hall. specialize (Hx y Hy). destruct (Hall y Hy) as [Hye _].
  pose proof (entry_by_id st x Hok Hxe) as H1. pose proof (entry_by_id st y Hok Hye) as H2. rewrite Heq in H1.
  simplify_eq. lia.
Qed.

Lemma chain_length e l : e ∈ entries st -> chain (entriesById st) e l -> (length l <= size (entriesById st))%nat.
Proof.
  intros He Hc. rewrite <- (length_map e_id). rewrite <- (size_dom (D:=gset string)).
  rewrite <- (size_list_to_set (C:=gset string)) by by eapply chain_ids. apply subseteq_size.
  intros x Hx%elem_of_list_to_set. apply list_elem_of_fmap in Hx as (y & -> & Hy). apply elem_of_dom.
  destruct (chain_entries e l He Hc) as [Hall _]. rewrite Forall_forall in Hall.
  exists y. apply entry_by_id; [done|]. by apply Hall.
Qed.

Lemma walk_chain stops e l : forall fuel visited,
  chain (entriesById st) e l -> NoDup (map e_id l) -> (forall x, x ∈ l -> e_id x ∉ visited) -> (length l <= fuel)%nat ->
  walk (entriesById st) stops fuel visited e = (take_until stops l, WDone).
Proof.
  intros fuel visited Hc. revert fuel visited.
  induction Hc as [e Hp|e p e' l Hp He' Hc IH]; intros fuel visited Hnd Hv Hlen; destruct fuel as [|fuel]; cbn in Hlen; try lia;
    cbn [walk take_until]; rewrite bool_decide_eq_false_2 by (apply Hv; left); destruct (stops e); try done; rewrite Hp; [done|].
  rewrite He'. cbn in Hnd. apply NoDup_cons in Hnd as [Hne Hnd]. rewrite IH; [done|done| |lia].
  intros x Hx. rewrite elem_of_union, elem_of_singleton. intros [Heq|Hin].
  - apply Hne. rewrite <- Heq. apply list_elem_of_fmap. by exists x.
  - by eapply Hv; [right|].
Qed.

Lemma walkToRoot_chain start stops e l :
  entriesById st !! start = Some e -> chain (entriesById st) e l ->
  walkToRoot (Some start) stops st = (take_until stops l, WDone).
Proof.
  intros He Hc. unfold walkToRoot. rewrite He. apply (ok_index _ Hok) in He as [He _].
  apply walk_chain; [done|by eapply chain_ids|intros x _; apply not_elem_of_empty|].
  pose proof (chain_length _ _ He Hc). lia.
Qed.
End branch.

Lemma scanBranch_filter matches limit items : forall results,
  below limit results ->
  scanBranch matches limit results items WDone = Ok (take_limit limit (results ++ List.filter matches items)).
Proof.
  induction items as [|item items IH]; intros results Hb; cbn [scanBranch List.filter].
  { cbn. by rewrite app_nil_r, take_limit_below. }
  cbv zeta. destruct (matches item).
  - pose proof (at_limit_snoc limit results item Hb) as Hl. destruct (at_limit _ _); [by rewrite Hl|].
    rewrite IH by done. by rewrite <- app_assoc.
  - rewrite at_limit_below by done. by apply IH.
Qed.

Lemma scanReversed_filter matches stops limit items : forall results,
  below limit results ->
  scanReversed matches stops limit results items =
  take_limit limit (results ++ List.filter matches (take_until stops items)).
Proof.
  induction items as [|item items IH]; intros results Hb; cbn [scanReversed take_until List.filter].
  { by rewrite app_nil_r, take_limit_below. }
  cbv zeta. destruct (stops item) eqn:Hs; cbn [orb List.filter].
  - destruct (matches item); [|by rewrite app_nil_r, take_limit_below].
    pose proof (at_limit_snoc limit results item Hb) as Hl.
    destruct (at_limit limit (results ++ [item])); [by rewrite Hl|by rewrite take_limit_below].
  - destruct (matches item).
    + pose proof (at_limit_snoc limit results item Hb) as Hl. destruct (at_limit _ _); [by rewrite Hl|].
      rewrite IH by done. by rewrite <- app_assoc.
    + rewrite at_limit_below by done. by apply IH.
Qed.

(** ** The queries *)

Lemma findEntries_ok q st :
  valid_query (q_limit q) (q_cursor q) = true ->
  findEntries q st =
    Ok (take_limit (q_limit q) (List.filter (matchesEntryQuery q) (ordered (entries st) (q_order q)))).
Proof.
  intros Hv. unfold findEntries. rewrite checked, Hv. f_equal. apply (scan_filter _ _ _ []).
  apply below_nil. by apply andb_true_iff in Hv as [? _].
Qed.

Lemma findRecords_ok q st :
  valid_query (rq_limit q) (rq_afterSeq q) = true ->
  findRecords q st =
    Ok (take_limit (rq_limit q) (List.filter (matchesRecordQuery q) (ordered (records st) (rq_order q)))).
Proof.
  intros Hv. unfold findRecords. rewrite checked, Hv. f_equal. apply (scan_filter _ _ _ []).
  apply below_nil. by apply andb_true_iff in Hv as [? _].
Qed.

Lemma findEntriesOnBranch_ok q b start e l st :
  state_ok st -> valid_query (q_limit q) (q_cursor q) = true ->
  entriesById st !! start = Some e -> chain (entriesById st) e l ->
  findEntriesOnBranch q b start st =
    Ok (take_limit (q_limit q) (List.filter (matchesEntryQuery q)
      (take_until (reachedBound b) (if decide (q_order q = Some oldestFirst) then rev l else l)))).
Proof.
  intros Hok Hv He Hc. unfold findEntriesOnBranch. rewrite checked, Hv. apply andb_true_iff in Hv as [Hlim _].
  case_bool_decide; case_decide; try done;
    rewrite (walkToRoot_chain st Hok start _ e l) by done; rewrite ?take_until_never.
  - cbn. by rewrite (scanReversed_filter _ _ _ _ []) by by apply below_nil.
  - by rewrite (scanBranch_filter _ _ _ []) by by apply below_nil.
Qed.

(** Open operations are listed newest first. *)
Lemma findOpenOperations_ok lane limit st :
  state_ok st -> is_ok (assertValidLimit limit) = true ->
  exists ops, findOpenOperations lane limit st = Ok (take_limit limit (rev ops)) /\
    sorted_by r_seq ops /\ forall r, r ∈ ops <-> open_in (records st) lane r.
Proof.
  intros Hok Hlim. destruct (ok_open _ Hok lane) as (Hnd & Hs & Hget). cbv zeta in *.
  exists (JsMap.values (default [] (openOperationsByLane st !! lane))). split_and!; [|done|].
  - pose proof Hlim as Hpos%assertValidLimit_pos. unfold findOpenOperations.
    destruct (assertValidLimit limit) as [[]|]; [|done]. cbn [mbind result_bind].
    f_equal. unfold take_limit, limit_value.
    assert (match openOperationsByLane st !! lane with Some ops => rev (JsMap.values ops) | None => [] end =
      rev (JsMap.values (default [] (openOperationsByLane st !! lane)))) as -> by by destruct (_ !! lane).
    destruct limit as [n|]; [|done]. destruct Hpos as (z & Hz & _). cbn. by rewrite Hz.
  - intros r. split.
    + intros (id & Hg)%values_get; [|done]. by apply Hget in Hg as [? _].
    + intros Hr. pose proof (proj2 (Hget (r_id r) r) (conj Hr eq_refl)) as Hg%JsMap.get_Some_elem.
      apply list_elem_of_fmap. by exists (r_id r, r).
Qed.
