(* ===== verification/SessionFork.v ===== *)
(** Forks: the mutations [createForkMutations] makes replay on a new session,
    which then holds the copied entries, the lanes, the name and the labels. *)
From S2P Require Import Prelude JsNumber JsTree Messages SessionTypes SessionState SessionInvariant SessionReads.
Local Open Scope Z_scope.

(** The entries with consecutive sequence numbers. *)
Fixpoint renumber (seq : Z) (es : list Entry) : list Entry :=
  match es with
  | [] => []
  | e :: es' => set_seq seq e :: renumber (seq + 1) es'
  end.

Lemma renumber_ids seq es : map e_id (renumber seq es) = map e_id es.
Proof. revert seq. induction es as [|e es IH]; intros seq; cbn; [done|]. by rewrite IH. Qed.

Lemma numbered_app seq xs ys :
  numbered seq (xs ++ ys) = numbered seq xs ++ numbered (seq + Z.of_nat (length xs)) ys.
Proof.
  revert seq. induction xs as [|x xs IH]; intros seq; cbn [app numbered length].
  - by rewrite Z.add_0_r.
  - rewrite IH. do 2 f_equal. f_equal. lia.
Qed.

(** Every parent comes before its children. *)
Definition closed (es : list Entry) : Prop :=
  NoDup (map e_id es) /\
  forall pre e post p, es = pre ++ e :: post -> e_parentId e = Some p -> p ∈ map e_id pre.

Lemma closed_entries st : state_ok st -> closed (entries st).
Proof.
  intros Hok. split; [pose proof (ok_ids _ Hok) as Hnd; by apply NoDup_app in Hnd as [? _]|].
  intros pre e post p Heq Hp. assert (e ∈ entries st) as He by (rewrite Heq; set_solver).
  destruct (ok_parents _ Hok e p He Hp) as (e' & He' & Hlt).
  apply (ok_index _ Hok) in He' as [Hin <-]. destruct (ok_entry_seq _ Hok) as [Hs _]. rewrite Heq in Hin, Hs.
  apply elem_of_app in Hin as [Hin|Hin]; [apply list_elem_of_fmap; by exists e'|].
  apply StronglySorted_app in Hs as (_ & _ & Hs). apply StronglySorted_cons in Hs as [Hs _]. rewrite Forall_forall in Hs.
  apply elem_of_cons in Hin as [->|Hin]; [lia|]. specialize (Hs _ Hin). lia.
Qed.

Lemma closed_snoc l e :
  closed l -> e_id e ∉ map e_id l -> (forall p, e_parentId e = Some p -> p ∈ map e_id l) -> closed (l ++ [e]).
Proof.
  intros [Hnd Hc] Hfresh Hp. split.
  - rewrite map_app. apply NoDup_app. cbn. split_and!; [done| |apply NoDup_singleton].
    by intros x Hx ->%list_elem_of_singleton.
  - intros pre x post q Heq Hq. destruct post as [|y post _] using rev_ind.
    + apply app_inj_tail in Heq as [-> ->]. by apply Hp.
    + rewrite app_comm_cons, app_assoc in Heq. apply app_inj_tail in Heq as [-> ->]. by eapply Hc.
Qed.

Lemma chain_head byId e l : chain byId e l -> exists l', l = e :: l'.
Proof. inversion 1; eauto. Qed.

Lemma closed_chain st e l : state_ok st -> e ∈ entries st -> chain (entriesById st) e l -> closed (rev l).
Proof.
  intros Hok He Hc. pose proof (chain_ids st Hok e l He Hc) as Hnd.
  induction Hc as [e Hp|e p e' l Hp He' Hc IH]; cbn [rev].
  - apply (closed_snoc []); [|apply not_elem_of_nil|congruence].
    split; [constructor|]. intros [] ? ? ? [=].
  - apply (ok_index _ Hok) in He' as [He' Hid]. cbn in Hnd. apply NoDup_cons in Hnd as [Hne Hnd].
    apply closed_snoc; [by apply IH| |].
    + by rewrite map_rev, elem_of_rev.
    + intros q Hq. rewrite Hp in Hq. injection Hq as <-. apply chain_head in Hc as [l' ->].
      rewrite <- Hid. rewrite map_rev. cbn. rewrite elem_of_app, list_elem_of_singleton. auto.
Qed.

(** ** Replay *)

Section replay.
Context (invalid : string -> session_error).

(** A state of a session under construction: only entries so far. *)
Definition fresh_with (es : list Entry) (st : SessionState) : Prop :=
  state_ok st /\ entries st = es /\ records st = [] /\ lanes st = [("main", None)] /\ name st = None /\ labels st = ∅ /\
  sequence st = Z.of_nat (length es).

Lemma apply_step m st st' ms :
  applyMutation invalid m st = Ok st' -> applyMutations invalid (m :: ms) st = applyMutations invalid ms st'.
Proof. unfold applyMutations. cbn. by intros ->. Qed.

Lemma used_fresh st es id : fresh_with es st -> id ∈ usedIds st <-> id ∈ map e_id es.
Proof. intros (Hok & <- & Hr & _). by rewrite (ok_usedIds _ Hok), Hr, app_nil_r. Qed.

Lemma replay_entry es st e :
  fresh_with es st -> e_id e ∉ map e_id es -> (forall p, e_parentId e = Some p -> p ∈ map e_id es) ->
  exists st', applyMutation invalid (MutEntry None (set_seq (Z.of_nat (length es) + 1) e)) st = Ok st' /\
    fresh_with (es ++ [set_seq (Z.of_nat (length es) + 1) e]) st'.
Proof.
  intros Hf Hid Hp. pose proof Hf as (Hok & Hes & Hr & Hl & Hn & Hlb & Hs).
  destruct (applyMutation invalid _ st) as [st'|err] eqn:Happ.
  - exists st'. split; [done|]. destruct (preserve_mutation _ _ _ Hok _ Happ) as [Hok' _]. revert Happ.
    unfold applyMutation, applyEntry. cbn [mutation_seq set_seq e_seq e_id e_parentId].
    intros (_ & _ & (_ & _ & (_ & _ & (? & _ & Heq)%bind_Ok)%bind_Ok)%bind_Ok)%bind_Ok. injection Heq as <-.
    split; [exact Hok'|]. cbn. rewrite Hes, length_app. cbn. split_and!; try done. lia.
  - exfalso. revert Happ. unfold applyMutation, applyEntry, throw_if. cbn [mutation_seq set_seq e_seq e_id e_parentId].
    rewrite Hs. if_lia. cbn [mbind result_bind].
    assert (e_id e ∉ usedIds st) as Hfree by by rewrite (used_fresh st es).
    rewrite (bool_decide_eq_false_2 _ Hfree). cbn [mbind result_bind].
    destruct (e_parentId e) as [p|] eqn:Hpe; [|done].
    assert (has_entry p st = true) as ->; [|done]. apply has_entry_Some. specialize (Hp p eq_refl).
    apply list_elem_of_fmap in Hp as (x & -> & Hx). exists x. apply entry_by_id; [done|]. by rewrite Hes.
Qed.

Lemma replay_entries post : forall pre st,
  closed (pre ++ post) -> fresh_with (renumber 1 pre) st -> 
  exists st', applyMutations invalid (numbered (Z.of_nat (length pre) + 1) (map (fun e seq => MutEntry None (set_seq seq e)) post)) st = Ok st' /\
    fresh_with (renumber 1 (pre ++ post)) st'.
Proof.
  assert (forall es seq, length (renumber seq es) = length es) as Hlen.
  { induction es; intros; cbn; congruence. }
  assert (forall es seq e, renumber seq (es ++ [e]) = renumber seq es ++ [set_seq (Z.of_nat (length es) + seq) e]) as Hsnoc.
  { induction es as [|x es IH]; intros seq e; cbn [app renumber length]; [done|]. rewrite IH. do 4 f_equal. lia. }
  induction post as [|e post IH]; intros pre st Hc Hf; cbn [map numbered].
  { exists st. by rewrite app_nil_r. }
  destruct (replay_entry _ _ e Hf) as (st1 & Happ & Hf1).
  - rewrite renumber_ids. destruct Hc as [Hnd _]. rewrite map_app in Hnd. cbn in Hnd.
    apply NoDup_app in Hnd as (_ & Hd & _). intros Hin. apply (Hd _ Hin). left.
  - intros p Hp. rewrite renumber_ids. by eapply (proj2 Hc).
  - rewrite Hlen in Happ, Hf1. rewrite <- Hsnoc in Hf1. rewrite cons_middle, app_assoc in Hc.
    destruct (IH _ _ Hc Hf1) as (st' & Happ' & Hf'). exists st'. rewrite <- app_assoc in Hf'. split; [|done].
    rewrite (apply_step _ _ _ _ Happ), <- Happ'. do 2 f_equal. rewrite length_app. cbn. lia.
Qed.

(** After the entries only the lanes, the name and the labels change. *)
Definition same_entries (st st' : SessionState) : Prop :=
  state_ok st' /\ entries st' = entries st /\ records st' = records st /\ entriesById st' = entriesById st.

Lemma same_entries_trans st1 st2 st3 : same_entries st1 st2 -> same_entries st2 st3 -> same_entries st1 st3.
Proof. unfold same_entries. intros (? & ? & ? & ?) (? & ? & ? & ?). split_and!; congruence || done. Qed.

Lemma replay_lanes ps : forall st seq,
  state_ok st -> seq = sequence st + 1 -> Forall (fun p => target_ok (entriesById st) (lp_leafId p)) ps ->
  exists st', applyMutations invalid (numbered seq (map (fun p seq => MutLane seq (lp_lane p) (lp_leafId p)) ps)) st = Ok st' /\
    same_entries st st' /\ sequence st' = sequence st + Z.of_nat (length ps) /\ name st' = name st /\ labels st' = labels st /\
    lanes st' = foldl (fun m p => JsMap.set (lp_lane p) (lp_leafId p) m) (lanes st) ps.
Proof.
  induction ps as [|p ps IH]; intros st seq Hok -> Hps; cbn [map numbered foldl length].
  { exists st. unfold same_entries. split_and!; (done || lia). }
  apply Forall_cons in Hps as [Hp Hps].
  destruct (applyMutation invalid (MutLane (sequence st + 1) (lp_lane p) (lp_leafId p)) st) as [st1|err] eqn:Happ.
  - destruct (preserve_mutation _ _ _ Hok _ Happ) as [Hok1 Hs1]. pose proof Happ as Happ0. revert Happ.
    unfold applyMutation, applyLane. cbn [mutation_seq].
    intros (_ & _ & (_ & _ & Heq)%bind_Ok)%bind_Ok. injection Heq as Heq.
    destruct (IH st1 (sequence st + 1 + 1)) as (st' & Happ' & Hse & Hs & Hn & Hlb & Hl); [done|lia|by subst st1|].
    exists st'. rewrite (apply_step _ _ _ _ Happ0). subst st1. cbn in *.
    split_and!; [done|eapply same_entries_trans; [|exact Hse]; done|lia|done..].
  - exfalso. revert Happ. unfold applyMutation, applyLane, throw_if. cbn [mutation_seq]. if_lia. cbn.
    destruct (lp_leafId p) as [id|]; [|done]. assert (has_entry id st = true) as ->; [|done]. by apply has_entry_Some.
Qed.

Lemma replay_labels ls : forall st seq,
  state_ok st -> seq = sequence st + 1 -> Forall (fun p => is_Some (entriesById st !! p.1)) ls -> NoDup ls.*1 ->
  exists st', applyMutations invalid (numbered seq (map (fun (p : string * string) seq => MutLabel seq p.1 (Some p.2)) ls)) st = Ok st' /\
    same_entries st st' /\ name st' = name st /\ lanes st' = lanes st /\ labels st' = list_to_map ls ∪ labels st.
Proof.
  induction ls as [|[id l] ls IH]; intros st seq Hok -> Hls Hnd; cbn [map numbered].
  { exists st. unfold same_entries. split_and!; try done. cbn. by rewrite (left_id_L ∅ (∪)). }
  apply Forall_cons in Hls as [Hid Hls]. cbn in Hnd. apply NoDup_cons in Hnd as [Hnew Hnd]. cbn [fst snd] in *.
  destruct (applyMutation invalid (MutLabel (sequence st + 1) id (Some l)) st) as [st1|err] eqn:Happ.
  - destruct (preserve_mutation _ _ _ Hok _ Happ) as [Hok1 Hs1]. pose proof Happ as Happ0. revert Happ.
    unfold applyMutation, applyLabel. cbn [mutation_seq].
    intros (_ & _ & (_ & _ & Heq)%bind_Ok)%bind_Ok. injection Heq as Heq.
    destruct (IH st1 (sequence st + 1 + 1)) as (st' & Happ' & Hse & Hn & Hl & Hlb); [done|lia|by subst st1|done|].
    exists st'. rewrite (apply_step _ _ _ _ Happ0). subst st1. cbn in *.
    split_and!; [done|eapply same_entries_trans; [|exact Hse]; done|done..|].
    rewrite Hlb, <- insert_union_r by by apply not_elem_of_list_to_map_1. by rewrite insert_union_l.
  - exfalso. revert Happ. unfold applyMutation, applyLabel, throw_if. cbn [mutation_seq]. if_lia. cbn.
    assert (has_entry id st = true) as ->; [|done]. by apply has_entry_Some.
Qed.
End replay.

(** ** The fork *)

(** What a fork copies: everything, or the branch that ends at the target. *)
Definition fork_copies (options : ForkOptions) (st : SessionState) (es : list Entry) (ps : list LanePointer) : Prop :=
  match options with
  | ForkTree => es = entries st /\ ps = getLanes st
  | ForkBranch entryId position =>
      exists target, forkTarget entryId position st = Ok target /\ ps = [mkLanePointer "main" target] /\
      match target with
      | None => es = []
      | Some t => exists e l, entriesById st !! t = Some e /\ chain (entriesById st) e l /\ es = rev l
      end
  end.

Lemma list_filter_true {A} (l : list A) : List.filter (fun _ => true) l = l.
Proof. induction l; cbn; congruence. Qed.

Lemma all_entries_match o e : matchesEntryQuery (all_entries_query o) e = true.
Proof. done. Qed.

Lemma forkTarget_ok entryId position st target :
  state_ok st -> forkTarget entryId position st = Ok target -> target_ok (entriesById st) target.
Proof.
  intros Hok (sel & Hsel & H)%bind_Ok. destruct sel as [id|]; [|by injection H as <-].
  apply bind_Ok in H as (e & He%or_throw_Ok & (_ & _ & Heq)%bind_Ok). injection Heq as <-.
  unfold getEntry in He. apply (ok_index _ Hok) in He as [He <-]. destruct (default _ position).
  - cbn. destruct (e_parentId e) as [p|] eqn:Hp; [|done]. destruct (ok_parents _ Hok e p He Hp) as (e' & ? & _). by exists e'.
  - exists e. by apply entry_by_id.
Qed.

Lemma forkSelection_ok options st es ps :
  state_ok st -> forkSelection options st = Ok (es, ps) ->
  fork_copies options st es ps /\ closed es /\ (forall e, e ∈ es -> e ∈ entries st) /\
  Forall (fun p => match lp_leafId p with Some id => id ∈ map e_id es | None => True end) ps.
Proof.
  intros Hok. destruct options as [entryId position|]; cbn [forkSelection fork_copies].
  - intros (target & Ht & (copied & Hc & Heq)%bind_Ok)%bind_Ok. injection Heq as <- <-.
    pose proof (forkTarget_ok _ _ _ _ Hok Ht) as Htok. destruct target as [t|].
    + destruct Htok as [e He]. pose proof He as Hin. apply (ok_index _ Hok) in Hin as [Hin Hid].
      destruct (chain_exists st Hok e Hin) as [l Hl].
      rewrite (findEntriesOnBranch_ok _ _ t e l) in Hc by done. injection Hc as <-. cbn.
      rewrite take_until_never. unfold take_limit, limit_value. cbn. rewrite list_filter_true.
      split_and!; [exists (Some t); split_and!; [done..|by exists e, l]|by eapply closed_chain| |].
      * intros x. rewrite elem_of_rev. intros Hx. destruct (chain_entries st Hok e l Hin Hl) as [Hall _].
        rewrite Forall_forall in Hall. exact (proj1 (Hall x Hx)).
      * apply Forall_singleton. cbn. apply chain_head in Hl as [l' ->]. rewrite map_rev, elem_of_rev, <- Hid. left.
    + injection Hc as <-. split; [by exists None|split; [|split; [|by apply Forall_singleton]]].
      * split; [constructor|]. intros [] ? ? ? [=].
      * intros e He. by apply elem_of_nil in He.
  - intros (copied & Hc & Heq)%bind_Ok. injection Heq as <- <-. rewrite findEntries_ok in Hc by done.
    injection Hc as <-. unfold take_limit, limit_value. cbn. rewrite list_filter_true.
    split; [done|split; [by apply closed_entries|split; [done|]]]. unfold getLanes. apply Forall_map, Forall_forall.
    intros [lane leaf] Hin. cbn. destruct (ok_lanes _ Hok) as (Hnd & _ & Hl).
    apply JsMap.elem_get in Hin; [|done]. apply Hl in Hin. destruct leaf as [id|]; [|done].
    destruct Hin as [e He]. apply (ok_index _ Hok) in He as [He <-]. apply list_elem_of_fmap. by exists e.
Qed.

Lemma lanes_foldl ps : forall m lane,
  JsMap.get lane (foldl (fun m p => JsMap.set (lp_lane p) (lp_leafId p) m) m ps) =
  match JsMap.get lane (rev (map (fun p => (lp_lane p, lp_leafId p)) ps)) with
  | Some leaf => Some leaf
  | None => JsMap.get lane m
  end.
Proof.
  induction ps as [|p ps IH]; intros m lane; [done|]. cbn [foldl map rev]. rewrite IH, JsMap.get_set.
  assert (forall (a b : list (string * option string)) k, JsMap.get k (a ++ b) =
    match JsMap.get k a with Some v => Some v | None => JsMap.get k b end) as Happ.
  { induction a as [|[k1 v1] a IHa]; intros b k; cbn; [done|]. case_decide; [done|apply IHa]. }
  rewrite Happ. destruct (JsMap.get lane (rev _)); [done|]. cbn. by case_decide.
Qed.

Lemma get_rev {V} (m : list (string * V)) k : NoDup (JsMap.keys m) -> JsMap.get k (rev m) = JsMap.get k m.
Proof.
  intros Hnd. assert (NoDup (JsMap.keys (rev m))) as Hnd' by (unfold JsMap.keys; by rewrite <- Permutation_rev).
  destruct (JsMap.get k m) as [v|] eqn:Hg.
  - apply JsMap.elem_get; [done|]. by apply elem_of_rev, JsMap.get_Some_elem.
  - apply JsMap.get_None. apply JsMap.get_None in Hg. unfold JsMap.keys in *. by rewrite <- Permutation_rev.
Qed.

(** The labels of the copied entries. *)
Definition copied_labels (st : SessionState) (es : list Entry) : list (string * string) :=
  omap (fun e => (fun l => (e_id e, l)) <$> labels st !! e_id e) es.

Lemma copied_labels_mutations st es :
  omap (fun e => match labels st !! e_id e with
                 | Some l => Some (fun seq => MutLabel seq (e_id e) (Some l))
                 | None => None
                 end) es =
  map (fun (p : string * string) seq => MutLabel seq p.1 (Some p.2)) (copied_labels st es).
Proof. induction es as [|e es IH]; cbn; [done|]. destruct (labels st !! e_id e); cbn; by rewrite IH. Qed.

Lemma copied_labels_keys st es : NoDup (map e_id es) -> NoDup (copied_labels st es).*1 /\
  forall id, id ∈ (copied_labels st es).*1 -> id ∈ map e_id es.
Proof.
  induction es as [|e es IH]; cbn; [intros; split; [constructor|done]|].
  intros [He Hnd]%NoDup_cons. destruct (IH Hnd) as [IHn IHs].
  destruct (labels st !! e_id e); cbn; [|split; [done|]; intros id Hid; right; by apply IHs].
  split; [apply NoDup_cons; split; [|done]; intros Hin; by apply He, IHs|].
  intros id [->|Hid]%elem_of_cons; [left|right; by apply IHs].
Qed.

Lemma copied_labels_lookup st es id : NoDup (map e_id es) ->
  (list_to_map (copied_labels st es) : gmap string string) !! id =
  if decide (id ∈ map e_id es) then labels st !! id else None.
Proof.
  induction es as [|e es IH]; cbn [map copied_labels omap list_omap]; [intros _; by rewrite decide_False by apply not_elem_of_nil|].
  intros [He Hnd]%NoDup_cons. specialize (IH Hnd). unfold copied_labels in IH. cbn.
  destruct (labels st !! e_id e) as [l|] eqn:Hl; cbn.
  - destruct (decide (e_id e = id)) as [<-|Hne].
    + rewrite lookup_insert_eq, decide_True by left. done.
    + rewrite lookup_insert_ne by done. rewrite IH. destruct (decide (id ∈ e_id e :: _)) as [Hin|Hin].
      * apply elem_of_cons in Hin as [->|Hin]; [done|]. by rewrite decide_True.
      * rewrite decide_False; [done|]. intros H. apply Hin. by right.
  - rewrite IH. destruct (decide (id ∈ e_id e :: _)) as [Hin|Hin].
    + apply elem_of_cons in Hin as [->|Hin]; [|by rewrite decide_True]. by rewrite decide_False.
    + rewrite decide_False; [done|]. intros H. apply Hin. by right.
Qed.

Lemma fresh_with_initial : fresh_with [] new_SessionState.
Proof. split; [apply state_ok_initial|done]. Qed.

Lemma renumber_lookup seq es e : e ∈ es -> exists e', e' ∈ renumber seq es /\ e_id e' = e_id e.
Proof.
  intros He. assert (e_id e ∈ map e_id (renumber seq es)) as Hin by (rewrite renumber_ids; by apply list_elem_of_fmap_2).
  apply list_elem_of_fmap in Hin as (e' & Heq & He'). by exists e'.
Qed.

Lemma copied_target st' es id : state_ok st' -> entries st' = renumber 1 es -> id ∈ map e_id es ->
  is_Some (entriesById st' !! id).
Proof.
  intros Hok Hes Hid. apply list_elem_of_fmap in Hid as (e & -> & He).
  destruct (renumber_lookup 1 es e He) as (e' & He' & <-). exists e'. apply entry_by_id; [done|]. by rewrite Hes.
Qed.

(** Replaying a selection: its entries, lanes, name and labels. *)
Lemma replay_selection invalid es ps nm ls :
  closed es -> Forall (fun p => match lp_leafId p with Some id => id ∈ map e_id es | None => True end) ps ->
  NoDup ls.*1 -> (forall id, id ∈ ls.*1 -> id ∈ map e_id es) ->
  exists st', applyMutations invalid (numbered 1
      (map (fun e seq => MutEntry None (set_seq seq e)) es ++
       map (fun p seq => MutLane seq (lp_lane p) (lp_leafId p)) ps ++
       match nm with Some n => [fun seq => MutName seq (Some n)] | None => [] end ++
       map (fun (p : string * string) seq => MutLabel seq p.1 (Some p.2)) ls)) new_SessionState = Ok st' /\
    state_ok st' /\ entries st' = renumber 1 es /\ records st' = [] /\ name st' = nm /\
    lanes st' = foldl (fun m p => JsMap.set (lp_lane p) (lp_leafId p) m) [("main", None)] ps /\
    labels st' = list_to_map ls.
Proof.
  intros Hc Hps Hnd Hls. rewrite !numbered_app. unfold applyMutations. rewrite mfold_app.
  destruct (replay_entries invalid es [] new_SessionState Hc fresh_with_initial) as (st1 & H1 & Hf1).
  cbn [app length] in H1, Hf1. change (Z.of_nat 0 + 1) with 1 in H1. unfold applyMutations in H1. rewrite H1. cbn [mbind result_bind].
  destruct Hf1 as (Hok1 & Hes1 & Hr1 & Hl1 & Hn1 & Hlb1 & Hs1).
  assert (forall seq (es : list Entry), length (renumber seq es) = length es) as Hlen.
  { intros seq es0. revert seq. induction es0; intros; cbn; congruence. }
  rewrite !length_map. rewrite Hlen in Hs1.
  destruct (replay_lanes invalid ps st1 (1 + Z.of_nat (length es))) as (st2 & H2 & (Hok2 & Hes2 & Hr2 & Hid2) & Hs2 & Hn2 & Hlb2 & Hl2);
    [done|lia| |].
  { eapply Forall_impl; [exact Hps|]. intros p Hp. cbv beta in Hp. unfold target_ok. destruct (lp_leafId p); [|done]. by apply (copied_target st1 es). }
  unfold applyMutations in H2. rewrite mfold_app, H2. cbn [mbind result_bind].
  set (seq3 := 1 + Z.of_nat (length es) + Z.of_nat (length ps)).
  assert (exists st3, mfold (fun st m => applyMutation invalid m st) st2
      (numbered seq3 match nm with Some n => [fun seq => MutName seq (Some n)] | None => [] end) = Ok st3 /\
    same_entries st2 st3 /\ name st3 = nm /\ lanes st3 = lanes st2 /\ labels st3 = labels st2 /\
    sequence st3 = sequence st2 + Z.of_nat (length match nm with Some n => [fun seq => MutName seq (Some n)] | None => [] end))
    as (st3 & H3 & (Hok3 & Hes3 & Hr3 & Hid3) & Hn3 & Hl3 & Hlb3 & Hs3).
  { destruct nm as [n|]; cbn [numbered mfold length].
    - unfold applyMutation. cbn [mutation_seq]. unfold throw_if. if_lia. cbn [mbind result_bind applyName].
      eexists. split; [reflexivity|]. unfold same_entries. cbn. split_and!; try done; [|lia].
      assert (seq3 = sequence st2 + 1) as Hseq by lia. by apply (preserve_name st2 _ Hok2 seq3 (Some n)).
    - exists st2. unfold same_entries. rewrite Hn2, Hn1. split_and!; try done. cbn. lia. }
  rewrite mfold_app, H3. cbn [mbind result_bind].
  destruct (replay_labels invalid ls st3 (seq3 + Z.of_nat (length match nm with Some n => [fun seq => MutName seq (Some n)] | None => [] end)))
    as (st4 & H4 & (Hok4 & Hes4 & Hr4 & Hid4) & Hn4 & Hl4 & Hlb4); [done|lia| |done|].
  { apply Forall_forall. intros p Hp. rewrite Hid3, Hid2. apply (copied_target st1 es); [done|done|].
    apply Hls, list_elem_of_fmap. by exists p. }
  unfold applyMutations in H4. exists st4. split_and!; [done|done|congruence..| |].
  - by rewrite Hl4, Hl3, Hl2, Hl1.
  - by rewrite Hlb4, Hlb3, Hlb2, Hlb1, (right_id_L ∅ (∪)).
Qed.

Lemma fork_replay invalid options st ms :
  state_ok st -> createForkMutations options st = Ok ms ->
  exists es ps st', fork_copies options st es ps /\ applyMutations invalid ms new_SessionState = Ok st' /\
    state_ok st' /\ entries st' = renumber 1 es /\ records st' = [] /\ name st' = name st /\
    (forall lane, JsMap.get lane (lanes st') =
       match options with
       | ForkTree => JsMap.get lane (lanes st)
       | ForkBranch _ _ => JsMap.get lane (map (fun p => (lp_lane p, lp_leafId p)) ps)
       end) /\
    (forall id, labels st' !! id = if decide (id ∈ map e_id es) then labels st !! id else None).
Proof.
  intros Hok ([es ps] & Hsel & Heq)%bind_Ok. injection Heq as <-.
  destruct (forkSelection_ok _ _ _ _ Hok Hsel) as (Hcopy & Hclosed & Hsub & Hps).
  destruct (copied_labels_keys st es (proj1 Hclosed)) as [Hnd Hls].
  destruct (replay_selection invalid es ps (name st) (copied_labels st es) Hclosed Hps Hnd Hls)
    as (st' & Happ & Hok' & Hes & Hr & Hn & Hl & Hlb).
  exists es, ps, st'. rewrite copied_labels_mutations. split_and!; try done.
  - intros lane. rewrite Hl, lanes_foldl. destruct options as [entryId position|].
    + destruct Hcopy as (target & _ & -> & _). cbn. by case_decide.
    + destruct Hcopy as [_ ->]. unfold getLanes. rewrite map_map. cbn.
      destruct (ok_lanes _ Hok) as (Hndl & Hmain & _).
      assert (map (fun x : string * option string => (x.1, x.2)) (lanes st) = lanes st) as ->.
      { clear. induction (lanes st) as [|[] l IH]; cbn; [done|]. by rewrite IH. }
      rewrite get_rev by done. destruct (JsMap.get lane (lanes st)) eqn:Hg; [done|]. case_decide as Hm; [|done].
      subst lane. unfold JsMap.has in Hmain. by rewrite Hg in Hmain.
  - intros id. rewrite Hlb. by apply copied_labels_lookup, Hclosed.
Qed.
