(* ===== verification/SessionStore.v ===== *)
(** Session storage: interface [SessionStorage] of
    [packages/agent/src/harness/session/types.ts] and its in-memory
    implementation, [packages/agent/src/harness/session/memory.ts].

    A method that writes returns the storage after the call or the thrown
    error; a storage that throws is unchanged.  [now] is what [Date.now()]
    returns.  What an implementation promises to its clients is the class
    [StorageLaws]. *)
From S2P Require Import Prelude JsNumber JsTree Messages SessionTypes SessionState SessionInvariant SessionReads SessionFork.
Local Open Scope Z_scope.

Class SessionStorage (S : Type) := {
  getMetadata : S -> SessionMetadata;
  storedLanes : S -> list LanePointer;
  createLane : string -> option string -> S -> result session_error S;
  moveLane : string -> option string -> S -> result session_error S;
  appendEntry : ProvisionedEntry -> string -> Z -> S -> result session_error (Entry * S);
  appendRecord : NewRecord -> Z -> S -> result session_error (LaneRecord * S);
  storedEntry : string -> S -> option Entry;
  storedEntries : EntryQuery -> S -> result session_error (list Entry);
  storedBranch : EntryQuery -> BranchBounds -> string -> S -> result session_error (list Entry);
  storedRecords : RecordQuery -> S -> result session_error (list LaneRecord);
  storedOpenOperations : string -> option jsnum -> S -> result session_error (list LaneRecord);
  storedLog : LogOptions -> S -> result session_error (list LogItem);
  storedName : S -> option string;
  setName : option string -> S -> result session_error S;
  storedLabel : string -> S -> option string;
  setLabel : string -> option string -> S -> result session_error S;
  storedStats : S -> SessionStats;
}.

(** The leaf of a lane, among the lanes listed. *)
Definition lane_leaf (lane : string) (ps : list LanePointer) : option (option string) :=
  lp_leafId <$> List.find (fun p => String.eqb (lp_lane p) lane) ps.

(** The entry a storage makes of a provisioned one. *)
Definition stored_entry (p : ProvisionedEntry) (parentId : option string) (seq now : Z) : Entry :=
  mkEntry (p_id p) seq parentId now (p_body p).

(** What a storage promises.  [storage_ok] is its own invariant, which every
    accepted write keeps. *)
Class StorageLaws (S : Type) `{SessionStorage S} := {
  storage_ok : S -> Prop;
  append_entry_law : forall s p lane now e s', storage_ok s -> appendEntry p lane now s = Ok (e, s') ->
    storage_ok s' /\
    exists parent seq, lane_leaf lane (storedLanes s) = Some parent /\ e = stored_entry p parent seq now /\
      storedEntry (p_id p) s = None /\
      (forall id, storedEntry id s' = if decide (id = p_id p) then Some e else storedEntry id s) /\
      (forall l, lane_leaf l (storedLanes s') =
        if decide (l = lane) then Some (Some (p_id p)) else lane_leaf l (storedLanes s));
  append_record_law : forall s n now r s', storage_ok s -> appendRecord n now s = Ok (r, s') ->
    storage_ok s' /\ storedLanes s' = storedLanes s /\ (forall id, storedEntry id s' = storedEntry id s) /\
    r_id r = n_id n /\ r_lane r = n_lane n /\ r_body r = n_body n;
  open_operations_law : forall s lane ops, storage_ok s -> storedOpenOperations lane None s = Ok ops ->
    (length ops <= 1)%nat;
  leaf_law : forall s lane id, storage_ok s -> lane_leaf lane (storedLanes s) = Some (Some id) ->
    is_Some (storedEntry id s);
  branch_law : forall s start e, storage_ok s -> storedEntry start s = Some e -> exists path,
    hd_error path = Some e /\
    forall q b, valid_query (q_limit q) (q_cursor q) = true ->
      storedBranch q b start s = Ok (take_limit (q_limit q) (List.filter (matchesEntryQuery q)
        (take_until (reachedBound b) (if decide (q_order q = Some oldestFirst) then rev path else path))));
  entries_law : forall s, exists es, forall q, valid_query (q_limit q) (q_cursor q) = true ->
    storedEntries q s = Ok (take_limit (q_limit q) (List.filter (matchesEntryQuery q) (ordered es (q_order q))));
}.

(** ** [InMemorySessionStorage]

    [structuredClone] gives the caller a copy, so the stored values are never
    shared with it; on values without sharing it is the identity. *)
Record InMemorySessionStorage := mkInMemory {
  im_metadata : SessionMetadata;
  im_state : SessionState;
}.

Definition with_state (s : InMemorySessionStorage) (st : SessionState) : InMemorySessionStorage :=
  mkInMemory (im_metadata s) st.

Definition new_InMemorySessionStorage (metadata : SessionMetadata) : InMemorySessionStorage :=
  mkInMemory metadata new_SessionState.

(** Method [fork]. *)
Definition im_fork (metadata : SessionMetadata) (options : ForkOptions) (s : InMemorySessionStorage)
    : result session_error InMemorySessionStorage :=
  mutations ← createForkMutations options (im_state s);
  st ← applyMutations invalidMutation mutations new_SessionState;
  Ok (mkInMemory metadata st).

Definition im_apply (m : SessionMutation) (s : InMemorySessionStorage) : result session_error InMemorySessionStorage :=
  with_state s <$> applyMutation invalidMutation m (im_state s).

Definition im_createLane (lane : string) (at_ : option string) (s : InMemorySessionStorage)
    : result session_error InMemorySessionStorage :=
  validateNewLane lane (im_state s);;
  validateTarget at_ (im_state s);;
  im_apply (MutLane (nextSequence (im_state s)) lane at_) s.

Definition im_moveLane (lane : string) (to : option string) (s : InMemorySessionStorage)
    : result session_error InMemorySessionStorage :=
  requireLane lane (im_state s);;
  validateTarget to (im_state s);;
  im_apply (MutLane (nextSequence (im_state s)) lane to) s.

Definition im_appendEntry (newEntry : ProvisionedEntry) (lane : string) (now : Z) (s : InMemorySessionStorage)
    : result session_error (Entry * InMemorySessionStorage) :=
  parentId ← requireLane lane (im_state s);
  validateUnusedId (p_id newEntry) (im_state s);;
  let entry := stored_entry newEntry parentId (nextSequence (im_state s)) now in
  s' ← im_apply (MutEntry (Some lane) entry) s;
  Ok (entry, s').

Definition im_appendRecord (newRecord : NewRecord) (now : Z) (s : InMemorySessionStorage)
    : result session_error (LaneRecord * InMemorySessionStorage) :=
  requireLane (n_lane newRecord) (im_state s);;
  validateUnusedId (n_id newRecord) (im_state s);;
  open ← findOpenOperations (n_lane newRecord) (Some (JInt 1)) (im_state s);
  let record := mkLaneRecord (n_id newRecord) (nextSequence (im_state s)) (n_lane newRecord) now (n_body newRecord) in
  match open with
  | current :: _ =>
      throw_if (is_operation_started record)
        (SessionError storage ("Lane " +:+ n_lane newRecord +:+ " already has an open operation " +:+ r_id current))
  | [] => Ok ()
  end;;
  s' ← im_apply (MutRecord record) s;
  Ok (record, s').

Definition im_setName (nm : option string) (s : InMemorySessionStorage) : result session_error InMemorySessionStorage :=
  im_apply (MutName (nextSequence (im_state s)) nm) s.

Definition im_setLabel (id : string) (label : option string) (s : InMemorySessionStorage)
    : result session_error InMemorySessionStorage :=
  validateTarget (Some id) (im_state s);;
  im_apply (MutLabel (nextSequence (im_state s)) id label) s.

#[export] Instance in_memory_storage : SessionStorage InMemorySessionStorage := {
  getMetadata := im_metadata;
  storedLanes s := getLanes (im_state s);
  createLane := im_createLane;
  moveLane := im_moveLane;
  appendEntry := im_appendEntry;
  appendRecord := im_appendRecord;
  storedEntry id s := getEntry id (im_state s);
  storedEntries q s := findEntries q (im_state s);
  storedBranch q b start s := findEntriesOnBranch q b start (im_state s);
  storedRecords q s := findRecords q (im_state s);
  storedOpenOperations lane limit s := findOpenOperations lane limit (im_state s);
  storedLog o s := getLog o (im_state s);
  storedName s := name (im_state s);
  setName := im_setName;
  storedLabel id s := getLabel id (im_state s);
  setLabel := im_setLabel;
  storedStats s := stats (im_state s);
}.

(** ** The implementation keeps its promises *)

(** The invariant of a storage: that of its state, and one open operation a lane at most. *)
Definition one_open (st : SessionState) : Prop :=
  forall lane r1 r2, open_in (records st) lane r1 -> open_in (records st) lane r2 -> r1 = r2.

Definition in_memory_ok (s : InMemorySessionStorage) : Prop := state_ok (im_state s) /\ one_open (im_state s).

(** One write of the interface, whatever it is. *)
Inductive write : InMemorySessionStorage -> InMemorySessionStorage -> Prop :=
  | write_createLane lane leaf s s' : im_createLane lane leaf s = Ok s' -> write s s'
  | write_moveLane lane leaf s s' : im_moveLane lane leaf s = Ok s' -> write s s'
  | write_appendEntry p lane now e s s' : im_appendEntry p lane now s = Ok (e, s') -> write s s'
  | write_appendRecord n now r s s' : im_appendRecord n now s = Ok (r, s') -> write s s'
  | write_setName nm s s' : im_setName nm s = Ok s' -> write s s'
  | write_setLabel id label s s' : im_setLabel id label s = Ok s' -> write s s'.

Lemma one_open_initial : one_open new_SessionState.
Proof. intros lane r1 r2 [Hr _]. by apply elem_of_nil in Hr. Qed.

Lemma one_open_keep st st' : records st' = records st -> one_open st -> one_open st'.
Proof. unfold one_open. by intros ->. Qed.

(** Either no record is added, or one that does not start a second operation. *)
Lemma one_open_record st st' record :
  state_ok st -> one_open st -> r_seq record = sequence st + 1 -> records st' = records st ++ [record] ->
  (record_type record = Toperation_started -> forall r, ~ open_in (records st) (r_lane record) r) -> one_open st'.
Proof.
  intros Hok Hone Hseq Hrec Hstart lane r1 r2. rewrite Hrec. destruct (ok_record_seq _ Hok) as [_ Hb].
  rewrite Forall_forall in Hb. assert (forall x, x ∈ records st -> r_seq x < r_seq record) as Hlt.
  { intros x Hx. specialize (Hb x Hx). lia. }
  rewrite !open_in_snoc by done. intros [[H1 _]|(-> & Ht1 & Hl1)] [[H2 _]|(-> & Ht2 & Hl2)]; try done.
  - by eapply Hone.
  - exfalso. by eapply Hstart; [|rewrite Hl2].
  - exfalso. by eapply Hstart; [|rewrite Hl1].
Qed.

Lemma lane_leaf_get lane st : lane_leaf lane (getLanes st) = JsMap.get lane (lanes st).
Proof.
  unfold lane_leaf, getLanes. induction (lanes st) as [|[l leaf] ls IH]; [done|]. cbn.
  destruct (String.eqb_spec l lane) as [->|Hne]; [by rewrite decide_True|]. rewrite decide_False by done. exact IH.
Qed.

Lemma im_apply_Ok m s s' : im_apply m s = Ok s' <->
  applyMutation invalidMutation m (im_state s) = Ok (im_state s') /\ im_metadata s' = im_metadata s.
Proof.
  unfold im_apply. rewrite fmap_Ok. split.
  - by intros (st & Hst & ->).
  - intros [Hst Hm]. exists (im_state s'). split; [done|]. destruct s'. cbn in *. by subst.
Qed.

(** What each write does to the records. *)
Lemma apply_keeps_records m st st' : applyMutation invalidMutation m st = Ok st' ->
  records st' = match m with MutRecord r => records st ++ [r] | _ => records st end.
Proof.
  intros (_ & _ & H)%bind_Ok. destruct m; cbn [applyEntry applyRecord applyLane applyName applyLabel] in H;
    unfold applyEntry, applyRecord, applyLane, applyName, applyLabel in H;
    repeat (apply bind_Ok in H as (? & _ & H)); by injection H as <-.
Qed.

Lemma im_apply_ok m s s' : in_memory_ok s -> (forall r, m <> MutRecord r) -> im_apply m s = Ok s' -> in_memory_ok s'.
Proof.
  intros [Hok Hone] Hm [Happ _]%im_apply_Ok. split; [by eapply preserve_mutation|].
  eapply one_open_keep; [|done]. rewrite (apply_keeps_records _ _ _ Happ). destruct m; try done. by destruct (Hm record).
Qed.

Lemma im_appendRecord_Ok n now r s s' : im_appendRecord n now s = Ok (r, s') -> state_ok (im_state s) ->
  r = mkLaneRecord (n_id n) (sequence (im_state s) + 1) (n_lane n) now (n_body n) /\
  im_apply (MutRecord r) s = Ok s' /\
  (record_type r = Toperation_started -> forall x, ~ open_in (records (im_state s)) (n_lane n) x).
Proof.
  intros (leaf & _ & (_ & _ & (ops & Hops & (u & Hcheck & (s1 & Happ & Heq)%bind_Ok)%bind_Ok)%bind_Ok)%bind_Ok)%bind_Ok Hok.
  injection Heq as <- <-. split_and!; [done|done|]. intros Ht x Hx.
  destruct (findOpenOperations_ok (n_lane n) (Some (JInt 1)) _ Hok eq_refl) as (all & Hall & _ & Hin).
  rewrite Hall in Hops. injection Hops as <-. apply Hin in Hx. unfold take_limit in Hcheck. cbn in Hcheck.
  apply elem_of_rev in Hx. destruct (rev all) as [|y ys]; [by apply elem_of_nil in Hx|]. cbn in Hcheck.
  unfold is_operation_started in Hcheck. by rewrite bool_decide_eq_true_2 in Hcheck.
Qed.

Lemma im_appendEntry_Ok p lane now e s s' : im_appendEntry p lane now s = Ok (e, s') ->
  exists parent, JsMap.get lane (lanes (im_state s)) = Some parent /\ p_id p ∉ usedIds (im_state s) /\
    e = stored_entry p parent (sequence (im_state s) + 1) now /\ im_apply (MutEntry (Some lane) e) s = Ok s'.
Proof.
  intros (parent & Hl%or_throw_Ok & (_ & Hid%throw_if_Ok%bool_decide_eq_false & (s1 & Happ & Heq)%bind_Ok)%bind_Ok)%bind_Ok.
  injection Heq as <- <-. by exists parent.
Qed.

Lemma write_ok s s' : write s s' -> in_memory_ok s -> in_memory_ok s'.
Proof.
  intros Hw Hok. destruct Hw as [l leaf s s' H|l leaf s s' H|p l now e s s' H|n now r s s' H|nm s s' H|id lb s s' H].
  - apply bind_Ok in H as (? & _ & (? & _ & H)%bind_Ok). eapply im_apply_ok; [done| |exact H]; done.
  - apply bind_Ok in H as (? & _ & (? & _ & H)%bind_Ok). eapply im_apply_ok; [done| |exact H]; done.
  - apply im_appendEntry_Ok in H as (parent & _ & _ & _ & H). eapply im_apply_ok; [done| |exact H]; done.
  - destruct Hok as [Hok Hone]. apply im_appendRecord_Ok in H as (-> & Happ & Hstart); [|done].
    apply im_apply_Ok in Happ as [Happ _]. split; [by eapply preserve_mutation|].
    eapply one_open_record; [done|done| |by apply apply_keeps_records in Happ|done]. done.
  - eapply im_apply_ok; [done| |exact H]; done.
  - apply bind_Ok in H as (? & _ & H). eapply im_apply_ok; [done| |exact H]; done.
Qed.

Lemma im_fork_ok metadata options s s' : in_memory_ok s -> im_fork metadata options s = Ok s' -> in_memory_ok s'.
Proof.
  intros [Hok _] (ms & Hms & (st & Hst & Heq)%bind_Ok)%bind_Ok. injection Heq as <-.
  destruct (fork_replay invalidMutation options _ ms Hok Hms) as (es & ps & st' & _ & Hst' & Hok' & _ & Hr & _).
  rewrite Hst in Hst'. injection Hst' as <-. split; [done|]. intros lane r1 r2 [Hr1 _]. cbn in Hr1. rewrite Hr in Hr1.
  by apply elem_of_nil in Hr1.
Qed.

(** The storages a program can make: new ones, their forks, and what writes make of them. *)
Inductive reachable : InMemorySessionStorage -> Prop :=
  | reachable_new metadata : reachable (new_InMemorySessionStorage metadata)
  | reachable_write s s' : reachable s -> write s s' -> reachable s'
  | reachable_fork metadata options s s' : reachable s -> im_fork metadata options s = Ok s' -> reachable s'.

Lemma reachable_ok s : reachable s -> in_memory_ok s.
Proof.
  induction 1 as [metadata|s s' _ IH Hw|metadata options s s' _ IH Hf].
  - split; [apply state_ok_initial|apply one_open_initial].
  - by eapply write_ok.
  - by eapply im_fork_ok.
Qed.

(** Applying an entry mutation of a lane moves its leaf and indexes the entry. *)
Lemma apply_entry_effect lane e st st' :
  applyMutation invalidMutation (MutEntry (Some lane) e) st = Ok st' ->
  lanes st' = JsMap.set lane (Some (e_id e)) (lanes st) /\ entriesById st' = <[e_id e := e]> (entriesById st).
Proof.
  intros (_ & _ & H)%bind_Ok. unfold applyEntry in H. repeat (apply bind_Ok in H as (? & _ & H)). by injection H as <-.
Qed.

Lemma apply_record_effect r st st' :
  applyMutation invalidMutation (MutRecord r) st = Ok st' ->
  lanes st' = lanes st /\ entriesById st' = entriesById st.
Proof.
  intros (_ & _ & H)%bind_Ok. unfold applyRecord in H. repeat (apply bind_Ok in H as (? & _ & H)). by injection H as <-.
Qed.

Lemma unused_no_entry st id : state_ok st -> id ∉ usedIds st -> entriesById st !! id = None.
Proof.
  intros Hok Hid. destruct (entriesById st !! id) as [e|] eqn:He; [|done].
  apply (ok_index _ Hok) in He as [He <-]. destruct Hid. apply (ok_usedIds _ Hok). rewrite elem_of_app. left.
  apply list_elem_of_fmap. by exists e.
Qed.

#[export] Program Instance in_memory_laws : StorageLaws InMemorySessionStorage := {
  storage_ok := in_memory_ok;
}.
Next Obligation.
  intros s p lane now e s' Hs H. split; [eapply write_ok; [by eapply write_appendEntry|done]|].
  apply im_appendEntry_Ok in H as (parent & Hl & Hid & -> & [Happ _]%im_apply_Ok). destruct Hs as [Hok _].
  exists parent, (sequence (im_state s) + 1). cbn [storedLanes storedEntry in_memory_storage].
  apply apply_entry_effect in Happ as [Hlanes Hby]. rewrite lane_leaf_get. split_and!; [done|done| | |].
  - by apply unused_no_entry.
  - intros id. unfold getEntry. rewrite Hby. cbn. case_decide as Heq; [subst id; by rewrite lookup_insert_eq|].
    by rewrite lookup_insert_ne.
  - intros l. rewrite !lane_leaf_get, Hlanes. apply JsMap.get_set.
Qed.
Next Obligation.
  intros s n now r s' Hs H. split; [eapply write_ok; [by eapply write_appendRecord|done]|].
  apply im_appendRecord_Ok in H as (-> & [Happ _]%im_apply_Ok & _); [|apply Hs].
  apply apply_record_effect in Happ as [Hlanes Hby]. cbn. unfold getLanes, getEntry. by rewrite Hlanes, Hby.
Qed.
Next Obligation.
  intros s lane ops [Hok Hone] H. change (findOpenOperations lane None (im_state s) = Ok ops) in H.
  destruct (findOpenOperations_ok lane None _ Hok eq_refl) as (all & Hall & Hs & Hin). rewrite H in Hall.
  injection Hall as ->. change (take_limit None (rev all)) with (rev all). rewrite length_rev.
  destruct all as [|x [|y all]]; cbn; try lia. exfalso.
  assert (x = y) as <- by (eapply Hone; apply Hin; [left|right; left]).
  apply StronglySorted_cons in Hs as [Hx _]. rewrite Forall_cons in Hx. lia.
Qed.
Next Obligation.
  intros s lane id [Hok _]. cbn [storedLanes storedEntry in_memory_storage]. rewrite lane_leaf_get. intros Hl. by apply (ok_lanes _ Hok) in Hl.
Qed.
Next Obligation.
  intros s start e [Hok _] He. cbn [storedEntry storedBranch in_memory_storage] in He |- *. unfold getEntry in He.
  pose proof He as Hin. apply (ok_index _ Hok) in Hin as [Hin _]. destruct (chain_exists _ Hok e Hin) as [l Hl].
  exists l. split; [by apply chain_head in Hl as [l' ->]|]. intros q b Hv. by eapply findEntriesOnBranch_ok.
Qed.
Next Obligation.
  intros s. exists (entries (im_state s)). intros q Hv. by apply findEntries_ok.
Qed.
