(* ===== verification/Session.v ===== *)
(** Sessions and the in-memory repository: class [Session] of
    [packages/agent/src/harness/session/session.ts] and [InMemorySessionRepo]
    of [packages/agent/src/harness/session/memory.ts].

    A [Session] only talks to its storage through the interface, so its
    operations and theorems are for any [SessionStorage] that satisfies
    [StorageLaws].  [id] is what the session's [idGenerator.next()] returns.
    A call is one step: calls of other clients between the awaits of one call
    are not interleaved. *)
From S2P Require Import Prelude JsNumber JsTree Messages SessionTypes SessionState SessionInvariant SessionReads SessionFork SessionStore.
Local Open Scope Z_scope.

(** ** The durable payload check *)

Definition MAX_JSON_DEPTH : Z := 512.

Definition invalidPayload (reason : string) : session_error :=
  SessionError invalid_payload ("Durable payload " +:+ reason).

Fixpoint assertJsonSerializableDepth (value : jstree) (depth : Z) : result session_error unit :=
  throw_if (depth >? MAX_JSON_DEPTH) (invalidPayload "exceeds maximum depth");;
  match value with
  | JNull | JStr _ | JBool _ => Ok ()
  | JNum n => throw_if (negb (isFinite n)) (invalidPayload "contains a non-finite number")
  | JUndefined => Err (invalidPayload "contains undefined")
  | JOther typeof => Err (invalidPayload ("contains " +:+ typeof))
  | JArr items =>
      (fix go (items : list jstree) : result session_error unit :=
        match items with
        | [] => Ok ()
        | item :: items' => assertJsonSerializableDepth item (depth + 1);; go items'
        end) items
  | JObj props =>
      (fix go (props : list (string * jstree)) : result session_error unit :=
        match props with
        | [] => Ok ()
        | (_, v) :: props' => assertJsonSerializableDepth v (depth + 1);; go props'
        end) props
  end.

Definition assertJsonSerializable (value : jstree) : result session_error unit := assertJsonSerializableDepth value 0.

(** What JSON can hold: no undefined, function or symbol, only finite numbers. *)
Fixpoint json_data (t : jstree) : Prop :=
  match t with
  | JNull | JStr _ | JBool _ => True
  | JNum n => isFinite n = true
  | JUndefined | JOther _ => False
  | JArr ts => fold_right (fun t acc => json_data t /\ acc) True ts
  | JObj ps => fold_right (fun p acc => json_data p.2 /\ acc) True ps
  end.

(** How deep a value nests. *)
Fixpoint height (t : jstree) : Z :=
  match t with
  | JArr ts => fold_right (fun t acc => Z.max (1 + height t) acc) 0 ts
  | JObj ps => fold_right (fun p acc => Z.max (1 + height p.2) acc) 0 ps
  | _ => 0
  end.

Lemma height_nonneg t : 0 <= height t.
Proof. destruct t as [| | | | |ts|ps|]; cbn; try lia; [induction ts|induction ps]; cbn; lia. Qed.

(** The loops over the elements of an array and the properties of an object. *)
Lemma assertDepth_array ts depth :
  Forall (fun t => forall depth, assertJsonSerializableDepth t depth = Ok () <->
    json_data t /\ depth + height t <= MAX_JSON_DEPTH) ts -> depth <= MAX_JSON_DEPTH ->
  assertJsonSerializableDepth (JArr ts) depth = Ok () <-> json_data (JArr ts) /\ depth + height (JArr ts) <= MAX_JSON_DEPTH.
Proof.
  intros IH Hd. cbn [assertJsonSerializableDepth json_data height]. unfold throw_if. if_lia. cbn [mbind result_bind].
  induction ts as [|t ts IHts]; cbn; [split; [intros _; split; [done|lia]|done]|].
  apply Forall_cons in IH as [IHt IH]. rewrite bind_Ok. setoid_rewrite (IHts IH). split.
  - intros ([] & Ht & Hts & Hh). apply IHt in Ht as [? ?]. split; [done|lia].
  - intros [[? ?] ?]. exists (). split; [apply IHt; split; [done|lia]|split; [done|lia]].
Qed.

Lemma assertDepth_object ps depth :
  Forall (fun p : string * jstree => forall depth, assertJsonSerializableDepth p.2 depth = Ok () <->
    json_data p.2 /\ depth + height p.2 <= MAX_JSON_DEPTH) ps -> depth <= MAX_JSON_DEPTH ->
  assertJsonSerializableDepth (JObj ps) depth = Ok () <-> json_data (JObj ps) /\ depth + height (JObj ps) <= MAX_JSON_DEPTH.
Proof.
  intros IH Hd. cbn [assertJsonSerializableDepth json_data height]. unfold throw_if. if_lia. cbn [mbind result_bind].
  induction ps as [|[k t] ps IHps]; cbn; [split; [intros _; split; [done|lia]|done]|].
  apply Forall_cons in IH as [IHt IH]. cbn in IHt. rewrite bind_Ok. setoid_rewrite (IHps IH). split.
  - intros ([] & Ht & Hps & Hh). apply IHt in Ht as [? ?]. split; [done|lia].
  - intros [[? ?] ?]. exists (). split; [apply IHt; split; [done|lia]|split; [done|lia]].
Qed.

Lemma assertDepth_spec t : forall depth,
  assertJsonSerializableDepth t depth = Ok () <-> json_data t /\ depth + height t <= MAX_JSON_DEPTH.
Proof.
  induction t as [| |b|n|s|ts IH|ps IH|s] using jstree_ind'; intros depth;
    (destruct (depth >? MAX_JSON_DEPTH) eqn:Hd;
     [split; [cbn [assertJsonSerializableDepth]; unfold throw_if; by rewrite Hd
             |intros [_ Hh]; match type of Hh with context [height ?t] => pose proof (height_nonneg t) end; lia]|]).
  6: apply assertDepth_array; [done|lia].
  6: apply assertDepth_object; [done|lia].
  all: cbn [assertJsonSerializableDepth json_data height]; unfold throw_if; rewrite Hd; cbn [mbind result_bind].
  all: try (split; [intros _; split; [done|lia]|done]); try (split; [done|by intros [? _]]).
  destruct (isFinite n); cbn; split; [intros _; split; [done|lia]|done|done|by intros [? _]].
Qed.

(** A rejected payload is reported as such. *)
Lemma assertDepth_error t : forall depth e,
  assertJsonSerializableDepth t depth = Err e -> se_code e = invalid_payload.
Proof.
  induction t as [| |b|n|s|ts IH|ps IH|s] using jstree_ind'; intros depth e;
    cbn [assertJsonSerializableDepth]; unfold throw_if;
    (destruct (depth >? MAX_JSON_DEPTH) eqn:Hd; cbn [mbind result_bind]; [by intros [= <-]|]);
    try done; try by intros [= <-].
  - destruct (negb _); [by intros [= <-]|done].
  - induction ts as [|t ts IHts]; [done|]. apply Forall_cons in IH as [IHt IH].
    intros [He|([] & _ & He)]%bind_Err; [by eapply IHt|by apply IHts].
  - induction ps as [|[k t] ps IHps]; [done|]. apply Forall_cons in IH as [IHt IH].
    intros [He|([] & _ & He)]%bind_Err; [by eapply IHt|by apply IHps].
Qed.

(** ** [Session] *)

Section session.
Context {S : Type} `{SessionStorage S}.

Definition getLeafIdForLane (lane : string) (s : S) : result session_error (option string) :=
  or_throw (SessionError invalid_lane ("Lane not found: " +:+ lane)) (lane_leaf lane (storedLanes s)).

Definition with_limit (q : EntryQuery) (limit : option jsnum) : EntryQuery :=
  if decide (limit = q_limit q) then q
  else mkEntryQuery (q_type q) (q_customType q) (q_order q) limit (q_cursor q).

(** [resultLimit] is the second argument, [query.limit] by default. *)
Definition queryEntries (query : EntryQuery) (resultLimit : option jsnum) (s : S) : result session_error (list Entry) :=
  assertValidLimit (q_limit query);;
  assertValidCursor (q_cursor query);;
  storedEntries (with_limit query resultLimit) s.

Definition queryBranchEntries (defaultLane : string) (query : EntryQuery) (bounds : BranchBounds)
    (resultLimit : option jsnum) (s : S) : result session_error (list Entry) :=
  assertValidLimit (q_limit query);;
  assertValidCursor (q_cursor query);;
  start ← match b_start bounds with Some start => Ok (Some start) | None => getLeafIdForLane defaultLane s end;
  match start with
  | None => Ok []
  | Some start => storedBranch (with_limit query resultLimit) bounds start s
  end.

Definition queryRecords (query : RecordQuery) (s : S) : result session_error (list LaneRecord) :=
  assertValidLimit (rq_limit query);;
  assertValidCursor (rq_afterSeq query);;
  throw_if (bool_decide (rq_operationKind query <> None) && bool_decide (rq_type query <> Some Toperation_started))
    (SessionError invalid_query "operationKind requires type 'operation_started'");;
  storedRecords query s.

Definition queryLog (options : LogOptions) (s : S) : result session_error (list LogItem) :=
  assertValidLimit (lo_limit options);;
  assertValidCursor (lo_afterSeq options);;
  storedLog options s.

Definition session_findOpenOperations (lane : string) (limit : option jsnum) (s : S) : result session_error (list LaneRecord) :=
  assertValidLimit limit;;
  storedOpenOperations lane limit s.

Definition findEntry (query : EntryQuery) (s : S) : result session_error (option Entry) :=
  hd_error <$> queryEntries query (Some (JInt 1)) s.

(** [findEntryOnBranch] of the view of a lane. *)
Definition findEntryOnBranch (lane : string) (query : EntryQuery) (bounds : BranchBounds) (s : S)
    : result session_error (option Entry) :=
  hd_error <$> queryBranchEntries lane query bounds (Some (JInt 1)) s.

Definition commitEntry (entry : ProvisionedEntry) (lane : string) (now : Z) (s : S) : result session_error (Entry * S) :=
  assertJsonSerializable (js_provisioned entry);;
  appendEntry entry lane now s.

Definition commitRecord (record : NewRecord) (now : Z) (s : S) : result session_error (LaneRecord * S) :=
  assertJsonSerializable (js_new_record record);;
  appendRecord record now s.

Definition appendMessageToLane (lane : string) (message : AgentMessage) (id : string) (now : Z) (s : S)
    : result session_error (string * S) :=
  ' (entry, s) ← commitEntry (mkProvisioned id (BMessage message false)) lane now s;
  Ok (e_id entry, s).

Definition appendCustomEntryToLane (lane customType : string) (data : option jstree) (id : string) (now : Z) (s : S)
    : result session_error (string * S) :=
  ' (entry, s) ← commitEntry (mkProvisioned id (BCustom customType data)) lane now s;
  Ok (e_id entry, s).

(** The public methods work on the main lane. *)
Definition getLeafId : S -> result session_error (option string) := getLeafIdForLane "main".
Definition session_findEntries (query : EntryQuery) : S -> result session_error (list Entry) :=
  queryEntries query (q_limit query).
Definition session_findEntriesOnBranch (query : EntryQuery) (bounds : BranchBounds) : S -> result session_error (list Entry) :=
  queryBranchEntries "main" query bounds (q_limit query).
Definition appendMessage := appendMessageToLane "main".
Definition appendCustomEntry := appendCustomEntryToLane "main".

Context `{!StorageLaws S}.

Lemma session_findEntries_valid q s : queryEntries q (q_limit q) s =
  if valid_query (q_limit q) (q_cursor q) then storedEntries q s else queryEntries q (q_limit q) s.
Proof. unfold queryEntries, with_limit. rewrite checked. rewrite decide_True by done. by destruct (valid_query _ _). Qed.

Lemma hd_take_limit_1 {A} (limit : option jsnum) (l : list A) :
  is_ok (assertValidLimit limit) = true -> hd_error (take_limit (Some (JInt 1)) l) = hd_error (take_limit limit l).
Proof.
  rewrite assertValidLimit_pos. unfold take_limit, limit_value. destruct limit as [n|]; cbn; [|by destruct l].
  intros (z & -> & Hz). cbn. destruct (Z.to_nat z) eqn:Hn; [lia|]. by destruct l.
Qed.

Lemma with_limit_limit q limit : q_limit (with_limit q limit) = limit.
Proof. unfold with_limit. by case_decide. Qed.

Lemma with_limit_matches q limit : matchesEntryQuery (with_limit q limit) = matchesEntryQuery q /\
  q_order (with_limit q limit) = q_order q /\ q_cursor (with_limit q limit) = q_cursor q.
Proof. unfold with_limit. by case_decide. Qed.

Lemma valid_one q : valid_query (q_limit q) (q_cursor q) = true ->
  valid_query (q_limit (with_limit q (Some (JInt 1)))) (q_cursor (with_limit q (Some (JInt 1)))) = true.
Proof.
  destruct (with_limit_matches q (Some (JInt 1))) as (_ & _ & ->). rewrite with_limit_limit.
  unfold valid_query. intros [_ ->]%andb_true_iff. done.
Qed.

Lemma findEntry_first q s : findEntry q s = hd_error <$> session_findEntries q s.
Proof.
  unfold findEntry, session_findEntries, queryEntries. rewrite !checked.
  destruct (valid_query (q_limit q) (q_cursor q)) eqn:Hv; [|done].
  destruct (entries_law s) as [es Hall]. unfold with_limit at 2. rewrite decide_True by done.
  rewrite (Hall _ (valid_one q Hv)), (Hall _ Hv).
  destruct (with_limit_matches q (Some (JInt 1))) as (-> & -> & _).
  rewrite with_limit_limit. cbn. f_equal. apply hd_take_limit_1. by apply andb_true_iff in Hv as [? _].
Qed.

Lemma findEntryOnBranch_first lane q b s : storage_ok s ->
  (forall start, b_start b = Some start -> is_Some (storedEntry start s)) ->
  findEntryOnBranch lane q b s = hd_error <$> queryBranchEntries lane q b (q_limit q) s.
Proof.
  intros Hs Hstart. unfold findEntryOnBranch, queryBranchEntries. rewrite !checked.
  destruct (valid_query (q_limit q) (q_cursor q)) eqn:Hv; [|done].
  assert (forall start, is_Some (storedEntry start s) ->
    hd_error <$> storedBranch (with_limit q (Some (JInt 1))) b start s =
    hd_error <$> storedBranch (with_limit q (q_limit q)) b start s) as Hbranch.
  { intros start [e He]. unfold with_limit at 2. rewrite decide_True by done.
    destruct (branch_law s start e Hs He) as (path & _ & Hall). rewrite (Hall _ _ (valid_one q Hv)), (Hall _ _ Hv).
    destruct (with_limit_matches q (Some (JInt 1))) as (-> & -> & _).
    rewrite with_limit_limit. cbn. f_equal. apply hd_take_limit_1. by apply andb_true_iff in Hv as [? _]. }
  destruct (b_start b) as [start|]; [by apply Hbranch, Hstart|].
  unfold getLeafIdForLane. destruct (lane_leaf lane (storedLanes s)) as [[start|]|] eqn:Hl; cbn; [|done..].
  by apply Hbranch, (leaf_law s lane).
Qed.

Lemma appendMessage_effect lane message id now s id' s' :
  storage_ok s -> appendMessageToLane lane message id now s = Ok (id', s') ->
  id' = id /\ storage_ok s' /\ assertJsonSerializable (js_provisioned (mkProvisioned id (BMessage message false))) = Ok () /\
  exists parent seq, getLeafIdForLane lane s = Ok parent /\ getLeafIdForLane lane s' = Ok (Some id) /\
    storedEntry id s = None /\
    storedEntry id s' = Some (mkEntry id seq parent now (BMessage message false)) /\
    (forall other, other <> id -> storedEntry other s' = storedEntry other s) /\
    (forall other, other <> lane -> getLeafIdForLane other s' = getLeafIdForLane other s) /\
    findEntryOnBranch lane (mkEntryQuery None None None None None) no_bounds s' =
      Ok (Some (mkEntry id seq parent now (BMessage message false))).
Proof.
  intros Hs ([e s1] & (u & Hjson & Happ)%bind_Ok & Heq)%bind_Ok. injection Heq as <- <-. destruct u.
  destruct (append_entry_law _ _ _ _ _ _ Hs Happ) as (Hs1 & parent & seq & Hl & -> & Hnew & Hget & Hlanes).
  cbn [p_id stored_entry e_id p_body] in *. split_and!; try done.
  pose proof (Hget id) as Hid. rewrite decide_True in Hid by done.
  pose proof (Hlanes lane) as Hlane. rewrite decide_True in Hlane by done.
  exists parent, seq. unfold getLeafIdForLane. rewrite Hl, Hlane. split_and!; try done.
  - intros other Hne. rewrite Hget. by rewrite decide_False.
  - intros other Hne. rewrite Hlanes. by rewrite decide_False.
  - unfold findEntryOnBranch, queryBranchEntries, getLeafIdForLane. cbn. rewrite Hlane. cbn.
    destruct (branch_law s1 id _ Hs1 Hid) as (path & Hp & Hall). rewrite Hall by done. cbn.
    destruct path as [|x path]; [done|]. by injection Hp as ->.
Qed.
End session.

(** ** [InMemorySessionRepo]

    Sessions share the storage object they were opened on: storages live in a
    heap, the repository maps ids to locations, and a [Session] is a location.
    [uuid] is what [uuidv7()] returns. *)
Record InMemorySessionRepo := mkRepo {
  repo_heap : list InMemorySessionStorage;
  repo_sessions : list (string * nat);
}.

Definition new_InMemorySessionRepo : InMemorySessionRepo := mkRepo [] [].

Definition repo_create (options : SessionCreateOptions) (uuid : string) (now : Z) (r : InMemorySessionRepo)
    : result session_error (nat * InMemorySessionRepo) :=
  let id := default uuid (co_id options) in
  throw_if (JsMap.has id (repo_sessions r)) (SessionError already_exists ("Session already exists: " +:+ id));;
  let storage := new_InMemorySessionStorage (mkSessionMetadata id now (co_parentSessionId options)) in
  let loc := length (repo_heap r) in
  Ok (loc, mkRepo (repo_heap r ++ [storage]) (JsMap.set id loc (repo_sessions r))).

Definition requireStorage (id : string) (r : InMemorySessionRepo) : result session_error nat :=
  or_throw (SessionError not_found ("Session not found: " +:+ id)) (JsMap.get id (repo_sessions r)).

Definition repo_open (metadata : SessionMetadata) (r : InMemorySessionRepo) : result session_error nat :=
  requireStorage (md_id metadata) r.

Definition repo_list (r : InMemorySessionRepo) : list SessionMetadata :=
  omap (fun loc => im_metadata <$> repo_heap r !! loc) (JsMap.values (repo_sessions r)).

Definition repo_delete (metadata : SessionMetadata) (r : InMemorySessionRepo) : InMemorySessionRepo :=
  mkRepo (repo_heap r) (JsMap.delete (md_id metadata) (repo_sessions r)).

Definition repo_fork (source : SessionMetadata) (options : ForkOptions) (create : SessionCreateOptions)
    (uuid : string) (now : Z) (r : InMemorySessionRepo) : result session_error (nat * InMemorySessionRepo) :=
  sourceLoc ← requireStorage (md_id source) r;
  let id := default uuid (co_id create) in
  throw_if (JsMap.has id (repo_sessions r)) (SessionError already_exists ("Session already exists: " +:+ id));;
  let metadata := mkSessionMetadata id now (Some (default (md_id source) (co_parentSessionId create))) in
  sourceStorage ← or_throw (SessionError not_found "location") (repo_heap r !! sourceLoc);
  storage ← im_fork metadata options sourceStorage;
  let loc := length (repo_heap r) in
  Ok (loc, mkRepo (repo_heap r ++ [storage]) (JsMap.set id loc (repo_sessions r))).

(** A write of a session at [loc] is seen by every session on that location. *)
Definition repo_write (loc : nat) (s : InMemorySessionStorage) (r : InMemorySessionRepo) : InMemorySessionRepo :=
  mkRepo (<[loc := s]> (repo_heap r)) (repo_sessions r).

Definition repo_ok (r : InMemorySessionRepo) : Prop :=
  NoDup (JsMap.keys (repo_sessions r)) /\ Forall in_memory_ok (repo_heap r) /\
  forall id loc, JsMap.get id (repo_sessions r) = Some loc ->
    exists s, repo_heap r !! loc = Some s /\ md_id (im_metadata s) = id.

(** The steps of a program that uses the repository. *)
Inductive repo_step : InMemorySessionRepo -> InMemorySessionRepo -> Prop :=
  | step_create options uuid now loc r r' : repo_create options uuid now r = Ok (loc, r') -> repo_step r r'
  | step_delete metadata r : repo_step r (repo_delete metadata r)
  | step_fork source options create uuid now loc r r' :
      repo_fork source options create uuid now r = Ok (loc, r') -> repo_step r r'
  | step_write loc s s' r : repo_heap r !! loc = Some s -> write s s' -> repo_step r (repo_write loc s' r).

Lemma repo_add_ok id s r :
  repo_ok r -> in_memory_ok s -> md_id (im_metadata s) = id ->
  repo_ok (mkRepo (repo_heap r ++ [s]) (JsMap.set id (length (repo_heap r)) (repo_sessions r))).
Proof.
  intros (Hnd & Hall & Hget) Hs Hid. split_and!; cbn [repo_heap repo_sessions].
  - by apply JsMap.set_keys_NoDup.
  - apply Forall_app. split; [done|by apply Forall_singleton].
  - intros id' loc. rewrite JsMap.get_set. case_decide as Heq.
    + intros [= <-]. exists s. rewrite lookup_app_r, Nat.sub_diag by done. by subst.
    + intros (s' & Hl & Hm)%Hget. exists s'. split; [|done]. by apply lookup_app_l_Some.
Qed.

Lemma write_metadata s s' : write s s' -> im_metadata s' = im_metadata s.
Proof.
  assert (forall m s s', im_apply m s = Ok s' -> im_metadata s' = im_metadata s) as Happ by (by intros m ?? [_ ?]%im_apply_Ok).
  destruct 1 as [l leaf s s' H|l leaf s s' H|p l now e s s' H|n now r s s' H|nm s s' H|id lb s s' H].
  - apply bind_Ok in H as (? & _ & (? & _ & H)%bind_Ok). by eapply Happ.
  - apply bind_Ok in H as (? & _ & (? & _ & H)%bind_Ok). by eapply Happ.
  - apply im_appendEntry_Ok in H as (parent & _ & _ & _ & H). by eapply Happ.
  - apply bind_Ok in H as (? & _ & (? & _ & (? & _ & (? & _ & (s1 & H & Heq)%bind_Ok)%bind_Ok)%bind_Ok)%bind_Ok).
    injection Heq as _ <-. by eapply Happ.
  - by eapply Happ.
  - apply bind_Ok in H as (? & _ & H). by eapply Happ.
Qed.

Lemma repo_step_ok r r' : repo_step r r' -> repo_ok r -> repo_ok r'.
Proof.
  intros Hstep Hr. destruct Hstep as [options uuid now loc r r' H|metadata r|source options create uuid now loc r r' H|loc s s' r Hs Hw].
  - apply bind_Ok in H as (? & _ & H). injection H as <- <-. apply repo_add_ok; [done| |done].
    split; [apply state_ok_initial|apply one_open_initial].
  - destruct Hr as (Hnd & Hall & Hget). split_and!; [by apply JsMap.delete_keys_NoDup|done|].
    intros id loc. cbn. rewrite JsMap.get_delete. case_decide; [done|]. apply Hget.
  - apply bind_Ok in H as (src & Hsrc & (? & _ & (s & Hs%or_throw_Ok & (s' & Hfork & Heq)%bind_Ok)%bind_Ok)%bind_Ok).
    injection Heq as <- <-. apply repo_add_ok; [done| |].
    + eapply im_fork_ok; [|done]. destruct Hr as (_ & Hall & _). by eapply Forall_lookup_1.
    + apply bind_Ok in Hfork as (? & _ & (? & _ & Heq)%bind_Ok). by injection Heq as <-.
  - destruct Hr as (Hnd & Hall & Hget). split_and!; [done| |].
    + cbn. apply Forall_insert; [done|]. eapply write_ok; [done|]. by eapply Forall_lookup_1.
    + intros id loc' Hl. destruct (Hget id loc' Hl) as (x & Hx & Hid). cbn.
      destruct (decide (loc = loc')) as [<-|Hne].
      * rewrite list_lookup_insert_eq by by eapply lookup_lt_Some. exists s'. split; [done|].
        rewrite (write_metadata _ _ Hw). by simplify_eq.
      * rewrite list_lookup_insert_ne by done. by exists x.
Qed.
