(* ===== verification/SessionTheorems.v ===== *)
(** The theorems of the session components, each with an example. *)
From S2P Require Import Prelude JsNumber JsTree Messages SessionTypes SessionState SessionInvariant SessionReads SessionFork SessionStore Session.
Local Open Scope Z_scope.

(** ** A session *)

(** The storage after a write, unchanged if the write throws. *)
Definition try_entry (p : ProvisionedEntry) (lane : string) (s : InMemorySessionStorage) : InMemorySessionStorage :=
  match im_appendEntry p lane 1000 s with Ok (_, s') => s' | Err _ => s end.
Definition try_record (n : NewRecord) (s : InMemorySessionStorage) : InMemorySessionStorage :=
  match im_appendRecord n 1000 s with Ok (_, s') => s' | Err _ => s end.
Definition try_label (id label : string) (s : InMemorySessionStorage) : InMemorySessionStorage :=
  match im_setLabel id (Some label) s with Ok s' => s' | Err _ => s end.

Lemma try_entry_ok p lane s : in_memory_ok s -> in_memory_ok (try_entry p lane s).
Proof.
  unfold try_entry. destruct (im_appendEntry p lane 1000 s) as [[e s']|] eqn:H; [|done].
  apply write_ok. by eapply write_appendEntry.
Qed.

Lemma try_record_ok n s : in_memory_ok s -> in_memory_ok (try_record n s).
Proof.
  unfold try_record. destruct (im_appendRecord n 1000 s) as [[r s']|] eqn:H; [|done].
  apply write_ok. by eapply write_appendRecord.
Qed.

Lemma try_label_ok id label s : in_memory_ok s -> in_memory_ok (try_label id label s).
Proof.
  unfold try_label. destruct (im_setLabel id (Some label) s) as [s'|] eqn:H; [|done].
  apply write_ok. by eapply write_setLabel.
Qed.

Definition user_entry (id text : string) : ProvisionedEntry :=
  mkProvisioned id (BMessage (MUser (mkUserMessage (PlainContent text) (JInt 0))) false).

Definition run_intent : Intent := IRun [] [user_entry "u1" "hello"] None None.

Definition example_metadata : SessionMetadata := mkSessionMetadata "s" 0 None.

(** Two messages and a custom entry on the main lane, one labelled, and an
    operation under way. *)
Definition example_session : InMemorySessionStorage :=
  try_record (mkNewRecord "op" "main" (ROperationStarted None run_intent))
  (try_label "u1" "start"
  (try_entry (user_entry "u2" "again") "main"
  (try_entry (mkProvisioned "c1" (BCustom "note" None)) "main"
  (try_entry (user_entry "u1" "hello") "main" (new_InMemorySessionStorage example_metadata))))).

Lemma example_session_ok : in_memory_ok example_session.
Proof.
  apply try_record_ok, try_label_ok, try_entry_ok, try_entry_ok, try_entry_ok.
  split; [apply state_ok_initial|apply one_open_initial].
Qed.

(** The fork of a session with an entry, and an operation under way in it. *)
Definition try_fork (metadata : SessionMetadata) (s : InMemorySessionStorage) : InMemorySessionStorage :=
  match im_fork metadata ForkTree s with Ok s' => s' | Err _ => s end.
Definition forked_session : InMemorySessionStorage :=
  try_record (mkNewRecord "op" "main" (ROperationStarted None run_intent))
  (try_fork (mkSessionMetadata "f" 6 None)
  (try_entry (user_entry "u1" "hello") "main" (new_InMemorySessionStorage example_metadata))).

Lemma forked_session_reachable : reachable forked_session.
Proof.
  unfold forked_session, try_record, try_fork, try_entry.
  destruct (im_appendEntry _ _ _ _) as [[e s1]|] eqn:H1; [|vm_compute in H1; discriminate H1].
  assert (reachable s1) as R1 by (eapply reachable_write; [apply reachable_new|by eapply write_appendEntry]).
  destruct (im_fork _ _ _) as [s2|] eqn:H2.
  - pose proof (reachable_fork _ _ _ _ R1 H2) as R2. destruct (im_appendRecord _ _ _) as [[r s3]|] eqn:H3; [|done].
    eapply reachable_write; [exact R2|by eapply write_appendRecord].
  - destruct (im_appendRecord _ _ s1) as [[r s3]|] eqn:H3; [|done]. eapply reachable_write; [exact R1|by eapply write_appendRecord].
Qed.

(** ** [SessionState] *)

(** C5: the invariant of a session holds in every storage a program can make (by
    creating it, by its writes, by forking another such storage) and after any
    sequence of mutations such a state accepts: consecutive sequence numbers,
    unique ids, parents that precede their children, lanes, labels and records
    that refer to what exists, the list of open operations of each lane, and the
    statistics.  The writes of a storage moreover leave no lane with two open
    operations. *)
Theorem session_invariant s :
  reachable s ->
  state_ok (im_state s) /\
  (forall lane ops, findOpenOperations lane None (im_state s) = Ok ops -> (length ops <= 1)%nat) /\
  (forall invalid ms st, applyMutations invalid ms (im_state s) = Ok st -> state_ok st).
Proof.
  intros Hr. pose proof (reachable_ok s Hr) as Hok. split_and!; [apply Hok| |].
  - intros lane ops Hops. by apply (open_operations_law s lane ops).
  - intros invalid ms st H. unfold applyMutations in H. eapply (mfold_inv state_ok); [apply Hok| |exact H].
    intros st1 m st2 _ Hst Happ. exact (proj1 (preserve_mutation invalid st1 st2 Hst m Happ)).
Qed.

(** C6: branch queries.  A query from an entry of the session never fails
    because of the branch: it filters the chain of parents from that entry to
    the root (in either order, up to the bound, cut at the limit), and that
    chain is unique, without repetition and strictly older at each step.  An
    invalid query or an unknown start is reported as such. *)
Theorem branch_query st q b start :
  state_ok st ->
  if valid_query (q_limit q) (q_cursor q) then
    match entriesById st !! start with
    | Some e => exists path, chain (entriesById st) e path /\
        StronglySorted (fun a b => e_seq b < e_seq a) path /\ (forall p, chain (entriesById st) e p -> p = path) /\
        findEntriesOnBranch q b start st = Ok (take_limit (q_limit q) (List.filter (matchesEntryQuery q)
          (take_until (reachedBound b) (if decide (q_order q = Some oldestFirst) then rev path else path))))
    | None => findEntriesOnBranch q b start st = Err (SessionError not_found ("Entry not found: " +:+ start))
    end
  else exists m, findEntriesOnBranch q b start st = Err (SessionError invalid_query m).
Proof.
  intros Hok. destruct (valid_query _ _) eqn:Hv; [|unfold findEntriesOnBranch; rewrite checked, Hv; eauto].
  destruct (entriesById st !! start) as [e|] eqn:He.
  - pose proof He as Hin. apply (ok_index _ Hok) in Hin as [Hin _].
    destruct (chain_exists st Hok e Hin) as [l Hl]. destruct (chain_entries st Hok e l Hin Hl) as [_ Hs].
    exists l. split_and!; [done..| |by eapply findEntriesOnBranch_ok].
    clear -Hl. induction Hl as [e Hp|e p e' l Hp He' _ IH]; intros l2 H2; inversion H2; subst; try congruence.
    f_equal. apply IH. congruence.
  - unfold findEntriesOnBranch. rewrite checked, Hv. unfold walkToRoot. rewrite He. by case_bool_decide.
Qed.

(** Open operations.  The operations reported open in a lane are exactly
    those started there that no later record of the lane finishes, newest
    first, and cut at the limit. *)
Theorem open_operations st lane limit :
  state_ok st -> is_ok (assertValidLimit limit) = true ->
  exists ops, findOpenOperations lane limit st = Ok (take_limit limit (rev ops)) /\ sorted_by r_seq ops /\
    forall r, r ∈ ops <-> open_in (records st) lane r.
Proof. apply findOpenOperations_ok. Qed.

(** C7: forks.  Whatever the session, the mutations of a fork are accepted by a
    new session.  It then holds exactly the entries selected (all of them, or
    the branch of the target from the root on) with new sequence numbers, the
    lanes, the name and the labels of those entries, and no record: no
    operation is under way in the fork. *)
Theorem fork_replays invalid options st ms :
  state_ok st -> createForkMutations options st = Ok ms ->
  exists es ps st', fork_copies options st es ps /\ applyMutations invalid ms new_SessionState = Ok st' /\
    state_ok st' /\ entries st' = renumber 1 es /\ records st' = [] /\ name st' = name st /\
    (forall lane, JsMap.get lane (lanes st') =
       match options with
       | ForkTree => JsMap.get lane (lanes st)
       | ForkBranch _ _ => JsMap.get lane (map (fun p => (lp_lane p, lp_leafId p)) ps)
       end) /\
    (forall id, labels st' !! id = if decide (id ∈ map e_id es) then labels st !! id else None).
Proof. apply fork_replay. Qed.

(** ** Storage, session and repository *)

(** The repository.  In every state a program can bring a repository to
    (creating, forking and deleting sessions, and writing through any session
    on any storage) each id leads to a storage with that id, every storage
    satisfies the session invariant, and no lane of any storage has two open
    operations. *)
Theorem repo_invariant r :
  rtc repo_step new_InMemorySessionRepo r ->
  repo_ok r /\ Forall (fun s => forall lane ops, findOpenOperations lane None (im_state s) = Ok ops -> (length ops <= 1)%nat)
    (repo_heap r).
Proof.
  intros Hsteps. assert (repo_ok r) as Hr.
  { assert (repo_ok new_InMemorySessionRepo) as H0 by (split_and!; [constructor|constructor|done]).
    clear -Hsteps H0. induction Hsteps; [done|]. by eauto using repo_step_ok. }
  split; [done|]. destruct Hr as (_ & Hall & _). eapply Forall_impl; [exact Hall|]. intros s Hs lane ops Hops.
  by apply (open_operations_law s lane ops).
Qed.

(** Read your writes, for any storage that keeps the interface's promises.
    A message appended through the view of a lane is, under the id returned,
    the new leaf of that lane, a child of the old leaf, and what a branch query
    finds first; nothing else changes. *)
Theorem append_message {S} `{StorageLaws S} lane message id now (s s' : S) id' :
  storage_ok s -> appendMessageToLane lane message id now s = Ok (id', s') ->
  id' = id /\ storage_ok s' /\
  assertJsonSerializable (js_provisioned (mkProvisioned id (BMessage message false))) = Ok () /\
  exists parent seq, getLeafIdForLane lane s = Ok parent /\ getLeafIdForLane lane s' = Ok (Some id) /\
    storedEntry id s = None /\
    storedEntry id s' = Some (mkEntry id seq parent now (BMessage message false)) /\
    (forall other, other <> id -> storedEntry other s' = storedEntry other s) /\
    (forall other, other <> lane -> getLeafIdForLane other s' = getLeafIdForLane other s) /\
    findEntryOnBranch lane (mkEntryQuery None None None None None) no_bounds s' =
      Ok (Some (mkEntry id seq parent now (BMessage message false))).
Proof. apply appendMessage_effect. Qed.

(** Single-entry queries return the first result of the full query, or
    its error, for any storage that keeps the interface's promises. *)
Theorem single_entry_queries {S} `{StorageLaws S} lane q b (s : S) :
  storage_ok s -> (forall start, b_start b = Some start -> is_Some (storedEntry start s)) ->
  findEntry q s = hd_error <$> session_findEntries q s /\
  findEntryOnBranch lane q b s = hd_error <$> queryBranchEntries lane q b (q_limit q) s.
Proof. intros Hs Hb. split; [apply findEntry_first|by apply findEntryOnBranch_first]. Qed.

(** Durable payloads.  An entry reaches the storage only if it is JSON data
    (no undefined, function or symbol, and finite numbers) nested at most 512
    deep; otherwise the call reports an invalid payload, and the storage is
    not called. *)
Theorem durable_payload {S} `{SessionStorage S} p lane now (s : S) :
  (json_data (js_provisioned p) /\ height (js_provisioned p) <= MAX_JSON_DEPTH /\
     commitEntry p lane now s = appendEntry p lane now s) \/
  (~ (json_data (js_provisioned p) /\ height (js_provisioned p) <= MAX_JSON_DEPTH) /\
     exists e, commitEntry p lane now s = Err e /\ se_code e = invalid_payload).
Proof.
  unfold commitEntry, assertJsonSerializable. pose proof (assertDepth_spec (js_provisioned p) 0) as Hspec.
  rewrite Z.add_0_l in Hspec. destruct (assertJsonSerializableDepth _ 0) as [[]|e] eqn:He.
  - left. destruct (proj1 Hspec eq_refl) as [? ?]. done.
  - right. split; [intros Hj; by apply Hspec in Hj|]. exists e. split; [done|]. by eapply assertDepth_error.
Qed.

(** ** Witnesses *)

Definition two_mutations : list SessionMutation :=
  [MutEntry (Some "main") (mkEntry "a" 1 None 0 (BCustom "x" None)); MutName 2 (Some "n")].

(** A storage with an entry, forked, and an operation started in the fork; then two
    mutations replayed on a new state. *)
Lemma session_invariant_witness :
  (exists s, reachable s /\ state_ok (im_state s) /\ map e_id (entries (im_state s)) = ["u1"] /\
     (length <$> findOpenOperations "main" None (im_state s)) = Ok 1%nat) /\
  exists st, applyMutations invalidMutation two_mutations new_SessionState = Ok st /\ state_ok st /\
    JsMap.get "main" (lanes st) = Some (Some "a").
Proof.
  split.
  - exists forked_session. split; [exact forked_session_reachable|].
    split; [exact (proj1 (session_invariant forked_session forked_session_reachable))|].
    vm_compute. split; reflexivity.
  - destruct (applyMutations invalidMutation two_mutations new_SessionState) as [st|e] eqn:H.
    + exists st. destruct (session_invariant _ (reachable_new example_metadata)) as (_ & _ & Hseq).
      split; [reflexivity|split; [exact (Hseq invalidMutation two_mutations st H)|]].
      vm_compute in H. injection H as <-. reflexivity.
    + vm_compute in H. discriminate H.
Defined.

Definition main_query : EntryQuery := mkEntryQuery (Some Tmessage) None (Some oldestFirst) (Some (JInt 1)) None.

Lemma branch_query_witness :
  state_ok (im_state example_session) /\
  exists e path, entriesById (im_state example_session) !! "u2" = Some e /\
    chain (entriesById (im_state example_session)) e path /\ map e_id path = ["u2"; "c1"; "u1"] /\
    (map e_id <$> findEntriesOnBranch main_query no_bounds "u2" (im_state example_session)) = Ok ["u1"].
Proof.
  split; [exact (proj1 example_session_ok)|].
  pose proof (branch_query (im_state example_session) main_query no_bounds "u2" (proj1 example_session_ok)) as H.
  change (valid_query (q_limit main_query) (q_cursor main_query)) with true in H. cbv iota in H.
  destruct (entriesById (im_state example_session) !! "u2") as [e|] eqn:He; [|vm_compute in He; discriminate He].
  destruct H as (path & Hc & _ & Hu & _). exists e, path. split; [reflexivity|split; [exact Hc|split; [|vm_compute; reflexivity]]].
  assert (exists l, chain (entriesById (im_state example_session)) e l /\ map e_id l = ["u2"; "c1"; "u1"]) as (l & Hl & <-).
  { vm_compute in He. injection He as <-. eexists. split.
    - eapply chain_step; [reflexivity|vm_compute; reflexivity|]. eapply chain_step; [reflexivity|vm_compute; reflexivity|].
      apply chain_root. reflexivity.
    - reflexivity. }
  rewrite (Hu l Hl). reflexivity.
Defined.

Lemma open_operations_witness :
  (map r_id <$> findOpenOperations "main" (Some (JInt 2)) (im_state example_session)) = Ok ["op"] /\
  exists ops, findOpenOperations "main" (Some (JInt 2)) (im_state example_session) = Ok (take_limit (Some (JInt 2)) (rev ops)) /\
    forall r, r ∈ ops <-> open_in (records (im_state example_session)) "main" r.
Proof.
  split; [vm_compute; reflexivity|].
  destruct (open_operations (im_state example_session) "main" (Some (JInt 2)) (proj1 example_session_ok) ltac:(reflexivity))
    as (ops & Hops & _ & Hin).
  exists ops. split; [exact Hops|exact Hin].
Defined.

Lemma fork_replays_witness :
  exists ms st', createForkMutations (ForkBranch (Some "u2") None) (im_state example_session) = Ok ms /\
    applyMutations invalidMutation ms new_SessionState = Ok st' /\ state_ok st' /\ records st' = [] /\
    map e_id (entries st') = ["u1"; "c1"] /\ labels st' !! "u1" = Some "start".
Proof.
  destruct (createForkMutations (ForkBranch (Some "u2") None) (im_state example_session)) as [ms|e] eqn:Hms.
  2:{ vm_compute in Hms. discriminate Hms. }
  destruct (fork_replays invalidMutation (ForkBranch (Some "u2") None) (im_state example_session) ms
    (proj1 example_session_ok) Hms) as (es & ps & st' & _ & Happ & Hok & _ & Hr & _).
  exists ms, st'. split; [reflexivity|split; [exact Happ|split; [exact Hok|split; [exact Hr|]]]].
  vm_compute in Hms. injection Hms as <-. vm_compute in Happ. injection Happ as <-. split; vm_compute; reflexivity.
Defined.

Definition example_options : SessionCreateOptions := mkCreateOptions (Some "s") None.

Lemma repo_invariant_witness :
  exists r, rtc repo_step new_InMemorySessionRepo r /\ repo_ok r /\ map fst (repo_sessions r) = ["s"; "uuid"].
Proof.
  assert (exists r, rtc repo_step new_InMemorySessionRepo r /\ map fst (repo_sessions r) = ["s"; "uuid"]) as (r & Hr & Hs).
  { eexists. split.
    - eapply rtc_l; [eapply (step_create example_options "uuid" 5); vm_compute; reflexivity|].
      eapply rtc_l; [eapply (step_fork example_metadata ForkTree (mkCreateOptions None None) "uuid" 6); vm_compute; reflexivity|].
      apply rtc_refl.
    - reflexivity. }
  exists r. split; [exact Hr|split; [exact (proj1 (repo_invariant r Hr))|exact Hs]].
Defined.

Lemma append_message_witness :
  exists s', appendMessageToLane "main" (MUser (mkUserMessage (PlainContent "x") (JInt 1))) "u3" 7 example_session = Ok ("u3", s') /\
    getLeafIdForLane "main" s' = Ok (Some "u3").
Proof.
  destruct (appendMessageToLane "main" (MUser (mkUserMessage (PlainContent "x") (JInt 1))) "u3" 7 example_session)
    as [[id' s']|e] eqn:H; [|vm_compute in H; discriminate H].
  destruct (@append_message _ _ in_memory_laws "main" _ "u3" 7 example_session s' id' example_session_ok H)
    as (-> & _ & _ & parent & seq & _ & Hleaf & _).
  exists s'. split; [reflexivity|exact Hleaf].
Defined.

Lemma single_entry_queries_witness :
  option_map e_id <$> findEntryOnBranch "main" main_query no_bounds example_session = Ok (Some "u1") /\
  findEntry main_query example_session = hd_error <$> session_findEntries main_query example_session.
Proof.
  destruct (@single_entry_queries _ _ in_memory_laws "main" main_query no_bounds example_session example_session_ok) as [H1 _].
  { intros start [=]. }
  split; [vm_compute; reflexivity|exact H1].
Defined.

Lemma durable_payload_witness :
  exists e, commitEntry (mkProvisioned "x1" (BCustom "note" (Some JUndefined))) "main" 9 example_session = Err e /\
    se_code e = invalid_payload.
Proof.
  destruct (durable_payload (mkProvisioned "x1" (BCustom "note" (Some JUndefined))) "main" 9 example_session)
    as [(H & _)|[_ H]]; [|exact H].
  cbn in H. tauto.
Defined.
