(* ===== verification/SessionContext.v ===== *)
(** The model context of a branch: [packages/agent/src/harness/session/context.ts].

    A branch is a list of entries, root first.  Transforms and projectors are
    functions the caller passes. *)
From S2P Require Import Prelude JsNumber JsTree Messages SessionTypes.
Local Open Scope Z_scope.

Record SessionContext := mkSessionContext {
  ctx_messages : list AgentMessage;
  ctx_thinkingLevel : string;
  ctx_model : option (string * string);  (* provider and model id *)
  ctx_activeToolNames : option (list string);
}.

Abbreviation ContextEntryTransform := (list Entry -> list Entry).
Abbreviation CustomEntryContextMessageProjector := (Entry -> nat -> list Entry -> option (list AgentMessage)).

(** [entryProjectors[customType]], if any. *)
Record SessionContextBuildOptions := mkContextOptions {
  entryTransforms : list ContextEntryTransform;
  entryProjectors : string -> option CustomEntryContextMessageProjector;
}.

Definition default_context_options : SessionContextBuildOptions := mkContextOptions [] (fun _ => None).

Record ContextState := mkContextState {
  cs_thinkingLevel : string;
  cs_model : option (string * string);
  cs_activeToolNames : option (list string);
}.

Definition context_step (s : ContextState) (entry : Entry) : ContextState :=
  match e_body entry with
  | BThinkingLevel level => mkContextState level (cs_model s) (cs_activeToolNames s)
  | BModelChange provider modelId => mkContextState (cs_thinkingLevel s) (Some (provider, modelId)) (cs_activeToolNames s)
  | BMessage (MAssistant m) _ =>
      mkContextState (cs_thinkingLevel s) (Some (am_provider m, am_model m)) (cs_activeToolNames s)
  | BActiveTools names => mkContextState (cs_thinkingLevel s) (cs_model s) (Some names)
  | _ => s
  end.

Definition deriveSessionContextState (pathEntries : list Entry) : ContextState :=
  foldl context_step (mkContextState "off" None None) pathEntries.

(** The loop from the end: the last compaction and the entries after it. *)
Fixpoint last_compaction (rev_path after : list Entry) : option (Entry * list Entry) :=
  match rev_path with
  | [] => None
  | entry :: rest =>
      if bool_decide (entry_type entry = Tcompaction) then Some (entry, after) else last_compaction rest (entry :: after)
  end.

Definition defaultContextEntryTransform (pathEntries : list Entry) : list Entry :=
  match last_compaction (rev pathEntries) [] with
  | Some (compaction, after) => compaction :: after
  | None => pathEntries
  end.

Definition buildContextEntries (pathEntries : list Entry) (options : SessionContextBuildOptions) : list Entry :=
  foldl (fun entries transform => transform entries) (defaultContextEntryTransform pathEntries) (entryTransforms options).

Definition sessionEntryToContextMessages (entry : Entry) (index : nat) (entries : list Entry)
    (options : SessionContextBuildOptions) : list AgentMessage :=
  match e_body entry with
  | BMessage message _ =>
      match message with
      | MAssistant m => if bool_decide (am_stopReason m = SRdeferred) then [] else [message]
      | _ => [message]
      end
  | BCompaction summary retainedTail tokensBefore _ _ =>
      createCompactionSummaryMessage summary tokensBefore (JInt (e_timestamp entry)) :: retainedTail
  | BBranchSummary fromId summary _ _ =>
      if String.eqb summary "" then [] else [createBranchSummaryMessage summary fromId (JInt (e_timestamp entry))]
  | BCustom customType _ =>
      match entryProjectors options customType with
      | Some project => default [] (project entry index entries)
      | None => []
      end
  | _ => []
  end.

Definition contextMessages (options : SessionContextBuildOptions) (contextEntries : list Entry) : list AgentMessage :=
  concat (imap (fun index entry => sessionEntryToContextMessages entry index contextEntries options) contextEntries).

Definition buildSessionContext (pathEntries : list Entry) (options : SessionContextBuildOptions) : SessionContext :=
  let s := deriveSessionContextState pathEntries in
  let contextEntries := buildContextEntries pathEntries options in
  mkSessionContext (contextMessages options contextEntries)
    (cs_thinkingLevel s) (cs_model s) (cs_activeToolNames s).

(** ** The context after the last compaction *)

Definition not_compaction (e : Entry) : Prop := entry_type e <> Tcompaction.

Lemma last_compaction_none l : forall after, Forall not_compaction l -> last_compaction l after = None.
Proof.
  induction l as [|e l IH]; intros after Hl; cbn; [done|]. apply Forall_cons in Hl as [He Hl].
  rewrite bool_decide_eq_false_2 by done. by apply IH.
Qed.

Lemma last_compaction_found l c r : forall after, Forall not_compaction l -> entry_type c = Tcompaction ->
  last_compaction (l ++ c :: r) after = Some (c, rev l ++ after).
Proof.
  induction l as [|e l IH]; intros after Hl Hc; cbn [app last_compaction rev].
  - by rewrite bool_decide_eq_true_2.
  - apply Forall_cons in Hl as [He Hl]. rewrite bool_decide_eq_false_2, IH by done. by rewrite <- app_assoc.
Qed.

Lemma transform_compaction pre c post :
  entry_type c = Tcompaction -> Forall not_compaction post ->
  defaultContextEntryTransform (pre ++ c :: post) = c :: post.
Proof.
  intros Hc Hpost. unfold defaultContextEntryTransform. rewrite rev_app_distr. cbn. rewrite <- app_assoc. cbn.
  rewrite last_compaction_found; [by rewrite rev_involutive, app_nil_r| |done].
  apply Forall_forall. intros e. rewrite elem_of_rev. rewrite Forall_forall in Hpost. apply Hpost.
Qed.

Lemma transform_plain path : Forall not_compaction path -> defaultContextEntryTransform path = path.
Proof.
  intros Hp. unfold defaultContextEntryTransform. rewrite last_compaction_none; [done|].
  apply Forall_forall. intros e. rewrite elem_of_rev. rewrite Forall_forall in Hp. apply Hp.
Qed.

(** The messages of entries that no projector or deferral affects. *)
Definition plain_messages (e : Entry) : list AgentMessage :=
  sessionEntryToContextMessages e 0 [] default_context_options.

Lemma contextMessages_default es : contextMessages default_context_options es = concat (map plain_messages es).
Proof.
  unfold contextMessages. f_equal. apply list_eq. intros i. rewrite list_lookup_imap, list_lookup_fmap.
  destruct (es !! i) as [e|]; [|done]. cbn. f_equal.
Qed.

(** The last entry that sets a field wins. *)
Lemma derive_app s l1 l2 : foldl context_step s (l1 ++ l2) = foldl context_step (foldl context_step s l1) l2.
Proof. apply foldl_app. Qed.

Definition sets_model (e : Entry) : option (string * string) :=
  match e_body e with
  | BModelChange provider modelId => Some (provider, modelId)
  | BMessage (MAssistant m) _ => Some (am_provider m, am_model m)
  | _ => None
  end.

Definition sets_thinking (e : Entry) : option string := match e_body e with BThinkingLevel level => Some level | _ => None end.
Definition sets_tools (e : Entry) : option (list string) := match e_body e with BActiveTools names => Some names | _ => None end.

(** The last value in a list of settings. *)
Definition last_set {A} (f : Entry -> option A) (init : A) (l : list Entry) : A := default init (last (omap f l)).

Lemma last_set_snoc {A} (f : Entry -> option A) init l e :
  last_set f init (l ++ [e]) = default (last_set f init l) (f e).
Proof.
  unfold last_set. rewrite omap_app. cbn. destruct (f e); [by rewrite last_snoc|by rewrite app_nil_r].
Qed.

Lemma derive_last path :
  deriveSessionContextState path =
  mkContextState (last_set sets_thinking "off" path) (last_set (fun e => Some <$> sets_model e) None path)
    (last_set (fun e => Some <$> sets_tools e) None path).
Proof.
  induction path as [|e path IH] using rev_ind; [done|]. unfold deriveSessionContextState in *.
  rewrite foldl_app, IH, !last_set_snoc. cbn. unfold context_step, sets_thinking, sets_model, sets_tools.
  destruct (e_body e) as [[]| | | | | |]; done.
Qed.

(** C8: the context of a branch.  Without options, the messages are the
    summary of the last compaction, the tail it retained and the messages of the
    entries after it (of all entries if there is no compaction); model, thinking
    level and tools are the last ones set anywhere on the branch, also before
    the compaction. *)
Theorem session_context pre c post summary tail tokens details usage :
  e_body c = BCompaction summary tail tokens details usage -> Forall not_compaction post ->
  let context path := buildSessionContext path default_context_options in
  ctx_messages (context (pre ++ c :: post)) =
    createCompactionSummaryMessage summary tokens (JInt (e_timestamp c)) :: tail ++ concat (map plain_messages post) /\
  ctx_messages (context post) = concat (map plain_messages post) /\
  forall path, ctx_thinkingLevel (context path) = last_set sets_thinking "off" path /\
    ctx_model (context path) = last_set (fun e => Some <$> sets_model e) None path /\
    ctx_activeToolNames (context path) = last_set (fun e => Some <$> sets_tools e) None path.
Proof.
  intros Hc Hpost. cbv zeta. unfold buildSessionContext, buildContextEntries.
  cbn [ctx_messages ctx_thinkingLevel ctx_model ctx_activeToolNames entryTransforms default_context_options foldl].
  split_and!.
  - rewrite transform_compaction; [|unfold entry_type; by rewrite Hc|done]. rewrite contextMessages_default.
    cbn [map concat]. unfold plain_messages at 1, sessionEntryToContextMessages. by rewrite Hc.
  - by rewrite transform_plain, contextMessages_default.
  - intros path. by rewrite derive_last.
Qed.

Definition ex_user (id text : string) : Entry :=
  mkEntry id 1 None 0 (BMessage (MUser (mkUserMessage (PlainContent text) (JInt 0))) false).
Definition ex_compaction : Entry := mkEntry "c" 2 None 5 (BCompaction "sum" [] (JInt 10) None None).

Lemma session_context_witness :
  ctx_messages (buildSessionContext [ex_user "a" "old"; ex_compaction; ex_user "b" "new"] default_context_options) =
  [createCompactionSummaryMessage "sum" (JInt 10) (JInt 5); MUser (mkUserMessage (PlainContent "new") (JInt 0))].
Proof.
  destruct (session_context [ex_user "a" "old"] ex_compaction [ex_user "b" "new"] "sum" [] (JInt 10) None None
    ltac:(reflexivity) ltac:(repeat constructor; discriminate)) as [H _].
  exact H.
Defined.
