(* ===== verification/JsonText.v ===== *)
(** JSON text: what the modelled code uses of [JSON.stringify] and [JSON.parse].

    A text is a list of characters; characters outside ASCII are the bytes of
    their UTF-8 form and are copied, so strings are taken to be well-formed.
    [JSON.parse] is a machine that reads one character at a time, with a stack of the
    arrays and objects it is in.  The shortest decimal form of a number that is no safe
    integer ([Number.prototype.toString]) and its reading are parameters. *)
From S2P Require Import Prelude JsNumber JsText JsTree.
From Stdlib Require Import Ascii DecimalString DecimalZ.
Local Open Scope Z_scope.

Abbreviation text := (list ascii).

Definition chars (s : string) : text := String.list_ascii_of_string s.
Definition unchars (t : text) : string := String.string_of_list_ascii t.
Definition char (code : Z) : ascii := Ascii.ascii_of_N (Z.to_N code).
Definition code (c : ascii) : Z := Z.of_N (Ascii.N_of_ascii c).

Definition LF : ascii := char 10.
Definition DQUOTE : ascii := char 34.
Definition BACKSLASH : ascii := char 92.

(** ** Numbers *)

Definition decimal (z : Z) : text := chars (NilEmpty.string_of_int (Z.to_int z)).

Definition is_digit_char (c : ascii) : bool := (48 <=? code c) && (code c <=? 57).
Definition is_exponent_char (c : ascii) : bool := (code c =? 69) || (code c =? 101).
Definition is_sign_char (c : ascii) : bool := (code c =? 43) || (code c =? 45).
Definition is_number_char (c : ascii) : bool :=
  is_digit_char c || is_exponent_char c || is_sign_char c || (code c =? 46).

Fixpoint span (p : ascii -> bool) (t : text) : text * text :=
  match t with
  | c :: t' => if p c then let '(a, b) := span p t' in (c :: a, b) else ([], t)
  | [] => ([], [])
  end.

(** An integer literal of the grammar: the decimal form of its value, or [-0]. *)
Definition integer_literal (t : text) : option Z :=
  match NilEmpty.int_of_string (unchars t) with
  | Some d => if decide (decimal (Z.of_int d) = t) then Some (Z.of_int d) else None
  | None => None
  end.
Definition integer_part_ok (t : text) : bool := bool_decide (is_Some (integer_literal t)) || bool_decide (t = chars "-0").

Definition digits_ok (t : text) : bool := negb (bool_decide (t = [])) && forallb is_digit_char t.
Definition exponent_ok (t : text) : bool :=
  match t with
  | [] => true
  | e :: t' => is_exponent_char e && digits_ok (match t' with s :: t'' => if is_sign_char s then t'' else t' | [] => [] end)
  end.
Definition fraction_ok (t : text) : bool :=
  match t with
  | [] => true
  | c :: t' =>
      if code c =? 46 then let '(fraction, exponent) := span is_digit_char t' in digits_ok fraction && exponent_ok exponent
      else exponent_ok t
  end.
Definition number_ok (t : text) : bool :=
  let '(integer, rest) := span (fun c => is_digit_char c || (code c =? 45)) t in integer_part_ok integer && fraction_ok rest.

(** ** Strings *)

Definition hex_digit (d : Z) : ascii := char (if d <? 10 then 48 + d else 87 + d).
Definition hex_value (c : ascii) : option Z :=
  let z := code c in
  if (48 <=? z) && (z <=? 57) then Some (z - 48)
  else if (65 <=? z) && (z <=? 70) then Some (z - 55)
  else if (97 <=? z) && (z <=? 102) then Some (z - 87)
  else None.

Definition escape_char (c : ascii) : text :=
  let z := code c in
  if z =? 34 then [BACKSLASH; DQUOTE]
  else if z =? 92 then [BACKSLASH; BACKSLASH]
  else if z =? 8 then [BACKSLASH; char 98]
  else if z =? 9 then [BACKSLASH; char 116]
  else if z =? 10 then [BACKSLASH; char 110]
  else if z =? 12 then [BACKSLASH; char 102]
  else if z =? 13 then [BACKSLASH; char 114]
  else if z <? 32 then [BACKSLASH; char 117; char 48; char 48; hex_digit (z / 16); hex_digit (z mod 16)]
  else [c].

Definition quote (s : string) : text := DQUOTE :: flat_map escape_char (chars s) ++ [DQUOTE].

(** The character of a one-letter escape. *)
Definition unescape (c : ascii) : option ascii :=
  let z := code c in
  if (z =? 34) || (z =? 92) || (z =? 47) then Some c
  else if z =? 98 then Some (char 8)
  else if z =? 116 then Some (char 9)
  else if z =? 110 then Some (char 10)
  else if z =? 102 then Some (char 12)
  else if z =? 114 then Some (char 13)
  else None.

Definition utf8_text (c : Z) : text := map char (utf8_char c).

(** The words of the grammar. *)
Definition words : list (text * jstree) :=
  [(chars "null", JNull); (chars "true", JBool true); (chars "false", JBool false)].

Section json.
(** [Number.prototype.toString] and the value of a number literal, where they are not
    those of a safe integer. *)
Context (number_text : jsnum -> text) (number_value : text -> jsnum).

(** ** [JSON.stringify] *)

Definition stringify_num (n : jsnum) : text :=
  if is_neg_zero n then decimal 0
  else match n with
       | JInt z => if is_safe_Z z then decimal z else number_text n
       | _ => if isFinite n then number_text n else chars "null"
       end.

Definition separated (ts : list text) : text :=
  match ts with [] => [] | t :: ts' => t ++ flat_map (fun t => char 44 :: t) ts' end.

(** [None] is the result [undefined]. *)
Fixpoint stringify (t : jstree) : option text :=
  match t with
  | JNull => Some (chars "null")
  | JUndefined | JOther _ => None
  | JBool b => Some (chars (if b then "true" else "false"))
  | JNum n => Some (stringify_num n)
  | JStr s => Some (quote s)
  | JArr items => Some (char 91 :: separated (map (fun i => default (chars "null") (stringify i)) items) ++ [char 93])
  | JObj props =>
      Some (char 123 :: separated (omap (fun p => v ← stringify p.2; Some (quote p.1 ++ char 58 :: v)) props) ++ [char 125])
  end.

(** ** [JSON.parse] *)

Inductive frame : Type :=
  | InArray (items : list jstree)
  | InObject (props : list (string * jstree))
  | InMember (props : list (string * jstree)) (key : string).

Inductive string_for : Type := ForKey | ForValue.

(** [high] is an escaped high surrogate whose partner may follow. *)
Inductive mode : Type :=
  | Value (may_close : bool)
  | After (v : jstree)
  | Key (may_close : bool)
  | Colon (key : string)
  | InString (for_ : string_for) (acc : text) (high : option Z)
  | Escaped (for_ : string_for) (acc : text) (high : option Z)
  | Unicode (for_ : string_for) (acc : text) (high : option Z) (digits : list Z)
  | Number (acc : text)
  | Word (rest : text) (v : jstree).

Record machine := mkMachine { m_mode : mode; m_stack : list frame }.

Definition is_space (c : ascii) : bool := (code c =? 32) || (code c =? 9) || (code c =? 10) || (code c =? 13).

Definition literal_value (t : text) : option jsnum :=
  match integer_literal t with
  | Some z => Some (if is_safe_Z z then JInt z else number_value t)
  | None => if decide (t = chars "-0") then Some (JFrac NEG_ZERO_BITS) else if number_ok t then Some (number_value t) else None
  end.

(** A value is complete and [c] follows. *)
Definition after_value (v : jstree) (c : ascii) (stack : list frame) : option machine :=
  if is_space c then Some (mkMachine (After v) stack)
  else match stack with
       | InArray items :: stack' =>
           if code c =? 44 then Some (mkMachine (Value false) (InArray (items ++ [v]) :: stack'))
           else if code c =? 93 then Some (mkMachine (After (JArr (items ++ [v]))) stack')
           else None
       | InMember props key :: stack' =>
           if code c =? 44 then Some (mkMachine (Key false) (InObject (JsMap.set key v props) :: stack'))
           else if code c =? 125 then Some (mkMachine (After (JObj (JsMap.set key v props))) stack')
           else None
       | _ => None
       end.

Definition start_value (may_close : bool) (c : ascii) (stack : list frame) : option machine :=
  if is_space c then Some (mkMachine (Value may_close) stack)
  else if code c =? 34 then Some (mkMachine (InString ForValue [] None) stack)
  else if code c =? 91 then Some (mkMachine (Value true) (InArray [] :: stack))
  else if code c =? 123 then Some (mkMachine (Key true) (InObject [] :: stack))
  else if is_number_char c then Some (mkMachine (Number [c]) stack)
  else if (code c =? 93) && may_close then
    match stack with InArray items :: stack' => Some (mkMachine (After (JArr items)) stack') | _ => None end
  else match list_find (fun w => head w.1 = Some c) words with
       | Some (_, (w, v)) => Some (mkMachine (Word (tail w) v) stack)
       | None => None
       end.

Definition start_key (may_close : bool) (c : ascii) (stack : list frame) : option machine :=
  if is_space c then Some (mkMachine (Key may_close) stack)
  else if code c =? 34 then Some (mkMachine (InString ForKey [] None) stack)
  else if (code c =? 125) && may_close then
    match stack with InObject props :: stack' => Some (mkMachine (After (JObj props)) stack') | _ => None end
  else None.

(** The text of an unpaired surrogate. *)
Definition flush (acc : text) (high : option Z) : text := match high with Some h => acc ++ utf8_text h | None => acc end.

Definition end_string (for_ : string_for) (s : string) : mode :=
  match for_ with ForKey => Colon s | ForValue => After (JStr s) end.

Definition in_string (for_ : string_for) (acc : text) (high : option Z) (c : ascii) : option mode :=
  if code c =? 34 then Some (end_string for_ (unchars (flush acc high)))
  else if code c =? 92 then Some (Escaped for_ acc high)
  else if code c <? 32 then None
  else Some (InString for_ (flush acc high ++ [c]) None).

Definition escaped (for_ : string_for) (acc : text) (high : option Z) (c : ascii) : option mode :=
  if code c =? 117 then Some (Unicode for_ acc high [])
  else match unescape c with Some c' => Some (InString for_ (flush acc high ++ [c']) None) | None => None end.

Definition unicode (for_ : string_for) (acc : text) (high : option Z) (u : Z) : mode :=
  match high with
  | Some h =>
      if is_low_surrogate u then InString for_ (acc ++ utf8_text (combine_surrogates h u)) None
      else if is_high_surrogate u then InString for_ (flush acc high) (Some u)
      else InString for_ (flush acc high ++ utf8_text u) None
  | None => if is_high_surrogate u then InString for_ acc (Some u) else InString for_ (acc ++ utf8_text u) None
  end.

Definition unicode_digit (for_ : string_for) (acc : text) (high : option Z) (digits : list Z) (c : ascii) : option mode :=
  match hex_value c, digits with
  | Some d, [a; b; e] => Some (unicode for_ acc high (((a * 16 + b) * 16 + e) * 16 + d))
  | Some d, _ => Some (Unicode for_ acc high (digits ++ [d]))
  | None, _ => None
  end.

Definition read_colon (key : string) (c : ascii) (stack : list frame) : option machine :=
  if is_space c then Some (mkMachine (Colon key) stack)
  else if code c =? 58 then
    match stack with InObject props :: stack' => Some (mkMachine (Value false) (InMember props key :: stack')) | _ => None end
  else None.

Definition read_char (m : machine) (c : ascii) : option machine :=
  let stack := m_stack m in
  let same o := match o with Some mode => Some (mkMachine mode stack) | None => None end in
  match m_mode m with
  | Value may_close => start_value may_close c stack
  | After v => after_value v c stack
  | Key may_close => start_key may_close c stack
  | Colon key => read_colon key c stack
  | InString for_ acc high => same (in_string for_ acc high c)
  | Escaped for_ acc high => same (escaped for_ acc high c)
  | Unicode for_ acc high digits => same (unicode_digit for_ acc high digits c)
  | Number acc =>
      if is_number_char c then Some (mkMachine (Number (acc ++ [c])) stack)
      else match literal_value acc with Some n => after_value (JNum n) c stack | None => None end
  | Word [] v => after_value v c stack
  | Word (w :: rest) v => if decide (w = c) then Some (mkMachine (Word rest v) stack) else None
  end.

Fixpoint read (m : machine) (t : text) : option machine :=
  match t with [] => Some m | c :: t' => match read_char m c with Some m' => read m' t' | None => None end end.

(** The value at the end of the text. *)
Definition final_value (m : machine) : option jstree :=
  match m_stack m, m_mode m with
  | [], After v => Some v
  | [], Number acc => JNum <$> literal_value acc
  | [], Word [] v => Some v
  | _, _ => None
  end.

(** [None] is the thrown [SyntaxError]. *)
Definition parse (t : text) : option jstree := read (mkMachine (Value false) []) t ≫= final_value.
End json.
