(* ===== verification/JsonRoundTrip.v ===== *)
(** Facts of the JSON text: reading back what was written, what a text never
    holds, and that no proper part of a written object is a text by itself. *)
From S2P Require Import Prelude JsNumber JsText JsTree JsonText.
From Stdlib Require Import Ascii DecimalString DecimalZ.
Local Open Scope Z_scope.

(** ** Characters *)

Lemma unchars_chars s : unchars (chars s) = s.
Proof. apply String.string_of_list_ascii_of_string. Qed.

Lemma code_char z : 0 <= z < 256 -> code (char z) = z.
Proof. intros Hz. unfold code, char. rewrite Ascii.N_ascii_embedding; lia. Qed.

(** ** Numbers *)

Lemma literal_decimal z : integer_literal (decimal z) = Some z.
Proof.
  unfold integer_literal, decimal. rewrite unchars_chars, NilEmpty.isi, DecimalZ.of_to. by case_decide.
Qed.

Lemma digits_number_chars d : Forall (fun c => is_number_char c = true) (chars (NilEmpty.string_of_uint d)).
Proof. induction d; cbn; constructor; done. Qed.

Lemma decimal_number_chars z : Forall (fun c => is_number_char c = true) (decimal z).
Proof. unfold decimal. destruct (Z.to_int z); cbn; [|constructor; [done|]]; apply digits_number_chars. Qed.

Lemma decimal_nonempty z : decimal z <> [].
Proof.
  intros Hz. pose proof (literal_decimal z) as Hl. rewrite Hz in Hl. unfold integer_literal in Hl. cbn in Hl. by case_decide.
Qed.

(** The integers that are numbers: the safe ones, and the other values of a double. *)
Definition is_double (z : Z) : Prop := is_safe_Z z = true \/ exists bits, 0 <= bits < 2 ^ 64 /\ num_of_bits bits = JInt z.

(** A number that round trips: finite, and not the negative zero, which is written as 0. *)
Definition json_num (n : jsnum) : Prop :=
  match n with JInt z => is_double z | JFrac _ => wf_num n end /\ isFinite n = true /\ is_neg_zero n = false.

(** What is written by the platform's conversion. *)
Definition unsafe_num (n : jsnum) : Prop :=
  json_num n /\ match n with JInt z => is_safe_Z z = false | JFrac _ => True end.

Section laws.
Context (number_text : jsnum -> text) (number_value : text -> jsnum).

(** The documented behaviour of the conversions: a number's text is a literal that reads as the number. *)
Record number_laws : Prop := {
  nl_chars : forall n, unsafe_num n -> Forall (fun c => is_number_char c = true) (number_text n);
  nl_value : forall n, unsafe_num n -> literal_value number_value (number_text n) = Some n;
}.

Hypothesis Hlaws : number_laws.
Abbreviation stringify := (stringify number_text).
Abbreviation read := (read number_value).
Abbreviation read_char := (read_char number_value).
Abbreviation literal_value := (literal_value number_value).

Lemma literal_nonempty t n : literal_value t = Some n -> t <> [].
Proof. by intros H ->. Qed.

Lemma num_text_spec n : json_num n ->
  literal_value (stringify_num number_text n) = Some n /\
  Forall (fun c => is_number_char c = true) (stringify_num number_text n).
Proof.
  intros Hn. pose proof Hn as (_ & Hf & Hz). unfold stringify_num. rewrite Hz. destruct n as [z|b].
  - destruct (is_safe_Z z) eqn:Hs; [|by split; apply Hlaws].
    split; [|apply decimal_number_chars]. unfold JsonText.literal_value. by rewrite literal_decimal, Hs.
  - rewrite Hf. by split; apply Hlaws.
Qed.

(** ** Trees *)

(** Data that JSON keeps as it is. *)
Fixpoint json_value (t : jstree) : Prop :=
  match t with
  | JNull | JBool _ | JStr _ => True
  | JNum n => json_num n
  | JUndefined | JOther _ => False
  | JArr ts => fold_right (fun t acc => json_value t /\ acc) True ts
  | JObj ps => NoDup ps.*1 /\ fold_right (fun p acc => json_value p.2 /\ acc) True ps
  end.

Lemma json_array ts : json_value (JArr ts) <-> Forall json_value ts.
Proof. cbn. induction ts; cbn; [done|]. by rewrite Forall_cons, IHts. Qed.

Lemma json_object ps : json_value (JObj ps) <-> NoDup ps.*1 /\ Forall (fun p => json_value p.2) ps.
Proof.
  cbn. enough (fold_right (fun p acc => json_value p.2 /\ acc) True ps <-> Forall (fun p => json_value p.2) ps) by naive_solver.
  induction ps as [|p ps IH]; cbn; [done|]. by rewrite Forall_cons, IH.
Qed.

(** The text of a value. *)
Definition text_of (t : jstree) : text := default [] (stringify t).

Lemma stringify_value t : json_value t -> stringify t = Some (text_of t).
Proof. by destruct t. Qed.

Definition member_text (p : string * jstree) : text := quote p.1 ++ char 58 :: text_of p.2.

Lemma array_text ts : Forall json_value ts -> text_of (JArr ts) = char 91 :: separated (map text_of ts) ++ [char 93].
Proof.
  intros Hts. unfold text_of at 1. cbn [JsonText.stringify from_option]. unfold id. do 3 f_equal. apply map_ext_in. intros t Ht.
  rewrite Forall_forall in Hts. rewrite stringify_value; [done|]. by apply Hts, list_elem_of_In.
Qed.

Lemma object_text ps : Forall (fun p => json_value p.2) ps ->
  text_of (JObj ps) = char 123 :: separated (map member_text ps) ++ [char 125].
Proof.
  intros Hps. unfold text_of at 1. cbn [JsonText.stringify from_option]. unfold id. do 3 f_equal.
  induction Hps as [|p ps Hp _ IH]; cbn; [done|]. rewrite stringify_value by done. cbn. f_equal. exact IH.
Qed.

(** ** Reading *)

Lemma read_app m a b : read m (a ++ b) = read m a ≫= fun m' => read m' b.
Proof. revert m. induction a as [|c a IH]; intros m; cbn; [done|]. destruct (read_char m c); [apply IH|done]. Qed.

(** The machine has read the value [v], on the stack. *)
Definition complete (m : machine) (v : jstree) (stack : list frame) : Prop :=
  m_stack m = stack /\
  match m_mode m with
  | After v' => v' = v
  | Word [] v' => v' = v
  | Number acc => exists n, literal_value acc = Some n /\ v = JNum n
  | _ => False
  end.

Lemma complete_next m v stack c : complete m v stack -> is_number_char c = false -> read_char m c = after_value v c stack.
Proof.
  destruct m as [[] st]; intros [<- H] Hc; cbn in *; try done; [by subst|..].
  - rewrite Hc. by destruct H as (n & -> & ->).
  - destruct rest; [by subst|done].
Qed.

Lemma complete_finish m v : complete m v [] -> final_value number_value m = Some v.
Proof.
  destruct m as [[] st]; intros [Hst H]; cbn in *; subst; cbn; try done.
  - by destruct H as (n & -> & ->).
  - destruct rest; [by subst|done].
Qed.

Lemma read_escaped f acc c stack :
  read (mkMachine (InString f acc None) stack) (escape_char c) = Some (mkMachine (InString f (acc ++ [c]) None) stack).
Proof. destruct c as [[] [] [] [] [] [] [] []]; reflexivity. Qed.

Lemma read_quoted f s stack : read (mkMachine (InString f [] None) stack) (flat_map escape_char (chars s) ++ [DQUOTE]) =
  Some (mkMachine (end_string f s) stack).
Proof.
  enough (forall t acc, read (mkMachine (InString f acc None) stack) (flat_map escape_char t ++ [DQUOTE]) =
    Some (mkMachine (end_string f (unchars (acc ++ t))) stack)) as H by (rewrite H; cbn; by rewrite unchars_chars).
  induction t as [|c t IH]; intros acc; cbn [flat_map app]; [by rewrite app_nil_r|].
  rewrite <- app_assoc, read_app, read_escaped. cbn [mbind option_bind]. by rewrite IH, <- app_assoc.
Qed.

Definition reads_value (t : jstree) : Prop :=
  forall b stack, exists m, read (mkMachine (Value b) stack) (text_of t) = Some m /\ complete m t stack.

Lemma read_number b stack t n : literal_value t = Some n -> Forall (fun c => is_number_char c = true) t ->
  exists m, read (mkMachine (Value b) stack) t = Some m /\ complete m (JNum n) stack.
Proof.
  intros Hl Hc. pose proof (literal_nonempty _ _ Hl) as Hne. destruct t as [|c t]; [done|].
  assert (forall t acc, Forall (fun c => is_number_char c = true) t ->
    read (mkMachine (Number acc) stack) t = Some (mkMachine (Number (acc ++ t)) stack)) as Hrest.
  { clear. induction t as [|c t IH]; intros acc Ht; [by rewrite app_nil_r|]. apply Forall_cons in Ht as [Hc Ht]. cbn.
    rewrite Hc, IH by done. by rewrite <- app_assoc. }
  apply Forall_cons in Hc as [Hc Ht]. exists (mkMachine (Number (c :: t)) stack). split; [|split; [done|by exists n]].
  cbn [JsonText.read JsonText.read_char m_mode m_stack]. assert (start_value b c stack = Some (mkMachine (Number [c]) stack)) as ->.
  { clear -Hc. destruct c as [[] [] [] [] [] [] [] []]; try discriminate Hc; reflexivity. }
  by rewrite Hrest.
Qed.

(** The elements after the first. *)
Lemma read_items stack ts : Forall reads_value ts -> forall done_ last m, complete m last (InArray done_ :: stack) ->
  exists m', read m (flat_map (fun t => char 44 :: t) (map text_of ts) ++ [char 93]) = Some m' /\
    complete m' (JArr (done_ ++ last :: ts)) stack.
Proof.
  induction 1 as [|t ts Ht _ IH]; intros done_ last m Hm.
  - cbn [map flat_map app JsonText.read]. rewrite (complete_next _ _ _ _ Hm) by done. eexists. split; [reflexivity|done].
  - cbn [map flat_map]. rewrite <- app_assoc. cbn [app JsonText.read]. rewrite (complete_next _ _ _ _ Hm) by done.
    change (after_value last (char 44) _) with (Some (mkMachine (Value false) (InArray (done_ ++ [last]) :: stack))). cbv iota.
    destruct (Ht false (InArray (done_ ++ [last]) :: stack)) as (m1 & Hr & Hc). rewrite read_app, Hr. cbn [mbind option_bind].
    destruct (IH _ _ _ Hc) as (m2 & Hr2 & Hc2). exists m2. split; [done|]. by rewrite <- app_assoc in Hc2.
Qed.

(** A key, its colon and its value. *)
Lemma read_member b stack props key t : reads_value t -> exists m,
  read (mkMachine (Key b) (InObject props :: stack)) (member_text (key, t)) = Some m /\
  complete m t (InMember props key :: stack).
Proof.
  intros Ht. unfold member_text, quote. cbn [fst snd app]. cbn [JsonText.read].
  change (read_char (mkMachine (Key b) (InObject props :: stack)) DQUOTE) with
    (Some (mkMachine (InString ForKey [] None) (InObject props :: stack))). cbv iota.
  rewrite read_app, read_quoted. cbn [mbind option_bind JsonText.read].
  change (read_char _ (char 58)) with (Some (mkMachine (Value false) (InMember props key :: stack))). cbv iota. apply Ht.
Qed.

Lemma read_members stack ps : Forall (fun p => reads_value p.2) ps -> forall props key last m,
  complete m last (InMember props key :: stack) -> NoDup ((props ++ (key, last) :: ps).*1) ->
  exists m', read m (flat_map (fun t => char 44 :: t) (map member_text ps) ++ [char 125]) = Some m' /\
    complete m' (JObj (props ++ (key, last) :: ps)) stack.
Proof.
  induction 1 as [|[k t] ps Ht _ IH]; intros props key last m Hm Hnd;
    (assert (JsMap.set key last props = props ++ [(key, last)]) as Hset;
     [apply JsMap.set_new, JsMap.get_None; unfold JsMap.keys; rewrite fmap_app in Hnd; apply NoDup_app in Hnd as (_ & Hd & _);
      intros Hin; apply (Hd _ Hin); left|]).
  - cbn [map flat_map app JsonText.read]. rewrite (complete_next _ _ _ _ Hm) by done. eexists. split; [reflexivity|].
    by rewrite Hset.
  - cbn [map flat_map]. rewrite <- app_assoc. cbn [app JsonText.read]. rewrite (complete_next _ _ _ _ Hm) by done.
    change (after_value last (char 44) _) with (Some (mkMachine (Key false) (InObject (JsMap.set key last props) :: stack))).
    cbv iota. rewrite Hset. destruct (read_member false stack (props ++ [(key, last)]) k t Ht) as (m1 & Hr & Hc).
    rewrite read_app, Hr. cbn [mbind option_bind].
    destruct (IH _ _ _ _ Hc) as (m2 & Hr2 & Hc2); [by rewrite <- app_assoc|]. exists m2. split; [done|].
    by rewrite <- app_assoc in Hc2.
Qed.

Lemma read_value t : json_value t -> reads_value t.
Proof.
  induction t as [| |b0|n|s|ts IH|ps IH|s] using jstree_ind'; intros Ht b stack; try done.
  - eexists; split; [reflexivity|done].
  - destruct b0; (eexists; split; [reflexivity|done]).
  - destruct (num_text_spec n Ht). by apply read_number.
  - change (text_of (JStr s)) with (quote s). unfold quote. cbn [JsonText.read].
    change (read_char _ DQUOTE) with (Some (mkMachine (InString ForValue [] None) stack)). cbv iota. rewrite read_quoted.
    eexists; split; [reflexivity|done].
  - apply json_array in Ht. rewrite array_text by done. cbn [JsonText.read].
    change (read_char _ (char 91)) with (Some (mkMachine (Value true) (InArray [] :: stack))). cbv iota.
    assert (Forall reads_value ts) as Hr by (apply Forall_forall; intros t Hin; rewrite Forall_forall in IH, Ht; auto).
    destruct Hr as [|t ts Hr Hrs]; [eexists; split; [reflexivity|done]|]. cbn [map separated]. rewrite <- app_assoc, read_app.
    destruct (Hr true (InArray [] :: stack)) as (m & -> & Hm). cbn [mbind option_bind]. by apply (read_items stack ts Hrs []).
  - apply json_object in Ht as [Hnd Ht]. rewrite object_text by done. cbn [JsonText.read].
    change (read_char _ (char 123)) with (Some (mkMachine (Key true) (InObject [] :: stack))). cbv iota.
    assert (Forall (fun p => reads_value p.2) ps) as Hr
      by (apply Forall_forall; intros p Hin; rewrite Forall_forall in IH, Ht; auto).
    destruct Hr as [|[k t] ps Hr Hrs]; [eexists; split; [reflexivity|done]|]. cbn [map separated]. rewrite <- app_assoc, read_app.
    destruct (read_member true stack [] k t Hr) as (m & -> & Hm). cbn [mbind option_bind]. by apply (read_members stack ps Hrs []).
Qed.

Lemma parse_text t : json_value t -> parse number_value (text_of t) = Some t.
Proof.
  intros Ht. unfold parse. destruct (read_value t Ht false []) as (m & -> & Hm). cbn [mbind option_bind]. by apply complete_finish.
Qed.
(** ** What a text does not hold *)

Definition no_lf (t : text) : Prop := Forall (fun c => c <> LF) t.

Lemma no_lf_escape s : no_lf (flat_map escape_char s).
Proof.
  induction s as [|c s IH]; cbn; [constructor|]. apply Forall_app. split; [|done].
  destruct c as [[] [] [] [] [] [] [] []]; vm_compute; repeat constructor; discriminate.
Qed.

Lemma no_lf_quote s : no_lf (quote s).
Proof. unfold quote. constructor; [done|]. apply Forall_app. split; [apply no_lf_escape|by repeat constructor]. Qed.

Lemma no_lf_number t : Forall (fun c => is_number_char c = true) t -> no_lf t.
Proof. intros Ht. eapply Forall_impl; [exact Ht|]. by intros c Hc ->. Qed.

Lemma no_lf_separated (ts : list text) : Forall no_lf ts -> no_lf (separated ts).
Proof.
  destruct 1 as [|t ts Ht Hts]; cbn; [constructor|]. apply Forall_app. split; [done|].
  induction Hts as [|t' ts Ht' _ IH]; cbn; [constructor|]. constructor; [done|]. by apply Forall_app.
Qed.

Lemma text_no_lf t : json_value t -> no_lf (text_of t).
Proof.
  induction t as [| |b0|n|s|ts IH|ps IH|s] using jstree_ind'; intros Ht; try done.
  - by repeat constructor.
  - by destruct b0; repeat constructor.
  - apply no_lf_number, num_text_spec, Ht.
  - apply no_lf_quote.
  - apply json_array in Ht. rewrite array_text by done. constructor; [done|]. apply Forall_app. split; [|by repeat constructor].
    apply no_lf_separated, Forall_fmap, Forall_forall. intros t Hin. rewrite Forall_forall in IH, Ht. apply IH; [done|by apply Ht].
  - apply json_object in Ht as [_ Ht]. rewrite object_text by done. constructor; [done|]. apply Forall_app.
    split; [|by repeat constructor]. apply no_lf_separated, Forall_fmap, Forall_forall. intros [k t] Hin.
    rewrite Forall_forall in IH, Ht. change (no_lf (quote k ++ char 58 :: text_of t)). apply Forall_app.
    split; [apply no_lf_quote|]. constructor; [done|]. apply (IH _ Hin), (Ht _ Hin).
Qed.

(** ** Parts of a written object *)

(** A complete text can only be followed by more of a number, or by spaces. *)
Definition at_top (m : machine) : Prop :=
  m_stack m = [] /\ match m_mode m with After _ | Number _ | Word [] _ => True | _ => False end.

Lemma finish_top m v : final_value number_value m = Some v -> at_top m.
Proof. unfold final_value, at_top. destruct m as [[] []]; cbn; try done. by destruct rest. Qed.

Lemma after_top v c m : after_value v c [] = Some m -> at_top m /\ c <> char 125.
Proof. unfold after_value. destruct (is_space c) eqn:Hc; [|done]. intros [= <-]. split; [done|]. by intros ->. Qed.

Lemma read_top m c m' : at_top m -> read_char m c = Some m' -> at_top m' /\ c <> char 125.
Proof.
  destruct m as [mode st]. intros [Hst H] Hr. cbn in *. subst. destruct mode as [| | | | | | |acc|[|w rest] v]; cbn in *; try done;
    [by apply after_top in Hr| |by apply after_top in Hr].
  destruct (is_number_char c) eqn:Hc; [injection Hr as <-; split; [done|by intros ->]|].
  destruct (literal_value acc); [|done]. by apply after_top in Hr.
Qed.

Lemma read_top_all m t m' : at_top m -> read m t = Some m' -> Forall (fun c => c <> char 125) t.
Proof.
  revert m. induction t as [|c t IH]; intros m Hm Hr; [constructor|]. cbn in Hr. destruct (read_char m c) as [m1|] eqn:Hc; [|done].
  apply read_top in Hc as [Hm1 Hne]; [|done]. constructor; [done|by apply (IH m1)].
Qed.

(** No proper prefix of an object's text is a text. *)
Lemma parse_prefix ps a b : json_value (JObj ps) -> text_of (JObj ps) = a ++ b -> b <> [] -> parse number_value a = None.
Proof.
  intros Hps Hab Hb. unfold parse. destruct (read _ a) as [m|] eqn:Ha; [|done]. cbn [mbind option_bind].
  destruct (final_value number_value m) as [v|] eqn:Hf; [|done]. apply finish_top in Hf. exfalso.
  pose proof (read_value (JObj ps) Hps false []) as (m' & Hr & _). rewrite Hab, read_app, Ha in Hr. cbn [mbind option_bind] in Hr.
  apply (read_top_all _ _ _ Hf) in Hr. apply json_object in Hps as [_ Hps]. rewrite object_text in Hab by done.
  destruct b as [|c b _] using rev_ind; [done|]. rewrite app_comm_cons, app_assoc in Hab. apply app_inj_tail in Hab as [_ Hc].
  apply Forall_app in Hr as [_ Hr]. apply Forall_cons in Hr as [Hr _]. by subst.
Qed.
End laws.

(** ** A conversion with the laws *)

Module HexNumbers.
(** The bits of a fraction, and the digits of an integer, with an exponent mark. *)
Definition number_text (n : jsnum) : text :=
  match n with JInt z => decimal z ++ chars "e0" | JFrac b => decimal b ++ chars "e1" end.
Definition number_value (t : text) : jsnum :=
  let '(digits, mark) := span (fun c => is_digit_char c || (code c =? 45)) t in
  let z := default 0 (integer_literal digits) in
  if decide (mark = chars "e1") then JFrac z else JInt z.

Lemma span_decimal z c t : is_digit_char c || (code c =? 45) = false ->
  span (fun c => is_digit_char c || (code c =? 45)) (decimal z ++ c :: t) = (decimal z, c :: t).
Proof.
  intros Hc. assert (forall d, Forall (fun c => is_digit_char c || (code c =? 45) = true) d ->
    span (fun c => is_digit_char c || (code c =? 45)) (d ++ c :: t) = (d, c :: t)) as Hspan.
  { induction d as [|a d IH]; intros Hd; cbn [app span]; [by rewrite Hc|]. apply Forall_cons in Hd as [-> Hd]. by rewrite IH. }
  apply Hspan. unfold decimal. assert (forall d, Forall (fun c => is_digit_char c || (code c =? 45) = true)
    (chars (NilEmpty.string_of_uint d))) as Hd by (induction d; cbn; constructor; done).
  destruct (Z.to_int z); cbn; [|constructor; [done|]]; apply Hd.
Qed.

Lemma not_literal z c : integer_literal (decimal z ++ [char 101; c]) = None.
Proof.
  unfold integer_literal. destruct (NilEmpty.int_of_string _) as [d|] eqn:Hd; [|done]. case_decide as Heq; [|done].
  assert (Forall (fun c => is_digit_char c || (code c =? 45) = true) (decimal (Z.of_int d))) as Hall.
  { unfold decimal. assert (forall d, Forall (fun c => is_digit_char c || (code c =? 45) = true)
      (chars (NilEmpty.string_of_uint d))) as H by (induction d0; cbn; constructor; done).
    destruct (Z.to_int _); cbn; [|constructor; [done|]]; apply H. }
  rewrite Heq in Hall. apply Forall_app in Hall as [_ Hall]. apply Forall_cons in Hall as [Hc _]. by vm_compute in Hc.
Qed.

Lemma laws : number_laws number_text number_value.
Proof.
  split.
  - intros [z|b] _; cbn; apply Forall_app; (split; [apply decimal_number_chars|by repeat constructor]).
  - assert (forall z c, literal_value number_value (decimal z ++ [char 101; c]) =
      if number_ok (decimal z ++ [char 101; c]) then Some (number_value (decimal z ++ [char 101; c])) else None) as Hlit.
    { intros z c. unfold literal_value. rewrite not_literal. case_decide as H; [|done].
      exfalso. apply (f_equal length) in H. rewrite length_app in H. pose proof (decimal_nonempty z).
      destruct (decimal z); [done|]. cbn in H. lia. }
    intros n _.
    assert (forall z c, c = char 48 \/ c = char 49 -> number_ok (decimal z ++ [char 101; c]) = true) as Hok.
    { intros z c Hc. unfold number_ok. rewrite span_decimal by done. unfold integer_part_ok. rewrite literal_decimal.
      destruct Hc as [-> | ->]; done. }
    destruct n as [z|b]; cbn [number_text];
      [change (chars "e0") with [char 101; char 48]|change (chars "e1") with [char 101; char 49]]; rewrite Hlit, Hok by auto;
      unfold number_value; rewrite span_decimal by done; by rewrite literal_decimal.
Qed.
End HexNumbers.
