(* ===== verification/MessageViews.v ===== *)
(** Typed readings of objects: the inverse of the object views of messages.

    The codec of the session files casts the object it has read to an entry or a
    record without looking at its other fields; the model reads the fields the type
    names, and knows nothing of an object that does not have the type. *)
From S2P Require Import Prelude JsNumber JsTree Messages SessionTypes.
Local Open Scope Z_scope.

Abbreviation props := (list (string * jstree)).

(** ** Readings *)

Definition as_str (t : jstree) : option string := match t with JStr s => Some s | _ => None end.
Definition as_num (t : jstree) : option jsnum := match t with JNum n => Some n | _ => None end.
Definition as_int (t : jstree) : option Z := match t with JNum (JInt z) => Some z | _ => None end.
Definition as_bool (t : jstree) : option bool := match t with JBool b => Some b | _ => None end.
Definition as_arr (t : jstree) : option (list jstree) := match t with JArr ts => Some ts | _ => None end.
Definition as_obj (t : jstree) : option props := match t with JObj ps => Some ps | _ => None end.
Definition as_list {A} (f : jstree -> option A) (t : jstree) : option (list A) := ts ← as_arr t; mapM f ts.
Definition as_nullable (t : jstree) : option (option string) :=
  match t with JNull => Some None | JStr s => Some (Some s) | _ => None end.

(** A field, and an optional one. *)
Definition field {A} (f : jstree -> option A) (k : string) (o : props) : option A := JsMap.get k o ≫= f.
Definition opt_field {A} (f : jstree -> option A) (k : string) (o : props) : option (option A) :=
  match JsMap.get k o with None => Some None | Some t => Some <$> f t end.

(** The value of a name in a list of named values. *)
Definition as_named {A} (names : list (string * A)) (t : jstree) : option A := s ← as_str t; JsMap.get s names.

(** [f] reads back what [g] views. *)
Definition reads_back {A} (f : jstree -> option A) (g : A -> jstree) : Prop := forall a, f (g a) = Some a.

Lemma as_list_back {A} (f : jstree -> option A) (g : A -> jstree) : reads_back f g -> reads_back (as_list f) (j_list g).
Proof.
  intros Hfg l. unfold as_list, j_list. cbn [as_arr mbind option_bind]. apply mapM_Some.
  induction l as [|a l IH]; cbn; constructor; auto.
Qed.

Lemma as_nullable_back v : as_nullable (j_nullable v) = Some v.
Proof. by destruct v. Qed.

(** ** Messages *)

Definition as_tool_call (o : props) : option ToolCall :=
  id ← field as_str "id" o; name ← field as_str "name" o; args ← field as_obj "arguments" o;
  signature ← opt_field as_str "thoughtSignature" o; namespace ← opt_field as_str "namespace" o;
  Some (mkToolCall id name args signature namespace).

Definition as_content (t : jstree) : option Content :=
  o ← as_obj t; type ← field as_str "type" o;
  if String.eqb type "text" then
    text ← field as_str "text" o; signature ← opt_field as_str "textSignature" o; Some (TextC text signature)
  else if String.eqb type "thinking" then
    thinking ← field as_str "thinking" o; signature ← opt_field as_str "thinkingSignature" o;
    redacted ← opt_field as_bool "redacted" o; Some (ThinkingC thinking signature redacted)
  else if String.eqb type "image" then
    data ← field as_str "data" o; mimeType ← field as_str "mimeType" o; Some (ImageC data mimeType)
  else if String.eqb type "toolCall" then ToolCallC <$> as_tool_call o
  else None.

Definition as_cost (t : jstree) : option Cost :=
  o ← as_obj t; input ← field as_num "input" o; output ← field as_num "output" o; cacheRead ← field as_num "cacheRead" o;
  cacheWrite ← field as_num "cacheWrite" o; total ← field as_num "total" o; Some (mkCost input output cacheRead cacheWrite total).

Definition as_usage (t : jstree) : option Usage :=
  o ← as_obj t; input ← field as_num "input" o; output ← field as_num "output" o; cacheRead ← field as_num "cacheRead" o;
  cacheWrite ← field as_num "cacheWrite" o; cacheWrite1h ← opt_field as_num "cacheWrite1h" o;
  reasoning ← opt_field as_num "reasoning" o; totalTokens ← field as_num "totalTokens" o; cost ← field as_cost "cost" o;
  Some (mkUsage input output cacheRead cacheWrite cacheWrite1h reasoning totalTokens cost).

Definition stop_reasons : list (string * StopReason) :=
  [("pending", SRpending); ("stop", SRstop); ("length", SRlength); ("toolUse", SRtoolUse); ("error", SRerror);
   ("aborted", SRaborted); ("deferred", SRdeferred)].

Definition as_deferred (t : jstree) : option DeferredHandle :=
  o ← as_obj t; provider ← field as_str "provider" o; modelId ← field as_str "modelId" o; api ← field as_str "api" o;
  id ← field as_str "id" o; expiresAt ← opt_field as_num "expiresAt" o; pollAfterMs ← opt_field as_num "pollAfterMs" o;
  data ← opt_field Some "data" o; Some (mkDeferredHandle provider modelId api id expiresAt pollAfterMs data).

Definition as_message_content (t : jstree) : option MessageContent :=
  match t with JStr s => Some (PlainContent s) | _ => Blocks <$> as_list as_content t end.

Definition as_user (o : props) : option AgentMessage :=
  content ← field as_message_content "content" o; timestamp ← field as_num "timestamp" o;
  Some (MUser (mkUserMessage content timestamp)).

Definition as_assistant (o : props) : option AgentMessage :=
  content ← field (as_list as_content) "content" o; api ← field as_str "api" o; provider ← field as_str "provider" o;
  model ← field as_str "model" o; responseModel ← opt_field as_str "responseModel" o;
  responseId ← opt_field as_str "responseId" o; diagnostics ← opt_field as_arr "diagnostics" o; usage ← field as_usage "usage" o;
  stopReason ← field (as_named stop_reasons) "stopReason" o; deferred ← opt_field as_deferred "deferred" o;
  errorMessage ← opt_field as_str "errorMessage" o; rawStopReason ← opt_field as_str "rawStopReason" o;
  endTurn ← opt_field as_bool "endTurn" o; timestamp ← field as_num "timestamp" o;
  Some (MAssistant (mkAssistantMessage content api provider model responseModel responseId diagnostics usage stopReason
    deferred errorMessage rawStopReason endTurn timestamp)).

Definition as_tool_result (o : props) : option AgentMessage :=
  toolCallId ← field as_str "toolCallId" o; toolName ← field as_str "toolName" o;
  content ← field (as_list as_content) "content" o; details ← opt_field Some "details" o; usage ← opt_field as_usage "usage" o;
  addedToolNames ← opt_field (as_list as_str) "addedToolNames" o; isError ← field as_bool "isError" o;
  timestamp ← field as_num "timestamp" o;
  Some (MToolResult (mkToolResultMessage toolCallId toolName content details usage addedToolNames isError timestamp)).

Definition as_bash (o : props) : option AgentMessage :=
  command ← field as_str "command" o; output ← field as_str "output" o; exitCode ← opt_field as_num "exitCode" o;
  cancelled ← field as_bool "cancelled" o; truncated ← field as_bool "truncated" o;
  fullOutputPath ← opt_field as_str "fullOutputPath" o; timestamp ← field as_num "timestamp" o;
  exclude ← opt_field as_bool "excludeFromContext" o;
  Some (MBashExecution (mkBashExecutionMessage command output exitCode cancelled truncated fullOutputPath timestamp exclude)).

Definition as_custom (o : props) : option AgentMessage :=
  customType ← field as_str "customType" o; content ← field as_message_content "content" o; display ← field as_bool "display" o;
  details ← opt_field Some "details" o; timestamp ← field as_num "timestamp" o;
  Some (MCustom (mkCustomMessage customType content display details timestamp)).

Definition as_branch_summary (o : props) : option AgentMessage :=
  summary ← field as_str "summary" o; fromId ← field as_str "fromId" o; timestamp ← field as_num "timestamp" o;
  Some (MBranchSummary (mkBranchSummaryMessage summary fromId timestamp)).

Definition as_compaction_summary (o : props) : option AgentMessage :=
  summary ← field as_str "summary" o; tokensBefore ← field as_num "tokensBefore" o; timestamp ← field as_num "timestamp" o;
  Some (MCompactionSummary (mkCompactionSummaryMessage summary tokensBefore timestamp)).

Definition message_readings : list (string * (props -> option AgentMessage)) :=
  [("user", as_user); ("assistant", as_assistant); ("toolResult", as_tool_result); ("bashExecution", as_bash);
   ("custom", as_custom); ("branchSummary", as_branch_summary); ("compactionSummary", as_compaction_summary)].

Definition as_message (t : jstree) : option AgentMessage :=
  o ← as_obj t; reading ← field (as_named message_readings) "role" o; reading o.

(** Looking up a field in a view, without case analysis on the optional fields. *)
Section lookup.
Context {A B : Type} (f : jstree -> option A) (g : B -> jstree).

Lemma get_here k (v : B) o : JsMap.get k (prop g k v ++ o) = Some (g v).
Proof. cbn. by case_decide. Qed.
Lemma get_last k (v : B) : JsMap.get k (prop g k v) = Some (g v).
Proof. cbn. by case_decide. Qed.
Lemma get_skip k k' (v : B) o : k <> k' -> JsMap.get k (prop g k' v ++ o) = JsMap.get k o.
Proof. intros. cbn. by case_decide. Qed.
Lemma get_skip_last k k' (v : B) : k <> k' -> JsMap.get k (prop g k' v) = None.
Proof. intros. cbn. by case_decide. Qed.
Lemma get_skip_opt k k' (v : option B) o : k <> k' -> JsMap.get k (opt_prop g k' v ++ o) = JsMap.get k o.
Proof. intros. destruct v; [|done]. cbn. by case_decide. Qed.
Lemma get_skip_opt_last k k' (v : option B) : k <> k' -> JsMap.get k (opt_prop g k' v) = None.
Proof. intros. destruct v; [|done]. cbn. by case_decide. Qed.
End lookup.

Lemma opt_here {A} (f : jstree -> option A) (g : A -> jstree) k v o : (forall a, f (g a) = Some a) -> JsMap.get k o = None ->
  opt_field f k (opt_prop g k v ++ o) = Some v.
Proof. intros Hfg Ho. unfold opt_field. destruct v; cbn; [case_decide; [by rewrite Hfg|done]|by rewrite Ho]. Qed.
Lemma opt_last {A} (f : jstree -> option A) (g : A -> jstree) k v : (forall a, f (g a) = Some a) ->
  opt_field f k (opt_prop g k v) = Some v.
Proof. intros Hfg. unfold opt_field. destruct v; cbn; [|done]. case_decide; [by rewrite Hfg|done]. Qed.
Lemma opt_skip {A B} (f : jstree -> option A) (g : B -> jstree) k k' v o : k <> k' ->
  opt_field f k (prop g k' v ++ o) = opt_field f k o.
Proof. intros. unfold opt_field. by rewrite get_skip. Qed.
Lemma opt_skip_opt {A B} (f : jstree -> option A) (g : B -> jstree) k k' v o : k <> k' ->
  opt_field f k (opt_prop g k' v ++ o) = opt_field f k o.
Proof. intros. unfold opt_field. by rewrite get_skip_opt. Qed.
Lemma opt_absent {A} (f : jstree -> option A) k o : JsMap.get k o = None -> opt_field f k o = Some None.
Proof. intros Ho. unfold opt_field. by rewrite Ho. Qed.
Lemma field_here {A B} (f : jstree -> option A) (g : B -> jstree) k v o : field f k (prop g k v ++ o) = f (g v).
Proof. unfold field. by rewrite get_here. Qed.
Lemma field_last {A B} (f : jstree -> option A) (g : B -> jstree) k v : field f k (prop g k v) = f (g v).
Proof. unfold field. by rewrite get_last. Qed.
Lemma field_skip {A B} (f : jstree -> option A) (g : B -> jstree) k k' v o : k <> k' ->
  field f k (prop g k' v ++ o) = field f k o.
Proof. intros. unfold field. by rewrite get_skip. Qed.
Lemma field_skip_opt {A B} (f : jstree -> option A) (g : B -> jstree) k k' v o : k <> k' ->
  field f k (opt_prop g k' v ++ o) = field f k o.
Proof. intros. unfold field. by rewrite get_skip_opt. Qed.

(** The readings of the parts are used through their lemmas. *)
Create HintDb views.

(** The key is not among these fields. *)
Ltac absent := repeat first [rewrite get_skip by discriminate | rewrite get_skip_opt by discriminate
  | rewrite get_skip_last by discriminate | rewrite get_skip_opt_last by discriminate]; done.

Ltac read_view :=
  repeat first
    [ rewrite field_here | rewrite field_last
    | progress cbn [as_obj as_str as_num as_bool as_arr as_int mbind option_bind fmap option_fmap option_map]
    | rewrite field_skip by discriminate | rewrite field_skip_opt by discriminate
    | rewrite opt_skip by discriminate | rewrite opt_skip_opt by discriminate
    | rewrite opt_here by (intros; try autorewrite with views; done || absent)
    | rewrite opt_last by (intros; try autorewrite with views; done)
    | progress (autorewrite with views)
    | rewrite opt_absent by absent
    | reflexivity ].
Arguments as_list : simpl never.
Arguments j_list : simpl never.
Arguments as_nullable : simpl never.
Arguments j_nullable : simpl never.

Lemma as_tool_call_back tc : as_tool_call (match js_tool_call tc with JObj o => o | _ => [] end) = Some tc.
Proof. destruct tc. unfold js_tool_call, as_tool_call. cbv iota. read_view. Qed.

Lemma as_content_back : reads_back as_content js_content.
Proof.
  intros [text o|thinking o1 o2|d m|tc]; unfold js_content, as_content; [by repeat (read_view; cbn)..|].
  pose proof (as_tool_call_back tc) as H. unfold js_tool_call in H |- *. cbv iota in H. read_view. cbn [String.eqb Ascii.eqb Bool.eqb].
  by rewrite H.
Qed.

Lemma as_cost_back c : as_cost (js_cost c) = Some c.
Proof. by destruct c. Qed.
#[export] Hint Rewrite as_cost_back : views.
Arguments as_cost : simpl never.
Arguments js_cost : simpl never.

Lemma as_usage_back : reads_back as_usage js_usage.
Proof. intros []. unfold as_usage, js_usage. read_view. Qed.
Arguments as_content : simpl never.
Arguments js_content : simpl never.
Arguments as_usage : simpl never.
Arguments js_usage : simpl never.

Lemma as_contents_eq l : as_list as_content (j_list js_content l) = Some l.
Proof. apply as_list_back, as_content_back. Qed.
Lemma as_strs_eq l : as_list as_str (j_list JStr l) = Some l.
Proof. by apply as_list_back. Qed.
Lemma as_usage_eq u : as_usage (js_usage u) = Some u.
Proof. apply as_usage_back. Qed.
#[export] Hint Rewrite as_contents_eq as_strs_eq as_usage_eq as_nullable_back : views.

Lemma as_message_content_back c : as_message_content (js_message_content c) = Some c.
Proof. destruct c as [s|bs]; [done|]. unfold js_message_content, as_message_content. change (j_list js_content bs) with (JArr (map js_content bs)).
  cbv iota. change (JArr (map js_content bs)) with (j_list js_content bs). by rewrite as_contents_eq.
Qed.
#[export] Hint Rewrite as_message_content_back : views.
Arguments as_message_content : simpl never.
Arguments js_message_content : simpl never.

Lemma as_stop_reason_back r : as_named stop_reasons (JStr (js_stop_reason r)) = Some r.
Proof. by destruct r. Qed.
#[export] Hint Rewrite as_stop_reason_back : views.

Lemma as_deferred_back d : as_deferred (js_deferred d) = Some d.
Proof. destruct d as [a b c d o1 o2 o3]. unfold as_deferred, js_deferred. read_view. Qed.
#[export] Hint Rewrite as_deferred_back : views.
Arguments as_deferred : simpl never.
Arguments js_deferred : simpl never.

(** The reading of each role. *)
Lemma as_roles :
  as_named message_readings (JStr "user") = Some as_user /\ as_named message_readings (JStr "assistant") = Some as_assistant /\
  as_named message_readings (JStr "toolResult") = Some as_tool_result /\
  as_named message_readings (JStr "bashExecution") = Some as_bash /\ as_named message_readings (JStr "custom") = Some as_custom /\
  as_named message_readings (JStr "branchSummary") = Some as_branch_summary /\
  as_named message_readings (JStr "compactionSummary") = Some as_compaction_summary.
Proof. done. Qed.

Lemma as_message_back : reads_back as_message js_message.
Proof.
  destruct as_roles as (Hu & Ha & Ht & Hb & Hc & Hs & Hp). intros m. unfold as_message, js_message. read_view.
  destruct m as [m|m|m|m|m|m|m]; cbn [role];
    [rewrite Hu|rewrite Ha|rewrite Ht|rewrite Hb|rewrite Hc|rewrite Hs|rewrite Hp]; destruct m; cbn [mbind option_bind];
    [unfold as_user|unfold as_assistant|unfold as_tool_result|unfold as_bash|unfold as_custom|unfold as_branch_summary
    |unfold as_compaction_summary]; read_view.
Qed.
Arguments as_message : simpl never.
Arguments js_message : simpl never.

Definition as_messages (t : jstree) : option (list AgentMessage) := as_list as_message t.
Lemma as_messages_back ms : as_messages (js_messages ms) = Some ms.
Proof. apply as_list_back, as_message_back. Qed.
#[export] Hint Rewrite as_messages_back as_message_back : views.
Arguments as_messages : simpl never.
Arguments js_messages : simpl never.

(** * Typed readings of the objects of session entries and lane records. *)

(** ** Entries *)

(** [{ ...newEntry, parentId, seq, timestamp }] *)
Definition js_entry_props (e : Entry) : props :=
  js_provisioned_props (mkProvisioned (e_id e) (e_body e)) ++
  (prop j_nullable "parentId" (e_parentId e) ++ prop j_int "seq" (e_seq e) ++ prop j_int "timestamp" (e_timestamp e)).

Definition as_message_body (o : props) : option EntryBody :=
  message ← field as_message "message" o; terminate ← opt_field as_bool "terminate" o;
  Some (BMessage message (default false terminate)).
Definition as_model_change (o : props) : option EntryBody :=
  provider ← field as_str "provider" o; modelId ← field as_str "modelId" o; Some (BModelChange provider modelId).
Definition as_thinking_level (o : props) : option EntryBody := BThinkingLevel <$> field as_str "thinkingLevel" o.
Definition as_active_tools (o : props) : option EntryBody := BActiveTools <$> field (as_list as_str) "activeToolNames" o.
Definition as_compaction (o : props) : option EntryBody :=
  summary ← field as_str "summary" o; tail ← field as_messages "retainedTail" o; tokens ← field as_num "tokensBefore" o;
  details ← opt_field Some "details" o; usage ← opt_field as_usage "usage" o; Some (BCompaction summary tail tokens details usage).
Definition as_branch_summary_body (o : props) : option EntryBody :=
  fromId ← field as_str "fromId" o; summary ← field as_str "summary" o; details ← opt_field Some "details" o;
  usage ← opt_field as_usage "usage" o; Some (BBranchSummary fromId summary details usage).
Definition as_custom_body (o : props) : option EntryBody :=
  customType ← field as_str "customType" o; data ← opt_field Some "data" o; Some (BCustom customType data).

Definition body_readings : list (string * (props -> option EntryBody)) :=
  [("message", as_message_body); ("model_change", as_model_change); ("thinking_level_change", as_thinking_level);
   ("active_tools_change", as_active_tools); ("compaction", as_compaction); ("branch_summary", as_branch_summary_body);
   ("custom", as_custom_body)].

Definition as_body (o : props) : option EntryBody := reading ← field (as_named body_readings) "type" o; reading o.

Definition as_provisioned (t : jstree) : option ProvisionedEntry :=
  o ← as_obj t; id ← field as_str "id" o; body ← as_body o; Some (mkProvisioned id body).

Definition as_entry (o : props) : option Entry :=
  id ← field as_str "id" o; parentId ← field as_nullable "parentId" o; seq ← field as_int "seq" o;
  timestamp ← field as_int "timestamp" o; body ← as_body o; Some (mkEntry id seq parentId timestamp body).

Lemma as_bodies :
  as_named body_readings (JStr "message") = Some as_message_body /\ as_named body_readings (JStr "model_change") = Some as_model_change /\
  as_named body_readings (JStr "thinking_level_change") = Some as_thinking_level /\
  as_named body_readings (JStr "active_tools_change") = Some as_active_tools /\
  as_named body_readings (JStr "compaction") = Some as_compaction /\
  as_named body_readings (JStr "branch_summary") = Some as_branch_summary_body /\
  as_named body_readings (JStr "custom") = Some as_custom_body.
Proof. done. Qed.

(** The body is read from the payload, whatever fields follow that are none of the body's. *)
Lemma as_body_back id b rest : JsMap.get "terminate" rest = None -> JsMap.get "details" rest = None ->
  JsMap.get "usage" rest = None -> JsMap.get "data" rest = None ->
  as_body (js_provisioned_props (mkProvisioned id b) ++ rest) = Some b.
Proof.
  intros H1 H2 H3 H4. destruct as_bodies as (Hm & Ho & Ht & Ha & Hc & Hb & Hx).
  unfold as_body, js_provisioned_props. rewrite <- !app_assoc. read_view.
  destruct b; cbn [p_body p_id body_type type_name];
    [rewrite Hm|rewrite Ho|rewrite Ht|rewrite Ha|rewrite Hc|rewrite Hb|rewrite Hx]; cbn [mbind option_bind];
    [unfold as_message_body|unfold as_model_change|unfold as_thinking_level|unfold as_active_tools|unfold as_compaction
    |unfold as_branch_summary_body|unfold as_custom_body]; rewrite <- ?app_assoc; read_view.
  destruct terminate; cbn [app]; read_view.
Qed.

Lemma as_provisioned_back p : as_provisioned (js_provisioned p) = Some p.
Proof.
  destruct p as [id b]. unfold as_provisioned, js_provisioned. cbn [as_obj mbind option_bind].
  pose proof (as_body_back id b []) as Hb. rewrite app_nil_r in Hb. rewrite Hb by done. unfold js_provisioned_props. read_view.
Qed.
#[export] Hint Rewrite as_provisioned_back : views.
Arguments as_provisioned : simpl never.
Arguments js_provisioned : simpl never.

Lemma as_entry_back e : as_entry (js_entry_props e) = Some e.
Proof.
  destruct e as [id seq parent timestamp b]. unfold as_entry, js_entry_props. cbn [e_id e_seq e_parentId e_timestamp e_body].
  rewrite as_body_back by done. unfold js_provisioned_props. rewrite <- !app_assoc. cbn [p_id p_body].
  destruct b; rewrite <- ?app_assoc; try (read_view; done). destruct terminate; cbn [app]; read_view.
Qed.

(** ** Records *)

(** [{ ...newRecord, seq, timestamp }] *)
Definition js_record_props (r : LaneRecord) : props :=
  prop JStr "id" (r_id r) ++ prop JStr "lane" (r_lane r) ++ js_record_body (r_body r) ++
  prop j_int "seq" (r_seq r) ++ prop j_int "timestamp" (r_timestamp r).

Definition as_run_intent (o : props) : option Intent :=
  prompt ← field as_messages "originalPrompt" o; initial ← field (as_list as_provisioned) "initialMessages" o;
  override ← opt_field as_str "systemPromptOverride" o; resume ← opt_field as_obj "resumeData" o;
  Some (IRun prompt initial override resume).
Definition as_compaction_intent (o : props) : option Intent :=
  instructions ← opt_field as_str "customInstructions" o; resultEntryId ← field as_str "resultEntryId" o;
  Some (ICompaction instructions resultEntryId).
Definition as_navigation_intent (o : props) : option Intent :=
  target ← field as_nullable "targetId" o; summarize ← field as_bool "summarize" o;
  instructions ← opt_field as_str "customInstructions" o; label ← opt_field as_str "label" o;
  summaryEntryId ← opt_field as_str "summaryEntryId" o; Some (INavigation target summarize instructions label summaryEntryId).

Definition intent_readings : list (string * (props -> option Intent)) :=
  [("run", as_run_intent); ("compaction", as_compaction_intent); ("navigation", as_navigation_intent)].
Definition as_intent (t : jstree) : option Intent :=
  o ← as_obj t; reading ← field (as_named intent_readings) "kind" o; reading o.

Definition as_generation (cause : GenerationCause) (o : props) : option UsageCause :=
  runId ← field as_str "runId" o; entryId ← field as_str "entryId" o; attempt ← field as_int "attempt" o;
  stopReason ← field as_str "stopReason" o; Some (UCGeneration cause runId entryId attempt stopReason).
Definition as_tool_cause (o : props) : option UsageCause :=
  runId ← field as_str "runId" o; entryId ← field as_str "entryId" o; toolCallId ← field as_str "toolCallId" o;
  Some (UCTool runId entryId toolCallId).
Definition as_hook_cause (o : props) : option UsageCause :=
  runId ← field as_str "runId" o; entryId ← field as_str "entryId" o; Some (UCHook runId entryId).
Definition as_adjustment (o : props) : option UsageCause :=
  runId ← opt_field as_str "runId" o; entryId ← opt_field as_str "entryId" o; details ← opt_field Some "details" o;
  Some (UCAdjustment runId entryId details).

Definition cause_readings : list (string * (props -> option UsageCause)) :=
  [("assistant", as_generation Gassistant); ("compaction", as_generation Gcompaction);
   ("branch_summary", as_generation Gbranch_summary); ("deferred_fetch", as_generation Gdeferred_fetch);
   ("tool", as_tool_cause); ("hook", as_hook_cause); ("adjustment", as_adjustment)].
Definition as_cause (o : props) : option UsageCause := reading ← field (as_named cause_readings) "cause" o; reading o.

Definition as_started (o : props) : option RecordBody :=
  source ← field as_nullable "sourceLeafId" o; intent ← field as_intent "intent" o; Some (ROperationStarted source intent).
Definition as_abort (o : props) : option RecordBody := RAbortRequested <$> field as_str "runId" o.
Definition outcomes : list (string * Outcome) :=
  [("completed", Ocompleted); ("aborted", Oaborted); ("failed", Ofailed); ("declined", Odeclined)].
Definition as_error (t : jstree) : option (string * string) :=
  o ← as_obj t; code ← field as_str "code" o; message ← field as_str "message" o; Some (code, message).
Definition as_finished (o : props) : option RecordBody :=
  runId ← field as_str "runId" o; outcome ← field (as_named outcomes) "outcome" o; error ← opt_field as_error "error" o;
  Some (ROperationFinished runId outcome error).
Definition steps : list (string * StepKind) :=
  [("assistant", Sassistant); ("compaction", Scompaction); ("branch_summary", Sbranch_summary)].
Definition as_step_attempt (o : props) : option RecordBody :=
  runId ← field as_str "runId" o; step ← field (as_named steps) "step" o; attempt ← field as_int "attempt" o;
  resultEntryId ← field as_str "resultEntryId" o; reason ← opt_field as_str "compactionReason" o;
  Some (RStepAttempt runId step attempt resultEntryId reason).
Definition as_tool_started (o : props) : option RecordBody :=
  runId ← field as_str "runId" o; assistantEntryId ← field as_str "assistantEntryId" o; toolIndex ← field as_int "toolIndex" o;
  toolCallId ← field as_str "toolCallId" o; toolName ← field as_str "toolName" o; args ← field as_obj "effectiveArgs" o;
  resultEntryId ← field as_str "resultEntryId" o; safe ← field (as_named [("safe", true); ("never", false)]) "replay" o;
  Some (RToolStarted runId assistantEntryId toolIndex toolCallId toolName args resultEntryId safe).
Definition queues : list (string * Queue) := [("steer", Qsteer); ("followUp", QfollowUp); ("nextRun", QnextRun)].
Definition as_enqueued (o : props) : option RecordBody :=
  queue ← field (as_named queues) "queue" o; runId ← opt_field as_str "runId" o; target ← field as_provisioned "target" o;
  Some (RQueueEnqueued queue runId target).
Definition as_cancelled (o : props) : option RecordBody :=
  runId ← opt_field as_str "runId" o; entryId ← field as_str "entryId" o; Some (RQueueCancelled runId entryId).
Definition as_deferred_write (o : props) : option RecordBody :=
  runId ← field as_str "runId" o; target ← field as_provisioned "target" o; Some (RWriteDeferred runId target).
Definition as_usage_record (o : props) : option RecordBody :=
  usage ← field as_usage "usage" o; cause ← as_cause o; Some (RUsage usage cause).

Definition record_readings : list (string * (props -> option RecordBody)) :=
  [("operation_started", as_started); ("abort_requested", as_abort); ("operation_finished", as_finished);
   ("step_attempt", as_step_attempt); ("tool_started", as_tool_started); ("queue_enqueued", as_enqueued);
   ("queue_cancelled", as_cancelled); ("write_deferred", as_deferred_write); ("usage", as_usage_record)].

Definition as_record (o : props) : option LaneRecord :=
  id ← field as_str "id" o; lane ← field as_str "lane" o; seq ← field as_int "seq" o; timestamp ← field as_int "timestamp" o;
  reading ← field (as_named record_readings) "type" o; body ← reading o; Some (mkLaneRecord id seq lane timestamp body).

Lemma as_int_back z : as_int (j_int z) = Some z.
Proof. done. Qed.
#[export] Hint Rewrite as_int_back : views.

Lemma as_provisioneds_eq ps : as_list as_provisioned (j_list js_provisioned ps) = Some ps.
Proof. apply as_list_back. intros p. apply as_provisioned_back. Qed.
#[export] Hint Rewrite as_provisioneds_eq : views.

Lemma as_intent_back i : as_intent (js_intent i) = Some i.
Proof.
  assert (as_named intent_readings (JStr "run") = Some as_run_intent /\
    as_named intent_readings (JStr "compaction") = Some as_compaction_intent /\
    as_named intent_readings (JStr "navigation") = Some as_navigation_intent) as (Hr & Hc & Hn) by done.
  unfold as_intent, js_intent. cbn [as_obj mbind option_bind].
  destruct i; read_view; [rewrite Hr|rewrite Hc|rewrite Hn]; cbn [mbind option_bind];
    [unfold as_run_intent|unfold as_compaction_intent|unfold as_navigation_intent]; read_view.
Qed.
#[export] Hint Rewrite as_intent_back : views.
Arguments as_intent : simpl never.
Arguments js_intent : simpl never.

(** The names in a record. *)
Lemma as_outcome_back o : as_named outcomes (JStr (match o with Ocompleted => "completed" | Oaborted => "aborted"
  | Ofailed => "failed" | Odeclined => "declined" end)) = Some o.
Proof. by destruct o. Qed.
Lemma as_step_back s : as_named steps (JStr (match s with Sassistant => "assistant" | Scompaction => "compaction"
  | Sbranch_summary => "branch_summary" end)) = Some s.
Proof. by destruct s. Qed.
Lemma as_queue_back q : as_named queues (JStr (match q with Qsteer => "steer" | QfollowUp => "followUp" | QnextRun => "nextRun" end)) = Some q.
Proof. by destruct q. Qed.
Lemma as_replay_back (b : bool) : as_named [("safe", true); ("never", false)] (JStr (if b then "safe" else "never")) = Some b.
Proof. by destruct b. Qed.
#[export] Hint Rewrite as_outcome_back as_step_back as_queue_back as_replay_back : views.

Lemma as_error_back e : as_error (JObj (prop JStr "code" e.1 ++ prop JStr "message" e.2)) = Some e.
Proof. by destruct e. Qed.
#[export] Hint Rewrite as_error_back : views.
Arguments as_error : simpl never.
Arguments as_named : simpl never.

(** The fields of a cause, after those of a record. *)
Lemma as_cause_back id lane usage c seq timestamp : let o := prop JStr "id" id ++ prop JStr "lane" lane ++ prop JStr "type" "usage" ++
    prop js_usage "usage" usage ++ js_cause c ++ prop j_int "seq" seq ++ prop j_int "timestamp" timestamp in
  as_cause o = Some c /\ field as_int "seq" o = Some seq /\ field as_int "timestamp" o = Some timestamp.
Proof.
  assert (forall g, as_named cause_readings (JStr (match g with Gassistant => "assistant" | Gcompaction => "compaction"
    | Gbranch_summary => "branch_summary" | Gdeferred_fetch => "deferred_fetch" end)) = Some (as_generation g)) as Hg by (by intros []).
  assert (as_named cause_readings (JStr "tool") = Some as_tool_cause /\ as_named cause_readings (JStr "hook") = Some as_hook_cause /\
    as_named cause_readings (JStr "adjustment") = Some as_adjustment) as (Ht & Hh & Ha) by done.
  cbv zeta. unfold as_cause, js_cause.
  destruct c as [g r e a s|r e t|r e|r e d]; rewrite <- !app_assoc; split_and!; try (read_view; done); read_view;
    rewrite ?Hg, ?Ht, ?Hh, ?Ha; cbn [mbind option_bind]; unfold as_generation, as_tool_cause, as_hook_cause, as_adjustment; read_view.
Qed.

Lemma as_records :
  as_named record_readings (JStr "operation_started") = Some as_started /\ as_named record_readings (JStr "abort_requested") = Some as_abort /\
  as_named record_readings (JStr "operation_finished") = Some as_finished /\
  as_named record_readings (JStr "step_attempt") = Some as_step_attempt /\
  as_named record_readings (JStr "tool_started") = Some as_tool_started /\
  as_named record_readings (JStr "queue_enqueued") = Some as_enqueued /\
  as_named record_readings (JStr "queue_cancelled") = Some as_cancelled /\
  as_named record_readings (JStr "write_deferred") = Some as_deferred_write /\
  as_named record_readings (JStr "usage") = Some as_usage_record.
Proof. done. Qed.

Lemma as_record_back r : as_record (js_record_props r) = Some r.
Proof.
  destruct as_records as (Hs & Ha & Hf & Hp & Ht & Hq & Hc & Hd & Hu), r as [id seq lane timestamp b].
  unfold as_record, js_record_props. cbn [r_id r_lane r_seq r_timestamp r_body].
  destruct b as [| | | | | | | |usage cause]; cbn [js_record_body]; rewrite <- ?app_assoc.
  9: { destruct (as_cause_back id lane usage cause seq timestamp) as (Hcause & -> & ->). read_view. rewrite Hu. cbn [mbind option_bind].
       unfold as_usage_record. read_view. by rewrite Hcause. }
  all: read_view; rewrite ?Hs, ?Ha, ?Hf, ?Hp, ?Ht, ?Hq, ?Hc, ?Hd; cbn [mbind option_bind];
    unfold as_started, as_abort, as_finished, as_step_attempt, as_tool_started, as_enqueued, as_cancelled, as_deferred_write; read_view.
Qed.
