(* ===== verification/JsonlCodec.v ===== *)
(** The session file format: [packages/agent/src/harness/session/jsonl/codec.ts].

    A file is a header line and one line for each mutation.  A decoded entry or record
    is an object that the code casts to its type; [typed] is the reading of it. *)
From S2P Require Import Prelude JsNumber JsTree Messages SessionTypes SessionState JsonText JsonRoundTrip MessageViews.
From Stdlib Require Import Ascii.
Local Open Scope Z_scope.

Inductive decode_kind : Type := Dsyntax | Dschema.
Record JsonlDecodeError := mkDecodeError { de_kind : decode_kind; de_message : string }.
Definition schema_error (message : string) : JsonlDecodeError := mkDecodeError Dschema message.

Record JsonlV4Header := mkHeader {
  h_id : string;
  h_createdAt : Z;
  h_cwd : string;
  h_parentSessionId : option string;
  h_legacyParentSessionPath : option string;
  h_metadata : option props;
}.

Record JsonlSessionMetadata := mkJsonlMetadata {
  jm_id : string;
  jm_createdAt : Z;
  jm_parentSessionId : option string;
  jm_cwd : string;
  jm_path : string;
  jm_modifiedAt : jsnum;
  jm_legacyParentSessionPath : option string;
  jm_metadata : option props;
}.

(** [SessionMutation] as decoded. *)
Inductive DecodedMutation : Type :=
  | DEntry (lane : option string) (entry : props)
  | DRecord (record : props)
  | DLane (seq : Z) (lane : string) (leafId : option string)
  | DName (seq : Z) (name : option string)
  | DLabel (seq : Z) (targetId : string) (label : option string).

Definition typed (d : DecodedMutation) : option SessionMutation :=
  match d with
  | DEntry lane entry => MutEntry lane <$> as_entry entry
  | DRecord record => MutRecord <$> as_record record
  | DLane seq lane leafId => Some (MutLane seq lane leafId)
  | DName seq name => Some (MutName seq name)
  | DLabel seq targetId label => Some (MutLabel seq targetId label)
  end.

Definition ENTRY_TYPES : list string :=
  ["message"; "model_change"; "thinking_level_change"; "active_tools_change"; "compaction"; "branch_summary"; "custom"].
Definition RECORD_TYPES : list string :=
  ["operation_started"; "abort_requested"; "operation_finished"; "step_attempt"; "tool_started"; "queue_enqueued";
   "queue_cancelled"; "write_deferred"; "usage"].
Definition OPERATION_KINDS : list string := ["run"; "compaction"; "navigation"].

Section codec.
Context (number_text : jsnum -> text) (number_value : text -> jsnum).

Definition parseObject (line : text) : result JsonlDecodeError props :=
  match parse number_value line with
  | None => Err (mkDecodeError Dsyntax "is not valid JSON")
  | Some (JObj o) => Ok o
  | Some _ => Err (schema_error "is not a JSON object")
  end.

(** The argument is a property of an object: [None] is [undefined]. *)
Definition requireString (value : option jstree) (name : string) : result JsonlDecodeError string :=
  match value with Some (JStr s) => Ok s | _ => Err (schema_error ("has invalid " +:+ name)) end.

Definition safe_integer (value : option jstree) : option Z :=
  match value with Some (JNum n) => if isSafeInteger n then num_to_Z n else None | _ => None end.

Definition requireSequence (value : option jstree) : result JsonlDecodeError Z :=
  match safe_integer value with
  | Some z => if z <=? 0 then Err (schema_error "has invalid seq") else Ok z
  | None => Err (schema_error "has invalid seq")
  end.

Definition requireTimestamp (value : option jstree) : result JsonlDecodeError Z :=
  match safe_integer value with
  | Some z => if z <? 0 then Err (schema_error "has invalid timestamp") else Ok z
  | None => Err (schema_error "has invalid timestamp")
  end.

Definition requireNullableId (value : option jstree) (name : string) : result JsonlDecodeError (option string) :=
  match value with
  | Some JNull => Ok None
  | Some (JStr s) => Ok (Some s)
  | _ => Err (schema_error ("has invalid " +:+ name))
  end.

(** [if (v !== undefined && typeof v !== "string") throw] *)
Definition optionalString (value : option jstree) (name : string) : result JsonlDecodeError (option string) :=
  match value with
  | None => Ok None
  | Some (JStr s) => Ok (Some s)
  | _ => Err (schema_error ("has invalid " +:+ name))
  end.

Definition is_value (value : option jstree) (t : jstree) : bool :=
  match value with Some v => deepEqual v t | None => false end.

Definition decodeHeader (line : text) : result JsonlDecodeError JsonlV4Header :=
  value ← parseObject line;
  throw_if (negb (is_value (JsMap.get "kind" value) (JStr "header"))) (schema_error "is not a header");;
  throw_if (negb (is_value (JsMap.get "version" value) (j_int 4))) (schema_error "has unsupported session version");;
  parentSessionId ← optionalString (JsMap.get "parentSessionId" value) "parentSessionId";
  legacyParentSessionPath ← optionalString (JsMap.get "legacyParentSessionPath" value) "legacyParentSessionPath";
  throw_if (bool_decide (is_Some parentSessionId) && bool_decide (is_Some legacyParentSessionPath))
    (schema_error "has both parentSessionId and legacyParentSessionPath");;
  metadata ← (match JsMap.get "metadata" value with
              | None => Ok None
              | Some (JObj o) => Ok (Some o)
              | Some _ => Err (schema_error "has invalid metadata")
              end : result JsonlDecodeError (option props));
  id ← requireString (JsMap.get "id" value) "id";
  createdAt ← requireTimestamp (JsMap.get "createdAt" value);
  cwd ← requireString (JsMap.get "cwd" value) "cwd";
  Ok (mkHeader id createdAt cwd parentSessionId legacyParentSessionPath metadata).

Definition opt_undefined {A} (f : A -> jstree) (k : string) (v : option A) : string * jstree :=
  (k, match v with Some a => f a | None => JUndefined end).

(** [`${JSON.stringify(value)}\n`] *)
Definition encodeLine (o : props) : text := default (chars "undefined") (stringify number_text (JObj o)) ++ [LF].

Definition encodeHeader (h : JsonlV4Header) : text :=
  encodeLine [("kind", JStr "header"); ("version", j_int 4); ("id", JStr (h_id h)); ("createdAt", j_int (h_createdAt h));
    ("cwd", JStr (h_cwd h)); opt_undefined JStr "parentSessionId" (h_parentSessionId h);
    opt_undefined JStr "legacyParentSessionPath" (h_legacyParentSessionPath h); opt_undefined JObj "metadata" (h_metadata h)].

Definition metadataFromHeader (h : JsonlV4Header) (path : string) (modifiedAt : jsnum) : JsonlSessionMetadata :=
  mkJsonlMetadata (h_id h) (h_createdAt h) (h_parentSessionId h) (h_cwd h) path modifiedAt (h_legacyParentSessionPath h) (h_metadata h).

Definition parseEntryMutation (value : props) (seq : Z) : result JsonlDecodeError DecodedMutation :=
  lane ← (match JsMap.get "lane" value with
          | None => Ok None
          | v => Some <$> requireString v "lane"
          end : result JsonlDecodeError (option string));
  id ← requireString (JsMap.get "id" value) "id";
  type ← requireString (JsMap.get "type" value) "entry type";
  throw_if (negb (bool_decide (type ∈ ENTRY_TYPES))) (schema_error ("has unknown entry type " +:+ type));;
  parentId ← requireNullableId (JsMap.get "parentId" value) "parentId";
  timestamp ← requireTimestamp (JsMap.get "timestamp" value);
  (if String.eqb type "custom" then requireString (JsMap.get "customType" value) "customType";; Ok () else Ok ());;
  let entryFields := JsMap.delete "lane" (JsMap.delete "kind" value) in
  Ok (DEntry lane (JsMap.set "timestamp" (j_int timestamp) (JsMap.set "seq" (j_int seq)
    (JsMap.set "parentId" (j_nullable parentId) (JsMap.set "type" (JStr type) (JsMap.set "id" (JStr id) entryFields)))))).

Definition parseRecordMutation (value : props) (seq : Z) : result JsonlDecodeError DecodedMutation :=
  id ← requireString (JsMap.get "id" value) "id";
  lane ← requireString (JsMap.get "lane" value) "lane";
  type ← requireString (JsMap.get "type" value) "record type";
  throw_if (negb (bool_decide (type ∈ RECORD_TYPES))) (schema_error ("has unknown record type " +:+ type));;
  timestamp ← requireTimestamp (JsMap.get "timestamp" value);
  (if String.eqb type "operation_started" then
     intent ← (match JsMap.get "intent" value with Some (JObj o) => Ok o | _ => Err (schema_error "has invalid intent") end
               : result JsonlDecodeError props);
     operationKind ← requireString (JsMap.get "kind" intent) "operation kind";
     throw_if (negb (bool_decide (operationKind ∈ OPERATION_KINDS))) (schema_error ("has unknown operation kind " +:+ operationKind))
   else Ok ());;
  (if String.eqb type "operation_finished" then requireString (JsMap.get "runId" value) "runId";; Ok () else Ok ());;
  let recordFields := JsMap.delete "kind" value in
  Ok (DRecord (JsMap.set "timestamp" (j_int timestamp) (JsMap.set "seq" (j_int seq)
    (JsMap.set "type" (JStr type) (JsMap.set "lane" (JStr lane) (JsMap.set "id" (JStr id) recordFields)))))).

Definition parseLaneMutation (value : props) (seq : Z) : result JsonlDecodeError DecodedMutation :=
  lane ← requireString (JsMap.get "lane" value) "lane";
  leafId ← requireNullableId (JsMap.get "leafId" value) "leafId";
  Ok (DLane seq lane leafId).

Definition parseFactMutation (value : props) (seq : Z) : result JsonlDecodeError DecodedMutation :=
  if is_value (JsMap.get "fact" value) (JStr "name") then
    name ← optionalString (JsMap.get "name" value) "name"; Ok (DName seq name)
  else if is_value (JsMap.get "fact" value) (JStr "label") then
    label ← optionalString (JsMap.get "label" value) "label";
    targetId ← requireString (JsMap.get "targetId" value) "targetId";
    Ok (DLabel seq targetId label)
  else Err (schema_error "has unknown fact type").

Definition decodeMutation (line : text) : result JsonlDecodeError DecodedMutation :=
  value ← parseObject line;
  seq ← requireSequence (JsMap.get "seq" value);
  let kind := JsMap.get "kind" value in
  if is_value kind (JStr "entry") then parseEntryMutation value seq
  else if is_value kind (JStr "record") then parseRecordMutation value seq
  else if is_value kind (JStr "lane") then parseLaneMutation value seq
  else if is_value kind (JStr "fact") then parseFactMutation value seq
  else Err (schema_error "has unknown mutation kind").

(** The object written for a mutation. *)
Definition encoded_props (m : SessionMutation) : props :=
  match m with
  | MutEntry lane entry => [("kind", JStr "entry"); opt_undefined JStr "lane" lane] ++ js_entry_props entry
  | MutRecord record => [("kind", JStr "record")] ++ js_record_props record
  | MutLane seq lane leafId => [("kind", JStr "lane"); ("seq", j_int seq); ("lane", JStr lane); ("leafId", j_nullable leafId)]
  | MutName seq name => [("kind", JStr "fact"); ("seq", j_int seq); ("fact", JStr "name"); opt_undefined JStr "name" name]
  | MutLabel seq targetId label =>
      [("kind", JStr "fact"); ("seq", j_int seq); ("fact", JStr "label"); ("targetId", JStr targetId); opt_undefined JStr "label" label]
  end.

Definition encodeMutation (m : SessionMutation) : text := encodeLine (encoded_props m).
End codec.

(** * The format reads back what it writes: headers and mutations. *)

(** ** The written objects, without their undefined properties *)

Definition written_props (m : SessionMutation) : props :=
  match m with
  | MutEntry lane entry => prop JStr "kind" "entry" ++ opt_prop JStr "lane" lane ++ js_entry_props entry
  | MutRecord record => prop JStr "kind" "record" ++ js_record_props record
  | MutLane seq lane leafId =>
      prop JStr "kind" "lane" ++ prop j_int "seq" seq ++ prop JStr "lane" lane ++ prop j_nullable "leafId" leafId
  | MutName seq name => prop JStr "kind" "fact" ++ prop j_int "seq" seq ++ prop JStr "fact" "name" ++ opt_prop JStr "name" name
  | MutLabel seq targetId label =>
      prop JStr "kind" "fact" ++ prop j_int "seq" seq ++ prop JStr "fact" "label" ++ prop JStr "targetId" targetId ++
      opt_prop JStr "label" label
  end.

Definition header_props (h : JsonlV4Header) : props :=
  prop JStr "kind" "header" ++ prop j_int "version" 4 ++ prop JStr "id" (h_id h) ++ prop j_int "createdAt" (h_createdAt h) ++
  prop JStr "cwd" (h_cwd h) ++ opt_prop JStr "parentSessionId" (h_parentSessionId h) ++
  opt_prop JStr "legacyParentSessionPath" (h_legacyParentSessionPath h) ++ opt_prop JObj "metadata" (h_metadata h).

Definition is_safe (z : Z) : Prop := is_safe_Z z = true.

(** A mutation the file can hold: JSON data, with the sequence and time the storage gives. *)
Definition storable (m : SessionMutation) : Prop :=
  json_value (JObj (written_props m)) /\ 0 < mutation_seq m /\ is_safe (mutation_seq m) /\
  match m with
  | MutEntry _ e => 0 <= e_timestamp e /\ is_safe (e_timestamp e)
  | MutRecord r => 0 <= r_timestamp r /\ is_safe (r_timestamp r)
  | _ => True
  end.

Definition storable_header (h : JsonlV4Header) : Prop :=
  json_value (JObj (header_props h)) /\ 0 <= h_createdAt h /\ is_safe (h_createdAt h) /\
  (h_parentSessionId h = None \/ h_legacyParentSessionPath h = None).

Section facts.
Context (number_text : jsnum -> text) (number_value : text -> jsnum).
Hypothesis Hlaws : number_laws number_text number_value.
Abbreviation text_of := (text_of number_text).

Lemma stringify_skip k o : forall o', stringify number_text (JObj (o' ++ (k, JUndefined) :: o)) = stringify number_text (JObj (o' ++ o)).
Proof. intros o'. cbn [stringify]. by rewrite !omap_app. Qed.

Lemma encoded_mutation m : encodeMutation number_text m = text_of (JObj (written_props m)) ++ [LF].
Proof.
  unfold encodeMutation, encodeLine, JsonRoundTrip.text_of. f_equal.
  destruct m as [[lane|] e|r|s l p|s [n|]|s t [l|]]; try reflexivity; cbn [encoded_props written_props opt_undefined].
Qed.

Lemma encoded_header h : encodeHeader number_text h = text_of (JObj (header_props h)) ++ [LF].
Proof.
  destruct h as [i c w [p|] [l|] [m|]]; reflexivity.
Qed.

(** ** Requirements *)

Lemma safe_integer_int z : is_safe z -> safe_integer (Some (j_int z)) = Some z.
Proof. intros Hz. unfold safe_integer, j_int, isSafeInteger, num_to_Z. by rewrite Hz. Qed.

Lemma requireSequence_ok z : 0 < z -> is_safe z -> requireSequence (Some (j_int z)) = Ok z.
Proof. intros Hz Hs. unfold requireSequence. rewrite safe_integer_int by done. by destruct (z <=? 0) eqn:?; [lia|]. Qed.

Lemma requireTimestamp_ok z : 0 <= z -> is_safe z -> requireTimestamp (Some (j_int z)) = Ok z.
Proof. intros Hz Hs. unfold requireTimestamp. rewrite safe_integer_int by done. by destruct (z <? 0) eqn:?; [lia|]. Qed.

Lemma requireNullableId_ok v name : requireNullableId (Some (j_nullable v)) name = Ok v.
Proof. by destruct v. Qed.

Lemma set_same (k : string) (v : jstree) o : JsMap.get k o = Some v -> JsMap.set k v o = o.
Proof.
  induction o as [|[k' v'] o IH]; cbn; [done|]. case_decide; [intros [= ->]; congruence|]. intros Hg. by rewrite IH.
Qed.

(** Looking up a property of a view. *)
Ltac lookup :=
  repeat first [rewrite get_here | rewrite get_last | rewrite get_skip by discriminate | rewrite get_skip_opt by discriminate
    | rewrite get_skip_last by discriminate | rewrite get_skip_opt_last by discriminate]; try reflexivity.

Lemma delete_here {A} (f : A -> jstree) k v o : JsMap.get k o = None -> JsMap.delete k (prop f k v ++ o) = o.
Proof. intros. cbn. case_decide; [|done]. by apply JsMap.delete_notin. Qed.
Lemma delete_opt_here {A} (f : A -> jstree) k v o : JsMap.get k o = None -> JsMap.delete k (opt_prop f k v ++ o) = o.
Proof. intros. destruct v; [by apply (delete_here f)|by apply JsMap.delete_notin]. Qed.

(** The properties the parser of an entry looks at. *)
Lemma entry_lookups e : let o := js_entry_props e in
  JsMap.get "id" o = Some (JStr (e_id e)) /\ JsMap.get "type" o = Some (JStr (type_name (entry_type e))) /\
  JsMap.get "parentId" o = Some (j_nullable (e_parentId e)) /\ JsMap.get "seq" o = Some (j_int (e_seq e)) /\
  JsMap.get "timestamp" o = Some (j_int (e_timestamp e)) /\ JsMap.get "kind" o = None /\ JsMap.get "lane" o = None /\
  (entry_type e = Tcustom -> exists c, JsMap.get "customType" o = Some (JStr c)).
Proof.
  destruct e as [id seq parent timestamp b]. cbv zeta. unfold js_entry_props, js_provisioned_props, entry_type.
  cbn [e_id e_seq e_parentId e_timestamp e_body p_id p_body]. rewrite <- !app_assoc.
  split_and!; try (intros Ht; destruct b; try discriminate Ht; by eexists);
    destruct b; try destruct terminate; rewrite <- ?app_assoc; cbn [app]; lookup.
Qed.

Lemma record_lookups r : let o := js_record_props r in
  JsMap.get "id" o = Some (JStr (r_id r)) /\ JsMap.get "lane" o = Some (JStr (r_lane r)) /\
  (exists type, JsMap.get "type" o = Some (JStr type) /\ type ∈ RECORD_TYPES /\
    (type = "operation_started" -> exists intent kind, JsMap.get "intent" o = Some (JObj intent) /\
       JsMap.get "kind" intent = Some (JStr kind) /\ kind ∈ OPERATION_KINDS) /\
    (type = "operation_finished" -> exists runId, JsMap.get "runId" o = Some (JStr runId))) /\
  JsMap.get "seq" o = Some (j_int (r_seq r)) /\ JsMap.get "timestamp" o = Some (j_int (r_timestamp r)) /\ JsMap.get "kind" o = None.
Proof.
  destruct r as [id seq lane timestamp b]. cbv zeta. unfold js_record_props. cbn [r_id r_lane r_seq r_timestamp r_body].
  split_and!; try (destruct b; cbn [js_record_body]; try unfold js_cause; try destruct cause; rewrite <- ?app_assoc; lookup; done).
  destruct b; cbn [js_record_body]; rewrite <- ?app_assoc; (eexists; split; [by lookup|]; split; [by repeat constructor|split; try done]).
  - intros _. exists (match js_intent intent with JObj o => o | _ => [] end). destruct intent; eexists; (split; [by lookup|]);
      (split; [reflexivity|by repeat constructor]).
  - intros _. exists runId. by lookup.
Qed.

Lemma parse_entry lane e : 0 <= e_timestamp e -> is_safe (e_timestamp e) ->
  parseEntryMutation (written_props (MutEntry lane e)) (e_seq e) = Ok (DEntry lane (js_entry_props e)).
Proof.
  intros Ht Hts. destruct (entry_lookups e) as (Hid & Htype & Hparent & Hseq & Htime & Hkind & Hlane & Hcustom).
  unfold parseEntryMutation. cbn [written_props].
  assert (JsMap.get "lane" (prop JStr "kind" "entry" ++ opt_prop JStr "lane" lane ++ js_entry_props e) = JStr <$> lane) as ->.
  { rewrite get_skip by done. destruct lane; [done|exact Hlane]. }
  assert (JsMap.delete "lane" (JsMap.delete "kind" (prop JStr "kind" "entry" ++ opt_prop JStr "lane" lane ++ js_entry_props e)) =
    js_entry_props e) as ->.
  { rewrite delete_here by by rewrite get_skip_opt. by apply delete_opt_here. }
  rewrite !(get_skip JStr) by done. rewrite !(get_skip_opt JStr) by done. rewrite Hid, Htype, Hparent, Htime.
  replace (match JStr <$> lane with Some _ => _ | None => _ end) with (Ok (E := JsonlDecodeError) lane) by by destruct lane.
  cbn [requireString mbind result_bind]. rewrite bool_decide_true by (destruct (entry_type e); by repeat constructor).
  cbn [negb throw_if]. rewrite requireNullableId_ok, requireTimestamp_ok by done.
  destruct (String.eqb _ "custom") eqn:Hc.
  - assert (entry_type e = Tcustom) as Hty by (destruct (entry_type e); done). destruct (Hcustom Hty) as [c Hcx].
    rewrite Hcx. cbn [requireString mbind result_bind].
    rewrite (set_same "id"), (set_same "type"), (set_same "parentId"), (set_same "seq"), (set_same "timestamp") by done. done.
  - cbn [mbind result_bind]. rewrite (set_same "id"), (set_same "type"), (set_same "parentId"), (set_same "seq"), (set_same "timestamp") by done. done.
Qed.

Lemma parse_record r : 0 <= r_timestamp r -> is_safe (r_timestamp r) ->
  parseRecordMutation (written_props (MutRecord r)) (r_seq r) = Ok (DRecord (js_record_props r)).
Proof.
  intros Ht Hts. destruct (record_lookups r) as (Hid & Hlane & (type & Htype & Hin & Hstart & Hfinish) & Hseq & Htime & Hkind).
  unfold parseRecordMutation. cbn [written_props].
  assert (JsMap.delete "kind" (prop JStr "kind" "record" ++ js_record_props r) = js_record_props r) as ->.
  { by apply delete_here. }
  rewrite !(get_skip JStr) by done. rewrite Hid, Hlane, Htype, Htime. cbn [requireString mbind result_bind].
  rewrite bool_decide_true by done. cbn [negb throw_if]. rewrite requireTimestamp_ok by done. cbn [mbind result_bind].
  replace (if String.eqb type "operation_started" then _ else Ok ()) with (Ok (E := JsonlDecodeError) ()).
  2: { destruct (String.eqb_spec type "operation_started") as [Heq|]; [|done]. destruct (Hstart Heq) as (i & k & -> & Hk & Hkin).
       cbn [mbind result_bind]. rewrite Hk. cbn [requireString mbind result_bind]. by rewrite bool_decide_true. }
  replace (if String.eqb type "operation_finished" then _ else Ok ()) with (Ok (E := JsonlDecodeError) ()).
  2: { destruct (String.eqb_spec type "operation_finished") as [Heq|]; [|done]. by destruct (Hfinish Heq) as [runId ->]. }
  cbn [mbind result_bind].
  rewrite (set_same "id"), (set_same "lane"), (set_same "type"), (set_same "seq"), (set_same "timestamp") by done. done.
Qed.

(** A written mutation is read back. *)
Lemma decode_written m : storable m ->
  exists d, decodeMutation number_value (text_of (JObj (written_props m))) = Ok d /\ typed d = Some m.
Proof.
  intros (Hj & Hpos & Hsafe & Hm). unfold decodeMutation, parseObject. rewrite parse_text by done. cbn [mbind result_bind].
  assert (JsMap.get "seq" (written_props m) = Some (j_int (mutation_seq m))) as ->.
  { destruct m as [lane e|r|s l p|s n|s t l]; cbn [written_props mutation_seq]; try by lookup.
    - destruct (entry_lookups e) as (_ & _ & _ & Hseq & _). by rewrite get_skip, get_skip_opt.
    - destruct (record_lookups r) as (_ & _ & _ & Hseq & _). by rewrite get_skip. }
  rewrite requireSequence_ok by done. cbn [mbind result_bind].
  destruct m as [lane e|r|s l p|s n|s t l]; cbn [mutation_seq] in *.
  - eexists. split; [exact (parse_entry lane e (proj1 Hm) (proj2 Hm))|]. cbn [typed]. by rewrite as_entry_back.
  - eexists. split; [exact (parse_record r (proj1 Hm) (proj2 Hm))|]. cbn [typed]. by rewrite as_record_back.
  - exists (DLane s l p). by destruct p.
  - exists (DName s n). by destruct n.
  - exists (DLabel s t l). by destruct l.
Qed.

Lemma header_written h : storable_header h -> decodeHeader number_value (text_of (JObj (header_props h))) = Ok h.
Proof.
  intros (Hj & Ht & Hs & Hp). unfold decodeHeader, parseObject. rewrite parse_text by done. cbn [mbind result_bind].
  destruct h as [i c w p l m]. unfold header_props. cbn [h_id h_createdAt h_cwd h_parentSessionId h_legacyParentSessionPath h_metadata] in *.
  assert (JsMap.get "createdAt" (header_props (mkHeader i c w p l m)) = Some (j_int c)) as Hc by done.
  unfold header_props in Hc. cbn [h_id h_createdAt h_cwd h_parentSessionId h_legacyParentSessionPath h_metadata] in Hc. rewrite Hc.
  rewrite requireTimestamp_ok by done. destruct p as [p|], l as [l|], m as [m|]; try reflexivity; by destruct Hp.
Qed.

(** The line of a mutation or a header: a text without a line feed, and no proper part of it is a text. *)
Lemma mutation_line m : storable m -> no_lf (text_of (JObj (written_props m))) /\ text_of (JObj (written_props m)) <> [] /\
  forall a b, text_of (JObj (written_props m)) = a ++ b -> b <> [] ->
    decodeMutation number_value a = Err (mkDecodeError Dsyntax "is not valid JSON").
Proof.
  intros (Hj & _). split; [by apply (text_no_lf _ number_value Hlaws)|]. split; [by unfold JsonRoundTrip.text_of|].
  intros a b Hab Hb. unfold decodeMutation, parseObject. by rewrite (parse_prefix _ _ Hlaws _ _ _ Hj Hab Hb).
Qed.

Lemma header_line h : storable_header h -> no_lf (text_of (JObj (header_props h))) /\ text_of (JObj (header_props h)) <> [].
Proof. intros (Hj & _). split; [by apply (text_no_lf _ number_value Hlaws)|by unfold JsonRoundTrip.text_of]. Qed.
End facts.
