(* ===== verification/Jsonl.v ===== *)
(** Sessions in files: [packages/agent/src/harness/session/jsonl/storage.ts].

    The file system is an interface: its operations, what they return and what they
    leave in a file, also when they fail.  A write is a method on the storage: a
    computation on the file system and the storage, which returns both in any case.
    [enqueue] runs the writes of a storage one after the other, in the order of the calls:
    a list of requests is served in order. *)
From S2P Require Import Prelude JsNumber JsTree JsonText Messages SessionTypes SessionState SessionStore JsonlCodec.
From Stdlib Require Import Ascii.
Local Open Scope Z_scope.

(** ** The file system *)

Record FileError := mkFileError { fe_not_found : bool; fe_message : string }.

Class FileSystem (F : Type) := {
  readTextFile : string -> F -> F * result FileError text;
  writeFile : string -> text -> F -> F * result FileError unit;
  appendFile : string -> text -> F -> F * result FileError unit;
  renameFile : string -> string -> F -> F * result FileError unit;
  removeFile : string -> F -> F * result FileError unit;
  fileInfo : string -> F -> F * result FileError jsnum;  (* [mtimeMs] *)
  content : string -> F -> option text;  (* what a file holds: no operation of the code *)
}.

(** The documented behaviour: an operation changes the file it names only; a write that
    fails may leave anything in its file; an append that fails leaves a part of its text;
    a rename that fails changes nothing. *)
Class FileSystemLaws (F : Type) `{FileSystem F} := {
  read_law : forall p f, let '(f', r) := readTextFile p f in
    (forall q, content q f' = content q f) /\ match r with Ok t => content p f = Some t | Err _ => True end;
  info_law : forall p f q, content q (fileInfo p f).1 = content q f;
  write_law : forall p t f, let '(f', r) := writeFile p t f in
    (forall q, q <> p -> content q f' = content q f) /\ (is_ok r = true -> content p f' = Some t);
  append_law : forall p t f, let '(f', r) := appendFile p t f in
    (forall q, q <> p -> content q f' = content q f) /\
    (forall old, content p f = Some old -> exists a b, t = a ++ b /\ content p f' = Some (old ++ a) /\ (is_ok r = true -> b = []));
  rename_law : forall p q f, let '(f', r) := renameFile p q f in
    (is_ok r = false -> forall x, content x f' = content x f) /\
    (is_ok r = true -> content q f' = content p f /\ forall x, x <> p -> x <> q -> content x f' = content x f);
  remove_law : forall p f q, q <> p -> content q (removeFile p f).1 = content q f;
}.

(** ** Steps on the file system *)

(** Why loading fails: the code throws, or a line holds no entry or record of the declared type,
    which the code does not check. *)
Inductive load_error : Type := Rejected (e : session_error) | IllTyped (line : nat).

Definition io (F A : Type) : Type := F -> F * result load_error A.
#[export] Instance io_ret {F} : MRet (io F) := fun A a f => (f, Ok a).
#[export] Instance io_bind {F} : MBind (io F) := fun A B k m f =>
  match m f with (f', Ok a) => k a f' | (f', Err e) => (f', Err e) end.

Definition throw {F A} (e : load_error) : io F A := fun f => (f, Err e).
Definition pure {F A} (r : result session_error A) : io F A := fun f => (f, match r with Ok a => Ok a | Err e => Err (Rejected e) end).

(** [fileResult(await op, message)] *)
Definition fileResult {F A} (op : F -> F * result FileError A) (message : string) : io F A := fun f =>
  let '(f', r) := op f in
  (f', match r with
       | Ok a => Ok a
       | Err e => Err (Rejected (SessionError (if fe_not_found e then not_found else storage) (message +:+ ": " +:+ fe_message e)))
       end).

(** [try { m } catch (error) { cleanup; throw error; }] *)
Definition or_cleanup {F} (m : io F unit) (cleanup : F -> F) : io F unit := fun f =>
  match m f with (f', Err e) => (cleanup f', Err e) | ok => ok end.

(** ** Lines *)

(** [content.split("\n")] and [lines.join("\n")] *)
Abbreviation split_lines := (split_on LF).
Abbreviation join_lines := (join_with LF).

Definition physical_lines (t : text) : list text :=
  let ls := split_lines t in match last ls with Some [] => removelast ls | _ => ls end.

Definition ends_with_lf (t : text) : bool := bool_decide (last t = Some LF).

Record JsonlSessionStorage := mkJsonl {
  jl_metadata : JsonlSessionMetadata;
  jl_state : SessionState;
}.

(** A method that changes the storage: what it did to the file system and to the storage
    stays when it throws. *)
Definition method (F A : Type) : Type := F * JsonlSessionStorage -> F * JsonlSessionStorage * result load_error A.
#[export] Instance method_ret {F} : MRet (method F) := fun A a fs => (fs, Ok a).
#[export] Instance method_bind {F} : MBind (method F) := fun A B k m fs =>
  match m fs with (fs', Ok a) => k a fs' | (fs', Err e) => (fs', Err e) end.

(** A call on [this.state] that changes nothing, and a call of the file system. *)
Definition check {F A} (c : SessionState -> result session_error A) : method F A := fun '(f, s) =>
  ((f, s), match c (jl_state s) with Ok a => Ok a | Err e => Err (Rejected e) end).
Definition on_file {F A} (op : JsonlSessionStorage -> io F A) : method F A := fun '(f, s) =>
  let '(f', r) := op s f in ((f', s), r).

(** A method of another storage. *)
Definition on_storage {F A} (m : method F A) (s : JsonlSessionStorage) : io F A := fun f =>
  let '(f', _, r) := m (f, s) in (f', r).

Section storage.
Context {F : Type} `{FileSystem F} (number_text : jsnum -> text) (number_value : text -> jsnum).

Definition invalidFile (path : string) (line : nat) (message : string) : load_error :=
  Rejected (SessionError invalid_entry
    ("Invalid JSONL v4 session " +:+ path +:+ ": line " +:+ pretty line +:+ " " +:+ message)).

Definition publishFileAtomically (destinationPath : string) (populate : string -> io F unit) : io F unit :=
  let tempPath := destinationPath +:+ ".tmp" in
  or_cleanup
    (populate tempPath;;
     fileResult (renameFile tempPath destinationPath) ("Failed to publish staged file " +:+ destinationPath))
    (fun f => (removeFile tempPath f).1).

Definition jl_create (path : string) (header : JsonlV4Header) : io F JsonlSessionStorage :=
  fileResult (writeFile path (encodeHeader number_text header)) ("Failed to initialize session " +:+ path);;
  mtimeMs ← fileResult (fileInfo path) ("Failed to read session metadata " +:+ path);
  mret (mkJsonl (metadataFromHeader header path mtimeMs) new_SessionState).

(** How the lines after the header end: all applied, or a torn tail after that many. *)
Inductive lines_end : Type := AllLines | TornTail (valid : nat).

(** The loop of [load] from line [index] on. *)
Fixpoint load_lines (path : string) (index : nat) (lines : list text) (st : SessionState) : result load_error (SessionState * lines_end) :=
  match lines with
  | [] => Ok (st, AllLines)
  | line :: rest =>
      match decodeMutation number_value line with
      | Err e =>
          match de_kind e, rest with
          | Dsyntax, [] => Ok (st, TornTail index)
          | _, _ => Err (invalidFile path (index + 1) (de_message e))
          end
      | Ok d =>
          match typed d with
          | None => Err (IllTyped (index + 1))
          | Some m =>
              match applyMutation invalidMutation m st with
              | Ok st' => load_lines path (index + 1) rest st'
              | Err e =>
                  if decide (se_code e = invalid_entry) then Err (invalidFile path (index + 1) (se_message e)) else Err (Rejected e)
              end
          end
      end
  end.

(** What [load] does to the file before it returns: it drops a torn tail, or ends the last line. *)
Definition repair (path : string) (content : text) (ending : lines_end) : io F unit :=
  match ending with
  | TornTail valid =>
      publishFileAtomically path (fun tempPath =>
        fileResult (writeFile tempPath (join_lines (take valid (physical_lines content)) ++ [LF]))
          ("Failed to stage torn-tail repair " +:+ path))
  | AllLines =>
      if ends_with_lf content then mret ()
      else fileResult (appendFile path [LF]) ("Failed to repair unterminated session tail " +:+ path)
  end.

Definition jl_load (path : string) : io F JsonlSessionStorage :=
  content ← fileResult (readTextFile path) ("Failed to read session " +:+ path);
  let physicalLines := physical_lines content in
  match physicalLines with
  | [] | [] :: _ => throw (invalidFile path 1 "is missing a header")
  | first :: lines =>
      match decodeHeader number_value first with
      | Err e => throw (invalidFile path 1 (de_message e))
      | Ok header =>
          mtimeMs ← fileResult (fileInfo path) ("Failed to read session metadata " +:+ path);
          match load_lines path 1 lines new_SessionState with
          | Err e => throw e
          | Ok (st, ending) =>
              repair path content ending;;
              mret (mkJsonl (metadataFromHeader header path mtimeMs) st)
          end
      end
  end.

(** ** Writes *)

Definition appendMutation (m : SessionMutation) (s : JsonlSessionStorage) : io F unit :=
  fileResult (appendFile (jm_path (jl_metadata s)) (encodeMutation number_text m))
    ("Failed to append session " +:+ jm_path (jl_metadata s)).

(** [this.state.applyMutation(mutation)]: a mutation that is refused changes nothing. *)
Definition jl_apply (m : SessionMutation) : method F unit := fun '(f, s) =>
  match applyMutation invalidMutation m (jl_state s) with
  | Ok st => ((f, mkJsonl (jl_metadata s) st), Ok ())
  | Err e => ((f, s), Err (Rejected e))
  end.

Definition commit (m : SessionMutation) : method F unit := on_file (appendMutation m);; jl_apply m.

Definition next_sequence : method F Z := check (fun st => Ok (nextSequence st)).

Definition jl_createLane (lane : string) (at_ : option string) : method F unit :=
  check (validateNewLane lane);;
  check (validateTarget at_);;
  seq ← next_sequence;
  commit (MutLane seq lane at_).

Definition jl_moveLane (lane : string) (to : option string) : method F unit :=
  check (requireLane lane);;
  check (validateTarget to);;
  seq ← next_sequence;
  commit (MutLane seq lane to).

Definition jl_appendEntry (newEntry : ProvisionedEntry) (lane : string) (now : Z) : method F Entry :=
  parentId ← check (requireLane lane);
  check (validateUnusedId (p_id newEntry));;
  seq ← next_sequence;
  let entry := stored_entry newEntry parentId seq now in
  commit (MutEntry (Some lane) entry);;
  mret entry.

Definition jl_appendRecord (newRecord : NewRecord) (now : Z) : method F LaneRecord :=
  check (requireLane (n_lane newRecord));;
  check (validateUnusedId (n_id newRecord));;
  open ← check (findOpenOperations (n_lane newRecord) (Some (JInt 1)));
  seq ← next_sequence;
  let record := mkLaneRecord (n_id newRecord) seq (n_lane newRecord) now (n_body newRecord) in
  check (fun _ => match (open : list LaneRecord) with
                  | current :: _ =>
                      throw_if (is_operation_started record)
                        (SessionError storage ("Lane " +:+ n_lane newRecord +:+ " already has an open operation " +:+ r_id current))
                  | [] => Ok ()
                  end);;
  commit (MutRecord record);;
  mret record.

Definition jl_setName (nm : option string) : method F unit :=
  seq ← next_sequence;
  commit (MutName seq nm).

Definition jl_setLabel (id : string) (label : option string) : method F unit :=
  check (validateTarget (Some id));;
  seq ← next_sequence;
  commit (MutLabel seq id label).

(** Method [fork]: the copy is built beside its place, published, and loaded from there. *)
Fixpoint append_all (ms : list SessionMutation) : method F unit :=
  match ms with [] => mret () | m :: ms' => commit m;; append_all ms' end.

Definition jl_fork (path : string) (header : JsonlV4Header) (options : ForkOptions) (s : JsonlSessionStorage) : io F JsonlSessionStorage :=
  mutations ← pure (createForkMutations options (jl_state s));
  publishFileAtomically path (fun tempPath =>
    targetStorage ← jl_create tempPath header;
    on_storage (append_all mutations) targetStorage);;
  jl_load path.

(** The writes of a storage, as requests, and what they return. *)
Inductive write_request : Type :=
  | WCreateLane (lane : string) (at_ : option string)
  | WMoveLane (lane : string) (to : option string)
  | WAppendEntry (newEntry : ProvisionedEntry) (lane : string) (now : Z)
  | WAppendRecord (newRecord : NewRecord) (now : Z)
  | WSetName (nm : option string)
  | WSetLabel (id : string) (label : option string).

Inductive write_value : Type := Done | AppendedEntry (entry : Entry) | AppendedRecord (record : LaneRecord).

Definition jl_serve (r : write_request) : method F write_value :=
  match r with
  | WCreateLane lane at_ => jl_createLane lane at_;; mret Done
  | WMoveLane lane to => jl_moveLane lane to;; mret Done
  | WAppendEntry e lane now => entry ← jl_appendEntry e lane now; mret (AppendedEntry entry)
  | WAppendRecord n now => record ← jl_appendRecord n now; mret (AppendedRecord record)
  | WSetName nm => jl_setName nm;; mret Done
  | WSetLabel id label => jl_setLabel id label;; mret Done
  end.

(** [enqueue]: each write starts when the one before has settled, whatever its outcome. *)
Fixpoint jl_serve_all (rs : list write_request) (fs : F * JsonlSessionStorage) : F * JsonlSessionStorage * list (result load_error write_value) :=
  match rs with
  | [] => (fs, [])
  | r :: rs' =>
      let '(fs1, outcome) := jl_serve r fs in
      let '(fs2, outcomes) := jl_serve_all rs' fs1 in (fs2, outcome :: outcomes)
  end.
End storage.
