(* ===== verification/JsonlRecovery.v ===== *)
(** Recovery of session files: what a load makes of the file of some writes, also
    when the last write was cut off, and how the writes refine the in-memory storage. *)
From S2P Require Import Prelude JsNumber JsTree JsonText JsonRoundTrip Messages SessionTypes SessionState SessionInvariant SessionReads SessionFork SessionStore JsonlCodec Jsonl.
From Stdlib Require Import Ascii.
Local Open Scope Z_scope.

(** ** Lines *)

Definition unlines (ls : list text) : text := flat_map (fun l => l ++ [LF]) ls.

Lemma split_unlines ls t : Forall no_lf ls -> split_lines (unlines ls ++ t) = ls ++ split_lines t.
Proof.
  induction 1 as [|l ls Hl _ IH]; [done|]. cbn [unlines flat_map]. rewrite <- !app_assoc. cbn [app]. rewrite split_on_cons by done.
  f_equal. exact IH.
Qed.

Lemma join_unlines ls : ls <> [] -> join_lines ls ++ [LF] = unlines ls.
Proof.
  induction ls as [|l ls IH]; [done|]. intros _. destruct ls as [|l' ls]; [cbn; by rewrite app_nil_r|].
  rewrite join_cons by done. rewrite <- app_assoc. cbn [app]. rewrite IH by done. change (unlines (l :: l' :: ls)) with ((l ++ [LF]) ++ unlines (l' :: ls)). by rewrite <- app_assoc.
Qed.

(** Full lines, and a last one without its line feed. *)
Lemma physical_full ls : Forall no_lf ls -> physical_lines (unlines ls) = ls.
Proof.
  intros Hls. unfold physical_lines. rewrite <- (app_nil_r (unlines ls)), split_unlines by done. cbn [split_on].
  by rewrite last_snoc, removelast_last.
Qed.

Lemma physical_torn ls a : Forall no_lf ls -> no_lf a -> a <> [] -> physical_lines (unlines ls ++ a) = ls ++ [a].
Proof.
  intros Hls Ha Hne. unfold physical_lines. rewrite split_unlines, split_on_last by done. rewrite last_snoc. by destruct a.
Qed.

Lemma ends_unlines ls : ls <> [] -> ends_with_lf (unlines ls) = true.
Proof.
  intros Hne. destruct ls as [|l ls _] using rev_ind; [done|]. unfold ends_with_lf, unlines. rewrite flat_map_app. cbn [flat_map].
  rewrite app_nil_r, app_assoc, last_snoc. by apply bool_decide_true.
Qed.

Lemma ends_no_lf t a : no_lf a -> a <> [] -> ends_with_lf (t ++ a) = false.
Proof.
  intros Ha Hne. destruct a as [|c a _] using rev_ind; [done|]. unfold ends_with_lf. rewrite app_assoc, last_snoc.
  apply Forall_app in Ha as [_ Ha]. apply Forall_cons in Ha as [Hc _]. apply bool_decide_false. congruence.
Qed.

Section recovery.
Context {F : Type} `{FileSystemLaws F} (number_text : jsnum -> text) (number_value : text -> jsnum).
Context (Hlaws : number_laws number_text number_value).

Abbreviation line_of m := (text_of number_text (JObj (written_props m))).
Abbreviation header_of h := (text_of number_text (JObj (header_props h))).

(** The file after some writes. *)
Definition file_text (h : JsonlV4Header) (ms : list SessionMutation) : text :=
  encodeHeader number_text h ++ flat_map (encodeMutation number_text) ms.

Lemma file_unlines h ms : file_text h ms = unlines (header_of h :: map (fun m => line_of m) ms).
Proof.
  unfold file_text. rewrite encoded_header. cbn [unlines flat_map]. f_equal. unfold unlines. rewrite flat_map_concat_map, flat_map_concat_map, map_map.
  f_equal. apply map_ext. intros m. apply encoded_mutation.
Qed.

Lemma file_lines h ms : storable_header h -> Forall storable ms -> Forall no_lf (header_of h :: map (fun m => line_of m) ms).
Proof.
  intros Hh Hms. constructor; [by apply (header_line _ number_value Hlaws)|]. apply Forall_fmap. eapply Forall_impl; [exact Hms|].
  intros m Hm. by apply (mutation_line _ number_value Hlaws).
Qed.

(** The loop of [load] on written lines. *)
Lemma load_written path ms : Forall storable ms -> forall index st st' tail, applyMutations invalidMutation ms st = Ok st' ->
  load_lines number_value path index (map (fun m => line_of m) ms ++ tail) st =
    load_lines number_value path (index + length ms)%nat tail st'.
Proof.
  induction 1 as [|m ms Hm _ IH]; intros index st st' tail Happ; [injection Happ as <-; by rewrite Nat.add_0_r|].
  cbn [map app load_lines length]. destruct (decode_written _ _ Hlaws m Hm) as (d & -> & ->).
  cbn [applyMutations mfold] in Happ. destruct (applyMutation invalidMutation m st) as [st1|]; [|done].
  rewrite (IH _ _ _ _ Happ). f_equal. lia.
Qed.

(** ** Loading *)

Definition fs_failed {A} (r : result load_error A) : Prop :=
  exists e, r = Err (Rejected e) /\ (se_code e = not_found \/ se_code e = storage).

Lemma fs_failed_cast {A B} e : fs_failed (A := A) (Err e) -> fs_failed (A := B) (Err e).
Proof. intros (e' & [= ->] & He). by exists e'. Qed.

Lemma fileResult_spec {A} (op : F -> F * result FileError A) message f :
  (fileResult op message f).1 = (op f).1 /\
  ((exists a, (op f).2 = Ok a /\ (fileResult op message f).2 = Ok a) \/
   (is_ok (op f).2 = false /\ fs_failed (fileResult op message f).2)).
Proof.
  unfold fileResult. destruct (op f) as [f' [a|e]]; cbn; (split; [done|]); [left; by exists a|right; split; [done|]].
  eexists. split; [reflexivity|]. destruct (fe_not_found e); auto.
Qed.

(** The loading of a file whose lines are known: its end decides what is repaired. *)
Lemma load_known path h lines file st ending f : content path f = Some file ->
  physical_lines file = header_of h :: lines -> storable_header h ->
  load_lines number_value path 1 lines new_SessionState = Ok (st, ending) ->
  let '(f', r) := jl_load number_value path f in
  fs_failed r /\ content path f' = Some file \/
  exists f1 u, content path f1 = Some file /\ repair path file ending f1 = (f', u) /\
    match u with
    | Ok _ => exists s, r = Ok s /\ jl_state s = st
    | Err e => r = Err e
    end.
Proof.
  intros Hfile Hlines Hh Hload. unfold jl_load, mbind, io_bind.
  destruct (fileResult_spec (readTextFile path) ("Failed to read session " +:+ path) f) as [Hf Hr].
  pose proof (read_law path f) as Hread. destruct (fileResult _ _ f) as [f1 r1], (readTextFile path f) as [f1' r1']. cbn in Hf, Hr. subst f1'.
  destruct Hread as [Hsame Hread], Hr as [(t & -> & ->)|[_ Hr]].
  2: { destruct Hr as (e & -> & He). left. rewrite Hsame. split; [by exists e|done]. }
  rewrite Hfile in Hread. injection Hread as <-. rewrite Hlines.
  assert (forall {A} (x y : A), match header_of h with [] => x | _ :: _ => y end = y) as Hcons by done.
  rewrite Hcons, (header_written _ _ Hlaws h Hh). clear Hcons.
  destruct (fileResult_spec (fileInfo path) ("Failed to read session metadata " +:+ path) f1) as [Hf Hr].
  pose proof (info_law path f1 path) as Hinfo. destruct (fileResult (fileInfo path) _ f1) as [f2 r2]. cbn in Hf, Hr. subst f2.
  destruct Hr as [(t & _ & ->)|[_ (e & -> & He)]].
  2: { left. rewrite Hinfo, Hsame. split; [by exists e|done]. }
  rewrite Hload. cbv beta iota. destruct (repair path file ending (fileInfo path f1).1) as [f' u] eqn:Hrep.
  destruct u as [[]|e]; right; exists (fileInfo path f1).1; eexists; rewrite Hinfo, Hsame; split_and!; try done. by eexists.
Qed.

(** ** Repairs *)

Lemma temp_ne path : path +:+ ".tmp" <> path.
Proof. induction path as [|c path IH]; [done|]. intros [= Heq]. exact (IH Heq). Qed.

(** Publishing: the destination is the complete new file, or untouched. *)
Lemma publish_spec path populate f :
  let '(f1, u) := populate (path +:+ ".tmp") f in
  (forall q, q <> path +:+ ".tmp" -> content q f1 = content q f) ->
  let '(f', r) := publishFileAtomically path populate f in
  match r with
  | Ok _ => u = Ok () /\ content path f' = content (path +:+ ".tmp") f1
  | Err e => (u = Err e \/ u = Ok () /\ fs_failed (A := unit) (Err e)) /\ content path f' = content path f
  end.
Proof.
  unfold publishFileAtomically, or_cleanup, mbind, io_bind. pose proof (temp_ne path) as Hne.
  destruct (populate (path +:+ ".tmp") f) as [f1 [[]|e]]; intros Hother.
  2: { split; [by left|]. rewrite remove_law by done. by apply Hother. }
  destruct (fileResult_spec (renameFile (path +:+ ".tmp") path) ("Failed to publish staged file " +:+ path) f1) as [Hf Hr].
  pose proof (rename_law (path +:+ ".tmp") path f1) as Hlaw. destruct (fileResult _ _ f1) as [f2 r2], (renameFile _ _ f1) as [f2' r2'].
  cbn in Hf, Hr. subst f2'. destruct Hlaw as [Hfail Hok], Hr as [(u & -> & ->)|(Hr & e & -> & He)].
  - destruct Hok as [Hok _]; [done|]. by destruct u.
  - split; [right; split; [done|by exists e]|]. rewrite remove_law, Hfail by done. by apply Hother.
Qed.

Lemma repair_torn path file valid f : let '(f', u) := repair path file (TornTail valid) f in
  match u with
  | Ok _ => content path f' = Some (join_lines (take valid (physical_lines file)) ++ [LF])
  | Err _ => fs_failed u /\ content path f' = content path f
  end.
Proof.
  cbn [repair]. set (t := join_lines _ ++ [LF]).
  pose proof (publish_spec path (fun tempPath => fileResult (writeFile tempPath t) ("Failed to stage torn-tail repair " +:+ path)) f) as Hp.
  cbv beta in Hp. pose proof (write_law (path +:+ ".tmp") t f) as Hw.
  destruct (fileResult_spec (writeFile (path +:+ ".tmp") t) ("Failed to stage torn-tail repair " +:+ path) f) as [Hf Hr].
  destruct (fileResult _ _ f) as [f1 u1], (writeFile _ t f) as [f1' u1']. cbn in Hf, Hr. subst f1'. destruct Hw as [Hother Hwrite].
  specialize (Hp Hother). destruct (publishFileAtomically path _ f) as [f' [[]|e]].
  - destruct Hp as [-> ->]. destruct Hr as [(v & -> & Hv)|[_ (e & He & _)]]; [by apply Hwrite|done].
  - destruct Hp as [[-> |[_ Hfail]] Hc]; (split; [|done]); [|done]. destruct Hr as [(v & _ & Hv)|[_ He]]; [done|exact He].
Qed.

Lemma append_spec path t message old f : content path f = Some old -> let '(f', u) := fileResult (appendFile path t) message f in
  exists a b, t = a ++ b /\ content path f' = Some (old ++ a) /\ match u with Ok _ => b = [] | Err _ => fs_failed u end.
Proof.
  intros Hold. destruct (fileResult_spec (appendFile path t) message f) as [Hf Hr]. pose proof (append_law path t f) as Hlaw.
  destruct (fileResult _ _ f) as [f1 u1], (appendFile path t f) as [f1' u1']. cbn in Hf, Hr. subst f1'.
  destruct Hlaw as [_ Hlaw]. destruct (Hlaw old Hold) as (a & b & -> & Hc & Hb). exists a, b. split_and!; [done..|].
  destruct Hr as [(v & -> & ->)|[_ (e & -> & He)]]; [by apply Hb|by exists e].
Qed.

(** ** Crash recovery *)

Lemma applied_all h ms st f path : storable_header h -> Forall storable ms -> applyMutations invalidMutation ms new_SessionState = Ok st ->
  content path f = Some (file_text h ms) ->
  let '(f', r) := jl_load number_value path f in
  content path f' = Some (file_text h ms) /\ (fs_failed r \/ exists s, r = Ok s /\ jl_state s = st).
Proof.
  intros Hh Hms Happ Hfile. pose proof (file_lines h ms Hh Hms) as Hlines. rewrite file_unlines in Hfile |- *.
  pose proof (load_written path ms Hms 1%nat _ _ [] Happ) as Hload. rewrite app_nil_r in Hload.
  pose proof (load_known path h _ _ st AllLines f Hfile (physical_full _ Hlines) Hh Hload) as Hk.
  destruct (jl_load number_value path f) as [f' r]. destruct Hk as [[Hfail Hc]|(f1 & u & Hc & Hrep & Hu)]; [auto|].
  cbn [repair] in Hrep. rewrite ends_unlines in Hrep by done. injection Hrep as <- <-. auto.
Qed.

(** A file whose last line has no line feed. *)
Lemma applied_unended h ms m st f path : storable_header h -> Forall storable (ms ++ [m]) ->
  applyMutations invalidMutation (ms ++ [m]) new_SessionState = Ok st ->
  content path f = Some (file_text h ms ++ line_of m) ->
  let '(f', r) := jl_load number_value path f in
  (fs_failed r \/ exists s, r = Ok s /\ jl_state s = st) /\
  (content path f' = Some (file_text h ms ++ line_of m) \/ content path f' = Some (file_text h (ms ++ [m]))) /\
  (is_ok r = true -> content path f' = Some (file_text h (ms ++ [m]))).
Proof.
  intros Hh Hmsm Happ Hfile. apply Forall_app in Hmsm as Hms. destruct Hms as [Hms Hm]. apply Forall_cons in Hm as [Hm _].
  destruct (mutation_line _ _ Hlaws m Hm) as (Hlf & Hne & _). pose proof (file_lines h ms Hh Hms) as Hlines.
  assert (file_text h (ms ++ [m]) = (file_text h ms ++ line_of m) ++ [LF]) as Hend.
  { unfold file_text. rewrite flat_map_app. cbn [flat_map]. by rewrite (encoded_mutation number_text m), app_nil_r, <- !app_assoc. }
  rewrite Hend. rewrite file_unlines in Hfile |- *.
  pose proof (load_written path _ Hmsm 1%nat _ _ [] Happ) as Hload. rewrite app_nil_r, map_app in Hload.
  pose proof (load_known path h _ _ st AllLines f Hfile (physical_torn _ _ Hlines Hlf Hne) Hh Hload) as Hk.
  destruct (jl_load number_value path f) as [f' r]. destruct Hk as [[Hfail Hc]|(f1 & u & Hc & Hrep & Hu)].
  { split_and!; auto. by destruct Hfail as (e & -> & _). }
  cbn [repair] in Hrep. rewrite ends_no_lf in Hrep by done.
  pose proof (append_spec path [LF] ("Failed to repair unterminated session tail " +:+ path) _ f1 Hc) as Ha. rewrite Hrep in Ha.
  destruct Ha as (a & b & Hab & Hc' & Hu'). destruct u as [u|e].
  - subst b. rewrite app_nil_r in Hab. subst a. split_and!; auto.
  - subst r. split_and!; [left; exact (fs_failed_cast _ Hu')| |done]. destruct a as [|c a]; [left; by rewrite app_nil_r in Hc'|right].
    injection Hab as <- Hab. symmetry in Hab. apply app_eq_nil in Hab as [-> ->]. done.
Qed.

(** A file whose last line is a proper part of a mutation's. *)
Lemma applied_torn h ms m a b st f path : storable_header h -> Forall storable ms -> storable m ->
  applyMutations invalidMutation ms new_SessionState = Ok st -> line_of m = a ++ b -> a <> [] -> b <> [] ->
  content path f = Some (file_text h ms ++ a) ->
  let '(f', r) := jl_load number_value path f in
  (fs_failed r \/ exists s, r = Ok s /\ jl_state s = st) /\
  (content path f' = Some (file_text h ms ++ a) \/ content path f' = Some (file_text h ms)) /\
  (is_ok r = true -> content path f' = Some (file_text h ms)).
Proof.
  intros Hh Hms Hm Happ Hab Ha Hb Hfile. destruct (mutation_line _ _ Hlaws m Hm) as (Hlf & _ & Htorn).
  pose proof (file_lines h ms Hh Hms) as Hlines. rewrite Hab in Hlf. apply Forall_app in Hlf as [Hlf _].
  rewrite file_unlines in Hfile |- *. pose proof (load_written path ms Hms 1%nat _ _ [a] Happ) as Hload.
  cbn [load_lines] in Hload. rewrite (Htorn a b Hab Hb) in Hload. cbn [de_kind] in Hload.
  pose proof (physical_torn _ _ Hlines Hlf Ha) as Hphys.
  pose proof (load_known path h _ _ st _ f Hfile Hphys Hh Hload) as Hk.
  destruct (jl_load number_value path f) as [f' r]. destruct Hk as [[Hfail Hc]|(f1 & u & Hc & Hrep & Hu)].
  { split_and!; auto. by destruct Hfail as (e & -> & _). }
  pose proof (repair_torn path (unlines (header_of h :: map (fun m => line_of m) ms) ++ a) (1 + length ms) f1) as Hr.
  rewrite Hrep, Hphys in Hr. destruct u as [u|e].
  - change (header_of h :: map (fun m => line_of m) ms ++ [a]) with ((header_of h :: map (fun m => line_of m) ms) ++ [a]) in Hr.
    rewrite take_app_length' in Hr by (cbn; by rewrite length_map). rewrite join_unlines in Hr by done. split_and!; auto.
  - subst r. destruct Hr as [Hfail ->]. rewrite Hc. split_and!; [left; exact (fs_failed_cast _ Hfail)|by left|done].
Qed.

(** The file of the writes [ms], while [m] is being written. *)
Definition in_flight (path : string) (h : JsonlV4Header) (ms : list SessionMutation) (m : SessionMutation) (f : F) : Prop :=
  exists a b, encodeMutation number_text m = a ++ b /\ content path f = Some (file_text h ms ++ a).

Definition durable (path : string) (h : JsonlV4Header) (ms : list SessionMutation) (st : SessionState) (f : F) : Prop :=
  content path f = Some (file_text h ms) /\ applyMutations invalidMutation ms new_SessionState = Ok st.

Lemma file_snoc h ms m : file_text h (ms ++ [m]) = file_text h ms ++ encodeMutation number_text m.
Proof. unfold file_text. rewrite flat_map_app. cbn [flat_map]. by rewrite app_nil_r, app_assoc. Qed.

Lemma apply_snoc ms m st st' : applyMutations invalidMutation ms new_SessionState = Ok st -> applyMutation invalidMutation m st = Ok st' ->
  applyMutations invalidMutation (ms ++ [m]) new_SessionState = Ok st'.
Proof. intros Hms Hm. unfold applyMutations in *. rewrite mfold_app, Hms. cbn. by rewrite Hm. Qed.

Lemma in_flight_start path h ms m f : content path f = Some (file_text h ms) -> in_flight path h ms m f.
Proof. intros. exists [], (encodeMutation number_text m). by rewrite app_nil_r. Qed.

Lemma in_flight_end path h ms m f : content path f = Some (file_text h (ms ++ [m])) -> in_flight path h ms m f.
Proof. intros Hc. exists (encodeMutation number_text m), []. by rewrite app_nil_r, <- file_snoc. Qed.

Lemma crash_spec path h ms m st st' f : storable_header h -> Forall storable (ms ++ [m]) ->
  applyMutations invalidMutation ms new_SessionState = Ok st -> applyMutation invalidMutation m st = Ok st' ->
  in_flight path h ms m f ->
  let '(f', r) := jl_load number_value path f in
  in_flight path h ms m f' /\
  (fs_failed r \/ exists s, r = Ok s /\
     (durable path h ms (jl_state s) f' /\ jl_state s = st \/
      durable path h (ms ++ [m]) (jl_state s) f' /\ jl_state s = st')).
Proof.
  intros Hh Hmsm Happ Hm (a & b & Hab & Hc). pose proof (apply_snoc _ _ _ _ Happ Hm) as Happ'.
  apply Forall_app in Hmsm as Hms. destruct Hms as [Hms Hsm]. apply Forall_cons in Hsm as [Hsm _].
  destruct b as [|lf b _] using rev_ind.
  { rewrite app_nil_r in Hab. subst a. rewrite <- file_snoc in Hc. pose proof (applied_all h _ st' f path Hh Hmsm Happ' Hc) as Hload.
    destruct (jl_load number_value path f) as [f' r]. destruct Hload as (Hc' & Hr). split; [by apply in_flight_end|].
    destruct Hr as [Hr|(s & -> & <-)]; [by left|right]. exists s. split; [done|]. right. done. }
  rewrite (encoded_mutation number_text m) in Hab. rewrite app_assoc in Hab. apply app_inj_tail in Hab as [Hab <-].
  assert (forall f', content path f' = Some (file_text h ms ++ a) -> in_flight path h ms m f') as Hkept.
  { intros f' Hf'. exists a, (b ++ [LF]). by rewrite app_assoc, <- Hab, <- (encoded_mutation number_text m). }
  destruct (decide (a = [])) as [->|Ha].
  { rewrite app_nil_r in Hc. pose proof (applied_all h _ st f path Hh Hms Happ Hc) as Hload.
    destruct (jl_load number_value path f) as [f' r]. destruct Hload as (Hc' & Hr). split; [by apply in_flight_start|].
    destruct Hr as [Hr|(s & -> & <-)]; [by left|right]. exists s. split; [done|]. by left. }
  destruct (decide (b = [])) as [->|Hb].
  - rewrite app_nil_r in Hab. subst a. pose proof (applied_unended h ms m st' f path Hh Hmsm Happ' Hc) as Hload.
    destruct (jl_load number_value path f) as [f' r]. destruct Hload as (Hr & Hcs & Hok).
    split; [destruct Hcs; [by apply Hkept|by apply in_flight_end]|].
    destruct Hr as [Hr|(s & -> & <-)]; [by left|right]. exists s. split; [done|]. right. split; [split; auto|done].
  - pose proof (applied_torn h ms m a b st f path Hh Hms Hsm Happ Hab Ha Hb Hc) as Hload.
    destruct (jl_load number_value path f) as [f' r]. destruct Hload as (Hr & Hcs & Hok).
    split; [destruct Hcs; [by apply Hkept|by apply in_flight_start]|].
    destruct Hr as [Hr|(s & -> & <-)]; [by left|right]. exists s. split; [done|]. left. split; [split; auto|done].
Qed.

(** ** Writes refine those of the in-memory storage *)

Definition im_serve (r : write_request) (s : InMemorySessionStorage) : result session_error (write_value * InMemorySessionStorage) :=
  match r with
  | WCreateLane lane at_ => s' ← im_createLane lane at_ s; Ok (Done, s')
  | WMoveLane lane to => s' ← im_moveLane lane to s; Ok (Done, s')
  | WAppendEntry e lane now => '(entry, s') ← im_appendEntry e lane now s; Ok (AppendedEntry entry, s')
  | WAppendRecord n now => '(record, s') ← im_appendRecord n now s; Ok (AppendedRecord record, s')
  | WSetName nm => s' ← im_setName nm s; Ok (Done, s')
  | WSetLabel id label => s' ← im_setLabel id label s; Ok (Done, s')
  end.

(** The mutation a request makes: the checks and the shape both storages share. *)
Definition prepare (r : write_request) (st : SessionState) : result session_error SessionMutation :=
  match r with
  | WCreateLane lane at_ => validateNewLane lane st;; validateTarget at_ st;; Ok (MutLane (nextSequence st) lane at_)
  | WMoveLane lane to => requireLane lane st;; validateTarget to st;; Ok (MutLane (nextSequence st) lane to)
  | WAppendEntry e lane now =>
      parentId ← requireLane lane st; validateUnusedId (p_id e) st;;
      Ok (MutEntry (Some lane) (stored_entry e parentId (nextSequence st) now))
  | WAppendRecord n now =>
      requireLane (n_lane n) st;; validateUnusedId (n_id n) st;;
      open ← findOpenOperations (n_lane n) (Some (JInt 1)) st;
      let record := mkLaneRecord (n_id n) (nextSequence st) (n_lane n) now (n_body n) in
      match open with
      | current :: _ =>
          throw_if (is_operation_started record)
            (SessionError storage ("Lane " +:+ n_lane n +:+ " already has an open operation " +:+ r_id current))
      | [] => Ok ()
      end;;
      Ok (MutRecord record)
  | WSetName nm => Ok (MutName (nextSequence st) nm)
  | WSetLabel id label => validateTarget (Some id) st;; Ok (MutLabel (nextSequence st) id label)
  end.

(** What a write returns: what its mutation adds. *)
Definition value_of (m : SessionMutation) : write_value :=
  match m with MutEntry _ e => AppendedEntry e | MutRecord r => AppendedRecord r | _ => Done end.

Ltac run_checks :=
  repeat first
    [ progress cbn [mbind result_bind mret result_ret method_ret method_bind check on_file jl_state snd]
    | match goal with
      | |- context [validateNewLane ?l ?st] => destruct (validateNewLane l st)
      | |- context [validateTarget ?t ?st] => destruct (validateTarget t st)
      | |- context [requireLane ?l ?st] => destruct (requireLane l st)
      | |- context [validateUnusedId ?i ?st] => destruct (validateUnusedId i st)
      | |- context [findOpenOperations ?l ?n ?st] => destruct (findOpenOperations l n st) as [[|? ?]|]
      | |- context [throw_if ?b ?e] => destruct (throw_if b e)
      end ]; try done.

Lemma im_serve_prepare r s : im_serve r s = (m ← prepare r (im_state s); s' ← im_apply m s; Ok (value_of m, s')).
Proof.
  destruct r; cbn [im_serve prepare]; unfold im_createLane, im_moveLane, im_appendEntry, im_appendRecord, im_setName, im_setLabel;
    run_checks; by destruct (im_apply _ _).
Qed.

Lemma jl_serve_prepare r s (f : F) : jl_serve number_text r (f, s) =
  match prepare r (jl_state s) with
  | Ok m => (commit number_text m;; mret (value_of m)) (f, s)
  | Err e => ((f, s), Err (Rejected e))
  end.
Proof.
  destruct r; cbn [jl_serve prepare]; unfold jl_createLane, jl_moveLane, jl_appendEntry, jl_appendRecord, jl_setName, jl_setLabel,
    next_sequence, mbind, method_bind, result_bind, check; run_checks; by destruct (commit number_text _ (f, s)) as [[? ?] []].
Qed.

(** The checks are those of the state: what they let pass is applied. *)
Lemma prepare_valid r st m : state_ok st -> prepare r st = Ok m -> exists st', applyMutation invalidMutation m st = Ok st'.
Proof.
  intros Hok Hp. assert (mutation_seq m = sequence st + 1) as Hseq.
  { destruct r; cbn [prepare] in Hp; repeat (apply bind_Ok in Hp as (? & _ & Hp)); by injection Hp as <-. }
  unfold applyMutation. rewrite Hseq, Z.eqb_refl. cbn [negb throw_if mbind result_bind].
  destruct r as [lane at_|lane to|e lane now|n now|nm|id label]; cbn [prepare] in Hp.
  - apply bind_Ok in Hp as (_ & _ & (u & Ht & [= <-])%bind_Ok). unfold applyLane. destruct at_ as [id|]; cbn in Ht |- *; [|by eexists].
    apply throw_if_Ok in Ht. rewrite Ht. by eexists.
  - apply bind_Ok in Hp as (_ & _ & (u & Ht & [= <-])%bind_Ok). unfold applyLane. destruct to as [id|]; cbn in Ht |- *; [|by eexists].
    apply throw_if_Ok in Ht. rewrite Ht. by eexists.
  - apply bind_Ok in Hp as (parent & Hl & (u & Hu & [= <-])%bind_Ok). unfold applyEntry, validateUnusedId in *. cbn [stored_entry e_id e_parentId].
    apply throw_if_Ok in Hu. rewrite Hu. unfold requireLane in Hl. apply or_throw_Ok in Hl. rewrite Hl. cbn.
    rewrite (bool_decide_false (parent <> parent)) by (intros Hn; by apply Hn). cbn. destruct parent as [p|]; cbn; [|by eexists].
    pose proof (proj2 (proj2 (ok_lanes _ Hok)) lane _ Hl) as Ht. cbn in Ht. unfold has_entry.
    rewrite (bool_decide_true (is_Some (entriesById st !! p))) by exact Ht. by eexists.
  - apply bind_Ok in Hp as (parent & Hl & (u & Hu & (open & _ & (u' & _ & [= <-])%bind_Ok)%bind_Ok)%bind_Ok).
    unfold applyRecord, validateUnusedId in *. cbn [r_id r_lane]. apply throw_if_Ok in Hu. rewrite Hu.
    unfold requireLane in Hl. apply or_throw_Ok in Hl. unfold JsMap.has. rewrite Hl. by eexists.
  - injection Hp as <-. by eexists.
  - apply bind_Ok in Hp as (u & Ht & [= <-]). cbn in Ht. unfold applyLabel. apply throw_if_Ok in Ht. rewrite Ht. by eexists.
Qed.

(** What a write does to the file of the writes [ms], by what the in-memory write gives:
    a rejected one does nothing; any other appends the line of its mutation to the file,
    once, and the outcome is that of the append. *)
Definition written (path : string) (h : JsonlV4Header) (ms : list SessionMutation) (s : JsonlSessionStorage)
    (spec : result session_error (write_value * InMemorySessionStorage)) (f : F)
    (out : F * JsonlSessionStorage * result load_error write_value) : Prop :=
  match spec with
  | Err e => out = ((f, s), Err (Rejected e))
  | Ok (v, s1) =>
      exists m, applyMutation invalidMutation m (jl_state s) = Ok (im_state s1) /\
      match appendFile path (encodeMutation number_text m) f with
      | (f', Ok _) => out = ((f', mkJsonl (jl_metadata s) (im_state s1)), Ok v) /\ durable path h (ms ++ [m]) (im_state s1) f'
      | (f', Err e) =>
          out = ((f', s), Err (Rejected (SessionError (if fe_not_found e then not_found else storage)
            ("Failed to append session " +:+ path +:+ ": " +:+ fe_message e)))) /\ in_flight path h ms m f'
      end
  end.

(** A request to start an operation in a lane where one is open. *)
Definition starts_second (r : write_request) (st : SessionState) : Prop :=
  match r with
  | WAppendRecord n now =>
      record_type (mkLaneRecord (n_id n) (nextSequence st) (n_lane n) now (n_body n)) = Toperation_started /\
      exists running, open_in (records st) (n_lane n) running
  | _ => False
  end.

(** A commit in a file that is up to date. *)
Lemma commit_spec path h ms m s st f : jm_path (jl_metadata s) = path -> durable path h ms (jl_state s) f ->
  applyMutation invalidMutation m (jl_state s) = Ok st ->
  match appendFile path (encodeMutation number_text m) f with
  | (f', Ok _) => commit number_text m (f, s) = ((f', mkJsonl (jl_metadata s) st), Ok ()) /\ durable path h (ms ++ [m]) st f'
  | (f', Err e) =>
      commit number_text m (f, s) = ((f', s), Err (Rejected (SessionError (if fe_not_found e then not_found else storage)
        ("Failed to append session " +:+ path +:+ ": " +:+ fe_message e)))) /\ in_flight path h ms m f'
  end.
Proof.
  intros Hpath [Hc Happ] Hm. unfold commit, mbind, method_bind, on_file, appendMutation, fileResult. rewrite Hpath.
  pose proof (append_law path (encodeMutation number_text m) f) as Ha.
  destruct (appendFile path _ f) as [f' [u|e]]; destruct Ha as [_ Ha]; destruct (Ha _ Hc) as (a & b & Hab & Hc' & Hb).
  - rewrite Hb, app_nil_r in Hab by done. subst a. rewrite <- file_snoc in Hc'. cbn [jl_apply]. rewrite Hm.
    split; [done|]. split; [done|by eapply apply_snoc].
  - split; [|by exists a, b]. by rewrite <- ?str_app_assoc.
Qed.

Lemma serve_written path h ms r s metadata f : state_ok (jl_state s) -> jm_path (jl_metadata s) = path ->
  durable path h ms (jl_state s) f ->
  written path h ms s (im_serve r (mkInMemory metadata (jl_state s))) f (jl_serve number_text r (f, s)).
Proof.
  intros Hok Hpath Hd. rewrite im_serve_prepare, jl_serve_prepare. cbn [im_state].
  destruct (prepare r (jl_state s)) as [m|e] eqn:Hp; [|done]. cbn [mbind result_bind].
  destruct (prepare_valid _ _ _ Hok Hp) as [st Hm]. unfold written, im_apply. cbn [im_state]. rewrite Hm. cbn.
  exists m. split; [done|]. pose proof (commit_spec path h ms m s st f Hpath Hd Hm) as Hcommit. unfold mbind, method_bind.
  destruct (appendFile path _ f) as [f' [u|e]]; by destruct Hcommit as [-> Hf].
Qed.

(** A second operation is refused. *)
Lemma serve_second r s f : state_ok (jl_state s) -> starts_second r (jl_state s) ->
  exists e, jl_serve number_text r (f, s) = ((f, s), Err (Rejected e)).
Proof.
  intros Hok Hr. rewrite jl_serve_prepare. destruct r as [| | |n now| |]; try done. destruct Hr as (Ht & x & Hx).
  destruct (prepare _ _) as [m|e] eqn:Hp; [|by exists e]. exfalso. cbn [prepare] in Hp.
  apply bind_Ok in Hp as (parent & Hl & (u & Hu & (open & Ho & (u' & Hcheck & [= <-])%bind_Ok)%bind_Ok)%bind_Ok).
  destruct (findOpenOperations_ok (n_lane n) (Some (JInt 1)) _ Hok eq_refl) as (all & Hall & _ & Hin).
  rewrite Hall in Ho. injection Ho as <-. apply Hin, elem_of_rev in Hx. unfold take_limit in Hcheck. cbn in Hcheck.
  destruct (rev all) as [|y ys]; [by apply elem_of_nil in Hx|]. cbn in Hcheck.
  unfold is_operation_started, record_type in Hcheck. cbn in Hcheck. by rewrite bool_decide_eq_true_2 in Hcheck.
Qed.

(** ** Creating and forking *)

Lemma create_spec path h f : let '(f', r) := jl_create number_text path h f in
  (forall q, q <> path -> content q f' = content q f) /\
  (fs_failed r \/ exists s, r = Ok s /\ jm_path (jl_metadata s) = path /\ jl_state s = new_SessionState /\
     durable path h [] new_SessionState f').
Proof.
  unfold jl_create, mbind, io_bind. pose proof (write_law path (encodeHeader number_text h) f) as Hw.
  destruct (fileResult_spec (writeFile path (encodeHeader number_text h)) ("Failed to initialize session " +:+ path) f) as [Hf Hr].
  destruct (fileResult _ _ f) as [f1 r1], (writeFile _ _ f) as [f1' r1']. cbn in Hf, Hr. subst f1'. destruct Hw as [Hother Hw].
  destruct Hr as [(u & -> & ->)|[_ (e & -> & He)]]; [|split; [done|left; by exists e]].
  destruct (fileResult_spec (fileInfo path) ("Failed to read session metadata " +:+ path) f1) as [Hf Hr].
  pose proof (fun q => info_law path f1 q) as Hinfo. destruct (fileResult (fileInfo path) _ f1) as [f2 r2]. cbn in Hf, Hr. subst f2.
  destruct Hr as [(t & _ & ->)|[_ (e & -> & He)]]; (split; [intros q Hq; rewrite Hinfo; by apply Hother|]); [right|left; by exists e].
  eexists. split; [reflexivity|]. split_and!; [done|done|]. split; [|done]. rewrite Hinfo, Hw by done. unfold file_text. cbn [flat_map]. by rewrite app_nil_r.
Qed.

Lemma commit_cases path h ms m s st f : jm_path (jl_metadata s) = path -> durable path h ms (jl_state s) f ->
  applyMutation invalidMutation m (jl_state s) = Ok st ->
  exists f' s' r, commit number_text m (f, s) = ((f', s'), r) /\ jl_metadata s' = jl_metadata s /\
    (forall q, q <> path -> content q f' = content q f) /\
    (fs_failed r \/ r = Ok () /\ jl_state s' = st /\ durable path h (ms ++ [m]) st f').
Proof.
  intros Hpath Hd Hm. pose proof (commit_spec path h ms m s st f Hpath Hd Hm) as Hc.
  pose proof (append_law path (encodeMutation number_text m) f) as Ha.
  destruct (appendFile path _ f) as [f' [u|e]]; destruct Ha as [Ha _], Hc as [-> Hf].
  - exists f', (mkJsonl (jl_metadata s) st), (Ok ()). split_and!; auto.
  - eexists f', s, _. split; [reflexivity|]. split_and!; [done|done|]. left. eexists. split; [reflexivity|]. destruct (fe_not_found e); auto.
Qed.

(** Appending touches the storage's own file only. *)
Lemma append_all_spec path h ms' : forall ms s st f, jm_path (jl_metadata s) = path -> durable path h ms (jl_state s) f ->
  applyMutations invalidMutation ms' (jl_state s) = Ok st ->
  let '(f', _, r) := append_all number_text ms' (f, s) in
  (forall q, q <> path -> content q f' = content q f) /\ (fs_failed r \/ r = Ok () /\ durable path h (ms ++ ms') st f').
Proof.
  induction ms' as [|m ms' IH]; intros ms s st f Hpath Hd Happ; cbn [append_all].
  { injection Happ as <-. split; [done|]. right. by rewrite app_nil_r. }
  cbn [applyMutations mfold] in Happ. destruct (applyMutation invalidMutation m (jl_state s)) as [st1|] eqn:Hm; [|done].
  destruct (commit_cases path h ms m s st1 f Hpath Hd Hm) as (f1 & s1 & r1 & Hc & Hmeta & Hother & Hr).
  unfold mbind, method_bind. rewrite Hc. destruct Hr as [(e & -> & He)|(-> & <- & Hd1)].
  { split; [done|]. left. by exists e. }
  specialize (IH (ms ++ [m]) s1 st f1 ltac:(by rewrite Hmeta) Hd1 Happ). rewrite <- app_assoc in IH. cbn [app] in IH.
  destruct (append_all number_text ms' (f1, s1)) as [[f2 s2] r2]. destruct IH as [Ho Hr]. split; [|done].
  intros q Hq. rewrite Ho by done. by apply Hother.
Qed.

(** *** The copy beside the place of a fork *)
Definition populate (h : JsonlV4Header) (ms : list SessionMutation) (tempPath : string) : io F unit :=
  targetStorage ← jl_create number_text tempPath h; on_storage (append_all number_text ms) targetStorage.

Lemma populate_spec path h ms st f : applyMutations invalidMutation ms new_SessionState = Ok st ->
  let '(f', r) := populate h ms path f in
  (forall q, q <> path -> content q f' = content q f) /\ (fs_failed r \/ r = Ok () /\ durable path h ms st f').
Proof.
  intros Happ. unfold populate, mbind, io_bind, on_storage. pose proof (create_spec path h f) as Hc.
  destruct (jl_create number_text path h f) as [f1 r1]. destruct Hc as [Hother [(e & -> & He)|(s & -> & Hp & Hs & Hd)]].
  { split; [done|left; by exists e]. }
  rewrite <- Hs in Hd, Happ. pose proof (append_all_spec path h ms [] s st f1 Hp Hd Happ) as Ha.
  destruct (append_all number_text ms (f1, s)) as [[f2 s2] r2]. destruct Ha as [Ho Hr]. split; [|done].
  intros q Hq. rewrite Ho by done. by apply Hother.
Qed.

(** The new file is complete when it is published; otherwise its place is as it was. *)
Lemma fork_spec path h options s ms st f : storable_header h -> Forall storable ms ->
  createForkMutations options (jl_state s) = Ok ms -> applyMutations invalidMutation ms new_SessionState = Ok st ->
  let '(f', r) := jl_fork number_text number_value path h options s f in
  match r with
  | Ok s' => jl_state s' = st /\ durable path h ms st f'
  | Err _ => fs_failed r /\ (content path f' = content path f \/ durable path h ms st f')
  end.
Proof.
  intros Hh Hms Hfork Happ. unfold jl_fork, pure. rewrite Hfork. unfold mbind at 1, io_bind at 1. fold (populate h ms).
  pose proof (publish_spec path (populate h ms) f) as Hp. pose proof (populate_spec (path +:+ ".tmp") h ms st f Happ) as Hpop.
  destruct (populate h ms (path +:+ ".tmp") f) as [f1 u]. destruct Hpop as [Hother Hu]. specialize (Hp Hother).
  unfold mbind, io_bind. destruct (publishFileAtomically path (populate h ms) f) as [f2 [v|e]].
  - destruct Hp as [-> Hc]. destruct Hu as [(e & He & _)|[_ [Hd _]]]; [done|]. rewrite Hd in Hc.
    pose proof (applied_all h ms st f2 path Hh Hms Happ Hc) as Hload. destruct (jl_load number_value path f2) as [f3 r].
    destruct Hload as [Hc3 [(e & -> & He)|(s' & -> & Hs)]]; [|done]. split; [by exists e|by right].
  - destruct Hp as [Hp Hc]. split; [|by left]. destruct Hp as [-> |[_ Hf]]; [|exact (fs_failed_cast _ Hf)].
    destruct Hu as [Hu|[Hu _]]; [exact (fs_failed_cast _ Hu)|done].
Qed.
End recovery.
