(* ===== verification/JsonlTheorems.v ===== *)
(** The properties of session files, with a file system that satisfies the interface. *)
From S2P Require Import Prelude JsNumber JsTree JsonText JsonRoundTrip Messages SessionTypes SessionState SessionInvariant SessionFork SessionStore JsonlCodec Jsonl JsonlRecovery.
From Stdlib Require Import Ascii.
Local Open Scope Z_scope.

Section properties.
Context {F : Type} `{FileSystemLaws F} (number_text : jsnum -> text) (number_value : text -> jsnum).

(** C22: The format.  A mutation is written as one line; the line is decoded to an
    object that reads as the mutation, every field of every kind of entry and record
    included; and no proper part of the line is accepted: it is a syntax error, so a torn
    line is never taken for another mutation. *)
Theorem mutation_round_trip (m : SessionMutation) : number_laws number_text number_value -> storable m ->
  exists line d, encodeMutation number_text m = line ++ [LF] /\ no_lf line /\ decodeMutation number_value line = Ok d /\
    typed d = Some m /\
    forall a b, line = a ++ b -> b <> [] -> decodeMutation number_value a = Err (mkDecodeError Dsyntax "is not valid JSON").
Proof.
  intros Hlaws Hm. destruct (decode_written _ _ Hlaws m Hm) as (d & Hd & Ht).
  destruct (mutation_line _ _ Hlaws m Hm) as (Hlf & _ & Htorn). exists (text_of number_text (JObj (written_props m))), d.
  split_and!; [apply encoded_mutation|done..].
Qed.

(** C23: Crash recovery.  If the writes [ms] are in the file and any part of the line of
    one more was appended when the process died, then loading the file gives exactly the
    state after [ms], or that after the interrupted write, with a file that says the same;
    or the file system fails, and the file still is one from which a later load recovers. *)
Theorem crash_recovery (path : string) (h : JsonlV4Header) (ms : list SessionMutation) (m : SessionMutation)
    (st st' : SessionState) (f : F) :
  number_laws number_text number_value -> storable_header h -> Forall storable (ms ++ [m]) ->
  applyMutations invalidMutation ms new_SessionState = Ok st -> applyMutation invalidMutation m st = Ok st' ->
  in_flight number_text path h ms m f ->
  let '(f', r) := jl_load number_value path f in
  in_flight number_text path h ms m f' /\
  (fs_failed r \/ exists s, r = Ok s /\
     (durable number_text path h ms (jl_state s) f' /\ jl_state s = st \/
      durable number_text path h (ms ++ [m]) (jl_state s) f' /\ jl_state s = st')).
Proof. intros Hlaws. by apply crash_spec. Qed.

(** C24: The storage in a file refines the storage in memory.  A write the in-memory
    storage rejects is rejected with the same error and leaves the file and the storage
    alone.  Any other is one append of the line of the mutation the in-memory write
    applies: when the append succeeds the storage gets the state of the in-memory one, the
    write returns what that returns and the file says the same; when the append fails, and
    only then, the storage is as it was, the file holds a part of the line and the error
    names the failure.  A second operation is never started in a lane. *)
Theorem file_storage_refines (path : string) (h : JsonlV4Header) (ms : list SessionMutation) (r : write_request)
    (s : JsonlSessionStorage) (metadata : SessionMetadata) (f : F) :
  state_ok (jl_state s) -> jm_path (jl_metadata s) = path -> durable number_text path h ms (jl_state s) f ->
  written number_text path h ms s (im_serve r (mkInMemory metadata (jl_state s))) f (jl_serve number_text r (f, s)) /\
  (starts_second r (jl_state s) -> exists e, jl_serve number_text r (f, s) = ((f, s), Err (Rejected e))).
Proof. intros Hok Hpath Hd. split; [by apply serve_written|by apply serve_second]. Qed.

(** A fork is published as a whole: the new file holds the mutations of the fork and
    the storage loaded from it their state, which is that of an in-memory fork; when the
    file system fails the error is thrown and the place of the new file holds what it held,
    or the complete fork. *)
Theorem fork_is_atomic (path : string) (h : JsonlV4Header) (options : ForkOptions) (s : JsonlSessionStorage)
    (metadata : SessionMetadata) (ms : list SessionMutation) (f : F) :
  number_laws number_text number_value -> storable_header h -> state_ok (jl_state s) ->
  createForkMutations options (jl_state s) = Ok ms -> Forall storable ms ->
  exists s1, im_fork metadata options (mkInMemory metadata (jl_state s)) = Ok s1 /\
  let '(f', r) := jl_fork number_text number_value path h options s f in
  match r with
  | Ok s' => jl_state s' = im_state s1 /\ durable number_text path h ms (im_state s1) f'
  | Err _ => fs_failed r /\ (content path f' = content path f \/ durable number_text path h ms (im_state s1) f')
  end.
Proof.
  intros Hlaws Hh Hok Hfork Hms. destruct (fork_replay invalidMutation options _ _ Hok Hfork) as (es & ps & st & _ & Happ & _).
  exists (mkInMemory metadata st). unfold im_fork. cbn [im_state]. rewrite Hfork. cbn. rewrite Happ. split; [done|].
  by apply fork_spec.
Qed.
End properties.

(** ** A file system in memory

    Files by path; each append takes the next number of a script: how many characters
    reach the file before it fails, or no failure. *)
Module MemoryFiles.
Record files := mkFiles { table : list (string * text); failures : list (option nat) }.

Definition lookup (p : string) (f : files) : option text := JsMap.get p (table f).
Definition missing : FileError := mkFileError true "no such file".

Definition read_text (p : string) (f : files) : files * result FileError text :=
  (f, match lookup p f with Some t => Ok t | None => Err missing end).
Definition write_text (p : string) (t : text) (f : files) : files * result FileError unit :=
  (mkFiles (JsMap.set p t (table f)) (failures f), Ok ()).
Definition append_text (p : string) (t : text) (f : files) : files * result FileError unit :=
  let old := default [] (lookup p f) in
  match failures f with
  | Some n :: rest => (mkFiles (JsMap.set p (old ++ take n t) (table f)) rest, Err (mkFileError false "no space left"))
  | None :: rest => (mkFiles (JsMap.set p (old ++ t) (table f)) rest, Ok ())
  | [] => (mkFiles (JsMap.set p (old ++ t) (table f)) [], Ok ())
  end.
Definition rename (p q : string) (f : files) : files * result FileError unit :=
  match lookup p f with
  | Some t => (mkFiles (JsMap.set q t (JsMap.delete p (table f))) (failures f), Ok ())
  | None => (f, Err missing)
  end.
Definition remove (p : string) (f : files) : files * result FileError unit :=
  (mkFiles (JsMap.delete p (table f)) (failures f), Ok ()).
Definition info (p : string) (f : files) : files * result FileError jsnum :=
  (f, match lookup p f with Some _ => Ok (JInt 7) | None => Err missing end).

#[global] Instance memory_fs : FileSystem files := {
  readTextFile := read_text; writeFile := write_text; appendFile := append_text; renameFile := rename; removeFile := remove;
  fileInfo := info; content := lookup;
}.

#[global] Instance memory_fs_laws : FileSystemLaws files.
Proof.
  split; unfold content, readTextFile, writeFile, appendFile, renameFile, removeFile, fileInfo, memory_fs, lookup.
  - intros p f. unfold read_text, lookup. cbn. split; [done|]. by destruct (JsMap.get p (table f)).
  - done.
  - intros p t f. cbn. split; [intros q Hq; by rewrite JsMap.get_set_ne|]. intros _. apply JsMap.get_set_eq.
  - intros p t f. unfold append_text, lookup.
    assert (forall x, forall q, q <> p -> JsMap.get q (JsMap.set p x (table f)) = JsMap.get q (table f)) as Hne
      by (intros x q Hq; by rewrite JsMap.get_set_ne).
    destruct (failures f) as [|[n|] rest]; cbn; (split; [apply Hne|]); intros old ->; rewrite JsMap.get_set_eq; cbn.
    + exists t, []. by rewrite app_nil_r.
    + exists (take n t), (drop n t). by rewrite take_drop.
    + exists t, []. by rewrite app_nil_r.
  - intros p q f. unfold rename, lookup. destruct (JsMap.get p (table f)) as [t|] eqn:Hp; cbn; (split; [done|]); [|done].
    intros _. rewrite JsMap.get_set_eq. split; [done|]. intros x Hxp Hxq. rewrite JsMap.get_set_ne by done.
    rewrite JsMap.get_delete. by case_decide.
  - intros p f q Hq. cbn. rewrite JsMap.get_delete. by case_decide.
Qed.

Definition load := jl_load (F := files) HexNumbers.number_value.
Definition serve := jl_serve (F := files) HexNumbers.number_text.
Definition serve_all := jl_serve_all (F := files) HexNumbers.number_text.
Definition file := file_text HexNumbers.number_text.

Definition header : JsonlV4Header := mkHeader "s1" 100 "/work" None None None.
Definition metadata : JsonlSessionMetadata := metadataFromHeader header "s.jsonl" (JInt 7).

(** A name, and an entry whose text has a quote and a line feed. *)
Definition named : SessionMutation := MutName 1 (Some "first").
Definition noted : SessionMutation :=
  MutEntry (Some "main") (mkEntry "e1" 2 None 100 (BCustom "note" (Some (JObj [("text", JStr (String DQUOTE NL)); ("n", j_int 3)])))).

Definition state_of (ms : list SessionMutation) : SessionState :=
  match applyMutations invalidMutation ms new_SessionState with Ok st => st | Err _ => new_SessionState end.

(** The file after the name, with the first [n] characters of the entry's line. *)
Definition torn (n : nat) : files :=
  mkFiles [("s.jsonl", file header [named] ++ take n (encodeMutation HexNumbers.number_text noted))] [].

Definition storage_named : JsonlSessionStorage := mkJsonl metadata (state_of [named]).

Lemma header_storable : storable_header header.
Proof.
  repeat split; try (left; reflexivity); try reflexivity; try done.
  apply (bool_decide_unpack _). vm_compute. exact I.
Qed.

Lemma named_storable : storable named.
Proof.
  repeat split; try (left; reflexivity); try reflexivity; try done.
  apply (bool_decide_unpack _). vm_compute. exact I.
Qed.

Lemma noted_storable : storable noted.
Proof.
  repeat split; try (left; reflexivity); try reflexivity; try done; apply (bool_decide_unpack _); vm_compute; exact I.
Qed.

Lemma both_storable : Forall storable ([named] ++ [noted]).
Proof. constructor; [exact named_storable|]. constructor; [exact noted_storable|constructor]. Qed.

(** The mutations of a fork of the named session. *)
Definition copied : list SessionMutation := [MutLane 1 "main" None; MutName 2 (Some "first")].

Lemma copied_storable : Forall storable copied.
Proof.
  repeat constructor; try (left; reflexivity); try reflexivity; try done; apply (bool_decide_unpack _); vm_compute; exact I.
Qed.

Lemma torn_in_flight n : in_flight HexNumbers.number_text "s.jsonl" header [named] noted (torn n).
Proof.
  exists (take n (encodeMutation HexNumbers.number_text noted)), (drop n (encodeMutation HexNumbers.number_text noted)).
  by rewrite take_drop.
Qed.

Lemma named_ok : state_ok (state_of [named]).
Proof. exact (proj1 (preserve_mutation invalidMutation new_SessionState (state_of [named]) state_ok_initial named eq_refl)). Qed.
End MemoryFiles.

Lemma mutation_round_trip_witness :
  exists line d, encodeMutation HexNumbers.number_text MemoryFiles.noted = line ++ [LF] /\
    decodeMutation HexNumbers.number_value line = Ok d /\ typed d = Some MemoryFiles.noted.
Proof.
  destruct (mutation_round_trip HexNumbers.number_text HexNumbers.number_value MemoryFiles.noted HexNumbers.laws MemoryFiles.noted_storable)
    as (line & d & He & _ & Hd & Ht & _).
  exists line, d. split; [exact He|split; [exact Hd|exact Ht]].
Defined.

(** Ten characters of the line reached the file: the load drops them. *)
Lemma crash_recovery_witness : exists f' s, MemoryFiles.load "s.jsonl" (MemoryFiles.torn 10) = (f', Ok s) /\
  name (jl_state s) = Some "first" /\ content "s.jsonl" f' = Some (MemoryFiles.file MemoryFiles.header [MemoryFiles.named]).
Proof.
  pose proof (crash_recovery HexNumbers.number_text HexNumbers.number_value "s.jsonl" MemoryFiles.header [MemoryFiles.named]
    MemoryFiles.noted (MemoryFiles.state_of [MemoryFiles.named]) (MemoryFiles.state_of [MemoryFiles.named; MemoryFiles.noted])
    (MemoryFiles.torn 10) HexNumbers.laws MemoryFiles.header_storable MemoryFiles.both_storable ltac:(reflexivity) ltac:(reflexivity)
    (MemoryFiles.torn_in_flight 10)) as Hc.
  change (jl_load HexNumbers.number_value) with MemoryFiles.load in Hc.
  destruct (MemoryFiles.load "s.jsonl" (MemoryFiles.torn 10)) as [f' r] eqn:Hload.
  assert (name <$> (jl_state <$> match r with Ok s => Some s | Err _ => None end) = Some (Some "first") /\
    content "s.jsonl" f' = Some (MemoryFiles.file MemoryFiles.header [MemoryFiles.named])) as [Hn Hf].
  { replace r with (MemoryFiles.load "s.jsonl" (MemoryFiles.torn 10)).2 by (rewrite Hload; reflexivity).
    replace f' with (MemoryFiles.load "s.jsonl" (MemoryFiles.torn 10)).1 by (rewrite Hload; reflexivity).
    split; vm_compute; reflexivity. }
  destruct Hc as [_ [(e & -> & _)|(s & -> & _)]]; [discriminate Hn|].
  exists f', s. split; [reflexivity|]. split; [injection Hn as Hn; exact Hn|exact Hf].
Defined.

(** The second name is in the file and in the storage. *)
Lemma file_storage_refines_witness : exists f' s' m,
  MemoryFiles.serve (WSetName (Some "two")) (MemoryFiles.torn 0, MemoryFiles.storage_named) = ((f', s'), Ok Done) /\
  name (jl_state s') = Some "two" /\
  durable HexNumbers.number_text "s.jsonl" MemoryFiles.header [MemoryFiles.named; m] (jl_state s') f'.
Proof.
  destruct (file_storage_refines HexNumbers.number_text "s.jsonl" MemoryFiles.header [MemoryFiles.named] (WSetName (Some "two"))
    MemoryFiles.storage_named (mkSessionMetadata "s1" 100 None) (MemoryFiles.torn 0) MemoryFiles.named_ok) as [Hw _].
  - reflexivity.
  - split; vm_compute; reflexivity.
  - change (jl_serve HexNumbers.number_text) with MemoryFiles.serve in Hw.
    destruct (im_serve _ _) as [[v s1]|e] eqn:Hs; [|vm_compute in Hs; discriminate Hs].
    assert (v = Done /\ name (im_state s1) = Some "two") as [-> Hn] by (vm_compute in Hs; injection Hs as <- <-; split; reflexivity).
    destruct Hw as (m & _ & Hw). change (appendFile "s.jsonl" ?t (MemoryFiles.torn 0))
      with (MemoryFiles.append_text "s.jsonl" t (MemoryFiles.torn 0)) in Hw.
    cbn [MemoryFiles.append_text MemoryFiles.torn MemoryFiles.failures] in Hw. destruct Hw as [Hserve Hd].
    eexists _, _, m. split; [exact Hserve|split; [exact Hn|exact Hd]].
Defined.

Lemma fork_is_atomic_witness : exists s1,
  im_fork (mkSessionMetadata "s2" 100 None) ForkTree (mkInMemory (mkSessionMetadata "s1" 100 None) (jl_state MemoryFiles.storage_named)) = Ok s1 /\
  name (im_state s1) = Some "first".
Proof.
  destruct (fork_is_atomic HexNumbers.number_text HexNumbers.number_value "t.jsonl" MemoryFiles.header ForkTree MemoryFiles.storage_named
    (mkSessionMetadata "s2" 100 None) MemoryFiles.copied (MemoryFiles.torn 0) HexNumbers.laws MemoryFiles.header_storable
    MemoryFiles.named_ok ltac:(vm_compute; reflexivity) MemoryFiles.copied_storable) as (s1 & Hs & _).
  exists s1. split; [exact Hs|]. vm_compute in Hs. injection Hs as <-. reflexivity.
Defined.

(** ** A write lost after a failed one

    An append that fails part-way leaves its characters in the file, and the next append
    goes behind them: the line of an acknowledged write is then no text, and a load takes
    it for a torn tail and drops it. *)
Example write_lost_after_failed_append :
  let f0 := MemoryFiles.mkFiles [("s.jsonl", MemoryFiles.file MemoryFiles.header [])] [Some 5%nat] in
  let s0 := mkJsonl MemoryFiles.metadata new_SessionState in
  let '(f2, acknowledged, outcomes) := MemoryFiles.serve_all [WSetName (Some "one"); WSetName (Some "two")] (f0, s0) in
  let '(f3, loaded) := MemoryFiles.load "s.jsonl" f2 in
  map is_ok outcomes = [false; true] /\ name (jl_state acknowledged) = Some "two" /\
  match loaded with Ok s => name (jl_state s) = None | Err _ => False end.
Proof. vm_compute. done. Qed.
