(* ===== verification/Reducer.v ===== *)
(** Lane recovery: [packages/agent/src/harness/reducer.ts].

    [validateRecordLog] rejects slices of a lane's log that the single-writer
    protocol cannot produce; [reduceLaneState] reconstructs from a slice what
    the lane was doing. *)
From S2P Require Import Prelude JsNumber JsTree Messages SessionTypes.
Local Open Scope Z_scope.

Inductive RecordLogCorruptionReason : Type :=
  | multiple_open_operations | unknown_operation | record_after_finish | non_consecutive_attempt
  | invalid_compaction_reason | queue_after_abort | invalid_queue_cancellation | inconsistent_step
  | tool_call_mismatch | duplicate_tool_invocation | provisioned_entry_mismatch | invalid_deferred_handle.

Record RecordLogCorruption := corrupt {
  rlc_reason : RecordLogCorruptionReason;
  rlc_message : string;
}.

Abbreviation checked_log A := (result RecordLogCorruption A).

Record RecordLogSlice := mkSlice {
  sl_lane : string;
  sl_openOperations : list LaneRecord;
  sl_records : list LaneRecord;
  sl_entries : list Entry;
}.

(** [[...values].sort((left, right) => left.seq - right.seq)]: the sort is stable. *)
Section sort.
Context {A : Type} (key : A -> Z).

Fixpoint insert_by (a : A) (l : list A) : list A :=
  match l with
  | [] => [a]
  | b :: l' => if key a <=? key b then a :: b :: l' else b :: insert_by a l'
  end.

Definition sort_by (l : list A) : list A := fold_right insert_by [] l.
End sort.

Definition bySequence_records : list LaneRecord -> list LaneRecord := sort_by r_seq.
Definition bySequence_entries : list Entry -> list Entry := sort_by e_seq.

(** [new Map(entries.map((entry) => [entry.id, entry]))]. *)
Definition index_entries (es : list Entry) : list (string * Entry) :=
  foldl (fun m e => JsMap.set (e_id e) e m) [] es.

Abbreviation EntryIndex := (list (string * Entry)).

Definition matchesProvisionedEntry (entry : Entry) (target : ProvisionedEntry) : bool :=
  deepEqual (js_provisioned (mkProvisioned (e_id entry) (e_body entry))) (js_provisioned target).

Definition validateExactProvisionedEntry (entriesById : EntryIndex) (target : ProvisionedEntry) : checked_log unit :=
  match JsMap.get (p_id target) entriesById with
  | Some entry =>
      throw_if (negb (matchesProvisionedEntry entry target))
        (corrupt provisioned_entry_mismatch
          ("Provisioned entry " +:+ p_id target +:+ " exists with content different from its intent"))
  | None => Ok ()
  end.

Definition validateResultEntry (entriesById : EntryIndex) (resultEntryId : string) (matches : Entry -> bool)
    (description : string) : checked_log unit :=
  match JsMap.get resultEntryId entriesById with
  | Some entry =>
      throw_if (negb (matches entry))
        (corrupt provisioned_entry_mismatch
          ("Provisioned " +:+ description +:+ " entry " +:+ resultEntryId +:+ " exists with different content"))
  | None => Ok ()
  end.

(** The fields of a step attempt. *)
Record Attempt := mkAttempt {
  at_step : StepKind;
  at_attempt : Z;
  at_resultEntryId : string;
  at_compactionReason : option string;
}.

Definition step_name (s : StepKind) : string :=
  match s with Sassistant => "assistant" | Scompaction => "compaction" | Sbranch_summary => "branch_summary" end.

Definition validateAttemptReason (id : string) (a : Attempt) : checked_log unit :=
  let reason := at_compactionReason a in
  match at_step a with
  | Scompaction =>
      throw_if (bool_decide (reason <> Some "manual") && bool_decide (reason <> Some "threshold") &&
        bool_decide (reason <> Some "overflow"))
        (corrupt invalid_compaction_reason ("Compaction attempt " +:+ id +:+ " has no valid compaction reason"))
  | _ =>
      throw_if (bool_decide (reason <> None))
        (corrupt invalid_compaction_reason (step_name (at_step a) +:+ " attempt " +:+ id +:+ " has a compaction reason"))
  end.

(** Whether an attempt continues the series of the previous one. *)
Definition continuesSeries (entriesById : EntryIndex) (seq : Z) (a previous : Attempt) : bool :=
  bool_decide (at_step previous = at_step a) &&
  match JsMap.get (at_resultEntryId previous) entriesById with
  | None => true
  | Some previousResult => e_seq previousResult >=? seq
  end.

Definition validateAttemptSequence (id : string) (seq : Z) (a : Attempt) (previous : option Attempt)
    (entriesById : EntryIndex) : checked_log unit :=
  let continued :=
    match previous with Some p => if continuesSeries entriesById seq a p then Some p else None | None => None end in
  let expectedAttempt := match continued with Some p => at_attempt p + 1 | None => 1 end in
  throw_if (negb (at_attempt a =? expectedAttempt))
    (corrupt non_consecutive_attempt (step_name (at_step a) +:+ " attempt " +:+ id +:+ " is " +:+
      pretty (at_attempt a) +:+ "; expected " +:+ pretty expectedAttempt));;
  match continued, at_step a with
  | None, _ | _, Sassistant => Ok ()
  | Some p, _ =>
      throw_if (bool_decide (at_resultEntryId a <> at_resultEntryId p))
        (corrupt inconsistent_step (step_name (at_step a) +:+ " attempts disagree on their result entry id"));;
      throw_if (bool_decide (at_compactionReason a <> at_compactionReason p))
        (corrupt inconsistent_step (step_name (at_step a) +:+ " attempts disagree on their compaction reason"))
  end.

Definition is_assistant_entry (e : Entry) : bool := match entry_assistant e with Some _ => true | None => false end.

Definition validateAttemptResult (entriesById : EntryIndex) (a : Attempt) : checked_log unit :=
  match at_step a with
  | Sassistant => validateResultEntry entriesById (at_resultEntryId a) is_assistant_entry "assistant result"
  | Scompaction =>
      validateResultEntry entriesById (at_resultEntryId a) (fun e => bool_decide (entry_type e = Tcompaction))
        "compaction result"
  | Sbranch_summary =>
      validateResultEntry entriesById (at_resultEntryId a) (fun e => bool_decide (entry_type e = Tbranch_summary))
        "branch-summary result"
  end.

(** [toolCalls[toolIndex]]. *)
Definition tool_call_at (calls : list ToolCall) (toolIndex : Z) : option ToolCall :=
  if toolIndex <? 0 then None else calls !! Z.to_nat toolIndex.

(** Checks the start of a tool; returns the invocations seen so far.  The key
    [id NUL index] of the code is the pair: the index holds no NUL. *)
Definition validateToolStart (id assistantEntryId : string) (toolIndex : Z) (toolCallId toolName resultEntryId : string)
    (entriesById : EntryIndex) (invocations : gset (string * Z)) : checked_log (gset (string * Z)) :=
  throw_if (bool_decide ((assistantEntryId, toolIndex) ∈ invocations))
    (corrupt duplicate_tool_invocation ("Tool invocation " +:+ assistantEntryId +:+ ":" +:+ pretty toolIndex +:+ " is duplicated"));;
  message ← or_throw (corrupt tool_call_mismatch ("Tool start " +:+ id +:+ " does not reference an assistant entry"))
    (entry ← JsMap.get assistantEntryId entriesById; entry_assistant entry);
  let mismatch := corrupt tool_call_mismatch ("Tool start " +:+ id +:+ " does not match its assistant tool-call ordinal") in
  toolCall ← or_throw mismatch (tool_call_at (toolCalls (am_content message)) toolIndex);
  throw_if (bool_decide (tc_id toolCall <> toolCallId) || bool_decide (tc_name toolCall <> toolName)) mismatch;;
  validateResultEntry entriesById resultEntryId
    (fun e => match entry_message e with
              | Some (MToolResult m) => bool_decide (tr_toolCallId m = toolCallId) && bool_decide (tr_toolName m = toolName)
              | _ => false
              end) "tool result";;
  Ok ({[(assistantEntryId, toolIndex)]} ∪ invocations).

Definition validateDeferredHandles (es : list Entry) : checked_log unit :=
  mfold (fun _ entry =>
    match entry_assistant entry with
    | Some m =>
        throw_if (bool_decide (am_stopReason m = SRdeferred) && match am_deferred m with None => true | Some _ => false end)
          (corrupt invalid_deferred_handle ("Deferred assistant entry " +:+ e_id entry +:+ " does not carry a handle"))
    | None => Ok ()
    end) () es.

Definition validateOperationResult (entriesById : EntryIndex) (intent : Intent) : checked_log unit :=
  match intent with
  | IRun _ initialMessages _ _ => mfold (fun _ target => validateExactProvisionedEntry entriesById target) () initialMessages
  | ICompaction _ resultEntryId =>
      validateResultEntry entriesById resultEntryId (fun e => bool_decide (entry_type e = Tcompaction)) "manual compaction"
  | INavigation _ _ _ _ summaryEntryId =>
      match truthy_str summaryEntryId with
      | Some id =>
          validateResultEntry entriesById id (fun e => bool_decide (entry_type e = Tbranch_summary)) "navigation summary"
      | None => Ok ()
      end
  end.

(** The local state of [validateRecordLog]. *)
Record LogState := mkLogState {
  starts : gset string;
  finishedAt : gmap string Z;
  abortedAt : gmap string Z;
  queueEnqueues : gmap string LaneRecord;
  latestAttempt : gmap string Attempt;
  toolInvocations : gset (string * Z);
}.

Definition initial_log_state : LogState := mkLogState ∅ ∅ ∅ ∅ ∅ ∅.

(** The check every record owned by an operation goes through. *)
Definition validateOwner (record : LaneRecord) (s : LogState) : checked_log unit :=
  match record_runId record with
  | None => Ok ()
  | Some runId =>
      throw_if (bool_decide (runId ∉ starts s))
        (corrupt unknown_operation ("Record " +:+ r_id record +:+ " references unknown operation " +:+ runId));;
      match finishedAt s !! runId with
      | Some finishSeq =>
          throw_if (r_seq record >? finishSeq)
            (corrupt record_after_finish ("Record " +:+ r_id record +:+ " follows the finish of operation " +:+ runId))
      | None => Ok ()
      end
  end.

Definition queue_name (q : Queue) : string :=
  match q with Qsteer => "steer" | QfollowUp => "followUp" | QnextRun => "nextRun" end.

Definition after_abort (record : LaneRecord) (runId : option string) (s : LogState) : bool :=
  match runId with
  | Some id => match abortedAt s !! id with Some abortSeq => r_seq record >? abortSeq | None => false end
  | None => false
  end.

(** One round of the loop of [validateRecordLog]. *)
Definition validateRecord (entriesById : EntryIndex) (s : LogState) (record : LaneRecord) : checked_log LogState :=
  match r_body record with
  | ROperationStarted _ intent =>
      validateOperationResult entriesById intent;;
      Ok (mkLogState ({[r_id record]} ∪ starts s) (finishedAt s) (abortedAt s) (queueEnqueues s) (latestAttempt s)
            (toolInvocations s))
  | body =>
      validateOwner record s;;
      match body with
      | ROperationFinished runId _ _ =>
          Ok (mkLogState (starts s) (<[runId := r_seq record]> (finishedAt s)) (abortedAt s) (queueEnqueues s)
                (latestAttempt s) (toolInvocations s))
      | RAbortRequested runId =>
          Ok (mkLogState (starts s) (finishedAt s) (<[runId := r_seq record]> (abortedAt s)) (queueEnqueues s)
                (latestAttempt s) (toolInvocations s))
      | RStepAttempt runId step attempt resultEntryId reason =>
          let a := mkAttempt step attempt resultEntryId reason in
          validateAttemptReason (r_id record) a;;
          validateAttemptSequence (r_id record) (r_seq record) a (latestAttempt s !! runId) entriesById;;
          validateAttemptResult entriesById a;;
          Ok (mkLogState (starts s) (finishedAt s) (abortedAt s) (queueEnqueues s) (<[runId := a]> (latestAttempt s))
                (toolInvocations s))
      | RToolStarted _ assistantEntryId toolIndex toolCallId toolName _ resultEntryId _ =>
          invocations ← validateToolStart (r_id record) assistantEntryId toolIndex toolCallId toolName resultEntryId
            entriesById (toolInvocations s);
          Ok (mkLogState (starts s) (finishedAt s) (abortedAt s) (queueEnqueues s) (latestAttempt s) invocations)
      | RQueueEnqueued queue runId target =>
          throw_if (bool_decide (queue <> QnextRun) && after_abort record runId s)
            (corrupt queue_after_abort (queue_name queue +:+ " item " +:+ p_id target +:+ " was enqueued after abort"));;
          validateExactProvisionedEntry entriesById target;;
          Ok (mkLogState (starts s) (finishedAt s) (abortedAt s) (<[p_id target := record]> (queueEnqueues s))
                (latestAttempt s) (toolInvocations s))
      | RQueueCancelled runId entryId =>
          let invalid := corrupt invalid_queue_cancellation
            ("Queue cancellation " +:+ r_id record +:+ " has no pending matching enqueue") in
          enqueue ← or_throw invalid (queueEnqueues s !! entryId);
          throw_if ((r_seq enqueue >=? r_seq record) || bool_decide (record_runId enqueue <> runId) ||
            JsMap.has entryId entriesById) invalid;;
          Ok s
      | RWriteDeferred _ target => validateExactProvisionedEntry entriesById target;; Ok s
      | ROperationStarted _ _ | RUsage _ _ => Ok s
      end
  end.

Definition validateRecordLog (input : RecordLogSlice) : checked_log unit :=
  throw_if (1 <? Z.of_nat (length (sl_openOperations input)))
    (corrupt multiple_open_operations ("Lane " +:+ sl_lane input +:+ " has at least two open operations"));;
  let entriesById := index_entries (sl_entries input) in
  validateDeferredHandles (JsMap.values entriesById);;
  mfold (validateRecord entriesById) initial_log_state (bySequence_records (sl_records input));;
  Ok ().
