(* ===== verification/ReducerValid.v ===== *)
(** What [validateRecordLog] accepts.

    [record_valid] states, in terms of the records that precede a record in
    sequence order, what the single-writer protocol allows; the code keeps a
    summary of those records instead of searching them. *)
From S2P Require Import Prelude JsNumber JsTree Messages SessionTypes Reducer.
Local Open Scope Z_scope.

(** ** The protocol *)
Section protocol.
Context (es : EntryIndex).

Definition started_in (past : list LaneRecord) (id : string) : Prop :=
  exists r, r ∈ past /\ is_operation_started r = true /\ r_id r = id.

(** The sequence number of the last finish of an operation. *)
Definition finish_in (past : list LaneRecord) (id : string) : option Z :=
  last (omap (fun r => match r_body r with
    | ROperationFinished runId _ _ => if decide (runId = id) then Some (r_seq r) else None | _ => None end) past).

Definition abort_in (past : list LaneRecord) (id : string) : option Z :=
  last (omap (fun r => match r_body r with
    | RAbortRequested runId => if decide (runId = id) then Some (r_seq r) else None | _ => None end) past).

Definition enqueue_in (past : list LaneRecord) (id : string) : option LaneRecord :=
  last (omap (fun r => match r_body r with
    | RQueueEnqueued _ _ target => if decide (p_id target = id) then Some r else None | _ => None end) past).

Definition attempt_in (past : list LaneRecord) (id : string) : option Attempt :=
  last (omap (fun r => match r_body r with
    | RStepAttempt runId step attempt entryId reason =>
        if decide (runId = id) then Some (mkAttempt step attempt entryId reason) else None
    | _ => None end) past).

Definition invocation (r : LaneRecord) : option (string * Z) :=
  match r_body r with RToolStarted _ assistantEntryId toolIndex _ _ _ _ _ => Some (assistantEntryId, toolIndex) | _ => None end.

(** An entry that exists under a promised id is what was promised. *)
Definition result_ok (id : string) (P : Entry -> Prop) : Prop :=
  forall e, JsMap.get id es = Some e -> P e.

Definition provisioned_ok (target : ProvisionedEntry) : Prop :=
  result_ok (p_id target) (fun e => matchesProvisionedEntry e target = true).

Definition owner_valid (past : list LaneRecord) (r : LaneRecord) : Prop :=
  forall runId, record_runId r = Some runId ->
    started_in past runId /\ forall n, finish_in past runId = Some n -> r_seq r <= n.

Definition reason_valid (a : Attempt) : Prop :=
  match at_step a with
  | Scompaction => at_compactionReason a ∈ [Some "manual"; Some "threshold"; Some "overflow"]
  | _ => at_compactionReason a = None
  end.

(** The attempt is the first of a series, or the next of the series the
    operation's last attempt belongs to: same step, still without a result
    when the attempt was recorded. *)
Definition series_valid (past : list LaneRecord) (runId : string) (seq : Z) (a : Attempt) : Prop :=
  let fresh := forall p, attempt_in past runId = Some p -> continuesSeries es seq a p = false in
  (fresh /\ at_attempt a = 1) \/
  (exists p, attempt_in past runId = Some p /\ continuesSeries es seq a p = true /\ at_attempt a = at_attempt p + 1 /\
     (at_step a <> Sassistant -> at_resultEntryId a = at_resultEntryId p /\ at_compactionReason a = at_compactionReason p)).

Definition step_result (a : Attempt) (e : Entry) : Prop :=
  match at_step a with
  | Sassistant => is_assistant_entry e = true
  | Scompaction => entry_type e = Tcompaction
  | Sbranch_summary => entry_type e = Tbranch_summary
  end.

Definition call_of (assistantEntryId : string) (toolIndex : Z) (toolCallId toolName : string) : Prop :=
  exists e m call, JsMap.get assistantEntryId es = Some e /\ entry_assistant e = Some m /\
    tool_call_at (toolCalls (am_content m)) toolIndex = Some call /\ tc_id call = toolCallId /\ tc_name call = toolName.

Definition tool_result_of (toolCallId toolName : string) (e : Entry) : Prop :=
  exists m, entry_message e = Some (MToolResult m) /\ tr_toolCallId m = toolCallId /\ tr_toolName m = toolName.

Definition intent_valid (intent : Intent) : Prop :=
  match intent with
  | IRun _ initialMessages _ _ => Forall provisioned_ok initialMessages
  | ICompaction _ id => result_ok id (fun e => entry_type e = Tcompaction)
  | INavigation _ _ _ _ summary =>
      forall id, truthy_str summary = Some id -> result_ok id (fun e => entry_type e = Tbranch_summary)
  end.

Definition body_valid (past : list LaneRecord) (r : LaneRecord) : Prop :=
  match r_body r with
  | ROperationStarted _ intent => intent_valid intent
  | RStepAttempt runId step attempt entryId reason =>
      let a := mkAttempt step attempt entryId reason in
      reason_valid a /\ series_valid past runId (r_seq r) a /\ result_ok entryId (step_result a)
  | RToolStarted _ assistantEntryId toolIndex toolCallId toolName _ entryId _ =>
      (assistantEntryId, toolIndex) ∉ omap invocation past /\ call_of assistantEntryId toolIndex toolCallId toolName /\
      result_ok entryId (tool_result_of toolCallId toolName)
  | RQueueEnqueued queue runId target =>
      (queue <> QnextRun -> forall id n, runId = Some id -> abort_in past id = Some n -> r_seq r <= n) /\
      provisioned_ok target
  | RQueueCancelled runId entryId =>
      exists q, enqueue_in past entryId = Some q /\ r_seq q < r_seq r /\ record_runId q = runId /\
        JsMap.get entryId es = None
  | RWriteDeferred _ target => provisioned_ok target
  | RAbortRequested _ | ROperationFinished _ _ _ | RUsage _ _ => True
  end.

Definition record_valid (past : list LaneRecord) (r : LaneRecord) : Prop :=
  owner_valid past r /\ body_valid past r.
End protocol.

(** A deferred answer carries the handle to fetch it with. *)
Definition handle_valid (e : Entry) : Prop :=
  forall m, entry_assistant e = Some m -> am_stopReason m = SRdeferred -> am_deferred m <> None.

(** ** The checks of the code decide the protocol's conditions *)

Lemma throw_if_unit {E} b (e : E) : throw_if b e = Ok () <-> b = false.
Proof. apply throw_if_Ok. Qed.

Lemma bind_unit {E} (m : result E unit) (k : result E unit) : (m;; k) = Ok () <-> m = Ok () /\ k = Ok ().
Proof. rewrite bind_Ok. split; [intros ([] & H1 & H2); done|intros [H1 H2]; by exists ()]. Qed.

(** A sequence of checks that ends with a value. *)
Lemma bind_unit_Ok {E A} (m : result E unit) (k : result E A) a : (m;; k) = Ok a <-> m = Ok () /\ k = Ok a.
Proof. rewrite bind_Ok. split; [intros ([] & H1 & H2); done|intros [H1 H2]; by exists ()]. Qed.

(** A loop of checks passes when each one does. *)
Lemma mfold_unit {E A} (f : A -> result E unit) l :
  mfold (fun _ a => f a) () l = Ok () <-> Forall (fun a => f a = Ok ()) l.
Proof.
  induction l as [|a l IH]; cbn [mfold]; [split; [constructor|done]|]. rewrite Forall_cons, <-IH.
  destruct (f a) as [[]|e]; naive_solver.
Qed.

Section checks.
Context (es : EntryIndex).

Lemma validateResultEntry_ok id matches description (P : Entry -> Prop) :
  (forall e, matches e = true <-> P e) ->
  validateResultEntry es id matches description = Ok () <-> result_ok es id P.
Proof.
  intros HP. unfold validateResultEntry, result_ok. destruct (JsMap.get id es) as [e|]; [|by split].
  rewrite throw_if_unit, negb_false_iff, HP. naive_solver.
Qed.

Lemma validateExact_ok target : validateExactProvisionedEntry es target = Ok () <-> provisioned_ok es target.
Proof.
  unfold validateExactProvisionedEntry, provisioned_ok, result_ok. destruct (JsMap.get (p_id target) es); [|by split].
  rewrite throw_if_unit, negb_false_iff. naive_solver.
Qed.

Lemma validateOperationResult_ok intent : validateOperationResult es intent = Ok () <-> intent_valid es intent.
Proof.
  destruct intent as [p im o rd|ci id|tg sm ci l sid]; cbn [validateOperationResult intent_valid].
  - rewrite mfold_unit. apply Forall_iff, validateExact_ok.
  - apply validateResultEntry_ok. intros e. apply bool_decide_eq_true.
  - destruct (truthy_str sid) as [id|]; [|by split]. rewrite validateResultEntry_ok; [|intros e; apply bool_decide_eq_true].
    naive_solver.
Qed.

Lemma validateAttemptReason_ok id a : validateAttemptReason id a = Ok () <-> reason_valid a.
Proof.
  unfold validateAttemptReason, reason_valid. destruct (at_step a); rewrite throw_if_unit.
  1,3: rewrite bool_decide_eq_false; split; [apply dec_stable|tauto].
  rewrite !andb_false_iff, !bool_decide_eq_false, !elem_of_cons. split.
  - intros [[H|H]|H]; apply dec_stable in H; tauto.
  - intros [H|[H|[H|H%elem_of_nil]]]; tauto.
Qed.

Lemma validateAttemptResult_ok a : validateAttemptResult es a = Ok () <-> result_ok es (at_resultEntryId a) (step_result a).
Proof.
  unfold validateAttemptResult. destruct (at_step a) eqn:Hs; apply validateResultEntry_ok; intros e; unfold step_result;
    rewrite Hs, ?bool_decide_eq_true; done.
Qed.

Lemma validateAttemptSequence_ok past runId id seq a :
  validateAttemptSequence id seq a (attempt_in past runId) es = Ok () <-> series_valid es past runId seq a.
Proof.
  unfold validateAttemptSequence, series_valid.
  destruct (attempt_in past runId) as [p|]; [destruct (continuesSeries es seq a p) eqn:Hc|].
  - rewrite bind_unit, throw_if_unit, negb_false_iff, Z.eqb_eq.
    destruct (at_step a) eqn:Hs; rewrite ?bind_unit, ?throw_if_unit, ?bool_decide_eq_false;
      (split; [intros [? ?]; right; exists p; split_and!; [done..|]; try done; intros _;
               by split; apply dec_stable; tauto
              |intros [[Hf _]|(q & [= <-] & _ & ? & Hq)]; [by specialize (Hf p eq_refl); congruence|]]); naive_solver.
  - rewrite bind_unit, throw_if_unit, negb_false_iff, Z.eqb_eq. split; [intros [? _]; left; naive_solver|].
    intros [[_ ?]|(q & [= <-] & ? & _)]; [done|congruence].
  - rewrite bind_unit, throw_if_unit, negb_false_iff, Z.eqb_eq. split; [intros [? _]; left; naive_solver|].
    intros [[_ ?]|(q & ? & _)]; [done|congruence].
Qed.

Lemma validateToolStart_ok id aid ti tcid tn rid inv inv' :
  validateToolStart id aid ti tcid tn rid es inv = Ok inv' <->
  ((aid, ti) ∉ inv /\ call_of es aid ti tcid tn /\ result_ok es rid (tool_result_of tcid tn)) /\ inv' = {[(aid, ti)]} ∪ inv.
Proof.
  unfold validateToolStart, call_of. rewrite bind_unit_Ok, throw_if_unit, bool_decide_eq_false.
  destruct (JsMap.get aid es) as [e|]; cbn [mbind option_bind];
    [|split; [by intros [? ?]|by intros [(? & (? & ? & ? & [=] & _) & _) _]]].
  destruct (entry_assistant e) as [m|] eqn:Hm; cbn;
    [|split; [by intros [? ?]|intros [(? & (e' & ? & ? & [= <-] & ? & _) & _) _]; congruence]].
  destruct (tool_call_at (toolCalls (am_content m)) ti) as [c|] eqn:Hc; cbn [or_throw mbind result_bind];
    [|split; [by intros [? ?]|intros [(? & (e' & m' & ? & [= <-] & ? & ? & _) & _) _]; congruence]].
  rewrite !bind_unit_Ok, throw_if_unit, orb_false_iff, !bool_decide_eq_false.
  rewrite (validateResultEntry_ok _ _ _ (tool_result_of tcid tn)).
  - split.
    + intros (? & [H1 H2] & ? & [= <-]). apply dec_stable in H1, H2. split; [|done]. split; [done|].
      split; [by exists e, m, c|done].
    + intros [(? & (e' & m' & c' & [= <-] & ? & ? & ? & ?) & ?) ->]. simplify_eq. split_and!; try done; by intros [].
  - intros e'. unfold tool_result_of. destruct (entry_message e') as [[]|]; split; try done; try (by intros (? & [=] & _)).
    + intros [?%bool_decide_eq_true ?%bool_decide_eq_true]%andb_true_iff. eauto.
    + intros (? & [= ->] & ? & ?). by rewrite !bool_decide_eq_true_2.
Qed.
End checks.

(** ** The summary the code keeps of the past *)

Record summary (past : list LaneRecord) (s : LogState) : Prop := {
  sum_starts : forall id, id ∈ starts s <-> started_in past id;
  sum_finished : forall id, finishedAt s !! id = finish_in past id;
  sum_aborted : forall id, abortedAt s !! id = abort_in past id;
  sum_queue : forall id, queueEnqueues s !! id = enqueue_in past id;
  sum_attempt : forall id, latestAttempt s !! id = attempt_in past id;
  sum_tools : forall i, i ∈ toolInvocations s <-> i ∈ omap invocation past;
}.

Lemma summary_nil : summary [] initial_log_state.
Proof. split; intros i; cbn; try done; [|set_solver]. split; [set_solver|]. intros (r & Hr%elem_of_nil & _); done. Qed.

(** What one more record adds to the last match of a search. *)
Lemma last_omap_snoc {A B} (f : A -> option B) l a :
  last (omap f (l ++ [a])) = match f a with Some b => Some b | None => last (omap f l) end.
Proof.
  rewrite omap_app. cbn. destruct (f a); [apply last_snoc|by rewrite app_nil_r].
Qed.

Lemma lookup_insert_decide {A} (m : gmap string A) i j a :
  <[i := a]> m !! j = if decide (i = j) then Some a else m !! j.
Proof. case_decide; [subst; apply lookup_insert_eq|by apply lookup_insert_ne]. Qed.

Lemma started_snoc past r id :
  started_in (past ++ [r]) id <-> started_in past id \/ (is_operation_started r = true /\ r_id r = id).
Proof.
  unfold started_in. setoid_rewrite elem_of_app. setoid_rewrite list_elem_of_singleton. split.
  - intros (q & [?| ->] & ? & ?); eauto.
  - intros [(q & ? & ?)|?]; [exists q|exists r]; tauto.
Qed.

Lemma invocation_snoc past r i : i ∈ omap invocation (past ++ [r]) <-> i ∈ omap invocation past \/ invocation r = Some i.
Proof.
  rewrite omap_app, elem_of_app. cbn. destruct (invocation r) as [j|]; [|split; [by intros [?|?%elem_of_nil]; [left|]|by intros [?|?]; [left|]]].
  rewrite list_elem_of_singleton. naive_solver.
Qed.

(** The state after a record that passed. *)
Definition advance (r : LaneRecord) (s : LogState) : LogState :=
  mkLogState
    (if is_operation_started r then {[r_id r]} ∪ starts s else starts s)
    (match r_body r with ROperationFinished runId _ _ => <[runId := r_seq r]> (finishedAt s) | _ => finishedAt s end)
    (match r_body r with RAbortRequested runId => <[runId := r_seq r]> (abortedAt s) | _ => abortedAt s end)
    (match r_body r with RQueueEnqueued _ _ target => <[p_id target := r]> (queueEnqueues s) | _ => queueEnqueues s end)
    (match r_body r with
     | RStepAttempt runId step attempt entryId reason => <[runId := mkAttempt step attempt entryId reason]> (latestAttempt s)
     | _ => latestAttempt s end)
    (match invocation r with Some i => {[i]} ∪ toolInvocations s | None => toolInvocations s end).

Lemma summary_advance past s r : summary past s -> summary (past ++ [r]) (advance r s).
Proof.
  intros Hs. split; intros id; unfold finish_in, abort_in, enqueue_in, attempt_in; cbn [advance starts finishedAt abortedAt
    queueEnqueues latestAttempt toolInvocations]; rewrite ?last_omap_snoc.
  - rewrite started_snoc, <-(sum_starts _ _ Hs). destruct (is_operation_started r); [set_solver|naive_solver].
  - destruct (r_body r); rewrite ?lookup_insert_decide, ?(sum_finished _ _ Hs); try done; by case_decide.
  - destruct (r_body r); rewrite ?lookup_insert_decide, ?(sum_aborted _ _ Hs); try done; by case_decide.
  - destruct (r_body r); rewrite ?lookup_insert_decide, ?(sum_queue _ _ Hs); try done; by case_decide.
  - destruct (r_body r); rewrite ?lookup_insert_decide, ?(sum_attempt _ _ Hs); try done; by case_decide.
  - rewrite invocation_snoc, <-(sum_tools _ _ Hs). destruct (invocation r); set_solver.
Qed.

Lemma validateOwner_ok past s r : summary past s -> validateOwner r s = Ok () <-> owner_valid past r.
Proof.
  intros Hs. unfold validateOwner, owner_valid. destruct (record_runId r) as [runId|]; [|by split].
  rewrite bind_unit, throw_if_unit, bool_decide_eq_false, (sum_finished _ _ Hs).
  assert (¬ (runId ∉ starts s) <-> started_in past runId) as -> by
    (rewrite <-(sum_starts _ _ Hs); split; [apply (dec_stable (P := _ ∈ _))|tauto]).
  destruct (finish_in past runId) as [n|] eqn:Hfin.
  - rewrite throw_if_unit, Z.gtb_ltb, Z.ltb_ge. split.
    + intros [? ?] id [= <-]. split; [done|]. rewrite Hfin. by intros ? [= <-].
    + intros H. destruct (H runId eq_refl) as [? H']. eauto.
  - split; [|by intros H; destruct (H runId eq_refl)]. intros [? _] id [= <-]. by rewrite Hfin.
Qed.

Lemma after_abort_ok past s r runId : summary past s ->
  after_abort r runId s = false <-> (forall id n, runId = Some id -> abort_in past id = Some n -> r_seq r <= n).
Proof.
  intros Hs. unfold after_abort. destruct runId as [id|]; [|by split]. rewrite (sum_aborted _ _ Hs).
  destruct (abort_in past id) as [n|] eqn:Ha.
  - rewrite Z.gtb_ltb, Z.ltb_ge. split; [|by eauto]. intros ??? [= <-]. rewrite Ha. by intros [= <-].
  - split; [|done]. intros _ ?? [= <-]. by rewrite Ha.
Qed.

(** One round of the loop accepts exactly the records the protocol allows next. *)
Lemma validateRecord_ok es past s r s' : summary past s ->
  validateRecord es s r = Ok s' <-> record_valid es past r /\ s' = advance r s.
Proof.
  intros Hs. unfold record_valid, body_valid, validateRecord. pose proof (validateOwner_ok past s r Hs) as Hown.
  unfold advance, is_operation_started, record_type, invocation.
  assert (forall sl i, r_body r = ROperationStarted sl i -> owner_valid past r) as Hstart
    by (unfold owner_valid, record_runId; intros ?? ->; done).
  destruct (r_body r) as [sl intent|id|id oc er|id st at' eid rs|id aid ti tcid tn ar rid sf|q id tg|id eid|id tg|u c];
    cbn [bool_decide_true]; rewrite ?bind_unit_Ok, ?Hown.
  - rewrite validateOperationResult_ok. destruct s; naive_solver.
  - destruct s; naive_solver.
  - destruct s; naive_solver.
  - rewrite (sum_attempt _ _ Hs), validateAttemptReason_ok, validateAttemptSequence_ok, validateAttemptResult_ok.
    destruct s; naive_solver.
  - rewrite bind_Ok. setoid_rewrite validateToolStart_ok. setoid_rewrite (sum_tools _ _ Hs). destruct s; naive_solver.
  - rewrite throw_if_unit, validateExact_ok, andb_false_iff, bool_decide_eq_false, (after_abort_ok _ _ _ _ Hs).
    destruct (decide (q = QnextRun)); destruct s; naive_solver.
  - rewrite (sum_queue _ _ Hs). destruct (enqueue_in past eid) as [q|]; cbn [or_throw mbind result_bind];
      [|split; [by intros [_ [=]]|by intros [[_ (? & [=] & _)] _]]].
    rewrite bind_unit_Ok, throw_if_unit, !orb_false_iff, bool_decide_eq_false, Z.geb_leb, Z.leb_gt. unfold JsMap.has.
    destruct (JsMap.get eid es); [by split; [intros [_ [[_ [=]] _]]|intros [[_ (? & _ & _ & _ & [=])] _]]|].
    destruct s; split.
    + intros (? & [[? Hq%dec_stable] _] & [= <-]). eauto 10.
    + intros [[? (? & [= <-] & ? & ? & _)] ->]. tauto.
  - rewrite validateExact_ok. destruct s; naive_solver.
  - destruct s; naive_solver.
Qed.

(** ** The whole log *)

Lemma validateDeferredHandles_ok l : validateDeferredHandles l = Ok () <-> Forall handle_valid l.
Proof.
  unfold validateDeferredHandles. rewrite mfold_unit. apply Forall_iff. intros e. unfold handle_valid.
  destruct (entry_assistant e) as [m|]; [|by split]. rewrite throw_if_unit, andb_false_iff, bool_decide_eq_false.
  split.
  - intros [?|Hd] m' [= <-] ?; [done|]. by destruct (am_deferred m).
  - intros Hm. destruct (decide (am_stopReason m = SRdeferred)) as [Heq|]; [right|by left].
    specialize (Hm m eq_refl Heq). by destruct (am_deferred m).
Qed.

Definition log_valid (slice : RecordLogSlice) : Prop :=
  let es := index_entries (sl_entries slice) in
  let log := bySequence_records (sl_records slice) in
  (length (sl_openOperations slice) <= 1)%nat /\ Forall handle_valid (JsMap.values es) /\
  forall i r, log !! i = Some r -> record_valid es (take i log) r.

Lemma validateRecordLog_ok slice : validateRecordLog slice = Ok () <-> log_valid slice.
Proof.
  unfold validateRecordLog, log_valid. rewrite !bind_unit_Ok, throw_if_unit, validateDeferredHandles_ok, Z.ltb_ge.
  pose proof (mfold_valid summary (record_valid (index_entries (sl_entries slice)))
    (validateRecord (index_entries (sl_entries slice)))) as Hfold.
  ospecialize (Hfold _ (bySequence_records (sl_records slice)) [] initial_log_state summary_nil).
  { intros past s r Hs. destruct (validateRecord _ s r) as [s'|e] eqn:Hr.
    - apply (validateRecord_ok _ past) in Hr as [Hv ->]; [|done]. split; [done|]. by apply summary_advance.
    - intros Hv. assert (validateRecord (index_entries (sl_entries slice)) s r = Ok (advance r s)) by
        (by apply (validateRecord_ok _ past)). congruence. }
  cbn [app] in Hfold. rewrite <-Hfold, bind_Ok. split.
  - intros (? & ? & s' & ? & _). split; [lia|]. eauto.
  - intros (? & ? & s' & ?). split; [lia|]. eauto.
Qed.

(** ** Sorting *)
Section sort_lemmas.
Context {A : Type} (key : A -> Z).
Let le (a b : A) : Prop := key a <= key b.

Lemma insert_by_perm a l : insert_by key a l ≡ₚ a :: l.
Proof.
  induction l as [|b l IH]; cbn; [done|]. destruct (key a <=? key b); [done|]. rewrite IH. apply perm_swap.
Qed.

Lemma sort_by_perm l : sort_by key l ≡ₚ l.
Proof. induction l as [|a l IH]; cbn; [done|]. by rewrite insert_by_perm, IH. Qed.

Lemma sort_by_sorted l : StronglySorted le (sort_by key l).
Proof.
  induction l as [|a l IH]; cbn [sort_by fold_right]; [constructor|]. fold (sort_by key l).
  induction IH as [|b l' Hs IHs Hb]; cbn [insert_by]; [by repeat constructor|].
  destruct (Z.leb_spec (key a) (key b)) as [Hab|Hab].
  - constructor; [by constructor|]. constructor; [done|]. eapply Forall_impl; [exact Hb|]. unfold le. lia.
  - constructor; [done|]. rewrite insert_by_perm. constructor; [unfold le; lia|done].
Qed.

Lemma sort_by_sorted_lookup l i j a b : StronglySorted le l -> (i < j)%nat -> l !! i = Some a -> l !! j = Some b -> key a <= key b.
Proof.
  intros Hs. revert i j. induction Hs as [|c l Hs IH Hc]; intros [|i] [|j] Hij Ha Hb; cbn in *; try lia; simplify_eq.
  - rewrite Forall_lookup in Hc. by apply (Hc j).
  - eapply (IH i j); [lia|done..].
Qed.

(** Elements with distinct keys are in the order of their keys. *)
Lemma sort_by_lookup_lt l i j a b : NoDup (map key l) -> (i < j)%nat ->
  sort_by key l !! i = Some a -> sort_by key l !! j = Some b -> key a < key b.
Proof.
  intros Hnd Hij Ha Hb. pose proof (sort_by_sorted_lookup _ i j a b (sort_by_sorted l) Hij Ha Hb).
  enough (key a <> key b) by lia. intros Heq.
  rewrite <-sort_by_perm in Hnd. enough (i = j) by lia. eapply (NoDup_lookup _ _ _ (key a) Hnd).
  - change (map key) with (fmap (M := list) key). by rewrite list_lookup_fmap, Ha.
  - change (map key) with (fmap (M := list) key). by rewrite list_lookup_fmap, Hb, Heq.
Qed.

(** The order of the input does not matter when keys are distinct. *)
Lemma sort_by_permutation l1 l2 : NoDup (map key l1) -> l1 ≡ₚ l2 -> sort_by key l1 = sort_by key l2.
Proof.
  intros Hnd Hp. apply (StronglySorted_unique_strong le); try apply sort_by_sorted; [|by rewrite !sort_by_perm].
  intros a b Ha Hb ??. rewrite sort_by_perm in Ha, Hb. rewrite <-Hp in Hb.
  apply list_elem_of_lookup in Ha as [i Hi], Hb as [j Hj]. assert (key a = key b) by (unfold le in *; lia).
  enough (i = j) by (subst; congruence). eapply (NoDup_lookup _ _ _ (key a) Hnd);
    change (map key) with (fmap (M := list) key); rewrite list_lookup_fmap; [by rewrite Hi|rewrite Hj; cbn; congruence].
Qed.
End sort_lemmas.

(** ** Consequences for a lane's log *)

Section log.
Context (slice : RecordLogSlice) (Hvalid : log_valid slice) (Hseq : NoDup (map r_seq (sl_records slice))).
Let log := bySequence_records (sl_records slice).
Let es := index_entries (sl_entries slice).

(** The position of a record and what the protocol says of it. *)
Lemma log_at r : r ∈ sl_records slice -> exists i, log !! i = Some r /\ record_valid es (take i log) r.
Proof.
  intros Hr. rewrite <-(sort_by_perm r_seq) in Hr. apply list_elem_of_lookup in Hr as [i Hi].
  exists i. split; [done|]. by apply Hvalid.
Qed.

Lemma past_before i r q : log !! i = Some r -> q ∈ take i log -> q ∈ sl_records slice /\ r_seq q < r_seq r.
Proof.
  intros Hi (j & Hj)%list_elem_of_lookup. apply lookup_take_Some in Hj as [Hj Hlt]. split.
  - rewrite <-(sort_by_perm r_seq). apply list_elem_of_lookup. eauto.
  - by eapply (sort_by_lookup_lt r_seq (sl_records slice) j i).
Qed.

Lemma before_past i r q : log !! i = Some r -> q ∈ sl_records slice -> r_seq q < r_seq r -> q ∈ take i log.
Proof.
  intros Hi Hq Hlt. rewrite <-(sort_by_perm r_seq) in Hq. apply list_elem_of_lookup in Hq as [j Hj].
  apply list_elem_of_lookup. exists j. apply lookup_take_Some. split; [done|].
  destruct (decide (j < i)%nat); [done|]. destruct (decide (j = i)) as [->|];
    [unfold log, bySequence_records in Hi; assert (q = r) by congruence; subst; lia|].
  pose proof (sort_by_lookup_lt r_seq (sl_records slice) i j r q Hseq ltac:(lia) Hi Hj). lia.
Qed.

Lemma same_seq q r : q ∈ sl_records slice -> r ∈ sl_records slice -> r_seq q = r_seq r -> q = r.
Proof.
  intros [i Hi]%list_elem_of_lookup [j Hj]%list_elem_of_lookup Heq. enough (i = j) by congruence.
  eapply (NoDup_lookup _ _ _ (r_seq r) Hseq); change (map r_seq) with (fmap (M := list) r_seq);
    rewrite list_lookup_fmap; [by rewrite Hi, <-Heq|by rewrite Hj].
Qed.

(** The last match of a search of the past is in the past, and there is one when a record matches. *)
Lemma last_match {B} (f : LaneRecord -> option B) past r b : r ∈ past -> f r = Some b ->
  exists c q, last (omap f past) = Some c /\ q ∈ past /\ f q = Some c.
Proof.
  intros Hr Hf. destruct (last (omap f past)) as [c|] eqn:Hl.
  - apply last_Some_elem_of, list_elem_of_omap in Hl as (q & ? & ?). eauto.
  - apply last_None in Hl. assert (b ∈ omap f past) as Hb by (apply list_elem_of_omap; eauto).
    rewrite Hl in Hb. by apply elem_of_nil in Hb.
Qed.

Lemma owner_started r id : r ∈ sl_records slice -> record_runId r = Some id ->
  exists st, st ∈ sl_records slice /\ is_operation_started st = true /\ r_id st = id /\ r_seq st < r_seq r.
Proof.
  intros Hr Hid. destruct (log_at r Hr) as (i & Hi & [Hown _]). destruct (Hown id Hid) as [(st & Hst & ? & ?) _].
  destruct (past_before i r st Hi Hst). eauto.
Qed.

Lemma finish_last r f id oc er : r ∈ sl_records slice -> f ∈ sl_records slice ->
  r_body f = ROperationFinished id oc er -> record_runId r = Some id -> r_seq r <= r_seq f.
Proof.
  intros Hr Hf Hbf Hid. destruct (log_at r Hr) as (i & Hi & [Hown _]). destruct (Hown id Hid) as [_ Hfin].
  destruct (Z.le_gt_cases (r_seq r) (r_seq f)) as [|Hlt]; [done|].
  pose proof (before_past i r f Hi Hf Hlt) as Hpast.
  edestruct (last_match (fun r => match r_body r with
    | ROperationFinished runId _ _ => if decide (runId = id) then Some (r_seq r) else None | _ => None end)
    (take i log) f) as (n & q & Hn & Hq & Hfq); [done|rewrite Hbf; by case_decide|].
  specialize (Hfin n Hn). destruct (past_before i r q Hi Hq) as [_ ?].
  destruct (r_body q); try discriminate Hfq. case_decide; simplify_eq. lia.
Qed.

Lemma abort_last r a id q t : r ∈ sl_records slice -> a ∈ sl_records slice ->
  r_body a = RAbortRequested id -> r_body r = RQueueEnqueued q (Some id) t -> q <> QnextRun -> r_seq r < r_seq a.
Proof.
  intros Hr Ha Hba Hbr Hq. destruct (log_at r Hr) as (i & Hi & [_ Hbody]). unfold body_valid in Hbody.
  rewrite Hbr in Hbody. destruct Hbody as [Habort _]. specialize (Habort Hq id).
  destruct (Z.lt_ge_cases (r_seq r) (r_seq a)) as [|Hge]; [done|].
  destruct (decide (r_seq a = r_seq r)) as [Heq|Hne].
  { assert (a = r) by (by eapply same_seq). subst. congruence. }
  pose proof (before_past i r a Hi Ha ltac:(lia)) as Hpast.
  edestruct (last_match (fun r => match r_body r with
    | RAbortRequested runId => if decide (runId = id) then Some (r_seq r) else None | _ => None end)
    (take i log) a) as (n & p & Hn & Hp & Hfp); [done|rewrite Hba; by case_decide|].
  specialize (Habort n eq_refl Hn). destruct (past_before i r p Hi Hp) as [_ ?].
  destruct (r_body p); try discriminate Hfp. case_decide; simplify_eq. lia.
Qed.

Lemma invocation_once r q k : r ∈ sl_records slice -> q ∈ sl_records slice -> invocation r = Some k ->
  invocation q = Some k -> r_seq r <= r_seq q.
Proof.
  intros Hr Hq Hir Hiq. destruct (Z.le_gt_cases (r_seq r) (r_seq q)) as [|Hlt]; [done|].
  destruct (log_at r Hr) as (i & Hi & [_ Hbody]). pose proof (before_past i r q Hi Hq Hlt) as Hpast.
  unfold body_valid in Hbody. unfold invocation in Hir. destruct (r_body r); simplify_eq. destruct Hbody as [Hnew _].
  destruct Hnew. apply list_elem_of_omap. eauto.
Qed.
End log.

(** C9: [validateRecordLog] is exact: it returns just when there is at most one
    open operation, every deferred answer carries its handle, and every record
    in sequence order is one the protocol allows after the records before it
    (started and not finished owner, consecutive attempts with one result,
    steering only before an abort, a tool call started once and matching its
    ordinal, a cancellation of a pending item of the same run, and every promised
    entry that exists equal to its promise). *)
Theorem log_validation_exact (slice : RecordLogSlice) : validateRecordLog slice = Ok () <-> log_valid slice.
Proof. apply validateRecordLog_ok. Qed.

(** In a log that passes [validateRecordLog], with a sequence number per
    record: an owned record follows the start of its operation; the finish of
    an operation is its last record; an abort is after all the steering and
    follow-up input of its operation; and a tool call is started at most once. *)
Theorem lane_protocol (slice : RecordLogSlice) :
  validateRecordLog slice = Ok () -> NoDup (map r_seq (sl_records slice)) ->
  let log := sl_records slice in
  (forall r id, r ∈ log -> record_runId r = Some id ->
     exists st, st ∈ log /\ is_operation_started st = true /\ r_id st = id /\ r_seq st < r_seq r) /\
  (forall r f id outcome error, r ∈ log -> f ∈ log -> r_body f = ROperationFinished id outcome error ->
     record_runId r = Some id -> r_seq r <= r_seq f) /\
  (forall r a id queue target, r ∈ log -> a ∈ log -> r_body a = RAbortRequested id ->
     r_body r = RQueueEnqueued queue (Some id) target -> queue <> QnextRun -> r_seq r < r_seq a) /\
  (forall r q call, r ∈ log -> q ∈ log -> invocation r = Some call -> invocation q = Some call -> r_seq r = r_seq q).
Proof.
  intros Hv%validateRecordLog_ok Hseq. split; [|split; [|split]].
  - by apply owner_started.
  - intros r f id oc er. by apply finish_last.
  - intros r a id q t. by apply abort_last.
  - intros r q k Hr Hq Hir Hiq. apply Z.le_antisymm; by eapply (invocation_once slice).
Qed.

(** A run: steering input, an attempt that answers with a tool call, the start
    of the tool, and an abort.  Records come in no particular order. *)
Module SampleRun.
Definition usage : Usage :=
  mkUsage (JInt 0) (JInt 0) (JInt 0) (JInt 0) None None (JInt 0) (mkCost (JInt 0) (JInt 0) (JInt 0) (JInt 0) (JInt 0)).
Definition user (text : string) : EntryBody := BMessage (MUser (mkUserMessage (PlainContent text) (JInt 0))) false.
Definition call : ToolCall := mkToolCall "c1" "bash" [] None None.
Definition answer : AssistantMessage :=
  mkAssistantMessage [ToolCallC call] "api" "prov" "model" None None None usage SRtoolUse None None None None (JInt 0).
Definition answer_entry : Entry := mkEntry "a1" 4 None 0 (BMessage (MAssistant answer) false).
Definition rec (id : string) (seq : Z) (b : RecordBody) : LaneRecord := mkLaneRecord id seq "main" 0 b.
Definition started : LaneRecord :=
  rec "run1" 1 (ROperationStarted None (IRun [] [mkProvisioned "i1" (user "hi")] None None)).
Definition steer : LaneRecord := rec "q1" 2 (RQueueEnqueued Qsteer (Some "run1") (mkProvisioned "s1" (user "wait"))).
Definition next : LaneRecord := rec "q2" 7 (RQueueEnqueued QnextRun None (mkProvisioned "n1" (user "later"))).
Definition attempt : LaneRecord := rec "r3" 3 (RStepAttempt "run1" Sassistant 1 "a1" None).
Definition tool : LaneRecord := rec "r5" 5 (RToolStarted "run1" "a1" 0 "c1" "bash" [] "t1" true).
Definition aborted : LaneRecord := rec "r6" 6 (RAbortRequested "run1").
Definition finished : LaneRecord := rec "r8" 8 (ROperationFinished "run1" Oaborted None).
Definition open_slice : RecordLogSlice := mkSlice "main" [started] [steer; started; attempt; tool; next] [answer_entry].
Definition aborted_slice : RecordLogSlice :=
  mkSlice "main" [] [finished; started; steer; attempt; tool; aborted] [answer_entry].
End SampleRun.

Lemma lane_protocol_witness :
  validateRecordLog SampleRun.aborted_slice = Ok () /\
  exists st, st ∈ sl_records SampleRun.aborted_slice /\ is_operation_started st = true /\ r_id st = "run1" /\ r_seq st < 6.
Proof.
  split; [vm_compute; reflexivity|].
  destruct (lane_protocol SampleRun.aborted_slice) as [H _].
  - vm_compute; reflexivity.
  - by_decide.
  - apply (H SampleRun.aborted "run1"); [|reflexivity]. apply list_elem_of_In. cbn. tauto.
Defined.
