(* ===== verification/LaneReduction.v ===== *)
(** Lane reduction: [reduceLaneState] of [packages/agent/src/harness/reducer.ts],
    which rebuilds what a lane was doing from a validated slice of its log. *)
From S2P Require Import Prelude JsNumber JsTree Messages SessionTypes Reducer ReducerValid.
Local Open Scope Z_scope.

Record EffectiveLaneConfiguration := mkConfiguration {
  cf_provider : string;
  cf_modelId : string;
  cf_thinkingLevel : string;
  cf_activeToolNames : list string;
}.

Inductive FailureSource : Type := Fstep | Fdeferred_fetch.

Record TerminalFailureState := mkTerminalFailure {
  tf_entryId : string;
  tf_source : FailureSource;
  tf_message : AssistantMessage;
}.

Record BatchCall := mkBatchCall {
  bc_toolIndex : Z;
  bc_toolCall : ToolCall;
  bc_started : option LaneRecord;
  bc_resultExists : bool;
  bc_terminate : bool;  (* [terminate: true], absent otherwise *)
}.

Record ToolBatchState := mkToolBatch {
  tb_assistantEntryId : string;
  tb_calls : list BatchCall;
  tb_truncated : bool;
  tb_unresolved : bool;
}.

Record StepState := mkStepState {
  ss_kind : StepKind;
  ss_attempts : Z;
  ss_resultEntryId : string;
  ss_compactionReason : option string;
}.

Record NewestOwn := mkNewestOwn {
  no_entryId : string;
  no_type : EntryType;
  no_role : option string;
  no_stopReason : option StopReason;
}.

Record OperationState := mkOperationState {
  op_id : string;
  op_kind : OperationKind;
  op_intent : Intent;
  op_aborting : bool;
  op_step : option StepState;
  op_toolBatch : option ToolBatchState;
  op_missingInitialMessages : list ProvisionedEntry;
  op_pendingSteer : list ProvisionedEntry;
  op_pendingFollowUp : list ProvisionedEntry;
  op_pendingWrites : list ProvisionedEntry;
  op_deferred : option DeferredHandle;
  op_overflowRecoveryUsed : bool;
  op_newestOwn : option NewestOwn;
  op_targets_result : option bool;
  op_targets_summary : option bool;
}.

Record LaneState := mkLaneState {
  ls_lane : string;
  ls_leafId : option string;
  ls_operation : option OperationState;
  ls_pendingNextRun : list ProvisionedEntry;
}.

Record LaneReductionInput := mkReductionInput {
  in_slice : RecordLogSlice;
  in_leafId : option string;
  in_ownEntries : list Entry;
  in_configurationEntries : list Entry;
  in_defaults : EffectiveLaneConfiguration;
}.

Record LaneReductionResult := mkReductionResult {
  lr_laneState : LaneState;
  lr_effectiveConfiguration : EffectiveLaneConfiguration;
  lr_terminalFailure : option TerminalFailureState;
}.

(** One round of the loop over the entries that set the configuration. *)
Definition configure (c : EffectiveLaneConfiguration) (entry : Entry) : EffectiveLaneConfiguration :=
  match e_body entry with
  | BModelChange provider modelId => mkConfiguration provider modelId (cf_thinkingLevel c) (cf_activeToolNames c)
  | BThinkingLevel level => mkConfiguration (cf_provider c) (cf_modelId c) level (cf_activeToolNames c)
  | BActiveTools names => mkConfiguration (cf_provider c) (cf_modelId c) (cf_thinkingLevel c) names
  | BMessage (MAssistant m) _ =>
      mkConfiguration (am_provider m) (am_model m) (cf_thinkingLevel c) (cf_activeToolNames c)
  | _ => c
  end.

Definition deriveEffectiveConfiguration (input : LaneReductionInput) : EffectiveLaneConfiguration :=
  let entriesById := index_entries (in_configurationEntries input ++ in_ownEntries input) in
  foldl configure (in_defaults input) (bySequence_entries (JsMap.values entriesById)).

Definition deriveNewestOwn (entry : option Entry) : option NewestOwn :=
  entry ← entry;
  Some match entry_message entry with
       | None => mkNewestOwn (e_id entry) (entry_type entry) None None
       | Some (MAssistant m) =>
           mkNewestOwn (e_id entry) (entry_type entry) (Some (role (MAssistant m))) (Some (am_stopReason m))
       | Some m => mkNewestOwn (e_id entry) (entry_type entry) (Some (role m)) None
       end.

(** ** Tool batches *)

Definition has_toolCalls (m : AssistantMessage) : bool :=
  match toolCalls (am_content m) with [] => false | _ => true end.

(** [records] whose tool belongs to the batch, keyed by ordinal: a later start replaces an earlier one. *)
Definition batch_starts (operationId assistantEntryId : string) (records : list LaneRecord)
    : gmap Z (LaneRecord * string) :=
  foldl (fun starts record =>
    match r_body record with
    | RToolStarted runId entryId toolIndex _ _ _ resultEntryId _ =>
        if bool_decide (runId = operationId) && bool_decide (entryId = assistantEntryId)
        then <[toolIndex := (record, resultEntryId)]> starts else starts
    | _ => starts
    end) ∅ records.

Definition is_result_of (toolCallId : string) (e : Entry) : bool :=
  match entry_message e with Some (MToolResult m) => bool_decide (tr_toolCallId m = toolCallId) | _ => false end.

Definition entry_terminates (e : Entry) : bool :=
  match e_body e with BMessage _ terminate => terminate | _ => false end.

Definition batch_call (starts : gmap Z (LaneRecord * string)) (assistantEntry : Entry) (ownEntries : list Entry)
    (entriesById : EntryIndex) (deferredWriteIds : gset string) (toolIndex : Z) (toolCall : ToolCall) : BatchCall :=
  let started := starts !! toolIndex in
  let startedResult := started ≫= fun s => JsMap.get s.2 entriesById in
  let blockedResult := List.find (fun e => (e_seq e >? e_seq assistantEntry) &&
    bool_decide (e_id e ∉ deferredWriteIds) && is_result_of (tc_id toolCall) e) ownEntries in
  let result := match startedResult with Some r => Some r | None => blockedResult end in
  mkBatchCall toolIndex toolCall (fst <$> started) (match result with Some _ => true | None => false end)
    (match result with Some r => entry_terminates r | None => false end).

Definition assistant_calling (e : Entry) : option AssistantMessage :=
  m ← entry_assistant e; if has_toolCalls m then Some m else None.

Definition deriveToolBatch (operationId : string) (records : list LaneRecord) (ownEntries : list Entry)
    (entriesById : EntryIndex) (deferredWriteIds : gset string) : option ToolBatchState :=
  assistantEntry ← List.find (fun e => match assistant_calling e with Some _ => true | None => false end) (rev ownEntries);
  m ← entry_assistant assistantEntry;
  let starts := batch_starts operationId (e_id assistantEntry) records in
  let calls := imap (fun toolIndex toolCall =>
    batch_call starts assistantEntry ownEntries entriesById deferredWriteIds (Z.of_nat toolIndex) toolCall)
    (toolCalls (am_content m)) in
  Some (mkToolBatch (e_id assistantEntry) calls (bool_decide (am_stopReason m = SRlength))
    (existsb (fun call => negb (bc_resultExists call)) calls)).

(** ** The reduction *)

Definition cancelledQueueIds (records : list LaneRecord) : gset string :=
  list_to_set (omap (fun r => match r_body r with RQueueCancelled _ entryId => Some entryId | _ => None end) records).

(** The target of an enqueue record that is neither appended nor cancelled, with its queue. *)
Definition pending_queue_item (entriesById : EntryIndex) (cancelled : gset string) (r : LaneRecord)
    : option (Queue * option string * ProvisionedEntry) :=
  match r_body r with
  | RQueueEnqueued queue runId target =>
      if negb (JsMap.has (p_id target) entriesById) && bool_decide (p_id target ∉ cancelled)
      then Some (queue, runId, target) else None
  | _ => None
  end.

(** [pendingQueueRecords.filter((record) => record.queue === queue && record.runId === id).map((record) => record.target)]. *)
Definition pending_of (queue : Queue) (id : string) (pending : list (Queue * option string * ProvisionedEntry))
    : list ProvisionedEntry :=
  omap (fun '(q, runId, target) =>
    if bool_decide (q = queue) && bool_decide (runId = Some id) then Some target else None) pending.

Definition pending_nextRun (captured : gset string) (pending : list (Queue * option string * ProvisionedEntry))
    : list ProvisionedEntry :=
  omap (fun '(q, _, target) =>
    if bool_decide (q = QnextRun) && bool_decide (p_id target ∉ captured) then Some target else None) pending.

Definition initialMessages (intent : Intent) : list ProvisionedEntry :=
  match intent with IRun _ messages _ _ => messages | _ => [] end.

Definition operation_record (id : string) (r : LaneRecord) : bool :=
  if is_operation_started r then bool_decide (r_id r = id) else bool_decide (record_runId r = Some id).

Definition missing (entriesById : EntryIndex) (targets : list ProvisionedEntry) : list ProvisionedEntry :=
  List.filter (fun target => negb (JsMap.has (p_id target) entriesById)) targets.

Definition deferred_write (r : LaneRecord) : option ProvisionedEntry :=
  match r_body r with RWriteDeferred _ target => Some target | _ => None end.

Definition record_attempt (r : LaneRecord) : option Attempt :=
  match r_body r with
  | RStepAttempt _ step attempt resultEntryId reason => Some (mkAttempt step attempt resultEntryId reason)
  | _ => None
  end.

Definition derive_step (entriesById : EntryIndex) (operationRecords : list LaneRecord) : option StepState :=
  a ← last (omap record_attempt operationRecords);
  if JsMap.has (at_resultEntryId a) entriesById then None
  else Some (mkStepState (at_step a) (at_attempt a) (at_resultEntryId a)
               (match at_step a with Scompaction => at_compactionReason a | _ => None end)).

Definition consumedInputIds (intent : Intent) (operationRecords : list LaneRecord) : list string :=
  map p_id (initialMessages intent) ++
  omap (fun r => match r_body r with
                 | RQueueEnqueued queue _ target => if bool_decide (queue <> QnextRun) then Some (p_id target) else None
                 | _ => None
                 end) operationRecords.

(** [newestConsumedInputSequence]; [None] is minus infinity. *)
Definition newest_consumed (entriesById : EntryIndex) (ids : list string) : option Z :=
  foldl (fun newest id =>
    match JsMap.get id entriesById with
    | Some entry =>
        if bool_decide (entry_type entry = Tmessage)
        then Some (match newest with Some n => Z.max n (e_seq entry) | None => e_seq entry end) else newest
    | None => newest
    end) None ids.

Definition overflow_recovery_used (operationRecords : list LaneRecord) (newest : option Z) : bool :=
  existsb (fun r =>
    match record_attempt r with
    | Some a =>
        bool_decide (at_step a = Scompaction) && bool_decide (at_compactionReason a = Some "overflow") &&
        match newest with Some n => r_seq r >? n | None => true end
    | None => false
    end) operationRecords.

(** [ownEntries.at(-2)]. *)
Definition previous_own (ownEntries : list Entry) : option Entry := rev ownEntries !! 1%nat.

Definition assistant_stopped (reason : StopReason) (e : option Entry) : option AssistantMessage :=
  e ← e; m ← entry_assistant e; if bool_decide (am_stopReason m = reason) then Some m else None.

Definition produced_by_step (operationRecords : list LaneRecord) (id : string) : bool :=
  existsb (fun r => match record_attempt r with Some a => bool_decide (at_resultEntryId a = id) | None => false end)
    operationRecords.

Definition produced_by_fetch (operationRecords : list LaneRecord) (previous : option Entry) (id : string) : bool :=
  existsb (fun r => match r_body r with
    | RUsage _ (UCGeneration cause _ entryId _ _) => bool_decide (cause = Gdeferred_fetch) && bool_decide (entryId = id)
    | _ => false
    end) operationRecords ||
  match assistant_stopped SRdeferred previous with Some _ => true | None => false end.

Definition derive_terminalFailure (operationRecords : list LaneRecord) (ownEntries : list Entry)
    (deferredWriteIds : gset string) : option TerminalFailureState :=
  newest ← last ownEntries;
  m ← assistant_stopped SRerror (Some newest);
  if bool_decide (e_id newest ∈ deferredWriteIds) then None
  else
    let step := produced_by_step operationRecords (e_id newest) in
    if step || produced_by_fetch operationRecords (previous_own ownEntries) (e_id newest)
    then Some (mkTerminalFailure (e_id newest) (if step then Fstep else Fdeferred_fetch) m)
    else None.

Definition reduce_operation (entriesById : EntryIndex) (records : list LaneRecord) (ownEntries : list Entry)
    (pending : list (Queue * option string * ProvisionedEntry)) (id : string) (intent : Intent)
    : OperationState * option TerminalFailureState :=
  let operationRecords := List.filter (operation_record id) records in
  let aborting := existsb (fun r => bool_decide (record_type r = Tabort_requested)) operationRecords in
  let writes := omap deferred_write operationRecords in
  let deferredWriteIds := list_to_set (map p_id writes) in
  (mkOperationState id (intent_kind intent) intent aborting
     (derive_step entriesById operationRecords)
     (deriveToolBatch id operationRecords ownEntries entriesById deferredWriteIds)
     (missing entriesById (initialMessages intent))
     (if aborting then [] else pending_of Qsteer id pending)
     (if aborting then [] else pending_of QfollowUp id pending)
     (missing entriesById writes)
     (m ← assistant_stopped SRdeferred (last ownEntries); am_deferred m)
     (overflow_recovery_used operationRecords
        (newest_consumed entriesById (consumedInputIds intent operationRecords)))
     (deriveNewestOwn (last ownEntries))
     (match intent with ICompaction _ resultEntryId => Some (JsMap.has resultEntryId entriesById) | _ => None end)
     (match intent with
      | INavigation _ _ _ _ summaryEntryId => (fun i => JsMap.has i entriesById) <$> truthy_str summaryEntryId
      | _ => None
      end),
   derive_terminalFailure operationRecords ownEntries deferredWriteIds).

(** The open operation of the lane: an [operation_started] record and its intent. *)
Definition open_operation (input : LaneReductionInput) : option (string * Intent) :=
  started ← head (sl_openOperations (in_slice input));
  match r_body started with ROperationStarted _ intent => Some (r_id started, intent) | _ => None end.

Definition reduceLaneState (input : LaneReductionInput) : checked_log LaneReductionResult :=
  let slice := in_slice input in
  validateRecordLog slice;;
  let records := bySequence_records (sl_records slice) in
  let ownEntries := bySequence_entries (in_ownEntries input) in
  let entriesById := index_entries (sl_entries slice ++ ownEntries) in
  let pending := omap (pending_queue_item entriesById (cancelledQueueIds records)) records in
  let captured := match open_operation input with
                  | Some (_, intent) => list_to_set (map p_id (initialMessages intent))
                  | None => ∅
                  end in
  let nextRun := pending_nextRun captured pending in
  let configuration := deriveEffectiveConfiguration input in
  match open_operation input with
  | None => Ok (mkReductionResult (mkLaneState (sl_lane slice) (in_leafId input) None nextRun) configuration None)
  | Some (id, intent) =>
      let '(operation, failure) := reduce_operation entriesById records ownEntries pending id intent in
      Ok (mkReductionResult (mkLaneState (sl_lane slice) (in_leafId input) (Some operation) nextRun) configuration failure)
  end.

(** ** Lookup in the indexes *)

Lemma index_has l id : JsMap.has id (index_entries l) = true <-> exists e, e ∈ l /\ e_id e = id.
Proof.
  unfold index_entries, JsMap.has. induction l as [|e l IH] using rev_ind.
  - cbn. split; [done|]. by intros (e & ?%elem_of_nil & _).
  - rewrite foldl_snoc, JsMap.get_set. setoid_rewrite elem_of_app. setoid_rewrite list_elem_of_singleton.
    case_decide as Heq; [naive_solver|]. rewrite IH. split; [naive_solver|]. intros (q & [?| ->] & ?); [eauto|congruence].
Qed.

(** The index of entries with distinct ids is the list itself. *)
Lemma index_values l : NoDup (map e_id l) -> JsMap.values (index_entries l) = l /\ JsMap.keys (index_entries l) = map e_id l.
Proof.
  unfold index_entries. induction l as [|e l IH] using rev_ind; [done|]. rewrite map_app. cbn [map].
  rewrite (NoDup_app (map e_id l)). intros (Hnd & Hfresh & _). destruct (IH Hnd) as [IHv IHk]. rewrite foldl_snoc.
  rewrite JsMap.set_new.
  - unfold JsMap.values, JsMap.keys in *. rewrite !fmap_app, IHv, IHk. done.
  - apply JsMap.get_None. rewrite IHk. intros Hin. apply (Hfresh _ Hin). left.
Qed.

Lemma get_index_values l : NoDup (map e_id l) -> forall e id, JsMap.get id (index_entries l) = Some e <-> e ∈ l /\ e_id e = id.
Proof.
  intros Hnd. assert (forall l, Forall (fun p => p.1 = e_id p.2) (index_entries l)) as Hkeys.
  { intros l'. unfold index_entries. induction l' as [|e l' IH] using rev_ind; [constructor|]. rewrite foldl_snoc.
    revert IH. generalize (foldl (λ m e0, JsMap.set (e_id e0) e0 m) [] l'). intros m. induction 1 as [|[k v] m Hk Hm IHm];
      cbn; [by repeat constructor|]. case_decide; constructor; subst; done. }
  specialize (Hkeys l). destruct (index_values l Hnd) as [Hv Hk]. intros e id. split.
  - intros Hg%JsMap.get_Some_elem. rewrite Forall_forall in Hkeys. specialize (Hkeys _ Hg). cbn in Hkeys. split; [|done].
    rewrite <-Hv. unfold JsMap.values. apply list_elem_of_fmap. by exists (id, e).
  - intros [He <-]. apply JsMap.elem_get; [by rewrite Hk|]. rewrite <-Hv in He. unfold JsMap.values in He.
    apply list_elem_of_fmap in He as ([k v] & -> & Hin). rewrite Forall_forall in Hkeys. specialize (Hkeys _ Hin).
    cbn in Hkeys. by subst.
Qed.

(** ** The order of the input *)

(** The same slice with its records and the operation's entries listed in another order. *)
Definition reordered (input : LaneReductionInput) (records : list LaneRecord) (own : list Entry) : LaneReductionInput :=
  let s := in_slice input in
  mkReductionInput (mkSlice (sl_lane s) (sl_openOperations s) records (sl_entries s)) (in_leafId input) own
    (in_configurationEntries input) (in_defaults input).

Lemma configuration_reordered input records own :
  let entries := in_configurationEntries input ++ in_ownEntries input in
  own ≡ₚ in_ownEntries input -> NoDup (map e_id entries) -> NoDup (map e_seq entries) ->
  deriveEffectiveConfiguration (reordered input records own) = deriveEffectiveConfiguration input.
Proof.
  intros entries Hp Hid Hseq. unfold deriveEffectiveConfiguration, bySequence_entries. cbn [reordered in_configurationEntries
    in_ownEntries in_defaults]. f_equal.
  assert (in_configurationEntries input ++ own ≡ₚ entries) as Hp' by (unfold entries; by rewrite Hp).
  assert (NoDup (map e_id (in_configurationEntries input ++ own))) as Hid' by (by rewrite Hp').
  fold entries. rewrite (proj1 (index_values _ Hid')), (proj1 (index_values _ Hid)).
  apply sort_by_permutation; [by rewrite Hp'|done].
Qed.

Lemma validate_reordered s records : records ≡ₚ sl_records s -> NoDup (map r_seq (sl_records s)) ->
  validateRecordLog (mkSlice (sl_lane s) (sl_openOperations s) records (sl_entries s)) = validateRecordLog s.
Proof.
  intros Hp Hnd. unfold validateRecordLog, bySequence_records. cbn [sl_lane sl_openOperations sl_records sl_entries].
  by rewrite (sort_by_permutation r_seq records (sl_records s)) by (done || by rewrite Hp).
Qed.

Lemma reduce_reordered input records own :
  records ≡ₚ sl_records (in_slice input) -> own ≡ₚ in_ownEntries input ->
  NoDup (map r_seq (sl_records (in_slice input))) ->
  NoDup (map e_id (in_configurationEntries input ++ in_ownEntries input)) ->
  NoDup (map e_seq (in_configurationEntries input ++ in_ownEntries input)) ->
  reduceLaneState (reordered input records own) = reduceLaneState input.
Proof.
  intros Hr Ho Hrs Hid Hseq. unfold reduceLaneState, bySequence_records, bySequence_entries.
  rewrite (configuration_reordered input records own) by done. cbn [reordered in_slice in_ownEntries in_leafId].
  rewrite validate_reordered by done. cbn [sl_records sl_lane sl_entries].
  rewrite (sort_by_permutation r_seq records (sl_records (in_slice input))) by (done || by rewrite Hr).
  rewrite map_app in Hseq. apply NoDup_app in Hseq as (_ & _ & Hseq).
  rewrite (sort_by_permutation e_seq own (in_ownEntries input)) by (done || by rewrite Ho). done.
Qed.

(** ** What is pending *)

(** An entry with this id is part of the recovered state. *)
Definition known (input : LaneReductionInput) (id : string) : Prop :=
  exists e, e ∈ sl_entries (in_slice input) ++ in_ownEntries input /\ e_id e = id.

Definition was_cancelled (input : LaneReductionInput) (id : string) : Prop :=
  exists r runId, r ∈ sl_records (in_slice input) /\ r_body r = RQueueCancelled runId id.

(** An item of a queue that was neither appended nor cancelled. *)
Definition waiting (input : LaneReductionInput) (queue : Queue) (runId : option string) (target : ProvisionedEntry) : Prop :=
  exists r, r ∈ sl_records (in_slice input) /\ r_body r = RQueueEnqueued queue runId target /\
    ~ known input (p_id target) /\ ~ was_cancelled input (p_id target).

Section pending.
Context (input : LaneReductionInput).
Let records := bySequence_records (sl_records (in_slice input)).
Let ownEntries := bySequence_entries (in_ownEntries input).
Let es := index_entries (sl_entries (in_slice input) ++ ownEntries).
Let queue_items := omap (pending_queue_item es (cancelledQueueIds records)) records.

Lemma records_elem r : r ∈ records <-> r ∈ sl_records (in_slice input).
Proof. unfold records, bySequence_records. by rewrite sort_by_perm. Qed.

Lemma es_known id : JsMap.has id es = true <-> known input id.
Proof.
  unfold es, known, ownEntries, bySequence_entries. rewrite index_has.
  setoid_rewrite elem_of_app. by setoid_rewrite sort_by_perm.
Qed.

Lemma es_unknown id : JsMap.has id es = false <-> ~ known input id.
Proof. rewrite <-es_known. destruct (JsMap.has id es); naive_solver. Qed.

Lemma cancelled_ids id : id ∈ cancelledQueueIds records <-> was_cancelled input id.
Proof.
  unfold cancelledQueueIds, was_cancelled. rewrite elem_of_list_to_set, list_elem_of_omap.
  setoid_rewrite records_elem. split.
  - intros (r & Hr & Hb). destruct (r_body r) eqn:Hbody; naive_solver.
  - intros (r & runId & Hr & Hb). exists r. by rewrite Hb.
Qed.

Lemma queue_items_elem queue runId target : (queue, runId, target) ∈ queue_items <-> waiting input queue runId target.
Proof.
  unfold queue_items, waiting. rewrite list_elem_of_omap. setoid_rewrite records_elem. split.
  - intros (r & Hr & Hi). exists r. unfold pending_queue_item in Hi. destruct (r_body r) eqn:Hb; try done.
    destruct (negb _ && _) eqn:Hc; [|done]. simplify_eq. apply andb_true_iff in Hc as [Hk%negb_true_iff Hn%bool_decide_eq_true].
    rewrite es_unknown in Hk. rewrite cancelled_ids in Hn. done.
  - intros (r & Hr & Hb & Hk & Hn). exists r. unfold pending_queue_item. rewrite Hb. rewrite <-cancelled_ids in Hn.
    rewrite <-es_unknown in Hk. by rewrite Hk, bool_decide_eq_true_2.
Qed.

Lemma pending_of_elem queue id target : target ∈ pending_of queue id queue_items <-> waiting input queue (Some id) target.
Proof.
  rewrite <-queue_items_elem. unfold pending_of. rewrite list_elem_of_omap. split.
  - intros ([[q r] t] & Hin & Hif). destruct (bool_decide (q = queue) && _) eqn:Hc; [|done]. simplify_eq.
    by apply andb_true_iff in Hc as [->%bool_decide_eq_true ->%bool_decide_eq_true].
  - intros Hin. exists (queue, Some id, target). by rewrite !bool_decide_eq_true_2.
Qed.

Lemma pending_nextRun_elem captured target :
  target ∈ pending_nextRun captured queue_items <-> (exists runId, waiting input QnextRun runId target) /\ p_id target ∉ captured.
Proof.
  setoid_rewrite <-queue_items_elem. unfold pending_nextRun. rewrite list_elem_of_omap. split.
  - intros ([[q r] t] & Hin & Hif). destruct (bool_decide (q = QnextRun) && _) eqn:Hc; [|done]. simplify_eq.
    apply andb_true_iff in Hc as [->%bool_decide_eq_true ?%bool_decide_eq_true]. eauto.
  - intros [[r Hin] Hc]. exists (QnextRun, r, target). by rewrite !bool_decide_eq_true_2.
Qed.

Lemma missing_elem targets target : target ∈ missing es targets <-> target ∈ targets /\ ~ known input (p_id target).
Proof.
  unfold missing. rewrite list_elem_of_In, filter_In, <-list_elem_of_In, negb_true_iff. by rewrite es_unknown.
Qed.

Lemma operation_records_elem id r :
  r ∈ List.filter (operation_record id) records <-> r ∈ sl_records (in_slice input) /\ operation_record id r = true.
Proof. by rewrite list_elem_of_In, filter_In, <-list_elem_of_In, records_elem. Qed.

Lemma aborting_ok id :
  existsb (fun r => bool_decide (record_type r = Tabort_requested)) (List.filter (operation_record id) records) = true <->
  exists r, r ∈ sl_records (in_slice input) /\ r_body r = RAbortRequested id.
Proof.
  rewrite existsb_exists. setoid_rewrite <-list_elem_of_In. setoid_rewrite operation_records_elem. split.
  - intros (r & [Hr Ho] & Ht%bool_decide_eq_true). exists r. split; [done|].
    unfold operation_record, is_operation_started, record_runId in Ho. unfold record_type in *.
    destruct (r_body r); simplify_eq. rewrite bool_decide_eq_false_2 in Ho by done. by apply bool_decide_eq_true in Ho as [= ->].
  - intros (r & Hr & Hb). exists r. unfold operation_record, is_operation_started, record_type, record_runId. rewrite Hb.
    by repeat case_bool_decide.
Qed.

Lemma deferred_elem id target : target ∈ omap deferred_write (List.filter (operation_record id) records) <->
  exists r, r ∈ sl_records (in_slice input) /\ r_body r = RWriteDeferred id target.
Proof.
  rewrite list_elem_of_omap. setoid_rewrite operation_records_elem. split.
  - intros (r & [Hr Ho] & Hd). exists r. split; [done|].
    unfold operation_record, is_operation_started, record_runId, record_type in Ho. unfold deferred_write in Hd.
    destruct (r_body r); simplify_eq. rewrite bool_decide_eq_false_2 in Ho by done. by apply bool_decide_eq_true in Ho as [= ->].
  - intros (r & Hr & Hb). exists r. unfold operation_record, is_operation_started, record_type, record_runId, deferred_write.
    rewrite Hb. by repeat case_bool_decide.
Qed.
End pending.

(** What a reduction returns, by parts. *)
Lemma reduce_inv input res : reduceLaneState input = Ok res ->
  let records := bySequence_records (sl_records (in_slice input)) in
  let ownEntries := bySequence_entries (in_ownEntries input) in
  let es := index_entries (sl_entries (in_slice input) ++ ownEntries) in
  let pending := omap (pending_queue_item es (cancelledQueueIds records)) records in
  validateRecordLog (in_slice input) = Ok () /\
  ls_pendingNextRun (lr_laneState res) = pending_nextRun
    match open_operation input with Some (_, i) => list_to_set (map p_id (initialMessages i)) | None => ∅ end pending /\
  match open_operation input with
  | None => ls_operation (lr_laneState res) = None /\ lr_terminalFailure res = None
  | Some (id, intent) =>
      ls_operation (lr_laneState res) = Some (reduce_operation es records ownEntries pending id intent).1 /\
      lr_terminalFailure res = (reduce_operation es records ownEntries pending id intent).2
  end.
Proof.
  unfold reduceLaneState. rewrite bind_unit_Ok. cbv zeta. intros [Hv Hr]. split; [done|].
  destruct (open_operation input) as [[id intent]|]; [destruct (reduce_operation _ _ _ _ _ _) as [op f]|]; by simplify_eq.
Qed.

Lemma operation_inv input res op : reduceLaneState input = Ok res -> ls_operation (lr_laneState res) = Some op ->
  let records := bySequence_records (sl_records (in_slice input)) in
  let ownEntries := bySequence_entries (in_ownEntries input) in
  let es := index_entries (sl_entries (in_slice input) ++ ownEntries) in
  open_operation input = Some (op_id op, op_intent op) /\
  op = (reduce_operation es records ownEntries (omap (pending_queue_item es (cancelledQueueIds records)) records)
          (op_id op) (op_intent op)).1.
Proof.
  intros Hr Hop. destruct (reduce_inv _ _ Hr) as (_ & _ & Ho). destruct (open_operation input) as [[id intent]|];
    [|destruct Ho; congruence].
  destruct Ho as [Ho _]. rewrite Hop in Ho. injection Ho as ->. done.
Qed.

Lemma reduced_pending input res op : reduceLaneState input = Ok res -> ls_operation (lr_laneState res) = Some op ->
  let aborted := exists r, r ∈ sl_records (in_slice input) /\ r_body r = RAbortRequested (op_id op) in
  (op_aborting op = true <-> aborted) /\
  (forall t, t ∈ op_pendingSteer op <-> ~ aborted /\ waiting input Qsteer (Some (op_id op)) t) /\
  (forall t, t ∈ op_pendingFollowUp op <-> ~ aborted /\ waiting input QfollowUp (Some (op_id op)) t) /\
  (forall t, t ∈ op_pendingWrites op <->
     (exists r, r ∈ sl_records (in_slice input) /\ r_body r = RWriteDeferred (op_id op) t) /\ ~ known input (p_id t)) /\
  (forall t, t ∈ op_missingInitialMessages op <-> t ∈ initialMessages (op_intent op) /\ ~ known input (p_id t)).
Proof.
  intros Hr Hop aborted. destruct (operation_inv _ _ _ Hr Hop) as [_ Heq].
  pose proof (aborting_ok input (op_id op)) as Hab. fold aborted in Hab.
  unfold reduce_operation in Heq. cbv zeta in Heq. cbn [fst] in Heq.
  set (id := op_id op) in *. set (intent := op_intent op) in *. clearbody id intent. subst op.
  cbn [op_aborting op_pendingSteer op_pendingFollowUp op_pendingWrites op_missingInitialMessages].
  split; [done|]. clearbody aborted. split; [|split; [|split]]; intros t; rewrite <-?Hab.
  - destruct (existsb _ _); [split; [by intros ?%elem_of_nil|naive_solver]|]. rewrite pending_of_elem. naive_solver.
  - destruct (existsb _ _); [split; [by intros ?%elem_of_nil|naive_solver]|]. rewrite pending_of_elem. naive_solver.
  - pose proof (deferred_elem input id t) as Hd. cbv zeta in Hd. by rewrite missing_elem, <-Hd.
  - by rewrite missing_elem.
Qed.

(** The last attempt of a list of records of an operation. *)
Lemma last_attempt records a : last (omap record_attempt records) = Some a ->
  exists l1 r l2, records = l1 ++ r :: l2 /\ record_attempt r = Some a /\ Forall (fun q => record_attempt q = None) l2.
Proof.
  induction records as [|r records IH] using rev_ind; [done|]. rewrite last_omap_snoc.
  destruct (record_attempt r) as [b|] eqn:Hb.
  - intros [= <-]. by exists records, r, [].
  - intros (l1 & q & l2 & -> & Hq & Hl2)%IH. exists l1, q, (l2 ++ [r]). rewrite <-app_assoc. split; [done|]. split; [done|].
    apply Forall_app. by repeat constructor.
Qed.

Lemma calls_of starts e own es deferred calls k i call :
  imap (fun n c => batch_call starts e own es deferred (Z.of_nat (k + n)) c) calls !! i = Some call ->
  bc_toolIndex call = Z.of_nat (k + i) /\ calls !! i = Some (bc_toolCall call) /\
  bc_started call = fst <$> starts !! Z.of_nat (k + i).
Proof.
  rewrite list_lookup_imap. destruct (calls !! i) as [c|]; cbn; [|done]. by intros [= <-].
Qed.

Lemma batch_starts_elem id aid records i r rid : batch_starts id aid records !! i = Some (r, rid) ->
  r ∈ records /\ invocation r = Some (aid, i) /\ record_runId r = Some id.
Proof.
  unfold batch_starts. induction records as [|q records IH] using rev_ind; [done|]. rewrite foldl_snoc, elem_of_app, list_elem_of_singleton.
  unfold invocation, record_runId in *. destruct (r_body q) eqn:Hq; try naive_solver.
  destruct (bool_decide _ && bool_decide _) eqn:Hc; [|naive_solver].
  apply andb_true_iff in Hc as [->%bool_decide_eq_true ->%bool_decide_eq_true].
  rewrite lookup_insert_Some. intros [[-> [= <- <-]]|[_ ?]]; [rewrite Hq|]; naive_solver.
Qed.

Lemma batch_starts_none id aid records i : batch_starts id aid records !! i = None ->
  forall r, r ∈ records -> record_runId r = Some id -> invocation r <> Some (aid, i).
Proof.
  unfold batch_starts. induction records as [|q records IH] using rev_ind; [by intros _ r ?%elem_of_nil|].
  rewrite foldl_snoc. intros Hl r Hr Hid Hinv. apply elem_of_app in Hr as [Hr|Hr].
  - refine (IH _ r Hr Hid Hinv). destruct (r_body q); try done. destruct (bool_decide _ && bool_decide _); [|done].
    by apply lookup_insert_None in Hl as [? _].
  - apply list_elem_of_singleton in Hr as <-. unfold invocation, record_runId in *. destruct (r_body r); simplify_eq.
    rewrite !bool_decide_eq_true_2 in Hl by done. cbn [andb] in Hl. by rewrite lookup_insert_eq in Hl.
Qed.

Lemma find_app {A} (f : A -> bool) l1 l2 :
  List.find f (l1 ++ l2) = match List.find f l1 with Some a => Some a | None => List.find f l2 end.
Proof. induction l1 as [|a l1 IH]; cbn; [done|]. by destruct (f a). Qed.

(** The first match from the end of a sorted list has the greatest key. *)
Lemma find_last_max {A} (key : A -> Z) (f : A -> bool) l a : StronglySorted (fun x y => key x <= key y) l ->
  List.find f (rev l) = Some a -> a ∈ l /\ f a = true /\ forall b, b ∈ l -> f b = true -> key b <= key a.
Proof.
  intros Hs. induction Hs as [|c l Hs IH Hc]; cbn [rev]; [done|]. rewrite find_app.
  destruct (List.find f (rev l)) as [a'|] eqn:Hf.
  - intros [= ->]. destruct (IH eq_refl) as (? & ? & Hmax). split; [by right|]. split; [done|].
    intros b [->|Hb]%elem_of_cons ?; [|by apply Hmax]. rewrite Forall_forall in Hc. by apply Hc.
  - cbn [List.find]. destruct (f c) eqn:Hfc; [|done]. intros [= ->]. split; [left|]. split; [done|].
    intros b [->|Hb]%elem_of_cons Hfb; [done|]. rewrite (find_none _ _ Hf b) in Hfb; [done|].
    apply list_elem_of_In, elem_of_rev. done.
Qed.

Lemma attempts_sorted input id l1 r l2 :
  List.filter (operation_record id) (bySequence_records (sl_records (in_slice input))) = l1 ++ r :: l2 ->
  Forall (fun q => record_attempt q = None) l2 ->
  forall q, q ∈ sl_records (in_slice input) -> operation_record id q = true -> record_attempt q <> None -> r_seq q <= r_seq r.
Proof.
  intros Heq Hl2 q Hq Ho Ha.
  assert (q ∈ l1 ++ r :: l2) as Hin by (rewrite <-Heq; by apply operation_records_elem).
  assert (StronglySorted (fun x y => r_seq x <= r_seq y) (l1 ++ r :: l2)) as Hs.
  { rewrite <-Heq. unfold bySequence_records. generalize (sort_by_sorted r_seq (sl_records (in_slice input))).
    generalize (sort_by r_seq (sl_records (in_slice input))). clear. induction 1 as [|x l Hs IH Hx]; cbn [List.filter]; [constructor|].
    destruct (operation_record id x); [|done]. constructor; [done|]. rewrite Forall_forall in *.
    intros y Hy%list_elem_of_In%filter_In. apply Hx, list_elem_of_In, Hy. }
  apply elem_of_app in Hin as [Hin|[->|Hin]%elem_of_cons]; [|lia|].
  - apply list_elem_of_lookup in Hin as [i Hi]. eapply (sort_by_sorted_lookup r_seq _ i (length l1)); [done| | |by apply list_lookup_middle].
    + by apply lookup_lt_Some in Hi.
    + by rewrite lookup_app_l by (by apply lookup_lt_Some in Hi).
  - rewrite Forall_forall in Hl2. by destruct (Ha (Hl2 _ Hin)).
Qed.

Lemma attempt_operation id r : record_attempt r <> None -> operation_record id r = true <-> record_runId r = Some id.
Proof.
  unfold record_attempt, operation_record, is_operation_started, record_type, record_runId. destruct (r_body r); try done.
  intros _. rewrite bool_decide_eq_false_2 by done. apply bool_decide_eq_true.
Qed.

(** The step an operation resumes with. *)
Definition resumes_step (input : LaneReductionInput) (id : string) (step : option StepState) : Prop :=
  let attempt_of r a := r ∈ sl_records (in_slice input) /\ record_runId r = Some id /\ record_attempt r = Some a in
  let newest r a := attempt_of r a /\ forall q b, attempt_of q b -> r_seq q <= r_seq r in
  match step with
  | Some s => exists r a, newest r a /\ ~ known input (at_resultEntryId a) /\ ss_kind s = at_step a /\
      ss_attempts s = at_attempt a /\ ss_resultEntryId s = at_resultEntryId a
  | None => (forall r a, ~ attempt_of r a) \/ exists r a, newest r a /\ known input (at_resultEntryId a)
  end.

Lemma derive_step_ok input id :
  let records := bySequence_records (sl_records (in_slice input)) in
  let es := index_entries (sl_entries (in_slice input) ++ bySequence_entries (in_ownEntries input)) in
  resumes_step input id (derive_step es (List.filter (operation_record id) records)).
Proof.
  intros records es. unfold resumes_step, derive_step. destruct (last _) as [a|] eqn:Hl; cbn [mbind option_bind].
  - apply last_attempt in Hl as (l1 & r & l2 & Heq & Ha & Hl2).
    assert (r ∈ List.filter (operation_record id) records) as [Hr Ho]%operation_records_elem
      by (rewrite Heq; apply elem_of_app; right; left).
    rewrite attempt_operation in Ho by congruence.
    assert (forall q b, q ∈ sl_records (in_slice input) /\ record_runId q = Some id /\ record_attempt q = Some b ->
      r_seq q <= r_seq r) as Hmax.
    { intros q b (Hq & Hqid & Hb). eapply attempts_sorted; [exact Heq|done|done| |congruence].
      apply attempt_operation; [congruence|done]. }
    destruct (JsMap.has (at_resultEntryId a) es) eqn:Hk.
    + right. exists r, a. split; [done|]. by apply es_known.
    + exists r, a. split; [done|]. split; [by apply es_unknown|done].
  - left. intros r a (Hr & Hid & Ha). apply last_None in Hl.
    assert (a ∈ omap record_attempt (List.filter (operation_record id) records)) as Hin.
    { apply list_elem_of_omap. exists r. split; [|done]. apply operation_records_elem. split; [done|].
      apply attempt_operation; [congruence|done]. }
    rewrite Hl in Hin. by apply elem_of_nil in Hin.
Qed.

(** The tool batch of an operation: the calls of its newest calling answer, by
    ordinal, each with its start and whether it has a result. *)
Definition batch_of (input : LaneReductionInput) (id : string) (b : ToolBatchState) : Prop :=
  exists e m, e ∈ in_ownEntries input /\ assistant_calling e = Some m /\ e_id e = tb_assistantEntryId b /\
    (forall e', e' ∈ in_ownEntries input -> assistant_calling e' <> None -> e_seq e' <= e_seq e) /\
    map bc_toolCall (tb_calls b) = toolCalls (am_content m) /\
    (tb_unresolved b = false <-> Forall (fun c => bc_resultExists c = true) (tb_calls b)) /\
    forall i c, tb_calls b !! i = Some c -> bc_toolIndex c = Z.of_nat i /\
      let starts r := r ∈ sl_records (in_slice input) /\ record_runId r = Some id /\
        invocation r = Some (tb_assistantEntryId b, Z.of_nat i) in
      match bc_started c with Some r => starts r | None => forall r, ~ starts r end.

Lemma unresolved_false calls :
  existsb (fun c => negb (bc_resultExists c)) calls = false <-> Forall (fun c => bc_resultExists c = true) calls.
Proof.
  induction calls as [|c calls IH]; cbn; [by split|]. by rewrite orb_false_iff, negb_false_iff, Forall_cons, IH.
Qed.

Lemma starts_operation id r i : invocation r = Some i -> operation_record id r = true <-> record_runId r = Some id.
Proof.
  unfold invocation, operation_record, is_operation_started, record_type, record_runId. destruct (r_body r); try done.
  intros _. rewrite bool_decide_eq_false_2 by done. apply bool_decide_eq_true.
Qed.

Lemma deriveToolBatch_ok input id es deferred b :
  deriveToolBatch id (List.filter (operation_record id) (bySequence_records (sl_records (in_slice input))))
    (bySequence_entries (in_ownEntries input)) es deferred = Some b -> batch_of input id b.
Proof.
  unfold deriveToolBatch, bySequence_entries. set (records := List.filter _ _).
  destruct (List.find _ _) as [e|] eqn:Hf; [|done]. cbn [mbind option_bind].
  apply (find_last_max e_seq) in Hf as (Hin & Hcalling & Hmax); [|apply sort_by_sorted].
  destruct (assistant_calling e) as [m|] eqn:Hm; [|done]. unfold assistant_calling in Hm.
  destruct (entry_assistant e) as [m'|] eqn:Ha; [|done]. cbn [mbind option_bind] in Hm |- *.
  assert (m' = m) as -> by (destruct (has_toolCalls m'); congruence). intros [= <-].
  exists e, m. cbn [tb_assistantEntryId tb_calls tb_unresolved]. rewrite sort_by_perm in Hin.
  split; [done|]. split; [unfold assistant_calling; by rewrite Ha|]. split; [done|].
  split; [intros e' He' Hc'; apply Hmax; [by rewrite sort_by_perm|by destruct (assistant_calling e')]|].
  split; [|split; [apply unresolved_false|]].
  - change (map bc_toolCall) with (fmap (M := list) bc_toolCall). apply list_eq. intros i.
    rewrite list_lookup_fmap, list_lookup_imap. by destruct (toolCalls (am_content m) !! i).
  - intros i c Hc. apply (calls_of _ _ _ _ _ _ 0) in Hc as (Hi & _ & ->). split; [done|]. cbv zeta.
    destruct (batch_starts id (e_id e) records !! Z.of_nat (0 + i)) as [[r rid]|] eqn:Hs; cbn [fmap option_fmap option_map fst].
    + apply batch_starts_elem in Hs as (Hr & Hinv & Hid). apply operation_records_elem in Hr as [Hr _]. done.
    + intros r (Hr & Hid & Hinv). refine (batch_starts_none _ _ _ _ Hs r _ Hid Hinv).
      apply operation_records_elem. split; [done|]. by apply (starts_operation _ _ _ Hinv).
Qed.

(** ** Properties *)

(** Recovery does not depend on the order in which the storage lists the
    records of the slice and the entries of the operation: when each has its own
    sequence number (and the entries distinct ids), [reduceLaneState] gives the
    same state, or the same corruption, for every permutation of them. *)
Theorem reduction_order (input : LaneReductionInput) (records : list LaneRecord) (own : list Entry) :
  records ≡ₚ sl_records (in_slice input) -> own ≡ₚ in_ownEntries input ->
  NoDup (map r_seq (sl_records (in_slice input))) ->
  NoDup (map e_id (in_configurationEntries input ++ in_ownEntries input)) ->
  NoDup (map e_seq (in_configurationEntries input ++ in_ownEntries input)) ->
  reduceLaneState (reordered input records own) = reduceLaneState input.
Proof. apply reduce_reordered. Qed.

(** C10: No input is lost or delivered twice on recovery: an item of the next-run
    queue is pending just when it was enqueued, not cancelled, not appended and not
    captured by the open run; an operation's steering and follow-up items likewise,
    unless it is aborting, when both queues are empty; its deferred writes and
    initial messages are pending just when their entries do not exist. *)
Theorem pending_work (input : LaneReductionInput) (res : LaneReductionResult) :
  reduceLaneState input = Ok res ->
  (forall t, t ∈ ls_pendingNextRun (lr_laneState res) <->
     (exists runId, waiting input QnextRun runId t) /\
     (forall id intent, open_operation input = Some (id, intent) -> p_id t ∉ map p_id (initialMessages intent))) /\
  (forall op, ls_operation (lr_laneState res) = Some op ->
   let aborted := exists r, r ∈ sl_records (in_slice input) /\ r_body r = RAbortRequested (op_id op) in
   (op_aborting op = true <-> aborted) /\
   (forall t, t ∈ op_pendingSteer op <-> ~ aborted /\ waiting input Qsteer (Some (op_id op)) t) /\
   (forall t, t ∈ op_pendingFollowUp op <-> ~ aborted /\ waiting input QfollowUp (Some (op_id op)) t) /\
   (forall t, t ∈ op_pendingWrites op <->
      (exists r, r ∈ sl_records (in_slice input) /\ r_body r = RWriteDeferred (op_id op) t) /\ ~ known input (p_id t)) /\
   (forall t, t ∈ op_missingInitialMessages op <-> t ∈ initialMessages (op_intent op) /\ ~ known input (p_id t))).
Proof.
  intros Hr. split; [|intros op Hop; by eapply reduced_pending]. intros t.
  destruct (reduce_inv _ _ Hr) as (_ & -> & _). rewrite pending_nextRun_elem.
  destruct (open_operation input) as [[id intent]|].
  - rewrite not_elem_of_list_to_set. split; intros [? H]; (split; [done|]); [by intros ? ? [= <- <-]|by eapply H].
  - split; intros [? H]; (split; [done|]); [done|set_solver].
Qed.

(** Recovery resumes where the log ends: the operation is the open one; its
    step is its newest attempt, if that attempt's result entry does not exist; and
    its tool batch is its newest answer with tool calls, one call per ordinal, with
    the start that was recorded for it (none when none was) and unresolved while a
    call has no result. *)
Theorem resume_point (input : LaneReductionInput) (res : LaneReductionResult) (op : OperationState) :
  reduceLaneState input = Ok res -> ls_operation (lr_laneState res) = Some op ->
  open_operation input = Some (op_id op, op_intent op) /\
  resumes_step input (op_id op) (op_step op) /\
  (forall b, op_toolBatch op = Some b -> batch_of input (op_id op) b).
Proof.
  intros Hr Hop. destruct (operation_inv _ _ _ Hr Hop) as [Ho Heq]. split; [done|]. cbv zeta in Heq. clear Hop Ho.
  set (id := op_id op) in *. set (intent := op_intent op) in *. clearbody id intent. subst op. split.
  - apply derive_step_ok.
  - intros b Hb. exact (deriveToolBatch_ok _ _ _ _ _ Hb).
Qed.

(** ** Witnesses *)

Module Sample.
Import SampleRun.
Definition input : LaneReductionInput :=
  mkReductionInput open_slice (Some "a1") [answer_entry] [mkEntry "k1" 0 None 0 (BThinkingLevel "high")]
    (mkConfiguration "prov" "other" "off" []).
Definition result : LaneReductionResult :=
  match reduceLaneState input with Ok r => r | Err _ => mkReductionResult (mkLaneState "" None None []) (mkConfiguration "" "" "" []) None end.
Definition operation : OperationState :=
  match ls_operation (lr_laneState result) with
  | Some op => op
  | None => mkOperationState "" Krun (ICompaction None "") false None None [] [] [] [] None false None None None
  end.
End Sample.

Lemma reduction_order_witness :
  reduceLaneState (reordered Sample.input (rev (sl_records SampleRun.open_slice)) [SampleRun.answer_entry]) =
    reduceLaneState Sample.input.
Proof.
  apply (reduction_order Sample.input); [symmetry; apply Permutation_rev|reflexivity|by_decide..].
Defined.

Lemma pending_work_witness :
  ls_pendingNextRun (lr_laneState Sample.result) = [mkProvisioned "n1" (SampleRun.user "later")] /\
  op_aborting Sample.operation = false /\
  exists runId, waiting Sample.input QnextRun runId (mkProvisioned "n1" (SampleRun.user "later")).
Proof.
  split; [vm_compute; reflexivity|]. split; [vm_compute; reflexivity|].
  destruct (pending_work Sample.input Sample.result) as [H _]; [vm_compute; reflexivity|].
  apply H. vm_compute. left.
Defined.

Lemma resume_point_witness :
  op_step Sample.operation = None /\
  exists b, op_toolBatch Sample.operation = Some b /\ tb_unresolved b = true /\ batch_of Sample.input "run1" b.
Proof.
  split; [vm_compute; reflexivity|].
  destruct (op_toolBatch Sample.operation) as [b|] eqn:Hb; [|vm_compute in Hb; discriminate Hb].
  exists b. split; [reflexivity|].
  split; [transitivity (match op_toolBatch Sample.operation with Some b' => tb_unresolved b' | None => true end);
    [by rewrite Hb|vm_compute; reflexivity]|].
  refine (proj2 (proj2 (resume_point Sample.input Sample.result Sample.operation _ _)) b Hb); vm_compute; reflexivity.
Defined.
