(* ===== verification/AgentTypes.v ===== *)
(** The agent loop's interface: [packages/agent/src/types.ts].

    The loop drives code it is given: a provider stream, tools, hooks, queues and
    an event sink.  They act on a world [W] the loop knows nothing about; the loop
    runs in a monad of that world, a trace of the loop's own acts, and failure. *)
From S2P Require Import Prelude JsNumber JsTree Messages.
Local Open Scope Z_scope.

Inductive ToolExecutionMode : Type := sequential | parallel.
#[export] Instance ToolExecutionMode_eq_dec : EqDecision ToolExecutionMode.
Proof. solve_decision. Defined.

Abbreviation tool_args := (list (string * jstree)).

(** [content] is optional because untyped tools can return none. *)
Record AgentToolResult := mkToolResult {
  atr_content : option (list Content);
  atr_details : option jstree;
  atr_usage : option Usage;
  atr_addedToolNames : option (list string);
  atr_terminate : option bool;
}.

Record BeforeToolCallResult := mkBeforeResult {
  br_block : bool;
  br_reason : option string;
  br_terminate : option bool;
}.

Record AfterToolCallResult := mkAfterResult {
  ar_content : option (list Content);
  ar_details : option jstree;
  ar_isError : option bool;
  ar_usage : option Usage;
  ar_terminate : option bool;
}.

(** [AssistantMessageEvent]: the kinds between [start] and the terminal events. *)
Inductive UpdateKind : Type :=
  | text_start | text_delta (delta : string) | text_end (content : string)
  | thinking_start | thinking_delta (delta : string) | thinking_end (content : string)
  | toolcall_start (id toolName : string) | toolcall_delta (delta : string) | toolcall_end (toolCall : ToolCall).

Inductive AssistantMessageEvent : Type :=
  | Estart (partial : AssistantMessage)
  | Eupdate (kind : UpdateKind) (contentIndex : Z) (partial : AssistantMessage)
  | Edone (message : AssistantMessage)
  | Eerror (error : AssistantMessage).

Inductive AgentEvent : Type :=
  | agent_start
  | agent_end (messages : list AgentMessage)
  | turn_start
  | turn_end (message : AssistantMessage) (toolResults : list ToolResultMessage)
  | message_start (message : AgentMessage)
  | message_update (message : AssistantMessage) (event : AssistantMessageEvent)
  | message_end (message : AgentMessage)
  | tool_execution_start (toolCallId toolName : string) (args : tool_args)
  | tool_execution_update (toolCallId toolName : string) (args : tool_args) (partialResult : AgentToolResult)
  | tool_execution_end (toolCallId toolName : string) (result : AgentToolResult) (isError : bool).

(** What a running tool does next: report progress, wait, return or throw. *)
Inductive ToolActivity : Type :=
  | Progress (partialResult : AgentToolResult)
  | Waiting
  | Returned (result : AgentToolResult)
  | Threw (message : string).

(** Why a run ends without a value: an error was thrown (its message), or the
    bound of the model on the rounds of a loop was reached. *)
Inductive failure : Type :=
  | Thrown (message : string)
  | OutOfFuel.

(** What the loop did, in order: events emitted, messages taken from a queue,
    requests to the provider, tools started. *)
Inductive act : Type :=
  | Emitted (e : AgentEvent)
  | Took (messages : list AgentMessage)
  | Requested (messages : list AgentMessage)
  | Executed (toolCallId : string).

Record run_state (W : Type) := mkRun {
  world : W;
  trace : list act;
}.
Arguments mkRun {W} world trace.
Arguments world {W} _.
Arguments trace {W} _.

Definition run (W A : Type) : Type := run_state W -> run_state W * result failure A.

#[export] Instance run_ret {W} : MRet (run W) := fun A a s => (s, Ok a).
#[export] Instance run_bind {W} : MBind (run W) := fun A B f m s =>
  match m s with (s', Ok a) => f a s' | (s', Err e) => (s', Err e) end.

Section prims.
Context {W : Type}.

(** A call of outside code. *)
Definition lift {A} (f : W -> W * A) : run W A := fun s =>
  let '(w, a) := f (world s) in (mkRun w (trace s), Ok a).

(** A call of outside code that may throw. *)
Definition lift_throws {A} (f : W -> W * result string A) : run W A := fun s =>
  let '(w, r) := f (world s) in
  (mkRun w (trace s), match r with Ok a => Ok a | Err message => Err (Thrown message) end).

Definition reads {A} (f : W -> A) : run W A := fun s => (s, Ok (f (world s))).

Definition act_ (a : act) : run W unit := fun s => (mkRun (world s) (trace s ++ [a]), Ok ()).

Definition fail_with {A} (e : failure) : run W A := fun s => (s, Err e).

(** [try { m } catch (error) { h(message) }]: the bound of the model is no error of the code. *)
Definition try_catch {A} (m : run W A) (h : string -> run W A) : run W A := fun s =>
  match m s with
  | (s', Err (Thrown message)) => h message s'
  | other => other
  end.

(** [try { m } finally { f }]: [f] runs when [m] returns and when it throws, and what
    [f] throws replaces the outcome.  Past the bound of the model nothing runs. *)
Definition try_finally {A} (m : run W A) (f : run W unit) : run W A := fun s =>
  match m s with
  | (s1, Err OutOfFuel) => (s1, Err OutOfFuel)
  | (s1, outcome) => match f s1 with (s2, Ok _) => (s2, outcome) | (s2, Err e) => (s2, Err e) end
  end.

(** [for (const a of l) await f(a)], collecting the results. *)
Fixpoint for_each {A B} (f : A -> run W B) (l : list A) : run W (list B) :=
  match l with
  | [] => mret []
  | a :: l' => b ← f a; bs ← for_each f l'; mret (b :: bs)
  end.
End prims.

(** ** The code the loop is given *)

Section interface.
Context {W Model Running Response : Type}.

Record AgentTool := mkTool {
  tool_name : string;
  tool_executionMode : option ToolExecutionMode;
  tool_prepareArguments : option (tool_args -> W -> W * result string tool_args);
  tool_validateArguments : tool_args -> result string jstree;
  tool_execute : string -> jstree -> W -> W * result string Running;
  tool_poll : Running -> W -> W * (Running * ToolActivity);
}.

Record AgentContext := mkContext {
  systemPrompt : string;
  messages : list AgentMessage;
  tools : option (list AgentTool);
}.

(** [ShouldStopAfterTurnContext]. *)
Record CompletedTurn := mkCompletedTurn {
  ct_message : AssistantMessage;
  ct_toolResults : list ToolResultMessage;
  ct_context : AgentContext;
  ct_newMessages : list AgentMessage;
}.

Record AgentLoopTurnUpdate := mkTurnUpdate {
  tu_context : option AgentContext;
  tu_model : option Model;
  tu_thinkingLevel : option string;
}.

(** [AgentLoopConfig], the stream function, the event sink and the clock. *)
Record AgentLoopConfig := mkConfig {
  model : Model;
  model_provider : Model -> string;
  reasoning : option string;
  apiKey : option string;
  toolExecution : option ToolExecutionMode;
  convertToLlm_ : list AgentMessage -> W -> W * result string (list AgentMessage);
  transformContext : option (list AgentMessage -> W -> W * result string (list AgentMessage));
  getApiKey : option (string -> W -> W * result string (option string));
  shouldStopAfterTurn : option (CompletedTurn -> W -> W * result string bool);
  prepareNextTurn : option (CompletedTurn -> W -> W * result string (option AgentLoopTurnUpdate));
  getSteeringMessages : option (W -> W * result string (list AgentMessage));
  getFollowUpMessages : option (W -> W * result string (list AgentMessage));
  beforeToolCall : option (AssistantMessage -> ToolCall -> jstree -> AgentContext -> W ->
                           W * result string (option BeforeToolCallResult));
  afterToolCall : option (AssistantMessage -> ToolCall -> jstree -> AgentToolResult -> bool -> AgentContext -> W ->
                          W * result string (option AfterToolCallResult));
}.

Record Environment := mkEnvironment {
  emit : AgentEvent -> W -> W * result string unit;  (* an event sink may throw *)
  aborted : W -> bool;  (* [signal?.aborted] *)
  now : W -> jsnum;
  streamFn : Model -> option string -> option string -> string -> list AgentMessage -> option (list AgentTool) ->
             W -> W * result string Response;
  response_next : Response -> W -> W * result string (option AssistantMessageEvent);  (* [None]: done *)
  response_result : Response -> W -> W * result string AssistantMessage;
  (* The event loop: which unfinished call of a batch runs next, counting around. *)
  schedule : W -> W * nat;
}.
End interface.
