(* ===== verification/AgentTools.v ===== *)
(** Tool execution of the agent loop: [packages/agent/src/agent-loop.ts] from
    [failToolCallsFromTruncatedMessage] on.

    In the parallel mode every allowed call of a batch is a task; the schedule of
    the environment says which task takes its next step.  When a task fails, as the
    event sink threw, [Promise.all] rejects and the batch fails at once; the calls
    it leaves behind run on, and what they do then is outside code to this run. *)
From S2P Require Import Prelude JsNumber JsTree Messages AgentTypes.
Local Open Scope Z_scope.

Section tools.
Context {W Model Running Response : Type} (env : @Environment W Model Running Response).

Abbreviation Tool := (@AgentTool W Running).
Abbreviation AContext := (@AgentContext W Running).
Abbreviation Config := (@AgentLoopConfig W Model Running).

(** The event has been emitted also when the sink throws. *)
Definition emit_ (e : AgentEvent) : run W unit := fun s =>
  let '(w, r) := emit env e (world s) in
  (mkRun w (trace s ++ [Emitted e]), match r with Ok _ => Ok () | Err message => Err (Thrown message) end).

Definition is_aborted : run W bool := reads (aborted env).

Record FinalizedToolCallOutcome := mkFinalized {
  fo_toolCall : ToolCall;
  fo_result : AgentToolResult;
  fo_isError : bool;
}.

Record ExecutedToolCallBatch := mkBatch {
  batch_messages : list ToolResultMessage;
  batch_terminate : bool;
}.

Record PreparedToolCall := mkPrepared {
  pc_toolCall : ToolCall;
  pc_tool : Tool;
  pc_args : jstree;
}.

(** [PreparedToolCall | ImmediateToolCallOutcome]. *)
Inductive Preparation : Type :=
  | Prepared (p : PreparedToolCall)
  | Immediate (result : AgentToolResult) (isError : bool).

Definition createErrorToolResult (message : string) : AgentToolResult :=
  mkToolResult (Some [TextC message None]) (Some (JObj [])) None None None.

Definition shouldTerminateToolBatch (finalizedCalls : list FinalizedToolCallOutcome) : bool :=
  negb (bool_decide (finalizedCalls = [] :> list FinalizedToolCallOutcome)) &&
  forallb (fun finalized => bool_decide (atr_terminate (fo_result finalized) = Some true)) finalizedCalls.

Definition createToolResultMessage (finalized : FinalizedToolCallOutcome) (timestamp : jsnum) : ToolResultMessage :=
  let result := fo_result finalized in
  mkToolResultMessage (tc_id (fo_toolCall finalized)) (tc_name (fo_toolCall finalized))
    (default [] (atr_content result)) (atr_details result) (atr_usage result)
    (match atr_addedToolNames result with Some (_ :: _) => atr_addedToolNames result | _ => None end)
    (fo_isError finalized) timestamp.

Definition QUOTE : string := String (Ascii.ascii_of_nat 34) EmptyString.

Definition emitToolExecutionEnd (finalized : FinalizedToolCallOutcome) : run W unit :=
  emit_ (tool_execution_end (tc_id (fo_toolCall finalized)) (tc_name (fo_toolCall finalized)) (fo_result finalized)
    (fo_isError finalized)).

Definition emitToolResultMessage (m : ToolResultMessage) : run W unit :=
  emit_ (message_start (MToolResult m));; emit_ (message_end (MToolResult m)).

Definition emitToolExecutionStart (toolCall : ToolCall) : run W unit :=
  emit_ (tool_execution_start (tc_id toolCall) (tc_name toolCall) (tc_arguments toolCall)).

(** The result message of a finalized call, emitted. *)
Definition reportResult (finalized : FinalizedToolCallOutcome) : run W ToolResultMessage :=
  timestamp ← reads (now env);
  let toolResultMessage := createToolResultMessage finalized timestamp in
  emitToolResultMessage toolResultMessage;; mret toolResultMessage.

Definition failToolCallsFromTruncatedMessage (toolCalls : list ToolCall) : run W ExecutedToolCallBatch :=
  messages ← for_each (fun toolCall =>
    emitToolExecutionStart toolCall;;
    let finalized := mkFinalized toolCall (createErrorToolResult
      ("Tool call " +:+ QUOTE +:+ tc_name toolCall +:+ QUOTE +:+ " was not executed: the response hit the output token limit, so its arguments may be truncated. Re-issue the tool call with complete arguments."))
      true in
    emitToolExecutionEnd finalized;;
    reportResult finalized) toolCalls;
  mret (mkBatch messages false).

(** ** Preparing a call *)

Definition find_tool (context : AContext) (name : string) : option Tool :=
  List.find (fun t => String.eqb (tool_name t) name) (default [] (tools context)).

Definition prepareToolCallArguments (tool : Tool) (toolCall : ToolCall) : run W ToolCall :=
  match tool_prepareArguments tool with
  | None => mret toolCall
  | Some prepareArguments =>
      arguments ← lift_throws (prepareArguments (tc_arguments toolCall));
      mret (mkToolCall (tc_id toolCall) (tc_name toolCall) arguments (tc_thoughtSignature toolCall) (tc_namespace toolCall))
  end.

Definition or_default (s : option string) (d : string) : string := default d (truthy_str s).

(** What the [beforeToolCall] hook decides: [None] lets the call pass. *)
Definition consultHook (context : AContext) (config : Config) (assistantMessage : AssistantMessage) (toolCall : ToolCall)
    (args : jstree) : run W (option Preparation) :=
  match beforeToolCall config with
  | None => mret None
  | Some hook =>
      beforeResult ← lift_throws (hook assistantMessage toolCall args context);
      stopped ← is_aborted;
      if stopped : bool then mret (Some (Immediate (createErrorToolResult "Operation aborted") true))
      else match beforeResult with
           | Some r =>
               if br_block r then
                 let result := createErrorToolResult (or_default (br_reason r) "Tool execution was blocked") in
                 mret (Some (Immediate (mkToolResult (atr_content result) (atr_details result) None None
                   (if bool_decide (br_terminate r = Some true) then Some true else None)) true))
               else mret None
           | None => mret None
           end
  end.

Definition prepareToolCall (context : AContext) (assistantMessage : AssistantMessage) (toolCall : ToolCall)
    (config : Config) : run W Preparation :=
  match find_tool context (tc_name toolCall) with
  | None => mret (Immediate (createErrorToolResult ("Tool " +:+ tc_name toolCall +:+ " not found")) true)
  | Some tool =>
      try_catch
        (prepared ← prepareToolCallArguments tool toolCall;
         validatedArgs ← (fun s => (s, match tool_validateArguments tool (tc_arguments prepared) with
                                       | Ok a => Ok a | Err message => Err (Thrown message) end));
         verdict ← consultHook context config assistantMessage toolCall validatedArgs;
         match verdict with
         | Some immediate => mret immediate
         | None =>
             stopped ← is_aborted;
             if stopped : bool then mret (Immediate (createErrorToolResult "Operation aborted") true)
             else mret (Prepared (mkPrepared toolCall tool validatedArgs))
         end)
        (fun message => mret (Immediate (createErrorToolResult message) true))
  end.

(** ** Running a call *)

(** [prepared.tool.execute(...)] up to its first suspension. *)
Definition startTool (p : PreparedToolCall) : run W Running :=
  act_ (Executed (tc_id (pc_toolCall p)));;
  lift_throws (tool_execute (pc_tool p) (tc_id (pc_toolCall p)) (pc_args p)).

(** [a ?? b] for [unknown] values. *)
Definition nullish (a b : option jstree) : option jstree :=
  match a with None | Some JNull | Some JUndefined => b | _ => a end.
Definition first_of {A} (a b : option A) : option A := match a with Some _ => a | None => b end.

(** The running tool, or its outcome when it throws at once. *)
Definition launchTool (p : PreparedToolCall) : run W (Running + AgentToolResult * bool) :=
  try_catch (r ← startTool p; mret (inl r)) (fun message => mret (inr (createErrorToolResult message, true))).

(** [updateEvents.push(updateTask())]: what the sink throws stays in the promise;
    [rejected] is the first such error of the call. *)
Definition onUpdate (p : PreparedToolCall) (rejected : option string) (partialResult : AgentToolResult)
    : run W (option string) :=
  try_catch
    (emit_ (tool_execution_update (tc_id (pc_toolCall p)) (tc_name (pc_toolCall p)) (tc_arguments (pc_toolCall p))
       partialResult);; mret rejected)
    (fun message => mret (first_of rejected (Some message))).

(** The end of the tool, [await Promise.all(updateEvents)] included: when an update was
    rejected, the call fails with that error, in the [try] and again in the [catch]. *)
Definition settleTool (rejected : option string) (outcome : AgentToolResult * bool) : run W (AgentToolResult * bool) :=
  match rejected with Some message => fail_with (Thrown message) | None => mret outcome end.

(** The running tool acts once; an outcome when it returned or threw.  A tool that
    has returned is not asked again: [acceptingUpdates] drops what it still reports. *)
Definition pollTool (p : PreparedToolCall) (r : Running) (rejected : option string)
    : run W (Running * option string * option (AgentToolResult * bool)) :=
  polled ← lift (tool_poll (pc_tool p) r);
  match (polled : Running * ToolActivity) with
  | (r', Progress partialResult) => rejected' ← onUpdate p rejected partialResult; mret (r', rejected', None)
  | (r', Waiting) => mret (r', rejected, None)
  | (r', Returned result) => outcome ← settleTool rejected (result, false); mret (r', rejected, Some outcome)
  | (r', Threw message) =>
      outcome ← settleTool rejected (createErrorToolResult message, true); mret (r', rejected, Some outcome)
  end.

Fixpoint awaitTool (fuel : nat) (p : PreparedToolCall) (r : Running) (rejected : option string)
    : run W (AgentToolResult * bool) :=
  match fuel with
  | O => fail_with OutOfFuel
  | Datatypes.S fuel' =>
      polled ← pollTool p r rejected;
      match (polled : Running * option string * option (AgentToolResult * bool)) with
      | (_, _, Some outcome) => mret outcome
      | (r', rejected', None) => awaitTool fuel' p r' rejected'
      end
  end.

Definition executePreparedToolCall (fuel : nat) (p : PreparedToolCall) : run W (AgentToolResult * bool) :=
  launched ← launchTool p;
  match (launched : Running + AgentToolResult * bool) with
  | inl r => awaitTool fuel p r None
  | inr outcome => mret outcome
  end.

Definition override (result : AgentToolResult) (after : AfterToolCallResult) : AgentToolResult :=
  mkToolResult (first_of (ar_content after) (atr_content result)) (nullish (ar_details after) (atr_details result))
    (first_of (ar_usage after) (atr_usage result)) (atr_addedToolNames result)
    (first_of (ar_terminate after) (atr_terminate result)).

Definition finalizeExecutedToolCall (context : AContext) (assistantMessage : AssistantMessage) (p : PreparedToolCall)
    (executed : AgentToolResult * bool) (config : Config) : run W FinalizedToolCallOutcome :=
  let '(result, isError) := executed in
  match afterToolCall config with
  | None => mret (mkFinalized (pc_toolCall p) result isError)
  | Some hook =>
      try_catch
        (afterResult ← lift_throws (hook assistantMessage (pc_toolCall p) (pc_args p) result isError context);
         mret match afterResult with
              | Some after => mkFinalized (pc_toolCall p) (override result after) (default isError (ar_isError after))
              | None => mkFinalized (pc_toolCall p) result isError
              end)
        (fun message => mret (mkFinalized (pc_toolCall p) (createErrorToolResult message) true))
  end.

(** ** Sequential batches *)

Definition runToolCall (fuel : nat) (context : AContext) (assistantMessage : AssistantMessage) (config : Config)
    (toolCall : ToolCall) : run W FinalizedToolCallOutcome :=
  preparation ← prepareToolCall context assistantMessage toolCall config;
  match preparation with
  | Immediate result isError => mret (mkFinalized toolCall result isError)
  | Prepared p =>
      executed ← executePreparedToolCall fuel p;
      finalizeExecutedToolCall context assistantMessage p executed config
  end.

Fixpoint sequentialCalls (fuel : nat) (context : AContext) (assistantMessage : AssistantMessage) (config : Config)
    (toolCalls : list ToolCall) : run W (list FinalizedToolCallOutcome * list ToolResultMessage) :=
  match toolCalls with
  | [] => mret ([], [])
  | toolCall :: rest =>
      emitToolExecutionStart toolCall;;
      finalized ← runToolCall fuel context assistantMessage config toolCall;
      emitToolExecutionEnd finalized;;
      toolResultMessage ← reportResult finalized;
      stopped ← is_aborted;
      if stopped : bool then mret ([finalized], [toolResultMessage])
      else
        others ← sequentialCalls fuel context assistantMessage config rest;
        mret (finalized :: others.1, toolResultMessage :: others.2)
  end.

Definition executeToolCallsSequential (fuel : nat) (context : AContext) (assistantMessage : AssistantMessage)
    (toolCalls : list ToolCall) (config : Config) : run W ExecutedToolCallBatch :=
  calls ← sequentialCalls fuel context assistantMessage config toolCalls;
  mret (mkBatch (calls : _ * _).2 (shouldTerminateToolBatch calls.1)).

(** ** Parallel batches *)

(** A call of a parallel batch: finalized, or a task that has not started, that
    runs the tool, or that has its outcome but has not been finalized. *)
Inductive Task : Type :=
  | Finished (finalized : FinalizedToolCallOutcome)
  | Thunk (p : PreparedToolCall)
  | InTool (p : PreparedToolCall) (r : Running) (rejected : option string)
  | Ended (p : PreparedToolCall) (executed : AgentToolResult * bool).

Fixpoint prepareCalls (context : AContext) (assistantMessage : AssistantMessage) (config : Config)
    (toolCalls : list ToolCall) : run W (list Task) :=
  match toolCalls with
  | [] => mret []
  | toolCall :: rest =>
      emitToolExecutionStart toolCall;;
      preparation ← prepareToolCall context assistantMessage toolCall config;
      task ← match preparation with
             | Immediate result isError =>
                 let finalized := mkFinalized toolCall result isError in
                 emitToolExecutionEnd finalized;; mret (Finished finalized)
             | Prepared p => mret (Thunk p)
             end;
      stopped ← is_aborted;
      if stopped : bool then mret [task]
      else tasks ← prepareCalls context assistantMessage config rest; mret (task :: tasks)
  end.

(** [entry()]: the call of the thunk runs the tool up to its first suspension. *)
Definition startTask (t : Task) : run W Task :=
  match t with
  | Thunk p =>
      launched ← launchTool p;
      mret match (launched : Running + AgentToolResult * bool) with
           | inl r => InTool p r None
           | inr outcome => Ended p outcome
           end
  | _ => mret t
  end.

Definition stepTask (context : AContext) (assistantMessage : AssistantMessage) (config : Config) (t : Task) : run W Task :=
  match t with
  | Finished _ => mret t
  | Thunk _ => startTask t
  | InTool p r rejected =>
      polled ← pollTool p r rejected;
      mret match (polled : Running * option string * option (AgentToolResult * bool)) with
           | (_, _, Some outcome) => Ended p outcome
           | (r', rejected', None) => InTool p r' rejected'
           end
  | Ended p executed =>
      finalized ← finalizeExecutedToolCall context assistantMessage p executed config;
      emitToolExecutionEnd finalized;; mret (Finished finalized)
  end.

Definition finished (t : Task) : option FinalizedToolCallOutcome := match t with Finished f => Some f | _ => None end.

(** The [k]-th unfinished task, counting around. *)
Definition pick_task (k : nat) (tasks : list Task) : option (nat * Task) :=
  let unfinished := List.filter (fun it => match finished it.2 with None => true | Some _ => false end)
    (imap (fun i t => (i, t)) tasks) in
  unfinished !! (k mod length unfinished)%nat.

(** [Promise.all]: the unfinished tasks take steps as scheduled until all have finished. *)
Fixpoint joinTasks (fuel : nat) (context : AContext) (assistantMessage : AssistantMessage) (config : Config)
    (tasks : list Task) : run W (list FinalizedToolCallOutcome) :=
  match mapM finished tasks with
  | Some finalizedCalls => mret finalizedCalls
  | None =>
      match fuel with
      | O => fail_with OutOfFuel
      | Datatypes.S fuel' =>
          k ← lift (schedule env);
          match pick_task k tasks with
          | Some (i, t) =>
              t' ← stepTask context assistantMessage config t;
              joinTasks fuel' context assistantMessage config (<[i := t']> tasks)
          | None => fail_with OutOfFuel  (* some task is unfinished *)
          end
      end
  end.

Definition executeToolCallsParallel (fuel : nat) (context : AContext) (assistantMessage : AssistantMessage)
    (toolCalls : list ToolCall) (config : Config) : run W ExecutedToolCallBatch :=
  entries ← prepareCalls context assistantMessage config toolCalls;
  started ← for_each startTask entries;
  orderedFinalizedCalls ← joinTasks fuel context assistantMessage config started;
  messages ← for_each reportResult orderedFinalizedCalls;
  mret (mkBatch messages (shouldTerminateToolBatch orderedFinalizedCalls)).

Definition executeToolCalls (fuel : nat) (context : AContext) (assistantMessage : AssistantMessage) (config : Config)
    : run W ExecutedToolCallBatch :=
  let calls := toolCalls (am_content assistantMessage) in
  let hasSequentialToolCall := existsb (fun tc =>
    match find_tool context (tc_name tc) with
    | Some t => bool_decide (tool_executionMode t = Some sequential)
    | None => false
    end) calls in
  if bool_decide (toolExecution config = Some sequential) || hasSequentialToolCall
  then executeToolCallsSequential fuel context assistantMessage calls config
  else executeToolCallsParallel fuel context assistantMessage calls config.
End tools.
