(* ===== verification/AgentLoop.v ===== *)
(** The agent loop: [runAgentLoop], [runLoop] and [streamAssistantResponse] of
    [packages/agent/src/agent-loop.ts].

    [context.messages] and [newMessages] are arrays the loop extends in place; here
    they are values the loop passes on. *)
From S2P Require Import Prelude JsNumber JsTree Messages AgentTypes AgentTools.
Local Open Scope Z_scope.

Section loop.
Context {W Model Running Response : Type} (env : @Environment W Model Running Response).

Abbreviation AContext := (@AgentContext W Running).
Abbreviation Config := (@AgentLoopConfig W Model Running).

Definition with_messages (context : AContext) (ms : list AgentMessage) : AContext :=
  mkContext (systemPrompt context) ms (tools context).

Definition push_message (m : AgentMessage) (context : AContext) : AContext :=
  with_messages context (messages context ++ [m]).

(** [context.messages[context.messages.length - 1] = m]. *)
Definition set_last (m : AgentMessage) (context : AContext) : AContext :=
  let ms := messages context in with_messages context (<[pred (length ms) := m]> ms).

(** An optional hook that returns a value or a default when absent. *)
Definition ask {A} (hook : option (W -> W * result string A)) (absent : A) : run W A :=
  match hook with Some f => lift_throws f | None => mret absent end.

(** [(await hook?.()) || []]; messages that are taken are recorded. *)
Definition take_messages (hook : option (W -> W * result string (list AgentMessage))) : run W (list AgentMessage) :=
  ms ← ask hook [];
  match (ms : list AgentMessage) with [] => mret [] | _ => act_ (Took ms);; mret ms end.

(** ** One response *)

(** The final message of the response, in the context and announced. *)
Definition finishResponse (response : Response) (addedPartial : bool) (context : AContext) : run W (AssistantMessage * AContext) :=
  finalMessage ← lift_throws (response_result env response);
  let m := MAssistant finalMessage in
  let context' := if addedPartial then set_last m context else push_message m context in
  (if addedPartial then mret () else emit_ env (message_start m));;
  emit_ env (message_end m);;
  mret (finalMessage, context').

Fixpoint consumeResponse (fuel : nat) (response : Response) (partialMessage : option AssistantMessage) (addedPartial : bool)
    (context : AContext) : run W (AssistantMessage * AContext) :=
  match fuel with
  | O => fail_with OutOfFuel
  | Datatypes.S fuel' =>
      iteration ← lift_throws (response_next env response);
      match (iteration : option AssistantMessageEvent) with
      | None | Some (Edone _) | Some (Eerror _) => finishResponse response addedPartial context
      | Some (Estart partial) =>
          emit_ env (message_start (MAssistant partial));;
          consumeResponse fuel' response (Some partial) true (push_message (MAssistant partial) context)
      | Some (Eupdate _ _ partial as event) =>
          match partialMessage with
          | Some _ =>
              emit_ env (message_update partial event);;
              consumeResponse fuel' response (Some partial) addedPartial (set_last (MAssistant partial) context)
          | None => consumeResponse fuel' response partialMessage addedPartial context
          end
      end
  end.

Definition streamAssistantResponse (fuel : nat) (context : AContext) (config : Config)
    : run W (AssistantMessage * AContext) :=
  transformed ← match transformContext config with
                | Some transform => lift_throws (transform (messages context))
                | None => mret (messages context)
                end;
  llmMessages ← lift_throws (convertToLlm_ config transformed);
  key ← match getApiKey config with
        | Some get => lift_throws (get (model_provider config (model config)))
        | None => mret None
        end;
  let resolvedApiKey := first_of (truthy_str key) (apiKey config) in
  act_ (Requested llmMessages);;
  response ← lift_throws (streamFn env (model config) (reasoning config) resolvedApiKey (systemPrompt context) llmMessages
    (tools context));
  consumeResponse fuel response None false context.

(** ** Turns *)

Record LoopState := mkLoop {
  currentContext : AContext;
  config : Config;
  newMessages : list AgentMessage;
  firstTurn : bool;
  lastCompletedTurn : option (@CompletedTurn W Running);
  pendingMessages : list AgentMessage;
  hasMoreToolCalls : bool;
}.

Definition with_model (c : Config) (m : Model) (r : option string) : Config :=
  mkConfig m (model_provider c) r (apiKey c) (toolExecution c) (convertToLlm_ c) (transformContext c) (getApiKey c)
    (shouldStopAfterTurn c) (prepareNextTurn c) (getSteeringMessages c) (getFollowUpMessages c) (beforeToolCall c)
    (afterToolCall c).

Definition update_config (c : Config) (u : @AgentLoopTurnUpdate W Model Running) : Config :=
  with_model c (default (model c) (tu_model u))
    (match tu_thinkingLevel u with
     | None => reasoning c
     | Some level => if String.eqb level "off" then None else Some level
     end).

(** Before every turn but the first: the update of the hook, and steering that arrived meanwhile. *)
Definition prepareTurn (s : LoopState) : run W LoopState :=
  match lastCompletedTurn s with
  | None => mret s
  | Some completedTurn =>
      nextTurnSnapshot ← ask ((fun f => f completedTurn) <$> prepareNextTurn (config s)) None;
      let '(context, c) :=
        match (nextTurnSnapshot : option (@AgentLoopTurnUpdate W Model Running)) with
        | Some u => (default (currentContext s) (tu_context u), update_config (config s) u)
        | None => (currentContext s, config s)
        end in
      pending ← match pendingMessages s with
                | [] => take_messages (getSteeringMessages c)
                | ms => mret ms
                end;
      mret (mkLoop context c (newMessages s) (firstTurn s) (lastCompletedTurn s) pending (hasMoreToolCalls s))
  end.

(** [for (const message of pendingMessages)]: announce and append each. *)
Definition injectPending (s : LoopState) : run W LoopState :=
  for_each (fun m => emit_ env (message_start m);; emit_ env (message_end m)) (pendingMessages s);;
  mret (mkLoop (with_messages (currentContext s) (messages (currentContext s) ++ pendingMessages s)) (config s)
          (newMessages s ++ pendingMessages s) (firstTurn s) (lastCompletedTurn s) [] (hasMoreToolCalls s)).

Definition runBatch (fuel : nat) (context : AContext) (message : AssistantMessage) (c : Config)
    : run W (list ToolResultMessage * bool) :=
  match toolCalls (am_content message) with
  | [] => mret ([], false)
  | calls =>
      batch ← (if bool_decide (am_stopReason message = SRlength) then failToolCallsFromTruncatedMessage env calls
               else executeToolCalls env fuel context message c);
      mret (batch_messages batch, negb (batch_terminate batch))
  end.

(** The tools and the end of a turn; whether the run stops here. *)
Definition finishTurn (fuel : nat) (s : LoopState) (message : AssistantMessage) (context : AContext)
    (messages' : list AgentMessage) : run W (LoopState * bool) :=
  executed ← runBatch fuel context message (config s);
  let '(toolResults, more) := (executed : list ToolResultMessage * bool) in
  let results := map MToolResult toolResults in
  let context' := with_messages context (messages context ++ results) in
  let newMessages' := messages' ++ results in
  emit_ env (turn_end message toolResults);;
  let completedTurn := mkCompletedTurn message toolResults context' newMessages' in
  stop ← ask ((fun f => f completedTurn) <$> shouldStopAfterTurn (config s)) false;
  if stop : bool then
    emit_ env (agent_end newMessages');;
    mret (mkLoop context' (config s) newMessages' false (Some completedTurn) [] more, true)
  else
    pending ← take_messages (getSteeringMessages (config s));
    mret (mkLoop context' (config s) newMessages' false (Some completedTurn) pending more, false).

(** One round of the inner loop. *)
Definition turn (fuel : nat) (s0 : LoopState) : run W (LoopState * bool) :=
  s1 ← (if firstTurn s0 then mret s0 else s ← prepareTurn s0; emit_ env turn_start;; mret s);
  s2 ← injectPending s1;
  response ← streamAssistantResponse fuel (currentContext s2) (config s2);
  let '(message, context) := (response : AssistantMessage * AContext) in
  let messages' := newMessages s2 ++ [MAssistant message] in
  if bool_decide (am_stopReason message = SRerror) || bool_decide (am_stopReason message = SRaborted) then
    emit_ env (turn_end message []);;
    emit_ env (agent_end messages');;
    mret (mkLoop context (config s2) messages' false (lastCompletedTurn s2) [] (hasMoreToolCalls s2), true)
  else finishTurn fuel s2 message context messages'.

Definition turn_needed (s : LoopState) : bool :=
  hasMoreToolCalls s || negb (bool_decide (pendingMessages s = [] :> list AgentMessage)).

Fixpoint innerLoop (fuel : nat) (n : nat) (s : LoopState) : run W (LoopState * bool) :=
  if turn_needed s then
    match n with
    | O => fail_with OutOfFuel
    | Datatypes.S n' =>
        after ← turn fuel s;
        let '(s', returned) := (after : LoopState * bool) in
        if returned : bool then mret (s', true) else innerLoop fuel n' s'
    end
  else mret (s, false).

Fixpoint outerLoop (fuel : nat) (n : nat) (s : LoopState) : run W LoopState :=
  match n with
  | O => fail_with OutOfFuel
  | Datatypes.S n' =>
      after ← innerLoop fuel fuel
        (mkLoop (currentContext s) (config s) (newMessages s) (firstTurn s) (lastCompletedTurn s) (pendingMessages s) true);
      let '(s', returned) := (after : LoopState * bool) in
      if returned : bool then mret s'
      else
        followUpMessages ← take_messages (getFollowUpMessages (config s'));
        match (followUpMessages : list AgentMessage) with
        | [] => emit_ env (agent_end (newMessages s'));; mret s'
        | _ => outerLoop fuel n'
                 (mkLoop (currentContext s') (config s') (newMessages s') (firstTurn s') (lastCompletedTurn s')
                    followUpMessages (hasMoreToolCalls s'))
        end
  end.

(** [fuel] bounds the turns, the events of a response and the steps of the tools. *)
Definition runLoop (fuel : nat) (initialContext : AContext) (newMessages : list AgentMessage) (initialConfig : Config)
    : run W LoopState :=
  pending ← take_messages (getSteeringMessages initialConfig);
  outerLoop fuel fuel (mkLoop initialContext initialConfig newMessages true None pending true).

Definition runAgentLoop (fuel : nat) (prompts : list AgentMessage) (context : AContext) (config : Config)
    : run W (list AgentMessage) :=
  emit_ env agent_start;;
  emit_ env turn_start;;
  for_each (fun prompt => emit_ env (message_start prompt);; emit_ env (message_end prompt)) prompts;;
  s ← runLoop fuel (with_messages context (messages context ++ prompts)) prompts config;
  mret (newMessages s).

Definition is_assistant (m : AgentMessage) : bool := match m with MAssistant _ => true | _ => false end.

(** The guards of [agentLoopContinue] and [runAgentLoopContinue]. *)
Definition assertCanContinue (context : AContext) : run W unit :=
  match last (messages context) with
  | None => fail_with (Thrown "Cannot continue: no messages in context")
  | Some m => if is_assistant m then fail_with (Thrown "Cannot continue from message role: assistant") else mret ()
  end.

Definition runAgentLoopContinue (fuel : nat) (context : AContext) (config : Config) : run W (list AgentMessage) :=
  assertCanContinue context;;
  emit_ env agent_start;;
  emit_ env turn_start;;
  s ← runLoop fuel context [] config;
  mret (newMessages s).
End loop.

(** * A program logic for the agent loop, and its two specifications: the
    life cycle of the emitted events and the transcript of a run. *)

(** ** What a computation does *)

(** From any state [m] appends acts to the trace: [R] holds of its value and the
    acts when it returns, [E] of the acts when it fails. *)
Definition does {W A} (m : run W A) (R : A -> list act -> Prop) (E : list act -> Prop) : Prop :=
  forall s, exists l, trace (m s).1 = trace s ++ l /\
    match (m s).2 with Ok a => R a l | Err _ => E l end.

Section does.
Context {W : Type}.

Lemma does_ret {A} (a : A) (R : A -> list act -> Prop) (E : list act -> Prop) : R a [] -> does (W := W) (mret a) R E.
Proof. intros HR s. exists []. by rewrite app_nil_r. Qed.

Lemma does_bind {A B} (m : run W A) (f : A -> run W B) R1 (R : B -> list act -> Prop) (E : list act -> Prop) :
  does m R1 E ->
  (forall a l1, R1 a l1 -> does (f a) (fun b l2 => R b (l1 ++ l2)) (fun l2 => E (l1 ++ l2))) ->
  does (m ≫= f) R E.
Proof.
  intros Hm Hf s. unfold mbind, run_bind. destruct (Hm s) as (l1 & Ht & Hr). destruct (m s) as [s1 [a|e]]; cbn in *.
  - destruct (Hf a l1 Hr s1) as (l2 & Ht2 & Hr2). exists (l1 ++ l2). by rewrite Ht2, Ht, app_assoc.
  - by exists l1.
Qed.

Lemma does_impl {A} (m : run W A) (R R' : A -> list act -> Prop) (E E' : list act -> Prop) :
  does m R E -> (forall a l, R a l -> R' a l) -> (forall l, E l -> E' l) -> does m R' E'.
Proof. intros Hm HR HE s. destruct (Hm s) as (l & ? & ?). exists l. split; [done|]. destruct (m s).2; auto. Qed.

Lemma does_silent {A} (m : run W A) (R : A -> list act -> Prop) (E : list act -> Prop) :
  (forall s, trace (m s).1 = trace s) -> (forall a, R a []) -> E [] -> does m R E.
Proof. intros Hm HR HE s. exists []. rewrite app_nil_r. split; [done|]. by destruct (m s).2. Qed.

Lemma does_fail {A} e (R : A -> list act -> Prop) (E : list act -> Prop) : E [] -> does (W := W) (fail_with e) R E.
Proof. intros. exists []. by rewrite app_nil_r. Qed.

Lemma does_act a (R : unit -> list act -> Prop) (E : list act -> Prop) : R () [a] -> does (W := W) (act_ a) R E.
Proof. intros. by exists [a]. Qed.

Lemma does_emit {Model Running Response} (env : @Environment W Model Running Response) e
    (R : unit -> list act -> Prop) (E : list act -> Prop) : R () [Emitted e] -> E [Emitted e] -> does (emit_ env e) R E.
Proof. intros HR HE s. exists [Emitted e]. unfold emit_. by destruct (emit env e (world s)) as [w []]. Qed.

Lemma does_try {A} (m : run W A) (h : string -> run W A) R1 E1 (R : A -> list act -> Prop) (E : list act -> Prop) :
  does m R1 E1 -> (forall a l, R1 a l -> R a l) -> (forall l, E1 l -> E l) ->
  (forall message l1, E1 l1 -> does (h message) (fun a l2 => R a (l1 ++ l2)) (fun l2 => E (l1 ++ l2))) ->
  does (try_catch m h) R E.
Proof.
  intros Hm HR HE Hh s. unfold try_catch. destruct (Hm s) as (l1 & Ht & Hr). destruct (m s) as [s1 [a|[message|]]]; cbn in *.
  - exists l1. auto.
  - destruct (Hh message l1 Hr s1) as (l2 & Ht2 & Hr2). exists (l1 ++ l2). by rewrite Ht2, Ht, app_assoc.
  - exists l1. auto.
Qed.

Lemma lift_silent {A} (f : W -> W * A) s : trace (lift f s).1 = trace s.
Proof. unfold lift. by destruct (f (world s)). Qed.
Lemma lift_throws_silent {A} (f : W -> W * result string A) s : trace (lift_throws f s).1 = trace s.
Proof. unfold lift_throws. by destruct (f (world s)). Qed.
Lemma reads_silent {A} (f : W -> A) s : trace (reads f s).1 = trace s.
Proof. done. Qed.
End does.

(** ** The life cycle of events *)

Definition event_of (a : act) : option AgentEvent := match a with Emitted e => Some e | _ => None end.
Definition events (l : list act) : list AgentEvent := omap event_of l.

Definition same_role (m m' : AgentMessage) : Prop :=
  match m with MAssistant _ => is_assistant m' = true | _ => m = m' end.

Inductive phase : Type :=
  | Idle
  | BetweenTurns
  | InTurn (running : list string)  (* the tool calls started and not ended *)
  | InMessage (m : AgentMessage)
  | Over (newMessages : list AgentMessage).

Inductive event_step : phase -> AgentEvent -> phase -> Prop :=
  | es_start : event_step Idle agent_start BetweenTurns
  | es_turn : event_step BetweenTurns turn_start (InTurn [])
  | es_message m : event_step (InTurn []) (message_start m) (InMessage m)
  | es_restart m m' : event_step (InMessage (MAssistant m)) (message_start (MAssistant m')) (InMessage (MAssistant m'))
  | es_update m m' e : event_step (InMessage (MAssistant m)) (message_update m' e) (InMessage (MAssistant m'))
  | es_message_end m m' : same_role m m' -> event_step (InMessage m) (message_end m') (InTurn [])
  | es_tool ids id name args : event_step (InTurn ids) (tool_execution_start id name args) (InTurn (id :: ids))
  | es_tool_update ids id name args r : id ∈ ids ->
      event_step (InTurn ids) (tool_execution_update id name args r) (InTurn ids)
  | es_tool_end ids ids' id name r b : ids ≡ₚ id :: ids' ->
      event_step (InTurn ids) (tool_execution_end id name r b) (InTurn ids')
  | es_turn_end m rs : event_step (InTurn []) (turn_end m rs) BetweenTurns
  | es_end ms : event_step BetweenTurns (agent_end ms) (Over ms).

Inductive event_steps : phase -> list AgentEvent -> phase -> Prop :=
  | ess_nil p : event_steps p [] p
  | ess_cons p e q es r : event_step p e q -> event_steps q es r -> event_steps p (e :: es) r.

Lemma event_steps_app p es q es' r : event_steps p es q -> event_steps q es' r -> event_steps p (es ++ es') r.
Proof. induction 1; cbn; [done|]. intros. econstructor; eauto. Qed.

(** From phase [p] the events of [m] follow the life cycle; when [m] returns they lead to [Q]. *)
Definition leads {W A} (p : phase) (m : run W A) (Q : A -> phase -> Prop) : Prop :=
  does m (fun a l => exists q, event_steps p (events l) q /\ Q a q) (fun l => exists q, event_steps p (events l) q).

Section leads.
Context {W : Type}.

Lemma leads_ret {A} p (a : A) (Q : A -> phase -> Prop) : Q a p -> leads (W := W) p (mret a) Q.
Proof. intros. apply does_ret. exists p. split; [constructor|done]. Qed.

(** What follows acts that led to [q]. *)
Lemma leads_after {B} p l1 q (m : run W B) (Q : B -> phase -> Prop) :
  event_steps p (events l1) q -> leads q m Q ->
  does m (fun b l2 => exists r, event_steps p (events (l1 ++ l2)) r /\ Q b r)
    (fun l2 => exists r, event_steps p (events (l1 ++ l2)) r).
Proof.
  intros Hl1 Hm. unfold events. eapply does_impl; [exact Hm| |]; cbv beta.
  - intros b l2 (r & ? & ?). exists r. rewrite omap_app. split; [by eapply event_steps_app|done].
  - intros l2 (r & ?). exists r. rewrite omap_app. by eapply event_steps_app.
Qed.

Lemma leads_bind {A B} p (m : run W A) (f : A -> run W B) (Q1 : A -> phase -> Prop) (Q : B -> phase -> Prop) :
  leads p m Q1 -> (forall a q, Q1 a q -> leads q (f a) Q) -> leads p (m ≫= f) Q.
Proof.
  intros Hm Hf. eapply does_bind; [exact Hm|]. intros a l1 (q & Hl1 & Hq). eapply leads_after; eauto.
Qed.

Lemma leads_impl {A} p (m : run W A) (Q Q' : A -> phase -> Prop) :
  leads p m Q -> (forall a q, Q a q -> Q' a q) -> leads p m Q'.
Proof. intros Hm HQ. eapply does_impl; [exact Hm| |done]. intros a l (q & ? & ?). eauto. Qed.

Lemma leads_silent {A} p (m : run W A) (Q : A -> phase -> Prop) :
  (forall s, trace (m s).1 = trace s) -> (forall a, Q a p) -> leads p m Q.
Proof. intros Hm HQ. apply does_silent; [done| |]; [intros a|]; exists p; (split; [constructor|done]) || constructor. Qed.

Lemma leads_fail {A} p e (Q : A -> phase -> Prop) : leads (W := W) p (fail_with e) Q.
Proof. apply does_fail. exists p. constructor. Qed.

Lemma leads_act p a (Q : unit -> phase -> Prop) : event_of a = None -> Q () p -> leads (W := W) p (act_ a) Q.
Proof. intros Ha HQ. apply does_act. exists p. unfold events. cbn. rewrite Ha. split; [constructor|done]. Qed.

Lemma leads_try {A} p (m : run W A) (h : string -> run W A) (Q : A -> phase -> Prop) :
  leads p m Q -> (forall message q, leads q (h message) Q) -> leads p (try_catch m h) Q.
Proof.
  intros Hm Hh. eapply does_try; [exact Hm|done|done|]. intros message l1 (q & Hl1). eapply leads_after; eauto.
Qed.
End leads.
