(* ===== verification/AgentLifecycle.v ===== *)
(** The events of a run follow the life cycle, whatever the outside code does,
    also when a hook throws and at every prefix of a run. *)
From S2P Require Import Prelude JsNumber JsTree Messages AgentTypes AgentTools AgentLoop.
Local Open Scope Z_scope.

(** Computations that only call outside code. *)
Definition silent {W A} (m : run W A) : Prop := forall s, trace (m s).1 = trace s.

Section silent.
Context {W : Type}.

Lemma silent_ret {A} (a : A) : silent (W := W) (mret a).
Proof. done. Qed.

Lemma silent_bind {A B} (m : run W A) (f : A -> run W B) : silent m -> (forall a, silent (f a)) -> silent (m ≫= f).
Proof.
  intros Hm Hf s. unfold mbind, run_bind. specialize (Hm s). destruct (m s) as [s' [a|e]]; cbn in *; [|done].
  by rewrite Hf.
Qed.

Lemma silent_try {A} (m : run W A) h : silent m -> (forall e, silent (h e)) -> silent (try_catch m h).
Proof.
  intros Hm Hh s. unfold try_catch. specialize (Hm s). destruct (m s) as [s' [a|[e|]]]; cbn in *; [done| |done].
  by rewrite Hh.
Qed.

Lemma silent_lift {A} (f : W -> W * A) : silent (lift f).
Proof. intros s. apply lift_silent. Qed.
Lemma silent_lift_throws {A} (f : W -> W * result string A) : silent (lift_throws f).
Proof. intros s. apply lift_throws_silent. Qed.
Lemma silent_reads {A} (f : W -> A) : silent (reads f).
Proof. done. Qed.
Lemma silent_ask {A} (hook : option (W -> W * result string A)) a : silent (ask hook a).
Proof. destruct hook; [apply silent_lift_throws|apply silent_ret]. Qed.
End silent.

Create HintDb silent.
#[export] Hint Resolve silent_ret silent_lift silent_lift_throws silent_reads silent_ask : silent.

Ltac silence :=
  repeat first
    [ apply silent_bind; [|intros ?] | apply silent_try; [|intros ?] | solve [auto with silent]
    | match goal with |- silent (match ?x with _ => _ end) => destruct x end
    | match goal with |- silent (if ?x then _ else _) => destruct x end ].

Section lifecycle.
Context {W Model Running Response : Type} (env : @Environment W Model Running Response).

Abbreviation AContext := (@AgentContext W Running).
Abbreviation Config := (@AgentLoopConfig W Model Running).
Abbreviation stays p := (fun _ q => q = p) (only parsing).

Lemma leads_emit p e q : event_step p e q -> leads p (emit_ env e) (fun _ r => r = q).
Proof.
  intros Hs. assert (event_steps p [e] q) by (econstructor; [done|constructor]). apply does_emit; [by exists q|by exists q].
Qed.

(** One command in a sequence of them. *)
Lemma leads_then {A B} p q (m : run W A) (f : A -> run W B) Q :
  leads p m (fun _ r => r = q) -> (forall a, leads q (f a) Q) -> leads p (m ≫= f) Q.
Proof. intros Hm Hf. eapply leads_bind; [exact Hm|]. intros a r ->. apply Hf. Qed.

Lemma leads_quiet {A B} p (m : run W A) (f : A -> run W B) Q :
  silent m -> (forall a, leads p (f a) Q) -> leads p (m ≫= f) Q.
Proof. intros Hm Hf. eapply leads_then; [by apply leads_silent|done]. Qed.

Lemma leads_for_each {A B} p (f : A -> run W B) l :
  (forall a, leads p (f a) (fun _ q => q = p)) -> leads p (for_each f l) (fun _ q => q = p).
Proof.
  intros Hf. induction l as [|a l IH]; cbn [for_each]; [by apply leads_ret|].
  eapply leads_then; [apply Hf|intros b]. eapply leads_then; [apply IH|intros bs]. by apply leads_ret.
Qed.

(** ** Tools *)

Lemma leads_report f : leads (InTurn []) (reportResult env f) (fun _ q => q = InTurn []).
Proof.
  unfold reportResult. apply leads_quiet; [auto with silent|intros t]. unfold emitToolResultMessage.
  eapply leads_then; [|intros _; by apply leads_ret].
  eapply leads_then; [apply leads_emit, es_message|intros _]. apply leads_emit. by apply es_message_end.
Qed.

Lemma leads_tool_start ids call :
  leads (InTurn ids) (emitToolExecutionStart env call) (fun _ q => q = InTurn (tc_id call :: ids)).
Proof. apply leads_emit, es_tool. Qed.

Lemma leads_tool_end ids ids' f : ids ≡ₚ tc_id (fo_toolCall f) :: ids' ->
  leads (InTurn ids) (emitToolExecutionEnd env f) (fun _ q => q = InTurn ids').
Proof. intros. by apply leads_emit, es_tool_end. Qed.

Lemma leads_truncated calls : leads (InTurn []) (failToolCallsFromTruncatedMessage env calls) (fun _ q => q = InTurn []).
Proof.
  unfold failToolCallsFromTruncatedMessage. eapply leads_then; [|intros ms; by apply leads_ret].
  apply leads_for_each. intros call. eapply leads_then; [apply leads_tool_start|intros _]. cbv zeta.
  eapply leads_then; [by apply (leads_tool_end _ [])|intros _]. apply leads_report.
Qed.

Lemma silent_validate (tool : @AgentTool W Running) prepared :
  silent (fun s : run_state W => (s, match tool_validateArguments tool (tc_arguments prepared) with
    | Ok a => Ok a | Err message => Err (Thrown message) end)).
Proof. done. Qed.

Lemma silent_prepare context message call (config : Config) : silent (prepareToolCall env context message call config).
Proof.
  unfold prepareToolCall. destruct (find_tool context (tc_name call)) as [tool|]; [|apply silent_ret].
  unfold prepareToolCallArguments, consultHook, is_aborted.
  apply silent_try; [|auto with silent]. apply silent_bind; [silence|intros prepared].
  apply silent_bind; [apply silent_validate|intros args]. silence.
Qed.

Lemma silent_finalize context message p executed (config : Config) :
  silent (finalizeExecutedToolCall context message p executed config).
Proof. unfold finalizeExecutedToolCall. destruct executed. silence. Qed.

(** A computation that stays in its phase also when it fails. *)
Definition keeps {A} (p : phase) (m : run W A) : Prop :=
  does m (fun _ l => event_steps p (events l) p) (fun l => event_steps p (events l) p).

Lemma keeps_bind {A B} p (m : run W A) (f : A -> run W B) : keeps p m -> (forall a, keeps p (f a)) -> keeps p (m ≫= f).
Proof.
  intros Hm Hf. eapply does_bind; [exact Hm|]. intros a l1 Hl1. unfold events. eapply does_impl; [by apply Hf| |];
    cbv beta in *; intros; rewrite omap_app; eapply event_steps_app; eassumption.
Qed.

Lemma keeps_silent {A} p (m : run W A) : silent m -> keeps p m.
Proof. intros Hm. apply does_silent; [done|intros; apply ess_nil|apply ess_nil]. Qed.

Lemma keeps_leads {A} p (m : run W A) : keeps p m -> leads p m (fun _ q => q = p).
Proof. intros Hm. eapply does_impl; [exact Hm| |]; cbv beta; eauto. Qed.

Lemma keeps_emit p e : event_step p e p -> keeps p (emit_ env e).
Proof. intros Hs. assert (event_steps p [e] p) by (econstructor; [done|constructor]). by apply does_emit. Qed.

Lemma keeps_startTool p (pc : @PreparedToolCall W Running) : keeps p (startTool pc).
Proof.
  unfold startTool. apply keeps_bind; [apply does_act, ess_nil|intros _]. apply keeps_silent. auto with silent.
Qed.

(** A handler that only returns a value keeps the phase the failure left. *)
Lemma keeps_try_ret {A} p (m : run W A) (h : string -> A) : keeps p m -> keeps p (try_catch m (fun e => mret (h e))).
Proof.
  intros Hm. eapply does_try; [exact Hm| | |]; cbv beta; [eauto..|].
  intros e l1 Hl1. apply does_ret. by rewrite app_nil_r.
Qed.

Lemma keeps_launch p (pc : @PreparedToolCall W Running) : keeps p (launchTool pc).
Proof.
  apply keeps_try_ret. apply keeps_bind; [apply keeps_startTool|intros r; apply keeps_silent; auto with silent].
Qed.

Lemma keeps_settle p rejected outcome : keeps p (settleTool (W := W) rejected outcome).
Proof. destruct rejected; cbn [settleTool]; [apply does_fail, ess_nil|apply keeps_silent; auto with silent]. Qed.

Lemma keeps_poll ids (pc : @PreparedToolCall W Running) r rejected : tc_id (pc_toolCall pc) ∈ ids ->
  keeps (InTurn ids) (pollTool env pc r rejected).
Proof.
  intros Hid. unfold pollTool. apply keeps_bind; [apply keeps_silent; auto with silent|intros [r' a]].
  destruct a; try solve [apply keeps_silent; auto with silent];
    (apply keeps_bind; [|intros o; apply keeps_silent; auto with silent]); try apply keeps_settle.
  apply keeps_try_ret. apply keeps_bind; [by apply keeps_emit, es_tool_update|intros _; apply keeps_silent; auto with silent].
Qed.

Lemma keeps_await fuel ids (pc : @PreparedToolCall W Running) r rejected : tc_id (pc_toolCall pc) ∈ ids ->
  keeps (InTurn ids) (awaitTool env fuel pc r rejected).
Proof.
  intros Hid. revert r rejected. induction fuel as [|fuel IH]; intros r rejected; cbn [awaitTool]; [apply does_fail, ess_nil|].
  apply keeps_bind; [by apply keeps_poll|intros [[r' rejected'] [o|]]]; [apply keeps_silent; auto with silent|apply IH].
Qed.

Lemma leads_execute fuel ids (pc : @PreparedToolCall W Running) : tc_id (pc_toolCall pc) ∈ ids ->
  leads (InTurn ids) (executePreparedToolCall env fuel pc) (fun _ q => q = InTurn ids).
Proof.
  intros Hid. apply keeps_leads, keeps_bind; [apply keeps_launch|intros [r|o]; [by apply keeps_await|]].
  apply keeps_silent. auto with silent.
Qed.

(** The call a prepared call is for. *)
Lemma does_weaken_calls {A} (m : run W A) (P : A -> Prop) : silent m ->
  (forall s a, (m s).2 = Ok a -> P a) -> does m (fun a l => l = [] /\ P a) (fun l => l = []).
Proof.
  intros Hm HP s. exists []. rewrite app_nil_r. split; [apply Hm|]. specialize (HP s). destruct (m s).2; eauto.
Qed.

Definition call_of_preparation (call : ToolCall) (p : @Preparation W Running) : Prop :=
  match p with Prepared pc => pc_toolCall pc = call | Immediate _ _ => True end.

Lemma prepare_call context message call (config : Config) s p :
  (prepareToolCall env context message call config s).2 = Ok p -> call_of_preparation call p.
Proof.
  unfold prepareToolCall. destruct (find_tool context (tc_name call)) as [tool|]; [|by intros [= <-]].
  unfold try_catch, mbind, run_bind. destruct (prepareToolCallArguments tool call s) as [s1 [c|[e|]]]; cbn; [|by intros [= <-]|done].
  destruct (tool_validateArguments tool (tc_arguments c)) as [args|e]; cbn; [|by intros [= <-]].
  assert (forall s1 s2 o, consultHook env context config message call args s1 = (s2, Ok (Some o)) -> call_of_preparation call o)
    as Hhook.
  { intros t1 t2 o. unfold consultHook, mbind, run_bind. destruct (beforeToolCall config) as [hook|]; [|done].
    destruct (lift_throws _ t1) as [t3 [r|e]]; cbn; [|done]. destruct (aborted env (world t3)); [by intros [= _ <-]|].
    destruct r as [r|]; [|done]. destruct (br_block r); [by intros [= _ <-]|done]. }
  specialize (Hhook s1). destruct (consultHook env context config message call args s1) as [s2 [[o|]|[e|]]]; cbn;
    [intros [= <-]; by eapply Hhook| |by intros [= <-]|done].
  destruct (aborted env (world s2)); by intros [= <-].
Qed.

Lemma finalize_call context message pc executed (config : Config) s f :
  (finalizeExecutedToolCall context message pc executed config s).2 = Ok f -> fo_toolCall f = pc_toolCall pc.
Proof.
  unfold finalizeExecutedToolCall. destruct executed as [r b]. destruct (afterToolCall config); [|by intros [= <-]].
  unfold try_catch, mbind, run_bind. destruct (lift_throws _ s) as [s1 [[after|]|[e|]]]; cbn; try done; by intros [= <-].
Qed.

(** A silent computation with a fact about its value. *)
Lemma leads_fact {A} p (m : run W A) (P : A -> Prop) :
  silent m -> (forall s a, (m s).2 = Ok a -> P a) -> leads p m (fun a q => q = p /\ P a).
Proof.
  intros Hm HP. eapply does_impl; [by apply (does_weaken_calls m P)| |]; cbv beta.
  - intros a l [-> ?]. exists p. split; [apply ess_nil|done].
  - intros l ->. exists p. apply ess_nil.
Qed.

Lemma leads_known {A B} p (m : run W A) (P : A -> Prop) (f : A -> run W B) Q :
  silent m -> (forall s a, (m s).2 = Ok a -> P a) -> (forall a, P a -> leads p (f a) Q) -> leads p (m ≫= f) Q.
Proof.
  intros Hm HP Hf. eapply leads_bind; [by apply (leads_fact p m P)|]. intros a q [-> Ha]. by apply Hf.
Qed.

Lemma leads_runToolCall fuel ids context message (config : Config) call : tc_id call ∈ ids ->
  leads (InTurn ids) (runToolCall env fuel context message config call)
    (fun f q => q = InTurn ids /\ fo_toolCall f = call).
Proof.
  intros Hid. unfold runToolCall. eapply leads_known; [apply silent_prepare|apply prepare_call|].
  intros [pc|r b] Hcall; cbn in Hcall; [|by apply leads_ret]. subst call.
  eapply leads_then; [by apply leads_execute|intros executed].
  apply leads_fact; [apply silent_finalize|intros s f; apply finalize_call].
Qed.

Lemma leads_sequential fuel context message (config : Config) calls :
  leads (InTurn []) (sequentialCalls env fuel context message config calls) (fun _ q => q = InTurn []).
Proof.
  induction calls as [|call calls IH]; cbn [sequentialCalls]; [by apply leads_ret|].
  eapply leads_then; [apply leads_tool_start|intros _].
  eapply leads_bind; [apply leads_runToolCall; left|intros f q [-> Hf]].
  eapply leads_then; [apply (leads_tool_end _ []); by rewrite Hf|intros _].
  eapply leads_then; [apply leads_report|intros m]. apply leads_quiet; [done|intros b].
  destruct b; [by apply leads_ret|]. eapply leads_then; [apply IH|intros others]. by apply leads_ret.
Qed.

(** *** Parallel batches *)

Definition task_open (t : @Task W Running) : option string :=
  match t with
  | Finished _ => None
  | Thunk p | InTool p _ _ | Ended p _ => Some (tc_id (pc_toolCall p))
  end.

Abbreviation open_ids tasks := (omap task_open tasks).

Lemma leads_finalize_task ids ids' context message (config : Config) pc executed : ids ≡ₚ tc_id (pc_toolCall pc) :: ids' ->
  leads (InTurn ids) (finalized ← finalizeExecutedToolCall context message pc executed config;
    emitToolExecutionEnd env finalized;; mret (Finished finalized))
    (fun t q => task_open t = None /\ q = InTurn ids').
Proof.
  intros Hids. eapply leads_known; [apply silent_finalize|apply finalize_call|intros f Hf].
  eapply leads_then; [apply leads_tool_end; by rewrite Hf|intros _]. by apply leads_ret.
Qed.

Lemma leads_prepareCalls ids context message (config : Config) calls :
  leads (InTurn ids) (prepareCalls env context message config calls)
    (fun tasks q => exists ids', ids' ≡ₚ open_ids tasks ++ ids /\ q = InTurn ids').
Proof.
  revert ids. induction calls as [|call calls IH]; intros ids; cbn [prepareCalls]; [apply leads_ret; eauto|].
  eapply leads_then; [apply leads_tool_start|intros _].
  eapply leads_known; [apply silent_prepare|apply prepare_call|intros preparation Hcall].
  eapply leads_bind with (Q1 := fun t q => exists ids', ids' ≡ₚ open_ids [t] ++ ids /\ q = InTurn ids').
  - destruct preparation as [pc|r b]; [apply leads_ret; cbn in Hcall |- *; subst; eauto|].
    eapply leads_then; [by apply (leads_tool_end _ ids)|intros _]. apply leads_ret. by exists ids.
  - intros t q (ids1 & Hids1 & ->). apply leads_quiet; [done|intros [|]]; [apply leads_ret; eauto|].
    eapply leads_bind; [apply IH|intros tasks q (ids2 & Hids2 & ->)]. apply leads_ret. exists ids2. split; [|done].
    change (t :: tasks) with ([t] ++ tasks). rewrite omap_app, Hids2, Hids1, !app_assoc. f_equiv. apply Permutation_app_comm.
Qed.

Lemma leads_startTask ids t : leads (InTurn ids) (startTask t) (fun t' q => q = InTurn ids /\ task_open t' = task_open t).
Proof.
  destruct t as [f|pc|pc r rejected|pc e]; cbn [startTask]; try by apply leads_ret.
  eapply leads_then; [apply keeps_leads, keeps_launch|intros [r|o]]; by apply leads_ret.
Qed.

Lemma leads_startTasks ids tasks :
  leads (InTurn ids) (for_each startTask tasks) (fun tasks' q => q = InTurn ids /\ open_ids tasks' = open_ids tasks).
Proof.
  induction tasks as [|t tasks IH]; cbn [for_each]; [by apply leads_ret|].
  eapply leads_bind; [apply leads_startTask|intros t' q [-> Ht]].
  eapply leads_bind; [apply IH|intros tasks' q [-> Hts]]. apply leads_ret. split; [done|]. cbn. by rewrite Ht, Hts.
Qed.

Lemma leads_stepTask ids rest context message (config : Config) t : ids ≡ₚ open_ids [t] ++ rest ->
  leads (InTurn ids) (stepTask env context message config t)
    (fun t' q => exists ids', ids' ≡ₚ open_ids [t'] ++ rest /\ q = InTurn ids').
Proof.
  intros Hids. destruct t as [f|pc|pc r rejected|pc e]; cbn [stepTask].
  - apply leads_ret. eauto.
  - eapply leads_impl; [apply leads_startTask|]. intros t' q [-> Ht']. exists ids. split; [|done].
    rewrite Hids. cbn. by rewrite Ht'.
  - assert (tc_id (pc_toolCall pc) ∈ ids) as Hin by (rewrite Hids; left).
    eapply leads_then; [by apply keeps_leads, keeps_poll|intros [[r' rejected'] [o|]]]; apply leads_ret; eauto.
  - eapply leads_impl; [by apply (leads_finalize_task ids rest)|]. intros t' q [Ht' ->]. exists rest. cbn. by rewrite Ht'.
Qed.

Lemma open_insert (tasks : list (@Task W Running)) i t : tasks !! i = Some t ->
  exists rest, open_ids tasks ≡ₚ open_ids [t] ++ rest /\
    forall t', open_ids (<[i := t']> tasks) ≡ₚ open_ids [t'] ++ rest.
Proof.
  intros Hi. exists (open_ids (take i tasks) ++ open_ids (drop (Datatypes.S i) tasks)).
  split; [|intros t'; rewrite insert_take_drop by (by eapply lookup_lt_Some)].
  - rewrite <-(take_drop_middle tasks i t Hi) at 1.
    change (t :: drop (Datatypes.S i) tasks) with ([t] ++ drop (Datatypes.S i) tasks).
    rewrite !omap_app. apply Permutation_app_swap_app.
  - change (t' :: drop (Datatypes.S i) tasks) with ([t'] ++ drop (Datatypes.S i) tasks).
    rewrite !omap_app. apply Permutation_app_swap_app.
Qed.

Lemma pick_task_Some k (tasks : list (@Task W Running)) i t : pick_task k tasks = Some (i, t) -> tasks !! i = Some t /\ finished t = None.
Proof.
  unfold pick_task. intros Hp%list_elem_of_lookup_2%list_elem_of_In%filter_In. destruct Hp as [Hin Hf].
  apply list_elem_of_In, elem_of_lookup_imap in Hin as (j & u & [= <- <-] & Hj). split; [done|]. cbn in Hf.
  by destruct (finished t).
Qed.

Lemma all_finished (tasks : list (@Task W Running)) fs : mapM finished tasks = Some fs -> open_ids tasks = [].
Proof.
  rewrite mapM_Some. induction 1 as [|t f tasks fs Ht _ IH]; [done|]. cbn. by destruct t.
Qed.

Lemma leads_joinTasks fuel ids context message (config : Config) tasks : ids ≡ₚ open_ids tasks ->
  leads (InTurn ids) (joinTasks env fuel context message config tasks) (fun _ q => q = InTurn []).
Proof.
  revert ids tasks. induction fuel as [|fuel IH]; intros ids tasks Hids; cbn [joinTasks];
    (destruct (mapM finished tasks) as [fs|] eqn:Hfs;
     [apply all_finished in Hfs; rewrite Hfs in Hids; apply Permutation_nil_r in Hids as ->; by apply leads_ret|]).
  - apply leads_fail.
  - apply leads_quiet; [auto with silent|intros k]. destruct (pick_task k tasks) as [[i t]|] eqn:Hk; [|apply leads_fail].
    apply pick_task_Some in Hk as [Hi _].
    destruct (open_insert tasks i t Hi) as (rest & Hopen & Hinsert).
    eapply leads_bind with (Q1 := fun t' q => exists ids', ids' ≡ₚ open_ids (<[i := t']> tasks) /\ q = InTurn ids').
    + eapply leads_impl; [apply (leads_stepTask _ rest); by rewrite Hids|].
      intros t' q (ids' & Hids' & ->). exists ids'. split; [by rewrite Hids', Hinsert|done].
    + intros t' q (ids' & Hids' & ->). by apply IH.
Qed.

Lemma leads_reports fs : leads (InTurn []) (for_each (reportResult env) fs) (fun _ q => q = InTurn []).
Proof. apply leads_for_each, leads_report. Qed.

Lemma leads_parallel fuel context message (config : Config) calls :
  leads (InTurn []) (executeToolCallsParallel env fuel context message calls config) (fun _ q => q = InTurn []).
Proof.
  unfold executeToolCallsParallel. eapply leads_bind; [apply leads_prepareCalls|intros tasks q (ids & Hids & ->)].
  eapply leads_bind; [apply leads_startTasks|intros started q [-> Hs]].
  eapply leads_then; [apply leads_joinTasks; by rewrite Hids, Hs, app_nil_r|intros fs].
  eapply leads_then; [apply leads_reports|intros ms]. by apply leads_ret.
Qed.

Lemma leads_batch fuel context message (config : Config) :
  leads (InTurn []) (runBatch env fuel context message config) (fun _ q => q = InTurn []).
Proof.
  unfold runBatch. destruct (toolCalls (am_content message)) as [|call calls] eqn:Hc; [by apply leads_ret|].
  eapply leads_then; [|intros batch; by apply leads_ret].
  destruct (bool_decide _); [apply leads_truncated|]. unfold executeToolCalls. cbv zeta. destruct (_ || _); [|apply leads_parallel].
  eapply leads_then; [apply leads_sequential|intros fs]. by apply leads_ret.
Qed.

(** ** The loop *)

Lemma leads_announce ms :
  leads (InTurn []) (for_each (fun m => emit_ env (message_start m);; emit_ env (message_end m)) ms) (fun _ q => q = InTurn []).
Proof.
  apply leads_for_each. intros m. eapply leads_then; [apply leads_emit, es_message|intros _]. apply leads_emit, es_message_end.
  by destruct m.
Qed.

Lemma leads_take p hook : leads (W := W) p (take_messages hook) (fun _ q => q = p).
Proof.
  unfold take_messages. apply leads_quiet; [auto with silent|intros [|m ms]]; [by apply leads_ret|].
  eapply leads_then; [by apply leads_act|intros _; by apply leads_ret].
Qed.

(** Between the start of a message and its end, or before the start. *)
Definition response_phase (addedPartial : bool) (p : phase) : Prop :=
  if addedPartial then exists m, p = InMessage (MAssistant m) else p = InTurn [].

Lemma leads_finishResponse p response added context : response_phase added p ->
  leads p (finishResponse env response added context) (fun _ q => q = InTurn []).
Proof.
  intros Hp. unfold finishResponse. apply leads_quiet; [auto with silent|intros final]. cbv zeta.
  destruct added; cbn in Hp; [destruct Hp as [m ->]|subst p].
  - eapply leads_then; [by apply leads_ret|intros _].
    eapply leads_then; [by apply leads_emit, es_message_end|intros _]. by apply leads_ret.
  - eapply leads_then; [apply leads_emit, es_message|intros _].
    eapply leads_then; [by apply leads_emit, es_message_end|intros _]. by apply leads_ret.
Qed.

Lemma leads_consume fuel p response partial added context :
  (is_Some partial -> added = true) -> response_phase added p ->
  leads p (consumeResponse env fuel response partial added context) (fun _ q => q = InTurn []).
Proof.
  revert p partial added context. induction fuel as [|fuel IH]; intros p partial added context Hpa Hp; cbn [consumeResponse];
    [apply leads_fail|].
  apply leads_quiet; [auto with silent|intros [[m|k i m|m|m]|]]; try by apply leads_finishResponse.
  - eapply leads_then with (q := InMessage (MAssistant m)); [|intros _; apply IH; cbn; eauto].
    apply leads_emit. destruct added; cbn in Hp; [destruct Hp as [m0 ->]; apply es_restart|subst; apply es_message].
  - destruct partial as [m0|]; [|by apply IH]. rewrite Hpa in Hp |- * by eauto. destruct Hp as [m1 ->].
    eapply leads_then; [apply leads_emit, es_update|intros _]. apply IH; cbn; eauto.
Qed.

Lemma leads_stream fuel context (config : Config) :
  leads (InTurn []) (streamAssistantResponse env fuel context config) (fun _ q => q = InTurn []).
Proof.
  unfold streamAssistantResponse. apply leads_quiet; [silence|intros ms].
  apply leads_quiet; [auto with silent|intros llm]. apply leads_quiet; [silence|intros key]. cbv zeta.
  eapply leads_then; [by apply leads_act|intros _]. apply leads_quiet; [auto with silent|intros response].
  apply leads_consume; [by intros []|done].
Qed.

Abbreviation Loop := (@LoopState W Model Running).

Lemma leads_prepareTurn p (s : Loop) :
  leads p (prepareTurn s) (fun s' q => q = p /\ firstTurn s' = firstTurn s).
Proof.
  unfold prepareTurn. destruct (lastCompletedTurn s) as [t|]; [|by apply leads_ret].
  apply leads_quiet; [auto with silent|intros u].
  destruct (match u with Some _ => _ | None => _ end) as [context c].
  eapply leads_then with (q := p); [|intros pending; by apply leads_ret].
  destruct (pendingMessages s); [apply leads_take|by apply leads_ret].
Qed.

Lemma leads_inject (s : Loop) : leads (InTurn []) (injectPending env s) (fun s' q => q = InTurn [] /\ firstTurn s' = firstTurn s).
Proof. unfold injectPending. eapply leads_then; [apply leads_announce|intros _]. by apply leads_ret. Qed.

(** A turn that ends the run leaves it over, another between turns. *)
Definition after_turn (result : Loop * bool) (q : phase) : Prop :=
  firstTurn result.1 = false /\ q = if result.2 then Over (newMessages result.1) else BetweenTurns.

Lemma leads_finishTurn fuel (s : Loop) message context ms :
  leads (InTurn []) (finishTurn env fuel s message context ms) after_turn.
Proof.
  unfold finishTurn. eapply leads_then; [apply leads_batch|intros [results more]].
  eapply leads_then; [apply leads_emit, es_turn_end|intros _]. apply leads_quiet; [auto with silent|intros stop].
  destruct stop.
  - eapply leads_then; [apply leads_emit, es_end|intros _]. by apply leads_ret.
  - eapply leads_then; [apply leads_take|intros pending]. by apply leads_ret.
Qed.

Definition turn_phase (s : Loop) : phase := if firstTurn s then InTurn [] else BetweenTurns.

Lemma leads_turn fuel (s : Loop) : leads (turn_phase s) (turn env fuel s) after_turn.
Proof.
  unfold turn, turn_phase. eapply leads_then with (q := InTurn []).
  - destruct (firstTurn s); [by apply leads_ret|].
    eapply leads_bind; [apply leads_prepareTurn|intros s1 q [-> _]].
    eapply leads_then; [apply leads_emit, es_turn|intros _]. by apply leads_ret.
  - intros s1. eapply leads_bind; [apply leads_inject|intros s2 q [-> _]].
    eapply leads_then; [apply leads_stream|intros [message context]]. destruct (_ || _); [|apply leads_finishTurn].
    eapply leads_then; [apply leads_emit, es_turn_end|intros _].
    eapply leads_then; [apply leads_emit, es_end|intros _]. by apply leads_ret.
Qed.

(** The inner loop does run when it is entered with the flag set: after it a turn has passed. *)
Lemma leads_inner_entered fuel n (s : Loop) : hasMoreToolCalls s = true ->
  leads (turn_phase s) (innerLoop env fuel n s)
    (fun r q => if r.2 then q = Over (newMessages r.1) else q = BetweenTurns /\ firstTurn r.1 = false).
Proof.
  intros Hs. destruct n as [|n]; cbn [innerLoop]; unfold turn_needed at 1; rewrite Hs; cbn [orb]; [apply leads_fail|].
  eapply leads_bind; [apply leads_turn|intros [s1 [|]] q [Hf ->]]; cbn in Hf |- *; [by apply leads_ret|].
  enough (forall n (s : Loop), firstTurn s = false -> leads BetweenTurns (innerLoop env fuel n s)
    (fun r q => if r.2 then q = Over (newMessages r.1) else q = BetweenTurns /\ firstTurn r.1 = false)) as Hrest by by apply Hrest.
  clear. intros n. induction n as [|n IH]; intros s Hs; cbn [innerLoop]; (destruct (turn_needed s); [|by apply leads_ret]).
  - apply leads_fail.
  - eapply leads_bind with (Q1 := after_turn).
    + assert (BetweenTurns = turn_phase s) as -> by (unfold turn_phase; by rewrite Hs). apply leads_turn.
    + intros [s' [|]] q [Hf ->]; cbn in *; [by apply leads_ret|by apply IH].
Qed.

Lemma leads_outer fuel n (s : Loop) : leads (turn_phase s) (outerLoop env fuel n s) (fun s' q => q = Over (newMessages s')).
Proof.
  revert s. induction n as [|n IH]; intros s; cbn [outerLoop]; [apply leads_fail|].
  set (s0 := mkLoop (currentContext s) (config s) (newMessages s) (firstTurn s) (lastCompletedTurn s) (pendingMessages s) true).
  change (turn_phase s) with (turn_phase s0).
  eapply leads_bind; [by apply leads_inner_entered|intros [s' [|]] q Hq]; cbn in Hq; [subst; by apply leads_ret|].
  destruct Hq as [-> Hf]. eapply leads_then; [apply leads_take|intros [|m ms]].
  - eapply leads_then; [apply leads_emit, es_end|intros _]. by apply leads_ret.
  - assert (BetweenTurns = turn_phase (mkLoop (currentContext s') (config s') (newMessages s') (firstTurn s')
      (lastCompletedTurn s') (m :: ms) (hasMoreToolCalls s'))) as -> by (unfold turn_phase; cbn; by rewrite Hf).
    apply IH.
Qed.

Lemma leads_runLoop fuel context ms (c : Config) :
  leads (InTurn []) (runLoop env fuel context ms c) (fun s' q => q = Over (newMessages s')).
Proof.
  unfold runLoop. eapply leads_then; [apply leads_take|intros pending].
  exact (leads_outer fuel fuel (mkLoop context c ms true None pending true)).
Qed.

Lemma leads_runAgentLoop fuel prompts context (c : Config) :
  leads Idle (runAgentLoop env fuel prompts context c) (fun ms q => q = Over ms).
Proof.
  unfold runAgentLoop. eapply leads_then; [apply leads_emit, es_start|intros _].
  eapply leads_then; [apply leads_emit, es_turn|intros _]. eapply leads_then; [apply leads_announce|intros _].
  eapply leads_bind; [apply leads_runLoop|intros s q ->]. by apply leads_ret.
Qed.

Lemma leads_continue fuel context (c : Config) :
  leads Idle (runAgentLoopContinue env fuel context c) (fun ms q => q = Over ms).
Proof.
  unfold runAgentLoopContinue, assertCanContinue. destruct (last (messages context)) as [m|]; [destruct (is_assistant m)|].
  1,3: by apply (leads_bind _ _ _ (fun _ _ => False)); [apply leads_fail|].
  eapply leads_then; [by apply leads_ret|intros _]. eapply leads_then; [apply leads_emit, es_start|intros _].
  eapply leads_then; [apply leads_emit, es_turn|intros _].
  eapply leads_bind; [apply leads_runLoop|intros s q ->]. by apply leads_ret.
Qed.
End lifecycle.
