(* ===== verification/AgentTranscript.v ===== *)
(** The transcript of a run: which messages a run that returns has produced, and
    that nothing taken from a queue is lost. *)
From S2P Require Import Prelude JsNumber JsTree Messages AgentTypes AgentTools AgentLoop AgentLifecycle.
Local Open Scope Z_scope.

Definition ended_message (a : act) : option AgentMessage := match a with Emitted (message_end m) => Some m | _ => None end.

(** The messages announced as complete, those taken from the queues, and the
    calls whose tool was started. *)
Definition ended (l : list act) : list AgentMessage := omap ended_message l.
Definition took (l : list act) : list AgentMessage := flat_map (fun a => match a with Took ms => ms | _ => [] end) l.
Definition started_tools (l : list act) : list string :=
  omap (fun a => match a with Executed id => Some id | _ => None end) l.

Lemma ended_app l l' : ended (l ++ l') = ended l ++ ended l'.
Proof. apply omap_app. Qed.
Lemma took_app l l' : took (l ++ l') = took l ++ took l'.
Proof. apply flat_map_app. Qed.

(** One turn: what was injected before the request, the answer, and the results of its calls. *)
Record TurnLog := mkTurnLog {
  tl_injected : list AgentMessage;
  tl_message : AssistantMessage;
  tl_results : list ToolResultMessage;
}.

Definition turn_messages (t : TurnLog) : list AgentMessage :=
  tl_injected t ++ MAssistant (tl_message t) :: map MToolResult (tl_results t).

Definition failed_answer (m : AssistantMessage) : bool :=
  bool_decide (am_stopReason m = SRerror) || bool_decide (am_stopReason m = SRaborted).

Definition call_key (c : ToolCall) : string * string := (tc_id c, tc_name c).
Definition result_key (m : ToolResultMessage) : string * string := (tr_toolCallId m, tr_toolName m).

Section transcript.
Context {W Model Running Response : Type} (env : @Environment W Model Running Response).

Abbreviation AContext := (@AgentContext W Running).
Abbreviation Config := (@AgentLoopConfig W Model Running).
Abbreviation Loop := (@LoopState W Model Running).

Definition never_aborted : Prop := forall w, aborted env w = false.

(** The results answer the calls in order; all of them unless the run is aborted. *)
Definition answers (calls : list ToolCall) (results : list ToolResultMessage) : Prop :=
  map result_key results `prefix_of` map call_key calls /\
  (never_aborted -> map result_key results = map call_key calls).

Definition turn_ok (t : TurnLog) : Prop :=
  let m := tl_message t in
  if failed_answer m then tl_results t = []
  else answers (toolCalls (am_content m)) (tl_results t) /\
    (am_stopReason m = SRlength ->
       map result_key (tl_results t) = map call_key (toolCalls (am_content m)) /\
       Forall (fun r => tr_isError r = true) (tl_results t)).

(** When [m] returns, [R] relates its value, the messages it completed and those it took. *)
Definition gives {A} (m : run W A) (R : A -> list AgentMessage -> list AgentMessage -> Prop) : Prop :=
  does m (fun a l => R a (ended l) (took l)) (fun _ => True).

Lemma gives_ret {A} (a : A) (R : A -> list AgentMessage -> list AgentMessage -> Prop) : R a [] [] -> gives (mret a) R.
Proof. intros HR. apply does_ret. exact HR. Qed.

Lemma gives_bind {A B} (m : run W A) (f : A -> run W B) R1 (R : B -> list AgentMessage -> list AgentMessage -> Prop) :
  gives m R1 -> (forall a e t, R1 a e t -> gives (f a) (fun b e' t' => R b (e ++ e') (t ++ t'))) -> gives (m ≫= f) R.
Proof.
  intros Hm Hf. eapply does_bind; [exact Hm|]. intros a l1 Ha. cbv beta in Ha. eapply does_impl; [by eapply Hf| |done]. cbv beta.
  intros b l2. by rewrite ended_app, took_app.
Qed.

Lemma gives_impl {A} (m : run W A) (R R' : A -> list AgentMessage -> list AgentMessage -> Prop) :
  gives m R -> (forall a e t, R a e t -> R' a e t) -> gives m R'.
Proof. intros Hm HR. eapply does_impl; [exact Hm| |done]. cbv beta. auto. Qed.

Lemma gives_fail {A} e (R : A -> list AgentMessage -> list AgentMessage -> Prop) : gives (fail_with e) R.
Proof. by apply does_fail. Qed.

Lemma gives_fact {A} (m : run W A) (P : A -> Prop) :
  silent m -> (forall s a, (m s).2 = Ok a -> P a) -> gives m (fun a e t => e = [] /\ t = [] /\ P a).
Proof.
  intros Hm HP. eapply does_impl; [by apply (does_weaken_calls m P)| |done]. cbv beta. by intros a l [-> ?].
Qed.

(** A silent computation with a fact about its value, then another. *)
Lemma gives_known {A B} (m : run W A) (P : A -> Prop) (f : A -> run W B) R :
  silent m -> (forall s a, (m s).2 = Ok a -> P a) -> (forall a, P a -> gives (f a) R) -> gives (m ≫= f) R.
Proof. intros Hm HP Hf. eapply gives_bind; [by apply (gives_fact m P)|]. intros a e t (-> & -> & Ha). by apply Hf. Qed.

Lemma gives_silent {A B} (m : run W A) (f : A -> run W B) R : silent m -> (forall a, gives (f a) R) -> gives (m ≫= f) R.
Proof. intros Hm Hf. by eapply (gives_known m (fun _ => True)). Qed.

Lemma gives_aborted {A} (f : bool -> run W A) R :
  (forall b, (never_aborted -> b = false) -> gives (f b) R) -> gives (is_aborted env ≫= f) R.
Proof. intros Hf. eapply gives_known; [done| |exact Hf]. intros s b [= <-] Hn. apply Hn. Qed.

(** Computations that complete no message and take none, also when they fail. *)
Definition hushed {A} (m : run W A) : Prop :=
  does m (fun _ l => ended l = [] /\ took l = []) (fun l => ended l = [] /\ took l = []).

Lemma hushed_app l l' : ended l = [] /\ took l = [] -> ended l' = [] /\ took l' = [] -> ended (l ++ l') = [] /\ took (l ++ l') = [].
Proof. intros [H1 H2] [H3 H4]. by rewrite ended_app, took_app, H1, H2, H3, H4. Qed.

Lemma hushed_bind {A B} (m : run W A) (f : A -> run W B) : hushed m -> (forall a, hushed (f a)) -> hushed (m ≫= f).
Proof.
  intros Hm Hf. eapply does_bind; [exact Hm|]. intros a l1 Hl1. cbv beta in Hl1.
  eapply does_impl; [apply Hf| |]; cbv beta; intros; by apply hushed_app.
Qed.

Lemma hushed_silent {A} (m : run W A) : silent m -> hushed m.
Proof. intros Hm. by apply does_silent. Qed.

Lemma hushed_try {A} (m : run W A) (h : string -> run W A) : hushed m -> (forall e, hushed (h e)) -> hushed (try_catch m h).
Proof.
  intros Hm Hh. eapply does_try; [exact Hm|done|done|]. intros e l1 Hl1. cbv beta in Hl1.
  eapply does_impl; [apply Hh| |]; cbv beta; intros; by apply hushed_app.
Qed.

Lemma hushed_emit e : ended_message (Emitted e) = None -> hushed (emit_ env e).
Proof. intros He. assert (ended [Emitted e] = []) by (unfold ended; cbn [omap list_omap]; by rewrite He). by apply does_emit. Qed.

Lemma hushed_act a : ended_message a = None -> took [a] = [] -> hushed (act_ a).
Proof. intros Ha Ht. apply does_act. split; [|done]. unfold ended. cbn [omap list_omap]. by rewrite Ha. Qed.

Lemma gives_hushed {A} (m : run W A) : hushed m -> gives m (fun _ e t => e = [] /\ t = []).
Proof. intros Hm. by eapply does_impl. Qed.

(** A hushed command first. *)
Lemma gives_then {A B} (m : run W A) (f : A -> run W B) R : hushed m -> (forall a, gives (f a) R) -> gives (m ≫= f) R.
Proof. intros Hm Hf. eapply gives_bind; [by apply gives_hushed|]. intros a e t [-> ->]. apply Hf. Qed.

Lemma gives_message_end m : gives (emit_ env (message_end m)) (fun _ e t => e = [m] /\ t = []).
Proof. by apply does_emit. Qed.

(** *** Tools *)

Lemma hushed_start (pc : @PreparedToolCall W Running) : hushed (startTool pc).
Proof. apply hushed_bind; [by apply hushed_act|intros _]. apply hushed_silent. auto with silent. Qed.

Lemma hushed_launch (pc : @PreparedToolCall W Running) : hushed (launchTool pc).
Proof.
  apply hushed_try; [apply hushed_bind; [apply hushed_start|]|]; intros; apply hushed_silent; auto with silent.
Qed.

Lemma hushed_settle rejected outcome : hushed (settleTool (W := W) rejected outcome).
Proof. destruct rejected; cbn [settleTool]; [by apply does_fail|apply hushed_silent; auto with silent]. Qed.

Lemma hushed_poll (pc : @PreparedToolCall W Running) r rejected : hushed (pollTool env pc r rejected).
Proof.
  unfold pollTool. apply hushed_bind; [apply hushed_silent; auto with silent|intros [r' a]].
  destruct a; try (apply hushed_silent; solve [auto with silent]);
    (apply hushed_bind; [|intros o; apply hushed_silent; auto with silent]); try apply hushed_settle.
  apply hushed_try; [apply hushed_bind; [by apply hushed_emit|]|]; intros; apply hushed_silent; auto with silent.
Qed.

Lemma hushed_await fuel (pc : @PreparedToolCall W Running) r rejected : hushed (awaitTool env fuel pc r rejected).
Proof.
  revert r rejected. induction fuel as [|fuel IH]; intros r rejected; cbn [awaitTool]; [by apply does_fail|].
  apply hushed_bind; [apply hushed_poll|intros [[r' rejected'] [o|]]]; [apply hushed_silent; auto with silent|apply IH].
Qed.

Lemma hushed_execute fuel (pc : @PreparedToolCall W Running) : hushed (executePreparedToolCall env fuel pc).
Proof.
  apply hushed_bind; [apply hushed_launch|intros [r|o]; [apply hushed_await|]]. apply hushed_silent. auto with silent.
Qed.

(** The result of a finalized call, announced. *)
Lemma gives_report f : gives (reportResult env f)
  (fun m e t => e = [MToolResult m] /\ t = [] /\ result_key m = call_key (fo_toolCall f) /\ tr_isError m = fo_isError f).
Proof.
  unfold reportResult. apply gives_silent; [done|intros t]. cbv zeta. unfold emitToolResultMessage.
  eapply gives_bind; [apply gives_then; [by apply hushed_emit|intros _; apply gives_message_end]|].
  intros _ e t' [-> ->]. by apply gives_ret.
Qed.

Lemma gives_reports fs : gives (for_each (reportResult env) fs)
  (fun ms e t => e = map MToolResult ms /\ t = [] /\ map result_key ms = map (fun f => call_key (fo_toolCall f)) fs).
Proof.
  induction fs as [|f fs IH]; cbn [for_each]; [by apply gives_ret|].
  eapply gives_bind; [apply gives_report|intros m e1 t1 (-> & -> & Hk1 & _)].
  eapply gives_bind; [apply IH|intros ms e2 t2 (-> & -> & Hk2)]. apply gives_ret. cbn. by rewrite Hk1, Hk2, app_nil_r.
Qed.

Lemma gives_truncated calls : gives (failToolCallsFromTruncatedMessage env calls)
  (fun b e t => e = map MToolResult (batch_messages b) /\ t = [] /\
    map result_key (batch_messages b) = map call_key calls /\ Forall (fun r => tr_isError r = true) (batch_messages b)).
Proof.
  unfold failToolCallsFromTruncatedMessage. eapply gives_bind with (R1 := fun ms e t => e = map MToolResult ms /\ t = [] /\
    map result_key ms = map call_key calls /\ Forall (fun r => tr_isError r = true) ms).
  2:{ intros ms e t H. apply gives_ret. by rewrite !app_nil_r. }
  induction calls as [|call calls IH]; cbn [for_each]; [by apply gives_ret|].
  eapply gives_bind with (R1 := fun m e t => e = [MToolResult m] /\ t = [] /\ result_key m = call_key call /\ tr_isError m = true).
  - apply gives_then; [by apply hushed_emit|intros _]. cbv zeta. apply gives_then; [by apply hushed_emit|intros _].
    eapply gives_impl; [apply gives_report|done].
  - intros m e1 t1 (-> & -> & Hk1 & Hr1). eapply gives_bind; [apply IH|intros ms e2 t2 (-> & -> & Hk2 & Hr2)].
    apply gives_ret. cbn. rewrite Hk1, Hk2, app_nil_r. split_and!; try done. by constructor.
Qed.

Lemma gives_finalize context message pc executed (config : Config) :
  gives (finalizeExecutedToolCall context message pc executed config)
    (fun f e t => e = [] /\ t = [] /\ fo_toolCall f = pc_toolCall pc).
Proof. apply gives_fact; [apply silent_finalize|intros s f; apply finalize_call]. Qed.

Lemma gives_runToolCall fuel context message (config : Config) call :
  gives (runToolCall env fuel context message config call) (fun f e t => e = [] /\ t = [] /\ fo_toolCall f = call).
Proof.
  unfold runToolCall. eapply gives_known; [apply silent_prepare|apply prepare_call|].
  intros [pc|r b] Hcall; cbn in Hcall; [subst call|by apply gives_ret].
  apply gives_then; [apply hushed_execute|intros executed]. apply gives_finalize.
Qed.

Lemma answers_cons call calls m ms : result_key m = call_key call -> answers calls ms -> answers (call :: calls) (m :: ms).
Proof. intros Hm [Hp Hall]. unfold answers. cbn. rewrite Hm. split; [by apply prefix_cons|]. intros Hn. by rewrite Hall. Qed.

Lemma answers_stop call calls m : result_key m = call_key call -> (never_aborted -> False) -> answers (call :: calls) [m].
Proof. intros Hm Hn. unfold answers. cbn. rewrite Hm. split; [apply prefix_cons, prefix_nil|]. by intros ?%Hn. Qed.

Lemma gives_sequential fuel context message (config : Config) calls :
  gives (sequentialCalls env fuel context message config calls)
    (fun r e t => e = map MToolResult r.2 /\ t = [] /\ answers calls r.2).
Proof.
  induction calls as [|call calls IH]; cbn [sequentialCalls]; [by apply gives_ret|].
  apply gives_then; [by apply hushed_emit|intros _].
  eapply gives_bind; [apply gives_runToolCall|intros f e1 t1 (-> & -> & Hf)].
  apply gives_then; [by apply hushed_emit|intros _].
  eapply gives_bind; [apply gives_report|intros m e2 t2 (-> & -> & Hk & _)]. rewrite Hf in Hk.
  apply gives_aborted. intros [|] Hb.
  - apply gives_ret. cbn. split; [done|split; [done|]]. apply answers_stop; [done|]. intros Hn. by specialize (Hb Hn).
  - eapply gives_bind; [apply IH|intros [fs ms] e3 t3 (-> & -> & Ha)]. apply gives_ret. cbn in *. rewrite app_nil_r.
    split; [done|split; [done|]]. by apply answers_cons.
Qed.

Definition task_call (t : @Task W Running) : ToolCall :=
  match t with Finished f => fo_toolCall f | Thunk p | InTool p _ _ | Ended p _ => pc_toolCall p end.

Lemma gives_prepareCalls context message (config : Config) calls :
  gives (prepareCalls env context message config calls)
    (fun tasks e t => e = [] /\ t = [] /\ map task_call tasks `prefix_of` calls /\ (never_aborted -> map task_call tasks = calls)).
Proof.
  induction calls as [|call calls IH]; cbn [prepareCalls]; [by apply gives_ret|].
  apply gives_then; [by apply hushed_emit|intros _].
  eapply gives_known; [apply silent_prepare|apply prepare_call|intros preparation Hcall].
  eapply gives_bind with (R1 := fun t e t' => e = [] /\ t' = [] /\ task_call t = call).
  { destruct preparation as [pc|r b]; [by apply gives_ret|].
    apply gives_then; [by apply hushed_emit|intros _]. by apply gives_ret. }
  intros task e1 t1 (-> & -> & Ht). apply gives_aborted. intros [|] Hb.
  - apply gives_ret. cbn. rewrite Ht. split; [done|split; [done|split]]; [apply prefix_cons, prefix_nil|].
    intros Hn. by specialize (Hb Hn).
  - eapply gives_bind; [apply IH|intros tasks e2 t2 (-> & -> & Hp & Hall)]. apply gives_ret. cbn. rewrite Ht.
    split; [done|split; [done|split]]; [by apply prefix_cons|]. intros Hn. by rewrite Hall.
Qed.

Lemma gives_startTask t : gives (startTask t) (fun t' e t0 => e = [] /\ t0 = [] /\ task_call t' = task_call t).
Proof.
  destruct t as [f|pc|pc r rejected|pc o]; cbn [startTask]; try by apply gives_ret.
  apply gives_then; [apply hushed_launch|intros [r|o]]; by apply gives_ret.
Qed.

Lemma gives_startTasks tasks :
  gives (for_each startTask tasks) (fun tasks' e t => e = [] /\ t = [] /\ map task_call tasks' = map task_call tasks).
Proof.
  induction tasks as [|t tasks IH]; cbn [for_each]; [by apply gives_ret|].
  eapply gives_bind; [apply gives_startTask|intros t' e1 t1 (-> & -> & Ht)].
  eapply gives_bind; [apply IH|intros tasks' e2 t2 (-> & -> & Hts)]. apply gives_ret. cbn. by rewrite Ht, Hts.
Qed.

Lemma gives_stepTask context message (config : Config) t :
  gives (stepTask env context message config t) (fun t' e t0 => e = [] /\ t0 = [] /\ task_call t' = task_call t).
Proof.
  destruct t as [f|pc|pc r rejected|pc o]; [by apply gives_ret|apply gives_startTask| |]; cbn [stepTask].
  - apply gives_then; [apply hushed_poll|intros [[r' rejected'] [o|]]]; by apply gives_ret.
  - eapply gives_bind; [apply gives_finalize|intros f e1 t1 (-> & -> & Hf)].
    apply gives_then; [by apply hushed_emit|intros _]. by apply gives_ret.
Qed.

Lemma finished_calls (tasks : list (@Task W Running)) fs : mapM finished tasks = Some fs -> map fo_toolCall fs = map task_call tasks.
Proof.
  rewrite mapM_Some. induction 1 as [|t f tasks fs Ht _ IH]; [done|]. cbn. rewrite IH. destruct t; by simplify_eq/=.
Qed.

Lemma gives_joinTasks fuel context message (config : Config) tasks :
  gives (joinTasks env fuel context message config tasks)
    (fun fs e t => e = [] /\ t = [] /\ map fo_toolCall fs = map task_call tasks).
Proof.
  revert tasks. induction fuel as [|fuel IH]; intros tasks; cbn [joinTasks];
    (destruct (mapM finished tasks) as [fs|] eqn:Hfs; [apply gives_ret; by rewrite (finished_calls _ _ Hfs)|]).
  - apply gives_fail.
  - apply gives_silent; [auto with silent|intros k]. destruct (pick_task k tasks) as [[i t]|] eqn:Hk; [|apply gives_fail].
    apply pick_task_Some in Hk as [Hi _].
    eapply gives_bind; [apply gives_stepTask|intros t' e1 t1 (-> & -> & Ht')].
    eapply gives_impl; [apply IH|]. cbv beta. intros fs e t0 (-> & -> & ->). split; [done|split; [done|]].
    change (map task_call) with (fmap (M := list) task_call). rewrite list_fmap_insert. apply list_insert_id.
    by rewrite list_lookup_fmap, Hi, Ht'.
Qed.

Lemma gives_parallel fuel context message (config : Config) calls :
  gives (executeToolCallsParallel env fuel context message calls config)
    (fun b e t => e = map MToolResult (batch_messages b) /\ t = [] /\ answers calls (batch_messages b)).
Proof.
  unfold executeToolCallsParallel.
  eapply gives_bind; [apply gives_prepareCalls|intros tasks e1 t1 (-> & -> & Hp & Hall)].
  eapply gives_bind; [apply gives_startTasks|intros started e2 t2 (-> & -> & Hs)].
  eapply gives_bind; [apply gives_joinTasks|intros fs e3 t3 (-> & -> & Hf)].
  eapply gives_bind; [apply gives_reports|intros ms e4 t4 (-> & -> & Hm)]. apply gives_ret. cbn. rewrite app_nil_r.
  split; [done|split; [done|]].
  assert (map result_key ms = map call_key (map task_call tasks)) as Hkeys by (rewrite Hm, <-Hs, <-Hf; by rewrite map_map).
  unfold answers. rewrite Hkeys. split; [|intros Hn; by rewrite Hall].
  destruct Hp as [rest ->]. rewrite map_app. by eexists.
Qed.

Lemma gives_batch fuel context message (config : Config) : failed_answer message = false ->
  gives (runBatch env fuel context message config)
    (fun r e t => e = map MToolResult r.1 /\ t = [] /\ turn_ok (mkTurnLog [] message r.1)).
Proof.
  intros Hfail. unfold runBatch, turn_ok. cbn [tl_message tl_results]. rewrite Hfail.
  destruct (toolCalls (am_content message)) as [|call calls] eqn:Hc; [by apply gives_ret|].
  eapply gives_bind with (R1 := fun b e t => e = map MToolResult (batch_messages b) /\ t = [] /\
    answers (call :: calls) (batch_messages b) /\ (am_stopReason message = SRlength ->
      map result_key (batch_messages b) = map call_key (call :: calls) /\ Forall (fun r => tr_isError r = true) (batch_messages b))).
  2:{ intros b e t (-> & -> & Ha & Hl). apply gives_ret. cbn. by rewrite app_nil_r. }
  destruct (bool_decide (am_stopReason message = SRlength)) eqn:Hl.
  - eapply gives_impl; [apply gives_truncated|]. intros b e t (-> & -> & Hk & Hr). split; [done|split; [done|split; [|done]]].
    split; [by rewrite Hk|done].
  - apply bool_decide_eq_false in Hl. eapply gives_impl with (R := fun b e t => e = map MToolResult (batch_messages b) /\
      t = [] /\ answers (call :: calls) (batch_messages b)); [|naive_solver].
    unfold executeToolCalls. rewrite Hc. cbv zeta. destruct (_ || _); [|apply gives_parallel].
    eapply gives_bind; [apply gives_sequential|intros [fs ms] e t (-> & -> & Ha)]. apply gives_ret. by rewrite ?app_nil_r.
Qed.

(** *** The loop *)

Lemma gives_take hook : gives (take_messages hook) (fun ms e t => e = [] /\ t = ms).
Proof.
  unfold take_messages. apply gives_silent; [auto with silent|intros [|m ms]]; [by apply gives_ret|].
  eapply gives_bind with (R1 := fun _ e t => e = [] /\ t = m :: ms).
  - apply does_act. split; [done|]. cbn. by rewrite app_nil_r.
  - intros _ e t [-> ->]. apply gives_ret. cbn. by rewrite app_nil_r.
Qed.

Lemma gives_announce ms :
  gives (for_each (fun m => emit_ env (message_start m);; emit_ env (message_end m)) ms) (fun _ e t => e = ms /\ t = []).
Proof.
  induction ms as [|m ms IH]; cbn [for_each]; [by apply gives_ret|].
  eapply gives_bind; [apply gives_then; [by apply hushed_emit|intros _; apply gives_message_end]|intros u e t [-> ->]].
  eapply gives_bind; [apply IH|intros us e t [He ->]]. apply gives_ret. by rewrite He, app_nil_r.
Qed.

Lemma gives_finishResponse response added context :
  gives (finishResponse env response added context) (fun r e t => e = [MAssistant r.1] /\ t = []).
Proof.
  unfold finishResponse. apply gives_silent; [auto with silent|intros final]. cbv zeta.
  apply gives_then; [destruct added; [apply hushed_silent; auto with silent|by apply hushed_emit]|intros _].
  eapply gives_bind; [apply gives_message_end|intros _ e t [-> ->]]. by apply gives_ret.
Qed.

Lemma gives_consume fuel response partial added context :
  gives (consumeResponse env fuel response partial added context) (fun r e t => e = [MAssistant r.1] /\ t = []).
Proof.
  revert partial added context. induction fuel as [|fuel IH]; intros partial added context; cbn [consumeResponse]; [apply gives_fail|].
  apply gives_silent; [auto with silent|intros [[m|k i m|m|m]|]]; try apply gives_finishResponse.
  - apply gives_then; [by apply hushed_emit|intros _; apply IH].
  - destruct partial as [m0|]; [|apply IH]. apply gives_then; [by apply hushed_emit|intros _; apply IH].
Qed.

Lemma gives_stream fuel context (config : Config) :
  gives (streamAssistantResponse env fuel context config) (fun r e t => e = [MAssistant r.1] /\ t = []).
Proof.
  unfold streamAssistantResponse. apply gives_silent; [silence|intros ms].
  apply gives_silent; [auto with silent|intros llm]. apply gives_silent; [silence|intros key]. cbv zeta.
  apply gives_then; [by apply hushed_act|intros _]. apply gives_silent; [auto with silent|intros response]. apply gives_consume.
Qed.

Lemma gives_prepareTurn (s : Loop) :
  gives (prepareTurn s) (fun s' e t => e = [] /\ newMessages s' = newMessages s /\ pendingMessages s ++ t = pendingMessages s').
Proof.
  unfold prepareTurn. destruct (lastCompletedTurn s) as [ct|]; [|apply gives_ret; by rewrite app_nil_r].
  apply gives_silent; [auto with silent|intros u]. destruct (match u with Some _ => _ | None => _ end) as [context c].
  eapply gives_bind with (R1 := fun ms e t => e = [] /\ pendingMessages s ++ t = ms).
  - destruct (pendingMessages s) as [|m ms]; [|apply gives_ret; by rewrite app_nil_r].
    eapply gives_impl; [apply gives_take|]. by intros ms e t [-> ->].
  - intros ms e t [-> Ht]. apply gives_ret. by rewrite ?app_nil_r.
Qed.

(** What one round of the loop contributes. *)
Definition turn_result (s : Loop) (r : Loop * bool) (e t : list AgentMessage) : Prop :=
  exists tl, e = turn_messages tl /\ newMessages r.1 = newMessages s ++ e /\
    pendingMessages s ++ t = tl_injected tl ++ pendingMessages r.1 /\ turn_ok tl /\
    (failed_answer (tl_message tl) = true -> r.2 = true) /\ (r.2 = true -> pendingMessages r.1 = []).

Lemma gives_finishTurn fuel (s : Loop) message context ms : failed_answer message = false ->
  gives (finishTurn env fuel s message context ms)
    (fun r e t => exists results, e = map MToolResult results /\ newMessages r.1 = ms ++ e /\ t = pendingMessages r.1 /\
       turn_ok (mkTurnLog [] message results) /\ (r.2 = true -> pendingMessages r.1 = [])).
Proof.
  intros Hfail. unfold finishTurn. eapply gives_bind; [by apply gives_batch|intros [results more] e t (-> & -> & Hok)].
  apply gives_then; [by apply hushed_emit|intros _]. cbv zeta. apply gives_silent; [auto with silent|intros [|]].
  - apply gives_then; [by apply hushed_emit|intros _]. apply gives_ret. exists results. by rewrite app_nil_r.
  - eapply gives_bind; [apply gives_take|intros pending e t [-> ->]]. apply gives_ret. exists results. cbn. by rewrite !app_nil_r.
Qed.

Lemma gives_turn fuel (s : Loop) : gives (turn env fuel s) (turn_result s).
Proof.
  unfold turn.
  eapply gives_bind with (R1 := fun s' e t => e = [] /\ newMessages s' = newMessages s /\ pendingMessages s ++ t = pendingMessages s').
  { destruct (firstTurn s); [apply gives_ret; by rewrite app_nil_r|].
    eapply gives_bind; [apply gives_prepareTurn|intros s' e t (-> & Hn & Hp)].
    apply gives_then; [by apply hushed_emit|intros _]. apply gives_ret. by rewrite ?app_nil_r. }
  intros s1 e t1 (-> & Hn & Hp). unfold turn_result. rewrite <-Hn.
  eapply gives_bind with (R1 := fun s' e t => e = pendingMessages s1 /\ t = [] /\ newMessages s' = newMessages s1 ++ pendingMessages s1).
  { unfold injectPending. eapply gives_bind; [apply gives_announce|intros _ e t [-> ->]]. apply gives_ret. by rewrite ?app_nil_r. }
  intros s2 e t (-> & -> & Hn2). eapply gives_bind; [apply gives_stream|intros [message context] e t [-> ->]]. cbn [fst].
  destruct (bool_decide _ || bool_decide _) eqn:Hfail.
  - apply gives_then; [by apply hushed_emit|intros _]. apply gives_then; [by apply hushed_emit|intros _]. apply gives_ret.
    exists (mkTurnLog (pendingMessages s1) message []). unfold turn_ok, turn_messages. cbn. unfold failed_answer. rewrite Hfail.
    rewrite Hn2, !app_nil_r, <-app_assoc. by rewrite Hp.
  - eapply gives_impl; [by apply gives_finishTurn|]. cbv beta.
    intros [s3 stop] e t (results & -> & Hn3 & -> & Hok & Hstop). cbn in *.
    exists (mkTurnLog (pendingMessages s1) message results). unfold turn_messages. cbn.
    rewrite Hn3, Hn2, (app_assoc (pendingMessages s)), Hp, <-!app_assoc. split; [done|]. split; [done|]. split; [done|]. split; [exact Hok|].
    split; [|done]. unfold failed_answer. by rewrite Hfail.
Qed.

(** The turns of a part of a run: only the last can have failed, and then the run is over. *)
Definition turns_result (s s' : Loop) (stopped : bool) (e t : list AgentMessage) : Prop :=
  exists tls, e = flat_map turn_messages tls /\ newMessages s' = newMessages s ++ e /\
    pendingMessages s ++ t = flat_map tl_injected tls ++ pendingMessages s' /\ Forall turn_ok tls /\
    (forall tls1 tl tls2, tls = tls1 ++ tl :: tls2 -> failed_answer (tl_message tl) = true -> tls2 = [] /\ stopped = true) /\
    (stopped = true -> pendingMessages s' = []).

Lemma turns_nil s : turns_result s s false [] [].
Proof. exists []. cbn. rewrite !app_nil_r. split_and!; try done. by intros [|? ?] ? ?. Qed.

Lemma turns_app s1 s2 s3 b e1 t1 e2 t2 :
  turns_result s1 s2 false e1 t1 -> turns_result s2 s3 b e2 t2 -> turns_result s1 s3 b (e1 ++ e2) (t1 ++ t2).
Proof.
  intros (l1 & -> & Hn1 & Hp1 & Hok1 & Hf1 & _) (l2 & -> & Hn2 & Hp2 & Hok2 & Hf2 & Hb). exists (l1 ++ l2).
  rewrite !flat_map_app, Hn2, Hn1. split; [done|]. split; [by rewrite <-app_assoc|].
  split; [by rewrite app_assoc, Hp1, <-!app_assoc, Hp2|]. split; [by apply Forall_app|]. split; [|done].
  intros tls1 tl tls2 Heq Hfail. apply app_eq_inv in Heq as [(k & -> & Hk)|(k & -> & Hk)].
  - destruct k as [|tl' k]; cbn in Hk; [by eapply (Hf2 [])|]. simplify_eq. by destruct (Hf1 tls1 tl' k).
  - by eapply (Hf2 k).
Qed.

Lemma turns_one s r e t : turn_result s r e t -> turns_result s r.1 r.2 e t.
Proof.
  intros (tl & -> & Hn & Hp & Hok & Hf & Hb). exists [tl]. cbn. rewrite !app_nil_r. split_and!; try done; [by repeat constructor|].
  intros [|a [|? ?]] tl' tls2 [=]; subst; auto.
Qed.

Lemma gives_inner fuel n (s : Loop) :
  gives (innerLoop env fuel n s) (fun r e t => turns_result s r.1 r.2 e t /\ pendingMessages r.1 = []).
Proof.
  revert s. induction n as [|n IH]; intros s; cbn [innerLoop]; (destruct (turn_needed s) eqn:Hneed; [|apply gives_ret]).
  1,3: try apply gives_fail.
  2,3: split; [apply turns_nil|]; unfold turn_needed in Hneed; apply orb_false_iff in Hneed as [_ Hneed%negb_false_iff]; by apply bool_decide_eq_true in Hneed.
  eapply gives_bind; [apply gives_turn|intros [s' [|]] e t Hturn].
  - apply gives_ret. rewrite !app_nil_r. destruct Hturn as (tl & Hrest) eqn:?. split; [by apply (turns_one s (s', true))|].
    by apply Hrest.
  - eapply gives_impl; [apply IH|]. cbv beta. intros [s2 b] e2 t2 [H2 Hp]. split; [|done].
    eapply turns_app; [by apply (turns_one s (s', false))|done].
Qed.

Lemma gives_outer fuel n (s : Loop) :
  gives (outerLoop env fuel n s) (fun s' e t => exists b, turns_result s s' b e t /\ pendingMessages s' = []).
Proof.
  revert s. induction n as [|n IH]; intros s; cbn [outerLoop]; [apply gives_fail|].
  eapply gives_bind; [apply gives_inner|intros [s' [|]] e t [Ht Hp]]; cbn in Ht, Hp.
  - apply gives_ret. rewrite ?app_nil_r. exists true. by split.
  - eapply gives_bind; [apply gives_take|intros [|m ms] e2 t2 [-> ->]].
    + apply gives_then; [by apply hushed_emit|intros _]. apply gives_ret. rewrite ?app_nil_r. exists false. by split.
    + eapply gives_impl; [apply IH|]. cbv beta. intros s3 e3 t3 (b & H3 & Hp3). exists b. split; [|done].
      eapply turns_app; [exact Ht|]. destruct H3 as (tls & He & Hn & Hpend & Hrest). cbn in Hn, Hpend.
      exists tls. rewrite Hp. done.
Qed.

(** A run from its first request on: [polled] is what the queues gave before it. *)
Lemma gives_runLoop fuel context ms (c : Config) :
  gives (runLoop env fuel context ms c) (fun s' e t => exists tls b,
    e = flat_map turn_messages tls /\ newMessages s' = ms ++ e /\ t = flat_map tl_injected tls /\ Forall turn_ok tls /\
    (forall tls1 tl tls2, tls = tls1 ++ tl :: tls2 -> failed_answer (tl_message tl) = true -> tls2 = [] /\ b = true)).
Proof.
  unfold runLoop. eapply gives_bind; [apply gives_take|intros pending e t [-> ->]].
  eapply gives_impl; [apply gives_outer|]. cbv beta. intros s' e t (b & (tls & -> & Hn & Hp & Hok & Hf & _) & Hpend).
  exists tls, b. rewrite Hpend, app_nil_r in Hp. cbn in Hn, Hp. done.
Qed.

Definition transcript_of (turns : list TurnLog) : Prop :=
  Forall turn_ok turns /\
  (forall before t after, turns = before ++ t :: after -> failed_answer (tl_message t) = true -> after = []).

Lemma gives_runAgentLoop fuel prompts context (c : Config) :
  gives (runAgentLoop env fuel prompts context c) (fun ms e t => exists tls,
    ms = prompts ++ flat_map turn_messages tls /\ e = ms /\ t = flat_map tl_injected tls /\ transcript_of tls).
Proof.
  unfold runAgentLoop. apply gives_then; [by apply hushed_emit|intros _]. apply gives_then; [by apply hushed_emit|intros _].
  eapply gives_bind; [apply gives_announce|intros us e t [-> ->]].
  eapply gives_bind; [apply gives_runLoop|intros s' e t (tls & b & -> & Hn & -> & Hok & Hf)]. apply gives_ret.
  exists tls. rewrite ?app_nil_r. split; [done|]. split; [done|]. split; [done|]. split; [done|].
  intros before tl after Heq Hfail. by eapply Hf.
Qed.

Lemma gives_continue fuel context (c : Config) :
  gives (runAgentLoopContinue env fuel context c) (fun ms e t => exists tls,
    ms = flat_map turn_messages tls /\ e = ms /\ t = flat_map tl_injected tls /\ transcript_of tls).
Proof.
  unfold runAgentLoopContinue. apply gives_then.
  { unfold assertCanContinue. destruct (last (messages context)) as [m|]; [destruct (is_assistant m)|];
      [by apply does_fail|apply hushed_silent; auto with silent|by apply does_fail]. }
  intros _. apply gives_then; [by apply hushed_emit|intros _]. apply gives_then; [by apply hushed_emit|intros _].
  eapply gives_bind; [apply gives_runLoop|intros s' e t (tls & b & -> & Hn & -> & Hok & Hf)]. apply gives_ret.
  exists tls. rewrite ?app_nil_r. split; [done|]. split; [done|]. split; [done|]. split; [done|].
  intros before tl after Heq Hfail. by eapply Hf.
Qed.
End transcript.
