(* ===== verification/AgentGate.v ===== *)
(** Which tools run: [prepareToolCall] lets a call through only when every check
    passes, and a batch starts the tool of each of its calls at most once. *)
From S2P Require Import Prelude JsNumber JsTree Messages AgentTypes AgentTools AgentLoop AgentLifecycle AgentTranscript.
Local Open Scope Z_scope.

Section gate.
Context {W Model Running Response : Type} (env : @Environment W Model Running Response).

Abbreviation AContext := (@AgentContext W Running).
Abbreviation Config := (@AgentLoopConfig W Model Running).

(** ** Clearance *)

(** The arguments the tool prepares, and the world after that. *)
Definition prepares (tool : @AgentTool W Running) (call : ToolCall) (w w1 : W) (args : tool_args) : Prop :=
  match tool_prepareArguments tool with
  | None => w1 = w /\ args = tc_arguments call
  | Some prepareArguments => prepareArguments (tc_arguments call) w = (w1, Ok args)
  end.

(** The hook, if there is one, returns and does not block. *)
Definition hook_passes (context : AContext) (message : AssistantMessage) (call : ToolCall) (config : Config) (args : jstree)
    (w1 w2 : W) : Prop :=
  match beforeToolCall config with
  | None => w2 = w1
  | Some hook => exists r, hook message call args context w1 = (w2, Ok r) /\
      match r with Some b => br_block b = false | None => True end
  end.

(** The call is cleared: its tool exists, the arguments validate, the hook does
    not block and the run is not aborted when all this is done. *)
Definition cleared (context : AContext) (message : AssistantMessage) (call : ToolCall) (config : Config) (w : W)
    (p : PreparedToolCall) : Prop :=
  exists w1 w2 args,
    find_tool context (tc_name call) = Some (pc_tool p) /\ prepares (pc_tool p) call w w1 args /\
    tool_validateArguments (pc_tool p) args = Ok (pc_args p) /\
    hook_passes context message call config (pc_args p) w1 w2 /\
    aborted env w2 = false /\ pc_toolCall p = call.

Lemma prepare_arguments_spec tool call s :
  match prepareToolCallArguments tool call s with
  | (s1, Ok c) => prepares tool call (world s) (world s1) (tc_arguments c)
  | (_, Err (Thrown _)) => forall w1 args, ~ prepares tool call (world s) w1 args
  | (_, Err OutOfFuel) => False
  end.
Proof.
  unfold prepareToolCallArguments, prepares. destruct (tool_prepareArguments tool) as [f|]; [|done].
  unfold mbind, run_bind, lift_throws. destruct (f (tc_arguments call) (world s)) as [w1 [args|e]] eqn:Hf; cbn; congruence.
Qed.

Definition refused (p : @Preparation W Running) : Prop :=
  match p with Prepared _ => False | Immediate _ isError => isError = true end.

Lemma consult_spec context message call (config : Config) args s :
  match consultHook env context config message call args s with
  | (s2, Ok None) => hook_passes context message call config args (world s) (world s2)
  | (s2, Ok (Some p)) => refused p /\
      forall w2, hook_passes context message call config args (world s) w2 -> aborted env w2 = true
  | (_, Err (Thrown _)) => forall w2, ~ hook_passes context message call config args (world s) w2
  | (_, Err OutOfFuel) => False
  end.
Proof.
  unfold consultHook, hook_passes. destruct (beforeToolCall config) as [hook|]; [|done].
  unfold mbind, run_bind, lift_throws. destruct (hook message call args context (world s)) as [w2 [r|e]] eqn:Hh; cbn; [|naive_solver].
  destruct (aborted env w2) eqn:Hab; [split; [done|naive_solver]|].
  destruct r as [r|]; [destruct (br_block r) eqn:Hb|]; cbn; [split; [done|]|..]; naive_solver.
Qed.

Lemma prepare_spec context message call (config : Config) s :
  exists s' p, prepareToolCall env context message call config s = (s', Ok p) /\
    match p with
    | Prepared pc => cleared context message call config (world s) pc
    | Immediate _ isError => isError = true /\ forall pc, ~ cleared context message call config (world s) pc
    end.
Proof.
  unfold prepareToolCall, cleared. destruct (find_tool context (tc_name call)) as [tool|];
    [|eexists _, _; split; [done|]; cbn; split; [done|naive_solver]].
  pose proof (prepare_arguments_spec tool call s) as Hprep. unfold try_catch. unfold mbind at 1, run_bind at 1.
  destruct (prepareToolCallArguments tool call s) as [s1 [c|[e|]]]; [| |done].
  2:{ eexists _, _; split; [done|]. cbn. split; [done|]. intros pc (w1 & w2 & args & [= <-] & Hp & _). by eapply Hprep. }
  assert (forall w1 args, prepares tool call (world s) w1 args -> w1 = world s1 /\ args = tc_arguments c) as Hdet.
  { unfold prepares in *. destruct (tool_prepareArguments tool); intros w1 args; [rewrite Hprep|]; naive_solver. }
  unfold mbind at 1, run_bind at 1. destruct (tool_validateArguments tool (tc_arguments c)) as [v|e] eqn:Hval.
  2:{ eexists _, _; split; [done|]. cbn. split; [done|]. intros pc (w1 & w2 & args & [= <-] & Hp & Hv & _).
      apply Hdet in Hp as [-> ->]. congruence. }
  pose proof (consult_spec context message call config v s1) as Hcon. unfold mbind, run_bind.
  assert (forall pc, (exists w1 w2 args, Some tool = Some (pc_tool pc) /\ prepares (pc_tool pc) call (world s) w1 args /\
    tool_validateArguments (pc_tool pc) args = Ok (pc_args pc) /\ hook_passes context message call config (pc_args pc) w1 w2 /\
    aborted env w2 = false /\ pc_toolCall pc = call) ->
    exists w2, hook_passes context message call config v (world s1) w2 /\ aborted env w2 = false) as Hcl.
  { intros pc (w1 & w2 & args & [= <-] & Hp & Hv & Hh & Hab & _). apply Hdet in Hp as [-> ->]. exists w2.
    rewrite Hval in Hv. by injection Hv as ->. }
  destruct (consultHook env context config message call v s1) as [s2 [[o|]|[e|]]]; [| | |done].
  - destruct Hcon as [Hr Hcon]. exists s2, o. split; [done|]. destruct o as [|r b]; [done|]. split; [done|].
    intros pc (w2 & Hh & Hab)%Hcl. rewrite (Hcon w2 Hh) in Hab. done.
  - cbn. destruct (aborted env (world s2)) eqn:Hab; (eexists _, _; split; [done|]); cbn.
    + split; [done|]. intros pc (w2 & Hh & Hab2)%Hcl. enough (w2 = world s2) by congruence.
      unfold hook_passes in *. destruct (beforeToolCall config); [|congruence]. destruct Hcon as (? & Hc & _), Hh as (? & Hh & _). congruence.
    + eauto 10.
  - eexists _, _; split; [done|]. cbn. split; [done|]. intros pc (w2 & Hh & _)%Hcl. by eapply Hcon.
Qed.

(** ** Starts *)

Lemma started_app l l' : started_tools (l ++ l') = started_tools l ++ started_tools l'.
Proof. apply omap_app. Qed.

(** The tools [m] starts are among [ids], in that order and each at most once per
    occurrence, also when [m] fails; [P] holds of the value. *)
Definition starts {A} (ids : list string) (m : run W A) (P : A -> Prop) : Prop :=
  does m (fun a l => P a /\ started_tools l `sublist_of` ids) (fun l => started_tools l `sublist_of` ids).

Lemma starts_ret {A} (a : A) (P : A -> Prop) : P a -> starts [] (mret a) P.
Proof. intros HP. apply does_ret. split; [done|constructor]. Qed.

Lemma starts_bind {A B} ids1 ids2 (m : run W A) (f : A -> run W B) P1 P :
  starts ids1 m P1 -> (forall a, P1 a -> starts ids2 (f a) P) -> starts (ids1 ++ ids2) (m ≫= f) P.
Proof.
  intros Hm Hf s. unfold mbind, run_bind. destruct (Hm s) as (l1 & Ht & Hr). destruct (m s) as [s1 [a|e]]; cbn in *.
  - destruct Hr as [Ha Hl1]. destruct (Hf a Ha s1) as (l2 & Ht2 & Hr2). exists (l1 ++ l2). rewrite Ht2, Ht, app_assoc. split; [done|].
    rewrite started_app. destruct (f a s1) as [s2 [b|e]]; cbn in *; [destruct Hr2; split; [done|]|]; by apply sublist_app.
  - exists l1. split; [done|]. by apply sublist_inserts_r.
Qed.

Lemma starts_more {A} ids ids' (m : run W A) P : starts ids m P -> ids `sublist_of` ids' -> starts ids' m P.
Proof.
  intros Hm Hids. eapply does_impl; [exact Hm| |]; cbv beta; [intros a l [? ?]; split; [done|]|intros l ?]; by etrans.
Qed.

Lemma starts_impl {A} ids (m : run W A) (P P' : A -> Prop) : starts ids m P -> (forall a, P a -> P' a) -> starts ids m P'.
Proof. intros Hm HP. eapply does_impl; [exact Hm| |done]; cbv beta. intros a l [? ?]. auto. Qed.

(** A command that starts nothing, then another. *)
Lemma starts_next {A B} ids (m : run W A) (f : A -> run W B) P1 P :
  starts [] m P1 -> (forall a, P1 a -> starts ids (f a) P) -> starts ids (m ≫= f) P.
Proof. apply (starts_bind [] ids). Qed.

Lemma starts_silent {A} (m : run W A) (P : A -> Prop) : silent m -> (forall s a, (m s).2 = Ok a -> P a) -> starts [] m P.
Proof.
  intros Hm HP. eapply does_impl; [by apply (does_weaken_calls m P)| |]; cbv beta.
  - intros a l [-> ?]. split; [done|constructor].
  - intros l ->. constructor.
Qed.

Lemma starts_quiet {A B} ids (m : run W A) (f : A -> run W B) P : silent m -> (forall a, starts ids (f a) P) -> starts ids (m ≫= f) P.
Proof. intros Hm Hf. eapply (starts_next _ _ _ (fun _ => True)); [by apply starts_silent|auto]. Qed.

Lemma starts_emit e : starts [] (emit_ env e) (fun _ => True).
Proof. apply does_emit; [split; [done|]|]; constructor. Qed.

Lemma starts_fail {A} e (P : A -> Prop) : starts [] (fail_with e) P.
Proof. apply does_fail. constructor. Qed.

Lemma starts_try {A} ids (m : run W A) (h : string -> A) (P : A -> Prop) : starts ids m P -> (forall e, P (h e)) ->
  starts ids (try_catch m (fun e => mret (h e))) P.
Proof.
  intros Hm Hh. eapply does_try; [exact Hm|done|done|]. intros e l1 Hl1. cbv beta in Hl1. apply does_ret. by rewrite app_nil_r.
Qed.

Lemma starts_for_each {A B} (f : A -> run W B) l : (forall a, starts [] (f a) (fun _ => True)) -> starts [] (for_each f l) (fun _ => True).
Proof.
  intros Hf. induction l as [|a l IH]; cbn [for_each]; [by apply starts_ret|].
  eapply starts_next; [apply Hf|intros b _]. eapply starts_next; [apply IH|intros bs _]. by apply starts_ret.
Qed.

Lemma starts_report f : starts [] (reportResult env f) (fun _ => True).
Proof.
  unfold reportResult, emitToolResultMessage. apply starts_quiet; [done|intros t]. cbv zeta.
  eapply starts_next; [|intros _ _; by apply starts_ret]. eapply starts_next; [apply starts_emit|intros _ _; apply starts_emit].
Qed.

Lemma starts_tool (p : @PreparedToolCall W Running) : starts [tc_id (pc_toolCall p)] (startTool p) (fun _ => True).
Proof.
  unfold startTool. apply (starts_bind [_] []) with (P1 := fun _ => True).
  - apply does_act. split; [done|]. cbn. done.
  - intros _ _. apply starts_silent; [auto with silent|done].
Qed.

Lemma starts_launch (p : @PreparedToolCall W Running) : starts [tc_id (pc_toolCall p)] (launchTool p) (fun _ => True).
Proof.
  apply starts_try; [|done]. apply (starts_bind [_] []) with (P1 := fun _ => True); [apply starts_tool|intros r _; by apply starts_ret].
Qed.

Lemma starts_settle rejected outcome : starts [] (settleTool (W := W) rejected outcome) (fun _ => True).
Proof. destruct rejected; cbn [settleTool]; [apply starts_fail|by apply starts_ret]. Qed.

Lemma starts_poll (p : @PreparedToolCall W Running) r rejected : starts [] (pollTool env p r rejected) (fun _ => True).
Proof.
  unfold pollTool. apply starts_quiet; [auto with silent|intros [r' a]].
  destruct a; try (by apply starts_ret); (apply starts_next with (P1 := fun _ => True); [|intros o _; by apply starts_ret]); try apply starts_settle.
  apply starts_try; [|done]. eapply starts_next; [apply starts_emit|intros _ _; by apply starts_ret].
Qed.

Lemma starts_await fuel (p : @PreparedToolCall W Running) r rejected : starts [] (awaitTool env fuel p r rejected) (fun _ => True).
Proof.
  revert r rejected. induction fuel as [|fuel IH]; intros r rejected; cbn [awaitTool]; [apply starts_fail|].
  eapply starts_next; [apply starts_poll|intros [[r' rejected'] [o|]] _]; [by apply starts_ret|apply IH].
Qed.

Lemma starts_finalize context message pc executed (config : Config) :
  starts [] (finalizeExecutedToolCall context message pc executed config) (fun _ => True).
Proof. apply starts_silent; [apply silent_finalize|done]. Qed.

Lemma starts_prepare context message call (config : Config) :
  starts [] (prepareToolCall env context message call config) (call_of_preparation call).
Proof. apply starts_silent; [apply silent_prepare|intros s p; apply prepare_call]. Qed.

Lemma starts_runToolCall fuel context message (config : Config) call :
  starts [tc_id call] (runToolCall env fuel context message config call) (fun _ => True).
Proof.
  unfold runToolCall. eapply starts_next; [apply starts_prepare|intros [pc|r b] Hc]; cbn in Hc.
  - subst call. apply (starts_bind [_] []) with (P1 := fun _ => True); [|intros e _; apply starts_finalize].
    apply (starts_bind [_] []) with (P1 := fun _ => True); [apply starts_launch|intros [r|o] _; [apply starts_await|by apply starts_ret]].
  - eapply starts_more; [by apply starts_ret|constructor; constructor].
Qed.

Lemma starts_sequential fuel context message (config : Config) calls :
  starts (map tc_id calls) (sequentialCalls env fuel context message config calls) (fun _ => True).
Proof.
  induction calls as [|call calls IH]; cbn [sequentialCalls map]; [by apply starts_ret|].
  eapply starts_next; [apply starts_emit|intros _ _].
  apply (starts_bind [tc_id call] (map tc_id calls)) with (P1 := fun _ => True); [apply starts_runToolCall|intros f _].
  eapply starts_next; [apply starts_emit|intros _ _]. eapply starts_next; [apply starts_report|intros m _].
  apply starts_quiet; [done|intros [|]]; [eapply starts_more; [by apply starts_ret|apply sublist_nil_l]|].
  apply (starts_more (map tc_id calls ++ [])); [|by rewrite app_nil_r].
  eapply starts_bind; [exact IH|intros others _; by apply starts_ret].
Qed.

Lemma starts_prepareCalls context message (config : Config) calls :
  starts [] (prepareCalls env context message config calls) (fun tasks => map task_call tasks `prefix_of` calls).
Proof.
  induction calls as [|call calls IH]; cbn [prepareCalls]; [by apply starts_ret|].
  eapply starts_next; [apply starts_emit|intros _ _]. eapply starts_next; [apply starts_prepare|intros preparation Hc].
  apply starts_next with (P1 := fun t => task_call t = call).
  { destruct preparation as [pc|r b]; [by apply starts_ret|]. eapply starts_next; [apply starts_emit|intros _ _]. by apply starts_ret. }
  intros t Ht. apply starts_quiet; [done|intros [|]].
  - apply starts_ret. cbn. rewrite Ht. apply prefix_cons, prefix_nil.
  - eapply starts_next; [apply IH|intros tasks Hp]. apply starts_ret. cbn. rewrite Ht. by apply prefix_cons.
Qed.

Definition not_thunk (t : @Task W Running) : Prop := match t with Thunk _ => False | _ => True end.

Lemma starts_startTask t : starts [tc_id (task_call t)] (startTask t) not_thunk.
Proof.
  destruct t as [f|pc|pc r rejected|pc o]; cbn [startTask]; try (eapply starts_more; [by apply starts_ret|apply sublist_nil_l]).
  apply (starts_bind [_] []) with (P1 := fun _ => True); [apply starts_launch|intros [r|o] _; by apply starts_ret].
Qed.

Lemma starts_startTasks tasks : starts (map (fun t => tc_id (task_call t)) tasks) (for_each startTask tasks) (Forall not_thunk).
Proof.
  induction tasks as [|t tasks IH]; cbn [for_each map]; [by apply starts_ret|].
  apply (starts_bind [_] (map (fun t => tc_id (task_call t)) tasks)) with (P1 := not_thunk); [apply starts_startTask|intros t' Ht'].
  apply (starts_more (map (fun t => tc_id (task_call t)) tasks ++ [])); [|by rewrite app_nil_r].
  eapply starts_bind; [exact IH|intros tasks' Hts]. apply starts_ret. by constructor.
Qed.

Lemma starts_joinTasks fuel context message (config : Config) tasks : Forall not_thunk tasks ->
  starts [] (joinTasks env fuel context message config tasks) (fun _ => True).
Proof.
  revert tasks. induction fuel as [|fuel IH]; intros tasks Hts; cbn [joinTasks];
    (destruct (mapM finished tasks) as [fs|]; [by apply starts_ret|]); [apply starts_fail|].
  apply starts_quiet; [auto with silent|intros k]. destruct (pick_task k tasks) as [[i t]|] eqn:Hk; [|apply starts_fail].
  apply pick_task_Some in Hk as [Hi _].
  apply starts_next with (P1 := not_thunk); [|intros t' Ht'; apply IH; by apply Forall_insert].
  pose proof (Forall_lookup_1 _ _ _ _ Hts Hi) as Ht. destruct t as [f|pc|pc r rejected|pc o]; cbn [stepTask]; [by apply starts_ret|done| |].
  - eapply starts_next; [apply starts_poll|intros [[r' rejected'] [o|]] _]; by apply starts_ret.
  - eapply starts_next; [apply starts_finalize|intros f _]. eapply starts_next; [apply starts_emit|intros _ _]. by apply starts_ret.
Qed.

Lemma starts_parallel fuel context message (config : Config) calls :
  starts (map tc_id calls) (executeToolCallsParallel env fuel context message calls config) (fun _ => True).
Proof.
  unfold executeToolCallsParallel. eapply starts_next; [apply starts_prepareCalls|intros tasks [rest Hp]].
  apply (starts_more (map (fun t => tc_id (task_call t)) tasks ++ [])).
  - eapply starts_bind; [apply starts_startTasks|intros started Hs].
    eapply starts_next; [by apply starts_joinTasks|intros fs _].
    eapply starts_next; [apply starts_for_each, starts_report|intros ms _]. by apply starts_ret.
  - rewrite Hp, map_app, map_map, app_nil_r. apply sublist_inserts_r. done.
Qed.

Lemma starts_truncated calls : starts [] (failToolCallsFromTruncatedMessage env calls) (fun _ => True).
Proof.
  unfold failToolCallsFromTruncatedMessage. eapply starts_next; [|intros ms _; by apply starts_ret].
  apply starts_for_each. intros call. eapply starts_next; [apply starts_emit|intros _ _]. cbv zeta.
  eapply starts_next; [apply starts_emit|intros _ _]. apply starts_report.
Qed.

Lemma starts_batch fuel context message (config : Config) :
  starts (if bool_decide (am_stopReason message = SRlength) then [] else map tc_id (toolCalls (am_content message)))
    (runBatch env fuel context message config) (fun _ => True).
Proof.
  unfold runBatch. destruct (toolCalls (am_content message)) as [|call calls] eqn:Hc;
    [destruct (bool_decide _); by apply starts_ret|].
  destruct (bool_decide (am_stopReason message = SRlength)).
  - eapply starts_next; [apply starts_truncated|intros b _; by apply starts_ret].
  - apply (starts_more (map tc_id (call :: calls) ++ [])); [|by rewrite app_nil_r].
    eapply starts_bind; [|intros b _; by apply starts_ret]. unfold executeToolCalls. rewrite Hc. cbv zeta.
    destruct (_ || _); [|apply starts_parallel]. unfold executeToolCallsSequential.
    apply (starts_more (map tc_id (call :: calls) ++ [])); [|by rewrite app_nil_r].
    eapply starts_bind; [apply starts_sequential|intros fs _; by apply starts_ret].
Qed.
End gate.
