(* ===== verification/AgentTermination.v ===== *)
(** A run ends when its environment is bounded.

    [budget] measures what the outside still can do: answers with tool calls,
    queued messages, stream events and tool progress all spend it, and nothing
    restores it.  A bound above the budget is then enough for every loop. *)
From S2P Require Import Prelude JsNumber JsTree Messages AgentTypes AgentTools AgentLoop AgentLifecycle AgentTranscript.
Local Open Scope nat_scope.

Section termination.
Context {W Model Running Response : Type} (env : @Environment W Model Running Response) (budget : W -> nat).

Abbreviation AContext := (@AgentContext W Running).
Abbreviation Config := (@AgentLoopConfig W Model Running).
Abbreviation Loop := (@LoopState W Model Running).
Abbreviation Tool := (@AgentTool W Running).

(** ** Bounded environments *)

Definition frugal {A} (f : W -> W * A) : Prop := forall w, budget (f w).1 <= budget w.

(** A call that takes messages spends. *)
Definition spends_if_any (f : W -> W * result string (list AgentMessage)) : Prop :=
  frugal f /\ forall w m ms, (f w).2 = Ok (m :: ms) -> budget (f w).1 < budget w.

Definition opt_all {A} (P : A -> Prop) (o : option A) : Prop := match o with Some a => P a | None => True end.

Definition tool_bounded (t : Tool) : Prop :=
  opt_all (fun f => forall args, frugal (f args)) (tool_prepareArguments t) /\
  (forall id args, frugal (tool_execute t id args)) /\
  (forall r, frugal (tool_poll t r)) /\
  (forall r w, match (tool_poll t r w).2.2 with
     | Progress _ | Waiting => budget (tool_poll t r w).1 < budget w
     | _ => True end).

Definition context_bounded (c : AContext) : Prop := Forall tool_bounded (default [] (tools c)).

Record config_bounded (c : Config) : Prop := {
  cb_convert : forall ms, frugal (convertToLlm_ c ms);
  cb_transform : opt_all (fun f => forall ms, frugal (f ms)) (transformContext c);
  cb_key : opt_all (fun f => forall p, frugal (f p)) (getApiKey c);
  cb_stop : opt_all (fun f => forall t, frugal (f t)) (shouldStopAfterTurn c);
  cb_prepare : opt_all (fun f => forall t, frugal (f t) /\
    forall w u, (f t w).2 = Ok (Some u) -> opt_all context_bounded (tu_context u)) (prepareNextTurn c);
  cb_steer : opt_all spends_if_any (getSteeringMessages c);
  cb_follow : opt_all spends_if_any (getFollowUpMessages c);
  cb_before : opt_all (fun f => forall m call args ctx, frugal (f m call args ctx)) (beforeToolCall c);
  cb_after : opt_all (fun f => forall m call args r e ctx, frugal (f m call args r e ctx)) (afterToolCall c);
}.

Record env_bounded : Prop := {
  eb_emit : forall e, frugal (emit env e);
  eb_stream : forall m r k sp ms ts, frugal (streamFn env m r k sp ms ts);
  eb_next : forall r, frugal (response_next env r);
  eb_event : forall r w, match (response_next env r w).2 with
    | Ok (Some (Estart _)) | Ok (Some (Eupdate _ _ _)) => budget (response_next env r w).1 < budget w
    | _ => True end;
  eb_answer : forall r w, match (response_result env r w).2 with
    | Ok m => budget (response_result env r w).1 + 3 * length (toolCalls (am_content m)) <= budget w
    | Err _ => budget (response_result env r w).1 <= budget w end;
  eb_schedule : frugal (schedule env);
}.

(** ** The logic *)

(** From a budget of at most [b], [m] does not run out of fuel, spends no more
    than it has, and returns with [R]. *)
Definition ends {A} (b : nat) (m : run W A) (R : A -> nat -> Prop) : Prop :=
  forall s, budget (world s) <= b ->
    budget (world (m s).1) <= b /\
    match (m s).2 with
    | Ok a => R a (budget (world (m s).1))
    | Err (Thrown _) => True
    | Err OutOfFuel => False
    end.

Abbreviation any := (fun _ _ => True) (only parsing).

Lemma ends_ret {A} b (a : A) (R : A -> nat -> Prop) : (forall b', b' <= b -> R a b') -> ends b (mret a) R.
Proof. intros HR s Hs. split; [done|]. by apply HR. Qed.

Lemma ends_bind {A B} b (m : run W A) (f : A -> run W B) R1 (R : B -> nat -> Prop) :
  ends b m R1 -> (forall a b', R1 a b' -> b' <= b -> ends b' (f a) R) -> ends b (m ≫= f) R.
Proof.
  intros Hm Hf s Hs. unfold mbind, run_bind. destruct (Hm s Hs) as [Hb Hr]. destruct (m s) as [s1 [a|[e|]]]; cbn in *; [|done|done].
  destruct (Hf a (budget (world s1)) Hr Hb s1 (Nat.le_refl _)) as [? ?]. split; [lia|done].
Qed.

Lemma ends_impl {A} b (m : run W A) (R R' : A -> nat -> Prop) : ends b m R -> (forall a b', b' <= b -> R a b' -> R' a b') -> ends b m R'.
Proof. intros Hm HR s Hs. destruct (Hm s Hs) as [Hb Hr]. split; [done|]. destruct (m s).2 as [a|[e|]]; auto. Qed.

Lemma ends_next {A B} b (m : run W A) (f : A -> run W B) R1 (R : B -> nat -> Prop) :
  ends b m R1 -> (forall a b', b' <= b -> ends b' (f a) R) -> ends b (m ≫= f) R.
Proof. intros Hm Hf. eapply ends_bind; [exact Hm|]. auto. Qed.

Lemma ends_thrown {A} b e (R : A -> nat -> Prop) : ends b (fail_with (Thrown e)) R.
Proof. intros s Hs. done. Qed.

Lemma ends_lift {A} b (f : W -> W * A) (R : A -> nat -> Prop) : frugal f ->
  (forall w, budget w <= b -> R (f w).2 (budget (f w).1)) -> ends b (lift f) R.
Proof.
  intros Hf HR s Hs. unfold lift. specialize (Hf (world s)). specialize (HR (world s) Hs).
  destruct (f (world s)) as [w a]; cbn in *. split; [lia|done].
Qed.

Lemma ends_lift_throws {A} b (f : W -> W * result string A) (R : A -> nat -> Prop) : frugal f ->
  (forall w a, budget w <= b -> (f w).2 = Ok a -> R a (budget (f w).1)) -> ends b (lift_throws f) R.
Proof.
  intros Hf HR s Hs. unfold lift_throws. specialize (Hf (world s)). specialize (HR (world s)).
  destruct (f (world s)) as [w [a|e]]; cbn in *; (split; [lia|]); auto.
Qed.

Lemma ends_reads {A} b (f : W -> A) : ends b (reads f) any.
Proof. intros s Hs. done. Qed.

Lemma ends_act b a : ends b (act_ a) any.
Proof. intros s Hs. done. Qed.

Lemma ends_try {A} b (m : run W A) (h : string -> run W A) R : ends b m R -> (forall e b', b' <= b -> ends b' (h e) R) ->
  ends b (try_catch m h) R.
Proof.
  intros Hm Hh s Hs. unfold try_catch. destruct (Hm s Hs) as [Hb Hr]. destruct (m s) as [s1 [a|[e|]]]; cbn in *; [done| |done].
  destruct (Hh e (budget (world s1)) Hb s1 (Nat.le_refl _)) as [? ?]. split; [lia|done].
Qed.

Lemma ends_for_each {A B} b (f : A -> run W B) l : (forall a b', b' <= b -> ends b' (f a) any) -> ends b (for_each f l) any.
Proof.
  revert b. induction l as [|a l IH]; intros b Hf; cbn [for_each]; [by apply ends_ret|].
  eapply ends_next; [by apply Hf|intros u b1 Hb1]. eapply ends_next; [apply IH; intros; apply Hf; lia|intros us b2 Hb2].
  by apply ends_ret.
Qed.

(** ** Tools *)
Section bounded.
Context (Henv : env_bounded).

Lemma ends_emit b e : ends b (emit_ env e) any.
Proof.
  intros s Hs. unfold emit_. pose proof (eb_emit Henv e (world s)) as He. destruct (emit env e (world s)) as [w [u|m]]; cbn in *;
    (split; [lia|done]).
Qed.

Lemma ends_then {B} b e (f : unit -> run W B) R : (forall b', b' <= b -> ends b' (f ()) R) -> ends b (emit_ env e ≫= f) R.
Proof. intros Hf. eapply ends_next; [apply ends_emit|]. intros [] b' Hb. by apply Hf. Qed.

Lemma ends_report b f : ends b (reportResult env f) any.
Proof.
  unfold reportResult, emitToolResultMessage. eapply ends_next; [apply ends_reads|intros t b1 Hb1]. cbv zeta.
  eapply ends_next; [apply ends_then; intros; apply ends_emit|intros _ b2 Hb2]. by apply ends_ret.
Qed.

Lemma ends_truncated b calls : ends b (failToolCallsFromTruncatedMessage env calls) any.
Proof.
  unfold failToolCallsFromTruncatedMessage. eapply ends_next; [|intros ms b1 Hb1; by apply ends_ret].
  apply ends_for_each. intros call b1 Hb1. apply ends_then; intros b2 Hb2. cbv zeta. apply ends_then; intros b3 Hb3. apply ends_report.
Qed.

Definition preparation_bounded (p : @Preparation W Running) : Prop :=
  match p with Prepared pc => tool_bounded (pc_tool pc) | _ => True end.

Lemma find_tool_bounded context name t : context_bounded context -> find_tool context name = Some t -> tool_bounded t.
Proof.
  unfold context_bounded, find_tool. intros Hc Hf. apply find_some in Hf as [Hin _]. rewrite Forall_forall in Hc.
  by apply Hc, list_elem_of_In.
Qed.

Lemma ends_consult b context message call config args : config_bounded config ->
  ends b (consultHook env context config message call args) (fun o _ => opt_all preparation_bounded o).
Proof.
  intros Hc. unfold consultHook. pose proof (cb_before config Hc) as Hb.
  destruct (beforeToolCall config) as [hook|]; [|by apply ends_ret].
  eapply ends_next; [apply ends_lift_throws with (R := any); [apply Hb|done]|intros r b1 Hb1].
  eapply ends_next; [apply ends_reads|intros stopped b2 Hb2]. destruct stopped; [by apply ends_ret|].
  destruct r as [r|]; [destruct (br_block r)|]; by apply ends_ret.
Qed.

Lemma ends_prepare b context message call config : context_bounded context -> config_bounded config ->
  ends b (prepareToolCall env context message call config) (fun p _ => preparation_bounded p).
Proof.
  intros Hctx Hc. unfold prepareToolCall. destruct (find_tool context (tc_name call)) as [tool|] eqn:Hf; [|by apply ends_ret].
  apply find_tool_bounded in Hf; [|done]. apply ends_try; [|intros e b1 Hb1; by apply ends_ret].
  eapply ends_next with (R1 := any).
  { unfold prepareToolCallArguments. destruct Hf as [Hprep _]. destruct (tool_prepareArguments tool); [|by apply ends_ret].
    eapply ends_next; [apply ends_lift_throws with (R := any); [apply Hprep|done]|intros args b1 Hb1; by apply ends_ret]. }
  intros c b1 Hb1. eapply ends_next with (R1 := any); [intros s Hs; cbn; by destruct (tool_validateArguments tool (tc_arguments c))|].
  intros v b2 Hb2. eapply ends_bind; [by apply ends_consult|intros [o|] b3 Ho Hb3]; [by apply ends_ret|].
  eapply ends_next; [apply ends_reads|intros stopped b4 Hb4]. destruct stopped; by apply ends_ret.
Qed.

Lemma ends_start b p : tool_bounded (pc_tool p) -> ends b (startTool p) any.
Proof.
  intros (_ & He & _). unfold startTool. eapply ends_next; [apply ends_act|intros _ b1 Hb1].
  by apply ends_lift_throws with (R := any).
Qed.

Lemma ends_launch b p : tool_bounded (pc_tool p) -> ends b (launchTool p) any.
Proof.
  intros Hp. apply ends_try; [|intros; by apply ends_ret]. eapply ends_next; [by apply ends_start|intros; by apply ends_ret].
Qed.

Lemma ends_settle b rejected (outcome : AgentToolResult * bool) : ends b (settleTool rejected outcome) any.
Proof. destruct rejected; cbn [settleTool]; [apply ends_thrown|by apply ends_ret]. Qed.

(** A poll that gives no outcome spends. *)
Lemma ends_poll b p r rejected : tool_bounded (pc_tool p) ->
  ends b (pollTool env p r rejected) (fun polled b' => polled.2 = None -> b' < b).
Proof.
  intros (_ & _ & Hf & Hs). unfold pollTool.
  eapply ends_bind with (R1 := fun polled b' => match polled.2 with Progress _ | Waiting => b' < b | _ => True end).
  - apply ends_lift; [done|]. intros w Hw. specialize (Hs r w). destruct (tool_poll (pc_tool p) r w) as [w' [r' a]]. cbn in *.
    destruct a; lia || done.
  - intros [r' a] b1 Ha Hb1. cbn in Ha. destruct a as [pr| |res|e]; [|apply ends_ret; cbn; lia|
      (eapply ends_next; [apply ends_settle|intros o b2 Hb2; by apply ends_ret])..].
    eapply ends_next with (R1 := any); [|intros o b2 Hb2; apply ends_ret; cbn; lia].
    apply ends_try; [apply ends_then|]; intros; by apply ends_ret.
Qed.

Lemma ends_await fuel b p r rejected : tool_bounded (pc_tool p) -> b < fuel -> ends b (awaitTool env fuel p r rejected) any.
Proof.
  intros Hp. revert b r rejected. induction fuel as [|fuel IH]; intros b r rejected Hb; [lia|]. cbn [awaitTool].
  eapply ends_bind; [by apply ends_poll|intros [[r' rejected'] [o|]] b1 Hlt Hb1]; [by apply ends_ret|]. cbn in Hlt. apply IH.
  specialize (Hlt eq_refl). lia.
Qed.

Lemma ends_execute fuel b p : tool_bounded (pc_tool p) -> b < fuel -> ends b (executePreparedToolCall env fuel p) any.
Proof.
  intros Hp Hb. eapply ends_next; [by apply ends_launch|intros [r|o] b1 Hb1]; [apply ends_await; [done|lia]|by apply ends_ret].
Qed.

Lemma ends_finalize b context message p executed config : config_bounded config ->
  ends b (finalizeExecutedToolCall context message p executed config) any.
Proof.
  intros Hc. unfold finalizeExecutedToolCall. destruct executed as [res e]. pose proof (cb_after config Hc) as Ha.
  destruct (afterToolCall config) as [hook|]; [|by apply ends_ret].
  apply ends_try; [|intros m b1 Hb1; by apply ends_ret].
  eapply ends_next; [apply ends_lift_throws with (R := any); [apply Ha|done]|intros o b1 Hb1; by apply ends_ret].
Qed.

Lemma ends_sequential fuel b context message config calls : context_bounded context -> config_bounded config ->
  b < fuel -> ends b (sequentialCalls env fuel context message config calls) any.
Proof.
  intros Hctx Hc. revert b. induction calls as [|call calls IH]; intros b Hb; cbn [sequentialCalls]; [by apply ends_ret|].
  apply ends_then; intros b1 Hb1. eapply ends_next with (R1 := any).
  { unfold runToolCall. eapply ends_bind; [by apply ends_prepare|intros [p|r e] b2 Hp Hb2]; [|by apply ends_ret].
    eapply ends_next; [apply ends_execute; [done|lia]|intros ex b3 Hb3]. by apply ends_finalize. }
  intros f b2 Hb2. apply ends_then; intros b3 Hb3. eapply ends_next; [apply ends_report|intros m b4 Hb4].
  eapply ends_next; [apply ends_reads|intros stopped b5 Hb5]. destruct stopped; [by apply ends_ret|].
  eapply ends_next; [apply IH; lia|intros others b6 Hb6; by apply ends_ret].
Qed.

(** *** Parallel batches: what the tasks still have to do *)

Definition task_work (t : @Task W Running) : nat :=
  match t with Finished _ => 0 | Ended _ _ => 1 | InTool _ _ _ => 2 | Thunk _ => 3 end.

Definition task_bounded (t : @Task W Running) : Prop :=
  match t with Finished _ => True | Ended p _ | InTool p _ _ | Thunk p => tool_bounded (pc_tool p) end.

Definition work (tasks : list (@Task W Running)) : nat := sum_list_with task_work tasks.

Lemma ends_prepareCalls b context message config calls : context_bounded context -> config_bounded config ->
  ends b (prepareCalls env context message config calls) (fun tasks _ => Forall task_bounded tasks /\ work tasks <= 3 * length calls).
Proof.
  intros Hctx Hc. revert b. induction calls as [|call calls IH]; intros b; cbn [prepareCalls]; [apply ends_ret; intros; split; [constructor|done]|].
  apply ends_then; intros b1 Hb1. eapply ends_bind; [by apply ends_prepare|intros preparation b2 Hp Hb2].
  eapply ends_bind with (R1 := fun t _ => task_bounded t /\ task_work t <= 3).
  { destruct preparation as [p|r e]; [by apply ends_ret|]. apply ends_then; intros b3 Hb3. apply ends_ret. cbn. split; [done|lia]. }
  intros t b3 [Ht Hw] Hb3. eapply ends_next; [apply ends_reads|intros stopped b4 Hb4]. destruct stopped.
  - apply ends_ret. intros _ _. split; [by repeat constructor|]. unfold work. cbn. lia.
  - eapply ends_bind; [apply IH|intros tasks b5 [Hts Hws] Hb5]. apply ends_ret. intros _ _. split; [by constructor|].
    unfold work in *. cbn. lia.
Qed.

Lemma ends_startTask b t : task_bounded t -> ends b (startTask t) (fun t' _ => task_bounded t' /\ task_work t' <= task_work t).
Proof.
  intros Ht. destruct t as [f|p|p r rejected|p o]; cbn [startTask]; try (by apply ends_ret).
  eapply ends_next; [by apply ends_launch|intros [r|o] b1 Hb1; apply ends_ret; cbn; (split; [done|lia])].
Qed.

Lemma ends_startTasks b tasks : Forall task_bounded tasks ->
  ends b (for_each startTask tasks) (fun tasks' _ => Forall task_bounded tasks' /\ work tasks' <= work tasks).
Proof.
  intros Hts. revert b. induction Hts as [|t tasks Ht Hts IH]; intros b; cbn [for_each]; [by apply ends_ret|].
  eapply ends_bind; [by apply ends_startTask|intros t' b1 [Ht' Hw] Hb1].
  eapply ends_bind; [apply IH|intros tasks' b2 [Hts' Hws] Hb2]. apply ends_ret. intros _ _. split; [by constructor|].
  unfold work in *. cbn. lia.
Qed.

(** A step of an unfinished task does some of its work, or spends. *)
Lemma ends_stepTask b context message config t : config_bounded config -> task_bounded t -> finished t = None ->
  ends b (stepTask env context message config t) (fun t' b' => task_bounded t' /\ b' + task_work t' < b + task_work t).
Proof.
  intros Hc Ht Hf. destruct t as [f|p|p r rejected|p o]; [done| | |]; cbn [stepTask startTask task_work].
  - eapply ends_next; [by apply ends_launch|intros [r|o] b1 Hb1; apply ends_ret; intros b2 Hb2; cbn; (split; [done|lia])].
  - eapply ends_bind; [by apply ends_poll|intros [[r' rejected'] [o|]] b1 Hlt Hb1]; apply ends_ret; intros b2 Hb2; cbn; (split; [done|]); [lia|].
    specialize (Hlt eq_refl). lia.
  - eapply ends_next; [by apply ends_finalize|intros f b1 Hb1]. apply ends_then; intros b2 Hb2. apply ends_ret. cbn. intros. split; [done|lia].
Qed.

Lemma pick_task_total k (tasks : list (@Task W Running)) : mapM finished tasks = None -> is_Some (pick_task k tasks).
Proof.
  intros Hn. unfold pick_task. set (l := List.filter _ _). apply lookup_lt_is_Some. apply Nat.mod_upper_bound.
  intros Hl. apply length_zero_iff_nil in Hl. apply eq_None_not_Some in Hn. destruct Hn. apply mapM_is_Some, Forall_lookup.
  intros i t Hi. destruct (finished t) as [f|] eqn:Hf; [eauto|]. exfalso.
  assert ((i, t) ∈ l) as Hin; [|rewrite Hl in Hin; by apply elem_of_nil in Hin].
  apply list_elem_of_In, filter_In. cbn. rewrite Hf. split; [|done]. apply list_elem_of_In, elem_of_lookup_imap. by exists i, t.
Qed.

Lemma work_insert (tasks : list (@Task W Running)) i t t' : tasks !! i = Some t ->
  work (<[i := t']> tasks) + task_work t = work tasks + task_work t'.
Proof.
  unfold work. revert i. induction tasks as [|u tasks IH]; intros [|i] Hi; cbn in *; [done|done| |]; simplify_eq; [lia|].
  rewrite <-!Nat.add_assoc. f_equal. exact (IH i Hi).
Qed.

Lemma ends_joinTasks fuel b context message config tasks : config_bounded config -> Forall task_bounded tasks ->
  b + work tasks < fuel -> ends b (joinTasks env fuel context message config tasks) any.
Proof.
  intros Hc. revert b tasks. induction fuel as [|fuel IH]; intros b tasks Hts Hb; [lia|]. cbn [joinTasks].
  destruct (mapM finished tasks) as [fs|] eqn:Hfs; [by apply ends_ret|].
  eapply ends_next; [apply ends_lift with (R := any); [apply Henv|done]|intros k b1 Hb1].
  destruct (pick_task_total k tasks Hfs) as [[i t] Hk]. rewrite Hk. apply pick_task_Some in Hk as [Hi Hf].
  eapply ends_bind; [apply ends_stepTask; [done| |done]; by eapply Forall_lookup_1|intros t' b2 [Ht' Hlt] Hb2].
  apply IH; [by apply Forall_insert|]. pose proof (work_insert tasks i t t' Hi). lia.
Qed.

Lemma ends_batch fuel b context message config : context_bounded context -> config_bounded config ->
  b + 3 * length (toolCalls (am_content message)) < fuel ->
  ends b (runBatch env fuel context message config) (fun r _ => r.2 = true -> toolCalls (am_content message) <> []).
Proof.
  intros Hctx Hc Hb. unfold runBatch. destruct (toolCalls (am_content message)) as [|call calls] eqn:Hcalls; [by apply ends_ret|].
  eapply ends_next; [|intros batch b1 Hb1; by apply ends_ret].
  destruct (bool_decide _); [apply ends_truncated|]. unfold executeToolCalls. rewrite Hcalls. cbv zeta. destruct (_ || _).
  - eapply ends_next; [apply ends_sequential; [done..|lia]|intros fs b1 Hb1; by apply ends_ret].
  - unfold executeToolCallsParallel. eapply ends_bind; [by apply ends_prepareCalls|intros tasks b1 [Hts Hw] Hb1].
    eapply ends_bind; [by apply ends_startTasks|intros started b2 [Hss Hws] Hb2].
    eapply ends_next; [apply ends_joinTasks; [done..|lia]|intros fs b3 Hb3].
    eapply ends_next; [apply ends_for_each; intros f b4 Hb4; apply ends_report|intros ms b4 Hb4; by apply ends_ret].
Qed.

(** ** The loop *)

Definition loop_bounded (s : Loop) : Prop := context_bounded (currentContext s) /\ config_bounded (config s).

Lemma ends_take b hook : opt_all spends_if_any hook ->
  ends b (take_messages hook) (fun ms b' => ms <> [] -> b' < b).
Proof.
  intros Hh. unfold take_messages, ask. eapply ends_bind with (R1 := fun ms b' => ms <> [] -> b' < b).
  - destruct hook as [f|]; [|by apply ends_ret]. destruct Hh as [Hf Hs]. apply ends_lift_throws; [done|].
    intros w [|m ms] Hw Ha Hne; [done|]. specialize (Hs w m ms Ha). lia.
  - intros [|m ms] b1 Hlt Hb1; [by apply ends_ret|]. eapply ends_next; [apply ends_act|intros _ b2 Hb2].
    apply ends_ret. intros b3 Hb3 _. specialize (Hlt ltac:(done)). lia.
Qed.

Lemma ends_finishResponse b response added context : context_bounded context ->
  ends b (finishResponse env response added context)
    (fun r b' => context_bounded r.2 /\ b' + 3 * length (toolCalls (am_content r.1)) <= b).
Proof.
  intros Hctx. unfold finishResponse.
  eapply ends_bind with (R1 := fun m b' => b' + 3 * length (toolCalls (am_content m)) <= b).
  - apply ends_lift_throws.
    + intros w. pose proof (eb_answer Henv response w) as Ha. destruct (response_result env response w) as [w' [m|e]]; cbn in *; lia.
    + intros w m Hw Hm. pose proof (eb_answer Henv response w) as Ha. rewrite Hm in Ha. lia.
  - intros m b1 Hm Hb1. cbv zeta. eapply ends_next with (R1 := any);
      [destruct added; [by apply ends_ret|apply ends_emit]|intros _ b2 Hb2].
    apply ends_then; intros b3 Hb3. apply ends_ret. cbn. intros b4 Hb4. split; [by destruct added|lia].
Qed.

Lemma ends_consume fuel b response partial added context : context_bounded context -> b < fuel ->
  ends b (consumeResponse env fuel response partial added context)
    (fun r b' => context_bounded r.2 /\ b' + 3 * length (toolCalls (am_content r.1)) <= b).
Proof.
  revert b partial added context. induction fuel as [|fuel IH]; intros b partial added context Hctx Hb; [lia|]. cbn [consumeResponse].
  eapply ends_bind with (R1 := fun o b' => match o with Some (Estart _) | Some (Eupdate _ _ _) => b' < b | _ => True end).
  { apply ends_lift_throws; [apply Henv|]. intros w o Hw Ho. pose proof (eb_event Henv response w) as He. rewrite Ho in He.
    destruct o as [[]|]; lia || done. }
  intros [[m|k i m|m|m]|] b1 Hlt Hb1;
    try (eapply ends_impl; [by apply ends_finishResponse|]; intros [m' c] b2 _ [? ?]; cbn in *; split; [done|lia]).
  - apply ends_then; intros b2 Hb2. eapply ends_impl; [apply IH; [done|lia]|]. intros [m' c] b3 _ [? ?]. cbn in *. split; [done|lia].
  - destruct partial as [m0|]; [apply ends_then; intros b2 Hb2|];
      (eapply ends_impl; [apply IH; [done|lia]|]; intros [m' c] b3 _ [? ?]; cbn in *; split; [done|lia]).
Qed.

Lemma ends_stream fuel b context config : context_bounded context -> config_bounded config -> b < fuel ->
  ends b (streamAssistantResponse env fuel context config)
    (fun r b' => context_bounded r.2 /\ b' + 3 * length (toolCalls (am_content r.1)) <= b).
Proof.
  intros Hctx Hc Hb. unfold streamAssistantResponse. eapply ends_next with (R1 := any).
  { pose proof (cb_transform config Hc) as Ht. destruct (transformContext config); [|by apply ends_ret].
    apply ends_lift_throws; [apply Ht|done]. }
  intros ms b1 Hb1. eapply ends_next; [apply ends_lift_throws with (R := any); [apply Hc|done]|intros llm b2 Hb2].
  eapply ends_next with (R1 := any).
  { pose proof (cb_key config Hc) as Hk. destruct (getApiKey config); [|by apply ends_ret].
    apply ends_lift_throws; [apply Hk|done]. }
  intros key b3 Hb3. cbv zeta. eapply ends_next; [apply ends_act|intros _ b4 Hb4].
  eapply ends_next; [apply ends_lift_throws with (R := any); [apply Henv|done]|intros response b5 Hb5].
  eapply ends_impl; [apply ends_consume; [done|lia]|]. intros [m c] b6 _ [? ?]. cbn in *. split; [done|lia].
Qed.

Lemma update_bounded c u : config_bounded c -> config_bounded (update_config c u).
Proof. intros []. by constructor. Qed.

Lemma ends_prepareTurn b (s : Loop) : loop_bounded s -> ends b (prepareTurn s) (fun s' _ => loop_bounded s').
Proof.
  intros [Hctx Hc]. unfold prepareTurn. destruct (lastCompletedTurn s) as [t|]; [|by apply ends_ret].
  eapply ends_bind with (R1 := fun o _ => opt_all (fun u => opt_all context_bounded (tu_context u)) o).
  { unfold ask. pose proof (cb_prepare _ Hc) as Hp. destruct (prepareNextTurn (config s)) as [f|]; cbn; [|by apply ends_ret].
    destruct (Hp t) as [Hf Hu]. apply ends_lift_throws; [done|]. intros w [u|] Hw Ha; [|done]. by eapply Hu. }
  intros u b1 Hu Hb1.
  set (cc := match u with Some _ => _ | None => _ end). assert (context_bounded cc.1 /\ config_bounded cc.2) as [Hcc1 Hcc2].
  { subst cc. destruct u as [u|]; [|done]. split; [|by apply update_bounded]. cbn in *. by destruct (tu_context u). }
  destruct cc as [context c]. cbn in Hcc1, Hcc2. eapply ends_next with (R1 := any); [|intros pending b2 Hb2; by apply ends_ret].
  destruct (pendingMessages s); [|by apply ends_ret]. eapply ends_impl; [apply ends_take, Hcc2|done].
Qed.

Lemma ends_inject b (s : Loop) : loop_bounded s -> ends b (injectPending env s) (fun s' _ => loop_bounded s').
Proof.
  intros Hs. unfold injectPending. eapply ends_next; [apply ends_for_each; intros m b1 Hb1; apply ends_then; intros; apply ends_emit|].
  intros _ b1 Hb1. by apply ends_ret.
Qed.

(** After a turn another one is needed only if something was spent. *)
Definition after_spending (b : nat) (r : Loop * bool) (b' : nat) : Prop :=
  loop_bounded r.1 /\ (r.2 = false -> turn_needed r.1 = true -> b' < b).

Lemma ends_finishTurn fuel b0 b (s : Loop) message context ms : loop_bounded s -> context_bounded context ->
  b + 3 * length (toolCalls (am_content message)) <= b0 -> b0 < fuel ->
  ends b (finishTurn env fuel s message context ms) (after_spending b0).
Proof.
  intros [Hctx0 Hc] Hctx Hb Hfuel. unfold finishTurn.
  eapply ends_bind; [apply ends_batch; [done..|lia]|intros [results more] b1 Hmore Hb1]. cbn in Hmore.
  apply ends_then; intros b2 Hb2. cbv zeta. eapply ends_next with (R1 := any).
  { unfold ask. pose proof (cb_stop _ Hc) as Hs. destruct (shouldStopAfterTurn (config s)); cbn; [|by apply ends_ret].
    apply ends_lift_throws; [apply Hs|done]. }
  intros stop b3 Hb3. destruct stop.
  - apply ends_then; intros b4 Hb4. apply ends_ret. intros b5 Hb5. by split.
  - eapply ends_bind; [apply ends_take, Hc|intros pending b4 Hlt Hb4]. apply ends_ret. intros b5 Hb5. split; [done|].
    intros _. unfold turn_needed. cbn [fst hasMoreToolCalls pendingMessages]. destruct more; cbn [orb].
    + specialize (Hmore eq_refl). destruct (toolCalls (am_content message)); [done|]. cbn in Hb. lia.
    + intros Hp%negb_true_iff%bool_decide_eq_false. specialize (Hlt Hp). lia.
Qed.

Lemma ends_turn fuel b (s : Loop) : loop_bounded s -> b < fuel -> ends b (turn env fuel s) (after_spending b).
Proof.
  intros Hs Hb. unfold turn. eapply ends_bind with (R1 := fun s' _ => loop_bounded s').
  { destruct (firstTurn s); [by apply ends_ret|]. eapply ends_bind; [by apply ends_prepareTurn|intros s1 b1 Hs1 Hb1].
    apply ends_then; intros b2 Hb2. by apply ends_ret. }
  intros s1 b1 Hs1 Hb1. eapply ends_bind; [by apply ends_inject|intros s2 b2 Hs2 Hb2].
  eapply ends_bind; [apply ends_stream; [apply Hs2..|lia]|intros [message context] b3 [Hctx Hm] Hb3]. cbn in Hctx, Hm.
  destruct (_ || _).
  - apply ends_then; intros b4 Hb4. apply ends_then; intros b5 Hb5. apply ends_ret. intros b6 Hb6. split; [|done]. by destruct Hs2.
  - eapply ends_impl; [apply ends_finishTurn with (b0 := b2); [done..|lia]|]. intros r b4 _ [? Hlt]. split; [done|].
    intros H1 H2. specialize (Hlt H1 H2). lia.
Qed.

Lemma ends_inner fuel n b (s : Loop) : loop_bounded s -> b < fuel -> b < n ->
  ends b (innerLoop env fuel n s) (fun r _ => loop_bounded r.1).
Proof.
  revert b s. induction n as [|n IH]; intros b s Hs Hb Hn; [lia|]. cbn [innerLoop].
  destruct (turn_needed s); [|by apply ends_ret].
  eapply ends_bind; [by apply ends_turn|intros [s' stop] b1 [Hs' Hlt] Hb1]. cbn in Hs', Hlt. destruct stop; [by apply ends_ret|].
  destruct (turn_needed s') eqn:Hneed; [apply IH; [done|lia|]; specialize (Hlt eq_refl eq_refl); lia|].
  destruct n; cbn [innerLoop]; rewrite Hneed; by apply ends_ret.
Qed.

Lemma ends_outer fuel n b (s : Loop) : loop_bounded s -> b < fuel -> b < n -> ends b (outerLoop env fuel n s) any.
Proof.
  revert b s. induction n as [|n IH]; intros b s Hs Hb Hn; [lia|]. cbn [outerLoop].
  eapply ends_bind; [apply ends_inner; [exact Hs|done..]|intros [s' stop] b1 Hs' Hb1]. cbn in Hs'. destruct stop; [by apply ends_ret|].
  eapply ends_bind; [apply ends_take, Hs'|intros [|m ms] b2 Hlt Hb2].
  - apply ends_then; intros b3 Hb3. by apply ends_ret.
  - specialize (Hlt ltac:(done)). apply IH; [exact Hs'|lia..].
Qed.

Lemma ends_runLoop fuel b context ms c : context_bounded context -> config_bounded c -> b < fuel ->
  ends b (runLoop env fuel context ms c) any.
Proof.
  intros Hctx Hc Hb. unfold runLoop. eapply ends_next; [eapply ends_impl with (R' := any); [apply ends_take, Hc|done]|].
  intros pending b1 Hb1. apply ends_outer; [done|lia..].
Qed.

Lemma ends_runAgentLoop fuel b prompts context c : context_bounded context -> config_bounded c -> b < fuel ->
  ends b (runAgentLoop env fuel prompts context c) any.
Proof.
  intros Hctx Hc Hb. unfold runAgentLoop. apply ends_then; intros b1 Hb1. apply ends_then; intros b2 Hb2.
  eapply ends_next; [apply ends_for_each; intros m b3 Hb3; apply ends_then; intros; apply ends_emit|intros _ b3 Hb3].
  eapply ends_next; [apply ends_runLoop; [done..|lia]|intros s b4 Hb4]. by apply ends_ret.
Qed.

Lemma ends_continue fuel b context c : context_bounded context -> config_bounded c -> b < fuel ->
  ends b (runAgentLoopContinue env fuel context c) any.
Proof.
  intros Hctx Hc Hb. unfold runAgentLoopContinue. eapply ends_next with (R1 := any).
  { unfold assertCanContinue. destruct (last (messages context)) as [m|]; [destruct (is_assistant m)|]; try by apply ends_ret; done.
    all: intros s Hs; done. }
  intros _ b1 Hb1. apply ends_then; intros b2 Hb2. apply ends_then; intros b3 Hb3.
  eapply ends_next; [apply ends_runLoop; [done..|lia]|intros s b4 Hb4]. by apply ends_ret.
Qed.
End bounded.
End termination.
