(* ===== verification/AgentInvariant.v ===== *)
(** Invariants of a run: a property of the world and the trace that every emission
    and every call of outside code keeps is kept by the whole loop, also when it
    fails. *)
From S2P Require Import Prelude JsNumber JsTree Messages AgentTypes AgentTools AgentLoop AgentTranscript.

Section invariant.
Context {W Model Running Response : Type} (env : @Environment W Model Running Response).
(** What outside code may do to the world, and the invariant. *)
Context (step : W -> W -> Prop) (I : run_state W -> Prop).

Abbreviation AContext := (@AgentContext W Running).
Abbreviation Config := (@AgentLoopConfig W Model Running).
Abbreviation Loop := (@LoopState W Model Running).
Abbreviation Tool := (@AgentTool W Running).

Definition calm {A} (f : W -> W * A) : Prop := forall w, step w (f w).1.

Definition opt_calm {A} (P : A -> Prop) (o : option A) : Prop := match o with Some a => P a | None => True end.

Record tool_calm (t : Tool) : Prop := {
  tc_prepare : opt_calm (fun f => forall args, calm (f args)) (tool_prepareArguments t);
  tc_execute : forall id args, calm (tool_execute t id args);
  tc_poll : forall r, calm (tool_poll t r);
}.

Definition context_calm (c : AContext) : Prop := Forall tool_calm (default [] (tools c)).

Record config_calm (c : Config) : Prop := {
  cc_convert : forall ms, calm (convertToLlm_ c ms);
  cc_transform : opt_calm (fun f => forall ms, calm (f ms)) (transformContext c);
  cc_key : opt_calm (fun f => forall p, calm (f p)) (getApiKey c);
  cc_stop : opt_calm (fun f => forall t, calm (f t)) (shouldStopAfterTurn c);
  cc_prepare : opt_calm (fun f => forall t, calm (f t) /\
    forall w u, (f t w).2 = Ok (Some u) -> opt_calm context_calm (tu_context u)) (prepareNextTurn c);
  cc_steer : opt_calm calm (getSteeringMessages c);
  cc_follow : opt_calm calm (getFollowUpMessages c);
  cc_before : opt_calm (fun f => forall m call args ctx, calm (f m call args ctx)) (beforeToolCall c);
  cc_after : opt_calm (fun f => forall m call args r e ctx, calm (f m call args r e ctx)) (afterToolCall c);
}.

Record env_calm : Prop := {
  ec_stream : forall m r k sp ms ts, calm (streamFn env m r k sp ms ts);
  ec_next : forall r, calm (response_next env r);
  ec_result : forall r, calm (response_result env r);
  ec_schedule : calm (schedule env);
}.

Hypothesis Henv : env_calm.
Hypothesis I_step : forall s w, I s -> step (world s) w -> I (mkRun w (trace s)).
Hypothesis I_emit : forall e s, I s -> I (mkRun (emit env e (world s)).1 (trace s ++ [Emitted e])).
Hypothesis I_act : forall a s, event_of a = None -> I s -> I (mkRun (world s) (trace s ++ [a])).

(** [m] keeps the invariant, and its value, if it returns, satisfies [P]. *)
Definition holds {A} (m : run W A) (P : A -> Prop) : Prop :=
  forall s, I s -> I (m s).1 /\ forall a, (m s).2 = Ok a -> P a.

Abbreviation any := (fun _ => True) (only parsing).

Lemma holds_ret {A} (a : A) (P : A -> Prop) : P a -> holds (mret a) P.
Proof. intros HP s Hs. split; [done|]. by intros b [= <-]. Qed.

Lemma holds_bind {A B} (m : run W A) (f : A -> run W B) P1 P : holds m P1 -> (forall a, P1 a -> holds (f a) P) -> holds (m ≫= f) P.
Proof.
  intros Hm Hf s Hs. unfold mbind, run_bind. destruct (Hm s Hs) as [Hi Ha]. destruct (m s) as [s1 [a|e]]; cbn in *; [|done].
  by apply Hf; [apply Ha|].
Qed.

Lemma holds_next {A B} (m : run W A) (f : A -> run W B) P : holds m any -> (forall a, holds (f a) P) -> holds (m ≫= f) P.
Proof. intros Hm Hf. eapply holds_bind; [exact Hm|auto]. Qed.

Lemma holds_fail {A} e (P : A -> Prop) : holds (fail_with e) P.
Proof. intros s Hs. done. Qed.

Lemma holds_try {A} (m : run W A) (h : string -> run W A) P : holds m P -> (forall e, holds (h e) P) -> holds (try_catch m h) P.
Proof.
  intros Hm Hh s Hs. unfold try_catch. destruct (Hm s Hs) as [Hi Ha]. destruct (m s) as [s1 [a|[e|]]]; cbn in *; [done| |done].
  by apply Hh.
Qed.

Lemma holds_lift {A} (f : W -> W * A) : calm f -> holds (lift f) any.
Proof. intros Hf s Hs. unfold lift. specialize (Hf (world s)). destruct (f (world s)) as [w a]; cbn in *. split; [by apply I_step|done]. Qed.

Lemma holds_throws {A} (f : W -> W * result string A) (P : A -> Prop) : calm f -> (forall w a, (f w).2 = Ok a -> P a) ->
  holds (lift_throws f) P.
Proof.
  intros Hf HP s Hs. unfold lift_throws. specialize (Hf (world s)). specialize (HP (world s)).
  destruct (f (world s)) as [w [a|e]]; cbn in *; (split; [by apply I_step|]); [|done]. intros b [= <-]. by apply HP.
Qed.

Lemma holds_lift_throws {A} (f : W -> W * result string A) : calm f -> holds (lift_throws f) any.
Proof. intros Hf. by apply holds_throws. Qed.

Lemma holds_reads {A} (f : W -> A) : holds (reads f) any.
Proof. intros s Hs. done. Qed.

Lemma holds_emit e : holds (emit_ env e) any.
Proof.
  intros s Hs. unfold emit_. pose proof (I_emit e s Hs) as He. by destruct (emit env e (world s)).
Qed.

Lemma holds_act a : event_of a = None -> holds (act_ a) any.
Proof. intros Ha s Hs. split; [by apply I_act|done]. Qed.

Lemma holds_ask {A} (hook : option (W -> W * result string A)) a : opt_calm calm hook -> holds (ask hook a) any.
Proof. destruct hook; [apply holds_lift_throws|intros _; by apply holds_ret]. Qed.

Lemma holds_for_each {A B} (f : A -> run W B) l : (forall a, holds (f a) any) -> holds (for_each f l) any.
Proof.
  intros Hf. induction l as [|a l IH]; cbn [for_each]; [by apply holds_ret|].
  apply holds_next; [apply Hf|intros b]. apply holds_next; [done|intros bs; by apply holds_ret].
Qed.

(** Sequences of steps that need no more than the rules above. *)
Ltac inv_steps :=
  repeat first
    [ apply holds_emit | apply holds_reads | by apply holds_ret | by apply holds_act
    | apply holds_next; [|intros ?] | apply holds_for_each; intros ?
    | match goal with |- holds (if ?b then _ else _) _ => destruct b end ].

(** *** Tools *)

Lemma holds_report f : holds (reportResult env f) any.
Proof. unfold reportResult, emitToolResultMessage. inv_steps. Qed.

Lemma holds_truncated calls : holds (failToolCallsFromTruncatedMessage env calls) any.
Proof.
  unfold failToolCallsFromTruncatedMessage, emitToolExecutionStart, emitToolExecutionEnd. inv_steps.
Qed.

Definition preparation_calm (p : @Preparation W Running) : Prop :=
  match p with Prepared pc => tool_calm (pc_tool pc) | _ => True end.

Lemma find_tool_calm context name t : context_calm context -> find_tool context name = Some t -> tool_calm t.
Proof.
  unfold context_calm, find_tool. intros Hc Hf. apply find_some in Hf as [Hin _]. rewrite Forall_forall in Hc.
  by apply Hc, list_elem_of_In.
Qed.

Lemma holds_prepare context message call config : context_calm context -> config_calm config ->
  holds (prepareToolCall env context message call config) preparation_calm.
Proof.
  intros Hctx Hc. unfold prepareToolCall. destruct (find_tool context (tc_name call)) as [tool|] eqn:Hf; [|by apply holds_ret].
  apply find_tool_calm in Hf; [|done]. apply holds_try; [|intros e; by apply holds_ret]. apply holds_next.
  { unfold prepareToolCallArguments. pose proof (tc_prepare _ Hf) as Hp. destruct (tool_prepareArguments tool); [|by apply holds_ret].
    apply holds_next; [apply holds_lift_throws, Hp|intros args; by apply holds_ret]. }
  intros c. apply holds_next; [intros s Hs; cbn; by destruct (tool_validateArguments tool (tc_arguments c))|intros v].
  eapply holds_bind with (P1 := opt_calm preparation_calm).
  - unfold consultHook. pose proof (cc_before _ Hc) as Hb. destruct (beforeToolCall config) as [hook|]; [|by apply holds_ret].
    apply holds_next; [apply holds_lift_throws, Hb|intros r]. apply holds_next; [apply holds_reads|intros []]; [by apply holds_ret|].
    destruct r as [r|]; [destruct (br_block r)|]; by apply holds_ret.
  - intros [o|] Ho; [by apply holds_ret|]. apply holds_next; [apply holds_reads|intros []]; by apply holds_ret.
Qed.

Lemma holds_startTool p : tool_calm (pc_tool p) -> holds (startTool p) any.
Proof. intros Hp. unfold startTool. apply holds_next; [by apply holds_act|intros _]. apply holds_lift_throws, Hp. Qed.

Lemma holds_launch p : tool_calm (pc_tool p) -> holds (launchTool p) any.
Proof.
  intros Hp. apply holds_try; [|intros e; by apply holds_ret]. apply holds_next; [by apply holds_startTool|intros r; by apply holds_ret].
Qed.

Lemma holds_settle rejected (outcome : AgentToolResult * bool) : holds (settleTool rejected outcome) any.
Proof. destruct rejected; cbn [settleTool]; [apply holds_fail|by apply holds_ret]. Qed.

Lemma holds_poll p r rejected : tool_calm (pc_tool p) -> holds (pollTool env p r rejected) any.
Proof.
  intros Hp. unfold pollTool. apply holds_next; [apply holds_lift, Hp|intros [r' []]]; try (by apply holds_ret);
    (apply holds_next; [|intros o; by apply holds_ret]); try apply holds_settle.
  apply holds_try; intros; inv_steps.
Qed.

Lemma holds_execute fuel p : tool_calm (pc_tool p) -> holds (executePreparedToolCall env fuel p) any.
Proof.
  intros Hp. apply holds_next; [by apply holds_launch|intros [r|o]; [|by apply holds_ret]].
  generalize (@None string). revert r. induction fuel as [|fuel IH]; intros r rejected; cbn [awaitTool]; [apply holds_fail|].
  apply holds_next; [by apply holds_poll|intros [[r' rejected'] [o|]]]; [by apply holds_ret|apply IH].
Qed.

Lemma holds_finalize context message p executed config : config_calm config ->
  holds (finalizeExecutedToolCall context message p executed config) any.
Proof.
  intros Hc. unfold finalizeExecutedToolCall. destruct executed as [r e]. pose proof (cc_after _ Hc) as Ha.
  destruct (afterToolCall config); [|by apply holds_ret]. apply holds_try; [|intros m; by apply holds_ret].
  apply holds_next; [apply holds_lift_throws, Ha|intros o; by apply holds_ret].
Qed.

Lemma holds_sequential fuel context message config calls : context_calm context -> config_calm config ->
  holds (sequentialCalls env fuel context message config calls) any.
Proof.
  intros Hctx Hc. induction calls as [|call calls IH]; cbn [sequentialCalls]; [by apply holds_ret|].
  unfold emitToolExecutionStart, emitToolExecutionEnd. apply holds_next; [apply holds_emit|intros _]. apply holds_next.
  - unfold runToolCall. eapply holds_bind; [by apply holds_prepare|intros [p|r e] Hp; [|by apply holds_ret]].
    apply holds_next; [by apply holds_execute|intros ex; by apply holds_finalize].
  - intros f. apply holds_next; [apply holds_emit|intros _]. apply holds_next; [apply holds_report|intros m].
    apply holds_next; [apply holds_reads|intros []]; [by apply holds_ret|].
    apply holds_next; [apply IH|intros others; by apply holds_ret].
Qed.

Definition task_calm (t : @Task W Running) : Prop :=
  match t with Finished _ => True | Thunk p | InTool p _ _ | Ended p _ => tool_calm (pc_tool p) end.

Lemma holds_prepareCalls context message config calls : context_calm context -> config_calm config ->
  holds (prepareCalls env context message config calls) (Forall task_calm).
Proof.
  intros Hctx Hc. induction calls as [|call calls IH]; cbn [prepareCalls]; [by apply holds_ret|].
  apply holds_next; [apply holds_emit|intros _]. eapply holds_bind; [by apply holds_prepare|intros preparation Hp].
  eapply holds_bind with (P1 := task_calm).
  { destruct preparation as [p|r e]; [by apply holds_ret|]. apply holds_next; [apply holds_emit|intros _; by apply holds_ret]. }
  intros t Ht. apply holds_next; [apply holds_reads|intros []]; [apply holds_ret; by repeat constructor|].
  eapply holds_bind; [apply IH|intros tasks Hts]. apply holds_ret. by constructor.
Qed.

Lemma holds_startTask t : task_calm t -> holds (startTask t) task_calm.
Proof.
  intros Ht. destruct t as [f|p|p r rejected|p o]; cbn [startTask]; try by apply holds_ret.
  apply holds_next; [by apply holds_launch|intros [r|o]; by apply holds_ret].
Qed.

Lemma holds_startTasks tasks : Forall task_calm tasks -> holds (for_each startTask tasks) (Forall task_calm).
Proof.
  induction 1 as [|t tasks Ht Hts IH]; cbn [for_each]; [by apply holds_ret|].
  eapply holds_bind; [by apply holds_startTask|intros t' Ht']. eapply holds_bind; [exact IH|intros ts Hts']. apply holds_ret. by constructor.
Qed.

Lemma holds_stepTask context message config t : config_calm config -> task_calm t ->
  holds (stepTask env context message config t) task_calm.
Proof.
  intros Hc Ht. destruct t as [f|p|p r rejected|p o]; cbn [stepTask]; [by apply holds_ret|by apply (holds_startTask (Thunk p))| |].
  - apply holds_next; [by apply holds_poll|intros [[r' rejected'] [o|]]]; by apply holds_ret.
  - apply holds_next; [by apply holds_finalize|intros f]. apply holds_next; [apply holds_emit|intros _; by apply holds_ret].
Qed.

Lemma holds_joinTasks fuel context message config tasks : config_calm config -> Forall task_calm tasks ->
  holds (joinTasks env fuel context message config tasks) any.
Proof.
  intros Hc. revert tasks. induction fuel as [|fuel IH]; intros tasks Hts; cbn [joinTasks];
    (destruct (mapM finished tasks) as [fs|]; [by apply holds_ret|]); [apply holds_fail|].
  apply holds_next; [apply holds_lift, Henv|intros k]. destruct (pick_task k tasks) as [[i t]|] eqn:Hk; [|apply holds_fail].
  apply AgentLifecycle.pick_task_Some in Hk as [Hi _].
  eapply holds_bind; [apply holds_stepTask; [done|by eapply Forall_lookup_1]|intros t' Ht']. apply IH. by apply Forall_insert.
Qed.

Lemma holds_batch fuel context message config : context_calm context -> config_calm config ->
  holds (runBatch env fuel context message config) any.
Proof.
  intros Hctx Hc. unfold runBatch. destruct (toolCalls (am_content message)) as [|call calls]; [by apply holds_ret|].
  apply holds_next; [|intros b; by apply holds_ret]. destruct (bool_decide _); [apply holds_truncated|].
  unfold executeToolCalls. cbv zeta. destruct (_ || _).
  - apply holds_next; [by apply holds_sequential|intros fs; by apply holds_ret].
  - unfold executeToolCallsParallel. eapply holds_bind; [by apply holds_prepareCalls|intros tasks Hts].
    eapply holds_bind; [by apply holds_startTasks|intros started Hss]. apply holds_next; [by apply holds_joinTasks|intros fs].
    apply holds_next; [apply holds_for_each; intros f; apply holds_report|intros ms; by apply holds_ret].
Qed.

(** *** The loop *)

Definition loop_calm (s : Loop) : Prop := context_calm (currentContext s) /\ config_calm (config s).

Lemma holds_take hook : opt_calm calm hook -> holds (take_messages hook) any.
Proof.
  intros Hh. unfold take_messages. apply holds_next; [by apply holds_ask|intros [|m ms]]; [by apply holds_ret|].
  apply holds_next; [by apply holds_act|intros _; by apply holds_ret].
Qed.

Lemma holds_finishResponse response added context : context_calm context ->
  holds (finishResponse env response added context) (fun r => context_calm r.2).
Proof.
  intros Hctx. unfold finishResponse. apply holds_next; [apply holds_lift_throws, Henv|intros m]. cbv zeta.
  apply holds_next; [destruct added; [by apply holds_ret|apply holds_emit]|intros _].
  apply holds_next; [apply holds_emit|intros _]. apply holds_ret. by destruct added.
Qed.

Lemma holds_consume fuel response partial added context : context_calm context ->
  holds (consumeResponse env fuel response partial added context) (fun r => context_calm r.2).
Proof.
  revert partial added context. induction fuel as [|fuel IH]; intros partial added context Hctx; cbn [consumeResponse]; [apply holds_fail|].
  apply holds_next; [apply holds_lift_throws, Henv|intros [[m|k i m|m|m]|]]; try by apply holds_finishResponse.
  - apply holds_next; [apply holds_emit|intros _]. by apply IH.
  - destruct partial; [|by apply IH]. apply holds_next; [apply holds_emit|intros _]. by apply IH.
Qed.

Lemma holds_stream fuel context config : context_calm context -> config_calm config ->
  holds (streamAssistantResponse env fuel context config) (fun r => context_calm r.2).
Proof.
  intros Hctx Hc. unfold streamAssistantResponse. apply holds_next.
  { pose proof (cc_transform _ Hc) as Ht. destruct (transformContext config); [apply holds_lift_throws, Ht|by apply holds_ret]. }
  intros ms. apply holds_next; [apply holds_lift_throws, Hc|intros llm]. apply holds_next.
  { pose proof (cc_key _ Hc) as Hk. destruct (getApiKey config); [apply holds_lift_throws, Hk|by apply holds_ret]. }
  intros key. cbv zeta. apply holds_next; [by apply holds_act|intros _].
  apply holds_next; [apply holds_lift_throws, Henv|intros response]. by apply holds_consume.
Qed.

Lemma update_calm c u : config_calm c -> config_calm (update_config c u).
Proof. intros []. by constructor. Qed.

Lemma holds_prepareTurn (s : Loop) : loop_calm s -> holds (prepareTurn s) loop_calm.
Proof.
  intros [Hctx Hc]. unfold prepareTurn. destruct (lastCompletedTurn s) as [t|]; [|by apply holds_ret].
  eapply holds_bind with (P1 := opt_calm (fun u => opt_calm context_calm (tu_context u))).
  { unfold ask. pose proof (cc_prepare _ Hc) as Hp. destruct (prepareNextTurn (config s)) as [f|]; cbn; [|by apply holds_ret].
    destruct (Hp t) as [Hf Hu]. apply holds_throws; [done|]. intros w [u|] Ha; [|done]. by eapply Hu. }
  intros u Hu. set (cc := match u with Some _ => _ | None => _ end).
  assert (context_calm cc.1 /\ config_calm cc.2) as [Hcc1 Hcc2].
  { subst cc. destruct u as [u|]; [|done]. split; [|by apply update_calm]. cbn in *. by destruct (tu_context u). }
  destruct cc as [context c]. cbn in Hcc1, Hcc2. apply holds_next; [|intros pending; by apply holds_ret].
  destruct (pendingMessages s); [apply holds_take, Hcc2|by apply holds_ret].
Qed.

Lemma holds_announce ms : holds (for_each (fun m => emit_ env (message_start m);; emit_ env (message_end m)) ms) any.
Proof. apply holds_for_each. intros m. apply holds_next; [apply holds_emit|intros _; apply holds_emit]. Qed.

Lemma holds_finishTurn fuel (s : Loop) message context ms : loop_calm s -> context_calm context ->
  holds (finishTurn env fuel s message context ms) (fun r => loop_calm r.1).
Proof.
  intros [_ Hc] Hctx. unfold finishTurn. apply holds_next; [by apply holds_batch|intros [results more]].
  apply holds_next; [apply holds_emit|intros _]. cbv zeta. apply holds_next.
  { unfold ask. pose proof (cc_stop _ Hc) as Hs. destruct (shouldStopAfterTurn (config s)); cbn; [apply holds_lift_throws, Hs|by apply holds_ret]. }
  intros []; [apply holds_next; [apply holds_emit|intros _; by apply holds_ret]|].
  apply holds_next; [apply holds_take, Hc|intros pending; by apply holds_ret].
Qed.

Lemma holds_turn fuel (s : Loop) : loop_calm s -> holds (turn env fuel s) (fun r => loop_calm r.1).
Proof.
  intros Hs. unfold turn. eapply holds_bind with (P1 := loop_calm).
  { destruct (firstTurn s); [by apply holds_ret|]. eapply holds_bind; [by apply holds_prepareTurn|intros s1 Hs1].
    apply holds_next; [apply holds_emit|intros _; by apply holds_ret]. }
  intros s1 Hs1. eapply holds_bind with (P1 := loop_calm).
  { unfold injectPending. apply holds_next; [apply holds_announce|intros _]. by apply holds_ret. }
  intros s2 Hs2. eapply holds_bind; [apply holds_stream; apply Hs2|intros [message context] Hctx]. cbn in Hctx.
  destruct (_ || _); [|by apply holds_finishTurn].
  apply holds_next; [apply holds_emit|intros _]. apply holds_next; [apply holds_emit|intros _]. apply holds_ret. split; [done|apply Hs2].
Qed.

Lemma holds_inner fuel n (s : Loop) : loop_calm s -> holds (innerLoop env fuel n s) (fun r => loop_calm r.1).
Proof.
  revert s. induction n as [|n IH]; intros s Hs; cbn [innerLoop]; (destruct (turn_needed s); [|by apply holds_ret]);
    [apply holds_fail|].
  eapply holds_bind; [by apply holds_turn|intros [s' []] Hs']; [by apply holds_ret|by apply IH].
Qed.

Lemma holds_outer fuel n (s : Loop) : loop_calm s -> holds (outerLoop env fuel n s) any.
Proof.
  revert s. induction n as [|n IH]; intros s Hs; cbn [outerLoop]; [apply holds_fail|].
  eapply holds_bind; [apply holds_inner, Hs|intros [s' []] Hs']; cbn in Hs'; [by apply holds_ret|].
  apply holds_next; [apply holds_take, Hs'|intros [|m ms]]; [|by apply IH].
  apply holds_next; [apply holds_emit|intros _; by apply holds_ret].
Qed.

Lemma holds_runLoop fuel context ms c : context_calm context -> config_calm c -> holds (runLoop env fuel context ms c) any.
Proof.
  intros Hctx Hc. unfold runLoop. apply holds_next; [apply holds_take, Hc|intros pending]. by apply holds_outer.
Qed.

Lemma holds_runAgentLoop fuel prompts context c : context_calm context -> config_calm c ->
  holds (runAgentLoop env fuel prompts context c) any.
Proof.
  intros Hctx Hc. unfold runAgentLoop. apply holds_next; [apply holds_emit|intros _]. apply holds_next; [apply holds_emit|intros _].
  apply holds_next; [apply holds_announce|intros _]. apply holds_next; [by apply holds_runLoop|intros s; by apply holds_ret].
Qed.

Lemma holds_continue fuel context c : context_calm context -> config_calm c ->
  holds (runAgentLoopContinue env fuel context c) any.
Proof.
  intros Hctx Hc. unfold runAgentLoopContinue. apply holds_next.
  { unfold assertCanContinue. destruct (last (messages context)) as [m|]; [destruct (is_assistant m)|];
      [apply holds_fail|by apply holds_ret|apply holds_fail]. }
  intros _. apply holds_next; [apply holds_emit|intros _]. apply holds_next; [apply holds_emit|intros _].
  apply holds_next; [by apply holds_runLoop|intros s; by apply holds_ret].
Qed.
End invariant.
