(* ===== verification/Agent.v ===== *)
(** The stateful agent: [packages/agent/src/agent.ts].

    The agent's object is part of the world the loop runs in: the sink of the loop is
    [processEvents], its queues are the agent's.  Hooks, tools and listeners are
    functions of the whole world that may throw; what they may do to the agent is its
    public interface, [api_step].  The hooks and the listeners are those the agent has
    when the run starts. *)
From S2P Require Import Prelude JsNumber JsTree Messages AgentTypes AgentTools AgentLoop AgentTranscript AgentInvariant.
Local Open Scope Z_scope.

Inductive QueueMode : Type := mode_all | mode_one_at_a_time.

Record PendingMessageQueue := mkQueue {
  q_messages : list AgentMessage;
  q_mode : QueueMode;
}.

Definition enqueue (m : AgentMessage) (q : PendingMessageQueue) : PendingMessageQueue := mkQueue (q_messages q ++ [m]) (q_mode q).
Definition hasItems (q : PendingMessageQueue) : bool := match q_messages q with [] => false | _ => true end.
Definition drain (q : PendingMessageQueue) : list AgentMessage * PendingMessageQueue :=
  match q_mode q, q_messages q with
  | mode_all, ms => (ms, mkQueue [] (q_mode q))
  | mode_one_at_a_time, [] => ([], q)
  | mode_one_at_a_time, first :: rest => ([first], mkQueue rest (q_mode q))
  end.
Definition clear (q : PendingMessageQueue) : PendingMessageQueue := mkQueue [] (q_mode q).

Record AgentState := mkAgent {
  ag_messages : list AgentMessage;
  ag_isStreaming : bool;
  ag_streamingMessage : option AgentMessage;
  ag_pendingToolCalls : gset string;
  ag_errorMessage : option string;
  ag_steering : PendingMessageQueue;
  ag_followUp : PendingMessageQueue;
  ag_activeRun : option bool;  (* whether the signal of the active run is aborted *)
  ag_skipInitialSteeringPoll : bool;  (* the variable of the closure in [createLoopConfig] *)
}.

Record AgentWorld (O : Type) := mkWorld { agent : AgentState; outside : O }.
Arguments mkWorld {O} agent outside.
Arguments agent {O} _.
Arguments outside {O} _.

(** What [prompt] takes: a text with images, one message, or a batch. *)
Inductive PromptInput : Type :=
  | InputText (text : string) (images : option (list (string * string)))
  | InputMessage (m : AgentMessage)
  | InputMessages (ms : list AgentMessage).

Definition normalizePromptInput (timestamp : jsnum) (input : PromptInput) : list AgentMessage :=
  match input with
  | InputMessages ms => ms
  | InputMessage m => [m]
  | InputText text images =>
      let content := TextC text None :: map (fun image => ImageC image.1 image.2) (default [] images) in
      [MUser (mkUserMessage (Blocks content) timestamp)]
  end.

(** ** Updates of the fields *)

Definition set_queues (steering followUp : PendingMessageQueue) (a : AgentState) : AgentState :=
  mkAgent (ag_messages a) (ag_isStreaming a) (ag_streamingMessage a) (ag_pendingToolCalls a) (ag_errorMessage a)
    steering followUp (ag_activeRun a) (ag_skipInitialSteeringPoll a).

Definition set_run (isStreaming : bool) (streaming : option AgentMessage) (calls : gset string) (error : option string)
    (active : option bool) (a : AgentState) : AgentState :=
  mkAgent (ag_messages a) isStreaming streaming calls error (ag_steering a) (ag_followUp a) active (ag_skipInitialSteeringPoll a).

Definition set_skip (skip : bool) (a : AgentState) : AgentState :=
  mkAgent (ag_messages a) (ag_isStreaming a) (ag_streamingMessage a) (ag_pendingToolCalls a) (ag_errorMessage a)
    (ag_steering a) (ag_followUp a) (ag_activeRun a) skip.

(** [state.messages = ms], and [state.messages.push]. *)
Definition set_messages (ms : list AgentMessage) (a : AgentState) : AgentState :=
  mkAgent ms (ag_isStreaming a) (ag_streamingMessage a) (ag_pendingToolCalls a) (ag_errorMessage a)
    (ag_steering a) (ag_followUp a) (ag_activeRun a) (ag_skipInitialSteeringPoll a).

Definition set_streaming (m : option AgentMessage) (a : AgentState) : AgentState :=
  set_run (ag_isStreaming a) m (ag_pendingToolCalls a) (ag_errorMessage a) (ag_activeRun a) a.

Definition set_calls (calls : gset string) (a : AgentState) : AgentState :=
  set_run (ag_isStreaming a) (ag_streamingMessage a) calls (ag_errorMessage a) (ag_activeRun a) a.

Definition add_message (m : AgentMessage) (a : AgentState) : AgentState := set_messages (ag_messages a ++ [m]) a.

(** ** The public interface *)

Definition steer (m : AgentMessage) (a : AgentState) : AgentState := set_queues (enqueue m (ag_steering a)) (ag_followUp a) a.
Definition followUp (m : AgentMessage) (a : AgentState) : AgentState := set_queues (ag_steering a) (enqueue m (ag_followUp a)) a.
Definition clearSteeringQueue (a : AgentState) : AgentState := set_queues (clear (ag_steering a)) (ag_followUp a) a.
Definition clearFollowUpQueue (a : AgentState) : AgentState := set_queues (ag_steering a) (clear (ag_followUp a)) a.
Definition clearAllQueues (a : AgentState) : AgentState := clearFollowUpQueue (clearSteeringQueue a).
Definition set_steeringMode (mode : QueueMode) (a : AgentState) : AgentState :=
  set_queues (mkQueue (q_messages (ag_steering a)) mode) (ag_followUp a) a.
Definition set_followUpMode (mode : QueueMode) (a : AgentState) : AgentState :=
  set_queues (ag_steering a) (mkQueue (q_messages (ag_followUp a)) mode) a.
Definition hasQueuedMessages (a : AgentState) : bool := hasItems (ag_steering a) || hasItems (ag_followUp a).

Definition abort (a : AgentState) : AgentState :=
  set_run (ag_isStreaming a) (ag_streamingMessage a) (ag_pendingToolCalls a) (ag_errorMessage a)
    (match ag_activeRun a with Some _ => Some true | None => None end) a.

Definition reset (a : AgentState) : result failure AgentState :=
  match ag_activeRun a with
  | Some _ => Err (Thrown "Agent is already processing. Wait for completion before resetting.")
  | None =>
      Ok (mkAgent [] false None ∅ None (clear (ag_steering a)) (clear (ag_followUp a)) None (ag_skipInitialSteeringPoll a))
  end.

(** What code outside the run may do while it is active: the public interface and the
    assignable fields of [state] ([prompt], [continue] and [reset] throw then and change
    nothing), and the end of a tool call that an earlier run has abandoned. *)
Inductive api_step : AgentState -> AgentState -> Prop :=
  | api_steer m a : api_step a (steer m a)
  | api_followUp m a : api_step a (followUp m a)
  | api_clearSteering a : api_step a (clearSteeringQueue a)
  | api_clearFollowUp a : api_step a (clearFollowUpQueue a)
  | api_steeringMode mode a : api_step a (set_steeringMode mode a)
  | api_followUpMode mode a : api_step a (set_followUpMode mode a)
  | api_abort a : api_step a (abort a)
  | api_messages ms a : api_step a (set_messages ms a)
  | api_abandoned id a : api_step a (set_calls (ag_pendingToolCalls a ∖ {[id]}) a).

(** ** Events *)

(** The state after an event. *)
Definition reduce_event (e : AgentEvent) (a : AgentState) : AgentState :=
  match e with
  | message_start m => set_streaming (Some m) a
  | message_update m _ => set_streaming (Some (MAssistant m)) a
  | message_end m => add_message m (set_streaming None a)
  | tool_execution_start id _ _ => set_calls ({[id]} ∪ ag_pendingToolCalls a) a
  | tool_execution_end id _ _ _ => set_calls (ag_pendingToolCalls a ∖ {[id]}) a
  | turn_end m _ =>
      match truthy_str (am_errorMessage m) with
      | Some message =>
          set_run (ag_isStreaming a) (ag_streamingMessage a) (ag_pendingToolCalls a) (Some message) (ag_activeRun a) a
      | None => a
      end
  | agent_end _ => set_streaming None a
  | _ => a
  end.

Section agent.
Context {O Model Running Response : Type}.
Abbreviation World := (AgentWorld O).
Abbreviation AContext := (@AgentContext World Running).
Abbreviation Config := (@AgentLoopConfig World Model Running).

(** The options of the constructor and the listeners.  The fields of [state] that the
    agent only reads (system prompt, model, thinking level, tools) may be assigned at
    any time: they are kept by the code outside. *)
Record AgentOptions := mkOptions {
  o_systemPrompt : O -> string;
  o_model : O -> Model;
  o_model_api : Model -> string;
  o_model_provider : Model -> string;
  o_model_id : Model -> string;
  o_thinkingLevel : O -> string;
  o_tools : O -> list (@AgentTool World Running);
  o_convertToLlm : option (list AgentMessage -> World -> World * result string (list AgentMessage));
  o_transformContext : option (list AgentMessage -> World -> World * result string (list AgentMessage));
  o_getApiKey : option (string -> World -> World * result string (option string));
  o_beforeToolCall : option (AssistantMessage -> ToolCall -> jstree -> AContext -> World -> World * result string (option BeforeToolCallResult));
  o_afterToolCall : option (AssistantMessage -> ToolCall -> jstree -> AgentToolResult -> bool -> AContext -> World -> World * result string (option AfterToolCallResult));
  o_shouldStopAfterTurn : option (@CompletedTurn World Running -> World -> World * result string bool);
  o_prepareNextTurn : option (World -> World * result string (option (@AgentLoopTurnUpdate World Model Running)));
  o_prepareNextTurnWithContext : option (@CompletedTurn World Running -> World -> World * result string (option (@AgentLoopTurnUpdate World Model Running)));
  o_toolExecution : option ToolExecutionMode;
  o_listeners : list (AgentEvent -> World -> World * result string unit);
  o_now : World -> jsnum;
  o_streamFn : Model -> option string -> option string -> string -> list AgentMessage -> option (list (@AgentTool World Running)) -> World -> World * result string Response;
  o_next : Response -> World -> World * result string (option AssistantMessageEvent);
  o_result : Response -> World -> World * result string AssistantMessage;
  o_schedule : World -> World * nat;
}.

Context (options : AgentOptions).

Definition on_agent (f : AgentState -> AgentState) (w : World) : World := mkWorld (f (agent w)) (outside w).

(** [for (const listener of this.listeners) await listener(event, signal)]. *)
Fixpoint notify (listeners : list (AgentEvent -> World -> World * result string unit)) (e : AgentEvent) (w : World)
    : World * result string unit :=
  match listeners with
  | [] => (w, Ok ())
  | listener :: rest => match listener e w with (w', Ok _) => notify rest e w' | (w', Err message) => (w', Err message) end
  end.

Definition processEvents (e : AgentEvent) (w : World) : World * result string unit :=
  let w' := on_agent (reduce_event e) w in
  match ag_activeRun (agent w') with
  | None => (w', Err "Agent listener invoked outside active run")
  | Some _ => notify (o_listeners options) e w'
  end.

Definition is_llm_message (m : AgentMessage) : bool :=
  match m with MUser _ | MAssistant _ | MToolResult _ => true | _ => false end.
Definition defaultConvertToLlm (ms : list AgentMessage) : list AgentMessage := List.filter is_llm_message ms.

Definition drainSteering (w : World) : World * list AgentMessage :=
  let '(ms, q) := drain (ag_steering (agent w)) in (on_agent (set_queues q (ag_followUp (agent w))) w, ms).
Definition drainFollowUp (w : World) : World * list AgentMessage :=
  let '(ms, q) := drain (ag_followUp (agent w)) in (on_agent (set_queues (ag_steering (agent w)) q) w, ms).

Definition agent_environment : @Environment World Model Running Response :=
  mkEnvironment processEvents (fun w => default false (ag_activeRun (agent w))) (o_now options) (o_streamFn options)
    (o_next options) (o_result options) (o_schedule options).

Definition pollSteering (w : World) : World * result string (list AgentMessage) :=
  if ag_skipInitialSteeringPoll (agent w) then (on_agent (set_skip false) w, Ok [])
  else let '(w', ms) := drainSteering w in (w', Ok ms).

Definition pollFollowUp (w : World) : World * result string (list AgentMessage) :=
  let '(w', ms) := drainFollowUp w in (w', Ok ms).

Definition createLoopConfig (w : World) : Config :=
  let level := o_thinkingLevel options (outside w) in
  mkConfig (o_model options (outside w)) (o_model_provider options) (if String.eqb level "off" then None else Some level)
    None (o_toolExecution options)
    (default (fun ms w => (w, Ok (defaultConvertToLlm ms))) (o_convertToLlm options))
    (o_transformContext options) (o_getApiKey options) (o_shouldStopAfterTurn options)
    (match o_prepareNextTurnWithContext options, o_prepareNextTurn options with
     | Some withContext, _ => Some withContext
     | None, Some withoutContext => Some (fun _ => withoutContext)
     | None, None => None
     end)
    (Some pollSteering) (Some pollFollowUp) (o_beforeToolCall options) (o_afterToolCall options).

Definition createContextSnapshot (w : World) : AContext :=
  mkContext (o_systemPrompt options (outside w)) (ag_messages (agent w)) (Some (o_tools options (outside w))).

(** ** Runs *)

Definition update (f : AgentState -> AgentState) : run World unit := fun s => (mkRun (on_agent f (world s)) (trace s), Ok ()).

Definition EMPTY_USAGE : Usage :=
  mkUsage (JInt 0) (JInt 0) (JInt 0) (JInt 0) None None (JInt 0) (mkCost (JInt 0) (JInt 0) (JInt 0) (JInt 0) (JInt 0)).

Definition failureMessage (m : Model) (error : string) (aborted : bool) (timestamp : jsnum) : AssistantMessage :=
  mkAssistantMessage [TextC EmptyString None] (o_model_api options m) (o_model_provider options m) (o_model_id options m)
    None None None EMPTY_USAGE (if aborted then SRaborted else SRerror) None (Some error) None None timestamp.

Definition handleRunFailure (error : string) : run World unit :=
  aborted ← is_aborted agent_environment;
  model ← reads (fun w => o_model options (outside w));
  timestamp ← reads (o_now options);
  let m := failureMessage model error aborted timestamp in
  emit_ agent_environment (message_start (MAssistant m));;
  emit_ agent_environment (message_end (MAssistant m));;
  emit_ agent_environment (turn_end m []);;
  emit_ agent_environment (agent_end [MAssistant m]).

Definition startRun (a : AgentState) : AgentState := set_run true None (ag_pendingToolCalls a) None (Some false) a.
Definition finishRun (a : AgentState) : AgentState := set_run false None ∅ (ag_errorMessage a) None a.

Definition runWithLifecycle {A} (executor : run World A) : run World unit :=
  active ← reads (fun w => ag_activeRun (agent w));
  match (active : option bool) with
  | Some _ => fail_with (Thrown "Agent is already processing.")
  | None =>
      update startRun;;
      try_finally (try_catch (executor;; mret ()) handleRunFailure) (update finishRun)
  end.

Definition runPromptMessages (fuel : nat) (ms : list AgentMessage) (skipInitialSteeringPoll : bool) : run World unit :=
  runWithLifecycle
    (context ← reads createContextSnapshot;
     config ← reads createLoopConfig;
     update (set_skip skipInitialSteeringPoll);;
     runAgentLoop agent_environment fuel ms context config).

Definition runContinuation (fuel : nat) : run World unit :=
  runWithLifecycle
    (context ← reads createContextSnapshot;
     config ← reads createLoopConfig;
     update (set_skip false);;
     runAgentLoopContinue agent_environment fuel context config).

Definition guardIdle (message : string) : run World unit :=
  active ← reads (fun w => ag_activeRun (agent w));
  match (active : option bool) with Some _ => fail_with (Thrown message) | None => mret () end.

Definition prompt (fuel : nat) (input : PromptInput) : run World unit :=
  guardIdle "Agent is already processing a prompt. Use steer() or followUp() to queue messages, or wait for completion.";;
  timestamp ← reads (o_now options);
  runPromptMessages fuel (normalizePromptInput timestamp input) false.

Definition continue_ (fuel : nat) : run World unit :=
  guardIdle "Agent is already processing. Wait for completion before continuing.";;
  lastMessage ← reads (fun w => last (ag_messages (agent w)));
  match (lastMessage : option AgentMessage) with
  | None => fail_with (Thrown "No messages to continue from")
  | Some m =>
      if is_assistant m then
        queuedSteering ← lift drainSteering;
        match (queuedSteering : list AgentMessage) with
        | _ :: _ => runPromptMessages fuel queuedSteering true
        | [] =>
            queuedFollowUps ← lift drainFollowUp;
            match (queuedFollowUps : list AgentMessage) with
            | _ :: _ => runPromptMessages fuel queuedFollowUps false
            | [] => fail_with (Thrown "Cannot continue from message role: assistant")
            end
        end
      else runContinuation fuel
  end.
End agent.
