(* ===== verification/AgentRuns.v ===== *)
(** Runs of the agent: a request is refused and changes nothing, or the agent runs
    and settles, whatever the outside code does with its public interface. *)
From S2P Require Import Prelude JsNumber JsTree Messages AgentTypes AgentTools AgentLoop AgentLifecycle AgentTranscript AgentTermination AgentInvariant Agent.

Inductive request : Type := Prompt (input : PromptInput) | Continue.

(** What the public interface leaves alone while a run is active, and what it leaves
    alone too when nothing assigns [state.messages]. *)
Definition respects (a a' : AgentState) : Prop :=
  ag_isStreaming a' = ag_isStreaming a /\ ag_errorMessage a' = ag_errorMessage a /\
  (is_Some (ag_activeRun a) -> is_Some (ag_activeRun a')).
Definition keeps_messages (a a' : AgentState) : Prop := ag_messages a' = ag_messages a.

#[export] Instance respects_preorder : PreOrder respects.
Proof. split; [by intros a|]. intros a b c (?&?&?) (?&?&?). unfold respects. split_and!; [congruence..|auto]. Qed.
#[export] Instance keeps_messages_preorder : PreOrder keeps_messages.
Proof. split; [by intros a|]. unfold keeps_messages. congruence. Qed.

Lemma api_respects a a' : rtc api_step a a' -> respects a a'.
Proof.
  induction 1 as [|a b c Hab _ IH]; [done|]. transitivity b; [|done].
  inversion Hab; subst; unfold respects; cbn; split_and!; try done. by destruct (ag_activeRun a).
Qed.

(** The error message an event leaves in the state. *)
Definition reported_error (a : act) : option string :=
  match a with Emitted (turn_end m _) => truthy_str (am_errorMessage m) | _ => None end.
Definition last_error (l : list act) : option string := last (omap reported_error l).

Definition failure_events (m : AssistantMessage) : list AgentEvent :=
  [message_start (MAssistant m); message_end (MAssistant m); turn_end m []; agent_end [MAssistant m]].

(** The agent is idle again, and its error is the last one the run reported. *)
Definition settled (l : list act) (a : AgentState) : Prop :=
  ag_activeRun a = None /\ ag_isStreaming a = false /\ ag_streamingMessage a = None /\ ag_pendingToolCalls a = ∅ /\
  ag_errorMessage a = last_error l.

Definition accepted (r : request) (a : AgentState) : bool :=
  match ag_activeRun a with
  | Some _ => false
  | None =>
      match r with
      | Prompt _ => true
      | Continue =>
          match last (ag_messages a) with
          | None => false
          | Some m => negb (is_assistant m) || hasQueuedMessages a
          end
      end
  end.

Section runs.
Context {O Model Running Response : Type} (options : @AgentOptions O Model Running Response).
Abbreviation World := (AgentWorld O).
Abbreviation env := (agent_environment options).

Definition serve (fuel : nat) (r : request) : run World unit :=
  match r with Prompt input => prompt options fuel input | Continue => continue_ options fuel end.

(** One of the listeners throws on the event. *)
Definition listener_threw (e : AgentEvent) (error : string) : Prop :=
  exists listener w, listener ∈ o_listeners options /\ (listener e w).2 = Err error.

Definition reports_failure (m : AssistantMessage) : Prop :=
  am_stopReason m ∈ [SRaborted; SRerror] /\ is_Some (am_errorMessage m).

(** The acts of a run and how it ends: a complete life cycle; a part of one closed by
    the events of a failure message; or that, cut short where a listener throws again,
    and then the run throws what the listener threw. *)
Inductive run_acts : list act -> result failure unit -> Prop :=
  | acts_complete l ms : event_steps Idle (events l) (Over ms) -> run_acts l (Ok ())
  | acts_failed l p m : event_steps Idle (events l) p -> reports_failure m ->
      run_acts (l ++ map Emitted (failure_events m)) (Ok ())
  | acts_rejected l p m reported e rest error : event_steps Idle (events l) p -> reports_failure m ->
      failure_events m = reported ++ e :: rest -> listener_threw e error ->
      run_acts (l ++ map Emitted (reported ++ [e])) (Err (Thrown error)).

(** *** What a request starts *)

(** A drained queue: what it held, or nothing when it is empty. *)
Lemma drain_spec q : let '(ms, q') := drain q in
  q_messages q = ms ++ q_messages q' /\ q_mode q' = q_mode q /\ hasItems q = (match ms with [] => false | _ => true end) /\
  (ms = [] -> q' = q).
Proof. destruct q as [[|m ms] []]; cbn; split_and!; try done; by rewrite app_nil_r. Qed.

Lemma drain_length q : let '(ms, q') := drain q in (length (q_messages q) = length ms + length (q_messages q'))%nat.
Proof. pose proof (drain_spec q) as Hq. destruct (drain q) as [ms q']. destruct Hq as (-> & _). apply length_app. Qed.

Lemma set_queues_same (s : run_state World) :
  mkRun (on_agent (set_queues (ag_steering (agent (world s))) (ag_followUp (agent (world s)))) (world s)) (trace s) = s.
Proof. by destruct s as [[[] ?] ?]. Qed.

Definition refuses (m : run World unit) (s : run_state World) : Prop := exists e, m s = (s, Err (Thrown e)).

Definition queued (q : PendingMessageQueue) : nat := length (q_messages q).

(** An accepted request is a run of the loop from the same state but for the queues
    [continue] drained; any other request throws and changes nothing. *)
Lemma serve_cases fuel r s :
  if accepted r (agent (world s)) then
    exists q1 q2 m, (queued q1 <= queued (ag_steering (agent (world s))))%nat /\ (queued q2 <= queued (ag_followUp (agent (world s))))%nat /\
      serve fuel r s = m (mkRun (on_agent (set_queues q1 q2) (world s)) (trace s)) /\ ag_activeRun (agent (world s)) = None /\
      ((exists ms skip, m = runPromptMessages options fuel ms skip) \/ m = runContinuation options fuel)
  else refuses (serve fuel r) s.
Proof.
  unfold accepted. destruct (ag_activeRun (agent (world s))) as [b|] eqn:Hidle.
  { destruct r; eexists; cbn; unfold prompt, continue_, guardIdle, mbind, run_bind, reads; by rewrite Hidle. }
  set (st := ag_steering (agent (world s))). set (fo := ag_followUp (agent (world s))). destruct r as [input|]; cbn [serve].
  { exists st, fo, (runPromptMessages options fuel (normalizePromptInput (o_now options (world s)) input) false). subst st fo. rewrite set_queues_same.
    unfold prompt, guardIdle, mbind, run_bind, reads. rewrite Hidle. split_and!; eauto. }
  unfold continue_, guardIdle, refuses, mbind, run_bind, reads, mret, run_ret, hasQueuedMessages. rewrite Hidle. cbv beta iota. cbn [world trace].
  destruct (last (ag_messages (agent (world s)))) as [m|]; [|cbn; by eexists]. destruct (is_assistant m); cbn [negb orb].
  2: { exists st, fo, (runContinuation options fuel). subst st fo. rewrite set_queues_same. split_and!; eauto. }
  unfold lift, drainSteering, drainFollowUp. fold st fo. pose proof (drain_spec st) as Hsteer. pose proof (drain_length st) as Hlen.
  destruct (drain st) as [[|m1 ms1] q]; destruct Hsteer as (_ & _ & Hnil & Hsame); rewrite Hnil.
  - rewrite (Hsame eq_refl). cbn [orb]. unfold st, fo. rewrite set_queues_same. fold st fo.
    pose proof (drain_spec fo) as Hfollow. pose proof (drain_length fo) as Hlen2.
    destruct (drain fo) as [[|m2 ms2] q2]; destruct Hfollow as (_ & _ & Hnil2 & Hsame2); rewrite Hnil2.
    + rewrite (Hsame2 eq_refl). unfold st, fo. rewrite set_queues_same. cbn; by eexists.
    + exists st, q2, (runPromptMessages options fuel (m2 :: ms2) false). unfold queued. split_and!; [done|cbn in Hlen2; lia|done|done|eauto].
  - exists q, fo, (runPromptMessages options fuel (m1 :: ms1) true). unfold queued. split_and!; [cbn in Hlen; lia|done|done|done|eauto].
Qed.

(** Outside code whose every call does to the agent no more than [step]. *)
Section within.
Context (step : AgentState -> AgentState -> Prop).

Definition within (w w' : World) : Prop := step (agent w) (agent w').

Record options_within : Prop := {
  ow_env : env_calm env within;
  ow_listeners : Forall (fun f => forall e, calm within (f e)) (o_listeners options);
  ow_tools : forall o, Forall (tool_calm within) (o_tools options o);
  ow_convert : opt_calm (fun f => forall ms, calm within (f ms)) (o_convertToLlm options);
  ow_transform : opt_calm (fun f => forall ms, calm within (f ms)) (o_transformContext options);
  ow_key : opt_calm (fun f => forall p, calm within (f p)) (o_getApiKey options);
  ow_stop : opt_calm (fun f => forall t, calm within (f t)) (o_shouldStopAfterTurn options);
  ow_prepare : opt_calm (fun f => calm within f /\
    forall w u, (f w).2 = Ok (Some u) -> opt_calm (context_calm within) (tu_context u)) (o_prepareNextTurn options);
  ow_prepareWith : opt_calm (fun f => forall t, calm within (f t) /\
    forall w u, (f t w).2 = Ok (Some u) -> opt_calm (context_calm within) (tu_context u)) (o_prepareNextTurnWithContext options);
  ow_before : opt_calm (fun f => forall m call args ctx, calm within (f m call args ctx)) (o_beforeToolCall options);
  ow_after : opt_calm (fun f => forall m call args r e ctx, calm within (f m call args r e ctx)) (o_afterToolCall options);
}.

(** *** What a run keeps

    An invariant that those calls keep, and the agent's own moves: draining the
    queues, resetting the flag of the poll, reducing an event. *)
Context `{!PreOrder step}.
Hypothesis step_queues : forall q1 q2 a, step a (set_queues q1 q2 a).
Hypothesis step_skip : forall b a, step a (set_skip b a).
Hypothesis Hwithin : options_within.
Context (I : run_state World -> Prop).
Hypothesis I_step : forall s w, I s -> within (world s) w -> I (mkRun w (trace s)).
Hypothesis I_reduce : forall e s, I s -> I (mkRun (on_agent (reduce_event e) (world s)) (trace s ++ [Emitted e])).
Hypothesis I_act : forall a s, event_of a = None -> I s -> I (mkRun (world s) (trace s ++ [a])).

Abbreviation any := (fun _ => True) (only parsing).

Lemma poll_within : calm within pollSteering /\ calm within (pollFollowUp (O := O)).
Proof.
  unfold calm, within. split; intros w; unfold pollSteering, pollFollowUp, drainSteering, drainFollowUp.
  - destruct (ag_skipInitialSteeringPoll _); [apply step_skip|]. destruct (drain _). apply step_queues.
  - destruct (drain _). apply step_queues.
Qed.

Lemma config_within w : config_calm within (createLoopConfig options w).
Proof.
  pose proof poll_within as [Hsteer Hfollow]. destruct Hwithin. split; cbn; try done.
  - destruct (o_convertToLlm options); cbn; [done|]. intros ms w'. unfold within. cbn. reflexivity.
  - destruct (o_prepareNextTurnWithContext options), (o_prepareNextTurn options); cbn; try done.
Qed.

Lemma context_within w : context_calm within (createContextSnapshot options w).
Proof. apply Hwithin. Qed.

Lemma notify_within listeners e w : Forall (fun f => forall e, calm within (f e)) listeners -> within w (notify listeners e w).1.
Proof.
  intros Hl. revert w. induction Hl as [|f fs Hf _ IH]; intros w; cbn [notify]; unfold within in *; [reflexivity|].
  specialize (Hf e w). destruct (f e w) as [w' [u|m]]; cbn in *; [|done]. etransitivity; [exact Hf|apply IH].
Qed.

Lemma I_emit e s : I s -> I (mkRun (emit env e (world s)).1 (trace s ++ [Emitted e])).
Proof.
  intros Hs. cbn [emit agent_environment]. unfold processEvents. apply (I_reduce e) in Hs. cbv zeta.
  destruct (ag_activeRun _); [|done]. apply (I_step _ _ Hs). apply notify_within, Hwithin.
Qed.

Lemma kept_loop fuel ms w w' :
  holds I (runAgentLoop env fuel ms (createContextSnapshot options w) (createLoopConfig options w')) any.
Proof.
  apply holds_runAgentLoop with (step := within); [apply Hwithin|apply I_step|apply I_emit|apply I_act
    |apply context_within|apply config_within].
Qed.

Lemma kept_continue fuel w w' :
  holds I (runAgentLoopContinue env fuel (createContextSnapshot options w) (createLoopConfig options w')) any.
Proof.
  apply holds_continue with (step := within); [apply Hwithin|apply I_step|apply I_emit|apply I_act
    |apply context_within|apply config_within].
Qed.

Lemma kept_event e : holds I (emit_ env e) any.
Proof. apply holds_emit, I_emit. Qed.

Lemma kept_failure error : holds I (handleRunFailure options error) any.
Proof.
  unfold handleRunFailure. do 3 (apply holds_next; [apply holds_reads|intros ?]). cbv zeta.
  do 3 (apply holds_next; [apply kept_event|intros ?]). apply kept_event.
Qed.

Lemma kept_update f : (forall a, step a (f a)) -> holds I (update f) any.
Proof. intros Hf s Hs. split; [|done]. apply (I_step s); [done|]. apply Hf. Qed.

(** A run that has not run out of fuel leaves what [finishRun] makes of a state with the invariant. *)
Lemma kept_run {A} (executor : run World A) s s' r : ag_activeRun (agent (world s)) = None -> holds I executor any ->
  I (mkRun (on_agent startRun (world s)) (trace s)) -> runWithLifecycle options executor s = (s', r) -> r <> Err OutOfFuel ->
  exists s2, I s2 /\ s' = mkRun (on_agent finishRun (world s2)) (trace s2).
Proof.
  intros Hidle Hex H1 Hrun Hfuel. unfold runWithLifecycle in Hrun. unfold mbind at 1, run_bind at 1, reads in Hrun.
  rewrite Hidle in Hrun. unfold mbind at 1, run_bind at 1, update at 1, try_finally in Hrun.
  assert (holds I (try_catch (executor;; mret ()) (handleRunFailure options)) any) as Hbody.
  { apply holds_try; [apply holds_next; [done|intros ?; by apply holds_ret]|apply kept_failure]. }
  destruct (Hbody _ H1) as [H2 _]. destruct (try_catch _ _ _) as [s2 [u|[e|]]]; cbn in H2, Hrun; simplify_eq; eauto.
Qed.

Lemma kept_executor {A} (f : @AgentContext World Running -> @AgentLoopConfig World Model Running -> run World A) skip :
  (forall w w', holds I (f (createContextSnapshot options w) (createLoopConfig options w')) any) ->
  holds I (context ← reads (createContextSnapshot options); config ← reads (createLoopConfig options);
           update (set_skip skip);; f context config) any.
Proof.
  intros Hf s Hs. unfold mbind, run_bind, reads. cbv beta iota.
  destruct (kept_update (set_skip skip) (step_skip skip) s Hs) as [H1 _]. unfold update in *. cbn in H1 |- *. by apply Hf.
Qed.
End within.

(** *** How a run goes on and ends *)

(** The invariant of an active run, and its transcript. *)
Definition active (t0 : list act) (s : run_state World) : Prop :=
  exists l, trace s = t0 ++ l /\ ag_errorMessage (agent (world s)) = last_error l /\
    is_Some (ag_activeRun (agent (world s))) /\ ag_isStreaming (agent (world s)) = true.
Definition transcript (t0 : list act) (m0 : list AgentMessage) (s : run_state World) : Prop :=
  exists l, trace s = t0 ++ l /\ ag_messages (agent (world s)) = m0 ++ ended l.

Lemma active_step t0 s w : active t0 s -> within respects (world s) w -> active t0 (mkRun w (trace s)).
Proof. intros (l & ? & He & Ha & Hs) (Hs' & He' & Ha'). exists l. cbn. rewrite Hs', He'. split_and!; auto. Qed.

Lemma transcript_step t0 m0 s w : transcript t0 m0 s -> within keeps_messages (world s) w -> transcript t0 m0 (mkRun w (trace s)).
Proof. intros (l & ? & Hm) Hw. exists l. cbn. by rewrite Hw. Qed.

Lemma event_free a l : event_of a = None -> ended (l ++ [a]) = ended l /\ last_error (l ++ [a]) = last_error l.
Proof. intros Ha. unfold last_error. rewrite ended_app, omap_app. destruct a; [done| | |]; cbn; by rewrite !app_nil_r. Qed.

Lemma last_error_snoc l e : last_error (l ++ [Emitted e]) =
  match reported_error (Emitted e) with Some m => Some m | None => last_error l end.
Proof. unfold last_error. rewrite omap_app. cbn [omap list_omap]. destruct (reported_error (Emitted e)); [apply last_snoc|by rewrite app_nil_r]. Qed.

(** What reducing an event does to the fields of the invariants. *)
Lemma reduce_event_spec e a :
  ag_messages (reduce_event e a) = ag_messages a ++ ended [Emitted e] /\
  ag_errorMessage (reduce_event e a) =
    match reported_error (Emitted e) with Some m => Some m | None => ag_errorMessage a end /\
  ag_activeRun (reduce_event e a) = ag_activeRun a /\ ag_isStreaming (reduce_event e a) = ag_isStreaming a.
Proof. destruct e; cbn; rewrite ?app_nil_r; try done. by destruct (truthy_str _). Qed.

Lemma active_act t0 a s : event_of a = None -> active t0 s -> active t0 (mkRun (world s) (trace s ++ [a])).
Proof.
  intros Ha (l & Ht & He & ?). exists (l ++ [a]). cbn. destruct (event_free a l Ha) as [_ ->]. by rewrite Ht, app_assoc.
Qed.

Lemma transcript_act t0 m0 a s : event_of a = None -> transcript t0 m0 s -> transcript t0 m0 (mkRun (world s) (trace s ++ [a])).
Proof. intros Ha (l & Ht & Hm). exists (l ++ [a]). cbn. destruct (event_free a l Ha) as [-> _]. by rewrite Ht, app_assoc. Qed.

Lemma active_reduce t0 e s : active t0 s -> active t0 (mkRun (on_agent (reduce_event e) (world s)) (trace s ++ [Emitted e])).
Proof.
  intros (l & Ht & He & Ha & Hs). destruct (reduce_event_spec e (agent (world s))) as (_ & He1 & Ha1 & Hs1).
  exists (l ++ [Emitted e]). cbn [world trace agent on_agent]. by rewrite He1, Ha1, Hs1, Ht, He, last_error_snoc, app_assoc.
Qed.

Lemma transcript_reduce t0 m0 e s :
  transcript t0 m0 s -> transcript t0 m0 (mkRun (on_agent (reduce_event e) (world s)) (trace s ++ [Emitted e])).
Proof.
  intros (l & Ht & Hm). destruct (reduce_event_spec e (agent (world s))) as (Hm1 & _).
  exists (l ++ [Emitted e]). cbn [world trace agent on_agent]. by rewrite Hm1, Ht, Hm, ended_app, !app_assoc.
Qed.

Lemma notify_threw (listeners : list (AgentEvent -> World -> World * result string unit)) e w error : (notify listeners e w).2 = Err error ->
  exists f w', f ∈ listeners /\ (f e w').2 = Err error.
Proof.
  revert w. induction listeners as [|f fs IH]; intros w; cbn [notify]; [done|]. destruct (f e w) as [w' [u|m]] eqn:Hf; intros He.
  - apply IH in He as (g & w2 & ? & ?). exists g, w2. split; [by right|done].
  - exists f, w. split; [left|]. by rewrite Hf.
Qed.

Section settles.
Hypothesis Hpolite : options_within respects.

Lemma active_emit t0 e s : active t0 s -> active t0 (emit_ env e s).1.
Proof.
  intros Hs. refine (proj1 (kept_event respects Hpolite (active t0) _ _ e s Hs)); [apply active_step|apply active_reduce].
Qed.

(** A sequence of events of an active run is emitted up to the first on which a listener throws. *)
Definition reports (es : list AgentEvent) (m : run World unit) : Prop :=
  forall t0 s, active t0 s ->
  match (m s).2 with
  | Ok _ => trace (m s).1 = trace s ++ map Emitted es
  | Err (Thrown error) => exists reported e rest, es = reported ++ e :: rest /\ listener_threw e error /\
      trace (m s).1 = trace s ++ map Emitted (reported ++ [e])
  | Err OutOfFuel => False
  end.

Lemma reports_event e : reports [e] (emit_ env e).
Proof.
  intros t0 s (l & _ & _ & Ha & _). unfold emit_. cbn [emit agent_environment]. unfold processEvents. cbv zeta.
  destruct (reduce_event_spec e (agent (world s))) as (_ & _ & Ha1 & _). cbn [agent on_agent]. rewrite Ha1.
  destruct Ha as [b ->]. destruct (notify _ _ _) as [w [u|error]] eqn:Hn; cbn; [done|].
  exists [], e, []. split_and!; [done| |done]. unfold listener_threw.
  pose proof (notify_threw (o_listeners options) e (on_agent (reduce_event e) (world s)) error) as Ht. rewrite Hn in Ht.
  destruct (Ht eq_refl) as (f & w' & ? & ?). by exists f, w'.
Qed.

Lemma reports_next e es m : reports es m -> reports (e :: es) (emit_ env e;; m).
Proof.
  intros Hm t0 s Hs. unfold mbind, run_bind. pose proof (reports_event e t0 s Hs) as He. pose proof (active_emit t0 e s Hs) as H1.
  destruct (emit_ env e s) as [s1 [u|[error|]]]; cbn in *; [| |done].
  2: { destruct He as ([|e0 [|e1 reported]] & e' & rest & Hes & Hthrew & Ht); cbn in Hes; try discriminate. injection Hes as <- <-.
    by exists [], e, es. }
  specialize (Hm t0 s1 H1). destruct (m s1) as [s2 [u2|[error|]]]; cbn in *; [by rewrite Hm, He, <- app_assoc| |done].
  destruct Hm as (reported & e' & rest & -> & Hthrew & Ht). exists (e :: reported), e', rest.
  split_and!; [done..|]. by rewrite Ht, He, <- app_assoc.
Qed.

(** The report of a failure: all its events, or up to one on which a listener throws. *)
Lemma failure_reports t0 error s : active t0 s ->
  exists m, reports_failure m /\
    match (handleRunFailure options error s).2 with
    | Ok _ => trace (handleRunFailure options error s).1 = trace s ++ map Emitted (failure_events m)
    | Err (Thrown e') => exists reported e rest, failure_events m = reported ++ e :: rest /\ listener_threw e e' /\
        trace (handleRunFailure options error s).1 = trace s ++ map Emitted (reported ++ [e])
    | Err OutOfFuel => False
    end.
Proof.
  intros Hs.
  exists (failureMessage options (o_model options (outside (world s))) error (aborted env (world s)) (o_now options (world s))).
  split.
  { unfold reports_failure, failureMessage. cbn [am_stopReason am_errorMessage]. split; [|eauto].
    destruct (aborted env (world s)); set_solver. }
  unfold handleRunFailure, is_aborted, mbind at 1 2 3, run_bind at 1 2 3, reads. cbv zeta.
  apply (reports_next _ _ _ (reports_next _ _ _ (reports_next _ _ _ (reports_event _))) t0 s Hs).
Qed.

(** An executor that keeps the invariants and follows the life cycle makes a run with these acts. *)
Lemma acts_of_run {A} (executor : run World A) (Q : A -> phase -> Prop) s s' r :
  ag_activeRun (agent (world s)) = None ->
  holds (active (trace s)) executor (fun _ => True) -> leads Idle executor Q -> (forall a q, Q a q -> exists ms, q = Over ms) ->
  runWithLifecycle options executor s = (s', r) -> r <> Err OutOfFuel ->
  exists l, trace s' = trace s ++ l /\ run_acts l r.
Proof.
  intros Hidle Hholds Hleads HQ Hrun Hfuel. unfold runWithLifecycle in Hrun. unfold mbind at 1, run_bind at 1, reads in Hrun.
  rewrite Hidle in Hrun. unfold mbind, run_bind, update at 1, try_finally, try_catch, mret, run_ret in Hrun.
  set (s1 := mkRun (on_agent startRun (world s)) (trace s)) in *.
  assert (active (trace s) s1) as H1 by (exists []; rewrite app_nil_r; by split_and!; eauto).
  destruct (Hholds s1 H1) as [H2 _]. destruct (Hleads s1) as (l & Ht & Hl).
  destruct (executor s1) as [s2 [a|[e|]]]; cbn in Hrun, H2, Ht, Hl; [..|by simplify_eq].
  - injection Hrun as <- <-. exists l. split; [done|]. destruct Hl as (p & Hp & HQp). apply HQ in HQp as [ms ->].
    by eapply acts_complete.
  - destruct Hl as (p & Hp). destruct (failure_reports (trace s) e s2 H2) as (m & Hm & Hf).
    destruct (handleRunFailure options e s2) as [s3 [u|[e'|]]]; cbn in Hrun, Hf; [| |done]; injection Hrun as <- <-; cbn.
    + eexists. rewrite Hf, Ht, <- app_assoc. split; [done|]. destruct u. by apply (acts_failed l p m).
    + destruct Hf as (reported & e0 & rest & Hes & Hthrew & Hf). eexists. rewrite Hf, Ht, <- app_assoc. split; [done|].
      by apply (acts_rejected l p m reported e0 rest).
Qed.

(** *** Requests *)

Lemma leads_executor {A} skip (f : @AgentContext World Running -> @AgentLoopConfig World Model Running -> run World A)
    (Q : A -> phase -> Prop) : (forall c c', leads Idle (f c c') Q) ->
  leads Idle (context ← reads (createContextSnapshot options); config ← reads (createLoopConfig options);
              update (set_skip skip);; f context config) Q.
Proof.
  intros Hf s. unfold mbind, run_bind, reads, update. cbv beta iota.
  destruct (Hf (createContextSnapshot options (world s)) (createLoopConfig options (world s))
    (mkRun (on_agent (set_skip skip) (world s)) (trace s))) as (l & Ht & Hl). by exists l.
Qed.

Lemma acts_of_serve fuel r s s' res : accepted r (agent (world s)) = true -> serve fuel r s = (s', res) -> res <> Err OutOfFuel ->
  exists l, trace s' = trace s ++ l /\ run_acts l res.
Proof.
  intros Hacc. pose proof (serve_cases fuel r s) as Hs. rewrite Hacc in Hs. destruct Hs as (q1 & q2 & m & _ & _ & -> & Hidle & Hm).
  set (s0 := mkRun (on_agent (set_queues q1 q2) (world s)) (trace s)).
  assert (ag_activeRun (agent (world s0)) = None) as Hidle0 by done. change (trace s) with (trace s0).
  destruct Hm as [(ms & skip & ->)| ->].
  - apply (acts_of_run _ (fun ms q => q = Over ms)); [done| |apply leads_executor; intros; apply leads_runAgentLoop|eauto].
    apply (kept_executor respects) with (f := runAgentLoop env fuel ms); [done..|apply active_step|intros w w'].
    apply (kept_loop respects); [done..|apply active_step|apply active_reduce|apply active_act].
  - apply (acts_of_run _ (fun ms q => q = Over ms)); [done| |apply leads_executor; intros; apply leads_continue|eauto].
    apply (kept_executor respects) with (f := runAgentLoopContinue env fuel); [done..|apply active_step|intros w w'].
    apply (kept_continue respects); [done..|apply active_step|apply active_reduce|apply active_act].
Qed.
End settles.

(** An invariant that every call keeps and that holds when the run starts holds when it is finished. *)
Lemma kept_serve (step : AgentState -> AgentState -> Prop) `{!PreOrder step} (I : run_state World -> Prop) fuel r s s' res :
  (forall q1 q2 a, step a (set_queues q1 q2 a)) -> (forall b a, step a (set_skip b a)) -> options_within step ->
  (forall s w, I s -> within step (world s) w -> I (mkRun w (trace s))) ->
  (forall e s, I s -> I (mkRun (on_agent (reduce_event e) (world s)) (trace s ++ [Emitted e]))) ->
  (forall a s, event_of a = None -> I s -> I (mkRun (world s) (trace s ++ [a]))) ->
  accepted r (agent (world s)) = true ->
  (forall q1 q2, I (mkRun (on_agent startRun (on_agent (set_queues q1 q2) (world s))) (trace s))) ->
  serve fuel r s = (s', res) -> res <> Err OutOfFuel ->
  exists s2, I s2 /\ s' = mkRun (on_agent finishRun (world s2)) (trace s2).
Proof.
  intros Hq Hskip Hw Hstep Hreduce Hact Hacc Hstart. pose proof (serve_cases fuel r s) as Hs. rewrite Hacc in Hs.
  destruct Hs as (q1 & q2 & m & _ & _ & -> & Hidle & [(ms & skip & ->)| ->]).
  all: apply kept_run with (step := step) (I := I); [done..| |apply Hstart].
  - apply kept_executor with (step := step) (f := runAgentLoop env fuel ms); [done..|]. intros. by apply kept_loop with (step := step).
  - apply kept_executor with (step := step) (f := runAgentLoopContinue env fuel); [done..|]. intros. by apply kept_continue with (step := step).
Qed.

Lemma serve_settles fuel r s s' res : options_within respects -> accepted r (agent (world s)) = true ->
  serve fuel r s = (s', res) -> res <> Err OutOfFuel -> exists l, trace s' = trace s ++ l /\ settled l (agent (world s')).
Proof.
  intros Hw Hacc Hserve Hfuel.
  destruct (kept_serve respects (active (trace s)) fuel r s s' res) as (s2 & (l & Ht & He & _) & ->); try done;
    try solve [apply active_step|apply active_reduce|by apply active_act|by exists l].
  intros q1 q2. exists []. rewrite app_nil_r. by split_and!.
Qed.

Lemma serve_transcript fuel r s s' res : options_within keeps_messages -> accepted r (agent (world s)) = true ->
  serve fuel r s = (s', res) -> res <> Err OutOfFuel ->
  exists l, trace s' = trace s ++ l /\ ag_messages (agent (world s')) = ag_messages (agent (world s)) ++ ended l.
Proof.
  intros Hw Hacc Hserve Hfuel.
  destruct (kept_serve keeps_messages (transcript (trace s) (ag_messages (agent (world s)))) fuel r s s' res) as (s2 & (l & Ht & Hm) & ->);
    try done; try solve [apply transcript_step|apply transcript_reduce|by apply transcript_act|by exists l].
  intros q1 q2. exists []. by rewrite !app_nil_r.
Qed.

(** What a call that its run has abandoned still reports to an idle agent is lost: the
    state stays and no listener hears of it. *)
Lemma abandoned_call_ignored id name result isError w : ag_activeRun (agent w) = None -> ag_pendingToolCalls (agent w) = ∅ ->
  processEvents options (tool_execution_end id name result isError) w = (w, Err "Agent listener invoked outside active run").
Proof.
  intros Hidle Hcalls. destruct w as [[] o]; cbn in *; subst. unfold processEvents, on_agent, set_calls, set_run. cbn.
  replace (∅ ∖ {[id]} : gset string) with (∅ : gset string) by set_solver. done.
Qed.

(** How a request that is accepted ends. *)
Definition runs_and_settles (fuel : nat) (r : request) (s : run_state World) : Prop :=
  forall s' res, serve fuel r s = (s', res) -> res <> Err OutOfFuel ->
  exists l, trace s' = trace s ++ l /\ run_acts l res /\ settled l (agent (world s')) /\
    (options_within keeps_messages -> ag_messages (agent (world s')) = ag_messages (agent (world s)) ++ ended l).

Lemma serve_spec fuel r s : options_within respects ->
  if accepted r (agent (world s)) then runs_and_settles fuel r s else refuses (serve fuel r) s.
Proof.
  intros Hw. pose proof (serve_cases fuel r s) as Hs. destruct (accepted r (agent (world s))) eqn:Hacc; [|done].
  intros s' res Hserve Hfuel. destruct (acts_of_serve Hw fuel r s s' res Hacc Hserve Hfuel) as (l & Ht & Hacts).
  exists l. split_and!; [done..| |].
  - destruct (serve_settles fuel r s s' res) as (l' & Ht' & Hl'); [done..|]. rewrite Ht in Ht'. by apply app_inv_head in Ht' as <-.
  - intros Hk. destruct (serve_transcript fuel r s s' res) as (l' & Ht' & Hl'); [done..|]. rewrite Ht in Ht'. by apply app_inv_head in Ht' as <-.
Qed.
End runs.
(** ** Requests return *)

Section bounded.
Context {O Model Running Response : Type} (options : @AgentOptions O Model Running Response) (outside_budget : O -> nat).
Abbreviation World := (AgentWorld O).
Abbreviation env := (agent_environment options).

(** What may still happen: the queued messages and what the outside can spend. *)
Definition agent_budget (w : World) : nat :=
  length (q_messages (ag_steering (agent w))) + length (q_messages (ag_followUp (agent w))) + outside_budget (outside w).

Record options_bounded : Prop := {
  ob_env : env_bounded env agent_budget;
  ob_tools : forall o, Forall (tool_bounded agent_budget) (o_tools options o);
  ob_convert : opt_all (fun f => forall ms, frugal agent_budget (f ms)) (o_convertToLlm options);
  ob_transform : opt_all (fun f => forall ms, frugal agent_budget (f ms)) (o_transformContext options);
  ob_key : opt_all (fun f => forall p, frugal agent_budget (f p)) (o_getApiKey options);
  ob_stop : opt_all (fun f => forall t, frugal agent_budget (f t)) (o_shouldStopAfterTurn options);
  ob_prepare : opt_all (fun f => frugal agent_budget f /\
    forall w u, (f w).2 = Ok (Some u) -> opt_all (context_bounded agent_budget) (tu_context u)) (o_prepareNextTurn options);
  ob_prepareWith : opt_all (fun f => forall t, frugal agent_budget (f t) /\
    forall w u, (f t w).2 = Ok (Some u) -> opt_all (context_bounded agent_budget) (tu_context u)) (o_prepareNextTurnWithContext options);
  ob_before : opt_all (fun f => forall m call args ctx, frugal agent_budget (f m call args ctx)) (o_beforeToolCall options);
  ob_after : opt_all (fun f => forall m call args r e ctx, frugal agent_budget (f m call args r e ctx)) (o_afterToolCall options);
}.

Hypothesis Hbounded : options_bounded.

Lemma polls_spend : spends_if_any agent_budget pollSteering /\ spends_if_any agent_budget pollFollowUp.
Proof.
  unfold spends_if_any, frugal, pollSteering, pollFollowUp, drainSteering, drainFollowUp. split; split; intros w;
    try destruct (ag_skipInitialSteeringPoll _); cbn; try done.
  all: match goal with |- context [drain ?q] => pose proof (drain_length q) as Hq; destruct (drain q) as [ms q'] end.
  all: unfold agent_budget; cbn in *; try lia; intros m l [= ->]; cbn in *; lia.
Qed.

Lemma config_budget w : config_bounded agent_budget (createLoopConfig options w).
Proof.
  pose proof polls_spend as [Hsteer Hfollow]. destruct Hbounded. split; cbn; try done.
  - destruct (o_convertToLlm options); cbn; [done|]. by intros ms w'.
  - destruct (o_prepareNextTurnWithContext options), (o_prepareNextTurn options); cbn; try done.
Qed.

Lemma ends_finally {A} b (m : run World A) (f : run World unit) (P : A -> nat -> Prop) : ends agent_budget b m P ->
  (forall b', (b' <= b)%nat -> ends agent_budget b' f (fun _ _ => True)) -> ends agent_budget b (try_finally m f) (fun _ _ => True).
Proof.
  intros Hm Hf s Hs. unfold try_finally. destruct (Hm s Hs) as [Hb Hr].
  destruct (m s) as [s1 [a|[e|]]]; cbn in *; [..|done];
    (destruct (Hf _ Hb s1 (Nat.le_refl _)) as [Hb2 Hr2]; destruct (f s1) as [s2 [u|[e2|]]]; cbn in *; (split; [lia|done])).
Qed.

Lemma ends_update b f : (forall a, ag_steering (f a) = ag_steering a /\ ag_followUp (f a) = ag_followUp a) ->
  ends agent_budget b (update f) (fun _ _ => True).
Proof. intros Hf s Hs. split; [|done]. unfold update, agent_budget in *. cbn in *. by destruct (Hf (agent (world s))) as [-> ->]. Qed.

Lemma ends_failure b error : ends agent_budget b (handleRunFailure options error) (fun _ _ => True).
Proof.
  unfold handleRunFailure. do 3 (eapply ends_next; [apply ends_reads|intros ? ? ?]). cbv zeta.
  do 3 (apply ends_then; [apply Hbounded|intros ? ?]). apply ends_emit, Hbounded.
Qed.

Abbreviation any := (fun _ _ => True) (only parsing).

Lemma ends_run {A} b (executor : run World A) : (forall b', (b' <= b)%nat -> ends agent_budget b' executor any) ->
  ends agent_budget b (runWithLifecycle options executor) any.
Proof.
  intros Hex. unfold runWithLifecycle. eapply ends_next; [apply ends_reads|intros [a|] b1 Hb1]; [apply ends_thrown|].
  eapply ends_next; [by apply ends_update|intros _ b2 Hb2]. apply ends_finally with (P := any).
  - apply ends_try; [|intros; apply ends_failure]. eapply ends_next; [apply Hex; lia|intros; by apply ends_ret].
  - intros b3 Hb3. by apply ends_update.
Qed.

Lemma ends_executor {A} b skip (f : @AgentContext World Running -> @AgentLoopConfig World Model Running -> run World A) :
  (forall w w' b', (b' <= b)%nat -> ends agent_budget b' (f (createContextSnapshot options w) (createLoopConfig options w')) any) ->
  ends agent_budget b (context ← reads (createContextSnapshot options); config ← reads (createLoopConfig options);
                       update (set_skip skip);; f context config) any.
Proof.
  intros Hf s Hs. unfold mbind, run_bind, reads. cbv beta iota.
  destruct (ends_update b (set_skip skip) (fun _ => conj eq_refl eq_refl) s Hs) as [H1 _]. unfold update in *. cbn in H1 |- *.
  by apply Hf.
Qed.

Lemma serve_ends fuel r s : accepted r (agent (world s)) = true -> (agent_budget (world s) < fuel)%nat ->
  (serve options fuel r s).2 <> Err OutOfFuel.
Proof.
  intros Hacc Hb. pose proof (serve_cases options fuel r s) as Hs. rewrite Hacc in Hs.
  destruct Hs as (q1 & q2 & m & Hq1 & Hq2 & -> & _ & Hm). set (s0 := mkRun _ _).
  assert (ends agent_budget (agent_budget (world s)) m any) as Hends.
  { destruct Hm as [(ms & skip & ->)| ->]; apply ends_run; intros b Hle.
    - apply ends_executor with (f := runAgentLoop env fuel ms). intros w w' b' Hle'.
      apply ends_runAgentLoop; [apply Hbounded..|apply config_budget|lia].
    - apply ends_executor with (f := runAgentLoopContinue env fuel). intros w w' b' Hle'.
      apply ends_continue; [apply Hbounded..|apply config_budget|lia]. }
  destruct (Hends s0) as [_ Hr]; [unfold agent_budget, queued in *; cbn; lia|].
  destruct (m s0) as [s' [u|[e|]]]; cbn in *; done.
Qed.
End bounded.

(** ** The properties *)

Section properties.
Context {O Model Running Response : Type} (options : @AgentOptions O Model Running Response).
Abbreviation World := (AgentWorld O).

(** C20: A request to an agent that runs, or that has nothing to continue from, throws
    and changes nothing.  For any other request, as long as the outside code (hooks,
    tools, provider, listeners) does no more to the agent than its public interface
    allows (it leaves alone whether the agent runs and streams and its error; listeners
    may throw, and [state.messages] may be assigned), whether the loop returns, fails
    or a listener throws: the agent is settled afterwards (idle, not streaming, no
    pending tool call, its error the last one a turn reported); what was emitted is a
    complete life cycle, or a part of one closed by the events of a failure message;
    the request throws only when a listener throws on one of those last events, and
    then that error.  When moreover nothing assigns [state.messages], the transcript is
    the old one with the messages announced as complete, in order. *)
Theorem agent_settles (fuel : nat) (r : request) (s : run_state World) :
  options_within options respects ->
  if accepted r (agent (world s)) then runs_and_settles options fuel r s else refuses (serve options fuel r) s.
Proof. intros Hw. by apply serve_spec. Qed.

(** C21: When the outside is bounded too, an accepted request ends: it returns, or
    throws what a listener threw while a failure was reported (so it returns if no
    listener throws), and either way the agent is idle again. *)
Theorem agent_returns (outside_budget : O -> nat) (fuel : nat) (r : request) (s : run_state World) :
  options_within options respects -> options_bounded options outside_budget ->
  accepted r (agent (world s)) = true -> (agent_budget outside_budget (world s) < fuel)%nat ->
  exists s' res, serve options fuel r s = (s', res) /\ ag_activeRun (agent (world s')) = None /\
    (res = Ok () \/ exists e error, listener_threw options e error /\ res = Err (Thrown error)).
Proof.
  intros Hw Hbounded Hacc Hb. pose proof (serve_ends options outside_budget Hbounded fuel r s Hacc Hb) as Hends.
  destruct (serve options fuel r s) as [s' res] eqn:Hserve. exists s', res. split; [done|].
  pose proof (serve_spec options fuel r s Hw) as Hspec. rewrite Hacc in Hspec.
  destruct (Hspec s' res Hserve Hends) as (l & _ & Hacts & [Hidle _] & _). split; [done|].
  inversion Hacts; subst; eauto.
Qed.
End properties.

(** ** A scripted agent

    The provider answers from a script; a listener steers the agent with a note
    when a turn ends; the agent has one tool. *)
Module ScriptedAgent.

Record outside_world := mkOutside { answers : list AssistantMessage; notes : list AgentMessage }.
Abbreviation World := (AgentWorld outside_world).

Definition answer (content : list Content) (reason : StopReason) : AssistantMessage :=
  mkAssistantMessage content "api" "prov" "model" None None None EMPTY_USAGE reason None None None None (JInt 0).
Definition user (text : string) : AgentMessage := MUser (mkUserMessage (PlainContent text) (JInt 0)).

Definition note_listener (e : AgentEvent) (w : World) : World * result string unit :=
  match e, notes (outside w) with
  | turn_end _ _, n :: rest => (mkWorld (steer n (agent w)) (mkOutside (answers (outside w)) rest), Ok ())
  | _, _ => (w, Ok ())
  end.

(** A listener that fails at the end of every turn. *)
Definition failing_listener (e : AgentEvent) (w : World) : World * result string unit :=
  match e with turn_end _ _ => (w, Err "no disk") | _ => (w, Ok ()) end.

Definition next_answer (w : World) : World * result string AssistantMessage :=
  match answers (outside w) with
  | a :: rest => (mkWorld (agent w) (mkOutside rest (notes (outside w))), Ok a)
  | [] => (w, Err "the script is over")
  end.

Definition echo : @AgentTool World unit :=
  mkTool "echo" None None (fun args => Ok (JObj args)) (fun _ _ w => (w, Ok ()))
    (fun r w => (w, (r, Returned (mkToolResult (Some [TextC "done" None]) None None None None)))).

Definition options_with (listeners : list (AgentEvent -> World -> World * result string unit))
    : @AgentOptions outside_world unit unit unit :=
  mkOptions (fun _ => "be brief") (fun _ => ()) (fun _ => "api") (fun _ => "prov") (fun _ => "model") (fun _ => "off")
    (fun _ => [echo]) None None None None None None None None None listeners (fun _ => JInt 0)
    (fun _ _ _ _ _ _ w => (w, Ok ())) (fun _ w => (w, Ok None)) (fun _ => next_answer) (fun w => (w, 0%nat)).

Definition options := options_with [note_listener].

Definition outside_budget (o : outside_world) : nat :=
  sum_list_with (fun a => 3 * length (toolCalls (am_content a)))%nat (answers o) + 2 * length (notes o).

(** An idle agent whose provider has two answers. *)
Definition idle : AgentState :=
  mkAgent [] false None ∅ None (mkQueue [] mode_one_at_a_time) (mkQueue [] mode_one_at_a_time) None false.
Definition start : run_state World :=
  mkRun (mkWorld idle (mkOutside
    [answer [ToolCallC (mkToolCall "c1" "echo" [] None None)] SRtoolUse; answer [] SRstop] [user "also"])) [].

Lemma polite : options_within options respects.
Proof.
  split; cbn; try done.
  - split; intros; try done. intros [a [[|x l] n]]; done.
  - constructor; [|constructor]. intros e [a [l n]]. by destruct e, n.
  - intros o. constructor; [|constructor]. by split.
Qed.

Lemma silent_on_messages : options_within options keeps_messages.
Proof.
  split; cbn; try done.
  - split; intros; try done. intros [a [[|x l] n]]; done.
  - constructor; [|constructor]. intros e [a [l n]]. by destruct e, n.
  - intros o. constructor; [|constructor]. by split.
Qed.

Lemma bounded : options_bounded options outside_budget.
Proof.
  split; cbn; try done.
  - split; unfold frugal, agent_budget, outside_budget; cbn; try done.
    + intros e [a [an n]]. unfold processEvents. cbv zeta. destruct (ag_activeRun _); cbn;
        destruct e, n; cbn; rewrite ?length_app; cbn; try lia; destruct (truthy_str _); cbn; lia.
    + intros _ [a [[|x l] n]]; unfold next_answer; cbn; lia.
  - intros o. constructor; [|constructor]. unfold tool_bounded, frugal. by split_and!.
Qed.
End ScriptedAgent.

Lemma agent_settles_witness :
  let '(s', res) := serve ScriptedAgent.options 9 (Prompt (InputText "hi" None)) ScriptedAgent.start in
  exists l, trace s' = l /\ run_acts ScriptedAgent.options l res /\ settled l (agent (world s')) /\
    ag_messages (agent (world s')) = ended l /\ length (ended l) = 5%nat.
Proof.
  destruct (serve ScriptedAgent.options 9 (Prompt (InputText "hi" None)) ScriptedAgent.start) as [s' res] eqn:Hserve.
  destruct (agent_settles ScriptedAgent.options 9 (Prompt (InputText "hi" None)) ScriptedAgent.start ScriptedAgent.polite s' res Hserve)
    as (l & Ht & Hacts & Hs & Hm).
  { intros ->. vm_compute in Hserve. discriminate Hserve. }
  specialize (Hm ScriptedAgent.silent_on_messages). exists l. split; [exact Ht|split; [exact Hacts|split; [exact Hs|split; [exact Hm|]]]].
  cbn in Ht. rewrite <- Ht. transitivity (length (ended (trace (s', res).1))); [done|]. rewrite <- Hserve. vm_compute. reflexivity.
Defined.

Lemma agent_returns_witness :
  exists s' res, serve ScriptedAgent.options 9 (Prompt (InputText "hi" None)) ScriptedAgent.start = (s', res) /\
    ag_activeRun (agent (world s')) = None /\
    (res = Ok () \/ exists e error, listener_threw ScriptedAgent.options e error /\ res = Err (Thrown error)).
Proof.
  apply (agent_returns ScriptedAgent.options ScriptedAgent.outside_budget 9 _ _ ScriptedAgent.polite ScriptedAgent.bounded).
  - reflexivity.
  - apply Nat.ltb_lt. vm_compute. reflexivity.
Defined.

(** The note the listener steered is answered in the same run. *)
Example scripted_outcome :
  let '(s', r) := serve ScriptedAgent.options 9 (Prompt (InputText "hi" None)) ScriptedAgent.start in
  r = Ok () /\ length (ag_messages (agent (world s'))) = 5%nat /\ ag_errorMessage (agent (world s')) = None /\
  hasQueuedMessages (agent (world s')) = false.
Proof. vm_compute. done. Qed.

(** A listener that throws at the end of the turn and again while that failure is reported:
    the request throws its error, and the agent is idle with the failure in its transcript. *)
Example failing_outcome :
  let '(s', r) := serve (ScriptedAgent.options_with [ScriptedAgent.failing_listener]) 9 (Prompt (InputText "hi" None)) ScriptedAgent.start in
  r = Err (Thrown "no disk") /\ ag_activeRun (agent (world s')) = None /\ ag_isStreaming (agent (world s')) = false /\
  ag_errorMessage (agent (world s')) = Some "no disk" /\ length (ag_messages (agent (world s'))) = 4%nat.
Proof. vm_compute. done. Qed.
