(* ===== verification/AgentTheorems.v ===== *)
(** The properties of the agent loop, with an environment to run it in. *)
From S2P Require Import Prelude JsNumber JsTree Messages AgentTypes AgentTools AgentLoop AgentLifecycle AgentTranscript AgentGate AgentTermination.

Section properties.
Context {W Model Running Response : Type} (env : @Environment W Model Running Response).

(** C16: The events of a run follow their life cycle, whatever the provider, the
    tools, the hooks and the sink do, and at every prefix of a run: one agent start,
    then turns; in a turn one message or one batch of tool calls at a time, updates
    only inside what they update, every message and tool call that is started is
    ended before the turn is; and when the run returns, its last event is the end of
    the agent with the messages it returns. *)
Theorem agent_lifecycle (fuel : nat) (prompts : list AgentMessage) (context : AgentContext)
    (config : @AgentLoopConfig W Model Running) (s : run_state W) :
  exists l p, trace (runAgentLoop env fuel prompts context config s).1 = trace s ++ l /\ event_steps Idle (events l) p /\
    forall ms, (runAgentLoop env fuel prompts context config s).2 = Ok ms -> p = Over ms.
Proof.
  destruct (leads_runAgentLoop env fuel prompts context config s) as (l & Ht & Hl). exists l.
  destruct (runAgentLoop env fuel prompts context config s).2 as [ms|e]; [destruct Hl as (p & ? & ->)|destruct Hl as (p & ?)];
    exists p || exists (Over ms); split_and!; try done; naive_solver.
Qed.

(** C17: The transcript of a run that returns: the prompts, then turn by turn the
    injected messages, the answer and the results of its calls.  The messages
    announced as complete are exactly the ones returned, in order; the injected
    messages are exactly the ones taken from the queues, in order, so none is lost or
    repeated; the results answer the calls of their answer in order (all of them when
    the run is not aborted, and none executed when the answer was cut off); an answer
    that failed or was aborted ends the run. *)
Theorem agent_transcript (fuel : nat) (prompts : list AgentMessage) (context : AgentContext)
    (config : @AgentLoopConfig W Model Running) (s s' : run_state W) (ms : list AgentMessage) :
  runAgentLoop env fuel prompts context config s = (s', Ok ms) ->
  exists l turns, trace s' = trace s ++ l /\ ms = prompts ++ flat_map turn_messages turns /\ ended l = ms /\
    took l = flat_map tl_injected turns /\ transcript_of env turns.
Proof.
  intros Hrun. destruct (gives_runAgentLoop env fuel prompts context config s) as (l & Ht & Hl). rewrite Hrun in Ht, Hl.
  destruct Hl as (turns & ? & ? & ? & ?). by exists l, turns.
Qed.

(** C18: The gate of a tool call: preparing it always returns; it returns the call as
    prepared exactly when the tool is found, its arguments validate, the hook does not
    block and the run is not aborted after the hook; otherwise the outcome is an error
    result. *)
Theorem tool_gate (context : AgentContext) (message : AssistantMessage) (call : ToolCall)
    (config : @AgentLoopConfig W Model Running) (s : run_state W) :
  exists s' p, prepareToolCall env context message call config s = (s', Ok p) /\
    match p with
    | Prepared pc => cleared env context message call config (world s) pc
    | Immediate _ isError => isError = true /\ forall pc, ~ cleared env context message call config (world s) pc
    end.
Proof. apply prepare_spec. Qed.

(** C19: A batch starts the tool of each call at most once, in the order of the
    calls, in both modes and however the tools are scheduled, also if it fails; when
    the answer was cut off at the length limit it starts none. *)
Theorem tools_start_once (fuel : nat) (context : AgentContext) (message : AssistantMessage)
    (config : @AgentLoopConfig W Model Running) (s : run_state W) :
  exists l, trace (runBatch env fuel context message config s).1 = trace s ++ l /\
    started_tools l `sublist_of` map tc_id (toolCalls (am_content message)) /\
    (am_stopReason message = SRlength -> started_tools l = []).
Proof.
  destruct (starts_batch env fuel context message config s) as (l & Ht & Hl). exists l. split; [done|].
  assert (started_tools l `sublist_of` if bool_decide (am_stopReason message = SRlength) then [] else
    map tc_id (toolCalls (am_content message))) as Hsub by (destruct (_ s).2; tauto).
  case_bool_decide; [|done]. apply sublist_nil_r in Hsub. rewrite Hsub. split; [apply sublist_nil_l|done].
Qed.

(** Termination.  When the environment is bounded (answers with tool calls,
    messages in the queues, stream events and tool progress spend a budget that nothing
    restores), any fuel above the budget is enough: the run returns its messages or
    ends with an error the code threw. *)
Theorem agent_terminates (budget : W -> nat) (fuel : nat) (prompts : list AgentMessage) (context : AgentContext)
    (config : @AgentLoopConfig W Model Running) (s : run_state W) :
  env_bounded env budget -> context_bounded budget context -> config_bounded budget config ->
  (budget (world s) < fuel)%nat ->
  exists s', (exists ms, runAgentLoop env fuel prompts context config s = (s', Ok ms)) \/
    (exists e, runAgentLoop env fuel prompts context config s = (s', Err (Thrown e))).
Proof.
  intros Henv Hctx Hc Hb. destruct (ends_runAgentLoop env budget Henv fuel (budget (world s)) prompts context config
    Hctx Hc Hb s (Nat.le_refl _)) as [_ Hr].
  destruct (runAgentLoop env fuel prompts context config s) as [s' [ms|[e|]]]; cbn in Hr; [eauto..|done].
Qed.
End properties.

(** ** A scripted environment

    The provider answers from a script, steering comes from a list, and the one
    tool returns at once. *)
Module Scripted.

Record script := mkScript { answers : list AssistantMessage; steering : list AgentMessage }.

Definition usage : Usage :=
  mkUsage (JInt 0) (JInt 0) (JInt 0) (JInt 0) None None (JInt 0) (mkCost (JInt 0) (JInt 0) (JInt 0) (JInt 0) (JInt 0)).
Definition answer (content : list Content) (reason : StopReason) : AssistantMessage :=
  mkAssistantMessage content "api" "prov" "model" None None None usage reason None None None None (JInt 0).
Definition user (text : string) : AgentMessage := MUser (mkUserMessage (PlainContent text) (JInt 0)).

Definition env : @Environment script unit unit unit :=
  mkEnvironment (fun _ w => (w, Ok ())) (fun _ => false) (fun _ => JInt 0)
    (fun _ _ _ _ _ _ w => (w, Ok ())) (fun _ w => (w, Ok None))
    (fun _ w => match answers w with
                | a :: rest => (mkScript rest (steering w), Ok a)
                | [] => (w, Ok (answer [] SRstop))
                end)
    (fun w => (w, 0%nat)).

Definition echo : @AgentTool script unit :=
  mkTool "echo" None None (fun args => Ok (JObj args)) (fun _ _ w => (w, Ok ()))
    (fun r w => (w, (r, Returned (mkToolResult (Some [TextC "done" None]) None None None None)))).

Definition context : @AgentContext script unit := mkContext "be brief" [] (Some [echo]).

Definition steer (w : script) : script * result string (list AgentMessage) :=
  match steering w with
  | m :: rest => (mkScript (answers w) rest, Ok [m])
  | [] => (w, Ok [])
  end.

Definition config : @AgentLoopConfig script unit unit :=
  mkConfig () (fun _ => "prov") None None None (fun ms w => (w, Ok ms)) None None None None (Some steer) None None None.

Definition start : run_state script :=
  mkRun (mkScript [answer [ToolCallC (mkToolCall "c1" "echo" [] None None)] SRtoolUse; answer [] SRstop] []) [].

Definition budget (w : script) : nat :=
  sum_list_with (fun a => 3 * length (toolCalls (am_content a)))%nat (answers w) + length (steering w).

Lemma env_is_bounded : env_bounded env budget.
Proof.
  split; unfold frugal; try (by intros; cbn; auto with arith).
  intros r [[|a rest] st]; unfold budget; cbn; lia.
Qed.

Lemma config_is_bounded : config_bounded budget config.
Proof.
  split; cbn; try done; try (intros ms w; cbn; lia).
  split; [intros [an [|m st]]; unfold budget; cbn; lia|]. intros [an [|m0 st]] m ms; cbn; [done|]. unfold budget. cbn. lia.
Qed.

Lemma context_is_bounded : context_bounded budget context.
Proof. unfold context_bounded. cbn. constructor; [|constructor]. split_and!; try done; intros ? *; unfold frugal; cbn; lia. Qed.

Definition result : run_state script * result failure (list AgentMessage) := runAgentLoop env 4 [user "hi"] context config start.
End Scripted.

Lemma agent_transcript_witness :
  exists s' ms turns, Scripted.result = (s', Ok ms) /\ ms = [Scripted.user "hi"] ++ flat_map turn_messages turns /\
    started_tools (trace s') = ["c1"] /\ transcript_of Scripted.env turns.
Proof.
  destruct Scripted.result as [s' [ms|e]] eqn:Hrun; [|vm_compute in Hrun; discriminate Hrun].
  destruct (agent_transcript Scripted.env 4 [Scripted.user "hi"] Scripted.context Scripted.config Scripted.start s' ms Hrun)
    as (l & turns & _ & Hms & _ & _ & Hok).
  exists s', ms, turns. split; [reflexivity|split; [exact Hms|split; [|exact Hok]]].
  transitivity (started_tools (trace Scripted.result.1)); [by rewrite Hrun|vm_compute; reflexivity].
Defined.

Lemma agent_terminates_witness :
  exists s', (exists ms, Scripted.result = (s', Ok ms)) \/ (exists e, Scripted.result = (s', Err (Thrown e))).
Proof.
  apply (agent_terminates Scripted.env Scripted.budget 4 [Scripted.user "hi"] Scripted.context Scripted.config Scripted.start
    Scripted.env_is_bounded Scripted.context_is_bounded Scripted.config_is_bounded).
  apply Nat.ltb_lt. vm_compute. reflexivity.
Defined.
