(* ===== verification/Truncate.v ===== *)
(** Truncation of tool outputs: [packages/agent/src/harness/utils/truncate.ts].

    Strings are their UTF-16 code units; the limits are integers.  [None] is the error the
    code throws when it reads the first of no lines. *)
From S2P Require Import Prelude JsNumber JsText.
Local Open Scope Z_scope.

Definition LF : Z := 10.
Definition DEFAULT_MAX_LINES : Z := 2000.
Definition DEFAULT_MAX_BYTES : Z := 50 * 1024.
Definition GREP_MAX_LINE_LENGTH : Z := 500.

Inductive limit : Type := by_lines | by_bytes.

Record TruncationResult := mkTruncation {
  t_content : jsstr;
  t_truncated : bool;
  t_truncatedBy : option limit;
  t_totalLines : Z;
  t_totalBytes : Z;
  t_outputLines : Z;
  t_outputBytes : Z;
  t_lastLinePartial : bool;
  t_firstLineExceedsLimit : bool;
  t_maxLines : Z;
  t_maxBytes : Z;
}.

Record TruncationOptions := mkTruncationOptions { o_maxLines : option Z; o_maxBytes : option Z }.

(** The loop of [utf8ByteLength]. *)
Fixpoint count_bytes (s : jsstr) : Z :=
  match s with
  | [] => 0
  | code :: s' =>
      if code <=? 0x7f then 1 + count_bytes s'
      else if code <=? 0x7ff then 2 + count_bytes s'
      else if is_high_surrogate code then
        match s' with
        | next :: s'' => if is_low_surrogate next then 4 + count_bytes s'' else 3 + count_bytes s'
        | [] => 3
        end
      else 3 + count_bytes s'
  end.

Definition utf8ByteLength (content : jsstr) : Z :=
  match list_find (fun code => 0x7f < code) content with
  | None => Z.of_nat (length content)
  | Some (firstNonAscii, _) => Z.of_nat firstNonAscii + count_bytes (drop firstNonAscii content)
  end.

Definition splitLinesForCounting (content : jsstr) : list jsstr :=
  match content with
  | [] => []
  | _ => let lines := split_on LF content in if decide (last content = Some LF) then removelast lines else lines
  end.

Definition REPLACEMENT : Z := 0xfffd.

Fixpoint replaceUnpairedSurrogates (content : jsstr) : jsstr :=
  match content with
  | [] => []
  | code :: rest =>
      if is_high_surrogate code then
        match rest with
        | next :: rest' =>
            if is_low_surrogate next then code :: next :: replaceUnpairedSurrogates rest'
            else REPLACEMENT :: replaceUnpairedSurrogates rest
        | [] => [REPLACEMENT]
        end
      else if is_low_surrogate code then REPLACEMENT :: replaceUnpairedSurrogates rest
      else code :: replaceUnpairedSurrogates rest
  end.

(** The result when nothing is cut. *)
Definition untruncated (content : jsstr) (totalLines totalBytes maxLines maxBytes : Z) : TruncationResult :=
  mkTruncation content false None totalLines totalBytes totalLines totalBytes false false maxLines maxBytes.

(** The loop of [truncateHead] from line [i] on. *)
Fixpoint head_loop (maxLines maxBytes i : Z) (lines out : list jsstr) (count : Z) : list jsstr * Z * limit :=
  match lines with
  | [] => (out, count, by_lines)
  | line :: rest =>
      if i <? maxLines then
        let lineBytes := utf8ByteLength line + (if 0 <? i then 1 else 0) in
        if count + lineBytes >? maxBytes then (out, count, by_bytes)
        else head_loop maxLines maxBytes (i + 1) rest (out ++ [line]) (count + lineBytes)
      else (out, count, by_lines)
  end.

Definition truncateHead (content : jsstr) (options : TruncationOptions) : option TruncationResult :=
  let maxLines := default DEFAULT_MAX_LINES (o_maxLines options) in
  let maxBytes := default DEFAULT_MAX_BYTES (o_maxBytes options) in
  let totalBytes := utf8ByteLength content in
  let lines := splitLinesForCounting content in
  let totalLines := Z.of_nat (length lines) in
  if (totalLines <=? maxLines) && (totalBytes <=? maxBytes) then Some (untruncated content totalLines totalBytes maxLines maxBytes)
  else
    firstLine ← head lines;
    if utf8ByteLength firstLine >? maxBytes then
      Some (mkTruncation [] true (Some by_bytes) totalLines totalBytes 0 0 false true maxLines maxBytes)
    else
      let '(out, count, truncatedBy) := head_loop maxLines maxBytes 0 lines [] 0 in
      let truncatedBy := if (Z.of_nat (length out) >=? maxLines) && (count <=? maxBytes) then by_lines else truncatedBy in
      let outputContent := join_with LF out in
      Some (mkTruncation outputContent true (Some truncatedBy) totalLines totalBytes (Z.of_nat (length out))
        (utf8ByteLength outputContent) false false maxLines maxBytes).

(** The loop of [truncateStringToBytesFromEnd]: what is before the output is reversed. *)
Fixpoint from_end (maxBytes : Z) (before : jsstr) (out : jsstr) (outputBytes : Z) (needsReplacement : bool) : jsstr * bool :=
  match before with
  | [] => (out, needsReplacement)
  | code :: before' =>
      let take_unit characterBytes unpaired :=
        if outputBytes + characterBytes >? maxBytes then (out, needsReplacement)
        else from_end maxBytes before' (code :: out) (outputBytes + characterBytes) (needsReplacement || unpaired) in
      match before' with
      | previous :: before'' =>
          if is_low_surrogate code then
            if is_high_surrogate previous then
              if outputBytes + 4 >? maxBytes then (out, needsReplacement)
              else from_end maxBytes before'' (previous :: code :: out) (outputBytes + 4) needsReplacement
            else take_unit 3 true
          else if is_surrogate code then take_unit 3 true
          else take_unit (if code <=? 0x7f then 1 else if code <=? 0x7ff then 2 else 3) false
      | [] =>
          if is_surrogate code then take_unit 3 true
          else take_unit (if code <=? 0x7f then 1 else if code <=? 0x7ff then 2 else 3) false
      end
  end.

Definition truncateStringToBytesFromEnd (str : jsstr) (maxBytes : Z) : jsstr :=
  if maxBytes <=? 0 then []
  else
    let '(output, needsReplacement) := from_end maxBytes (rev str) [] 0 false in
    if needsReplacement then replaceUnpairedSurrogates output else output.

(** The loop of [truncateTail]: the lines not yet looked at, from the last on. *)
Fixpoint tail_loop (maxLines maxBytes : Z) (lines out : list jsstr) (count : Z) : list jsstr * Z * limit * bool :=
  match lines with
  | [] => (out, count, by_lines, false)
  | line :: rest =>
      if Z.of_nat (length out) <? maxLines then
        let lineBytes := utf8ByteLength line + (match out with [] => 0 | _ => 1 end) in
        if count + lineBytes >? maxBytes then
          match out with
          | [] => let truncatedLine := truncateStringToBytesFromEnd line maxBytes in
                  ([truncatedLine], utf8ByteLength truncatedLine, by_bytes, true)
          | _ => (out, count, by_bytes, false)
          end
        else tail_loop maxLines maxBytes rest (line :: out) (count + lineBytes)
      else (out, count, by_lines, false)
  end.

Definition truncateTail (content : jsstr) (options : TruncationOptions) : TruncationResult :=
  let maxLines := default DEFAULT_MAX_LINES (o_maxLines options) in
  let maxBytes := default DEFAULT_MAX_BYTES (o_maxBytes options) in
  let totalBytes := utf8ByteLength content in
  let lines := splitLinesForCounting content in
  let totalLines := Z.of_nat (length lines) in
  if (totalLines <=? maxLines) && (totalBytes <=? maxBytes) then untruncated content totalLines totalBytes maxLines maxBytes
  else
    let '(out, count, truncatedBy, lastLinePartial) := tail_loop maxLines maxBytes (rev lines) [] 0 in
    let truncatedBy := if (Z.of_nat (length out) >=? maxLines) && (count <=? maxBytes) then by_lines else truncatedBy in
    let outputContent := join_with LF out in
    mkTruncation outputContent true (Some truncatedBy) totalLines totalBytes (Z.of_nat (length out))
      (utf8ByteLength outputContent) lastLinePartial false maxLines maxBytes.

Definition truncateLine (line : jsstr) (maxChars : Z) : jsstr * bool :=
  if Z.of_nat (length line) <=? maxChars then (line, false)
  else
    let end_ := if maxChars <? 0 then Z.of_nat (length line) + maxChars else maxChars in  (* [slice(0, maxChars)] *)
    (take (Z.to_nat end_) line ++ js "... [truncated]", true).

(** * Truncation keeps its limits, and keeps as much as they allow. *)

(** ** Sizes *)

(** The size of the UTF-8 encoding, which [utf8ByteLength] computes without encoding. *)
Definition encoded_size (s : jsstr) : Z := Z.of_nat (length (text_encode s)).

Lemma size_nonneg s : 0 <= encoded_size s.
Proof. unfold encoded_size. lia. Qed.

Lemma scalars_size cs : Z.of_nat (length (concat (map utf8_char cs))) = foldr (fun c n => Z.of_nat (length (utf8_char c)) + n) 0 cs.
Proof. induction cs as [|c cs IH]; cbn [map concat foldr]; [done|]. rewrite length_app. lia. Qed.

Lemma utf8_char_size c : Z.of_nat (length (utf8_char c)) = if c <? 0x80 then 1 else if c <? 0x800 then 2 else if c <? 0x10000 then 3 else 4.
Proof. unfold utf8_char. repeat (destruct (_ <? _); [done|]). done. Qed.

Lemma size_values s : encoded_size s = foldr (fun c n => Z.of_nat (length (utf8_char c)) + n) 0 (scalar_values s).
Proof. apply scalars_size. Qed.

Ltac surrogates := unfold is_surrogate, is_high_surrogate, is_low_surrogate, is_code_unit, combine_surrogates in *.

Lemma high_not_low u : is_high_surrogate u = true -> is_low_surrogate u = false.
Proof. surrogates. zlia. Qed.

(** The size of a string by its first character. *)
Lemma size_plain u s : is_surrogate u = false -> encoded_size (u :: s) = Z.of_nat (length (utf8_char u)) + encoded_size s.
Proof.
  intros Hu. rewrite !size_values. cbn [scalar_values].
  replace (is_high_surrogate u) with false by (surrogates; zlia). replace (is_low_surrogate u) with false by (surrogates; zlia). done.
Qed.

Lemma size_pair u v s : is_high_surrogate u = true -> is_low_surrogate v = true -> encoded_size (u :: v :: s) = 4 + encoded_size s.
Proof.
  intros Hu Hv. rewrite !size_values. cbn [scalar_values]. rewrite Hu, Hv. cbn [foldr]. rewrite utf8_char_size. surrogates.
  repeat match goal with |- context [?a <? ?b] => destruct (Z.ltb_spec a b); [zlia|] end. done.
Qed.

Lemma size_lone u s : is_surrogate u = true -> (is_high_surrogate u = true -> forall v, head s = Some v -> is_low_surrogate v = false) ->
  encoded_size (u :: s) = 3 + encoded_size s.
Proof.
  intros Hu Hs. rewrite !size_values. cbn [scalar_values]. destruct (is_high_surrogate u) eqn:Hh.
  - destruct s as [|v s]; [done|]. by rewrite (Hs eq_refl v).
  - replace (is_low_surrogate u) with true by (surrogates; zlia). done.
Qed.

Lemma size_unit u : is_code_unit u -> is_surrogate u = false ->
  Z.of_nat (length (utf8_char u)) = if u <=? 0x7f then 1 else if u <=? 0x7ff then 2 else 3.
Proof.
  intros Hu _. rewrite utf8_char_size. unfold is_code_unit in Hu.
  destruct (Z.ltb_spec u 0x80), (Z.leb_spec u 0x7f); try lia. destruct (Z.ltb_spec u 0x800), (Z.leb_spec u 0x7ff); try lia.
  destruct (Z.ltb_spec u 0x10000); lia.
Qed.

Lemma count_bytes_size s : Forall is_code_unit s -> count_bytes s = encoded_size s.
Proof.
  remember (length s) as n eqn:Hn. revert s Hn. induction n as [n IH] using lt_wf_ind. intros s Hn Hs.
  destruct s as [|u s]; [done|]. apply Forall_cons in Hs as [Hu Hs]. cbn in Hn. pose proof (IH (length s) ltac:(lia) s eq_refl Hs) as IHs.
  cbn [count_bytes]. destruct (is_surrogate u) eqn:Hsur.
  - replace (u <=? 0x7f) with false by (surrogates; zlia). replace (u <=? 0x7ff) with false by (surrogates; zlia).
    destruct (is_high_surrogate u) eqn:Hh; [|rewrite size_lone by (done || by rewrite Hh); lia].
    destruct s as [|v s]; [by rewrite size_lone|]. destruct (is_low_surrogate v) eqn:Hl.
    + rewrite size_pair by done. apply Forall_cons in Hs as [_ Hs]. rewrite (IH (length s)) by (cbn in *; done || lia). done.
    + rewrite size_lone; [lia|done|]. by intros _ w [= <-].
  - replace (is_high_surrogate u) with false by (surrogates; zlia). rewrite size_plain, size_unit by done.
    destruct (u <=? 0x7f); [lia|]. destruct (u <=? 0x7ff); lia.
Qed.

Lemma ascii_size s t : Forall (fun u => 0 <= u <= 0x7f) s -> encoded_size (s ++ t) = Z.of_nat (length s) + encoded_size t.
Proof.
  induction 1 as [|u s Hu _ IH]; [done|]. cbn [app length]. rewrite size_plain by (surrogates; zlia). rewrite IH, utf8_char_size.
  destruct (Z.ltb_spec u 0x80); lia.
Qed.

Lemma byte_length_size s : Forall is_code_unit s -> utf8ByteLength s = encoded_size s.
Proof.
  intros Hs. unfold utf8ByteLength. destruct (list_find _ s) as [[i u]|] eqn:Hf.
  - apply list_find_Some in Hf as (Hi & _ & Hbefore). rewrite <- (take_drop i s) at 2. rewrite ascii_size.
    + rewrite count_bytes_size by by apply Forall_drop. rewrite length_take_le; [done|]. apply lookup_lt_Some in Hi. lia.
    + apply Forall_lookup_2. intros j v Hj. apply lookup_take_Some in Hj as [Hj Hlt]. specialize (Hbefore j v Hj Hlt).
      rewrite Forall_lookup in Hs. specialize (Hs j v Hj). unfold is_code_unit in Hs. lia.
  - apply list_find_None in Hf. rewrite <- (app_nil_r s) at 2. rewrite ascii_size; [change (encoded_size []) with 0; lia|].
    apply Forall_forall. intros u Hu. rewrite Forall_forall in Hf, Hs. specialize (Hf u Hu). specialize (Hs u Hu). unfold is_code_unit in Hs. lia.
Qed.

(** A line feed never joins with a surrogate. *)
Lemma values_line a b : scalar_values (a ++ LF :: b) = scalar_values a ++ LF :: scalar_values b.
Proof.
  remember (length a) as n eqn:Hn. revert a Hn. induction n as [n IH] using lt_wf_ind. intros a Hn.
  destruct a as [|u a]; [done|]. cbn in Hn. pose proof (IH (length a) ltac:(lia) a eq_refl) as IHa.
  cbn [app scalar_values]. destruct (is_high_surrogate u).
  - destruct a as [|v a]; [done|]. cbn [app]. destruct (is_low_surrogate v); [|cbn [app]; f_equal; exact IHa]. cbn in Hn. by rewrite (IH (length a)) by (done || lia).
  - destruct (is_low_surrogate u); by rewrite IHa.
Qed.

Lemma size_line a b : encoded_size (a ++ LF :: b) = encoded_size a + 1 + encoded_size b.
Proof.
  unfold encoded_size, text_encode. rewrite values_line, map_app, concat_app. cbn [map concat]. rewrite !length_app. cbn. lia.
Qed.

(** ** Lines *)

Definition lines_size (ls : list jsstr) : Z := encoded_size (join_with LF ls).

Definition fits (maxLines maxBytes : Z) (ls : list jsstr) : Prop :=
  Z.of_nat (length ls) <= maxLines /\ lines_size ls <= maxBytes.

Definition separator (ls : list jsstr) : Z := match ls with [] => 0 | _ => 1 end.

Lemma lines_snoc ls l : lines_size (ls ++ [l]) = lines_size ls + separator ls + encoded_size l.
Proof.
  unfold lines_size. destruct ls as [|l0 ls]; [cbn; change (encoded_size []) with 0; lia|]. rewrite join_snoc, size_line by done. done.
Qed.

Lemma lines_cons l ls : lines_size (l :: ls) = encoded_size l + separator ls + lines_size ls.
Proof.
  unfold lines_size. destruct ls as [|l0 ls]; [cbn; change (encoded_size []) with 0; lia|]. rewrite join_cons, size_line by done. done.
Qed.

Lemma separator_nonneg ls : 0 <= separator ls.
Proof. by destruct ls. Qed.

Lemma lines_mono a b : lines_size a <= lines_size (a ++ b).
Proof.
  revert a. induction b as [|l b IH]; intros a; [by rewrite app_nil_r|]. specialize (IH (a ++ [l])). rewrite lines_snoc, <- app_assoc in IH.
  cbn [app] in IH. pose proof (size_nonneg l). pose proof (separator_nonneg a). lia.
Qed.

(** A longer prefix does not fit where a shorter one does not. *)
Lemma fits_prefix L B ls k n : fits L B (take k ls) -> ((n < length ls)%nat -> ~ fits L B (take (S n) ls)) -> (k <= length ls)%nat -> (k <= n)%nat.
Proof.
  intros [Hk1 Hk2] Hn Hlen. destruct (decide (k <= n)%nat); [done|]. exfalso. apply Hn; [lia|].
  replace k with (S n + (k - S n))%nat in Hk1, Hk2 by lia. rewrite <- take_take_drop in Hk1, Hk2.
  rewrite length_app in Hk1. pose proof (lines_mono (take (S n) ls) (take (k - S n) (drop (S n) ls))). split; lia.
Qed.

Lemma pieces_units (P : Z -> Prop) s : Forall P s -> Forall (Forall P) (split_on LF s).
Proof.
  induction 1 as [|c s Hc _ IH]; cbn [split_on]; [by repeat constructor|]. case_decide; [by repeat constructor|].
  destruct (split_on LF s) as [|l ls]; [by repeat constructor|]. apply Forall_cons in IH as [Hl Hls]. by repeat constructor.
Qed.

Lemma lines_units s : Forall is_code_unit s -> Forall (Forall is_code_unit) (splitLinesForCounting s).
Proof.
  intros Hs. pose proof (pieces_units _ _ Hs) as Hp. unfold splitLinesForCounting. destruct s as [|c s]; [constructor|].
  case_decide; [|done]. destruct (split_on LF (c :: s)) as [|l ls _] using rev_ind; [done|]. rewrite removelast_last. by apply Forall_app in Hp as [Hp _].
Qed.

Lemma join_units ls : Forall (Forall is_code_unit) ls -> Forall is_code_unit (join_with LF ls).
Proof.
  induction 1 as [|l ls Hl Hls IH]; [constructor|]. destruct ls; [done|]. rewrite join_cons by done. apply Forall_app.
  split; [done|]. constructor; [done|exact IH].
Qed.

Lemma lines_nonempty s : s = [] \/ splitLinesForCounting s <> [].
Proof.
  destruct s as [|c s]; [by left|right]. unfold splitLinesForCounting. case_decide as Hl; [|apply split_on_nonempty].
  intros Hr. destruct s as [|c' s _] using rev_ind; [by injection Hl as ->|].
  rewrite app_comm_cons, last_snoc in Hl. injection Hl as ->. rewrite app_comm_cons, split_on_snoc, removelast_last in Hr.
  by apply (split_on_nonempty LF (c :: s)).
Qed.

(** *** From the head *)

Lemma head_loop_spec L B lines : Forall (Forall is_code_unit) lines -> forall out, fits L B out ->
  exists n lim, (n <= length lines)%nat /\
    head_loop L B (Z.of_nat (length out)) lines out (lines_size out) = (out ++ take n lines, lines_size (out ++ take n lines), lim) /\
    fits L B (out ++ take n lines) /\
    ((n < length lines)%nat -> ~ fits L B (out ++ take (S n) lines)) /\
    (lim = by_bytes <-> (n < length lines)%nat /\ Z.of_nat (length (out ++ take n lines)) < L).
Proof.
  induction 1 as [|l lines Hl _ IH]; intros out Hout; cbn [head_loop length].
  { exists 0%nat, by_lines. cbn [take]. rewrite app_nil_r. split_and!; try done; [lia|split; [done|lia]]. }
  destruct (Z.ltb_spec (Z.of_nat (length out)) L) as [Hlt|Hge].
  2: { exists 0%nat, by_lines. cbn [take]. rewrite app_nil_r. split_and!; try done; [lia| |split; [done|lia]].
       intros _ [Hc _]. rewrite length_app in Hc. cbn in Hc. lia. }
  rewrite byte_length_size by done.
  assert (lines_size (out ++ [l]) = lines_size out + (encoded_size l + (if 0 <? Z.of_nat (length out) then 1 else 0))) as Hsize.
  { rewrite lines_snoc. destruct out; cbn [separator length]; [rewrite Z.ltb_irrefl; lia|]. replace (0 <? _) with true by (symmetry; zlia). lia. }
  rewrite <- Hsize. rewrite Z.gtb_ltb. destruct (Z.ltb_spec B (lines_size (out ++ [l]))) as [Hbig|Hok].
  - exists 0%nat, by_bytes. cbn [take]. rewrite app_nil_r. split_and!; try done; [lia| |split; [intros _; lia|done]].
    intros _ [_ Hc]. rewrite take_0 in Hc. lia.
  - destruct (IH (out ++ [l])) as (n & lim & Hn & Heq & Hfits & Hmax & Hlim).
    { split; [rewrite length_app; cbn; lia|done]. }
    exists (S n), lim. rewrite length_app in Heq. cbn [length] in Heq. replace (Z.of_nat (length out + 1)) with (Z.of_nat (length out) + 1) in Heq by lia.
    rewrite Heq. cbn [take]. rewrite <- app_assoc in *. cbn [app] in *. split_and!; try done; [lia| |].
    + intros Hlt'. apply Hmax. lia.
    + rewrite Hlim. split; intros [? ?]; (split; [lia|done]).
Qed.

(** What [truncateHead] returns: the content when it is within the limits, or else its
    longest prefix of whole lines that is. *)
Definition head_result (content : jsstr) (L B : Z) (r : TruncationResult) : Prop :=
  let lines := splitLinesForCounting content in
  let total := Z.of_nat (length lines) in
  t_totalLines r = total /\ t_totalBytes r = encoded_size content /\ t_maxLines r = L /\ t_maxBytes r = B /\
  t_lastLinePartial r = false /\ t_outputBytes r = encoded_size (t_content r) /\ t_outputBytes r <= B /\ t_outputLines r <= L /\
  if t_truncated r then
    ~ (total <= L /\ encoded_size content <= B) /\
    exists n, (n <= length lines)%nat /\ t_outputLines r = Z.of_nat n /\ t_content r = join_with LF (take n lines) /\
      (forall k, (k <= length lines)%nat -> fits L B (take k lines) -> (k <= n)%nat) /\
      (t_firstLineExceedsLimit r = true <-> exists l, head lines = Some l /\ B < encoded_size l) /\
      (t_truncatedBy r = Some by_bytes <-> (n < length lines)%nat /\ (Z.of_nat n < L \/ t_firstLineExceedsLimit r = true))
  else t_content r = content /\ t_outputLines r = total /\ total <= L /\ encoded_size content <= B.

Lemma head_spec content options : Forall is_code_unit content ->
  let L := default DEFAULT_MAX_LINES (o_maxLines options) in let B := default DEFAULT_MAX_BYTES (o_maxBytes options) in
  0 <= L -> 0 <= B -> exists r, truncateHead content options = Some r /\ head_result content L B r.
Proof.
  intros Hu L B HL HB. unfold truncateHead. fold L B. rewrite byte_length_size by done. pose proof (lines_units _ Hu) as Hlines.
  pose proof (lines_nonempty content) as Hempty.
  set (lines := splitLinesForCounting content) in *. set (total := Z.of_nat (length lines)).
  destruct ((total <=? L) && (encoded_size content <=? B)) eqn:Hfit.
  { apply andb_true_iff in Hfit as [Hf1 Hf2]. eexists. split; [reflexivity|]. unfold head_result, untruncated. cbn. fold lines total.
    split_and!; try done; lia. }
  assert (~ (total <= L /\ encoded_size content <= B)) as Hover.
  { intros [H1 H2]. apply andb_false_iff in Hfit as [?|?]; lia. }
  destruct lines as [|l0 rest] eqn:Hls.
  { exfalso. destruct Hempty as [->|]; [|done]. apply Hover. subst total. split; [done|]. change (encoded_size []) with 0. lia. }
  cbn [head mbind option_bind]. apply Forall_cons in Hlines as Hl0. destruct Hl0 as [Hl0 _]. rewrite byte_length_size by done. rewrite Z.gtb_ltb.
  destruct (Z.ltb_spec B (encoded_size l0)) as [Hbig|Hsmall].
  - eexists. split; [reflexivity|]. unfold head_result. cbn -[encoded_size join_with take]. fold lines. rewrite Hls. cbn -[encoded_size join_with take].
    change (encoded_size []) with 0. split_and!; try done. exists 0%nat. split_and!; try done; [lia| | |].
    + intros [|k] Hk [_ Hf]; [done|]. exfalso. cbn [take] in Hf. rewrite lines_cons in Hf.
      pose proof (separator_nonneg (take k rest)). pose proof (size_nonneg (join_with LF (take k rest))). unfold lines_size in Hf. lia.
    + split; [by exists l0|done].
    + split; [|done]. intros _. split; [cbn; lia|by right].
  - destruct (head_loop_spec L B _ Hlines []) as (n & lim & Hn & Heq & Hf & Hmax & Hlim); [split; [done|exact HB]|].
    change (Z.of_nat (length [])) with 0 in Heq. change (lines_size []) with 0 in Heq. cbn [app] in Heq, Hf, Hmax, Hlim. rewrite Heq.
    destruct Hf as [Hf1 Hf2]. rewrite length_take_le in * by done. eexists. split; [reflexivity|].
    assert (Forall is_code_unit (join_with LF (take n (l0 :: rest)))) as Hju by by apply join_units, Forall_take.
    rewrite byte_length_size by done. unfold head_result. cbn -[encoded_size join_with take Z.of_nat]. fold lines. rewrite Hls.
    cbn -[encoded_size join_with take Z.of_nat]. split_and!; try done. exists n. split_and!; try done.
    + intros k Hk Hfk. by eapply fits_prefix.
    + split; [done|]. intros (l & [= <-] & ?). lia.
    + replace (lines_size (take n (l0 :: rest)) <=? B) with true by (symmetry; zlia). rewrite andb_true_r.
      rewrite Z.geb_leb. destruct (Z.leb_spec L (Z.of_nat n)).
      * split; [done|]. intros [_ [?|?]]; [lia|done].
      * split; [intros [= ->]; destruct (proj1 Hlim eq_refl); split; [done|by left]|].
        intros [H1 [H2|?]]; [|done]. by rewrite (proj2 Hlim (conj H1 H2)).
Qed.

(** *** The end of a line *)

(** No surrogate pair lies across the two parts. *)
Definition boundary (a b : jsstr) : Prop :=
  forall u v, last a = Some u -> head b = Some v -> is_high_surrogate u = true -> is_low_surrogate v = false.

Lemma boundary_tail u a b : boundary (u :: a) b -> a <> [] -> boundary a b.
Proof. intros Hb Ha x y Hx. apply Hb. rewrite last_cons. by rewrite Hx. Qed.

Lemma size_app a b : boundary a b -> encoded_size (a ++ b) = encoded_size a + encoded_size b.
Proof.
  remember (length a) as n eqn:Hn. revert a Hn. induction n as [n IH] using lt_wf_ind. intros a Hn Hb.
  destruct a as [|u a]; [done|]. cbn in Hn. cbn [app].
  assert (boundary a b) as Hb' by (destruct a; [done|by eapply boundary_tail]).
  pose proof (IH (length a) ltac:(lia) a eq_refl Hb') as IHa.
  destruct (is_surrogate u) eqn:Hs; [|rewrite !size_plain by done; lia].
  destruct (is_high_surrogate u) eqn:Hh; [|rewrite !size_lone by (done || by rewrite Hh); lia].
  destruct a as [|v a].
  - cbn [app]. rewrite (size_lone u []), (size_lone u b); [change (encoded_size []) with 0; lia|done| |done|done].
    intros _ v Hv. by apply (Hb u v).
  - cbn [app]. destruct (is_low_surrogate v) eqn:Hl.
    + rewrite !size_pair by done. assert (boundary a b) as Hb2 by (destruct a; [done|by eapply boundary_tail]).
      cbn in Hn. rewrite (IH (length a)) by (done || lia). lia.
    + rewrite (size_lone u (v :: a)), (size_lone u (v :: a ++ b)); [|done|by intros _ w [= <-]|done|by intros _ w [= <-]].
      cbn [app] in IHa. lia.
Qed.

Lemma replace_encoded s : text_encode (replaceUnpairedSurrogates s) = text_encode s.
Proof.
  unfold text_encode. do 2 f_equal. remember (length s) as n eqn:Hn. revert s Hn. induction n as [n IH] using lt_wf_ind. intros s Hn.
  destruct s as [|u s]; [done|]. cbn in Hn. pose proof (IH (length s) ltac:(lia) s eq_refl) as IHs.
  cbn [replaceUnpairedSurrogates scalar_values]. destruct (is_high_surrogate u) eqn:Hh.
  - destruct s as [|v s]; [done|]. destruct (is_low_surrogate v) eqn:Hl.
    + cbn [scalar_values]. rewrite Hh, Hl. cbn in Hn. by rewrite (IH (length s)) by (done || lia).
    + change (scalar_values (REPLACEMENT :: ?x)) with (0xfffd :: scalar_values x). by rewrite IHs.
  - destruct (is_low_surrogate u) eqn:Hl.
    + change (scalar_values (REPLACEMENT :: ?x)) with (0xfffd :: scalar_values x). by rewrite IHs.
    + cbn [scalar_values]. by rewrite Hh, Hl, IHs.
Qed.

(** The longest end of a string that fits: no pair is cut, and the character before does not fit. *)
Definition longest_end (B : Z) (str out : jsstr) : Prop :=
  exists before, str = before ++ out /\ boundary before out /\ encoded_size out <= B /\
    forall a b, str = a ++ b -> boundary a b -> encoded_size b <= B -> (length b <= length out)%nat.

Lemma boundary_suffix y rest b : (exists z, rest = z ++ y) -> boundary rest b -> boundary y b.
Proof. intros [z ->] Hb u v Hu. apply Hb. rewrite last_app. by rewrite Hu. Qed.

(** The scan stops in front of a character [c] that does not fit. *)
Lemma stop_at rest c out B : boundary rest (c ++ out) -> boundary (rest ++ c) out -> encoded_size out <= B -> B < encoded_size (c ++ out) ->
  (forall x y, c = x ++ y -> x <> [] -> y <> [] -> ~ boundary (rest ++ x) (y ++ out)) -> longest_end B ((rest ++ c) ++ out) out.
Proof.
  intros Hrest Hc Hout Hbig Hatom. exists (rest ++ c). split_and!; [done..|]. intros a b Hab Hb Hfit.
  apply app_eq_inv in Hab as [(x & Hx & ->)|(x & -> & ->)]; [|rewrite length_app; lia].
  apply app_eq_inv in Hx as [(y & -> & ->)|(z & -> & ->)].
  - exfalso. rewrite <- app_assoc in Hfit. rewrite size_app in Hfit.
    + pose proof (size_nonneg y). lia.
    + eapply boundary_suffix; [by eexists|exact Hrest].
  - destruct x as [|x0 x]; [done|]. destruct z as [|z0 z].
    + exfalso. cbn [app] in Hfit, Hbig. lia.
    + exfalso. by apply (Hatom (z0 :: z) (x0 :: x)).
Qed.

Lemma stop_at_start out B : encoded_size out <= B -> longest_end B out out.
Proof. intros Hout. exists []. split_and!; try done. intros a b -> _ _. rewrite length_app. lia. Qed.

Lemma from_end_spec B before : Forall is_code_unit before -> forall out needs, boundary (rev before) out -> encoded_size out <= B ->
  longest_end B (rev before ++ out) (from_end B before out (encoded_size out) needs).1.
Proof.
  remember (length before) as n eqn:Hn. revert before Hn. induction n as [n IH] using lt_wf_ind.
  intros before Hn Hu out needs Hb Hout. destruct before as [|code before]; [by apply stop_at_start|].
  apply Forall_cons in Hu as [Hcode Hu]. cbn in Hn. cbn [rev] in Hb |- *.
  (* one unit of a known size *)
  assert (forall w unpaired, encoded_size (code :: out) = w + encoded_size out -> boundary (rev before) (code :: out) ->
    longest_end B ((rev before ++ [code]) ++ out)
      (if encoded_size out + w >? B then (out, needs) else from_end B before (code :: out) (encoded_size out + w) (needs || unpaired)).1) as Hone.
  { intros w unpaired Hw Hbd. rewrite Z.gtb_ltb. destruct (Z.ltb_spec B (encoded_size out + w)) as [Hbig|Hok].
    - apply stop_at; [done..|cbn; lia|]. intros x y Hxy Hx Hy. destruct x as [|? [|? ?]], y; try done; by destruct x.
    - replace (encoded_size out + w) with (encoded_size (code :: out)) by lia. rewrite <- app_assoc. cbn [app].
      apply (IH (length before)); [lia|done|done|done|lia]. }
  assert (is_surrogate code = false -> encoded_size (code :: out) = (if code <=? 0x7f then 1 else if code <=? 0x7ff then 2 else 3) + encoded_size out) as Hplain.
  { intros Hs. by rewrite size_plain, size_unit by done. }
  assert (forall a : jsstr, is_low_surrogate code = false -> boundary a (code :: out)) as Hbl by (intros a Hl u v _ [= <-]; done).
  assert (is_high_surrogate code = true -> forall v, head out = Some v -> is_low_surrogate v = false) as Hnext.
  { intros Hh v Hv. apply (Hb code v); [apply last_snoc|done|done]. }
  destruct before as [|previous before].
  - cbn [from_end]. destruct (is_surrogate code) eqn:Hs.
    + apply Hone; [by apply size_lone|]. by intros u v [= ?].
    + apply Hone; [by apply Hplain|]. by intros u v [= ?].
  - cbn [from_end]. destruct (is_low_surrogate code) eqn:Hl.
    + destruct (is_high_surrogate previous) eqn:Hh.
      * apply Forall_cons in Hu as [_ Hu]. assert (forall a : jsstr, boundary a (previous :: code :: out)) as Hbp.
        { intros a u v _ [= <-] _. by apply high_not_low. }
        cbn [rev] in Hb |- *. replace (((rev before ++ [previous]) ++ [code]) ++ out) with ((rev before ++ [previous; code]) ++ out)
          by by rewrite <- !app_assoc.
        rewrite Z.gtb_ltb. destruct (Z.ltb_spec B (encoded_size out + 4)) as [Hbig|Hok].
        -- apply stop_at; [apply Hbp| |done|cbn; rewrite size_pair by done; lia|].
           { by rewrite <- app_assoc in Hb. }
           intros x y Hxy Hx Hy Hbd. destruct x as [|x0 [|x1 [|? ?]]], y as [|y0 [|? ?]]; try done; injection Hxy as <- <-.
           assert (is_low_surrogate code = false); [|congruence]. apply (Hbd previous code); [apply last_snoc|done|done].
        -- replace (encoded_size out + 4) with (encoded_size (previous :: code :: out)) by (rewrite size_pair by done; lia).
           rewrite <- app_assoc. cbn [app]. cbn in Hn.
           apply (IH (length before)); [lia|done|done|apply Hbp|rewrite size_pair by done; lia].
      * apply Hone; [apply size_lone; [by surrogates; zlia|done]|]. intros u v Hx [= <-] Hu'.
        cbn [rev] in Hx. rewrite last_snoc in Hx. injection Hx as <-. congruence.
    + destruct (is_surrogate code) eqn:Hs; apply Hone; try (by apply Hbl); [by apply size_lone|by apply Hplain].
Qed.

Lemma end_of_line_spec str B : Forall is_code_unit str -> 0 <= B ->
  exists out, longest_end B str out /\ text_encode (truncateStringToBytesFromEnd str B) = text_encode out.
Proof.
  intros Hu HB. unfold truncateStringToBytesFromEnd. destruct (Z.leb_spec B 0) as [Hz|Hpos].
  { exists []. split; [|done]. exists str. split_and!; [by rewrite app_nil_r|done|done|].
    intros a b -> _ Hb. destruct b as [|c b]; [done|]. exfalso.
    enough (0 < encoded_size (c :: b)) by lia. clear -Hu. apply Forall_app in Hu as [_ Hu]. apply Forall_cons in Hu as [Hc _].
    destruct (is_surrogate c) eqn:Hs; [|rewrite size_plain, size_unit by done; pose proof (size_nonneg b); destruct (_ <=? _); [lia|destruct (_ <=? _); lia]].
    unfold encoded_size, text_encode. cbn [scalar_values]. destruct (is_high_surrogate c); [destruct b as [|v b]; [done|]; destruct (is_low_surrogate v)|destruct (is_low_surrogate c)];
      cbn [map concat]; rewrite length_app; unfold utf8_char; repeat (destruct (_ <? _)); cbn; lia. }
  pose proof (from_end_spec B (rev str) ltac:(by apply Forall_rev) [] false) as Hf. rewrite rev_involutive, app_nil_r in Hf.
  change (encoded_size []) with 0 in Hf. destruct (from_end B (rev str) [] 0 false) as [out needs]. exists out. split.
  - apply Hf; [by intros u v ? [=]|done].
  - destruct needs; [apply replace_encoded|done].
Qed.

Lemma replace_units s : Forall is_code_unit s -> Forall is_code_unit (replaceUnpairedSurrogates s).
Proof.
  remember (length s) as n eqn:Hn. revert s Hn. induction n as [n IH] using lt_wf_ind. intros s Hn Hs.
  destruct s as [|u s]; [constructor|]. apply Forall_cons in Hs as [Hu Hs]. cbn in Hn.
  pose proof (IH (length s) ltac:(lia) s eq_refl Hs) as IHs. assert (is_code_unit REPLACEMENT) as Hr by done.
  cbn [replaceUnpairedSurrogates]. destruct (is_high_surrogate u); [|by destruct (is_low_surrogate u); constructor].
  destruct s as [|v s]; [by repeat constructor|]. destruct (is_low_surrogate v); [|by constructor].
  apply Forall_cons in Hs as [Hv Hs]. constructor; [done|]. constructor; [done|]. apply (IH (length s)); [cbn in *; lia|done|done].
Qed.

Lemma end_of_line_units str B : Forall is_code_unit str -> Forall is_code_unit (truncateStringToBytesFromEnd str B).
Proof.
  intros Hs. unfold truncateStringToBytesFromEnd. destruct (Z.leb_spec B 0); [constructor|].
  pose proof (from_end_spec B (rev str) ltac:(by apply Forall_rev) [] false) as Hf. rewrite rev_involutive, app_nil_r in Hf.
  change (encoded_size []) with 0 in Hf. destruct (from_end B (rev str) [] 0 false) as [out needs].
  destruct Hf as (before & -> & _); [by intros u v ? [=]|lia|]. apply Forall_app in Hs as [_ Hs].
  destruct needs; [by apply replace_units|done].
Qed.

(** ** The tail *)

Lemma lines_mono_end a b : lines_size b <= lines_size (a ++ b).
Proof.
  induction a as [|l a IH]; [done|]. cbn [app]. rewrite lines_cons. pose proof (size_nonneg l). pose proof (separator_nonneg (a ++ b)). lia.
Qed.

(** The last [n] lines. *)
Definition last_lines (n : nat) (ls : list jsstr) : list jsstr := drop (length ls - n) ls.

Lemma last_lines_rev n ls : last_lines n ls = rev (take n (rev ls)).
Proof. unfold last_lines. change (@take jsstr) with (@firstn jsstr). by rewrite firstn_rev, rev_involutive. Qed.

Lemma last_lines_length n ls : (n <= length ls)%nat -> length (last_lines n ls) = n.
Proof. intros Hn. unfold last_lines. rewrite length_drop. lia. Qed.

Lemma last_lines_more k n ls : (n <= k)%nat -> (k <= length ls)%nat -> exists front, last_lines k ls = front ++ last_lines n ls.
Proof.
  intros Hk Hle. exists (take (k - n) (last_lines k ls)). rewrite <- (take_drop (k - n) (last_lines k ls)) at 1. f_equal.
  unfold last_lines. rewrite drop_drop. f_equal. lia.
Qed.

Lemma fits_suffix L B ls k n : fits L B (last_lines k ls) -> ((n < length ls)%nat -> ~ fits L B (last_lines (S n) ls)) ->
  (k <= length ls)%nat -> (k <= n)%nat.
Proof.
  intros [Hk1 Hk2] Hn Hlen. destruct (decide (k <= n)%nat); [done|]. exfalso. apply Hn; [lia|].
  destruct (last_lines_more k (S n) ls) as [front Hf]; [lia|done|]. rewrite Hf in Hk1, Hk2.
  pose proof (lines_mono_end front (last_lines (S n) ls)). rewrite length_app in Hk1. split; lia.
Qed.

(** The loop, unless the first line it looks at has to be cut. *)
Lemma tail_loop_spec L B rl : Forall (Forall is_code_unit) rl -> forall out, fits L B out ->
  (out = [] -> 0 < L -> forall l, head rl = Some l -> encoded_size l <= B) ->
  exists n lim, (n <= length rl)%nat /\
    tail_loop L B rl out (lines_size out) = (rev (take n rl) ++ out, lines_size (rev (take n rl) ++ out), lim, false) /\
    fits L B (rev (take n rl) ++ out) /\
    ((n < length rl)%nat -> ~ fits L B (rev (take (S n) rl) ++ out)) /\
    (lim = by_bytes <-> (n < length rl)%nat /\ Z.of_nat (length (rev (take n rl) ++ out)) < L).
Proof.
  induction 1 as [|l rl Hl _ IH]; intros out Hout Hfirst; cbn [tail_loop length].
  { exists 0%nat, by_lines. cbn [take rev app]. split_and!; try done; [lia|split; [done|lia]]. }
  destruct (Z.ltb_spec (Z.of_nat (length out)) L) as [Hlt|Hge].
  2: { exists 0%nat, by_lines. cbn [take rev app]. split_and!; try done; [lia| |split; [done|lia]].
       intros _ [Hc _]. rewrite take_0 in Hc. cbn [rev app length] in Hc. lia. }
  rewrite byte_length_size by done.
  assert (lines_size (l :: out) = lines_size out + (encoded_size l + match out with [] => 0 | _ => 1 end)) as Hsize.
  { rewrite lines_cons. unfold separator. destruct out; lia. }
  rewrite <- Hsize. rewrite Z.gtb_ltb. destruct (Z.ltb_spec B (lines_size (l :: out))) as [Hbig|Hok].
  - destruct out as [|l0 out].
    { exfalso. cbn in Hlt. specialize (Hfirst eq_refl Hlt l eq_refl). rewrite lines_cons in Hbig. cbn [separator] in Hbig.
      change (lines_size []) with 0 in Hbig. lia. }
    exists 0%nat, by_bytes. cbn [take rev app]. split_and!; try done; [lia| |split; [intros _; split; [lia|done]|done]].
    intros _ [_ Hc]. rewrite take_0 in Hc. cbn [rev app] in Hc. lia.
  - destruct (IH (l :: out)) as (n & lim & Hn & Heq & Hfits & Hmax & Hlim); [split; [cbn [length]; lia|done]|done|].
    exists (S n), lim. rewrite Heq. cbn [take rev]. rewrite <- app_assoc. cbn [app] in *. split_and!; try done; [lia| |].
    + intros Hlt'. rewrite <- app_assoc. cbn [app]. apply Hmax. lia.
    + rewrite Hlim. split; intros [? ?]; (split; [lia|done]).
Qed.

(** What [truncateTail] returns: the content when it is within the limits, or else its
    longest run of whole lines at the end that is; only when not even the last line fits, the
    longest end of that line. *)
Definition tail_result (content : jsstr) (L B : Z) (r : TruncationResult) : Prop :=
  let lines := splitLinesForCounting content in
  let total := Z.of_nat (length lines) in
  t_totalLines r = total /\ t_totalBytes r = encoded_size content /\ t_maxLines r = L /\ t_maxBytes r = B /\
  t_firstLineExceedsLimit r = false /\ t_outputBytes r = encoded_size (t_content r) /\ t_outputBytes r <= B /\ t_outputLines r <= L /\
  if t_truncated r then
    ~ (total <= L /\ encoded_size content <= B) /\
    (t_lastLinePartial r = true <-> 0 < L /\ exists l, last lines = Some l /\ B < encoded_size l) /\
    if t_lastLinePartial r then
      t_outputLines r = 1 /\
      exists l out, last lines = Some l /\ longest_end B l out /\ text_encode (t_content r) = text_encode out
    else
      exists n, (n <= length lines)%nat /\ t_outputLines r = Z.of_nat n /\ t_content r = join_with LF (last_lines n lines) /\
        (forall k, (k <= length lines)%nat -> fits L B (last_lines k lines) -> (k <= n)%nat) /\
        (t_truncatedBy r = Some by_bytes <-> (n < length lines)%nat /\ Z.of_nat n < L)
  else t_content r = content /\ t_outputLines r = total /\ total <= L /\ encoded_size content <= B.

(** The last line does not fit: the loop cuts it. *)
Lemma tail_loop_cut L B l rl : Forall is_code_unit l -> 0 < L -> B < encoded_size l ->
  tail_loop L B (l :: rl) [] 0 = ([truncateStringToBytesFromEnd l B], encoded_size (truncateStringToBytesFromEnd l B), by_bytes, true).
Proof.
  intros Hl HL HB. cbn [tail_loop length]. change (Z.of_nat 0) with 0. rewrite (proj2 (Z.ltb_lt 0 L) HL). rewrite !byte_length_size by (try apply end_of_line_units; done).
  rewrite Z.gtb_ltb. by rewrite (proj2 (Z.ltb_lt B _)) by lia.
Qed.

Lemma tail_loop_whole L B lines : Forall (Forall is_code_unit) lines -> 0 <= L -> 0 <= B ->
  (0 < L -> forall l, last lines = Some l -> encoded_size l <= B) ->
  exists n lim, (n <= length lines)%nat /\
    tail_loop L B (rev lines) [] 0 = (last_lines n lines, lines_size (last_lines n lines), lim, false) /\
    fits L B (last_lines n lines) /\
    ((n < length lines)%nat -> ~ fits L B (last_lines (S n) lines)) /\
    (lim = by_bytes <-> (n < length lines)%nat /\ Z.of_nat n < L).
Proof.
  intros Hu HL HB Hlast. destruct (tail_loop_spec L B (rev lines) ltac:(by apply Forall_rev) []) as (n & lim & Hn & Heq & Hf & Hmax & Hlim); [done| |].
  { intros _ HL' l Hl. apply Hlast; [done|]. destruct lines as [|x ls _] using rev_ind; [done|].
    rewrite rev_app_distr in Hl. rewrite last_snoc. exact Hl. }
  rewrite length_rev in *. rewrite !app_nil_r in *. rewrite <- !last_lines_rev in *.
  exists n, lim. rewrite last_lines_length in Hlim by done. split_and!; try done.
Qed.

Lemma last_lines_units n ls : Forall (Forall is_code_unit) ls -> Forall (Forall is_code_unit) (last_lines n ls).
Proof. apply Forall_drop. Qed.

Lemma last_line_fits L B lines : let cut := 0 < L /\ exists l, last lines = Some l /\ B < encoded_size l in cut \/ ~ cut.
Proof.
  cbv zeta. destruct (Z.ltb_spec 0 L) as [HL|HL]; [|right; intros [? _]; lia]. destruct (last lines) as [l|]; [|by right; intros (_ & l & [=] & _)].
  destruct (Z.ltb_spec B (encoded_size l)) as [HB|HB]; [by left; split; [|exists l]|right]. intros (_ & l' & [= <-] & ?). lia.
Qed.

Lemma tail_spec content options : Forall is_code_unit content ->
  let L := default DEFAULT_MAX_LINES (o_maxLines options) in let B := default DEFAULT_MAX_BYTES (o_maxBytes options) in
  0 <= L -> 0 <= B -> tail_result content L B (truncateTail content options).
Proof.
  intros Hu L B HL HB. unfold truncateTail. fold L B. rewrite byte_length_size by done. pose proof (lines_units _ Hu) as Hlines.
  set (lines := splitLinesForCounting content) in *. set (total := Z.of_nat (length lines)).
  destruct ((total <=? L) && (encoded_size content <=? B)) eqn:Hfit.
  { apply andb_true_iff in Hfit as [Hf1 Hf2]. unfold tail_result, untruncated. cbn. fold lines total. split_and!; try done; lia. }
  assert (~ (total <= L /\ encoded_size content <= B)) as Hover by (intros [H1 H2]; apply andb_false_iff in Hfit as [?|?]; lia).
  destruct (last_line_fits L B lines) as [Hcut|Hwhole].
  - destruct Hcut as (HL' & l & Hl & Hbig). destruct (proj1 (last_Some _ _) Hl) as [front Hfront].
    assert (Forall is_code_unit l) as Hul by (rewrite Hfront in Hlines; apply Forall_app in Hlines as [_ Hlines]; by apply Forall_cons in Hlines as [? _]).
    rewrite Hfront, rev_app_distr. cbn [rev app]. rewrite tail_loop_cut by done. destruct (end_of_line_spec l B Hul HB) as (out & Hout & Henc).
    unfold tail_result. fold lines. cbn -[encoded_size lines longest_end text_encode Z.of_nat truncateStringToBytesFromEnd]. rewrite byte_length_size by by apply end_of_line_units.
    split_and!; try done.
    + unfold encoded_size. rewrite Henc. by destruct Hout as (_ & _ & _ & ? & _).
    + change (Z.of_nat 1) with 1. lia.
    + split; [intros _; split; [done|by exists l]|done].
    + by exists l, out.
  - destruct (tail_loop_whole L B lines) as (n & lim & Hn & Heq & [Hf1 Hf2] & Hmax & Hlim); [done..| |].
    { intros HL' l Hl. apply Z.nlt_ge. intros Hlt. apply Hwhole. split; [done|by exists l]. }
    rewrite Heq. rewrite last_lines_length in * by done. unfold tail_result. fold lines.
    cbn -[encoded_size lines last_lines join_with Z.of_nat]. rewrite byte_length_size by by apply join_units, last_lines_units.
    split_and!; try done. exists n. split_and!; try done.
    + intros k Hk Hfk. by eapply fits_suffix.
    + replace (lines_size (last_lines n lines) <=? B) with true by (symmetry; zlia). rewrite andb_true_r.
      rewrite Z.geb_leb. destruct (Z.leb_spec L (Z.of_nat n)); [split; [done|lia]|].
      rewrite <- Hlim. split; [by intros [= ->]|by intros ->].
Qed.

(** * The theorems on truncation, with their instances. *)

(** The limits that apply. *)
Definition line_limit (options : TruncationOptions) : Z := default DEFAULT_MAX_LINES (o_maxLines options).
Definition byte_limit (options : TruncationOptions) : Z := default DEFAULT_MAX_BYTES (o_maxBytes options).

(** For limits that are not negative, [truncateHead] always returns (the read of the
    first of no lines is never reached), its byte counts are the sizes of the UTF-8
    encodings, and the output obeys both limits.  A content within the limits is returned as
    it is; any other is cut to its longest prefix of whole lines within both limits, marked
    as an over-long first line exactly when that line alone is over the byte limit. *)
Theorem truncate_head_bounds (content : jsstr) (options : TruncationOptions) :
  Forall is_code_unit content -> 0 <= line_limit options -> 0 <= byte_limit options ->
  exists r, truncateHead content options = Some r /\ head_result content (line_limit options) (byte_limit options) r.
Proof. apply head_spec. Qed.

(** For limits that are not negative, the output of [truncateTail] obeys both limits.  A
    content within the limits is returned as it is; any other is cut to its longest run of
    whole lines at the end within both limits, or, exactly when even the last line is over
    the byte limit, to the longest end of that line that is within it and cuts no surrogate
    pair, unpaired surrogates being replaced the way the encoder replaces them. *)
Theorem truncate_tail_bounds (content : jsstr) (options : TruncationOptions) :
  Forall is_code_unit content -> 0 <= line_limit options -> 0 <= byte_limit options ->
  tail_result content (line_limit options) (byte_limit options) (truncateTail content options).
Proof. apply tail_spec. Qed.

Module Samples.

(** Two lines of three bytes each. *)
Definition two_lines : jsstr := js "abc" ++ [LF] ++ js "def" ++ [LF].
Definition limits (lines bytes : Z) : TruncationOptions := mkTruncationOptions (Some lines) (Some bytes).

(** A lone high surrogate, a surrogate pair, and a letter: 3 + 4 + 1 bytes. *)
Definition one_line : jsstr := [0xd800; 0xd83d; 0xde00; 97].

Example head_sample : t_content <$> truncateHead two_lines (limits 1 100) = Some (js "abc").
Proof. reflexivity. Qed.

Example tail_sample : (fun r => (t_content r, t_lastLinePartial r)) (truncateTail two_lines (limits 9 6)) = (js "def", false).
Proof. reflexivity. Qed.

(** A cut in the middle of a pair drops the whole pair; a lone surrogate is replaced. *)
Example partial_pair : map (fun n => t_content (truncateTail one_line (limits 1 n))) [1; 4; 5; 7] = [[97]; [97]; [0xd83d; 0xde00; 97]; [0xd83d; 0xde00; 97]].
Proof. reflexivity. Qed.

Example partial_lone : t_content (truncateTail (98 :: one_line) (limits 1 8)) = [0xfffd; 0xd83d; 0xde00; 97].
Proof. reflexivity. Qed.

(** The content [abc] with its line feed is one line, within the line limit, and four bytes,
    over the byte limit; the result is reported as cut by the line limit all the same. *)
Example truncated_by_disagrees :
  (fun r => (t_totalLines r, t_totalBytes r, t_outputLines r, t_truncatedBy r)) <$> truncateHead (js "abc" ++ [LF]) (limits 2000 3)
  = Some (1, 4, 1, Some by_lines).
Proof. reflexivity. Qed.

End Samples.

Lemma truncate_head_bounds_witness : exists r,
  truncateHead Samples.two_lines (Samples.limits 5 5) = Some r /\ head_result Samples.two_lines 5 5 r.
Proof.
  apply (truncate_head_bounds Samples.two_lines (Samples.limits 5 5)); [|by vm_compute|by vm_compute].
  by repeat constructor.
Defined.

Lemma truncate_tail_bounds_witness : tail_result Samples.one_line 1 6 (truncateTail Samples.one_line (Samples.limits 1 6)).
Proof.
  apply (truncate_tail_bounds Samples.one_line (Samples.limits 1 6)); [|by vm_compute|by vm_compute].
  by repeat constructor.
Defined.
