(* ===== verification/JsData.v ===== *)
(** JavaScript data that a program examines without knowing its type ([unknown]).

    Strings are UTF-16 code units; an object is the list of its own enumerable properties in
    the order of [Object.keys].  Objects inherit the names of [Object.prototype]: the operator
    [in] finds them and a read gives a function.  Not covered are properties named
    [__proto__], which plain assignment does not create, and objects of other classes. *)
From Stdlib Require Import Floats.SpecFloat.
From S2P Require Import Prelude JsNumber JsText JsObject.
Local Open Scope Z_scope.

Inductive data : Type :=
  | DUndefined
  | DNull
  | DBool (b : bool)
  | DNum (n : jsnum)
  | DStr (s : jsstr)
  | DArr (items : list data)
  | DObj (props : list (jsstr * data))
  | DFun.  (* a function *)

Abbreviation props := (list (jsstr * data)).

(** Induction with hypotheses for the elements of arrays and objects. *)
Section data_induction.
Context (P : data -> Prop).
Hypothesis Hundef : P DUndefined.
Hypothesis Hnull : P DNull.
Hypothesis Hbool : forall b, P (DBool b).
Hypothesis Hnum : forall n, P (DNum n).
Hypothesis Hstr : forall s, P (DStr s).
Hypothesis Harr : forall ds, Forall P ds -> P (DArr ds).
Hypothesis Hobj : forall ps, Forall (fun p => P p.2) ps -> P (DObj ps).
Hypothesis Hfun : P DFun.

Fixpoint data_ind' (d : data) : P d :=
  match d with
  | DUndefined => Hundef
  | DNull => Hnull
  | DBool b => Hbool b
  | DNum n => Hnum n
  | DStr s => Hstr s
  | DArr ds =>
      Harr ds ((fix go ds := match ds return Forall P ds with
                | [] => Forall_nil_2 _
                | d :: ds' => Forall_cons_2 _ _ _ (data_ind' d) (go ds')
                end) ds)
  | DObj ps =>
      Hobj ps ((fix go ps := match ps return Forall (fun p => P p.2) ps with
                | [] => Forall_nil_2 _
                | p :: ps' => Forall_cons_2 (fun p => P p.2) p ps' (data_ind' p.2) (go ps')
                end) ps)
  | DFun => Hfun
  end.
End data_induction.

(** How deep arrays and objects nest. *)
Fixpoint data_depth (d : data) : nat :=
  match d with
  | DArr ds => S (foldr (fun d n => Nat.max (data_depth d) n) 0%nat ds)
  | DObj ps => S (foldr (fun p n => Nat.max (data_depth p.2) n) 0%nat ps)
  | _ => 0
  end.

(** ** Properties *)

Definition INHERITED : list jsstr :=
  map js ["constructor"; "__defineGetter__"; "__defineSetter__"; "hasOwnProperty"; "__lookupGetter__"; "__lookupSetter__";
          "isPrototypeOf"; "propertyIsEnumerable"; "toString"; "valueOf"; "toLocaleString"]%string.

Definition inherited (k : jsstr) : bool := bool_decide (k ∈ INHERITED).

(** [k in o]. *)
Definition has_property (k : jsstr) (o : props) : bool := JsMap.has k o || inherited k.

(** [o[k]]. *)
Definition get_property (k : jsstr) (o : props) : data :=
  match JsMap.get k o with
  | Some v => v
  | None => if inherited k then DFun else DUndefined
  end.

(** [o.k] for a name that is not inherited. *)
Definition field (k : string) (o : props) : data := default DUndefined (JsMap.get (js k) o).

(** [Object.keys(o)]. *)
Definition object_keys (o : props) : list jsstr := o.*1.

(** [typeof v === "object" && v !== null && !Array.isArray(v)]. *)
Definition isPlainObject (v : data) : option props := match v with DObj o => Some o | _ => None end.
Definition as_array (v : data) : option (list data) := match v with DArr l => Some l | _ => None end.
Definition as_string (v : data) : option jsstr := match v with DStr s => Some s | _ => None end.
Definition as_number (v : data) : option jsnum := match v with DNum n => Some n | _ => None end.

(** The elements of a list that are objects, and those that are strings. *)
Definition objects (l : list data) : list props := omap isPlainObject l.
Definition strings (l : list data) : list jsstr := omap as_string l.

(** ** Numbers and texts *)

(** The operators [<] and [/] on numbers. *)
Definition num_lt (a b : jsnum) : bool :=
  match SFcompare (sf_of_num a) (sf_of_num b) with Some Lt => true | _ => false end.
Definition num_div (a b : jsnum) : jsnum := num_of_sf (SFdiv 53 1024 (sf_of_num a) (sf_of_num b)).

Definition text_length (s : jsstr) : jsnum := JInt (Z.of_nat (length s)).

(** [l.join(sep)]. *)
Fixpoint text_join (sep : jsstr) (l : list jsstr) : jsstr :=
  match l with
  | [] => []
  | [s] => s
  | s :: l' => s ++ sep ++ text_join sep l'
  end.

(** The order of strings by code units, and [sort()]. *)
Fixpoint text_le (a b : jsstr) : bool :=
  match a, b with
  | [], _ => true
  | _ :: _, [] => false
  | x :: a', y :: b' => (x <? y) || ((x =? y) && text_le a' b')
  end.
Definition text_sort : list jsstr -> list jsstr := merge_sort (fun a b => Is_true (text_le a b)).

(** White space and line terminators, which [trim] removes. *)
Definition is_line_terminator (u : Z) : bool := bool_decide (u ∈ [0x0a; 0x0d; 0x2028; 0x2029]).
Definition is_white_space (u : Z) : bool :=
  is_line_terminator u || bool_decide (u ∈ [0x09; 0x0b; 0x0c; 0x20; 0xa0; 0x1680; 0x202f; 0x205f; 0x3000; 0xfeff]) || in_range 0x2000 0x200a u.

(** [s.trim() !== ""]. *)
Definition has_text (s : jsstr) : bool := negb (forallb is_white_space s).

Fixpoint digits (fuel : nat) (z : Z) (acc : jsstr) : jsstr :=
  match fuel with
  | O => acc
  | S fuel' => let acc := (48 + z mod 10) :: acc in if z <? 10 then acc else digits fuel' (z / 10) acc
  end.

(** The decimal of an integer. *)
Definition decimal (z : Z) : jsstr :=
  let d := digits (S (Z.to_nat (Z.log2 (Z.abs z)))) (Z.abs z) [] in if z <? 0 then 45 :: d else d.

Example decimals : map decimal [0; 7; 10; 999; -120] = map js ["0"; "7"; "10"; "999"; "-120"]%string.
Proof. reflexivity. Qed.

(** What the language's regular expressions and number conversions compute, where the code
    meets arbitrary patterns, numbers that are not safe integers, and number texts.
    [regexp p] is [None] where [new RegExp(p)] throws. *)
Class Platform := {
  regexp : jsstr -> option (jsstr -> bool);
  number_to_string : jsnum -> jsstr;
  string_to_number : jsstr -> jsnum;
}.

Section platform.
Context `{Platform}.

Definition ANY_KEY : jsstr := js "^.*$".

(** [new RegExp(pattern)], as the function [test].  The dot matches no line terminator, and
    without flags the anchors are those of the whole text. *)
Definition new_RegExp (pattern : jsstr) : option (jsstr -> bool) :=
  if decide (pattern = ANY_KEY) then Some (forallb (fun u => negb (is_line_terminator u))) else regexp pattern.

(** [String(n)]. *)
Definition num_text (n : jsnum) : jsstr :=
  if is_neg_zero n then decimal 0
  else match n with JInt z => if is_safe_Z z then decimal z else number_to_string n | JFrac _ => number_to_string n end.
End platform.

Lemma get_property_own k o : inherited k = false -> get_property k o = default DUndefined (JsMap.get k o).
Proof. unfold get_property. intros ->. by destruct (JsMap.get k o). Qed.

Lemma has_property_own k o : inherited k = false -> has_property k o = JsMap.has k o.
Proof. unfold has_property. intros ->. apply orb_false_r. Qed.

Lemma depth_item d ds : d ∈ ds -> (data_depth d < data_depth (DArr ds))%nat.
Proof. cbn [data_depth]. induction 1; cbn [foldr]; lia. Qed.

Lemma depth_prop p ps : p ∈ ps -> (data_depth p.2 < data_depth (DObj ps))%nat.
Proof. cbn [data_depth]. induction 1; cbn [foldr]; lia. Qed.

Lemma depth_own k v o : JsMap.get k o = Some v -> (data_depth v < data_depth (DObj o))%nat.
Proof. intros H. apply JsMap.get_Some_elem in H. by apply (depth_prop (k, v)). Qed.

Lemma depth_property k o : (data_depth (get_property k o) < data_depth (DObj o))%nat.
Proof.
  unfold get_property. destruct (JsMap.get k o) eqn:Hg; [by eapply depth_own|].
  destruct (inherited k); cbn [data_depth]; lia.
Qed.
