(* ===== verification/Schema.v ===== *)
(** Schemas: [packages/ai/src/schema.ts], its builders and its validator.

    A schema at run time is a plain object ([props]); the validator reads whatever properties
    it finds there.  [PiSchema] is what the code's types record of a schema: the builder call
    it came from, and [build] makes the call.

    A schema can refer to itself, so the validator's recursion is bounded by fuel; running out
    of it stands for the stack overflow of a recursion that does not end. *)
From S2P Require Import Prelude JsNumber JsText JsObject JsData.
Local Open Scope Z_scope.

Record PiValidationError := mkValidationError {
  ve_keyword : jsstr;
  ve_schemaPath : jsstr;
  ve_instancePath : jsstr;
  ve_params : data;
  ve_message : jsstr;
}.

Record PiStringOptions := mkStringOptions {
  st_description : option jsstr;
  st_minLength : option jsnum;
  st_maxLength : option jsnum;
  st_pattern : option jsstr;
}.

Record PiNumberOptions := mkNumberOptions {
  nu_description : option jsstr;
  nu_minimum : option jsnum;
  nu_maximum : option jsnum;
  nu_multipleOf : option jsnum;
}.

Record PiArrayOptions := mkArrayOptions {
  ar_description : option jsstr;
  ar_minItems : option jsnum;
  ar_maxItems : option jsnum;
}.

Inductive PiLiteralValue : Type := LString (s : jsstr) | LNumber (n : jsnum) | LBoolean (b : bool).

(** [additionalProperties?: boolean | PiSchema]. *)
Inductive Additional (A : Type) : Type := AnyAdditional | BoolAdditional (b : bool) | SchemaAdditional (a : A).
Arguments AnyAdditional {A}.
Arguments BoolAdditional {A} b.
Arguments SchemaAdditional {A} a.

(** The schema types, by the builder that makes them. *)
Inductive PiSchema : Type :=
  | PiString (o : PiStringOptions)
  | PiNumber (o : PiNumberOptions)
  | PiInteger (o : PiNumberOptions)
  | PiBoolean (description : option jsstr)
  | PiNull (description : option jsstr)
  | PiUnknown (description : option jsstr)
  | PiLiteral (value : PiLiteralValue) (description : option jsstr)
  | PiOptional (sub : PiSchema)
  | PiObject (properties : list (jsstr * PiSchema)) (description : option jsstr) (additional : Additional PiSchema)
  | PiArray (items : PiSchema) (o : PiArrayOptions)
  | PiUnion (anyOf : list PiSchema) (description : option jsstr)
  | PiRecord (key value : PiSchema) (description : option jsstr) (additional : Additional PiSchema)
  | PiRef (name : jsstr) (description : option jsstr)
  | PiCyclic (defs : list (jsstr * PiSchema)) (ref : jsstr) (description : option jsstr).

Definition OPTIONAL_KEY : jsstr := js "~optional".

(** ** Builders *)

Definition opt_str (s : option jsstr) : data := match s with Some s => DStr s | None => DUndefined end.
Definition opt_num (n : option jsnum) : data := match n with Some n => DNum n | None => DUndefined end.
Definition opt_additional (a : Additional props) : data :=
  match a with AnyAdditional => DUndefined | BoolAdditional b => DBool b | SchemaAdditional o => DObj o end.

(** The properties of an object literal. *)
Definition literal (l : list (string * data)) : props := map (fun p => (js p.1, p.2)) l.

Definition Type_String (o : PiStringOptions) : props :=
  literal [("type", DStr (js "string")); ("description", opt_str (st_description o)); ("minLength", opt_num (st_minLength o));
    ("maxLength", opt_num (st_maxLength o)); ("pattern", opt_str (st_pattern o))]%string.

Definition number_schema (type : string) (o : PiNumberOptions) : props :=
  literal [("type", DStr (js type)); ("description", opt_str (nu_description o)); ("minimum", opt_num (nu_minimum o));
    ("maximum", opt_num (nu_maximum o)); ("multipleOf", opt_num (nu_multipleOf o))]%string.

Definition Type_Number (o : PiNumberOptions) : props := number_schema "number" o.
Definition Type_Integer (o : PiNumberOptions) : props := number_schema "integer" o.

Definition Type_Boolean (description : option jsstr) : props :=
  literal [("type", DStr (js "boolean")); ("description", opt_str description)]%string.
Definition Type_Null (description : option jsstr) : props :=
  literal [("type", DStr (js "null")); ("description", opt_str description)]%string.
Definition Type_Unknown (description : option jsstr) : props := literal [("description", opt_str description)]%string.

Definition Type_Literal (value : PiLiteralValue) (description : option jsstr) : props :=
  let '(typeName, const) :=
    match value with
    | LString s => ("string"%string, DStr s)
    | LBoolean b => ("boolean"%string, DBool b)
    | LNumber n => ("number"%string, DNum n)
    end in
  literal [("type", DStr (js typeName)); ("const", const); ("description", opt_str description)]%string.

(** One property of [Type.Object]: its schema goes to [clean], its name to [required]. *)
Definition add_property (acc : props * list jsstr) (p : jsstr * props) : props * list jsstr :=
  let '(clean, required) := acc in
  let '(key, prop) := p in
  match JsMap.get OPTIONAL_KEY prop with
  | Some sub => (define key sub clean, required)
  | None => (define key (DObj prop) clean, required ++ [key])
  end.

Definition Type_Object (properties : list (jsstr * props)) (description : option jsstr) (additional : Additional props) : props :=
  let '(clean, required) := foldl add_property ([], []) properties in
  literal [("type", DStr (js "object")); ("required", match required with [] => DUndefined | _ => DArr (map DStr required) end);
    ("properties", DObj clean); ("description", opt_str description); ("additionalProperties", opt_additional additional)]%string.

Definition Type_Array (items : props) (o : PiArrayOptions) : props :=
  literal [("type", DStr (js "array")); ("items", DObj items); ("description", opt_str (ar_description o));
    ("minItems", opt_num (ar_minItems o)); ("maxItems", opt_num (ar_maxItems o))]%string.

Definition Type_Union (anyOf : list props) (description : option jsstr) : props :=
  literal [("anyOf", DArr (map DObj anyOf)); ("description", opt_str description)]%string.

Definition Type_Optional (sub : props) : props := [(OPTIONAL_KEY, DObj sub)].

Definition Type_Record (key value : props) (description : option jsstr) (additional : Additional props) : props :=
  literal [("type", DStr (js "object")); ("patternProperties", DObj [(ANY_KEY, DObj value)]);
    ("description", opt_str description); ("additionalProperties", opt_additional additional)]%string.

Definition Type_Ref (ref : jsstr) (description : option jsstr) : props :=
  literal [("$ref", DStr ref); ("description", opt_str description)]%string.

(** [{ ...def, $id: key }]. *)
Definition with_id (key : jsstr) (def : props) : props := define (js "$id") (DStr key) def.

Definition Type_Cyclic (defs : list (jsstr * props)) (ref : jsstr) (description : option jsstr) : props :=
  let defs := foldl (fun out '(key, def) => define key (DObj (with_id key def)) out) [] defs in
  literal [("$defs", DObj defs); ("$ref", DStr ref); ("description", opt_str description)]%string.

Definition map_additional {A B} (f : A -> B) (a : Additional A) : Additional B :=
  match a with AnyAdditional => AnyAdditional | BoolAdditional b => BoolAdditional b | SchemaAdditional x => SchemaAdditional (f x) end.

(** The object the builder calls return. *)
Fixpoint build (s : PiSchema) : props :=
  match s with
  | PiString o => Type_String o
  | PiNumber o => Type_Number o
  | PiInteger o => Type_Integer o
  | PiBoolean d => Type_Boolean d
  | PiNull d => Type_Null d
  | PiUnknown d => Type_Unknown d
  | PiLiteral v d => Type_Literal v d
  | PiOptional sub => Type_Optional (build sub)
  | PiObject ps d a => Type_Object (map (fun p => (p.1, build p.2)) ps) d (map_additional build a)
  | PiArray items o => Type_Array (build items) o
  | PiUnion l d => Type_Union (map build l) d
  | PiRecord k v d a => Type_Record (build k) (build v) d (map_additional build a)
  | PiRef name d => Type_Ref name d
  | PiCyclic defs ref d => Type_Cyclic (map (fun p => (p.1, build p.2)) defs) ref d
  end.

(** ** Deep equality *)

(** [left === right] for a primitive; containers without sharing are compared by content. *)
Fixpoint dataEqual (left right : data) {struct left} : bool :=
  match left, right with
  | DUndefined, DUndefined | DNull, DNull => true
  | DBool a, DBool b => Bool.eqb a b
  | DNum a, DNum b => num_strict_eq a b
  | DStr a, DStr b => bool_decide (a = b)
  | DArr xs, DArr ys =>
      (fix go (xs ys : list data) {struct xs} : bool :=
        match xs, ys with
        | [], [] => true
        | x :: xs', y :: ys' => dataEqual x y && go xs' ys'
        | _, _ => false
        end) xs ys
  | DObj a, DObj b =>
      Nat.eqb (length a) (length b) &&
      (fix go (a : props) : bool :=
        match a with
        | [] => true
        | (k, v) :: a' => has_property k b && dataEqual v (get_property k b) && go a'
        end) a
  | _, _ => false
  end.

(** ** References *)

(** [NotCloned]: a function in a value to clone; [IllTyped]: a schema that is not of the
    type the code gives schemas. *)
Inductive schema_failure : Type := StackOverflow | BadPattern (pattern : jsstr) | NotCloned | IllTyped.

Abbreviation checked := (result schema_failure).
Abbreviation definitions := (list (jsstr * props)).

(** [collectDefs(node, out)]: the schemas a reference can name, those below the node by [rec]. *)
Section collecting.
Context (rec : definitions -> props -> checked definitions).

Definition collect_sub (out : definitions) (v : data) : checked definitions :=
  match isPlainObject v with Some o => rec out o | None => Ok out end.
Definition collect_list (out : definitions) (v : data) : checked definitions :=
  match as_array v with Some l => mfold collect_sub out l | None => Ok out end.
Definition collect_values (out : definitions) (v : data) : checked definitions :=
  match isPlainObject v with Some o => mfold collect_sub out o.*2 | None => Ok out end.

Definition collect_definition (out : definitions) (p : jsstr * data) : checked definitions :=
  match isPlainObject p.2 with
  | Some o => rec (JsMap.set (default p.1 (as_string (field "$id" o))) o out) o
  | None => Ok out
  end.

Definition collectNode (out : definitions) (node : props) : checked definitions :=
  out ← match isPlainObject (field "$defs" node) with Some defs => mfold collect_definition out defs | None => Ok out end;
  out ← mfold (fun out keyword => collect_list out (field keyword node)) out ["anyOf"; "oneOf"; "allOf"]%string;
  out ← collect_values out (field "properties" node);
  out ← match isPlainObject (field "items" node) with
        | Some o => rec out o
        | None => collect_list out (field "items" node)
        end;
  out ← collect_sub out (field "additionalProperties" node);
  collect_values out (field "patternProperties" node).
End collecting.

Fixpoint collectDefs (fuel : nat) (out : definitions) (node : props) : checked definitions :=
  match fuel with
  | O => Err StackOverflow
  | S fuel' => collectNode (collectDefs fuel') out node
  end.

(** [defs[ref]]; an inherited name gives a function, which holds no keyword. *)
Definition find_definition (ref : jsstr) (defs : definitions) : option props :=
  match JsMap.get ref defs with
  | Some def => Some def
  | None => if inherited ref then Some [] else None
  end.

Fixpoint resolve (hops : nat) (defs : definitions) (current : props) : props :=
  match hops with
  | O => current
  | S hops' =>
      match as_string (field "$ref" current) with
      | None => current
      | Some ref =>
          match find_definition ref defs with
          | None => current
          | Some def => resolve hops' defs def
          end
      end
  end.

Definition resolveRef (node : props) (defs : definitions) : props := resolve 64 defs node.

Definition typeList (node : props) : list jsstr :=
  match field "type" node with
  | DStr s => [s]
  | DArr l => strings l
  | _ => []
  end.

Definition matchesType (value : data) (type : jsstr) : bool :=
  if decide (type = js "string") then match value with DStr _ => true | _ => false end
  else if decide (type = js "number") then match value with DNum _ => true | _ => false end
  else if decide (type = js "integer") then match value with DNum n => isInteger n | _ => false end
  else if decide (type = js "boolean") then match value with DBool _ => true | _ => false end
  else if decide (type = js "null") then match value with DNull => true | _ => false end
  else if decide (type = js "array") then match value with DArr _ => true | _ => false end
  else if decide (type = js "object") then match value with DObj _ => true | _ => false end
  else true.

Definition pointerSegment (segment : jsstr) : jsstr :=
  flat_map (fun u => if u =? 126 then js "~0" else if u =? 47 then js "~1" else [u]) segment.

Definition childPath (path segment : jsstr) : jsstr := path ++ js "/" ++ pointerSegment segment.

(** ** Validation *)

Definition QUOTE : Z := 34.

Section validator.
Context `{Platform}.

Abbreviation errors := (list PiValidationError).

Definition violation (keyword : string) (path : jsstr) (params : list (string * data)) (message : jsstr) : PiValidationError :=
  mkValidationError (js keyword) (js "#") path (DObj (literal params)) message.

(** [if (typeof limit === "number" && exceeded) errors.push(...)]. *)
Definition limit_violation (keyword : string) (node : props) (path : jsstr) (exceeded : jsnum -> bool)
    (params : list (string * data)) (before after : string) : errors :=
  match as_number (field keyword node) with
  | Some limit =>
      if exceeded limit
      then [violation keyword path (params ++ [("limit"%string, DNum limit)]) (js before ++ num_text limit ++ js after)]
      else []
  | None => []
  end.

Definition check_const (target : props) (value : data) (path : jsstr) : errors :=
  match field "const" target with
  | DUndefined => []
  | allowed => if dataEqual value allowed then [] else [violation "const" path [("allowedValue"%string, allowed)] (js "must be equal to constant")]
  end.

Definition check_enum (target : props) (value : data) (path : jsstr) : errors :=
  match as_array (field "enum" target) with
  | Some allowed =>
      if existsb (fun item => dataEqual item value) allowed then []
      else [violation "enum" path [("allowedValues"%string, DArr allowed)] (js "must be equal to one of the allowed values")]
  | None => []
  end.

Definition check_type (target : props) (value : data) (path : jsstr) : errors :=
  match typeList target with
  | [] => []
  | declaredTypes =>
      if existsb (matchesType value) declaredTypes then []
      else [violation "type" path [("type"%string, DArr (map DStr declaredTypes))] (js "must be " ++ text_join (js " | ") declaredTypes)]
  end.

Definition check_string (target : props) (value : jsstr) (path : jsstr) : checked errors :=
  let short := limit_violation "minLength" target path (num_lt (text_length value)) [] "must not have fewer than " " characters" in
  let long := limit_violation "maxLength" target path (fun m => num_lt m (text_length value)) [] "must not have more than " " characters" in
  unmatched ← match as_string (field "pattern" target) with
              | Some pattern =>
                  test ← or_throw (BadPattern pattern) (new_RegExp pattern);
                  Ok (if test value : bool then []
                      else [violation "pattern" path [("pattern"%string, DStr pattern)] (js "must match pattern " ++ [QUOTE] ++ pattern ++ [QUOTE])])
              | None => Ok []
              end;
  Ok (short ++ long ++ unmatched).

Definition check_number (target : props) (value : jsnum) (path : jsstr) : errors :=
  limit_violation "minimum" target path (num_lt value) [("comparison", DStr (js ">="))]%string "must be >= " "" ++
  limit_violation "maximum" target path (fun m => num_lt m value) [("comparison", DStr (js "<="))]%string "must be <= " "" ++
  match as_number (field "multipleOf" target) with
  | Some multipleOf =>
      if negb (num_strict_eq multipleOf (JInt 0)) && negb (isInteger (num_div value multipleOf))
      then [violation "multipleOf" path [("multipleOf"%string, DNum multipleOf)] (js "must be a multiple of " ++ num_text multipleOf)]
      else []
  | None => []
  end.

(** The calls of the validator on parts of the value, which append their errors. *)
Section recursion.
Context (rec : props -> data -> jsstr -> checked errors).

Definition collect {A} (f : A -> checked errors) (l : list A) : checked errors :=
  mfold (fun errs a => new ← f a; Ok (errs ++ new)) [] l.

Definition check_array (target : props) (value : list data) (path : jsstr) : checked errors :=
  let few := limit_violation "minItems" target path (num_lt (JInt (Z.of_nat (length value)))) [] "must not have fewer than " " items" in
  let many := limit_violation "maxItems" target path (fun m => num_lt m (JInt (Z.of_nat (length value)))) [] "must not have more than " " items" in
  let item i schema v := rec schema v (childPath path (decimal (Z.of_nat i))) in
  inner ← match field "items" target with
          | DObj items => collect (fun '(i, v) => item i items v) (imap pair value)
          | DArr items =>
              collect (fun '(i, (v, schema)) => match isPlainObject schema with Some o => item i o v | None => Ok [] end)
                (imap pair (zip value items))
          | _ => Ok []
          end;
  Ok (few ++ many ++ inner).

(** The compiled patterns of [patternProperties]. *)
Definition pattern_schemas (target : props) : checked (list ((jsstr -> bool) * props)) :=
  match isPlainObject (field "patternProperties" target) with
  | Some patterns =>
      mfold (fun out '(pattern, sub) =>
        match isPlainObject sub with
        | Some o => test ← or_throw (BadPattern pattern) (new_RegExp pattern); Ok (out ++ [(test, o)])
        | None => Ok out
        end) [] patterns
  | None => Ok []
  end.

Definition required_names (target : props) : list jsstr :=
  match as_array (field "required" target) with Some l => strings l | None => [] end.

Definition property_schemas (target : props) : props := default [] (isPlainObject (field "properties" target)).

Definition check_required (target value : props) (path : jsstr) : errors :=
  match List.filter (fun name => negb (has_property name value)) (required_names target) with
  | [] => []
  | missing =>
      [violation "required" path [("requiredProperties"%string, DArr (map DStr missing))]
         (js "must have required properties " ++ text_join (js " ") missing)]
  end.

Definition check_properties (target value : props) (path : jsstr) : checked errors :=
  collect (fun '(name, sub) =>
    match isPlainObject sub with
    | Some o => if has_property name value then rec o (get_property name value) (childPath path name) else Ok []
    | None => Ok []
    end) (property_schemas target).

(** A key without a property schema: its errors, unless no pattern matches it. *)
Definition check_patterns (patterns : list ((jsstr -> bool) * props)) (key : jsstr) (v : data) (path : jsstr) : checked (option errors) :=
  match List.filter (fun entry => entry.1 key) patterns with
  | [] => Ok None
  | matching => Some <$> collect (fun entry => rec entry.2 v (childPath path key)) matching
  end.

Definition check_keys (target value : props) (patterns : list ((jsstr -> bool) * props)) (path : jsstr) : checked (errors * props) :=
  mfold (fun '(errs, extra) '(key, v) =>
    if bool_decide (key ∈ object_keys (property_schemas target)) then Ok (errs, extra)
    else
      outcome ← check_patterns patterns key v path;
      Ok (match outcome with Some new => (errs ++ new, extra) | None => (errs, extra ++ [(key, v)]) end))
    ([], []) value.

Definition check_additional (target extra : props) (path : jsstr) : checked errors :=
  match extra with
  | [] => Ok []
  | _ =>
      match field "additionalProperties" target with
      | DBool false =>
          Ok [violation "additionalProperties" path [("additionalProperties"%string, DArr (map DStr (text_sort (object_keys extra))))]
                (js "must not have additional properties")]
      | DObj o => collect (fun '(key, v) => rec o v (childPath path key)) extra
      | _ => Ok []
      end
  end.

Definition check_object (target value : props) (path : jsstr) : checked errors :=
  inner ← check_properties target value path;
  patterns ← pattern_schemas target;
  ' (matched, extra) ← check_keys target value patterns path;
  additional ← check_additional target extra path;
  Ok (check_required target value path ++ inner ++ matched ++ additional).

Definition union_message (keyword : string) (passing : nat) : jsstr :=
  if String.eqb keyword "anyOf" then js "must satisfy at least one schema in anyOf"
  else js "must satisfy exactly one schema in oneOf, " ++ decimal (Z.of_nat passing) ++ js " matched".

Definition validateUnionBranches (keyword : string) (branchesValue : list data) (value : data) (path : jsstr) : checked errors :=
  match objects branchesValue with
  | [] => Ok []
  | branches =>
      ' (passing, best) ← mfold (fun '(passing, best) '(index, branch) =>
          branchErrors ← rec branch value path;
          Ok (match branchErrors with
              | [] => (passing ++ [index], best)
              | _ => (passing, match best with
                               | Some b => if (length branchErrors <? length b)%nat then Some branchErrors else best
                               | None => Some branchErrors
                               end)
              end)) ([], None) (imap pair branches);
      let satisfied := if String.eqb keyword "anyOf" then (0 <? length passing)%nat else (length passing =? 1)%nat in
      if satisfied then Ok []
      else
        Ok (violation keyword path [("passingSchemas"%string, DArr (map (fun i => DNum (JInt (Z.of_nat i))) passing))]
              (union_message keyword (length passing)) ::
            (if String.eqb keyword "anyOf" then default [] best else []))
  end.

Definition check_allOf (target : props) (value : data) (path : jsstr) : checked errors :=
  match as_array (field "allOf" target) with
  | Some items => collect (fun item => rec item value path) (objects items)
  | None => Ok []
  end.

Definition check_parts (target : props) (value : data) (path : jsstr) : checked errors :=
  match value with
  | DStr s => check_string target s path
  | DNum n => Ok (check_number target n path)
  | DArr l => check_array target l path
  | DObj o => check_object target o path
  | _ => Ok []
  end.

(** [validateNode] once the reference of the node is resolved. *)
Definition validateResolved (target : props) (value : data) (path : jsstr) : checked errors :=
  match as_array (field "anyOf" target) with
  | Some branches => validateUnionBranches "anyOf" branches value path
  | None =>
      match as_array (field "oneOf" target) with
      | Some branches => validateUnionBranches "oneOf" branches value path
      | None =>
          all ← check_allOf target value path;
          parts ← check_parts target value path;
          Ok (all ++ check_const target value path ++ check_enum target value path ++ check_type target value path ++ parts)
      end
  end.
End recursion.

Fixpoint validateNode (fuel : nat) (defs : definitions) (node : props) (value : data) (path : jsstr) : checked errors :=
  match fuel with
  | O => Err StackOverflow
  | S fuel' => validateResolved (validateNode fuel' defs) (resolveRef node defs) value path
  end.

(** [createCompiled(schema)]: the definitions, and the function [run]. *)
Definition Errors (fuel : nat) (schema : props) (value : data) : checked errors :=
  defs ← collectDefs fuel [] schema;
  validateNode fuel defs schema value [].

Definition Check (fuel : nat) (schema : props) (value : data) : checked bool :=
  errs ← Errors fuel schema value;
  Ok (bool_decide (length errs = 0%nat)).
End validator.

(** * The type of a schema, and that the validator decides it.

    [Static] gives the meaning the code's type [Static<S>] has for a schema, as a predicate on
    data; [well_formed] are the schemas the theorem is about. *)

Definition literal_data (l : PiLiteralValue) : data :=
  match l with LString s => DStr s | LNumber n => DNum n | LBoolean b => DBool b end.

Definition at_least (n : jsnum) (limit : option jsnum) : Prop := forall m, limit = Some m -> num_lt n m = false.
Definition at_most (n : jsnum) (limit : option jsnum) : Prop := forall m, limit = Some m -> num_lt m n = false.
Definition multiple_of (n : jsnum) (limit : option jsnum) : Prop :=
  forall m, limit = Some m -> num_strict_eq m (JInt 0) = true \/ isInteger (num_div n m) = true.
Definition in_bounds (n : jsnum) (o : PiNumberOptions) : Prop :=
  at_least n (nu_minimum o) /\ at_most n (nu_maximum o) /\ multiple_of n (nu_multipleOf o).
Definition length_within (n : nat) (min max : option jsnum) : Prop :=
  at_least (JInt (Z.of_nat n)) min /\ at_most (JInt (Z.of_nat n)) max.

Definition is_optional (s : PiSchema) : bool := match s with PiOptional _ => true | _ => false end.
Definition unwrapped (s : PiSchema) : PiSchema := match s with PiOptional s => s | s => s end.

(** The keys the pattern of a record matches: those without a line terminator. *)
Definition record_key (k : jsstr) : Prop := Forall (fun u => is_line_terminator u = false) k.

Section typing.
Context `{Platform} (D : list (jsstr * PiSchema)).

Definition matches_pattern (s : jsstr) (pattern : option jsstr) : Prop :=
  forall p, pattern = Some p -> exists test, new_RegExp p = Some test /\ test s = true.

Inductive Static : PiSchema -> data -> Prop :=
  | Static_String o s : length_within (length s) (st_minLength o) (st_maxLength o) -> matches_pattern s (st_pattern o) ->
      Static (PiString o) (DStr s)
  | Static_Number o n : in_bounds n o -> Static (PiNumber o) (DNum n)
  | Static_Integer o n : isInteger n = true -> in_bounds n o -> Static (PiInteger o) (DNum n)
  | Static_Boolean d b : Static (PiBoolean d) (DBool b)
  | Static_Null d : Static (PiNull d) DNull
  | Static_Unknown d v : Static (PiUnknown d) v
  | Static_Literal l d v : dataEqual v (literal_data l) = true -> Static (PiLiteral l d) v
  | Static_Object ps d a o :
      (forall k s, (k, s) ∈ ps -> is_optional s = false -> JsMap.has k o = true) ->
      (forall k s v, (k, s) ∈ ps -> JsMap.get k o = Some v -> Static (unwrapped s) v) ->
      (forall k v, (k, v) ∈ o -> k ∉ ps.*1 -> additional_type a v) ->
      Static (PiObject ps d a) (DObj o)
  | Static_Array items o l : length_within (length l) (ar_minItems o) (ar_maxItems o) ->
      (forall v, v ∈ l -> Static items v) -> Static (PiArray items o) (DArr l)
  | Static_Union l d s v : s ∈ l -> Static s v -> Static (PiUnion l d) v
  | Static_Record key s d a o :
      (forall k v, (k, v) ∈ o -> record_key k -> Static s v) ->
      (forall k v, (k, v) ∈ o -> ~ record_key k -> additional_type a v) ->
      Static (PiRecord key s d a) (DObj o)
  | Static_Ref name d s v : JsMap.get name D = Some s -> Static s v -> Static (PiRef name d) v
  | Static_Cyclic defs ref d s v : JsMap.get ref D = Some s -> Static s v -> Static (PiCyclic defs ref d) v
with additional_type : Additional PiSchema -> data -> Prop :=
  | Additional_any v : additional_type AnyAdditional v
  | Additional_true v : additional_type (BoolAdditional true) v
  | Additional_schema s v : Static s v -> additional_type (SchemaAdditional s) v.

(** ** Well-formed schemas *)

Definition additional_schemas (a : Additional PiSchema) : list PiSchema :=
  match a with SchemaAdditional s => [s] | _ => [] end.

(** References name definitions, patterns compile, property names are distinct, listed in
    order and not inherited, a union has a branch, and only properties are optional. *)
Fixpoint scoped_at (property : bool) (s : PiSchema) : bool :=
  let additional a := match a with SchemaAdditional s => scoped_at false s | _ => true end in
  match s with
  | PiString o => match st_pattern o with Some p => match new_RegExp p with Some _ => true | None => false end | None => true end
  | PiNumber _ | PiInteger _ | PiBoolean _ | PiNull _ | PiUnknown _ | PiLiteral _ _ => true
  | PiOptional s => property && scoped_at false s
  | PiObject ps _ a =>
      ordered ps.*1 && forallb (fun k => negb (inherited k)) ps.*1 && additional a && forallb (fun p => scoped_at true p.2) ps
  | PiArray items _ => scoped_at false items
  | PiUnion l _ => match l with [] => false | _ => true end && forallb (scoped_at false) l
  | PiRecord _ s _ a => scoped_at false s && additional a
  | PiRef name _ | PiCyclic _ name _ => JsMap.has name D
  end.

(** Nested schemas, counted. *)
Fixpoint height (s : PiSchema) : nat :=
  let additional a := match a with SchemaAdditional s => height s | _ => 0%nat end in
  match s with
  | PiOptional s => S (height s)
  | PiObject ps _ a => S (Nat.max (additional a) (foldr (fun p n => Nat.max (height p.2) n) 0%nat ps))
  | PiArray items _ => S (height items)
  | PiUnion l _ => S (foldr (fun s n => Nat.max (height s) n) 0%nat l)
  | PiRecord _ s _ a => S (Nat.max (height s) (additional a))
  | _ => 1
  end.

Lemma height_pos s : (0 < height s)%nat.
Proof. destruct s; cbn [height]; lia. Qed.

(** The definition a schema refers to. *)
Definition reference (s : PiSchema) : option jsstr :=
  match s with PiRef name _ | PiCyclic _ name _ => Some name | _ => None end.

(** No reference before an array or an object is entered. *)
Fixpoint headed (s : PiSchema) : bool :=
  match s with
  | PiRef _ _ | PiCyclic _ _ _ => false
  | PiUnion l _ => forallb headed l
  | _ => true
  end.

Definition well_formed (s : PiSchema) : Prop :=
  scoped_at false s = true /\ NoDup D.*1 /\ Forall (fun d => scoped_at false d.2 = true /\ headed d.2 = true) D.

Definition max_height (s : PiSchema) : nat := foldr (fun d n => Nat.max (height d.2) n) (height s) D.

(** Fuel that is enough to validate a value. *)
Definition fuel_for (s : PiSchema) (v : data) : nat :=
  (S (data_depth v) * (2 * max_height s + 2))%nat.

(** The definitions the validator works with. *)
Definition built_definitions : definitions := map (fun d => (d.1, with_id d.1 (build d.2))) D.

End typing.
