(* ===== verification/SchemaCheck.v ===== *)
(** The checks of the validator: what each decides of a schema the builders made. *)
From S2P Require Import Prelude JsNumber JsText JsObject JsData Schema.
Local Open Scope Z_scope.

(** ** Properties of object literals *)

Lemma js_inj a b : js a = js b -> a = b.
Proof.
  unfold js. revert b. induction a as [|x a IH]; intros [|y b]; cbn; try done. intros [= Hxy Hab].
  f_equal; [|by apply IH]. apply N2Z.inj in Hxy. apply (f_equal Ascii.ascii_of_N) in Hxy. by rewrite !Ascii.ascii_N_embedding in Hxy.
Qed.

(** The property of a literal, looked up by name. *)
Fixpoint named (k : string) (l : list (string * data)) : option data :=
  match l with
  | [] => None
  | (k', v) :: l' => if String.eqb k k' then Some v else named k l'
  end.

Lemma get_literal k l : JsMap.get (js k) (literal l) = named k l.
Proof.
  unfold literal. induction l as [|[k' v] l IH]; cbn; [done|]. destruct (String.eqb_spec k k') as [<-|Hne].
  - by rewrite decide_True.
  - rewrite decide_False; [done|]. by intros ?%js_inj.
Qed.

Lemma field_literal k l : field k (literal l) = default DUndefined (named k l).
Proof. unfold field. by rewrite get_literal. Qed.

(** Reads the fields of a literal. *)
Ltac fields := rewrite ?field_literal; cbn [named String.eqb Ascii.eqb Bool.eqb default from_option id].

Lemma get_define {V} k k' (v : V) o : JsMap.get k (define k' v o) = if decide (k = k') then Some v else JsMap.get k o.
Proof.
  unfold define. destruct (JsMap.has k' o) eqn:Hh; [apply JsMap.get_set|].
  assert (JsMap.get k' o = None) as Hn by (unfold JsMap.has in Hh; by destruct (JsMap.get k' o)). clear Hh.
  induction o as [|[k1 v1] o IH]; cbn [insert_key JsMap.get] in *; [done|]. destruct (decide (k' = k1)) as [|Hk1]; [done|].
  destruct (key_le k1 k'); cbn [JsMap.get]; [|done]. rewrite IH by done. repeat case_decide; congruence.
Qed.

Lemma field_with_id k key o : k <> "$id"%string -> field k (with_id key o) = field k o.
Proof. intros Hk. unfold field, with_id. rewrite get_define. rewrite decide_False; [done|]. by intros ?%js_inj. Qed.

Section checks.
Context `{Platform}.

(** The identifier of a definition plays no part in validation. *)
Lemma target_id rec key o v path : validateResolved rec (with_id key o) v path = validateResolved rec o v path.
Proof.
  unfold validateResolved, check_allOf, check_const, check_enum, check_type, check_parts, check_string, check_number, check_array,
    check_object, check_properties, pattern_schemas, check_keys, check_additional, check_required, required_names, property_schemas,
    limit_violation, typeList.
  by rewrite !field_with_id by done.
Qed.

(** ** Computations that end and decide a property *)

Definition decides (m : checked (list PiValidationError)) (P : Prop) : Prop :=
  exists errs, m = Ok errs /\ (errs = [] <-> P).

Lemma decides_ok errs (P : Prop) : (errs = [] <-> P) -> decides (Ok errs) P.
Proof. intros HP. by exists errs. Qed.

Lemma decides_iff m (P Q : Prop) : (P <-> Q) -> decides m P -> decides m Q.
Proof. intros HPQ (errs & -> & HP). exists errs. split; [done|]. by rewrite HP. Qed.

#[export] Instance decides_proper m : Proper (iff ==> iff) (decides m).
Proof. intros P Q HPQ. by split; apply decides_iff. Qed.

Lemma decides_pair m1 m2 (P1 P2 : Prop) : decides m1 P1 -> decides m2 P2 ->
  decides (e1 ← m1; e2 ← m2; Ok (e1 ++ e2)) (P1 /\ P2).
Proof. intros (e1 & -> & H1) (e2 & -> & H2). apply decides_ok. rewrite app_nil. by rewrite H1, H2. Qed.

Lemma decides_collect {A} (f : A -> checked (list PiValidationError)) (P : A -> Prop) l :
  (forall a, a ∈ l -> decides (f a) (P a)) -> decides (collect f l) (forall a, a ∈ l -> P a).
Proof.
  intros Hf. unfold collect. assert (forall acc, exists errs, mfold (fun errs a => new ← f a; Ok (errs ++ new)) acc l = Ok (acc ++ errs) /\
    (errs = [] <-> forall a, a ∈ l -> P a)) as Hacc.
  { induction l as [|a l IH]; intros acc; cbn [mfold].
    { exists []. rewrite app_nil_r. split; [done|]. split; [|done]. by intros _ a Ha%elem_of_nil. }
    destruct (Hf a) as (new & -> & Hnew); [left|]. destruct (IH ltac:(intros b Hb; apply Hf; by right) (acc ++ new)) as (errs & Hm & Herrs).
    exists (new ++ errs). cbn [mbind result_bind]. rewrite Hm, app_assoc. split; [done|]. rewrite app_nil, Hnew, Herrs. split.
    - intros [Ha Hl] b [->|Hb]%elem_of_cons; [done|by apply Hl].
    - intros Hall. split; [apply Hall; left|]. intros b Hb. apply Hall. by right. }
  destruct (Hacc []) as (errs & Hm & Herrs). by exists errs.
Qed.

(** ** The checks that are not recursive *)

Lemma limit_exact kw node path (exceeded : jsnum -> bool) params before after limit : field kw node = opt_num limit ->
  limit_violation kw node path exceeded params before after = [] <-> forall m, limit = Some m -> exceeded m = false.
Proof.
  intros Hf. unfold limit_violation. rewrite Hf. destruct limit as [m|]; cbn; [|by split].
  destruct (exceeded m) eqn:He; split; try done; [intros Hm; by rewrite Hm in He|by intros _ ? [= <-]].
Qed.

Lemma type_exact target value path t : field "type" target = DStr t ->
  check_type target value path = [] <-> matchesType value t = true.
Proof.
  intros Hf. unfold check_type, typeList. rewrite Hf. cbn [existsb]. rewrite orb_false_r. by destruct (matchesType value t).
Qed.

Lemma string_exact o target s path : field "minLength" target = opt_num (st_minLength o) ->
  field "maxLength" target = opt_num (st_maxLength o) -> field "pattern" target = opt_str (st_pattern o) ->
  (forall p, st_pattern o = Some p -> new_RegExp p <> None) ->
  decides (check_string target s path) (length_within (length s) (st_minLength o) (st_maxLength o) /\ matches_pattern s (st_pattern o)).
Proof.
  intros Hmin Hmax Hpat Hc. unfold check_string. rewrite Hpat. unfold length_within, at_least, at_most.
  assert (forall unmatched, decides (Ok unmatched) (matches_pattern s (st_pattern o)) ->
    decides (Ok (limit_violation "minLength" target path (num_lt (text_length s)) [] "must not have fewer than " " characters" ++
      limit_violation "maxLength" target path (fun m => num_lt m (text_length s)) [] "must not have more than " " characters" ++ unmatched))
    ((( forall m, st_minLength o = Some m -> num_lt (JInt (Z.of_nat (length s))) m = false) /\
      (forall m, st_maxLength o = Some m -> num_lt m (JInt (Z.of_nat (length s))) = false)) /\ matches_pattern s (st_pattern o))) as Hall.
  { intros unmatched (errs & [= <-] & Hu). apply decides_ok. rewrite !app_nil, Hu.
    rewrite (limit_exact "minLength"), (limit_exact "maxLength") by done. unfold text_length. tauto. }
  destruct (st_pattern o) as [p|] eqn:Hp; cbn [opt_str as_string].
  - destruct (new_RegExp p) as [test|] eqn:Ht; [|by destruct (Hc p)]. cbn [or_throw mbind result_bind]. apply Hall, decides_ok.
    destruct (test s) eqn:Hs; split; try done.
    + intros _ q [= <-]. by exists test.
    + intros Hm. destruct (Hm p eq_refl) as (t & Ht' & Hs'). congruence.
  - cbn [mbind result_bind]. apply Hall, decides_ok. by split.
Qed.

Lemma number_exact o target n path : field "minimum" target = opt_num (nu_minimum o) -> field "maximum" target = opt_num (nu_maximum o) ->
  field "multipleOf" target = opt_num (nu_multipleOf o) -> check_number target n path = [] <-> in_bounds n o.
Proof.
  intros Hmin Hmax Hmul. unfold check_number, in_bounds, at_least, at_most, multiple_of.
  rewrite !app_nil, (limit_exact "minimum"), (limit_exact "maximum") by done. rewrite Hmul.
  assert (forall (P Q R S : Prop), (R <-> S) -> (P /\ Q /\ R <-> P /\ Q /\ S)) as Hand by tauto. apply Hand. clear Hand.
  destruct (nu_multipleOf o) as [m|]; cbn [opt_num as_number]; [|by split].
  destruct (num_strict_eq m (JInt 0)) eqn:Hz; cbn [negb andb]; [split; [intros _ ? [= <-]; by left|done]|].
  destruct (isInteger (num_div n m)) eqn:Hi; cbn [negb]; split; try done; [intros _ ? [= <-]; by right|].
  intros Hm. destruct (Hm m eq_refl); congruence.
Qed.

(** ** The recursive checks *)

Lemma collect_nil {A} (f : A -> checked (list PiValidationError)) l : (forall a, a ∈ l -> f a = Ok []) -> collect f l = Ok [].
Proof.
  unfold collect. induction l as [|a l IH]; intros Hf; cbn [mfold]; [done|]. rewrite Hf by left. apply IH. intros b Hb. apply Hf. by right.
Qed.

Section parts.
Context (rec : props -> data -> jsstr -> checked (list PiValidationError)).

Lemma string_absent target s path : field "pattern" target = DUndefined -> exists errs, check_string target s path = Ok errs.
Proof. intros Hp. unfold check_string. rewrite Hp. by eexists. Qed.

Lemma array_absent target l path : field "items" target = DUndefined -> exists errs, check_array rec target l path = Ok errs.
Proof. intros Hi. unfold check_array. rewrite Hi. by eexists. Qed.

Lemma array_exact target o items (P : data -> Prop) l path : field "items" target = DObj items ->
  field "minItems" target = opt_num (ar_minItems o) -> field "maxItems" target = opt_num (ar_maxItems o) ->
  (forall v path, v ∈ l -> decides (rec items v path) (P v)) ->
  decides (check_array rec target l path) (length_within (length l) (ar_minItems o) (ar_maxItems o) /\ forall v, v ∈ l -> P v).
Proof.
  intros Hi Hmin Hmax Hrec. unfold check_array. rewrite Hi.
  destruct (decides_collect (fun '(i, v) => rec items v (childPath path (decimal (Z.of_nat i)))) (fun p => P p.2) (imap pair l)) as (inner & -> & Hin).
  { intros [i v] Hp. apply elem_of_lookup_imap in Hp as (j & w & [= -> ->] & Hw). apply Hrec. by apply list_elem_of_lookup_2 in Hw. }
  assert (inner = [] <-> forall v, v ∈ l -> P v) as Hinner.
  { rewrite Hin. split.
    - intros Hall v Hv. apply list_elem_of_lookup_1 in Hv as [i Hv]. apply (Hall (i, v)). apply elem_of_lookup_imap. by exists i, v.
    - intros Hall [i v] Hp. apply elem_of_lookup_imap in Hp as (j & w & [= -> ->] & Hw). apply Hall. by apply list_elem_of_lookup_2 in Hw. }
  cbn [mbind result_bind]. apply decides_ok. rewrite !app_nil, (limit_exact "minItems"), (limit_exact "maxItems") by done.
  unfold length_within, at_least, at_most. tauto.
Qed.

(** The keys without a property schema. *)
Lemma keys_exact target value patterns path (P : ((jsstr -> bool) * props) -> data -> Prop) :
  let names := object_keys (property_schemas target) in
  (forall k v e, (k, v) ∈ value -> e ∈ patterns -> decides (rec e.2 v (childPath path k)) (P e v)) ->
  exists matched extra, check_keys rec target value patterns path = Ok (matched, extra) /\
    (matched = [] <-> forall k v e, (k, v) ∈ value -> k ∉ names -> e ∈ patterns -> e.1 k = true -> P e v) /\
    (forall k v, (k, v) ∈ extra <-> (k, v) ∈ value /\ k ∉ names /\ forall e, e ∈ patterns -> e.1 k = false).
Proof.
  intros names Hrec. unfold check_keys. fold names.
  induction value as [|[k v] value IH] using rev_ind.
  { exists [], []. split_and!; [done| |]; [split; [intros _ ? ? ? Hk; by apply elem_of_nil in Hk|done]|].
    intros k v. rewrite elem_of_nil. naive_solver. }
  destruct IH as (matched & extra & Hm & Hmatched & Hextra); [intros ???? ?; apply Hrec; [apply elem_of_app; by left|done]|].
  rewrite mfold_app, Hm. cbn [mbind result_bind mfold]. clear Hm. case_bool_decide as Hk.
  { exists matched, extra. split_and!; [done| |].
    - rewrite Hmatched. split; intros Hall k' v' e Hk'.
      + apply elem_of_app in Hk' as [Hk'|[= -> ->]%list_elem_of_singleton]; [by apply Hall|done].
      + apply Hall, elem_of_app. by left.
    - intros k' v'. rewrite Hextra, elem_of_app, list_elem_of_singleton. naive_solver. }
  unfold check_patterns. destruct (List.filter (fun entry => entry.1 k) patterns) as [|e0 es] eqn:Hf.
  { assert (forall e, e ∈ patterns -> e.1 k = false) as Hno.
    { intros e He. destruct (e.1 k) eqn:Hek; [|done]. assert (e ∈ List.filter (fun entry => entry.1 k) patterns) as Hin; [|rewrite Hf in Hin; by apply elem_of_nil in Hin].
      apply list_elem_of_In, filter_In. split; [by apply list_elem_of_In|done]. }
    cbn [mbind result_bind]. exists matched, (extra ++ [(k, v)]). split_and!; [done| |].
    - rewrite Hmatched. split; intros Hall k' v' e Hk'.
      + apply elem_of_app in Hk' as [Hk'|[= -> ->]%list_elem_of_singleton]; [by apply Hall|]. intros _ He Hek. rewrite Hno in Hek by done. done.
      + apply Hall, elem_of_app. by left.
    - intros k' v'. rewrite !elem_of_app, !list_elem_of_singleton, Hextra. naive_solver. }
  rewrite <- Hf. destruct (decides_collect (fun entry => rec entry.2 v (childPath path k)) (fun e => P e v) (List.filter (fun entry => entry.1 k) patterns))
    as (new & -> & Hnew).
  { intros e He. apply Hrec; [apply elem_of_app; right; by apply list_elem_of_singleton|]. apply list_elem_of_In, filter_In in He as [He _]. by apply list_elem_of_In. }
  assert (forall e, e ∈ List.filter (fun entry => entry.1 k) patterns <-> e ∈ patterns /\ e.1 k = true) as Hfilter.
  { intros e. by rewrite !list_elem_of_In, filter_In. }
  cbn [fmap result_fmap mbind result_bind]. exists (matched ++ new), extra. split_and!; [done| |].
  - rewrite app_nil, Hmatched, Hnew. split.
    + intros [Hall Hk'] k' v' e Hin. apply elem_of_app in Hin as [Hin|[= -> ->]%list_elem_of_singleton]; [by apply Hall|].
      intros _ He Hek. apply Hk'. by apply Hfilter.
    + intros Hall. split; [intros k' v' e Hin; apply Hall, elem_of_app; by left|]. intros e [He Hek]%Hfilter.
      apply (Hall k v); [apply elem_of_app; right; by apply list_elem_of_singleton|done..].
  - intros k' v'. rewrite Hextra, elem_of_app, list_elem_of_singleton. assert (e0 ∈ patterns /\ e0.1 k = true) as [He0 He0k] by (apply Hfilter; rewrite Hf; left).
    split; [naive_solver|]. intros ([Hin|[= -> ->]] & Hn & Hno); [done|]. rewrite Hno in He0k by done. done.
Qed.

(** ** The objects the builders make *)

Lemma get_optional s : JsMap.get OPTIONAL_KEY (build s) = match s with PiOptional sub => Some (DObj (build sub)) | _ => None end.
Proof.
  unfold OPTIONAL_KEY. destruct s; cbn [build];
    unfold Type_String, Type_Number, Type_Integer, number_schema, Type_Boolean, Type_Null, Type_Unknown, Type_Literal, Type_Array, Type_Union, Type_Record, Type_Ref, Type_Cyclic;
    rewrite ?get_literal; try done.
  - destruct value; by rewrite get_literal.
  - unfold Type_Object. destruct (foldl _ _ _). by rewrite get_literal.
Qed.

Definition built_properties (ps : list (jsstr * PiSchema)) : props := map (fun p => (p.1, DObj (build (unwrapped p.2)))) ps.
Definition required_of (ps : list (jsstr * PiSchema)) : list jsstr := omap (fun p => if is_optional p.2 then None else Some p.1) ps.

Lemma fold_properties ps : ordered ps.*1 = true ->
  foldl add_property ([], []) (map (fun p => (p.1, build p.2)) ps) = (built_properties ps, required_of ps).
Proof.
  induction ps as [|[k s] ps IH] using rev_ind; [done|]. rewrite fmap_app. intros Ho. pose proof Ho as Ho'. apply ordered_app_inv in Ho as [Ho _].
  rewrite map_app, foldl_app, IH by done. unfold built_properties, required_of. rewrite map_app, omap_app. cbn [map foldl add_property fst snd omap list_omap].
  rewrite get_optional. assert (forall v : data, define k v (map (fun p => (p.1, DObj (build (unwrapped p.2)))) ps) =
    map (fun p => (p.1, DObj (build (unwrapped p.2)))) ps ++ [(k, v)]) as Hd.
  { intros v. apply define_last. rewrite <- list_fmap_compose. exact Ho'. }
  destruct s; cbn [is_optional unwrapped]; by rewrite Hd, ?app_nil_r.
Qed.

(** The fields of an object schema. *)
Lemma object_target ps d a : ordered ps.*1 = true ->
  build (PiObject ps d a) = literal [("type", DStr (js "object"));
    ("required", match required_of ps with [] => DUndefined | _ => DArr (map DStr (required_of ps)) end);
    ("properties", DObj (built_properties ps)); ("description", opt_str d);
    ("additionalProperties", opt_additional (map_additional build a))]%string.
Proof. intros Ho. cbn [build]. unfold Type_Object. by rewrite fold_properties. Qed.

Lemma elem_built k v ps : (k, v) ∈ built_properties ps <-> exists s, (k, s) ∈ ps /\ v = DObj (build (unwrapped s)).
Proof.
  unfold built_properties. rewrite list_elem_of_fmap. split.
  - intros ([k' s] & [= -> ->] & Hin). by exists s.
  - intros (s & Hin & ->). by exists (k, s).
Qed.

Lemma elem_required k ps : k ∈ required_of ps <-> exists s, (k, s) ∈ ps /\ is_optional s = false.
Proof.
  unfold required_of. rewrite list_elem_of_omap. split.
  - intros ([k' s] & Hin & Hk). cbn in Hk. destruct (is_optional s) eqn:Ho; [done|]. injection Hk as ->. by exists s.
  - intros (s & Hin & Ho). exists (k, s). cbn. by rewrite Ho.
Qed.

Lemma built_names ps : (built_properties ps).*1 = ps.*1.
Proof. unfold built_properties. by rewrite <- list_fmap_compose. Qed.

Lemma strings_of l : strings (map DStr l) = l.
Proof. induction l as [|s l IH]; [done|]. unfold strings in *. cbn. by rewrite IH. Qed.

Lemma objects_of l : objects (map DObj l) = l.
Proof. induction l as [|s l IH]; [done|]. unfold objects in *. cbn. by rewrite IH. Qed.

(** ** Object schemas *)

Lemma additional_exact target a extra path : field "additionalProperties" target = opt_additional (map_additional build a) ->
  forall T : PiSchema -> data -> Prop,
  (forall k v s, (k, v) ∈ extra -> a = SchemaAdditional s -> decides (rec (build s) v (childPath path k)) (T s v)) ->
  decides (check_additional rec target extra path) (forall k v, (k, v) ∈ extra -> a <> BoolAdditional false /\ forall s, a = SchemaAdditional s -> T s v).
Proof.
  intros Hf T Hrec. unfold check_additional. rewrite Hf. destruct extra as [|p extra].
  { apply decides_ok. split; [|done]. by intros _ k v ?%elem_of_nil. }
  destruct a as [|[]|s]; cbn [map_additional opt_additional].
  - apply decides_ok. by split.
  - apply decides_ok. by split.
  - apply decides_ok. split; [done|]. intros Hall. destruct p as [k v]. by destruct (Hall k v) as [[] _]; [left|].
  - eapply decides_iff; [|apply (decides_collect _ (fun p => T s p.2))].
    + split; [intros Hall k v Hin; split; [done|]; intros ? [= <-]; by apply (Hall (k, v))|]. intros Hall [k v] Hin. by apply (Hall k v).
    + intros [k v] Hin. by apply Hrec.
Qed.

Lemma required_exact target value path ps : Forall (fun k => inherited k = false) ps.*1 -> required_names target = required_of ps ->
  check_required target value path = [] <-> forall k s, (k, s) ∈ ps -> is_optional s = false -> JsMap.has k value = true.
Proof.
  intros Hi Hr. unfold check_required. rewrite Hr.
  assert (forall k, k ∈ required_of ps -> has_property k value = JsMap.has k value) as Hhas.
  { intros k (s & Hin & _)%elem_required. apply has_property_own. rewrite Forall_forall in Hi. apply Hi. apply list_elem_of_fmap. by exists (k, s). }
  destruct (List.filter _ _) as [|k0 missing] eqn:Hf.
  - split; [|done]. intros _ k s Hin Ho. assert (k ∈ required_of ps) as Hk by (apply elem_required; by exists s). rewrite <- Hhas by done.
    destruct (has_property k value) eqn:Hp; [done|]. exfalso.
    assert (k ∈ List.filter (fun name => negb (has_property name value)) (required_of ps)) as Hin'; [|rewrite Hf in Hin'; by apply elem_of_nil in Hin'].
    apply list_elem_of_In, filter_In. split; [by apply list_elem_of_In|by rewrite Hp].
  - split; [done|]. intros Hall. exfalso. assert (k0 ∈ List.filter (fun name => negb (has_property name value)) (required_of ps)) as Hin by (rewrite Hf; left).
    apply list_elem_of_In, filter_In in Hin as [Hin Hn]. apply list_elem_of_In in Hin. rewrite Hhas in Hn by done.
    apply elem_required in Hin as (s & Hin & Ho). by rewrite (Hall k0 s Hin Ho) in Hn.
Qed.

Lemma collect_map {A B} (f : B -> checked (list PiValidationError)) (g : A -> B) l : collect f (map g l) = collect (fun a => f (g a)) l.
Proof.
  unfold collect. generalize (@nil PiValidationError). induction l as [|a l IH]; intros acc; [done|]. cbn [map mfold].
  destruct (f (g a)); cbn [mbind result_bind]; [apply IH|done].
Qed.

Lemma properties_exact target value path ps (T : PiSchema -> data -> Prop) : Forall (fun k => inherited k = false) ps.*1 ->
  property_schemas target = built_properties ps ->
  (forall k s v path, (k, s) ∈ ps -> JsMap.get k value = Some v -> decides (rec (build (unwrapped s)) v path) (T (unwrapped s) v)) ->
  decides (check_properties rec target value path) (forall k s v, (k, s) ∈ ps -> JsMap.get k value = Some v -> T (unwrapped s) v).
Proof.
  intros Hi Hp Hrec. unfold check_properties. rewrite Hp. unfold built_properties. rewrite collect_map. cbn [isPlainObject].
  eapply decides_iff; [|apply (decides_collect _ (fun p => forall v, JsMap.get p.1 value = Some v -> T (unwrapped p.2) v))].
  - split; [intros Hall k s v Hin; by apply (Hall (k, s))|]. intros Hall [k s] Hin v. by apply Hall.
  - intros [k s] Hin. cbn [fst snd]. rewrite has_property_own, get_property_own.
    2,3: rewrite Forall_forall in Hi; apply Hi, list_elem_of_fmap; by exists (k, s).
    unfold JsMap.has. destruct (JsMap.get k value) as [v|] eqn:Hv; cbn [default].
    + eapply decides_iff; [|by eapply Hrec]. split; [by intros HT ? [= <-]|]. intros Hall. by apply Hall.
    + apply decides_ok. by split.
Qed.

Lemma patterns_absent target : field "patternProperties" target = DUndefined -> pattern_schemas target = Ok [].
Proof. intros Hp. unfold pattern_schemas. by rewrite Hp. Qed.

Lemma object_absent target value path : field "properties" target = DUndefined -> field "patternProperties" target = DUndefined ->
  field "additionalProperties" target = DUndefined -> check_object rec target value path = Ok (check_required target value path).
Proof.
  intros Hp Hpat Ha. unfold check_object. rewrite patterns_absent by done. unfold check_properties, property_schemas. rewrite Hp.
  cbn [isPlainObject default collect mfold mbind result_bind option_map].
  destruct (keys_exact target value [] path (fun _ _ => True)) as (matched & extra & -> & Hm & _); [by intros ???? ?%elem_of_nil|].
  replace matched with (@nil PiValidationError) by (symmetry; by apply Hm).
  cbn [mbind result_bind]. unfold check_additional. rewrite Ha. destruct extra; cbn [mbind result_bind app]; by rewrite app_nil_r.
Qed.

(** What the validation of an object schema decides. *)
Definition object_static (T : PiSchema -> data -> Prop) (ps : list (jsstr * PiSchema)) (a : Additional PiSchema) (value : props) : Prop :=
  (forall k s, (k, s) ∈ ps -> is_optional s = false -> JsMap.has k value = true) /\
  (forall k s v, (k, s) ∈ ps -> JsMap.get k value = Some v -> T (unwrapped s) v) /\
  (forall k v, (k, v) ∈ value -> k ∉ ps.*1 -> a <> BoolAdditional false /\ forall s, a = SchemaAdditional s -> T s v).

Lemma object_exact ps d a value path (T : PiSchema -> data -> Prop) :
  ordered ps.*1 = true -> Forall (fun k => inherited k = false) ps.*1 ->
  (forall k s v path, (k, s) ∈ ps -> JsMap.get k value = Some v -> decides (rec (build (unwrapped s)) v path) (T (unwrapped s) v)) ->
  (forall k v s path, (k, v) ∈ value -> a = SchemaAdditional s -> decides (rec (build s) v path) (T s v)) ->
  decides (check_object rec (build (PiObject ps d a)) value path) (object_static T ps a value).
Proof.
  intros Ho Hi Hps Ha. rewrite object_target by done. set (target := literal _).
  assert (property_schemas target = built_properties ps) as Hp by (unfold property_schemas, target; by rewrite field_literal).
  assert (required_names target = required_of ps) as Hr.
  { unfold required_names, target. rewrite field_literal. cbn. destruct (required_of ps) as [|r rs] eqn:Hr; [done|]. rewrite <- Hr. apply strings_of. }
  unfold check_object. rewrite patterns_absent by (unfold target; by rewrite field_literal).
  destruct (properties_exact target value path ps T Hi Hp Hps) as (inner & -> & Hinner).
  destruct (keys_exact target value [] path (fun _ _ => True)) as (matched & extra & Hm & Hmatched & Hextra); [by intros ???? ?%elem_of_nil|].
  cbn [mbind result_bind]. rewrite Hm. cbn [mbind result_bind].
  destruct (additional_exact target a extra path) with (T := T) as (additional & -> & Hadd); [unfold target; by rewrite field_literal| |].
  { intros k v s Hin. apply (Ha k). by apply Hextra in Hin as [Hin _]. }
  cbn [mbind result_bind]. apply decides_ok. rewrite !app_nil, (required_exact target value path ps Hi Hr), Hinner, Hmatched, Hadd. unfold object_static.
  assert ((forall k v, (k, v) ∈ extra -> a <> BoolAdditional false /\ forall s, a = SchemaAdditional s -> T s v) <->
    (forall k v, (k, v) ∈ value -> k ∉ ps.*1 -> a <> BoolAdditional false /\ forall s, a = SchemaAdditional s -> T s v)) as ->.
  { unfold object_keys in Hextra. rewrite Hp, built_names in Hextra. split; intros Hall k v; [|intros (Hin & Hk & _)%Hextra; exact (Hall k v Hin Hk)].
    intros Hin Hk. apply (Hall k v), Hextra. split_and!; [done..|]. by intros e ?%elem_of_nil. }
  split; [intros (? & ? & ? & ?); by split_and!|]. intros (? & ? & ?). split_and!; [done..| |done]. by intros ? ? ? _ _ ?%elem_of_nil.
Qed.

Definition record_static (T : PiSchema -> data -> Prop) (s : PiSchema) (a : Additional PiSchema) (value : props) : Prop :=
  (forall k v, (k, v) ∈ value -> record_key k -> T s v) /\
  (forall k v, (k, v) ∈ value -> ~ record_key k -> a <> BoolAdditional false /\ forall s, a = SchemaAdditional s -> T s v).

Lemma new_RegExp_any : new_RegExp ANY_KEY = Some (forallb (fun u => negb (is_line_terminator u))).
Proof. unfold new_RegExp. by rewrite decide_True. Qed.

Lemma record_key_test k : forallb (fun u => negb (is_line_terminator u)) k = true <-> record_key k.
Proof. unfold record_key. rewrite forallb_Forall. apply Forall_iff. intros u. by destruct (is_line_terminator u). Qed.

Lemma record_exact key s d a value path (T : PiSchema -> data -> Prop) :
  (forall k v s' path, (k, v) ∈ value -> s' = s \/ a = SchemaAdditional s' -> decides (rec (build s') v path) (T s' v)) ->
  decides (check_object rec (build (PiRecord key s d a)) value path) (record_static T s a value).
Proof.
  intros Hrec. cbn [build]. unfold Type_Record. set (target := literal _).
  assert (property_schemas target = []) as Hp by (unfold property_schemas, target; by rewrite field_literal).
  set (test := forallb (fun u => negb (is_line_terminator u))).
  assert (pattern_schemas target = Ok [(test, build s)]) as Hpat.
  { unfold pattern_schemas, target. rewrite field_literal. cbn [named String.eqb Ascii.eqb Bool.eqb default from_option id isPlainObject mfold]. by rewrite new_RegExp_any. }
  unfold check_object, check_properties. rewrite Hp, Hpat. cbn [collect mfold mbind result_bind].
  destruct (keys_exact target value [(test, build s)] path (fun _ v => T s v)) as (matched & extra & Hm & Hmatched & Hextra).
  { intros k v e Hin ->%list_elem_of_singleton. apply (Hrec k); [done|by left]. }
  rewrite Hm. cbn [mbind result_bind].
  destruct (additional_exact target a extra path) with (T := T) as (additional & -> & Hadd); [unfold target; by rewrite field_literal| |].
  { intros k v s' Hin Hs'. apply (Hrec k); [by apply Hextra in Hin as [Hin _]|by right]. }
  cbn [mbind result_bind]. apply decides_ok. unfold check_required, required_names. unfold target at 1. rewrite field_literal. cbn [named String.eqb Ascii.eqb Bool.eqb default from_option id as_array List.filter app].
  rewrite app_nil, Hmatched, Hadd. unfold record_static. rewrite Hp in Hextra |- *. split.
  - intros [H1 H2]. split; intros k v Hin Hk.
    + apply (H1 k v (test, build s)); [done|apply not_elem_of_nil|by left|by apply record_key_test].
    + apply (H2 k v), Hextra. split_and!; [done|apply not_elem_of_nil|]. intros e ->%list_elem_of_singleton. cbn [fst].
      destruct (test k) eqn:Ht; [|done]. by apply record_key_test in Ht.
  - intros [H1 H2]. split; [intros k v e Hin _ ->%list_elem_of_singleton Hk; apply (H1 k v); [done|by apply record_key_test]|].
    intros k v (Hin & _ & Hno)%Hextra. apply (H2 k v); [done|]. intros Hk%record_key_test. specialize (Hno (test, build s) ltac:(by left)). cbn in Hno. unfold test in Hno. congruence.
Qed.
End parts.
End checks.
