(* ===== verification/SchemaTypes.v ===== *)
(** The validator decides the types of well-formed schemas. *)
From S2P Require Import Prelude JsNumber JsText JsObject JsData Schema SchemaCheck.
Local Open Scope Z_scope.

Section targets.
Context `{Platform} (rec : props -> data -> jsstr -> checked (list PiValidationError)).

(** ** Targets *)

(** Checks of the parts of a value that a schema of another type does not restrict. *)
Lemma parts_total target v path :
  (forall s, v = DStr s -> field "pattern" target = DUndefined) -> (forall l, v = DArr l -> field "items" target = DUndefined) ->
  (forall o, v = DObj o -> field "properties" target = DUndefined /\ field "patternProperties" target = DUndefined /\
    field "additionalProperties" target = DUndefined) -> exists errs, check_parts rec target v path = Ok errs.
Proof.
  intros Hs Hl Ho. destruct v as [| | |n|s|l|o|]; cbn [check_parts]; try by eexists.
  - apply string_absent. by eapply Hs.
  - apply array_absent. by eapply Hl.
  - destruct (Ho o eq_refl) as (? & ? & ?). eexists. by apply object_absent.
Qed.

Lemma plain_target target v path t (P : Prop) :
  field "anyOf" target = DUndefined -> field "oneOf" target = DUndefined -> field "allOf" target = DUndefined ->
  field "const" target = DUndefined -> field "enum" target = DUndefined -> field "type" target = DStr t ->
  (if matchesType v t then decides (check_parts rec target v path) P else exists errs, check_parts rec target v path = Ok errs) ->
  decides (validateResolved rec target v path) (matchesType v t = true /\ P).
Proof.
  intros Hany Hone Hall Hconst Henum Htype Hparts. unfold validateResolved, check_allOf, check_const, check_enum. rewrite Hany, Hone, Hall, Hconst, Henum.
  cbn [as_array mbind result_bind]. pose proof (type_exact target v path t Htype) as Ht.
  destruct (matchesType v t) eqn:Hm.
  - destruct Hparts as (errs & -> & Herrs). apply decides_ok. cbn [app]. rewrite app_nil, Ht, Herrs. by split; [intros [_ ?]|intros [_ ?]].
  - destruct Hparts as (errs & ->). apply decides_ok. cbn [app]. rewrite app_nil, Ht. split; [by intros [? _]|by intros [? _]].
Qed.

Lemma union_exact {A} (g : A -> props) (l : list A) branches v path (P : A -> Prop) : objects branches = map g l -> l <> [] ->
  (forall a, a ∈ l -> decides (rec (g a) v path) (P a)) ->
  decides (validateUnionBranches rec "anyOf" branches v path) (exists a, a ∈ l /\ P a).
Proof.
  intros Hb Hne Hrec. unfold validateUnionBranches. rewrite Hb. destruct (map g l) as [|b0 bs] eqn:Hm; [by destruct l|]. rewrite <- Hm. clear b0 bs Hm Hb Hne.
  set (step := fun '(passing, best) '(index, branch) => _).
  assert (forall l' acc, (forall p, p ∈ l' -> p.2 ∈ l) -> exists passing best, mfold step acc (map (fun p => (p.1, g p.2)) l') = Ok (passing, best) /\
    ((0 < length passing)%nat <-> (0 < length acc.1)%nat \/ exists p : nat * A, p ∈ l' /\ P p.2)) as Hfold.
  { induction l' as [|[i a] l' IH]; intros [passing best] Hl; cbn [mfold map fst snd].
    { exists passing, best. split; [done|]. split; [by left|]. intros [?|(p & Hp%elem_of_nil & _)]; done. }
    unfold step at 1. destruct (Hrec a) as (errs & -> & Herrs); [by apply (Hl (i, a)); left|]. cbn [mbind result_bind].
    set (acc := match errs with [] => _ | _ => _ end). destruct (IH acc ltac:(intros p Hp; apply Hl; by right)) as (passing' & best' & -> & Hlen).
    exists passing', best'. split; [done|]. rewrite Hlen. cbn [fst]. unfold acc. destruct errs as [|e errs]; cbn [fst].
    - rewrite length_app. cbn [length]. split; [intros _; right; exists (i, a); split; [left|by apply Herrs]|intros _; left; lia].
    - split; [intros [?|(p & Hp & HP)]; [by left|right; exists p; split; [by right|done]]|].
      intros [?|(p & [->|Hp]%elem_of_cons & HP)]; [by left| |right; by exists p]. by apply Herrs in HP. }
  replace (imap pair (map g l)) with (map (fun p => (p.1, g p.2)) (imap pair l)).
  2: { change (map g l) with (g <$> l). rewrite imap_fmap. change (map ?f ?x) with (f <$> x). by rewrite fmap_imap. }
  destruct (Hfold (imap pair l) ([], None)) as (passing & best & -> & Hlen).
  { intros [i b] (j & b' & [= -> ->] & Hj)%elem_of_lookup_imap. by eapply list_elem_of_lookup_2. }
  cbn [mbind result_bind String.eqb Ascii.eqb Bool.eqb fst length] in *.
  assert ((0 < length passing)%nat <-> exists a, a ∈ l /\ P a) as Hiff.
  { rewrite Hlen. split; [intros [?|([i b] & (j & b' & [= -> ->] & Hj)%elem_of_lookup_imap & HP)]; [lia|]|].
    - exists b'. split; [by eapply list_elem_of_lookup_2|done].
    - intros (b & [j Hj]%list_elem_of_lookup_1 & HP). right. exists (j, b). split; [|done]. apply elem_of_lookup_imap. by exists j, b. }
  rewrite <- Hiff. destruct (Nat.ltb_spec 0 (length passing)); apply decides_ok; split; try done. lia.
Qed.

(** ** The types of the builders *)

Context (D : list (jsstr * PiSchema)).

(** Evaluates the fields of a schema and the kind of a value. *)
Ltac plain := apply plain_target; [try by fields..|]; try (match goal with |- if ?b then _ else _ => let r := eval vm_compute in b in change b with r end; cbv iota).

Lemma string_target o v path : (forall p, st_pattern o = Some p -> new_RegExp p <> None) ->
  decides (validateResolved rec (build (PiString o)) v path) (Static D (PiString o) v).
Proof.
  intros Hp. eapply (decides_iff _ (matchesType v (js "string") = true /\
    match v with DStr s => length_within (length s) (st_minLength o) (st_maxLength o) /\ matches_pattern s (st_pattern o) | _ => False end)).
  { split; [|intros Hs; by inversion Hs]. destruct v; try by intros [_ []]. intros (_ & ? & ?). by constructor. }
  cbn [build]. unfold Type_String. apply plain_target; [by fields..|].
  destruct v; cbn -[js check_parts]; try (apply parts_total; intros; try done; split_and?; by fields).
  cbn [check_parts]. by apply string_exact; [fields..|].
Qed.

Lemma matches_number v : matchesType v (js "number") = match v with DNum _ => true | _ => false end.
Proof. done. Qed.

Lemma matches_integer v : matchesType v (js "integer") = match v with DNum n => isInteger n | _ => false end.
Proof. done. Qed.

(** A schema that only names its type: every value of the type passes. *)
Lemma number_target kind o v path : kind = "number"%string \/ kind = "integer"%string ->
  decides (validateResolved rec (number_schema kind o) v path)
    (matchesType v (js kind) = true /\ match v with DNum n => in_bounds n o | _ => False end).
Proof.
  intros Hkind. apply plain_target; [by fields..|].
  assert (match v with DNum n => decides (Ok (check_number (number_schema kind o) n path)) (in_bounds n o) | _ => True end) as Hn.
  { destruct v; try done. apply decides_ok, number_exact; by unfold number_schema; fields. }
  destruct Hkind as [-> | ->]; rewrite ?matches_number, ?matches_integer; destruct v as [| | |n|s|l|ob|];
    try (apply parts_total; intros; try done; split_and?; by fields); try exact Hn.
  destruct (isInteger n); [exact Hn|]. by eexists.
Qed.

Lemma simple_target v path (s : PiSchema) t d :
  build s = literal [("type", DStr (js t)); ("description", opt_str d)]%string ->
  (forall v, matchesType v (js t) = true -> match v with DArr _ | DObj _ | DNum _ | DStr _ | DUndefined => False | _ => True end) ->
  decides (validateResolved rec (build s) v path) (matchesType v (js t) = true).
Proof.
  intros -> Ht. eapply decides_iff; [|apply (plain_target _ _ _ (js t) True); [by fields..|]]; [by split; [intros [? _]|]|].
  specialize (Ht v). destruct (matchesType v (js t)).
  - specialize (Ht eq_refl). destruct v; try done; by apply decides_ok.
  - apply parts_total; intros; try split_and!; by fields.
Qed.

Lemma unknown_target d v path : decides (validateResolved rec (build (PiUnknown d)) v path) (Static D (PiUnknown d) v).
Proof.
  cbn [build]. unfold Type_Unknown. set (target := literal _).
  assert (check_parts rec target v path = Ok []) as Hparts.
  { destruct v; cbn [check_parts]; try done. rewrite object_absent; unfold target; by fields. }
  unfold validateResolved, check_allOf, check_const, check_enum, check_type, typeList. rewrite Hparts. unfold target. fields.
  apply decides_ok. split; [intros _; constructor|done].
Qed.

(** A literal is a value of its type. *)
Lemma literal_type l v : dataEqual v (literal_data l) = true ->
  matchesType v (match l with LString _ => js "string" | LNumber _ => js "number" | LBoolean _ => js "boolean" end) = true.
Proof. by destruct l, v. Qed.

Lemma literal_target l d v path : decides (validateResolved rec (build (PiLiteral l d)) v path) (Static D (PiLiteral l d) v).
Proof.
  set (t := match l with LString _ => "string" | LNumber _ => "number" | LBoolean _ => "boolean" end%string).
  assert (build (PiLiteral l d) = literal [("type", DStr (js t)); ("const", literal_data l); ("description", opt_str d)]%string) as -> by by destruct l.
  set (target := literal _).
  assert (check_const target v path = [] <-> dataEqual v (literal_data l) = true) as Hconst.
  { unfold check_const, target. fields. by destruct l; cbn [literal_data]; destruct (dataEqual v _). }
  assert (check_parts rec target v path = Ok []) as Hnone.
  { clear -target. destruct v; cbn [check_parts]; try done. rewrite object_absent; unfold target; by fields. }
  unfold validateResolved, check_allOf, check_enum. rewrite Hnone.
  assert (field "anyOf" target = DUndefined /\ field "oneOf" target = DUndefined /\ field "allOf" target = DUndefined /\ field "enum" target = DUndefined)
    as (-> & -> & -> & ->) by (unfold target; split_and!; by fields).
  cbn [as_array mbind result_bind app].
  apply decides_ok. rewrite !app_nil, Hconst, (type_exact target v path (js t)) by (unfold target; by fields). split.
  - intros (He & _). by constructor.
  - intros Hs. inversion Hs; subst. split_and!; [done| |done]. pose proof (literal_type l v ltac:(done)) as Ht. by destruct l.
Qed.

Lemma additional_iff a v : (a <> BoolAdditional false /\ forall s, a = SchemaAdditional s -> Static D s v) <-> additional_type D a v.
Proof.
  split.
  - intros [Hf Hs]. destruct a as [|[]|s]; [constructor|constructor|done|constructor; by apply Hs].
  - intros Ha. split; [by intros ->; inversion Ha|]. intros s ->. by inversion Ha.
Qed.

Lemma object_type ps d a o : object_static (Static D) ps a o <-> Static D (PiObject ps d a) (DObj o).
Proof.
  unfold object_static. split.
  - intros (Hr & Hp & Ha). constructor; [done|done|]. intros k v Hin Hk. by apply additional_iff, (Ha k).
  - intros Hs. inversion Hs as [| | | | | | |? ? ? ? Hr Hp Ha| | | | |]; subst. split_and!; [done|done|]. intros k v Hin Hk. by eapply additional_iff, Ha.
Qed.

Lemma record_type key s d a o : record_static (Static D) s a o <-> Static D (PiRecord key s d a) (DObj o).
Proof.
  unfold record_static. split.
  - intros (Hr & Ha). constructor; [done|]. intros k v Hin Hk. by apply additional_iff, (Ha k).
  - intros Hs. inversion Hs as [| | | | | | | | | |? ? ? ? ? Hr Ha| |]; subst. split; [done|]. intros k v Hin Hk. by eapply additional_iff, Ha.
Qed.

Lemma object_target_type ps d a v path : ordered ps.*1 = true -> Forall (fun k => inherited k = false) ps.*1 ->
  (forall k s v' path, (k, s) ∈ ps -> (data_depth v' < data_depth v)%nat -> decides (rec (build (unwrapped s)) v' path) (Static D (unwrapped s) v')) ->
  (forall s v' path, a = SchemaAdditional s -> (data_depth v' < data_depth v)%nat -> decides (rec (build s) v' path) (Static D s v')) ->
  decides (validateResolved rec (build (PiObject ps d a)) v path) (Static D (PiObject ps d a) v).
Proof.
  intros Ho Hi Hps Ha. eapply (decides_iff _ (matchesType v (js "object") = true /\ match v with DObj o => object_static (Static D) ps a o | _ => False end)).
  { split; [|intros Hs; inversion Hs; subst; split; [done|by eapply object_type]]. destruct v; try by intros [_ []]. intros [_ Hs]. by apply object_type. }
  pose proof (object_target ps d a Ho) as Htarget. apply plain_target; [rewrite Htarget; by fields..|].
  destruct v as [| | | | | |o|]; try (apply parts_total; intros; try done; rewrite Htarget; by fields).
  cbn [check_parts]. change (matchesType (DObj o) (js "object")) with true. cbv iota. apply object_exact; [done|done| |].
  - intros k s v path' Hin Hv. eapply Hps; [done|by eapply depth_own].
  - intros k v s path' Hin ->. apply Ha; [done|by apply (depth_prop (k, v))].
Qed.

Lemma record_target_type key s d a v path :
  (forall s' v' path, s' = s \/ a = SchemaAdditional s' -> (data_depth v' < data_depth v)%nat -> decides (rec (build s') v' path) (Static D s' v')) ->
  decides (validateResolved rec (build (PiRecord key s d a)) v path) (Static D (PiRecord key s d a) v).
Proof.
  intros Hrec. eapply (decides_iff _ (matchesType v (js "object") = true /\ match v with DObj o => record_static (Static D) s a o | _ => False end)).
  { split; [|intros Hs; inversion Hs; subst; split; [done|by eapply record_type]]. destruct v; try by intros [_ []]. intros [_ Hs]. by apply record_type. }
  apply plain_target; [cbn [build]; unfold Type_Record; by fields..|].
  destruct v as [| | | | | |o|]; try (apply parts_total; intros; try done; cbn [build]; unfold Type_Record; by fields).
  cbn [check_parts]. change (matchesType (DObj o) (js "object")) with true. cbv iota. apply record_exact.
  intros k v s' path' Hin Hs'. apply Hrec; [done|by apply (depth_prop (k, v))].
Qed.

Lemma array_target_type items o v path :
  (forall v' path, (data_depth v' < data_depth v)%nat -> decides (rec (build items) v' path) (Static D items v')) ->
  decides (validateResolved rec (build (PiArray items o)) v path) (Static D (PiArray items o) v).
Proof.
  intros Hrec. eapply (decides_iff _ (matchesType v (js "array") = true /\
    match v with DArr l => length_within (length l) (ar_minItems o) (ar_maxItems o) /\ forall x, x ∈ l -> Static D items x | _ => False end)).
  { split; [|intros Hs; by inversion Hs]. destruct v; try by intros [_ []]. intros (_ & ? & ?). by constructor. }
  apply plain_target; [cbn [build]; unfold Type_Array; by fields..|].
  destruct v as [| | | | |l| |]; try (apply parts_total; intros; try done; split_and?; cbn [build]; unfold Type_Array; by fields).
  cbn [check_parts]. change (matchesType (DArr l) (js "array")) with true. cbv iota. apply (array_exact rec _ _ (build items)).
  1-3: cbn [build]; unfold Type_Array; by fields.
  intros v path' Hin. apply Hrec. by apply depth_item.
Qed.

Lemma union_target_type l d v path : l <> [] -> (forall s, s ∈ l -> decides (rec (build s) v path) (Static D s v)) ->
  decides (validateResolved rec (build (PiUnion l d)) v path) (Static D (PiUnion l d) v).
Proof.
  intros Hne Hrec. cbn [build]. unfold Type_Union, validateResolved. fields. cbn [as_array].
  eapply decides_iff; [|apply (union_exact build l _ _ _ (fun s => Static D s v)); [apply objects_of|done|done]].
  split; [intros (s & Hin & Hs); by econstructor|]. intros Hs. inversion Hs; subst. eauto.
Qed.

(** A property of an object schema is scoped, and less high than the object. *)
Lemma elem_scoped (ps : list (jsstr * PiSchema)) p : forallb (fun p => scoped_at D true p.2) ps = true -> p ∈ ps ->
  scoped_at D false (unwrapped p.2) = true /\ (height (unwrapped p.2) <= foldr (fun p n => Nat.max (height p.2) n) 0 ps)%nat.
Proof.
  induction ps as [|q ps IH]; intros Hs Hin; [by apply elem_of_nil in Hin|]. cbn [forallb foldr] in *. apply andb_true_iff in Hs as [Hq Hs].
  apply elem_of_cons in Hin as [->|Hin]; [|destruct (IH Hs Hin); split; [done|lia]].
  destruct q as [k s]. cbn [snd] in *. destruct s; cbn [unwrapped]; (split; [exact Hq|cbn [height]; lia]).
Qed.

Lemma elem_union (l : list PiSchema) s : forallb (scoped_at D false) l = true -> s ∈ l ->
  scoped_at D false s = true /\ (height s <= foldr (fun s n => Nat.max (height s) n) 0 l)%nat.
Proof.
  induction l as [|q l IH]; intros Hs Hin; [by apply elem_of_nil in Hin|]. cbn [forallb foldr] in *. apply andb_true_iff in Hs as [Hq Hs].
  apply elem_of_cons in Hin as [->|Hin]; [split; [done|lia]|]. destruct (IH Hs Hin). split; [done|lia].
Qed.

(** The head of a schema: the calls on parts of the value, and on the branches of a union,
    are assumed to decide their types. *)
Lemma target_type s v path N : reference s = None -> scoped_at D false s = true -> (height s <= N)%nat ->
  (forall s' v' path, (data_depth v' < data_depth v)%nat -> scoped_at D false s' = true -> (height s' <= N)%nat ->
     decides (rec (build s') v' path) (Static D s' v')) ->
  (forall l d s', s = PiUnion l d -> s' ∈ l -> decides (rec (build s') v path) (Static D s' v)) ->
  decides (validateResolved rec (build s) v path) (Static D s v).
Proof.
  intros Hh Hs HN Hdeep Hunion. destruct s as [o|o|o|d|d|d|l d|s|ps d a|items o|l d|key s d a| |]; try done; cbn [scoped_at height] in *.
  - apply string_target. intros p Hp Hnone. by rewrite Hp, Hnone in Hs.
  - eapply decides_iff; [|apply (number_target "number"); by left]. rewrite matches_number.
    split; [destruct v; intros [? ?]; try done; by constructor|]. intros Hv. by inversion Hv.
  - eapply decides_iff; [|apply (number_target "integer"); by right]. rewrite matches_integer.
    split; [destruct v; intros [? ?]; try done; by constructor|]. intros Hv. by inversion Hv.
  - eapply decides_iff; [|apply (simple_target v path (PiBoolean d) "boolean" d); [done|by intros []]].
    split; [destruct v; intros ?; try done; by constructor|]. intros Hv. by inversion Hv.
  - eapply decides_iff; [|apply (simple_target v path (PiNull d) "null" d); [done|by intros []]].
    split; [destruct v; intros ?; try done; by constructor|]. intros Hv. by inversion Hv.
  - apply unknown_target.
  - apply literal_target.
  - rewrite !andb_true_iff in Hs. destruct Hs as [[[Ho Hi] Ha] Hps]. apply object_target_type; [done| | |].
    { rewrite forallb_Forall in Hi. eapply Forall_impl; [exact Hi|]. intros k Hk. cbv beta in Hk. by destruct (inherited k). }
    + intros k s v' path' Hin Hv'. destruct (elem_scoped ps (k, s) Hps Hin) as [Hs Hle]. apply Hdeep; [done|done|]. cbn [snd] in Hle. lia.
    + intros s v' path' -> Hv'. by apply Hdeep; [| |lia].
  - apply array_target_type. intros v' path' Hv'. apply Hdeep; [done..|lia].
  - apply andb_true_iff in Hs as [Hne _]. apply union_target_type; [by destruct l|]. intros s Hin. by eapply Hunion.
  - apply andb_true_iff in Hs as [Hs Ha]. apply record_target_type. intros s' v' path' [-> | ->] Hv'; apply Hdeep; (done || lia).
Qed.
End targets.

(** ** References and fuel *)

Section validator.
Context `{Platform} (D : list (jsstr * PiSchema)).
Abbreviation defs := (built_definitions D).

Lemma get_built name : JsMap.get name defs = (fun s => with_id name (build s)) <$> JsMap.get name D.
Proof. unfold built_definitions. induction D as [|[k s] D' IH]; cbn; [done|]. case_decide; [by subst|done]. Qed.

Lemma field_ref s : field "$ref" (build s) = opt_str (reference s).
Proof.
  destruct s; cbn [build reference]; try done; [by destruct value|]. unfold Type_Object. by destruct (foldl _ _ _).
Qed.

Lemma headed_reference s : headed s = true -> reference s = None.
Proof. by destruct s. Qed.

Lemma resolve_direct s : reference s = None -> resolveRef (build s) defs = build s.
Proof. intros Hr. unfold resolveRef. cbn [resolve]. by rewrite field_ref, Hr. Qed.

Lemma resolve_named s name d : reference s = Some name -> JsMap.get name D = Some d -> headed d = true ->
  resolveRef (build s) defs = with_id name (build d).
Proof.
  intros Hs Hd Hh. unfold resolveRef. change 64%nat with (S (S 62)). cbn [resolve]. rewrite field_ref, Hs. cbn [opt_str as_string]. unfold find_definition.
  rewrite get_built, Hd. cbn [fmap option_fmap option_map]. cbn [resolve]. by rewrite field_with_id, field_ref, headed_reference.
Qed.

Context (N : nat) (HD : Forall (fun d => scoped_at D false d.2 = true /\ headed d.2 = true /\ (height d.2 <= N)%nat) D).

Lemma find_named name : JsMap.has name D = true ->
  exists d, JsMap.get name D = Some d /\ scoped_at D false d = true /\ headed d = true /\ (height d <= N)%nat.
Proof.
  unfold JsMap.has. destruct (JsMap.get name D) as [d|] eqn:Hg; [|done]. intros _. exists d. split; [done|]. apply JsMap.get_Some_elem in Hg.
  rewrite Forall_forall in HD. by apply (HD (name, d)).
Qed.

(** The values of some depth, with any schema whose definitions come first. *)
Definition deep_enough (n : nat) : Prop := forall v s path fuel,
  (data_depth v < n)%nat -> scoped_at D false s = true -> (height s <= N)%nat -> (n * (2 * N + 2) <= fuel)%nat ->
  decides (validateNode fuel defs (build s) v path) (Static D s v).

Lemma head_type n : deep_enough n -> forall h v s path fuel, headed s = true -> scoped_at D false s = true -> (height s <= h)%nat ->
  (h <= N)%nat -> (data_depth v <= n)%nat -> (n * (2 * N + 2) + h <= S fuel)%nat ->
  decides (validateResolved (validateNode fuel defs) (build s) v path) (Static D s v).
Proof.
  intros Hdeep. induction h as [|h IH]; intros v s path fuel Hh Hs Hle HhN Hv Hfuel; [pose proof (height_pos s); lia|].
  apply (target_type _ _ _ _ _ N); [by apply headed_reference|done|lia| |].
  - intros s' v' path' Hv' Hs' HN'. apply Hdeep; [lia|done|done|lia].
  - intros l d s' -> Hin. apply andb_true_iff in Hs as [_ Hs]. destruct (elem_union D l s' Hs Hin) as [Hs' Hh']. cbn [height] in Hle.
    cbn [headed] in Hh. rewrite forallb_Forall, Forall_forall in Hh. specialize (Hh s' Hin). pose proof (height_pos s').
    destruct fuel as [|fuel]; [lia|]. cbn [validateNode]. rewrite resolve_direct by by apply headed_reference.
    apply IH; [done|done|lia|lia|done|lia].
Qed.

(** The same, when the schema may be a reference. *)
Lemma named_type n : deep_enough n -> forall h v s path fuel, scoped_at D false s = true -> (height s <= h)%nat -> (h <= N)%nat ->
  (data_depth v <= n)%nat -> (n * (2 * N + 2) + N + h <= fuel)%nat ->
  decides (validateNode fuel defs (build s) v path) (Static D s v).
Proof.
  intros Hdeep. induction h as [|h IH]; intros v s path fuel Hs Hle HhN Hv Hfuel; [pose proof (height_pos s); lia|].
  destruct fuel as [|fuel]; [lia|]. cbn [validateNode]. destruct (reference s) as [name|] eqn:Hr.
  - destruct (find_named name) as (d & Hd & Hsd & Hhd & Hd'); [by destruct s; try done; injection Hr as ->|].
    rewrite (resolve_named _ name d), target_id by done. eapply decides_iff; [|apply (head_type n Hdeep N v d path fuel); [done..|lia]].
    destruct s; try done; injection Hr as ->; (split; [intros Hv'; by econstructor|]); intros Hv'; inversion Hv'; subst; congruence.
  - rewrite resolve_direct by done. apply (target_type _ _ _ _ _ N); [done|done|lia| |].
    + intros s' v' path' Hv' Hs' HN'. apply Hdeep; [lia|done|done|lia].
    + intros l d s' -> Hin. apply andb_true_iff in Hs as [_ Hs]. destruct (elem_union D l s' Hs Hin) as [Hs' Hh']. cbn [height] in Hle.
      apply IH; [done|lia|lia|done|lia].
Qed.

Lemma all_types n : deep_enough n.
Proof.
  induction n as [|n IH]; intros v s path fuel Hv Hs HN Hfuel; [lia|]. apply (named_type n IH N); [done..|lia|lia].
Qed.
End validator.

Lemma built_type `{Platform} D s v path fuel : well_formed D s -> (fuel_for D s v <= fuel)%nat ->
  decides (validateNode fuel (built_definitions D) (build s) v path) (Static D s v).
Proof.
  intros (Hs & _ & HD) Hfuel. unfold fuel_for in Hfuel. set (N := max_height D s) in *.
  assert (forall d, d ∈ D -> (height d.2 <= N)%nat) as Hheight.
  { intros d Hin. unfold N, max_height. clear -Hin. induction Hin; cbn [foldr]; lia. }
  assert (height s <= N)%nat by (unfold N, max_height; clear; induction D; cbn [foldr]; lia).
  apply (all_types D N) with (n := S (data_depth v)); [|lia|done|done|done].
  apply Forall_forall. intros d Hin. rewrite Forall_forall in HD. destruct (HD d Hin). split_and!; [done|done|by apply Hheight].
Qed.

(** ** Collecting the definitions *)

Section collecting.
Context (rec1 rec2 : definitions -> props -> checked definitions) (Hrec : forall out node, below (rec1 out node) (rec2 out node)).

Lemma sub_below out v : below (collect_sub rec1 out v) (collect_sub rec2 out v).
Proof. unfold collect_sub. destruct (isPlainObject v); auto with below. Qed.

Lemma list_below out v : below (collect_list rec1 out v) (collect_list rec2 out v).
Proof. unfold collect_list. destruct (as_array v); auto using sub_below with below. Qed.

Lemma values_below out v : below (collect_values rec1 out v) (collect_values rec2 out v).
Proof. unfold collect_values. destruct (isPlainObject v); auto using sub_below with below. Qed.

Lemma definition_below out p : below (collect_definition rec1 out p) (collect_definition rec2 out p).
Proof. unfold collect_definition. destruct (isPlainObject p.2); auto with below. Qed.

Lemma node_below out node : below (collectNode rec1 out node) (collectNode rec2 out node).
Proof.
  unfold collectNode. repeat (apply below_bind; [|intros]); auto using list_below, values_below, sub_below with below.
  - destruct (isPlainObject _); auto using definition_below with below.
  - destruct (isPlainObject _); auto using list_below.
Qed.
End collecting.

(** More fuel changes nothing. *)
Lemma collect_more fuel fuel' : (fuel <= fuel')%nat -> forall out node, below (collectDefs fuel out node) (collectDefs fuel' out node).
Proof.
  revert fuel'. induction fuel as [|fuel IH]; intros fuel' Hle out node a; [done|]. destruct fuel' as [|fuel']; [lia|]. cbn [collectDefs].
  apply node_below. apply IH. lia.
Qed.

Section validating.
Context `{Platform} (rec1 rec2 : props -> data -> jsstr -> checked (list PiValidationError))
  (Hrec : forall node v path, below (rec1 node v path) (rec2 node v path)).

Lemma collecting_below {A} (f1 f2 : A -> checked (list PiValidationError)) l : (forall a, below (f1 a) (f2 a)) -> below (collect f1 l) (collect f2 l).
Proof. intros Hf. unfold collect. apply below_mfold. intros s a. apply below_bind; auto with below. Qed.

Lemma array_below target l path : below (check_array rec1 target l path) (check_array rec2 target l path).
Proof.
  unfold check_array. apply below_bind; [|auto with below]. destruct (field "items" target); auto with below.
  - apply collecting_below. intros [i [v schema]]. destruct (isPlainObject schema); auto with below.
  - apply collecting_below. intros [i v]. apply Hrec.
Qed.

Lemma object_below target o path : below (check_object rec1 target o path) (check_object rec2 target o path).
Proof.
  unfold check_object. apply below_bind; [|intros inner; apply below_bind; [apply below_refl|intros patterns; apply below_bind; [|intros [matched extra]; apply below_bind]]];
    auto with below.
  - apply collecting_below. intros [k sub]. destruct (isPlainObject sub), (has_property k o); auto with below.
  - apply below_mfold. intros [errs ex] [k v]. case_bool_decide; auto with below. apply below_bind; [|auto with below].
    unfold check_patterns. destruct (List.filter _ _); auto with below. intros r (new & Hnew & ->)%fmap_Ok. apply fmap_Ok. exists new. split; [|done].
    revert Hnew. apply collecting_below. auto with below.
  - unfold check_additional. destruct extra; auto with below. destruct (field _ _); auto with below.
    apply collecting_below. intros [k v]. apply Hrec.
Qed.

Lemma union_below keyword branches v path : below (validateUnionBranches rec1 keyword branches v path) (validateUnionBranches rec2 keyword branches v path).
Proof.
  unfold validateUnionBranches. destruct (objects branches); auto with below. apply below_bind; [|auto with below].
  apply below_mfold. intros [passing best] [i b]. apply below_bind; auto with below.
Qed.

Lemma target_below target v path : below (validateResolved rec1 target v path) (validateResolved rec2 target v path).
Proof.
  unfold validateResolved. destruct (as_array (field "anyOf" target)); [apply union_below|]. destruct (as_array (field "oneOf" target)); [apply union_below|].
  apply below_bind; [|intros all; apply below_bind; [|auto with below]].
  - unfold check_allOf. destruct (as_array _); auto with below. apply collecting_below. auto with below.
  - destruct v; cbn [check_parts]; auto using array_below, object_below with below.
Qed.
End validating.

Lemma validate_more `{Platform} fuel fuel' : (fuel <= fuel')%nat -> forall defs node v path,
  below (validateNode fuel defs node v path) (validateNode fuel' defs node v path).
Proof.
  revert fuel'. induction fuel as [|fuel IH]; intros fuel' Hle defs node v path a; [done|]. destruct fuel' as [|fuel']; [lia|]. cbn [validateNode].
  apply target_below. intros ???. apply IH. lia.
Qed.

Lemma check_more `{Platform} fuel fuel' s v : (fuel <= fuel')%nat -> below (Check fuel s v) (Check fuel' s v).
Proof. intros Hle. unfold Check, Errors. repeat (apply below_bind; [|intros]); auto using collect_more, validate_more with below. Qed.

(** Validation with enough fuel. *)
Lemma check_type_exact `{Platform} D s v fuel : well_formed D s -> collectDefs fuel [] (build s) = Ok (built_definitions D) ->
  exists enough, forall more, (enough <= more)%nat -> exists ok, Check more (build s) v = Ok ok /\ (ok = true <-> Static D s v).
Proof.
  intros Hwf Hdefs. exists (Nat.max fuel (fuel_for D s v)). intros more Hmore. unfold Check, Errors.
  rewrite (collect_more fuel more ltac:(lia) _ _ _ Hdefs). cbn [mbind result_bind].
  destruct (built_type D s v [] more Hwf ltac:(lia)) as (errs & -> & Herrs). cbn [mbind result_bind]. eexists. split; [done|].
  rewrite bool_decide_eq_true, <- Herrs. split; [apply nil_length_inv|by intros ->].
Qed.

(** A check that returns decides the type, whatever its fuel. *)
Lemma check_returns `{Platform} D s v fuel fuel' ok : well_formed D s -> collectDefs fuel [] (build s) = Ok (built_definitions D) ->
  Check fuel' (build s) v = Ok ok -> (ok = true <-> Static D s v).
Proof.
  intros Hwf Hdefs Hok. destruct (check_type_exact D s v fuel Hwf Hdefs) as (enough & Henough).
  destruct (Henough (Nat.max enough fuel') ltac:(lia)) as (ok' & Hok' & Hiff).
  rewrite (check_more fuel' (Nat.max enough fuel') _ _ ltac:(lia) _ Hok) in Hok'. by injection Hok' as <-.
Qed.
