(* ===== verification/ProtocolSchemas.v ===== *)
(** The messages of the protocol: [packages/protocol/src/schemas.ts]. *)
From S2P Require Import Prelude JsNumber JsText JsObject JsData Schema.
Local Open Scope Z_scope.

Definition PROTOCOL_VERSION : Z := 1.

(** The builder calls of the file, with the options they use. *)
Definition t_string : PiSchema := PiString (mkStringOptions None None None None).
Definition t_nonempty : PiSchema := PiString (mkStringOptions None (Some (JInt 1)) None None).
Definition t_integer (minimum : Z) : PiSchema := PiInteger (mkNumberOptions None (Some (JInt minimum)) None None).
Definition t_number : PiSchema := PiNumber (mkNumberOptions None None None None).
Definition t_cost : PiSchema := PiNumber (mkNumberOptions None (Some (JInt 0)) None None).
Definition t_boolean : PiSchema := PiBoolean None.
Definition t_array (items : PiSchema) : PiSchema := PiArray items (mkArrayOptions None None None).
Definition t_literal (s : string) : PiSchema := PiLiteral (LString (js s)) None.
Definition t_flag (b : bool) : PiSchema := PiLiteral (LBoolean b) None.
Definition t_union (l : list PiSchema) : PiSchema := PiUnion l None.

Definition properties : Type := list (string * PiSchema).
Definition StrictObject (ps : properties) : PiSchema := PiObject (map (fun p => (js p.1, p.2)) ps) None (BoolAdditional false).

Local Open Scope string_scope.
Local Open Scope list_scope.

Definition IdSchema : PiSchema := t_nonempty.
Definition TimestampSchema : PiSchema := t_integer 0.

Definition JsonValueDefinitions : list (jsstr * PiSchema) :=
  [(js "JsonValue", t_union [PiNull None; t_boolean; t_number; t_string; t_array (PiRef (js "JsonValue") None);
     PiRecord t_string (PiRef (js "JsonValue") None) None AnyAdditional])].
Definition JsonValueSchema : PiSchema := PiCyclic JsonValueDefinitions (js "JsonValue") None.

Definition ThinkingLevelSchema : PiSchema := t_union (map t_literal ["off"; "minimal"; "low"; "medium"; "high"; "xhigh"; "max"]).
Definition SessionPhaseSchema : PiSchema := t_union (map t_literal ["idle"; "turn"; "compaction"; "branch_summary"; "retry"]).

Definition ModelRefSchema : PiSchema := StrictObject [("provider", IdSchema); ("id", IdSchema)].

Definition ModelCostSchema : PiSchema :=
  StrictObject [("input", t_cost); ("output", t_cost); ("cacheRead", t_cost); ("cacheWrite", t_cost)].

Definition ModelMetadataSchema : PiSchema :=
  StrictObject [("provider", IdSchema); ("id", IdSchema); ("name", t_nonempty); ("api", IdSchema); ("reasoning", t_boolean);
    ("input", t_array (t_union [t_literal "text"; t_literal "image"])); ("contextWindow", t_integer 1); ("maxTokens", t_integer 1);
    ("cost", ModelCostSchema); ("supportedThinkingLevels", PiArray ThinkingLevelSchema (mkArrayOptions None (Some (JInt 1)) None));
    ("authenticated", t_boolean)].

Definition TextContentSchema : PiSchema := StrictObject [("type", t_literal "text"); ("text", t_string)].
Definition ThinkingContentSchema : PiSchema :=
  StrictObject [("type", t_literal "thinking"); ("thinking", t_string); ("redacted", PiOptional t_boolean)].
Definition ImageContentSchema : PiSchema := StrictObject [("type", t_literal "image"); ("data", t_string); ("mimeType", t_nonempty)].
Definition ToolCallContentSchema : PiSchema :=
  StrictObject [("type", t_literal "toolCall"); ("toolCallId", IdSchema); ("toolName", IdSchema); ("input", JsonValueSchema)].
Definition UserContentSchema : PiSchema := t_union [TextContentSchema; ImageContentSchema].
Definition AssistantContentSchema : PiSchema := t_union [TextContentSchema; ThinkingContentSchema; ToolCallContentSchema].
Definition ToolContentSchema : PiSchema := t_union [TextContentSchema; ImageContentSchema].

Definition UsageSchema : PiSchema :=
  StrictObject [("input", t_integer 0); ("output", t_integer 0); ("cacheRead", t_integer 0); ("cacheWrite", t_integer 0);
    ("reasoning", PiOptional (t_integer 0)); ("totalTokens", t_integer 0);
    ("cost", StrictObject [("input", t_cost); ("output", t_cost); ("cacheRead", t_cost); ("cacheWrite", t_cost); ("total", t_cost)])].

Definition UserTranscriptItemSchema : PiSchema :=
  StrictObject [("id", IdSchema); ("role", t_literal "user"); ("content", t_array UserContentSchema); ("timestamp", TimestampSchema)].

Definition AssistantTranscriptItemProperties : properties :=
  [("id", IdSchema); ("role", t_literal "assistant"); ("content", t_array AssistantContentSchema); ("model", ModelRefSchema);
   ("responseModel", PiOptional t_nonempty); ("usage", PiOptional UsageSchema); ("timestamp", TimestampSchema)].
Definition StreamingAssistantTranscriptItemSchema : PiSchema :=
  StrictObject (AssistantTranscriptItemProperties ++ [("status", t_literal "streaming")]).
Definition CompleteAssistantTranscriptItemSchema : PiSchema :=
  StrictObject (AssistantTranscriptItemProperties ++ [("status", t_literal "complete");
    ("stopReason", t_union [t_literal "stop"; t_literal "length"; t_literal "toolUse"])]).
Definition ErrorAssistantTranscriptItemSchema : PiSchema :=
  StrictObject (AssistantTranscriptItemProperties ++ [("status", t_literal "error"); ("stopReason", t_literal "error");
    ("errorMessage", PiOptional t_nonempty)]).
Definition AbortedAssistantTranscriptItemSchema : PiSchema :=
  StrictObject (AssistantTranscriptItemProperties ++ [("status", t_literal "aborted"); ("stopReason", t_literal "aborted");
    ("errorMessage", PiOptional t_string)]).
Definition AssistantTranscriptItemSchema : PiSchema :=
  t_union [StreamingAssistantTranscriptItemSchema; CompleteAssistantTranscriptItemSchema; ErrorAssistantTranscriptItemSchema;
    AbortedAssistantTranscriptItemSchema].

Definition ToolTranscriptItemProperties : properties :=
  [("id", IdSchema); ("role", t_literal "tool"); ("toolCallId", IdSchema); ("toolName", IdSchema); ("input", JsonValueSchema);
   ("content", t_array ToolContentSchema); ("details", PiOptional JsonValueSchema); ("usage", PiOptional UsageSchema);
   ("timestamp", TimestampSchema)].
Definition RunningToolTranscriptItemSchema : PiSchema :=
  StrictObject (ToolTranscriptItemProperties ++ [("status", t_literal "running"); ("isError", t_flag false)]).
Definition CompleteToolTranscriptItemSchema : PiSchema :=
  StrictObject (ToolTranscriptItemProperties ++ [("status", t_literal "complete"); ("isError", t_flag false)]).
Definition ErrorToolTranscriptItemSchema : PiSchema :=
  StrictObject (ToolTranscriptItemProperties ++ [("status", t_literal "error"); ("isError", t_flag true)]).
Definition ToolTranscriptItemSchema : PiSchema :=
  t_union [RunningToolTranscriptItemSchema; CompleteToolTranscriptItemSchema; ErrorToolTranscriptItemSchema].
Definition TranscriptItemSchema : PiSchema :=
  t_union [UserTranscriptItemSchema; AssistantTranscriptItemSchema; ToolTranscriptItemSchema].

Definition TranscriptProgressSchema : PiSchema :=
  t_union [
    StrictObject [("type", t_literal "item_started"); ("item", TranscriptItemSchema)];
    StrictObject [("type", t_literal "assistant_delta"); ("messageId", IdSchema); ("contentIndex", t_integer 0);
      ("kind", t_union [t_literal "text"; t_literal "thinking"; t_literal "toolCall"]); ("delta", t_string)];
    StrictObject [("type", t_literal "item_updated"); ("item", t_union [AssistantTranscriptItemSchema; ToolTranscriptItemSchema])];
    StrictObject [("type", t_literal "item_finished");
      ("item", t_union [CompleteAssistantTranscriptItemSchema; ErrorAssistantTranscriptItemSchema; AbortedAssistantTranscriptItemSchema;
         CompleteToolTranscriptItemSchema; ErrorToolTranscriptItemSchema])]].

Definition SessionMetadataSchema : PiSchema :=
  StrictObject [("id", IdSchema); ("createdAt", TimestampSchema); ("updatedAt", PiOptional TimestampSchema);
    ("parentSessionId", PiOptional IdSchema); ("sessionName", PiOptional t_string); ("cwd", PiOptional t_nonempty)].

Definition SessionSnapshotSchema : PiSchema :=
  StrictObject [("id", IdSchema); ("name", PiOptional t_string); ("cwd", t_nonempty); ("createdAt", TimestampSchema);
    ("updatedAt", TimestampSchema); ("phase", SessionPhaseSchema); ("model", ModelRefSchema); ("thinkingLevel", ThinkingLevelSchema);
    ("attached", t_boolean); ("locked", t_boolean); ("revision", t_integer 0); ("transcript", t_array TranscriptItemSchema);
    ("queuedSteer", t_array UserTranscriptItemSchema); ("queuedSteerCount", t_integer 0)].

Definition ServerSnapshotSchema : PiSchema :=
  StrictObject [("serverId", IdSchema); ("protocolVersion", PiLiteral (LNumber (JInt PROTOCOL_VERSION)) None); ("revision", t_integer 0);
    ("sessions", t_array SessionMetadataSchema); ("models", t_array ModelMetadataSchema)].

Definition ProtocolErrorCodeSchema : PiSchema :=
  t_union (map t_literal ["version"; "busy"; "session_locked"; "not_found"; "invalid_request"; "not_implemented"; "internal_error"]).
Definition ProtocolErrorSchema : PiSchema :=
  StrictObject [("code", ProtocolErrorCodeSchema); ("message", t_string); ("details", PiOptional JsonValueSchema)].

(** ** Commands and their results *)

Definition PromptPayloadProperties : properties := [("sessionId", IdSchema); ("text", t_string)].

Definition ListCommandSchema : PiSchema := StrictObject [("command", t_literal "list")].
Definition CreateCommandSchema : PiSchema :=
  StrictObject [("command", t_literal "create"); ("cwd", PiOptional t_nonempty); ("name", PiOptional t_string);
    ("model", PiOptional ModelRefSchema); ("thinkingLevel", PiOptional ThinkingLevelSchema)].
Definition AttachCommandSchema : PiSchema := StrictObject [("command", t_literal "attach"); ("sessionId", IdSchema)].
Definition DetachCommandSchema : PiSchema := StrictObject [("command", t_literal "detach"); ("sessionId", IdSchema)].
Definition PromptCommandSchema : PiSchema := StrictObject (("command", t_literal "prompt") :: PromptPayloadProperties).
Definition SteerCommandSchema : PiSchema := StrictObject (("command", t_literal "steer") :: PromptPayloadProperties).
Definition AbortCommandSchema : PiSchema := StrictObject [("command", t_literal "abort"); ("sessionId", IdSchema)].
Definition SetModelCommandSchema : PiSchema :=
  StrictObject [("command", t_literal "set_model"); ("sessionId", IdSchema); ("model", ModelRefSchema)].
Definition SetThinkingCommandSchema : PiSchema :=
  StrictObject [("command", t_literal "set_thinking"); ("sessionId", IdSchema); ("thinkingLevel", ThinkingLevelSchema)].
Definition CommandSchema : PiSchema :=
  t_union [ListCommandSchema; CreateCommandSchema; AttachCommandSchema; DetachCommandSchema; PromptCommandSchema; SteerCommandSchema;
    AbortCommandSchema; SetModelCommandSchema; SetThinkingCommandSchema].

(** The results that carry a snapshot of the session. *)
Definition SnapshotResultSchema (command : string) : PiSchema :=
  StrictObject [("command", t_literal command); ("session", SessionSnapshotSchema)].
Definition ListResultSchema : PiSchema := StrictObject [("command", t_literal "list"); ("sessions", t_array SessionMetadataSchema)].
Definition DetachResultSchema : PiSchema := StrictObject [("command", t_literal "detach"); ("sessionId", IdSchema)].
Definition CommandResultSchema : PiSchema :=
  t_union [ListResultSchema; SnapshotResultSchema "create"; SnapshotResultSchema "attach"; DetachResultSchema; SnapshotResultSchema "prompt";
    SnapshotResultSchema "steer"; SnapshotResultSchema "abort"; SnapshotResultSchema "set_model"; SnapshotResultSchema "set_thinking"].

(** ** Envelopes *)

Definition ClientHelloSchema : PiSchema := StrictObject [("type", t_literal "hello"); ("version", t_integer 0)].
Definition RequestEnvelopeSchema : PiSchema :=
  StrictObject [("type", t_literal "request"); ("id", IdSchema); ("request", CommandSchema)].
Definition ClientMessageSchema : PiSchema := t_union [ClientHelloSchema; RequestEnvelopeSchema].

Definition ServerEventSchema : PiSchema :=
  t_union [
    StrictObject [("type", t_literal "server_snapshot"); ("snapshot", ServerSnapshotSchema)];
    StrictObject [("type", t_literal "session_snapshot"); ("snapshot", SessionSnapshotSchema)];
    StrictObject [("type", t_literal "session_progress"); ("sessionId", IdSchema); ("progress", TranscriptProgressSchema)];
    StrictObject [("type", t_literal "session_removed"); ("sessionId", IdSchema)]].

Definition ServerHelloSchema : PiSchema :=
  StrictObject [("type", t_literal "hello"); ("version", PiLiteral (LNumber (JInt PROTOCOL_VERSION)) None); ("connectionId", IdSchema);
    ("snapshot", ServerSnapshotSchema)].
Definition ServerHelloErrorSchema : PiSchema := StrictObject [("type", t_literal "hello_error"); ("error", ProtocolErrorSchema)].
Definition ResponseEnvelopeSchema : PiSchema :=
  t_union [
    StrictObject [("type", t_literal "response"); ("id", IdSchema); ("ok", t_flag true); ("result", CommandResultSchema)];
    StrictObject [("type", t_literal "response"); ("id", IdSchema); ("ok", t_flag false); ("error", ProtocolErrorSchema)]].
Definition EventEnvelopeSchema : PiSchema := StrictObject [("type", t_literal "event"); ("event", ServerEventSchema)].
Definition ServerMessageSchema : PiSchema :=
  t_union [ServerHelloSchema; ServerHelloErrorSchema; ResponseEnvelopeSchema; EventEnvelopeSchema].

(** ** The schemas are within the validator's theorem *)

Lemma client_definitions : collectDefs 40 [] (build ClientMessageSchema) = Ok [].
Proof. vm_compute. reflexivity. Qed.

Lemma server_definitions : collectDefs 40 [] (build ServerMessageSchema) = Ok (built_definitions JsonValueDefinitions).
Proof. vm_compute. reflexivity. Qed.
