(* ===== verification/ProtocolValue.v ===== *)
(** Values the protocol codec accepts: [isProtocolValue] of [packages/protocol/src/codec.ts].

    The codec looks at values of two kinds: those a program hands to it, which live in a heap
    and may share or be cyclic, and those it has decoded, which are trees.  [JsValues] is how
    the code sees either. *)
From S2P Require Import Prelude JsNumber JsText JsObject CborValue CborEncoder JsData Schema.
Local Open Scope Z_scope.

(** What [typeof], [Array.isArray] and [Object.getPrototypeOf] tell of a value, and its parts;
    [id] is the identity of an object that may be met again. *)
Inductive seen (V : Type) : Type :=
  | SeenUndefined
  | SeenPrimitive (d : data)  (* null, a boolean, a number, a string *)
  | SeenArray (id : option loc) (items : list (option V))
  | SeenObject (id : option loc) (entries : list (jsstr * V))  (* the prototype is [Object.prototype] *)
  | SeenOther.
Arguments SeenUndefined {V}.
Arguments SeenPrimitive {V} d.
Arguments SeenArray {V} id items.
Arguments SeenObject {V} id entries.
Arguments SeenOther {V}.

Class JsValues (V : Type) := see : V -> seen V.

Section values.
Context `{JsValues V}.

(** [l.every(f)]. *)
Fixpoint every {A} (f : A -> option bool) (l : list A) : option bool :=
  match l with
  | [] => Some true
  | a :: l' => match f a with Some true => every f l' | r => r end
  end.

(** Visits an object that is not one of the [ancestors]. *)
Definition enter (id : option loc) (ancestors : gset loc) (visit : gset loc -> option bool) : option bool :=
  match id with
  | Some l => if decide (l ∈ ancestors) then Some false else visit ({[l]} ∪ ancestors)
  | None => visit ancestors
  end.

(** [None] is an exhausted bound.  [every] skips the holes of an array. *)
Fixpoint isProtocolValue (fuel : nat) (optionalProperty : bool) (ancestors : gset loc) (value : V) : option bool :=
  match fuel with
  | O => None
  | S fuel' =>
      match see value with
      | SeenUndefined => Some optionalProperty
      | SeenPrimitive _ => Some true
      | SeenArray id items => enter id ancestors (fun ancestors => every (isProtocolValue fuel' false ancestors) (omap (fun i => i) items))
      | SeenObject id entries => enter id ancestors (fun ancestors => every (fun e => isProtocolValue fuel' true ancestors e.2) entries)
      | SeenOther => Some false
      end
  end.

(** The data of such a value, as far as it is looked at; a hole reads as undefined. *)
Fixpoint to_data (fuel : nat) (value : V) : option data :=
  match fuel with
  | O => None
  | S fuel' =>
      match see value with
      | SeenUndefined => Some DUndefined
      | SeenPrimitive d => Some d
      | SeenArray _ items => DArr <$> mapM (fun i => match i with Some v => to_data fuel' v | None => Some DUndefined end) items
      | SeenObject _ entries => DObj <$> mapM (fun e => pair e.1 <$> to_data fuel' e.2) entries
      | SeenOther => None
      end
  end.
End values.

(** ** Values in a heap *)

Section heap.
Context (h : heap) (bare : gset loc).  (* [bare]: the objects without a prototype *)

#[local] Instance heap_values : JsValues jsval := fun v =>
  match v with
  | VNull => SeenPrimitive DNull
  | VUndefined => SeenUndefined
  | VBool b => SeenPrimitive (DBool b)
  | VNum n => SeenPrimitive (DNum n)
  | VStr s => SeenPrimitive (DStr s)
  | VOther _ => SeenOther
  | VRef l =>
      match h !! l with
      | Some (OArray items) => SeenArray (Some l) items
      | Some (OPlain entries _) => if decide (l ∈ bare) then SeenOther else SeenObject (Some l) entries
      | Some (OBytes _) | Some OExotic | None => SeenOther
      end
  end.
End heap.

(** ** Decoded values *)

#[export] Instance tree_values : JsValues cbor_value := fun t =>
  match t with
  | CNull => SeenPrimitive DNull
  | CBool b => SeenPrimitive (DBool b)
  | CNum n => SeenPrimitive (DNum n)
  | CText s => SeenPrimitive (DStr s)
  | CBytes _ => SeenOther
  | CArray ts => SeenArray None (map Some ts)
  | CMap es => SeenObject None es
  end.

Fixpoint of_cbor (t : cbor_value) : data :=
  match t with
  | CNull => DNull
  | CBool b => DBool b
  | CNum n => DNum n
  | CText s => DStr s
  | CBytes _ => DUndefined
  | CArray ts => DArr (map of_cbor ts)
  | CMap es => DObj (map (fun e => (e.1, of_cbor e.2)) es)
  end.

(** No byte string anywhere. *)
Fixpoint no_bytes (t : cbor_value) : bool :=
  match t with
  | CBytes _ => false
  | CArray ts => forallb no_bytes ts
  | CMap es => forallb (fun e => no_bytes e.2) es
  | _ => true
  end.

Lemma every_forallb {A} (f : A -> option bool) (g : A -> bool) l : Forall (fun a => f a = Some (g a)) l -> every f l = Some (forallb g l).
Proof. induction 1 as [|a l Ha _ IH]; [done|]. cbn [every forallb]. rewrite Ha. by destruct (g a). Qed.

Lemma omap_some {A} (l : list A) : omap (fun i => i) (map Some l) = l.
Proof. induction l as [|a l IH]; [done|]. cbn. by rewrite IH. Qed.

(** On a tree, the test finds byte strings. *)
Lemma protocol_tree t : forall fuel optional ancestors, (tree_size t <= fuel)%nat -> isProtocolValue fuel optional ancestors t = Some (no_bytes t).
Proof.
  induction t as [|b|n|s|bs|ts IH|es IH] using cbor_value_ind'; intros fuel optional ancestors Hfuel; (destruct fuel as [|fuel]; [cbn in Hfuel; lia|]);
    try done; cbn [isProtocolValue see tree_values enter no_bytes].
  - rewrite omap_some. apply every_forallb. rewrite Forall_forall in IH |- *. intros t Ht. apply IH; [done|].
    pose proof (tree_size_elem t ts Ht). lia.
  - apply (every_forallb _ (fun e => no_bytes e.2)). rewrite Forall_forall in IH |- *. intros e He. apply IH; [done|].
    pose proof (tree_size_entry e es He). lia.
Qed.

Lemma data_tree t : no_bytes t = true -> forall fuel, (tree_size t <= fuel)%nat -> to_data fuel t = Some (of_cbor t).
Proof.
  induction t as [|b|n|s|bs|ts IH|es IH] using cbor_value_ind'; intros Hb fuel Hfuel; (destruct fuel as [|fuel]; [cbn in Hfuel; lia|]);
    try done; cbn [to_data see tree_values of_cbor no_bytes] in *.
  - apply fmap_Some. eexists. split; [|done]. apply mapM_Some. rewrite forallb_Forall, Forall_forall in Hb. rewrite Forall_forall in IH.
    rewrite Forall2_fmap. apply Forall_Forall2_diag, Forall_forall. intros t Ht. apply IH; [done|by apply Hb|].
    pose proof (tree_size_elem t ts Ht). lia.
  - apply fmap_Some. eexists. split; [|done]. apply mapM_Some. rewrite forallb_Forall, Forall_forall in Hb. rewrite Forall_forall in IH.
    rewrite Forall2_fmap_r. apply Forall_Forall2_diag, Forall_forall. intros e He. cbn. rewrite (IH e He (Hb e He)); [done|].
    pose proof (tree_size_entry e es He). lia.
Qed.

(** Reading a tree that returns gives its data, whatever the bound. *)
Lemma data_tree_returns t : forall fuel d, to_data fuel t = Some d -> no_bytes t = true /\ d = of_cbor t.
Proof.
  induction t as [|b|n|s|bs|ts IH|es IH] using cbor_value_ind'; intros [|fuel] d; try done; cbn [to_data see tree_values of_cbor no_bytes];
    try (by intros [= <-]).
  - intros (ds & Hds & ->)%fmap_Some. apply mapM_Some in Hds. rewrite Forall2_fmap_l in Hds.
    enough (forallb no_bytes ts = true /\ ds = map of_cbor ts) as [? ->] by done.
    induction Hds as [|t d ts ds Hd _ IHds]; [done|]. apply Forall_cons in IH as [IHt IH]. cbn [forallb map]. destruct (IHt _ _ Hd) as [-> ->]. by destruct (IHds IH) as [-> ->].
  - intros (ds & Hds & ->)%fmap_Some. apply mapM_Some in Hds.
    enough (forallb (fun e => no_bytes e.2) es = true /\ ds = map (fun e => (e.1, of_cbor e.2)) es) as [? ->] by done.
    induction Hds as [|e d es ds Hd _ IHds]; [done|]. apply Forall_cons in IH as [IHe IH]. apply fmap_Some in Hd as (d' & Hd & ->).
    cbn [forallb map]. destruct (IHe _ _ Hd) as [-> ->]. by destruct (IHds IH) as [-> ->].
Qed.

Definition defined (d : data) : bool := match d with DUndefined => false | _ => true end.

(** ** What encoding keeps of a value

    Properties that are undefined are not encoded. *)
Fixpoint strip (d : data) : data :=
  match d with
  | DArr l => DArr (map strip l)
  | DObj ps => DObj (omap (fun p => if defined p.2 then Some (p.1, strip p.2) else None) ps)
  | d => d
  end.

Section unfolding.
Context (h : heap) (bare : gset loc).
#[local] Existing Instance heap_values.
#[local] Abbreviation read := (to_data (H := heap_values h bare)).

Lemma read_undefined fuel v d : read fuel v = Some d -> defined d = negb (bool_decide (v = VUndefined)).
Proof.
  destruct fuel as [|fuel]; [done|]. cbn [to_data]. destruct v as [| |b|n|s|l|o]; cbn; try (by intros [= <-]).
  destruct (h !! l) as [[bs|items|es sym|]|]; cbn; try done.
  - by intros (ds & _ & ->)%fmap_Some.
  - case_decide; cbn; [done|]. by intros (ds & _ & ->)%fmap_Some.
Qed.

(** The tree a value is encoded as is its data, without what is undefined. *)
Lemma read_strip t : forall fuel v d, repr h v t -> read fuel v = Some d -> strip d = of_cbor t /\ no_bytes t = true.
Proof.
  induction t as [|b|n|s|bs|ts IH|es IH] using cbor_value_ind'; intros [|fuel] v d Hr; try done; cbn [to_data].
  1-4: rewrite Hr; by intros [= <-].
  - destruct Hr as (l & -> & Hl). cbn. by rewrite Hl.
  - apply repr_array in Hr as (l & items & -> & Hl & Hitems). cbn. rewrite Hl. intros (ds & Hds & ->)%fmap_Some. apply mapM_Some in Hds.
    cbn [strip of_cbor no_bytes]. enough (map strip ds = map of_cbor ts /\ forallb no_bytes ts = true) as [-> ?] by done. clear Hl.
    revert ds Hds. induction Hitems as [|item t items ts Hi _ IHts]; intros ds Hds; inversion Hds as [|? d ? ds' Hd Hds']; subst; [done|].
    apply Forall_cons in IH as [IHt IH]. destruct Hi as (v & -> & Hv). cbn [map forallb]. destruct (IHt _ _ _ Hv Hd) as [-> ->]. destruct (IHts IH ds' Hds') as [-> ->]. done.
  - apply repr_map in Hr as (l & entries & -> & Hl & Hentries). cbn. rewrite Hl. case_decide; cbn; [done|].
    intros (ds & Hds & ->)%fmap_Some. apply mapM_Some in Hds. cbn [strip of_cbor no_bytes]. clear Hl.
    enough (omap (fun p => if defined p.2 then Some (p.1, strip p.2) else None) ds = map (fun e => (e.1, of_cbor e.2)) es /\
      forallb (fun e => no_bytes e.2) es = true) as [-> ?] by done.
    revert es IH Hentries. induction Hds as [|[k v] [k' d] entries ds Hd _ IHds]; intros es IH Hentries; [by apply Forall2_nil_inv_l in Hentries as ->|].
    apply fmap_Some in Hd as (d' & Hd & [= -> ->]). cbn [fst snd] in Hd. pose proof (read_undefined _ _ _ Hd) as Hdef. unfold defined_entries in Hentries. cbn [List.filter snd] in Hentries.
    destruct (bool_decide (v = VUndefined)); cbn [negb] in *.
    + cbn [omap list_omap snd]. rewrite Hdef. by apply IHds.
    + inversion Hentries as [|? [k2 t] ? es' [Hk Ht] Hes]; subst. cbn [fst snd] in *. subst k2. apply Forall_cons in IH as [IHt IH]. cbn [snd] in IHt.
      destruct (IHt _ _ _ Ht Hd) as [Hs Hb]. destruct (IHds es' IH Hes) as [Hm Hbs]. cbn [omap list_omap fst snd map forallb]. rewrite Hb, Hbs, Hdef, Hs.
      split; [|done]. f_equal. exact Hm.
Qed.

(** With one key each, in the order of the properties. *)
Fixpoint keyed (d : data) : Prop :=
  match d with
  | DArr l => fold_right (fun d acc => keyed d /\ acc) True l
  | DObj ps => NoDup ps.*1 /\ fold_right (fun p acc => keyed p.2 /\ acc) True ps
  | _ => True
  end.
End unfolding.

(** * Types and encoding: a value of a protocol type still has the type once it is encoded and
    decoded, although undefined properties are left out. *)

(** No schema in it accepts undefined. *)
Fixpoint strict (s : PiSchema) : bool :=
  let additional a := match a with SchemaAdditional s => strict s | _ => true end in
  match s with
  | PiUnknown _ => false
  | PiOptional s => strict s
  | PiObject ps _ a => forallb (fun p => strict p.2) ps && additional a
  | PiArray items _ => strict items
  | PiUnion l _ => forallb strict l
  | PiRecord _ s _ a => strict s && additional a
  | _ => true
  end.

Definition strict_additional (a : Additional PiSchema) : bool := match a with SchemaAdditional s => strict s | _ => true end.

Scheme Static_min := Minimality for Static Sort Prop
  with additional_min := Minimality for additional_type Sort Prop.
Combined Scheme Static_both from Static_min, additional_min.

Lemma ordered_NoDup ks : ordered ks = true -> NoDup ks.
Proof.
  induction ks as [|k ks IH]; cbn [ordered]; [constructor|]. intros [Hk Hks]%andb_true_iff. constructor; [|by apply IH].
  intros Hin. rewrite forallb_Forall, Forall_forall in Hk. specialize (Hk k Hin). rewrite andb_true_iff, bool_decide_eq_true in Hk. by destruct Hk.
Qed.

(** The properties encoding keeps. *)
Definition kept (ps : props) : props := omap (fun p => if defined p.2 then Some (p.1, strip p.2) else None) ps.

Lemma kept_cons k v ps : kept ((k, v) :: ps) = if defined v then (k, strip v) :: kept ps else kept ps.
Proof. unfold kept. cbn. by destruct (defined v). Qed.

Lemma elem_kept k w ps : (k, w) ∈ kept ps <-> exists v, (k, v) ∈ ps /\ defined v = true /\ w = strip v.
Proof.
  unfold kept. rewrite list_elem_of_omap. split.
  - intros ([k' v] & Hin & Hk). cbn in Hk. destruct (defined v) eqn:Hd; [|done]. injection Hk as <- <-. by exists v.
  - intros (v & Hin & Hd & ->). exists (k, v). cbn. by rewrite Hd.
Qed.

Lemma get_kept k ps : NoDup ps.*1 -> JsMap.get k (kept ps) = (v ← JsMap.get k ps; if defined v then Some (strip v) else None).
Proof.
  induction ps as [|[k' v] ps IH]; intros Hnd; [done|]. apply NoDup_cons in Hnd as [Hk Hnd]. cbn [fst] in Hk. rewrite kept_cons. specialize (IH Hnd).
  cbn [JsMap.get]. destruct (decide (k = k')) as [->|Hne].
  - cbn [mbind option_bind]. destruct (defined v); cbn [JsMap.get]; [by rewrite decide_True|].
    rewrite IH. by assert (JsMap.get k' ps = None) as -> by by apply JsMap.get_None.
  - rewrite <- IH. destruct (defined v); [|done]. cbn [JsMap.get]. by rewrite decide_False.
Qed.

Lemma keyed_item l v : fold_right (fun d acc => keyed d /\ acc) True l -> v ∈ l -> keyed v.
Proof. induction l as [|d l IH]; intros Hl Hin; [by apply elem_of_nil in Hin|]. destruct Hl. apply elem_of_cons in Hin as [->|Hin]; [done|by apply IH]. Qed.

Lemma keyed_entry (ps : props) p : fold_right (fun p acc => keyed p.2 /\ acc) True ps -> p ∈ ps -> keyed p.2.
Proof. induction ps as [|q ps IH]; intros Hps Hin; [by apply elem_of_nil in Hin|]. destruct Hps. apply elem_of_cons in Hin as [->|Hin]; [done|by apply IH]. Qed.

Section types.
Context `{Platform} (D : list (jsstr * PiSchema)) (HD : Forall (fun d => strict d.2 = true) D).

Lemma strict_named name s : JsMap.get name D = Some s -> strict s = true.
Proof. intros Hg%JsMap.get_Some_elem. rewrite Forall_forall in HD. by apply (HD (name, s)). Qed.

Lemma strict_property (ps : list (jsstr * PiSchema)) a k s : forallb (fun p => strict p.2) ps && strict_additional a = true -> (k, s) ∈ ps -> strict (unwrapped s) = true.
Proof.
  intros [Hps _]%andb_true_iff Hin. rewrite forallb_Forall, Forall_forall in Hps. specialize (Hps (k, s) Hin). cbn in Hps. by destruct s.
Qed.

Lemma static_defined : (forall s v, Static D s v -> strict s = true -> defined v = true) /\
  (forall a v, additional_type D a v -> forall s, a = SchemaAdditional s -> strict s = true -> defined v = true).
Proof.
  apply (Static_both H D (fun s v => strict s = true -> defined v = true)
    (fun a v => forall s, a = SchemaAdditional s -> strict s = true -> defined v = true)); try done.
  - intros l d v Hv _. by destruct l, v.
  - intros l d s v Hin _ IH Hl. apply IH. cbn [strict] in Hl. rewrite forallb_Forall, Forall_forall in Hl. by apply Hl.
  - intros name d s v Hs _ IH _. apply IH. by eapply strict_named.
  - intros defs ref d s v Hs _ IH _. apply IH. by eapply strict_named.
  - intros s v _ IH s' [= <-] Hs. by apply IH.
Qed.

Lemma static_strip : (forall s v, Static D s v -> strict s = true -> keyed v -> Static D s (strip v)) /\
  (forall a v, additional_type D a v -> strict_additional a = true -> keyed v -> additional_type D a (strip v)).
Proof.
  apply (Static_both H D (fun s v => strict s = true -> keyed v -> Static D s (strip v))
    (fun a v => strict_additional a = true -> keyed v -> additional_type D a (strip v))); try by (intros; constructor).
  - intros l d v Hv _ _. constructor. by destruct l, v.
  - intros ps d a o Hreq Hps IHps Hex IHex Hstrict [Hnd Hk]. cbn [strip]. fold (kept o). change (forallb (fun p => strict p.2) ps && strict_additional a = true) in Hstrict. constructor.
    + intros k s Hin Ho. specialize (Hreq k s Hin Ho). unfold JsMap.has in *. rewrite get_kept by done. destruct (JsMap.get k o) as [v|] eqn:Hg; [|done]. cbn.
      rewrite (proj1 static_defined _ _ (Hps k s v Hin Hg)); [done|by eapply strict_property].
    + intros k s w Hin. rewrite get_kept by done. intros (v & Hg & Hw)%bind_Some. destruct (defined v); [|done]. injection Hw as <-.
      apply (IHps k s v); [done|done|by eapply strict_property|]. by apply (keyed_entry o (k, v)), JsMap.get_Some_elem.
    + intros k w (v & Hin & Hd & ->)%elem_kept Hk'. apply andb_true_iff in Hstrict as [_ Ha].
      by apply (IHex k v); [..|apply (keyed_entry o (k, v))].
  - intros items o l Hlen Hl IH Hs Hk. cbn [strip]. constructor; [by rewrite length_map|].
    intros w (v & -> & Hin)%list_elem_of_fmap. apply IH; [done|done|by eapply keyed_item].
  - intros l d s v Hin _ IH Hl Hk. econstructor; [done|]. apply IH; [|done]. cbn [strict] in Hl. rewrite forallb_Forall, Forall_forall in Hl. by apply Hl.
  - intros key s d a o Hr IHr Hex IHex Hstrict [Hnd Hk]. cbn [strip]. fold (kept o). change (strict s && strict_additional a = true) in Hstrict.
    apply andb_true_iff in Hstrict as [Hs Ha]. constructor; intros k w (v & Hin & Hd & ->)%elem_kept Hk'.
    + by apply (IHr k v); [..|apply (keyed_entry o (k, v))].
    + by apply (IHex k v); [..|apply (keyed_entry o (k, v))].
  - intros name d s v Hs _ IH _ Hk. econstructor; [done|]. apply IH; [by eapply strict_named|done].
  - intros defs ref d s v Hs _ IH _ Hk. econstructor; [done|]. apply IH; [by eapply strict_named|done].
  - intros s v _ IH Hs Hk. constructor. by apply IH.
Qed.
End types.

(** Values in a well-formed heap have one property of each name. *)
Lemma read_keyed h bare : wf_heap h -> forall fuel v d, to_data (H := heap_values h bare) fuel v = Some d -> keyed d.
Proof.
  intros Hh. induction fuel as [|fuel IH]; intros v d; [done|]. cbn [to_data]. destruct v as [| |b|n|s|l|o]; cbn; try (by intros [= <-]); try done.
  destruct (h !! l) as [[bs|items|es sym|]|] eqn:Hl; cbn; try done.
  - intros (ds & Hds & ->)%fmap_Some. apply mapM_Some in Hds. cbn [keyed]. clear Hl.
    induction Hds as [|[v|] d items ds Hd _ IHds]; cbn; [done|split; [by eapply IH|done]|by injection Hd as <-].
  - case_decide; cbn; [done|]. intros (ds & Hds & ->)%fmap_Some. apply mapM_Some in Hds. destruct (Hh l _ Hl) as [Ho _]. cbn [keyed].
    assert (ds.*1 = es.*1) as Hkeys.
    { clear -Hds. induction Hds as [|[k v] [k' d] es ds Hd _ IHds]; [done|]. apply fmap_Some in Hd as (d' & _ & [= -> ->]). cbn. by rewrite IHds. }
    split; [rewrite Hkeys; by apply ordered_NoDup|]. clear -Hds IH.
    induction Hds as [|[k v] [k' d] es ds Hd _ IHds]; cbn; [done|]. apply fmap_Some in Hd as (d' & Hd & [= -> ->]). split; [by eapply IH|done].
Qed.
