(* ===== verification/ProtocolCodec.v ===== *)
(** Messages on the wire: [packages/protocol/src/codec.ts].

    A message is validated, encoded to CBOR and framed; a decoder splits the bytes it is given
    into frames, decodes each and validates the result.  [fuel] bounds the validation only. *)
From S2P Require Import Prelude JsNumber JsText JsObject JsData Schema CborWriter CborValue CborEncoder CborDecoder Framing ProtocolSchemas ProtocolValue.
Local Open Scope Z_scope.

(** [ProtocolOverflow] is a validation that did not end within its fuel. *)
Inductive protocol_error : Type :=
  | ProtocolValidationError (message : string)
  | ProtocolOptionsError (e : frame_error)
  | ProtocolOverflow.

Inductive side : Type := Client | Server.

Definition kind (k : side) : string := match k with Client => "client" | Server => "server" end.
Definition message_schema (k : side) : PiSchema := match k with Client => ClientMessageSchema | Server => ServerMessageSchema end.

Section codec.
Context `{Platform} (fuel : nat).

(** [parseClientMessage] and [parseServerMessage], which return the value they are given. *)
Definition parseMessage {V} `{JsValues V} (k : side) (value : V) : result protocol_error V :=
  let invalid := ProtocolValidationError ("Invalid " +:+ kind k +:+ " protocol message") in
  isValue ← or_throw ProtocolOverflow (isProtocolValue fuel false ∅ value);
  throw_if (negb isValue) invalid;;
  d ← or_throw ProtocolOverflow (to_data fuel value);
  match Check fuel (build (message_schema k)) d with
  | Ok true => Ok value
  | Ok false => Err invalid
  | Err _ => Err ProtocolOverflow
  end.

Definition boundedErrorMessage (message : string) : string :=
  if (String.length message <=? 500)%nat then message else String.substring 0 497 message +:+ "...".

Definition cbor_message (e : cbor_error) : string :=
  match e with CborError m | CborRangeError m | CborTypeError m => m | OutOfFuel => "" end.
Definition frame_message (e : frame_error) : string :=
  match e with FrameError m | FrameRangeError m => m | FrameFuel => "" end.

(** [try { ... } catch (error) { throw new ProtocolValidationError(prefix + message) }]. *)
Definition wrapped {E A} (message : E -> string) (prefix : string) (m : result E A) : result protocol_error A :=
  match m with
  | Ok a => Ok a
  | Err e => Err (ProtocolValidationError (prefix +:+ boundedErrorMessage (message e)))
  end.

Definition frame_limit (options : option FrameDecoderOptions) : jsnum :=
  default (JInt DEFAULT_MAX_FRAME_LENGTH) (options ≫= o_maxFrameLength).
Definition cbor_options (limit : jsnum) : option CborOptions := Some (mkCborOptions (Some limit) None None).

(** [encodeClientMessage] and [encodeServerMessage], on a value in a heap. *)
Definition encodeProtocolMessage (h : heap) (bare : gset loc) (k : side) (value : jsval) (options : option FrameDecoderOptions)
    : result protocol_error (list Z) :=
  validated ← parseMessage (H0 := heap_values h bare) k value;
  let prefix := ("Unable to encode " +:+ kind k +:+ " protocol message: ")%string in
  let maxFrameLength := frame_limit options in
  payload ← wrapped cbor_message prefix (encodeCbor h validated (cbor_options maxFrameLength));
  frame ← wrapped frame_message prefix (encodeFrame payload);
  wrapped frame_message prefix (assertCompleteFrame frame (Some (mkFrameDecoderOptions (Some maxFrameLength))));;
  Ok frame.

(** [ValidatedMessageDecoder]. *)
Record MessageDecoder := mkMessageDecoder {
  md_failed : bool;
  md_frames : FrameDecoder;
  md_kind : side;
  md_maxFrameLength : jsnum;
}.

Definition new_MessageDecoder (k : side) (options : option FrameDecoderOptions) : result protocol_error MessageDecoder :=
  match new_FrameDecoder options with
  | Ok frames => Ok (mkMessageDecoder false frames k (frame_limit options))
  | Err e => Err (ProtocolOptionsError e)
  end.

Definition decodeMessage (d : MessageDecoder) (frame : list Z) : result protocol_error cbor_value :=
  t ← wrapped cbor_message ("Invalid " +:+ kind (md_kind d) +:+ " protocol frame: ") (decodeCbor frame (cbor_options (md_maxFrameLength d)));
  parseMessage (md_kind d) t.

Definition set_frames (failed : bool) (frames : FrameDecoder) (d : MessageDecoder) : MessageDecoder :=
  mkMessageDecoder failed frames (md_kind d) (md_maxFrameLength d).

Definition has_failed (d : MessageDecoder) : protocol_error :=
  ProtocolValidationError (kind (md_kind d) +:+ " message decoder has failed").

Definition md_push (d : MessageDecoder) (chunk : list Z) : MessageDecoder * result protocol_error (list cbor_value) :=
  if md_failed d then (d, Err (has_failed d))
  else
    let '(frames, r) := push (md_frames d) chunk in
    let messages :=
      payloads ← wrapped frame_message ("Invalid " +:+ kind (md_kind d) +:+ " protocol frame: ") r;
      mfold (fun messages frame => m ← decodeMessage d frame; Ok (messages ++ [m])) [] payloads in
    (set_frames (negb (is_ok messages)) frames d, messages).

(** Method [end]. *)
Definition md_end (d : MessageDecoder) : MessageDecoder * result protocol_error unit :=
  if md_failed d then (d, Err (has_failed d))
  else
    let '(frames, r) := end_ (md_frames d) in
    (set_frames (negb (is_ok r)) frames d, wrapped frame_message ("Invalid " +:+ kind (md_kind d) +:+ " protocol framing: ") r).

(** The chunks of a stream, up to the first error. *)
Fixpoint md_push_all (d : MessageDecoder) (chunks : list (list Z)) : MessageDecoder * result protocol_error (list cbor_value) :=
  match chunks with
  | [] => (d, Ok [])
  | chunk :: chunks' =>
      match md_push d chunk with
      | (d, Ok messages) => let '(d, r) := md_push_all d chunks' in (d, (fun messages' => messages ++ messages') <$> r)
      | r => r
      end
  end.
End codec.

(** [isSupportedProtocolVersion]. *)
Definition isSupportedProtocolVersion (version : jsnum) : bool :=
  isInteger version && num_strict_eq version (JInt PROTOCOL_VERSION).
