(* ===== verification/ProtocolTheorems.v ===== *)
(** The theorems on schemas and protocol messages, with their instances. *)
From S2P Require Import Prelude JsNumber JsText JsObject JsData Schema SchemaTypes CborWriter CborValue CborEncoder CborDecoder Framing ProtocolSchemas ProtocolValue ProtocolCodec.
Local Open Scope Z_scope.

(** ** The message schemas *)

Section messages.
Context `{Platform}.

Definition message_definitions (k : side) : list (jsstr * PiSchema) := match k with Client => [] | Server => JsonValueDefinitions end.

Lemma message_collected k : collectDefs 40 [] (build (message_schema k)) = Ok (built_definitions (message_definitions k)).
Proof. destruct k; [apply client_definitions|apply server_definitions]. Qed.

Lemma message_well_formed k : well_formed (message_definitions k) (message_schema k).
Proof.
  assert (scoped_at (message_definitions k) false (message_schema k) = true) as Hs by (destruct k; vm_compute; reflexivity).
  split; [exact Hs|]. destruct k; split; try by_decide; by repeat constructor.
Qed.

Lemma message_strict k : strict (message_schema k) = true /\ Forall (fun d => strict d.2 = true) (message_definitions k).
Proof. by destruct k; split; repeat constructor. Qed.

Lemma parse_message {V} `{JsValues V} fuel k (v v' : V) : parseMessage fuel k v = Ok v' ->
  v' = v /\ exists d, to_data fuel v = Some d /\ Static (message_definitions k) (message_schema k) d.
Proof.
  unfold parseMessage. intros (ok & _ & (_ & _ & (d & Hd & Hc)%bind_Ok)%bind_Ok)%bind_Ok. apply or_throw_Ok in Hd.
  destruct (Check _ _ d) as [[]|] eqn:Hok; try done. injection Hc as <-. split; [done|]. exists d. split; [done|].
  by apply (check_returns _ _ _ _ _ _ (message_well_formed k) (message_collected k) Hok).
Qed.

(** A decoded tree of the message type is accepted, given enough fuel. *)
Lemma parse_tree k t : no_bytes t = true -> Static (message_definitions k) (message_schema k) (of_cbor t) ->
  exists enough, forall fuel, (enough <= fuel)%nat -> parseMessage fuel k t = Ok t.
Proof.
  intros Hb Ht. destruct (check_type_exact _ _ (of_cbor t) _ (message_well_formed k) (message_collected k)) as (enough & Henough).
  exists (Nat.max enough (tree_size t)). intros fuel Hfuel. unfold parseMessage. rewrite protocol_tree, data_tree by (done || lia). rewrite Hb.
  cbn [or_throw negb throw_if mbind result_bind]. destruct (Henough fuel ltac:(lia)) as (ok & -> & Hok). by rewrite (proj2 Hok Ht).
Qed.
End messages.

(** ** The bytes of an encoding *)

Lemma head_bytes_bytes m v : 0 <= m < 8 -> 0 <= v -> Forall is_byte (head_bytes m v).
Proof.
  intros Hm Hv. unfold head_bytes.
  destruct (Z.ltb_spec v 24); [repeat constructor; unfold is_byte; lia|]. destruct (Z.leb_spec v 0xff); [repeat constructor; unfold is_byte; lia|].
  repeat case_match; (constructor; [unfold is_byte; lia|apply be_bytes_are_bytes]).
Qed.

Lemma encode_text_bytes s : Forall is_code_unit s -> Forall is_byte (encode_text s).
Proof. intros Hs. unfold encode_text. apply Forall_app. split; [apply head_bytes_bytes; lia|by apply text_encode_bytes]. Qed.

Lemma encode_tree_bytes t : wf_tree t -> Forall is_byte (encode_tree t).
Proof.
  induction t as [|b|n|s|bs|ts IH|es IH] using cbor_value_ind'; intros Hwf; cbn [encode_tree].
  - by repeat constructor.
  - by destruct b; repeat constructor.
  - destruct n as [z|bits]; cbn [encode_num]; [|constructor; [done|apply be_bytes_are_bytes]].
    rewrite Z.geb_leb. destruct (Z.leb_spec 0 z); apply head_bytes_bytes; lia.
  - by apply encode_text_bytes.
  - apply Forall_app. split; [apply head_bytes_bytes; lia|exact Hwf].
  - apply Forall_app. split; [apply head_bytes_bytes; lia|]. apply wf_tree_array in Hwf. apply Forall_concat, Forall_map.
    rewrite Forall_forall in IH, Hwf |- *. intros t Ht. by apply IH, Hwf.
  - apply Forall_app. split; [apply head_bytes_bytes; lia|]. apply wf_tree_map in Hwf as [_ Hwf]. apply Forall_concat, Forall_map.
    rewrite Forall_forall in IH, Hwf |- *. intros e He. destruct (Hwf e He). apply Forall_app. split; [by apply encode_text_bytes|by apply IH].
Qed.

(** ** One message *)

Section codec.
Context `{Platform}.

Lemma resolve_limit options : resolveMaxFrameLength (Some (mkFrameDecoderOptions (Some (frame_limit options)))) = resolveMaxFrameLength options.
Proof. done. Qed.

(** A frame of a message: its payload decodes to a tree that is accepted. *)
Definition carries (k : side) options (m : Z) (frame : list Z) (t : cbor_value) : Prop :=
  exists payload, encodeFrame payload = Ok frame /\ Forall is_byte payload /\ blen payload <= m /\
    decodeCbor payload (cbor_options (frame_limit options)) = Ok t /\
    exists enough, forall fuel', (enough <= fuel')%nat -> parseMessage fuel' k t = Ok t.

(** What encoding a message returns is one frame, of the tree of its data. *)
Lemma encoded_message fuel h bare k v options frame m : wf_heap h -> wf_val v -> resolveMaxFrameLength options = Ok m ->
  encodeProtocolMessage fuel h bare k v options = Ok frame ->
  exists t, carries k options m frame t /\ repr h v t /\ Static (message_definitions k) (message_schema k) (of_cbor t) /\
    exists d, to_data (H := heap_values h bare) fuel v = Some d /\ of_cbor t = strip d.
Proof.
  intros Hh Hv Hm (v' & Hp & (payload & Hc & (f & Hf & ([] & Ha & Heq)%bind_Ok)%bind_Ok)%bind_Ok)%bind_Ok.
  injection Heq as ->. apply parse_message in Hp as (-> & d & Hd & Hs).
  assert (forall E A (msg : E -> string) prefix (r : result E A) a, wrapped msg prefix r = Ok a -> r = Ok a) as Hw by (intros ? ? ? ? [] ?; cbn; congruence).
  apply Hw in Hc, Hf, Ha. clear Hw. apply encodeCbor_sound in Hc as (o & t & Ho & Hr & Hwf & Hconf & Hlen & ->); [|done..].
  destruct (read_strip h bare t _ _ _ Hr Hd) as [Hstrip Hb]. destruct (message_strict k) as [Hst HD].
  pose proof (proj1 (static_strip _ HD) _ _ Hs Hst (read_keyed h bare Hh _ _ _ Hd)) as Ht. rewrite Hstrip in Ht.
  exists t. split_and!; [|done|done|by exists d]. exists (encode_tree t). split_and!; [done|by apply encode_tree_bytes| |by eapply decodeCbor_tree|by apply parse_tree].
  pose proof Hf as [Hlimit ->]%encodeFrame_bytes. unfold FRAME_MAX_UINT32 in Hlimit. unfold assertCompleteFrame in Ha.
  apply bind_Ok in Ha as (_ & _ & (m' & Hm' & (_ & Hle%throw_if_Ok & _)%bind_Ok)%bind_Ok). rewrite resolve_limit, Hm in Hm'. injection Hm' as <-.
  rewrite header_value_be in Hle by lia. lia.
Qed.

Lemma carried_payloads k options m frames ts : Forall2 (carries k options m) frames ts ->
  exists payloads, Forall2 (fun p f => encodeFrame p = Ok f) payloads frames /\ Forall (fun p => Forall is_byte p /\ blen p <= m) payloads /\
    exists enough, forall fuel', (enough <= fuel')%nat ->
    forall d, md_kind d = k -> md_maxFrameLength d = frame_limit options -> Forall2 (fun p t => decodeMessage fuel' d p = Ok t) payloads ts.
Proof.
  induction 1 as [|frame t frames ts (p & Hf & Hb & Hlen & Hd & enough2 & Hparse) _ (payloads & Hfs & Hps & enough1 & Hdec)].
  { exists []. split_and!; [constructor..|]. exists 0%nat. intros. constructor. }
  exists (p :: payloads). split_and!; [by constructor|by constructor|].
  exists (Nat.max enough1 enough2). intros fuel' Hfuel d Hk Hl. constructor; [|by apply Hdec; [lia|..]].
  unfold decodeMessage. rewrite Hl, Hd, Hk. cbn [wrapped mbind result_bind]. apply Hparse. lia.
Qed.

(** ** The stream *)

Lemma push_messages fuel chunks : forall d fd1 payloads ts, md_failed d = false -> push_all (md_frames d) chunks = (fd1, Ok payloads) ->
  Forall2 (fun p t => decodeMessage fuel d p = Ok t) payloads ts -> md_push_all fuel d chunks = (set_frames false fd1 d, Ok ts).
Proof.
  induction chunks as [|chunk chunks IH]; intros d fd1 payloads ts Hf; cbn [push_all md_push_all].
  { intros [= <- <-] Hts. inversion Hts; subst. unfold set_frames. by destruct d; cbn in Hf; subst. }
  destruct (push (md_frames d) chunk) as [fd r] eqn:Hpush. destruct r as [fs|e]; [|by intros [=]].
  destruct (push_all fd chunks) as [fd2 r2] eqn:Hrest. destruct r2 as [fs2|e]; [|by intros [=]]. intros [= -> <-] Hts.
  apply Forall2_app_inv_l in Hts as (ts1 & ts2 & Hts1 & Hts2 & ->). unfold md_push. rewrite Hf, Hpush. cbn [wrapped mbind result_bind].
  assert (forall acc, mfold (fun messages frame => m ← decodeMessage fuel d frame; Ok (messages ++ [m])) acc fs = Ok (acc ++ ts1)) as Hfold.
  { clear -Hts1. induction Hts1 as [|p t fs ts1 Ht _ IH]; intros acc; cbn [mfold]; [by rewrite app_nil_r|].
    rewrite Ht. cbn [mbind result_bind]. by rewrite IH, <- app_assoc. }
  rewrite Hfold. cbn [app is_ok negb]. rewrite (IH (set_frames false fd d) fd1 fs2 ts2 eq_refl Hrest); [done|]. exact Hts2.
Qed.

(** Frames cut into any chunks are decoded to their trees. *)
Lemma stream_decoded k options d m frames ts chunks : new_MessageDecoder k options = Ok d -> resolveMaxFrameLength options = Ok m ->
  Forall2 (carries k options m) frames ts -> concat chunks = concat frames ->
  exists enough, forall fuel', (enough <= fuel')%nat -> exists d1 d2, md_push_all fuel' d chunks = (d1, Ok ts) /\ md_end d1 = (d2, Ok ()).
Proof.
  intros Hnew Hm Hframes Hchunks. unfold new_MessageDecoder in Hnew. destruct (new_FrameDecoder options) as [fd|e] eqn:Hfd; [|done]. injection Hnew as <-.
  pose proof (new_decoder_ok _ _ Hfd) as (_ & _ & Hm'). rewrite Hm in Hm'. injection Hm' as ->.
  destruct (carried_payloads _ _ _ _ _ Hframes) as (payloads & Hfs & Hps & enough & Hdec). exists enough. intros fuel' Hfuel.
  destruct (frames_decoded options fd payloads frames chunks Hfd Hfs Hps Hchunks) as (fd1 & fd2 & Hpush & Hend & _).
  eexists _, _. split.
  - apply (push_messages fuel' chunks _ fd1 payloads ts); [done|exact Hpush|]. by apply Hdec.
  - unfold md_end. cbn [set_frames md_failed md_frames]. by rewrite Hend.
Qed.

Lemma decoder_limit k options d : new_MessageDecoder k options = Ok d -> exists m, resolveMaxFrameLength options = Ok m.
Proof.
  unfold new_MessageDecoder. destruct (new_FrameDecoder options) as [fd|e] eqn:Hfd; [|done]. intros _.
  pose proof (new_decoder_ok _ _ Hfd) as (_ & _ & Hm). by eexists.
Qed.

Lemma messages_decoded fuel h bare k vs frames chunks options d : wf_heap h -> Forall wf_val vs -> new_MessageDecoder k options = Ok d ->
  Forall2 (fun v frame => encodeProtocolMessage fuel h bare k v options = Ok frame) vs frames -> concat chunks = concat frames ->
  exists ts, Forall2 (repr h) vs ts /\ exists enough, forall fuel', (enough <= fuel')%nat ->
    exists d1 d2, md_push_all fuel' d chunks = (d1, Ok ts) /\ md_end d1 = (d2, Ok ()).
Proof.
  intros Hh Hvs Hnew Hframes Hchunks. destruct (decoder_limit _ _ _ Hnew) as (m & Hm).
  assert (exists ts, Forall2 (repr h) vs ts /\ Forall2 (carries k options m) frames ts) as (ts & Hrs & Hts).
  { clear Hchunks. induction Hframes as [|v frame vs frames Hv _ IH]; [by exists []|]. apply Forall_cons in Hvs as [Hwv Hvs].
    destruct (IH Hvs) as (ts & Hrs & Hts), (encoded_message _ _ _ _ _ _ _ _ Hh Hwv Hm Hv) as (t & Ht & Hr & _). exists (t :: ts). split; by constructor. }
  exists ts. split; [done|]. by eapply stream_decoded.
Qed.
End codec.

Lemma pushed_messages `{Platform} fuel d chunk d' r : md_push fuel d chunk = (d', r) -> md_failed d = false ->
  md_kind d' = md_kind d /\
  match r with
  | Ok ts => md_failed d' = false /\ Forall (fun t => no_bytes t = true /\ Static (message_definitions (md_kind d)) (message_schema (md_kind d)) (of_cbor t)) ts
  | Err _ => md_failed d' = true /\ (forall chunk', md_push fuel d' chunk' = (d', Err (has_failed d'))) /\ md_end d' = (d', Err (has_failed d'))
  end.
Proof.
  unfold md_push at 1. intros Hpush Hf. rewrite Hf in Hpush. destruct (push (md_frames d) chunk) as [fd rf]. injection Hpush as <- <-. split; [done|].
  destruct (wrapped _ _ rf ≫= _) as [ts|e] eqn:Hr; cbn [is_ok negb]; [|split_and!; [done|by intros|done]]. split; [done|].
  apply bind_Ok in Hr as (payloads & _ & Hr). clear Hf rf.
  assert (forall acc ts, mfold (fun messages frame => m ← decodeMessage fuel d frame; Ok (messages ++ [m])) acc payloads = Ok ts ->
    Forall (fun t => no_bytes t = true /\ Static (message_definitions (md_kind d)) (message_schema (md_kind d)) (of_cbor t)) acc ->
    Forall (fun t => no_bytes t = true /\ Static (message_definitions (md_kind d)) (message_schema (md_kind d)) (of_cbor t)) ts) as Hall; [|by apply (Hall [] ts)].
  clear ts Hr. induction payloads as [|p payloads IH]; intros acc ts; cbn [mfold]; [by intros [= <-]|].
  intros (acc' & (t & Ht & [= <-])%bind_Ok & Hrest)%bind_Ok Hacc. apply (IH _ _ Hrest). apply Forall_app. split; [done|]. constructor; [|done].
  unfold decodeMessage in Ht. apply bind_Ok in Ht as (t' & _ & Hp). apply parse_message in Hp as (-> & dd & Hd & Hs).
  by apply data_tree_returns in Hd as [Hb ->].
Qed.

(** C25: Validation with enough fuel ends, and accepts exactly the values of the schema's type:
    for a well-formed schema built with the builders, whose definitions are those the
    validator collects, [Check] returns true on the data that has the type and false on any
    other, also for recursive types. *)
Theorem check_decides_static `{Platform} D s v fuel :
  well_formed D s -> collectDefs fuel [] (build s) = Ok (built_definitions D) ->
  exists enough, forall more, (enough <= more)%nat -> exists ok, Check more (build s) v = Ok ok /\ (ok = true <-> Static D s v).
Proof. apply check_type_exact. Qed.

(** C26: Round trip.  Messages of a program's heap that are encoded, sent as one stream of
    bytes and cut into any chunks, are decoded by a decoder of the same side and options, in
    order and as the trees the values unfold to; the decoder then accepts the end. *)
Theorem protocol_round_trip `{Platform} fuel h bare k vs frames chunks options d :
  wf_heap h -> Forall wf_val vs -> new_MessageDecoder k options = Ok d ->
  Forall2 (fun v frame => encodeProtocolMessage fuel h bare k v options = Ok frame) vs frames -> concat chunks = concat frames ->
  exists ts, Forall2 (repr h) vs ts /\ exists enough, forall fuel', (enough <= fuel')%nat ->
    exists d1 d2, md_push_all fuel' d chunks = (d1, Ok ts) /\ md_end d1 = (d2, Ok ()).
Proof. apply messages_decoded. Qed.

(** C27: Whatever bytes a decoder is given, every message it delivers has the type of its side
    and holds no byte string; after an error it has failed, and every later call throws and
    leaves it as it is. *)
Theorem delivered_messages_typed `{Platform} fuel d chunk d' r :
  md_push fuel d chunk = (d', r) -> md_failed d = false ->
  md_kind d' = md_kind d /\
  match r with
  | Ok ts => md_failed d' = false /\ Forall (fun t => no_bytes t = true /\ Static (message_definitions (md_kind d)) (message_schema (md_kind d)) (of_cbor t)) ts
  | Err _ => md_failed d' = true /\ (forall chunk', md_push fuel d' chunk' = (d', Err (has_failed d'))) /\ md_end d' = (d', Err (has_failed d'))
  end.
Proof. apply pushed_messages. Qed.

(** ** Instances *)

Module Messages.

(** A platform without patterns of its own, where number texts are those of the samples. *)
#[export] Instance plain : Platform :=
  {| regexp := fun _ => None; number_to_string := fun _ => js "1.5"; string_to_number := fun _ => JInt 0 |}.

Definition hello : jsobj := OPlain [(js "type", VStr (js "hello")); (js "version", VNum (JInt 1))] false.
Definition list_command : jsobj := OPlain [(js "command", VStr (js "list"))] false.
Definition request : jsobj := OPlain [(js "type", VStr (js "request")); (js "id", VStr (js "r1")); (js "request", VRef 3)] false.
Definition objects : heap := {[1%positive := hello; 2%positive := request; 3%positive := list_command]}.

Definition frame_of (v : jsval) : list Z :=
  match encodeProtocolMessage 30 objects ∅ Client v None with Ok frame => frame | Err _ => [] end.
Definition frames : list (list Z) := [frame_of (VRef 1); frame_of (VRef 2)].
Definition stream : list Z := concat frames.
Definition chunks : list (list Z) := [take 3 stream; take 20 (drop 3 stream); drop 23 stream].

Definition decoder : MessageDecoder :=
  mkMessageDecoder false (mkDecoder [0; 0; 0; 0] 0 DEFAULT_MAX_FRAME_LENGTH [] None 0 None 0 Open) Client (JInt DEFAULT_MAX_FRAME_LENGTH).

Lemma objects_ok : wf_heap objects.
Proof.
  assert (map_Forall (fun _ => wf_obj) objects) as Hall; [|intros l obj Hl; by apply (map_Forall_lookup_1 _ _ _ _ Hall Hl)].
  unfold objects. repeat (apply map_Forall_insert_2; [split; [reflexivity|]; by repeat constructor|]). apply map_Forall_empty.
Qed.

(** Both messages pass, and the stream has two frames. *)
Example stream_sample : (length frames, map length frames, negb (bool_decide ([] ∈ frames))) = (2%nat, [25%nat; 46%nat], true).
Proof. vm_compute. reflexivity. Qed.

(** The pattern of a record matches no key with a line feed: such a property is accepted as a
    JSON value whatever it holds, here undefined. *)
Example record_key_unchecked :
  map (fun key => Check 40 (build JsonValueSchema) (DObj [(key, DUndefined)])) [js "ab"; js "a" ++ [10] ++ js "b"] = [Ok false; Ok true].
Proof. vm_compute. reflexivity. Qed.

End Messages.

Import Messages.

Lemma check_decides_static_witness :
  exists enough, forall more, (enough <= more)%nat -> exists ok,
    Check more (build JsonValueSchema) (DArr [DNull; DObj [(js "k", DNum (JInt 3))]]) = Ok ok /\
    (ok = true <-> Static JsonValueDefinitions JsonValueSchema (DArr [DNull; DObj [(js "k", DNum (JInt 3))]])).
Proof.
  apply (check_decides_static JsonValueDefinitions JsonValueSchema _ 40).
  - split; [vm_compute; reflexivity|]. split; [by_decide|by repeat constructor].
  - vm_compute. reflexivity.
Defined.

Lemma protocol_round_trip_witness :
  exists ts, Forall2 (repr objects) [VRef 1; VRef 2] ts /\ exists enough, forall fuel', (enough <= fuel')%nat ->
    exists d1 d2, md_push_all fuel' decoder chunks = (d1, Ok ts) /\ md_end d1 = (d2, Ok ()).
Proof.
  apply (protocol_round_trip 30 objects ∅ Client [VRef 1; VRef 2] frames chunks None decoder objects_ok).
  - by repeat constructor.
  - vm_compute. reflexivity.
  - repeat constructor; vm_compute; reflexivity.
  - vm_compute. reflexivity.
Defined.

Lemma delivered_messages_typed_witness :
  let '(d', r) := md_push 30 decoder stream in
  md_kind d' = Client /\
  match r with
  | Ok ts => md_failed d' = false /\ Forall (fun t => no_bytes t = true /\ Static [] ClientMessageSchema (of_cbor t)) ts
  | Err _ => md_failed d' = true /\ (forall chunk', md_push 30 d' chunk' = (d', Err (has_failed d'))) /\ md_end d' = (d', Err (has_failed d'))
  end.
Proof.
  destruct (md_push 30 decoder stream) as [d' r] eqn:Hpush. exact (delivered_messages_typed 30 decoder stream d' r Hpush eq_refl).
Defined.
