(* ===== verification/SchemaConvert.v ===== *)
(** Conversion of values to a schema: [Value.Convert] of [packages/ai/src/schema.ts].

    The code changes objects and arrays in place; the values have no sharing, so that a
    conversion is the value it leaves. *)
From S2P Require Import Prelude JsNumber JsText JsObject JsData Schema.
Local Open Scope Z_scope.

(** [left !== right], where [right] is [left] or a primitive. *)
Definition changed (left right : data) : bool :=
  match left, right with
  | DUndefined, DUndefined | DNull, DNull | DArr _, DArr _ | DObj _, DObj _ | DFun, DFun => false
  | DBool a, DBool b => negb (Bool.eqb a b)
  | DNum a, DNum b => negb (num_strict_eq a b)
  | DStr a, DStr b => bool_decide (a <> b)
  | _, _ => true
  end.

(** [value[name] = v]. *)
Definition assign (name : jsstr) (v : data) (value : props) : props := define name v value.

Fixpoint has_function (d : data) : bool :=
  match d with
  | DFun => true
  | DArr l => existsb has_function l
  | DObj ps => existsb (fun p => has_function p.2) ps
  | _ => false
  end.

Definition structuredClone (d : data) : checked data := if has_function d then Err NotCloned else Ok d.

Section convert.
Context `{Platform}.

Definition coerce_number (accept : jsnum -> bool) (value : data) : data :=
  match value with
  | DNull => DNum (JInt 0)
  | DStr s => if has_text s && accept (string_to_number s) then DNum (string_to_number s) else value
  | DBool b => DNum (JInt (if b then 1 else 0))
  | _ => value
  end.

Definition coercePrimitive (value : data) (type : jsstr) : data :=
  if decide (type = js "number") then coerce_number isFinite value
  else if decide (type = js "integer") then coerce_number isInteger value
  else if decide (type = js "boolean") then
    match value with
    | DNull => DBool false
    | DStr s => if decide (s = js "true") then DBool true else if decide (s = js "false") then DBool false else value
    | DNum n => if num_strict_eq n (JInt 1) then DBool true else if num_strict_eq n (JInt 0) then DBool false else value
    | _ => value
    end
  else if decide (type = js "string") then
    match value with
    | DNull => DStr []
    | DNum n => DStr (num_text n)
    | DBool b => DStr (if b then js "true" else js "false")
    | _ => value
    end
  else if decide (type = js "null") then
    match value with
    | DStr [] | DBool false => DNull
    | DNum n => if num_strict_eq n (JInt 0) then DNull else value
    | _ => value
    end
  else value.

(** The first type that changes the value. *)
Fixpoint coerce_first (value : data) (types : list jsstr) : data :=
  match types with
  | [] => value
  | type :: types' => let coerced := coercePrimitive value type in if changed coerced value then coerced else coerce_first value types'
  end.

Section recursion.
Context (rec : props -> data -> checked data) (check : props -> data -> checked bool).

(** [value[name] = convert(sub, value[name])]. *)
Definition convert_property (sub : props) (value : props) (name : jsstr) : checked props :=
  v ← rec sub (get_property name value); Ok (assign name v value).

Definition convert_properties (target value : props) : checked props :=
  mfold (fun value '(name, sub) =>
    match isPlainObject sub with
    | Some o => if has_property name value then convert_property o value name else Ok value
    | None => Ok value
    end) value (property_schemas target).

Definition convert_patterns (target value : props) : checked props :=
  match isPlainObject (field "patternProperties" target) with
  | Some patterns =>
      mfold (fun value '(pattern, sub) =>
        match isPlainObject sub with
        | Some o =>
            test ← or_throw (BadPattern pattern) (new_RegExp pattern);
            mfold (fun value name => if test name : bool then convert_property o value name else Ok value) value (object_keys value)
        | None => Ok value
        end) value patterns
  | None => Ok value
  end.

Definition convert_additional (target value : props) : checked props :=
  match isPlainObject (field "additionalProperties" target) with
  | Some o =>
      mfold (fun value name =>
        if bool_decide (name ∈ object_keys (property_schemas target)) then Ok value else convert_property o value name)
        value (object_keys value)
  | None => Ok value
  end.

Definition convert_object (target value : props) : checked props :=
  value ← convert_properties target value;
  value ← convert_patterns target value;
  convert_additional target value.

Fixpoint convert_tuple (value items : list data) : checked (list data) :=
  match value, items with
  | v :: value', item :: items' =>
      v ← match isPlainObject item with Some o => rec o v | None => Ok v end;
      rest ← convert_tuple value' items';
      Ok (v :: rest)
  | _, _ => Ok value
  end.

Fixpoint convert_all (item : props) (value : list data) : checked (list data) :=
  match value with
  | [] => Ok []
  | v :: value' => v ← rec item v; rest ← convert_all item value'; Ok (v :: rest)
  end.

Definition convert_array (target : props) (value : list data) : checked (list data) :=
  match field "items" target with
  | DObj item => convert_all item value
  | DArr items => convert_tuple value items
  | _ => Ok value
  end.

(** The first branch that accepts the value as it is. *)
Fixpoint accepted_by (branches : list props) (value : data) : checked bool :=
  match branches with
  | [] => Ok false
  | branch :: branches' => ok ← check branch value; if ok : bool then Ok true else accepted_by branches' value
  end.

(** The first branch that accepts a converted copy of the value. *)
Fixpoint converted_by (branches : list props) (value : data) : checked (option data) :=
  match branches with
  | [] => Ok None
  | branch :: branches' =>
      candidate ← structuredClone value;
      coerced ← rec branch candidate;
      ok ← check branch coerced;
      if ok : bool then Ok (Some coerced) else converted_by branches' value
  end.

Definition convertUnion (branchesValue : list data) (value : data) : checked data :=
  let branches := objects branchesValue in
  accepted ← accepted_by branches value;
  if accepted : bool then Ok value
  else converted ← converted_by branches value; Ok (default value converted).

Definition convert_parts (target : props) (value : data) : checked data :=
  match value with
  | DObj o => DObj <$> convert_object target o
  | DArr l => DArr <$> convert_array target l
  | _ => Ok value
  end.

Definition convert_types (target : props) (value : data) : data :=
  match typeList target with
  | [] => value
  | types => if existsb (matchesType value) types then value else coerce_first value types
  end.

Definition convertTarget (target : props) (value : data) : checked data :=
  value ← match as_array (field "allOf" target) with
          | Some items => mfold (fun value item => rec item value) value (objects items)
          | None => Ok value
          end;
  match as_array (field "anyOf" target) with
  | Some branches => convertUnion branches value
  | None =>
      match as_array (field "oneOf" target) with
      | Some branches => convertUnion branches value
      | None => convert_parts target (convert_types target value)
      end
  end.
End recursion.

(** [checkWithContext]. *)
Definition checkWithContext (fuel : nat) (defs : definitions) (node : props) (value : data) : checked bool :=
  errs ← validateNode fuel defs node value [];
  Ok (bool_decide (length errs = 0%nat)).

Fixpoint convertNode (fuel : nat) (defs : definitions) (node : props) (value : data) : checked data :=
  match fuel with
  | O => Err StackOverflow
  | S fuel' => convertTarget (convertNode fuel' defs) (checkWithContext fuel' defs) (resolveRef node defs) value
  end.

(** [Value.Convert]. *)
Definition Convert (fuel : nat) (schema : props) (value : data) : checked data :=
  defs ← collectDefs fuel [] schema;
  convertNode fuel defs schema value.
End convert.
