(* ===== verification/Validation.v ===== *)
(** Validation of the arguments of a tool call: [packages/ai/src/utils/validation.ts].

    The arguments a model sends are copied, null values of optional properties are dropped,
    and texts, numbers and truth values are coerced to the types the tool's schema names;
    the result is then checked.

    The coercion changes objects in place and a union returns a copy, so that the code asks
    whether the coerced arguments are still the same object: a coercion gives the value and,
    when it is another object, what the object it was given holds. *)
From S2P Require Import Prelude JsNumber JsText JsObject JsData Schema SchemaConvert.
Local Open Scope Z_scope.

Inductive validation_failure : Type :=
  | SchemaFailure (e : schema_failure)
  | ToolNotFound (name : jsstr)
  | InvalidArguments (name errors : jsstr) (received : data).

Definition lift_schema {A} (m : checked A) : result validation_failure A :=
  match m with Ok a => Ok a | Err e => Err (SchemaFailure e) end.

(** [JsonSchemaObject | undefined]. *)
Definition sub_schema (v : data) : checked props := or_throw IllTyped (isPlainObject v).

(** [properties?: Record<string, JsonSchemaObject>]. *)
Definition schema_record (v : data) : checked (option props) :=
  match v with DUndefined => Ok None | DObj o => Ok (Some o) | _ => Err IllTyped end.

(** [allOf?: JsonSchemaObject[]] and the like. *)
Definition schema_list (v : data) : checked (option (list props)) :=
  match v with
  | DArr l => Some <$> mfold (fun out v => o ← sub_schema v; Ok (out ++ [o])) [] l
  | _ => Ok None
  end.

Definition matchesJsonType (value : data) (type : jsstr) : bool :=
  bool_decide (type ∈ map js ["number"; "integer"; "boolean"; "string"; "null"; "array"; "object"]%string) && matchesType value type.

(** A value, and what the object passed in holds when the value is another one. *)
Definition coerced : Type := data * option data.

(** [nextValue = f(nextValue)]. *)
Definition then_coerce (next : coerced) (f : data -> checked coerced) : checked coerced :=
  ' (v, held) ← f next.1;
  Ok (v, match next.2 with Some first => Some first | None => held end).

Section validation.
Context `{Platform}.

(** [getSubSchemaValidator(schema)?.Check(value)]. *)
Definition sub_check (fuel : nat) (schema : props) (value : data) : checked bool := Check fuel schema value.

Section coercing.
Context (rec : data -> props -> checked coerced) (check : props -> data -> checked bool).

(** [value[key] = coerceWithJsonSchema(v, schema)]. *)
Definition coerce_property (value : props) (key : jsstr) (v : data) (schema : props) : checked props :=
  ' (v', _) ← rec v schema; Ok (assign key v' value).

Definition coerce_defined (value properties : props) : checked props :=
  mfold (fun value '(key, sub) =>
    if has_property key value then o ← sub_schema sub; coerce_property value key (get_property key value) o else Ok value)
    value properties.

Definition applySchemaObjectCoercion (value schema : props) : checked props :=
  properties ← schema_record (field "properties" schema);
  value ← coerce_defined value (default [] properties);
  match field "additionalProperties" schema with
  | DObj additional =>
      mfold (fun out '(key, v) => if bool_decide (key ∈ object_keys (default [] properties)) then Ok out else coerce_property out key v additional)
        value value
  | _ => Ok value
  end.

Fixpoint coerce_tuple (value items : list data) : checked (list data) :=
  match value, items with
  | v :: value', item :: items' =>
      v ← match item with
          | DUndefined | DNull => Ok v
          | _ => o ← sub_schema item; fst <$> rec v o
          end;
      rest ← coerce_tuple value' items';
      Ok (v :: rest)
  | _, _ => Ok value
  end.

Fixpoint coerce_items (value : list data) (item : props) : checked (list data) :=
  match value with
  | [] => Ok []
  | v :: value' => ' (v', _) ← rec v item; rest ← coerce_items value' item; Ok (v' :: rest)
  end.

Definition applySchemaArrayCoercion (value : list data) (schema : props) : checked (list data) :=
  match field "items" schema with
  | DArr items => coerce_tuple value items
  | DObj item => coerce_items value item
  | _ => Ok value
  end.

Fixpoint first_accepting (value : data) (schemas : list props) : checked bool :=
  match schemas with
  | [] => Ok false
  | schema :: schemas' => ok ← check schema value; if ok : bool then Ok true else first_accepting value schemas'
  end.

Fixpoint first_coerced (value : data) (schemas : list props) : checked coerced :=
  match schemas with
  | [] => Ok (value, None)
  | schema :: schemas' =>
      candidate ← structuredClone value;
      ' (v, _) ← rec candidate schema;
      ok ← check schema v;
      if ok : bool then Ok (v, Some value) else first_coerced value schemas'
  end.

Definition coerceWithUnionSchema (value : data) (schemas : list props) : checked coerced :=
  accepted ← first_accepting value schemas;
  if accepted : bool then Ok (value, None) else first_coerced value schemas.

Definition coerce_all (next : coerced) (schemas : option (list props)) : checked coerced :=
  mfold (fun next nested => then_coerce next (fun v => rec v nested)) next (default [] schemas).

Definition coerce_union (next : coerced) (schemas : option (list props)) : checked coerced :=
  match schemas with
  | Some schemas => then_coerce next (fun v => coerceWithUnionSchema v schemas)
  | None => Ok next
  end.

(** The coercion to the types the schema names. *)
Definition coerce_types (value : data) (schemaTypes : list jsstr) : data :=
  let matchesUnionMember := (1 <? length schemaTypes)%nat && existsb (matchesJsonType value) schemaTypes in
  if (0 <? length schemaTypes)%nat && negb matchesUnionMember then coerce_first value schemaTypes else value.

Definition coerce_parts (value : data) (schema : props) : checked data :=
  let includes type := bool_decide (js type ∈ typeList schema) in
  match value with
  | DObj o => if includes "object"%string then DObj <$> applySchemaObjectCoercion o schema else Ok value
  | DArr l => if includes "array"%string then DArr <$> applySchemaArrayCoercion l schema else Ok value
  | _ => Ok value
  end.

Definition coerce_step (value : data) (schema : props) : checked coerced :=
  allOf ← schema_list (field "allOf" schema);
  anyOf ← schema_list (field "anyOf" schema);
  oneOf ← schema_list (field "oneOf" schema);
  next ← coerce_all (value, None) allOf;
  next ← coerce_union next anyOf;
  next ← coerce_union next oneOf;
  then_coerce next (fun v => v' ← coerce_parts (coerce_types v (typeList schema)) schema; Ok (v', None)).
End coercing.

Fixpoint coerceWithJsonSchema (fuel : nat) (value : data) (schema : props) : checked coerced :=
  match fuel with
  | O => Err StackOverflow
  | S fuel' => coerce_step (coerceWithJsonSchema fuel') (sub_check fuel') value schema
  end.

(** ** Nulls of optional properties *)

Section normalizing.
Context (rec : data -> props -> checked data) (check : props -> data -> checked bool).

Fixpoint normalize_tuple (value items : list data) : checked (list data) :=
  match value, items with
  | v :: value', item :: items' =>
      v ← match item with
          | DUndefined | DNull => Ok v
          | _ => o ← sub_schema item; rec v o
          end;
      rest ← normalize_tuple value' items';
      Ok (v :: rest)
  | _, _ => Ok value
  end.

Fixpoint normalize_items (value : list data) (item : props) : checked (list data) :=
  match value with
  | [] => Ok []
  | v :: value' => v' ← rec v item; rest ← normalize_items value' item; Ok (v' :: rest)
  end.

Definition normalize_array (value : list data) (schema : props) : checked (list data) :=
  match field "items" schema with
  | DArr items => normalize_tuple value items
  | DObj item => normalize_items value item
  | DUndefined | DNull => Ok value
  | _ => Err IllTyped
  end.

Definition required_set (schema : props) : checked (list jsstr) :=
  match field "required" schema with
  | DUndefined | DNull => Ok []
  | DArr l => Ok (strings l)
  | _ => Err IllTyped
  end.

(** Whether the null of a property is dropped. *)
Definition drops_null (required : list jsstr) (key : jsstr) (schema : props) : checked bool :=
  if bool_decide (key ∈ required) then Ok false
  else
    match field "$ref" schema with
    | DStr _ => Ok false
    | _ => ok ← check schema DNull; Ok (negb ok)
    end.

Definition normalize_property (sourceKeys required : list jsstr) (out : props) (p : jsstr * data) : checked props :=
  let '(key, sub) := p in
  if bool_decide (key ∈ sourceKeys) then
    schema ← sub_schema sub;
    next ← rec (get_property key out) schema;
    drop ← match next with DNull => drops_null required key schema | _ => Ok false end;
    Ok (if drop : bool then JsMap.delete key out else assign key next out)
  else Ok out.

Definition normalize_object (source properties schema : props) : checked props :=
  required ← required_set schema;
  mfold (normalize_property (object_keys source) required) (foldl (fun out '(key, v) => assign key v out) [] source) properties.

Definition normalize_step (value : data) (schema : props) : checked data :=
  match value with
  | DArr l => DArr <$> normalize_array l schema
  | DObj source =>
      properties ← schema_record (field "properties" schema);
      match properties with
      | Some properties => DObj <$> normalize_object source properties schema
      | None => Ok value
      end
  | _ => Ok value
  end.
End normalizing.

Fixpoint normalizeOptionalNulls (fuel : nat) (value : data) (schema : props) : checked data :=
  match fuel with
  | O => Err StackOverflow
  | S fuel' => normalize_step (normalizeOptionalNulls fuel') (sub_check fuel') value schema
  end.

(** ** Tool calls *)

(** [path.replace(/^\//, ...).replace(/\//g, ".")]. *)
Definition dotted (instancePath : jsstr) : jsstr :=
  map (fun u => if u =? 47 then 46 else u) (match instancePath with 47 :: rest => rest | path => path end).

Definition required_property (error : PiValidationError) : option jsstr :=
  if decide (ve_keyword error = js "required") then
    match ve_params error with
    | DObj params =>
        match field "requiredProperties" params with
        | DArr (DStr (u :: name) :: _) => Some (u :: name)
        | _ => None
        end
    | _ => None
    end
  else None.

Definition formatValidationPath (error : PiValidationError) : jsstr :=
  let path := dotted (ve_instancePath error) in
  match required_property error with
  | Some name => match path with [] => name | _ => path ++ js "." ++ name end
  | None => match path with [] => js "root" | _ => path end
  end.

Definition error_text (errors : list PiValidationError) : jsstr :=
  match errors with
  | [] => js "Unknown validation error"
  | _ => text_join [10] (map (fun error => js "  - " ++ formatValidationPath error ++ js ": " ++ ve_message error) errors)
  end.

(** Empties the object [held] and gives it the properties of [coercedArgs]; a coercion leaves
    an array an array and an object an object. *)
Definition refill (held coercedArgs : data) : data :=
  match held, coercedArgs with
  | DObj args, DObj o =>
      DObj (foldl (fun args '(key, v) => assign key v args) (map (fun p => (p.1, DUndefined)) args) o)
  | DArr args, DArr l => DArr (l ++ replicate (length args - length l) DUndefined)
  | _, _ => held
  end.

Definition is_object (v : data) : bool := match v with DObj _ | DArr _ => true | _ => false end.

(** The arguments, or the text of the errors. *)
Definition checked_arguments (fuel : nat) (parameters : props) (args : data) (outcome : coerced) : checked (data + jsstr) :=
  let '(coercedArgs, other) := outcome in
  if is_object args && is_object coercedArgs then
    ok ← Check fuel parameters coercedArgs;
    if ok : bool then Ok (inl coercedArgs)
    else
      errors ← Errors fuel parameters (match other with Some held => refill held coercedArgs | None => coercedArgs end);
      Ok (inr (error_text errors))
  else
    ok ← Check fuel parameters coercedArgs;
    if changed coercedArgs args then Ok (inl (if ok : bool then coercedArgs else args))
    else if ok : bool then Ok (inl coercedArgs)
    else errors ← Errors fuel parameters args; Ok (inr (error_text errors)).

Definition arguments_of (fuel : nat) (parameters : props) (arguments : data) : checked (data + jsstr) :=
  cloned ← structuredClone arguments;
  normalized ← normalizeOptionalNulls fuel cloned parameters;
  args ← Convert fuel parameters normalized;
  outcome ← coerceWithJsonSchema fuel args parameters;
  checked_arguments fuel parameters args outcome.

Definition validateToolArguments (fuel : nat) (parameters : props) (name : jsstr) (arguments : data) : result validation_failure data :=
  outcome ← lift_schema (arguments_of fuel parameters arguments);
  match outcome with
  | inl args => Ok args
  | inr errors => Err (InvalidArguments name errors arguments)
  end.

(** The tools are given by name and parameters. *)
Definition validateToolCall (fuel : nat) (tools : list (jsstr * props)) (name : jsstr) (arguments : data) : result validation_failure data :=
  match List.find (fun t => bool_decide (t.1 = name)) tools with
  | Some tool => validateToolArguments fuel tool.2 name arguments
  | None => Err (ToolNotFound name)
  end.
End validation.
