(* ===== verification/ValidationFacts.v ===== *)
(** Arguments that have the type of their schema pass through the steps of a tool call's
    validation as they are. *)
From S2P Require Import Prelude JsNumber JsText JsObject JsData Schema SchemaCheck SchemaTypes SchemaConvert Validation ProtocolValue.
Local Open Scope Z_scope.

(** Every object lists its keys in the order of [Object.keys]. *)
Fixpoint listed (d : data) : bool :=
  match d with
  | DArr l => forallb listed l
  | DObj ps => ordered ps.*1 && forallb (fun p => listed p.2) ps
  | _ => true
  end.

(** No record has a schema for additional properties: the conversion applies such a schema
    to every key. *)
Fixpoint plain_records (s : PiSchema) : bool :=
  let additional a := match a with SchemaAdditional s => plain_records s | _ => true end in
  match s with
  | PiOptional s => plain_records s
  | PiObject ps _ a => additional a && forallb (fun p => plain_records p.2) ps
  | PiArray items _ => plain_records items
  | PiUnion l _ => forallb plain_records l
  | PiRecord _ s _ a => plain_records s && match a with SchemaAdditional _ => false | _ => true end
  | _ => true
  end.

Lemma mfold_same {E S A} (f : S -> A -> result E S) s l : (forall a, a ∈ l -> f s a = Ok s) -> mfold f s l = Ok s.
Proof.
  induction l as [|a l IH]; intros Hf; cbn [mfold]; [done|]. rewrite Hf by left. apply IH. intros b Hb. apply Hf. by right.
Qed.

Lemma assign_same k v o : JsMap.get k o = Some v -> assign k v o = o.
Proof.
  unfold assign, define, JsMap.has. intros Hg. rewrite Hg. induction o as [|[k1 v1] o IH]; cbn [JsMap.get JsMap.set] in *; [done|].
  case_decide; [by simplify_eq|]. by rewrite IH.
Qed.

Lemma copied (o : props) : ordered o.*1 = true -> foldl (fun out '(key, v) => assign key v out) [] o = o.
Proof.
  induction o as [|[k v] o IH] using rev_ind; intros Ho; [done|]. rewrite fmap_app in Ho. rewrite foldl_app, IH by by apply ordered_app_inv in Ho as [? _].
  by apply define_last.
Qed.

Lemma built_keys ps : object_keys (built_properties ps) = ps.*1.
Proof. apply built_names. Qed.

Section values.
Context `{Platform}.

Lemma coerce_matching v t : matchesType v t = true -> coercePrimitive v t = v.
Proof.
  unfold matchesType, coercePrimitive, coerce_number. repeat case_decide; subst; try done; by destruct v.
Qed.

Lemma coerce_types_matching v t : matchesType v t = true -> coerce_types v [t] = v.
Proof. intros Hm. unfold coerce_types. cbn [length Nat.ltb Nat.leb andb negb coerce_first]. rewrite coerce_matching by done. by destruct (changed v v). Qed.

Lemma convert_types_matching target v t : field "type" target = DStr t -> matchesType v t = true -> convert_types target v = v.
Proof. intros Hf Hm. unfold convert_types, typeList. rewrite Hf. cbn [existsb]. by rewrite Hm. Qed.

Definition is_scalar (v : data) : bool := match v with DArr _ | DObj _ => false | _ => true end.

(** ** The head of a schema that names one type *)

Section heads.
Context (target : props) (t : jsstr).
Context (Hany : field "anyOf" target = DUndefined) (Hone : field "oneOf" target = DUndefined) (Hall : field "allOf" target = DUndefined).
Context (Htype : field "type" target = DStr t).

Lemma convert_head rec check v : matchesType v t = true -> convertTarget rec check target v = convert_parts rec target v.
Proof.
  intros Hm. unfold convertTarget. rewrite Hany, Hone, Hall. cbn [as_array mbind result_bind]. by rewrite (convert_types_matching _ _ t).
Qed.

Lemma coerce_head rec check v : matchesType v t = true -> coerce_parts rec v target = Ok v -> coerce_step rec check v target = Ok (v, None).
Proof.
  intros Hm Hparts. unfold coerce_step, coerce_all, coerce_union, then_coerce, typeList. rewrite Hany, Hone, Hall, Htype.
  cbn [schema_list default mfold mbind result_bind fst snd from_option id]. by rewrite coerce_types_matching, Hparts.
Qed.
End heads.

Lemma normalize_scalar rec check schema v : is_scalar v = true -> normalize_step rec check v schema = Ok v.
Proof. by destruct v. Qed.

Lemma normalize_absent rec check schema v : field "properties" schema = DUndefined -> field "items" schema = DUndefined ->
  normalize_step rec check v schema = Ok v.
Proof. intros Hp Hi. destruct v; cbn [normalize_step]; try done; [unfold normalize_array; by rewrite Hi|by rewrite Hp]. Qed.

(** ** Objects *)

Section objects.
Context (ps : list (jsstr * PiSchema)) (d : option jsstr) (a : Additional PiSchema) (o : props).
Context (Hord : ordered ps.*1 = true) (Hown : Forall (fun k => inherited k = false) ps.*1).

Lemma own_key k s : (k, s) ∈ ps -> inherited k = false.
Proof. intros Hin. rewrite Forall_forall in Hown. apply Hown, list_elem_of_fmap. by exists (k, s). Qed.

(** What holds of the parts when a step leaves the object as it is. *)
Definition parts_kept (keeps : PiSchema -> data -> Prop) : Prop :=
  (forall k s v, (k, s) ∈ ps -> JsMap.get k o = Some v -> keeps (unwrapped s) v) /\
  (forall k v s, (k, v) ∈ o -> k ∉ ps.*1 -> a = SchemaAdditional s -> keeps s v).

Lemma get_key k v : (k, v) ∈ o -> exists v', JsMap.get k o = Some v' /\ (k, v') ∈ o.
Proof.
  intros Hin. destruct (JsMap.get k o) as [v'|] eqn:Hg; [exists v'; split; [done|by apply JsMap.get_Some_elem]|].
  apply JsMap.get_None in Hg. destruct Hg. apply list_elem_of_fmap. by exists (k, v).
Qed.

Lemma convert_property_kept (rec : props -> data -> checked data) sub k v : JsMap.get k o = Some v -> rec sub v = Ok v ->
  convert_property rec sub o k = Ok o.
Proof. intros Hg Hrec. unfold convert_property, get_property. rewrite Hg, Hrec. cbn [mbind result_bind]. by rewrite assign_same. Qed.

Lemma convert_object_kept rec : parts_kept (fun s v => rec (build s) v = Ok v) -> convert_object rec (build (PiObject ps d a)) o = Ok o.
Proof.
  intros [Hps Ha]. rewrite object_target by done. set (target := literal _).
  assert (property_schemas target = built_properties ps) as Hp by (unfold property_schemas, target; by rewrite field_literal).
  assert (convert_properties rec target o = Ok o) as Hprops.
  { unfold convert_properties. apply mfold_same. intros [k sub] Hin. rewrite Hp in Hin. apply elem_built in Hin as (s & Hin & ->). cbn [isPlainObject].
    rewrite has_property_own by by eapply own_key. unfold JsMap.has. destruct (JsMap.get k o) as [v|] eqn:Hv; [|done].
    eapply convert_property_kept; [done|]. by eapply Hps. }
  unfold convert_object. rewrite Hprops. cbn [mbind result_bind]. assert (convert_patterns rec target o = Ok o) as -> by (unfold convert_patterns, target; by rewrite field_literal).
  cbn [mbind result_bind]. unfold convert_additional. rewrite Hp. rewrite built_keys.
  assert (field "additionalProperties" target = opt_additional (map_additional build a)) as -> by (unfold target; by rewrite field_literal).
  destruct a as [|b|s]; [done|by destruct b|]. cbn [map_additional opt_additional isPlainObject]. apply mfold_same. intros k Hk.
  case_bool_decide as Hknown; [done|]. apply list_elem_of_fmap in Hk as ([k' v] & -> & Hin). destruct (get_key k' v Hin) as (v' & Hg & Hin').
  cbn [fst] in *. eapply convert_property_kept; [done|]. by eapply Ha.
Qed.

Lemma coerce_property_kept (rec : data -> props -> checked coerced) sub k v : JsMap.get k o = Some v -> rec v sub = Ok (v, None) ->
  coerce_property rec o k v sub = Ok o.
Proof. intros Hg Hrec. unfold coerce_property. rewrite Hrec. cbn [mbind result_bind]. by rewrite assign_same. Qed.

Lemma coerce_object_kept rec : NoDup o.*1 -> parts_kept (fun s v => rec v (build s) = Ok (v, None)) ->
  applySchemaObjectCoercion rec o (build (PiObject ps d a)) = Ok o.
Proof.
  intros Hnd [Hps Ha]. rewrite object_target by done. set (target := literal _). unfold applySchemaObjectCoercion.
  assert (field "properties" target = DObj (built_properties ps)) as -> by (unfold target; by rewrite field_literal).
  cbn [schema_record mbind result_bind default from_option id].
  assert (coerce_defined rec o (built_properties ps) = Ok o) as ->.
  { unfold coerce_defined. apply mfold_same. intros [k sub] (s & Hin & ->)%elem_built. rewrite has_property_own, get_property_own by by eapply own_key.
    unfold JsMap.has. destruct (JsMap.get k o) as [v|] eqn:Hv; [|done]. cbn [sub_schema isPlainObject or_throw mbind result_bind default from_option id].
    apply coerce_property_kept; [done|]. by eapply Hps. }
  cbn [mbind result_bind]. assert (field "additionalProperties" target = opt_additional (map_additional build a)) as -> by (unfold target; by rewrite field_literal).
  destruct a as [|b|s]; [done|by destruct b|]. cbn [map_additional opt_additional]. apply mfold_same. intros [k v] Hin. rewrite built_keys.
  case_bool_decide as Hknown; [done|]. apply coerce_property_kept; [by apply JsMap.elem_get|]. by eapply Ha.
Qed.

(** The nulls are those of properties whose schemas accept null. *)
Lemma normalize_object_kept rec check : ordered o.*1 = true -> Forall (fun p => reference (unwrapped p.2) = None) ps ->
  parts_kept (fun s v => rec v (build s) = Ok v /\ (v = DNull -> check (build s) DNull = Ok true)) ->
  normalize_step rec check (DObj o) (build (PiObject ps d a)) = Ok (DObj o).
Proof.
  intros Ho Href [Hps _]. rewrite object_target by done. set (target := literal _). cbn [normalize_step].
  assert (field "properties" target = DObj (built_properties ps)) as -> by (unfold target; by rewrite field_literal).
  cbn [schema_record mbind result_bind]. unfold normalize_object.
  assert (required_set target = Ok (required_of ps)) as ->.
  { unfold required_set, target. rewrite field_literal. cbn. destruct (required_of ps) as [|r rs] eqn:Hr; [done|]. rewrite <- Hr. by rewrite strings_of. }
  cbn [mbind result_bind]. rewrite copied by done. replace (mfold _ o (built_properties ps)) with (Ok (E := schema_failure) o); [done|]. symmetry.
  apply mfold_same. intros [k sub] (s & Hin & ->)%elem_built. unfold normalize_property. case_bool_decide as Hk; [|done].
  cbn [sub_schema isPlainObject or_throw mbind result_bind]. apply list_elem_of_fmap in Hk as ([k' v0] & Hk' & Hin'). cbn [fst] in Hk'. subst k'.
  destruct (get_key k v0 Hin') as (v & Hg & _). destruct (Hps k s v Hin Hg) as [Hrec Hcheck].
  rewrite get_property_own by by eapply own_key. rewrite Hg. cbn [default from_option id]. rewrite Hrec. cbn [mbind result_bind].
  assert ((match v with DNull => drops_null check (required_of ps) k (build (unwrapped s)) | _ => Ok false end) = Ok false) as ->; [|cbn [mbind result_bind]; by rewrite assign_same].
  destruct v; try done. unfold drops_null. case_bool_decide; [done|]. rewrite field_ref. rewrite Forall_forall in Href.
  specialize (Href (k, s) Hin). cbn [snd] in Href. rewrite Href. cbn [opt_str]. by rewrite Hcheck.
Qed.
End objects.

(** ** Records, arrays and unions *)

Definition free_additional (a : Additional PiSchema) : bool := match a with SchemaAdditional _ => false | _ => true end.

Lemma convert_record_kept (rec : props -> data -> checked data) key s d a o : free_additional a = true ->
  (forall k v, (k, v) ∈ o -> record_key k -> rec (build s) v = Ok v) -> convert_object rec (build (PiRecord key s d a)) o = Ok o.
Proof.
  intros Ha Hrec. cbn [build]. unfold Type_Record. set (target := literal _). unfold convert_object.
  assert (convert_properties rec target o = Ok o) as -> by (unfold convert_properties, property_schemas, target; by rewrite field_literal).
  cbn [mbind result_bind]. assert (convert_patterns rec target o = Ok o) as ->.
  { unfold convert_patterns, target. rewrite field_literal. cbn [named String.eqb Ascii.eqb Bool.eqb default from_option id isPlainObject mfold].
    rewrite new_RegExp_any. cbn [or_throw mbind result_bind]. rewrite mfold_same; [done|]. intros k Hk.
    destruct (forallb _ k) eqn:Ht; [|done]. apply record_key_test in Ht. apply list_elem_of_fmap in Hk as ([k' v] & -> & Hin).
    destruct (get_key o k' v Hin) as (v' & Hg & Hin'). cbn [fst] in *. eapply convert_property_kept; [done|]. by eapply Hrec. }
  cbn [mbind result_bind]. unfold convert_additional.
  assert (field "additionalProperties" target = opt_additional (map_additional build a)) as -> by (unfold target; by rewrite field_literal).
  by destruct a as [|b|].
Qed.

Lemma coerce_record_kept (rec : data -> props -> checked coerced) key s d a o : free_additional a = true ->
  applySchemaObjectCoercion rec o (build (PiRecord key s d a)) = Ok o.
Proof.
  intros Ha. cbn [build]. unfold Type_Record. set (target := literal _). unfold applySchemaObjectCoercion.
  assert (field "properties" target = DUndefined) as -> by (unfold target; by rewrite field_literal).
  cbn [schema_record mbind result_bind default from_option id coerce_defined mfold].
  assert (field "additionalProperties" target = opt_additional (map_additional build a)) as -> by (unfold target; by rewrite field_literal).
  by destruct a as [|b|].
Qed.

Lemma convert_all_kept (rec : props -> data -> checked data) item l : (forall v, v ∈ l -> rec item v = Ok v) -> convert_all rec item l = Ok l.
Proof.
  induction l as [|v l IH]; intros Hrec; cbn [convert_all]; [done|]. rewrite Hrec by left. cbn [mbind result_bind].
  rewrite IH; [done|]. intros v' Hv'. apply Hrec. by right.
Qed.

Lemma coerce_items_kept (rec : data -> props -> checked coerced) item l : (forall v, v ∈ l -> rec v item = Ok (v, None)) -> coerce_items rec l item = Ok l.
Proof.
  induction l as [|v l IH]; intros Hrec; cbn [coerce_items]; [done|]. rewrite Hrec by left. cbn [mbind result_bind].
  rewrite IH; [done|]. intros v' Hv'. apply Hrec. by right.
Qed.

Lemma normalize_items_kept (rec : data -> props -> checked data) item l : (forall v, v ∈ l -> rec v item = Ok v) -> normalize_items rec l item = Ok l.
Proof.
  induction l as [|v l IH]; intros Hrec; cbn [normalize_items]; [done|]. rewrite Hrec by left. cbn [mbind result_bind].
  rewrite IH; [done|]. intros v' Hv'. apply Hrec. by right.
Qed.

(** Some branch accepts the value, and every branch decides. *)
Definition branch_accepts (check : props -> data -> checked bool) (l : list PiSchema) (v : data) : Prop :=
  (forall s, s ∈ l -> exists ok, check (build s) v = Ok ok) /\ exists s, s ∈ l /\ check (build s) v = Ok true.

Lemma accepted_branch check l v : branch_accepts check l v -> accepted_by check (map build l) v = Ok true.
Proof.
  induction l as [|s l IH]; intros [Hok (s' & Hin & Hs')]; [by apply elem_of_nil in Hin|]. cbn [map accepted_by].
  destruct (Hok s ltac:(left)) as ([] & Hs); rewrite Hs; cbn [mbind result_bind]; [done|].
  apply IH. split; [intros s1 Hs1; apply Hok; by right|]. apply elem_of_cons in Hin as [->|Hin]; [congruence|by exists s'].
Qed.

Lemma first_accepting_branch check v schemas : first_accepting check v schemas = accepted_by check schemas v.
Proof.
  induction schemas as [|s l IH]; cbn; [done|]. destruct (check s v) as [[]|]; cbn; [done|apply IH|done].
Qed.

Lemma convert_union_kept rec check l d v : branch_accepts check l v -> convertTarget rec check (build (PiUnion l d)) v = Ok v.
Proof.
  intros Hl. cbn [build]. unfold Type_Union, convertTarget, convertUnion. fields. cbn [as_array mbind result_bind]. rewrite objects_of.
  by rewrite accepted_branch.
Qed.

Lemma schema_list_of l : schema_list (DArr (map DObj l)) = Ok (Some l).
Proof.
  cbn [schema_list]. assert (forall out, mfold (fun out v => o ← sub_schema v; Ok (out ++ [o])) out (map DObj l) = Ok (out ++ l)) as ->; [|done].
  induction l as [|o l IH]; intros out; cbn [map mfold]; [by rewrite app_nil_r|]. cbn [sub_schema isPlainObject or_throw mbind result_bind].
  by rewrite IH, <- app_assoc.
Qed.

Lemma coerce_union_kept rec check l d v : branch_accepts check l v -> coerce_step rec check v (build (PiUnion l d)) = Ok (v, None).
Proof.
  intros Hl. cbn [build]. unfold Type_Union, coerce_step, coerce_all, coerce_union, then_coerce. fields. rewrite schema_list_of.
  cbn [schema_list default mfold mbind result_bind fst snd from_option id]. unfold coerceWithUnionSchema. rewrite first_accepting_branch, accepted_branch by done.
  cbn [mbind result_bind]. unfold coerce_parts, typeList. fields. cbn [coerce_types length Nat.ltb Nat.leb andb].
  destruct v; try done; by rewrite bool_decide_eq_false_2 by by apply not_elem_of_nil.
Qed.
End values.

(** * Validation of tool calls and types: the checks of sub-schemas on their own, that arguments
    of the schema's type are kept, and that objects stay objects. *)

Section schemas.
Context `{Platform}.

(** ** Schemas without references *)

Lemma scoped_direct b s : scoped_at [] b s = true -> reference s = None.
Proof. by destruct s. Qed.

Lemma unwrapped_direct b s : scoped_at [] b s = true -> reference (unwrapped s) = None.
Proof. destruct s; cbn [unwrapped]; try done. cbn [scoped_at]. by intros [_ ?%scoped_direct]%andb_true_iff. Qed.

Lemma free_well_formed s : scoped_at [] false s = true -> well_formed [] s.
Proof. intros Hs. split_and!; [done|constructor|constructor]. Qed.

Lemma collect_parts rec out target :
  field "$defs" target = DUndefined -> field "oneOf" target = DUndefined -> field "allOf" target = DUndefined ->
  collect_list rec out (field "anyOf" target) = Ok out -> collect_values rec out (field "properties" target) = Ok out ->
  collect_sub rec out (field "items" target) = Ok out -> as_array (field "items" target) = None ->
  collect_sub rec out (field "additionalProperties" target) = Ok out -> collect_values rec out (field "patternProperties" target) = Ok out ->
  collectNode rec out target = Ok out.
Proof.
  intros Hd Hone Hall Hany Hp Hi Hl Ha Hpat. unfold collectNode. rewrite Hd. cbn [isPlainObject mbind result_bind mfold]. rewrite Hany, Hone, Hall.
  cbn [collect_list as_array mbind result_bind]. rewrite Hp. cbn [mbind result_bind]. unfold collect_sub in Hi. unfold collect_list. rewrite Hl.
  destruct (isPlainObject (field "items" target)); [rewrite Hi|]; cbn [mbind result_bind]; rewrite Ha; by cbn [mbind result_bind].
Qed.

Lemma collect_additional rec out a : (forall s, a = SchemaAdditional s -> rec out (build s) = Ok out) ->
  collect_sub rec out (opt_additional (map_additional build a)) = Ok out.
Proof. intros Ha. destruct a as [|b|s]; try done. by apply Ha. Qed.

Lemma collect_free fuel : forall s out, scoped_at [] false s = true -> (height s <= fuel)%nat -> collectDefs fuel out (build s) = Ok out.
Proof.
  induction fuel as [|fuel IH]; intros s out Hs Hle; [pose proof (height_pos s); lia|]. cbn [collectDefs].
  destruct s as [o|o|o|d|d|d|l d|s|ps d a|items o|l d|key s d a| |]; try done; cbn [scoped_at height] in *;
    try (apply collect_parts; by cbn [build]; unfold Type_String, Type_Number, Type_Integer, number_schema, Type_Boolean, Type_Null, Type_Unknown; fields).
  - apply collect_parts; cbn [build]; unfold Type_Literal; by destruct l; fields.
  - rewrite !andb_true_iff in Hs. destruct Hs as [[[Ho Hi] Ha] Hps]. rewrite object_target by done. apply collect_parts; try by fields.
    + fields. unfold collect_values. cbn [isPlainObject]. apply mfold_same. intros v Hin.
      apply list_elem_of_fmap in Hin as ([k v'] & -> & Hin). apply elem_built in Hin as (s & Hin & ->). cbn [collect_sub isPlainObject snd].
      destruct (elem_scoped [] ps (k, s) Hps Hin) as [Hs Hh]. apply IH; [done|]. cbn [snd] in Hh. lia.
    + fields. apply collect_additional. intros s ->. apply IH; [done|lia].
  - apply collect_parts; cbn [build]; unfold Type_Array; try by fields. fields. apply IH; [done|lia].
  - apply andb_true_iff in Hs as [_ Hs]. apply collect_parts; cbn [build]; unfold Type_Union; try by fields. fields.
    cbn [collect_list as_array]. apply mfold_same. intros v Hin. apply list_elem_of_fmap in Hin as (o & -> & Hin). apply list_elem_of_fmap in Hin as (s & -> & Hin).
    cbn [collect_sub isPlainObject]. destruct (elem_union [] l s Hs Hin) as [Hs' Hh]. apply IH; [done|lia].
  - apply andb_true_iff in Hs as [Hs Ha]. apply collect_parts; cbn [build]; unfold Type_Record; try by fields.
    + fields. apply collect_additional. intros s' ->. apply IH; [done|lia].
    + fields. cbn [collect_values isPlainObject fmap list_fmap snd mfold collect_sub]. rewrite IH; [done|done|lia].
Qed.

(** ** Checks of sub-schemas *)

(** Fuel for every step on a value of the schema. *)
Definition steps_for (s : PiSchema) (v : data) : nat := (height s + fuel_for [] s v)%nat.

Lemma steps_part s s' v v' : (height s' < height s)%nat -> (data_depth v' <= data_depth v)%nat -> (steps_for s' v' < steps_for s v)%nat.
Proof. unfold steps_for, fuel_for, max_height. cbn [foldr]. nia. Qed.

Lemma check_context s v fuel : scoped_at [] false s = true -> (steps_for s v <= fuel)%nat ->
  exists ok, checkWithContext fuel [] (build s) v = Ok ok /\ (ok = true <-> Static [] s v).
Proof.
  intros Hs Hfuel. unfold checkWithContext. destruct (built_type [] s v [] fuel (free_well_formed s Hs)) as (errs & Hrun & Herrs); [unfold steps_for in Hfuel; lia|].
  unfold built_definitions in Hrun. cbn [map] in Hrun. rewrite Hrun. cbn [mbind result_bind]. eexists. split; [done|].
  rewrite bool_decide_eq_true, <- Herrs. split; [apply nil_length_inv|by intros ->].
Qed.

Lemma check_alone s v fuel : scoped_at [] false s = true -> (steps_for s v <= fuel)%nat ->
  exists ok, Check fuel (build s) v = Ok ok /\ (ok = true <-> Static [] s v).
Proof.
  intros Hs Hfuel. pose proof (check_context s v fuel Hs Hfuel) as (ok & Hok & Hiff). exists ok. split; [|done].
  unfold Check, Errors. rewrite collect_free by (done || (unfold steps_for in Hfuel; lia)). exact Hok.
Qed.

Lemma accepts_of check l d v s : scoped_at [] false (PiUnion l d) = true -> s ∈ l -> Static [] s v ->
  (forall s, s ∈ l -> scoped_at [] false s = true -> (height s < height (PiUnion l d))%nat -> exists ok, check (build s) v = Ok ok /\ (ok = true <-> Static [] s v)) ->
  branch_accepts check l v.
Proof.
  intros Hl Hin Hs Hcheck. apply andb_true_iff in Hl as [_ Hl].
  assert (forall s, s ∈ l -> exists ok, check (build s) v = Ok ok /\ (ok = true <-> Static [] s v)) as Hall.
  { intros s' Hin'. destruct (elem_union [] l s' Hl Hin') as [Hs' Hh]. apply Hcheck; [done|done|]. cbn [height]. lia. }
  split; [intros s' (ok & ? & _)%Hall; by exists ok|]. exists s. split; [done|]. destruct (Hall s Hin) as (ok & -> & Hok). f_equal. by apply Hok.
Qed.

(** ** Values of the type *)

(** Every step leaves the value as it is. *)
Definition settled (fuel : nat) (s : PiSchema) (v : data) : Prop :=
  normalizeOptionalNulls fuel v (build s) = Ok v /\ convertNode fuel [] (build s) v = Ok v /\ coerceWithJsonSchema fuel v (build s) = Ok (v, None).

Lemma resolve_free s : reference s = None -> resolveRef (build s) [] = build s.
Proof. apply (resolve_direct []). Qed.

Lemma settled_scalar s t v fuel : reference s = None -> is_scalar v = true -> (0 < fuel)%nat ->
  field "anyOf" (build s) = DUndefined -> field "oneOf" (build s) = DUndefined -> field "allOf" (build s) = DUndefined ->
  field "type" (build s) = DStr t -> matchesType v t = true -> settled fuel s v.
Proof.
  intros Hr Hv Hfuel Hany Hone Hall Ht Hm. destruct fuel as [|fuel]; [lia|]. unfold settled.
  cbn [normalizeOptionalNulls convertNode coerceWithJsonSchema]. rewrite resolve_free by done. split_and!.
  - by apply normalize_scalar.
  - rewrite (convert_head _ t) by done. by destruct v.
  - apply (coerce_head _ t); [done..|]. by destruct v.
Qed.

Lemma settled_unknown d v fuel : (0 < fuel)%nat -> settled fuel (PiUnknown d) v.
Proof.
  intros Hfuel. destruct fuel as [|fuel]; [lia|]. unfold settled. cbn [normalizeOptionalNulls convertNode coerceWithJsonSchema].
  rewrite resolve_free by done. cbn [build]. unfold Type_Unknown. split_and!.
  - apply normalize_absent; by fields.
  - unfold convertTarget. fields. cbn [as_array mbind result_bind]. unfold convert_types, typeList. fields. by destruct v.
  - unfold coerce_step, coerce_all, coerce_union, then_coerce, typeList. fields.
    cbn [schema_list default mfold mbind result_bind fst snd from_option id coerce_types length Nat.ltb Nat.leb andb].
    unfold coerce_parts, typeList. fields. destruct v; try done; by rewrite bool_decide_eq_false_2 by by apply not_elem_of_nil.
Qed.

Lemma literal_scalar l v : dataEqual v (literal_data l) = true -> is_scalar v = true.
Proof. by destruct l, v. Qed.

Lemma includes_type target t : field "type" target = DStr (js t) -> bool_decide (js t ∈ typeList target) = true.
Proof. intros Ht. unfold typeList. rewrite Ht. apply bool_decide_eq_true. by left. Qed.

Lemma settled_array items o l fuel : (forall v, v ∈ l -> settled fuel items v) -> settled (S fuel) (PiArray items o) (DArr l).
Proof.
  intros Hl. unfold settled. cbn [normalizeOptionalNulls convertNode coerceWithJsonSchema]. rewrite resolve_free by done. cbn [build]. unfold Type_Array.
  set (target := literal _). assert (field "items" target = DObj (build items)) as Hi by (unfold target; by fields). split_and!.
  - cbn [normalize_step]. unfold normalize_array. rewrite Hi, normalize_items_kept; [done|]. intros v Hv. by apply Hl.
  - rewrite (convert_head _ (js "array")) by (done || (unfold target; by fields)). cbn [convert_parts]. unfold convert_array.
    rewrite Hi, convert_all_kept; [done|]. intros v Hv. by apply Hl.
  - apply (coerce_head _ (js "array")); try done; try (unfold target; by fields). unfold coerce_parts. rewrite includes_type by (unfold target; by fields).
    unfold applySchemaArrayCoercion. rewrite Hi, coerce_items_kept; [done|]. intros v Hv. by apply Hl.
Qed.

Lemma settled_union l d v fuel : branch_accepts (checkWithContext fuel []) l v -> branch_accepts (sub_check fuel) l v -> settled (S fuel) (PiUnion l d) v.
Proof.
  intros Hl1 Hl2. unfold settled. cbn [normalizeOptionalNulls convertNode coerceWithJsonSchema]. rewrite resolve_free by done. split_and!.
  - apply normalize_absent; cbn [build]; unfold Type_Union; by fields.
  - by apply convert_union_kept.
  - by apply coerce_union_kept.
Qed.

Lemma settled_record key s d a o fuel : free_additional a = true -> (forall k v, (k, v) ∈ o -> record_key k -> settled fuel s v) ->
  settled (S fuel) (PiRecord key s d a) (DObj o).
Proof.
  intros Ha Ho. unfold settled. cbn [normalizeOptionalNulls convertNode coerceWithJsonSchema]. rewrite resolve_free by done. split_and!.
  - apply normalize_absent; cbn [build]; unfold Type_Record; by fields.
  - rewrite (convert_head _ (js "object")) by (done || (cbn [build]; unfold Type_Record; by fields)). cbn [convert_parts].
    rewrite convert_record_kept; [done|done|]. intros k v Hin Hk. by eapply Ho.
  - apply (coerce_head _ (js "object")); try done; try (cbn [build]; unfold Type_Record; by fields). unfold coerce_parts.
    rewrite includes_type by (cbn [build]; unfold Type_Record; by fields). by rewrite coerce_record_kept.
Qed.

Lemma parts_impl ps a o (P Q : PiSchema -> data -> Prop) :
  (forall k s v, (k, s) ∈ ps -> P (unwrapped s) v -> Q (unwrapped s) v) -> (forall s v, P s v -> a = SchemaAdditional s -> Q s v) ->
  parts_kept ps a o P -> parts_kept ps a o Q.
Proof. intros H1 H2 [Hp Ha]. split; [intros k s v Hin Hg; eapply H1; eauto|intros k v s Hin Hk Hs; eapply H2; eauto]. Qed.

Lemma settled_object ps d a o fuel : ordered ps.*1 = true -> Forall (fun k => inherited k = false) ps.*1 -> ordered o.*1 = true ->
  Forall (fun p => reference (unwrapped p.2) = None) ps ->
  parts_kept ps a o (settled fuel) -> parts_kept ps a o (fun s v => v = DNull -> sub_check fuel (build s) DNull = Ok true) ->
  settled (S fuel) (PiObject ps d a) (DObj o).
Proof.
  intros Hps Hi Ho Href Hkept Hnull. unfold settled. cbn [normalizeOptionalNulls convertNode coerceWithJsonSchema]. rewrite resolve_free by done. split_and!.
  - apply normalize_object_kept; try done. destruct Hkept as [H1 H2], Hnull as [H3 H4].
    split; [intros k s v Hin Hg; split; [by eapply H1|by eapply H3]|intros k v s Hin Hk Hs; split; [by eapply H2|by eapply H4]].
  - rewrite (convert_head _ (js "object")) by (done || (rewrite object_target by done; by fields)). cbn [convert_parts].
    rewrite convert_object_kept; [done|done|done|]. eapply parts_impl; [..|exact Hkept]; intros; by match goal with H : settled _ _ _ |- _ => apply H end.
  - apply (coerce_head _ (js "object")); try done; try (rewrite object_target by done; by fields). unfold coerce_parts.
    rewrite includes_type by (rewrite object_target by done; by fields). rewrite coerce_object_kept; [done|done|done|by apply ordered_NoDup|].
    eapply parts_impl; [..|exact Hkept]; intros; by match goal with H : settled _ _ _ |- _ => apply H end.
Qed.
End schemas.
