(* ===== verification/ValidationTheorems.v ===== *)
(** What the validation of tool calls guarantees. *)
From S2P Require Import Prelude JsNumber JsText JsObject JsData Schema SchemaCheck SchemaTypes SchemaConvert Validation ProtocolValue ValidationFacts.
Local Open Scope Z_scope.

Section arguments.
Context `{Platform}.

(** ** Arguments of the type *)

Lemma depth_le v ds : v ∈ ds -> (data_depth v <= data_depth (DArr ds))%nat.
Proof. intros Hin. pose proof (depth_item v ds Hin). lia. Qed.

Lemma depth_prop_le k v ps : (k, v) ∈ ps -> (data_depth v <= data_depth (DObj ps))%nat.
Proof. intros Hin. pose proof (depth_prop (k, v) ps Hin). cbn [snd] in *. lia. Qed.

(** Values a schema gives the type of are settled by the schema. *)
Definition settles (s : PiSchema) (v : data) : Prop :=
  scoped_at [] false s = true -> plain_records s = true -> listed v = true -> forall fuel, (steps_for s v <= fuel)%nat -> settled fuel s v.

Lemma null_accepted s fuel : scoped_at [] false s = true -> (steps_for s DNull <= fuel)%nat -> Static [] s DNull -> sub_check fuel (build s) DNull = Ok true.
Proof. intros Hs Hf Hst. destruct (check_alone s DNull fuel Hs Hf) as (ok & Hok & Hiff). unfold sub_check. rewrite Hok. f_equal. by apply Hiff. Qed.

Lemma settled_properties ps d a o fuel :
  (forall k s v, (k, s) ∈ ps -> JsMap.get k o = Some v -> Static [] (unwrapped s) v /\ settles (unwrapped s) v) ->
  (forall k v s, (k, v) ∈ o -> k ∉ ps.*1 -> a = SchemaAdditional s -> Static [] s v /\ settles s v) ->
  scoped_at [] false (PiObject ps d a) = true -> plain_records (PiObject ps d a) = true -> listed (DObj o) = true ->
  (steps_for (PiObject ps d a) (DObj o) <= fuel)%nat -> settled fuel (PiObject ps d a) (DObj o).
Proof.
  intros Hps Hadd Hs Hp Hl Hf. destruct fuel as [|fuel]; [unfold steps_for in Hf; cbn [height] in Hf; lia|].
  cbn [scoped_at] in Hs. cbn [plain_records] in Hp. cbn [listed] in Hl.
  apply andb_true_iff in Hs as [Hs Hsp]. apply andb_true_iff in Hs as [Hs Hsa]. apply andb_true_iff in Hs as [Ho Hi].
  apply andb_true_iff in Hp as [Hpa Hpp]. apply andb_true_iff in Hl as [Hlo Hlp]. rewrite forallb_Forall, Forall_forall in Hlp. rewrite forallb_Forall, Forall_forall in Hpp.
  assert (forall k s v, (k, s) ∈ ps -> JsMap.get k o = Some v -> settled fuel (unwrapped s) v /\ (v = DNull -> sub_check fuel (build (unwrapped s)) DNull = Ok true)) as Hprops.
  { intros k s v Hin Hg. destruct (Hps k s v Hin Hg) as [Hst Hset], (elem_scoped [] ps (k, s) Hsp Hin) as [Hss Hh].
    pose proof (JsMap.get_Some_elem _ _ _ Hg) as Hin'. specialize (Hpp (k, s) Hin). cbn [snd] in *.
    assert (steps_for (unwrapped s) v <= fuel)%nat as Hf'.
    { pose proof (steps_part (PiObject ps d a) (unwrapped s) (DObj o) v) as Hlt. pose proof (depth_prop_le k v o Hin'). cbn [height] in *. lia. }
    split; [apply Hset; [done|by destruct s|by apply (Hlp (k, v))|done]|]. intros ->. by apply null_accepted. }
  assert (forall k v s, (k, v) ∈ o -> k ∉ ps.*1 -> a = SchemaAdditional s -> settled fuel s v /\ (v = DNull -> sub_check fuel (build s) DNull = Ok true)) as Hext.
  { intros k v s Hin Hk Ha. destruct (Hadd k v s Hin Hk Ha) as [Hst Hset]. subst a.
    assert (steps_for s v <= fuel)%nat as Hf'.
    { pose proof (steps_part (PiObject ps d (SchemaAdditional s)) s (DObj o) v). pose proof (depth_prop_le k v o Hin). cbn [height] in *. lia. }
    split; [apply Hset; [done|done|by apply (Hlp (k, v))|done]|]. intros ->. by apply null_accepted. }
  apply settled_object; [done| |done| | |].
  - rewrite forallb_Forall in Hi. eapply Forall_impl; [exact Hi|]. intros k Hk. cbv beta in Hk. by destruct (inherited k).
  - rewrite forallb_Forall in Hsp. eapply Forall_impl; [exact Hsp|]. intros p. apply unwrapped_direct.
  - split; [intros k s v Hin Hg; by apply (Hprops k)|intros k v s Hin Hk Hs'; by apply (Hext k)].
  - split; [intros k s v Hin Hg; by apply (Hprops k)|intros k v s Hin Hk Hs'; by apply (Hext k)].
Qed.

Lemma static_settled :
  (forall s v, Static [] s v -> settles s v) /\ (forall a v, additional_type [] a v -> forall s, a = SchemaAdditional s -> settles s v).
Proof.
  assert (forall s v fuel, (steps_for s v <= fuel)%nat -> (0 < fuel)%nat) as Hpos by (intros s v fuel; unfold steps_for; pose proof (height_pos s); lia).
  apply (Static_both H [] settles (fun a v => forall s, a = SchemaAdditional s -> settles s v)); try done.
  - intros o s _ _ _ _ _ fuel Hf%Hpos. by apply (settled_scalar _ (js "string")).
  - intros o n _ _ _ _ fuel Hf%Hpos. by apply (settled_scalar _ (js "number")).
  - intros o n Hn _ _ _ _ fuel Hf%Hpos. by apply (settled_scalar _ (js "integer")).
  - intros d b _ _ _ fuel Hf%Hpos. by apply (settled_scalar _ (js "boolean")).
  - intros d _ _ _ fuel Hf%Hpos. by apply (settled_scalar _ (js "null")).
  - intros d v _ _ _ fuel Hf%Hpos. by apply settled_unknown.
  - intros l d v Hv _ _ _ fuel Hf%Hpos. pose proof (literal_scalar l v Hv). pose proof (literal_type l v Hv).
    eapply settled_scalar; try done; by destruct l.
  - intros ps d a o _ Hst Hps Hadd IHa Hs Hp Hl fuel Hf. apply settled_properties; try done.
    + intros k s v Hin Hg. split; [by eapply Hst|]. by eapply Hps.
    + intros k v s Hin Hk ->. specialize (Hadd k v Hin Hk). split; [by inversion Hadd|]. by eapply IHa.
  - intros items o l _ Hl IH Hs Hp Hlist fuel Hf. destruct fuel as [|fuel]; [apply Hpos in Hf; lia|]. apply settled_array. intros v Hv.
    cbn [listed] in Hlist. rewrite forallb_Forall, Forall_forall in Hlist. apply IH; [done|done|done|by apply Hlist|].
    pose proof (steps_part (PiArray items o) items (DArr l) v ltac:(cbn [height]; lia) (depth_le v l Hv)). lia.
  - intros l d s v Hin Hsv _ Hs Hp Hl fuel Hf. destruct fuel as [|fuel]; [apply Hpos in Hf; lia|].
    assert (forall s', (height s' < height (PiUnion l d))%nat -> (steps_for s' v <= fuel)%nat) as Hpart.
    { intros s' Hh. pose proof (steps_part (PiUnion l d) s' v v Hh ltac:(lia)). lia. }
    apply settled_union; (eapply accepts_of; [done|done|done|]); intros s' Hin' Hs' Hh.
    + apply check_context; auto.
    + apply check_alone; auto.
  - intros key s d a o Hst IH Hadd _ Hs Hp Hl fuel Hf. destruct fuel as [|fuel]; [apply Hpos in Hf; lia|].
    cbn [scoped_at plain_records listed] in Hs, Hp, Hl. apply andb_true_iff in Hs as [Hs _]. apply andb_true_iff in Hp as [Hp Ha]. apply andb_true_iff in Hl as [_ Hl].
    apply settled_record; [by destruct a|]. intros k v Hin Hk. rewrite forallb_Forall, Forall_forall in Hl.
    eapply IH; try done; [by apply (Hl (k, v))|].
    pose proof (steps_part (PiRecord key s d a) s (DObj o) v ltac:(cbn [height]; lia) (depth_prop_le k v o Hin)). lia.
  - intros s v Hs IH s' [= ->]. exact IH.
Qed.

(** ** Objects stay objects *)

Lemma coerce_first_object o types : coerce_first (DObj o) types = DObj o.
Proof.
  assert (forall t, coercePrimitive (DObj o) t = DObj o) as Hp by (intros t; unfold coercePrimitive, coerce_number; by repeat case_decide).
  induction types as [|t types IH]; cbn [coerce_first]; [done|]. by rewrite Hp.
Qed.

Lemma normalized_object fuel o schema v : normalizeOptionalNulls fuel (DObj o) schema = Ok v -> is_Some (isPlainObject v).
Proof.
  destruct fuel as [|fuel]; [done|]. cbn [normalizeOptionalNulls normalize_step]. intros ([ps|] & Hps & Hv)%bind_Ok; [|by injection Hv as <-].
  apply fmap_Ok in Hv as (o' & _ & ->). by eexists.
Qed.

Lemma mfold_objects {A} (f : data -> A -> checked data) l : (forall o a v, f (DObj o) a = Ok v -> is_Some (isPlainObject v)) ->
  forall o v, mfold f (DObj o) l = Ok v -> is_Some (isPlainObject v).
Proof.
  intros Hf o v Hv. apply (mfold_inv (fun v => is_Some (isPlainObject v)) f l (DObj o) v); [by eexists| |done].
  intros v1 a v2 _ [o1 Ho1] Hv2. destruct v1; try done. by eapply Hf.
Qed.

Lemma converted_object fuel : forall defs node o v, convertNode fuel defs node (DObj o) = Ok v -> is_Some (isPlainObject v).
Proof.
  induction fuel as [|fuel IH]; intros defs node o v; [done|]. cbn [convertNode]. unfold convertTarget. intros (v1 & Hall & Hv)%bind_Ok.
  assert (is_Some (isPlainObject v1)) as [o1 Ho1].
  { destruct (as_array (field "allOf" _)); [|by injection Hall as <-]. revert Hall. apply mfold_objects. intros o' node' v'. apply IH. }
  destruct v1 as [| | | | | |o1'|]; try done. clear Hall o1 Ho1.
  assert (forall branches w, convertUnion (convertNode fuel defs) (checkWithContext fuel defs) branches (DObj o1') = Ok w -> is_Some (isPlainObject w)) as Hunion.
  { intros branches w. unfold convertUnion. intros (b & _ & Hw)%bind_Ok. destruct b; [injection Hw as <-; by eexists|]. apply bind_Ok in Hw as (found & Hfound & Hw).
    injection Hw as <-. destruct found as [w'|]; [|by eexists]. cbn [default from_option id]. induction (objects branches) as [|node' nodes IHn]; [done|].
    cbn [converted_by] in Hfound. apply bind_Ok in Hfound as (candidate & Hclone & Hfound). unfold structuredClone in Hclone.
    destruct (has_function _); [done|]. injection Hclone as <-. apply bind_Ok in Hfound as (w1 & Hw1 & Hfound).
    apply bind_Ok in Hfound as ([] & _ & Hfound); [injection Hfound as <-; by eapply IH|by apply IHn]. }
  destruct (as_array (field "anyOf" _)); [by apply Hunion in Hv|]. destruct (as_array (field "oneOf" _)); [by apply Hunion in Hv|].
  assert (convert_types (resolveRef node defs) (DObj o1') = DObj o1') as Ht.
  { unfold convert_types. destruct (typeList _); [done|]. destruct (existsb _ _); [done|]. apply coerce_first_object. }
  rewrite Ht in Hv. apply fmap_Ok in Hv as (o' & _ & ->). by eexists.
Qed.

(** A coercion of an object gives an object. *)
Definition coerces_object (f : data -> checked coerced) : Prop := forall o r, f (DObj o) = Ok r -> is_Some (isPlainObject r.1).

Lemma then_object next f r : is_Some (isPlainObject next.1) -> coerces_object f -> then_coerce next f = Ok r -> is_Some (isPlainObject r.1).
Proof.
  intros [o Ho] Hf. unfold then_coerce. destruct next.1; try done. intros ([v held] & Hv & Hr)%bind_Ok. injection Hr as <-. exact (Hf _ _ Hv).
Qed.

Lemma union_object rec check schemas : (forall schema, coerces_object (fun v => rec v schema)) -> coerces_object (fun v => coerceWithUnionSchema rec check v schemas).
Proof.
  intros Hrec o r. unfold coerceWithUnionSchema. intros (b & _ & Hr)%bind_Ok. destruct b; [injection Hr as <-; by eexists|].
  induction schemas as [|schema schemas IH]; cbn [first_coerced] in Hr; [injection Hr as <-; by eexists|].
  apply bind_Ok in Hr as (candidate & Hclone & Hr). unfold structuredClone in Hclone. destruct (has_function _); [done|]. injection Hclone as <-.
  apply bind_Ok in Hr as ([v held] & Hv & Hr). apply bind_Ok in Hr as ([] & _ & Hr); [|by apply IH]. injection Hr as <-. exact (Hrec schema o _ Hv).
Qed.

Lemma coerced_object fuel : forall schema, coerces_object (fun v => coerceWithJsonSchema fuel v schema).
Proof.
  induction fuel as [|fuel IH]; intros schema o r; [done|]. cbn [coerceWithJsonSchema]. unfold coerce_step. intros Hr.
  apply bind_Ok in Hr as (allOf & _ & Hr). apply bind_Ok in Hr as (anyOf & _ & Hr). apply bind_Ok in Hr as (oneOf & _ & Hr).
  apply bind_Ok in Hr as (n1 & Hn1 & Hr). apply bind_Ok in Hr as (n2 & Hn2 & Hr). apply bind_Ok in Hr as (n3 & Hn3 & Hr).
  assert (forall n schemas n', is_Some (isPlainObject n.1) -> coerce_union (coerceWithJsonSchema fuel) (sub_check fuel) n schemas = Ok n' -> is_Some (isPlainObject n'.1)) as Hunion.
  { intros n [schemas|] n' Hn; cbn [coerce_union]; [|by intros [= <-]]. apply then_object; [done|]. by apply union_object. }
  eapply then_object; [eapply Hunion; [|exact Hn3]; eapply Hunion; [|exact Hn2]| |exact Hr].
  - unfold coerce_all in Hn1. eapply (mfold_inv (fun n => is_Some (isPlainObject n.1))); [|intros n schema' n' _ Hn|exact Hn1].
    + by eexists.
    + apply then_object; [done|]. apply IH.
  - intros o' r'. cbv beta. assert (coerce_types (DObj o') (typeList schema) = DObj o') as ->.
    { unfold coerce_types. destruct (_ && _); [apply coerce_first_object|done]. }
    intros (v & Hv & Hr')%bind_Ok. injection Hr' as <-. cbn [coerce_parts] in Hv. destruct (bool_decide _); [|by injection Hv as <-].
    apply fmap_Ok in Hv as (o'' & _ & ->). by eexists.
Qed.

(** ** Outcomes *)

Lemma validated_checks fuel parameters name o v : validateToolArguments fuel parameters name (DObj o) = Ok v -> Check fuel parameters v = Ok true.
Proof.
  unfold validateToolArguments, lift_schema, arguments_of. intros (outcome & Hout & Hv)%bind_Ok. destruct outcome as [args'|]; [|done]. injection Hv as ->.
  destruct (structuredClone (DObj o) ≫= _) as [out|] eqn:Hrun; [|done]. injection Hout as ->.
  apply bind_Ok in Hrun as (cloned & Hclone & Hrun). unfold structuredClone in Hclone. destruct (has_function _); [done|]. injection Hclone as <-.
  apply bind_Ok in Hrun as (normalized & Hn & Hrun). apply normalized_object in Hn as [o1 Hn]. destruct normalized; try done.
  apply bind_Ok in Hrun as (args & Ha & Hrun). unfold Convert in Ha. apply bind_Ok in Ha as (defs & _ & Ha). apply converted_object in Ha as [o2 Ha]. destruct args; try done.
  apply bind_Ok in Hrun as ([coercedArgs other] & Hc & Hrun). apply coerced_object in Hc as [o3 Hc]. destruct coercedArgs; try done.
  cbn [checked_arguments is_object andb] in Hrun. apply bind_Ok in Hrun as ([] & Hok & Hrun); [by injection Hrun as <-|].
  by apply bind_Ok in Hrun as (errors & _ & ?).
Qed.

Lemma settled_arguments fuel s name v : is_object v = true -> has_function v = false -> settled fuel s v -> collectDefs fuel [] (build s) = Ok [] ->
  Check fuel (build s) v = Ok true -> validateToolArguments fuel (build s) name v = Ok v.
Proof.
  intros Hv Hf (Hn & Hc & Hco) Hd Hok. unfold validateToolArguments, arguments_of, structuredClone. rewrite Hf. cbn [mbind result_bind]. rewrite Hn.
  cbn [mbind result_bind]. unfold Convert. rewrite Hd. cbn [mbind result_bind]. rewrite Hc. cbn [mbind result_bind]. rewrite Hco. cbn [mbind result_bind checked_arguments].
  rewrite Hv. cbn [andb]. by rewrite Hok.
Qed.

Lemma arguments_typed s name o : scoped_at [] false s = true ->
  (forall fuel v, validateToolArguments fuel (build s) name (DObj o) = Ok v -> Static [] s v) /\
  (plain_records s = true -> listed (DObj o) = true -> has_function (DObj o) = false -> Static [] s (DObj o) ->
   forall fuel, (steps_for s (DObj o) <= fuel)%nat -> validateToolArguments fuel (build s) name (DObj o) = Ok (DObj o)).
Proof.
  intros Hs. split.
  - intros fuel v Hv%validated_checks. assert (collectDefs (height s) [] (build s) = Ok (built_definitions [])) as Hd by by apply collect_free.
    by apply (check_returns [] s v (height s) fuel true (free_well_formed s Hs) Hd Hv).
  - intros Hp Hl Hf Hst fuel Hfuel. apply settled_arguments; [done|done| | |].
    + by apply static_settled.
    + apply collect_free; [done|]. unfold steps_for in Hfuel. lia.
    + destruct (check_alone s (DObj o) fuel Hs Hfuel) as (ok & -> & Hok). f_equal. by apply Hok.
Qed.
End arguments.

(** C28: Tool arguments.  For a tool whose schema is well formed and has no references
    ([scoped_at []]: patterns compile, property names are distinct, in order and not
    inherited, unions have branches), whatever object of arguments a model sends, the value
    the validation returns has the type of the schema.  When moreover no record of the
    schema has a schema for other keys ([plain_records]), arguments that already have the
    type, whose keys are in order and which hold no function, are returned as they are: no
    null is dropped and nothing is coerced.  With such a record conforming arguments can be
    rejected ([ToolArguments.record_additional_rejected]). *)
Theorem tool_arguments_typed `{Platform} s name o : scoped_at [] false s = true ->
  (forall fuel v, validateToolArguments fuel (build s) name (DObj o) = Ok v -> Static [] s v) /\
  (plain_records s = true -> listed (DObj o) = true -> has_function (DObj o) = false -> Static [] s (DObj o) ->
   forall fuel, (steps_for s (DObj o) <= fuel)%nat -> validateToolArguments fuel (build s) name (DObj o) = Ok (DObj o)).
Proof. apply arguments_typed. Qed.

(** ** Instances *)

Module ToolArguments.

(** A platform that reads decimals. *)
#[export] Instance decimal_numbers : Platform :=
  {| regexp := fun _ => None; number_to_string := fun _ => js "NaN";
     string_to_number := fun s => if forallb is_digit s then JInt (decimal_value s) else JFrac 0x7ff8000000000000 |}.

Definition no_string : PiStringOptions := mkStringOptions None None None None.
Definition no_number : PiNumberOptions := mkNumberOptions None None None None.

(** A path, a limit that may be left out, and flags. *)
Definition parameters : PiSchema :=
  PiObject [(js "path", PiString no_string); (js "limit", PiOptional (PiInteger no_number)); (js "raw", PiOptional (PiBoolean None));
    (js "tags", PiOptional (PiArray (PiUnion [PiString no_string; PiNull None] None) (mkArrayOptions None None None)))] None (BoolAdditional false).

Definition fields_of (l : list (string * data)) : data := DObj (literal l).

Definition exact_arguments : props := literal [("path", DStr (js "a/b")); ("limit", DNum (JInt 3)); ("tags", DArr [DNull; DStr (js "x")])]%string.

(** A text for the limit is read as a number, and a null flag is dropped. *)
Example coerced_arguments :
  validateToolArguments 100 (build parameters) (js "read") (fields_of [("path", DStr (js "a")); ("limit", DStr (js "12")); ("raw", DNull)]%string) =
  Ok (fields_of [("path", DStr (js "a")); ("limit", DNum (JInt 12))]%string).
Proof. vm_compute. reflexivity. Qed.

(** A missing path and an extra key are reported. *)
Example rejected_arguments :
  validateToolArguments 100 (build parameters) (js "read") (fields_of [("limit", DNum (JInt 1)); ("force", DBool true)]%string) =
  Err (InvalidArguments (js "read")
    (js "  - path: must have required properties path" ++ [10] ++ js "  - root: must not have additional properties")
    (fields_of [("limit", DNum (JInt 1)); ("force", DBool true)]%string)).
Proof. vm_compute. reflexivity. Qed.

Example unknown_tool : validateToolCall 100 [(js "read", build parameters)] (js "write") (DObj []) = Err (ToolNotFound (js "write")).
Proof. reflexivity. Qed.

(** A record whose other keys hold numbers: the conversion takes a conforming text for one of
    the other keys, and the validation rejects it. *)
Definition labels : PiSchema := PiRecord (PiString no_string) (PiString no_string) None (SchemaAdditional (PiNumber no_number)).

Example record_additional_rejected :
  Static [] labels (fields_of [("size", DStr (js "5"))]%string) /\
  validateToolArguments 100 (build labels) (js "label") (fields_of [("size", DStr (js "5"))]%string) =
  Err (InvalidArguments (js "label") (js "  - size: must be string") (fields_of [("size", DStr (js "5"))]%string)).
Proof.
  split; [|vm_compute; reflexivity]. apply Static_Record.
  - intros k v Hin%list_elem_of_singleton _. injection Hin as -> ->. constructor; [by split; intros ? [=]|by intros ? [=]].
  - intros k v Hin%list_elem_of_singleton Hk. injection Hin as -> ->. destruct Hk. by_decide.
Qed.
End ToolArguments.
Import ToolArguments.

Lemma tool_arguments_typed_witness :
  scoped_at [] false ToolArguments.parameters = true /\
  exists fuel, validateToolArguments fuel (build ToolArguments.parameters) (js "read") (DObj ToolArguments.exact_arguments) = Ok (DObj ToolArguments.exact_arguments).
Proof.
  split; [reflexivity|]. exists (steps_for ToolArguments.parameters (DObj ToolArguments.exact_arguments)).
  apply (proj2 (tool_arguments_typed ToolArguments.parameters (js "read") ToolArguments.exact_arguments eq_refl)); [reflexivity..| |lia].
  apply (check_returns [] _ _ 10 100 true); [split_and!; [reflexivity|constructor|constructor]|vm_compute; reflexivity|vm_compute; reflexivity|reflexivity].
Defined.
