(* ===== verification/MiniDiff.v ===== *)
(** Differences of texts: [packages/ai/src/utils/mini-diff.ts].

    A difference is a script of operations on positions of two lists of lines or words, found
    with the table of the lengths of longest common subsequences. *)
From S2P Require Import Prelude JsNumber JsText JsObject JsData.
Local Open Scope Z_scope.

Inductive DiffKind : Type := OpEqual | OpDelete | OpInsert.

#[export] Instance DiffKind_eq_dec : EqDecision DiffKind.
Proof. solve_decision. Defined.

Record DiffOp := mkDiffOp { op : DiffKind; aIndex : nat; bIndex : nat }.

Definition MAX_DP_CELLS : Z := 9000000.

Section diff.
Context {A : Type} `{EqDecision A}.

(** The loop over the common prefix. *)
Fixpoint common_prefix (a b : list A) : nat :=
  match a, b with
  | x :: a', y :: b' => if decide (x = y) then S (common_prefix a' b') else 0%nat
  | _, _ => 0%nat
  end.

(** The loop over the common suffix: [aEnd] and [bEnd]. *)
Fixpoint trim_suffix (prefix : nat) (a b : list A) (aEnd bEnd : nat) : nat * nat :=
  match aEnd, bEnd with
  | S aEnd', S bEnd' =>
      if (prefix <? aEnd)%nat && (prefix <? bEnd)%nat && bool_decide (a !! aEnd' = b !! bEnd')
      then trim_suffix prefix a b aEnd' bEnd'
      else (aEnd, bEnd)
  | _, _ => (aEnd, bEnd)
  end.

(** ** The table *)

(** Row [i] from right to left, given row [i + 1] in [below]. *)
Fixpoint lcs_row (x : A) (b : list A) (below : list nat) : list nat :=
  match b, below with
  | y :: b', down :: below' =>
      let rest := lcs_row x b' below' in
      (if decide (x = y) then S (default 0%nat (head below'))
       else let right := default 0%nat (head rest) in if (right <=? down)%nat then down else right) :: rest
  | _, _ => [0%nat]
  end.

(** All rows, the last one first computed. *)
Fixpoint lcs_table (a b : list A) : list (list nat) :=
  match a with
  | [] => [replicate (S (length b)) 0%nat]
  | x :: a' => let rows := lcs_table a' b in lcs_row x b (default [] (head rows)) :: rows
  end.

Definition cell (lcs : list (list nat)) (i j : nat) : nat := default 0%nat (row ← lcs !! i; row !! j).

(** The walk through the table and the loops over what is left; the rounds are bounded by
    [fuel]. *)
Fixpoint walk_table (fuel : nat) (lcs : list (list nat)) (a b : list A) (i j : nat) : list DiffOp :=
  match fuel with
  | O => []
  | S fuel' =>
      match a !! i, b !! j with
      | Some x, Some y =>
          if decide (x = y) then mkDiffOp OpEqual i j :: walk_table fuel' lcs a b (S i) (S j)
          else if (cell lcs i (S j) <=? cell lcs (S i) j)%nat then mkDiffOp OpDelete i j :: walk_table fuel' lcs a b (S i) j
          else mkDiffOp OpInsert i j :: walk_table fuel' lcs a b i (S j)
      | Some _, None => mkDiffOp OpDelete i j :: walk_table fuel' lcs a b (S i) j
      | None, Some _ => mkDiffOp OpInsert i j :: walk_table fuel' lcs a b i (S j)
      | None, None => []
      end
  end.

Definition diffMiddle (a b : list A) : list DiffOp :=
  let n := length a in
  let m := length b in
  if (n =? 0)%nat && (m =? 0)%nat then []
  else if (n =? 0)%nat then map (fun j => mkDiffOp OpInsert 0 j) (seq 0 m)
  else if (m =? 0)%nat then map (fun i => mkDiffOp OpDelete i 0) (seq 0 n)
  else if (MAX_DP_CELLS <? Z.of_nat (n * m)) then
    map (fun i => mkDiffOp OpDelete i 0) (seq 0 n) ++ map (fun j => mkDiffOp OpInsert n j) (seq 0 m)
  else walk_table (n + m) (lcs_table a b) a b 0 0.

Definition slice (l : list A) (from to : nat) : list A := take (to - from) (drop from l).

Definition diffOps (a b : list A) : list DiffOp :=
  let prefix := common_prefix a b in
  let '(aEnd, bEnd) := trim_suffix prefix a b (length a) (length b) in
  map (fun i => mkDiffOp OpEqual i i) (seq 0 prefix) ++
  map (fun o => mkDiffOp (op o) (aIndex o + prefix) (bIndex o + prefix)) (diffMiddle (slice a prefix aEnd) (slice b prefix bEnd)) ++
  map (fun i => mkDiffOp OpEqual i (bEnd + (i - aEnd))) (seq aEnd (length a - aEnd)).
End diff.

(** ** Lines and words *)

Definition NEWLINE : Z := 10.

(** The lines of a text with their ends; [acc] is the line that is being read. *)
Fixpoint keep_eol (acc text : jsstr) : list jsstr :=
  match text with
  | [] => match acc with [] => [] | _ => [acc] end
  | u :: text' => if decide (u = NEWLINE) then (acc ++ [u]) :: keep_eol [] text' else keep_eol (acc ++ [u]) text'
  end.

Definition splitLinesKeepEol (text : jsstr) : list jsstr := keep_eol [] text.

Definition is_word_char (u : Z) : bool := in_range 97 122 u || in_range 65 90 u || in_range 48 57 u || (u =? 95).

(** The longest prefix of units that satisfy [p], and the rest. *)
Fixpoint take_while (p : Z -> bool) (s : jsstr) : jsstr * jsstr :=
  match s with
  | u :: s' => if p u then let '(l, r) := take_while p s' in (u :: l, r) else ([], s)
  | [] => ([], [])
  end.

(** The word, the run of spaces or the single unit at the start of a text. *)
Definition next_token (text : jsstr) : jsstr * jsstr :=
  match text with
  | [] => ([], [])
  | u :: rest =>
      if is_word_char u then take_while is_word_char text
      else if is_white_space u then take_while is_white_space text
      else ([u], rest)
  end.

Fixpoint tokens (fuel : nat) (text : jsstr) : list jsstr :=
  match fuel, text with
  | S fuel', _ :: _ => let '(matched, rest) := next_token text in matched :: tokens fuel' rest
  | _, _ => []
  end.

Definition tokenizeWords (text : jsstr) : list jsstr := tokens (length text) text.

(** ** Parts *)

Record DiffPart := mkDiffPart { dp_value : jsstr; dp_added : bool; dp_removed : bool; dp_count : nat }.

Record DiffEntry := mkDiffEntry { de_value : jsstr; de_op : DiffKind }.

Definition is_insert (k : DiffKind) : bool := match k with OpInsert => true | _ => false end.
Definition is_delete (k : DiffKind) : bool := match k with OpDelete => true | _ => false end.

(** Adds an entry to the last part or as a new one. *)
Definition merge_entry (parts : list DiffPart) (entry : DiffEntry) : list DiffPart :=
  let added := is_insert (de_op entry) in
  let removed := is_delete (de_op entry) in
  match last parts with
  | Some previous =>
      if Bool.eqb (dp_added previous) added && Bool.eqb (dp_removed previous) removed
      then take (pred (length parts)) parts ++ [mkDiffPart (dp_value previous ++ de_value entry) added removed (S (dp_count previous))]
      else parts ++ [mkDiffPart (de_value entry) added removed 1]
  | None => parts ++ [mkDiffPart (de_value entry) added removed 1]
  end.

Definition mergeParts (entries : list DiffEntry) : list DiffPart := foldl merge_entry [] entries.

(** The text an operation is about. *)
Definition op_text (a b : list jsstr) (o : DiffOp) : jsstr :=
  match op o with OpInsert => default [] (b !! bIndex o) | _ => default [] (a !! aIndex o) end.

Definition entries_of (a b : list jsstr) : list DiffEntry := map (fun o => mkDiffEntry (op_text a b o) (op o)) (diffOps a b).

Definition diffLines (oldStr newStr : jsstr) : list DiffPart :=
  mergeParts (entries_of (splitLinesKeepEol oldStr) (splitLinesKeepEol newStr)).

Definition diffWords (oldStr newStr : jsstr) : list DiffPart :=
  mergeParts (entries_of (tokenizeWords oldStr) (tokenizeWords newStr)).

(** ** Patches *)

Record PatchOptions := mkPatchOptions { po_context : nat; po_underline : bool; po_fileHeaders : bool }.

Definition hunkHeader (aStart aCount bStart bCount : nat) : jsstr :=
  let num n := decimal (Z.of_nat n) in
  js "@@ -" ++ num aStart ++ js "," ++ num aCount ++ js " +" ++ num bStart ++ js "," ++ num bCount ++ js " @@".

(** [aBefore[i]] and [bBefore[i]]: the lines of each side before change [i]. *)
Definition before (skip : DiffKind) (changes : list DiffEntry) (i : nat) : nat :=
  length (List.filter (fun c => negb (bool_decide (de_op c = skip))) (take i changes)).

(** The length of the run of changes that satisfy [p]. *)
Fixpoint run_length (p : DiffEntry -> bool) (changes : list DiffEntry) : nat :=
  match changes with c :: changes' => if p c then S (run_length p changes') else 0%nat | [] => 0%nat end.

Definition is_equal (c : DiffEntry) : bool := match de_op c with OpEqual => true | _ => false end.

(** The hunks from a change on, by their first change and the one after the last. *)
Fixpoint hunks (fuel : nat) (context : nat) (changes : list DiffEntry) (index : nat) : list (nat * nat) :=
  match fuel with
  | O => []
  | S fuel' =>
      let changeStart := (index + run_length is_equal (drop index changes))%nat in
      if (length changes <=? changeStart)%nat then []
      else
        let changeEnd := (changeStart + run_length (fun c => negb (is_equal c)) (drop changeStart changes))%nat in
        let equalEnd := (changeEnd + run_length is_equal (drop changeEnd changes))%nat in
        let equalBefore := Nat.min changeStart context in
        let equalAfter := Nat.min (equalEnd - changeEnd) context in
        ((changeStart - equalBefore)%nat, (changeEnd + equalAfter)%nat) :: hunks fuel' context changes (changeEnd + equalAfter)
  end.

Definition change_lines (c : DiffEntry) : list jsstr :=
  let body := (match de_op c with OpEqual => 32 | OpDelete => 45 | OpInsert => 43 end) :: de_value c in
  if bool_decide (last body = Some NEWLINE) then [take (pred (length body)) body] else [body; js "\ No newline at end of file"].

Definition hunk_lines (changes : list DiffEntry) (hunk : nat * nat) : list jsstr :=
  let '(hunkStart, hunkEnd) := hunk in
  let body := slice changes hunkStart hunkEnd in
  let aCount := length (List.filter (fun c => negb (is_insert (de_op c))) body) in
  let bCount := length (List.filter (fun c => negb (is_delete (de_op c))) body) in
  let start skip count := if (count =? 0)%nat then before skip changes hunkStart else S (before skip changes hunkStart) in
  hunkHeader (start OpInsert aCount) aCount (start OpDelete bCount) bCount :: flat_map change_lines body.

Definition file_header_line (sign fileName : jsstr) (header : option jsstr) : jsstr :=
  sign ++ fileName ++ match header with Some (u :: h) => 9 :: u :: h | _ => [] end.

Definition createTwoFilesPatch (oldFileName newFileName oldStr newStr : jsstr) (oldHeader newHeader : option jsstr) (options : PatchOptions) : jsstr :=
  let changes := entries_of (splitLinesKeepEol oldStr) (splitLinesKeepEol newStr) in
  let lines :=
    (if po_fileHeaders options then [file_header_line (js "--- ") oldFileName oldHeader; file_header_line (js "+++ ") newFileName newHeader] else []) ++
    (if po_underline options then [js "===="] else []) ++
    flat_map (hunk_lines changes) (hunks (length changes) (po_context options) changes 0) in
  flat_map (fun line => line ++ [NEWLINE]) lines.

(** * Difference scripts: they turn one list into the other, and keep as many elements as
    possible. *)
Local Open Scope nat_scope.

Section scripts.
Context {A : Type} `{EqDecision A}.

(** A script by the elements it keeps, deletes and inserts. *)
Abbreviation script := (list (DiffKind * A)).

Definition old_item (e : DiffKind * A) : option A := if is_insert e.1 then None else Some e.2.
Definition new_item (e : DiffKind * A) : option A := if is_delete e.1 then None else Some e.2.
Definition kept_item (e : DiffKind * A) : option A := match e.1 with OpEqual => Some e.2 | _ => None end.

Definition old_side (es : script) : list A := omap old_item es.
Definition new_side (es : script) : list A := omap new_item es.
Definition common (es : script) : list A := omap kept_item es.

Definition op_item (a b : list A) (o : DiffOp) : option A := match op o with OpInsert => b !! bIndex o | _ => a !! aIndex o end.

(** The operations, read as a script. *)
Definition reads (a b : list A) (ops : list DiffOp) (es : script) : Prop :=
  Forall2 (fun o e => op o = e.1 /\ op_item a b o = Some e.2) ops es.

(** Common sublists have at most [n] elements. *)
Definition common_bound (a b : list A) (n : nat) : Prop := forall l, l `sublist_of` a -> l `sublist_of` b -> length l <= n.

Lemma common_old es : common es `sublist_of` old_side es.
Proof. induction es as [|[[] x] es IH]; unfold common, old_side in *; cbn; auto using sublist_nil_l, sublist_skip, sublist_cons. Qed.

Lemma common_new es : common es `sublist_of` new_side es.
Proof. induction es as [|[[] x] es IH]; unfold common, new_side in *; cbn; auto using sublist_nil_l, sublist_skip, sublist_cons. Qed.

Lemma sides_app es1 es2 : old_side (es1 ++ es2) = old_side es1 ++ old_side es2 /\ new_side (es1 ++ es2) = new_side es1 ++ new_side es2 /\
  common (es1 ++ es2) = common es1 ++ common es2.
Proof. unfold old_side, new_side, common. by rewrite !omap_app. Qed.

(** ** The table *)

(** The length of a longest common sublist. *)
Fixpoint lcs (a b : list A) : nat :=
  match a with
  | [] => 0
  | x :: a' =>
      (fix go b := match b with
        | [] => 0
        | y :: b' => if decide (x = y) then S (lcs a' b') else Nat.max (lcs a' b) (go b')
        end) b
  end.

Lemma lcs_nil_r a : lcs a [] = 0.
Proof. by destruct a. Qed.

Lemma lcs_cons x a y b : lcs (x :: a) (y :: b) = if decide (x = y) then S (lcs a b) else Nat.max (lcs a (y :: b)) (lcs (x :: a) b).
Proof. done. Qed.

Lemma lcs_bound a : forall b, common_bound a b (lcs a b).
Proof.
  induction a as [|x a IHa]; [intros b l Ha%sublist_nil_r _; by subst|].
  induction b as [|y b IHb]; intros l Ha Hb; [apply sublist_nil_r in Hb; by subst|]. rewrite lcs_cons. destruct (decide (x = y)) as [<-|Hne].
  - apply sublist_cons_r in Ha as [Ha|(l' & -> & Ha)], Hb as [Hb|(l'' & Hl & Hb)].
    + specialize (IHa b l Ha Hb). lia.
    + subst l. cbn [length]. enough (length l'' <= lcs a b) by lia. apply IHa; [|done]. etransitivity; [|exact Ha]. by apply sublist_cons.
    + cbn [length]. enough (length l' <= lcs a b) by lia. apply IHa; [done|]. etransitivity; [|exact Hb]. by apply sublist_cons.
    + injection Hl as <-. cbn [length]. specialize (IHa b l' Ha Hb). lia.
  - apply sublist_cons_r in Ha as [Ha|(l' & -> & Ha)]; [specialize (IHa (y :: b) l Ha Hb); lia|].
    apply sublist_cons_r in Hb as [Hb|(l'' & [= ? ?] & Hb)]; [|congruence].
    assert (length (x :: l') <= lcs (x :: a) b); [|lia]. apply IHb; [by apply sublist_skip|done].
Qed.

Fixpoint tails (b : list A) : list (list A) := match b with [] => [[]] | _ :: b' => b :: tails b' end.

Lemma head_tails b : exists l, tails b = b :: l.
Proof. destruct b; by eexists. Qed.

Lemma lookup_tails b j : j <= length b -> tails b !! j = Some (drop j b).
Proof.
  revert j. induction b as [|y b IH]; intros [|j] Hj; cbn in *; try done; [lia|]. apply IH. lia.
Qed.

Lemma row_spec x a b : lcs_row x b (map (lcs a) (tails b)) = map (lcs (x :: a)) (tails b).
Proof.
  induction b as [|y b IH]; [done|]. cbn [tails map lcs_row]. rewrite IH. f_equal. destruct (head_tails b) as [l ->]. cbn [map head default from_option id].
  rewrite lcs_cons. destruct (decide (x = y)); [done|]. destruct (Nat.leb_spec (lcs (x :: a) b) (lcs a (y :: b))); lia.
Qed.

Lemma table_spec a b : lcs_table a b = map (fun a' => map (lcs a') (tails b)) (tails a).
Proof.
  induction a as [|x a IH]; cbn [lcs_table tails map].
  - f_equal. induction b as [|y b IH]; cbn in *; [done|]. by f_equal.
  - rewrite IH. f_equal. destruct (head_tails a) as [l ->]. cbn [map head default from_option id]. apply row_spec.
Qed.

Lemma cell_spec a b i j : i <= length a -> j <= length b -> cell (lcs_table a b) i j = lcs (drop i a) (drop j b).
Proof.
  intros Hi Hj. unfold cell. rewrite table_spec, list_lookup_fmap, lookup_tails by done. cbn [fmap option_fmap option_map mbind option_bind].
  by rewrite list_lookup_fmap, lookup_tails.
Qed.

(** The table of the lists is not too large. *)
Definition within_table (a b : list A) : Prop := (Z.of_nat (length a * length b) <= MAX_DP_CELLS)%Z.

(** ** Scripts of the parts *)

(** A script from [a] to [b] that keeps at least [n] elements. *)
Definition scripted (a b : list A) (ops : list DiffOp) (a' b' : list A) (n : nat) : Prop :=
  exists es, reads a b ops es /\ old_side es = a' /\ new_side es = b' /\ length (common es) = n.

Lemma scripted_cons a b o ops x a' b' n : op_item a b o = Some x -> scripted a b ops a' b' n ->
  scripted a b (o :: ops) (match op o with OpInsert => a' | _ => x :: a' end) (match op o with OpDelete => b' | _ => x :: b' end)
    (match op o with OpEqual => S n | _ => n end).
Proof.
  intros Ho (es & Hr & <- & <- & <-). exists ((op o, x) :: es). split; [by constructor|]. unfold old_side, new_side, common. cbn. by destruct (op o).
Qed.

Lemma scripted_nil a b : scripted a b [] [] [] 0.
Proof. exists []. by split; [constructor|]. Qed.

Lemma walk_spec a b fuel : forall i j, i <= length a -> j <= length b -> (length a - i) + (length b - j) <= fuel ->
  scripted a b (walk_table fuel (lcs_table a b) a b i j) (drop i a) (drop j b) (lcs (drop i a) (drop j b)).
Proof.
  induction fuel as [|fuel IH]; intros i j Hi Hj Hf; cbn [walk_table].
  { rewrite !drop_ge by lia. apply scripted_nil. }
  destruct (a !! i) as [x|] eqn:Hx, (b !! j) as [y|] eqn:Hy.
  - pose proof (lookup_lt_Some _ _ _ Hx). pose proof (lookup_lt_Some _ _ _ Hy). rewrite (drop_S a x i Hx), (drop_S b y j Hy), lcs_cons.
    destruct (decide (x = y)) as [<-|Hne].
    + apply (scripted_cons a b (mkDiffOp OpEqual i j) _ x _ _ _ Hx). apply IH; lia.
    + rewrite !cell_spec by lia. destruct (Nat.leb_spec (lcs (drop i a) (drop (S j) b)) (lcs (drop (S i) a) (drop j b))) as [Hle|Hlt].
      * pose proof (scripted_cons a b (mkDiffOp OpDelete i j) _ x _ _ _ Hx (IH (S i) j ltac:(lia) ltac:(lia) ltac:(lia))) as Hs. cbn [op] in Hs.
        rewrite (drop_S a x i Hx), (drop_S b y j Hy) in *. by rewrite Nat.max_l.
      * pose proof (scripted_cons a b (mkDiffOp OpInsert i j) _ y _ _ _ Hy (IH i (S j) ltac:(lia) ltac:(lia) ltac:(lia))) as Hs. cbn [op] in Hs.
        rewrite (drop_S a x i Hx), (drop_S b y j Hy) in *. by rewrite Nat.max_r by lia.
  - pose proof (lookup_lt_Some _ _ _ Hx). apply lookup_ge_None in Hy.
    pose proof (scripted_cons a b (mkDiffOp OpDelete i j) _ x _ _ _ Hx (IH (S i) j ltac:(lia) ltac:(lia) ltac:(lia))) as Hs. cbn [op] in Hs.
    rewrite (drop_ge b) in * by lia. rewrite lcs_nil_r in *. by rewrite (drop_S a x i Hx).
  - apply lookup_ge_None in Hx. pose proof (lookup_lt_Some _ _ _ Hy).
    pose proof (scripted_cons a b (mkDiffOp OpInsert i j) _ y _ _ _ Hy (IH i (S j) ltac:(lia) ltac:(lia) ltac:(lia))) as Hs. cbn [op] in Hs.
    rewrite (drop_ge a) in * by lia. by rewrite (drop_S b y j Hy).
  - apply lookup_ge_None in Hx. apply lookup_ge_None in Hy. rewrite !drop_ge by lia. apply scripted_nil.
Qed.

Lemma scripted_app a b ops1 ops2 a1 a2 b1 b2 n1 n2 : scripted a b ops1 a1 b1 n1 -> scripted a b ops2 a2 b2 n2 ->
  scripted a b (ops1 ++ ops2) (a1 ++ a2) (b1 ++ b2) (n1 + n2).
Proof.
  intros (es1 & Hr1 & <- & <- & <-) (es2 & Hr2 & <- & <- & <-). exists (es1 ++ es2). destruct (sides_app es1 es2) as (-> & -> & ->).
  split_and!; [by apply Forall2_app|done|done|by rewrite length_app].
Qed.

Lemma take_drop_S (l : list A) i x m : l !! i = Some x -> take (S m) (drop i l) = x :: take m (drop (S i) l).
Proof. intros Hx. by rewrite (drop_S l x i Hx). Qed.

Lemma scripted_deletes a b j m : forall i, i + m <= length a -> scripted a b (map (fun i => mkDiffOp OpDelete i j) (seq i m)) (take m (drop i a)) [] 0.
Proof.
  induction m as [|m IH]; intros i Hi; cbn [seq map]; [apply scripted_nil|]. destruct (lookup_lt_is_Some_2 a i ltac:(lia)) as [x Hx].
  rewrite (take_drop_S a i x m Hx). apply (scripted_cons a b (mkDiffOp OpDelete i j) _ x _ _ _ Hx). apply IH. lia.
Qed.

Lemma scripted_inserts a b i m : forall j, j + m <= length b -> scripted a b (map (fun j => mkDiffOp OpInsert i j) (seq j m)) [] (take m (drop j b)) 0.
Proof.
  induction m as [|m IH]; intros j Hj; cbn [seq map]; [apply scripted_nil|]. destruct (lookup_lt_is_Some_2 b j ltac:(lia)) as [x Hx].
  rewrite (take_drop_S b j x m Hx). apply (scripted_cons a b (mkDiffOp OpInsert i j) _ x _ _ _ Hx). apply IH. lia.
Qed.

Lemma scripted_equals a b f m : forall i, i + m <= length a ->
  scripted a b (map (fun i => mkDiffOp OpEqual i (f i)) (seq i m)) (take m (drop i a)) (take m (drop i a)) m.
Proof.
  induction m as [|m IH]; intros i Hi; cbn [seq map]; [apply scripted_nil|]. destruct (lookup_lt_is_Some_2 a i ltac:(lia)) as [x Hx].
  rewrite (take_drop_S a i x m Hx). apply (scripted_cons a b (mkDiffOp OpEqual i (f i)) _ x _ _ _ Hx). apply IH. lia.
Qed.

Lemma lookup_slice (l : list A) from to i x : slice l from to !! i = Some x -> l !! (i + from) = Some x.
Proof. unfold slice. intros [Hx _]%lookup_take_Some. rewrite lookup_drop in Hx. by rewrite Nat.add_comm. Qed.

Lemma scripted_shift a b p aEnd bEnd ops a' b' n : scripted (slice a p aEnd) (slice b p bEnd) ops a' b' n ->
  scripted a b (map (fun o => mkDiffOp (op o) (aIndex o + p) (bIndex o + p)) ops) a' b' n.
Proof.
  intros (es & Hr & Ha & Hb & Hn). exists es. split_and!; [|done..]. clear Ha Hb Hn. induction Hr as [|o e ops es [Hk Hi] _ IH]; [constructor|].
  cbn [map]. constructor; [|exact IH]. cbn [op]. split; [done|]. unfold op_item in *. cbn [op aIndex bIndex]. destruct (op o); by apply lookup_slice in Hi.
Qed.

Lemma middle_spec a b : exists n, scripted a b (diffMiddle a b) a b n /\ (within_table a b -> common_bound a b n).
Proof.
  unfold diffMiddle. destruct (Nat.eqb_spec (length a) 0) as [Ha|Ha], (Nat.eqb_spec (length b) 0) as [Hb|Hb]; cbn [andb].
  - apply nil_length_inv in Ha, Hb. subst. exists 0. split; [apply scripted_nil|]. intros _ l Hl%sublist_nil_r _. by subst.
  - exists 0. apply nil_length_inv in Ha. subst. split; [|intros _ l Hl%sublist_nil_r _; by subst].
    pose proof (scripted_inserts [] b 0 (length b) 0 ltac:(lia)) as Hs. by rewrite drop_0, firstn_all in Hs.
  - exists 0. apply nil_length_inv in Hb. subst. split; [|intros _ l _ Hl%sublist_nil_r; by subst].
    pose proof (scripted_deletes a [] 0 (length a) 0 ltac:(lia)) as Hs. by rewrite drop_0, firstn_all in Hs.
  - destruct (Z.ltb_spec MAX_DP_CELLS (Z.of_nat (length a * length b))) as [Hlt|Hle].
    + exists 0. split; [|unfold within_table; lia]. pose proof (scripted_deletes a b 0 (length a) 0 ltac:(lia)) as Hs1. pose proof (scripted_inserts a b (length a) (length b) 0 ltac:(lia)) as Hs2.
      rewrite drop_0, firstn_all in Hs1, Hs2. pose proof (scripted_app _ _ _ _ _ _ _ _ _ _ Hs1 Hs2) as Hs. by rewrite app_nil_r in Hs.
    + exists (lcs a b). split; [|intros _; apply lcs_bound]. by apply (walk_spec a b (length a + length b) 0 0); lia.
Qed.

(** ** Trimming *)

Lemma prefix_spec (a : list A) : forall b, take (common_prefix a b) a = take (common_prefix a b) b /\ common_prefix a b <= length a /\ common_prefix a b <= length b.
Proof.
  induction a as [|x a IH]; intros [|y b]; cbn [common_prefix length]; try (split_and!; [done|lia|lia]). destruct (decide (x = y)) as [<-|]; [|split_and!; [done|lia|lia]].
  destruct (IH b) as (Heq & ? & ?). cbn [take]. split_and!; [by rewrite Heq|lia|lia].
Qed.

Lemma suffix_spec p (a b : list A) : forall aEnd bEnd aEnd' bEnd', trim_suffix p a b aEnd bEnd = (aEnd', bEnd') ->
  aEnd <= length a -> bEnd <= length b -> p <= aEnd -> p <= bEnd -> drop aEnd a = drop bEnd b ->
  p <= aEnd' <= length a /\ p <= bEnd' <= length b /\ drop aEnd' a = drop bEnd' b.
Proof.
  induction aEnd as [|aEnd IH]; intros bEnd aEnd' bEnd' Ht Ha Hb Hpa Hpb Hd; cbn [trim_suffix] in Ht; [by injection Ht as <- <-|].
  destruct bEnd as [|bEnd]; [by injection Ht as <- <-|].
  destruct (_ && _ && _) eqn:Hc; [|by injection Ht as <- <-]. rewrite !andb_true_iff, bool_decide_eq_true, !Nat.ltb_lt in Hc. destruct Hc as [[Hc1 Hc2] Hl].
  apply (IH _ _ _ Ht); try lia. destruct (lookup_lt_is_Some_2 a aEnd ltac:(lia)) as [x Hx]. rewrite Hx in Hl.
  rewrite (drop_S a x aEnd Hx), (drop_S b x bEnd (eq_sym Hl)). by rewrite Hd.
Qed.

Lemma bound_suffix (a b s : list A) n : common_bound a b n -> common_bound (a ++ s) (b ++ s) (n + length s).
Proof.
  intros Hn l (l1 & l2 & -> & Ha & Hs)%sublist_app_r (k1 & k2 & Hl & Hb & Hs')%sublist_app_r. rewrite length_app. destruct (decide (length l1 <= length k1)) as [Hle|Hle].
  - assert (l1 = take (length l1) k1) as Heq.
    { apply (f_equal (take (length l1))) in Hl. rewrite take_app_length, take_app_le in Hl by done. done. }
    assert (length l1 <= n) by (apply Hn; [done|]; etransitivity; [|exact Hb]; rewrite Heq; apply sublist_take). apply sublist_length in Hs. lia.
  - assert (k1 = take (length k1) l1) as Heq.
    { apply (f_equal (take (length k1))) in Hl. rewrite take_app_length, take_app_le in Hl by lia. done. }
    assert (length k1 <= n) by (apply Hn; [|done]; etransitivity; [|exact Ha]; rewrite Heq; apply sublist_take).
    apply sublist_length in Hs'. apply (f_equal length) in Hl. rewrite !length_app in Hl. lia.
Qed.

Lemma bound_prefix (a b p : list A) n : common_bound a b n -> common_bound (p ++ a) (p ++ b) (length p + n).
Proof.
  intros Hn l (l1 & l2 & -> & Hp & Ha)%sublist_app_r (k1 & k2 & Hl & Hp' & Hb)%sublist_app_r. rewrite length_app. destruct (decide (length l1 <= length k1)) as [Hle|Hle].
  - assert (k2 = drop (length k1) (l1 ++ l2)) as Heq by (by rewrite Hl, drop_app_length).
    rewrite drop_app_ge in Heq by lia. assert (length k2 <= n) by (apply Hn; [|done]; etransitivity; [|exact Ha]; rewrite Heq; apply sublist_drop).
    apply sublist_length in Hp'. apply (f_equal length) in Hl. rewrite !length_app in Hl. lia.
  - assert (l2 = drop (length l1) (k1 ++ k2)) as Heq by (by rewrite <- Hl, drop_app_length).
    rewrite drop_app_ge in Heq by lia. assert (length l2 <= n) by (apply Hn; [done|]; etransitivity; [|exact Hb]; rewrite Heq; apply sublist_drop).
    apply sublist_length in Hp. lia.
Qed.

Lemma slice_split (l : list A) p e : p <= e <= length l -> take p l ++ slice l p e ++ drop e l = l.
Proof.
  intros Hp. unfold slice. rewrite <- (take_drop p l) at 4. f_equal. rewrite <- (take_drop (e - p) (drop p l)) at 2. f_equal. rewrite drop_drop. f_equal. lia.
Qed.

(** The script of two lists turns one into the other and, when the table is not too large,
    keeps as many elements as possible. *)
Lemma ops_spec a b : exists n, scripted a b (diffOps a b) a b n /\ (within_table a b -> common_bound a b n).
Proof.
  unfold diffOps. set (p := common_prefix a b). destruct (prefix_spec a b) as (Hp & Hpa & Hpb). fold p in Hp, Hpa, Hpb.
  destruct (trim_suffix p a b (length a) (length b)) as [aEnd bEnd] eqn:Ht.
  destruct (suffix_spec p a b _ _ _ _ Ht) as (Ha & Hb & Hs); [lia..|by rewrite !drop_ge|].
  destruct (middle_spec (slice a p aEnd) (slice b p bEnd)) as (n & Hm & Hbound). exists (p + (n + (length a - aEnd))). split.
  - pose proof (scripted_equals a b (fun i => i) p 0 ltac:(lia)) as H1. rewrite drop_0, Hp in H1. rewrite <- Hp in H1 at 1.
    apply scripted_shift in Hm. pose proof (scripted_equals a b (fun i => bEnd + (i - aEnd)) (length a - aEnd) aEnd ltac:(lia)) as H3.
    rewrite firstn_all2 in H3 by (rewrite length_drop; lia). rewrite Hs in H3. rewrite <- Hs in H3 at 1.
    pose proof (scripted_app _ _ _ _ _ _ _ _ _ _ H1 (scripted_app _ _ _ _ _ _ _ _ _ _ Hm H3)) as H. by rewrite !slice_split in H.
  - intros Hmax. assert (length (slice a p aEnd) <= length a /\ length (slice b p bEnd) <= length b) as [H1 H2] by (unfold slice; rewrite !length_take, !length_drop; lia).
    pose proof (bound_prefix _ _ (take p a) _ (bound_suffix _ _ (drop aEnd a) _ (Hbound ltac:(unfold within_table in *; nia)))) as Hall.
    rewrite length_take, length_drop, Nat.min_l, slice_split in Hall by lia. rewrite Hp, Hs in Hall. by rewrite slice_split in Hall.
Qed.
End scripts.

(** ** Tokens *)

Lemma eol_concat text : forall acc, concat (keep_eol acc text) = acc ++ text.
Proof.
  induction text as [|u text IH]; intros acc; cbn [keep_eol].
  - destruct acc; cbn; by rewrite ?app_nil_r.
  - destruct (decide (u = NEWLINE)); cbn [concat]; rewrite IH; by rewrite <- ?app_assoc.
Qed.

Lemma lines_concat text : concat (splitLinesKeepEol text) = text.
Proof. apply eol_concat. Qed.

Lemma take_while_app p s : forall l r, take_while p s = (l, r) -> s = l ++ r.
Proof.
  induction s as [|u s IH]; cbn [take_while]; intros l r; [by intros [= <- <-]|]. destruct (p u); [|by intros [= <- <-]].
  destruct (take_while p s) as [l' r'] eqn:Ht. intros [= <- <-]. cbn. by rewrite (IH _ _ eq_refl).
Qed.

Lemma next_token_app text l r : next_token text = (l, r) -> text = l ++ r /\ (text <> [] -> l <> []).
Proof.
  destruct text as [|u text]; cbn [next_token]; [by intros [= <- <-]|]. destruct (is_word_char u) eqn:Hw; [|destruct (is_white_space u) eqn:Hs].
  - intros Ht. split; [by apply take_while_app in Ht|]. intros _ ->. cbn [take_while] in Ht. rewrite Hw in Ht. by destruct (take_while _ text).
  - intros Ht. split; [by apply take_while_app in Ht|]. intros _ ->. cbn [take_while] in Ht. rewrite Hs in Ht. by destruct (take_while _ text).
  - by intros [= <- <-].
Qed.

Lemma tokens_concat fuel : forall text, length text <= fuel -> concat (tokens fuel text) = text.
Proof.
  induction fuel as [|fuel IH]; intros [|u text] Hf; cbn [tokens length] in *; try done; [lia|]. destruct (next_token (u :: text)) as [l r] eqn:Ht.
  apply next_token_app in Ht as [Heq Hl]. cbn [concat]. assert (length l <> 0) by (intros ?%nil_length_inv; by apply Hl).
  apply (f_equal length) in Heq as Hlen. rewrite length_app in Hlen. cbn [length] in Hlen. rewrite IH by lia. done.
Qed.

Lemma words_concat text : concat (tokenizeWords text) = text.
Proof. by apply tokens_concat. Qed.

(** ** Parts *)

Definition old_text (parts : list DiffPart) : jsstr := flat_map (fun p => if dp_added p then [] else dp_value p) parts.
Definition new_text (parts : list DiffPart) : jsstr := flat_map (fun p => if dp_removed p then [] else dp_value p) parts.
Definition unchanged (p : DiffPart) : bool := negb (dp_added p) && negb (dp_removed p).
Definition unchanged_count (parts : list DiffPart) : nat := sum_list_with (fun p => if unchanged p then dp_count p else 0) parts.

(** Neighbours are of different kinds. *)
Definition part_kind (p : DiffPart) : bool * bool := (dp_added p, dp_removed p).
Fixpoint separated (parts : list DiffPart) : Prop :=
  match parts with
  | p :: (q :: _) as parts' => part_kind p <> part_kind q /\ separated parts'
  | _ => True
  end.

Lemma separated_snoc parts p q : separated (parts ++ [p]) -> (part_kind p <> part_kind q -> separated (parts ++ [p; q])) /\
  (part_kind p = part_kind q -> separated (parts ++ [q])).
Proof.
  induction parts as [|x parts IH]; [by intros _; split; [by split|]|]. intros Hs.
  assert (separated (parts ++ [p])) as Hs' by (destruct parts; cbn in Hs |- *; tauto). destruct (IH Hs') as [H1 H2].
  destruct parts as [|y parts]; cbn in *; split; intros Hk; split_and!; try tauto. rewrite <- Hk. tauto.
Qed.

(** What a part holds of an entry list. *)
Record merged (entries : list DiffEntry) (parts : list DiffPart) : Prop := mkMerged {
  m_old : old_text parts = flat_map (fun e => if is_insert (de_op e) then [] else de_value e) entries;
  m_new : new_text parts = flat_map (fun e => if is_delete (de_op e) then [] else de_value e) entries;
  m_count : unchanged_count parts = length (List.filter is_equal entries);
  m_separated : separated parts;
}.

Lemma merge_step entries parts e : merged entries parts -> merged (entries ++ [e]) (merge_entry parts e).
Proof.
  intros [Ho Hn Hc Hs]. set (new := mkDiffPart (de_value e) (is_insert (de_op e)) (is_delete (de_op e)) 1).
  assert (forall parts', parts = parts' -> (parts' = [] \/ exists l q, parts' = l ++ [q] /\ part_kind q <> part_kind new) -> merged (entries ++ [e]) (parts' ++ [new])) as Hnew.
  { intros parts' <- Hlast. split; unfold old_text, new_text, unchanged_count, unchanged in *; rewrite ?flat_map_app, ?sum_list_with_app, ?List.filter_app, ?length_app.
    - rewrite Ho. cbn. by rewrite !app_nil_r.
    - rewrite Hn. cbn. by rewrite !app_nil_r.
    - rewrite Hc. destruct e as [v []]; cbn; lia.
    - destruct Hlast as [->|(l & q & -> & Hq)]; [done|]. rewrite <- app_assoc. by apply (proj1 (separated_snoc l q new Hs)). }
  unfold merge_entry. destruct (last parts) as [q|] eqn:Hl.
  - apply last_Some in Hl as [l ->]. destruct (Bool.eqb (dp_added q) (is_insert (de_op e)) && Bool.eqb (dp_removed q) (is_delete (de_op e))) eqn:Hk.
    + apply andb_true_iff in Hk as [Ha%eqb_prop Hr%eqb_prop]. replace (pred (length (l ++ [q]))) with (length l) by (rewrite length_app; cbn; lia). rewrite take_app_length.
      split; unfold old_text, new_text, unchanged_count, unchanged in *; rewrite ?flat_map_app, ?sum_list_with_app, ?List.filter_app, ?length_app in *.
      * rewrite <- Ho. cbn. rewrite Ha. destruct (is_insert _); by rewrite ?app_nil_r, <- ?app_assoc.
      * rewrite <- Hn. cbn. rewrite Hr. destruct (is_delete _); by rewrite ?app_nil_r, <- ?app_assoc.
      * rewrite <- Hc. cbn. rewrite Ha, Hr. destruct e as [v []]; cbn; lia.
      * apply (proj2 (separated_snoc l q _ Hs)). unfold part_kind. cbn. by rewrite Ha, Hr.
    + apply Hnew; [done|]. right. exists l, q. split; [done|]. intros [= Ha Hr]. unfold new in *. cbn in *. by rewrite Ha, Hr, !eqb_reflx in Hk.
  - apply last_None in Hl as Hn'. apply Hnew; [done|]. by left.
Qed.

Lemma merge_spec entries : merged entries (mergeParts entries).
Proof.
  unfold mergeParts. induction entries as [|e entries IH] using rev_ind; [by split|]. rewrite foldl_app. by apply merge_step.
Qed.

(** The entries of a difference of two token lists. *)
Lemma entries_spec (a b : list jsstr) : exists es, entries_of a b = map (fun e => mkDiffEntry e.2 e.1) es /\ old_side es = a /\ new_side es = b /\
  (within_table a b -> common_bound a b (length (common es))).
Proof.
  destruct (ops_spec a b) as (n & (es & Hr & Ha & Hb & Hn) & Hbound). exists es. split_and!; [|done|done|by rewrite Hn].
  unfold entries_of. clear -Hr. induction Hr as [|o e ops es [Hk Hi] _ IH]; [done|]. cbn [map]. rewrite IH. f_equal. unfold op_text, op_item in *.
  rewrite <- Hk. f_equal. destruct (op o); by rewrite Hi.
Qed.

(** A difference of texts by tokens. *)
Definition difference (tokenize : jsstr -> list jsstr) (oldStr newStr : jsstr) (parts : list DiffPart) : Prop :=
  old_text parts = oldStr /\ new_text parts = newStr /\ separated parts /\
  (within_table (tokenize oldStr) (tokenize newStr) -> common_bound (tokenize oldStr) (tokenize newStr) (unchanged_count parts)).

Lemma parts_spec tokenize oldStr newStr : (forall s, concat (tokenize s) = s) ->
  difference tokenize oldStr newStr (mergeParts (entries_of (tokenize oldStr) (tokenize newStr))).
Proof.
  intros Htok. destruct (entries_spec (tokenize oldStr) (tokenize newStr)) as (es & He & Ha & Hb & Hbound). rewrite He.
  destruct (merge_spec (map (fun e => mkDiffEntry e.2 e.1) es)) as [Ho Hn Hc Hs]. split_and!; [| |done|].
  - rewrite Ho, <- (Htok oldStr), <- Ha. clear. induction es as [|[[] x] es IH]; unfold old_side in *; cbn; by rewrite ?IH.
  - rewrite Hn, <- (Htok newStr), <- Hb. clear. induction es as [|[[] x] es IH]; unfold new_side in *; cbn; by rewrite ?IH.
  - intros Hw. rewrite Hc. specialize (Hbound Hw). replace (length (List.filter is_equal _)) with (length (common es)); [done|].
    clear. induction es as [|[[] x] es IH]; unfold common in *; cbn; by rewrite ?IH.
Qed.
