(* ===== verification/EditDiff.v ===== *)
(** Text replacements and displayed differences: [packages/agent/src/harness/tools/edit-diff.ts].

    The compatibility normalization of Unicode ([normalize], form NFKC) is a parameter. *)
From S2P Require Import Prelude JsNumber JsText JsObject JsData MiniDiff.
Local Open Scope Z_scope.

Class Unicode := { nfkc : jsstr -> jsstr }.

Definition CR : Z := 13.
Definition BOM : Z := 0xfeff.

(** ** Texts *)

Fixpoint starts_with (s pat : jsstr) {struct pat} : bool :=
  match pat, s with
  | [], _ => true
  | p :: pat', u :: s' => (u =? p) && starts_with s' pat'
  | _ :: _, [] => false
  end.

(** [s.indexOf(pat)]. *)
Fixpoint indexOf (s pat : jsstr) : option nat :=
  if starts_with s pat then Some 0%nat
  else match s with [] => None | _ :: s' => S <$> indexOf s' pat end.

(** The line endings a text can have. *)
Inductive LineEnding : Type := EndCRLF | EndLF.

Definition detectLineEnding (content : jsstr) : LineEnding :=
  match indexOf content [CR; NEWLINE], indexOf content [NEWLINE] with
  | _, None => EndLF
  | None, _ => EndLF
  | Some crlfIdx, Some lfIdx => if (crlfIdx <? lfIdx)%nat then EndCRLF else EndLF
  end.

(** [text.replace(/\r\n/g, "\n")]. *)
Fixpoint crlf_to_lf (text : jsstr) : jsstr :=
  match text with
  | u :: text' =>
      match text' with
      | v :: text'' => if (u =? CR) && (v =? NEWLINE) then NEWLINE :: crlf_to_lf text'' else u :: crlf_to_lf text'
      | [] => [u]
      end
  | [] => []
  end.

Definition normalizeToLF (text : jsstr) : jsstr := map (fun u => if u =? CR then NEWLINE else u) (crlf_to_lf text).

Definition restoreLineEndings (text : jsstr) (ending : LineEnding) : jsstr :=
  match ending with
  | EndCRLF => flat_map (fun u => if u =? NEWLINE then [CR; NEWLINE] else [u]) text
  | EndLF => text
  end.

Definition stripBom (content : jsstr) : jsstr * jsstr :=
  match content with u :: text => if u =? BOM then ([BOM], text) else ([], content) | [] => ([], []) end.

(** [line.trimEnd()]. *)
Fixpoint trimEnd (line : jsstr) : jsstr :=
  match line with
  | [] => []
  | u :: line' => match trimEnd line' with [] => if is_white_space u then [] else [u] | l => u :: l end
  end.

Definition plain_char (u : Z) : Z :=
  if bool_decide (u ∈ [0x2018; 0x2019; 0x201a; 0x201b]) then 39
  else if bool_decide (u ∈ [0x201c; 0x201d; 0x201e; 0x201f]) then 34
  else if bool_decide (u ∈ [0x2010; 0x2011; 0x2012; 0x2013; 0x2014; 0x2015; 0x2212]) then 45
  else if bool_decide (u ∈ [0xa0; 0x202f; 0x205f; 0x3000]) || in_range 0x2002 0x200a u then 32
  else u.

Section editing.
Context `{Unicode}.

Definition normalizeForFuzzyMatch (text : jsstr) : jsstr :=
  map plain_char (join_with NEWLINE (map trimEnd (split_on NEWLINE (nfkc text)))).

(** ** Lines and replacements *)

Definition splitLinesWithEndings (content : jsstr) : list jsstr := splitLinesKeepEol content.

Record LineSpan := mkLineSpan { ls_start : nat; ls_end : nat }.

Fixpoint spans_from (offset : nat) (lines : list jsstr) : list LineSpan :=
  match lines with
  | [] => []
  | line :: lines' => let end_ := (offset + length line)%nat in mkLineSpan offset end_ :: spans_from end_ lines'
  end.

Definition getLineSpans (content : jsstr) : list LineSpan := spans_from 0 (splitLinesWithEndings content).

Record MatchedEdit := mkMatchedEdit { me_editIndex : nat; me_matchIndex : nat; me_matchLength : nat; me_newText : jsstr }.

Definition me_end (r : MatchedEdit) : nat := (me_matchIndex r + me_matchLength r)%nat.

Record Edit := mkEdit { oldText : jsstr; newText : jsstr }.

Inductive edit_error : Type :=
  | EmptyOldText (editIndex totalEdits : nat)
  | NotFound (editIndex totalEdits : nat)
  | Duplicate (editIndex totalEdits : nat) (occurrences : Z)
  | Overlap (previous current : nat)
  | NoChange (totalEdits : nat)
  | OutsideBase
  | DifferentLineCount.

Abbreviation edited := (result edit_error).

(** The first line from [i] on that holds the position. *)
Fixpoint line_of (position i : nat) (lines : list LineSpan) : option nat :=
  match lines with
  | [] => None
  | line :: lines' => if (ls_start line <=? position)%nat && (position <? ls_end line)%nat then Some i else line_of position (S i) lines'
  end.

(** The first line from [i] on that does not end before the position. *)
Fixpoint line_reaching (position i : nat) (lines : list LineSpan) : option nat :=
  match lines with
  | [] => None
  | line :: lines' => if (ls_end line <? position)%nat then line_reaching position (S i) lines' else Some i
  end.

Definition getReplacementLineRange (lines : list LineSpan) (r : MatchedEdit) : edited (nat * nat) :=
  startLine ← or_throw OutsideBase (line_of (me_matchIndex r) 0 lines);
  endLine ← or_throw OutsideBase (line_reaching (me_end r) startLine (drop startLine lines));
  Ok (startLine, S endLine).

(** [s.substring(0, i)] and [s.substring(i)]. *)
Definition text_before (s : jsstr) (i : Z) : jsstr := take (Z.to_nat i) s.
Definition text_from (s : jsstr) (i : Z) : jsstr := drop (Z.to_nat i) s.

Definition replace_one (offset : nat) (r : MatchedEdit) (text : jsstr) : jsstr :=
  let matchIndex := Z.of_nat (me_matchIndex r) - Z.of_nat offset in
  text_before text matchIndex ++ me_newText r ++ text_from text (matchIndex + Z.of_nat (me_matchLength r)).

(** From the last replacement to the first. *)
Definition applyReplacements (content : jsstr) (replacements : list MatchedEdit) (offset : nat) : jsstr :=
  foldr (replace_one offset) content replacements.

(** [sort((a, b) => a.matchIndex - b.matchIndex)], which is stable. *)
Fixpoint insert_match (r : MatchedEdit) (l : list MatchedEdit) : list MatchedEdit :=
  match l with
  | [] => [r]
  | x :: l' => if (me_matchIndex r <=? me_matchIndex x)%nat then r :: l else x :: insert_match r l'
  end.
Definition sort_matches (l : list MatchedEdit) : list MatchedEdit := foldr insert_match [] l.

Record LineGroup := mkLineGroup { lg_startLine : nat; lg_endLine : nat; lg_replacements : list MatchedEdit }.

Definition add_to_groups (baseLines : list LineSpan) (groups : list LineGroup) (r : MatchedEdit) : edited (list LineGroup) :=
  range ← getReplacementLineRange baseLines r;
  let '(startLine, endLine) := range in
  Ok (match last groups with
      | Some current =>
          if (startLine <? lg_endLine current)%nat
          then take (pred (length groups)) groups ++
                 [mkLineGroup (lg_startLine current) (Nat.max (lg_endLine current) endLine) (lg_replacements current ++ [r])]
          else groups ++ [mkLineGroup startLine endLine [r]]
      | None => groups ++ [mkLineGroup startLine endLine [r]]
      end).

Definition group_start (baseLines : list LineSpan) (i : nat) : nat := default 0%nat (ls_start <$> baseLines !! i).
Definition group_end (baseLines : list LineSpan) (i : nat) : nat := default 0%nat (ls_end <$> baseLines !! pred i).

(** The text of the groups and of the original lines between them, from a line on. *)
Fixpoint overlay (originalLines : list jsstr) (baseContent : jsstr) (baseLines : list LineSpan) (groups : list LineGroup) (from : nat) : jsstr :=
  match groups with
  | [] => concat (drop from originalLines)
  | group :: groups' =>
      let start := group_start baseLines (lg_startLine group) in
      let end_ := group_end baseLines (lg_endLine group) in
      concat (slice originalLines from (lg_startLine group)) ++
      applyReplacements (slice baseContent start end_) (lg_replacements group) start ++
      overlay originalLines baseContent baseLines groups' (lg_endLine group)
  end.

Definition applyReplacementsPreservingUnchangedLines (originalContent baseContent : jsstr) (replacements : list MatchedEdit) : edited jsstr :=
  let originalLines := splitLinesWithEndings originalContent in
  let baseLines := getLineSpans baseContent in
  throw_if (negb (length originalLines =? length baseLines)%nat) DifferentLineCount;;
  groups ← mfold (add_to_groups baseLines) [] (sort_matches replacements);
  Ok (overlay originalLines baseContent baseLines groups 0).

(** ** Finding *)

Record FuzzyMatchResult := mkFuzzyMatch { fm_index : nat; fm_matchLength : nat; fm_usedFuzzyMatch : bool }.

(** [None] when the text is not found. *)
Definition fuzzyFindText (content old : jsstr) : option FuzzyMatchResult :=
  match indexOf content old with
  | Some exactIndex => Some (mkFuzzyMatch exactIndex (length old) false)
  | None =>
      let fuzzyOldText := normalizeForFuzzyMatch old in
      fuzzyIndex ← indexOf (normalizeForFuzzyMatch content) fuzzyOldText;
      Some (mkFuzzyMatch fuzzyIndex (length fuzzyOldText) true)
  end.

(** The matches of a text that is not empty, from left to right and without overlaps. *)
Fixpoint count_matches (fuel : nat) (s pat : jsstr) : Z :=
  match fuel with
  | O => 0
  | S fuel' =>
      match indexOf s pat with
      | Some i => 1 + count_matches fuel' (drop (i + length pat) s) pat
      | None => 0
      end
  end.

(** [s.split(pat).length - 1]; an empty text splits every unit off. *)
Definition split_count (s pat : jsstr) : Z :=
  match pat with [] => Z.of_nat (length s) - 1 | _ => count_matches (S (length s)) s pat end.

Definition countOccurrences (content old : jsstr) : Z := split_count (normalizeForFuzzyMatch content) (normalizeForFuzzyMatch old).

(** ** Edits *)

Definition normalize_edit (e : Edit) : Edit := mkEdit (normalizeToLF (oldText e)) (normalizeToLF (newText e)).

Definition check_empty (total : nat) (p : nat * Edit) : edited unit :=
  throw_if (bool_decide (length (oldText p.2) = 0%nat)) (EmptyOldText p.1 total).

Definition uses_fuzzy (content : jsstr) (e : Edit) : bool :=
  match fuzzyFindText content (oldText e) with Some m => fm_usedFuzzyMatch m | None => false end.

Definition match_edit (base : jsstr) (total : nat) (matched : list MatchedEdit) (p : nat * Edit) : edited (list MatchedEdit) :=
  let '(i, e) := p in
  m ← or_throw (NotFound i total) (fuzzyFindText base (oldText e));
  let occurrences := countOccurrences base (oldText e) in
  throw_if (1 <? occurrences) (Duplicate i total occurrences);;
  Ok (matched ++ [mkMatchedEdit i (fm_index m) (fm_matchLength m) (newText e)]).

(** Neighbours of the sorted matches must not overlap. *)
Fixpoint check_overlaps (l : list MatchedEdit) : edited unit :=
  match l with
  | previous :: (current :: _) as l' =>
      throw_if (me_matchIndex current <? me_end previous)%nat (Overlap (me_editIndex previous) (me_editIndex current));;
      check_overlaps l'
  | _ => Ok ()
  end.

Definition applyEditsToNormalizedContent (normalizedContent : jsstr) (edits : list Edit) : edited (jsstr * jsstr) :=
  let normalizedEdits := imap pair (map normalize_edit edits) in
  let total := length edits in
  mfold (fun _ p => check_empty total p) () normalizedEdits;;
  let usedFuzzyMatch := existsb (fun p => uses_fuzzy normalizedContent p.2) normalizedEdits in
  let replacementBaseContent := if usedFuzzyMatch then normalizeForFuzzyMatch normalizedContent else normalizedContent in
  matched ← mfold (match_edit replacementBaseContent total) [] normalizedEdits;
  let matchedEdits := sort_matches matched in
  check_overlaps matchedEdits;;
  newContent ← if usedFuzzyMatch
               then applyReplacementsPreservingUnchangedLines normalizedContent replacementBaseContent matchedEdits
               else Ok (applyReplacements replacementBaseContent matchedEdits 0);
  throw_if (bool_decide (normalizedContent = newContent)) (NoChange total);;
  Ok (normalizedContent, newContent).
End editing.

(** * The differences the edit tool shows, and the edit of a whole file:
    [packages/agent/src/harness/tools/edit-diff.ts] and [edit.ts]. *)

Definition generateUnifiedPatch (path oldContent newContent : jsstr) (contextLines : nat) : jsstr :=
  createTwoFilesPatch path path oldContent newContent None None (mkPatchOptions contextLines false true).

(** [s.padStart(width, " ")]. *)
Definition padStart (width : nat) (s : jsstr) : jsstr := replicate (width - length s) 32 ++ s.

Record DiffState := mkDiffState {
  ds_output : list jsstr;
  ds_oldLineNum : nat;
  ds_newLineNum : nat;
  ds_lastWasChange : bool;
  ds_firstChangedLine : option nat;
}.

(** [value.split("\n")] without an empty last piece. *)
Definition raw_lines (value : jsstr) : list jsstr :=
  let raw := split_on NEWLINE value in
  if bool_decide (last raw = Some []) then take (pred (length raw)) raw else raw.

Section display.
Context (lineNumWidth contextLines : nat).

Definition numbered_line (sign : Z) (n : nat) (line : jsstr) : jsstr := sign :: padStart lineNumWidth (decimal (Z.of_nat n)) ++ 32 :: line.

Definition show_added (st : DiffState) (line : jsstr) : DiffState :=
  mkDiffState (ds_output st ++ [numbered_line 43 (ds_newLineNum st) line]) (ds_oldLineNum st) (S (ds_newLineNum st)) (ds_lastWasChange st) (ds_firstChangedLine st).

Definition show_removed (st : DiffState) (line : jsstr) : DiffState :=
  mkDiffState (ds_output st ++ [numbered_line 45 (ds_oldLineNum st) line]) (S (ds_oldLineNum st)) (ds_newLineNum st) (ds_lastWasChange st) (ds_firstChangedLine st).

Definition show_context (st : DiffState) (line : jsstr) : DiffState :=
  mkDiffState (ds_output st ++ [numbered_line 32 (ds_oldLineNum st) line]) (S (ds_oldLineNum st)) (S (ds_newLineNum st)) (ds_lastWasChange st) (ds_firstChangedLine st).

(** Moves past lines that are not shown. *)
Definition pass_lines (n : nat) (st : DiffState) : DiffState :=
  mkDiffState (ds_output st) (ds_oldLineNum st + n) (ds_newLineNum st + n) (ds_lastWasChange st) (ds_firstChangedLine st).

Definition show_skip (n : nat) (st : DiffState) : DiffState :=
  pass_lines n (mkDiffState (ds_output st ++ [32 :: padStart lineNumWidth [] ++ js " ..."]) (ds_oldLineNum st) (ds_newLineNum st) (ds_lastWasChange st) (ds_firstChangedLine st)).

Definition set_lastWasChange (b : bool) (st : DiffState) : DiffState :=
  mkDiffState (ds_output st) (ds_oldLineNum st) (ds_newLineNum st) b (ds_firstChangedLine st).

Definition mark_first (st : DiffState) : DiffState :=
  mkDiffState (ds_output st) (ds_oldLineNum st) (ds_newLineNum st) (ds_lastWasChange st)
    (match ds_firstChangedLine st with Some n => Some n | None => Some (ds_newLineNum st) end).

Definition show_change (part : DiffPart) (raw : list jsstr) (st : DiffState) : DiffState :=
  set_lastWasChange true (foldl (if dp_added part then show_added else show_removed) (mark_first st) raw).

(** The lines of an unchanged part, a few before and after changes. *)
Definition show_unchanged (nextPartIsChange : bool) (raw : list jsstr) (st : DiffState) : DiffState :=
  set_lastWasChange false
    (if ds_lastWasChange st && nextPartIsChange then
       if (length raw <=? contextLines * 2)%nat then foldl show_context st raw
       else
         let leadingLines := take contextLines raw in
         let trailingLines := drop (length raw - contextLines) raw in
         let skippedLines := (length raw - length leadingLines - length trailingLines)%nat in
         foldl show_context (show_skip skippedLines (foldl show_context st leadingLines)) trailingLines
     else if ds_lastWasChange st then
       let shownLines := take contextLines raw in
       let skippedLines := (length raw - length shownLines)%nat in
       let st := foldl show_context st shownLines in
       if (0 <? skippedLines)%nat then show_skip skippedLines st else st
     else if nextPartIsChange then
       let skippedLines := (length raw - contextLines)%nat in
       let st := if (0 <? skippedLines)%nat then show_skip skippedLines st else st in
       foldl show_context st (drop skippedLines raw)
     else pass_lines (length raw) st).

Definition is_change (part : DiffPart) : bool := dp_added part || dp_removed part.

Fixpoint show_parts (parts : list DiffPart) (st : DiffState) : DiffState :=
  match parts with
  | [] => st
  | part :: parts' =>
      let raw := raw_lines (dp_value part) in
      let nextPartIsChange := match parts' with next :: _ => is_change next | [] => false end in
      show_parts parts' (if is_change part then show_change part raw st else show_unchanged nextPartIsChange raw st)
  end.
End display.

Definition generateDiffString (oldContent newContent : jsstr) (contextLines : nat) : jsstr * option nat :=
  let maxLineNum := Nat.max (length (split_on NEWLINE oldContent)) (length (split_on NEWLINE newContent)) in
  let lineNumWidth := length (decimal (Z.of_nat maxLineNum)) in
  let st := show_parts lineNumWidth contextLines (diffLines oldContent newContent) (mkDiffState [] 1 1 false None) in
  (join_with NEWLINE (ds_output st), ds_firstChangedLine st).

(** ** The file *)

(** The edit of a file's content, between reading and writing it. *)
Definition edit_content `{Unicode} (raw : jsstr) (edits : list Edit) : result edit_error (jsstr * (jsstr * jsstr)) :=
  let '(bom, content) := stripBom raw in
  let originalEnding := detectLineEnding content in
  outcome ← applyEditsToNormalizedContent (normalizeToLF content) edits;
  Ok (bom ++ restoreLineEndings outcome.2 originalEnding, outcome).
