(* ===== verification/EditFacts.v ===== *)
(** Replacements: what [applyReplacements] and its line-preserving form compute. *)
From S2P Require Import Prelude JsNumber JsText JsObject JsData MiniDiff EditDiff.
Local Open Scope nat_scope.

(** ** Slices *)

Section slices.
Context {A : Type}.
Implicit Types l : list A.

Lemma length_slice l i j : i <= j <= length l -> length (slice l i j) = j - i.
Proof. intros ?. unfold slice. rewrite length_take, length_drop. lia. Qed.

Lemma slice_empty l i : slice l i i = [].
Proof. unfold slice. by rewrite Nat.sub_diag. Qed.

Lemma slice_all l : slice l 0 (length l) = l.
Proof. unfold slice. by rewrite Nat.sub_0_r, drop_0, firstn_all. Qed.

Lemma slice_to_end l i : slice l i (length l) = drop i l.
Proof. unfold slice. apply firstn_all2. rewrite length_drop. lia. Qed.

Lemma slice_app l i j k : i <= j <= k -> slice l i j ++ slice l j k = slice l i k.
Proof.
  intros ?. unfold slice. replace (k - i) with ((j - i) + (k - j)) by lia. rewrite <- (take_drop (j - i) (take ((j - i) + (k - j)) (drop i l))).
  f_equal; [rewrite take_take; f_equal; lia|].
  rewrite skipn_firstn_comm, drop_drop. f_equal; [lia|]. f_equal. lia.
Qed.

Lemma take_slice l i j n : n <= j - i -> take n (slice l i j) = slice l i (i + n).
Proof. intros ?. unfold slice. rewrite take_take. f_equal. lia. Qed.
End slices.

Lemma starts_with_spec s pat : starts_with s pat = true <-> exists rest, s = pat ++ rest.
Proof.
  revert s. induction pat as [|p pat IH]; intros s.
  - destruct s; split; try done; intros _; by eexists.
  - destruct s as [|u s]; [split; [done|by intros (? & ?)]|]. cbn [starts_with]. rewrite andb_true_iff, Z.eqb_eq, IH. split.
    + intros (-> & rest & ->). by exists rest.
    + intros (rest & [= -> ->]). split; [done|by exists rest].
Qed.

Lemma indexOf_found s pat i : indexOf s pat = Some i -> slice s i (i + length pat) = pat /\ i + length pat <= length s.
Proof.
  revert i. induction s as [|u s IH]; intros i.
  - cbn [indexOf]. destruct (starts_with [] pat) eqn:Hs; [|done]. intros [= <-]. apply starts_with_spec in Hs as [rest Hr]. symmetry in Hr.
    apply app_eq_nil in Hr as [-> ->]. done.
  - cbn [indexOf]. destruct (starts_with (u :: s) pat) eqn:Hs.
    + intros [= <-]. apply starts_with_spec in Hs as [rest ->]. split; [|rewrite length_app; lia].
      unfold slice. rewrite drop_0. apply take_app_length'. lia.
    + intros (j & Hj & ->)%fmap_Some. destruct (IH j Hj) as [Hsl Hle]. cbn [length]. split; [|lia]. unfold slice in *. cbn [Nat.add Nat.sub drop]. done.
Qed.

Lemma indexOf_first s pat i j : indexOf s pat = Some i -> j < i -> slice s j (j + length pat) <> pat.
Proof.
  revert i j. induction s as [|u s IH]; intros i j; cbn [indexOf]; [destruct (starts_with [] pat); [intros [= <-]; lia|done]|].
  destruct (starts_with (u :: s) pat) eqn:Hs; [intros [= <-]; lia|]. intros (i' & Hi & ->)%fmap_Some Hlt Hsl. destruct j as [|j].
  - apply not_true_iff_false in Hs. apply Hs, starts_with_spec. exists (drop (length pat) (u :: s)). unfold slice in Hsl.
    rewrite drop_0, Nat.add_0_l, Nat.sub_0_r in Hsl. rewrite <- Hsl at 1. by rewrite take_drop.
  - apply (IH i' j Hi ltac:(lia)). exact Hsl.
Qed.

Lemma indexOf_missing s pat i : indexOf s pat = None -> i <= length s -> slice s i (i + length pat) <> pat.
Proof.
  revert i. induction s as [|u s IH]; intros i; cbn [indexOf].
  - destruct (starts_with [] pat) eqn:Hs; [done|]. intros _ Hi Hsl. destruct pat as [|p pat]; [done|]. unfold slice in Hsl. rewrite drop_nil, take_nil in Hsl. done.
  - destruct (starts_with (u :: s) pat) eqn:Hs; [done|]. intros Hn Hi Hsl. destruct (indexOf s pat) eqn:Hi'; [done|]. destruct i as [|i].
    + assert (starts_with (u :: s) pat = true); [|congruence]. apply starts_with_spec. exists (drop (length pat) (u :: s)).
      rewrite <- Hsl at 1. unfold slice. rewrite drop_0, Nat.add_0_l, Nat.sub_0_r. symmetry. apply take_drop.
    + apply (IH i eq_refl); [cbn in Hi; lia|exact Hsl].
Qed.

(** ** Replacements in order *)

(** The replacements lie between two positions, in order and apart. *)
Fixpoint chain (from to : nat) (l : list MatchedEdit) : Prop :=
  match l with
  | [] => from <= to
  | r :: l' => from <= me_matchIndex r /\ chain (me_end r) to l'
  end.

(** The text between two positions with the replacements made. *)
Fixpoint replaced (base : jsstr) (from to : nat) (l : list MatchedEdit) : jsstr :=
  match l with
  | [] => slice base from to
  | r :: l' => slice base from (me_matchIndex r) ++ me_newText r ++ replaced base (me_end r) to l'
  end.

Lemma chain_le from to l : chain from to l -> from <= to.
Proof.
  revert from. induction l as [|r l IH]; intros from; cbn [chain]; [done|]. intros [Hf Hc]. apply IH in Hc. unfold me_end in Hc. lia.
Qed.

Lemma apply_replaced base off to l : forall from, off <= from -> to <= length base -> chain from to l ->
  applyReplacements (slice base off to) l off = slice base off from ++ replaced base from to l.
Proof.
  unfold applyReplacements. induction l as [|r l IH]; intros from Hoff Hto Hc; cbn [foldr replaced].
  - apply chain_le in Hc. by rewrite slice_app by lia.
  - destruct Hc as [Hf Hc]. pose proof (chain_le _ _ _ Hc) as Hle. unfold me_end in Hle. rewrite (IH (me_end r)) by (try done; unfold me_end; lia).
    unfold replace_one, text_before, text_from. replace (Z.to_nat _) with (me_matchIndex r - off) by lia.
    replace (Z.to_nat _) with (me_end r - off) by (unfold me_end; lia).
    rewrite (app_assoc (slice base off from)), slice_app by lia. f_equal; [|f_equal].
    + rewrite take_app_le by (rewrite length_slice; unfold me_end; lia). rewrite take_slice by (unfold me_end; lia). f_equal. lia.
    + apply drop_app_length'. rewrite length_slice; unfold me_end; lia.
Qed.

Lemma apply_all base l : chain 0 (length base) l -> applyReplacements base l 0 = replaced base 0 (length base) l.
Proof. intros Hc. pose proof (apply_replaced base 0 (length base) l 0 ltac:(lia) ltac:(lia) Hc) as H. by rewrite slice_all, slice_empty in H. Qed.

(** Replacements can be made piece by piece. *)
Lemma replaced_app base l1 l2 from mid to : chain from mid l1 -> chain mid to l2 ->
  replaced base from mid l1 ++ replaced base mid to l2 = replaced base from to (l1 ++ l2).
Proof.
  revert from. induction l1 as [|r l1 IH]; intros from; cbn [replaced chain app].
  - intros Hle Hc. destruct l2 as [|r l2]; cbn [replaced chain] in *; [by apply slice_app|]. by rewrite app_assoc, slice_app by lia.
  - intros [Hf Hc] Hc2. rewrite <- !app_assoc. by rewrite (IH (me_end r)).
Qed.

Lemma chain_app l1 l2 from mid to : chain from mid l1 -> chain mid to l2 -> chain from to (l1 ++ l2).
Proof.
  revert from. induction l1 as [|r l1 IH]; intros from; cbn [chain app].
  - intros Hle. destruct l2; cbn [chain]; [lia|]. intros [? ?]. split; [lia|done].
  - intros [Hf Hc] Hc2. split; [done|]. by apply IH.
Qed.

(** ** Sorting *)

Lemma insert_match_perm r l : insert_match r l ≡ₚ r :: l.
Proof. induction l as [|x l IH]; cbn [insert_match]; [done|]. destruct (_ <=? _); [done|]. by rewrite IH, Permutation_swap. Qed.

Lemma sort_matches_perm l : sort_matches l ≡ₚ l.
Proof. unfold sort_matches. induction l as [|r l IH]; cbn [foldr]; [done|]. by rewrite insert_match_perm, IH. Qed.

Fixpoint ascending (l : list MatchedEdit) : Prop :=
  match l with r :: l' => Forall (fun x => me_matchIndex r <= me_matchIndex x) l' /\ ascending l' | [] => True end.

Lemma insert_ascending r l : ascending l -> ascending (insert_match r l).
Proof.
  induction l as [|x l IH]; cbn [insert_match ascending]; [done|]. intros [Hx Hl]. destruct (Nat.leb_spec (me_matchIndex r) (me_matchIndex x)) as [Hle|Hlt].
  - cbn [ascending]. split_and!; [|done|done]. constructor; [done|]. eapply Forall_impl; [exact Hx|]. cbn. lia.
  - cbn [ascending]. split; [|by apply IH]. rewrite insert_match_perm. constructor; [lia|done].
Qed.

Lemma sort_ascending l : ascending (sort_matches l).
Proof. unfold sort_matches. induction l as [|r l IH]; cbn [foldr]; [done|]. by apply insert_ascending. Qed.

Lemma sort_sorted l : ascending l -> sort_matches l = l.
Proof.
  unfold sort_matches. induction l as [|r l IH]; cbn [foldr ascending]; [done|]. intros [Hr Hl]. rewrite IH by done. destruct l as [|x l]; [done|].
  cbn [insert_match]. apply Forall_cons in Hr as [Hx _]. destruct (Nat.leb_spec (me_matchIndex r) (me_matchIndex x)); [done|lia].
Qed.

Lemma overlaps_chain to l from : check_overlaps l = Ok () -> Forall (fun r => from <= me_matchIndex r /\ me_end r <= to) l -> from <= to -> chain from to l.
Proof.
  revert from. induction l as [|r l IH]; intros from Hc Hl Hle; [done|]. apply Forall_cons in Hl as [[Hf Ht] Hl]. cbn [chain]. split; [done|].
  destruct l as [|x l]; [done|]. cbn [check_overlaps] in Hc. apply bind_Ok in Hc as (_ & Hno%throw_if_Ok & Hc). apply Nat.ltb_ge in Hno.
  apply IH; [done| |done]. apply Forall_cons in Hl as [[_ Hx] Hl]. constructor; [done|].
  clear -Hc Hno Hl. revert x Hc Hno. induction l as [|y l IH]; intros x Hc Hno; [constructor|]. apply Forall_cons in Hl as [[_ Hy] Hl].
  cbn [check_overlaps] in Hc. apply bind_Ok in Hc as (_ & Hno'%throw_if_Ok & Hc). apply Nat.ltb_ge in Hno'. unfold me_end in *.
  constructor; [lia|]. apply (IH Hl y Hc). lia.
Qed.

(** * Lines a replacement does not touch keep their original text. *)

(** ** Positions of lines *)

Definition offset (lines : list jsstr) (i : nat) : nat := length (concat (take i lines)).

Lemma offset_0 lines : offset lines 0 = 0.
Proof. by destruct lines. Qed.

Lemma offset_S lines i l : lines !! i = Some l -> offset lines (S i) = offset lines i + length l.
Proof. intros Hl. unfold offset. rewrite (take_S_r _ _ _ Hl), concat_app, length_app. cbn. by rewrite app_nil_r. Qed.

Lemma offset_mono lines i j : i <= j -> offset lines i <= offset lines j.
Proof.
  intros Hij. unfold offset. rewrite <- (take_drop i (take j lines)), take_take, Nat.min_l by done. rewrite concat_app, length_app. lia.
Qed.

Lemma offset_lt lines i j : offset lines i < offset lines j -> i < j.
Proof. intros Hlt. destruct (decide (i < j)) as [|Hge]; [done|]. pose proof (offset_mono lines j i ltac:(lia)). lia. Qed.

Lemma offset_end lines : offset lines (length lines) = length (concat lines).
Proof. unfold offset. by rewrite firstn_all. Qed.

Lemma offset_slice lines i j : i <= j -> offset lines j = offset lines i + length (concat (slice lines i j)).
Proof.
  intros Hij. unfold offset, slice. rewrite <- (take_drop i (take j lines)), take_take, Nat.min_l by done. rewrite concat_app, length_app.
  by rewrite skipn_firstn_comm.
Qed.

Lemma slice_lines (lines : list jsstr) i j : i <= j -> slice (concat lines) (offset lines i) (offset lines j) = concat (slice lines i j).
Proof.
  intros Hij. rewrite (offset_slice lines i j Hij). unfold slice at 1. replace (_ + _ - _) with (length (concat (slice lines i j))) by lia.
  assert (concat lines = concat (take i lines) ++ concat (slice lines i j) ++ concat (drop j lines)) as ->.
  { rewrite <- !concat_app. f_equal. unfold slice. rewrite <- (take_drop i lines) at 1. f_equal. rewrite <- (take_drop (j - i) (drop i lines)) at 1.
    f_equal. rewrite drop_drop. f_equal. lia. }
  unfold offset. rewrite drop_app_length. apply take_app_length.
Qed.

Lemma spans_lookup lines i : forall off, i < length lines ->
  spans_from off lines !! i = Some (mkLineSpan (off + offset lines i) (off + offset lines (S i))).
Proof.
  revert i. induction lines as [|l lines IH]; intros i off Hi; cbn [length] in Hi; [lia|]. cbn [spans_from]. destruct i as [|i].
  - cbn. unfold offset. cbn. by rewrite app_nil_r, Nat.add_0_r.
  - cbn [lookup list_lookup]. change (spans_from (off + length l) lines !! i = Some (mkLineSpan (off + offset (l :: lines) (S i)) (off + offset (l :: lines) (S (S i))))).
    rewrite IH by lia. unfold offset. cbn [take concat]. rewrite !length_app. f_equal. f_equal; cbn; lia.
Qed.

Lemma spans_length lines off : length (spans_from off lines) = length lines.
Proof. revert off. induction lines as [|l lines IH]; intros off; cbn; [done|]. by rewrite IH. Qed.

(** ** The lines of a replacement *)

(** A character of the line is replaced, or the line holds the place of an insertion. *)
Definition touches (lines : list jsstr) (r : MatchedEdit) (i : nat) : Prop :=
  i < length lines /\ offset lines i < Nat.max (me_end r) (S (me_matchIndex r)) /\ me_matchIndex r < offset lines (S i).

Lemma line_of_spec pos spans : forall i k, line_of pos i spans = Some k ->
  exists j l, k = i + j /\ spans !! j = Some l /\ ls_start l <= pos < ls_end l.
Proof.
  induction spans as [|l spans IH]; intros i k; cbn [line_of]; [done|]. destruct ((ls_start l <=? pos) && (pos <? ls_end l)) eqn:Hc.
  - intros [= <-]. apply andb_true_iff in Hc as [H1%Nat.leb_le H2%Nat.ltb_lt]. exists 0, l. split_and!; [lia|done|lia|lia].
  - intros (j & l' & -> & Hl & Hp)%IH. exists (S j), l'. split_and!; [lia|done|lia|lia].
Qed.

Lemma line_reaching_spec pos spans : forall i k, line_reaching pos i spans = Some k ->
  exists j l, k = i + j /\ spans !! j = Some l /\ pos <= ls_end l /\ forall j' l', j' < j -> spans !! j' = Some l' -> ls_end l' < pos.
Proof.
  induction spans as [|l spans IH]; intros i k; cbn [line_reaching]; [done|]. destruct (Nat.ltb_spec (ls_end l) pos) as [Hlt|Hle].
  - intros (j & l' & -> & Hl & Hp & Hmin)%IH. exists (S j), l'. split_and!; [lia|done|lia|]. intros [|j'] l'' Hj Hl''; [by injection Hl'' as <-|].
    apply (Hmin j'); [lia|done].
  - intros [= <-]. exists 0, l. split_and!; [lia|done|lia|]. intros; lia.
Qed.

Lemma range_spec lines r s e : getReplacementLineRange (spans_from 0 lines) r = Ok (s, e) ->
  s < e <= length lines /\ offset lines s <= me_matchIndex r /\ me_end r <= offset lines e /\ forall i, touches lines r i <-> s <= i < e.
Proof.
  unfold getReplacementLineRange. intros (s' & Hs%or_throw_Ok & H)%bind_Ok. apply bind_Ok in H as (e' & He%or_throw_Ok & H). injection H as <- <-.
  apply line_of_spec in Hs as (j & l & -> & Hl & Hp). cbn [Nat.add] in *. pose proof (lookup_lt_Some _ _ _ Hl) as Hj. rewrite spans_length in Hj.
  rewrite spans_lookup in Hl by done. injection Hl as <-. cbn [ls_start ls_end Nat.add] in Hp.
  apply line_reaching_spec in He as (k & l & -> & Hl & Hend & Hmin). rewrite lookup_drop in Hl. pose proof (lookup_lt_Some _ _ _ Hl) as Hk.
  rewrite spans_length in Hk. rewrite spans_lookup in Hl by done. injection Hl as <-. cbn [ls_end Nat.add] in Hend.
  assert (forall m, j <= m < j + k -> offset lines (S m) < me_end r) as Hbefore.
  { intros m Hm. apply (Hmin (m - j) (mkLineSpan (offset lines m) (offset lines (S m)))); [lia|]. rewrite lookup_drop. replace (j + (m - j)) with m by lia.
    apply (spans_lookup lines m 0). lia. }
  split_and!; [lia|lia|lia|done|]. intros i. unfold touches. split.
  - intros (Hi & H1 & H2). assert (j < S i) by (apply (offset_lt lines); lia). split; [lia|]. destruct (decide (i <= j + k)) as [|Hgt]; [lia|].
    pose proof (offset_mono lines (S (j + k)) i ltac:(lia)). pose proof (offset_mono lines (S j) i ltac:(lia)). lia.
  - intros Hi. split_and!; [lia| |pose proof (offset_mono lines (S j) (S i) ltac:(lia)); lia].
    destruct (decide (i = j)) as [->|Hne]; [lia|]. specialize (Hbefore (i - 1) ltac:(lia)). replace (S (i - 1)) with i in Hbefore by lia. lia.
Qed.

(** ** Groups *)

Section groups.
Context (lines : list jsstr).
Abbreviation spans := (spans_from 0 lines).

(** Groups after line [from], each with the replacements of exactly its lines. *)
Fixpoint grouped (from : nat) (groups : list LineGroup) : Prop :=
  match groups with
  | [] => from <= length lines
  | g :: groups' =>
      from <= lg_startLine g < lg_endLine g /\
      chain (offset lines (lg_startLine g)) (offset lines (lg_endLine g)) (lg_replacements g) /\
      (forall i, lg_startLine g <= i < lg_endLine g <-> exists r, r ∈ lg_replacements g /\ touches lines r i) /\
      grouped (lg_endLine g) groups'
  end.

Definition all_replacements (groups : list LineGroup) : list MatchedEdit := flat_map lg_replacements groups.

Lemma grouped_snoc groups g from : grouped from (groups ++ [g]) <->
  grouped from groups /\ grouped (default from (lg_endLine <$> last groups)) [g].
Proof.
  revert from. induction groups as [|g1 groups IH]; intros from.
  - cbn [app last fmap option_fmap option_map default from_option id]. cbn [grouped]. split; [intros H; split; [|done]; destruct H as (H & _ & _ & H'); lia|tauto].
  - cbn [app]. cbn [grouped]. rewrite IH. cbn [grouped]. destruct groups as [|g2 groups]; cbn [last fmap option_fmap option_map default from_option id]; [tauto|].
    replace (default (lg_endLine g1) (lg_endLine <$> last (g2 :: groups))) with (default from (lg_endLine <$> last (g2 :: groups))); [tauto|].
    destruct (last (g2 :: groups)) eqn:Hl; [done|]. apply last_None in Hl. done.
Qed.

Lemma grouped_end from groups : grouped from groups -> default from (lg_endLine <$> last groups) <= length lines.
Proof.
  revert from. induction groups as [|g groups IH]; intros from; cbn [grouped]; [done|]. intros (_ & _ & _ & Hg). apply IH in Hg. destruct groups as [|g2 groups]; [done|].
  cbn [last]. destruct (last (g2 :: groups)) eqn:Hl; [done|]. by apply last_None in Hl.
Qed.

Lemma chain_within from to m l : chain from to l -> from <= m -> Forall (fun r => me_end r <= m) l -> chain from m l.
Proof. revert from. induction l as [|r l IH]; intros from; cbn [chain]; [done|]. intros [Hf Hc] Hm [Hr Hl]%Forall_cons. split; [done|]. by apply IH. Qed.

Lemma group_single r s e from : from <= s -> getReplacementLineRange spans r = Ok (s, e) -> grouped from [mkLineGroup s e [r]].
Proof.
  intros Hs Hr. apply range_spec in Hr as (He & H1 & H2 & H3). cbn [grouped lg_startLine lg_endLine lg_replacements chain]. split_and!; try lia.
  intros i. rewrite <- H3. split; [intros Hi; exists r; split; [left|done]|]. by intros (r' & ->%list_elem_of_singleton & Hr').
Qed.

(** Adding the next replacement. *)
Lemma add_grouped groups r groups' : add_to_groups spans groups r = Ok groups' -> grouped 0 groups ->
  Forall (fun x => me_end x <= me_matchIndex r) (all_replacements groups) -> Forall (fun g => lg_replacements g <> []) groups ->
  grouped 0 groups' /\ all_replacements groups' = all_replacements groups ++ [r] /\ Forall (fun g => lg_replacements g <> []) groups'.
Proof.
  unfold add_to_groups. intros ([s e] & Hr & H)%bind_Ok Hg Hbefore Hne. injection H as <-. pose proof (range_spec lines r s e Hr) as (He & H1 & H2 & H3).
  assert (forall l, default 0 (lg_endLine <$> last l) <= s -> grouped 0 l -> grouped 0 (l ++ [mkLineGroup s e [r]])) as Hnew.
  { intros l Hle Hl. apply grouped_snoc. split; [done|]. by apply group_single. }
  destruct (last groups) as [g|] eqn:Hl.
  - apply last_Some in Hl as [l ->]. destruct (Nat.ltb_spec s (lg_endLine g)) as [Hlt|Hge].
    + replace (pred (length (l ++ [g]))) with (length l) by (rewrite length_app; cbn; lia). rewrite take_app_length.
      unfold all_replacements in *. rewrite !flat_map_app in *. cbn [flat_map] in *. rewrite !app_nil_r in *. cbn [lg_replacements].
      split_and!; [|by rewrite app_assoc|apply Forall_app in Hne as [? ?]; apply Forall_app; split; [done|]; constructor; [by destruct (lg_replacements g)|constructor]].
      apply grouped_snoc in Hg as [Hl Hg]. apply grouped_snoc. split; [done|]. cbn [grouped lg_startLine lg_endLine lg_replacements] in *.
      destruct Hg as ([Hg1 Hg2] & Hc & Ht & Hend). apply Forall_app in Hbefore as [_ Hbefore].
      assert (lg_startLine g <= s) as Hstart.
      { apply Forall_app in Hne as [_ Hne]. apply Forall_cons in Hne as [Hne _]. destruct (lg_replacements g) as [|r0 rs] eqn:Hrs; [done|]. cbn [chain] in Hc. destruct Hc as [Hc _].
        apply Forall_cons in Hbefore as [Hr0 _]. unfold me_end in Hr0. destruct (proj2 (H3 s) ltac:(lia)) as (_ & _ & Hs).
        assert (lg_startLine g < S s) by (apply (offset_lt lines); lia). lia. }
      split_and!; [lia|lia| | |lia].
      * apply (chain_app _ _ _ (me_matchIndex r)); [apply (chain_within _ _ _ _ Hc); [|done]|]; cbn [chain].
        -- pose proof (offset_mono lines (lg_startLine g) s Hstart). lia.
        -- split; [lia|]. pose proof (offset_mono lines e (Nat.max (lg_endLine g) e) ltac:(lia)). lia.
      * intros i. split.
        -- intros Hi. destruct (decide (i < lg_endLine g)) as [Hig|Hig].
           ++ destruct (proj1 (Ht i) ltac:(lia)) as (r' & Hin & Hr'). exists r'. split; [|done]. apply elem_of_app. by left.
           ++ exists r. split; [apply elem_of_app; right; left|]. apply H3. lia.
        -- intros (r' & [Hin| ->%list_elem_of_singleton]%elem_of_app & Hr').
           ++ assert (lg_startLine g <= i < lg_endLine g) by (apply Ht; eauto). lia.
           ++ apply H3 in Hr'. lia.
    + split_and!; [apply Hnew; [by rewrite last_snoc|done]|unfold all_replacements; by rewrite flat_map_app|].
      apply Forall_app. split; [done|]. by repeat constructor.
  - apply last_None in Hl. subst. split_and!; [apply Hnew; [cbn; lia|done]|done|by repeat constructor].
Qed.

Lemma chain_before l r l' from to : chain from to (l ++ r :: l') -> Forall (fun x => me_end x <= me_matchIndex r) l.
Proof.
  revert from. induction l as [|x l IH]; intros from; cbn [app chain]; [by constructor|]. intros [_ Hc]. constructor; [|by eapply IH].
  destruct l as [|y l]; cbn [app chain] in Hc; [by destruct Hc|]. destruct Hc as [H1 Hc]. specialize (IH (me_end x) (conj H1 Hc)). apply Forall_cons in IH as [IH _].
  unfold me_end in *. lia.
Qed.

Lemma fold_grouped to rest : forall done_ groups groups', chain 0 to (done_ ++ rest) -> grouped 0 groups -> all_replacements groups = done_ ->
  Forall (fun g => lg_replacements g <> []) groups -> mfold (add_to_groups spans) groups rest = Ok groups' ->
  grouped 0 groups' /\ all_replacements groups' = done_ ++ rest.
Proof.
  induction rest as [|r rest IH]; intros done_ groups groups' Hc Hg Ha Hne Hf; cbn [mfold] in Hf.
  - injection Hf as <-. by rewrite app_nil_r.
  - destruct (add_to_groups spans groups r) as [groups1|] eqn:Hadd; [|done].
    destruct (add_grouped groups r groups1 Hadd Hg) as (Hg1 & Ha1 & Hne1); [rewrite Ha; by eapply chain_before|done|].
    specialize (IH (done_ ++ [r]) groups1 groups'). rewrite <- app_assoc in IH. apply IH; [done|done|by rewrite Ha1, Ha|done|done].
Qed.

(** Lines with some ranges replaced by texts. *)
Fixpoint weave (ls : list jsstr) (texts : list (nat * nat * jsstr)) (from : nat) : jsstr :=
  match texts with
  | [] => concat (drop from ls)
  | (s, e, t) :: texts' => concat (slice ls from s) ++ t ++ weave ls texts' e
  end.

(** The ranges are in order. *)
Fixpoint ranges (from : nat) (texts : list (nat * nat * jsstr)) : Prop :=
  match texts with
  | [] => from <= length lines
  | (s, e, _) :: texts' => from <= s < e /\ ranges e texts'
  end.

Definition group_text (g : LineGroup) : nat * nat * jsstr :=
  (lg_startLine g, lg_endLine g, replaced (concat lines) (offset lines (lg_startLine g)) (offset lines (lg_endLine g)) (lg_replacements g)).

Lemma group_positions g groups from : grouped from (g :: groups) ->
  group_start spans (lg_startLine g) = offset lines (lg_startLine g) /\ group_end spans (lg_endLine g) = offset lines (lg_endLine g) /\
  lg_endLine g <= length lines.
Proof.
  intros Hg. pose proof (grouped_end _ _ Hg) as Hend. destruct Hg as (H1 & _ & _ & Hg).
  assert (lg_endLine g <= length lines) as Hle.
  { clear -Hg. revert Hg. generalize (lg_endLine g). induction groups as [|g' groups IH]; intros n; cbn [grouped]; [done|]. intros (? & _ & _ & Hg). apply IH in Hg. lia. }
  unfold group_start, group_end. rewrite !spans_lookup by lia. cbn [fmap option_fmap option_map ls_start ls_end default from_option id Nat.add].
  by replace (S (pred (lg_endLine g))) with (lg_endLine g) by lia.
Qed.

Lemma overlay_weave original groups : forall from, grouped from groups ->
  overlay original (concat lines) spans groups from = weave original (map group_text groups) from.
Proof.
  induction groups as [|g groups IH]; intros from Hg; cbn [overlay map weave group_text]; [done|].
  destruct (group_positions g groups from Hg) as (-> & -> & Hle). destruct Hg as (H1 & Hc & _ & Hg). rewrite IH by done. f_equal. f_equal.
  pose proof (offset_mono lines (lg_endLine g) (length lines) Hle) as Hend. rewrite offset_end in Hend.
  by rewrite (apply_replaced _ _ _ _ (offset lines (lg_startLine g))), slice_empty.
Qed.

Lemma replaced_weave groups : forall from, grouped from groups ->
  replaced (concat lines) (offset lines from) (length (concat lines)) (all_replacements groups) = weave lines (map group_text groups) from /\
  chain (offset lines from) (length (concat lines)) (all_replacements groups).
Proof.
  induction groups as [|g groups IH]; intros from Hg; cbn [all_replacements flat_map map weave group_text].
  - cbn [replaced chain grouped] in *. pose proof (offset_mono lines from (length lines) Hg). rewrite offset_end in *. split; [|done].
    rewrite <- (offset_end lines), slice_lines, slice_to_end by done. done.
  - destruct (group_positions g groups from Hg) as (_ & _ & Hle). destruct Hg as (H1 & Hc & _ & Hg). destruct (IH _ Hg) as [Hw Hc2].
    pose proof (offset_mono lines from (lg_startLine g) ltac:(lia)) as Ho.
    assert (chain (offset lines from) (offset lines (lg_startLine g)) []) as Hc0 by exact Ho.
    pose proof (chain_app _ _ _ _ _ Hc Hc2) as Hc3. split; [|exact (chain_app _ _ _ _ _ Hc0 Hc3)].
    fold (all_replacements groups) in *.
    rewrite <- (app_nil_l (lg_replacements g ++ all_replacements groups)), <- (replaced_app _ _ _ _ _ _ Hc0 Hc3), <- (replaced_app _ _ _ _ _ _ Hc Hc2), Hw.
    cbn [replaced]. by rewrite slice_lines by lia.
Qed.

Lemma grouped_ranges groups : forall from, grouped from groups -> ranges from (map group_text groups).
Proof. induction groups as [|g groups IH]; intros from; cbn [grouped map ranges group_text]; [done|]. intros (H1 & _ & _ & Hg). split; [done|by apply IH]. Qed.

Lemma grouped_touched groups : forall from, grouped from groups -> forall i,
  (exists s e t, (s, e, t) ∈ map group_text groups /\ s <= i < e) <-> exists r, r ∈ all_replacements groups /\ touches lines r i.
Proof.
  induction groups as [|g groups IH]; intros from Hg i; cbn [map all_replacements flat_map].
  - split; [intros (? & ? & ? & ?%elem_of_nil & _)|intros (? & ?%elem_of_nil & _)]; done.
  - destruct Hg as (_ & _ & Ht & Hg). specialize (IH _ Hg i). fold (all_replacements groups). split.
    + intros (s & e & t & [Heq|Hin]%elem_of_cons & Hi).
      * injection Heq as -> -> ->. apply Ht in Hi as (r & Hin & Hr). exists r. split; [apply elem_of_app; by left|done].
      * destruct (proj1 IH) as (r & Hr & Htr); [eauto 6|]. exists r. split; [apply elem_of_app; by right|done].
    + intros (r & [Hin|Hin]%elem_of_app & Hr).
      * eexists _, _, _. split; [left|]. apply Ht. eauto.
      * destruct (proj2 IH) as (s & e & t & Hs & Hi); [eauto|]. exists s, e, t. split; [by right|done].
Qed.
End groups.

(** Replacements in the lines they touch, each group of lines of the base with its own: the
    other lines are those of the original. *)
Definition line_overlay (original base : jsstr) (rs : list MatchedEdit) (result : jsstr) : Prop :=
  let lines := splitLinesWithEndings base in
  exists groups, let texts := map (group_text lines) groups in
    grouped lines 0 groups /\ all_replacements groups = rs /\
    length (splitLinesWithEndings original) = length lines /\ ranges lines 0 texts /\
    (forall i, (exists s e t, (s, e, t) ∈ texts /\ s <= i < e) <-> exists r, r ∈ rs /\ touches lines r i) /\
    result = weave (splitLinesWithEndings original) texts 0 /\ replaced base 0 (length base) rs = weave lines texts 0.

Lemma preserving_spec original base rs result : ascending rs -> chain 0 (length base) rs ->
  applyReplacementsPreservingUnchangedLines original base rs = Ok result -> line_overlay original base rs result.
Proof.
  intros Hsort Hc H. unfold applyReplacementsPreservingUnchangedLines in H. apply bind_Ok in H as (_ & Hlen%throw_if_Ok & H). apply bind_Ok in H as (groups & Hg & H).
  injection H as <-. apply negb_false_iff, Nat.eqb_eq in Hlen. rewrite sort_sorted in Hg by done. unfold getLineSpans in *. rewrite spans_length in Hlen.
  set (lines := splitLinesWithEndings base) in *. assert (concat lines = base) as Hbase by apply lines_concat.
  destruct (fold_grouped lines (length base) rs [] [] groups Hc) as [Hgr Hall]; [cbn; lia|done|constructor|done|]. cbn [app] in Hall.
  unfold line_overlay. fold lines. exists groups. cbv zeta. split_and!.
  - done.
  - done.
  - done.
  - by apply grouped_ranges.
  - intros i. rewrite <- Hall. by eapply grouped_touched.
  - rewrite <- Hbase at 1. by apply overlay_weave.
  - destruct (replaced_weave lines groups 0 Hgr) as [Hw _]. by rewrite offset_0, Hbase, Hall in Hw.
Qed.
