(* ===== verification/EditTheorems.v ===== *)
(** What the edits of a text give: the outcomes of [applyEditsToNormalizedContent], and the
    differences shown for them. *)
From S2P Require Import Prelude JsNumber JsText JsObject JsData MiniDiff EditDiff EditFacts.
Local Open Scope nat_scope.

Section outcomes.
Context `{Unicode}.

(** ** Matches *)










(** ** Results *)











(** ** Errors *)








End outcomes.

(** ** Line endings *)





Section files.
Context `{Unicode}.

End files.

(** C30: Differences.  Leaving out the added parts of the difference of two texts gives the old
    text, and leaving out the removed parts the new one; neighbouring parts are of different
    kinds; and no script keeps more lines (or words) than the difference, unless the texts
    are too large for the table. *)
Theorem shortest_difference oldStr newStr :
  difference splitLinesKeepEol oldStr newStr (diffLines oldStr newStr) /\ difference tokenizeWords oldStr newStr (diffWords oldStr newStr).
Proof. split; apply parts_spec; [apply lines_concat|apply words_concat]. Qed.


(** ** Instances *)

Module Edits.

(** Texts that are their own compatibility form. *)
#[export] Instance composed : Unicode := {| nfkc := fun s => s |}.

Definition lines (l : list string) : jsstr := flat_map (fun s => js s ++ [NEWLINE]) l.





Example repeated_text : applyEditsToNormalizedContent (js "ab ab") [mkEdit (js "ab") (js "c")] = Err (Duplicate 0 1 2).
Proof. vm_compute. reflexivity. Qed.

(** Occurrences that overlap are counted once: the text is taken as unique. *)
Example overlapping_occurrences : applyEditsToNormalizedContent (js "aaa") [mkEdit (js "aa") (js "b")] = Ok (js "aaa", js "ba").
Proof. vm_compute. reflexivity. Qed.

(** Two changes one line apart: the hunks of the patch overlap, and the removed line is in
    both of them. *)
Example overlapping_hunks :
  generateUnifiedPatch (js "f") (lines ["a"; "b"; "c"]%string) (lines ["b"; "x"; "c"]%string) 4 =
  lines ["--- f"; "+++ f"; "@@ -1,2 +1,1 @@"; "-a"; " b"; "@@ -1,3 +1,3 @@"; "-a"; " b"; "+x"; " c"]%string.
Proof. vm_compute. reflexivity. Qed.

Example displayed :
  generateDiffString (lines ["a"; "b"; "c"; "d"; "e"; "f"; "g"]%string) (lines ["a"; "b"; "c"; "d"; "e"; "F"; "g"]%string) 2 =
  (join_with NEWLINE (map js ["   ..."; " 4 d"; " 5 e"; "-6 f"; "+6 F"; " 7 g"]%string), Some 6).
Proof. vm_compute. reflexivity. Qed.
End Edits.
Import Edits.

