(* ===== verification/FileQueue.v ===== *)
(** The queue of file mutations: [packages/agent/src/harness/tools/file-mutation-queue.ts],
    with the [edit] and [write] tools ([edit.ts], [write.ts]) as its clients.

    A call of [withFileMutationQueue] is a task that goes through the steps of the function;
    the steps of tasks interleave in any order.  What a promise waits for is the guard of the
    step.  The key of a task, its canonical path, comes from the environment with the step
    that registers it. *)
From S2P Require Import Prelude JsNumber JsText JsObject JsData MiniDiff EditDiff.

(** What a tool does with a file: the content it writes, from the one it read, unless it fails
    or its call is aborted before the write. *)
Abbreviation job := (option jsstr -> option jsstr).

Definition edit_job `{Unicode} (edits : list Edit) (aborted : bool) : job := fun file =>
  raw ← file;
  match edit_content raw edits with Ok (finalContent, _) => if aborted then None else Some finalContent | Err _ => None end.

Definition write_job (content : jsstr) (aborted : bool) : job := fun _ => if aborted then None else Some content.

(** Where a task is: waiting for the registrations before it, waiting for [currentQueue] (the
    task before it on its key), before its read, before its write, before [releaseNext], or
    settled. *)
Inductive task_phase : Type :=
  | Registering
  | Queued (key : string) (currentQueue : option nat)
  | Reading (key : string)
  | Writing (key : string) (seen : option jsstr)
  | Releasing (key : string)
  | Finished (key : string)
  | Rejected.

Record QueueState := mkQueueState {
  qs_registration : list nat;
  qs_queues : gmap string nat;
  qs_tasks : gmap nat (job * task_phase);
  qs_files : gmap string jsstr;
}.

Inductive queue_event : Type :=
  | Call (t : nat) (j : job)
  | Register (t : nat) (key : string)
  | Reject (t : nat)
  | Start (t : nat)
  | Read (t : nat)
  | Write (t : nat)
  | Finish (t : nat).

Definition set_phase (t : nat) (j : job) (ph : task_phase) (st : QueueState) : QueueState :=
  mkQueueState (qs_registration st) (qs_queues st) (<[t := (j, ph)]> (qs_tasks st)) (qs_files st).

(** [chainedQueue] of a task is resolved once the task has settled. *)
Definition resolved (st : QueueState) (currentQueue : option nat) : bool :=
  match currentQueue with
  | None => true
  | Some p => match qs_tasks st !! p with Some (_, Finished _) => true | _ => false end
  end.

(** The callback of [state.registration.then]: only the first registration that has not settled
    runs. *)
Definition registers_next (st : QueueState) (t : nat) : option (list nat * job) :=
  match qs_registration st with
  | t' :: rest =>
      if decide (t = t') then match qs_tasks st !! t with Some (j, Registering) => Some (rest, j) | _ => None end else None
  | [] => None
  end.

Definition write_file (key : string) (content : option jsstr) (files : gmap string jsstr) : gmap string jsstr :=
  match content with Some c => <[key := c]> files | None => files end.

Definition queue_step (e : queue_event) (st : QueueState) : option QueueState :=
  match e with
  | Call t j =>
      match qs_tasks st !! t with
      | Some _ => None
      | None => Some (mkQueueState (qs_registration st ++ [t]) (qs_queues st) (<[t := (j, Registering)]> (qs_tasks st)) (qs_files st))
      end
  | Register t key =>
      ' (rest, j) ← registers_next st t;
      Some (mkQueueState rest (<[key := t]> (qs_queues st)) (<[t := (j, Queued key (qs_queues st !! key))]> (qs_tasks st)) (qs_files st))
  | Reject t =>
      ' (rest, j) ← registers_next st t;
      Some (mkQueueState rest (qs_queues st) (<[t := (j, Rejected)]> (qs_tasks st)) (qs_files st))
  | Start t =>
      match qs_tasks st !! t with
      | Some (j, Queued key currentQueue) => if resolved st currentQueue then Some (set_phase t j (Reading key) st) else None
      | _ => None
      end
  | Read t =>
      match qs_tasks st !! t with
      | Some (j, Reading key) => Some (set_phase t j (Writing key (qs_files st !! key)) st)
      | _ => None
      end
  | Write t =>
      match qs_tasks st !! t with
      | Some (j, Writing key seen) =>
          Some (set_phase t j (Releasing key) (mkQueueState (qs_registration st) (qs_queues st) (qs_tasks st) (write_file key (j seen) (qs_files st))))
      | _ => None
      end
  | Finish t =>
      match qs_tasks st !! t with
      | Some (j, Releasing key) =>
          let queues := if decide (qs_queues st !! key = Some t) then delete key (qs_queues st) else qs_queues st in
          Some (set_phase t j (Finished key) (mkQueueState (qs_registration st) queues (qs_tasks st) (qs_files st)))
      | _ => None
      end
  end.

Definition queue_initial (files : gmap string jsstr) : QueueState := mkQueueState [] ∅ ∅ files.

Fixpoint queue_run (events : list queue_event) (st : QueueState) : option QueueState :=
  match events with [] => Some st | e :: events' => st' ← queue_step e st; queue_run events' st' end.

(** ** What the queue promises *)

(** The tasks of a key, in the order of their registrations. *)
Definition registered (key : string) (events : list queue_event) : list nat :=
  omap (fun e => match e with Register t key' => if decide (key' = key) then Some t else None | _ => None end) events.

Definition job_of (st : QueueState) (t : nat) : job := match qs_tasks st !! t with Some (j, _) => j | None => fun _ => None end.

(** The file after tasks one after the other. *)
Definition apply_job (file : option jsstr) (j : job) : option jsstr := match j file with Some c => Some c | None => file end.
Definition apply_jobs (file : option jsstr) (js : list job) : option jsstr := foldl apply_job file js.

Definition settled (st : QueueState) (t : nat) : Prop := exists j key, qs_tasks st !! t = Some (j, Finished key).

(** The task serves the key: it may read and write the file. *)
Definition serves (st : QueueState) (key : string) (t : nat) : Prop :=
  exists j, qs_tasks st !! t = Some (j, Reading key) \/ (exists seen, qs_tasks st !! t = Some (j, Writing key seen)) \/ qs_tasks st !! t = Some (j, Releasing key).

(** The tasks of one key: the first [n] are settled, one may hold the key, the others wait. *)
Record key_serial (start : option jsstr) (key : string) (l : list nat) (n : nat) (st : QueueState) : Prop := mkSerial {
  ks_nodup : NoDup l;
  ks_count : n <= length l;
  ks_before : forall i t, i < n -> l !! i = Some t -> exists j, qs_tasks st !! t = Some (j, Finished key);
  ks_after : forall i t, n < i -> l !! i = Some t -> exists j, qs_tasks st !! t = Some (j, Queued key (l !! (pred i)));
  ks_next : forall t, l !! n = Some t -> exists j ph, qs_tasks st !! t = Some (j, ph) /\
    match ph with
    | Queued key' p => key' = key /\ (p = None \/ (0 < n /\ p = l !! (pred n))) /\ qs_files st !! key = apply_jobs start (map (job_of st) (take n l))
    | Reading key' => key' = key /\ qs_files st !! key = apply_jobs start (map (job_of st) (take n l))
    | Writing key' seen => key' = key /\ qs_files st !! key = apply_jobs start (map (job_of st) (take n l)) /\ seen = qs_files st !! key
    | Releasing key' => key' = key /\ qs_files st !! key = apply_jobs start (map (job_of st) (take (S n) l))
    | _ => False
    end;
  ks_idle : l !! n = None -> qs_files st !! key = apply_jobs start (map (job_of st) l);
  ks_queue : qs_queues st !! key = if decide (n < length l) then last l else None;
}.

(** * The mutation queue keeps the mutations of a file one after the other. *)

Lemma registered_snoc key events e : registered key (events ++ [e]) = registered key events ++ registered key [e].
Proof. unfold registered. by rewrite omap_app. Qed.

(** ** One key *)

Section key.
Context (start : option jsstr) (key : string).

Lemma serial_job_of l st st' n : (forall t, t ∈ l -> qs_tasks st' !! t = qs_tasks st !! t) -> map (job_of st') (take n l) = map (job_of st) (take n l).
Proof.
  intros Ht. apply map_ext_in. intros t Hin%list_elem_of_In. unfold job_of. rewrite Ht; [done|]. by eapply elem_of_take in Hin as (? & ? & _); eapply list_elem_of_lookup_2.
Qed.

(** Steps of other tasks. *)
Lemma serial_frame l n st st' : key_serial start key l n st -> (forall t, t ∈ l -> qs_tasks st' !! t = qs_tasks st !! t) ->
  qs_files st' !! key = qs_files st !! key -> qs_queues st' !! key = qs_queues st !! key -> key_serial start key l n st'.
Proof.
  intros [Hnd Hc Hb Ha Hn Hi Hq] Ht Hf Hqs. split; [done|done| | | | |by rewrite Hqs].
  - intros i t Hlt Hl. rewrite Ht by by eapply list_elem_of_lookup_2. by eapply Hb.
  - intros i t Hlt Hl. rewrite Ht by by eapply list_elem_of_lookup_2. by eapply Ha.
  - intros t Hl. rewrite Ht by by eapply list_elem_of_lookup_2. destruct (Hn t Hl) as (j & ph & Htask & Hph). exists j, ph. split; [done|].
    rewrite !(serial_job_of l st st') by done. destruct ph; rewrite ?Hf; done.
  - intros Hl. rewrite Hf, Hi by done. f_equal. rewrite <- (firstn_all l). symmetry. by apply serial_job_of.
Qed.

(** The task that serves the key is the next one. *)
Lemma serial_front l n st i t j ph : key_serial start key l n st -> l !! i = Some t -> qs_tasks st !! t = Some (j, ph) ->
  match ph with Reading _ | Writing _ _ | Releasing _ => i = n | Queued _ p => resolved st p = true -> i = n | _ => True end.
Proof.
  intros Hs Hl Ht. destruct (decide (i < n)) as [Hlt|Hge].
  { destruct (ks_before _ _ _ _ _ Hs i t Hlt Hl) as (j' & Ht'). rewrite Ht in Ht'. injection Ht' as -> ->. done. }
  destruct (decide (i = n)) as [->|Hne]; [by destruct ph|]. destruct (ks_after _ _ _ _ _ Hs i t ltac:(lia) Hl) as (j' & Ht'). rewrite Ht in Ht'.
  injection Ht' as -> ->. intros Hres. exfalso. pose proof (lookup_lt_Some _ _ _ Hl). destruct (lookup_lt_is_Some_2 l (pred i) ltac:(lia)) as [p Hp].
  rewrite Hp in Hres. cbn [resolved] in Hres. destruct (decide (pred i = n)) as [Heq|Hne'].
  - rewrite Heq in Hp. destruct (ks_next _ _ _ _ _ Hs p Hp) as (jp & php & Htp & Hph). rewrite Htp in Hres. by destruct php.
  - destruct (ks_after _ _ _ _ _ Hs (pred i) p ltac:(lia) Hp) as (jp & Htp). by rewrite Htp in Hres.
Qed.

(** A step of the next task. *)
Lemma serial_next l n st st' t j ph ph' : key_serial start key l n st -> l !! n = Some t -> qs_tasks st !! t = Some (j, ph) ->
  qs_tasks st' = <[t := (j, ph')]> (qs_tasks st) -> qs_queues st' !! key = qs_queues st !! key ->
  match ph' with
  | Reading key' => key' = key /\ qs_files st' !! key = apply_jobs start (map (job_of st) (take n l))
  | Writing key' seen => key' = key /\ qs_files st' !! key = apply_jobs start (map (job_of st) (take n l)) /\ seen = qs_files st' !! key
  | Releasing key' => key' = key /\ qs_files st' !! key = apply_jobs start (map (job_of st) (take (S n) l))
  | _ => False
  end -> key_serial start key l n st'.
Proof.
  intros [Hnd Hc Hb Ha Hn Hi Hq] Hl Ht Htasks Hqs Hph.
  assert (forall m, map (job_of st') (take m l) = map (job_of st) (take m l)) as Hjobs.
  { intros m. apply map_ext. intros u. unfold job_of. rewrite Htasks. destruct (decide (u = t)) as [->|Hne]; [by rewrite lookup_insert_eq, Ht|by rewrite lookup_insert_ne]. }
  assert (forall i u, i <> n -> l !! i = Some u -> qs_tasks st' !! u = qs_tasks st !! u) as Hother.
  { intros i u Hi' Hu. rewrite Htasks. apply lookup_insert_ne. intros ->. apply Hi'. by eapply NoDup_lookup. }
  split; [done|done| | | | |by rewrite Hqs].
  - intros i u Hlt Hu. rewrite (Hother i) by (done || lia). by eapply Hb.
  - intros i u Hlt Hu. rewrite (Hother i) by (done || lia). by eapply Ha.
  - intros u Hu. rewrite Hl in Hu. injection Hu as <-. exists j, ph'. rewrite Htasks, lookup_insert_eq. split; [done|]. rewrite !Hjobs. by destruct ph'.
  - intros Hnone. by rewrite Hl in Hnone.
Qed.

(** The next task settles. *)
Lemma serial_finish l n st st' t j : key_serial start key l n st -> l !! n = Some t -> qs_tasks st !! t = Some (j, Releasing key) ->
  qs_tasks st' = <[t := (j, Finished key)]> (qs_tasks st) -> qs_files st' = qs_files st ->
  qs_queues st' !! key = (if decide (qs_queues st !! key = Some t) then None else qs_queues st !! key) -> key_serial start key l (S n) st'.
Proof.
  intros [Hnd Hc Hb Ha Hn Hi Hq] Hl Ht Htasks Hfiles Hqs. pose proof (lookup_lt_Some _ _ _ Hl) as Hlt.
  assert (forall m, map (job_of st') (take m l) = map (job_of st) (take m l)) as Hjobs.
  { intros m. apply map_ext. intros u. unfold job_of. rewrite Htasks. destruct (decide (u = t)) as [->|Hne]; [by rewrite lookup_insert_eq, Ht|by rewrite lookup_insert_ne]. }
  assert (forall i u, i <> n -> l !! i = Some u -> qs_tasks st' !! u = qs_tasks st !! u) as Hother.
  { intros i u Hi' Hu. rewrite Htasks. apply lookup_insert_ne. intros ->. apply Hi'. by eapply NoDup_lookup. }
  destruct (Hn t Hl) as (j0 & ph & Ht0 & Hph). rewrite Ht in Ht0. injection Ht0 as <- <-. destruct Hph as [_ Hfile].
  split; [done|lia| | | | |].
  - intros i u Hi' Hu. destruct (decide (i = n)) as [->|Hne]; [|rewrite (Hother i) by done; eapply Hb; [|done]; lia].
    rewrite Hl in Hu. injection Hu as <-. exists j. by rewrite Htasks, lookup_insert_eq.
  - intros i u Hi' Hu. rewrite (Hother i) by (done || lia). eapply Ha; [lia|done].
  - intros u Hu. rewrite (Hother (S n)) by (done || lia). destruct (Ha (S n) u ltac:(lia) Hu) as (ju & Htu). exists ju, (Queued key (l !! n)). split; [done|].
    rewrite Hfiles, Hjobs. split_and!; [done|right; split; [lia|done]|done].
  - intros Hnone. apply lookup_ge_None in Hnone. rewrite Hfiles, Hfile. f_equal. rewrite <- Hjobs. f_equal. apply firstn_all2. lia.
  - rewrite Hqs, Hq. rewrite (decide_True _ _ Hlt). destruct (decide (last l = Some t)) as [Hlast|Hlast].
    + rewrite decide_False; [done|]. intros Hlt'. rewrite last_lookup in Hlast. pose proof (NoDup_lookup _ _ _ _ Hnd Hl Hlast). lia.
    + rewrite decide_True; [done|]. destruct (decide (S n < length l)) as [|Hge]; [done|]. destruct Hlast. rewrite last_lookup. by replace (pred (length l)) with n by lia.
Qed.

(** A new task. *)
Lemma serial_register l n st st' t j : key_serial start key l n st -> t ∉ l ->
  qs_tasks st' = <[t := (j, Queued key (qs_queues st !! key))]> (qs_tasks st) -> qs_files st' = qs_files st -> qs_queues st' !! key = Some t ->
  key_serial start key (l ++ [t]) n st'.
Proof.
  intros [Hnd Hc Hb Ha Hn Hi Hq] Hnew Htasks Hfiles Hqs.
  assert (forall u, u ∈ l -> qs_tasks st' !! u = qs_tasks st !! u) as Hother.
  { intros u Hu. rewrite Htasks. apply lookup_insert_ne. by intros ->. }
  assert (forall i u, (l ++ [t]) !! i = Some u -> l !! i = Some u \/ i = length l /\ u = t) as Hsplit.
  { intros i u [Hu|[Hge Hu]]%lookup_app_Some; [by left|]. right. apply list_lookup_singleton_Some in Hu as [Hi' <-]. split; [lia|done]. }
  assert (forall i, i < length l -> (l ++ [t]) !! i = l !! i) as Hold by (intros i Hi'; by apply lookup_app_l).
  split.
  - apply NoDup_app. split_and!; [done| |apply NoDup_singleton]. by intros x Hx ->%list_elem_of_singleton.
  - rewrite length_app. lia.
  - intros i u Hi' [Hu|[-> ->]]%Hsplit; [|lia]. rewrite Hother by by eapply list_elem_of_lookup_2. by eapply Hb.
  - intros i u Hi' [Hu|[-> ->]]%Hsplit.
    + rewrite Hother by by eapply list_elem_of_lookup_2. rewrite Hold by (pose proof (lookup_lt_Some _ _ _ Hu); lia). by eapply Ha.
    + exists j. rewrite Htasks, lookup_insert_eq. rewrite Hold by lia. by rewrite Hq, decide_True, last_lookup.
  - intros u [Hu|[-> ->]]%Hsplit.
    + rewrite Hother by by eapply list_elem_of_lookup_2. destruct (Hn u Hu) as (ju & ph & Htu & Hph). exists ju, ph. split; [done|]. pose proof (lookup_lt_Some _ _ _ Hu).
      rewrite !take_app_le by lia. rewrite !(serial_job_of l st st'), Hfiles by done. destruct ph; try done. by rewrite Hold by lia.
    + exists j, (Queued key None). rewrite Htasks, lookup_insert_eq, Hq, decide_False by lia. split; [done|]. split_and!; [done|by left|].
      rewrite take_app_length, Hfiles, Hi by by apply lookup_ge_None. f_equal. rewrite <- (firstn_all l) at 2. rewrite (serial_job_of l st st') by done. by rewrite firstn_all.
  - intros Hnone%lookup_ge_None. rewrite length_app in Hnone. cbn in Hnone. lia.
  - rewrite Hqs, last_snoc, decide_True; [done|]. rewrite length_app. cbn. lia.
Qed.
End key.
