(* ===== verification/FileQueueTheorems.v ===== *)
(** What the mutation queue guarantees under every interleaving. *)
From S2P Require Import Prelude JsNumber JsText JsObject JsData MiniDiff EditDiff FileQueue.

(** ** Reachable states *)

Record queue_inv (files : gmap string jsstr) (events : list queue_event) (st : QueueState) : Prop := mkQueueInv {
  qi_phase : forall t j ph, qs_tasks st !! t = Some (j, ph) ->
    match ph with
    | Registering => t ∈ qs_registration st
    | Queued key _ | Reading key | Writing key _ | Releasing key | Finished key => t ∈ registered key events
    | Rejected => True
    end;
  qi_registering : forall t, t ∈ qs_registration st -> exists j, qs_tasks st !! t = Some (j, Registering);
  qi_registration : NoDup (qs_registration st);
  qi_keys : forall key, exists n, key_serial (files !! key) key (registered key events) n st;
}.

Lemma inv_registered files events st key t : queue_inv files events st -> t ∈ registered key events ->
  exists j ph, qs_tasks st !! t = Some (j, ph) /\ ph <> Registering /\ ph <> Rejected.
Proof.
  intros Hi (i & Hl)%list_elem_of_lookup_1. destruct (qi_keys _ _ _ Hi key) as [n Hs]. destruct (Nat.lt_trichotomy i n) as [Hlt|[->|Hgt]].
  - destruct (ks_before _ _ _ _ _ Hs i t Hlt Hl) as (j & Ht). by exists j, (Finished key).
  - destruct (ks_next _ _ _ _ _ Hs t Hl) as (j & ph & Ht & Hph). exists j, ph. by destruct ph.
  - destruct (ks_after _ _ _ _ _ Hs i t Hgt Hl) as (j & Ht). by eexists j, _.
Qed.

Lemma initial_inv files : queue_inv files [] (queue_initial files).
Proof.
  split; [done| |constructor|].
  - by intros t ?%elem_of_nil.
  - intros key. exists 0. split; cbn; try done; (constructor || (intros; lia)).
Qed.

(** Steps that register nothing. *)
Definition registers_none (e : queue_event) : Prop := match e with Register _ _ => False | _ => True end.

Lemma registered_same key events e : registers_none e -> registered key (events ++ [e]) = registered key events.
Proof. intros He. rewrite registered_snoc. destruct e; try done; cbn; by rewrite app_nil_r. Qed.

(** A step of one registered task at the front of its key. *)
Lemma front_inv files events st st' e t key j ph ph' : queue_inv files events st -> registers_none e ->
  qs_tasks st !! t = Some (j, ph) -> t ∈ registered key events ->
  match ph' with Reading k | Writing k _ | Releasing k | Finished k => k = key | _ => False end ->
  qs_registration st' = qs_registration st -> qs_tasks st' = <[t := (j, ph')]> (qs_tasks st) ->
  (forall k, k <> key -> qs_files st' !! k = qs_files st !! k /\ qs_queues st' !! k = qs_queues st !! k) ->
  (forall n, key_serial (files !! key) key (registered key events) n st -> exists n', key_serial (files !! key) key (registered key events) n' st') ->
  queue_inv files (events ++ [e]) st'.
Proof.
  intros Hi He Ht Hin Hph Hreg Htasks Hframe Hkey. split.
  - intros u ju phu Hu. rewrite Htasks in Hu. destruct (decide (u = t)) as [->|Hne].
    + rewrite lookup_insert_eq in Hu. injection Hu as <- <-. destruct ph'; try done; rewrite registered_same by done; by subst.
    + rewrite lookup_insert_ne in Hu by done. pose proof (qi_phase _ _ _ Hi u ju phu Hu) as H. rewrite Hreg. destruct phu; try done; by rewrite registered_same.
  - intros u Hu. rewrite Hreg in Hu. destruct (qi_registering _ _ _ Hi u Hu) as [ju Hju]. exists ju. rewrite Htasks, lookup_insert_ne; [done|].
    intros ->. destruct (inv_registered _ _ _ _ _ Hi Hin) as (? & ? & Ht' & Hn & _). congruence.
  - by rewrite Hreg; apply Hi.
  - intros k. rewrite registered_same by done. destruct (qi_keys _ _ _ Hi k) as [n Hs]. destruct (decide (k = key)) as [->|Hne]; [by eapply Hkey|].
    exists n. destruct (Hframe k Hne) as [Hf Hq]. apply (serial_frame _ _ _ _ st); [done| |done|done]. intros u Hu. rewrite Htasks. apply lookup_insert_ne. intros Heq. subst u.
    apply list_elem_of_lookup_1 in Hu as (i & Hl), Hin as (i' & Hl').
    destruct (qi_keys _ _ _ Hi key) as [n' Hs'].
    assert (forall k' m l i, key_serial (files !! k') k' l m st -> l !! i = Some t -> match ph with Queued k0 _ | Reading k0 | Writing k0 _ | Releasing k0 | Finished k0 => k0 = k' | _ => False end) as Hk.
    { clear -Ht. intros k' m l i Hs Hl. destruct (Nat.lt_trichotomy i m) as [Hlt|[->|Hgt]].
      - destruct (ks_before _ _ _ _ _ Hs i t Hlt Hl) as (j' & Ht'). rewrite Ht in Ht'. by injection Ht' as -> ->.
      - destruct (ks_next _ _ _ _ _ Hs t Hl) as (j' & ph1 & Ht' & Hph). rewrite Ht in Ht'. injection Ht' as -> ->. destruct ph1; try done; by destruct Hph.
      - destruct (ks_after _ _ _ _ _ Hs i t Hgt Hl) as (j' & Ht'). rewrite Ht in Ht'. by injection Ht' as -> ->. }
    pose proof (Hk _ _ _ _ Hs Hl) as H1. pose proof (Hk _ _ _ _ Hs' Hl') as H2. destruct ph; try done; congruence.
Qed.

(** The first registration settles. *)
Lemma registers_spec st t rest j : registers_next st t = Some (rest, j) -> qs_registration st = t :: rest /\ qs_tasks st !! t = Some (j, Registering).
Proof.
  unfold registers_next. destruct (qs_registration st) as [|t' rest']; [done|]. destruct (decide (t = t')) as [<-|]; [|done].
  destruct (qs_tasks st !! t) as [[j' []]|]; try done. by intros [= -> ->].
Qed.

Lemma registering_new files events st key t j : queue_inv files events st -> qs_tasks st !! t = Some (j, Registering) -> t ∉ registered key events.
Proof. intros Hi Ht Hin. destruct (inv_registered _ _ _ _ _ Hi Hin) as (? & ? & Ht' & Hn & _). congruence. Qed.

Lemma call_inv files events st t j st' : queue_inv files events st -> queue_step (Call t j) st = Some st' -> queue_inv files (events ++ [Call t j]) st'.
Proof.
  intros Hi Hs. cbn [queue_step] in Hs. destruct (qs_tasks st !! t) eqn:Ht; [done|]. injection Hs as <-. split; cbn.
  + intros u ju ph. destruct (decide (u = t)) as [->|Hne]; [rewrite lookup_insert_eq; intros [= <- <-]; apply elem_of_app; right; left|rewrite lookup_insert_ne by done].
    intros Hu. pose proof (qi_phase _ _ _ Hi u ju ph Hu) as H. destruct ph; try done; try (rewrite registered_same; done). apply elem_of_app. by left.
  + intros u [Hu| ->%list_elem_of_singleton]%elem_of_app; [|by exists j; rewrite lookup_insert_eq]. destruct (qi_registering _ _ _ Hi u Hu) as [ju Hju]. exists ju.
    rewrite lookup_insert_ne; [done|congruence].
  + apply NoDup_app. split_and!; [apply Hi| |apply NoDup_singleton]. intros x Hx ->%list_elem_of_singleton. destruct (qi_registering _ _ _ Hi t Hx). congruence.
  + intros key. rewrite registered_same by done. destruct (qi_keys _ _ _ Hi key) as [n Hk]. exists n. apply (serial_frame _ _ _ _ st); try done. cbn.
    intros u Hu. apply lookup_insert_ne. intros ->. destruct (inv_registered _ _ _ _ _ Hi Hu) as (? & ? & ? & _). congruence.
Qed.

Lemma register_inv files events st t key st' : queue_inv files events st -> queue_step (Register t key) st = Some st' -> queue_inv files (events ++ [Register t key]) st'.
Proof.
  intros Hi Hs. cbn [queue_step] in Hs. apply bind_Some in Hs as ([rest j] & Hr & Hs). injection Hs as <-. apply registers_spec in Hr as [Hreg Ht]. pose proof (qi_registration _ _ _ Hi) as Hnd. rewrite Hreg in Hnd.
  apply NoDup_cons in Hnd as [Hnew Hnd].
  assert (forall k, registered k (events ++ [Register t key]) = if decide (key = k) then registered k events ++ [t] else registered k events) as Hregd.
  { intros k. rewrite registered_snoc. cbn. destruct (decide (key = k)); cbn; by rewrite ?app_nil_r. }
  split; cbn.
  + intros u ju ph. destruct (decide (u = t)) as [->|Hne]; [rewrite lookup_insert_eq; intros [= <- <-]; rewrite Hregd, decide_True by done; apply elem_of_app; right; left|].
    rewrite lookup_insert_ne by done. intros Hu. pose proof (qi_phase _ _ _ Hi u ju ph Hu) as H. rewrite Hreg in H.
    destruct ph; try done; try (rewrite Hregd; case_decide; [apply elem_of_app; by left|done]). by apply elem_of_cons in H as [|].
  + intros u Hu. destruct (qi_registering _ _ _ Hi u) as [ju Hju]; [rewrite Hreg; by right|]. exists ju. rewrite lookup_insert_ne; [done|congruence].
  + done.
  + intros k. rewrite Hregd. destruct (qi_keys _ _ _ Hi k) as [n Hk]. exists n. pose proof (registering_new _ _ _ k _ _ Hi Ht) as Hfresh. destruct (decide (key = k)) as [->|Hne].
    * apply (serial_register _ _ _ _ st _ t j Hk Hfresh); try done. cbn. by rewrite lookup_insert_eq.
    * apply (serial_frame _ _ _ _ st); try done; cbn; [|by rewrite lookup_insert_ne]. intros u Hu. apply lookup_insert_ne. by intros ->.
Qed.

Lemma reject_inv files events st t st' : queue_inv files events st -> queue_step (Reject t) st = Some st' -> queue_inv files (events ++ [Reject t]) st'.
Proof.
  intros Hi Hs. cbn [queue_step] in Hs. apply bind_Some in Hs as ([rest j] & Hr & Hs). injection Hs as <-. apply registers_spec in Hr as [Hreg Ht]. pose proof (qi_registration _ _ _ Hi) as Hnd. rewrite Hreg in Hnd.
  apply NoDup_cons in Hnd as [Hnew Hnd]. split; cbn.
  + intros u ju ph. destruct (decide (u = t)) as [->|Hne]; [rewrite lookup_insert_eq; by intros [= <- <-]|]. rewrite lookup_insert_ne by done.
    intros Hu. pose proof (qi_phase _ _ _ Hi u ju ph Hu) as H. rewrite Hreg in H. destruct ph; try done; try (by rewrite registered_same). by apply elem_of_cons in H as [|].
  + intros u Hu. destruct (qi_registering _ _ _ Hi u) as [ju Hju]; [rewrite Hreg; by right|]. exists ju. rewrite lookup_insert_ne; [done|congruence].
  + done.
  + intros k. rewrite registered_same by done. destruct (qi_keys _ _ _ Hi k) as [n Hk]. exists n. apply (serial_frame _ _ _ _ st); try done. cbn.
    intros u Hu. apply lookup_insert_ne. intros ->. by eapply registering_new.
Qed.

Lemma start_inv files events st t st' : queue_inv files events st -> queue_step (Start t) st = Some st' -> queue_inv files (events ++ [Start t]) st'.
Proof.
  intros Hi Hs. cbn [queue_step] in Hs. destruct (qs_tasks st !! t) as [[j []]|] eqn:Ht; try done. destruct (resolved st currentQueue) eqn:Hres; [|done]. injection Hs as <-.
  pose proof (qi_phase _ _ _ Hi t j _ Ht) as Hin. eapply (front_inv _ _ _ _ _ t key j _ (Reading key)); try done. intros n Hk. exists n.
  apply list_elem_of_lookup_1 in Hin as (i & Hl). pose proof (serial_front _ _ _ _ _ _ _ _ _ Hk Hl Ht Hres) as ->.
  apply (serial_next _ _ _ _ st _ t j _ (Reading key) Hk Hl Ht); try done. split; [done|]. cbn. destruct (ks_next _ _ _ _ _ Hk t Hl) as (j' & ph & Ht' & Hph).
  rewrite Ht in Ht'. injection Ht' as <- <-. tauto.
Qed.

Lemma read_inv files events st t st' : queue_inv files events st -> queue_step (Read t) st = Some st' -> queue_inv files (events ++ [Read t]) st'.
Proof.
  intros Hi Hs. cbn [queue_step] in Hs. destruct (qs_tasks st !! t) as [[j []]|] eqn:Ht; try done. injection Hs as <-.
  pose proof (qi_phase _ _ _ Hi t j _ Ht) as Hin. eapply (front_inv _ _ _ _ _ t key j _ (Writing key (qs_files st !! key))); try done. intros n Hk. exists n.
  apply list_elem_of_lookup_1 in Hin as (i & Hl). pose proof (serial_front _ _ _ _ _ _ _ _ _ Hk Hl Ht) as Hn. cbn in Hn. subst i.
  apply (serial_next _ _ _ _ st _ t j _ (Writing key (qs_files st !! key)) Hk Hl Ht); try done. cbn. destruct (ks_next _ _ _ _ _ Hk t Hl) as (j' & ph & Ht' & Hph).
  rewrite Ht in Ht'. injection Ht' as <- <-. tauto.
Qed.

Lemma write_inv files events st t st' : queue_inv files events st -> queue_step (Write t) st = Some st' -> queue_inv files (events ++ [Write t]) st'.
Proof.
  intros Hi Hs. cbn [queue_step] in Hs. destruct (qs_tasks st !! t) as [[j []]|] eqn:Ht; try done. injection Hs as <-.
  pose proof (qi_phase _ _ _ Hi t j _ Ht) as Hin. eapply (front_inv _ _ _ _ _ t key j _ (Releasing key)); try done.
  { intros k Hne. cbn. split; [|done]. unfold write_file. destruct (j seen); [by rewrite lookup_insert_ne|done]. }
  intros n Hk. exists n.
  apply list_elem_of_lookup_1 in Hin as (i & Hl). pose proof (serial_front _ _ _ _ _ _ _ _ _ Hk Hl Ht) as Hn. cbn in Hn. subst i.
  apply (serial_next _ _ _ _ st _ t j _ (Releasing key) Hk Hl Ht); try done. split; [done|]. cbn. destruct (ks_next _ _ _ _ _ Hk t Hl) as (j' & ph & Ht' & Hph).
  rewrite Ht in Ht'. injection Ht' as <- <-. destruct Hph as (_ & Hfile & ->). rewrite (take_S_r _ _ _ Hl), map_app. unfold apply_jobs. rewrite foldl_app.
  fold (apply_jobs (files !! key) (map (job_of st) (take n (registered key events)))). rewrite <- Hfile. cbn [map foldl]. unfold job_of at 1. rewrite Ht. unfold apply_job, write_file.
  destruct (j (qs_files st !! key)); [by rewrite lookup_insert_eq|done].
Qed.

Lemma finish_inv files events st t st' : queue_inv files events st -> queue_step (Finish t) st = Some st' -> queue_inv files (events ++ [Finish t]) st'.
Proof.
  intros Hi Hs. cbn [queue_step] in Hs. destruct (qs_tasks st !! t) as [[j []]|] eqn:Ht; try done. injection Hs as <-.
  pose proof (qi_phase _ _ _ Hi t j _ Ht) as Hin. eapply (front_inv _ _ _ _ _ t key j _ (Finished key)); try done.
  { intros k Hne. cbn. split; [done|]. case_decide; [by rewrite lookup_delete_ne|done]. }
  intros n Hk. exists (S n).
  apply list_elem_of_lookup_1 in Hin as (i & Hl). pose proof (serial_front _ _ _ _ _ _ _ _ _ Hk Hl Ht) as Hn. cbn in Hn. subst i.
  apply (serial_finish _ _ _ _ st _ t j Hk Hl Ht); try done. cbn. case_decide; [by rewrite lookup_delete_eq|done].
Qed.

Lemma step_inv files events st e st' : queue_inv files events st -> queue_step e st = Some st' -> queue_inv files (events ++ [e]) st'.
Proof. destruct e; eauto using call_inv, register_inv, reject_inv, start_inv, read_inv, write_inv, finish_inv. Qed.

Lemma run_inv files events : forall done_ st st', queue_inv files done_ st -> queue_run events st = Some st' -> queue_inv files (done_ ++ events) st'.
Proof.
  induction events as [|e events IH]; intros done_ st st' Hi Hr; cbn [queue_run] in Hr; [injection Hr as <-; by rewrite app_nil_r|].
  apply bind_Some in Hr as (st1 & Hs & Hr). replace (done_ ++ e :: events) with ((done_ ++ [e]) ++ events) by by rewrite <- app_assoc. eapply IH; [|done]. by eapply step_inv.
Qed.

(** The jobs of the tasks are those of the calls. *)
Lemma step_job e st st' t : queue_step e st = Some st' -> is_Some (qs_tasks st !! t) -> job_of st' t = job_of st t /\ is_Some (qs_tasks st' !! t).
Proof.
  intros Hs [[jt pht] Ht].
  assert (forall u j ph ph', qs_tasks st !! u = Some (j, ph) -> qs_tasks st' = <[u := (j, ph')]> (qs_tasks st) -> job_of st' t = job_of st t /\ is_Some (qs_tasks st' !! t)) as Hset.
  { intros u j ph ph' Hu Heq. unfold job_of. rewrite Heq. destruct (decide (t = u)) as [->|Hne]; [rewrite lookup_insert_eq, Hu|rewrite lookup_insert_ne, Ht by done]; by split. }
  destruct e as [u j|u key|u|u|u|u|u]; cbn [queue_step] in Hs.
  - destruct (qs_tasks st !! u) eqn:Hu; [done|]. injection Hs as <-. unfold job_of. cbn. rewrite lookup_insert_ne by congruence. by rewrite Ht.
  - apply bind_Some in Hs as ([rest j] & Hr%registers_spec & Hs). injection Hs as <-. destruct Hr as [_ Hu]. by apply (Hset _ _ _ _ Hu eq_refl).
  - apply bind_Some in Hs as ([rest j] & Hr%registers_spec & Hs). injection Hs as <-. destruct Hr as [_ Hu]. by apply (Hset _ _ _ _ Hu eq_refl).
  - destruct (qs_tasks st !! u) as [[j []]|] eqn:Hu; try done. destruct (resolved st currentQueue); [|done]. injection Hs as <-. by apply (Hset _ _ _ _ Hu eq_refl).
  - destruct (qs_tasks st !! u) as [[j []]|] eqn:Hu; try done. injection Hs as <-. by apply (Hset _ _ _ _ Hu eq_refl).
  - destruct (qs_tasks st !! u) as [[j []]|] eqn:Hu; try done. injection Hs as <-. by apply (Hset _ _ _ _ Hu eq_refl).
  - destruct (qs_tasks st !! u) as [[j []]|] eqn:Hu; try done. injection Hs as <-. by apply (Hset _ _ _ _ Hu eq_refl).
Qed.

Lemma run_job events : forall st st' t j, queue_run events st = Some st' -> Call t j ∈ events -> job_of st' t = j.
Proof.
  assert (forall events st st' t, queue_run events st = Some st' -> is_Some (qs_tasks st !! t) -> job_of st' t = job_of st t) as Hkeep.
  { clear. induction events as [|e events IH]; intros st st' t Hr Ht; cbn [queue_run] in Hr; [by injection Hr as <-|]. apply bind_Some in Hr as (st1 & Hs & Hr).
    destruct (step_job _ _ _ _ Hs Ht) as [<- Ht1]. by apply IH. }
  induction events as [|e events IH]; intros st st' t j Hr Hin; [by apply elem_of_nil in Hin|]. cbn [queue_run] in Hr. apply bind_Some in Hr as (st1 & Hs & Hr).
  apply elem_of_cons in Hin as [<-|Hin]; [|by eapply IH]. cbn [queue_step] in Hs. destruct (qs_tasks st !! t) eqn:Ht; [done|]. injection Hs as <-.
  rewrite (Hkeep _ _ _ t Hr); unfold job_of; cbn; rewrite lookup_insert_eq; [done|by eexists].
Qed.

(** Something can happen while a task has not settled. *)
Lemma key_progress start key l n st : key_serial start key l n st -> n < length l -> exists t, is_Some (queue_step (Start t) st) \/ is_Some (queue_step (Read t) st) \/
  is_Some (queue_step (Write t) st) \/ is_Some (queue_step (Finish t) st).
Proof.
  intros Hs Hlt. destruct (lookup_lt_is_Some_2 l n Hlt) as [t Hl]. exists t. destruct (ks_next _ _ _ _ _ Hs t Hl) as (j & ph & Ht & Hph).
  cbn [queue_step]. rewrite Ht. destruct ph as [|key' p|key'|key' seen|key'|key'|]; try done; [left|right; left|right; right; left|right; right; right]; try by eexists.
  destruct Hph as (-> & Hp & _). assert (resolved st p = true) as ->; [|by eexists]. destruct Hp as [->|[Hn ->]]; [done|].
  destruct (lookup_lt_is_Some_2 l (pred n) ltac:(lia)) as [u Hu]. rewrite Hu. cbn [resolved]. destruct (ks_before _ _ _ _ _ Hs (pred n) u ltac:(lia) Hu) as (ju & ->). done.
Qed.

(** The queue as the calls see it: the tasks of the key are served one after the other, in
    the order of their registrations. *)
Definition serialised (files : gmap string jsstr) (events : list queue_event) (key : string) (st : QueueState) : Prop :=
  let l := registered key events in
  exists served, served <= length l /\
    (forall i t, i < served -> l !! i = Some t -> settled st t) /\
    (forall t, serves st key t -> l !! served = Some t) /\
    (exists written, (written = served \/ written = S served /\ exists t, l !! served = Some t /\ serves st key t) /\
      qs_files st !! key = apply_jobs (files !! key) (map (job_of st) (take written l))) /\
    (served < length l -> exists t e, is_Some (queue_step e st) /\ e ∈ [Start t; Read t; Write t; Finish t]) /\
    (served = length l -> qs_queues st !! key = None).

Lemma run_serialised files events key st : queue_run events (queue_initial files) = Some st -> serialised files events key st.
Proof.
  intros Hr. pose proof (run_inv files events [] _ _ (initial_inv files) Hr) as Hi. cbn [app] in Hi. destruct (qi_keys _ _ _ Hi key) as [n Hs]. exists n. split_and!.
  - apply Hs.
  - intros i t Hlt Hl. destruct (ks_before _ _ _ _ _ Hs i t Hlt Hl) as (j & Ht). by exists j, key.
  - intros t (j & Ht). assert (exists ph, qs_tasks st !! t = Some (j, ph) /\ match ph with Reading k | Writing k _ | Releasing k => k = key | _ => False end) as (ph & Htp & Hph).
    { destruct Ht as [Ht|[[seen Ht]|Ht]]; by eexists. }
    pose proof (qi_phase _ _ _ Hi t j ph Htp) as Hin. assert (t ∈ registered key events) as (i & Hl)%list_elem_of_lookup_1 by (destruct ph; try done; by subst).
    pose proof (serial_front _ _ _ _ _ _ _ _ _ Hs Hl Htp) as Hfront. destruct ph; try done; by subst i.
  - destruct (registered key events !! n) as [t|] eqn:Hl.
    + destruct (ks_next _ _ _ _ _ Hs t Hl) as (j & ph & Ht & Hph). destruct ph; try done.
      * exists n. split; [by left|apply Hph].
      * exists n. split; [by left|apply Hph].
      * exists n. split; [by left|apply Hph].
      * exists (S n). split; [right; split; [done|]; exists t; split; [done|]; exists j; destruct Hph as [-> _]; tauto|apply Hph].
    + exists n. split; [by left|]. rewrite (ks_idle _ _ _ _ _ Hs Hl). f_equal. apply lookup_ge_None in Hl. by rewrite firstn_all2.
  - intros Hlt. destruct (key_progress _ _ _ _ _ Hs Hlt) as (t & [H|[H|[H|H]]]); exists t; eexists; (split; [exact H|]); set_solver.
  - intros ->. rewrite (ks_queue _ _ _ _ _ Hs). apply decide_False. lia.
Qed.

(** A registration can always settle. *)
Lemma run_registers files events st : queue_run events (queue_initial files) = Some st -> qs_registration st <> [] ->
  exists t, is_Some (queue_step (Reject t) st) /\ forall key, is_Some (queue_step (Register t key) st).
Proof.
  intros Hr Hne. pose proof (run_inv files events [] _ _ (initial_inv files) Hr) as Hi. destruct (qs_registration st) as [|t rest] eqn:Hreg; [done|].
  destruct (qi_registering _ _ _ Hi t) as [j Ht]; [rewrite Hreg; by left|]. exists t. cbn [queue_step]. unfold registers_next. rewrite Hreg, decide_True, Ht by done.
  split; [by eexists|intros key; by eexists].
Qed.

(** ** The property *)

(** C31: Mutations of a file.  However the steps of the tasks interleave, the tasks of a key are
    served in the order of their registrations: only the first one not settled may read or
    write the file, the file is the one the jobs give one after the other (no update is lost),
    and the queue of a key without waiting tasks is dropped.  While a task waits something can
    happen, so that a failed job or a rejected registration blocks nothing. *)
Theorem mutations_serialised files events key st : queue_run events (queue_initial files) = Some st ->
  serialised files events key st /\
  (forall t j, Call t j ∈ events -> job_of st t = j) /\
  (qs_registration st <> [] -> exists t, is_Some (queue_step (Reject t) st) /\ forall key', is_Some (queue_step (Register t key') st)).
Proof. intros Hr. split_and!; [by apply run_serialised|intros t j; by apply (run_job events (queue_initial files))|by apply (run_registers files events)]. Qed.

(** ** Instances *)

Module Mutations.

(** Texts that are their own compatibility form. *)
#[export] Instance plain : Unicode := {| nfkc := fun s => s |}.

Definition key_a : string := "/a".
Definition edit_text (from to : string) : job := edit_job [mkEdit (js from) (js to)] false.

(** Two edits and a write of one file, the second edit without an occurrence of its old text. *)
Definition interleaved : list queue_event :=
  [Call 0 (edit_text "x" "y"); Call 1 (edit_text "missing" "z"); Register 0 key_a; Start 0; Register 1 key_a; Read 0; Call 2 (edit_text "y" "yy");
   Write 0; Register 2 key_a; Finish 0; Start 1; Read 1; Write 1; Finish 1; Start 2; Read 2; Write 2].

Definition files_a : gmap string jsstr := {[ key_a := js "x" ]}.

Example both_edits_kept : (st ← queue_run interleaved (queue_initial files_a); qs_files st !! key_a) = Some (js "yy").
Proof. vm_compute. reflexivity. Qed.

(** A task behind another one on its key cannot start. *)
Example second_waits : (st ← queue_run (take 6 interleaved) (queue_initial files_a); queue_step (Start 1) st) = None.
Proof. vm_compute. reflexivity. Qed.
End Mutations.
Import Mutations.

Lemma mutations_serialised_witness :
  match queue_run interleaved (queue_initial files_a) with
  | Some st => serialised files_a interleaved key_a st /\ (forall t j, Call t j ∈ interleaved -> job_of st t = j)
  | None => False
  end.
Proof.
  destruct (queue_run interleaved (queue_initial files_a)) as [st|] eqn:Hr.
  - split; apply (mutations_serialised files_a interleaved key_a st Hr).
  - assert (match queue_run interleaved (queue_initial files_a) with Some _ => true | None => false end = true) as Hst by (vm_compute; reflexivity).
    rewrite Hr in Hst. discriminate.
Defined.
