(* ===== verification/Retry.v ===== *)
(** Retries of a call of a model: [packages/ai/src/utils/retry.ts].

    The calls, the sleeps and the callbacks are an environment that answers per attempt; the
    loop is a computation that leaves the trace of what it did. *)
From S2P Require Import Prelude JsNumber JsText JsTree JsObject JsData Messages.
Local Open Scope Z_scope.

(** ** The classification of errors *)

(** A pattern of the code: characters, some of them (or the wildcard, [None]) optional. *)
Inductive pattern_item : Type :=
  | One (c : option Z)
  | Maybe (c : option Z).

(** The pattern language the code uses: [.] and the quantifier [?]. *)
Fixpoint pattern_of (source : jsstr) : list pattern_item :=
  match source with
  | [] => []
  | c :: rest =>
      let item := if c =? 46 then None else Some c in
      match rest with
      | q :: rest' => if q =? 63 then Maybe item :: pattern_of rest' else One item :: pattern_of rest
      | [] => [One item]
      end
  end.

(** The flag [i]: only ASCII letters have another case that matters for ASCII patterns. *)
Definition fold_case (u : Z) : Z := if in_range 97 122 u then u - 32 else u.

Definition item_matches (c : option Z) (u : Z) : bool :=
  match c with Some c => fold_case c =? fold_case u | None => negb (is_line_terminator u) end.

Fixpoint matches_here (pat : list pattern_item) (s : jsstr) : bool :=
  match pat with
  | [] => true
  | One c :: pat' => match s with u :: s' => item_matches c u && matches_here pat' s' | [] => false end
  | Maybe c :: pat' => match s with u :: s' => item_matches c u && matches_here pat' s' | [] => false end || matches_here pat' s
  end.

Fixpoint matches_somewhere (pat : list pattern_item) (s : jsstr) : bool :=
  matches_here pat s || match s with [] => false | _ :: s' => matches_somewhere pat s' end.

(** [new RegExp(patterns.join("|"), "i").test(message)]. *)
Definition error_pattern_test (patterns : list string) (message : string) : bool :=
  existsb (fun source => matches_somewhere (pattern_of (js source)) (units message)) patterns.

Definition NON_RETRYABLE_PROVIDER_LIMIT_ERROR_PATTERN : list string :=
  ["GoUsageLimitError"; "FreeUsageLimitError"; "Monthly usage limit reached"; "available balance";
   "insufficient_quota"; "out of budget"; "quota exceeded"; "billing"].

Definition RETRYABLE_PROVIDER_ERROR_PATTERN : list string :=
  ["overloaded"; "rate.?limit"; "too many requests"; "429"; "500"; "502"; "503"; "504"; "520"; "524";
   "service.?unavailable"; "server.?error"; "internal.?error";
   "provider.?returned.?error"; "exceeded request buffer limit while retrying upstream";
   "network.?error"; "connection.?error"; "connection.?refused"; "connection.?lost"; "other side closed"; "fetch failed";
   "getaddrinfo"; "ENOTFOUND"; "EAI_AGAIN"; "upstream.?connect"; "reset before headers"; "socket hang up";
   "socket connection was closed"; "timed? out"; "timeout"; "terminated";
   "websocket.?closed"; "websocket.?error";
   "ended without"; "stream ended before message_stop"; "stream ended before a terminal response event";
   "http2 request did not get a response";
   "retry delay";
   "you can retry your request"; "try your request again"; "please retry your request";
   "ResourceExhausted"].

Definition isRetryableAssistantError (message : AssistantMessage) : bool :=
  if negb (bool_decide (am_stopReason message = SRerror)) then false
  else match truthy_str (am_errorMessage message) with
       | None => false
       | Some errorMessage =>
           if error_pattern_test NON_RETRYABLE_PROVIDER_LIMIT_ERROR_PATTERN errorMessage then false
           else error_pattern_test RETRYABLE_PROVIDER_ERROR_PATTERN errorMessage
       end.

(** ** Delays *)

Record RetryPolicy := mkRetryPolicy {
  rp_enabled : bool;
  rp_maxRetries : Z;
  rp_baseDelayMs : Z;
  rp_maxAgentDelayMs : option Z;
}.

Definition DEFAULT_MAX_AGENT_RETRY_DELAY_MS : Z := 60000.

(** The power is infinite from 2^1024 on.  An integral product is exact when it is safe, and
    its rounding is not safe when it is not. *)
Definition retryDelayMs (policy : RetryPolicy) (attempt : Z) : Z :=
  let exponent := Z.max 0 (attempt - 1) in
  let safeDelay :=
    if exponent <? 1024 then
      let delay := rp_baseDelayMs policy * 2 ^ exponent in
      if is_safe_Z delay then delay else MAX_SAFE_INTEGER
    else MAX_SAFE_INTEGER in
  Z.min safeDelay (default DEFAULT_MAX_AGENT_RETRY_DELAY_MS (rp_maxAgentDelayMs policy)).

(** ** The loop *)

Inductive RetryEvent : Type :=
  | Produce (attempt : Z)
  | RetryScheduled (attempt maxAttempts delayMs : Z) (errorMessage : string)
  | Sleep (delayMs : Z)
  | RetryAttemptStart
  | RetryFinished (success : bool) (attempt : Z) (finalError : option string).

Inductive retry_error : Type :=
  | Threw (message : string)
  | OutOfFuel.

(** What a call gives, whether the abort signal ends a sleep, and what a callback throws. *)
Record RetryEnv := mkRetryEnv {
  re_produce : Z -> result string AssistantMessage;
  re_sleepAborted : Z -> bool;
  re_throws : Z -> RetryEvent -> option string;
}.

(** Computations with a trace. *)
Definition traced (A : Type) : Type := list RetryEvent * result retry_error A.
#[export] Instance traced_ret : MRet traced := fun A a => ([], Ok a).
#[export] Instance traced_bind : MBind traced := fun A B f m =>
  match m with
  | (t, Ok a) => let '(t', r) := f a in (t ++ t', r)
  | (t, Err e) => (t, Err e)
  end.

Definition aborted_response (response : AssistantMessage) : AssistantMessage :=
  mkAssistantMessage (am_content response) (am_api response) (am_provider response) (am_model response)
    (am_responseModel response) (am_responseId response) (am_diagnostics response) (am_usage response) SRaborted
    (am_deferred response) None (am_rawStopReason response) (am_endTurn response) (am_timestamp response).

Section loop.
Context (env : RetryEnv) (policy : option RetryPolicy).

Definition produce_ (attempt : Z) : traced AssistantMessage :=
  ([Produce attempt], match re_produce env attempt with Ok m => Ok m | Err e => Err (Threw e) end).

Definition callback (attempt : Z) (event : RetryEvent) : traced unit :=
  ([event], match re_throws env attempt event with Some e => Err (Threw e) | None => Ok () end).

(** [sleep]: the result says whether it was aborted. *)
Definition sleep_ (attempt delayMs : Z) : traced bool := ([Sleep delayMs], Ok (re_sleepAborted env attempt)).

Definition maxAttempts : Z :=
  match policy with Some p => if rp_enabled p then rp_maxRetries p else 0 | None => 0 end.

Definition finish_retries (attempt : Z) (lastRetry : option (Z * string)) (success : bool) (finalError : option string) : traced unit :=
  match lastRetry with
  | Some (lastAttempt, _) => callback attempt (RetryFinished success lastAttempt finalError)
  | None => mret ()
  end.

Definition delay_of (attempt : Z) : Z := match policy with Some p => retryDelayMs p attempt | None => 0 end.

Fixpoint retry_loop (fuel : nat) (attempt : Z) (lastRetry : option (Z * string)) : traced AssistantMessage :=
  match fuel with
  | O => ([], Err OutOfFuel)
  | S fuel' =>
      response ← produce_ attempt;
      if bool_decide (am_stopReason response = SRaborted) then finish_retries attempt lastRetry false None;; mret response
      else if negb (bool_decide (am_stopReason response = SRerror)) then finish_retries attempt lastRetry true None;; mret response
      else if (maxAttempts <=? attempt) || negb (isRetryableAssistantError response) then
        finish_retries attempt lastRetry false (am_errorMessage response);; mret response
      else
        let attempt := attempt + 1 in
        let errorMessage := default "Unknown error" (truthy_str (am_errorMessage response)) in
        let delayMs := delay_of attempt in
        callback attempt (RetryScheduled attempt maxAttempts delayMs errorMessage);;
        stopped ← sleep_ attempt delayMs;
        if stopped : bool then
          callback attempt (RetryFinished false attempt (Some errorMessage));;
          mret (aborted_response response)
        else
          callback attempt RetryAttemptStart;;
          retry_loop fuel' attempt (Some (attempt, errorMessage))
  end.

(** A call per attempt, so that the attempts left are fuel enough. *)
Definition retryAssistantCall : traced AssistantMessage := retry_loop (S (Z.to_nat maxAttempts)) 0 None.
End loop.

(** * What the retries of a call do: the calls they make, when they stop, and what they report. *)

(** ** Delays *)

Lemma retryDelay_bounds p attempt : 0 <= rp_baseDelayMs p -> 0 <= default DEFAULT_MAX_AGENT_RETRY_DELAY_MS (rp_maxAgentDelayMs p) ->
  0 <= retryDelayMs p attempt <= default DEFAULT_MAX_AGENT_RETRY_DELAY_MS (rp_maxAgentDelayMs p).
Proof.
  intros Hb Hc. unfold retryDelayMs. pose proof (Z.pow_nonneg 2 (Z.max 0 (attempt - 1))). repeat case_match; unfold MAX_SAFE_INTEGER in *; nia.
Qed.

(** The delays grow. *)
Lemma retryDelay_mono p a b : 0 <= rp_baseDelayMs p -> a <= b -> retryDelayMs p a <= retryDelayMs p b.
Proof.
  intros Hb Hab. unfold retryDelayMs. apply Z.min_le_compat_r. set (ea := Z.max 0 (a - 1)). set (eb := Z.max 0 (b - 1)).
  assert (0 <= ea <= eb) as He by lia. assert (2 ^ ea <= 2 ^ eb) by (apply Z.pow_le_mono_r; lia).
  assert (0 <= rp_baseDelayMs p * 2 ^ ea <= rp_baseDelayMs p * 2 ^ eb) as Hp by (pose proof (Z.pow_nonneg 2 ea); nia).
  destruct (ea <? 1024) eqn:Ha, (eb <? 1024) eqn:Hb'; try lia; unfold is_safe_Z; repeat case_match; unfold MAX_SAFE_INTEGER in *; lia.
Qed.

(** ** The loop *)

Section spec.
Context (env : RetryEnv) (policy : option RetryPolicy).
Abbreviation limit := (maxAttempts policy).

Definition retry_message (m : AssistantMessage) : string := default "Unknown error" (truthy_str (am_errorMessage m)).

Definition scheduled (n : Z) (m : AssistantMessage) : RetryEvent := RetryScheduled (n + 1) limit (delay_of policy (n + 1)) (retry_message m).

(** A call that failed and is followed by another one. *)
Definition failed_round (n : Z) (m : AssistantMessage) : list RetryEvent :=
  [Produce n; scheduled n m; Sleep (delay_of policy (n + 1)); RetryAttemptStart].

(** No further call may follow the response. *)
Definition is_last_call (n : Z) (m : AssistantMessage) : Prop := limit <= n \/ isRetryableAssistantError m = false.

Definition report (n : Z) (m : AssistantMessage) : RetryEvent :=
  match am_stopReason m with
  | SRaborted => RetryFinished false n None
  | SRerror => RetryFinished false n (am_errorMessage m)
  | _ => RetryFinished true n None
  end.

(** What follows the last call. *)
Inductive retry_end (n : Z) : list RetryEvent -> result retry_error AssistantMessage -> Prop :=
  | end_call_throws e : re_produce env n = Err e -> retry_end n [] (Err (Threw e))
  | end_first m : n = 0 -> re_produce env n = Ok m -> is_last_call n m -> retry_end n [] (Ok m)
  | end_reported m : 0 < n -> re_produce env n = Ok m -> is_last_call n m -> retry_end n [report n m] (Ok m)
  | end_report_throws m e : 0 < n -> re_produce env n = Ok m -> is_last_call n m -> re_throws env n (report n m) = Some e ->
      retry_end n [report n m] (Err (Threw e))
  | end_schedule_throws m e : re_produce env n = Ok m -> ~ is_last_call n m -> re_throws env (n + 1) (scheduled n m) = Some e ->
      retry_end n [scheduled n m] (Err (Threw e))
  | end_sleep_aborted m : re_produce env n = Ok m -> ~ is_last_call n m -> re_sleepAborted env (n + 1) = true ->
      retry_end n [scheduled n m; Sleep (delay_of policy (n + 1)); RetryFinished false (n + 1) (Some (retry_message m))] (Ok (aborted_response m))
  | end_abort_report_throws m e : re_produce env n = Ok m -> ~ is_last_call n m -> re_sleepAborted env (n + 1) = true ->
      re_throws env (n + 1) (RetryFinished false (n + 1) (Some (retry_message m))) = Some e ->
      retry_end n [scheduled n m; Sleep (delay_of policy (n + 1)); RetryFinished false (n + 1) (Some (retry_message m))] (Err (Threw e))
  | end_start_throws m e : re_produce env n = Ok m -> ~ is_last_call n m -> re_sleepAborted env (n + 1) = false ->
      re_throws env (n + 1) RetryAttemptStart = Some e ->
      retry_end n [scheduled n m; Sleep (delay_of policy (n + 1)); RetryAttemptStart] (Err (Threw e)).

(** The trace of the calls from the [n]th on. *)
Inductive retry_calls (n : Z) : list RetryEvent -> result retry_error AssistantMessage -> Prop :=
  | calls_last t r : retry_end n t r -> retry_calls n (Produce n :: t) r
  | calls_next m t r : re_produce env n = Ok m -> n < limit -> isRetryableAssistantError m = true -> re_sleepAborted env (n + 1) = false ->
      retry_calls (n + 1) t r -> retry_calls n (failed_round n m ++ t) r.

(** The retry that is being reported. *)
Definition last_of (n : Z) (lastRetry : option (Z * string)) : Prop :=
  match lastRetry with Some (last, _) => last = n /\ 0 < n | None => n = 0 end.

Lemma finish_ends n m lastRetry success finalError : last_of n lastRetry -> re_produce env n = Ok m -> is_last_call n m ->
  report n m = RetryFinished success n finalError ->
  let '(t, r) := (finish_retries env n lastRetry success finalError;; mret m) : traced AssistantMessage in retry_end n t r.
Proof.
  intros Hl Hm Hs Hr. destruct lastRetry as [[last msg]|]; cbn [last_of finish_retries] in *.
  - destruct Hl as [-> Hn]. unfold callback. rewrite <- Hr. cbn. destruct (re_throws env n (report n m)) eqn:Ht; cbn; [by eapply end_report_throws|by apply end_reported].
  - cbn. by apply end_first.
Qed.

Lemma retryable_error m : isRetryableAssistantError m = true -> am_stopReason m = SRerror.
Proof. unfold isRetryableAssistantError. by case_bool_decide. Qed.

Lemma loop_calls fuel : forall n lastRetry, 0 <= n -> (Z.to_nat (limit - n) < fuel)%nat -> last_of n lastRetry ->
  let '(t, r) := retry_loop env policy fuel n lastRetry in retry_calls n t r.
Proof.
  induction fuel as [|fuel IH]; intros n lastRetry Hn Hf Hl; [lia|]. cbn [retry_loop]. unfold produce_. cbn [mbind traced_bind].
  destruct (re_produce env n) as [m|e] eqn:Hm; cbn [mbind traced_bind]; [|by apply calls_last, end_call_throws].
  assert (forall success finalError, is_last_call n m -> report n m = RetryFinished success n finalError ->
    let '(t, r) := ([Produce n] ++ ((finish_retries env n lastRetry success finalError;; mret m) : traced AssistantMessage).1,
                    ((finish_retries env n lastRetry success finalError;; mret m) : traced AssistantMessage).2) in retry_calls n t r) as Hfinish.
  { intros success finalError Hs Hr. pose proof (finish_ends n m lastRetry success finalError Hl Hm Hs Hr) as H. cbn zeta in *.
    destruct (finish_retries _ _ _ _ _;; mret m) as [t r]. by apply calls_last. }
  unfold report in Hfinish. case_bool_decide as Hab.
  { rewrite Hab in Hfinish. pose proof (Hfinish false None) as H. destruct (finish_retries _ _ _ _ _;; mret m) as [t r]. apply H; [|done]. right.
    unfold isRetryableAssistantError. by rewrite Hab. }
  case_bool_decide as Her; cbn [negb].
  2:{ pose proof (Hfinish true None) as H. destruct (finish_retries _ _ _ _ _;; mret m) as [t r]. apply H; [|by destruct (am_stopReason m)]. right.
      unfold isRetryableAssistantError. by rewrite bool_decide_eq_false_2. }
  destruct ((limit <=? n) || negb (isRetryableAssistantError m)) eqn:Hstop.
  { rewrite Her in Hfinish. pose proof (Hfinish false (am_errorMessage m)) as H. destruct (finish_retries _ _ _ _ _;; mret m) as [t r]. apply H; [|done].
    apply orb_true_iff in Hstop as [H1%Z.leb_le|H1%negb_true_iff]; [by left|by right]. }
  apply orb_false_iff in Hstop as [Hlt%Z.leb_gt Hre%negb_false_iff]. assert (~ is_last_call n m) as Hns by (intros [|]; [lia|congruence]).
  fold (retry_message m). unfold callback, sleep_. fold (scheduled n m).
  cbn [mbind traced_bind]. destruct (re_throws env (n + 1) (scheduled n m)) as [e|] eqn:Ht1; cbn [mbind traced_bind app]; [by apply calls_last; eapply end_schedule_throws|].
  destruct (re_sleepAborted env (n + 1)) eqn:Hsl; cbn [mbind traced_bind app].
  - destruct (re_throws env (n + 1) (RetryFinished _ _ _)) as [e|] eqn:Ht2; cbn [mbind traced_bind mret traced_ret app];
      apply calls_last; [by eapply end_abort_report_throws|by apply end_sleep_aborted].
  - destruct (re_throws env (n + 1) RetryAttemptStart) as [e|] eqn:Ht2; cbn [mbind traced_bind app]; [by apply calls_last; eapply end_start_throws|].
    specialize (IH (n + 1) (Some (n + 1, retry_message m)) ltac:(lia) ltac:(lia) ltac:(cbn; lia)).
    destruct (retry_loop env policy fuel (n + 1) (Some (n + 1, retry_message m))) as [t r]. by apply (calls_next n m).
Qed.

(** ** What the traces have in common *)

Definition produced_call (e : RetryEvent) : option Z := match e with Produce n => Some n | _ => None end.
Definition is_report (e : RetryEvent) : bool := match e with RetryFinished _ _ _ => true | _ => false end.
Definition is_schedule (e : RetryEvent) : bool := match e with RetryScheduled _ _ _ _ => true | _ => false end.

(** The result comes from the last call: its response, the aborted one, or what was thrown. *)
Definition outcome_of (k : Z) (trace : list RetryEvent) (r : result retry_error AssistantMessage) : Prop :=
  match r with
  | Ok m => exists m', re_produce env k = Ok m' /\ (m = m' /\ is_last_call k m' \/ m = aborted_response m' /\ ~ is_last_call k m' /\ re_sleepAborted env (k + 1) = true)
  | Err (Threw e) => re_produce env k = Err e \/ exists a event, event ∈ trace /\ re_throws env a event = Some e
  | Err OutOfFuel => False
  end.

(** One report, at the end, if a retry was scheduled. *)
Definition reported_once (trace : list RetryEvent) : Prop :=
  if existsb is_schedule trace then exists t e, trace = t ++ [e] /\ is_report e = true /\ forallb (fun e => negb (is_report e)) t = true
  else forallb (fun e => negb (is_report e)) trace = true.

Lemma end_outcome n t r : retry_end n t r -> omap produced_call t = [] /\ outcome_of n (Produce n :: t) r.
Proof.
  intros [e H|m -> H Hs|m Hn H Hs|m e Hn H Hs Ht|m e H Hs Ht|m H Hs Hsl|m e H Hs Hsl Ht|m e H Hs Hsl Ht]; (split; [try done; try (unfold report; by destruct (am_stopReason m))|cbn]).
  - by left.
  - exists m. auto.
  - exists m. auto.
  - right. eexists _, _. split; [|done]. set_solver.
  - right. eexists _, _. split; [|done]. set_solver.
  - exists m. auto.
  - right. eexists _, _. split; [|done]. set_solver.
  - right. eexists _, _. split; [|done]. set_solver.
Qed.

Lemma calls_outcome n t r : retry_calls n t r -> exists k, n <= k <= Z.max n limit /\ omap produced_call t = seqZ n (k - n + 1) /\ outcome_of k t r.
Proof.
  induction 1 as [n t r He|n m t r Hm Hlt Hre Hsl _ (k & Hk & Hc & Ho)].
  - exists n. destruct (end_outcome n t r He) as [Hc Ho]. split; [lia|]. cbn [omap list_omap produced_call]. rewrite Hc, seqZ_cons by lia. split; [|done].
    f_equal. by rewrite Z.sub_diag.
  - exists k. split; [lia|]. split; [rewrite omap_app, Hc; cbn; rewrite (seqZ_cons n) by lia; cbn; unfold Z.succ; do 2 f_equal; lia|].
    destruct r as [m'|[e|]]; [done| |done]. destruct Ho as [Ho|(a & ev & Hin & Ht)]; [by left|]. right. exists a, ev. split; [|done]. apply elem_of_app. by right.
Qed.

Lemma calls_failed n t r : retry_calls n t r -> forall k, Produce k ∈ t -> Produce (k + 1) ∈ t -> exists m, re_produce env k = Ok m /\ isRetryableAssistantError m = true.
Proof.
  intros Hc k Hk Hk'.
  assert (forall n t r, retry_calls n t r -> forall k, Produce k ∈ t -> n <= k) as Hge.
  { clear. intros n t r Hc k Hin. destruct (calls_outcome n t r Hc) as (l & Hl & Ho & _).
    assert (k ∈ omap produced_call t) as Hin' by (apply list_elem_of_omap; by exists (Produce k)). rewrite Ho in Hin'. apply elem_of_seqZ in Hin'. lia. }
  induction Hc as [n t r He|n m t r Hm Hlt Hre Hsl Hc IH].
  - exfalso. destruct (end_outcome n t r He) as [Ho _].
    assert (forall k, Produce k ∈ Produce n :: t -> k = n) as Hn.
    { intros j Hj. assert (j ∈ omap produced_call (Produce n :: t)) as Hj' by (apply list_elem_of_omap; by exists (Produce j)). cbn in Hj'. rewrite Ho in Hj'.
      by apply list_elem_of_singleton in Hj'. }
    pose proof (Hn _ Hk). pose proof (Hn _ Hk'). lia.
  - assert (forall j, Produce j ∈ failed_round n m ++ t -> j = n \/ Produce j ∈ t) as Hin.
    { intros j Hj. unfold failed_round, scheduled in Hj. repeat (apply elem_of_cons in Hj as [Heq|Hj]; [left; by simplify_eq|]). by right. }
    destruct (Hin k Hk) as [->|Hkt]; [by exists m|]. destruct (Hin _ Hk') as [Heq|Hkt']; [|by apply IH]. pose proof (Hge _ _ _ Hc _ Hkt). lia.
Qed.

Lemma calls_delays n t r a limit' delay msg : retry_calls n t r -> RetryScheduled a limit' delay msg ∈ t -> delay = delay_of policy a /\ limit' = limit.
Proof.
  intros Hc. induction Hc as [n t r He|n m t r Hm Hlt Hre Hsl Hc IH].
  - intros [|Hin]%elem_of_cons; [done|]. destruct He; unfold report, scheduled in *; try destruct (am_stopReason m); set_solver.
  - unfold failed_round, scheduled. intros Hin. repeat (apply elem_of_cons in Hin as [Heq|Hin]; [by simplify_eq|]). by apply IH.
Qed.

Lemma calls_reported n t r : retry_calls n t r -> (forall a event, re_throws env a event = None) -> (forall k e, re_produce env k <> Err e) ->
  (n = 0 -> reported_once t) /\ (0 < n -> exists t' e, t = t' ++ [e] /\ is_report e = true /\ forallb (fun e => negb (is_report e)) t' = true).
Proof.
  intros Hc Hthrows Hcalls. induction Hc as [n t r He|n m t r Hm Hlt Hre Hsl Hc [_ IH]].
  - destruct He as [e H|m -> H Hs|m Hn H Hs|m e Hn H Hs Ht|m e H Hs Ht|m H Hs Hsl|m e H Hs Hsl Ht|m e H Hs Hsl Ht];
      try (by rewrite Hthrows in Ht); try (by destruct (Hcalls _ _ H)).
    + split; [done|lia].
    + split; [lia|]. intros _. exists [Produce n]. eexists. split; [done|]. split; [unfold report; by destruct (am_stopReason m)|done].
    + assert (exists t' e, [Produce n; scheduled n m; Sleep (delay_of policy (n + 1)); RetryFinished false (n + 1) (Some (retry_message m))] = t' ++ [e] /\
        is_report e = true /\ forallb (fun e => negb (is_report e)) t' = true) as Hr by (by exists [Produce n; scheduled n m; Sleep (delay_of policy (n + 1))]; eexists).
      by split; intros _.
  - assert (0 <= n \/ n < 0) as [Hn|Hn] by lia; [|split; lia]. destruct (IH ltac:(lia)) as (t' & e & -> & He & Ht').
    assert (exists t'' e', failed_round n m ++ t' ++ [e] = t'' ++ [e'] /\ is_report e' = true /\ forallb (fun e => negb (is_report e)) t'' = true) as Hr.
    { exists (failed_round n m ++ t'), e. split; [by rewrite <- app_assoc|]. split; [done|]. unfold failed_round, scheduled. by cbn. }
    by split; intros _.
Qed.
End spec.

(** ** The property *)

(** C15: Retries.  A call is made again at most [maxRetries] times, only after an error that is
    classified as transient, and after a delay that the policy bounds.  What is returned is the
    response of the last call, or its aborted copy when the wait for the next one was aborted;
    what is thrown comes from the last call or from a callback.  Once a retry was scheduled,
    the end is reported exactly once, as the last thing. *)
Theorem retries_bounded env policy :
  let '(trace, r) := retryAssistantCall env policy in
  retry_calls env policy 0 trace r /\
  (exists k, 0 <= k <= Z.max 0 (maxAttempts policy) /\ omap produced_call trace = seqZ 0 (k + 1) /\ outcome_of env policy k trace r) /\
  (forall k, Produce k ∈ trace -> Produce (k + 1) ∈ trace -> exists m, re_produce env k = Ok m /\ isRetryableAssistantError m = true) /\
  (forall a limit delay msg p, RetryScheduled a limit delay msg ∈ trace -> policy = Some p -> 0 <= rp_baseDelayMs p ->
    let cap := default DEFAULT_MAX_AGENT_RETRY_DELAY_MS (rp_maxAgentDelayMs p) in 0 <= cap -> delay = retryDelayMs p a /\ 0 <= delay <= cap) /\
  ((forall a event, re_throws env a event = None) -> (forall k e, re_produce env k <> Err e) -> reported_once trace).
Proof.
  pose proof (loop_calls env policy (S (Z.to_nat (maxAttempts policy))) 0 None ltac:(lia) ltac:(lia) eq_refl) as H.
  fold (retryAssistantCall env policy) in H. destruct (retryAssistantCall env policy) as [trace r]. split_and!; [done| | | |].
  - destruct (calls_outcome _ _ _ _ _ H) as (k & Hk & Hc & Ho). exists k. by rewrite Z.sub_0_r in Hc.
  - by eapply calls_failed.
  - intros a limit delay msg p Hin -> Hb Hcap. destruct (calls_delays _ _ _ _ _ _ _ _ _ H Hin) as [-> _]. split; [done|]. by apply retryDelay_bounds.
  - intros Ht Hp. by apply (calls_reported _ _ _ _ _ H Ht Hp).
Qed.

(** ** Instances *)

Module Retries.
Definition no_usage : Usage := mkUsage (JInt 0) (JInt 0) (JInt 0) (JInt 0) None None (JInt 0) (mkCost (JInt 0) (JInt 0) (JInt 0) (JInt 0) (JInt 0)).
Definition response (reason : StopReason) (error : option string) : AssistantMessage :=
  mkAssistantMessage [] "api" "provider" "model" None None None no_usage reason None error None None (JInt 0).
Definition three_retries : RetryPolicy := mkRetryPolicy true 3 1000 (Some 1500).

(** Two transient errors, then an answer. *)
Definition flaky : RetryEnv := mkRetryEnv
  (fun n => Ok (if n <? 2 then response SRerror (Some "HTTP 503: Service Unavailable") else response SRstop None)) (fun _ => false) (fun _ _ => None).

Example flaky_trace : (retryAssistantCall flaky (Some three_retries)).1 =
  [Produce 0; RetryScheduled 1 3 1000 "HTTP 503: Service Unavailable"; Sleep 1000; RetryAttemptStart;
   Produce 1; RetryScheduled 2 3 1500 "HTTP 503: Service Unavailable"; Sleep 1500; RetryAttemptStart; Produce 2; RetryFinished true 2 None].
Proof. vm_compute. reflexivity. Qed.

(** A quota error is final, although its text also has a transient status. *)
Example quota_is_final : isRetryableAssistantError (response SRerror (Some "429 insufficient_quota")) = false /\
  isRetryableAssistantError (response SRerror (Some "429 Too Many Requests")) = true /\ isRetryableAssistantError (response SRerror (Some "request timed out")) = true.
Proof. vm_compute. auto. Qed.
End Retries.
Import Retries.

Lemma retries_bounded_witness :
  reported_once (retryAssistantCall flaky (Some three_retries)).1 /\
  (forall k, Produce k ∈ (retryAssistantCall flaky (Some three_retries)).1 -> Produce (k + 1) ∈ (retryAssistantCall flaky (Some three_retries)).1 ->
    exists m, re_produce flaky k = Ok m /\ isRetryableAssistantError m = true).
Proof.
  pose proof (retries_bounded flaky (Some three_retries)) as H. destruct (retryAssistantCall flaky (Some three_retries)) as [trace r].
  destruct H as (_ & _ & Hfailed & _ & Hreport). split; [|exact Hfailed]. apply Hreport; [reflexivity|]. intros k e. cbn. discriminate.
Defined.
