(* ===== verification/Compaction.v ===== *)
(** Compaction: [packages/agent/src/harness/compaction/compaction.ts] up to
    [prepareCompaction], and the file operations of [utils.ts].

    [number_text] prints the numbers JSON text shows otherwise than as an integer literal. *)
From S2P Require Import Prelude JsNumber JsText JsTree JsObject JsData Messages SessionTypes SessionContext JsonText MessageViews.
Local Open Scope Z_scope.

(** ** File operations *)

(** A [Set] of strings, in the order of insertion. *)
Definition set_add (x : string) (s : list string) : list string := if bool_decide (x ∈ s) then s else s ++ [x].
Definition set_add_all (xs s : list string) : list string := foldl (fun s x => set_add x s) s xs.

Record FileOperations := mkFileOps {
  ops_read : list string;
  ops_written : list string;
  ops_edited : list string;
}.

Definition createFileOps : FileOperations := mkFileOps [] [] [].

Definition add_read (f : string) (o : FileOperations) : FileOperations := mkFileOps (set_add f (ops_read o)) (ops_written o) (ops_edited o).
Definition add_written (f : string) (o : FileOperations) : FileOperations := mkFileOps (ops_read o) (set_add f (ops_written o)) (ops_edited o).
Definition add_edited (f : string) (o : FileOperations) : FileOperations := mkFileOps (ops_read o) (ops_written o) (set_add f (ops_edited o)).

(** The path of a call: a string that is not empty. *)
Definition call_path (toolCall : ToolCall) : option string :=
  match JsMap.get "path" (tc_arguments toolCall) with
  | Some (JStr path) => truthy_str (Some path)
  | _ => None
  end.

Definition extract_call (o : FileOperations) (toolCall : ToolCall) : FileOperations :=
  match call_path toolCall with
  | None => o
  | Some path =>
      if String.eqb (tc_name toolCall) "read" then add_read path o
      else if String.eqb (tc_name toolCall) "write" then add_written path o
      else if String.eqb (tc_name toolCall) "edit" then add_edited path o
      else o
  end.

Definition extractFileOpsFromMessage (message : AgentMessage) (fileOps : FileOperations) : FileOperations :=
  match message with
  | MAssistant m => foldl extract_call fileOps (toolCalls (am_content m))
  | _ => fileOps
  end.

(** The strings of an array property of [details], none if it is not an array. *)
Definition detail_files (details : option jstree) (key : string) : list string :=
  match details with
  | Some (JObj props) =>
      match JsMap.get key props with
      | Some (JArr items) => omap (fun t => match t with JStr f => Some f | _ => None end) items
      | _ => []
      end
  | _ => []
  end.

(** The loops over [details.readFiles] and [details.modifiedFiles]. *)
Definition add_details (details : option jstree) (o : FileOperations) : FileOperations :=
  let o := foldl (fun o f => add_read f o) o (detail_files details "readFiles") in
  foldl (fun o f => add_edited f o) o (detail_files details "modifiedFiles").

Definition entry_details (e : Entry) : option jstree :=
  match e_body e with BCompaction _ _ _ details _ | BBranchSummary _ _ details _ => details | _ => None end.

Definition extract_all (messages : list AgentMessage) (o : FileOperations) : FileOperations :=
  foldl (fun o m => extractFileOpsFromMessage m o) o messages.

Definition extractFileOperations (messages : list AgentMessage) (prevCompaction : option Entry) : FileOperations :=
  extract_all messages (add_details (prevCompaction ≫= entry_details) createFileOps).

(** [sort()] of an array of strings: by code units. *)
Definition string_le (a b : string) : Prop := units_le (units a) (units b) = true.
#[export] Instance string_le_dec : RelDecision string_le := fun a b => bool_eq_dec _ _.
Definition sort_strings (l : list string) : list string := merge_sort string_le l.

Record FileLists := mkFileLists { readFiles : list string; modifiedFiles : list string }.

Definition computeFileLists (fileOps : FileOperations) : FileLists :=
  let modified := set_add_all (ops_written fileOps) (ops_edited fileOps) in
  let readOnly := List.filter (fun f => negb (bool_decide (f ∈ modified))) (ops_read fileOps) in
  mkFileLists (sort_strings readOnly) (sort_strings modified).

(** [`<tag>\n${files.join("\n")}\n</tag>`], if there are files. *)
Definition file_section (tag : string) (files : list string) : list string :=
  match files with
  | [] => []
  | _ => ["<" +:+ tag +:+ ">" +:+ NL +:+ String.concat NL files +:+ NL +:+ "</" +:+ tag +:+ ">"]
  end.

Definition formatFileOperations (files : FileLists) : string :=
  let sections := file_section "read-files" (readFiles files) ++ file_section "modified-files" (modifiedFiles files) in
  match sections with [] => "" | _ => NL +:+ NL +:+ String.concat (NL +:+ NL) sections end.

(** ** Messages of entries *)

Definition getMessageFromEntry (entry : Entry) : option AgentMessage :=
  match e_body entry with
  | BMessage message _ => Some message
  | BBranchSummary fromId summary _ _ => Some (createBranchSummaryMessage summary fromId (JInt (e_timestamp entry)))
  | BCompaction summary _ tokensBefore _ _ => Some (createCompactionSummaryMessage summary tokensBefore (JInt (e_timestamp entry)))
  | _ => None
  end.

Definition getMessageFromEntryForCompaction (entry : Entry) : option AgentMessage :=
  if bool_decide (entry_type entry = Tcompaction) then None else getMessageFromEntry entry.

(** ** Estimates *)

Record CompactionSettings := mkCompactionSettings {
  set_enabled : bool;
  set_reserveTokens : Z;
  set_keepRecentTokens : Z;
}.

Definition DEFAULT_COMPACTION_SETTINGS : CompactionSettings := mkCompactionSettings true 16384 20000.

(** A number is falsy when it is a zero or not a number. *)
Definition num_truthy (n : jsnum) : bool := num_strict_eq n n && negb (num_strict_eq n (JInt 0)).

Definition calculateContextTokens (usage : Usage) : jsnum :=
  if num_truthy (u_totalTokens usage) then u_totalTokens usage
  else num_add (num_add (num_add (u_input usage) (u_output usage)) (u_cacheRead usage)) (u_cacheWrite usage).

Definition getAssistantUsage (msg : AgentMessage) : option Usage :=
  match msg with
  | MAssistant m =>
      if negb (bool_decide (am_stopReason m = SRaborted)) && negb (bool_decide (am_stopReason m = SRerror)) &&
         num_lt (JInt 0) (calculateContextTokens (am_usage m))
      then Some (am_usage m) else None
  | _ => None
  end.

(** The search from the end. *)
Definition getLastAssistantUsage (entries : list Entry) : option Usage :=
  head (omap (fun entry => entry_message entry ≫= getAssistantUsage) (rev entries)).

Definition getLastAssistantUsageInfo (messages : list AgentMessage) : option (Usage * nat) :=
  head (omap (fun p : nat * AgentMessage => usage ← getAssistantUsage p.2; Some (usage, p.1)) (rev (imap pair messages))).

Definition ESTIMATED_IMAGE_CHARS : Z := 4800.

Definition block_chars (block : Content) : Z :=
  match block with
  | TextC text _ => js_length text
  | ImageC _ _ => ESTIMATED_IMAGE_CHARS
  | _ => 0
  end.

Definition sum_of {A} (f : A -> Z) (l : list A) : Z := foldl (fun acc a => acc + f a) 0 l.

Definition estimateTextAndImageContentChars (content : MessageContent) : Z :=
  match content with PlainContent text => js_length text | Blocks blocks => sum_of block_chars blocks end.

(** [Math.ceil(chars / 4)] *)
Definition tokens_of_chars (chars : Z) : Z := (chars + 3) / 4.

Section estimate.
Context (number_text : jsnum -> text).

Definition safeJsonStringify (value : jstree) : string := default "undefined" (unchars <$> stringify number_text value).

Definition assistant_block_chars (block : Content) : Z :=
  match block with
  | TextC text _ => js_length text
  | ThinkingC thinking _ _ => js_length thinking
  | ToolCallC toolCall => js_length (tc_name toolCall) + js_length (safeJsonStringify (JObj (tc_arguments toolCall)))
  | ImageC _ _ => 0
  end.

Definition estimateTokens (message : AgentMessage) : Z :=
  tokens_of_chars
    match message with
    | MUser m => estimateTextAndImageContentChars (um_content m)
    | MAssistant m => sum_of assistant_block_chars (am_content m)
    | MCustom m => estimateTextAndImageContentChars (cm_content m)
    | MToolResult m => estimateTextAndImageContentChars (Blocks (tr_content m))
    | MBashExecution m => js_length (be_command m) + js_length (be_output m)
    | MBranchSummary m => js_length (bs_summary m)
    | MCompactionSummary m => js_length (cs_summary m)
    end.

Record ContextUsageEstimate := mkEstimate {
  est_tokens : jsnum;
  est_usageTokens : jsnum;
  est_trailingTokens : Z;
  est_lastUsageIndex : option nat;
}.

Definition estimateContextTokens (messages : list AgentMessage) : ContextUsageEstimate :=
  match getLastAssistantUsageInfo messages with
  | None =>
      let estimated := sum_of estimateTokens messages in
      mkEstimate (JInt estimated) (JInt 0) estimated None
  | Some (usage, index) =>
      let usageTokens := calculateContextTokens usage in
      let trailingTokens := sum_of estimateTokens (drop (S index) messages) in
      mkEstimate (num_add usageTokens (JInt trailingTokens)) usageTokens trailingTokens (Some index)
  end.

Definition shouldCompact (contextTokens : jsnum) (contextWindow : Z) (settings : CompactionSettings) : bool :=
  if negb (set_enabled settings) then false else num_lt (JInt (contextWindow - set_reserveTokens settings)) contextTokens.

(** ** Cut points *)

(** The switches of the loop body: every message but a tool result, and branch summaries. *)
Definition is_cut_point (entry : Entry) : bool :=
  match e_body entry with
  | BMessage (MToolResult _) _ => false
  | BMessage _ _ => true
  | BBranchSummary _ _ _ _ => true
  | _ => false
  end.

Definition findValidCutPoints (entries : list Entry) (startIndex endIndex : nat) : list nat :=
  List.filter (fun i => from_option is_cut_point false (entries !! i)) (seq startIndex (endIndex - startIndex)).

Definition starts_turn (entry : Entry) : bool :=
  match e_body entry with
  | BBranchSummary _ _ _ _ | BMessage (MUser _) _ | BMessage (MBashExecution _) _ => true
  | _ => false
  end.

Fixpoint findTurnStartIndex (entries : list Entry) (entryIndex startIndex : nat) : option nat :=
  if (entryIndex <? startIndex)%nat then None
  else if from_option starts_turn false (entries !! entryIndex) then Some entryIndex
  else match entryIndex with O => None | S i => findTurnStartIndex entries i startIndex end.

Record CutPointResult := mkCutPoint {
  cut_firstKeptEntryIndex : nat;
  cut_turnStartIndex : option nat;
  cut_isSplitTurn : bool;
}.

(** The loop over the entries from [i - 1] down to [startIndex]: the entry with which the kept
    messages reach the budget. *)
Fixpoint reach_budget (entries : list Entry) (startIndex : nat) (keepRecentTokens : Z) (i : nat) (accumulatedTokens : Z) : option nat :=
  match i with
  | O => None
  | S i' =>
      if (i' <? startIndex)%nat then None
      else match entries !! i' ≫= entry_message with
           | None => reach_budget entries startIndex keepRecentTokens i' accumulatedTokens
           | Some message =>
               let accumulatedTokens := accumulatedTokens + estimateTokens message in
               if keepRecentTokens <=? accumulatedTokens then Some i' else reach_budget entries startIndex keepRecentTokens i' accumulatedTokens
           end
  end.

(** The entries before the cut that are neither messages nor compactions are kept, too. *)
Fixpoint move_cut (entries : list Entry) (startIndex cutIndex : nat) : nat :=
  match cutIndex with
  | O => O
  | S prev =>
      if (startIndex <=? prev)%nat then
        match entry_type <$> entries !! prev with
        | Some Tcompaction | Some Tmessage | None => cutIndex
        | Some _ => move_cut entries startIndex prev
        end
      else cutIndex
  end.

Definition is_user_entry (entry : Entry) : bool := match e_body entry with BMessage (MUser _) _ => true | _ => false end.

Definition findCutPoint (entries : list Entry) (startIndex endIndex : nat) (keepRecentTokens : Z) : CutPointResult :=
  match findValidCutPoints entries startIndex endIndex with
  | [] => mkCutPoint startIndex None false
  | (first :: _) as cutPoints =>
      let cutIndex := default first (i ← reach_budget entries startIndex keepRecentTokens endIndex 0; List.find (fun c => (i <=? c)%nat) cutPoints) in
      let cutIndex := move_cut entries startIndex cutIndex in
      let isUserMessage := from_option is_user_entry false (entries !! cutIndex) in
      let turnStartIndex := if isUserMessage then None else findTurnStartIndex entries cutIndex startIndex in
      mkCutPoint cutIndex turnStartIndex (negb isUserMessage && bool_decide (is_Some turnStartIndex))
  end.

(** ** Preparation *)

Record CompactionPreparation := mkPreparation {
  prep_messagesToSummarize : list AgentMessage;
  prep_turnPrefixMessages : list AgentMessage;
  prep_retainedTail : list AgentMessage;
  prep_isSplitTurn : bool;
  prep_tokensBefore : jsnum;
  prep_previousSummary : option string;
  prep_fileOps : FileOperations;
  prep_settings : CompactionSettings;
}.

Definition message_timestamp (m : AgentMessage) : jsnum :=
  match m with
  | MUser m => um_timestamp m
  | MAssistant m => am_timestamp m
  | MToolResult m => tr_timestamp m
  | MBashExecution m => be_timestamp m
  | MCustom m => cm_timestamp m
  | MBranchSummary m => bs_timestamp m
  | MCompactionSummary m => cs_timestamp m
  end.

(** An entry for each message a compaction retained. *)
Definition virtualRetainedEntries (prevCompaction : Entry) (retainedTail : list AgentMessage) : list Entry :=
  let retained index := e_id prevCompaction +:+ ":retained:" +:+ pretty (N.of_nat index) in
  imap (fun index message => mkEntry (retained index) (e_seq prevCompaction)
    (Some (match index with O => e_id prevCompaction | S before => retained before end))
    (default 0 (num_to_Z (message_timestamp message))) (BMessage message false)) retainedTail.

(** The entries since the last compaction, after what it retained. *)
Definition compactable_entries (pathEntries : list Entry) : list Entry :=
  match last_compaction (rev pathEntries) [] with
  | Some (prevCompaction, after) =>
      match e_body prevCompaction with
      | BCompaction _ retainedTail _ _ _ => virtualRetainedEntries prevCompaction retainedTail ++ after
      | _ => after
      end
  | None => pathEntries
  end.

Definition previous_summary (pathEntries : list Entry) : option string :=
  match last_compaction (rev pathEntries) [] with
  | Some (prevCompaction, _) => match e_body prevCompaction with BCompaction summary _ _ _ _ => Some summary | _ => None end
  | None => None
  end.

(** The messages of the entries from an index up to another. *)
Definition messages_between (entries : list Entry) (from to : nat) : list AgentMessage :=
  omap getMessageFromEntryForCompaction (take (to - from) (drop from entries)).

Definition prepareCompaction (pathEntries : list Entry) (settings : CompactionSettings) : option CompactionPreparation :=
  match last pathEntries with
  | None => None
  | Some lastEntry =>
      if bool_decide (entry_type lastEntry = Tcompaction) then None
      else
        let entries := compactable_entries pathEntries in
        let boundaryEnd := length entries in
        let tokensBefore := est_tokens (estimateContextTokens (ctx_messages (buildSessionContext pathEntries default_context_options))) in
        let cutPoint := findCutPoint entries 0 boundaryEnd (set_keepRecentTokens settings) in
        let firstKept := cut_firstKeptEntryIndex cutPoint in
        let turnStart := default firstKept (cut_turnStartIndex cutPoint) in
        let historyEnd := if cut_isSplitTurn cutPoint then turnStart else firstKept in
        let messagesToSummarize := messages_between entries 0 historyEnd in
        let turnPrefixMessages := if cut_isSplitTurn cutPoint then messages_between entries turnStart firstKept else [] in
        let retainedTail := messages_between entries firstKept boundaryEnd in
        let fileOps := extractFileOperations messagesToSummarize (fst <$> last_compaction (rev pathEntries) []) in
        let fileOps := if cut_isSplitTurn cutPoint then extract_all turnPrefixMessages fileOps else fileOps in
        Some (mkPreparation messagesToSummarize turnPrefixMessages retainedTail (cut_isSplitTurn cutPoint) tokensBefore
          (previous_summary pathEntries) fileOps settings)
  end.
End estimate.
