(* ===== verification/CompactionFacts.v ===== *)
(** Where compaction cuts: facts about cut points, turns and the budget of the kept messages. *)
From S2P Require Import Prelude JsNumber JsText JsTree JsObject JsData Messages SessionTypes SessionContext JsonText MessageViews Compaction.
Local Open Scope nat_scope.

(** ** Slices of the entries *)

Lemma messages_between_app entries a b c : a <= b -> b <= c -> messages_between entries a b ++ messages_between entries b c = messages_between entries a c.
Proof.
  intros Hab Hbc. unfold messages_between. rewrite <- omap_app. f_equal. replace (drop b entries) with (drop (b - a) (drop a entries)) by (rewrite drop_drop; f_equal; lia).
  rewrite take_take_drop. f_equal. lia.
Qed.

Lemma messages_between_empty entries a b : b <= a -> messages_between entries a b = [].
Proof. intros H. unfold messages_between. by replace (b - a) with 0 by lia. Qed.

Lemma messages_to_end entries a : messages_between entries a (length entries) = omap getMessageFromEntryForCompaction (drop a entries).
Proof. unfold messages_between. rewrite firstn_all2; [done|]. rewrite length_drop. lia. Qed.

(** ** Turns *)

Definition entry_starts_turn (entries : list Entry) (i : nat) : Prop := exists e, entries !! i = Some e /\ starts_turn e = true.

Lemma starts_turn_lookup entries i : from_option starts_turn false (entries !! i) = true <-> entry_starts_turn entries i.
Proof. unfold entry_starts_turn. destruct (entries !! i) as [e|]; cbn; naive_solver. Qed.

(** The last start of a turn up to an entry. *)
Lemma turn_start_spec entries start : forall i, match findTurnStartIndex entries i start with
  | Some t => start <= t <= i /\ entry_starts_turn entries t /\ forall j, t < j <= i -> ~ entry_starts_turn entries j
  | None => forall j, start <= j <= i -> ~ entry_starts_turn entries j
  end.
Proof.
  induction i as [|i IH]; cbn [findTurnStartIndex]; (destruct (_ <? start) eqn:Hs; [apply Nat.ltb_lt in Hs; intros; lia|apply Nat.ltb_ge in Hs]);
    (destruct (from_option starts_turn false _) eqn:Ht; [apply starts_turn_lookup in Ht; split; [lia|split; [done|intros; lia]]|]).
  - intros j Hj Hjt. apply starts_turn_lookup in Hjt. replace j with 0 in Hjt by lia. congruence.
  - assert (~ entry_starts_turn entries (S i)) as Hn by (intros H%starts_turn_lookup; congruence).
    destruct (findTurnStartIndex entries i start) as [t|].
    + destruct IH as (Hti & Ht' & Hno). split; [lia|]. split; [done|]. intros j Hj. destruct (decide (j = S i)) as [->|]; [done|]. apply Hno. lia.
    + intros j Hj. destruct (decide (j = S i)) as [->|]; [done|]. apply IH. lia.
Qed.

(** ** Cut points *)

Definition entry_cuts (entries : list Entry) (i : nat) : Prop := exists e, entries !! i = Some e /\ is_cut_point e = true.

Lemma cut_points_elem entries start stop i : i ∈ findValidCutPoints entries start stop <-> start <= i < stop /\ entry_cuts entries i.
Proof.
  unfold findValidCutPoints, entry_cuts. rewrite list_elem_of_In, filter_In, in_seq. destruct (entries !! i) as [e|]; cbn; split; [|naive_solver lia| |naive_solver].
  - intros [? ?]. split; [lia|]. by exists e.
  - naive_solver.
Qed.

(** The cut points ascend. *)
Lemma cut_points_sorted entries start stop : StronglySorted lt (findValidCutPoints entries start stop).
Proof.
  unfold findValidCutPoints. set (f := fun i => _). generalize (stop - start). intros n. revert start.
  induction n as [|n IH]; intros start; cbn [seq List.filter]; [constructor|]. destruct (f start); [|apply IH]. constructor; [apply IH|].
  apply Forall_forall. intros j Hj. apply list_elem_of_In, filter_In in Hj as [Hj _]. apply in_seq in Hj. lia.
Qed.

(** The first cut point from an entry on. *)
Lemma find_cut (l : list nat) i : StronglySorted lt l -> match List.find (fun c => i <=? c) l with
  | Some c => c ∈ l /\ i <= c /\ forall c', c' ∈ l -> i <= c' -> c <= c'
  | None => forall c', c' ∈ l -> c' < i
  end.
Proof.
  induction 1 as [|c l _ IH Hc]; cbn [List.find]; [by intros c' ?%elem_of_nil|]. destruct (i <=? c) eqn:Hi.
  - apply Nat.leb_le in Hi. split; [by left|]. split; [done|]. intros c' [->|Hin]%elem_of_cons _; [done|]. rewrite Forall_forall in Hc. specialize (Hc c' Hin). lia.
  - apply Nat.leb_gt in Hi. destruct (List.find _ l) as [c0|].
    + destruct IH as (Hin & Hle & Hmin). split; [by right|]. split; [done|]. intros c' [->|Hin']%elem_of_cons Hle'; [lia|]. by apply Hmin.
    + intros c' [->|Hin]%elem_of_cons; [done|]. by apply IH.
Qed.

(** ** Moving the cut *)

(** An entry that moves with what follows it. *)
Definition entry_is_passed (e : Entry) : Prop := entry_type e <> Tcompaction /\ entry_type e <> Tmessage.

Lemma move_cut_spec entries start : forall cut, start <= cut -> cut <= length entries -> let k := move_cut entries start cut in
  start <= k <= cut /\ (forall j, k <= j < cut -> exists e, entries !! j = Some e /\ entry_is_passed e) /\
  (start < k -> exists e, entries !! pred k = Some e /\ ~ entry_is_passed e).
Proof.
  unfold entry_is_passed. induction cut as [|cut IH]; intros Hs Hl; cbn [move_cut]; [split; [lia|]; split; intros; lia|].
  destruct (start <=? cut) eqn:Hle; [apply Nat.leb_le in Hle|apply Nat.leb_gt in Hle; split; [lia|]; split; intros; lia].
  destruct (lookup_lt_is_Some_2 entries cut ltac:(lia)) as [e He]. rewrite He. cbn [fmap option_fmap option_map].
  destruct (IH Hle ltac:(lia)) as (Hk & Hpass & Hstop).
  destruct (entry_type e) eqn:Ht; [ | | | |split; [lia|]; split; [intros; lia|]; intros _; exists e; cbn; rewrite Ht; naive_solver| |].
  1: split; [lia|]; split; [intros; lia|]; intros _; exists e; cbn; rewrite Ht; naive_solver.
  all: split; [lia|]; split; [|done]; intros j Hj; destruct (decide (j = cut)) as [->|Hne]; [exists e; rewrite Ht; split; [exact He|split; discriminate]|apply Hpass; lia].
Qed.

(** ** The budget *)

Section budget.
Context (number_text : jsnum -> text).

Definition entry_tokens (e : Entry) : Z := match entry_message e with Some m => estimateTokens number_text m | None => 0 end.

(** The tokens of the messages from an entry on. *)
Definition tokens_from (entries : list Entry) (i : nat) : Z := foldr (fun e acc => (entry_tokens e + acc)%Z) 0%Z (drop i entries).

Lemma tokens_from_step entries i e : entries !! i = Some e -> tokens_from entries i = (entry_tokens e + tokens_from entries (S i))%Z.
Proof. intros He. unfold tokens_from. by rewrite (drop_S entries e i He). Qed.

Lemma tokens_from_end entries i : length entries <= i -> tokens_from entries i = 0%Z.
Proof. intros H. unfold tokens_from. by rewrite drop_ge. Qed.

Lemma sum_of_nonneg {A} (f : A -> Z) l : (forall a, 0 <= f a)%Z -> (0 <= sum_of f l)%Z.
Proof.
  intros Hf. unfold sum_of. assert (forall z, 0 <= z -> 0 <= foldl (fun acc a => acc + f a) z l)%Z as H; [|by apply H].
  induction l as [|a l IH]; intros z Hz; cbn [foldl]; [done|]. apply IH. specialize (Hf a). lia.
Qed.

Lemma estimate_nonneg m : (0 <= estimateTokens number_text m)%Z.
Proof.
  unfold estimateTokens, tokens_of_chars. apply Z.div_pos; [|lia].
  assert (forall b, 0 <= block_chars b)%Z as Hb by (intros []; cbn; try done; unfold ESTIMATED_IMAGE_CHARS; try lia; auto).
  assert (forall b, 0 <= assistant_block_chars number_text b)%Z as Ha.
  { intros [| | |tc]; cbn [assistant_block_chars]; auto; try done. pose proof (js_length_nonneg (tc_name tc)). pose proof (js_length_nonneg (safeJsonStringify number_text (JObj (tc_arguments tc)))). lia. }
  assert (forall c, 0 <= estimateTextAndImageContentChars c)%Z as Hc by (intros []; cbn; [auto|by apply sum_of_nonneg]).
  destruct m as [m|m|m|m|m|m|m]; cbn; try (pose proof (js_length_nonneg (be_command m)); pose proof (js_length_nonneg (be_output m)); lia).
  - specialize (Hc (um_content m)). lia.
  - pose proof (sum_of_nonneg _ (am_content m) Ha). lia.
  - pose proof (sum_of_nonneg _ (tr_content m) Hb). lia.
  - specialize (Hc (cm_content m)). lia.
  - pose proof (js_length_nonneg (bs_summary m)). lia.
  - pose proof (js_length_nonneg (cs_summary m)). lia.
Qed.

Lemma entry_tokens_nonneg e : (0 <= entry_tokens e)%Z.
Proof. unfold entry_tokens. destruct (entry_message e); [apply estimate_nonneg|done]. Qed.

Lemma tokens_from_mono entries a b : a <= b -> (tokens_from entries b <= tokens_from entries a)%Z.
Proof.
  induction 1 as [|b Hab IH]; [done|]. destruct (entries !! b) as [e|] eqn:He.
  - pose proof (tokens_from_step entries b e He). pose proof (entry_tokens_nonneg e). lia.
  - apply lookup_ge_None in He. rewrite tokens_from_end by lia. rewrite tokens_from_end in IH by lia. lia.
Qed.

Definition message_at (entries : list Entry) (i : nat) : Prop := exists e, entries !! i = Some e /\ is_Some (entry_message e).

(** The entry with which the kept messages reach the budget: the last message such that the
    messages from it on do. *)
Definition reaches_budget (entries : list Entry) (keep : Z) (r : nat) : Prop :=
  message_at entries r /\ (keep <= tokens_from entries r)%Z /\ forall j, r < j -> message_at entries j -> (tokens_from entries j < keep)%Z.

(** No message from an entry on is below the budget. *)
Definition below_from (entries : list Entry) (keep : Z) (i : nat) : Prop :=
  forall j, i <= j -> message_at entries j -> (tokens_from entries j < keep)%Z.

Lemma below_step entries keep i : below_from entries keep (S i) ->
  (message_at entries i -> (tokens_from entries i < keep)%Z) -> below_from entries keep i.
Proof. intros Hb Hi j Hj Hm. destruct (decide (j = i)) as [->|]; [by apply Hi|]. apply Hb; [lia|done]. Qed.

Lemma reach_budget_spec entries keep : forall i acc, i <= length entries -> acc = tokens_from entries i -> below_from entries keep i ->
  match reach_budget number_text entries 0 keep i acc with
  | Some r => reaches_budget entries keep r
  | None => below_from entries keep 0
  end.
Proof.
  induction i as [|i IH]; intros acc Hi Hacc Hb; cbn [reach_budget]; [done|]. change (i <? 0) with false. cbv iota.
  destruct (lookup_lt_is_Some_2 entries i ltac:(lia)) as [e He]. rewrite He. cbn [mbind option_bind].
  pose proof (tokens_from_step entries i e He) as Hstep. unfold entry_tokens in Hstep.
  destruct (entry_message e) as [m|] eqn:Hm.
  - destruct (keep <=? _)%Z eqn:Hk.
    + apply Z.leb_le in Hk. split; [exists e; by rewrite Hm|]. split; [lia|]. intros j Hj. apply Hb. lia.
    + apply Z.leb_gt in Hk. apply IH; [lia|lia|]. apply below_step; [done|]. intros _. lia.
  - apply IH; [lia|lia|]. apply below_step; [done|]. intros (e' & He' & Hsome). rewrite He in He'. injection He' as <-. rewrite Hm in Hsome.
    by destruct Hsome.
Qed.

(** Without the entry with which the budget is reached, the rest is below it. *)
Lemma after_reached entries keep r : reaches_budget entries keep r -> (tokens_from entries (S r) < Z.max keep 1)%Z.
Proof.
  intros (_ & _ & Hlt). assert (forall n, below_from entries keep n -> (tokens_from entries n < Z.max keep 1)%Z) as H; [|apply H; intros j Hj; apply Hlt; lia].
  intros n. remember (length entries - n) as d eqn:Hd. revert n Hd. induction d as [|d IH]; intros n Hd Hb; [rewrite tokens_from_end by lia; lia|].
  destruct (lookup_lt_is_Some_2 entries n ltac:(lia)) as [e He]. destruct (entry_message e) as [m|] eqn:Hm.
  - assert (tokens_from entries n < keep)%Z; [|lia]. apply Hb; [done|]. exists e. by rewrite Hm.
  - rewrite (tokens_from_step entries n e He). unfold entry_tokens. rewrite Hm. apply IH; [lia|]. intros j Hj. apply Hb. lia.
Qed.
End budget.

(** * What a preparation holds: the cut, the split turn and the context around a compaction. *)

(** ** The last compaction of a path *)

Lemma last_compaction_split l : forall after, Forall not_compaction after -> match last_compaction l after with
  | Some (c, rest) => entry_type c = Tcompaction /\ Forall not_compaction rest
  | None => Forall not_compaction l
  end.
Proof.
  induction l as [|e l IH]; intros after Ha; cbn [last_compaction]; [constructor|]. case_bool_decide as He; [done|].
  specialize (IH (e :: after) ltac:(by constructor)). destruct (last_compaction l (e :: after)) as [[c rest]|]; [done|by constructor].
Qed.

Lemma path_compaction path : match last_compaction (rev path) [] with
  | Some (c, after) => entry_type c = Tcompaction /\ Forall not_compaction after
  | None => Forall not_compaction path
  end.
Proof.
  pose proof (last_compaction_split (rev path) [] ltac:(constructor)) as H. destruct (last_compaction (rev path) []) as [[c after]|]; [done|].
  apply Forall_forall. intros e He. rewrite Forall_forall in H. apply H. by apply elem_of_rev.
Qed.

(** ** The messages to compact *)

Definition history (path : list Entry) : list AgentMessage := omap getMessageFromEntryForCompaction (compactable_entries path).

Lemma virtual_messages c tail : omap getMessageFromEntryForCompaction (virtualRetainedEntries c tail) = tail.
Proof.
  assert (forall f, (forall i m, getMessageFromEntryForCompaction (f i m) = Some m) -> omap getMessageFromEntryForCompaction (imap f tail) = tail) as H.
  { induction tail as [|m tail IH]; intros f Hf; [done|]. cbn [imap omap list_omap]. rewrite Hf. f_equal. apply (IH (f ∘ S)). intros i m'. apply Hf. }
  by apply H.
Qed.

(** An entry whose message is part of a context as it is. *)
Definition shown (e : Entry) : Prop :=
  match e_body e with
  | BMessage (MAssistant m) _ => am_stopReason m <> SRdeferred
  | BBranchSummary _ summary _ _ => summary <> ""
  | _ => True
  end.

Lemma shown_messages e : not_compaction e -> shown e -> plain_messages e = option_list (getMessageFromEntryForCompaction e).
Proof.
  unfold not_compaction, shown, plain_messages, sessionEntryToContextMessages, getMessageFromEntryForCompaction, getMessageFromEntry, entry_type.
  destruct (e_body e) as [m t| | | |s r tb d u|f s d u|]; cbn [body_type]; intros Hc Hs; try done.
  - destruct m; try done. by rewrite bool_decide_eq_false_2.
  - case_bool_decide; [done|]. destruct (String.eqb s "") eqn:He; [by apply String.eqb_eq in He|done].
Qed.

Lemma shown_history l : Forall not_compaction l -> Forall shown l -> concat (map plain_messages l) = omap getMessageFromEntryForCompaction l.
Proof.
  induction l as [|e l IH]; intros Hc Hs; [done|]. apply Forall_cons in Hc as [Hc Hcl], Hs as [Hs Hsl]. cbn [map concat omap list_omap]. rewrite IH by done.
  rewrite shown_messages by done. by destruct (getMessageFromEntryForCompaction e).
Qed.

(** The summary a context starts with. *)
Definition summary_messages (path : list Entry) : list AgentMessage :=
  match last_compaction (rev path) [] with
  | Some (c, _) => match e_body c with BCompaction summary _ tokens _ _ => [createCompactionSummaryMessage summary tokens (JInt (e_timestamp c))] | _ => [] end
  | None => []
  end.

Lemma last_compaction_elem l : forall after c rest, last_compaction l after = Some (c, rest) -> forall e, e ∈ rest -> e ∈ l \/ e ∈ after.
Proof.
  induction l as [|x l IH]; intros after c rest; cbn [last_compaction]; [done|]. case_bool_decide; [intros [= <- <-]; by right|].
  intros Hl e He. destruct (IH _ _ _ Hl e He) as [Hin|[->|Hin]%elem_of_cons]; [left; by right|left; by left|by right].
Qed.

(** The context of a path: its summary and its history. *)
Lemma context_history path : Forall shown path -> ctx_messages (buildSessionContext path default_context_options) = summary_messages path ++ history path.
Proof.
  intros Hs. unfold buildSessionContext, buildContextEntries, summary_messages, history, compactable_entries.
  cbn [ctx_messages entryTransforms default_context_options foldl]. rewrite contextMessages_default. unfold defaultContextEntryTransform.
  pose proof (path_compaction path) as Hc. pose proof (last_compaction_elem (rev path) []) as Hel. destruct (last_compaction (rev path) []) as [[c after]|]; [|by rewrite shown_history].
  destruct Hc as [Hc Hafter]. specialize (Hel c after eq_refl). assert (Forall shown after) as Hsa.
  { apply Forall_forall. intros e He. rewrite Forall_forall in Hs. apply Hs. destruct (Hel e He) as [Hin|Hin]; [by apply elem_of_rev|by apply elem_of_nil in Hin]. }
  cbn [map concat]. rewrite shown_history by done. unfold plain_messages, sessionEntryToContextMessages. unfold entry_type in Hc.
  destruct (e_body c) as [| | | |s tail tb d u| |]; try done. rewrite omap_app, virtual_messages. done.
Qed.

Lemma context_compacted path c summary tail tokens details usage : e_body c = BCompaction summary tail tokens details usage ->
  ctx_messages (buildSessionContext (path ++ [c]) default_context_options) = createCompactionSummaryMessage summary tokens (JInt (e_timestamp c)) :: tail.
Proof.
  intros Hc. unfold buildSessionContext, buildContextEntries. cbn [ctx_messages entryTransforms default_context_options foldl].
  rewrite contextMessages_default, (transform_compaction path c []); [|unfold entry_type; by rewrite Hc|constructor].
  cbn [map concat]. unfold plain_messages, sessionEntryToContextMessages. by rewrite Hc, app_nil_r.
Qed.

(** ** Calls and their results *)

Definition is_tool_result (m : AgentMessage) : bool := match m with MToolResult _ => true | _ => false end.

(** Every tool result follows the message with its call, other results between them at most. *)
Definition results_follow_calls (messages : list AgentMessage) : Prop :=
  forall before r after, messages = before ++ MToolResult r :: after ->
    exists before' a results, before = before' ++ MAssistant a :: results /\ Forall (fun m => is_tool_result m = true) results /\
      tr_toolCallId r ∈ map tc_id (toolCalls (am_content a)).

Definition starts_with_result (messages : list AgentMessage) : bool := match messages with m :: _ => is_tool_result m | [] => false end.

Lemma results_follow_suffix p s : results_follow_calls (p ++ s) -> starts_with_result s = false -> results_follow_calls s.
Proof.
  intros Hl Hs before r after ->. destruct (Hl (p ++ before) r after ltac:(by rewrite <- app_assoc)) as (before' & a & results & Heq & Hres & Hid).
  assert (Forall (fun m => is_tool_result m = true) before -> False) as Hno.
  { intros Hb. destruct before as [|m before]; [done|]. apply Forall_cons in Hb as [Hm _]. cbn in Hs. congruence. }
  apply app_eq_app in Heq as (mid & [[-> Hmid]|[-> Hmid]]).
  - destruct mid as [|m mid]; cbn in Hmid.
    + subst before. exists [], a, results. rewrite app_nil_r in *. done.
    + injection Hmid as <- ->. exfalso. apply Hno. apply Forall_app in Hres. by destruct Hres.
  - exists mid, a, results. done.
Qed.
Lemma results_follow_cons m l : is_tool_result m = false -> results_follow_calls l -> results_follow_calls (m :: l).
Proof.
  intros Hm Hl before r after Heq. destruct before as [|m' before]; cbn in Heq; [injection Heq as -> ->; done|]. injection Heq as <- ->.
  destruct (Hl before r after eq_refl) as (before' & a & results & -> & Hres & Hid). by exists (m :: before'), a, results.
Qed.

(** A message before the others that is no call. *)
Lemma results_follow_uncons m l : (forall a, m <> MAssistant a) -> results_follow_calls (m :: l) -> results_follow_calls l.
Proof.
  intros Hm Hl before r after ->. destruct (Hl (m :: before) r after eq_refl) as (before' & a & results & Heq & Hres & Hid).
  destruct before' as [|m' before']; cbn in Heq; injection Heq as -> Heq; [by destruct (Hm a)|]. by exists before', a, results.
Qed.

(** ** The cut *)

Definition passed_between (entries : list Entry) (k c : nat) : Prop := forall j, k <= j < c -> exists e, entries !! j = Some e /\ entry_is_passed e.

Lemma kept_head entries c : forall k, k <= c -> passed_between entries k c -> entry_cuts entries c ->
  starts_with_result (omap getMessageFromEntryForCompaction (drop k entries)) = false.
Proof.
  intros k Hk. remember (c - k) as n eqn:Hn. revert k Hk Hn. induction n as [|n IH]; intros k Hk Hn Hpass (e & He & Hcut).
  - assert (k = c) as -> by lia. rewrite (drop_S entries e c He). cbn [omap list_omap]. unfold getMessageFromEntryForCompaction, getMessageFromEntry, is_cut_point, entry_type in *.
    destruct (e_body e) as [[]| | | | | |]; cbn; done.
  - destruct (Hpass k ltac:(lia)) as (e' & He' & Hcomp & Hmsg). rewrite (drop_S entries e' k He'). cbn [omap list_omap].
    assert (starts_with_result (omap getMessageFromEntryForCompaction (drop (S k) entries)) = false) as Hrest.
    { apply IH; [lia|lia| |by exists e]. intros j Hj. apply Hpass. lia. }
    unfold getMessageFromEntryForCompaction at 1, getMessageFromEntry. unfold entry_type in *. destruct (e_body e'); cbn in *; done.
Qed.

Section cut.
Context (number_text : jsnum -> text) (entries : list Entry) (keep : Z).
Abbreviation cut := (findCutPoint number_text entries 0 (length entries) keep).

(** The first cut point from the entry on with which the kept messages reach the budget; when
    the budget is not reached, or no cut point follows, the first cut point of all. *)
Definition chosen_cut (c : nat) : Prop :=
  (exists r, reaches_budget number_text entries keep r /\ entry_cuts entries c /\ r <= c /\ forall c', entry_cuts entries c' -> r <= c' -> c <= c') \/
  (forall r, reaches_budget number_text entries keep r -> forall c', entry_cuts entries c' -> c' < r) /\
    (forall c', entry_cuts entries c' -> c <= c') /\ (entry_cuts entries c \/ c = 0 /\ forall c', ~ entry_cuts entries c').

(** The cut moves back over the entries before it that go with what follows, as far as it can. *)
Definition moved_cut (c k : nat) : Prop :=
  k <= c /\ passed_between entries k c /\ (k = 0 \/ exists e, entries !! pred k = Some e /\ ~ entry_is_passed e).

Lemma starts_turn_cuts i : entry_starts_turn entries i -> entry_cuts entries i.
Proof. intros (e & He & Ht). exists e. split; [done|]. unfold starts_turn, is_cut_point in *. by destruct (e_body e) as [[]| | | | | |]. Qed.

(** A turn is split when the kept messages do not start with a request and a turn starts before. *)
Definition splits_turn (k : nat) : Prop :=
  from_option is_user_entry false (entries !! k) = false /\ exists t, t <= k /\ entry_starts_turn entries t.

Lemma reached_or_below : match reach_budget number_text entries 0 keep (length entries) 0 with
  | Some r => reaches_budget number_text entries keep r
  | None => forall r, ~ reaches_budget number_text entries keep r
  end.
Proof.
  assert (below_from number_text entries keep (length entries)) as Hend by (intros j Hj (e & He & _); apply lookup_lt_Some in He; lia).
  pose proof (reach_budget_spec number_text entries keep (length entries) 0 (le_n _) ltac:(by rewrite tokens_from_end) Hend) as H.
  destruct (reach_budget _ _ _ _ _ _) as [r|]; [done|]. intros r (Hm & Hk & _). specialize (H r ltac:(lia) Hm). lia.
Qed.

Lemma reaches_unique r r' : reaches_budget number_text entries keep r -> reaches_budget number_text entries keep r' -> r = r'.
Proof.
  intros (Hm & Hk & Hlt) (Hm' & Hk' & Hlt'). destruct (Nat.lt_trichotomy r r') as [H|[H|H]]; [|done|].
  - specialize (Hlt r' H Hm'). lia.
  - specialize (Hlt' r H Hm). lia.
Qed.

Lemma find_cut_point_spec : let k := cut_firstKeptEntryIndex cut in
  (exists c, c <= length entries /\ chosen_cut c /\ moved_cut c k /\ (k = 0 \/ entry_cuts entries c)) /\
  (cut_isSplitTurn cut = true <-> splits_turn k) /\
  match cut_turnStartIndex cut with
  | Some t => t <= k /\ entry_starts_turn entries t /\ (forall j, t < j <= k -> ~ entry_starts_turn entries j) /\ cut_isSplitTurn cut = true
  | None => cut_isSplitTurn cut = false
  end.
Proof.
  cbn zeta. unfold findCutPoint. pose proof (cut_points_sorted entries 0 (length entries)) as Hsort. pose proof (cut_points_elem entries 0 (length entries)) as Hel.
  assert (forall c', entry_cuts entries c' -> c' < length entries) as Hlen by (intros c' (e & He & _); by eapply lookup_lt_Some).
  destruct (findValidCutPoints entries 0 (length entries)) as [|first cuts] eqn:Hcuts.
  { cbn. assert (forall c', ~ entry_cuts entries c') as Hno.
    { intros c' Hc'. assert (c' ∈ @nil nat) as []%elem_of_nil. apply Hel. split; [|done]. split; [lia|]. by apply Hlen. }
    split; [|split; [split; [done|intros (_ & t & _ & Ht%starts_turn_cuts); by apply Hno in Ht]|done]].
    exists 0. split; [lia|]. split; [right; split_and!; [intros r _ c' Hc'; by apply Hno in Hc'|lia|by right]|].
    split; [|by left]. split; [lia|]. split; [intros j Hj; lia|by left]. }
  assert (forall c', entry_cuts entries c' -> c' ∈ first :: cuts) as Hin.
  { intros c' Hc'. apply Hel. split; [split; [lia|by apply Hlen]|done]. }
  set (l := first :: cuts) in *. set (c := default first _). assert (entry_cuts entries c /\ chosen_cut c) as [Hc Hchosen].
  { assert (entry_cuts entries first) as Hcf by (apply (Hel first); by left).
    assert (forall c', entry_cuts entries c' -> first <= c') as Hfirst.
    { intros c' [->|Hc']%Hin%elem_of_cons; [done|]. apply StronglySorted_inv in Hsort as [_ Hf]. rewrite Forall_forall in Hf. specialize (Hf c' Hc'). lia. }
    subst c. pose proof reached_or_below as Hr. destruct (reach_budget number_text entries 0 keep (length entries) 0) as [r|]; cbn [mbind option_bind default from_option].
    - pose proof (find_cut l r Hsort) as Hfind. destruct (List.find _ l) as [c|]; cbn [default from_option id].
      + destruct Hfind as (Hcl & Hle & Hmin). split; [by apply Hel|]. left. exists r. split_and!; [done|by apply Hel|done|auto].
      + split; [done|]. right. split_and!; [|done|by left]. intros r' Hr' c' Hc'. rewrite (reaches_unique r' r Hr' Hr). auto.
    - split; [done|]. right. split_and!; [|done|by left]. intros r Hr'. by apply Hr in Hr'. }
  pose proof (Hlen c Hc) as Hcl. destruct (move_cut_spec entries 0 c ltac:(lia) ltac:(lia)) as (Hk & Hpass & Hstop). set (k := move_cut entries 0 c) in *.
  cbn [cut_firstKeptEntryIndex cut_turnStartIndex cut_isSplitTurn].
  split; [exists c; split; [lia|]; split; [done|]; split; [|by right]; split; [lia|]; split; [done|];
    destruct (decide (k = 0)); [by left|right; apply Hstop; lia]|].
  pose proof (turn_start_spec entries 0 k) as Ht. unfold splits_turn. destruct (from_option is_user_entry false (entries !! k)); [by split; [split; [|intros []]|]|].
  destruct (findTurnStartIndex entries k 0) as [t|].
  - destruct Ht as (Htk & Hts & Hno). split; [|split; [lia|done]]. split; [intros _; split; [done|]; exists t; split; [lia|done]|done].
  - split; [|done]. split; [done|]. intros (_ & t & Htk & Hts). by destruct (Ht t ltac:(lia)).
Qed.
End cut.

(** * The file lists of a compaction. *)

(** ** Sets *)

Lemma set_add_elem x s y : y ∈ set_add x s <-> y = x \/ y ∈ s.
Proof. unfold set_add. case_bool_decide; [|rewrite elem_of_app, list_elem_of_singleton]; naive_solver. Qed.

Lemma set_add_nodup x s : NoDup s -> NoDup (set_add x s).
Proof.
  intros Hs. unfold set_add. case_bool_decide as Hx; [done|]. apply NoDup_app. split_and!; [done| |apply NoDup_singleton]. intros y Hy ->%list_elem_of_singleton. done.
Qed.

Lemma set_add_all_elem xs y : forall s, y ∈ set_add_all xs s <-> y ∈ xs \/ y ∈ s.
Proof.
  unfold set_add_all. induction xs as [|x xs IH]; intros s; cbn [foldl]; [split; [by right|by intros [?%elem_of_nil|]]|].
  rewrite IH, set_add_elem, elem_of_cons. naive_solver.
Qed.

Lemma set_add_all_nodup xs : forall s, NoDup s -> NoDup (set_add_all xs s).
Proof. unfold set_add_all. induction xs as [|x xs IH]; intros s Hs; cbn [foldl]; [done|]. apply IH. by apply set_add_nodup. Qed.

(** ** Operations *)

Definition ops_ok (o : FileOperations) : Prop := NoDup (ops_read o) /\ NoDup (ops_written o) /\ NoDup (ops_edited o).

(** The paths the calls of a tool name in the messages. *)
Definition calls_on (names : list string) (messages : list AgentMessage) (path : string) : Prop :=
  exists a toolCall, MAssistant a ∈ messages /\ toolCall ∈ toolCalls (am_content a) /\ tc_name toolCall ∈ names /\ call_path toolCall = Some path.

Definition names_path (names : list string) (toolCall : ToolCall) (path : string) : Prop := tc_name toolCall ∈ names /\ call_path toolCall = Some path.

Lemma extract_call_elem o toolCall path :
  (path ∈ ops_read (extract_call o toolCall) <-> path ∈ ops_read o \/ names_path ["read"] toolCall path) /\
  (path ∈ ops_written (extract_call o toolCall) <-> path ∈ ops_written o \/ names_path ["write"] toolCall path) /\
  (path ∈ ops_edited (extract_call o toolCall) <-> path ∈ ops_edited o \/ names_path ["edit"] toolCall path).
Proof.
  unfold extract_call, names_path. destruct (call_path toolCall) as [p|]; [|intuition congruence].
  assert (forall s, tc_name toolCall ∈ [s] <-> tc_name toolCall = s) as Hn by (intros s; apply list_elem_of_singleton).
  rewrite !Hn. destruct (String.eqb (tc_name toolCall) "read") eqn:Hr; [apply String.eqb_eq in Hr; cbn; rewrite Hr, set_add_elem; naive_solver|apply String.eqb_neq in Hr].
  destruct (String.eqb (tc_name toolCall) "write") eqn:Hw; [apply String.eqb_eq in Hw; cbn; rewrite Hw, set_add_elem; naive_solver|apply String.eqb_neq in Hw].
  destruct (String.eqb (tc_name toolCall) "edit") eqn:He; [apply String.eqb_eq in He; cbn; rewrite He, set_add_elem; naive_solver|apply String.eqb_neq in He].
  tauto.
Qed.

Lemma extract_call_ok o toolCall : ops_ok o -> ops_ok (extract_call o toolCall).
Proof. intros (Hr & Hw & He). unfold extract_call. repeat case_match; try done; split_and!; cbn; auto using set_add_nodup. Qed.

Lemma extract_calls_elem tcs path : forall o,
  (path ∈ ops_read (foldl extract_call o tcs) <-> path ∈ ops_read o \/ exists c, c ∈ tcs /\ names_path ["read"] c path) /\
  (path ∈ ops_written (foldl extract_call o tcs) <-> path ∈ ops_written o \/ exists c, c ∈ tcs /\ names_path ["write"] c path) /\
  (path ∈ ops_edited (foldl extract_call o tcs) <-> path ∈ ops_edited o \/ exists c, c ∈ tcs /\ names_path ["edit"] c path).
Proof.
  induction tcs as [|c tcs IH]; intros o; cbn [foldl]; [split_and!; (split; [by left|by intros [|(c & ?%elem_of_nil & _)]])|].
  destruct (IH (extract_call o c)) as (H1 & H2 & H3), (extract_call_elem o c path) as (H4 & H5 & H6).
  rewrite H1, H2, H3, H4, H5, H6. split_and!; set_solver.
Qed.

Lemma extract_message_elem m path o :
  (path ∈ ops_read (extractFileOpsFromMessage m o) <-> path ∈ ops_read o \/ calls_on ["read"] [m] path) /\
  (path ∈ ops_written (extractFileOpsFromMessage m o) <-> path ∈ ops_written o \/ calls_on ["write"] [m] path) /\
  (path ∈ ops_edited (extractFileOpsFromMessage m o) <-> path ∈ ops_edited o \/ calls_on ["edit"] [m] path).
Proof.
  assert (forall names, match m with MAssistant a => calls_on names [m] path <-> exists c, c ∈ toolCalls (am_content a) /\ names_path names c path | _ => ~ calls_on names [m] path end) as Hc.
  { intros names. unfold calls_on, names_path. destruct m as [m|a|m|m|m|m|m];
      try (by intros (a & c & Hin%list_elem_of_singleton & _)). split; [intros (a' & c & [= <-]%list_elem_of_singleton & H); by exists c|].
    intros (c & H). exists a, c. split; [by apply list_elem_of_singleton|done]. }
  pose proof (Hc ["read"]) as H1. pose proof (Hc ["write"]) as H2. pose proof (Hc ["edit"]) as H3. unfold extractFileOpsFromMessage.
  destruct m as [m|a|m|m|m|m|m]; try tauto. rewrite H1, H2, H3. apply extract_calls_elem.
Qed.

Lemma calls_on_cons names m l path : calls_on names (m :: l) path <-> calls_on names [m] path \/ calls_on names l path.
Proof.
  unfold calls_on. split.
  - intros (a & c & [Ha|Ha]%elem_of_cons & H); [left|right]; exists a, c; (split; [|done]); [by apply list_elem_of_singleton|done].
  - intros [(a & c & Ha%list_elem_of_singleton & H)|(a & c & Ha & H)]; exists a, c; (split; [|done]); [rewrite Ha; by left|by right].
Qed.

Lemma calls_on_app names l1 l2 path : calls_on names (l1 ++ l2) path <-> calls_on names l1 path \/ calls_on names l2 path.
Proof.
  induction l1 as [|m l1 IH]; cbn [app]; [split; [by right|intros [(? & ? & ?%elem_of_nil & _)|]; done]|].
  rewrite (calls_on_cons names m (l1 ++ l2)), (calls_on_cons names m l1), IH. tauto.
Qed.

Lemma extract_all_elem messages path : forall o,
  (path ∈ ops_read (extract_all messages o) <-> path ∈ ops_read o \/ calls_on ["read"] messages path) /\
  (path ∈ ops_written (extract_all messages o) <-> path ∈ ops_written o \/ calls_on ["write"] messages path) /\
  (path ∈ ops_edited (extract_all messages o) <-> path ∈ ops_edited o \/ calls_on ["edit"] messages path).
Proof.
  unfold extract_all. induction messages as [|m l IH]; intros o; cbn [foldl].
  { split_and!; (split; [by left|by intros [|(? & ? & ?%elem_of_nil & _)]]). }
  destruct (IH (extractFileOpsFromMessage m o)) as (H1 & H2 & H3), (extract_message_elem m path o) as (H4 & H5 & H6).
  rewrite H1, H2, H3, H4, H5, H6. rewrite !(calls_on_cons _ m l). tauto.
Qed.

Lemma extract_all_ok messages : forall o, ops_ok o -> ops_ok (extract_all messages o).
Proof.
  unfold extract_all. induction messages as [|m l IH]; intros o Ho; cbn [foldl]; [done|]. apply IH. unfold extractFileOpsFromMessage.
  destruct m as [m|a|m|m|m|m|m]; try done. revert o Ho. induction (toolCalls (am_content a)) as [|c cs IHc]; intros o Ho; cbn [foldl]; [done|]. apply IHc. by apply extract_call_ok.
Qed.

(** ** Details of the summaries before *)

Lemma add_details_elem details o path :
  (path ∈ ops_read (add_details details o) <-> path ∈ ops_read o \/ path ∈ detail_files details "readFiles") /\
  (path ∈ ops_written (add_details details o) <-> path ∈ ops_written o) /\
  (path ∈ ops_edited (add_details details o) <-> path ∈ ops_edited o \/ path ∈ detail_files details "modifiedFiles").
Proof.
  unfold add_details.
  assert (forall l o, ops_read (foldl (fun o f => add_read f o) o l) = set_add_all l (ops_read o) /\
    ops_written (foldl (fun o f => add_read f o) o l) = ops_written o /\ ops_edited (foldl (fun o f => add_read f o) o l) = ops_edited o) as Hr.
  { unfold set_add_all. induction l as [|f l IH]; intros o'; cbn [foldl]; [done|]. destruct (IH (add_read f o')) as (-> & -> & ->). done. }
  assert (forall l o, ops_read (foldl (fun o f => add_edited f o) o l) = ops_read o /\
    ops_written (foldl (fun o f => add_edited f o) o l) = ops_written o /\ ops_edited (foldl (fun o f => add_edited f o) o l) = set_add_all l (ops_edited o)) as He.
  { unfold set_add_all. induction l as [|f l IH]; intros o'; cbn [foldl]; [done|]. destruct (IH (add_edited f o')) as (-> & -> & ->). done. }
  cbn zeta. destruct (He (detail_files details "modifiedFiles") (foldl (fun o f => add_read f o) o (detail_files details "readFiles"))) as (-> & -> & ->).
  destruct (Hr (detail_files details "readFiles") o) as (-> & -> & ->). rewrite !set_add_all_elem. tauto.
Qed.

Lemma add_details_ok details o : ops_ok o -> ops_ok (add_details details o).
Proof.
  unfold add_details. cbn zeta. intros Ho. set (o1 := foldl _ o _). assert (ops_ok o1) as Ho1.
  { subst o1. revert o Ho. induction (detail_files details "readFiles") as [|f l IH]; intros o (Hr & Hw & He); cbn [foldl]; [done|]. apply IH. split_and!; cbn; auto using set_add_nodup. }
  revert Ho1. generalize o1. induction (detail_files details "modifiedFiles") as [|f l IH]; intros o' (Hr & Hw & He); cbn [foldl]; [done|]. apply IH. split_and!; cbn; auto using set_add_nodup.
Qed.

(** ** The lists *)

#[export] Instance string_le_trans : Transitive string_le.
Proof. intros a b c. apply units_le_trans. Qed.
#[export] Instance string_le_total : Total string_le.
Proof. intros a b. apply units_le_total. Qed.

Definition sorted_strings (l : list string) : Prop := StronglySorted string_le l /\ NoDup l.

Lemma sort_strings_sorted l : NoDup l -> sorted_strings (sort_strings l).
Proof. intros Hl. split; [by apply (StronglySorted_merge_sort string_le)|]. unfold sort_strings. by rewrite merge_sort_Permutation. Qed.

Lemma sort_strings_elem l x : x ∈ sort_strings l <-> x ∈ l.
Proof. unfold sort_strings. by rewrite merge_sort_Permutation. Qed.

Lemma file_lists_spec o : ops_ok o -> let files := computeFileLists o in
  sorted_strings (readFiles files) /\ sorted_strings (modifiedFiles files) /\
  (forall f, f ∈ modifiedFiles files <-> f ∈ ops_written o \/ f ∈ ops_edited o) /\
  (forall f, f ∈ readFiles files <-> f ∈ ops_read o /\ ~ f ∈ modifiedFiles files).
Proof.
  intros (Hr & Hw & He). unfold computeFileLists. cbn zeta. cbn [readFiles modifiedFiles].
  assert (NoDup (set_add_all (ops_written o) (ops_edited o))) as Hm by by apply set_add_all_nodup. split_and!.
  - apply sort_strings_sorted. apply NoDup_ListNoDup, List.NoDup_filter, NoDup_ListNoDup. done.
  - by apply sort_strings_sorted.
  - intros f. by rewrite sort_strings_elem, set_add_all_elem.
  - intros f. rewrite !sort_strings_elem, list_elem_of_In, filter_In, <- list_elem_of_In, negb_true_iff, bool_decide_eq_false. done.
Qed.
