(* ===== verification/CompactionTheorems.v ===== *)
(** What compaction keeps, and what it says about files. *)
From S2P Require Import Prelude JsNumber JsText JsTree JsObject JsData Messages SessionTypes SessionContext JsonText MessageViews Compaction CompactionFacts.
Local Open Scope nat_scope.

Section prepared.
Context (number_text : jsnum -> text).

Abbreviation context_messages path := (ctx_messages (buildSessionContext path default_context_options)).

(** The messages of a turn before the cut: from the last start of a turn up to the cut. *)
Definition turn_prefix (entries : list Entry) (k : nat) (prefix : list AgentMessage) : Prop :=
  exists t, t <= k /\ entry_starts_turn entries t /\ (forall j, t < j <= k -> ~ entry_starts_turn entries j) /\ prefix = messages_between entries t k.

Section preparation.
Context (path : list Entry) (settings : CompactionSettings) (p : CompactionPreparation).
Hypothesis Hp : prepareCompaction number_text path settings = Some p.
Abbreviation entries := (compactable_entries path).

(** The preparation in terms of the cut. *)
Lemma preparation_spec : exists k, k <= length entries /\
  prep_messagesToSummarize p ++ prep_turnPrefixMessages p = omap getMessageFromEntryForCompaction (take k entries) /\
  prep_retainedTail p = omap getMessageFromEntryForCompaction (drop k entries) /\
  (k = 0 \/ starts_with_result (prep_retainedTail p) = false) /\
  (exists c, chosen_cut number_text entries (set_keepRecentTokens settings) c /\ moved_cut entries c k) /\
  (prep_isSplitTurn p = true <-> splits_turn entries k) /\
  (if prep_isSplitTurn p then turn_prefix entries k (prep_turnPrefixMessages p) else prep_turnPrefixMessages p = []) /\
  prep_previousSummary p = previous_summary path /\
  prep_fileOps p = extract_all (prep_messagesToSummarize p ++ prep_turnPrefixMessages p) (add_details ((fst <$> last_compaction (rev path) []) ≫= entry_details) createFileOps).
Proof.
  unfold prepareCompaction in Hp. destruct (last path) as [e|]; [|done]. case_bool_decide; [done|]. cbn zeta in Hp. injection Hp as <-.
  pose proof (find_cut_point_spec number_text entries (set_keepRecentTokens settings)) as ((c & Hc & Hchosen & Hmoved & Hcut) & Hsplit & Hturn).
  pose proof Hmoved as (Hkc & Hpass & _).
  set (cp := findCutPoint _ _ _ _ _) in *. set (k := cut_firstKeptEntryIndex cp) in *. exists k. split; [lia|]. cbn [prep_messagesToSummarize prep_turnPrefixMessages prep_retainedTail
    prep_isSplitTurn prep_previousSummary prep_fileOps].
  assert (forall n, messages_between entries 0 n = omap getMessageFromEntryForCompaction (take n entries)) as Htake by (intros n; unfold messages_between; by rewrite Nat.sub_0_r).
  split_and!.
  - destruct (cut_isSplitTurn cp) eqn:Hs; [|by rewrite app_nil_r, Htake]. destruct (cut_turnStartIndex cp) as [t|]; [|done]. cbn [default from_option id].
    destruct Hturn as [Ht _]. by rewrite (messages_between_app entries 0 t k), Htake by lia.
  - apply messages_to_end.
  - destruct Hcut as [->|Hcut]; [by left|right]. rewrite messages_to_end. by apply (kept_head _ c).
  - by exists c.
  - done.
  - destruct (cut_turnStartIndex cp) as [t|]; [|by rewrite Hturn]. destruct Hturn as (Ht & Hst & Hno & ->). by exists t.
  - done.
  - unfold extractFileOperations, extract_all. rewrite foldl_app. destruct (cut_isSplitTurn cp); done.
Qed.

Lemma preparation_partition : history path = prep_messagesToSummarize p ++ prep_turnPrefixMessages p ++ prep_retainedTail p.
Proof.
  destruct preparation_spec as (k & Hk & Hpre & Hpost & _). rewrite app_assoc, Hpre, Hpost, <- omap_app, take_drop. done.
Qed.

Lemma retained_follow : results_follow_calls (history path) -> results_follow_calls (prep_retainedTail p).
Proof.
  destruct preparation_spec as (k & Hk & Hpre & Hpost & [->|Hhead] & _); intros H.
  - rewrite Hpost, drop_0. done.
  - rewrite preparation_partition, app_assoc in H. by eapply results_follow_suffix.
Qed.

Lemma summary_uncons : results_follow_calls (summary_messages path ++ history path) -> results_follow_calls (history path).
Proof.
  unfold summary_messages. destruct (last_compaction (rev path) []) as [[c after]|]; [|done]. destruct (e_body c); try done. apply results_follow_uncons. by intros a.
Qed.
End preparation.
End prepared.

Abbreviation context_messages path := (ctx_messages (buildSessionContext path default_context_options)).

(** ** The properties *)

(** C11: The context around a compaction.  What a compaction summarizes and what it retains are the
    messages of the entries since the last summary (those it retained first), in order, each
    once; after it the context is the new summary and the retained messages.  On a path without
    deferred answers and branch summaries without text (such entries have a message but are no
    part of a context: [Compactions.deferred_reappears]) those messages are the whole context
    behind the last summary, and if the results of tools follow their calls before the
    compaction, they do after it. *)
Theorem compacted_context number_text path settings p c summary details usage :
  prepareCompaction number_text path settings = Some p ->
  e_body c = BCompaction summary (prep_retainedTail p) (prep_tokensBefore p) details usage ->
  history path = prep_messagesToSummarize p ++ prep_turnPrefixMessages p ++ prep_retainedTail p /\
  context_messages (path ++ [c]) = createCompactionSummaryMessage summary (prep_tokensBefore p) (JInt (e_timestamp c)) :: prep_retainedTail p /\
  prep_previousSummary p = previous_summary path /\
  (Forall shown path ->
   context_messages path = summary_messages path ++ prep_messagesToSummarize p ++ prep_turnPrefixMessages p ++ prep_retainedTail p /\
   (results_follow_calls (context_messages path) -> results_follow_calls (context_messages (path ++ [c])))).
Proof.
  intros Hp Hc. rewrite (context_compacted _ _ _ _ _ _ _ Hc), <- (preparation_partition _ _ _ _ Hp). split; [done|]. split; [done|]. split; [|intros Hs; rewrite context_history by done; split; [done|]].
  - by destruct (preparation_spec _ _ _ _ Hp) as (k & _ & _ & _ & _ & _ & _ & _ & H & _).
  - intros H%summary_uncons. apply results_follow_cons; [done|]. by eapply retained_follow.
Qed.


(** The files of a summary.  A file is listed as modified when a summarized call wrote or
    edited it or the summary before listed it so, and as read when it was only read; both lists
    are sorted and free of duplicates. *)
Theorem compaction_files number_text path settings p :
  prepareCompaction number_text path settings = Some p ->
  let files := computeFileLists (prep_fileOps p) in
  let summarized := prep_messagesToSummarize p ++ prep_turnPrefixMessages p in
  let details := (fst <$> last_compaction (rev path) []) ≫= entry_details in
  sorted_strings (readFiles files) /\ sorted_strings (modifiedFiles files) /\
  (forall f, f ∈ modifiedFiles files <-> f ∈ detail_files details "modifiedFiles" \/ calls_on ["write"] summarized f \/ calls_on ["edit"] summarized f) /\
  (forall f, f ∈ readFiles files <-> (f ∈ detail_files details "readFiles" \/ calls_on ["read"] summarized f) /\ ~ f ∈ modifiedFiles files).
Proof.
  intros Hp. cbn zeta. destruct (preparation_spec _ _ _ _ Hp) as (k & _ & _ & _ & _ & _ & _ & _ & _ & Hops). rewrite Hops.
  set (details := _ ≫= entry_details). set (summarized := _ ++ _).
  assert (ops_ok (extract_all summarized (add_details details createFileOps))) as Hok by (apply extract_all_ok, add_details_ok; split_and!; constructor).
  destruct (file_lists_spec _ Hok) as (Hr & Hm & Hmod & Hread). split_and!; [done|done| |].
  - intros f. rewrite Hmod. destruct (extract_all_elem summarized f (add_details details createFileOps)) as (_ & -> & ->).
    destruct (add_details_elem details createFileOps f) as (_ & -> & ->). cbn. rewrite !elem_of_nil. tauto.
  - intros f. rewrite Hread. destruct (extract_all_elem summarized f (add_details details createFileOps)) as (-> & _ & _).
    destruct (add_details_elem details createFileOps f) as (-> & _ & _). cbn. rewrite !elem_of_nil. tauto.
Qed.

(** ** Instances *)

Module Compactions.

Definition no_numbers (n : jsnum) : text := [].
Definition no_cost : Cost := mkCost (JInt 0) (JInt 0) (JInt 0) (JInt 0) (JInt 0).
Definition usage_of (tokens : Z) : Usage := mkUsage (JInt 0) (JInt 0) (JInt 0) (JInt 0) None None (JInt tokens) no_cost.

Definition user (text : string) : AgentMessage := MUser (mkUserMessage (PlainContent text) (JInt 0)).
Definition assistant (content : list Content) (reason : StopReason) (tokens : Z) : AgentMessage :=
  MAssistant (mkAssistantMessage content "api" "provider" "model" None None None (usage_of tokens) reason None None None None (JInt 0)).
Definition says (text : string) : AgentMessage := assistant [TextC text None] SRstop 0.
Definition calls (id tool path : string) : AgentMessage := assistant [ToolCallC (mkToolCall id tool [("path", JStr path)] None None)] SRtoolUse 0.
Definition tool_result (id text : string) : AgentMessage := MToolResult (mkToolResultMessage id "tool" [TextC text None] None None None false (JInt 0)).

Definition entry (id : string) (body : EntryBody) : Entry := mkEntry id 0 None 0 body.
Definition message_entries (messages : list AgentMessage) : list Entry := map (fun m => entry "m" (BMessage m false)) messages.
Definition keeping (tokens : Z) : CompactionSettings := mkCompactionSettings true 0 tokens.

Fixpoint repeat_text (n : nat) (s : string) : string := match n with O => "" | S n' => s +:+ repeat_text n' s end.

(** Two turns, the second one over the budget: the cut splits it. *)
Definition two_turns : list Entry := message_entries
  [user "first request"; calls "1" "read" "a.ts"; tool_result "1" "text of a"; says "first answer"; user "second request";
   calls "2" "edit" "a.ts"; tool_result "2" "edited"; calls "3" "read" "b.ts"; tool_result "3" "text of b"; says "second answer"].

Example split_turn :
  (fun p => (length (prep_messagesToSummarize p), length (prep_turnPrefixMessages p), length (prep_retainedTail p), computeFileLists (prep_fileOps p)))
    <$> prepareCompaction no_numbers two_turns (keeping 12) = Some (4, 3, 3, mkFileLists [] ["a.ts"]).
Proof. vm_compute. reflexivity. Qed.

(** The last message is a tool result over the budget: no cut point follows it, and nothing at
    all is summarized. *)
Example large_result_keeps_all :
  (fun p => (prep_messagesToSummarize p, prep_turnPrefixMessages p, length (prep_retainedTail p)))
    <$> prepareCompaction no_numbers (message_entries [user "request"; says "answer"; user "next"; calls "1" "read" "a"; tool_result "1" (repeat_text 100 "text")]) (keeping 50) =
  Some ([], [], 5).
Proof. vm_compute. reflexivity. Qed.

(** The cut is at a request, but a change of the model before it moves with it: the complete
    turn before is reported as a split one. *)
Example whole_turn_reported_split :
  (fun p => (prep_isSplitTurn p, prep_messagesToSummarize p, prep_turnPrefixMessages p, prep_retainedTail p))
    <$> prepareCompaction no_numbers (message_entries [user "request"; says "answer"] ++ [entry "c" (BModelChange "p" "m")] ++ message_entries [user (repeat_text 50 "next")]) (keeping 50) =
  Some (true, [], [user "request"; says "answer"], [user (repeat_text 50 "next")]).
Proof. vm_compute. reflexivity. Qed.

(** The usage of a retained answer, which counted the old context, is taken for the new one. *)
Definition before_compaction : list Entry := message_entries [user (repeat_text 200 "long"); says (repeat_text 200 "text"); user "short"; assistant [TextC "answer" None] SRstop 90000].
Example stale_usage :
  (p ← prepareCompaction no_numbers before_compaction (keeping 3);
   let after := before_compaction ++ [entry "c" (BCompaction "summary" (prep_retainedTail p) (prep_tokensBefore p) None None)] in
   Some (length (prep_retainedTail p), est_tokens (estimateContextTokens no_numbers (context_messages after)))) = Some (2, JInt 90000).
Proof. vm_compute. reflexivity. Qed.

(** An answer that was deferred is no part of a context, until a compaction retains it. *)
Definition deferred : AgentMessage := assistant [TextC "later" None] SRdeferred 0.
Example deferred_reappears :
  (p ← prepareCompaction no_numbers (message_entries [user "request"; deferred]) (keeping 50);
   let path := message_entries [user "request"; deferred] in
   Some (context_messages path, tail (context_messages (path ++ [entry "c" (BCompaction "summary" (prep_retainedTail p) (prep_tokensBefore p) None None)])))) =
  Some ([user "request"], [user "request"; deferred]).
Proof. vm_compute. reflexivity. Qed.

Definition prepared_turns : option CompactionPreparation := prepareCompaction no_numbers two_turns (keeping 12).
End Compactions.
Import Compactions.

(** The preparation of [two_turns]. *)
Lemma prepared_two_turns (P : CompactionPreparation -> Prop) :
  (forall p, prepareCompaction no_numbers two_turns (keeping 12) = Some p -> P p) -> match prepared_turns with Some p => P p | None => False end.
Proof.
  intros H. unfold prepared_turns. destruct (prepareCompaction no_numbers two_turns (keeping 12)) as [p|] eqn:Hp; [by apply H|].
  assert (match prepareCompaction no_numbers two_turns (keeping 12) with Some _ => true | None => false end = true) as Hs by (vm_compute; reflexivity). by rewrite Hp in Hs.
Qed.

Lemma two_turns_shown : Forall shown two_turns.
Proof. repeat constructor; cbn; discriminate. Qed.

Lemma compacted_context_witness : match prepared_turns with
  | Some p => context_messages (two_turns ++ [entry "c" (BCompaction "summary" (prep_retainedTail p) (prep_tokensBefore p) None None)]) =
      createCompactionSummaryMessage "summary" (prep_tokensBefore p) (JInt 0) :: prep_retainedTail p /\
      context_messages two_turns = prep_messagesToSummarize p ++ prep_turnPrefixMessages p ++ prep_retainedTail p
  | None => False
  end.
Proof.
  apply prepared_two_turns. intros p Hp.
  destruct (compacted_context no_numbers two_turns (keeping 12) p
    (entry "c" (BCompaction "summary" (prep_retainedTail p) (prep_tokensBefore p) None None)) "summary" None None Hp eq_refl) as (_ & Hafter & _ & Hshown).
  split; [exact Hafter|exact (proj1 (Hshown two_turns_shown))].
Defined.


Lemma compaction_files_witness : match prepared_turns with
  | Some p => forall f, f ∈ readFiles (computeFileLists (prep_fileOps p)) <->
      (f ∈ [] \/ calls_on ["read"] (prep_messagesToSummarize p ++ prep_turnPrefixMessages p) f) /\ ~ f ∈ modifiedFiles (computeFileLists (prep_fileOps p))
  | None => False
  end.
Proof.
  apply prepared_two_turns. intros p Hp. destruct (compaction_files no_numbers two_turns (keeping 12) p Hp) as (_ & _ & _ & H). exact H.
Defined.
