(* ===== verification/Summaries.v ===== *)
(** Summaries: [packages/agent/src/harness/compaction/utils.ts], the calls of the model in
    [compaction.ts], and the summaries of branches, [branch-summarization.ts].

    Prompts are code units; the model is the environment of a retried call, given the number
    of the call and the request. *)
From S2P Require Import Prelude JsNumber JsText JsTree JsObject JsData Messages SessionTypes SessionContext JsonText MessageViews Retry Compaction.
Local Open Scope Z_scope.

(** Lines of a text, in which a tilde stands for a double quote. *)
Definition text_lines (lines : list string) : jsstr :=
  text_join [10] (map (fun l => map (fun u => if u =? 126 then 34 else u) (js l)) lines).

(** ** Conversations *)

(** [contentText] of [ai/src/utils/text.ts]. *)
Definition text_blocks (content : list Content) : list string := omap (fun b => match b with TextC text _ => Some text | _ => None end) content.
Definition contentText (content : MessageContent) (separator : string) : string :=
  match content with PlainContent text => text | Blocks blocks => String.concat separator (text_blocks blocks) end.

Definition TOOL_RESULT_MAX_CHARS : nat := 2000.

Definition truncateForSummary (text : jsstr) (maxChars : nat) : jsstr :=
  if (length text <=? maxChars)%nat then text
  else
    let truncatedChars := Z.of_nat (length text - maxChars) in
    take maxChars text ++ [10; 10] ++ js "[... " ++ js (pretty truncatedChars) ++ js " more characters truncated]".

Section serialize.
Context (number_text : jsnum -> text).

(** [name(k=v, ...)] of a call. *)
Definition serialize_call (toolCall : ToolCall) : jsstr :=
  let argsStr := text_join (js ", ")
    (map (fun p : string * jstree => units p.1 ++ js "=" ++ units (safeJsonStringify number_text p.2)) (tc_arguments toolCall)) in
  units (tc_name toolCall) ++ js "(" ++ argsStr ++ js ")".

Definition thinking_blocks (content : list Content) : list string := omap (fun b => match b with ThinkingC thinking _ _ => Some thinking | _ => None end) content.

Definition has_text_block (content : list Content) : bool := existsb (fun b => match b with TextC _ _ => true | _ => false end) content.

(** The parts a message adds. *)
Definition message_parts (msg : AgentMessage) : list jsstr :=
  match msg with
  | MUser m =>
      let content := contentText (um_content m) "" in
      if String.eqb content "" then [] else [js "[User]: " ++ units content]
  | MAssistant m =>
      let thinkingParts := thinking_blocks (am_content m) in
      let calls := map serialize_call (toolCalls (am_content m)) in
      (match thinkingParts with [] => [] | _ => [js "[Assistant thinking]: " ++ text_join [10] (map units thinkingParts)] end) ++
      (if has_text_block (am_content m) then [js "[Assistant]: " ++ units (contentText (Blocks (am_content m)) NL)] else []) ++
      (match calls with [] => [] | _ => [js "[Assistant tool calls]: " ++ text_join (js "; ") calls] end)
  | MToolResult m =>
      let content := contentText (Blocks (tr_content m)) "" in
      if String.eqb content "" then [] else [js "[Tool result]: " ++ truncateForSummary (units content) TOOL_RESULT_MAX_CHARS]
  | _ => []
  end.

Definition serializeConversation (messages : list AgentMessage) : jsstr := text_join [10; 10] (flat_map message_parts messages).
End serialize.

(** ** Prompts *)

Definition SUMMARIZATION_SYSTEM_PROMPT : jsstr := text_lines
  ["You are a context summarization assistant. Your task is to read a conversation between a user and an AI assistant, then produce a structured summary following the exact format specified.";
   "";
   "Do NOT continue the conversation. Do NOT respond to any questions in the conversation. ONLY output the structured summary."].

Definition SUMMARIZATION_PROMPT : jsstr := text_lines
  ["The messages above are a conversation to summarize. Create a structured context checkpoint summary that another LLM will use to continue the work.";
   ""; "Use this EXACT format:"; ""; "## Goal"; "[What is the user trying to accomplish? Can be multiple items if the session covers different tasks.]";
   ""; "## Constraints & Preferences"; "- [Any constraints, preferences, or requirements mentioned by user]"; "- [Or ~(none)~ if none were mentioned]";
   ""; "## Progress"; "### Done"; "- [x] [Completed tasks/changes]"; ""; "### In Progress"; "- [ ] [Current work]"; ""; "### Blocked"; "- [Issues preventing progress, if any]";
   ""; "## Key Decisions"; "- **[Decision]**: [Brief rationale]"; ""; "## Next Steps"; "1. [Ordered list of what should happen next]";
   ""; "## Critical Context"; "- [Any data, examples, or references needed to continue]"; "- [Or ~(none)~ if not applicable]";
   ""; "Keep each section concise. Preserve exact file paths, function names, and error messages."].

Definition UPDATE_SUMMARIZATION_PROMPT : jsstr := text_lines
  ["The messages above are NEW conversation messages to incorporate into the existing summary provided in <previous-summary> tags.";
   ""; "Update the existing structured summary with new information. RULES:"; "- PRESERVE all existing information from the previous summary";
   "- ADD new progress, decisions, and context from the new messages"; "- UPDATE the Progress section: move items from ~In Progress~ to ~Done~ when completed";
   "- UPDATE ~Next Steps~ based on what was accomplished"; "- PRESERVE exact file paths, function names, and error messages"; "- If something is no longer relevant, you may remove it";
   ""; "Use this EXACT format:"; ""; "## Goal"; "[Preserve existing goals, add new ones if the task expanded]";
   ""; "## Constraints & Preferences"; "- [Preserve existing, add new ones discovered]";
   ""; "## Progress"; "### Done"; "- [x] [Include previously done items AND newly completed items]"; ""; "### In Progress"; "- [ ] [Current work - update based on progress]";
   ""; "### Blocked"; "- [Current blockers - remove if resolved]"; ""; "## Key Decisions"; "- **[Decision]**: [Brief rationale] (preserve all previous, add new)";
   ""; "## Next Steps"; "1. [Update based on current state]"; ""; "## Critical Context"; "- [Preserve important context, add new if needed]";
   ""; "Keep each section concise. Preserve exact file paths, function names, and error messages."].

Definition TURN_PREFIX_SUMMARIZATION_PROMPT : jsstr := text_lines
  ["This is the PREFIX of a turn that was too large to keep. The SUFFIX (recent work) is retained.";
   ""; "Summarize the prefix to provide context for the retained suffix:"; ""; "## Original Request"; "[What did the user ask for in this turn?]";
   ""; "## Early Progress"; "- [Key decisions and work done in the prefix]"; ""; "## Context for Suffix"; "- [Information needed to understand the retained recent work]";
   ""; "Be concise. Focus on what's needed to understand the kept suffix."].

(** ** Calls of the model *)

Record SummaryModel := mkSummaryModel {
  sm_maxTokens : Z;
  sm_reasoning : bool;
  sm_contextWindow : Z;
}.

(** The request: a system prompt and one message of the user, with the options. *)
Record SummaryRequest := mkSummaryRequest {
  sr_systemPrompt : jsstr;
  sr_prompt : jsstr;
  sr_maxTokens : Z;
  sr_reasoning : option string;
  sr_cacheRetention : string;
}.

Inductive summary_error : Type :=
  | SummaryAborted (message : string)
  | SummarizationFailed (message : string).

(** What the calls of the model give, by their number and their request. *)
Abbreviation SummaryEnv := (nat -> SummaryRequest -> RetryEnv).

(** A call is started with its request; then come the events of its attempts. *)
Inductive SummaryEvent : Type :=
  | Asked (call : nat) (request : SummaryRequest)
  | Retried (event : RetryEvent).

(** Computations that call the model, with a trace. *)
Definition asking (A : Type) : Type := list SummaryEvent * result retry_error A.
#[export] Instance asking_ret : MRet asking := fun A a => ([], Ok a).
#[export] Instance asking_bind : MBind asking := fun A B f m =>
  match m with
  | (t, Ok a) => let '(t', r) := f a in (t ++ t', r)
  | (t, Err e) => (t, Err e)
  end.

Section generate.
Context (show_number : jsnum -> string).
Context (models : SummaryEnv) (model : SummaryModel) (retry : option RetryPolicy).

(** A number in JSON text and in a template string: [Number.prototype.toString]. *)
Definition numbers (n : jsnum) : text := chars (show_number n).

Definition completeSimpleWithRetries (call : nat) (systemPrompt prompt : jsstr) (maxTokens : Z) (reasoning : option string) : asking AssistantMessage :=
  let request := mkSummaryRequest systemPrompt prompt maxTokens reasoning "none" in
  let '(attempts, response) := retryAssistantCall (models call request) retry in
  (Asked call request :: map Retried attempts, response).

(** [Math.min(limit, model.maxTokens > 0 ? model.maxTokens : Infinity)] *)
Definition token_limit (limit : Z) : Z := if 0 <? sm_maxTokens model then Z.min limit (sm_maxTokens model) else limit.

Definition reasoning_option (thinkingLevel : option string) : option string :=
  if sm_reasoning model then
    match truthy_str thinkingLevel with Some level => if String.eqb level "off" then None else Some level | None => None end
  else None.

Definition conversation_text (messages : list AgentMessage) : jsstr :=
  js "<conversation>" ++ [10] ++ serializeConversation numbers (convertToLlm show_number messages) ++ [10] ++ js "</conversation>" ++ [10; 10].

(** What the response says, or the error of [what]. *)
Definition summary_outcome (what failure : string) (response : AssistantMessage) : result summary_error (string * Usage) :=
  let message default_ := default default_ (truthy_str (am_errorMessage response)) in
  match am_stopReason response with
  | SRaborted => Err (SummaryAborted (message what))
  | SRerror => Err (SummarizationFailed (failure +:+ ": " +:+ message "Unknown error"))
  | _ => Ok (contentText (Blocks (am_content response)) NL, am_usage response)
  end.

(** [Math.floor(0.8 * reserveTokens)] is the quotient: the rounded product of an integer below
    2^50 has the floor of the exact one. *)
Definition generateSummaryWithUsage (call : nat) (currentMessages : list AgentMessage) (reserveTokens : Z)
    (customInstructions previousSummary thinkingLevel : option string) : asking (result summary_error (string * Usage)) :=
  let maxTokens := token_limit (4 * reserveTokens / 5) in
  let basePrompt := match truthy_str previousSummary with Some _ => UPDATE_SUMMARIZATION_PROMPT | None => SUMMARIZATION_PROMPT end in
  let basePrompt := match truthy_str customInstructions with
                    | Some instructions => basePrompt ++ [10; 10] ++ js "Additional focus: " ++ units instructions
                    | None => basePrompt
                    end in
  let promptText := conversation_text currentMessages in
  let promptText := match truthy_str previousSummary with
                    | Some summary => promptText ++ js "<previous-summary>" ++ [10] ++ units summary ++ [10] ++ js "</previous-summary>" ++ [10; 10]
                    | None => promptText
                    end in
  response ← completeSimpleWithRetries call SUMMARIZATION_SYSTEM_PROMPT (promptText ++ basePrompt) maxTokens (reasoning_option thinkingLevel);
  mret (summary_outcome "Summarization aborted" "Summarization failed" response).

Definition generateSummary (currentMessages : list AgentMessage) (reserveTokens : Z)
    (customInstructions previousSummary thinkingLevel : option string) : asking (result summary_error string) :=
  outcome ← generateSummaryWithUsage 0 currentMessages reserveTokens customInstructions previousSummary thinkingLevel;
  mret (match outcome with Ok (text, _) => Ok text | Err e => Err e end).

Definition generateTurnPrefixSummary (call : nat) (messages : list AgentMessage) (reserveTokens : Z) (thinkingLevel : option string)
    : asking (result summary_error (string * Usage)) :=
  let maxTokens := token_limit (reserveTokens / 2) in
  response ← completeSimpleWithRetries call SUMMARIZATION_SYSTEM_PROMPT (conversation_text messages ++ TURN_PREFIX_SUMMARIZATION_PROMPT) maxTokens
    (reasoning_option thinkingLevel);
  mret (summary_outcome "Turn prefix summarization aborted" "Turn prefix summarization failed" response).

(** ** [compact] *)

Definition add_optional (first second : option jsnum) : option jsnum :=
  match first, second with None, None => None | _, _ => Some (num_add (default (JInt 0) first) (default (JInt 0) second)) end.

Definition combineUsage (first second : Usage) : Usage :=
  mkUsage (num_add (u_input first) (u_input second)) (num_add (u_output first) (u_output second))
    (num_add (u_cacheRead first) (u_cacheRead second)) (num_add (u_cacheWrite first) (u_cacheWrite second))
    (add_optional (u_cacheWrite1h first) (u_cacheWrite1h second)) (add_optional (u_reasoning first) (u_reasoning second))
    (num_add (u_totalTokens first) (u_totalTokens second))
    (mkCost (num_add (cost_input (u_cost first)) (cost_input (u_cost second))) (num_add (cost_output (u_cost first)) (cost_output (u_cost second)))
      (num_add (cost_cacheRead (u_cost first)) (cost_cacheRead (u_cost second))) (num_add (cost_cacheWrite (u_cost first)) (cost_cacheWrite (u_cost second)))
      (num_add (cost_total (u_cost first)) (cost_total (u_cost second)))).

Record CompactResult := mkCompactResult {
  cr_summary : string;
  cr_tokensBefore : jsnum;
  cr_usage : Usage;
  cr_retainedTail : list AgentMessage;
  cr_details : FileLists;
}.

(** The details as the object an entry stores. *)
Definition js_details (files : FileLists) : jstree :=
  JObj [("readFiles", JArr (map JStr (readFiles files))); ("modifiedFiles", JArr (map JStr (modifiedFiles files)))].

Definition split_summary (history prefix : string) : string :=
  history +:+ NL +:+ NL +:+ "---" +:+ NL +:+ NL +:+ "**Turn Context (split turn):**" +:+ NL +:+ NL +:+ prefix.

(** The two branches of [compact] that ask for a summary. *)
Definition summarize (p : CompactionPreparation) (customInstructions thinkingLevel : option string) : asking (result summary_error (string * Usage)) :=
  let reserveTokens := set_reserveTokens (prep_settings p) in
  let history call := generateSummaryWithUsage call (prep_messagesToSummarize p) reserveTokens customInstructions (prep_previousSummary p) thinkingLevel in
  if prep_isSplitTurn p && negb (bool_decide (length (prep_turnPrefixMessages p) = 0%nat)) then
    historyResult ←
      match prep_messagesToSummarize p with
      | [] => mret (Ok ("No prior history.", None))
      | _ => outcome ← history 0%nat; mret (match outcome with Ok (text, usage) => Ok (text, Some usage) | Err e => Err e end)
      end;
    match historyResult with
    | Err e => mret (Err e)
    | Ok (historyText, historyUsage) =>
        turnPrefixResult ← generateTurnPrefixSummary 1 (prep_turnPrefixMessages p) reserveTokens thinkingLevel;
        mret (match turnPrefixResult with
              | Err e => Err e
              | Ok (text, usage) =>
                  Ok (split_summary historyText text, match historyUsage with Some first => combineUsage first usage | None => usage end)
              end)
    end
  else history 0%nat.

Definition compact (p : CompactionPreparation) (customInstructions thinkingLevel : option string) : asking (result summary_error CompactResult) :=
  outcome ← summarize p customInstructions thinkingLevel;
  mret (match outcome with
        | Err e => Err e
        | Ok (summary, usage) =>
            let files := computeFileLists (prep_fileOps p) in
            Ok (mkCompactResult (summary +:+ formatFileOperations files) (prep_tokensBefore p) usage (prep_retainedTail p) files)
        end).
End generate.

(** * Summaries of abandoned branches:
    [packages/agent/src/harness/compaction/branch-summarization.ts]. *)
From S2P Require Import SessionState SessionInvariant SessionReads SessionStore Session CompactionFacts.

(** ** The entries of the branch *)

Record CollectEntriesResult := mkCollected {
  ce_entries : list Entry;
  ce_commonAncestorId : option string;
}.

Section collect.
Context {S : Type} `{SessionStorage S}.

(** The loop up from [current]; [None] when it has not ended within the fuel. *)
Fixpoint collect_up (fuel : nat) (s : S) (commonAncestorId current : option string) : result session_error (option (list Entry)) :=
  match truthy_str current with
  | None => Ok (Some [])
  | Some id =>
      if bool_decide (Some id = commonAncestorId) then Ok (Some [])
      else match fuel with
           | O => Ok None
           | Datatypes.S fuel' =>
               entry ← or_throw (SessionError invalid_entry ("Entry " +:+ id +:+ " not found")) (storedEntry id s);
               rest ← collect_up fuel' s commonAncestorId (e_parentId entry);
               Ok (option_map (cons entry) rest)
           end
  end.

Definition branch_from (id : string) (s : S) : result session_error (list Entry) :=
  session_findEntriesOnBranch (mkEntryQuery None None None None None) (mkBranchBounds (Some id) None None) s.

(** The branch of the old leaf has an entry for each round of the loop. *)
Definition collectEntriesForBranchSummary (oldLeafId : option string) (targetId : string) (s : S)
    : result session_error (option CollectEntriesResult) :=
  match truthy_str oldLeafId with
  | None => Ok (Some (mkCollected [] None))
  | Some old =>
      oldPath ← branch_from old s;
      targetPath ← branch_from targetId s;
      let commonAncestorId := e_id <$> List.find (fun entry => bool_decide (e_id entry ∈ map e_id oldPath)) targetPath in
      entries ← collect_up (length oldPath) s commonAncestorId (Some old);
      Ok (option_map (fun entries => mkCollected (rev entries) commonAncestorId) entries)
  end.
End collect.

(** ** The messages of the summary *)

(** [getMessageFromEntry] of this file: tool results are left out. *)
Definition branch_message (entry : Entry) : option AgentMessage :=
  match e_body entry with
  | BMessage (MToolResult _) _ => None
  | BMessage message _ => Some message
  | BBranchSummary fromId summary _ _ => Some (createBranchSummaryMessage summary fromId (JInt (e_timestamp entry)))
  | BCompaction summary _ tokensBefore _ _ => Some (createCompactionSummaryMessage summary tokensBefore (JInt (e_timestamp entry)))
  | _ => None
  end.

Record BranchPreparation := mkBranchPreparation {
  bp_messages : list AgentMessage;
  bp_fileOps : FileOperations;
  bp_totalTokens : Z;
}.

Definition is_summary_entry (entry : Entry) : bool :=
  match entry_type entry with Tcompaction | Tbranch_summary => true | _ => false end.

(** The files of the branch summaries among the entries. *)
Definition branch_details (entries : list Entry) : FileOperations :=
  foldl (fun o entry => if bool_decide (entry_type entry = Tbranch_summary) then add_details (entry_details entry) o else o) createFileOps entries.

Section prepare.
Context (number_text : jsnum -> text).

(** The loop from the last entry on; [totalTokens < tokenBudget * 0.9] in integers. *)
Fixpoint take_branch (rev_entries : list Entry) (tokenBudget : Z) (p : BranchPreparation) : BranchPreparation :=
  match rev_entries with
  | [] => p
  | entry :: rest =>
      match branch_message entry with
      | None => take_branch rest tokenBudget p
      | Some message =>
          let fileOps := extractFileOpsFromMessage message (bp_fileOps p) in
          let tokens := estimateTokens number_text message in
          let added := mkBranchPreparation (message :: bp_messages p) fileOps (bp_totalTokens p + tokens) in
          if (0 <? tokenBudget) && (tokenBudget <? bp_totalTokens p + tokens) then
            if is_summary_entry entry && (10 * bp_totalTokens p <? 9 * tokenBudget) then added
            else mkBranchPreparation (bp_messages p) fileOps (bp_totalTokens p)
          else take_branch rest tokenBudget added
      end
  end.

Definition prepareBranchEntries (entries : list Entry) (tokenBudget : Z) : BranchPreparation :=
  take_branch (rev entries) tokenBudget (mkBranchPreparation [] (branch_details entries) 0).
End prepare.

(** ** The summary *)

Definition BRANCH_SUMMARY_PREAMBLE : string :=
  "The user explored a different conversation branch before returning here." +:+ NL +:+ "Summary of that exploration:" +:+ NL +:+ NL.

Definition BRANCH_SUMMARY_PROMPT : jsstr := text_lines
  ["Create a structured summary of this conversation branch for context when returning later."; ""; "Use this EXACT format:"; "";
   "## Goal"; "[What was the user trying to accomplish in this branch?]"; ""; "## Constraints & Preferences"; "- [Any constraints, preferences, or requirements mentioned]";
   "- [Or ~(none)~ if none were mentioned]"; ""; "## Progress"; "### Done"; "- [x] [Completed tasks/changes]"; ""; "### In Progress"; "- [ ] [Work that was started but not finished]"; "";
   "### Blocked"; "- [Issues preventing progress, if any]"; ""; "## Key Decisions"; "- **[Decision]**: [Brief rationale]"; "";
   "## Next Steps"; "1. [What should happen next to continue this work]"; ""; "Keep each section concise. Preserve exact file paths, function names, and error messages."].

Record BranchSummaryResult := mkBranchSummary {
  bsr_summary : string;
  bsr_usage : option Usage;
  bsr_files : FileLists;
}.

Record GenerateBranchSummaryOptions := mkBranchOptions {
  bo_customInstructions : option string;
  bo_replaceInstructions : bool;
  bo_reserveTokens : option Z;
}.

Definition branch_instructions (options : GenerateBranchSummaryOptions) : jsstr :=
  match truthy_str (bo_customInstructions options) with
  | Some custom =>
      if bo_replaceInstructions options then units custom
      else BRANCH_SUMMARY_PROMPT ++ [10; 10] ++ js "Additional focus: " ++ units custom
  | None => BRANCH_SUMMARY_PROMPT
  end.

Section branch_summary.
Context (show_number : jsnum -> string).
Context (models : SummaryEnv) (model : SummaryModel) (retry : option RetryPolicy).

Definition generateBranchSummary (entries : list Entry) (options : GenerateBranchSummaryOptions) : asking (result summary_error BranchSummaryResult) :=
  let contextWindow := if sm_contextWindow model =? 0 then 128000 else sm_contextWindow model in
  let tokenBudget := contextWindow - default 16384 (bo_reserveTokens options) in
  let p := prepareBranchEntries (numbers show_number) entries tokenBudget in
  match bp_messages p with
  | [] => mret (Ok (mkBranchSummary "No content to summarize" None (mkFileLists [] [])))
  | _ =>
      response ← completeSimpleWithRetries models retry 0 SUMMARIZATION_SYSTEM_PROMPT
        (conversation_text show_number (bp_messages p) ++ branch_instructions options) 2048 None;
      mret (match summary_outcome "Branch summary aborted" "Branch summary failed" response with
            | Err e => Err e
            | Ok (text, usage) =>
                let files := computeFileLists (bp_fileOps p) in
                let summary := BRANCH_SUMMARY_PREAMBLE +:+ text +:+ formatFileOperations files in
                Ok (mkBranchSummary (default "No summary generated" (truthy_str (Some summary))) (Some usage) files)
            end)
  end.
End branch_summary.

(** * The branch that a navigation leaves: where it parts from the target's branch. *)
Local Open Scope nat_scope.

(** ** Chains *)

Lemma chain_starts byId e l : chain byId e l -> exists l', l = e :: l'.
Proof. destruct 1; eauto. Qed.

Lemma chain_unique byId e l1 l2 : chain byId e l1 -> chain byId e l2 -> l1 = l2.
Proof.
  intros H1. revert l2. induction H1 as [e Hp|e p e' l Hp He' _ IH]; intros l2 H2; inversion H2; subst; try congruence. f_equal. apply IH. congruence.
Qed.

Lemma chain_split byId e l x : chain byId e l -> x ∈ l -> exists l1 l2, l = l1 ++ l2 /\ chain byId x l2.
Proof.
  induction 1 as [e Hp|e p e' l Hp He' Hc IH]; intros Hx.
  - apply list_elem_of_singleton in Hx as ->. exists [], [e]. split; [done|by constructor].
  - apply elem_of_cons in Hx as [->|Hx]; [exists [], (e :: l); split; [done|by econstructor]|].
    destruct (IH Hx) as (l1 & l2 & -> & Hl2). by exists (e :: l1), l2.
Qed.

(** ** The in-memory session *)

Section branch.
Context (s : InMemorySessionStorage) (Hok : state_ok (im_state s)).
Abbreviation byId := (entriesById (im_state s)).
Hypothesis ids : forall e, e ∈ entries (im_state s) -> e_id e <> "".

Lemma branch_from_chain id e l : byId !! id = Some e -> chain byId e l -> branch_from id s = Ok l.
Proof.
  intros He Hc. unfold branch_from, session_findEntriesOnBranch, queryBranchEntries. cbn [q_limit q_cursor assertValidLimit assertValidCursor mbind result_bind b_start].
  unfold with_limit. rewrite decide_True by done. cbn [storedBranch in_memory_storage].
  rewrite (findEntriesOnBranch_ok _ _ _ e l) by done. f_equal. rewrite decide_False by done. clear.
  change (take_limit _ ?l) with l. induction l as [|x l IH]; [done|]. cbn [take_until]. change (reachedBound _ x) with false. cbn [List.filter].
  change (matchesEntryQuery _ x) with true. by rewrite IH.
Qed.

Lemma chain_member e l x : byId !! e_id e = Some e -> chain byId e l -> x ∈ l -> byId !! e_id x = Some x /\ e_id x <> "".
Proof.
  intros He Hc Hx. assert (e ∈ entries (im_state s)) as Hin by by apply (ok_index _ Hok) in He as [? _].
  destruct (chain_entries _ Hok e l Hin Hc) as [Hall _]. rewrite Forall_forall in Hall. destruct (Hall x Hx) as [Hxe _]. split; [by apply entry_by_id|by apply ids].
Qed.

Lemma truthy_id e l x : byId !! e_id e = Some e -> chain byId e l -> x ∈ l -> truthy_str (Some (e_id x)) = Some (e_id x).
Proof. intros He Hc Hx. destruct (chain_member e l x He Hc Hx) as [_ Hid]. cbn. destruct (String.eqb (e_id x) "") eqn:H; [by apply String.eqb_eq in H|done]. Qed.

(** The loop ends at the common ancestor, or behind the root. *)
Lemma collect_up_chain common e l fuel : byId !! e_id e = Some e -> chain byId e l -> length l <= fuel ->
  match common with
  | None => collect_up fuel s None (Some (e_id e)) = Ok (Some l)
  | Some x => forall l1 l2, l = l1 ++ x :: l2 -> (forall y, y ∈ l1 -> e_id y <> e_id x) -> collect_up fuel s (Some (e_id x)) (Some (e_id e)) = Ok (Some l1)
  end.
Proof.
  intros He Hc. revert fuel. induction Hc as [e Hp|e p e' l Hp He' Hc IH]; intros fuel Hf; cbn in Hf.
  - assert (truthy_str (Some (e_id e)) = Some (e_id e)) as Ht by (eapply truthy_id; [done|by constructor|by left]). destruct fuel as [|fuel]; [lia|].
    destruct common as [x|].
    + intros l1 l2 Heq Hno. destruct l1 as [|y l1]; cbn in Heq; [|injection Heq as _ Heq; by destruct l1]. injection Heq as <- _.
      cbn [collect_up]. rewrite Ht. by rewrite bool_decide_eq_true_2.
    + cbn [collect_up]. rewrite Ht, bool_decide_eq_false_2 by done. cbn [storedEntry in_memory_storage]. unfold getEntry. rewrite He. cbn [or_throw mbind result_bind]. rewrite Hp.
      destruct fuel; done.
  - assert (chain byId e (e :: l)) as Hce by by econstructor.
    assert (truthy_str (Some (e_id e)) = Some (e_id e)) as Ht by (eapply truthy_id; [done|done|by left]). destruct fuel as [|fuel]; [lia|].
    destruct (chain_starts _ _ _ Hc) as [l' Hl']. assert (byId !! e_id e' = Some e') as He'' by (apply (chain_member e (e :: l)); [done|done|rewrite Hl'; right; by left]).
    assert (p = e_id e') as -> by (pose proof (proj2 (proj1 (ok_index _ Hok p e') He')); done).
    specialize (IH He'' fuel ltac:(lia)). destruct common as [x|].
    + intros l1 l2 Heq Hno. destruct l1 as [|y l1]; cbn in Heq; injection Heq as <- Heq.
      * cbn [collect_up]. rewrite Ht. by rewrite bool_decide_eq_true_2.
      * cbn [collect_up]. rewrite Ht, bool_decide_eq_false_2 by (intros [= H]; by apply (Hno e); [left|]).
        cbn [storedEntry in_memory_storage]. unfold getEntry. rewrite He. cbn [or_throw mbind result_bind]. rewrite Hp.
        rewrite (IH l1 l2 Heq) by (intros y Hy; apply Hno; by right). done.
    + cbn [collect_up]. rewrite Ht, bool_decide_eq_false_2 by done. cbn [storedEntry in_memory_storage]. unfold getEntry. rewrite He. cbn [or_throw mbind result_bind]. rewrite Hp.
      rewrite IH. done.
Qed.

(** The first entry of a list that is on the other path. *)
Lemma find_common (po pt : list Entry) : match List.find (fun entry => bool_decide (e_id entry ∈ map e_id po)) pt with
  | Some x => exists l1 l2, pt = l1 ++ x :: l2 /\ e_id x ∈ map e_id po /\ forall y, y ∈ l1 -> ~ e_id y ∈ map e_id po
  | None => forall y, y ∈ pt -> ~ e_id y ∈ map e_id po
  end.
Proof.
  induction pt as [|e pt IH]; cbn [List.find]; [by intros y ?%elem_of_nil|]. case_bool_decide as He.
  - exists [], pt. split; [done|]. split; [done|]. by intros y ?%elem_of_nil.
  - destruct (List.find _ pt) as [x|].
    + destruct IH as (l1 & l2 & -> & Hx & Hno). exists (e :: l1), l2. split; [done|]. split; [done|]. intros y [->|Hy]%elem_of_cons; [done|by apply Hno].
    + intros y [->|Hy]%elem_of_cons; [done|by apply IH].
Qed.

Lemma collect_spec old target eo et po pt :
  byId !! old = Some eo -> byId !! target = Some et -> chain byId eo po -> chain byId et pt ->
  exists shared branch rest, collectEntriesForBranchSummary (Some old) target s = Ok (Some (mkCollected branch (e_id <$> last shared))) /\
    rev po = shared ++ branch /\ rev pt = shared ++ rest /\ (forall x y, x ∈ branch -> y ∈ rest -> e_id x <> e_id y).
Proof.
  intros Ho Ht Hco Hct. assert (old = e_id eo /\ target = e_id et) as [-> ->].
  { split; [pose proof (proj2 (proj1 (ok_index _ Hok old eo) Ho))|pose proof (proj2 (proj1 (ok_index _ Hok target et) Ht))]; done. }
  destruct (chain_starts _ _ _ Hco) as [po' Hpo']. unfold collectEntriesForBranchSummary.
  rewrite (truthy_id eo po eo) by (done || (rewrite Hpo'; by left)). rewrite (branch_from_chain (e_id eo) eo po), (branch_from_chain (e_id et) et pt) by done. cbn [mbind result_bind].
  pose proof (find_common po pt) as Hfind. destruct (List.find _ pt) as [x|].
  - destruct Hfind as (t1 & t2 & -> & (x' & Hid & Hx')%list_elem_of_fmap & Hno).
    assert (x' = x) as ->.
    { destruct (chain_member eo po x' Ho Hco Hx') as [H1 _]. destruct (chain_member et (t1 ++ x :: t2) x Ht Hct) as [H2 _]; [apply elem_of_app; right; by left|]. rewrite Hid in H2. congruence. }
    destruct (chain_split _ _ _ x Hco Hx') as (o1 & o2 & -> & Hc1). destruct (chain_split _ _ _ x Hct) as (o3 & o4 & Heq & Hc2); [apply elem_of_app; right; by left|].
    pose proof (chain_unique _ _ _ _ Hc1 Hc2) as ->. destruct (chain_starts _ _ _ Hc1) as [t3 ->].
    assert (forall y, y ∈ o1 -> e_id y <> e_id x) as Ho1.
    { intros y Hy Heq'. pose proof (chain_ids _ Hok eo _ ltac:(by apply (ok_index _ Hok) in Ho as [? _]) Hco) as Hnd. rewrite map_app in Hnd. apply NoDup_app in Hnd as (_ & Hd & _).
      apply (Hd (e_id y)); [apply list_elem_of_fmap; by exists y|]. cbn. rewrite Heq'. by left. }
    pose proof (collect_up_chain (Some x) eo (o1 ++ x :: t3) (length (o1 ++ x :: t3)) Ho Hco (le_n _) o1 t3 eq_refl Ho1) as Hcol.
    change (e_id <$> Some x) with (Some (e_id x)). rewrite Hcol. cbn [mbind result_bind option_map].
    assert (t1 ++ x :: t2 = t1 ++ x :: t3 /\ o3 = t1) as [Heq3 ->].
    { pose proof (chain_ids _ Hok et _ ltac:(by apply (ok_index _ Hok) in Ht as [? _]) Hct) as Hnd.
      assert (forall y, y ∈ t1 -> y <> x) as H1 by (intros y Hy ->; apply (Hno x Hy); apply list_elem_of_fmap; by exists x).
      assert (forall y, y ∈ o3 -> y <> x) as H3.
      { intros y Hy ->. rewrite Heq, map_app in Hnd. apply NoDup_app in Hnd as (_ & Hd & _). apply (Hd (e_id x)); [apply list_elem_of_fmap; by exists x|]. cbn. by left. }
      clear -Heq H1 H3. revert o3 Heq H3. induction t1 as [|a t1 IH]; intros [|b o3] Heq H3; cbn in *; [by injection Heq as ->| | |].
      - injection Heq as <- _. exfalso. by apply (H3 x); [left|].
      - injection Heq as -> _. exfalso. by apply (H1 x); [left|].
      - injection Heq as -> Heq. destruct (IH ltac:(intros y Hy; apply H1; by right) o3 Heq ltac:(intros y Hy; apply H3; by right)) as [-> ->]. done. }
    exists (rev (x :: t3)), (rev o1), (rev t1). split_and!.
    + do 3 f_equal. cbn [rev]. by rewrite last_snoc.
    + by rewrite rev_app_distr.
    + by rewrite Heq3, rev_app_distr.
    + intros a b Ha Hb Hab. rewrite elem_of_rev in Ha. rewrite elem_of_rev in Hb. apply (Hno b Hb). rewrite <- Hab. apply list_elem_of_fmap. exists a. split; [done|]. apply elem_of_app. by left.
  - pose proof (collect_up_chain None eo po (length po) Ho Hco (le_n _)) as Hcol. cbn [fmap option_fmap option_map]. rewrite Hcol. cbn [mbind result_bind option_map].
    exists [], (rev po), (rev pt). split_and!; [done|done|done|]. intros a b Ha Hb Hab. rewrite elem_of_rev in Ha. rewrite elem_of_rev in Hb. apply (Hfind b Hb). rewrite <- Hab. apply list_elem_of_fmap. by exists a.
Qed.
End branch.
