(* ===== verification/SummaryTheorems.v ===== *)
(** What summaries carry over: the files across compactions, and the entries of a branch that
    was left. *)
From S2P Require Import Prelude JsNumber JsText JsTree JsObject JsData Messages SessionTypes SessionState SessionInvariant SessionReads SessionStore Session SessionTheorems SessionContext JsonText MessageViews Retry Compaction CompactionFacts CompactionTheorems Summaries.
Local Open Scope nat_scope.

(** ** Computations with a trace *)

Lemma asking_bind_Ok {A B} (m : asking A) (f : A -> asking B) t b : mbind f m = (t, Ok b) ->
  exists t1 a t2, m = (t1, Ok a) /\ f a = (t2, Ok b) /\ t = t1 ++ t2.
Proof.
  destruct m as [t1 [a|e]]; cbn; [|done]. destruct (f a) as [t2 r] eqn:Hf. intros [= <- ->]. by exists t1, a, t2.
Qed.

Section compact.
Context (show_number : jsnum -> string) (models : SummaryEnv) (model : SummaryModel) (retry : option RetryPolicy).

Lemma compact_Ok p custom level trace r : compact show_number models model retry p custom level = (trace, Ok (Ok r)) ->
  cr_retainedTail r = prep_retainedTail p /\ cr_tokensBefore r = prep_tokensBefore p /\ cr_details r = computeFileLists (prep_fileOps p) /\
  exists text usage, summarize show_number models model retry p custom level = (trace, Ok (Ok (text, usage))) /\ cr_usage r = usage /\
    cr_summary r = text +:+ formatFileOperations (computeFileLists (prep_fileOps p)).
Proof.
  unfold compact. intros (t1 & outcome & t2 & Hs & Hret & ->)%asking_bind_Ok. cbn in Hret. injection Hret as <- Hr. rewrite app_nil_r.
  destruct outcome as [[text usage]|]; [|done]. injection Hr as <-. split_and!; [done..|]. by exists text, usage.
Qed.
End compact.

(** ** Files across compactions *)

Lemma details_read files key : detail_files (Some (js_details files)) key =
  if decide (key = "readFiles") then readFiles files else if decide (key = "modifiedFiles") then modifiedFiles files else [].
Proof.
  assert (forall l, omap (fun t => match t with JStr f => Some f | _ => None end) (map JStr l) = l) as Hl by (induction l as [|f l IH]; cbn; [done|by rewrite IH]).
  unfold js_details. cbn [detail_files JsMap.get]. repeat case_decide; rewrite ?Hl; done.
Qed.

Lemma compacted_path path c more : entry_type c = Tcompaction -> Forall not_compaction more -> last_compaction (rev (path ++ c :: more)) [] = Some (c, more).
Proof.
  intros Hc Hm. rewrite rev_app_distr. cbn [rev]. rewrite <- app_assoc. cbn [app]. rewrite last_compaction_found; [by rewrite rev_involutive, app_nil_r| |done].
  apply Forall_forall. intros e He. rewrite elem_of_rev in He. rewrite Forall_forall in Hm. by apply Hm.
Qed.

(** The files of a summary are among the details the next one starts from. *)
Lemma files_carried files summarized : let files' := computeFileLists (extract_all summarized (add_details (Some (js_details files)) createFileOps)) in
  (forall f, f ∈ modifiedFiles files -> f ∈ modifiedFiles files') /\ (forall f, f ∈ readFiles files -> f ∈ readFiles files' \/ f ∈ modifiedFiles files').
Proof.
  cbn zeta. set (details := Some _).
  assert (ops_ok (extract_all summarized (add_details details createFileOps))) as Hok by (apply extract_all_ok, add_details_ok; split_and!; constructor).
  destruct (file_lists_spec _ Hok) as (_ & _ & Hmod & Hread). split.
  - intros f Hf. apply Hmod. right. apply (extract_all_elem summarized f). left. apply (add_details_elem details createFileOps f). right.
    subst details. rewrite details_read. by rewrite decide_False, decide_True.
  - intros f Hf. destruct (decide (f ∈ modifiedFiles (computeFileLists (extract_all summarized (add_details details createFileOps))))) as [|Hn]; [by right|left].
    apply Hread. split; [|done]. apply (extract_all_elem summarized f). left. apply (add_details_elem details createFileOps f). right.
    subst details. rewrite details_read. by rewrite decide_True.
Qed.

(** ** What the model is asked *)

(** The prompt for the summary of a history: the conversation, the summary before it, and the
    instructions that go with them. *)
Definition history_prompt show_number (messages : list AgentMessage) (previous : option string) (custom : option string) : jsstr :=
  conversation_text show_number messages ++
  match previous with
  | Some summary => js "<previous-summary>" ++ [10]%Z ++ units summary ++ [10]%Z ++ js "</previous-summary>" ++ [10; 10]%Z ++ UPDATE_SUMMARIZATION_PROMPT
  | None => SUMMARIZATION_PROMPT
  end ++
  match truthy_str custom with Some instructions => [10; 10]%Z ++ js "Additional focus: " ++ units instructions | None => [] end.

Lemma generate_asks show_number models model retry messages reserve custom previous level :
  exists request rest outcome, generateSummaryWithUsage show_number models model retry 0 messages reserve custom previous level = (Asked 0 request :: rest, outcome) /\
    sr_prompt request = history_prompt show_number messages (truthy_str previous) custom.
Proof.
  unfold generateSummaryWithUsage, completeSimpleWithRetries, history_prompt. cbv zeta.
  destruct (retryAssistantCall _ _) as [attempts [response|e]]; cbn [mbind asking_bind]; (eexists _, _, _; split; [cbn [app]; reflexivity|]); cbn [sr_prompt];
    destruct (truthy_str previous), (truthy_str custom); rewrite ?app_nil_r; repeat (rewrite <- ?app_assoc; cbn [app]); reflexivity.
Qed.

(** The history before a split turn can be empty; then no summary of a history is asked for. *)
Definition asks_history (p : CompactionPreparation) : bool :=
  negb (prep_isSplitTurn p && negb (bool_decide (length (prep_turnPrefixMessages p) = 0))) || negb (bool_decide (length (prep_messagesToSummarize p) = 0)).

(** What a computation asks first. *)
Definition asks_first {A} (e : SummaryEvent) (m : asking A) : Prop := exists rest, m.1 = e :: rest.

Lemma asks_first_bind {A B} e (m : asking A) (f : A -> asking B) : asks_first e m -> asks_first e (m ≫= f).
Proof.
  intros [rest Hm]. unfold asks_first. destruct m as [t [a|x]]; cbn in *; subst; [|by eexists].
  destruct (f a) as [t' r]. by eexists.
Qed.

Lemma compact_asks show_number models model retry p custom level : asks_history p = true ->
  exists request, asks_first (Asked 0 request) (compact show_number models model retry p custom level) /\
    sr_prompt request = history_prompt show_number (prep_messagesToSummarize p) (truthy_str (prep_previousSummary p)) custom.
Proof.
  unfold asks_history. intros Ha.
  destruct (generate_asks show_number models model retry (prep_messagesToSummarize p) (set_reserveTokens (prep_settings p)) custom (prep_previousSummary p) level)
    as (request & rest & o & Hg & Hprompt).
  exists request. split; [|done]. apply asks_first_bind. unfold summarize. cbv zeta.
  destruct (prep_isSplitTurn p && _); cbn [negb orb] in Ha; [|rewrite Hg; by eexists].
  apply asks_first_bind. destruct (prep_messagesToSummarize p) as [|m ms]; [done|]. apply asks_first_bind. rewrite Hg. by eexists.
Qed.

(** C13: Compaction after compaction.  A compaction entry holds what the preparation retained; the
    next compaction of the branch summarizes and retains what it retained and the later
    entries.  Its first request gives the model the conversation to summarize with the summary of the
    entry, and asks to update that summary; the exception is a next compaction that has
    nothing to summarize but the start of a split turn, which asks about that alone (and loses the
    summary: [Summarized.previous_summary_lost]).  No file is forgotten: a modified file stays
    one, a file that was read is still listed, unless it was modified since. *)
Theorem files_accumulate show_number models model retry custom level path settings p trace r c more settings' p' :
  let prepare := prepareCompaction (numbers show_number) in
  prepare path settings = Some p ->
  compact show_number models model retry p custom level = (trace, Ok (Ok r)) ->
  e_body c = BCompaction (cr_summary r) (cr_retainedTail r) (cr_tokensBefore r) (Some (js_details (cr_details r))) (Some (cr_usage r)) ->
  Forall not_compaction more ->
  prepare (path ++ c :: more) settings' = Some p' ->
  (prep_messagesToSummarize p' ++ prep_turnPrefixMessages p' ++ prep_retainedTail p' = prep_retainedTail p ++ omap getMessageFromEntryForCompaction more) /\
  (exists text, cr_summary r = text +:+ formatFileOperations (computeFileLists (prep_fileOps p))) /\
  (forall models' model' retry' custom' level', asks_history p' = true ->
     exists request, asks_first (Asked 0 request) (compact show_number models' model' retry' p' custom' level') /\
       sr_prompt request = history_prompt show_number (prep_messagesToSummarize p') (truthy_str (Some (cr_summary r))) custom') /\
  (let files := computeFileLists (prep_fileOps p) in let files' := computeFileLists (prep_fileOps p') in
   (forall f, f ∈ modifiedFiles files -> f ∈ modifiedFiles files') /\
   (forall f, f ∈ readFiles files -> f ∈ readFiles files' \/ f ∈ modifiedFiles files')).
Proof.
  cbn zeta. intros Hp (Htail & _ & Hdetails & text & usage & _ & _ & Hsummary)%compact_Ok Hc Hmore Hp'.
  assert (last_compaction (rev (path ++ c :: more)) [] = Some (c, more)) as Hlast by (apply compacted_path; [unfold entry_type; by rewrite Hc|done]).
  rewrite <- (preparation_partition _ _ _ _ Hp'). destruct (preparation_spec _ _ _ _ Hp') as (k & _ & _ & _ & _ & _ & _ & _ & Hprev & Hops).
  rewrite Hlast in Hops. change ((fst <$> Some (c, more)) ≫= entry_details) with (entry_details c) in Hops. unfold entry_details in Hops. rewrite Hc, Hdetails in Hops.
  pose proof (files_carried (computeFileLists (prep_fileOps p)) (prep_messagesToSummarize p' ++ prep_turnPrefixMessages p')) as Hfiles. cbn zeta in Hfiles. rewrite <- Hops in Hfiles.
  split_and!.
  - unfold history, compactable_entries. rewrite Hlast, Hc, omap_app, virtual_messages. by rewrite Htail.
  - by exists text.
  - intros models' model' retry' custom' level' Hasks.
    destruct (compact_asks show_number models' model' retry' p' custom' level' Hasks) as (request & Ht & Hq).
    exists request. split; [done|]. rewrite Hq, Hprev. unfold previous_summary. by rewrite Hlast, Hc.
  - by apply Hfiles.
  - by apply Hfiles.
Qed.

(** ** Branches *)

(** The estimated tokens of messages. *)
Definition message_tokens (number_text : jsnum -> text) (messages : list AgentMessage) : Z := foldr (fun m acc => (estimateTokens number_text m + acc)%Z) 0%Z messages.

Lemma message_tokens_cons nt m l : message_tokens nt (m :: l) = (estimateTokens nt m + message_tokens nt l)%Z.
Proof. done. Qed.

(** The messages are the newest of the entries, and as many as fit: one more, from a summary, may
    exceed the budget when nine tenths of it are not used. *)
Definition fills_budget (nt : jsnum -> text) (entries : list Entry) (budget : Z) (p : BranchPreparation) : Prop :=
  exists skipped taken, entries = skipped ++ taken /\ bp_messages p = omap branch_message taken /\ bp_totalTokens p = message_tokens nt (bp_messages p) /\
    ((0 < budget)%Z -> (bp_totalTokens p <= budget)%Z \/
       exists m rest, bp_messages p = m :: rest /\ (message_tokens nt rest <= budget)%Z /\ (10 * message_tokens nt rest < 9 * budget)%Z /\
         exists e, e ∈ taken /\ branch_message e = Some m /\ is_summary_entry e = true) /\
    (forall m, last (omap branch_message skipped) = Some m -> (0 < budget < bp_totalTokens p + estimateTokens nt m)%Z).

Lemma take_branch_fills nt budget : forall rev_entries taken p, bp_messages p = omap branch_message taken -> bp_totalTokens p = message_tokens nt (bp_messages p) ->
  ((0 < budget)%Z -> (bp_totalTokens p <= budget)%Z) -> fills_budget nt (rev rev_entries ++ taken) budget (take_branch nt rev_entries budget p).
Proof.
  induction rev_entries as [|entry rest IH]; intros taken p Hm Ht Hb; cbn [take_branch rev].
  { exists [], taken. split_and!; [done|done|done|by left; apply Hb|by intros m]. }
  rewrite <- app_assoc. cbn [app]. destruct (branch_message entry) as [message|] eqn:He.
  2:{ apply (IH (entry :: taken)); [|done|done]. cbn [omap list_omap]. by rewrite He. }
  assert (forall p', bp_messages p' = message :: bp_messages p -> bp_messages p' = omap branch_message (entry :: taken)) as Hcons.
  { intros p' ->. cbn [omap list_omap]. by rewrite He, Hm. }
  destruct ((0 <? budget)%Z && (budget <? bp_totalTokens p + estimateTokens nt message)%Z) eqn:Hover.
  - apply andb_true_iff in Hover as [Hpos%Z.ltb_lt Hover%Z.ltb_lt]. pose proof (estimate_nonneg nt message) as Hnn.
    destruct (is_summary_entry entry && (10 * bp_totalTokens p <? 9 * budget)%Z) eqn:Hs.
    + apply andb_true_iff in Hs as [Hs Hnine%Z.ltb_lt]. exists (rev rest), (entry :: taken). cbn [bp_messages bp_totalTokens]. split_and!.
      * done.
      * by apply (Hcons (mkBranchPreparation (message :: bp_messages p) (bp_fileOps p) 0)).
      * rewrite message_tokens_cons, Ht. lia.
      * intros _. right. exists message, (bp_messages p). split; [done|]. rewrite <- Ht. split; [by apply Hb|]. split; [done|]. exists entry. split; [by left|done].
      * intros m _. pose proof (estimate_nonneg nt m). lia.
    + exists (rev rest ++ [entry]), taken. cbn [bp_messages bp_totalTokens]. split_and!; [by rewrite <- app_assoc|done|done|by left; apply Hb|].
      intros m Hlast. rewrite omap_app in Hlast. cbn [omap list_omap] in Hlast. rewrite He, last_snoc in Hlast. injection Hlast as <-. lia.
  - apply (IH (entry :: taken)); cbn [bp_messages bp_totalTokens].
    + by apply (Hcons (mkBranchPreparation (message :: bp_messages p) (bp_fileOps p) 0)).
    + rewrite message_tokens_cons, Ht. lia.
    + intros Hpos. apply andb_false_iff in Hover as [H%Z.ltb_ge|H%Z.ltb_ge]; lia.
Qed.

(** C14: The branch that is left.  On navigation the entries to summarize are those of the old
    branch behind the last entry it shares with the target's branch; of their messages the
    newest are taken, as many as fit the budget. *)
Theorem abandoned_branch number_text s old target eo et po pt budget :
  state_ok (im_state s) -> (forall e, e ∈ entries (im_state s) -> e_id e <> "") ->
  entriesById (im_state s) !! old = Some eo -> entriesById (im_state s) !! target = Some et ->
  chain (entriesById (im_state s)) eo po -> chain (entriesById (im_state s)) et pt ->
  exists shared branch rest, collectEntriesForBranchSummary (Some old) target s = Ok (Some (mkCollected branch (e_id <$> last shared))) /\
    rev po = shared ++ branch /\ rev pt = shared ++ rest /\ (forall x y, x ∈ branch -> y ∈ rest -> e_id x <> e_id y) /\
    fills_budget number_text branch budget (prepareBranchEntries number_text branch budget).
Proof.
  intros Hok Hids Ho Ht Hco Hct. destruct (collect_spec s Hok Hids old target eo et po pt Ho Ht Hco Hct) as (shared & branch & rest & Hc & H1 & H2 & H3).
  exists shared, branch, rest. split_and!; try done. unfold prepareBranchEntries. pose proof (take_branch_fills number_text budget (rev branch) []
    (mkBranchPreparation [] (branch_details branch) 0) eq_refl eq_refl) as H. rewrite rev_involutive, app_nil_r in H. apply H. cbn. lia.
Qed.

(** ** Instances *)

Import Compactions.

Module Summarized.

Definition show_none (n : jsnum) : string := "".

(** A model that answers every request with the same text. *)
Definition answer : AgentMessage := says "What was done so far.".
Definition answering : SummaryEnv := fun _ _ =>
  mkRetryEnv (fun _ => match answer with MAssistant m => Ok m | _ => Err "" end) (fun _ => false) (fun _ _ => None).
Definition model : SummaryModel := mkSummaryModel 4096 false 100000.

Definition outcome_of_compaction (path : list Entry) (keep : Z) : option (result summary_error CompactResult) :=
  p ← prepareCompaction (numbers show_none) path (keeping keep);
  match compact show_none answering model None p None None with (_, Ok r) => Some r | (_, Err _) => None end.

Definition entry_of_result (r : CompactResult) : Entry :=
  entry "c" (BCompaction (cr_summary r) (cr_retainedTail r) (cr_tokensBefore r) (Some (js_details (cr_details r))) (Some (cr_usage r))).

(** A turn that goes on after a compaction. *)
Definition turn_after : list Entry := message_entries [calls "4" "write" "c.ts"; tool_result "4" "written"; says "third answer, a longer one"].

Example first_summary : (fun r => match r with Ok r => Some (cr_summary r) | Err _ => None end) <$> outcome_of_compaction two_turns 12 =
  Some (Some (split_summary "What was done so far." "What was done so far." +:+ formatFileOperations (mkFileLists [] ["a.ts"]))).
Proof. vm_compute. reflexivity. Qed.

(** The retained messages start with the turn that the second compaction splits: nothing is left
    to summarize before it, and the summary of everything before is dropped. *)
Definition after_compaction : list Entry :=
  entry "c" (BCompaction "Everything before." [user "request"; calls "1" "edit" "a.ts"; tool_result "1" "edited"] (JInt 9) None None) :: turn_after.
Example previous_summary_lost :
  (prep_previousSummary <$> prepareCompaction (numbers show_none) after_compaction (keeping 5)) = Some (Some "Everything before.") /\
  ((fun r => match r with Ok r => Some (cr_summary r) | Err _ => None end) <$> outcome_of_compaction after_compaction 5 =
   Some (Some (split_summary "No prior history." "What was done so far." +:+ formatFileOperations (mkFileLists [] ["a.ts"; "c.ts"])))).
Proof. vm_compute. auto. Qed.

(** A model whose window is smaller than the reserve: the budget is negative, and unlimited. *)
Definition small_model : SummaryModel := mkSummaryModel 4096 false 8192.
Definition long_branch : list Entry := message_entries [user (repeat_text 5000 "a long text "); user "short"].
Example negative_budget_unlimited :
  length (bp_messages (prepareBranchEntries (numbers show_none) long_branch (sm_contextWindow small_model - 16384))) = 2 /\
  (8192 < bp_totalTokens (prepareBranchEntries (numbers show_none) long_branch (sm_contextWindow small_model - 16384)))%Z.
Proof. vm_compute. auto. Qed.
End Summarized.
Import Summarized.

Definition later_entries : list Entry := turn_after ++ message_entries [user "and now?"; says "fine"].
Definition after_two_turns (r : CompactResult) : list Entry := two_turns ++ entry_of_result r :: later_entries.

Lemma files_accumulate_witness : match outcome_of_compaction two_turns 12 with
  | Some (Ok r) => match prepareCompaction (numbers show_none) (after_two_turns r) (keeping 1) with
                   | Some p' => "a.ts" ∈ modifiedFiles (computeFileLists (prep_fileOps p')) /\
                       exists request, asks_first (Asked 0 request) (compact show_none answering model None p' None None) /\
                         sr_prompt request = history_prompt show_none (prep_messagesToSummarize p') (Some (cr_summary r)) None
                   | None => False
                   end
  | _ => False
  end.
Proof.
  assert (match outcome_of_compaction two_turns 12 with
          | Some (Ok r) => match prepareCompaction (numbers show_none) (after_two_turns r) (keeping 1) with
                           | Some p' => asks_history p' = true | None => False end /\ modifiedFiles (cr_details r) = ["a.ts"] /\ truthy_str (Some (cr_summary r)) = Some (cr_summary r)
          | _ => False end) as Hrun by (vm_compute; split; [reflexivity|split; reflexivity]).
  unfold outcome_of_compaction in Hrun |- *. destruct (prepareCompaction (numbers show_none) two_turns (keeping 12)) as [p|] eqn:Hp; [|exact Hrun]. cbn [mbind option_bind] in Hrun |- *.
  destruct (compact show_none answering model None p None None) as [trace [[r|]|]] eqn:Hc; try exact Hrun. destruct Hrun as (Hasks & Hfiles & Htruthy).
  destruct (prepareCompaction (numbers show_none) (after_two_turns r) (keeping 1)) as [p'|] eqn:Hp'; [|exact Hasks].
  destruct (files_accumulate show_none answering model None None None two_turns (keeping 12) p trace r (entry_of_result r) later_entries (keeping 1) p'
    Hp Hc eq_refl ltac:(repeat constructor; discriminate) Hp') as (_ & _ & Hasked & Hmod & _).
  split; [apply Hmod; apply compact_Ok in Hc as (_ & _ & <- & _); rewrite Hfiles; left|].
  rewrite Htruthy in Hasked. exact (Hasked answering model None None None Hasks).
Defined.

(** The lane moves back to "c1" of a session whose main lane is at "u2". *)
Definition branching_state : SessionState := im_state example_session.

Lemma abandoned_branch_witness : exists shared branch,
  collectEntriesForBranchSummary (Some "u2") "c1" example_session = Ok (Some (mkCollected branch (e_id <$> last shared))) /\ map e_id branch = ["u2"] /\
  fills_budget (numbers show_none) branch 100 (prepareBranchEntries (numbers show_none) branch 100).
Proof.
  destruct (entriesById branching_state !! "u2") as [eo|] eqn:Ho; [|vm_compute in Ho; discriminate Ho].
  destruct (entriesById branching_state !! "c1") as [et|] eqn:Ht; [|vm_compute in Ht; discriminate Ht].
  pose proof (proj1 (proj1 (ok_index _ (proj1 example_session_ok) "u2" eo) Ho)) as Hino. pose proof (proj1 (proj1 (ok_index _ (proj1 example_session_ok) "c1" et) Ht)) as Hint.
  destruct (chain_exists _ (proj1 example_session_ok) eo Hino) as [po Hpo]. destruct (chain_exists _ (proj1 example_session_ok) et Hint) as [pt Hpt].
  assert (forall e, e ∈ entries (im_state example_session) -> e_id e <> "") as Hids.
  { intros e He Heq. assert (existsb (fun e => String.eqb (e_id e) "") (entries (im_state example_session)) = true) as Hex; [|vm_compute in Hex; discriminate Hex].
    apply existsb_exists. exists e. split; [by apply list_elem_of_In|]. by rewrite Heq. }
  destruct (abandoned_branch (numbers show_none) example_session "u2" "c1" eo et po pt 100 (proj1 example_session_ok) Hids Ho Ht Hpo Hpt) as (shared & branch & rest & Hc & _ & _ & _ & Hf).
  exists shared, branch. split; [exact Hc|]. split; [|exact Hf].
  assert (match collectEntriesForBranchSummary (Some "u2") "c1" example_session with Ok (Some r) => map e_id (ce_entries r) = ["u2"] | _ => False end) as Hr by (vm_compute; reflexivity).
  rewrite Hc in Hr. exact Hr.
Defined.
