(* ===== verification/ClientMessages.v ===== *)
(** The messages of the protocol as the client reads and writes them.

    [packages/client/src] works with typed messages.  A decoded message is data of the type of
    its schema ([ProtocolTheorems]); [server_message] reads the properties the client uses.
    What the client only passes on is kept as data. *)
From S2P Require Import Prelude JsNumber JsText JsObject JsData CborWriter CborValue CborEncoder CborDecoder Framing Schema SchemaCheck SchemaTypes ProtocolSchemas ProtocolValue ProtocolCodec.
Local Open Scope Z_scope.

(** ** Server messages *)

Inductive CommandName : Type :=
  | List_ | Create | Attach | Detach | Prompt_ | Steer_ | Abort_ | SetModel | SetThinking.

#[export] Instance CommandName_eq_dec : EqDecision CommandName.
Proof. solve_decision. Defined.

Definition command_text (c : CommandName) : string :=
  match c with
  | List_ => "list" | Create => "create" | Attach => "attach" | Detach => "detach" | Prompt_ => "prompt"
  | Steer_ => "steer" | Abort_ => "abort" | SetModel => "set_model" | SetThinking => "set_thinking"
  end.

Definition command_names : list CommandName := [List_; Create; Attach; Detach; Prompt_; Steer_; Abort_; SetModel; SetThinking].

(** The name with this text. *)
Definition command_name (d : data) : option CommandName :=
  s ← as_string d; List.find (fun c => bool_decide (s = js (command_text c))) command_names.

(** [sn_other] holds the properties the client does not look at. *)
Record SessionSnapshot := mkSnapshot {
  sn_id : jsstr;
  sn_revision : jsnum;
  sn_attached : bool;
  sn_other : props;
}.

Record ServerSnapshot := mkServerSnapshot {
  sv_revision : jsnum;
  sv_other : props;
}.

(** The results of the commands other than [list] and [detach] carry a snapshot. *)
Inductive CommandResult : Type :=
  | ListResult (sessions : data)
  | DetachResult (sessionId : jsstr)
  | SnapshotResult (command : CommandName) (session : SessionSnapshot).

Definition result_command (r : CommandResult) : CommandName :=
  match r with ListResult _ => List_ | DetachResult _ => Detach | SnapshotResult c _ => c end.

Inductive ServerEvent : Type :=
  | ServerSnapshotEvent (snapshot : ServerSnapshot)
  | SessionSnapshotEvent (snapshot : SessionSnapshot)
  | ProgressEvent (sessionId : jsstr) (progress : data)
  | RemovedEvent (sessionId : jsstr).

(** [ResponseMessage]: [inl] is [ok: false] with its error. *)
Inductive ServerMessage : Type :=
  | HelloMessage (snapshot : ServerSnapshot)
  | HelloErrorMessage (error : data)
  | ResponseMessage (id : jsstr) (result : data + CommandResult)
  | EventMessage (event : ServerEvent).

(** ** Reading messages *)

Definition as_boolean (v : data) : option bool := match v with DBool b => Some b | _ => None end.

(** [v === s] for a string. *)
Definition is_text (s : string) (v : data) : bool := match v with DStr t => bool_decide (t = js s) | _ => false end.

Definition other_than (names : list string) (o : props) : props :=
  List.filter (fun p => negb (existsb (fun k => bool_decide (p.1 = js k)) names)) o.

Definition session_snapshot (v : data) : option SessionSnapshot :=
  o ← isPlainObject v; id ← as_string (field "id" o); revision ← as_number (field "revision" o);
  attached ← as_boolean (field "attached" o);
  Some (mkSnapshot id revision attached (other_than ["id"; "revision"; "attached"] o)).

Definition server_snapshot (v : data) : option ServerSnapshot :=
  o ← isPlainObject v; revision ← as_number (field "revision" o);
  Some (mkServerSnapshot revision (other_than ["revision"] o)).

Definition command_result (v : data) : option CommandResult :=
  o ← isPlainObject v; command ← command_name (field "command" o);
  match command with
  | List_ => Some (ListResult (field "sessions" o))
  | Detach => DetachResult <$> as_string (field "sessionId" o)
  | _ => SnapshotResult command <$> session_snapshot (field "session" o)
  end.

Definition server_event (v : data) : option ServerEvent :=
  o ← isPlainObject v; let type := field "type" o in
  if is_text "server_snapshot" type then ServerSnapshotEvent <$> server_snapshot (field "snapshot" o)
  else if is_text "session_snapshot" type then SessionSnapshotEvent <$> session_snapshot (field "snapshot" o)
  else if is_text "session_progress" type then sessionId ← as_string (field "sessionId" o); Some (ProgressEvent sessionId (field "progress" o))
  else if is_text "session_removed" type then RemovedEvent <$> as_string (field "sessionId" o)
  else None.

Definition server_message (v : data) : option ServerMessage :=
  o ← isPlainObject v; let type := field "type" o in
  if is_text "hello" type then HelloMessage <$> server_snapshot (field "snapshot" o)
  else if is_text "hello_error" type then Some (HelloErrorMessage (field "error" o))
  else if is_text "response" type then
    id ← as_string (field "id" o);
    match as_boolean (field "ok" o) with
    | Some true => (fun r => ResponseMessage id (inr r)) <$> command_result (field "result" o)
    | Some false => Some (ResponseMessage id (inl (field "error" o)))
    | None => None
    end
  else if is_text "event" type then EventMessage <$> server_event (field "event" o)
  else None.

(** ** Commands *)

Record ModelRef := mkModelRef { mr_provider : jsstr; mr_id : jsstr }.

Record CreateSessionOptions := mkCreateOptions {
  co_cwd : option jsstr;
  co_name : option jsstr;
  co_model : option ModelRef;
  co_thinkingLevel : option jsstr;
}.

Inductive Command : Type :=
  | ListCommand
  | CreateCommand (options : CreateSessionOptions)
  | AttachCommand (sessionId : jsstr)
  | DetachCommand (sessionId : jsstr)
  | PromptCommand (sessionId text : jsstr)
  | SteerCommand (sessionId text : jsstr)
  | AbortCommand (sessionId : jsstr)
  | SetModelCommand (sessionId : jsstr) (model : ModelRef)
  | SetThinkingCommand (sessionId thinkingLevel : jsstr).

Definition command_of (c : Command) : CommandName :=
  match c with
  | ListCommand => List_ | CreateCommand _ => Create | AttachCommand _ => Attach | DetachCommand _ => Detach
  | PromptCommand _ _ => Prompt_ | SteerCommand _ _ => Steer_ | AbortCommand _ => Abort_
  | SetModelCommand _ _ => SetModel | SetThinkingCommand _ _ => SetThinking
  end.

(** The objects of a request: the envelope at 1, the command at 2, its model at 3. *)
Definition v_text (k : string) (s : jsstr) : list (jsstr * jsval) := [(js k, VStr s)].
Definition v_optional (k : string) (s : option jsstr) : list (jsstr * jsval) := match s with Some s => v_text k s | None => [] end.
Definition v_model : list (jsstr * jsval) := [(js "model", VRef 3)].

Definition command_model (c : Command) : option ModelRef :=
  match c with CreateCommand o => co_model o | SetModelCommand _ m => Some m | _ => None end.

Definition command_entries (c : Command) : list (jsstr * jsval) :=
  v_text "command" (js (command_text (command_of c))) ++
  match c with
  | ListCommand => []
  | CreateCommand o =>
      v_optional "cwd" (co_cwd o) ++ v_optional "name" (co_name o) ++
      match co_model o with Some _ => v_model | None => [] end ++ v_optional "thinkingLevel" (co_thinkingLevel o)
  | AttachCommand s | DetachCommand s | AbortCommand s => v_text "sessionId" s
  | PromptCommand s text | SteerCommand s text => v_text "sessionId" s ++ v_text "text" text
  | SetModelCommand s _ => v_text "sessionId" s ++ v_model
  | SetThinkingCommand s level => v_text "sessionId" s ++ v_text "thinkingLevel" level
  end.

Definition request_heap (id : jsstr) (c : Command) : heap :=
  <[1%positive := OPlain (v_text "type" (js "request") ++ v_text "id" id ++ [(js "request", VRef 2)]) false]>
  (<[2%positive := OPlain (command_entries c) false]>
   match command_model c with
   | Some m => {[ 3%positive := OPlain (v_text "provider" (mr_provider m) ++ v_text "id" (mr_id m)) false ]}
   | None => ∅
   end).

Definition hello_heap : heap :=
  {[ 1%positive := OPlain (v_text "type" (js "hello") ++ [(js "version", VNum (JInt PROTOCOL_VERSION))]) false ]}.

Definition frame_options (maxFrameLength : Z) : option FrameDecoderOptions := Some (mkFrameDecoderOptions (Some (JInt maxFrameLength))).

(** Validation goes at most this deep into a client message. *)
Definition client_fuel : nat := 40.

Definition encode_request `{Platform} (maxFrameLength : Z) (id : jsstr) (c : Command) : result protocol_error (list Z) :=
  encodeProtocolMessage client_fuel (request_heap id c) ∅ Client (VRef 1) (frame_options maxFrameLength).

Definition encode_hello `{Platform} (maxFrameLength : Z) : result protocol_error (list Z) :=
  encodeProtocolMessage client_fuel hello_heap ∅ Client (VRef 1) (frame_options maxFrameLength).

(** ** Typed messages are readable *)

(** The property is one of those listed. *)
Ltac listed := repeat first [apply list_elem_of_here | apply list_elem_of_further].

Section typed.
Context `{Platform} (D : list (jsstr * PiSchema)).

Lemma static_object ps d : Static D (StrictObject ps) d ->
  exists o, d = DObj o /\ forall k s, (k, s) ∈ ps -> is_optional s = false -> Static D s (field k o).
Proof.
  intros Hd. inversion Hd as [| | | | | | |ps' d' a o Hreq Hty Hadd| | | | |]; subst. exists o. split; [done|]. intros k s Hks Hs.
  assert ((js k, s) ∈ map (fun p => (js p.1, p.2)) ps) as Hin by (apply list_elem_of_fmap; by exists (k, s)).
  specialize (Hreq _ _ Hin Hs). unfold field. unfold JsMap.has in Hreq. destruct (JsMap.get (js k) o) as [v|] eqn:Hg; [|done].
  specialize (Hty _ _ _ Hin Hg). cbn. by destruct s.
Qed.

Lemma static_union l d : Static D (t_union l) d -> exists s, s ∈ l /\ Static D s d.
Proof. inversion 1; subst; eauto. Qed.

Lemma static_literal s d : Static D (t_literal s) d -> d = DStr (js s).
Proof. inversion 1; subst. match goal with He : dataEqual _ _ = true |- _ => destruct d; try discriminate He; cbn in He; by apply bool_decide_eq_true in He as -> end. Qed.

Lemma static_flag b d : Static D (t_flag b) d -> d = DBool b.
Proof. inversion 1; subst. match goal with He : dataEqual _ _ = true |- _ => destruct d; try discriminate He; cbn in He; by apply eqb_prop in He as -> end. Qed.

Lemma static_id d : Static D IdSchema d -> exists s, d = DStr s.
Proof. inversion 1; eauto. Qed.

Lemma static_integer n d : Static D (t_integer n) d -> exists m, d = DNum m.
Proof. inversion 1; eauto. Qed.

Lemma static_boolean d : Static D t_boolean d -> exists b, d = DBool b.
Proof. inversion 1; eauto. Qed.

(** Reads the required properties of an object, one after the other. *)
Lemma snapshot_readable d : Static D SessionSnapshotSchema d -> is_Some (session_snapshot d).
Proof.
  intros (o & -> & Ho)%static_object. unfold session_snapshot. cbn [isPlainObject mbind option_bind].
  destruct (static_id _ (Ho "id" _ ltac:(listed) eq_refl)) as [i ->].
  destruct (static_integer _ _ (Ho "revision" _ ltac:(listed) eq_refl)) as [r ->].
  destruct (static_boolean _ (Ho "attached" _ ltac:(listed) eq_refl)) as [a ->]. by eexists.
Qed.

Lemma server_snapshot_readable d : Static D ServerSnapshotSchema d -> is_Some (server_snapshot d).
Proof.
  intros (o & -> & Ho)%static_object. unfold server_snapshot. cbn [isPlainObject mbind option_bind].
  destruct (static_integer _ _ (Ho "revision" _ ltac:(listed) eq_refl)) as [r ->]. by eexists.
Qed.

Lemma command_name_text c : command_name (DStr (js (command_text c))) = Some c.
Proof. by destruct c. Qed.

Lemma result_readable d : Static D CommandResultSchema d -> is_Some (command_result d).
Proof.
  intros (s & Hs & Hd)%static_union.
  assert (s = ListResultSchema \/ s = DetachResultSchema \/ exists c, c <> List_ /\ c <> Detach /\ s = SnapshotResultSchema (command_text c)) as [-> | [-> | (c & Hl & Hd' & ->)]].
  { repeat (apply elem_of_cons in Hs as [-> | Hs]); [by left| | |by right; left|..| by apply elem_of_nil in Hs]; right; right.
    - by exists Create. - by exists Attach. - by exists Prompt_. - by exists Steer_. - by exists Abort_. - by exists SetModel. - by exists SetThinking. }
  all: apply static_object in Hd as (o & -> & Ho); unfold command_result; cbn [isPlainObject mbind option_bind].
  - rewrite (static_literal _ _ (Ho "command" _ ltac:(listed) eq_refl)); rewrite (command_name_text List_ : command_name (DStr (js "list")) = Some List_). by eexists.
  - rewrite (static_literal _ _ (Ho "command" _ ltac:(listed) eq_refl)); rewrite (command_name_text Detach : command_name (DStr (js "detach")) = Some Detach).
    destruct (static_id _ (Ho "sessionId" _ ltac:(listed) eq_refl)) as [i ->]. by eexists.
  - rewrite (static_literal _ _ (Ho "command" _ ltac:(listed) eq_refl)), (command_name_text c).
    destruct (snapshot_readable _ (Ho "session" _ ltac:(listed) eq_refl)) as [sn ->]. destruct c; try done; by eexists.
Qed.

Lemma event_readable d : Static D ServerEventSchema d -> is_Some (server_event d).
Proof.
  intros (s & Hs & Hd)%static_union.
  repeat (apply elem_of_cons in Hs as [-> | Hs]); [..|by apply elem_of_nil in Hs].
  all: apply static_object in Hd as (o & -> & Ho); unfold server_event; cbn [isPlainObject mbind option_bind].
  all: rewrite (static_literal _ _ (Ho "type" _ ltac:(listed) eq_refl)); cbn [is_text].
  - destruct (server_snapshot_readable _ (Ho "snapshot" _ ltac:(listed) eq_refl)) as [sn ->]. by eexists.
  - destruct (snapshot_readable _ (Ho "snapshot" _ ltac:(listed) eq_refl)) as [sn ->]. by eexists.
  - destruct (static_id _ (Ho "sessionId" _ ltac:(listed) eq_refl)) as [i ->]. by eexists.
  - destruct (static_id _ (Ho "sessionId" _ ltac:(listed) eq_refl)) as [i ->]. by eexists.
Qed.

(** The client can read every message of the protocol. *)
Lemma message_readable d : Static D ServerMessageSchema d -> is_Some (server_message d).
Proof.
  intros (s & Hs & Hd)%static_union. repeat (apply elem_of_cons in Hs as [-> | Hs]); [..|by apply elem_of_nil in Hs].
  3: { apply static_union in Hd as (s' & Hs' & Hd). repeat (apply elem_of_cons in Hs' as [-> | Hs']); [..|by apply elem_of_nil in Hs'].
    all: apply static_object in Hd as (o & -> & Ho); unfold server_message; cbn [isPlainObject mbind option_bind].
    all: rewrite (static_literal _ _ (Ho "type" _ ltac:(listed) eq_refl)); cbn [is_text].
    all: destruct (static_id _ (Ho "id" _ ltac:(listed) eq_refl)) as [i ->].
    all: rewrite (static_flag _ _ (Ho "ok" _ ltac:(listed) eq_refl)).
    - destruct (result_readable _ (Ho "result" _ ltac:(listed) eq_refl)) as [r ->]. by eexists.
    - by eexists. }
  all: apply static_object in Hd as (o & -> & Ho); unfold server_message; cbn [isPlainObject mbind option_bind].
  all: rewrite (static_literal _ _ (Ho "type" _ ltac:(listed) eq_refl)); cbn [is_text].
  - destruct (server_snapshot_readable _ (Ho "snapshot" _ ltac:(listed) eq_refl)) as [sn ->]. by eexists.
  - by eexists.
  - destruct (event_readable _ (Ho "event" _ ltac:(listed) eq_refl)) as [e ->]. by eexists.
Qed.
End typed.
