(* ===== verification/ClientWorld.v ===== *)
(** The state of the client: [packages/client/src], with the sets of listeners.

    The client runs code it does not know: listeners, the transport and its factory.  That code
    may call back into the client while it runs.  [script] is what it does at its next
    invocations; what the client calls, sends and settles is recorded in [trace]. *)
From S2P Require Import Prelude JsNumber JsText JsObject JsData CborWriter CborValue CborEncoder CborDecoder Framing Schema ProtocolSchemas ProtocolValue ProtocolCodec ClientMessages.
Local Open Scope nat_scope.

(** ** Sets of listeners *)

(** A [Set] in insertion order.  An element added again after its deletion is a new entry;
    an iteration visits the entries at or after its position, those added meanwhile too. *)
Record js_set (A : Type) := mkSet { set_entries : list (nat * A); set_next : nat }.
Arguments mkSet {A} set_entries set_next.
Arguments set_entries {A} j.
Arguments set_next {A} j.

Section js_set.
Context {A : Type} `{EqDecision A}.

Definition set_empty : js_set A := mkSet [] 0.
Definition set_values (s : js_set A) : list A := (set_entries s).*2.
Definition set_insert (a : A) (s : js_set A) : js_set A :=
  if decide (a ∈ set_values s) then s else mkSet (set_entries s ++ [(set_next s, a)]) (S (set_next s)).
Definition set_delete (a : A) (s : js_set A) : js_set A :=
  mkSet (filter (fun e => e.2 <> a) (set_entries s)) (set_next s).
Definition set_clear (s : js_set A) : js_set A := mkSet [] (set_next s).

(** The first entry at or after a position. *)
Definition next_entry (position : nat) (s : js_set A) : option (nat * A) :=
  List.find (fun e => position <=? e.1) (set_entries s).
End js_set.

(** A listener of the program, or the function a lease wraps around one. *)
Inductive listener : Type :=
  | App (name : nat)
  | Wrapped (subscription lease name : nat).

#[export] Instance listener_eq_dec : EqDecision listener.
Proof. solve_decision. Defined.

(** A [Map] from ids to sets; the sets are objects of their own. *)
Record registry := mkRegistry {
  reg_sets : list (js_set listener);
  reg_map : gmap jsstr nat;
}.

Definition reg_empty : registry := mkRegistry [] ∅.
Definition reg_set (i : nat) (r : registry) : js_set listener := default set_empty (reg_sets r !! i).
Definition put_set (i : nat) (s : js_set listener) (r : registry) : registry := mkRegistry (<[i := s]> (reg_sets r)) (reg_map r).
Definition reg_clear (r : registry) : registry := mkRegistry (reg_sets r) ∅.

(** [addMappedListener], with the set its result refers to. *)
Definition addMappedListener (id : jsstr) (l : listener) (r : registry) : registry * nat :=
  match reg_map r !! id with
  | Some i => (put_set i (set_insert l (reg_set i r)) r, i)
  | None =>
      let i := length (reg_sets r) in
      (mkRegistry (reg_sets r ++ [set_insert l set_empty]) (<[id := i]> (reg_map r)), i)
  end.

(** The function it returns. *)
Definition removeMappedListener (i : nat) (id : jsstr) (l : listener) (r : registry) : registry :=
  let s := set_delete l (reg_set i r) in
  let r := put_set i s r in
  if decide (set_entries s = []) then mkRegistry (reg_sets r) (delete id (reg_map r)) else r.

(** ** Errors *)

Inductive client_error : Type :=
  | PiServerError (error : data)
  | PiDisconnectedError (message : jsstr)
  | PiClientDisposedError
  | PiSessionOwnershipError (sessionId message : jsstr)
  | PiSessionDetachedError (sessionId : jsstr)
  | ProtocolFailure (e : protocol_error)
  | OtherError (message : jsstr).

Definition protocol_message (e : protocol_error) : jsstr :=
  match e with
  | ProtocolValidationError m => js m
  | ProtocolOptionsError e => js (frame_message e)
  | ProtocolOverflow => []
  end.

Definition error_message (e : client_error) : jsstr :=
  match e with
  | PiServerError error => match error with DObj o => default [] (as_string (field "message" o)) | _ => [] end
  | PiDisconnectedError m | PiSessionOwnershipError _ m | OtherError m => m
  | PiClientDisposedError => js "Pi client is disposed"
  | PiSessionDetachedError s => js "Session " ++ s ++ js " is not attached"
  | ProtocolFailure e => protocol_message e
  end.

Definition DISCONNECTED : client_error := PiDisconnectedError (js "Pi client is disconnected").

Definition toDisconnectedError (e : client_error) : client_error :=
  match e with PiDisconnectedError _ => e | _ => PiDisconnectedError (error_message e) end.

(** ** State *)

(** Connections and their handshakes are known by the number of the connection.  [Connected]
    tells whether the handshake is still to be settled.  An object of the code's type
    [ConnectionLifecycle] is never created twice with the same fields. *)
Inductive Lifecycle : Type :=
  | Disconnected
  | Connecting (id : nat) (transport : option nat)
  | Connected (id : nat) (transport : nat) (handshake : bool).

#[export] Instance Lifecycle_eq_dec : EqDecision Lifecycle.
Proof. solve_decision. Defined.

Inductive ConnectionState : Type := SDisconnected | SConnecting | SConnected.

Definition lifecycle_state (l : Lifecycle) : ConnectionState :=
  match l with Disconnected => SDisconnected | Connecting _ _ => SConnecting | Connected _ _ _ => SConnected end.

Record Connection := mkConnection {
  cn_lifecycle : Lifecycle;
  cn_sequence : nat;
  cn_decoders : gmap nat MessageDecoder;
  cn_opening : list nat;  (* connections whose factory has not settled *)
  cn_maxFrameLength : Z;
}.

Record ClientState := mkClientState {
  cs_snapshot : option ServerSnapshot;
  cs_sessions : gmap jsstr SessionSnapshot;
  cs_attached : gset jsstr;
  cs_snapshotListeners : js_set listener;
  cs_eventListeners : js_set listener;
  cs_sessionSnapshotListeners : registry;
  cs_sessionEventListeners : registry;
}.

(** A promise of [#request] is known by its number; [None] is one that is not settled. *)
Record PendingRequest := mkPending { pr_id : jsstr; pr_command : Command; pr_promise : nat }.

Record Requests := mkRequests {
  rq_pending : list PendingRequest;
  rq_sequence : nat;
  rq_promises : list (option (result client_error CommandResult));
}.

Inductive SessionLeaseMode : Type := Shared | Exclusive.
Inductive SessionLeaseState : Type := LeaseActive | LeaseReleasing | LeaseReleased | LeaseInvalidated.

#[export] Instance SessionLeaseMode_eq_dec : EqDecision SessionLeaseMode.
Proof. solve_decision. Defined.
#[export] Instance SessionLeaseState_eq_dec : EqDecision SessionLeaseState.
Proof. solve_decision. Defined.

(** The variables of [#createSessionLease]; [le_release] is [releasePromise], a task. *)
Record Lease := mkLease {
  le_session : jsstr;
  le_token : nat;
  le_generation : nat;
  le_state : SessionLeaseState;
  le_release : option nat;
}.

(** Asynchronous functions that wait: for the promise of a request or for another task.  A
    finished task has its result, the lease where it returns one; [Running] is one that a call
    on the stack will continue. *)
Inductive task : Type :=
  | Running
  | Attaching (sessionId : jsstr) (request : nat) (previous : option SessionSnapshot)
  | Reconciling (sessionId : jsstr) (request : nat)
  | Reconciled (sessionId : jsstr) (r : result client_error (option nat))
  | AwaitDetachment (sessionId : jsstr) (token : nat) (request : nat)
  | AwaitReconciliation (sessionId : jsstr) (token : nat) (job : nat)
  | AwaitAttachment (sessionId : jsstr) (token : nat) (job : nat)
  | Creating (request : nat)
  | Releasing (lease : nat) (request : nat) (relinquish : bool)
  | ReleaseFailed (lease : nat) (relinquish : bool) (e : client_error)
  | Finished (r : result client_error (option nat)).

Record Leases := mkLeases {
  ls_counts : gmap jsstr nat;
  ls_exclusive : gmap jsstr nat;
  ls_generations : gmap jsstr nat;
  ls_attachments : gmap jsstr nat;
  ls_detachments : gmap jsstr nat;
  ls_cleanup : gset jsstr;
  ls_reconciliations : gmap jsstr nat;
  ls_tokens : list SessionLeaseMode;
  ls_leases : list Lease;
  ls_tasks : list task;
}.

(** What the functions returned by the subscriptions remove. *)
Inductive subscription : Type :=
  | SnapshotSubscription (l : listener)
  | EventSubscription (l : listener)
  | StateSubscription (l : listener)
  | SessionSnapshotSubscription (set : nat) (id : jsstr) (l : listener)
  | SessionEventSubscription (set : nat) (id : jsstr) (l : listener).

Inductive notification : Type :=
  | NServer (snapshot : ServerSnapshot)
  | NEvent (event : ServerEvent)
  | NSession (snapshot : SessionSnapshot)
  | NState (state : ConnectionState) (error : option client_error).

(** [OFactory], [OSend], [OClose], [OListen] and [OListenerError] run code of the environment;
    [OExhausted] is a bound of the model that is used up, which never happens; the others mark
    what the client does. *)
Inductive output : Type :=
  | OExhausted
  | OFactory (id : nat)
  | OSend (transport : nat) (frame : list Z)
  | OClose (transport : nat)
  | OListen (l : listener) (n : notification)
  | OListenerError (e : client_error)
  | OState (state : ConnectionState) (error : option client_error)
  | OHello (id : nat) (snapshot : ServerSnapshot)
  | OHandshake (id : nat) (r : result client_error ServerSnapshot)
  | OMessage (m : ServerMessage)
  | OIssue (promise : nat) (id : jsstr) (command : Command)
  | OSettle (promise : nat) (r : result client_error CommandResult).

(** The commands of a session handle. *)
Inductive SessionCommand : Type :=
  | SPrompt (text : jsstr)
  | SSteer (text : jsstr)
  | SAbort
  | SSetModel (model : ModelRef)
  | SSetThinking (thinkingLevel : jsstr).

Definition session_command (id : jsstr) (c : SessionCommand) : Command :=
  match c with
  | SPrompt text => PromptCommand id text
  | SSteer text => SteerCommand id text
  | SAbort => AbortCommand id
  | SSetModel model => SetModelCommand id model
  | SSetThinking level => SetThinkingCommand id level
  end.

(** Calls of the client's methods, of the handlers it gives a transport, and the continuations
    of its asynchronous functions. *)
Inductive call : Type :=
  | CConnect
  | CDisconnect (reason : jsstr)
  | CDispose
  | CSubscribe (l : nat)
  | COnEvent (l : nat)
  | COnConnectionStateChange (l : nat)
  | CUnsubscribe (subscription : nat)
  | CListSessions
  | CCreateSession (options : CreateSessionOptions)
  | CAcquireSession (sessionId : jsstr) (mode : SessionLeaseMode)
  | CLeaseActive (lease : nat)
  | CLeaseSubscribe (lease : nat) (l : nat)
  | CLeaseOnEvent (lease : nat) (l : nat)
  | CLeaseRequest (lease : nat) (command : SessionCommand)
  | CLeaseDetach (lease : nat)
  | CLeaseDispose (lease : nat)
  | CData (id : nat) (chunk : list Z)
  | CClose (id : nat)
  | CError (id : nat) (e : client_error)
  | CFactorySettled (id : nat) (transport : result client_error nat)
  | CHelloFailed (id : nat) (e : client_error)
  | CSendFailed (transport : nat) (e : client_error)
  | CResume (task : nat).

(** What code of the environment does when it is invoked: its calls, and what it throws. *)
Record reaction := mkReaction { re_calls : list call; re_throws : option client_error }.

Record Client := mkClient {
  c_connection : Connection;
  c_state : ClientState;
  c_requests : Requests;
  c_leases : Leases;
  c_stateListeners : js_set listener;
  c_subscriptions : list subscription;
  c_disposed : bool;
  c_onListenerError : bool;
  c_trace : list output;
  c_script : list reaction;
}.

Definition set_connection (x : Connection) (c : Client) : Client :=
  mkClient x (c_state c) (c_requests c) (c_leases c) (c_stateListeners c) (c_subscriptions c) (c_disposed c) (c_onListenerError c) (c_trace c) (c_script c).
Definition set_state (x : ClientState) (c : Client) : Client :=
  mkClient (c_connection c) x (c_requests c) (c_leases c) (c_stateListeners c) (c_subscriptions c) (c_disposed c) (c_onListenerError c) (c_trace c) (c_script c).
Definition set_requests (x : Requests) (c : Client) : Client :=
  mkClient (c_connection c) (c_state c) x (c_leases c) (c_stateListeners c) (c_subscriptions c) (c_disposed c) (c_onListenerError c) (c_trace c) (c_script c).
Definition set_leases (x : Leases) (c : Client) : Client :=
  mkClient (c_connection c) (c_state c) (c_requests c) x (c_stateListeners c) (c_subscriptions c) (c_disposed c) (c_onListenerError c) (c_trace c) (c_script c).
Definition set_stateListeners (x : js_set listener) (c : Client) : Client :=
  mkClient (c_connection c) (c_state c) (c_requests c) (c_leases c) x (c_subscriptions c) (c_disposed c) (c_onListenerError c) (c_trace c) (c_script c).
Definition set_subscriptions (x : list subscription) (c : Client) : Client :=
  mkClient (c_connection c) (c_state c) (c_requests c) (c_leases c) (c_stateListeners c) x (c_disposed c) (c_onListenerError c) (c_trace c) (c_script c).
Definition set_disposed (x : bool) (c : Client) : Client :=
  mkClient (c_connection c) (c_state c) (c_requests c) (c_leases c) (c_stateListeners c) (c_subscriptions c) x (c_onListenerError c) (c_trace c) (c_script c).
Definition set_trace (x : list output) (c : Client) : Client :=
  mkClient (c_connection c) (c_state c) (c_requests c) (c_leases c) (c_stateListeners c) (c_subscriptions c) (c_disposed c) (c_onListenerError c) x (c_script c).
Definition set_script (x : list reaction) (c : Client) : Client :=
  mkClient (c_connection c) (c_state c) (c_requests c) (c_leases c) (c_stateListeners c) (c_subscriptions c) (c_disposed c) (c_onListenerError c) (c_trace c) x.

Definition emit (o : output) (c : Client) : Client := set_trace (c_trace c ++ [o]) c.

(** ** Running the environment *)

Section invoke.
Context (do_call : call -> Client -> Client).

(** The environment's code runs: it makes its calls, then returns or throws. *)
Definition invoke (o : output) (c : Client) : Client * option client_error :=
  let c := emit o c in
  match c_script c with
  | [] => (c, None)
  | r :: script => (foldl (fun c call => do_call call c) (set_script script c) (re_calls r), re_throws r)
  end.
End invoke.

(** How many calls the environment has still to make. *)
Definition script_calls (c : Client) : nat := sum_list_with (fun r => length (re_calls r)) (c_script c).

(** How many entries have been added to sets of listeners. *)
Definition registry_entries (r : registry) : nat := sum_list_with set_next (reg_sets r).
Definition entries_added (c : Client) : nat :=
  set_next (c_stateListeners c) + set_next (cs_snapshotListeners (c_state c)) + set_next (cs_eventListeners (c_state c)) +
  registry_entries (cs_sessionSnapshotListeners (c_state c)) + registry_entries (cs_sessionEventListeners (c_state c)).

(** [for (const a of s)], where the body may change the set that [read] finds. *)
Section for_of.
Context (read : Client -> js_set listener) (body : listener -> Client -> Client).

Fixpoint for_of (fuel position : nat) (c : Client) : Client :=
  match next_entry position (read c), fuel with
  | None, _ => c
  | Some _, O => emit OExhausted c
  | Some (i, a), S fuel' => for_of fuel' (S i) (body a c)
  end.

(** Only a call adds an entry. *)
Definition for_each (c : Client) : Client := for_of (entries_added c + script_calls c) 0 c.
End for_of.
