(* ===== verification/ClientConnection.v ===== *)
(** What the client knows of the server, and its connection: classes [ClientState] and
    [Connection] of [packages/client/src/state.ts] and [connection.ts]. *)
From S2P Require Import Prelude JsNumber JsText JsObject JsData CborWriter CborValue CborEncoder CborDecoder Framing Schema ProtocolSchemas ProtocolValue ProtocolCodec ClientMessages ClientWorld.
Local Open Scope nat_scope.

Definition new_ClientState : ClientState := mkClientState None ∅ ∅ set_empty set_empty reg_empty reg_empty.

(** ** Its fields *)

Definition set_snapshot (x : option ServerSnapshot) (s : ClientState) : ClientState :=
  mkClientState x (cs_sessions s) (cs_attached s) (cs_snapshotListeners s) (cs_eventListeners s) (cs_sessionSnapshotListeners s) (cs_sessionEventListeners s).
Definition set_sessions (x : gmap jsstr SessionSnapshot) (s : ClientState) : ClientState :=
  mkClientState (cs_snapshot s) x (cs_attached s) (cs_snapshotListeners s) (cs_eventListeners s) (cs_sessionSnapshotListeners s) (cs_sessionEventListeners s).
Definition set_attached (x : gset jsstr) (s : ClientState) : ClientState :=
  mkClientState (cs_snapshot s) (cs_sessions s) x (cs_snapshotListeners s) (cs_eventListeners s) (cs_sessionSnapshotListeners s) (cs_sessionEventListeners s).
Definition set_snapshotListeners (x : js_set listener) (s : ClientState) : ClientState :=
  mkClientState (cs_snapshot s) (cs_sessions s) (cs_attached s) x (cs_eventListeners s) (cs_sessionSnapshotListeners s) (cs_sessionEventListeners s).
Definition set_eventListeners (x : js_set listener) (s : ClientState) : ClientState :=
  mkClientState (cs_snapshot s) (cs_sessions s) (cs_attached s) (cs_snapshotListeners s) x (cs_sessionSnapshotListeners s) (cs_sessionEventListeners s).
Definition set_sessionSnapshotListeners (x : registry) (s : ClientState) : ClientState :=
  mkClientState (cs_snapshot s) (cs_sessions s) (cs_attached s) (cs_snapshotListeners s) (cs_eventListeners s) x (cs_sessionEventListeners s).
Definition set_sessionEventListeners (x : registry) (s : ClientState) : ClientState :=
  mkClientState (cs_snapshot s) (cs_sessions s) (cs_attached s) (cs_snapshotListeners s) (cs_eventListeners s) (cs_sessionSnapshotListeners s) x.

Definition on_state (f : ClientState -> ClientState) (c : Client) : Client := set_state (f (c_state c)) c.

(** ** Operations without notifications *)

Definition reset_state (s : ClientState) : ClientState := set_attached ∅ (set_sessions ∅ (set_snapshot None s)).

Definition clearAttachments (s : ClientState) : ClientState := set_attached ∅ s.

Definition dispose_state (s : ClientState) : ClientState :=
  let s := reset_state s in
  let s := set_snapshotListeners (set_clear (cs_snapshotListeners s)) s in
  let s := set_eventListeners (set_clear (cs_eventListeners s)) s in
  let s := set_sessionSnapshotListeners (reg_clear (cs_sessionSnapshotListeners s)) s in
  set_sessionEventListeners (reg_clear (cs_sessionEventListeners s)) s.

Definition isSessionAttached (sessionId : jsstr) (s : ClientState) : bool := bool_decide (sessionId ∈ cs_attached s).

Definition forgetSessionSnapshot (sessionId : jsstr) (s : ClientState) : ClientState * option SessionSnapshot :=
  (set_sessions (delete sessionId (cs_sessions s)) s, cs_sessions s !! sessionId).

Definition restoreSessionSnapshot (snapshot : SessionSnapshot) (s : ClientState) : ClientState :=
  match cs_sessions s !! sn_id snapshot with
  | Some _ => s
  | None => set_sessions (<[sn_id snapshot := snapshot]> (cs_sessions s)) s
  end.

(** The subscriptions return what the returned function removes. *)
Definition subscribe_snapshots (l : listener) (s : ClientState) : ClientState * subscription :=
  (set_snapshotListeners (set_insert l (cs_snapshotListeners s)) s, SnapshotSubscription l).

Definition subscribe_events (l : listener) (s : ClientState) : ClientState * subscription :=
  (set_eventListeners (set_insert l (cs_eventListeners s)) s, EventSubscription l).

Definition subscribeSession (sessionId : jsstr) (l : listener) (s : ClientState) : ClientState * subscription :=
  let '(r, i) := addMappedListener sessionId l (cs_sessionSnapshotListeners s) in
  (set_sessionSnapshotListeners r s, SessionSnapshotSubscription i sessionId l).

Definition onSessionEvent (sessionId : jsstr) (l : listener) (s : ClientState) : ClientState * subscription :=
  let '(r, i) := addMappedListener sessionId l (cs_sessionEventListeners s) in
  (set_sessionEventListeners r s, SessionEventSubscription i sessionId l).

Definition getEventSessionId (event : ServerEvent) : option jsstr :=
  match event with
  | ServerSnapshotEvent _ => None
  | SessionSnapshotEvent snapshot => Some (sn_id snapshot)
  | ProgressEvent sessionId _ | RemovedEvent sessionId => Some sessionId
  end.

(** ** Operations that notify *)

Section notify.
(** Calls a listener, which may throw, and the handler of its error. *)
Context (call_listener : listener -> notification -> Client -> Client * option client_error) (reportListenerError : client_error -> Client -> Client).

Definition notify_one (n : notification) (l : listener) (c : Client) : Client :=
  match call_listener l n c with
  | (c, None) => c
  | (c, Some e) => reportListenerError e c
  end.

Definition notify (read : Client -> js_set listener) (n : notification) (c : Client) : Client := for_each read (notify_one n) c.

(** [this.#notify(map.get(id), value)]. *)
Definition notify_mapped (read : Client -> registry) (id : jsstr) (n : notification) (c : Client) : Client :=
  match reg_map (read c) !! id with
  | Some i => notify (fun c => reg_set i (read c)) n c
  | None => c
  end.

Definition applyServerSnapshot (snapshot : ServerSnapshot) (c : Client) : Client :=
  let stale := match cs_snapshot (c_state c) with
    | Some current => num_lt (sv_revision snapshot) (sv_revision current)
    | None => false
    end in
  if stale then c
  else notify (fun c => cs_snapshotListeners (c_state c)) (NServer snapshot) (on_state (set_snapshot (Some snapshot)) c).

Definition applySessionSnapshot (snapshot : SessionSnapshot) (force : bool) (c : Client) : Client :=
  let stale := match cs_sessions (c_state c) !! sn_id snapshot with
    | Some current => num_lt (sn_revision snapshot) (sn_revision current)
    | None => false
    end in
  if negb force && stale then c
  else
    let c := on_state (fun s => set_sessions (<[sn_id snapshot := snapshot]> (cs_sessions s)) s) c in
    let c := on_state (fun s =>
      set_attached (if sn_attached snapshot then {[sn_id snapshot]} ∪ cs_attached s else cs_attached s ∖ {[sn_id snapshot]}) s) c in
    notify_mapped (fun c => cs_sessionSnapshotListeners (c_state c)) (sn_id snapshot) (NSession snapshot) c.

Definition applyResult (r : CommandResult) (c : Client) : Client :=
  match r with
  | ListResult _ => c
  | DetachResult sessionId =>
      let c := on_state (fun s => set_attached (cs_attached s ∖ {[sessionId]}) s) c in
      match cs_sessions (c_state c) !! sessionId with
      | Some snapshot => applySessionSnapshot (mkSnapshot (sn_id snapshot) (sn_revision snapshot) false (sn_other snapshot)) true c
      | None => c
      end
  | SnapshotResult _ session => applySessionSnapshot session false c
  end.

Definition applyEvent (event : ServerEvent) (c : Client) : Client :=
  let c := match event with
    | ServerSnapshotEvent snapshot => applyServerSnapshot snapshot c
    | SessionSnapshotEvent snapshot => applySessionSnapshot snapshot false c
    | RemovedEvent sessionId =>
        on_state (fun s => set_attached (cs_attached s ∖ {[sessionId]}) (set_sessions (delete sessionId (cs_sessions s)) s)) c
    | ProgressEvent _ _ => c
    end in
  let c := notify (fun c => cs_eventListeners (c_state c)) (NEvent event) c in
  match getEventSessionId event with
  | Some [] | None => c
  | Some sessionId => notify_mapped (fun c => cs_sessionEventListeners (c_state c)) sessionId (NEvent event) c
  end.
End notify.

(** * The connection *)

(** ** Its fields *)

Definition set_lifecycle (x : Lifecycle) (c : Client) : Client :=
  let n := c_connection c in
  set_connection (mkConnection x (cn_sequence n) (cn_decoders n) (cn_opening n) (cn_maxFrameLength n)) c.
Definition set_decoder (id : nat) (d : MessageDecoder) (c : Client) : Client :=
  let n := c_connection c in
  set_connection (mkConnection (cn_lifecycle n) (cn_sequence n) (<[id := d]> (cn_decoders n)) (cn_opening n) (cn_maxFrameLength n)) c.
Definition set_opening (x : list nat) (c : Client) : Client :=
  let n := c_connection c in
  set_connection (mkConnection (cn_lifecycle n) (cn_sequence n) (cn_decoders n) x (cn_maxFrameLength n)) c.
Definition next_connection (c : Client) : Client :=
  let n := c_connection c in
  set_connection (mkConnection (cn_lifecycle n) (S (cn_sequence n)) (cn_decoders n) (cn_opening n) (cn_maxFrameLength n)) c.

Abbreviation lifecycle c := (cn_lifecycle (c_connection c)).

Definition new_Connection (maxFrameLength : option jsnum) : result client_error Connection :=
  match default (JInt DEFAULT_MAX_FRAME_LENGTH) maxFrameLength with
  | JInt z =>
      if ((0 <? z) && (z <=? 0xffffffff))%Z then Ok (mkConnection Disconnected 0 ∅ [] z)
      else Err (OtherError (js "PiClient maxFrameLength must be an integer between 1 and 4294967295"))
  | JFrac _ => Err (OtherError (js "PiClient maxFrameLength must be an integer between 1 and 4294967295"))
  end.

Definition lifecycle_id (l : Lifecycle) : option nat :=
  match l with Disconnected => None | Connecting id _ | Connected id _ _ => Some id end.

Definition lifecycle_transport (l : Lifecycle) : option nat :=
  match l with Disconnected => None | Connecting _ transport => transport | Connected _ transport _ => Some transport end.

Definition isCurrent (id : nat) (c : Client) : bool := bool_decide (lifecycle_id (lifecycle c) = Some id).

Definition validation_error (message : string) : client_error := ProtocolFailure (ProtocolValidationError message).

Section connection.
Context `{Platform} (fuel : nat) (do_call : call -> Client -> Client).  (* [fuel] bounds the validation of a message *)

(** The callbacks of [ConnectionOptions]; [onHandshake] may throw. *)
Context (onHandshake : ServerSnapshot -> Client -> Client * option client_error).
Context (onMessage : ServerMessage -> Client -> Client).
Context (onStateChange : ConnectionState -> option client_error -> Client -> Client).

(** [#fail]. *)
Definition fail_connection (error : client_error) (c : Client) : Client :=
  match lifecycle c with
  | Disconnected => c
  | Connecting id _ | Connected id _ true =>
      let c := set_lifecycle Disconnected c in
      let c := emit (OHandshake id (Err error)) c in
      onStateChange SDisconnected (Some error) c
  | Connected id _ false =>
      let c := set_lifecycle Disconnected c in
      onStateChange SDisconnected (Some error) c
  end.

(** [transport.close()] does not throw. *)
Definition close_transport (transport : nat) (c : Client) : Client := (invoke do_call (OClose transport) c).1.

Definition failAndClose (error : client_error) (c : Client) : Client :=
  let transport := lifecycle_transport (lifecycle c) in
  let c := fail_connection error c in
  match transport with Some t => close_transport t c | None => c end.

(** [#openTransport] up to the promise of the factory. *)
Definition openTransport (id : nat) (c : Client) : Client :=
  match invoke do_call (OFactory id) c with
  | (c, Some e) => if isCurrent id c then fail_connection (toDisconnectedError e) c else c
  | (c, None) => set_opening (cn_opening (c_connection c) ++ [id]) c
  end.

(** Its [catch] around the hello. *)
Definition hello_failed (id : nat) (e : client_error) (c : Client) : Client :=
  if isCurrent id c then failAndClose (toDisconnectedError e) c else c.

(** [#openTransport] once the promise of the factory is settled. *)
Definition factory_settled (id : nat) (r : result client_error nat) (c : Client) : Client :=
  if decide (id ∈ cn_opening (c_connection c)) then
    let c := set_opening (List.filter (fun id' => negb (id' =? id)) (cn_opening (c_connection c))) c in
    match r with
    | Err e => if isCurrent id c then fail_connection (toDisconnectedError e) c else c
    | Ok transport =>
        match lifecycle c with
        | Connecting id' _ =>
            if decide (id' = id) then
              let c := set_lifecycle (Connecting id (Some transport)) c in
              match encode_hello (cn_maxFrameLength (c_connection c)) with
              | Err e => hello_failed id (ProtocolFailure e) c
              | Ok frame =>
                  match invoke do_call (OSend transport frame) c with
                  | (c, Some e) => hello_failed id e c
                  | (c, None) => c
                  end
              end
            else close_transport transport c
        | _ => close_transport transport c
        end
    end
  else c.

Definition connect_connection (c : Client) : Client :=
  match lifecycle c with
  | Disconnected =>
      let c := next_connection c in
      let id := cn_sequence (c_connection c) in
      match new_MessageDecoder Server (frame_options (cn_maxFrameLength (c_connection c))) with
      | Ok decoder =>
          let c := set_lifecycle (Connecting id None) (set_decoder id decoder c) in
          let c := onStateChange SConnecting None c in
          openTransport id c
      | Err _ => c
      end
  | _ => c
  end.

Definition disconnect_connection (reason : client_error) (c : Client) : Client :=
  match lifecycle c with Disconnected => c | _ => failAndClose reason c end.

(** Sends a frame; it throws when there is no connection. *)
Definition send_frame (frame : list Z) (c : Client) : Client * option client_error :=
  match lifecycle c with
  | Connected _ transport _ =>
      match invoke do_call (OSend transport frame) c with
      | (c, Some e) => (failAndClose (toDisconnectedError e) c, None)
      | (c, None) => (c, None)
      end
  | _ => (c, Some DISCONNECTED)
  end.

(** The promise of a [send] is rejected. *)
Definition send_failed (transport : nat) (e : client_error) (c : Client) : Client :=
  if bool_decide (lifecycle_transport (lifecycle c) = Some transport) then failAndClose (toDisconnectedError e) c else c.

Definition handle_server_message (m : ServerMessage) (c : Client) : Client :=
  match lifecycle c with
  | Connecting id transport =>
      match m with
      | HelloErrorMessage error => failAndClose (PiServerError error) c
      | HelloMessage snapshot =>
          match transport with
          | None => failAndClose (validation_error "Received server hello before the client hello was sent") c
          | Some t =>
              let connected := Connected id t true in
              let c := emit (OHello id snapshot) (set_lifecycle connected c) in
              match onHandshake snapshot c with
              | (c, Some e) => if decide (lifecycle c = connected) then failAndClose e c else c
              | (c, None) =>
                  if decide (lifecycle c = connected) then
                    let c := onStateChange SConnected None c in
                    if decide (lifecycle c = connected) then emit (OHandshake id (Ok snapshot)) (set_lifecycle (Connected id t false) c)
                    else c
                  else c
              end
          end
      | _ => failAndClose (validation_error "Expected server hello as first message") c
      end
  | Connected _ _ _ =>
      match m with
      | HelloMessage _ | HelloErrorMessage _ => failAndClose (validation_error "Unexpected handshake message") c
      | _ => onMessage m (emit (OMessage m) c)
      end
  | Disconnected => c
  end.

(** The loop of [#handleData]. *)
Fixpoint handle_messages (messages : list cbor_value) (c : Client) : Client :=
  match messages with
  | [] => c
  | t :: messages' =>
      match lifecycle c, server_message (of_cbor t) with
      | Disconnected, _ | _, None => c
      | _, Some m => handle_messages messages' (handle_server_message m c)
      end
  end.

Definition handleData (id : nat) (chunk : list Z) (c : Client) : Client :=
  if isCurrent id c then
    match lifecycle c, cn_decoders (c_connection c) !! id with
    | Connecting _ None, _ => failAndClose (validation_error "Received server data before the client hello was sent") c
    | _, Some d =>
        let '(d, r) := md_push fuel d chunk in
        let c := set_decoder id d c in
        match r with
        | Ok messages => handle_messages messages c
        | Err e => failAndClose (ProtocolFailure e) c
        end
    | _, None => c
    end
  else c.

Definition handleClose (id : nat) (c : Client) : Client :=
  if isCurrent id c then
    match cn_decoders (c_connection c) !! id with
    | Some d =>
        let '(d, r) := md_end d in
        let error := match r with Ok _ => PiDisconnectedError (js "Byte transport closed") | Err e => ProtocolFailure e end in
        fail_connection error (set_decoder id d c)
    | None => c
    end
  else c.

Definition handleError (id : nat) (e : client_error) (c : Client) : Client :=
  if isCurrent id c then failAndClose (toDisconnectedError e) c else c.
End connection.
