(* ===== verification/PiClient.v ===== *)
(** The client: class [PiClient] of [packages/client/src/client.ts] and the handles of
    [session-handle.ts].

    An asynchronous function runs until it waits; the rest of it is a task, which [CResume]
    continues once what it waits for is settled.  The calls between are arbitrary, so the tasks
    interleave in every order. *)
From S2P Require Import Prelude JsNumber JsText JsObject JsData CborWriter CborValue CborEncoder CborDecoder Framing Schema ProtocolSchemas ProtocolValue ProtocolCodec ClientMessages ClientWorld ClientConnection.
Local Open Scope nat_scope.

(** ** Its fields *)

Definition on_requests (f : Requests -> Requests) (c : Client) : Client := set_requests (f (c_requests c)) c.
Definition on_leases (f : Leases -> Leases) (c : Client) : Client := set_leases (f (c_leases c)) c.

Definition set_counts (x : gmap jsstr nat) (l : Leases) : Leases :=
  mkLeases x (ls_exclusive l) (ls_generations l) (ls_attachments l) (ls_detachments l) (ls_cleanup l) (ls_reconciliations l) (ls_tokens l) (ls_leases l) (ls_tasks l).
Definition set_exclusive (x : gmap jsstr nat) (l : Leases) : Leases :=
  mkLeases (ls_counts l) x (ls_generations l) (ls_attachments l) (ls_detachments l) (ls_cleanup l) (ls_reconciliations l) (ls_tokens l) (ls_leases l) (ls_tasks l).
Definition set_generations (x : gmap jsstr nat) (l : Leases) : Leases :=
  mkLeases (ls_counts l) (ls_exclusive l) x (ls_attachments l) (ls_detachments l) (ls_cleanup l) (ls_reconciliations l) (ls_tokens l) (ls_leases l) (ls_tasks l).
Definition set_attachments (x : gmap jsstr nat) (l : Leases) : Leases :=
  mkLeases (ls_counts l) (ls_exclusive l) (ls_generations l) x (ls_detachments l) (ls_cleanup l) (ls_reconciliations l) (ls_tokens l) (ls_leases l) (ls_tasks l).
Definition set_detachments (x : gmap jsstr nat) (l : Leases) : Leases :=
  mkLeases (ls_counts l) (ls_exclusive l) (ls_generations l) (ls_attachments l) x (ls_cleanup l) (ls_reconciliations l) (ls_tokens l) (ls_leases l) (ls_tasks l).
Definition set_cleanup (x : gset jsstr) (l : Leases) : Leases :=
  mkLeases (ls_counts l) (ls_exclusive l) (ls_generations l) (ls_attachments l) (ls_detachments l) x (ls_reconciliations l) (ls_tokens l) (ls_leases l) (ls_tasks l).
Definition set_reconciliations (x : gmap jsstr nat) (l : Leases) : Leases :=
  mkLeases (ls_counts l) (ls_exclusive l) (ls_generations l) (ls_attachments l) (ls_detachments l) (ls_cleanup l) x (ls_tokens l) (ls_leases l) (ls_tasks l).
Definition set_tokens (x : list SessionLeaseMode) (l : Leases) : Leases :=
  mkLeases (ls_counts l) (ls_exclusive l) (ls_generations l) (ls_attachments l) (ls_detachments l) (ls_cleanup l) (ls_reconciliations l) x (ls_leases l) (ls_tasks l).
Definition set_lease_list (x : list Lease) (l : Leases) : Leases :=
  mkLeases (ls_counts l) (ls_exclusive l) (ls_generations l) (ls_attachments l) (ls_detachments l) (ls_cleanup l) (ls_reconciliations l) (ls_tokens l) x (ls_tasks l).
Definition set_tasks (x : list task) (l : Leases) : Leases :=
  mkLeases (ls_counts l) (ls_exclusive l) (ls_generations l) (ls_attachments l) (ls_detachments l) (ls_cleanup l) (ls_reconciliations l) (ls_tokens l) (ls_leases l) x.

Abbreviation leases c := (c_leases c).

(** ** The promises of requests *)

(** The promise that the next request returns, not settled or rejected at once. *)
Definition new_promise (r : option (result client_error CommandResult)) (c : Client) : Client * nat :=
  (on_requests (fun q => mkRequests (rq_pending q) (rq_sequence q) (rq_promises q ++ [r])) c, length (rq_promises (c_requests c))).

(** A promise is settled once. *)
Definition settle_request (promise : nat) (r : result client_error CommandResult) (c : Client) : Client :=
  match rq_promises (c_requests c) !! promise with
  | Some None =>
      emit (OSettle promise r) (on_requests (fun q => mkRequests (rq_pending q) (rq_sequence q) (<[promise := Some r]> (rq_promises q))) c)
  | _ => c
  end.

Definition settled_request (promise : nat) (c : Client) : option (result client_error CommandResult) :=
  default None (rq_promises (c_requests c) !! promise).

Definition takePendingRequest (id : jsstr) (c : Client) : Client * option PendingRequest :=
  match List.find (fun p => bool_decide (pr_id p = id)) (rq_pending (c_requests c)) with
  | Some p =>
      (on_requests (fun q => mkRequests (List.filter (fun p => negb (bool_decide (pr_id p = id))) (rq_pending q)) (rq_sequence q) (rq_promises q)) c, Some p)
  | None => (c, None)
  end.

Definition rejectPendingRequests (error : client_error) (c : Client) : Client :=
  let requests := rq_pending (c_requests c) in
  let c := on_requests (fun q => mkRequests [] (rq_sequence q) (rq_promises q)) c in
  foldl (fun c p => settle_request (pr_promise p) (Err error) c) c requests.

(** [`request-${n}`]. *)
Definition request_id (n : nat) : jsstr := js ("request-" +:+ pretty n).

(** ** Leases: the counts *)

Definition count_of (sessionId : jsstr) (l : Leases) : nat := default 0 (ls_counts l !! sessionId).
Definition generation_of (sessionId : jsstr) (l : Leases) : nat := default 0 (ls_generations l !! sessionId).

(** The session has an active lease; it has an exclusive one. *)
Definition reserveSessionLease (sessionId : jsstr) (mode : SessionLeaseMode) (l : Leases) : result client_error (Leases * nat) :=
  let count := count_of sessionId l in
  throw_if (bool_decide (mode = Exclusive) && (0 <? count))
    (PiSessionOwnershipError sessionId (js "Session " ++ sessionId ++ js " already has an active lease"));;
  throw_if (bool_decide (mode = Shared) && bool_decide (is_Some (ls_exclusive l !! sessionId)))
    (PiSessionOwnershipError sessionId (js "Session " ++ sessionId ++ js " has an exclusive lease"));;
  let token := length (ls_tokens l) in
  let l := set_tokens (ls_tokens l ++ [mode]) l in
  let l := set_counts (<[sessionId := S count]> (ls_counts l)) l in
  Ok (if decide (mode = Exclusive) then set_exclusive (<[sessionId := token]> (ls_exclusive l)) l else l, token).

Definition releaseSessionLease (sessionId : jsstr) (token : nat) (l : Leases) : Leases :=
  let count := count_of sessionId l in
  let l := set_counts (if count <=? 1 then delete sessionId (ls_counts l) else <[sessionId := count - 1]> (ls_counts l)) l in
  if decide (ls_exclusive l !! sessionId = Some token) then set_exclusive (delete sessionId (ls_exclusive l)) l else l.

Definition invalidateSessionLeases (sessionId : jsstr) (l : Leases) : Leases :=
  let l := set_counts (delete sessionId (ls_counts l)) l in
  let l := set_exclusive (delete sessionId (ls_exclusive l)) l in
  let l := set_cleanup (ls_cleanup l ∖ {[sessionId]}) l in
  set_generations (<[sessionId := S (generation_of sessionId l)]> (ls_generations l)) l.

Definition invalidateAllSessionLeases (l : Leases) : Leases :=
  set_cleanup ∅ (foldl (fun l p => invalidateSessionLeases p.1 l) l (map_to_list (ls_counts l))).

(** ** Tasks *)

Definition add_task (t : task) (l : Leases) : Leases := set_tasks (ls_tasks l ++ [t]) l.
Definition put_task (i : nat) (t : task) (l : Leases) : Leases := set_tasks (<[i := t]> (ls_tasks l)) l.
Definition next_task (c : Client) : nat := length (ls_tasks (leases c)).

(** What a task that another one waits for has come to. *)
Definition finished_task (i : nat) (c : Client) : option (result client_error (option nat)) :=
  match ls_tasks (leases c) !! i with Some (Finished r) => Some r | _ => None end.

Definition put_lease (i : nat) (x : Lease) (l : Leases) : Leases := set_lease_list (<[i := x]> (ls_leases l)) l.

Definition with_lease_state (s : SessionLeaseState) (x : Lease) : Lease :=
  mkLease (le_session x) (le_token x) (le_generation x) s (le_release x).
Definition with_release (r : option nat) (x : Lease) : Lease :=
  mkLease (le_session x) (le_token x) (le_generation x) (le_state x) r.

(** [#createSessionLease], up to the callbacks. *)
Definition createSessionLease (sessionId : jsstr) (token : nat) (l : Leases) : Leases * nat :=
  let generation := generation_of sessionId l in
  let l := set_generations (<[sessionId := generation]> (ls_generations l)) l in
  (set_lease_list (ls_leases l ++ [mkLease sessionId token generation LeaseActive None]) l, length (ls_leases l)).

Definition refreshed (l : Leases) (x : Lease) : Lease :=
  if (bool_decide (le_state x = LeaseActive) || bool_decide (le_state x = LeaseReleasing)) &&
     negb (bool_decide (ls_generations l !! le_session x = Some (le_generation x)))
  then with_lease_state LeaseInvalidated x else x.

Definition refreshState (i : nat) (l : Leases) : Leases :=
  match ls_leases l !! i with Some x => put_lease i (refreshed l x) l | None => l end.

(** ** The client *)

Section client.
Context `{Platform} (fuel : nat) (do_call : call -> Client -> Client).

Definition isActive (i : nat) (c : Client) : Client * bool :=
  let c := on_leases (refreshState i) c in
  match ls_leases (leases c) !! i with
  | Some x => (c, bool_decide (le_state x = LeaseActive) && isSessionAttached (le_session x) (c_state c))
  | None => (c, false)
  end.

Definition connected (c : Client) : bool := match lifecycle c with Connected _ _ _ => true | _ => false end.

Definition assertActive (i : nat) (c : Client) : Client * option client_error :=
  if c_disposed c then (c, Some PiClientDisposedError)
  else if negb (connected c) then (c, Some DISCONNECTED)
  else
    match isActive i c with
    | (c, true) => (c, None)
    | (c, false) => (c, Some (PiSessionDetachedError (from_option le_session [] (ls_leases (leases c) !! i))))
    end.

(** Errors of [onListenerError] are dropped. *)
Definition reportListenerError (e : client_error) (c : Client) : Client :=
  if c_onListenerError c then (invoke do_call (OListenerError e) c).1 else c.

(** A listener of the program is called; one of a lease only while the lease is active. *)
Definition call_listener (l : listener) (n : notification) (c : Client) : Client * option client_error :=
  match l with
  | App _ => invoke do_call (OListen l n) c
  | Wrapped _ lease _ =>
      let '(c, active) := isActive lease c in
      let removed := match n with NEvent (RemovedEvent _) => true | _ => false end in
      if active || removed then invoke do_call (OListen l n) c else (c, None)
  end.

Definition notifyConnectionStateListeners (state : ConnectionState) (error : option client_error) (c : Client) : Client :=
  notify call_listener reportListenerError c_stateListeners (NState state error) c.

Definition handleConnectionStateChange (state : ConnectionState) (error : option client_error) (c : Client) : Client :=
  let c := emit (OState state error) c in
  let c := match state with
    | SDisconnected =>
        let c := on_state clearAttachments c in
        let c := on_leases invalidateAllSessionLeases c in
        rejectPendingRequests (default DISCONNECTED error) c
    | _ => c
    end in
  notifyConnectionStateListeners state error c.

Definition onHandshake (snapshot : ServerSnapshot) (c : Client) : Client * option client_error :=
  (applyServerSnapshot call_listener reportListenerError snapshot c, None).

(** [this.#connection.fail(error)]. *)
Definition fail_with (error : client_error) (c : Client) : Client := failAndClose do_call handleConnectionStateChange error c.

Definition mismatch (result command : CommandName) : client_error :=
  validation_error ("Response command " +:+ command_text result +:+ " does not match " +:+ command_text command).

Definition handleMessage (m : ServerMessage) (c : Client) : Client :=
  match m with
  | EventMessage event =>
      let c := match event with RemovedEvent sessionId => on_leases (invalidateSessionLeases sessionId) c | _ => c end in
      applyEvent call_listener reportListenerError event c
  | ResponseMessage id r =>
      match takePendingRequest id c with
      | (c, None) => fail_with (validation_error "Response has no matching request") c
      | (c, Some pending) =>
          match r with
          | inl error => settle_request (pr_promise pending) (Err (PiServerError error)) c
          | inr result =>
              if decide (result_command result = command_of (pr_command pending)) then
                let c := applyResult call_listener reportListenerError result c in
                settle_request (pr_promise pending) (Ok result) c
              else
                let error := mismatch (result_command result) (command_of (pr_command pending)) in
                fail_with error (settle_request (pr_promise pending) (Err error) c)
          end
      end
  | _ => c
  end.

(** [#request]; the promise it returns.  [send] does not throw here: the client is connected. *)
Definition request (command : Command) (c : Client) : Client * nat :=
  if c_disposed c then new_promise (Some (Err PiClientDisposedError)) c
  else if negb (connected c) then new_promise (Some (Err DISCONNECTED)) c
  else
    let c := on_requests (fun q => mkRequests (rq_pending q) (S (rq_sequence q)) (rq_promises q)) c in
    let id := request_id (rq_sequence (c_requests c)) in
    let '(c, promise) := new_promise None c in
    let c := on_requests (fun q => mkRequests (rq_pending q ++ [mkPending id command promise]) (rq_sequence q) (rq_promises q)) c in
    let c := emit (OIssue promise id command) c in
    match encode_request (cn_maxFrameLength (c_connection c)) id command with
    | Err e =>
        let '(c, pending) := takePendingRequest id c in
        (match pending with Some p => settle_request (pr_promise p) (Err (ProtocolFailure e)) c | None => c end, promise)
    | Ok frame => ((send_frame do_call handleConnectionStateChange frame c).1, promise)
    end.

Definition connect (c : Client) : Client :=
  if c_disposed c then c
  else
    let c := match lifecycle c with Disconnected => on_state reset_state c | _ => c end in
    connect_connection do_call handleConnectionStateChange c.

Definition disconnect (reason : jsstr) (c : Client) : Client :=
  disconnect_connection do_call handleConnectionStateChange (PiDisconnectedError reason) c.

Definition dispose (c : Client) : Client :=
  if c_disposed c then c
  else
    let c := set_disposed true c in
    let c := rejectPendingRequests PiClientDisposedError c in
    let c := disconnect_connection do_call handleConnectionStateChange PiClientDisposedError c in
    let c := on_state dispose_state c in
    let c := on_leases invalidateAllSessionLeases c in
    set_stateListeners (set_clear (c_stateListeners c)) c.

(** ** Subscriptions *)

Definition add_subscription (s : subscription) (c : Client) : Client := set_subscriptions (c_subscriptions c ++ [s]) c.

Definition subscribe (l : nat) (c : Client) : Client :=
  if c_disposed c then c
  else let '(s, sub) := subscribe_snapshots (App l) (c_state c) in add_subscription sub (set_state s c).

Definition onEvent (l : nat) (c : Client) : Client :=
  if c_disposed c then c
  else let '(s, sub) := subscribe_events (App l) (c_state c) in add_subscription sub (set_state s c).

Definition onConnectionStateChange (l : nat) (c : Client) : Client :=
  if c_disposed c then c
  else add_subscription (StateSubscription (App l)) (set_stateListeners (set_insert (App l) (c_stateListeners c)) c).

Definition unsubscribe (k : nat) (c : Client) : Client :=
  match c_subscriptions c !! k with
  | Some (SnapshotSubscription l) => on_state (fun s => set_snapshotListeners (set_delete l (cs_snapshotListeners s)) s) c
  | Some (EventSubscription l) => on_state (fun s => set_eventListeners (set_delete l (cs_eventListeners s)) s) c
  | Some (StateSubscription l) => set_stateListeners (set_delete l (c_stateListeners c)) c
  | Some (SessionSnapshotSubscription i id l) =>
      on_state (fun s => set_sessionSnapshotListeners (removeMappedListener i id l (cs_sessionSnapshotListeners s)) s) c
  | Some (SessionEventSubscription i id l) =>
      on_state (fun s => set_sessionEventListeners (removeMappedListener i id l (cs_sessionEventListeners s)) s) c
  | None => c
  end.

(** ** Sessions *)

Definition listSessions (c : Client) : Client := (request ListCommand c).1.

(** Up to the response. *)
Definition createSession (options : CreateSessionOptions) (c : Client) : Client :=
  let i := next_task c in
  let c := on_leases (add_task Running) c in
  let '(c, promise) := request (CreateCommand options) c in
  on_leases (put_task i (Creating promise)) c.

Definition session_created (i : nat) (session : SessionSnapshot) (c : Client) : Client :=
  match reserveSessionLease (sn_id session) Exclusive (leases c) with
  | Err e => on_leases (put_task i (Finished (Err e))) c
  | Ok (l, token) =>
      let '(l, lease) := createSessionLease (sn_id session) token l in
      set_leases (put_task i (Finished (Ok (Some lease))) l) c
  end.

(** [#attachSession], up to the response. *)
Definition attach_session (sessionId : jsstr) (c : Client) : Client * nat :=
  let '(s, previous) := forgetSessionSnapshot sessionId (c_state c) in
  let '(c, promise) := request (AttachCommand sessionId) (set_state s c) in
  (on_leases (add_task (Attaching sessionId promise previous)) c, next_task c).

(** The promise of [#reconcileSessionCleanup]. *)
Definition reconcileSessionCleanup (sessionId : jsstr) (c : Client) : Client * nat :=
  match ls_reconciliations (leases c) !! sessionId with
  | Some job => (c, job)
  | None =>
      let '(c, promise) := request (DetachCommand sessionId) c in
      let job := next_task c in
      let c := on_leases (add_task (Reconciling sessionId promise)) c in
      (on_leases (fun l => set_reconciliations (<[sessionId := job]> (ls_reconciliations l)) l) c, job)
  end.

(** The parts of [acquireSession], from its first wait, its second, its third, and its end. *)
Definition acquire_finish (i : nat) (sessionId : jsstr) (token : nat) (c : Client) : Client :=
  let '(l, lease) := createSessionLease sessionId token (leases c) in
  set_leases (put_task i (Finished (Ok (Some lease))) l) c.

Definition acquire_failed (i : nat) (sessionId : jsstr) (token : nat) (e : client_error) (c : Client) : Client :=
  on_leases (fun l => put_task i (Finished (Err e)) (releaseSessionLease sessionId token l)) c.

Definition acquire_attach (i : nat) (sessionId : jsstr) (token : nat) (reconciled : bool) (c : Client) : Client :=
  if reconciled || negb (isSessionAttached sessionId (c_state c)) then
    match ls_attachments (leases c) !! sessionId with
    | Some job => on_leases (put_task i (AwaitAttachment sessionId token job)) c
    | None =>
        let '(c, job) := attach_session sessionId c in
        let c := on_leases (fun l => set_attachments (<[sessionId := job]> (ls_attachments l)) l) c in
        on_leases (put_task i (AwaitAttachment sessionId token job)) c
    end
  else acquire_finish i sessionId token c.

Definition acquire_reconcile (i : nat) (sessionId : jsstr) (token : nat) (c : Client) : Client :=
  if decide (sessionId ∈ ls_cleanup (leases c)) then
    let '(c, job) := reconcileSessionCleanup sessionId c in
    on_leases (put_task i (AwaitReconciliation sessionId token job)) c
  else acquire_attach i sessionId token false c.

Definition acquireSession (sessionId : jsstr) (mode : SessionLeaseMode) (c : Client) : Client :=
  let i := next_task c in
  if c_disposed c then on_leases (add_task (Finished (Err PiClientDisposedError))) c
  else
    match reserveSessionLease sessionId mode (leases c) with
    | Err e => on_leases (add_task (Finished (Err e))) c
    | Ok (l, token) =>
        let c := set_leases (add_task Running l) c in
        match ls_detachments (leases c) !! sessionId with
        | Some promise => on_leases (put_task i (AwaitDetachment sessionId token promise)) c
        | None => acquire_reconcile i sessionId token c
        end
    end.

(** ** Leases: their callbacks *)

(** The asynchronous function in [release], up to the response. *)
Definition start_release (i : nat) (x : Lease) (relinquishOnFailure : bool) (c : Client) : Client :=
  let sessionId := le_session x in
  let c := on_leases (put_lease i (with_lease_state LeaseReleasing x)) c in
  let t := next_task c in
  let c := on_leases (add_task Running) c in
  let c :=
    if count_of sessionId (leases c) <=? 1 then
      let '(c, promise) := request (DetachCommand sessionId) c in
      let c := on_leases (fun l => set_detachments (<[sessionId := promise]> (ls_detachments l)) l) c in
      on_leases (put_task t (Releasing i promise relinquishOnFailure)) c
    else
      let c := on_leases (releaseSessionLease sessionId (le_token x)) c in
      let c := on_leases (put_lease i (with_lease_state LeaseReleased x)) c in
      on_leases (put_task t (Finished (Ok None))) c in
  on_leases (fun l => match ls_leases l !! i with Some x => put_lease i (with_release (Some t) x) l | None => l end) c.

Definition release (i : nat) (relinquishOnFailure : bool) (c : Client) : Client :=
  let c := on_leases (refreshState i) c in
  match ls_leases (leases c) !! i with
  | None => c
  | Some x =>
      match le_state x, le_release x with
      | (LeaseReleased | LeaseInvalidated), _ | _, Some _ => c
      | _, None =>
          match assertActive i c with
          | (c, Some _) => c
          | (c, None) => start_release i x relinquishOnFailure c
          end
      end
  end.

Definition lease_listener (add : jsstr -> listener -> ClientState -> ClientState * subscription) (i l : nat) (c : Client) : Client :=
  match assertActive i c with
  | (c, Some _) => c
  | (c, None) =>
      match ls_leases (leases c) !! i with
      | Some x =>
          let '(s, sub) := add (le_session x) (Wrapped (length (c_subscriptions c)) i l) (c_state c) in
          add_subscription sub (set_state s c)
      | None => c
      end
  end.

Definition lease_request (i : nat) (command : SessionCommand) (c : Client) : Client :=
  match assertActive i c with
  | (c, Some _) => c
  | (c, None) =>
      match ls_leases (leases c) !! i with
      | Some x => (request (session_command (le_session x) command) c).1
      | None => c
      end
  end.

(** ** Continuations *)

Definition forget_detachment (sessionId : jsstr) (promise : nat) (l : Leases) : Leases :=
  if decide (ls_detachments l !! sessionId = Some promise) then set_detachments (delete sessionId (ls_detachments l)) l else l.

Definition forget_attachment (sessionId : jsstr) (job : nat) (l : Leases) : Leases :=
  if decide (ls_attachments l !! sessionId = Some job) then set_attachments (delete sessionId (ls_attachments l)) l else l.

Definition update_lease (i : nat) (f : Lease -> Lease) (l : Leases) : Leases :=
  match ls_leases l !! i with Some x => put_lease i (f x) l | None => l end.

(** The response to the [detach] of a release. *)
Definition resume_release (t i promise : nat) (relinquish : bool) (c : Client) : Client :=
  match settled_request promise c, ls_leases (leases c) !! i with
  | Some (Ok _), Some x =>
      on_leases (fun l =>
        let l := releaseSessionLease (le_session x) (le_token x) l in
        let l := forget_detachment (le_session x) promise l in
        put_task t (Finished (Ok None)) (update_lease i (with_lease_state LeaseReleased) l)) c
  | Some (Err e), Some x =>
      on_leases (fun l => put_task t (ReleaseFailed i relinquish e) (forget_detachment (le_session x) promise l)) c
  | _, _ => c
  end.

(** The [catch] of a release. *)
Definition resume_release_failed (t i : nat) (relinquish : bool) (e : client_error) (c : Client) : Client :=
  let c := on_leases (refreshState i) c in
  match ls_leases (leases c) !! i with
  | None => c
  | Some x =>
      if decide (le_state x = LeaseInvalidated) then on_leases (put_task t (Finished (Ok None))) c
      else if relinquish then
        on_leases (fun l =>
          let l := releaseSessionLease (le_session x) (le_token x) l in
          let l := set_cleanup ({[le_session x]} ∪ ls_cleanup l) l in
          put_task t (Finished (Err e)) (put_lease i (with_lease_state LeaseReleased x) l)) c
      else
        on_leases (fun l => put_task t (Finished (Err e)) (put_lease i (with_release None (with_lease_state LeaseActive x)) l)) c
  end.

Definition resume (i : nat) (c : Client) : Client :=
  match ls_tasks (leases c) !! i with
  | Some (Attaching sessionId promise previous) =>
      match settled_request promise c with
      | Some (Ok _) => on_leases (put_task i (Finished (Ok None))) c
      | Some (Err e) =>
          let c := match previous with Some snapshot => on_state (restoreSessionSnapshot snapshot) c | None => c end in
          on_leases (put_task i (Finished (Err e))) c
      | None => c
      end
  | Some (Reconciling sessionId promise) =>
      match settled_request promise c with
      | Some (Ok _) => on_leases (fun l => put_task i (Reconciled sessionId (Ok None)) (set_cleanup (ls_cleanup l ∖ {[sessionId]}) l)) c
      | Some (Err e) => on_leases (put_task i (Reconciled sessionId (Err e))) c
      | None => c
      end
  | Some (Reconciled sessionId r) =>
      on_leases (fun l => put_task i (Finished r) (set_reconciliations (delete sessionId (ls_reconciliations l)) l)) c
  | Some (AwaitDetachment sessionId token promise) =>
      match settled_request promise c with
      | Some _ => acquire_reconcile i sessionId token (on_leases (put_task i Running) c)
      | None => c
      end
  | Some (AwaitReconciliation sessionId token job) =>
      match finished_task job c with
      | Some (Ok _) => acquire_attach i sessionId token true (on_leases (put_task i Running) c)
      | Some (Err e) => acquire_failed i sessionId token e c
      | None => c
      end
  | Some (AwaitAttachment sessionId token job) =>
      match finished_task job c with
      | Some r =>
          let c := on_leases (forget_attachment sessionId job) c in
          match r with
          | Ok _ => acquire_finish i sessionId token c
          | Err e => acquire_failed i sessionId token e c
          end
      | None => c
      end
  | Some (Creating promise) =>
      match settled_request promise c with
      | Some (Ok (SnapshotResult _ session)) => session_created i session c
      | Some (Err e) => on_leases (put_task i (Finished (Err e))) c
      | _ => c
      end
  | Some (Releasing lease promise relinquish) => resume_release i lease promise relinquish c
  | Some (ReleaseFailed lease relinquish e) => resume_release_failed i lease relinquish e c
  | Some Running | Some (Finished _) | None => c
  end.

(** ** Calls *)

Definition client_step (e : call) : Client -> Client :=
  match e with
  | CConnect => connect
  | CDisconnect reason => disconnect reason
  | CDispose => dispose
  | CSubscribe l => subscribe l
  | COnEvent l => onEvent l
  | COnConnectionStateChange l => onConnectionStateChange l
  | CUnsubscribe k => unsubscribe k
  | CListSessions => listSessions
  | CCreateSession options => createSession options
  | CAcquireSession sessionId mode => acquireSession sessionId mode
  | CLeaseActive i => fun c => (isActive i c).1
  | CLeaseSubscribe i l => lease_listener subscribeSession i l
  | CLeaseOnEvent i l => lease_listener onSessionEvent i l
  | CLeaseRequest i command => lease_request i command
  | CLeaseDetach i => release i false
  | CLeaseDispose i => release i true
  | CData id chunk => handleData fuel do_call onHandshake handleMessage handleConnectionStateChange id chunk
  | CClose id => handleClose handleConnectionStateChange id
  | CError id e => handleError do_call handleConnectionStateChange id e
  | CFactorySettled id r => factory_settled do_call handleConnectionStateChange id r
  | CHelloFailed id e => hello_failed do_call handleConnectionStateChange id e
  | CSendFailed transport e => send_failed do_call handleConnectionStateChange transport e
  | CResume i => resume i
  end.
End client.

Section run.
Context `{Platform} (fuel : nat).

(** Calls that environment code makes run inside the call that invoked it; there is a level of
    nesting for every entry of the script. *)
Fixpoint client_call (depth : nat) (e : call) (c : Client) : Client :=
  match depth with
  | O => emit OExhausted c
  | S depth' => client_step fuel (client_call depth') e c
  end.

Definition top_call (c : Client) (e : call) : Client := client_call (S (length (c_script c))) e c.
Definition client_run (calls : list call) (c : Client) : Client := foldl top_call c calls.
End run.

Definition new_PiClient (maxFrameLength : option jsnum) (onListenerError : bool) (script : list reaction) : result client_error Client :=
  connection ← new_Connection maxFrameLength;
  Ok (mkClient connection new_ClientState (mkRequests [] 0 []) (mkLeases ∅ ∅ ∅ ∅ ∅ ∅ ∅ [] [] []) set_empty [] false onListenerError [] script).
