(* ===== verification/ClientSpec.v ===== *)
(** What the client promises: the order of what it does on its connections and the fate of its
    requests, as a transition system over its outputs; and that every operation keeps to it. *)
From S2P Require Import Prelude JsNumber JsText JsObject JsData CborWriter CborValue CborEncoder CborDecoder Framing Schema SchemaCheck ProtocolSchemas ProtocolValue ProtocolCodec ClientMessages ClientWorld ClientConnection PiClient.
Local Open Scope nat_scope.

(** ** The specification *)

(** The phases of a connection: its number, its transport once there is one. *)
Inductive phase : Type :=
  | Idle (last : nat)
  | Opening (id : nat) (transport : option nat)
  | Greeted (id transport : nat)
  | Announced (id transport : nat)
  | Ready (id transport : nat)
  | Failing (id : nat) (e : client_error).

(** [sp_open] are the requests that wait for their settlement, [sp_issued] all requests. *)
Record spec := mkSpec {
  sp_phase : phase;
  sp_open : list (nat * jsstr * Command);
  sp_issued : list (nat * jsstr);
  sp_answers : list (jsstr * (data + CommandResult));
}.

Definition spec_start : spec := mkSpec (Idle 0) [] [] [].
Definition with_phase (p : phase) (s : spec) : spec := mkSpec p (sp_open s) (sp_issued s) (sp_answers s).

(** The server has said hello: its number and transport. *)
Definition live (p : phase) : option (nat * nat) :=
  match p with Greeted id t | Announced id t | Ready id t => Some (id, t) | _ => None end.

(** The handshake is not settled. *)
Definition shaking (p : phase) : option nat :=
  match p with Opening id _ | Greeted id _ | Announced id _ => Some id | _ => None end.

Definition answers (m : ServerMessage) : list (jsstr * (data + CommandResult)) :=
  match m with ResponseMessage id r => [(id, r)] | _ => [] end.

(** A result or an error of the server is what the server answered to this request. *)
Definition answered (s : spec) (id : jsstr) (command : Command) (r : result client_error CommandResult) : Prop :=
  match r with
  | Ok result => result_command result = command_of command /\ (id, inr result) ∈ sp_answers s
  | Err (PiServerError error) => (id, inl error) ∈ sp_answers s
  | Err _ => True
  end.

Definition environment (o : output) : Prop :=
  match o with OFactory _ | OClose _ | OListen _ _ | OListenerError _ => True | _ => False end.

Inductive spec_step `{Platform} (s : spec) : output -> spec -> Prop :=
  | Step_environment o : environment o -> spec_step s o s
  | Step_connecting n id : sp_phase s = Idle n -> n < id -> spec_step s (OState SConnecting None) (with_phase (Opening id None) s)
  | Step_hello_sent id t maxFrameLength frame : sp_phase s = Opening id None -> encode_hello maxFrameLength = Ok frame ->
      spec_step s (OSend t frame) (with_phase (Opening id (Some t)) s)
  | Step_hello id t snapshot : sp_phase s = Opening id (Some t) -> spec_step s (OHello id snapshot) (with_phase (Greeted id t) s)
  | Step_connected id t : sp_phase s = Greeted id t -> spec_step s (OState SConnected None) (with_phase (Announced id t) s)
  | Step_ready id t snapshot : sp_phase s = Announced id t -> spec_step s (OHandshake id (Ok snapshot)) (with_phase (Ready id t) s)
  | Step_failed id e : shaking (sp_phase s) = Some id -> spec_step s (OHandshake id (Err e)) (with_phase (Failing id e) s)
  | Step_disconnected id e : sp_phase s = Failing id e -> spec_step s (OState SDisconnected (Some e)) (with_phase (Idle id) s)
  | Step_closed id t e : sp_phase s = Ready id t -> spec_step s (OState SDisconnected (Some e)) (with_phase (Idle id) s)
  | Step_message m : live (sp_phase s) <> None ->
      spec_step s (OMessage m) (mkSpec (sp_phase s) (sp_open s) (sp_issued s) (answers m ++ sp_answers s))
  | Step_issue p id command : live (sp_phase s) <> None -> p ∉ (sp_issued s).*1 -> id ∉ (sp_issued s).*2 ->
      spec_step s (OIssue p id command) (mkSpec (sp_phase s) (sp_open s ++ [(p, id, command)]) (sp_issued s ++ [(p, id)]) (sp_answers s))
  | Step_request_sent id t frame : live (sp_phase s) = Some (id, t) -> spec_step s (OSend t frame) s
  | Step_settle p id command r open : sp_open s ≡ₚ (p, id, command) :: open -> answered s id command r ->
      spec_step s (OSettle p r) (mkSpec (sp_phase s) open (sp_issued s) (sp_answers s)).

Inductive spec_steps `{Platform} : spec -> list output -> spec -> Prop :=
  | Steps_nil s : spec_steps s [] s
  | Steps_snoc s1 s2 s3 l o : spec_steps s1 l s2 -> spec_step s2 o s3 -> spec_steps s1 (l ++ [o]) s3.

(** ** The client follows it *)

Definition matches (p : phase) (l : Lifecycle) : Prop :=
  match p, l with
  | Idle _, Disconnected => True
  | Opening id t, Connecting id' t' => id = id' /\ t = t'
  | (Greeted id t | Announced id t), Connected id' t' true => id = id' /\ t = t'
  | Ready id t, Connected id' t' false => id = id' /\ t = t'
  | _, _ => False
  end.

Definition phase_number (p : phase) : nat :=
  match p with Idle n => n | Opening id _ | Greeted id _ | Announced id _ | Ready id _ | Failing id _ => id end.

Abbreviation flight := (list (nat * jsstr * Command)).

Definition pending_open (c : Client) : flight := map (fun p => (pr_promise p, pr_id p, pr_command p)) (rq_pending (c_requests c)).

(** The requests, and those ([F]) whose answer is being applied. *)
Record requests_follow (F : flight) (s : spec) (q : Requests) : Prop := mkRequestsFollow {
  rf_open : sp_open s ≡ₚ map (fun p => (pr_promise p, pr_id p, pr_command p)) (rq_pending q) ++ F;
  rf_unsettled : forall x, x ∈ sp_open s -> rq_promises q !! x.1.1 = Some None;
  rf_issued : forall x, x ∈ sp_issued s -> x.1 < length (rq_promises q) /\ exists n, n <= rq_sequence q /\ x.2 = request_id n;
  rf_known : forall x, x ∈ sp_open s -> (x.1.1, x.1.2) ∈ sp_issued s;
  rf_distinct : NoDup (sp_open s).*1.*1 /\ NoDup (sp_open s).*1.*2;
}.

(** The connections whose factory has not settled, and those ([G]) whose factory is to be called
    by a call on the stack. *)
Definition opening_follow (G : list nat) (n : Connection) : Prop :=
  NoDup (cn_opening n ++ G) /\ forall id, id ∈ cn_opening n ++ G -> id <= cn_sequence n /\ forall t, cn_lifecycle n <> Connecting id (Some t).

(** What calls on the stack know: [cx_opening] as above, answers that have arrived, and the
    connections whose hello they handle, with whether the connection has been announced.
    [cx_budget] bounds the entries of sets of listeners, with those that the script can still add
    and [cx_slack] more. *)
Record context := mkContext {
  cx_opening : list nat;
  cx_answers : list (jsstr * (data + CommandResult));
  cx_hellos : list (nat * bool);
  cx_slack : nat;
  cx_budget : nat;
}.

Definition with_opening (id : nat) (G : context) : context := mkContext (id :: cx_opening G) (cx_answers G) (cx_hellos G) (cx_slack G) (cx_budget G).
Definition with_answers (A : list (jsstr * (data + CommandResult))) (G : context) : context :=
  mkContext (cx_opening G) (A ++ cx_answers G) (cx_hellos G) (cx_slack G) (cx_budget G).
Definition with_hello (id : nat) (announced : bool) (G : context) : context :=
  mkContext (cx_opening G) (cx_answers G) ((id, announced) :: cx_hellos G) (cx_slack G) (cx_budget G).
Definition with_slack (k : nat) (G : context) : context := mkContext (cx_opening G) (cx_answers G) (cx_hellos G) (k + cx_slack G) (cx_budget G).
Definition with_budget (n : nat) (G : context) : context := mkContext (cx_opening G) (cx_answers G) (cx_hellos G) 0 n.

Definition hellos_follow (l : list (nat * bool)) (p : phase) (last : nat) : Prop :=
  forall id announced, (id, announced) ∈ l -> id <= last /\
    match p with
    | Opening id' _ => id' <> id
    | Greeted id' _ => announced = true -> id' <> id
    | Announced id' _ => announced = false -> id' <> id
    | _ => True
    end.

Record follows (F : flight) (G : context) (s : spec) (c : Client) : Prop := mkFollows {
  fo_phase : matches (sp_phase s) (lifecycle c);
  fo_number : phase_number (sp_phase s) <= cn_sequence (c_connection c);
  fo_requests : requests_follow F s (c_requests c);
  fo_opening : opening_follow (cx_opening G) (c_connection c);
  fo_answers : cx_answers G ⊆ sp_answers s;
  fo_hellos : hellos_follow (cx_hellos G) (sp_phase s) (cn_sequence (c_connection c));
}.

(** Only a connected client has pending requests. *)
Definition pending_connected (c : Client) : Prop := rq_pending (c_requests c) <> [] -> connected c = true.

(** The sets of listeners. *)
Definition listener_sets (s : ClientState) : js_set listener * js_set listener * registry * registry :=
  (cs_snapshotListeners s, cs_eventListeners s, cs_sessionSnapshotListeners s, cs_sessionEventListeners s).

Definition set_ok (s : js_set listener) : Prop := Forall (fun e => e.1 < set_next s) (set_entries s).

Definition sets_ok (c : Client) : Prop :=
  set_ok (c_stateListeners c) /\ set_ok (cs_snapshotListeners (c_state c)) /\ set_ok (cs_eventListeners (c_state c)) /\
  Forall set_ok (reg_sets (cs_sessionSnapshotListeners (c_state c))) /\ Forall set_ok (reg_sets (cs_sessionEventListeners (c_state c))).

(** What bounds the nesting of calls and the iterations. *)
Definition bounded (depth : nat) (G : context) (c : Client) : Prop :=
  length (c_script c) <= depth /\ sets_ok c /\ entries_added c + script_calls c + cx_slack G <= cx_budget G.

(** Nothing the specification speaks of changes, nor what bounds the calls. *)
Definition same_bounds (c c' : Client) : Prop :=
  c_script c' = c_script c /\ c_stateListeners c' = c_stateListeners c /\ listener_sets (c_state c') = listener_sets (c_state c).

Definition same_outputs (c c' : Client) : Prop :=
  c_trace c' = c_trace c /\ lifecycle c' = lifecycle c /\ cn_sequence (c_connection c') = cn_sequence (c_connection c) /\
  cn_opening (c_connection c') = cn_opening (c_connection c) /\ c_requests c' = c_requests c.

Definition same_view (c c' : Client) : Prop := same_outputs c c' /\ same_bounds c c'.

Lemma bounds_trans c1 c2 c3 : same_bounds c1 c2 -> same_bounds c2 c3 -> same_bounds c1 c3.
Proof. intros (H1 & H2 & H3) (H4 & H5 & H6). unfold same_bounds. by rewrite H4, H5, H6. Qed.

Lemma bounds_same depth G c c' : same_bounds c c' -> bounded depth G c -> bounded depth G c'.
Proof.
  intros (Hs & Hl & Hset). unfold bounded, sets_ok, entries_added, script_calls. injection Hset as H1 H2 H3 H4. by rewrite Hs, Hl, H1, H2, H3, H4.
Qed.

(** ** Sets and their entries *)

Lemma set_insert_ok l s : set_ok s -> set_ok (set_insert l s) /\ set_next (set_insert l s) <= S (set_next s).
Proof.
  intros Hs. unfold set_insert. destruct (decide _); [split; [done|lia]|]. split; [|done]. unfold set_ok. cbn [set_entries set_next].
  apply Forall_app. split; [|constructor; [cbn; lia|done]]. eapply Forall_impl; [exact Hs|]. cbn. intros e He. lia.
Qed.

Lemma set_delete_ok l s : set_ok s -> set_ok (set_delete l s).
Proof. intros Hs. unfold set_ok, set_delete in *. cbn [set_entries set_next]. rewrite Forall_forall in *. intros e [_ He]%list_elem_of_filter. by apply Hs. Qed.

Lemma put_set_ok i s r : Forall set_ok (reg_sets r) -> set_ok s -> Forall set_ok (reg_sets (put_set i s r)).
Proof. intros Hr Hs. by apply Forall_insert. Qed.

Lemma put_set_entries i s r k : set_next s <= k + set_next (reg_set i r) -> registry_entries (put_set i s r) <= k + registry_entries r.
Proof.
  unfold reg_set, registry_entries, put_set. cbn [reg_sets]. revert i. induction (reg_sets r) as [|s' l IH]; intros [|i] Hle; cbn in *; try lia.
  etrans; [apply Nat.add_le_mono_l, (IH i Hle)|lia].
Qed.

Lemma registry_ok i r : Forall set_ok (reg_sets r) -> set_ok (reg_set i r).
Proof. intros Hr. unfold reg_set. destruct (reg_sets r !! i) as [s|] eqn:Hs; [|constructor]. by eapply Forall_lookup_1. Qed.

Lemma add_mapped_ok id l r : Forall set_ok (reg_sets r) ->
  Forall set_ok (reg_sets (addMappedListener id l r).1) /\ registry_entries (addMappedListener id l r).1 <= S (registry_entries r).
Proof.
  intros Hr. unfold addMappedListener. destruct (reg_map r !! id) as [i|]; cbn [fst].
  - destruct (set_insert_ok l _ (registry_ok i r Hr)). split; [by apply put_set_ok|by apply (put_set_entries _ _ _ 1)].
  - split; [apply Forall_app; split; [done|]; constructor; [by apply set_insert_ok; constructor|done]|].
    unfold registry_entries. cbn [reg_sets]. rewrite sum_list_with_app. cbn [sum_list_with].
    destruct (set_insert_ok l set_empty ltac:(constructor)) as [_ Hle]. change (set_next (@set_empty listener)) with 0 in Hle. lia.
Qed.

Lemma remove_mapped_ok i id l r : Forall set_ok (reg_sets r) ->
  Forall set_ok (reg_sets (removeMappedListener i id l r)) /\ registry_entries (removeMappedListener i id l r) <= registry_entries r.
Proof.
  intros Hr. unfold removeMappedListener.
  assert (forall r', reg_sets r' = reg_sets (put_set i (set_delete l (reg_set i r)) r) -> Forall set_ok (reg_sets r') /\ registry_entries r' <= registry_entries r) as Hall.
  { intros r' Hr'. unfold registry_entries at 1. rewrite Hr'. split; [by apply put_set_ok, set_delete_ok, registry_ok|by apply (put_set_entries _ _ _ 0)]. }
  destruct (decide _); by apply Hall.
Qed.

Section fits.
Context `{Platform}.

Definition fits (F : flight) (G : context) (c : Client) : Prop := exists s, spec_steps spec_start (c_trace c) s /\ follows F G s c.
Definition calm (depth : nat) (G : context) (c : Client) : Prop := pending_connected c /\ bounded depth G c.
Definition good_at (depth : nat) (F : flight) (G : context) (c : Client) : Prop := fits F G c /\ calm depth G c.

(** The operation keeps to the specification. *)
Definition keeps_at (depth : nat) (f : Client -> Client) : Prop := forall F G c, good_at depth F G c -> good_at depth F G (f c).

Lemma fits_view F G c c' : same_outputs c c' -> fits F G c -> fits F G c'.
Proof. intros (Ht & Hl & Hn & Ho & Hq) (s & Hs & [H1 H2 H3 H4 H5 H6]). exists s. rewrite Ht. split; [done|]. unfold opening_follow in *. by split; rewrite ?Hl, ?Hn, ?Hq; [..|unfold opening_follow; rewrite Hl, Hn, Ho| |]. Qed.

Lemma spec_trace s tr o s' c : spec_steps s tr c -> spec_step c o s' -> spec_steps s (tr ++ [o]) s'.
Proof. intros. by econstructor. Qed.
End fits.

Section keeps.
Context `{Platform} (depth : nat).

Abbreviation good := (good_at depth).
Abbreviation keeps := (keeps_at depth).

Lemma good_view F G c c' : same_view c c' -> good F G c -> good F G c'.
Proof.
  intros [Hv Hb] [Hf [Hp Hc]]. split; [by eapply fits_view|]. split; [|by eapply bounds_same]. destruct Hv as (_ & Hl & _ & _ & Hq). unfold pending_connected, connected in *. by rewrite Hl, Hq.
Qed.

Lemma keeps_view f : (forall c, same_view c (f c)) -> keeps f.
Proof. intros Hf F G c. apply good_view, Hf. Qed.

Lemma keeps_output o : environment o -> keeps (emit o).
Proof.
  intros Ho F G c [(s & Hs & Hf) Hc]. split; [|done]. exists s. split; [|by destruct Hf; split].
  cbn [emit set_trace c_trace]. eapply spec_trace; [done|]. by constructor.
Qed.

Lemma less_slack F k G c : good F (with_slack k G) c -> good F G c.
Proof.
  intros [(s & Hs & [H1 H2 H3 H4 H5 H6]) (Hp & Hd & Hw & Hb)]. split; [by exists s|]. split; [done|]. split_and!; try done. cbn [with_slack cx_slack cx_budget] in Hb. lia.
Qed.

(** The operation adds at most [k] entries to sets. *)
Lemma sets_grow k F G c c' : same_outputs c c' -> c_script c' = c_script c -> (sets_ok c -> sets_ok c' /\ entries_added c' <= k + entries_added c) ->
  good F (with_slack k G) c -> good F G c'.
Proof.
  intros Hv Hs Hok [Hf (Hp & Hd & Hw & Hb)]. destruct (Hok Hw) as [Hw' Hle]. split; [eapply fits_view; [exact Hv|]; by destruct Hf as (s & Hst & []); exists s|].
  split; [destruct Hv as (_ & Hl & _ & _ & Hq); unfold pending_connected, connected in *; by rewrite Hl, Hq|]. split_and!; [by rewrite Hs|done|].
  unfold script_calls in *. rewrite Hs. cbn [with_slack cx_slack cx_budget] in Hb. lia.
Qed.

Lemma sets_shrink F G c c' : same_outputs c c' -> c_script c' = c_script c -> (sets_ok c -> sets_ok c' /\ entries_added c' <= entries_added c) ->
  good F G c -> good F G c'.
Proof. intros Hv Hs Hok Hg. eapply (sets_grow 0); [done|done|done|]. by destruct Hg as [(s & Hst & []) ?]; split; [exists s|]. Qed.

(** ** Iterations *)

(** The set that is found has no entries but those that have been counted. *)
Definition readable (read : Client -> js_set listener) : Prop :=
  forall c, sets_ok c -> Forall (fun e => e.1 < entries_added c) (set_entries (read c)).

Lemma next_entry_found position (s : js_set listener) i a : next_entry position s = Some (i, a) -> position <= i /\ (i, a) ∈ set_entries s.
Proof. intros [Hin Hp]%List.find_some. cbn in Hp. by rewrite list_elem_of_In, Nat.leb_le in *. Qed.

Lemma keeps_for_of read body : readable read -> (forall a, keeps (body a)) -> forall fuel position F G c,
  good F (with_budget (position + fuel) G) c -> good F G c -> good F G (for_of read body fuel position c).
Proof.
  intros Hr Hb fuel. induction fuel as [|fuel IH]; intros position F G c Hl Hg; cbn [for_of]; destruct (next_entry position (read c)) as [[i a]|] eqn:Hn; [|done| |done].
  - exfalso. apply next_entry_found in Hn as [Hp Hin]. destruct Hl as (_ & _ & _ & Hok & Hle). apply Hr in Hok. rewrite Forall_forall in Hok. apply Hok in Hin. cbn [with_budget cx_slack cx_budget fst] in *. lia.
  - apply next_entry_found in Hn as [Hp Hin]. apply IH; [|by apply Hb]. apply (Hb a) in Hl. destruct Hl as [Hf (Hpc & Hd & Hok & Hle)].
    split; [by destruct Hf as (s & Hs & []); exists s|]. split; [done|]. split_and!; try done. cbn [with_budget cx_slack cx_budget] in *. lia.
Qed.

Lemma keeps_for_each read body : readable read -> (forall a, keeps (body a)) -> keeps (for_each read body).
Proof.
  intros Hr Hb F G c Hg. unfold for_each. apply keeps_for_of; [done|done| |done]. destruct Hg as [(s & Hs & []) (Hpc & Hd & Hok & Hle)].
  split; [by exists s|]. split; [done|]. split_and!; try done. cbn [with_budget cx_slack cx_budget]. lia.
Qed.

Lemma set_readable (sel : Client -> js_set listener) : (forall c, sets_ok c -> set_ok (sel c)) -> (forall c, set_next (sel c) <= entries_added c) -> readable sel.
Proof. intros Hok Hle c Hc. eapply Forall_impl; [by apply Hok|]. cbn. intros e He. specialize (Hle c). lia. Qed.

Lemma registry_bound i r : set_next (reg_set i r) <= registry_entries r.
Proof.
  unfold reg_set, registry_entries. destruct (reg_sets r !! i) as [s|] eqn:Hs; [|cbn; lia]. cbn [default from_option id].
  apply list_elem_of_lookup_2 in Hs. induction (reg_sets r) as [|s' l IH]; [by apply elem_of_nil in Hs|]. cbn. apply elem_of_cons in Hs as [<- | Hs]; [lia|]. apply IH in Hs. lia.
Qed.

Lemma client_sets_readable : readable c_stateListeners /\ readable (fun c => cs_snapshotListeners (c_state c)) /\ readable (fun c => cs_eventListeners (c_state c)) /\
  (forall i, readable (fun c => reg_set i (cs_sessionSnapshotListeners (c_state c)))) /\ (forall i, readable (fun c => reg_set i (cs_sessionEventListeners (c_state c)))).
Proof.
  split_and!; intros; apply set_readable; intros c; unfold sets_ok, entries_added; try tauto; try lia; try (intros (_ & _ & _ & H1 & H2); by apply registry_ok);
    [pose proof (registry_bound i (cs_sessionSnapshotListeners (c_state c)))|pose proof (registry_bound i (cs_sessionEventListeners (c_state c)))]; lia.
Qed.
End keeps.

(** ** Sending and settling *)

Section steps.
Context `{Platform}.

(** A step of the specification, whose new state the client follows. *)
Lemma fits_step F F' G G' o c c' : c_trace c' = c_trace c ++ [o] ->
  (forall s, follows F G s c -> exists s', spec_step s o s' /\ follows F' G' s' c') -> fits F G c -> fits F' G' c'.
Proof.
  intros Ht Hstep (s & Hs & Hf). destruct (Hstep s Hf) as (s' & Hso & Hf'). exists s'. rewrite Ht. split; [|done]. by eapply spec_trace.
Qed.

Lemma live_connected s c F G : follows F G s c -> connected c = true -> exists id t hs, live (sp_phase s) = Some (id, t) /\ lifecycle c = Connected id t hs.
Proof.
  intros [Hm _ _ _ _ _]. unfold connected. destruct (lifecycle c) as [| |id t hs]; [done..|]. intros _.
  destruct (sp_phase s) as [| |id' t'|id' t'|id' t'|], hs; try done; destruct Hm as [-> ->]; by eexists _, _, _.
Qed.

Lemma request_id_inj a b : request_id a = request_id b -> a = b.
Proof. intros Hab%js_inj. by apply (inj (String.append "request-")), (inj pretty) in Hab. Qed.

(** The settlement of a request, pending no more. *)
Lemma fits_settle F G p id command r c :
  (forall s, follows ((p, id, command) :: F) G s c -> answered s id command r) ->
  fits ((p, id, command) :: F) G c -> fits F G (settle_request p r c).
Proof.
  intros Hans (s & Hs & Hf). pose proof Hf as [H1 H2 [Ho Hu Hi Hk [Hd1 Hd2]] Hop Han Hhs].
  assert ((p, id, command) ∈ sp_open s) as Hin by (rewrite Ho; set_solver).
  pose proof (Hu _ Hin) as Hp. cbn in Hp. unfold settle_request. rewrite Hp.
  assert (sp_open s ≡ₚ (p, id, command) :: pending_open c ++ F) as Hperm by (rewrite Ho; symmetry; apply Permutation_middle).
  assert (NoDup (p :: (pending_open c ++ F).*1.*1)) as Hn1 by (assert ((sp_open s).*1.*1 ≡ₚ p :: (pending_open c ++ F).*1.*1) as <- by (by rewrite Hperm); done).
  assert (NoDup (id :: (pending_open c ++ F).*1.*2)) as Hn2 by (assert ((sp_open s).*1.*2 ≡ₚ id :: (pending_open c ++ F).*1.*2) as <- by (by rewrite Hperm); done).
  exists (mkSpec (sp_phase s) (pending_open c ++ F) (sp_issued s) (sp_answers s)). split.
  { cbn [emit set_trace c_trace on_requests set_requests]. eapply spec_trace; [done|]. eapply Step_settle; [done|]. by apply Hans. }
  split; [exact H1|exact H2| |exact Hop|exact Han|exact Hhs]. split; cbn [sp_open sp_issued sp_answers c_requests emit set_trace on_requests set_requests rq_pending rq_promises rq_sequence].
  - done.
  - intros x Hx. rewrite list_lookup_insert_ne; [apply Hu; rewrite Hperm; by right|]. intros ->.
    apply NoDup_cons in Hn1 as [Hn1 _]. apply Hn1. apply list_elem_of_fmap. exists x.1. split; [done|]. apply list_elem_of_fmap. by exists x.
  - intros x Hx. rewrite length_insert. by apply Hi.
  - intros x Hx. apply Hk. rewrite Hperm. by right.
  - by apply NoDup_cons in Hn1 as [_ ?], Hn2 as [_ ?].
Qed.

Lemma settle_view p r c : rq_pending (c_requests (settle_request p r c)) = rq_pending (c_requests c) /\ c_connection (settle_request p r c) = c_connection c /\
  same_bounds c (settle_request p r c).
Proof. unfold settle_request. by destruct (rq_promises _ !! p) as [[|]|]. Qed.

Lemma good_settle depth F G p id command r c : (forall s, follows ((p, id, command) :: F) G s c -> answered s id command r) ->
  good_at depth ((p, id, command) :: F) G c -> good_at depth F G (settle_request p r c).
Proof.
  intros Hans [Hf [Hc Hb]]. split; [by eapply fits_settle|]. destruct (settle_view p r c) as (Hq & Hcn & Hs).
  split; [|by eapply bounds_same]. unfold pending_connected, connected in *. by rewrite Hq, Hcn.
Qed.

(** What no response settles. *)
Definition local_error (e : client_error) : Prop := match e with PiServerError _ => False | _ => True end.

Lemma local_answered s id command e : local_error e -> answered s id command (Err e).
Proof. by destruct e. Qed.

Lemma local_disconnected e : local_error (toDisconnectedError e).
Proof. by destruct e. Qed.
End steps.

Section requests.
Context `{Platform}.

Lemma flight_perm F F' G c : F ≡ₚ F' -> fits F G c -> fits F' G c.
Proof.
  intros HF (s & Hs & [H1 H2 [Ho Hu Hi Hk Hd] Hop Han Hhs]). exists s. split; [done|]. split; [done|done| |done|done|done]. split; try done. by rewrite <- HF.
Qed.

Lemma others_kept id l : id ∉ map pr_id l -> List.filter (fun p => negb (bool_decide (pr_id p = id))) l = l.
Proof.
  induction l as [|a l IH]; [done|]. cbn [map List.filter]. intros [Hne Ha]%not_elem_of_cons. rewrite bool_decide_false by congruence. cbn [negb]. by rewrite IH.
Qed.

(** A pending request that is taken is in flight. *)
Lemma taken_fits F G id c : fits F G c ->
  match takePendingRequest id c with
  | (c', Some p) => pr_id p = id /\ p ∈ rq_pending (c_requests c) /\ fits ((pr_promise p, pr_id p, pr_command p) :: F) G c' /\ c_connection c' = c_connection c /\ same_bounds c c'
  | (c', None) => c' = c
  end.
Proof.
  intros (s & Hs & [H1 H2 [Ho Hu Hi Hk [Hd1 Hd2]] Hop Han Hhs]). unfold takePendingRequest.
  destruct (List.find _ _) as [p|] eqn:Hfind; [|done]. apply List.find_some in Hfind as [Hp%list_elem_of_In Hid]. apply bool_decide_eq_true in Hid.
  split_and!; [done|done| |done..]. exists s. split; [done|]. split; [done|done| |done|done|done]. cbn [c_requests on_requests set_requests rq_pending rq_promises rq_sequence]. split; try done.
  cbn [c_requests on_requests set_requests rq_pending]. rewrite Ho.
  rewrite <- Permutation_middle. change (?x :: ?l ++ F) with ((x :: l) ++ F). apply Permutation_app; [|done].
  assert (NoDup (map pr_id (rq_pending (c_requests c)))) as Hnd.
  { rewrite Ho in Hd2. rewrite !fmap_app in Hd2. apply NoDup_app in Hd2 as [Hd2 _]. rewrite <- !list_fmap_compose in Hd2. exact Hd2. }
  clear - Hp Hid Hnd. induction (rq_pending (c_requests c)) as [|a l IH]; [by apply elem_of_nil in Hp|].
  cbn [map] in Hnd. apply NoDup_cons in Hnd as [Ha Hnd]. cbn [List.filter map]. apply elem_of_cons in Hp as [<- | Hp].
  - rewrite bool_decide_true by done. cbn [negb]. rewrite others_kept; [done|]. congruence.
  - rewrite bool_decide_false; [cbn [negb map]; rewrite IH by done; apply Permutation_swap|].
    intros Hida. apply Ha. rewrite Hida, <- Hid. apply list_elem_of_fmap. by exists p.
Qed.

(** Every pending request is rejected. *)
Lemma rejected_fits F G e c : local_error e -> fits F G c ->
  fits F G (rejectPendingRequests e c) /\ rq_pending (c_requests (rejectPendingRequests e c)) = [] /\ c_connection (rejectPendingRequests e c) = c_connection c /\
  same_bounds c (rejectPendingRequests e c).
Proof.
  intros He Hf. unfold rejectPendingRequests. set (c0 := on_requests _ c).
  assert (fits (pending_open c ++ F) G c0) as Hf0.
  { destruct Hf as (s & Hs & [H1 H2 [Ho Hu Hi Hk Hd] Hop Han Hhs]). exists s. split; [done|]. split; [done|done| |done|done|done]. by split. }
  assert (rq_pending (c_requests c0) = [] /\ c_connection c0 = c_connection c /\ same_bounds c c0) as Hv by done. clearbody c0. unfold pending_open in Hf0.
  clear Hf. revert c0 Hf0 Hv. induction (rq_pending (c_requests c)) as [|p l IH]; intros c0 Hf0 Hv; cbn [foldl]; [done|].
  apply IH; [|destruct (settle_view (pr_promise p) (Err e) c0) as (-> & -> & Hs), Hv as (? & ? & Hv); split; [done|]; split; [done|by eapply bounds_trans]].
  cbn [map app] in Hf0. eapply fits_settle; [|exact Hf0]. intros s _. by apply local_answered.
Qed.
End requests.
