(* ===== verification/ClientKeeps.v ===== *)
(** Every operation of the client keeps to the specification. *)
From S2P Require Import Prelude JsNumber JsText JsObject JsData CborWriter CborValue CborEncoder CborDecoder Framing Schema SchemaCheck ProtocolSchemas ProtocolValue ProtocolCodec ClientMessages ClientWorld ClientConnection PiClient ClientSpec.
Local Open Scope nat_scope.

Section keeps.
Context `{Platform} (fuel depth : nat) (do_call : call -> Client -> Client).

Abbreviation good := (good_at depth).
Abbreviation keeps := (keeps_at depth).

(** A call of the environment runs one level deeper, and may add an entry to a set. *)
Hypothesis Hcall : forall d e F G c, depth = S d -> good_at d F (with_slack 1 G) c -> good_at d F G (do_call e c).

(** ** The environment *)

Lemma calls_good d l F : depth = S d -> forall G c, good_at d F (with_slack (length l) G) c -> good_at d F G (foldl (fun c call => do_call call c) c l).
Proof.
  intros Hd. induction l as [|e l IH]; intros G c Hg; cbn [foldl]; [by eapply less_slack|]. apply IH. by apply Hcall.
Qed.

Lemma invoke_good F G o c : good F G (emit o c) -> good F G (invoke do_call o c).1.
Proof.
  intros Hg. unfold invoke. destruct (c_script (emit o c)) as [|r script] eqn:Hs; [done|]. cbn [fst].
  destruct Hg as [Hf (Hp & Hd & Hok & Hb)]. rewrite Hs in Hd. cbn [length] in Hd. assert (exists d, depth = S d) as [d Hdepth] by (exists (pred depth); lia).
  assert (good_at d F (with_slack (length (re_calls r)) G) (set_script script (emit o c))) as Hg.
  { split; [by eapply fits_view; [|destruct Hf as (s & Hst & []); exists s]|]. split; [done|]. split_and!; [cbn; lia|done..|].
    unfold script_calls in *. rewrite Hs in Hb. cbn [with_slack cx_slack cx_budget set_script c_script sum_list_with] in *.
    change (entries_added (set_script script (emit o c))) with (entries_added (emit o c)). lia. }
  apply (calls_good d) in Hg; [|done]. destruct Hg as [Hf' (Hp' & Hd' & Hb')]. split; [done|]. split; [done|]. split; [lia|done].
Qed.

Lemma invoke_keeps o : environment o -> keeps (fun c => (invoke do_call o c).1).
Proof. intros Ho F G c Hc. by apply invoke_good, keeps_output. Qed.

Lemma leases_keep f : keeps (on_leases f).
Proof. by apply keeps_view. Qed.

Lemma state_keeps f : (forall s, listener_sets (f s) = listener_sets s) -> keeps (on_state f).
Proof. intros Hf. apply keeps_view. intros c. split; [done|]. split_and!; [done|done|apply Hf]. Qed.

Lemma isActive_view i c : same_view c (isActive i c).1.
Proof. unfold isActive. by destruct (ls_leases _ !! i). Qed.

Lemma report_keeps e : keeps (reportListenerError do_call e).
Proof. intros F G c Hc. unfold reportListenerError. destruct (c_onListenerError c); [|done]. by apply invoke_keeps. Qed.

Lemma call_listener_keeps l n : keeps (fun c => (call_listener do_call l n c).1).
Proof.
  intros F G c Hc. unfold call_listener. destruct l as [name|sub lease name]; [by apply invoke_keeps|].
  pose proof (isActive_view lease c) as Hv. destruct (isActive lease c) as [c' active]. apply (good_view depth F G c c' Hv) in Hc.
  destruct (active || _); [by apply invoke_keeps|done].
Qed.

Lemma notify_one_keeps n l : keeps (notify_one (call_listener do_call) (reportListenerError do_call) n l).
Proof.
  intros F G c Hc. unfold notify_one. apply (call_listener_keeps l n) in Hc. destruct (call_listener do_call l n c) as [c' [e|]]; [by apply report_keeps|done].
Qed.

Lemma notify_keeps read n : readable read -> keeps (notify (call_listener do_call) (reportListenerError do_call) read n).
Proof. intros Hr. apply keeps_for_each; [done|]. intros l. apply notify_one_keeps. Qed.

Lemma notify_mapped_keeps read id n : (forall i, readable (fun c => reg_set i (read c))) ->
  keeps (notify_mapped (call_listener do_call) (reportListenerError do_call) read id n).
Proof. intros Hr F G c Hc. unfold notify_mapped. destruct (reg_map (read c) !! id); [by apply notify_keeps|done]. Qed.

Lemma server_snapshot_keeps s : keeps (applyServerSnapshot (call_listener do_call) (reportListenerError do_call) s).
Proof.
  intros F G c Hc. unfold applyServerSnapshot. destruct (match _ with Some _ => _ | None => _ end); [done|].
  apply notify_keeps; [apply client_sets_readable|by apply state_keeps].
Qed.

Lemma session_snapshot_keeps s force : keeps (applySessionSnapshot (call_listener do_call) (reportListenerError do_call) s force).
Proof.
  intros F G c Hc. unfold applySessionSnapshot. destruct (negb force && _); [done|].
  apply notify_mapped_keeps; [apply client_sets_readable|]. by do 2 (apply state_keeps; [done|]).
Qed.

Lemma result_keeps r : keeps (applyResult (call_listener do_call) (reportListenerError do_call) r).
Proof.
  intros F G c Hc. destruct r as [d|id|cmd s]; cbn [applyResult]; [done| |by apply session_snapshot_keeps].
  destruct (cs_sessions _ !! id); [by apply session_snapshot_keeps, state_keeps|by apply state_keeps].
Qed.

Lemma event_keeps ev : keeps (applyEvent (call_listener do_call) (reportListenerError do_call) ev).
Proof.
  intros F G c Hc. unfold applyEvent.
  assert (good F G (match ev with
    | ServerSnapshotEvent snapshot => applyServerSnapshot (call_listener do_call) (reportListenerError do_call) snapshot c
    | SessionSnapshotEvent snapshot => applySessionSnapshot (call_listener do_call) (reportListenerError do_call) snapshot false c
    | ProgressEvent _ _ => c
    | RemovedEvent sessionId => on_state (fun s => set_attached (cs_attached s ∖ {[sessionId]}) (set_sessions (delete sessionId (cs_sessions s)) s)) c
    end)) as Hev.
  { destruct ev; [by apply server_snapshot_keeps|by apply session_snapshot_keeps|done|by apply state_keeps]. }
  apply (notify_keeps (fun c => cs_eventListeners (c_state c)) (NEvent ev)) in Hev; [|apply client_sets_readable].
  destruct (getEventSessionId ev) as [[|u id]|]; [done| |done]. apply notify_mapped_keeps; [apply client_sets_readable|done].
Qed.

(** ** The end of a connection *)

Abbreviation changed := (handleConnectionStateChange do_call).

(** The outputs that end a connection. *)
Lemma ended_fits F G c e : fits F G c -> lifecycle c <> Disconnected ->
  let shaking := match lifecycle c with Connected _ _ false => false | _ => true end in
  let c' := set_lifecycle Disconnected c in
  let c' := if shaking then emit (OHandshake (default 0 (lifecycle_id (lifecycle c))) (Err e)) c' else c' in
  fits F G (emit (OState SDisconnected (Some e)) c').
Proof.
  intros (s & Hs & [H1 H2 H3 [Hnd Hop] Han Hhs]) Hl.
  assert (opening_follow (cx_opening G) (mkConnection Disconnected (cn_sequence (c_connection c)) (cn_decoders (c_connection c)) (cn_opening (c_connection c)) (cn_maxFrameLength (c_connection c)))) as Ho.
  { split; [done|]. intros id Hid. split; [by apply Hop|done]. }
  assert (forall p, requests_follow F (with_phase p s) (c_requests c)) as Hr by (intros p; by destruct H3).
  assert (forall n, hellos_follow (cx_hellos G) (Idle n) (cn_sequence (c_connection c))) as Hh by (intros n id b Hib; by destruct (Hhs id b Hib)).
  assert (sp_phase s = Ready (phase_number (sp_phase s)) (default 0 (lifecycle_transport (lifecycle c))) /\ (exists id t, lifecycle c = Connected id t false) \/
    shaking (sp_phase s) = Some (phase_number (sp_phase s)) /\ lifecycle_id (lifecycle c) = Some (phase_number (sp_phase s)) /\
      match lifecycle c with Connected _ _ false => False | _ => True end) as [[Hp (id & t & Hlc)] | (Hp & Hid & Hsh)].
  { destruct (sp_phase s), (lifecycle c) as [| |id' t' []]; try done; destruct H1 as [<- <-]; cbn; by eauto. }
  - rewrite Hlc. exists (with_phase (Idle (phase_number (sp_phase s))) s). split; [|split; [done..|exact (Hh _)]].
    cbn [emit set_trace c_trace set_lifecycle set_connection]. eapply spec_trace; [done|]. eapply Step_closed. exact Hp.
  - rewrite Hid. cbn [default]. replace (match lifecycle c with Connected _ _ false => false | _ => true end) with true by (destruct (lifecycle c) as [| |id' t' []]; done).
    exists (with_phase (Idle (phase_number (sp_phase s))) s). split; [|split; [done..|exact (Hh _)]].
    cbn [emit set_trace c_trace set_lifecycle set_connection default from_option id]. eapply spec_trace; [eapply spec_trace; [done|by apply Step_failed]|]. by eapply (Step_disconnected (with_phase _ s)).
Qed.

Lemma ended_good F G e c : local_error e \/ rq_pending (c_requests c) = [] -> bounded depth G c ->
  fits F G (emit (OState SDisconnected (Some e)) c) -> good F G (changed SDisconnected (Some e) c).
Proof.
  intros He Hb Hf. unfold handleConnectionStateChange. cbn [default]. apply notify_keeps; [apply client_sets_readable|]. set (c1 := emit _ c) in *.
  set (c2 := on_leases invalidateAllSessionLeases (on_state clearAttachments c1)).
  assert (same_view c1 c2) as [Hv Hv'] by done. apply (fits_view F G _ _ Hv) in Hf.
  assert (bounded depth G c2) as Hb2 by (eapply bounds_same; [|exact Hb]; done). cbn [from_option id]. destruct He as [He|He].
  - destruct (rejected_fits F G e _ He Hf) as (Hg & Hp & _ & Hs). split; [done|]. split; [unfold pending_connected; by rewrite Hp|by eapply bounds_same].
  - unfold rejectPendingRequests. cbn [c_requests on_leases on_state set_leases set_state c2 c1 emit set_trace]. rewrite He. cbn [foldl].
    assert (forall q, q = c_requests c -> mkRequests [] (rq_sequence q) (rq_promises q) = q) as Hq by (intros q ->; destruct (c_requests c); cbn in *; by subst).
    split; [eapply fits_view; [|exact Hf]; split_and!; try done; by apply Hq|]. split; [intros Hn; by destruct Hn|done].
Qed.

Lemma fail_keeps F G e c : local_error e \/ connected c = false -> good F G c -> good F G (fail_connection changed e c).
Proof.
  intros He [Hf [Hp Hb]].
  assert (local_error e \/ rq_pending (c_requests c) = []) as He'.
  { destruct He as [He|He]; [by left|]. right. destruct (rq_pending (c_requests c)) eqn:Hq; [done|]. unfold pending_connected in Hp. rewrite Hq in Hp. rewrite Hp in He; done. }
  unfold fail_connection. pose proof (ended_fits F G c e Hf) as Hend.
  destruct (lifecycle c) as [|id t|id t [|]] eqn:Hl; [by split| | |];
    (apply ended_good; [exact He'|eapply bounds_same; [|exact Hb]; done|by apply Hend]).
Qed.

Lemma close_keeps t : keeps (close_transport do_call t).
Proof. by apply invoke_keeps. Qed.

Lemma fail_close_keeps F G e c : local_error e \/ connected c = false -> good F G c -> good F G (failAndClose do_call changed e c).
Proof.
  intros He Hg. unfold failAndClose. apply (fail_keeps F G e c He) in Hg. destruct (lifecycle_transport _); [by apply close_keeps|done].
Qed.
(** ** Requests *)

Lemma connected_calm G c : connected c = true -> bounded depth G c -> calm depth G c.
Proof. intros Hc Hb. split; [by intros _|done]. Qed.

Lemma send_keeps frame : keeps (fun c => (send_frame do_call changed frame c).1).
Proof.
  intros F G c [Hf Hp]. unfold send_frame. destruct (lifecycle c) as [| |id t hs] eqn:Hl; [by split..|].
  assert (good F G (emit (OSend t frame) c)) as Hg.
  { split; [|done]. eapply (fits_step F F G G _ c); [reflexivity| |exact Hf]. intros s Hs. exists s. split; [|by destruct Hs; split].
    destruct (live_connected s c F G Hs) as (id' & t' & hs' & Hlive & Hl'); [unfold connected; by rewrite Hl|]. rewrite Hl in Hl'. injection Hl' as <- <- _. by eapply Step_request_sent. }
  apply invoke_good in Hg. destruct (invoke do_call (OSend t frame) c) as [c' [e|]]; cbn [fst] in *; [|done]. apply fail_close_keeps; [left; apply local_disconnected|done].
Qed.

Lemma promise_keeps r : keeps (fun c => (new_promise r c).1).
Proof.
  intros F G c [(s & Hs & [H1 H2 [Ho Hu Hi Hk Hd] H4 H5 H7]) Hp]. split; [|done]. exists s. split; [done|]. split; [done|done| |done|done|done].
  cbn [new_promise fst on_requests set_requests c_requests]. split; cbn [rq_pending rq_promises rq_sequence]; try done.
  - intros x Hx. apply lookup_app_l_Some. by apply Hu.
  - intros x Hx. rewrite length_app. destruct (Hi x Hx) as [? ?]. split; [lia|done].
Qed.

(** A request is issued. *)
Lemma issued_fits F G c command : fits F G c -> connected c = true ->
  let q := c_requests c in
  let id := request_id (S (rq_sequence q)) in
  let p := length (rq_promises q) in
  fits F G (emit (OIssue p id command) (set_requests (mkRequests (rq_pending q ++ [mkPending id command p]) (S (rq_sequence q)) (rq_promises q ++ [None])) c)).
Proof.
  intros Hf Hc q id p. eapply (fits_step F F G G _ c); [reflexivity| |exact Hf]. intros s Hs.
  destruct (live_connected s c F G Hs Hc) as (cid & t & hs & Hlive & _). destruct Hs as [H1 H2 [Ho Hu Hi Hk [Hd1 Hd2]] H4 H5 H7].
  assert (p ∉ (sp_issued s).*1) as Hp.
  { intros (x & Hxp & Hx)%list_elem_of_fmap. destruct (Hi x Hx) as [Hlt _]. rewrite <- Hxp in Hlt. unfold p, q in Hlt. lia. }
  assert (id ∉ (sp_issued s).*2) as Hid.
  { intros (x & Hid & Hx)%list_elem_of_fmap. destruct (Hi x Hx) as (_ & n & Hn & Hx2). rewrite Hx2 in Hid. apply request_id_inj in Hid. unfold q in Hid. lia. }
  eexists. split; [apply Step_issue; [by rewrite Hlive|exact Hp|exact Hid]|].
  split; [exact H1|exact H2| |exact H4|exact H5|exact H7].
  split; cbn [sp_open sp_issued c_requests emit set_trace set_requests rq_pending rq_promises rq_sequence].
  - rewrite map_app, Ho. cbn [map pr_promise pr_id pr_command]. rewrite <- !app_assoc. apply Permutation_app; [done|]. apply Permutation_app_comm.
  - intros x [Hx | Hx%list_elem_of_singleton]%elem_of_app; [by apply lookup_app_l_Some, Hu|]. subst x. cbn [fst]. apply list_lookup_middle. done.
  - intros x [Hx | Hx%list_elem_of_singleton]%elem_of_app; rewrite length_app; cbn [length].
    + destruct (Hi x Hx) as (? & n & ? & ?). unfold q. split; [lia|]. exists n. split; [lia|done].
    + subst x. split; [cbn [fst]; unfold p, q; lia|]. by exists (S (rq_sequence q)).
  - intros x [Hx | Hx%list_elem_of_singleton]%elem_of_app; apply elem_of_app; [left; by apply Hk|right]. subst x. by left.
  - assert (forall x, x ∈ sp_open s -> x.1.1 <> p /\ x.1.2 <> id) as Hnew.
    { intros x Hx. apply Hk in Hx. split; intros Heq; [apply Hp|apply Hid]; rewrite <- Heq; apply list_elem_of_fmap; by exists (x.1.1, x.1.2). }
    rewrite !fmap_app. split; apply NoDup_app; (split_and!; [done| |by apply NoDup_singleton]);
      intros y (z & -> & (x & -> & Hx)%list_elem_of_fmap)%list_elem_of_fmap Hy%list_elem_of_singleton; destruct (Hnew x Hx); by cbn in Hy.
Qed.

Lemma request_keeps command : keeps (fun c => (request do_call command c).1).
Proof.
  intros F G c Hg. unfold request. destruct (c_disposed c); [by apply promise_keeps|].
  destruct (connected c) eqn:Hc; [|by apply promise_keeps]. cbn [negb new_promise on_requests set_requests c_requests rq_sequence rq_promises rq_pending fst snd].
  destruct Hg as [Hf [_ Hb]]. pose proof (issued_fits F G c command Hf Hc) as Hi. cbn zeta in Hi.
  set (c1 := emit _ _) in *. assert (calm depth G c1) as Hc1 by (apply connected_calm; [exact Hc|eapply bounds_same; [|exact Hb]; done]). cbn [c_connection set_requests].
  destruct (encode_request _ _ command) as [frame|e]; cbn [fst].
  - apply send_keeps. by split.
  - pose proof (taken_fits F G (request_id (S (rq_sequence (c_requests c)))) c1 Hi) as Ht. destruct (takePendingRequest _ c1) as [c2 [p|]]; cbn [fst].
    + destruct Ht as (_ & _ & Ht & Hcn & Hs). eapply good_settle; [intros s _; by apply local_answered|]. split; [exact Ht|].
      apply connected_calm; [unfold connected; by rewrite Hcn|eapply bounds_same; [exact Hs|apply Hc1]].
    + subst c2. by split.
Qed.

(** ** Messages *)

Lemma more_answers F G A c : good F (with_answers A G) c -> good F G c.
Proof.
  intros [(s & Hs & [H1 H2 H3 H4 H5 H7]) Hp]. split; [|done]. exists s. split; [done|]. split; try done. intros a Ha. apply H5. apply elem_of_app. by right.
Qed.

(** A message arrives. *)
Lemma arrived_good F G m c : connected c = true -> good F G c -> good F (with_answers (answers m) G) (emit (OMessage m) c).
Proof.
  intros Hc [Hf [_ Hb]]. split; [|apply connected_calm; [exact Hc|eapply bounds_same; [|exact Hb]; done]]. eapply (fits_step F F G _ _ c); [reflexivity| |exact Hf]. intros s Hs.
  destruct (live_connected s c F G Hs Hc) as (id & t & hs & Hlive & _). eexists. split; [apply Step_message; by rewrite Hlive|].
  destruct Hs as [H1 H2 [] H4 H5 H7]. split; [done|done|by split|done| |exact H7]. cbn [cx_answers sp_answers]. intros a [Ha|Ha]%elem_of_app; apply elem_of_app; [by left|right; by apply H5].
Qed.

Lemma message_keeps F G m c : answers m ⊆ cx_answers G -> good F G c -> good F G (handleMessage do_call m c).
Proof.
  intros Hm Hg. destruct m as [s|d|id r|ev]; cbn [handleMessage]; [done|done| |].
  - pose proof (taken_fits F G id c (proj1 Hg)) as Ht. destruct (takePendingRequest id c) as [c1 [p|]].
    2: { subst c1. apply fail_close_keeps; [by left|done]. }
    destruct Ht as (Hid & Hp & Ht & Hcn & Hsb).
    assert (connected c = true) as Hc by (apply (proj1 (proj2 Hg)); intros Hnil; rewrite Hnil in Hp; by apply elem_of_nil in Hp).
    assert (good ((pr_promise p, pr_id p, pr_command p) :: F) G c1) as Hg1 by (split; [done|]; apply connected_calm; [unfold connected; by rewrite Hcn|eapply bounds_same; [exact Hsb|apply Hg]]).
    assert ((pr_id p, r) ∈ cx_answers G) as Ha by (apply Hm; rewrite Hid; by left).
    destruct r as [error|result].
    + eapply good_settle; [|exact Hg1]. intros s [_ _ _ _ Hs _]. by apply Hs.
    + destruct (decide _) as [Heq|Hne].
      * eapply good_settle; [|by apply result_keeps]. intros s [_ _ _ _ Hs _]. split; [done|by apply Hs].
      * apply fail_close_keeps; [by left|]. eapply good_settle; [|exact Hg1]. intros s _. by apply local_answered.
  - apply event_keeps. by destruct ev; [..|apply leases_keep].
Qed.

(** ** The handshake *)

Lemma hello_failed_keeps id e : keeps (hello_failed do_call changed id e).
Proof. intros F G c Hg. unfold hello_failed. destruct (isCurrent id c); [|done]. apply fail_close_keeps; [left; apply local_disconnected|done]. Qed.

Lemma opening_incl (l : list nat) f G (P : nat -> Prop) : NoDup (l ++ G) -> (forall id, id ∈ l ++ G -> P id) ->
  NoDup (List.filter f l ++ G) /\ forall id, id ∈ List.filter f l ++ G -> P id.
Proof.
  intros Hnd HP. assert (forall x, x ∈ List.filter f l -> x ∈ l) as Hin by (intros x; rewrite !list_elem_of_In; by intros [? _]%filter_In).
  apply NoDup_app in Hnd as (H1 & H2 & H3). split.
  - apply NoDup_app. split_and!; [|intros x Hx; by apply H2, Hin|done]. rewrite NoDup_ListNoDup in *. by apply List.NoDup_filter.
  - intros x [Hx|Hx]%elem_of_app; apply HP, elem_of_app; [left; by apply Hin|by right].
Qed.

Lemma factory_settled_keeps id r : keeps (factory_settled do_call changed id r).
Proof.
  intros F G c Hg. unfold factory_settled. destruct (decide _) as [Hin|_]; [|done]. set (c1 := set_opening _ c).
  assert (good F G c1) as Hg1.
  { destruct Hg as [(s & Hs & [H1 H2 H3 [H4 H5] H6 H7]) Hp]. split; [|done]. exists s. split; [done|]. split; [done|done|done| |done|done]. by apply opening_incl. }
  assert (forall t, lifecycle c1 <> Connecting id (Some t) /\ id ∉ cn_opening (c_connection c1) ++ cx_opening G) as Hfree.
  { intros t. destruct Hg as [(s & Hs & [H1 H2 H3 [H4 H5] H6 H7]) Hp]. split; [apply H5, elem_of_app; by left|].
    intros [Hx|Hx]%elem_of_app; [cbn in Hx; apply list_elem_of_In, filter_In in Hx as [_ Hx]; by rewrite Nat.eqb_refl in Hx|].
    apply NoDup_app in H4 as (_ & H4 & _). by apply (H4 id). }
  clearbody c1. clear Hg Hin. destruct r as [t|e].
  2: { destruct (isCurrent id c1); [|done]. apply fail_keeps; [left; apply local_disconnected|done]. }
  destruct (lifecycle c1) as [|id' t'|id' t' hs] eqn:Hl; [by apply close_keeps| |by apply close_keeps]. destruct (decide (id' = id)) as [-> | _]; [|by apply close_keeps].
  destruct t' as [t'|]; [by destruct (Hfree t') as [[] _]|].
  destruct Hg1 as [(s & Hs & [H1 H2 H3 [H4 H5] H6 H7]) Hp]. rewrite Hl in H1. destruct (sp_phase s) as [|oid ot| | | |] eqn:Hph; try done. destruct H1 as [-> ->].
  cbn [set_lifecycle c_connection set_connection cn_maxFrameLength].
  destruct (encode_hello _) as [frame|e] eqn:Henc.
  - assert (spec_step s (OSend t frame) (with_phase (Opening id (Some t)) s)) as Hstep by (by eapply Step_hello_sent). clear Henc.
    set (c2 := set_lifecycle (Connecting id (Some t)) c1).
    assert (good F G (emit (OSend t frame) c2)) as Hg2.
    { split; [|split; [intros Hne; cbn in Hne; apply (proj1 Hp) in Hne; unfold connected in Hne; by rewrite Hl in Hne|eapply bounds_same; [|exact (proj2 Hp)]; done]].
      exists (with_phase (Opening id (Some t)) s). split; [cbn [emit set_trace c_trace c2 set_lifecycle set_connection]; by eapply spec_trace|].
      split; [done|exact H2|by destruct H3| |done|exact H7]. split; [done|]. intros id' Hid'. destruct (H5 id' Hid'). split; [done|]. intros t' [= <-]. by destruct (Hfree t') as [_ []]. }
    apply invoke_good in Hg2. destruct (invoke do_call (OSend t frame) c2) as [c3 [e|]]; [by apply hello_failed_keeps|done].
  - clear Henc. unfold hello_failed, isCurrent. cbn [lifecycle_id c_connection set_lifecycle set_connection cn_lifecycle]. rewrite bool_decide_true by done.
    assert (good F G c1) as Hg1 by (split; [exists s; split; [done|by split; rewrite ?Hl, ?Hph]|done]). unfold failAndClose. cbn [lifecycle_transport c_connection set_lifecycle set_connection cn_lifecycle].
    apply close_keeps. apply (fail_keeps F G (toDisconnectedError (ProtocolFailure e)) c1 (or_introl (local_disconnected _))) in Hg1. unfold fail_connection in *. rewrite Hl in Hg1. exact Hg1.
Qed.

(** The factory is called for the connection this call opened. *)
Lemma openTransport_keeps F G id c : good F (with_opening id G) c -> good F G (openTransport do_call changed id c).
Proof.
  intros Hg. unfold openTransport. apply (invoke_keeps (OFactory id) I) in Hg.
  assert (forall c, good F (with_opening id G) c -> good F G c) as Hdrop.
  { clear. intros c [(s & Hs & [H1 H2 H3 [H4 H5] H6 H7]) Hp]. split; [|done]. exists s. split; [done|]. split; [done|done|done| |done|done]. cbn [with_opening cx_opening] in *. split.
    - rewrite <- Permutation_middle in H4. by apply NoDup_cons in H4 as [_ H4].
    - intros id' Hid. apply H5. rewrite <- Permutation_middle. by right. }
  destruct (invoke do_call (OFactory id) c) as [c1 [e|]]; cbn [fst] in Hg.
  - apply Hdrop in Hg. destruct (isCurrent id c1); [|done]. apply fail_keeps; [left; apply local_disconnected|done].
  - destruct Hg as [(s & Hs & [H1 H2 H3 H4 H6 H7]) Hp]. split; [|done]. exists s. split; [done|]. split; [done|done|done| |done|done].
    unfold opening_follow in *. cbn [with_opening set_opening c_connection set_connection cn_opening cn_sequence cn_lifecycle cx_opening] in *. by rewrite <- app_assoc.
Qed.

Lemma changed_keeps F G st c : st <> SDisconnected -> good F G (emit (OState st None) c) -> good F G (changed st None c).
Proof. intros Hst Hg. unfold handleConnectionStateChange. destruct st; [done|(apply notify_keeps; [apply client_sets_readable|done])..]. Qed.

Lemma connect_keeps : keeps (connect_connection do_call changed).
Proof.
  intros F G c Hg. unfold connect_connection. destruct (lifecycle c) eqn:Hl; [|done..].
  destruct Hg as [(s & Hs & [H1 H2 H3 [H4 H5] H6 H7]) Hp]. rewrite Hl in H1. destruct (sp_phase s) as [n| | | | |] eqn:Hph; try done. cbn [phase_number] in H2.
  assert (rq_pending (c_requests c) = []) as Hq.
  { destruct (rq_pending (c_requests c)) eqn:Hq; [done|]. destruct Hp as [Hp _]. unfold pending_connected, connected in Hp. rewrite Hq, Hl in Hp. by specialize (Hp ltac:(done)). }
  cbn [next_connection c_connection set_connection cn_maxFrameLength cn_sequence].
  destruct (new_MessageDecoder _ _) as [d|e].
  - apply openTransport_keeps. apply changed_keeps; [done|]. split.
    + exists (with_phase (Opening (S (cn_sequence (c_connection c))) None) s). split; [cbn [emit set_trace c_trace set_lifecycle set_decoder set_connection]; eapply spec_trace; [done|eapply Step_connecting; [done|lia]]|].
      split; [done|done|by destruct H3| |done|]; cycle 1.
      { intros id b Hib. destruct (H7 id b Hib) as [Hle _]. split; [cbn; lia|]. cbn. lia. }
      cbn [with_opening cx_opening]. split.
      * cbn [emit set_trace c_connection set_lifecycle set_decoder set_connection cn_opening]. rewrite <- Permutation_middle. constructor; [|done].
        intros Hin. apply H5 in Hin as [Hin _]. lia.
      * cbn [emit set_trace c_connection set_lifecycle set_decoder set_connection cn_opening cn_sequence cn_lifecycle]. intros id Hid. split; [|done].
        rewrite <- Permutation_middle in Hid. apply elem_of_cons in Hid as [-> | Hid]; [done|]. apply H5 in Hid as [Hid _]. cbn. lia.
    + split; [intros Hne; exfalso; apply Hne; exact Hq|eapply bounds_same; [|exact (proj2 Hp)]; done].
  - split; [|split; [intros Hne; exfalso; apply Hne; exact Hq|eapply bounds_same; [|exact (proj2 Hp)]; done]]. exists s. split; [done|]. split; [by rewrite Hph; cbn; rewrite Hl|rewrite Hph; cbn; lia|done| |done|]; cycle 1.
    { intros id b Hib. destruct (H7 id b Hib) as [Hle _]. rewrite Hph. split; [cbn; lia|done]. }
    split; [done|]. intros id Hid. destruct (H5 id Hid) as [Hle Hne]. split; [cbn; lia|done].
Qed.

Lemma disconnect_keeps e : local_error e -> keeps (disconnect_connection do_call changed e).
Proof. intros He F G c Hg. unfold disconnect_connection. destruct (lifecycle c); [done|apply fail_close_keeps; [by left|done]..]. Qed.

Lemma send_failed_keeps t e : keeps (send_failed do_call changed t e).
Proof. intros F G c Hg. unfold send_failed. destruct (bool_decide _); [|done]. apply fail_close_keeps; [left; apply local_disconnected|done]. Qed.

Lemma error_keeps id e : keeps (handleError do_call changed id e).
Proof. intros F G c Hg. unfold handleError. destruct (isCurrent id c); [|done]. apply fail_close_keeps; [left; apply local_disconnected|done]. Qed.

Lemma closed_keeps id : keeps (handleClose changed id).
Proof.
  intros F G c Hg. unfold handleClose. destruct (isCurrent id c); [|done]. destruct (cn_decoders _ !! id) as [d|]; [|done].
  destruct (md_end d) as [d' r]. apply fail_keeps; [left; by destruct r|]. by eapply good_view; [|exact Hg].
Qed.

(** ** Hello *)

Lemma without_hello F G id b c : good F (with_hello id b G) c -> good F G c.
Proof.
  intros [(s & Hs & [H1 H2 H3 H4 H5 H7]) Hp]. split; [|done]. exists s. split; [done|]. split; try done. intros id' b' Hin. apply H7. by right.
Qed.

(** The server says hello. *)
Lemma hello_good F G id t snapshot c : lifecycle c = Connecting id (Some t) -> good F G c ->
  good F (with_hello id false G) (emit (OHello id snapshot) (set_lifecycle (Connected id t true) c)) /\ forall b, (id, b) ∉ cx_hellos G.
Proof.
  intros Hl [(s & Hs & [H1 H2 H3 [H4 H5] H6 H7]) Hp]. rewrite Hl in H1. destruct (sp_phase s) as [|oid ot| | | |] eqn:Hph; try done. destruct H1 as [-> ->].
  assert (forall b, (id, b) ∉ cx_hellos G) as Hnew by (intros b Hb; apply H7 in Hb as [_ Hb]; done).
  split; [|done]. split; [|apply connected_calm; [done|eapply bounds_same; [|exact (proj2 Hp)]; done]]. exists (with_phase (Greeted id t) s).
  split; [cbn [emit set_trace c_trace set_lifecycle set_connection]; eapply spec_trace; [done|by apply Step_hello]|].
  split; [done|exact H2|by destruct H3| |done|].
  - split; [done|]. intros id' Hid. split; [by apply H5|done].
  - intros id' b [[= -> ->]|Hin]%elem_of_cons; [by split; [exact H2|]|]. destruct (H7 id' b Hin) as [Hle _]. split; [done|]. cbn. intros _ ->. by apply (Hnew b).
Qed.

(** The connection is announced. *)
Lemma announced_good F G id t c : lifecycle c = Connected id t true -> (forall b, (id, b) ∉ cx_hellos G) -> good F (with_hello id false G) c ->
  good F (with_hello id true G) (emit (OState SConnected None) c).
Proof.
  intros Hl Hnew [(s & Hs & [H1 H2 H3 H4 H6 H7]) Hp]. rewrite Hl in H1.
  assert (sp_phase s = Greeted id t) as Hph.
  { destruct (H7 id false ltac:(by left)) as [_ H8]. destruct (sp_phase s); try done; destruct H1 as [-> ->]; [done|]. by destruct (H8 eq_refl). }
  rewrite Hph in *. split; [|done]. exists (with_phase (Announced id t) s). split; [cbn [emit set_trace c_trace]; eapply spec_trace; [done|by apply Step_connected]|].
  split; [cbn; by rewrite Hl|exact H2|by destruct H3|done|done|].
  intros id' b [[= -> ->]|Hin]%elem_of_cons; [by split; [exact H2|]|]. destruct (H7 id' b ltac:(by right)) as [Hle _]. split; [done|]. cbn. intros _ ->. by apply (Hnew b).
Qed.

(** The handshake is settled. *)
Lemma shaken_good F G id t snapshot c : lifecycle c = Connected id t true -> good F (with_hello id true G) c ->
  good F (with_hello id true G) (emit (OHandshake id (Ok snapshot)) (set_lifecycle (Connected id t false) c)).
Proof.
  intros Hl [(s & Hs & [H1 H2 H3 [H4 H5] H6 H7]) Hp]. rewrite Hl in H1.
  assert (sp_phase s = Announced id t) as Hph.
  { destruct (H7 id true ltac:(by left)) as [_ H8]. destruct (sp_phase s); try done; destruct H1 as [-> ->]; [|done]. by destruct (H8 eq_refl). }
  rewrite Hph in *. split; [|apply connected_calm; [done|eapply bounds_same; [|exact (proj2 Hp)]; done]]. exists (with_phase (Ready id t) s).
  split; [cbn [emit set_trace c_trace set_lifecycle set_connection]; eapply spec_trace; [done|by apply Step_ready]|].
  split; [done|exact H2|by destruct H3| |done|].
  - split; [done|]. intros id' Hid. split; [by apply H5|done].
  - intros id' b Hin. by destruct (H7 id' b Hin).
Qed.

Lemma server_message_keeps m : keeps (handle_server_message do_call (onHandshake do_call) (handleMessage do_call) changed m).
Proof.
  intros F G c Hg. unfold handle_server_message. destruct (lifecycle c) as [|id t|id t hs] eqn:Hl; [done| |].
  - assert (connected c = false) as Hc by (unfold connected; by rewrite Hl).
    destruct m as [s|d|rid r|ev]; [|by apply fail_close_keeps; [right|]|by apply fail_close_keeps; [left|]..].
    destruct t as [t|]; [|by apply fail_close_keeps; [left|]].
    destruct (hello_good F G id t s c Hl Hg) as [Hh Hnew]. unfold onHandshake. apply (server_snapshot_keeps s) in Hh.
    destruct (decide _) as [Hl1|_]; [|by eapply without_hello].
    assert (good F (with_hello id true G) (changed SConnected None (applyServerSnapshot (call_listener do_call) (reportListenerError do_call) s
      (emit (OHello id s) (set_lifecycle (Connected id t true) c))))) as Ha by (apply changed_keeps; [done|by eapply announced_good]).
    destruct (decide _) as [Hl2|_]; [|by eapply without_hello]. eapply without_hello. by apply shaken_good.
  - assert (connected c = true) as Hc by (unfold connected; by rewrite Hl).
    destruct m as [s|d|rid r|ev]; [by apply fail_close_keeps; [left|]..| |];
      (eapply more_answers, message_keeps; [|by apply arrived_good]; intros a Ha; apply elem_of_app; by left).
Qed.

Lemma messages_keep l : keeps (handle_messages do_call (onHandshake do_call) (handleMessage do_call) changed l).
Proof.
  induction l as [|t l IH]; intros F G c Hg; cbn [handle_messages]; [done|].
  destruct (lifecycle c), (server_message (of_cbor t)) as [m|]; try done; by apply IH, server_message_keeps.
Qed.

Lemma data_keeps id chunk : keeps (handleData fuel do_call (onHandshake do_call) (handleMessage do_call) changed id chunk).
Proof.
  intros F G c Hg. unfold handleData. destruct (isCurrent id c); [|done].
  assert (forall d, good F G (match md_push fuel d chunk with (d', r) => match r with
      | Ok messages => handle_messages do_call (onHandshake do_call) (handleMessage do_call) changed messages (set_decoder id d' c)
      | Err e => failAndClose do_call changed (ProtocolFailure e) (set_decoder id d' c) end end)) as Hd.
  { intros d. destruct (md_push fuel d chunk) as [d' r]. assert (good F G (set_decoder id d' c)) as Hg' by (by eapply good_view; [|exact Hg]).
    destruct r as [l|e]; [by apply messages_keep|by apply fail_close_keeps; [left|]]. }
  destruct (lifecycle c) as [|id' [t|]|id' t hs], (cn_decoders (c_connection c) !! id) as [d|]; try done; try apply Hd; by apply fail_close_keeps; [left|].
Qed.

(** ** The methods of the client *)

Lemma client_connect_keeps : keeps (connect do_call).
Proof.
  intros F G c Hg. unfold connect. destruct (c_disposed c); [done|]. apply connect_keeps. destruct (lifecycle c); [by apply state_keeps|done..].
Qed.

Lemma dispose_keeps : keeps (dispose do_call).
Proof.
  intros F G c Hg. unfold dispose. destruct (c_disposed c); [done|].
  assert (good F G (rejectPendingRequests PiClientDisposedError (set_disposed true c))) as Hr.
  { destruct Hg as [Hf Hp]. assert (fits F G (set_disposed true c)) as Hf' by (by eapply fits_view; [|exact Hf]).
    destruct (rejected_fits F G PiClientDisposedError _ I Hf') as (Hg & Hq & _ & Hs). split; [done|].
    split; [unfold pending_connected; by rewrite Hq|eapply bounds_same; [exact Hs|]]. eapply bounds_same; [|exact (proj2 Hp)]. done. }
  apply (disconnect_keeps PiClientDisposedError I) in Hr. eapply sets_shrink; [..|exact Hr]; [done|done|].
  unfold sets_ok, entries_added. cbn. intros (H1 & H2 & H3 & H4 & H5). split; [split_and!; try done; constructor|done].
Qed.

Lemma unsubscribe_keeps k : keeps (unsubscribe k).
Proof.
  intros F G c Hg. unfold unsubscribe. destruct (c_subscriptions c !! k) as [[l|l|l|i id l|i id l]|]; [..|done];
    (eapply sets_shrink; [..|exact Hg]; [done|done|]); unfold sets_ok, entries_added; cbn; intros (H1 & H2 & H3 & H4 & H5).
  1-3: split; [split_and!; try done; by apply set_delete_ok|lia].
  - destruct (remove_mapped_ok i id l _ H4) as [? ?]. split; [by split_and!|lia].
  - destruct (remove_mapped_ok i id l _ H5) as [? ?]. split; [by split_and!|lia].
Qed.

(** The operations that add a listener; a call of the environment may be one. *)
Definition adds (f : Client -> Client) : Prop := forall F G c, good F (with_slack 1 G) c -> good F G (f c).

Lemma keeps_adds f : keeps f -> adds f.
Proof. intros Hf F G c Hg. by apply Hf, less_slack with 1. Qed.

Lemma added_good F G c c' : same_outputs c c' -> c_script c' = c_script c -> (sets_ok c -> sets_ok c' /\ entries_added c' <= 1 + entries_added c) ->
  good F (with_slack 1 G) c -> good F G c'.
Proof. apply sets_grow. Qed.

Lemma subscriptions_add l : adds (subscribe l) /\ adds (onEvent l) /\ adds (onConnectionStateChange l).
Proof.
  unfold subscribe, onEvent, onConnectionStateChange.
  split_and!; intros F G c Hg; (destruct (c_disposed c); [by eapply less_slack|]; eapply added_good; [..|exact Hg]; [done|done|]);
    unfold sets_ok, entries_added; cbn; intros (H1 & H2 & H3 & H4 & H5).
  - destruct (set_insert_ok (App l) _ H2). split; [by split_and!|lia].
  - destruct (set_insert_ok (App l) _ H3). split; [by split_and!|lia].
  - destruct (set_insert_ok (App l) _ H1). split; [by split_and!|lia].
Qed.

(** ** Sessions and leases *)

Lemma set_leases_keeps l : keeps (set_leases l).
Proof. by apply keeps_view. Qed.

(** A request whose promise the rest of a call uses. *)
Lemma with_request_keeps command f : (forall promise, keeps (f promise)) -> keeps (fun c => let '(c, promise) := request do_call command c in f promise c).
Proof. intros Hf F G c Hg. apply (request_keeps command) in Hg. destruct (request do_call command c) as [c' promise]. by apply Hf. Qed.

Lemma attach_session_keeps id : keeps (fun c => (attach_session do_call id c).1).
Proof.
  intros F G c Hg. unfold attach_session. cbn [forgetSessionSnapshot].
  apply (state_keeps (set_sessions (delete id (cs_sessions (c_state c))))) in Hg; [|done]. apply (request_keeps (AttachCommand id)) in Hg.
  unfold on_state in Hg. destruct (request do_call (AttachCommand id) _) as [c' p]. cbn [fst] in *. by apply leases_keep.
Qed.

Lemma reconcile_keeps id : keeps (fun c => (reconcileSessionCleanup do_call id c).1).
Proof.
  intros F G c Hg. unfold reconcileSessionCleanup. destruct (ls_reconciliations _ !! id); [done|].
  apply (request_keeps (DetachCommand id)) in Hg. destruct (request do_call (DetachCommand id) c) as [c' p]. cbn [fst] in *. by apply leases_keep, leases_keep.
Qed.

Lemma acquire_finish_keeps i id token : keeps (acquire_finish i id token).
Proof. by apply keeps_view. Qed.

Lemma acquire_failed_keeps i id token e : keeps (acquire_failed i id token e).
Proof. by apply keeps_view. Qed.

Lemma acquire_attach_keeps i id token b : keeps (acquire_attach do_call i id token b).
Proof.
  intros F G c Hg. unfold acquire_attach. destruct (b || _); [|by apply acquire_finish_keeps].
  destruct (ls_attachments _ !! id); [by apply leases_keep|]. apply (attach_session_keeps id) in Hg. destruct (attach_session do_call id c) as [c' job]. by apply leases_keep, leases_keep.
Qed.

Lemma acquire_reconcile_keeps i id token : keeps (acquire_reconcile do_call i id token).
Proof.
  intros F G c Hg. unfold acquire_reconcile. destruct (decide _); [|by apply acquire_attach_keeps].
  apply (reconcile_keeps id) in Hg. destruct (reconcileSessionCleanup do_call id c) as [c' job]. by apply leases_keep.
Qed.

Lemma acquire_keeps id mode : keeps (acquireSession do_call id mode).
Proof.
  intros F G c Hg. unfold acquireSession. destruct (c_disposed c); [by apply leases_keep|].
  destruct (reserveSessionLease id mode (c_leases c)) as [[l token]|e]; [|by apply leases_keep].
  destruct (ls_detachments _ !! id); [by apply leases_keep, set_leases_keeps|by apply acquire_reconcile_keeps, set_leases_keeps].
Qed.

Lemma create_keeps o : keeps (createSession do_call o).
Proof.
  intros F G c Hg. unfold createSession. eapply (with_request_keeps (CreateCommand o) (fun p => on_leases (put_task (next_task c) (Creating p)))); [intros p; apply leases_keep|by apply leases_keep].
Qed.

Lemma created_keeps i s : keeps (session_created i s).
Proof. apply keeps_view. intros c. unfold session_created. by destruct (reserveSessionLease _ _ _) as [[l token]|e]. Qed.

Lemma assertActive_view i c : same_view c (assertActive i c).1.
Proof.
  unfold assertActive. destruct (c_disposed c); [done|]. destruct (negb (connected c)); [done|].
  pose proof (isActive_view i c) as Hv. by destruct (isActive i c) as [c' []].
Qed.

Lemma start_release_keeps i x b : keeps (start_release do_call i x b).
Proof.
  intros F G c Hg. unfold start_release. apply leases_keep. destruct (count_of _ _ <=? 1); [|by repeat apply leases_keep].
  assert (good F G (on_leases (add_task Running) (on_leases (put_lease i (with_lease_state LeaseReleasing x)) c))) as Hg' by (by repeat apply leases_keep).
  apply (request_keeps (DetachCommand (le_session x))) in Hg'. destruct (request do_call _ _) as [c' p]. by repeat apply leases_keep.
Qed.

Lemma release_keeps i b : keeps (release do_call i b).
Proof.
  intros F G c Hg. unfold release. apply (leases_keep (refreshState i)) in Hg. destruct (ls_leases _ !! i) as [x|]; [|done].
  pose proof (assertActive_view i (on_leases (refreshState i) c)) as Hv. destruct (assertActive i _) as [c1 [e|]]; apply (good_view depth F G _ _ Hv) in Hg as Hg1;
    destruct (le_state x), (le_release x); try done; by apply start_release_keeps.
Qed.

Lemma lease_listener_adds i l : adds (lease_listener subscribeSession i l) /\ adds (lease_listener onSessionEvent i l).
Proof.
  split; intros F G c Hg; unfold lease_listener; pose proof (assertActive_view i c) as Hv;
    (destruct (assertActive i c) as [c1 [e|]]; apply (good_view depth F _ _ _ Hv) in Hg; [by eapply less_slack|]);
    (destruct (ls_leases _ !! i) as [x|]; [|by eapply less_slack]); unfold subscribeSession, onSessionEvent;
    destruct (addMappedListener _ _ _) as [r k] eqn:Hadd; (eapply added_good; [..|exact Hg]; [done|done|]);
    unfold sets_ok, entries_added; cbn; intros (H1 & H2 & H3 & H4 & H5).
  - destruct (add_mapped_ok (le_session x) (Wrapped (length (c_subscriptions c1)) i l) _ H4) as [Ha Hb]. rewrite Hadd in Ha, Hb. cbn in Ha, Hb. split; [by split_and!|lia].
  - destruct (add_mapped_ok (le_session x) (Wrapped (length (c_subscriptions c1)) i l) _ H5) as [Ha Hb]. rewrite Hadd in Ha, Hb. cbn in Ha, Hb. split; [by split_and!|lia].
Qed.

Lemma lease_request_keeps i cmd : keeps (lease_request do_call i cmd).
Proof.
  intros F G c Hg. unfold lease_request. pose proof (assertActive_view i c) as Hv. destruct (assertActive i c) as [c1 [e|]]; apply (good_view depth F G _ _ Hv) in Hg; [done|].
  destruct (ls_leases _ !! i); [by apply request_keeps|done].
Qed.

Lemma resume_keeps i : keeps (resume do_call i).
Proof.
  intros F G c Hg. unfold resume. destruct (ls_tasks _ !! i) as [t|]; [|done]. destruct t as [|id p prev|id p|id r|id token p|id token job|id token job|p|lease p b|lease b e|r]; try done.
  - destruct (settled_request p c) as [[r|e]|]; [by apply leases_keep| |done]. apply leases_keep. destruct prev as [sn|]; [|done]. apply state_keeps; [|done]. intros st. unfold restoreSessionSnapshot. by destruct (cs_sessions st !! _).
  - destruct (settled_request p c) as [[r|e]|]; [by apply leases_keep..|done].
  - by apply leases_keep.
  - destruct (settled_request p c); [|done]. by apply acquire_reconcile_keeps, leases_keep.
  - destruct (finished_task job c) as [[r|e]|]; [by apply acquire_attach_keeps, leases_keep|by apply acquire_failed_keeps|done].
  - destruct (finished_task job c) as [[r|e]|]; [by apply acquire_finish_keeps, leases_keep|by apply acquire_failed_keeps, leases_keep|done].
  - destruct (settled_request p c) as [[[d|id|n s]|e]|]; try done; [by apply created_keeps|by apply leases_keep].
  - unfold resume_release. destruct (settled_request p c) as [[r|e]|], (ls_leases (c_leases c) !! lease); try done; by apply leases_keep.
  - unfold resume_release_failed. apply (leases_keep (refreshState lease)) in Hg. destruct (ls_leases _ !! lease) as [x|]; [|done].
    destruct (decide _); [by apply leases_keep|]. destruct b; by apply leases_keep.
Qed.

Lemma client_step_adds e : adds (client_step fuel do_call e).
Proof.
  destruct e; cbn [client_step]; try apply subscriptions_add; try apply lease_listener_adds; apply keeps_adds.
  - apply client_connect_keeps. - by apply disconnect_keeps. - apply dispose_keeps.
  - apply unsubscribe_keeps.
  - apply request_keeps. - apply create_keeps. - apply acquire_keeps.
  - apply keeps_view. intros c. apply isActive_view.
  - apply lease_request_keeps. - apply release_keeps. - apply release_keeps.
  - apply data_keeps. - apply closed_keeps. - apply error_keeps. - apply factory_settled_keeps. - apply hello_failed_keeps. - apply send_failed_keeps.
  - apply resume_keeps.
Qed.
End keeps.

(** Also with the calls of the environment: they nest at most as deep as the script is long. *)
Lemma client_call_good `{Platform} fuel depth : forall e F G c, good_at depth F (with_slack 1 G) c -> good_at depth F G (client_call fuel (S depth) e c).
Proof.
  induction depth as [|depth IH]; intros e F G c Hg.
  - change (client_call fuel 1 e c) with (client_step fuel (client_call fuel 0) e c). apply (client_step_adds fuel 0); [intros d e' F' G' c'; discriminate|exact Hg].
  - change (client_call fuel (S (S depth)) e c) with (client_step fuel (client_call fuel (S depth)) e c). apply (client_step_adds fuel (S depth)); [|exact Hg].
    intros d e' F' G' c' [= <-]. apply IH.
Qed.
