(* ===== verification/ClientTheorems.v ===== *)
(** The theorems on the client: its connections and its requests. *)
From S2P Require Import Prelude JsNumber JsText JsObject JsData CborWriter CborValue CborEncoder CborDecoder Framing Schema SchemaCheck ProtocolSchemas ProtocolValue ProtocolCodec ClientMessages ClientWorld ClientConnection PiClient ClientSpec ClientKeeps.
Local Open Scope nat_scope.

(** ** Runs *)

Section runs.
Context `{Platform} (fuel : nat).

(** Between calls of the program nothing is on the stack. *)
Definition steady (c : Client) : Prop :=
  good_at (length (c_script c)) [] (mkContext [] [] [] 1 (S (entries_added c + script_calls c))) c.

Lemma good_steady depth A l k n c : good_at depth [] (mkContext [] A l k n) c -> steady c.
Proof.
  intros [(s & Hs & [H1 H2 H3 H4 H5 H6]) (Hp & Hd & Hok & Hb)]. split.
  - exists s. split; [done|]. split; try done; [intros a Ha; by apply elem_of_nil in Ha|intros id b Hib; by apply elem_of_nil in Hib].
  - split; [done|]. split_and!; [done|done|]. cbn [cx_slack cx_budget]. lia.
Qed.

Lemma steady_call c e : steady c -> steady (top_call fuel c e).
Proof.
  intros Hc. unfold top_call.
  pose proof (client_call_good fuel (length (c_script c)) e [] (mkContext [] [] [] 0 (S (entries_added c + script_calls c))) c Hc) as Hg.
  revert Hg. generalize (client_call fuel (S (length (c_script c))) e c). intros c'. apply good_steady.
Qed.

Lemma steady_run calls c : steady c -> steady (client_run fuel calls c).
Proof. revert c. induction calls as [|e calls IH]; intros c Hc; cbn [client_run foldl]; [exact Hc|]. exact (IH _ (steady_call c e Hc)). Qed.

Lemma steady_new maxFrameLength b script c : new_PiClient maxFrameLength b script = Ok c -> steady c.
Proof.
  unfold new_PiClient. intros (cn & Hcn & [= <-])%bind_Ok. unfold new_Connection in Hcn.
  assert (cn_lifecycle cn = Disconnected /\ cn_opening cn = []) as [Hl Ho].
  { destruct (default _ maxFrameLength); [|done]. destruct ((0 <? z) && (z <=? 4294967295))%Z; [|done]. by injection Hcn as <-. }
  split.
  - exists spec_start. split; [constructor|]. split; cbn [c_connection sp_phase spec_start matches phase_number c_requests sp_open sp_issued].
    + by rewrite Hl.
    + lia.
    + split; cbn; try done; [intros x Hx; by apply elem_of_nil in Hx..|split; constructor].
    + split; [rewrite Ho; constructor|]. intros id Hid. rewrite Ho in Hid. by apply elem_of_nil in Hid.
    + intros a Ha. by apply elem_of_nil in Ha.
    + intros id a Ha. by apply elem_of_nil in Ha.
  - split; [intros Hn; by destruct Hn|]. split_and!; [done|split_and!; constructor|]. cbn [cx_slack cx_budget]. lia.
Qed.
End runs.

(** ** Traces of the specification *)

Definition issued (l : list output) : list nat := omap (fun o => match o with OIssue p _ _ => Some p | _ => None end) l.
Definition settled (l : list output) : list nat := omap (fun o => match o with OSettle p _ => Some p | _ => None end) l.

(** The server's answer to the request of a promise is in the trace. *)
Definition answered_in (l : list output) (p : nat) (r : CommandResult) : Prop :=
  exists id command, OIssue p id command ∈ l /\ OMessage (ResponseMessage id (inr r)) ∈ l /\ result_command r = command_of command.

Section traces.
Context `{Platform}.

(** What the state of the specification says of the trace. *)
Record explains (l : list output) (s : spec) : Prop := mkExplains {
  ex_issued : issued l = (sp_issued s).*1;
  ex_distinct : NoDup (issued l) /\ NoDup (sp_issued s).*2;
  ex_open : issued l ≡ₚ settled l ++ (sp_open s).*1.*1;
  ex_commands : forall p id command, (p, id, command) ∈ sp_open s -> OIssue p id command ∈ l;
  ex_answers : forall id r, (id, r) ∈ sp_answers s -> OMessage (ResponseMessage id r) ∈ l;
  ex_results : forall l1 l2 p r, l = l1 ++ OSettle p (Ok r) :: l2 -> answered_in l1 p r;
}.

Lemma explains_quiet l s o s' : explains l s -> issued [o] = [] -> settled [o] = [] -> sp_open s' = sp_open s -> sp_issued s' = sp_issued s ->
  (forall id r, (id, r) ∈ sp_answers s' -> (id, r) ∈ sp_answers s \/ o = OMessage (ResponseMessage id r)) -> explains (l ++ [o]) s'.
Proof.
  intros [H1 H2 H3 H4 H5 H6] Hi Hs Ho His Ha. assert (issued (l ++ [o]) = issued l) as Hil by (unfold issued in *; by rewrite omap_app, Hi, app_nil_r).
  assert (settled (l ++ [o]) = settled l) as Hsl by (unfold settled in *; by rewrite omap_app, Hs, app_nil_r).
  split; rewrite ?Hil, ?Hsl, ?Ho, ?His; try done.
  - intros p id command Hin. apply elem_of_app. left. by apply H4.
  - intros id r Hin. apply elem_of_app. destruct (Ha id r Hin) as [Hin'| ->]; [left; by apply H5|right; by left].
  - intros l1 l2 p r Hl. destruct l2 as [|o2 l2] using rev_ind; [apply app_inj_tail in Hl as [-> ->]; by cbn in Hs|].
    rewrite app_comm_cons, app_assoc in Hl. apply app_inj_tail in Hl as [-> _]. by eapply H6.
Qed.

Lemma explains_step l s o s' : explains l s -> spec_step s o s' -> explains (l ++ [o]) s'.
Proof.
  intros He Hstep. pose proof He as [H1 H2 H3 H4 H5 H6].
  destruct Hstep as [o Ho| | | | | | | | |m Hm|p id command Hlive Hp Hid| |p id command r open Hopen Hans]; try (eapply explains_quiet; [exact He|done..|]; intros; by left).
  - eapply explains_quiet; [exact He|by destruct o..|]. intros; by left.
  - eapply explains_quiet; [exact He|done..|]. intros id r [Hin|Hin]%elem_of_app; [|by left]. right. destruct m; try (by apply elem_of_nil in Hin). apply list_elem_of_singleton in Hin. by injection Hin as -> ->.
  - assert (issued (l ++ [OIssue p id command]) = issued l ++ [p]) as Hil by (unfold issued; by rewrite omap_app).
    assert (settled (l ++ [OIssue p id command]) = settled l) as Hsl by (unfold settled; by rewrite omap_app, app_nil_r).
    split; rewrite ?Hil, ?Hsl; cbn [sp_issued sp_open sp_answers].
    + by rewrite fmap_app, H1.
    + rewrite fmap_app. split; apply NoDup_app; (split_and!; [apply H2| |by apply NoDup_singleton]); intros x Hx ->%list_elem_of_singleton; [|done]. rewrite H1 in Hx. done.
    + rewrite !fmap_app. cbn. rewrite H3, <- app_assoc. done.
    + intros p' id' command' [Hin|Hin%list_elem_of_singleton]%elem_of_app; apply elem_of_app; [left; by apply H4|right]. injection Hin as -> -> ->. by left.
    + intros id' r Hin. apply elem_of_app. left. by apply H5.
    + intros l1 l2 p' r Hl. destruct l2 as [|o2 l2] using rev_ind; [by apply app_inj_tail in Hl as [_ ?]|].
      rewrite app_comm_cons, app_assoc in Hl. apply app_inj_tail in Hl as [-> _]. by eapply H6.
  - assert (issued (l ++ [OSettle p r]) = issued l) as Hil by (unfold issued; by rewrite omap_app, app_nil_r).
    assert (settled (l ++ [OSettle p r]) = settled l ++ [p]) as Hsl by (unfold settled; by rewrite omap_app).
    split; rewrite ?Hil, ?Hsl; cbn [sp_issued sp_open sp_answers]; try done.
    + rewrite H3, Hopen. cbn. rewrite <- app_assoc. done.
    + intros p' id' command' Hin. apply elem_of_app. left. apply H4. rewrite Hopen. by right.
    + intros id' r' Hin. apply elem_of_app. left. by apply H5.
    + intros l1 l2 p' r' Hl. destruct l2 as [|o2 l2] using rev_ind.
      * apply app_inj_tail in Hl as [-> [= -> ->]]. destruct Hans as [Hc Ha]. exists id, command. split; [apply H4; rewrite Hopen; by left|]. split; [by apply H5|done].
      * rewrite app_comm_cons, app_assoc in Hl. apply app_inj_tail in Hl as [-> _]. by eapply H6.
Qed.

Lemma spec_explains s0 l s : spec_steps s0 l s -> s0 = spec_start -> explains l s.
Proof.
  induction 1 as [s|s1 s2 s3 l o Hst IH Hstep]; intros ->.
  - split; cbn; try done; [split; constructor|intros ? ? ? Hx; by apply elem_of_nil in Hx|intros ? ? Hx; by apply elem_of_nil in Hx|]. intros l1 l2 p r Hl. by destruct l1.
  - eapply explains_step; [by apply IH|done].
Qed.
End traces.

(** ** The client *)

Section client.
Context `{Platform} (fuel : nat).

(** C32: The client follows its specification, whatever the program, the server, the transport
    and the listeners do, also when they call the client while it runs them: the outputs are
    those of the transition system [spec_step].  A connection is announced, says hello once,
    is greeted before it is connected and before any message is handled or request sent, its
    handshake is settled once and its end announced once; a request is settled once, by the
    server's answer to it or by a local error, and none stays open without a connection. *)
Theorem client_follows_protocol (calls : list call) (maxFrameLength : option jsnum) (reports : bool) (script : list reaction) (c0 : Client) :
  new_PiClient maxFrameLength reports script = Ok c0 ->
  let c := client_run fuel calls c0 in
  exists s, spec_steps spec_start (c_trace c) s /\ matches (sp_phase s) (lifecycle c) /\ sp_open s ≡ₚ pending_open c /\
    (connected c = false -> sp_open s = []).
Proof.
  intros Hnew%steady_new c. destruct (steady_run fuel calls c0 Hnew) as [(s & Hs & [H1 H2 [Ho Hu Hi Hk Hd] H4 H5 H6]) [Hp _]].
  exists s. split_and!; [exact Hs|exact H1|by rewrite Ho, app_nil_r|]. intros Hc. rewrite app_nil_r in Ho.
  destruct (rq_pending (c_requests (client_run fuel calls c0))) eqn:Hq; [by apply Permutation_nil_r in Ho|].
  unfold pending_connected in Hp. rewrite Hq in Hp. unfold c in Hc. rewrite Hp in Hc; done.
Qed.

(** C33: Every request is settled at most once; one that is not settled is pending on a client
    that is connected, so that the end of the connection and [dispose] settle all of them; and
    one that succeeds has the result that the server sent for its id, of the command that was
    asked for. *)
Theorem requests_settle (calls : list call) (maxFrameLength : option jsnum) (reports : bool) (script : list reaction) (c0 : Client) :
  new_PiClient maxFrameLength reports script = Ok c0 ->
  let c := client_run fuel calls c0 in
  NoDup (issued (c_trace c)) /\ NoDup (settled (c_trace c)) /\ settled (c_trace c) ⊆ issued (c_trace c) /\
  (forall p, p ∈ issued (c_trace c) -> p ∉ settled (c_trace c) -> connected c = true /\ p ∈ map pr_promise (rq_pending (c_requests c))) /\
  (forall l1 l2 p r, c_trace c = l1 ++ OSettle p (Ok r) :: l2 -> answered_in l1 p r).
Proof.
  intros Hnew%steady_new c. destruct (steady_run fuel calls c0 Hnew) as [(s & Hs & [H1 H2 [Ho Hu Hi Hk Hd] H4 H5 H6]) [Hp _]]. fold c in Hs, Ho, Hp.
  destruct (spec_explains _ _ _ Hs eq_refl) as [E1 [E2 _] E3 E4 E5 E6].
  assert (NoDup (settled (c_trace c) ++ (sp_open s).*1.*1)) as Hnd by (by rewrite <- E3).
  split_and!; [done|by apply NoDup_app in Hnd as [? _]| | |exact E6].
  - intros p Hin. rewrite E3. apply elem_of_app. by left.
  - intros p Hin Hns. rewrite E3 in Hin. apply elem_of_app in Hin as [?|Hin]; [done|].
    rewrite Ho, app_nil_r, <- !list_fmap_compose in Hin. apply list_elem_of_fmap in Hin as (q & Hq & Hin). cbn in Hq.
    split; [apply Hp; intros Hnil; rewrite Hnil in Hin; by apply elem_of_nil in Hin|]. apply list_elem_of_fmap. by exists q.
Qed.
End client.

(** ** Leases as locks *)

(** The leases that are held, with their modes. *)
Abbreviation holders := (gmap jsstr (list (nat * SessionLeaseMode))).
Definition held (s : jsstr) (h : holders) : list (nat * SessionLeaseMode) := default [] (h !! s).

Inductive lease_event : Type :=
  | Reserve (sessionId : jsstr) (mode : SessionLeaseMode)
  | Release (sessionId : jsstr) (token : nat)
  | Invalidate (sessionId : jsstr).

(** The lock a session is: one exclusive holder or any number of shared ones. *)
Definition grants (mode : SessionLeaseMode) (l : list (nat * SessionLeaseMode)) : bool :=
  match mode with Exclusive => bool_decide (l = []) | Shared => bool_decide (Exclusive ∉ l.*2) end.

(** The client's leases and the holders, when only holders release. *)
Inductive lease_step : Leases * holders -> lease_event -> Leases * holders -> Prop :=
  | Lease_reserved l h s mode l' token : reserveSessionLease s mode l = Ok (l', token) ->
      lease_step (l, h) (Reserve s mode) (l', <[s := held s h ++ [(token, mode)]]> h)
  | Lease_refused l h s mode e : reserveSessionLease s mode l = Err e -> lease_step (l, h) (Reserve s mode) (l, h)
  | Lease_released l h s token mode : (token, mode) ∈ held s h ->
      lease_step (l, h) (Release s token) (releaseSessionLease s token l, <[s := filter (fun x => x.1 <> token) (held s h)]> h)
  | Lease_invalidated l h s : lease_step (l, h) (Invalidate s) (invalidateSessionLeases s l, <[s := []]> h).

Inductive lease_steps : Leases * holders -> list lease_event -> Leases * holders -> Prop :=
  | Lease_nil x : lease_steps x [] x
  | Lease_snoc x y z l e : lease_steps x l y -> lease_step y e z -> lease_steps x (l ++ [e]) z.

Definition no_leases : Leases := mkLeases ∅ ∅ ∅ ∅ ∅ ∅ ∅ [] [] [].

Definition exclusive_of (l : list (nat * SessionLeaseMode)) : option nat :=
  match l with [(token, Exclusive)] => Some token | _ => None end.

(** The count and the exclusive lease of every session are those of its holders. *)
Record accounted (l : Leases) (h : holders) : Prop := mkAccounted {
  ac_count : forall s, count_of s l = length (held s h);
  ac_exclusive : forall s, ls_exclusive l !! s = exclusive_of (held s h);
  ac_lock : forall s, Exclusive ∈ (held s h).*2 -> length (held s h) = 1;
  ac_tokens : forall s, NoDup (held s h).*1 /\ Forall (fun x => x.1 < length (ls_tokens l)) (held s h);
}.

Lemma held_insert s s' x h : held s (<[s' := x]> h) = if decide (s = s') then x else held s h.
Proof. unfold held. destruct (decide (s = s')) as [-> | Hne]; [by rewrite lookup_insert_eq|by rewrite lookup_insert_ne]. Qed.

Lemma exclusive_holder l : (Exclusive ∈ l.*2 -> length l = 1) -> is_Some (exclusive_of l) <-> Exclusive ∈ l.*2.
Proof.
  intros Hl. split.
  - intros [t Ht]. destruct l as [|[t' []] []]; try done. by left.
  - intros Hin. specialize (Hl Hin). destruct l as [|[t m] []]; try done. apply list_elem_of_singleton in Hin. cbn in Hin. subst m. by eexists.
Qed.

Lemma reserve_exact s mode l h : accounted l h ->
  match reserveSessionLease s mode l with
  | Ok (l', token) => grants mode (held s h) = true /\ accounted l' (<[s := held s h ++ [(token, mode)]]> h)
  | Err e => grants mode (held s h) = false
  end.
Proof.
  intros [H1 H2 H3 H4]. unfold reserveSessionLease. rewrite H1, H2.
  assert (bool_decide (mode = Exclusive) && (0 <? length (held s h)) || bool_decide (mode = Shared) && bool_decide (is_Some (exclusive_of (held s h))) = negb (grants mode (held s h))) as Hg.
  { destruct mode; cbn.
    - rewrite <- bool_decide_not. apply bool_decide_ext. rewrite exclusive_holder by apply H3. destruct (decide (Exclusive ∈ (held s h).*2)); tauto.
    - rewrite orb_false_r. by destruct (held s h). }
  destruct (bool_decide (mode = Exclusive) && _); [by rewrite orb_true_l in Hg; destruct (grants mode (held s h))|]. rewrite orb_false_l in Hg.
  cbn [throw_if mbind result_bind]. destruct (bool_decide (mode = Shared) && _); [by destruct (grants mode (held s h))|]. cbn [throw_if mbind result_bind].
  assert (grants mode (held s h) = true) as Hgr by (by destruct (grants mode (held s h))). split; [done|].
  assert (Forall (fun x => x.1 < S (length (ls_tokens l))) (held s h)) as Hlt by (eapply Forall_impl; [apply H4|]; cbn; lia).
  split; intros s'; rewrite held_insert; destruct (decide (s' = s)) as [-> | Hne].
  - rewrite length_app. unfold count_of. destruct (decide (mode = Exclusive)); cbn [set_exclusive set_counts set_tokens ls_counts]; rewrite lookup_insert_eq; cbn; lia.
  - unfold count_of. destruct (decide (mode = Exclusive)); cbn [set_exclusive set_counts set_tokens ls_counts]; rewrite lookup_insert_ne by done; apply H1.
  - destruct mode; cbn [grants] in Hgr; apply bool_decide_eq_true in Hgr.
    + rewrite decide_False by done. cbn [set_counts set_tokens ls_exclusive]. rewrite H2.
      assert (exclusive_of (held s h) = None) as -> by (destruct (exclusive_of (held s h)) eqn:He; [|done]; exfalso; apply Hgr, exclusive_holder; [apply H3|by eexists]).
      destruct (held s h) as [|[t []] [|y l']]; done.
    + rewrite decide_True by done. cbn [set_exclusive ls_exclusive]. rewrite lookup_insert_eq, Hgr. done.
  - destruct (decide (mode = Exclusive)); cbn [set_exclusive set_counts set_tokens ls_exclusive]; rewrite ?lookup_insert_ne by done; apply H2.
  - rewrite fmap_app, length_app. intros Hin. destruct mode; cbn [grants] in Hgr; apply bool_decide_eq_true in Hgr.
    + apply elem_of_app in Hin as [Hin|Hin]; [done|]. by apply list_elem_of_singleton in Hin.
    + by rewrite Hgr.
  - apply H3.
  - split.
    + rewrite fmap_app. apply NoDup_app. split_and!; [apply H4| |by apply NoDup_singleton]. intros x Hx ->%list_elem_of_singleton.
      apply list_elem_of_fmap in Hx as (y & Hy & Hin). destruct (H4 s) as [_ Hf]. rewrite Forall_forall in Hf. apply Hf in Hin. cbn in Hy. lia.
    + destruct (decide (mode = Exclusive)); cbn [set_exclusive set_counts set_tokens ls_tokens]; rewrite length_app; cbn [length]; apply Forall_app; (split; [eapply Forall_impl; [exact Hlt|]; cbn; lia|]; constructor; [cbn; lia|done]).
  - split; [apply H4|]. destruct (H4 s') as [_ Hf]. destruct (decide (mode = Exclusive)); cbn [set_exclusive set_counts set_tokens ls_tokens]; rewrite length_app; (eapply Forall_impl; [exact Hf|]; cbn; lia).
Qed.

Lemma filter_token (t : nat) (m : SessionLeaseMode) l : NoDup l.*1 -> (t, m) ∈ l -> S (length (filter (fun x => x.1 <> t) l)) = length l.
Proof.
  induction l as [|[t' m'] l IH]; [by intros _ ?%elem_of_nil|]. cbn [fmap list_fmap fst]. intros [Hn Hd]%NoDup_cons [[= <- <-]|Hin]%elem_of_cons.
  - rewrite filter_cons_False by (cbn; tauto). assert (filter (fun x => x.1 <> t) l = l) as ->; [|done].
    clear IH. induction l as [|x l IH]; [done|]. cbn in Hn. apply not_elem_of_cons in Hn as [Hne Hn]. cbn in Hd. apply NoDup_cons in Hd as [_ Hd]. rewrite filter_cons_True by congruence. by rewrite IH.
  - rewrite filter_cons_True; [cbn [length]; by rewrite (IH Hd Hin)|]. cbn. intros ->. apply Hn. apply list_elem_of_fmap. by exists (t, m).
Qed.

Lemma release_exact s t mode l h : accounted l h -> (t, mode) ∈ held s h ->
  accounted (releaseSessionLease s t l) (<[s := filter (fun x => x.1 <> t) (held s h)]> h).
Proof.
  intros [H1 H2 H3 H4] Hin. pose proof (filter_token t mode _ (proj1 (H4 s)) Hin) as Hlen. unfold releaseSessionLease. rewrite H1.
  assert (forall s', ls_counts (if decide (ls_exclusive l !! s = Some t) then
      set_exclusive (delete s (ls_exclusive l)) (set_counts (if length (held s h) <=? 1 then delete s (ls_counts l) else <[s := length (held s h) - 1]> (ls_counts l)) l)
      else set_counts (if length (held s h) <=? 1 then delete s (ls_counts l) else <[s := length (held s h) - 1]> (ls_counts l)) l) !! s' =
    if decide (s' = s) then (if length (held s h) <=? 1 then None else Some (length (held s h) - 1)) else ls_counts l !! s') as Hc.
  { intros s'. destruct (decide (ls_exclusive l !! s = Some t)); cbn [set_exclusive set_counts ls_counts]; destruct (decide (s' = s)) as [-> | Hne], (length (held s h) <=? 1);
      by rewrite ?lookup_delete_eq, ?lookup_insert_eq, ?lookup_delete_ne, ?lookup_insert_ne by done. }
  split; cbn [set_counts ls_exclusive]; intros s'; rewrite ?held_insert.
  - unfold count_of at 1. rewrite Hc. destruct (decide (s' = s)) as [-> | Hne]; [|apply H1]. destruct (length (held s h) <=? 1) eqn:Hle; cbn [default from_option id]; [apply Nat.leb_le in Hle|]; lia.
  - rewrite H2. destruct (decide (exclusive_of (held s h) = Some t)) as [He|He]; cbn [set_exclusive set_counts ls_exclusive]; destruct (decide (s' = s)) as [-> | Hne].
    + rewrite lookup_delete_eq. destruct (held s h) as [|[t' []] [|]]; try done. injection He as ->. rewrite filter_cons_False by (cbn; tauto). done.
    + rewrite lookup_delete_ne by done. apply H2.
    + rewrite H2. destruct (held s h) as [|[t' m'] [|y l']] eqn:Hh; [done| |].
      * apply list_elem_of_singleton in Hin. injection Hin as -> ->. rewrite filter_cons_False by (cbn; tauto). cbn. destruct m'; [done|by destruct He].
      * assert (Exclusive ∉ (held s h).*2) as Hno by (intros Hx; apply H3 in Hx; rewrite Hh in Hx; done). rewrite Hh in Hno.
        assert (exclusive_of ((t', m') :: y :: l') = None) as -> by (by destruct m').
        destruct (exclusive_of (filter (fun x => x.1 <> t) ((t', m') :: y :: l'))) as [u|] eqn:Hu; [|done]. exfalso. apply Hno.
        destruct (filter (fun x => x.1 <> t) ((t', m') :: y :: l')) as [|[u' []] []] eqn:Hf; try done. assert ((u', Exclusive) ∈ (t', m') :: y :: l') as Hin' by (eapply (list_elem_of_filter (fun x => x.1 <> t)); rewrite Hf; by left).
        apply list_elem_of_fmap. by exists (u', Exclusive).
    + apply H2.
  - destruct (decide (s' = s)) as [-> | Hne]; [|apply H3]. intros (x & Hx & Hf)%list_elem_of_fmap. assert (x ∈ held s h /\ x.1 <> t) as [Hxh Hxt] by (apply list_elem_of_filter in Hf; tauto).
    assert (length (held s h) = 1) as Hone by (apply H3, list_elem_of_fmap; by exists x). destruct (held s h) as [|y []]; try done.
    apply list_elem_of_singleton in Hin, Hxh. subst y. by subst x.
  - assert (ls_tokens (if decide (ls_exclusive l !! s = Some t) then
      set_exclusive (delete s (ls_exclusive l)) (set_counts (if length (held s h) <=? 1 then delete s (ls_counts l) else <[s := length (held s h) - 1]> (ls_counts l)) l)
      else set_counts (if length (held s h) <=? 1 then delete s (ls_counts l) else <[s := length (held s h) - 1]> (ls_counts l)) l) = ls_tokens l) as -> by (by destruct (decide _)).
    destruct (decide (s' = s)) as [-> | Hne]; [|apply H4]. destruct (H4 s) as [Hd Hf]. split.
    + eapply (sublist_NoDup); [exact Hd|]. apply fmap_sublist, sublist_filter.
    + rewrite Forall_forall in *. intros x [_ Hx]%list_elem_of_filter. by apply Hf.
Qed.

Lemma invalidate_exact s l h : accounted l h -> accounted (invalidateSessionLeases s l) (<[s := []]> h).
Proof.
  intros [H1 H2 H3 H4]. unfold invalidateSessionLeases.
  split; intros s'; rewrite ?held_insert; cbn [set_generations set_cleanup set_exclusive set_counts ls_exclusive ls_tokens].
  - unfold count_of. cbn [set_generations set_cleanup set_exclusive set_counts ls_counts]. destruct (decide (s' = s)) as [-> | Hne]; [by rewrite lookup_delete_eq|rewrite lookup_delete_ne by done; apply H1].
  - destruct (decide (s' = s)) as [-> | Hne]; [by rewrite lookup_delete_eq|rewrite lookup_delete_ne by done; apply H2].
  - destruct (decide (s' = s)); [by intros ?%elem_of_nil|apply H3].
  - destruct (decide (s' = s)); [split; constructor|apply H4].
Qed.

(** C34: Leases are locks.  As long as only holders release, the count of a session is the number
    of its leases and its exclusive lease the holder's: an exclusive lease is the only one of
    its session.  A lease is then granted exactly when the lock allows it, an exclusive one to
    a session without leases and a shared one to a session without an exclusive lease. *)
Theorem leases_lock (events : list lease_event) (l : Leases) (h : holders) :
  lease_steps (no_leases, ∅) events (l, h) ->
  forall s mode,
    count_of s l = length (held s h) /\ (Exclusive ∈ (held s h).*2 -> length (held s h) = 1) /\
    match reserveSessionLease s mode l with
    | Ok (_, token) => grants mode (held s h) = true /\ token ∉ (held s h).*1
    | Err e => grants mode (held s h) = false /\ exists message, e = PiSessionOwnershipError s message
    end.
Proof.
  intros Hsteps s mode. assert (forall x y es, lease_steps x es y -> x = (no_leases, ∅) -> accounted y.1 y.2) as Hall.
  { clear. induction 1 as [x|x [l h] z es e Hs IH Hstep]; intros ->.
    - split; intros s; unfold held, count_of; cbn [no_leases ls_counts ls_exclusive ls_tokens fst snd]; rewrite ?lookup_empty;
        [done|done|by intros ?%elem_of_nil|split; constructor].
    - specialize (IH eq_refl). cbn in IH. inversion Hstep as [? ? s mode l' token Hr|? ? ? ? ? ?|? ? s token mode Hin|? ? s]; subst; cbn.
      + pose proof (reserve_exact s mode l h IH) as Hx. rewrite Hr in Hx. apply Hx.
      + done.
      + by eapply release_exact.
      + by apply invalidate_exact. }
  specialize (Hall _ _ _ Hsteps eq_refl). cbn in Hall. pose proof (reserve_exact s mode l h Hall) as Hr. destruct Hall as [H1 H2 H3 H4].
  split_and!; [apply H1|apply H3|]. destruct (reserveSessionLease s mode l) as [[l' token]|e] eqn:Hres.
  - split; [apply Hr|]. destruct Hr as [_ [_ _ _ H5]]. destruct (H5 s) as [Hd _]. rewrite held_insert, decide_True in Hd by done. rewrite fmap_app in Hd.
    apply NoDup_app in Hd as (_ & Hd & _). intros Hin. by apply (Hd token Hin); left.
  - split; [done|]. unfold reserveSessionLease in Hres. destruct (bool_decide (mode = Exclusive) && _); cbn in Hres; [injection Hres as <-; by eexists|].
    destruct (bool_decide (mode = Shared) && _); cbn in Hres; [injection Hres as <-; by eexists|done].
Qed.

(** ** Runs of the client *)

Module Scenes.

#[export] Instance plain : Platform :=
  {| regexp := fun _ => None; number_to_string := fun _ => js "1.5"; string_to_number := fun _ => JInt 0 |}.

Definition frame_of (t : cbor_value) : list Z := match encodeFrame (encode_tree t) with Ok f => f | Err _ => [] end.
Definition T (s : string) : cbor_value := CText (js s).
Definition N (z : Z) : cbor_value := CNum (JInt z).
Definition M (l : list (string * cbor_value)) : cbor_value := CMap (map (fun p => (js p.1, p.2)) l).

Definition server_state (revision : Z) : cbor_value :=
  M [("serverId", T "s"); ("protocolVersion", N 1); ("revision", N revision); ("sessions", CArray []); ("models", CArray [])].
Definition session_state (id : string) (revision : Z) (attached : bool) : cbor_value :=
  M [("id", T id); ("cwd", T "/"); ("createdAt", N 1); ("updatedAt", N 1); ("phase", T "idle"); ("model", M [("provider", T "p"); ("id", T "m")]);
     ("thinkingLevel", T "off"); ("attached", CBool attached); ("locked", CBool true); ("revision", N revision); ("transcript", CArray []);
     ("queuedSteer", CArray []); ("queuedSteerCount", N 0)].
Definition hello : cbor_value := M [("type", T "hello"); ("version", N 1); ("connectionId", T "c"); ("snapshot", server_state 3)].
Definition succeeded (id : string) (result : list (string * cbor_value)) : cbor_value :=
  M [("type", T "response"); ("id", T id); ("ok", CBool true); ("result", M result)].
Definition attached (id s : string) (revision : Z) : cbor_value := succeeded id [("command", T "attach"); ("session", session_state s revision true)].
Definition detached (id s : string) : cbor_value := succeeded id [("command", T "detach"); ("sessionId", T s)].
Definition event (e : list (string * cbor_value)) : cbor_value := M [("type", T "event"); ("event", M e)].

Definition say (connection : nat) (m : list cbor_value) : call := CData connection (concat (map frame_of m)).
Definition greet (connection transport : nat) : list call := [CConnect; CFactorySettled connection (Ok transport); say connection [hello]].

Definition play (script : list reaction) (calls : list call) : option Client :=
  match new_PiClient None true script with Ok c => Some (client_run 60 calls c) | Err _ => None end.

Definition x : jsstr := js "x".

(** A shared lease of session x is acquired: tasks 0 and 1, lease 0. *)
Definition leased : list call := greet 1 7 ++ [CAcquireSession x Shared; say 1 [attached "request-1" "x" 5]; CResume 1; CResume 0].

Definition lease_states (c : Client) : list (nat * bool) :=
  imap (fun i l => (le_token l, (isActive i c).2)) (ls_leases (c_leases c)).

(** A release whose session is removed while the server's response is on its way takes the
    count of the lease that has been reserved since: two exclusive leases are active. *)
Example exclusive_twice :
  lease_states <$> play [] (leased ++ [CLeaseDetach 0; say 1 [event [("type", T "session_removed"); ("sessionId", T "x")]];
    CAcquireSession x Exclusive; say 1 [detached "request-2" "x"]; CResume 2; CResume 3; say 1 [attached "request-3" "x" 6]; CResume 4; CResume 3;
    CAcquireSession x Exclusive]) = Some [(0, false); (1, true); (2, true)].
Proof. vm_compute. reflexivity. Qed.

(** A lease is created although the connection ended after the response it waited for; it is
    not counted, and is active again once another lease attaches the session. *)
Example lease_revived :
  lease_states <$> play [] (greet 1 7 ++ [CAcquireSession x Shared; say 1 [attached "request-1" "x" 5; hello]; CResume 1; CResume 0] ++
    greet 2 8 ++ [CAcquireSession x Exclusive; say 2 [attached "request-2" "x" 6]; CResume 3; CResume 2]) = Some [(0, true); (1, true)].
Proof. vm_compute. reflexivity. Qed.

Definition heard (c : Client) : list nat := omap (fun o => match o with OListen (Wrapped _ _ name) _ => Some name | _ => None end) (c_trace c).

(** Calling the function of a subscription twice removes the listeners added in between. *)
Example unsubscribed_twice :
  map (fun again => heard <$> play [] (leased ++ [CLeaseSubscribe 0 1; CUnsubscribe 0; CLeaseSubscribe 0 2] ++ (if again : bool then [CUnsubscribe 0] else []) ++
    [say 1 [event [("type", T "session_snapshot"); ("snapshot", session_state "x" 6 true)]]])) [false; true] = [Some [2]; Some []].
Proof. vm_compute. reflexivity. Qed.

Definition states (c : Client) : list ConnectionState := omap (fun o => match o with OState s _ => Some s | _ => None end) (c_trace c).

(** A listener connects again while a chunk is being handled: the rest of the chunk, which came
    on the connection before, ends the new one. *)
Example stale_message :
  (fun c => (states c, lifecycle c)) <$> play [mkReaction [] None; mkReaction [] None; mkReaction [CDisconnect []; CConnect] None]
    [CSubscribe 1; CConnect; CFactorySettled 1 (Ok 7); say 1 [hello; event [("type", T "server_snapshot"); ("snapshot", server_state 4)]]]
  = Some ([SConnecting; SDisconnected; SConnecting; SDisconnected], Disconnected).
Proof. vm_compute. reflexivity. Qed.

(** When the first of two listeners disconnects, the second hears of the changes in the wrong
    order. *)
Example changes_reordered :
  (fun c => omap (fun o => match o with OListen (App name) (NState s _) => Some (name, s) | _ => None end) (c_trace c)) <$>
    play [mkReaction [CDisconnect []] None] [COnConnectionStateChange 1; COnConnectionStateChange 2; CConnect]
  = Some [(1, SConnecting); (1, SDisconnected); (2, SDisconnected); (2, SConnecting)].
Proof. vm_compute. reflexivity. Qed.

Definition fresh : Client :=
  mkClient (mkConnection Disconnected 0 ∅ [] DEFAULT_MAX_FRAME_LENGTH) new_ClientState (mkRequests [] 0 []) no_leases set_empty [] false true []
    [mkReaction [] None; mkReaction [CDisconnect (js "enough")] None].

(** The second code the environment runs, the sending of the hello, disconnects. *)
Definition visit : list call := leased ++ [CListSessions; CDispose].
End Scenes.

Import Scenes.

Lemma client_follows_protocol_witness :
  let c := client_run 60 visit fresh in
  exists s, spec_steps spec_start (c_trace c) s /\ matches (sp_phase s) (lifecycle c) /\ sp_open s ≡ₚ pending_open c /\ (connected c = false -> sp_open s = []).
Proof. exact (client_follows_protocol 60 visit None true [mkReaction [] None; mkReaction [CDisconnect (js "enough")] None] fresh eq_refl). Defined.

Lemma requests_settle_witness :
  let c := client_run 60 visit fresh in
  NoDup (issued (c_trace c)) /\ NoDup (settled (c_trace c)) /\ settled (c_trace c) ⊆ issued (c_trace c) /\
  (forall p, p ∈ issued (c_trace c) -> p ∉ settled (c_trace c) -> connected c = true /\ p ∈ map pr_promise (rq_pending (c_requests c))) /\
  (forall l1 l2 p r, c_trace c = l1 ++ OSettle p (Ok r) :: l2 -> answered_in l1 p r).
Proof. exact (requests_settle 60 visit None true [mkReaction [] None; mkReaction [CDisconnect (js "enough")] None] fresh eq_refl). Defined.

Lemma leases_lock_witness :
  exists l h, lease_steps (no_leases, ∅) [Reserve x Shared; Reserve x Shared; Release x 0] (l, h) /\
  count_of x l = length (held x h) /\ (Exclusive ∈ (held x h).*2 -> length (held x h) = 1) /\
  match reserveSessionLease x Exclusive l with
  | Ok (_, token) => grants Exclusive (held x h) = true /\ token ∉ (held x h).*1
  | Err e => grants Exclusive (held x h) = false /\ exists message, e = PiSessionOwnershipError x message
  end.
Proof.
  assert (exists y, lease_steps (no_leases, ∅) [Reserve x Shared; Reserve x Shared; Release x 0] y) as [[l h] Hs].
  { eexists. eapply (Lease_snoc _ _ _ [_; _]); [eapply (Lease_snoc _ _ _ [_]); [eapply (Lease_snoc _ _ _ []); [apply Lease_nil|]|]|].
    - eapply Lease_reserved. vm_compute. reflexivity.
    - eapply Lease_reserved. vm_compute. reflexivity.
    - eapply (Lease_released _ _ x 0 Shared). vm_compute. by left. }
  exists l, h. split; [exact Hs|]. exact (leases_lock _ _ _ Hs x Exclusive).
Defined.
