(* ===== verification/ServerWorld.v ===== *)
(** The state of the server, its messages, and asynchronous functions: the data of
    [packages/server/src].

    An asynchronous function runs until it waits.  [async] is a computation that may wait; what
    is left of a call that waits is a [thread], which the scheduler resumes with the answer.
    Nothing else runs until it waits again.  What the server calls is recorded in a trace. *)
From S2P Require Import Prelude JsNumber JsText JsObject JsData CborWriter CborValue CborEncoder CborDecoder Framing Schema SchemaCheck SchemaTypes ProtocolSchemas ProtocolValue ProtocolCodec ClientMessages.
Local Open Scope nat_scope.

(** ** Messages of the client *)

Inductive ClientMessage : Type :=
  | ClientHello (version : jsnum)
  | ClientRequest (id : jsstr) (request : Command).

Definition read_model (v : data) : option ModelRef :=
  o ← isPlainObject v; provider ← as_string (field "provider" o); id ← as_string (field "id" o); Some (mkModelRef provider id).

Definition read_command (v : data) : option Command :=
  o ← isPlainObject v; command ← command_name (field "command" o);
  let sessionId := as_string (field "sessionId" o) in
  match command with
  | List_ => Some ListCommand
  | Create =>
      Some (CreateCommand (mkCreateOptions (as_string (field "cwd" o)) (as_string (field "name" o)) (read_model (field "model" o))
        (as_string (field "thinkingLevel" o))))
  | Attach => AttachCommand <$> sessionId
  | Detach => DetachCommand <$> sessionId
  | Prompt_ => s ← sessionId; PromptCommand s <$> as_string (field "text" o)
  | Steer_ => s ← sessionId; SteerCommand s <$> as_string (field "text" o)
  | Abort_ => AbortCommand <$> sessionId
  | SetModel => s ← sessionId; SetModelCommand s <$> read_model (field "model" o)
  | SetThinking => s ← sessionId; SetThinkingCommand s <$> as_string (field "thinkingLevel" o)
  end.

Definition client_message (v : data) : option ClientMessage :=
  o ← isPlainObject v; let type := field "type" o in
  if is_text "hello" type then ClientHello <$> as_number (field "version" o)
  else if is_text "request" type then id ← as_string (field "id" o); ClientRequest id <$> read_command (field "request" o)
  else None.

(** The server can read every message of the protocol. *)
Section readable.
Context `{Platform} (D : list (jsstr * PiSchema)).

Lemma model_readable d : Static D ModelRefSchema d -> is_Some (read_model d).
Proof.
  intros (o & -> & Ho)%static_object. unfold read_model. cbn [isPlainObject mbind option_bind].
  destruct (static_id _ _ (Ho "provider" _ ltac:(listed) eq_refl)) as [i ->].
  destruct (static_id _ _ (Ho "id" _ ltac:(listed) eq_refl)) as [r ->]. by eexists.
Qed.

Lemma thinking_readable d : Static D ThinkingLevelSchema d -> is_Some (as_string d).
Proof.
  intros (s & Hs & Hd)%static_union. unfold t_literal in Hs. apply list_elem_of_fmap in Hs as (t & -> & _).
  rewrite (static_literal _ _ _ Hd). by eexists.
Qed.

Lemma command_readable d : Static D CommandSchema d -> is_Some (read_command d).
Proof.
  intros (s & Hs & Hd)%static_union. repeat (apply elem_of_cons in Hs as [-> | Hs]); [..|by apply elem_of_nil in Hs].
  all: apply static_object in Hd as (o & -> & Ho); unfold read_command; cbn [isPlainObject mbind option_bind].
  all: rewrite (static_literal _ _ _ (Ho "command" _ ltac:(listed) eq_refl)).
  all: match goal with |- context [js ?t] =>
    let c := eval vm_compute in (command_name (DStr (js t))) in
    match c with Some ?c => rewrite (command_name_text c : command_name (DStr (js t)) = Some c) end end; cbn [mbind option_bind].
  all: try (destruct (static_id _ _ (Ho "sessionId" _ ltac:(listed) eq_refl)) as [i ->]; cbn [as_string]).
  - by eexists.
  - by eexists.
  - by eexists.
  - by eexists.
  - assert (exists t, field "text" o = DStr t) as [t ->]; [|by eexists].
    pose proof (Ho "text" t_string ltac:(listed) eq_refl) as Ht. inversion Ht; eauto.
  - assert (exists t, field "text" o = DStr t) as [t ->]; [|by eexists].
    pose proof (Ho "text" t_string ltac:(listed) eq_refl) as Ht. inversion Ht; eauto.
  - by eexists.
  - destruct (model_readable _ (Ho "model" _ ltac:(listed) eq_refl)) as [m ->]. by eexists.
  - destruct (thinking_readable _ (Ho "thinkingLevel" _ ltac:(listed) eq_refl)) as [m ->]. by eexists.
Qed.

Lemma client_message_readable d : Static D ClientMessageSchema d -> is_Some (client_message d).
Proof.
  intros (s & Hs & Hd)%static_union. repeat (apply elem_of_cons in Hs as [-> | Hs]); [..|by apply elem_of_nil in Hs].
  all: apply static_object in Hd as (o & -> & Ho); unfold client_message; cbn [isPlainObject mbind option_bind].
  all: rewrite (static_literal _ _ _ (Ho "type" _ ltac:(listed) eq_refl)); cbn [is_text].
  - destruct (static_integer _ _ _ (Ho "version" _ ltac:(listed) eq_refl)) as [n ->]. by eexists.
  - destruct (static_id _ _ (Ho "id" _ ltac:(listed) eq_refl)) as [i ->].
    destruct (command_readable _ (Ho "request" _ ltac:(listed) eq_refl)) as [c Hc].
    eexists. change (as_string (DStr i)) with (Some i). cbn [mbind option_bind]. by rewrite Hc.
Qed.
End readable.

(** ** Errors *)

Inductive error_code : Type := CodeBusy | CodeSessionLocked | CodeNotFound | CodeInvalidRequest | CodeNotImplemented.

Definition code_text (c : error_code) : string :=
  match c with
  | CodeBusy => "busy" | CodeSessionLocked => "session_locked" | CodeNotFound => "not_found"
  | CodeInvalidRequest => "invalid_request" | CodeNotImplemented => "not_implemented"
  end.

(** What is thrown: [PiServerError] and [InternalServerError] of [errors.ts],
    [ProtocolValidationError], and any other value with its text. *)
Inductive server_error : Type :=
  | PiServerError (code : error_code) (message : jsstr) (details : option data)
  | InternalServerError (cause : jsstr)
  | InvalidMessage (e : protocol_error)
  | OtherError (message : jsstr).

Record ProtocolError := mkProtocolError { pe_code : string; pe_message : jsstr; pe_details : option data }.

Definition INTERNAL_SERVER_ERROR_MESSAGE : string := "Internal server error".
Definition NOT_IMPLEMENTED_MESSAGE : string := "Operation is not implemented".
Definition invalid_request (message : jsstr) : server_error := PiServerError CodeInvalidRequest message None.

Abbreviation outcome A := (result server_error A).

(** ** Messages of the server *)

Definition text (s : string) : data := DStr (js s).
Definition object (l : list (string * data)) : data := DObj (map (fun p => (js p.1, p.2)) l).

Inductive outgoing : Type :=
  | OutHello (connectionId : jsstr) (snapshot : props)
  | OutHelloError (error : ProtocolError)
  | OutResponse (id : jsstr) (r : result ProtocolError props)
  | OutServerSnapshot (snapshot : props)
  | OutSessionSnapshot (snapshot : props)
  | OutProgress (sessionId : jsstr) (progress : data).

Definition error_data (e : ProtocolError) : data :=
  object ([("code", text (pe_code e)); ("message", DStr (pe_message e))] ++ match pe_details e with Some d => [("details", d)] | None => [] end).

Definition event_data (event : list (string * data)) : data := object [("type", text "event"); ("event", object event)].

Definition message_data (m : outgoing) : data :=
  match m with
  | OutHello connectionId snapshot =>
      object [("type", text "hello"); ("version", DNum (JInt PROTOCOL_VERSION)); ("connectionId", DStr connectionId); ("snapshot", DObj snapshot)]
  | OutHelloError error => object [("type", text "hello_error"); ("error", error_data error)]
  | OutResponse id (Ok result) => object [("type", text "response"); ("id", DStr id); ("ok", DBool true); ("result", DObj result)]
  | OutResponse id (Err error) => object [("type", text "response"); ("id", DStr id); ("ok", DBool false); ("error", error_data error)]
  | OutServerSnapshot snapshot => event_data [("type", text "server_snapshot"); ("snapshot", DObj snapshot)]
  | OutSessionSnapshot snapshot => event_data [("type", text "session_snapshot"); ("snapshot", DObj snapshot)]
  | OutProgress sessionId progress => event_data [("type", text "session_progress"); ("sessionId", DStr sessionId); ("progress", progress)]
  end.

(** The objects of a message, in a heap: [next] is the first free location. *)
Fixpoint allocate (d : data) (next : loc) (h : heap) : loc * heap * jsval :=
  match d with
  | DUndefined => (next, h, VUndefined)
  | DNull => (next, h, VNull)
  | DBool b => (next, h, VBool b)
  | DNum n => (next, h, VNum n)
  | DStr s => (next, h, VStr s)
  | DFun => (next, h, VOther "function")
  | DArr ds =>
      let '(next, h, vs) := foldr (fun d r => let '(next, h, vs) := r in let '(next, h, v) := allocate d next h in (next, h, Some v :: vs)) (next, h, []) ds in
      (Pos.succ next, <[next := OArray vs]> h, VRef next)
  | DObj ps =>
      let '(next, h, vs) := foldr (fun p r => let '(next, h, vs) := r in let '(next, h, v) := allocate p.2 next h in (next, h, (p.1, v) :: vs)) (next, h, []) ps in
      (Pos.succ next, <[next := OPlain vs false]> h, VRef next)
  end.

(** [encodeServerMessage]. *)
Definition encodeServerMessage `{Platform} (fuel : nat) (maxFrameLength : Z) (m : outgoing) : result protocol_error (list Z) :=
  let '(_, h, value) := allocate (message_data m) 1%positive ∅ in
  encodeProtocolMessage fuel h ∅ Server value (frame_options maxFrameLength).

(** ** State *)

Inductive ConnectionStage : Type := SAwaitingHello | SHandshaking | SReady | SClosing | SClosed.

#[export] Instance ConnectionStage_eq_dec : EqDecision ConnectionStage.
Proof. solve_decision. Defined.

(** An object of type [ConnectionState]; [sc_handshake] is a promise that is not rejected. *)
Record ServerConnection := mkServerConnection {
  sc_id : jsstr;
  sc_decoder : MessageDecoder;
  sc_sessionIds : list jsstr;
  sc_stage : ConnectionStage;
  sc_disconnected : bool;
  sc_handshakeComplete : bool;
  sc_handshake : option nat;
  sc_handshakeTimeout : bool;  (* the timer is armed *)
}.

(** An object of type [LiveSession]; its [disposing] is a promise. *)
Record LiveSession := mkLiveSession {
  lv_id : jsstr;
  lv_runtime : nat;
  lv_connections : list nat;
  lv_operationCount : Z;
  lv_ready : bool;
  lv_terminal : bool;
  lv_disposing : option nat;
}.

(** The commands that run on a runtime. *)
Inductive operation : Type :=
  | OpPrompt (text : jsstr)
  | OpSteer (text : jsstr)
  | OpAbort
  | OpSetModel (model : ModelRef)
  | OpSetThinking (thinkingLevel : jsstr).

(** What the server calls: its service, runtimes, connections and listeners; [OAcquired],
    [ODisposed] are the answers.  [OReceived] marks a request that the decoder of a connection
    delivered, [ORequest] one that is handled, [OSessionsClosed] the end of the sessions, and
    [OUnhandled] an error that nothing handles. *)
Inductive output : Type :=
  | OListSessions
  | OListModels
  | OAcquire (id : jsstr) (create : option CreateSessionOptions)
  | OAcquired (id : jsstr) (runtime : option nat)
  | OSnapshot (id : jsstr) (runtime : nat)
  | OSubscribe (id : jsstr) (runtime : nat)
  | OUnsubscribe (id : jsstr) (runtime : nat)
  | OOperation (id : jsstr) (runtime : nat) (op : operation)
  | ODispose (id : jsstr) (runtime : nat)
  | ODisposed (id : jsstr) (runtime : nat)
  | OSessionsClosed
  | OAccept (connection : nat)
  | OReceived (connection : nat) (id : jsstr)
  | ORequest (connection : nat) (id : jsstr)
  | OSend (connection : nat) (m : outgoing) (frame : list Z)
  | OClose (connection : nat) (final : option (ProtocolError * list Z))
  | OListenerStart (listener : nat)
  | OListenerClose (listener : nat)
  | OReport (e : server_error)
  | OUnhandled (e : server_error).

(** The transport: objects [ConnectionState], the set [connections], connections that are
    [closed], and those that were refused. *)
Record Network := mkNetwork {
  nw_states : list ServerConnection;
  nw_connections : list nat;
  nw_closed : gset nat;
  nw_refused : gset nat;
}.

(** Class [LiveSessionManager], with the objects [LiveSession], and the runtimes: how many there
    have been, and their phases. *)
Record Sessions := mkSessions {
  ss_lives : list LiveSession;
  ss_liveSessions : list (jsstr * nat);
  ss_openingSessions : list (jsstr * nat);
  ss_runtimes : nat;
  ss_phases : gmap nat jsstr;
}.

(** Class [ServerSnapshotPublisher]; [broadcastQueue] is a promise that is not rejected, and
    [sp_jobs] are the broadcasts that wait for one, with the promises they settle. *)
Record Publisher := mkPublisher {
  sp_revision : Z;
  sp_broadcastQueue : nat;
  sp_jobs : list (nat * nat);
}.

(** Promises by what they are fulfilled with; [None] is one that is not settled.  Those of
    [pr_sure] are never rejected. *)
Record Promises := mkPromises {
  pr_sure : list (option unit);
  pr_units : list (option (outcome unit));
  pr_lives : list (option (outcome nat));
  pr_snapshots : list (option (outcome (jsstr * props)));
}.

(** The fields of [PiServer] that change; [sv_ids] counts the random identifiers. *)
Record Lifetime := mkLifetime {
  sv_closing : bool;
  sv_started : bool;
  sv_startPromise : option nat;
  sv_closePromise : option nat;
  sv_ids : nat;
}.

Record World := mkWorld {
  w_network : Network;
  w_sessions : Sessions;
  w_publisher : Publisher;
  w_promises : Promises;
  w_lifetime : Lifetime;
  w_trace : list output;
}.

Definition on_network (f : Network -> Network) (w : World) : World :=
  mkWorld (f (w_network w)) (w_sessions w) (w_publisher w) (w_promises w) (w_lifetime w) (w_trace w).
Definition on_sessions (f : Sessions -> Sessions) (w : World) : World :=
  mkWorld (w_network w) (f (w_sessions w)) (w_publisher w) (w_promises w) (w_lifetime w) (w_trace w).
Definition on_publisher (f : Publisher -> Publisher) (w : World) : World :=
  mkWorld (w_network w) (w_sessions w) (f (w_publisher w)) (w_promises w) (w_lifetime w) (w_trace w).
Definition on_promises (f : Promises -> Promises) (w : World) : World :=
  mkWorld (w_network w) (w_sessions w) (w_publisher w) (f (w_promises w)) (w_lifetime w) (w_trace w).
Definition on_lifetime (f : Lifetime -> Lifetime) (w : World) : World :=
  mkWorld (w_network w) (w_sessions w) (w_publisher w) (w_promises w) (f (w_lifetime w)) (w_trace w).
Definition emit (o : output) (w : World) : World :=
  mkWorld (w_network w) (w_sessions w) (w_publisher w) (w_promises w) (w_lifetime w) (w_trace w ++ [o]).

(** ** Waiting *)

(** What an asynchronous function waits for: an [await] of something settled already, promises,
    or an answer of the service, a runtime, a connection or a listener. *)
Inductive wait : Set -> Set :=
  | WTick : wait unit
  | WSure (p : nat) : wait unit
  | WUnit (p : nat) : wait (outcome unit)
  | WLive (p : nat) : wait (outcome nat)
  | WAllUnits (ps : list nat) : wait (outcome unit)
  | WSettledUnits (ps : list nat) : wait (list (outcome unit))
  | WSettledLives (ps : list nat) : wait (list (outcome nat))
  | WAllSnapshots (ps : list nat) : wait (outcome (list (jsstr * props)))
  | WListSessions : wait (outcome (list props))
  | WListModels : wait (outcome (list data))
  | WAcquire (id : jsstr) : wait (outcome nat)
  | WSnapshot : wait (outcome props)
  | WDispose (id : jsstr) (runtime : nat) : wait (outcome unit)
  | WDone : wait (outcome unit).  (* any other call *)

(** What the environment answers. *)
Inductive answer : Type :=
  | AResume
  | ASessions (r : outcome (list props))
  | AModels (r : outcome (list data))
  | ASnapshot (r : outcome props)
  | ADone (r : outcome unit).

Definition settled {A} (ps : list (option A)) (p : nat) : option A := default None (ps !! p).

(** [Promise.all]: fulfilled when all are, rejected when one is. *)
Definition all_fulfilled {A} (rs : list (option (outcome A))) : option (outcome (list A)) :=
  match List.find (fun r => match r with Some (Err _) => true | _ => false end) rs with
  | Some (Some (Err e)) => Some (Err e)
  | _ => Ok <$> mapM (fun r => match r with Some (Ok a) => Some a | _ => None end) rs
  end.

Definition all_settled {A} (rs : list (option (outcome A))) : option (list (outcome A)) := mapM (fun r => r) rs.

Definition unchanged {A} (w : World) (o : option A) : option (A * World) := match o with Some a => Some (a, w) | None => None end.
Definition no_value {A} (r : outcome A) : outcome unit := match r with Ok _ => Ok () | Err e => Err e end.

(** The answer to a wait, once there is one.  A runtime that is acquired is a new one. *)
Definition arrive {A : Set} (q : wait A) (a : answer) (w : World) : option (A * World) :=
  match q, a with
  | WTick, AResume => Some ((), w)
  | WSure p, AResume => unchanged w (settled (pr_sure (w_promises w)) p)
  | WUnit p, AResume => unchanged w (settled (pr_units (w_promises w)) p)
  | WLive p, AResume => unchanged w (settled (pr_lives (w_promises w)) p)
  | WAllUnits ps, AResume => unchanged w (no_value <$> all_fulfilled (map (settled (pr_units (w_promises w))) ps))
  | WSettledUnits ps, AResume => unchanged w (all_settled (map (settled (pr_units (w_promises w))) ps))
  | WSettledLives ps, AResume => unchanged w (all_settled (map (settled (pr_lives (w_promises w))) ps))
  | WAllSnapshots ps, AResume => unchanged w (all_fulfilled (map (settled (pr_snapshots (w_promises w))) ps))
  | WListSessions, ASessions r => Some (r, w)
  | WListModels, AModels r => Some (r, w)
  | WAcquire id, ADone (Ok _) =>
      let runtime := ss_runtimes (w_sessions w) in
      let w := on_sessions (fun s => mkSessions (ss_lives s) (ss_liveSessions s) (ss_openingSessions s) (S runtime) (ss_phases s)) w in
      Some (Ok runtime, emit (OAcquired id (Some runtime)) w)
  | WAcquire id, ADone (Err e) => Some (Err e, emit (OAcquired id None) w)
  | WSnapshot, ASnapshot r => Some (r, w)
  | WDispose id runtime, ADone r => Some (r, emit (ODisposed id runtime) w)
  | WDone, ADone r => Some (r, w)
  | _, _ => None
  end.

(** What is left of a call.  [Looping] is one inside a loop that waits for a promise before each
    round: a round ends with the promise to wait for next, or leaves the loop. *)
Inductive thread : Type :=
  | Waiting {A : Set} (q : wait A) (k : A -> World -> World * list thread)
  | Looping (p : nat) (round : outcome unit -> World -> World * (nat + list thread)).

(** ** Asynchronous functions

    A computation is given what happens with its result.  It returns the calls that wait: its
    own and those it has started. *)
Definition step : Type := World -> World * list thread.
Definition async (A : Type) : Type := (outcome A -> step) -> step.

#[export] Instance async_ret : MRet async := fun A a k => k (Ok a).
#[export] Instance async_bind : MBind async := fun A B f m k => m (fun r => match r with Ok a => f a k | Err e => k (Err e) end).

Section async.
Context {A : Type}.

Definition throw (e : server_error) : async A := fun k => k (Err e).
Definition gets (f : World -> A) : async A := fun k w => k (Ok (f w)) w.
Definition modify (f : World -> World) : async unit := fun k w => k (Ok ()) (f w).

(** [try { m } catch (error) { h }], and with [finally]. *)
Definition catch (m : async A) (h : server_error -> async A) : async A :=
  fun k => m (fun r => match r with Err e => h e k | _ => k r end).
Definition finally (m : async A) (f : async unit) : async A :=
  fun k => m (fun r => f (fun r' => match r' with Ok _ => k r | Err e => k (Err e) end)).

(** [await] of an answer or a promise, of one that is not rejected, and of a call of an
    asynchronous function. *)
Definition await {A : Set} (q : wait (outcome A)) : async A := fun k w => (w, [Waiting q k]).
Definition await_sure {A : Set} (q : wait A) : async A := fun k w => (w, [Waiting q (fun a => k (Ok a))]).
Definition awaiting (m : async A) : async A := fun k => m (fun r w => (w, [Waiting WTick (fun _ => k r)])).

(** [for (;;) ...]: a round waits for a promise and goes on, or leaves with a computation. *)
Definition forever_round (round : World -> nat + async A) (k : outcome A -> step) (r : outcome unit) (w : World) : World * (nat + list thread) :=
  match r with
  | Err e => let '(w, ts) := k (Err e) w in (w, inr ts)
  | Ok _ => match round w with
      | inl p => (w, inl p)
      | inr m => let '(w, ts) := m k w in (w, inr ts)
      end
  end.

Definition forever (round : World -> nat + async A) : async A := fun k w =>
  match forever_round round k (Ok ()) w with
  | (w, inl p) => (w, [Looping p (forever_round round k)])
  | (w, inr ts) => (w, ts)
  end.

Definition when (b : bool) (m : async unit) : async unit := if b then m else mret ().
End async.

(** A call whose promise is dropped: [void m]. *)
Definition dropped (r : outcome unit) : step := fun w => (match r with Ok _ => w | Err e => emit (OUnhandled e) w end, []).
Definition spawn (m : async unit) : async unit := fun k w =>
  let '(w, ts) := m dropped w in let '(w, ts') := k (Ok ()) w in (w, ts ++ ts').

Fixpoint for_each {A} (l : list A) (body : A -> async unit) : async unit :=
  match l with [] => mret () | a :: l' => body a;; for_each l' body end.
Fixpoint collect {A B} (l : list A) (body : A -> async B) : async (list B) :=
  match l with [] => mret [] | a :: l' => b ← body a; bs ← collect l' body; mret (b :: bs) end.

(** ** Promises: a call of an asynchronous function that is not awaited at once *)

Definition set_sure (x : list (option unit)) (p : Promises) : Promises := mkPromises x (pr_units p) (pr_lives p) (pr_snapshots p).
Definition set_units (x : list (option (outcome unit))) (p : Promises) : Promises := mkPromises (pr_sure p) x (pr_lives p) (pr_snapshots p).
Definition set_live_promises (x : list (option (outcome nat))) (p : Promises) : Promises := mkPromises (pr_sure p) (pr_units p) x (pr_snapshots p).
Definition set_snapshot_promises (x : list (option (outcome (jsstr * props)))) (p : Promises) : Promises :=
  mkPromises (pr_sure p) (pr_units p) (pr_lives p) x.

Section promise.
Context {A B : Type} (get : Promises -> list (option B)) (set : list (option B) -> Promises -> Promises) (settle : nat -> outcome A -> step).

(** The number of the promise that [m] settles. *)
Definition new_promise (m : async A) : async nat := fun k w =>
  let p := length (get (w_promises w)) in
  let w := on_promises (fun ps => set (get ps ++ [None]) ps) w in
  let '(w, ts) := m (settle p) w in let '(w, ts') := k (Ok p) w in (w, ts ++ ts').
End promise.

Definition settle_sure (p : nat) (r : outcome unit) : step := fun w =>
  (match r with Ok _ => on_promises (fun ps => set_sure (<[p := Some ()]> (pr_sure ps)) ps) w | Err e => emit (OUnhandled e) w end, []).
Definition settle_unit (p : nat) (r : outcome unit) : step := fun w => (on_promises (fun ps => set_units (<[p := Some r]> (pr_units ps)) ps) w, []).
Definition settle_live (p : nat) (r : outcome nat) : step := fun w =>
  (on_promises (fun ps => set_live_promises (<[p := Some r]> (pr_lives ps)) ps) w, []).
Definition settle_snapshot (p : nat) (r : outcome (jsstr * props)) : step := fun w =>
  (on_promises (fun ps => set_snapshot_promises (<[p := Some r]> (pr_snapshots ps)) ps) w, []).

Definition promise_sure : async unit -> async nat := new_promise pr_sure set_sure settle_sure.
Definition promise_unit : async unit -> async nat := new_promise pr_units set_units settle_unit.
Definition promise_live : async nat -> async nat := new_promise pr_lives set_live_promises settle_live.
Definition promise_snapshot : async (jsstr * props) -> async nat := new_promise pr_snapshots set_snapshot_promises settle_snapshot.
