(* ===== verification/Server.v ===== *)
(** The server: [sessions.ts], [snapshots.ts] and [server.ts] of [packages/server/src].

    Connections and live sessions are known by their numbers.  A number without an object, which
    no call is given, reads as one that has ended. *)
From S2P Require Import Prelude JsNumber JsText JsObject JsData CborWriter CborValue CborEncoder CborDecoder Framing Schema ProtocolSchemas ProtocolValue ProtocolCodec ClientMessages ServerWorld.
Local Open Scope nat_scope.

(** ** Fields *)

Definition set_states (x : list ServerConnection) (n : Network) : Network := mkNetwork x (nw_connections n) (nw_closed n) (nw_refused n).
Definition set_connections (x : list nat) (n : Network) : Network := mkNetwork (nw_states n) x (nw_closed n) (nw_refused n).
Definition set_closed (x : gset nat) (n : Network) : Network := mkNetwork (nw_states n) (nw_connections n) x (nw_refused n).
Definition set_refused (x : gset nat) (n : Network) : Network := mkNetwork (nw_states n) (nw_connections n) (nw_closed n) x.

Definition set_sessionIds (x : list jsstr) (s : ServerConnection) : ServerConnection :=
  mkServerConnection (sc_id s) (sc_decoder s) x (sc_stage s) (sc_disconnected s) (sc_handshakeComplete s) (sc_handshake s) (sc_handshakeTimeout s).
Definition set_stage (x : ConnectionStage) (s : ServerConnection) : ServerConnection :=
  mkServerConnection (sc_id s) (sc_decoder s) (sc_sessionIds s) x (sc_disconnected s) (sc_handshakeComplete s) (sc_handshake s) (sc_handshakeTimeout s).
Definition set_disconnected (s : ServerConnection) : ServerConnection :=
  mkServerConnection (sc_id s) (sc_decoder s) (sc_sessionIds s) (sc_stage s) true (sc_handshakeComplete s) (sc_handshake s) (sc_handshakeTimeout s).
Definition set_handshakeComplete (s : ServerConnection) : ServerConnection :=
  mkServerConnection (sc_id s) (sc_decoder s) (sc_sessionIds s) (sc_stage s) (sc_disconnected s) true (sc_handshake s) (sc_handshakeTimeout s).
Definition set_handshake (p : nat) (s : ServerConnection) : ServerConnection :=
  mkServerConnection (sc_id s) (sc_decoder s) (sc_sessionIds s) (sc_stage s) (sc_disconnected s) (sc_handshakeComplete s) (Some p) (sc_handshakeTimeout s).
Definition clear_timeout (s : ServerConnection) : ServerConnection :=
  mkServerConnection (sc_id s) (sc_decoder s) (sc_sessionIds s) (sc_stage s) (sc_disconnected s) (sc_handshakeComplete s) (sc_handshake s) false.
Definition set_message_decoder (d : MessageDecoder) (s : ServerConnection) : ServerConnection :=
  mkServerConnection (sc_id s) d (sc_sessionIds s) (sc_stage s) (sc_disconnected s) (sc_handshakeComplete s) (sc_handshake s) (sc_handshakeTimeout s).

Definition alter_connection (f : ServerConnection -> ServerConnection) (c : nat) : World -> World :=
  on_network (fun n => set_states (alter f c (nw_states n)) n).
Definition connection_at (w : World) (c : nat) : option ServerConnection := nw_states (w_network w) !! c.
Definition stage (c : nat) (w : World) : ConnectionStage := from_option sc_stage SClosed (connection_at w c).
Definition disconnected (c : nat) (w : World) : bool := from_option sc_disconnected true (connection_at w c).
Definition sessionIds (c : nat) (w : World) : list jsstr := from_option sc_sessionIds [] (connection_at w c).
Definition transport_closed (c : nat) (w : World) : bool := bool_decide (c ∈ nw_closed (w_network w)).

Definition set_lives (x : list LiveSession) (s : Sessions) : Sessions :=
  mkSessions x (ss_liveSessions s) (ss_openingSessions s) (ss_runtimes s) (ss_phases s).
Definition set_liveSessions (x : list (jsstr * nat)) (s : Sessions) : Sessions :=
  mkSessions (ss_lives s) x (ss_openingSessions s) (ss_runtimes s) (ss_phases s).
Definition set_openingSessions (x : list (jsstr * nat)) (s : Sessions) : Sessions :=
  mkSessions (ss_lives s) (ss_liveSessions s) x (ss_runtimes s) (ss_phases s).
Definition set_runtime_phase (runtime : nat) (phase : jsstr) (s : Sessions) : Sessions :=
  mkSessions (ss_lives s) (ss_liveSessions s) (ss_openingSessions s) (ss_runtimes s) (<[runtime := phase]> (ss_phases s)).

Definition set_live_connections (x : list nat) (l : LiveSession) : LiveSession :=
  mkLiveSession (lv_id l) (lv_runtime l) x (lv_operationCount l) (lv_ready l) (lv_terminal l) (lv_disposing l).
Definition add_operations (n : Z) (l : LiveSession) : LiveSession :=
  mkLiveSession (lv_id l) (lv_runtime l) (lv_connections l) (lv_operationCount l + n) (lv_ready l) (lv_terminal l) (lv_disposing l).
Definition set_terminal (l : LiveSession) : LiveSession :=
  mkLiveSession (lv_id l) (lv_runtime l) (lv_connections l) (lv_operationCount l) (lv_ready l) true (lv_disposing l).
Definition set_disposing (p : nat) (l : LiveSession) : LiveSession :=
  mkLiveSession (lv_id l) (lv_runtime l) (lv_connections l) (lv_operationCount l) (lv_ready l) (lv_terminal l) (Some p).

Definition alter_live (f : LiveSession -> LiveSession) (l : nat) : World -> World :=
  on_sessions (fun s => set_lives (alter f l (ss_lives s)) s).
Definition live_at (w : World) (l : nat) : option LiveSession := ss_lives (w_sessions w) !! l.
Definition live_id (l : nat) (w : World) : jsstr := from_option lv_id [] (live_at w l).
Definition live_runtime (l : nat) (w : World) : nat := from_option lv_runtime 0 (live_at w l).
Definition live_connections (l : nat) (w : World) : list nat := from_option lv_connections [] (live_at w l).
Definition live_terminal (l : nat) (w : World) : bool := from_option lv_terminal true (live_at w l).
Definition live_disposing (l : nat) (w : World) : option nat := live_at w l ≫= lv_disposing.

Definition liveSession (id : jsstr) (w : World) : option nat := JsMap.get id (ss_liveSessions (w_sessions w)).
Definition openingSession (id : jsstr) (w : World) : option nat := JsMap.get id (ss_openingSessions (w_sessions w)).
Definition getPhase (runtime : nat) (w : World) : jsstr := default (js "idle") (ss_phases (w_sessions w) !! runtime).

Definition set_remove {A} `{EqDecision A} (a : A) (l : list A) : list A := filter (fun b => b <> a) l.
Definition set_adjoin {A} `{EqDecision A} (a : A) (l : list A) : list A := if decide (a ∈ l) then l else l ++ [a].

Definition closing (w : World) : bool := sv_closing (w_lifetime w).

Definition update (o : output) : async unit := modify (emit o).
Definition reportError (e : server_error) : async unit := update (OReport e).

(** [randomUUID()]. *)
Definition next_id (uuid : nat -> jsstr) : async jsstr :=
  n ← gets (fun w => sv_ids (w_lifetime w));
  modify (on_lifetime (fun v => mkLifetime (sv_closing v) (sv_started v) (sv_startPromise v) (sv_closePromise v) (S n)));;
  mret (uuid n).

(** ** What needs no connection: class [LiveSessionManager], part one *)

(** [broadcastServerSnapshot]: [broadcast] registers the broadcast behind the queue and makes
    its promise, with the errors reported, the new queue. *)
Definition broadcast : async unit :=
  queue ← gets (fun w => sp_broadcastQueue (w_publisher w));
  p ← gets (fun w => length (pr_units (w_promises w)));
  modify (on_promises (fun ps => set_units (pr_units ps ++ [None]) ps));;
  modify (on_publisher (fun b => mkPublisher (sp_revision b) (sp_broadcastQueue b) (sp_jobs b ++ [(queue, p)])));;
  next ← promise_sure (catch (await (WUnit p)) reportError);
  modify (on_publisher (fun b => mkPublisher (sp_revision b) next (sp_jobs b))).

Definition toMetadata (snapshot : props) : props :=
  map (fun p => (js p.1, field p.2 snapshot))
    [("id", "id"); ("createdAt", "createdAt"); ("updatedAt", "updatedAt"); ("sessionName", "name"); ("cwd", "cwd")].

(** [{ ...a, ...b }]. *)
Definition spread (a b : props) : props := foldl (fun o p => define p.1 p.2 o) a b.

Definition normalizedSnapshot (live : nat) : async props :=
  id ← gets (live_id live); runtime ← gets (live_runtime live);
  update (OSnapshot id runtime);;
  snapshot ← await WSnapshot;
  if decide (as_string (field "id" snapshot) = Some id) then
    gets (fun w => spread snapshot [(js "phase", DStr (getPhase runtime w));
      (js "attached", DBool (negb (bool_decide (live_connections live w = [])))); (js "locked", DBool true)])
  else throw (invalid_request (js "Runtime session ID changed from " ++ id ++ js " to " ++ default [] (as_string (field "id" snapshot)))).

Definition forConnection (snapshot : props) (c : nat) (w : World) : props :=
  spread snapshot [(js "attached", DBool (match field "id" snapshot with DStr id => bool_decide (id ∈ sessionIds c w) | _ => false end))].

(** The condition under which a session is kept. *)
Definition keeps_running (live : nat) (w : World) : bool :=
  closing w ||
  match live_at w live with
  | Some l =>
      negb (lv_ready l) || bool_decide (is_Some (lv_disposing l)) || negb (bool_decide (lv_connections l = [])) || (0 <? lv_operationCount l)%Z ||
      (negb (lv_terminal l) && negb (bool_decide (getPhase (lv_runtime l) w = js "idle")))
  | None => true
  end.

(** [if (this.liveSessions.get(live.id) === live) this.liveSessions.delete(live.id)]. *)
Definition forget_live (live : nat) (w : World) : World :=
  let id := live_id live w in
  if decide (liveSession id w = Some live) then on_sessions (fun s => set_liveSessions (JsMap.delete id (ss_liveSessions s)) s) w else w.

Definition dispose_live (live : nat) : async unit :=
  id ← gets (live_id live); runtime ← gets (live_runtime live);
  update (ODispose id runtime);;
  finally (await (WDispose id runtime)) (modify (forget_live live)).

Definition unsubscribe (live : nat) : async unit :=
  id ← gets (live_id live); runtime ← gets (live_runtime live); update (OUnsubscribe id runtime).

(** [live.disposing = (async () => ...)()]. *)
Definition begin_dispose (live : nat) : async nat :=
  p ← promise_unit (dispose_live live);
  modify (alter_live (set_disposing p) live);;
  mret p.

Definition maybeDispose (live : nat) : async unit :=
  kept ← gets (keeps_running live);
  if kept : bool then
    disposing ← gets (live_disposing live);
    match disposing with Some p => await (WUnit p) | None => mret () end
  else
    unsubscribe live;;
    p ← begin_dispose live;
    await (WUnit p);;
    ended ← gets closing;
    when (negb ended) broadcast.

Definition scheduleMaybeDispose (live : nat) : async unit := spawn (catch (maybeDispose live) reportError).

(** [LiveSessionManager.disconnect]. *)
Definition disconnect_sessions (c : nat) : async unit :=
  sessions ← gets (fun w => omap (fun id => liveSession id w) (sessionIds c w));
  modify (alter_connection (set_sessionIds []) c);;
  modify (fun w => foldl (fun w live => alter_live (fun l => set_live_connections (set_remove c (lv_connections l)) l) live w) w sessions);;
  ps ← collect sessions (fun live => promise_unit (maybeDispose live));
  results ← await_sure (WSettledUnits ps);
  for_each results (fun r => match r with Err e => reportError e | Ok _ => mret () end).

(** [metadata] of [listMetadata], from what is stored and the snapshots of live sessions. *)
Fixpoint merge_metadata (stored : list props) (liveById : list (jsstr * props)) : list props * list (jsstr * props) :=
  match stored with
  | [] => ([], liveById)
  | item :: stored' =>
      match as_string (field "id" item) ≫= fun id => pair id <$> JsMap.get id liveById with
      | Some (id, snapshot) =>
          let '(l, rest) := merge_metadata stored' (JsMap.delete id liveById) in (spread item (toMetadata snapshot) :: l, rest)
      | None => let '(l, rest) := merge_metadata stored' liveById in (item :: l, rest)
      end
  end.

Definition listMetadata : async (list props) :=
  update OListSessions;;
  stored ← await WListSessions;
  lives ← gets (fun w => filter (fun live => live_disposing live w = None) (JsMap.values (ss_liveSessions (w_sessions w))));
  ps ← collect lives (fun live => promise_snapshot (id ← gets (live_id live); snapshot ← awaiting (normalizedSnapshot live); mret (id, snapshot)));
  liveSnapshots ← await (WAllSnapshots ps);
  let '(metadata, rest) := merge_metadata stored (foldl (fun m p => JsMap.set p.1 p.2 m) [] liveSnapshots) in
  mret (metadata ++ map (fun p => toMetadata p.2) rest).

(** What the [subscribe] of a runtime throws, if it does; each runtime is subscribed to once. *)
Class Runtimes := { subscribe_error : nat -> option server_error }.

(** ** Sending: class [PiServer], part one *)

Section server.
Context `{Platform} `{Runtimes} (fuel : nat) (maxFrameLength : Z) (serverId : jsstr) (uuid : nat -> jsstr) (listeners : nat).

Abbreviation encode := (encodeServerMessage fuel maxFrameLength).

Definition closeConnection (c : nat) (final : option (ProtocolError * list Z)) : async unit :=
  catch (update (OClose c final);; await WDone) reportError.

Definition disconnect (c : nat) : async unit :=
  gone ← gets (disconnected c);
  if gone : bool then mret ()
  else
    handshakeComplete ← gets (fun w => from_option sc_handshakeComplete false (connection_at w c));
    modify (alter_connection (fun s => clear_timeout (set_stage SClosed (set_disconnected s))) c);;
    modify (on_network (fun n => set_connections (set_remove c (nw_connections n)) n));;
    awaiting (disconnect_sessions c);;
    ended ← gets closing;
    when (negb ended && handshakeComplete) broadcast.

(** The end of a connection whose message could not be sent. *)
Definition message_failed (c : nat) (e : server_error) : async bool :=
  reportError e;; awaiting (closeConnection c None);; awaiting (disconnect c);; mret false.

Definition sendMessage (c : nat) (m : outgoing) : async bool :=
  gone ← gets (fun w => disconnected c w || transport_closed c w);
  if gone : bool then mret false
  else
    match encode m with
    | Err e => message_failed c (InvalidMessage e)
    | Ok frame => catch (update (OSend c m frame);; await WDone;; mret true) (message_failed c)
    end.

Definition send_event (m : outgoing) (c : nat) : async unit := spawn (sendMessage c m;; mret ()).

(** [toProtocolError]; what is reported besides. *)
Definition toProtocolError (e : server_error) : async ProtocolError :=
  let internal := mkProtocolError "internal_error" (js INTERNAL_SERVER_ERROR_MESSAGE) None in
  match e with
  | InternalServerError cause => reportError (OtherError cause);; mret internal
  | PiServerError CodeNotImplemented _ _ => mret (mkProtocolError "not_implemented" (js NOT_IMPLEMENTED_MESSAGE) None)
  | PiServerError code message details => mret (mkProtocolError (code_text code) message details)
  | InvalidMessage (ProtocolValidationError message) => mret (mkProtocolError "invalid_request" (js message) None)
  | _ => reportError e;; mret internal
  end.

Definition failProtocol (c : nat) (error : ProtocolError) : async unit :=
  ended ← gets (fun w => disconnected c w || bool_decide (stage c w = SClosing) || bool_decide (stage c w = SClosed));
  if ended : bool then mret ()
  else
    modify (alter_connection (fun s => clear_timeout (set_stage SClosing s)) c);;
    final ← match encode (OutHelloError error) with
            | Ok frame => mret (Some (error, frame))
            | Err e => reportError (InvalidMessage e);; mret None
            end;
    awaiting (closeConnection c final);;
    awaiting (disconnect c).

(** ** Class [ServerSnapshotPublisher] *)

Definition server_snapshot (revision : Z) (sessions : list props) (models : list data) : props :=
  [(js "serverId", DStr serverId); (js "protocolVersion", DNum (JInt PROTOCOL_VERSION)); (js "revision", DNum (JInt revision));
   (js "sessions", DArr (map DObj sessions)); (js "models", DArr models)].

Definition listModels : async (list data) := update OListModels;; await WListModels.

(** [get], with the revision of the snapshot. *)
Definition current_snapshot (models : option (list data)) : async (Z * props) :=
  revision ← gets (fun w => sp_revision (w_publisher w));
  sessions ← awaiting listMetadata;
  models ← match models with Some m => mret m | None => listModels end;
  mret (revision, server_snapshot revision sessions models).

Definition ready_connections (w : World) : list nat :=
  filter (fun c => stage c w = SReady /\ disconnected c w = false) (nw_connections (w_network w)).

Definition performBroadcast : async unit :=
  readyConnections ← gets ready_connections; ended ← gets closing;
  if bool_decide (readyConnections = []) || ended then mret ()
  else
    modify (on_publisher (fun b => mkPublisher (sp_revision b + 1) (sp_broadcastQueue b) (sp_jobs b)));;
    revision ← gets (fun w => sp_revision (w_publisher w));
    models ← listModels;
    '(_, current) ← awaiting (current_snapshot (Some models));
    for_each readyConnections (fun c =>
      awaiting (sendMessage c (OutServerSnapshot (spread current [(js "revision", DNum (JInt revision))])));; mret ()).

(** ** Class [LiveSessionManager], part two *)

Definition broadcastSnapshot (live : nat) : async props :=
  snapshot ← awaiting (normalizedSnapshot live);
  connections ← gets (live_connections live);
  for_each connections (send_event (OutSessionSnapshot snapshot));;
  mret snapshot.

Definition is_closed (c : nat) (w : World) : bool := disconnected c w || negb (bool_decide (stage c w = SReady)) || transport_closed c w.

Definition attach (c live : nat) : async unit :=
  ended ← gets (is_closed c);
  if ended : bool then
    awaiting (maybeDispose live);; throw (invalid_request (js "Connection closed while attaching to a session"))
  else
    id ← gets (live_id live);
    modify (alter_connection (fun s => set_sessionIds (set_adjoin id (sc_sessionIds s)) s) c);;
    modify (alter_live (fun l => set_live_connections (set_adjoin c (lv_connections l)) l) live).

Definition requireAttached (c : nat) (sessionId : jsstr) : async nat :=
  attached ← gets (fun w => bool_decide (sessionId ∈ sessionIds c w));
  if attached : bool then
    found ← gets (fun w => live ← liveSession sessionId w;
      if live_terminal live w || bool_decide (is_Some (live_disposing live w)) then None else Some live);
    match found with
    | Some live => mret live
    | None => throw (PiServerError CodeNotFound (js "Session is not live: " ++ sessionId) None)
    end
  else throw (invalid_request (js "Connection is not attached to session " ++ sessionId)).

Definition runOperation (c live : nat) (op : operation) : async props :=
  modify (alter_live (add_operations 1) live);;
  finally
    (id ← gets (live_id live); runtime ← gets (live_runtime live);
     update (OOperation id runtime op);; await WDone;;
     snapshot ← awaiting (broadcastSnapshot live);
     gets (forConnection snapshot c))
    (modify (alter_live (add_operations (-1)) live);; scheduleMaybeDispose live).

Definition dispose_failed (id : jsstr) (runtime : nat) (e : server_error) : async nat :=
  catch (update (ODispose id runtime);; await (WDispose id runtime)) reportError;; throw e.

Definition register (id : jsstr) (runtime : nat) (w : World) : World :=
  let live := length (ss_lives (w_sessions w)) in
  on_sessions (fun s => set_liveSessions (JsMap.set id live (ss_liveSessions s))
    (set_lives (ss_lives s ++ [mkLiveSession id runtime [] 0 true false None]) s)) w.

(** A call that throws has no [unsubscribe] to be called yet. *)
Definition subscribe (id : jsstr) (runtime : nat) : async unit :=
  update (OSubscribe id runtime);;
  match subscribe_error runtime with Some e => throw e | None => mret () end.

Definition create_live (id : jsstr) (runtime : nat) : async nat :=
  ended ← gets closing;
  if ended : bool then
    update (ODispose id runtime);; await (WDispose id runtime);;
    throw (OtherError (js "PiServer closed while acquiring a session runtime"))
  else
    catch
      (update (OSnapshot id runtime);;
       snapshot ← await WSnapshot;
       if decide (as_string (field "id" snapshot) = Some id) then
         subscribe id runtime;;
         live ← gets (fun w => length (ss_lives (w_sessions w)));
         modify (register id runtime);;
         mret live
       else throw (invalid_request (js "Service returned session " ++ default [] (as_string (field "id" snapshot)) ++
         js " for server-assigned session " ++ id)))
      (dispose_failed id runtime).

Definition create (id : jsstr) (options : option CreateSessionOptions) : async nat :=
  update (OAcquire id options);;
  runtime ← await (WAcquire id);
  create_live id runtime.

(** The part of [acquire] that no other call has begun. *)
Definition open_session (id : jsstr) (options : option CreateSessionOptions) : async nat :=
  pending ← promise_live (create id options);
  modify (on_sessions (fun s => set_openingSessions (JsMap.set id pending (ss_openingSessions s)) s));;
  finally (await (WLive pending))
    (modify (fun w => if decide (openingSession id w = Some pending)
       then on_sessions (fun s => set_openingSessions (JsMap.delete id (ss_openingSessions s)) s) w else w)).

Definition acquire (id : jsstr) (options : option CreateSessionOptions) : async nat :=
  forever (fun w =>
    match liveSession id w with
    | Some existing =>
        if live_terminal existing w then inr (throw (PiServerError CodeSessionLocked (js "Session runtime is terminating: " ++ id) None))
        else match live_disposing existing w with
          | Some disposing => inl disposing
          | None => inr (mret existing)
          end
    | None =>
        match openingSession id w with
        | Some opening => inr (await (WLive opening))
        | None => inr (open_session id options)
        end
    end).

(** The result of a command, with its name. *)
Definition command_reply (name : CommandName) (l : props) : props := (js "command", text (command_text name)) :: l.
Definition session_reply (name : CommandName) (session : props) : props := command_reply name [(js "session", DObj session)].

Definition open_and_attach (c : nat) (id : jsstr) (options : option CreateSessionOptions) : async props :=
  live ← awaiting (acquire id options);
  awaiting (attach c live);;
  snapshot ← awaiting (broadcastSnapshot live);
  session ← gets (forConnection snapshot c);
  broadcast;;
  mret session.

Definition detach (c : nat) (sessionId : jsstr) : async unit :=
  live ← gets (liveSession sessionId);
  attached ← gets (fun w => bool_decide (sessionId ∈ sessionIds c w));
  when attached (
    modify (alter_connection (fun s => set_sessionIds (set_remove sessionId (sc_sessionIds s)) s) c);;
    match live with
    | Some live =>
        modify (alter_live (fun l => set_live_connections (set_remove c (lv_connections l)) l) live);;
        others ← gets (fun w => negb (bool_decide (live_connections live w = [])) && negb (live_terminal live w) &&
          bool_decide (live_disposing live w = None));
        when others (awaiting (broadcastSnapshot live);; mret ());;
        awaiting (maybeDispose live)
    | None => mret ()
    end;;
    broadcast).

Definition operate (c : nat) (name : CommandName) (sessionId : jsstr) (op : operation) : async props :=
  live ← requireAttached c sessionId;
  session ← awaiting (runOperation c live op);
  mret (session_reply name session).

Definition executeCommand (c : nat) (command : Command) : async props :=
  match command with
  | ListCommand => sessions ← awaiting listMetadata; mret (command_reply List_ [(js "sessions", DArr (map DObj sessions))])
  | CreateCommand options =>
      id ← next_id uuid;
      session ← open_and_attach c id (Some options); mret (session_reply Create session)
  | AttachCommand sessionId => session ← open_and_attach c sessionId None; mret (session_reply Attach session)
  | DetachCommand sessionId => detach c sessionId;; mret (command_reply Detach [(js "sessionId", DStr sessionId)])
  | PromptCommand sessionId text => operate c Prompt_ sessionId (OpPrompt text)
  | SteerCommand sessionId text => operate c Steer_ sessionId (OpSteer text)
  | AbortCommand sessionId => operate c Abort_ sessionId OpAbort
  | SetModelCommand sessionId model => operate c SetModel sessionId (OpSetModel model)
  | SetThinkingCommand sessionId level => operate c SetThinking sessionId (OpSetThinking level)
  end.

Definition terminate (live : nat) (error : server_error) : async unit :=
  terminal ← gets (live_terminal live);
  if terminal : bool then mret ()
  else
    modify (alter_live set_terminal live);;
    reportError error;;
    unsubscribe live;;
    connections ← gets (live_connections live);
    closed ← collect connections (fun c => promise_unit (closeConnection c None));
    await (WAllUnits closed);;
    gone ← collect connections (fun c => promise_unit (disconnect c));
    await (WAllUnits gone);;
    awaiting (maybeDispose live).

Inductive runtime_event : Type :=
  | RuntimeSnapshot
  | RuntimeProgress (progress : data)
  | RuntimeError (error : server_error).

Definition handleRuntimeEvent (live : nat) (event : runtime_event) : async unit :=
  match event with
  | RuntimeError error => spawn (catch (terminate live error) reportError)
  | RuntimeProgress progress =>
      id ← gets (live_id live); connections ← gets (live_connections live);
      for_each connections (send_event (OutProgress id progress));;
      scheduleMaybeDispose live
  | RuntimeSnapshot =>
      spawn (catch (broadcastSnapshot live;; mret ()) reportError);;
      scheduleMaybeDispose live
  end.

(** [LiveSessionManager.close]. *)
Definition close_live (live : nat) : async unit :=
  disposing ← gets (live_disposing live);
  match disposing with
  | Some p => await (WUnit p)
  | None =>
      unsubscribe live;;
      id ← gets (live_id live); runtime ← gets (live_runtime live);
      update (ODispose id runtime);; await (WDispose id runtime)
  end.

Definition close_sessions : async unit :=
  openings ← gets (fun w => JsMap.values (ss_openingSessions (w_sessions w)));
  openingResults ← await_sure (WSettledLives openings);
  for_each openingResults (fun r => match r with Err e => reportError e | Ok _ => mret () end);;
  sessions ← gets (fun w => JsMap.values (ss_liveSessions (w_sessions w)));
  modify (fun w => emit OSessionsClosed (on_sessions (set_liveSessions []) w));;
  ps ← collect sessions (fun live => promise_unit (close_live live));
  await (WAllUnits ps).

(** ** Class [PiServer], part two *)

Definition handleRequest (c : nat) (id : jsstr) (request : Command) : async unit :=
  update (ORequest c id);;
  catch
    (result ← awaiting (executeCommand c request);
     awaiting (sendMessage c (OutResponse id (Ok result)));; mret ())
    (fun e => error ← toProtocolError e; awaiting (sendMessage c (OutResponse id (Err error)));; mret ()).

Definition version_error (version : jsnum) : ProtocolError :=
  mkProtocolError "version" (js "Unsupported protocol version " ++ num_text version ++ js "; expected 1") None.

Definition finishHandshake (c : nat) (version : jsnum) : async unit :=
  if negb (isSupportedProtocolVersion version) then awaiting (failProtocol c (version_error version))
  else
    '(revision, snapshot) ← awaiting (current_snapshot None);
    ended ← gets (fun w => closing w || disconnected c w || negb (bool_decide (stage c w = SHandshaking)) || transport_closed c w);
    if ended : bool then mret ()
    else
      id ← gets (fun w => from_option sc_id [] (connection_at w c));
      sent ← awaiting (sendMessage c (OutHello id snapshot));
      greeted ← gets (fun w => sent && negb (disconnected c w) && bool_decide (stage c w = SHandshaking));
      when greeted (
        modify (alter_connection (fun s => clear_timeout (set_stage SReady (set_handshakeComplete s))) c);;
        current ← gets (fun w => revision =? sp_revision (w_publisher w))%Z;
        when (negb current) (
          '(_, snapshot) ← awaiting (current_snapshot None);
          awaiting (sendMessage c (OutServerSnapshot snapshot));; mret ())).

Definition bad_request (message : string) : ProtocolError := mkProtocolError "invalid_request" (js message) None.

Definition dispatchMessage (c : nat) (message : ClientMessage) : async unit :=
  at_stage ← gets (stage c);
  match at_stage, message with
  | SAwaitingHello, ClientHello version =>
      modify (alter_connection (set_stage SHandshaking) c);;
      handshake ← promise_sure (catch (finishHandshake c version) (fun e => error ← toProtocolError e; failProtocol c error));
      modify (alter_connection (set_handshake handshake) c)
  | SAwaitingHello, _ => spawn (failProtocol c (bad_request "The first client message must be hello"))
  | _, ClientHello _ => spawn (failProtocol c (bad_request "hello may only be sent as the first message"))
  | SReady, ClientRequest id request => spawn (handleRequest c id request)
  | SHandshaking, ClientRequest id request =>
      handshake ← gets (fun w => connection_at w c ≫= sc_handshake);
      match handshake with
      | Some p =>
          spawn (await_sure (WSure p);;
            ready ← gets (fun w => bool_decide (stage c w = SReady) && negb (disconnected c w));
            when ready (spawn (handleRequest c id request)))
      | None => mret ()
      end
  | _, _ => mret ()
  end.

Definition isTerminalConnection (c : nat) (w : World) : bool :=
  disconnected c w || bool_decide (stage c w = SClosing) || bool_decide (stage c w = SClosed).

(** The mark of a request, which is no call of the server. *)
Definition mark_received (c : nat) (message : ClientMessage) : async unit :=
  match message with ClientRequest id _ => update (OReceived c id) | ClientHello _ => mret () end.

(** The loop of [receive]; a message that was validated is read. *)
Fixpoint dispatchMessages (c : nat) (messages : list cbor_value) : async unit :=
  match messages with
  | [] => mret ()
  | t :: messages' =>
      ended ← gets (isTerminalConnection c);
      match (if ended : bool then None else client_message (of_cbor t)) with
      | Some message => mark_received c message;; dispatchMessage c message;; dispatchMessages c messages'
      | None => mret ()
      end
  end.

Definition receive (c : nat) (chunk : list Z) : async unit :=
  ended ← gets (isTerminalConnection c);
  state ← gets (fun w => connection_at w c);
  match (if ended : bool then None else state) with
  | None => mret ()
  | Some s =>
      let '(d, r) := md_push fuel (sc_decoder s) chunk in
      modify (alter_connection (set_message_decoder d) c);;
      match r with
      | Ok messages => dispatchMessages c messages
      | Err e => error ← toProtocolError (InvalidMessage e); spawn (failProtocol c error)
      end
  end.

Definition transportClosed (c : nat) : async unit :=
  state ← gets (fun w => connection_at w c);
  match state with
  | Some s =>
      (if negb (sc_disconnected s) && negb (bool_decide (sc_stage s = SClosing)) then
         let '(d, r) := md_end (sc_decoder s) in
         modify (alter_connection (set_message_decoder d) c);;
         match r with Ok _ => mret () | Err e => reportError (InvalidMessage e) end
       else mret ());;
      spawn (disconnect c)
  | None => mret ()
  end.

(** The handler [onError], of a connection that was refused too. *)
Definition transport_error (c : nat) (e : server_error) : async unit :=
  reportError e;;
  refused ← gets (fun w => bool_decide (c ∈ nw_refused (w_network w)));
  when (negb refused) (spawn (awaiting (closeConnection c None);; disconnect c)).

(** [accept]: the connection gets the next number. *)
Definition add_connection (id : jsstr) (decoder : MessageDecoder) (refused : bool) (n : Network) : Network :=
  let c := length (nw_states n) in
  let state := mkServerConnection id decoder [] (if refused then SClosed else SAwaitingHello) refused false None (negb refused) in
  if refused then mkNetwork (nw_states n ++ [state]) (nw_connections n) (nw_closed n) ({[c]} ∪ nw_refused n)
  else mkNetwork (nw_states n ++ [state]) (nw_connections n ++ [c]) (nw_closed n) (nw_refused n).

Definition accept : async unit :=
  match new_MessageDecoder Client (frame_options maxFrameLength) with
  | Err _ => mret ()
  | Ok decoder =>
      refused ← gets closing; c ← gets (fun w => length (nw_states (w_network w)));
      if refused : bool then
        modify (fun w => emit (OAccept c) (on_network (add_connection [] decoder true) w));;
        spawn (closeConnection c None)
      else
        id ← next_id uuid;
        modify (fun w => emit (OAccept c) (on_network (add_connection id decoder false) w))
  end.

Definition handshake_timeout (c : nat) : async unit :=
  armed ← gets (fun w => from_option sc_handshakeTimeout false (connection_at w c));
  when armed (modify (alter_connection clear_timeout c);; spawn (failProtocol c (bad_request "Handshake timeout"))).

Definition closeServerState : async unit :=
  connections ← gets (fun w => nw_connections (w_network w));
  for_each connections (fun c => modify (alter_connection (fun s => clear_timeout (set_stage SClosing s)) c));;
  closed ← collect connections (fun c => promise_unit (closeConnection c None));
  await (WAllUnits closed);;
  gone ← collect connections (fun c => promise_unit (disconnect c));
  await (WAllUnits gone);;
  awaiting close_sessions;;
  modify (on_network (set_connections [])).

Definition set_closing (v : Lifetime) : Lifetime := mkLifetime true (sv_started v) (sv_startPromise v) (sv_closePromise v) (sv_ids v).
Definition set_started (b : bool) (v : Lifetime) : Lifetime := mkLifetime (sv_closing v) b (sv_startPromise v) (sv_closePromise v) (sv_ids v).
Definition set_startPromise (p : option nat) (v : Lifetime) : Lifetime := mkLifetime (sv_closing v) (sv_started v) p (sv_closePromise v) (sv_ids v).
Definition set_closePromise (p : nat) (v : Lifetime) : Lifetime := mkLifetime (sv_closing v) (sv_started v) (sv_startPromise v) (Some p) (sv_ids v).

Definition listener_close (i : nat) : async unit := update (OListenerClose i);; await WDone.

(** The loop over the listeners of [startInternal]; [todo] are those that are not started. *)
Fixpoint start_listeners (started todo : list nat) : async unit :=
  match todo with
  | [] => mret ()
  | i :: todo' =>
      catch (update (OListenerStart i);; await WDone) (fun e =>
        modify (on_lifetime set_closing);;
        closed ← collect started (fun i => promise_unit (listener_close i));
        await_sure (WSettledUnits closed);;
        awaiting closeServerState;;
        throw e);;
      start_listeners (started ++ [i]) todo'
  end.

Definition startInternal : async unit :=
  finally (start_listeners [] (seq 0 listeners);; modify (on_lifetime (set_started true)))
    (modify (on_lifetime (set_startPromise None))).

(** [start] and [close]; the promise they return is the caller's. *)
Definition start : async unit :=
  refused ← gets (fun w => sv_started (w_lifetime w) || bool_decide (is_Some (sv_startPromise (w_lifetime w))) || closing w);
  when (negb refused) (p ← promise_unit startInternal; modify (on_lifetime (set_startPromise (Some p)))).

Definition closeInternal : async unit :=
  starting ← gets (fun w => sv_startPromise (w_lifetime w));
  match starting with Some p => catch (await (WUnit p)) (fun _ => mret ()) | None => mret () end;;
  finally
    (closed ← collect (seq 0 listeners) (fun i => promise_unit (listener_close i)); await (WAllUnits closed))
    (awaiting closeServerState;; modify (on_lifetime (set_started false))).

Definition close : async unit :=
  closed ← gets (fun w => sv_closePromise (w_lifetime w));
  match closed with
  | Some _ => mret ()
  | None => modify (on_lifetime set_closing);; p ← promise_unit closeInternal; modify (on_lifetime (set_closePromise p))
  end.

(** ** Running the server *)

(** What the transports, the runtimes and the program do, and the resumption of calls.  A
    broadcast starts once the one before it in the queue has ended. *)
Inductive event : Type :=
  | EStart
  | EClose
  | EAccept
  | EData (connection : nat) (chunk : list Z)
  | ETransportClosed (connection : nat)
  | ETransportError (connection : nat) (e : server_error)
  | EClosed (connection : nat)
  | EHandshakeTimeout (connection : nat)
  | ERuntime (live : nat) (event : runtime_event)
  | EPhase (runtime : nat) (phase : jsstr)
  | EBroadcast (job : nat)
  | EResume (thread : nat) (a : answer).

Definition handle (e : event) : async unit :=
  match e with
  | EStart => start
  | EClose => close
  | EAccept => accept
  | EData c chunk => receive c chunk
  | ETransportClosed c => transportClosed c
  | ETransportError c error => transport_error c error
  | EClosed c => modify (on_network (fun n => set_closed ({[c]} ∪ nw_closed n) n))
  | EHandshakeTimeout c => handshake_timeout c
  | ERuntime live event => handleRuntimeEvent live event
  | EPhase runtime phase => modify (on_sessions (set_runtime_phase runtime phase))
  | EBroadcast _ | EResume _ _ => mret ()
  end.

Definition remove_nth {A} (i : nat) (l : list A) : list A := take i l ++ drop (S i) l.

Definition resume_thread (t : thread) (a : answer) (w : World) : option (World * list thread) :=
  match t with
  | Waiting q k => match arrive q a w with Some (r, w) => Some (k r w) | None => None end
  | Looping p round =>
      match arrive (WUnit p) a w with
      | Some (r, w) =>
          match round r w with
          | (w, inl p) => Some (w, [Looping p round])
          | (w, inr ts) => Some (w, ts)
          end
      | None => None
      end
  end.

(** An event that is not possible changes nothing. *)
Definition server_step (x : World * list thread) (e : event) : World * list thread :=
  let '(w, ts) := x in
  match e with
  | EResume i a =>
      match nth_error ts i with
      | Some t => match resume_thread t a w with Some (w, ts') => (w, remove_nth i ts ++ ts') | None => x end
      | None => x
      end
  | EBroadcast i =>
      match sp_jobs (w_publisher w) !! i with
      | Some (queue, p) =>
          match settled (pr_sure (w_promises w)) queue with
          | Some _ =>
              let w := on_publisher (fun b => mkPublisher (sp_revision b) (sp_broadcastQueue b) (remove_nth i (sp_jobs b))) w in
              let '(w, ts') := performBroadcast (settle_unit p) w in (w, ts ++ ts')
          | None => x
          end
      | None => x
      end
  | _ => let '(w, ts') := handle e dropped w in (w, ts ++ ts')
  end.

Definition server_run (events : list event) (x : World * list thread) : World * list thread := foldl server_step x events.

(** The constructor; promise 0 is [Promise.resolve()]. *)
Definition new_PiServer : World :=
  mkWorld (mkNetwork [] [] ∅ ∅) (mkSessions [] [] [] 0 ∅) (mkPublisher 0 0 []) (mkPromises [Some ()] [] [] []) (mkLifetime false false None None 0) [].
End server.

(** ** The options of the constructor: [resolveOptions]; its [listeners] are a list by their type *)

Definition safe_positive (limit : Z) (n : jsnum) : option Z :=
  match n with JInt z => if ((0 <? z) && (z <=? limit))%Z then Some z else None | JFrac _ => None end.

Record ServerOptions := mkServerOptions {
  so_serverId : option jsstr;
  so_maxFrameLength : option jsnum;
  so_handshakeTimeoutMs : option jsnum;
}.

Definition resolveOptions (options : ServerOptions) : outcome (Z * Z) :=
  throw_if (bool_decide (so_serverId options = Some [])) (OtherError (js "PiServer serverId must not be empty"));;
  maxFrameLength ← or_throw (OtherError (js "PiServer maxFrameLength must be an integer between 1 and 4294967295"))
    (safe_positive 0xffffffff (default (JInt DEFAULT_MAX_FRAME_LENGTH) (so_maxFrameLength options)));
  handshakeTimeoutMs ← or_throw (OtherError (js "PiServer handshakeTimeoutMs must be an integer between 1 and 2147483647"))
    (safe_positive 2147483647 (default (JInt 5000) (so_handshakeTimeoutMs options)));
  Ok (maxFrameLength, handshakeTimeoutMs).
