(* ===== verification/ServerLogic.v ===== *)
(** A program logic for the asynchronous functions of the server.

    Calls run alone until they wait.  An invariant relates the state to the tokens that the
    waiting calls own: a token stands for what a call still has to do, or for what it has seen.
    [safe] says that a waiting call, whenever it is resumed in a state of the invariant, leaves
    such a state; [wp] is the weakest precondition of a computation up to where it waits, and
    [spec] a triple in which what a call does not own is a frame. *)
From S2P Require Import Prelude JsNumber JsText JsObject JsData CborWriter CborValue CborEncoder CborDecoder Framing Schema ProtocolSchemas ProtocolValue ProtocolCodec ClientMessages ServerWorld Server.
Local Open Scope nat_scope.

Section logic.
Context {token : Type} (Inv : World -> list token -> Prop).
Context (Inv_perm : forall w r r', r ≡ₚ r' -> Inv w r -> Inv w r').
Implicit Types r f : list token.
Implicit Types w : World.

Inductive safe : list token -> thread -> Prop :=
  | safe_waiting r (A : Set) (q : wait A) k :
      (forall a v w w' f, arrive q a w = Some (v, w') -> Inv w (r ++ f) ->
         exists rs, Inv (k v w').1 (concat rs ++ f) /\ Forall2 safe rs (k v w').2) ->
      safe r (Waiting q k)
  | safe_looping r p round :
      (forall v w f w' p', Inv w (r ++ f) -> round v w = (w', inl p') -> Inv w' (r ++ f)) ->
      (forall v w f w' ts, Inv w (r ++ f) -> round v w = (w', inr ts) -> exists rs, Inv w' (concat rs ++ f) /\ Forall2 safe rs ts) ->
      safe r (Looping p round).

(** The state a computation leaves, next to calls that own [f]. *)
Definition good (x : World * list thread) f : Prop := exists rs, Inv x.1 (concat rs ++ f) /\ Forall2 safe rs x.2.

Definition wp {A} f (m : async A) (Post : list token -> outcome A -> World -> Prop) (w : World) : Prop :=
  forall k, (forall f' v w', Post f' v w' -> good (k v w') f') -> good (m k w) f.

Lemma good_end w f : Inv w f -> good (w, []) f.
Proof. intros Hw. exists []. by split. Qed.

Lemma good_more ts ts' w' f : forall rs, Forall2 safe rs ts -> good (w', ts') (concat rs ++ f) -> good (w', ts ++ ts') f.
Proof.
  intros rs Hts (rs' & Hi & Hts'). exists (rs ++ rs'). split; [|by apply Forall2_app].
  revert Hi. apply Inv_perm. cbn. rewrite concat_app, app_assoc. by rewrite (Permutation_app_comm (concat rs') (concat rs)).
Qed.

(** ** Rules *)

Section rules.
Context {A : Type}.
Implicit Types m : async A.

Lemma wp_mono f m Post Post' w : (forall f v w, Post f v w -> Post' f v w) -> wp f m Post w -> wp f m Post' w.
Proof. intros HP Hm k Hk. apply Hm. intros. by apply Hk, HP. Qed.

Lemma wp_ret f (a : A) Post w : Post f (Ok a) w -> wp f (mret a) Post w.
Proof. intros HP k Hk. by apply Hk. Qed.

Lemma wp_throw f e (Post : list token -> outcome A -> World -> Prop) w : Post f (Err e) w -> wp f (throw e) Post w.
Proof. intros HP k Hk. by apply Hk. Qed.

Lemma wp_gets f (g : World -> A) Post w : Post f (Ok (g w)) w -> wp f (gets g) Post w.
Proof. intros HP k Hk. by apply Hk. Qed.

Lemma wp_modify f g Post w : Post f (Ok ()) (g w) -> wp f (modify g) Post w.
Proof. intros HP k Hk. by apply Hk. Qed.

Lemma wp_bind {B} f m (g : A -> async B) Post w :
  wp f m (fun f v w => match v with Ok a => wp f (g a) Post w | Err e => Post f (Err e) w end) w -> wp f (m ≫= g) Post w.
Proof. intros Hm k Hk. apply Hm. intros f' [a|e] w' Hp; [by apply Hp|by apply Hk]. Qed.

Lemma wp_catch f m h Post w :
  wp f m (fun f v w => match v with Ok a => Post f (Ok a) w | Err e => wp f (h e) Post w end) w -> wp f (catch m h) Post w.
Proof. intros Hm k Hk. apply Hm. intros f' [a|e] w' Hp; [by apply Hk|by apply Hp]. Qed.

Lemma wp_finally f m (g : async unit) Post w :
  wp f m (fun f v w => wp f g (fun f v' w => Post f (match v' with Ok _ => v | Err e => Err e end) w) w) w -> wp f (finally m g) Post w.
Proof. intros Hm k Hk. apply Hm. intros f' v w' Hp. apply Hp. intros f'' [[]|e] w'' Hp'; by apply Hk. Qed.

Lemma wp_await {B : Set} f r (q : wait (outcome B)) Post w :
  Inv w (r ++ f) -> (forall f' a v w w', arrive q a w = Some (v, w') -> Inv w (r ++ f') -> Post f' v w') -> wp f (await q) Post w.
Proof.
  intros Hi Hp k Hk. exists [r]. cbn. rewrite app_nil_r. split; [done|]. constructor; [|done]. constructor.
  intros a v w1 w2 f' Ha Hi'. apply Hk. by eapply Hp.
Qed.

Lemma wp_await_sure {B : Set} f r (q : wait B) Post w :
  Inv w (r ++ f) -> (forall f' a v w w', arrive q a w = Some (v, w') -> Inv w (r ++ f') -> Post f' (Ok v) w') -> wp f (await_sure q) Post w.
Proof.
  intros Hi Hp k Hk. exists [r]. cbn. rewrite app_nil_r. split; [done|]. constructor; [|done]. constructor.
  intros a v w1 w2 f' Ha Hi'. apply Hk. by eapply Hp.
Qed.

Lemma wp_awaiting f m Post w :
  wp f m (fun f v w => exists r, Inv w (r ++ f) /\ forall f' w', Inv w' (r ++ f') -> Post f' v w') w -> wp f (awaiting m) Post w.
Proof.
  intros Hm k Hk. apply Hm. intros f' v w' (r & Hi & Hp). exists [r]. cbn. rewrite app_nil_r. split; [done|].
  constructor; [|done]. constructor. intros a [] w1 w2 f2 Ha Hi'. destruct a; try discriminate Ha. injection Ha as <-. by apply Hk, Hp.
Qed.

Lemma wp_forever f r (round : World -> nat + async A) Post w :
  Inv w (r ++ f) -> (forall w f, Inv w (r ++ f) -> match round w with inl _ => True | inr m => wp f m Post w end) ->
  (forall e w f, Inv w (r ++ f) -> Post f (Err e) w) -> wp f (forever round) Post w.
Proof.
  intros Hi Hround Herr k Hk. unfold forever.
  set (body := forever_round round k).
  assert (forall v w f, Inv w (r ++ f) ->
    match body v w with (w', inl _) => Inv w' (r ++ f) | (w', inr ts) => good (w', ts) f end) as Hbody.
  { clear w f Hi. intros v w f Hi. unfold body, forever_round. destruct v as [[]|e].
    - specialize (Hround w f Hi). destruct (round w) as [p|m]; [done|].
      specialize (Hround k Hk). by destruct (m k w).
    - specialize (Hk f (Err e) w (Herr e w f Hi)). by destruct (k (Err e) w). }
  specialize (Hbody (Ok ()) w f Hi) as H1. destruct (body (Ok ()) w) as [w' [p|ts]]; [|done].
  exists [r]. cbn. rewrite app_nil_r. split; [done|]. constructor; [|done].
  constructor; intros v w1 f1 w2 x Hi1 Heq; specialize (Hbody v w1 f1 Hi1); by rewrite Heq in Hbody.
Qed.
End rules.

(** A call whose promise is dropped must not throw; it takes no tokens of the caller. *)
Lemma wp_spawn f r r1 (m : async unit) Post w :
  wp (r ++ f) m (fun f v w => v = Ok () /\ Inv w f) w -> r = r1 ->
  (forall f' w, Inv w (r1 ++ f') -> Post f' (Ok ()) w) -> wp f (spawn m) Post w.
Proof.
  intros Hm <- Hp k Hk. unfold spawn.
  assert (good (m dropped w) (r ++ f)) as Hc.
  { apply Hm. intros f' v w' [-> Hi]. by apply good_end. }
  destruct (m dropped w) as [w1 ts]. destruct Hc as (rs & Hi & Hts).
  assert (good (k (Ok ()) w1) (concat rs ++ f)) as Hg.
  { apply Hk, Hp. revert Hi. apply Inv_perm. cbn. rewrite !app_assoc. by rewrite (Permutation_app_comm (concat rs) r). }
  destruct (k (Ok ()) w1) as [w2 ts']. by eapply good_more.
Qed.

(** A promise; [settle] is what the call does in the end. *)
Lemma wp_new_promise {A B} (get : Promises -> list (option B)) set (settle : nat -> outcome A -> step) f r (m : async A) Post w :
  let p := length (get (w_promises w)) in
  wp (r ++ f) m (fun f v w => good (settle p v w) f) (on_promises (fun ps => set (get ps ++ [None]) ps) w) ->
  (forall f' w, Inv w (r ++ f') -> Post f' (Ok p) w) -> wp f (new_promise get set settle m) Post w.
Proof.
  intros p Hm Hp k Hk. unfold new_promise. fold p. set (w0 := on_promises _ w).
  assert (good (m (settle p) w0) (r ++ f)) as Hc by (apply Hm; done).
  destruct (m (settle p) w0) as [w1 ts]. destruct Hc as (rs & Hi & Hts).
  assert (good (k (Ok p) w1) (concat rs ++ f)) as Hg.
  { apply Hk, Hp. revert Hi. apply Inv_perm. cbn. rewrite !app_assoc. by rewrite (Permutation_app_comm (concat rs) r). }
  destruct (k (Ok p) w1) as [w2 ts']. by eapply good_more.
Qed.

(** ** Triples *)

(** From a state with [P] and the tokens [r], the computation ends with a result and tokens of
    [Q]; [r0] are further tokens of the same call. *)
Definition spec {A} (P : World -> Prop) r (m : async A) (Q : outcome A -> list token -> Prop) : Prop :=
  forall r0 f w, P w -> Inv w (r ++ r0 ++ f) -> wp f m (fun f v w => exists r', Q v r' /\ Inv w (r' ++ r0 ++ f)) w.

(** A computation that needs and leaves no tokens, and one that does not throw besides. *)
Definition quiet {A} (m : async A) : Prop := spec (fun _ => True) [] m (fun _ r => r = []).
Definition sure {A} (m : async A) : Prop := spec (fun _ => True) [] m (fun v r => (exists a, v = Ok a) /\ r = []).

Lemma spec_use {A} P r (m : async A) Q r0 f w Post :
  spec P r m Q -> P w -> Inv w (r ++ r0 ++ f) ->
  (forall f v w r', Q v r' -> Inv w (r' ++ r0 ++ f) -> Post f v w) -> wp f m Post w.
Proof. intros Hm HP Hi Hp. eapply wp_mono; [|by apply (Hm r0 f w HP Hi)]. intros f' v w' (r' & Hq & Hi'). by eapply Hp. Qed.

Lemma quiet_use {A} (m : async A) r f w Post :
  quiet m -> Inv w (r ++ f) -> (forall f v w, Inv w (r ++ f) -> Post f v w) -> wp f m Post w.
Proof. intros Hm Hi Hp. eapply (spec_use _ [] _ _ r); [exact Hm|done|exact Hi|]. intros f' v w' r' -> Hi'. by apply Hp. Qed.

Lemma sure_use {A} (m : async A) r f w Post :
  sure m -> Inv w (r ++ f) -> (forall f a w, Inv w (r ++ f) -> Post f (Ok a) w) -> wp f m Post w.
Proof. intros Hm Hi Hp. eapply (spec_use _ [] _ _ r); [exact Hm|done|exact Hi|]. intros f' v w' r' [[a ->] ->] Hi'. by apply Hp. Qed.

Lemma quiet_intro {A} (m : async A) : (forall r f w, Inv w (r ++ f) -> wp f m (fun f _ w => Inv w (r ++ f)) w) -> quiet m.
Proof. intros Hm r0 f w _ Hi. eapply wp_mono; [|by apply (Hm r0)]. intros f' v w' Hi'. by exists []. Qed.

Lemma sure_intro {A} (m : async A) : (forall r f w, Inv w (r ++ f) -> wp f m (fun f v w => (exists a, v = Ok a) /\ Inv w (r ++ f)) w) -> sure m.
Proof. intros Hm r0 f w _ Hi. eapply wp_mono; [|by apply (Hm r0)]. intros f' v w' [Hv Hi']. by exists []. Qed.

Lemma sure_quiet {A} (m : async A) : sure m -> quiet m.
Proof. intros Hm. apply quiet_intro. intros r f w Hi. by eapply sure_use. Qed.

Section quiet.
Context {A : Type}.

Lemma quiet_ret (a : A) : quiet (mret a).
Proof. apply quiet_intro. intros. by apply wp_ret. Qed.

Lemma quiet_throw e : quiet (throw e : async A).
Proof. apply quiet_intro. intros. by apply wp_throw. Qed.

Lemma quiet_gets (g : World -> A) : quiet (gets g).
Proof. apply quiet_intro. intros. by apply wp_gets. Qed.

Lemma quiet_bind {B} (m : async A) (g : A -> async B) : quiet m -> (forall a, quiet (g a)) -> quiet (m ≫= g).
Proof.
  intros Hm Hg. apply quiet_intro. intros r f w Hi. apply wp_bind. eapply quiet_use; [done..|]. intros f' [a|e] w' Hi'; [|done].
  eapply quiet_use; [by apply Hg|done|]. done.
Qed.

Lemma quiet_catch (m : async A) h : quiet m -> (forall e, quiet (h e)) -> quiet (catch m h).
Proof.
  intros Hm Hh. apply quiet_intro. intros r f w Hi. apply wp_catch. eapply quiet_use; [done..|]. intros f' [a|e] w' Hi'; [done|].
  by eapply quiet_use.
Qed.

Lemma quiet_finally (m : async A) g : quiet m -> quiet g -> quiet (finally m g).
Proof.
  intros Hm Hg. apply quiet_intro. intros r f w Hi. apply wp_finally. eapply quiet_use; [done..|]. intros f' v w' Hi'. by eapply quiet_use.
Qed.

Lemma quiet_awaiting (m : async A) : quiet m -> quiet (awaiting m).
Proof. intros Hm. apply quiet_intro. intros r f w Hi. apply wp_awaiting. eapply quiet_use; [done..|]. intros. by exists r. Qed.

Lemma quiet_await {B : Set} (q : wait (outcome B)) : (forall a v w w' r, arrive q a w = Some (v, w') -> Inv w r -> Inv w' r) -> quiet (await q).
Proof. intros Hq. apply quiet_intro. intros r f w Hi. eapply wp_await; [done|]. intros. by eapply Hq. Qed.

Lemma quiet_await_sure {B : Set} (q : wait B) : (forall a v w w' r, arrive q a w = Some (v, w') -> Inv w r -> Inv w' r) -> quiet (await_sure q).
Proof. intros Hq. apply quiet_intro. intros r f w Hi. eapply wp_await_sure; [done|]. intros. by eapply Hq. Qed.

Lemma quiet_modify g : (forall w r, Inv w r -> Inv (g w) r) -> quiet (modify g).
Proof. intros Hg. apply quiet_intro. intros. apply wp_modify. by apply Hg. Qed.

Lemma quiet_spawn m : sure m -> quiet (spawn m).
Proof.
  intros Hm. apply quiet_intro. intros r f w Hi. eapply (wp_spawn f r r); [|done|done].
  eapply (sure_use _ []); [done..|]. intros f' []; done.
Qed.

Lemma quiet_when b m : quiet m -> quiet (when b m).
Proof. destruct b; [done|]. intros _. apply quiet_intro. intros. by apply wp_ret. Qed.

Lemma quiet_for_each (l : list A) body : (forall a, a ∈ l -> quiet (body a)) -> quiet (for_each l body).
Proof.
  induction l as [|a l IH]; intros Hb; cbn; [apply quiet_intro; intros; by apply wp_ret|]. apply quiet_intro. intros r f w Hi.
  apply wp_bind. eapply quiet_use; [apply Hb; left|done|]. intros f' [[]|e] w' Hi'; [|done].
  eapply quiet_use; [apply IH; intros; apply Hb; by right|done|]. done.
Qed.

Lemma quiet_collect {B} (l : list A) (body : A -> async B) : (forall a, quiet (body a)) -> quiet (collect l body).
Proof.
  intros Hb. induction l as [|a l IH]; cbn; [apply quiet_intro; intros; by apply wp_ret|].
  apply quiet_intro. intros r f w Hi. apply wp_bind. eapply quiet_use; [apply Hb|done|]. intros f' [b|e] w' Hi'; [|done].
  apply wp_bind. eapply quiet_use; [exact IH|done|]. intros f2 [bs|e] w2 Hi2; [|done]. by apply wp_ret.
Qed.

End quiet.

(** Computations that never throw. *)
Section sure.
Context {A : Type}.

Lemma sure_catch (m : async A) h : quiet m -> (forall e, sure (h e)) -> sure (catch m h).
Proof.
  intros Hm Hh. apply sure_intro. intros r f w Hi. apply wp_catch. eapply quiet_use; [done..|]. intros f' [a|e] w' Hi'; [by eauto|].
  eapply sure_use; [done..|]. eauto.
Qed.

Lemma sure_ret (a : A) : sure (mret a).
Proof. apply sure_intro. intros. apply wp_ret. eauto. Qed.

Lemma sure_gets (g : World -> A) : sure (gets g).
Proof. apply sure_intro. intros. apply wp_gets. eauto. Qed.

Lemma sure_modify g : (forall w r, Inv w r -> Inv (g w) r) -> sure (modify g).
Proof. intros Hg. apply sure_intro. intros. apply wp_modify. eauto. Qed.

Lemma sure_bind {B} (m : async A) (g : A -> async B) : sure m -> (forall a, sure (g a)) -> sure (m ≫= g).
Proof.
  intros Hm Hg. apply sure_intro. intros r f w Hi. apply wp_bind. eapply sure_use; [done..|]. intros f' a w' Hi'.
  eapply sure_use; [by apply Hg|done|]. eauto.
Qed.

Lemma sure_awaiting (m : async A) : sure m -> sure (awaiting m).
Proof. intros Hm. apply sure_intro. intros r f w Hi. apply wp_awaiting. eapply sure_use; [done..|]. intros. exists r. eauto. Qed.

Lemma sure_await_sure {B : Set} (q : wait B) : (forall a v w w' r, arrive q a w = Some (v, w') -> Inv w r -> Inv w' r) -> sure (await_sure q).
Proof. intros Hq. apply sure_intro. intros r f w Hi. eapply wp_await_sure; [done|]. intros. split; [by eexists|by eapply Hq]. Qed.

Lemma sure_spawn m : sure m -> sure (spawn m).
Proof.
  intros Hm. apply sure_intro. intros r f w Hi. eapply (wp_spawn f r r); [|done|eauto].
  eapply (sure_use _ []); [done..|]. intros f' []; done.
Qed.

Lemma sure_when b m : sure m -> sure (when b m).
Proof. intros Hm. destruct b; [done|]. apply sure_intro. intros. apply wp_ret. eauto. Qed.

Lemma sure_for_each (l : list A) body : (forall a, sure (body a)) -> sure (for_each l body).
Proof.
  intros Hb. induction l as [|a l IH]; cbn; apply sure_intro; intros r f w Hi; [apply wp_ret; eauto|].
  apply wp_bind. eapply sure_use; [by apply Hb|done|]. intros f' [] w' Hi'. eapply sure_use; [done..|]. eauto.
Qed.

Lemma sure_collect {B} (l : list A) (body : A -> async B) : (forall a, sure (body a)) -> sure (collect l body).
Proof.
  intros Hb. induction l as [|a l IH]; cbn; apply sure_intro; intros r f w Hi; [apply wp_ret; eauto|].
  apply wp_bind. eapply sure_use; [by apply Hb|done|]. intros f' b w' Hi'.
  apply wp_bind. eapply sure_use; [done..|]. intros f2 bs w2 Hi2. apply wp_ret. eauto.
Qed.

(** A promise of a computation; the computation itself may throw. *)
Lemma sure_promise {B} (get : Promises -> list (option B)) set (settle : nat -> outcome A -> step) m :
  (forall w r, Inv w r -> Inv (on_promises (fun ps => set (get ps ++ [None]) ps) w) r) -> (forall p v w r, Inv w r -> good (settle p v w) r) ->
  quiet m -> sure (new_promise get set settle m).
Proof.
  intros Hnew Hset Hm. apply sure_intro. intros r f w Hi. eapply (wp_new_promise _ _ _ _ r); [|eauto].
  eapply (quiet_use _ []); [done|by apply Hnew|]. intros. by apply Hset.
Qed.
End sure.

(** ** Pools *)

(** Every thread of a pool is safe with tokens of its own. *)
Definition pool_good (x : World * list thread) : Prop := good x [].

Lemma good_resume i t a w ts w' ts' :
  good (w, ts) [] -> nth_error ts i = Some t -> resume_thread t a w = Some (w', ts') -> good (w', remove_nth i ts ++ ts') [].
Proof.
  intros (rs & Hi & Hts) Ht Hr. cbn in Hi, Hts. apply nth_error_split in Ht as (l1 & l2 & -> & <-).
  apply Forall2_app_inv_r in Hts as (rs1 & rs2' & H1 & H2 & ->). inversion H2 as [|r ? rs2 ? Hs H3]; subst.
  assert (remove_nth (length l1) (l1 ++ t :: l2) = l1 ++ l2) as ->.
  { unfold remove_nth. rewrite take_app_length. f_equal. rewrite drop_app_ge by lia. by replace (S (length l1) - length l1) with 1 by lia. }
  eapply (good_more (l1 ++ l2) ts' w' [] (rs1 ++ rs2)); [by apply Forall2_app|].
  assert (Inv w (r ++ concat (rs1 ++ rs2) ++ [])) as Hi'.
  { revert Hi. apply Inv_perm. rewrite !app_nil_r, !concat_app. cbn. by rewrite !app_assoc, (Permutation_app_comm (concat rs1) r). }
  inversion Hs as [? A q k Hk|? p round Hk1 Hk2]; subst; cbn in Hr.
  - destruct (arrive q a w) as [[v w1]|] eqn:Ha; [|done]. specialize (Hk _ _ _ _ _ Ha Hi'). injection Hr as Hr. rewrite Hr in Hk. exact Hk.
  - destruct a; try discriminate Hr. unfold unchanged in Hr. destruct (settled _ p) as [v|]; [|done].
    destruct (round v w) as [w1 [p'|ts1]] eqn:Hround; injection Hr as <- <-; [|by eapply Hk2].
    exists [r]. cbn. rewrite app_nil_r. split; [by eapply Hk1|]. by repeat constructor.
Qed.

(** A handler that leaves no tokens, run next to the pool. *)
Lemma good_run (m : (outcome unit -> step) -> step) k w ts :
  good (w, ts) [] -> (forall f, Inv w f -> good (m k w) f) -> good ((m k w).1, ts ++ (m k w).2) [].
Proof.
  intros (rs & Hi & Hts) Hm. cbn in Hi. eapply good_more; [done|]. specialize (Hm _ Hi). by destruct (m k w).
Qed.
End logic.
