(* ===== verification/ServerSpec.v ===== *)
(** What the server promises, as automata over its outputs, and the invariant that relates its
    state to them.

    [talk_step]: what is said on each connection.  [lock_step]: who has the runtime of each
    session.  [Inv] is the invariant of [ServerLogic]; the lemmas say how the steps of the code
    keep it. *)
From S2P Require Import Prelude JsNumber JsText JsObject JsData CborWriter CborValue CborEncoder CborDecoder Framing Schema ProtocolSchemas ProtocolValue ProtocolCodec ClientMessages ServerWorld Server ServerLogic.
Local Open Scope nat_scope.

(** ** The specifications *)

Inductive trace_of {S : Type} (step : S -> output -> S -> Prop) (start : S) : list output -> S -> Prop :=
  | trace_nil : trace_of step start [] start
  | trace_snoc l s o s' : trace_of step start l s -> step s o s' -> trace_of step start (l ++ [o]) s'.

(** A connection: whether it was greeted, the requests that were received and are not handled
    yet, and those that wait for their response. *)
Record talk := mkTalk { tk_greeted : bool; tk_queued : list jsstr; tk_open : list jsstr }.

Definition is_event (m : outgoing) : Prop :=
  match m with OutServerSnapshot _ | OutSessionSnapshot _ | OutProgress _ _ => True | _ => False end.

(** Outputs that say nothing on a connection. *)
Definition silent (o : output) : Prop :=
  match o with OAccept _ | OReceived _ _ | ORequest _ _ | OSend _ _ _ | OClose _ _ | OUnhandled _ => False | _ => True end.

(** An error that nothing handles is no step. *)
Inductive talk_step `{Platform} (fuel : nat) (maxFrameLength : Z) (T : list talk) : output -> list talk -> Prop :=
  | Talk_accept : talk_step fuel maxFrameLength T (OAccept (length T)) (T ++ [mkTalk false [] []])
  | Talk_hello c id snapshot frame queued :
      T !! c = Some (mkTalk false queued []) -> encodeServerMessage fuel maxFrameLength (OutHello id snapshot) = Ok frame ->
      talk_step fuel maxFrameLength T (OSend c (OutHello id snapshot) frame) (<[c := mkTalk true queued []]> T)
  | Talk_receive c id greeted queued open :
      T !! c = Some (mkTalk greeted queued open) -> talk_step fuel maxFrameLength T (OReceived c id) (<[c := mkTalk greeted (id :: queued) open]> T)
  | Talk_request c id queued queued' open :
      T !! c = Some (mkTalk true queued open) -> queued ≡ₚ id :: queued' ->
      talk_step fuel maxFrameLength T (ORequest c id) (<[c := mkTalk true queued' (id :: open)]> T)
  | Talk_response c id r frame queued open open' :
      T !! c = Some (mkTalk true queued open) -> open ≡ₚ id :: open' -> encodeServerMessage fuel maxFrameLength (OutResponse id r) = Ok frame ->
      talk_step fuel maxFrameLength T (OSend c (OutResponse id r) frame) (<[c := mkTalk true queued open']> T)
  | Talk_event c m frame queued open :
      is_event m -> T !! c = Some (mkTalk true queued open) -> encodeServerMessage fuel maxFrameLength m = Ok frame ->
      talk_step fuel maxFrameLength T (OSend c m frame) T
  | Talk_close c final :
      (forall e frame, final = Some (e, frame) -> encodeServerMessage fuel maxFrameLength (OutHelloError e) = Ok frame) ->
      talk_step fuel maxFrameLength T (OClose c final) T
  | Talk_silent o : silent o -> talk_step fuel maxFrameLength T o T.

(** Who has the runtime of a session: a call that waits for the service, the server, or the
    runtime that is being disposed. *)
Inductive hold : Type :=
  | Acquiring
  | Held (runtime : nat)
  | Disposing (runtime : nat).

Definition unlocked (o : output) : Prop :=
  match o with OAcquire _ _ | OAcquired _ _ | OOperation _ _ _ | OSubscribe _ _ | ODispose _ _ | ODisposed _ _ | OSessionsClosed => False | _ => True end.

(** The sessions that are held; [None] once the sessions were closed, when nothing is promised. *)
Inductive lock_step : option (gmap jsstr hold) -> output -> option (gmap jsstr hold) -> Prop :=
  | Lock_acquire m id options : m !! id = None -> lock_step (Some m) (OAcquire id options) (Some (<[id := Acquiring]> m))
  | Lock_acquired m id runtime : m !! id = Some Acquiring -> lock_step (Some m) (OAcquired id (Some runtime)) (Some (<[id := Held runtime]> m))
  | Lock_failed m id : m !! id = Some Acquiring -> lock_step (Some m) (OAcquired id None) (Some (delete id m))
  | Lock_operation m id runtime op : m !! id = Some (Held runtime) -> lock_step (Some m) (OOperation id runtime op) (Some m)
  | Lock_subscribe m id runtime : m !! id = Some (Held runtime) -> lock_step (Some m) (OSubscribe id runtime) (Some m)
  | Lock_dispose m id runtime : m !! id = Some (Held runtime) -> lock_step (Some m) (ODispose id runtime) (Some (<[id := Disposing runtime]> m))
  | Lock_disposed m id runtime : m !! id = Some (Disposing runtime) -> lock_step (Some m) (ODisposed id runtime) (Some (delete id m))
  | Lock_other m o : unlocked o -> lock_step (Some m) o (Some m)
  | Lock_closed m : lock_step (Some m) OSessionsClosed None
  | Lock_over o : lock_step None o None.

(** ** The tokens of a call *)

Inductive token : Type :=
  | TShake (c p : nat)                        (* the handshake with the promise [p], before the hello *)
  | TGreet (c p : nat)                        (* the handshake, between the hello and its end *)
  | TSure (p : nat)                           (* a promise that is not rejected is to be settled *)
  | TRead (c : nat) (id : jsstr)              (* a request that was received *)
  | TPending (c : nat) (id : jsstr) (p : nat) (* a request that waits for the handshake [p] *)
  | TReady (c : nat)                          (* the connection was greeted *)
  | TRequest (c : nat) (id : jsstr)           (* a response is due *)
  | TAcquire (id : jsstr) (p : nat)           (* the service was asked for a session; [p] is the promise of [create] *)
  | TCreated (id : jsstr) (runtime p : nat)   (* a runtime that is not registered *)
  | TAborting (id : jsstr) (runtime p : nat)  (* a runtime that is disposed instead *)
  | TOwner (p : nat)                          (* the promise of [create] is to be settled *)
  | TDisposing (live : nat) (id : jsstr) (runtime : nat)  (* a session that is being disposed *)
  | TOver.                                    (* the sessions were closed *)

Abbreviation tokens := (list token).

Definition shake_of (t : token) : option nat := match t with TShake c _ => Some c | _ => None end.
Definition sure_of (t : token) : option nat := match t with TShake _ p | TGreet _ p | TSure p => Some p | _ => None end.
Definition queued_of (c : nat) (t : token) : option jsstr :=
  match t with TRead c' id | TPending c' id _ => if decide (c = c') then Some id else None | _ => None end.
Definition request_of (c : nat) (t : token) : option jsstr := match t with TRequest c' id => if decide (c = c') then Some id else None | _ => None end.
Definition claim_of (t : token) : option jsstr := match t with TAcquire id _ | TCreated id _ _ | TAborting id _ _ => Some id | _ => None end.
Definition promise_of (t : token) : option nat := match t with TAcquire _ p | TCreated _ _ p | TAborting _ _ p | TOwner p => Some p | _ => None end.
Definition disposing_of (t : token) : option nat := match t with TDisposing l _ _ => Some l | _ => None end.

Definition shakes (r : tokens) : list nat := omap shake_of r.
Definition sures (r : tokens) : list nat := omap sure_of r.
Definition queued (c : nat) (r : tokens) : list jsstr := omap (queued_of c) r.
Definition requests (c : nat) (r : tokens) : list jsstr := omap (request_of c) r.
Definition claims (r : tokens) : list jsstr := omap claim_of r.
Definition owned (r : tokens) : list nat := omap promise_of r.
Definition disposals (r : tokens) : list nat := omap disposing_of r.

(** ** The invariant *)

Section invariant.
Context `{Platform} (fuel : nat) (maxFrameLength : Z).

(** Nothing can be sent on the connection any more. *)
Definition gone (n : Network) (c : nat) : Prop := (exists s, nw_states n !! c = Some s /\ sc_disconnected s = true) \/ c ∈ nw_closed n.

Definition greeted (T : list talk) (c : nat) : Prop := exists t, T !! c = Some t /\ tk_greeted t = true.

Record network_ok (T : list talk) (n : Network) (lives : list LiveSession) (liveSessions : list (jsstr * nat)) (r : tokens) : Prop := mkNetworkOk {
  no_length : length T = length (nw_states n);
  no_ready : forall c s, nw_states n !! c = Some s -> sc_stage s = SReady -> greeted T c;
  no_awaiting : forall c s t, nw_states n !! c = Some s -> T !! c = Some t -> sc_stage s = SAwaitingHello -> tk_greeted t = false;
  no_shake : forall c p, TShake c p ∈ r ->
    exists s t, nw_states n !! c = Some s /\ T !! c = Some t /\ tk_greeted t = false /\ sc_stage s <> SAwaitingHello;
  no_shakes : NoDup (shakes r);
  no_greeted : forall c, TReady c ∈ r -> greeted T c;
  no_attached : forall l lv c, lives !! l = Some lv -> c ∈ lv_connections lv -> greeted T c;
  no_open : forall c t, T !! c = Some t -> tk_greeted t = false -> tk_open t = [];
  no_requests : forall c t, T !! c = Some t -> exists rest, tk_open t ≡ₚ requests c r ++ rest /\ (rest <> [] -> gone n c);
  no_request : forall c id, TRequest c id ∈ r -> is_Some (T !! c);
  no_registered : forall id l, JsMap.get id liveSessions = Some l -> exists lv, lives !! l = Some lv /\ lv_id lv = id;
  no_agree : forall id l lv c, JsMap.get id liveSessions = Some l -> lives !! l = Some lv -> c ∈ lv_connections lv ->
    exists s, nw_states n !! c = Some s /\ id ∈ sc_sessionIds s;
  no_ended : forall c s, nw_states n !! c = Some s -> sc_disconnected s = true -> sc_sessionIds s = [];
}.

(** Nobody greets the connection any more, or it has ended. *)
Definition stage_over (s : ServerConnection) : Prop := sc_stage s <> SReady /\ sc_stage s <> SAwaitingHello.
Definition doomed (n : Network) (c : nat) (r : tokens) : Prop :=
  (forall s, nw_states n !! c = Some s -> stage_over s) /\ forall p, TShake c p ∉ r /\ TGreet c p ∉ r.

(** Handshakes and the requests that wait for them; [S] are the promises that are not rejected.
    A request that is received is only lost with its connection. *)
Record queue_ok (T : list talk) (n : Network) (S : list (option unit)) (r : tokens) : Prop := mkQueueOk {
  qo_length : length T = length (nw_states n);
  qo_closed : forall c s, nw_states n !! c = Some s -> sc_disconnected s = true -> sc_stage s = SClosing \/ sc_stage s = SClosed;
  qo_awaiting : forall c s, nw_states n !! c = Some s -> sc_stage s = SAwaitingHello -> sc_handshake s = None;
  qo_handshaking : forall c s, nw_states n !! c = Some s -> sc_stage s = SHandshaking -> is_Some (sc_handshake s);
  qo_shaking : forall c p, TShake c p ∈ r \/ TGreet c p ∈ r -> exists s, nw_states n !! c = Some s /\ sc_handshake s = Some p;
  qo_pending : forall c id p, TPending c id p ∈ r -> exists s, nw_states n !! c = Some s /\ sc_handshake s = Some p;
  qo_read : forall c id, TRead c id ∈ r -> is_Some (nw_states n !! c);
  qo_owned : NoDup (sures r);
  qo_unsettled : forall p, p ∈ sures r -> S !! p = Some None;
  qo_queued : forall c t, T !! c = Some t -> exists rest, tk_queued t ≡ₚ queued c r ++ rest /\ (rest <> [] -> doomed n c r);
}.

(** The promise of a call of [create] is the one that is recorded. *)
Definition opening (s : Sessions) (id : jsstr) (p : nat) : Prop := JsMap.get id (ss_openingSessions s) = Some p.

Definition live_hold (lv : LiveSession) : hold := match lv_disposing lv with None => Held (lv_runtime lv) | Some _ => Disposing (lv_runtime lv) end.

Record sessions_ok (m : gmap jsstr hold) (s : Sessions) (promises : list (option (outcome nat))) (r : tokens) : Prop := mkSessionsOk {
  so_claims : NoDup (claims r ++ JsMap.keys (ss_liveSessions s));
  so_held : forall id, is_Some (m !! id) -> id ∈ claims r ++ JsMap.keys (ss_liveSessions s);
  so_acquire : forall id p, TAcquire id p ∈ r -> m !! id = Some Acquiring /\ opening s id p;
  so_created : forall id rt p, TCreated id rt p ∈ r -> m !! id = Some (Held rt) /\ opening s id p;
  so_aborting : forall id rt p, TAborting id rt p ∈ r -> m !! id = Some (Disposing rt) /\ opening s id p;
  so_owned : NoDup (owned r);
  so_unsettled : forall p, p ∈ owned r -> promises !! p = Some None;
  so_live : forall id l, JsMap.get id (ss_liveSessions s) = Some l -> exists lv, ss_lives s !! l = Some lv /\ lv_id lv = id /\ m !! id = Some (live_hold lv);
  so_registered : forall l lv, ss_lives s !! l = Some lv -> lv_disposing lv = None -> JsMap.get (lv_id lv) (ss_liveSessions s) = Some l;
  so_disposing : forall l id rt, TDisposing l id rt ∈ r ->
    exists lv, ss_lives s !! l = Some lv /\ lv_disposing lv <> None /\ lv_id lv = id /\ lv_runtime lv = rt /\ JsMap.get id (ss_liveSessions s) = Some l;
  so_disposals : NoDup (disposals r);
  so_over : TOver ∉ r;
}.

Definition locks_ok (L : option (gmap jsstr hold)) (w : World) (r : tokens) : Prop :=
  match L with Some m => sessions_ok m (w_sessions w) (pr_lives (w_promises w)) r | None => True end.

Definition Inv (w : World) (r : tokens) : Prop :=
  exists T L, trace_of (talk_step fuel maxFrameLength) [] (w_trace w) T /\ trace_of lock_step (Some ∅) (w_trace w) L /\
    network_ok T (w_network w) (ss_lives (w_sessions w)) (ss_liveSessions (w_sessions w)) r /\
    queue_ok T (w_network w) (pr_sure (w_promises w)) r /\ locks_ok L w r.

Lemma Inv_perm w r r' : r ≡ₚ r' -> Inv w r -> Inv w r'.
Proof.
  intros Hp (T & L & HT & HL & [] & Hq & Hs). exists T, L. split_and!; [done..| | |].
  - constructor; try done; try (intros *; rewrite <- Hp; by eauto).
    + unfold shakes. by rewrite <- Hp.
    + intros c t Hc. destruct (no_requests0 c t Hc) as (rest & Ho & Hr). exists rest. split; [|done].
      rewrite Ho. unfold requests. by rewrite Hp.
  - destruct Hq. constructor; try done; try (intros *; rewrite <- !Hp; by eauto); unfold sures, queued in *; rewrite <- ?Hp; try done.
    + intros p. rewrite <- Hp. by apply qo_unsettled0.
    + intros c t Hc. destruct (qo_queued0 c t Hc) as (rest & Ho & Hr). exists rest. split; [rewrite Ho; f_equiv; by rewrite Hp|].
      intros [Hs' Ht]%Hr. split; [done|]. intros p. by rewrite <- !Hp.
  - destruct L as [m|]; [|done]. destruct Hs. cbn. constructor; try done; unfold claims, owned, disposals in *; rewrite <- ?Hp; try done.
    + intros id. rewrite <- Hp. by apply so_held0.
    + intros id p. rewrite <- Hp. by apply so_acquire0.
    + intros id rt p. rewrite <- Hp. by apply so_created0.
    + intros id rt p. rewrite <- Hp. by apply so_aborting0.
    + intros p. rewrite <- Hp. by apply so_unsettled0.
    + intros l id rt. rewrite <- Hp. by apply so_disposing0.
Qed.
End invariant.
