(* ===== verification/ServerKeeps.v ===== *)
(** How the server keeps its invariant: the steps of its code, and its operations. *)
From S2P Require Import Prelude JsNumber JsText JsObject JsData CborWriter CborValue CborEncoder CborDecoder Framing Schema ProtocolSchemas ProtocolValue ProtocolCodec ClientMessages ServerWorld Server ServerLogic ServerSpec.
Local Open Scope nat_scope.

Section steps.
Context `{Platform} (fuel : nat) (maxFrameLength : Z).
Abbreviation Inv := (ServerSpec.Inv fuel maxFrameLength).
Implicit Types (w : World) (r : tokens).

(** ** Steps that the invariant does not look at *)

Lemma inv_same w w' r :
  w_network w' = w_network w -> ss_lives (w_sessions w') = ss_lives (w_sessions w) ->
  ss_liveSessions (w_sessions w') = ss_liveSessions (w_sessions w) -> ss_openingSessions (w_sessions w') = ss_openingSessions (w_sessions w) ->
  pr_lives (w_promises w') = pr_lives (w_promises w) -> pr_sure (w_promises w') = pr_sure (w_promises w) -> w_trace w' = w_trace w -> Inv w r -> Inv w' r.
Proof.
  intros Hn Hl Hs Ho Hp Hp' Ht (T & L & HT & HL & Hok & Hq & Hlk). exists T, L. rewrite Ht, Hn, Hl, Hs, Hp'. split_and!; [done..|].
  destruct L as [m|]; [|done]. destruct Hlk. constructor; unfold opening in *; rewrite ?Hl, ?Hs, ?Ho, ?Hp; done.
Qed.

Lemma inv_emit w o r : silent o -> unlocked o -> Inv w r -> Inv (emit o w) r.
Proof.
  intros Ho Ho' (T & L & HT & HL & Hok & Hq & Hlk). exists T, L. split_and!; [econstructor; [done|by constructor]|econstructor; [done|]|done..].
  destruct L; by constructor.
Qed.

(** The tokens of the three parts of the invariant. *)
Definition talk_token (t : token) : Prop := match t with TShake _ _ | TReady _ | TRequest _ _ => True | _ => False end.
Definition queue_token (t : token) : Prop :=
  match t with TShake _ _ | TGreet _ _ | TSure _ | TRead _ _ | TPending _ _ _ => True | _ => False end.
Definition lock_token (t : token) : Prop :=
  match t with TAcquire _ _ | TCreated _ _ _ | TAborting _ _ _ | TOwner _ | TDisposing _ _ _ | TOver => True | _ => False end.

Lemma locks_ok_ext L w r r' :
  (forall t, lock_token t -> t ∈ r' -> t ∈ r) -> claims r' = claims r -> owned r' = owned r -> disposals r' = disposals r -> locks_ok L w r -> locks_ok L w r'.
Proof.
  intros Hin Hc Ho Hd. destruct L as [m|]; [|done]. intros []. constructor; rewrite ?Hc, ?Ho, ?Hd; try done.
  - intros id p Ht. apply so_acquire, Hin; done.
  - intros id rt p Ht. apply so_created, Hin; done.
  - intros id rt p Ht. apply so_aborting, Hin; done.
  - intros l id rt Ht. apply so_disposing, Hin; done.
  - intros Ht. apply so_over, Hin; done.
Qed.

Lemma network_ok_ext T n lives ls r r' :
  (forall t, talk_token t -> t ∈ r' -> t ∈ r) -> shakes r' = shakes r -> (forall c, requests c r' = requests c r) ->
  network_ok T n lives ls r -> network_ok T n lives ls r'.
Proof.
  intros Hin Hs Hr []. constructor; try done.
  - intros c p Ht. eapply no_shake, Hin; done.
  - by rewrite Hs.
  - intros c Ht. apply no_greeted, Hin; done.
  - intros c t. rewrite Hr. apply no_requests.
  - intros c id Ht. eapply no_request, Hin; done.
Qed.

Lemma queue_ok_ext T n S r r' :
  (forall t, queue_token t -> t ∈ r' -> t ∈ r) -> sures r' = sures r -> (forall c, queued c r' = queued c r) -> queue_ok T n S r -> queue_ok T n S r'.
Proof.
  intros Hin Hs Hr []. constructor; rewrite ?Hs; try done.
  - intros c p Ht. apply (qo_shaking c p). destruct Ht as [Ht|Ht]; [left|right]; by apply Hin.
  - intros c id p Ht. apply (qo_pending c id), Hin; done.
  - intros c id Ht. apply (qo_read c id), Hin; done.
  - intros c t Ht. rewrite Hr. destruct (qo_queued c t Ht) as (rest & Hp & Hd). exists rest. split; [done|]. intros [H1 H2]%Hd.
    split; [done|]. intros p. destruct (H2 p). split; intros Hx; apply Hin in Hx; done.
Qed.

Lemma locks_ok_talk L w t r : ~ lock_token t -> locks_ok L w (t :: r) <-> locks_ok L w r.
Proof.
  intros Ht. split; apply locks_ok_ext; try (by destruct t; try destruct (Ht I)).
  - intros t' Ht' Hin. by right.
  - intros t' Ht' [->|Hin]%elem_of_cons; done.
Qed.

Lemma network_ok_lock T n lives ls t r : ~ talk_token t -> network_ok T n lives ls (t :: r) <-> network_ok T n lives ls r.
Proof.
  intros Ht. split; apply network_ok_ext; try (by destruct t; try destruct (Ht I)); try (intros c; by destruct t; try destruct (Ht I)).
  - intros t' Ht' Hin. by right.
  - intros t' Ht' [->|Hin]%elem_of_cons; done.
Qed.

Lemma queue_ok_other T n S t r : ~ queue_token t -> queue_ok T n S (t :: r) <-> queue_ok T n S r.
Proof.
  intros Ht. split; apply queue_ok_ext; try (by destruct t; try destruct (Ht I)); try (intros c; by destruct t; try destruct (Ht I)).
  - intros t' Ht' Hin. by right.
  - intros t' Ht' [->|Hin]%elem_of_cons; done.
Qed.

(** ** Connections *)

(** What a step may do to the object of a connection. *)
Definition may_become (T : list talk) (c : nat) (s s' : ServerConnection) : Prop :=
  (sc_stage s' = SReady -> sc_stage s = SReady \/ greeted T c) /\ (sc_stage s' = SAwaitingHello -> sc_stage s = SAwaitingHello) /\
  (sc_disconnected s = true -> sc_disconnected s' = true) /\ (sc_disconnected s' = true -> sc_sessionIds s' = []).

Lemma network_change T n n' lives lives' ls ls' r :
  network_ok T n lives ls r -> length (nw_states n') = length (nw_states n) -> nw_closed n ⊆ nw_closed n' ->
  (forall c s', nw_states n' !! c = Some s' -> exists s, nw_states n !! c = Some s /\ may_become T c s s') ->
  (forall l lv c, lives' !! l = Some lv -> c ∈ lv_connections lv -> greeted T c) ->
  (forall id l, JsMap.get id ls' = Some l -> exists lv, lives' !! l = Some lv /\ lv_id lv = id) ->
  (forall id l lv c s, JsMap.get id ls' = Some l -> lives' !! l = Some lv -> c ∈ lv_connections lv -> nw_states n' !! c = Some s -> id ∈ sc_sessionIds s) ->
  network_ok T n' lives' ls' r.
Proof.
  intros [] Hlen Hcl Hst Ha Hr Hag.
  assert (forall c, is_Some (nw_states n !! c) -> exists s', nw_states n' !! c = Some s') as Hex.
  { intros c. rewrite lookup_lt_is_Some, <- Hlen, <- lookup_lt_is_Some. done. }
  constructor; try done.
  - by rewrite Hlen.
  - intros c s' Hc Hs. destruct (Hst c s' Hc) as (s & Hs0 & Hrd & _). destruct (Hrd Hs); [by eapply no_ready|done].
  - intros c s' t Hc Ht Hs. destruct (Hst c s' Hc) as (s & Hs0 & _ & Haw & _). eapply no_awaiting; [done|done|by apply Haw].
  - intros c p Ht. destruct (no_shake c p Ht) as (s & t & Hs & Htk & Hg & Hst'). destruct (Hex c (mk_is_Some _ _ Hs)) as [s' Hs'].
    exists s', t. split_and!; try done. destruct (Hst c s' Hs') as (s0 & Hs0 & _ & Haw & _). intros Hx. apply Hst'. simplify_eq. by apply Haw.
  - intros c t Hc. destruct (no_requests c t Hc) as (rest & Ho & Hg). exists rest. split; [done|]. intros Hr'.
    destruct (Hg Hr') as [(s & Hs & Hd)|Hx]; [left|by right; apply Hcl].
    destruct (Hex c (mk_is_Some _ _ Hs)) as [s' Hs']. exists s'. split; [done|].
    destruct (Hst c s' Hs') as (s0 & Hs0 & _ & _ & Hdis & _). simplify_eq. by apply Hdis.
  - intros id l lv c Hl Hlv Hc. assert (is_Some (nw_states n' !! c)) as [s Hs].
    { rewrite lookup_lt_is_Some, Hlen, <- no_length, <- lookup_lt_is_Some. destruct (Ha _ _ _ Hlv Hc) as (t & Ht & _). by exists t. }
    exists s. split; [done|]. by eapply Hag.
  - intros c s' Hs' Hd. destruct (Hst c s' Hs') as (s & _ & _ & _ & _ & He). by apply He.
Qed.

Lemma lookup_alter_inv {A} (f : A -> A) (c : nat) (l : list A) c' (s' : A) : alter f c l !! c' = Some s' -> exists s, l !! c' = Some s /\ (s' = if decide (c = c') then f s else s).
Proof.
  rewrite list_lookup_alter. intros Hs. case_decide; [|by exists s']. subst c'. destruct (l !! c) as [s|] eqn:Hl; [|done]. injection Hs as <-. by exists s.
Qed.

(** A step on one connection that keeps its sessions. *)
Lemma network_alter T n lives ls r f c :
  network_ok T n lives ls r -> (forall s, nw_states n !! c = Some s -> may_become T c s (f s) /\ sc_sessionIds (f s) = sc_sessionIds s) ->
  network_ok T (set_states (alter f c (nw_states n)) n) lives ls r.
Proof.
  intros Hok Hf. pose proof Hok as [].
  assert (forall c' s', alter f c (nw_states n) !! c' = Some s' -> exists s, nw_states n !! c' = Some s /\ may_become T c' s s' /\ sc_sessionIds s' = sc_sessionIds s) as Hst.
  { intros c' s' (s & Hs & ->)%lookup_alter_inv. exists s. split; [done|]. destruct (decide (c = c')) as [<-|]; [by apply Hf|].
    split; [|done]. split_and!; try done; [by left|]. by eapply no_ended. }
  apply (network_change T n _ lives lives ls ls r); cbn; try done.
  - by rewrite length_alter.
  - intros c' s' Hs'. destruct (Hst c' s' Hs') as (s & Hs & Hm & _). by exists s.
  - intros id l lv c' s' Hl Hlv Hc Hs'. destruct (Hst c' s' Hs') as (s & Hs & _ & ->).
    destruct (no_agree id l lv c' Hl Hlv Hc) as (s0 & Hs0 & Hin). by simplify_eq.
Qed.

(** What a step may do to the object of a connection, for its handshake. *)
Definition keeps_queue (s s' : ServerConnection) : Prop :=
  sc_handshake s' = sc_handshake s /\ (sc_stage s' = sc_stage s \/ sc_stage s' = SClosing \/ sc_stage s' = SClosed) /\
  (sc_disconnected s' = true -> sc_disconnected s = true \/ sc_stage s' = SClosed).

Lemma keeps_queue_refl s : keeps_queue s s.
Proof. split; [done|]. split; [by left|]. by left. Qed.
Lemma keeps_queue_ids s ids : keeps_queue s (set_sessionIds ids s).
Proof. exact (keeps_queue_refl s). Qed.
#[local] Hint Resolve keeps_queue_refl keeps_queue_ids : core.

Lemma queue_change T n n' S r :
  length (nw_states n') = length (nw_states n) ->
  (forall c s', nw_states n' !! c = Some s' -> exists s, nw_states n !! c = Some s /\ keeps_queue s s') ->
  queue_ok T n S r -> queue_ok T n' S r.
Proof.
  intros Hlen Hst [].
  assert (forall c s, nw_states n !! c = Some s -> exists s', nw_states n' !! c = Some s' /\ sc_handshake s' = sc_handshake s) as Hex.
  { intros c s Hs. assert (is_Some (nw_states n' !! c)) as [s' Hs'] by (apply lookup_lt_is_Some; rewrite Hlen; by eapply lookup_lt_Some).
    exists s'. split; [done|]. destruct (Hst c s' Hs') as (s0 & Hs0 & Hh & _). by simplify_eq. }
  constructor; try done.
  - by rewrite Hlen.
  - intros c s' Hs' Hd. destruct (Hst c s' Hs') as (s & Hs & _ & Hstage & Hdis). destruct (Hdis Hd) as [Hd'|]; [|by right].
    destruct (qo_closed c s Hs Hd'), Hstage as [-> |]; auto.
  - intros c s' Hs' Ha. destruct (Hst c s' Hs') as (s & Hs & -> & Hstage & _). apply (qo_awaiting c s Hs). destruct Hstage as [<-|[?|?]]; congruence.
  - intros c s' Hs' Ha. destruct (Hst c s' Hs') as (s & Hs & -> & Hstage & _). apply (qo_handshaking c s Hs). destruct Hstage as [<-|[?|?]]; congruence.
  - intros c p (s & Hs & Hp)%qo_shaking. destruct (Hex c s Hs) as (s' & Hs' & Hh). exists s'. by rewrite Hh.
  - intros c id p (s & Hs & Hp)%qo_pending. destruct (Hex c s Hs) as (s' & Hs' & Hh). exists s'. by rewrite Hh.
  - intros c id (s & Hs)%qo_read. destruct (Hex c s Hs) as (s' & Hs' & Hh). by exists s'.
  - intros c t Ht. destruct (qo_queued c t Ht) as (rest & Hp & Hd). exists rest. split; [done|]. intros [H1 H2]%Hd. split; [|done].
    intros s' Hs'. destruct (Hst c s' Hs') as (s & Hs & _ & Hstage & _). destruct (H1 s Hs). unfold stage_over in *. destruct Hstage as [->|[->| ->]]; done.
Qed.

Lemma queue_same T n n' S r : nw_states n' = nw_states n -> queue_ok T n S r -> queue_ok T n' S r.
Proof. intros Hn. apply queue_change; [by rewrite Hn|]. rewrite Hn. intros c s Hs. exists s. by split. Qed.

Lemma queue_alter T n S r f c :
  (forall s, nw_states n !! c = Some s -> keeps_queue s (f s)) ->
  queue_ok T n S r -> queue_ok T (set_states (alter f c (nw_states n)) n) S r.
Proof.
  intros Hf. apply queue_change; cbn; [by rewrite length_alter|]. intros c' s' (s & Hs & ->)%lookup_alter_inv. exists s. split; [done|].
  destruct (decide (c = c')) as [<-|]; [by apply Hf|done].
Qed.

Lemma inv_network w n' r :
  (forall T, network_ok T (w_network w) (ss_lives (w_sessions w)) (ss_liveSessions (w_sessions w)) r ->
     network_ok T n' (ss_lives (w_sessions w)) (ss_liveSessions (w_sessions w)) r) ->
  (forall T S, queue_ok T (w_network w) S r -> queue_ok T n' S r) ->
  Inv w r -> Inv (on_network (fun _ => n') w) r.
Proof. intros Hn Hq (T & L & HT & HL & Hok & Hqk & Hlk). exists T, L. split_and!; [done|done|by apply Hn|by apply Hq|by destruct L]. Qed.

Lemma on_network_const f w : on_network f w = on_network (fun _ => f (w_network w)) w.
Proof. done. Qed.

(** A step on one connection that neither greets it nor touches its sessions and handshake. *)
Lemma inv_alter_connection w f c r :
  (forall s, sc_sessionIds (f s) = sc_sessionIds s /\ sc_disconnected (f s) = sc_disconnected s /\ sc_handshake (f s) = sc_handshake s /\
     (sc_stage (f s) = sc_stage s \/ sc_stage (f s) = SClosing)) ->
  Inv w r -> Inv (alter_connection f c w) r.
Proof.
  intros Hf Hi. unfold alter_connection. rewrite on_network_const. apply inv_network; [| |done].
  - intros T Hok. apply network_alter; [done|]. intros s Hs. destruct (Hf s) as (H1 & H2 & _ & H3). split; [|done]. unfold may_become. rewrite H1, H2.
    split_and!; [..|done|].
    + destruct H3 as [->| ->]; [by left|done].
    + by destruct H3 as [->| ->].
    + by apply (ServerSpec.no_ended _ _ _ _ _ Hok c s).
  - intros T S. apply queue_alter. intros s Hs. destruct (Hf s) as (_ & H2 & H3 & H4). unfold keeps_queue. rewrite H2, H3. split_and!; [done|tauto|by left].
Qed.

(** A request is received. *)
Lemma queued_cons c t r : queued c (t :: r) = match queued_of c t with Some id => id :: queued c r | None => queued c r end.
Proof. unfold queued. cbn. by destruct (queued_of c t). Qed.

Lemma queued_of_eq c id : queued_of c (TRead c id) = Some id.
Proof. cbn. by rewrite decide_True. Qed.

Lemma queued_of_ne c c' id : c' <> c -> queued_of c' (TRead c id) = None.
Proof. intros. cbn. by rewrite decide_False. Qed.

Lemma network_requeue T n lives ls r c t q : T !! c = Some t -> network_ok T n lives ls r -> network_ok (<[c := mkTalk (tk_greeted t) q (tk_open t)]> T) n lives ls r.
Proof.
  intros Ht []. set (t' := mkTalk _ _ _).
  assert (forall c' t0, <[c := t']> T !! c' = Some t0 -> exists t1, T !! c' = Some t1 /\ tk_greeted t0 = tk_greeted t1 /\ tk_open t0 = tk_open t1) as Hinv.
  { intros c' t0. destruct (decide (c = c')) as [<-|Hne]; [|rewrite list_lookup_insert_ne by done; eauto].
    rewrite list_lookup_insert_eq by (by eapply lookup_lt_Some). intros [= <-]. by exists t. }
  assert (forall c' t1, T !! c' = Some t1 -> exists t0, <[c := t']> T !! c' = Some t0 /\ tk_greeted t0 = tk_greeted t1) as Hback.
  { intros c' t1 Ht1. destruct (decide (c = c')) as [<-|Hne]; [|rewrite list_lookup_insert_ne by done; eauto].
    rewrite list_lookup_insert_eq by (by eapply lookup_lt_Some). exists t'. simplify_eq. done. }
  assert (forall c', greeted T c' -> greeted (<[c := t']> T) c') as Hgr.
  { intros c' (t1 & Ht1 & Hg). destruct (Hback c' t1 Ht1) as (t0 & Ht0 & Hg0). exists t0. by rewrite Hg0. }
  constructor; try done.
  - by rewrite length_insert.
  - intros c' s Hs Hst. by eapply Hgr, no_ready.
  - intros c' s t0 Hs (t1 & Ht1 & -> & _)%Hinv. by eapply no_awaiting.
  - intros c' p Hin. destruct (no_shake c' p Hin) as (s & t1 & Hs & Ht1 & Hg & Hst). destruct (Hback c' t1 Ht1) as (t0 & Ht0 & Hg0). exists s, t0. by rewrite Hg0.
  - intros c' Hin. by apply Hgr, no_greeted.
  - intros l lv c' Hl Hc. by eapply Hgr, no_attached.
  - intros c' t0 (t1 & Ht1 & -> & ->)%Hinv. by apply (no_open c').
  - intros c' t0 (t1 & Ht1 & _ & ->)%Hinv. by apply no_requests.
  - intros c' id Hin. destruct (no_request c' id Hin) as [t1 Ht1]. destruct (Hback c' t1 Ht1) as (t0 & Ht0 & _). by exists t0.
Qed.

Lemma inv_received w c id r : is_Some (connection_at w c) -> Inv w r -> Inv (emit (OReceived c id) w) (TRead c id :: r).
Proof.
  intros Hc (T & L & HT & HL & Hok & Hq & Hlk). unfold connection_at in Hc.
  assert (exists t, T !! c = Some t) as [t Ht].
  { apply lookup_lt_is_Some. rewrite (qo_length _ _ _ _ Hq). by apply lookup_lt_is_Some. }
  exists (<[c := mkTalk (tk_greeted t) (id :: tk_queued t) (tk_open t)]> T), L. split_and!.
  - econstructor; [done|]. apply Talk_receive. by rewrite Ht; destruct t.
  - econstructor; [done|]. destruct L; by constructor.
  - apply network_ok_lock; [by intros []|]. by apply network_requeue.
  - destruct Hq. constructor; cbn [sures omap list_omap sure_of]; try done.
    + by rewrite length_insert.
    + intros c' p Hin. apply qo_shaking. by rewrite !elem_of_cons in Hin; destruct Hin as [[|]|[|]]; auto.
    + intros c' id' p [|Hin]%elem_of_cons; [done|by eapply qo_pending].
    + intros c' id' [[= -> ->]|Hin]%elem_of_cons; [done|by eapply qo_read].
    + intros c' t' Ht'. rewrite queued_cons. destruct (decide (c = c')) as [<-|Hne].
      * rewrite list_lookup_insert_eq in Ht' by (by eapply lookup_lt_Some). injection Ht' as <-. cbn [tk_queued]. rewrite queued_of_eq.
        destruct (qo_queued c t Ht) as (rest & Hp & Hd). exists rest. split; [by rewrite Hp|]. intros [H1 H2]%Hd. split; [done|].
        intros p. rewrite !elem_of_cons. destruct (H2 p). split; by intros [|].
      * rewrite list_lookup_insert_ne in Ht' by done. rewrite queued_of_ne by done. destruct (qo_queued c' t' Ht') as (rest & Hp & Hd). exists rest.
        split; [done|]. intros [H1 H2]%Hd. split; [done|]. intros p. rewrite !elem_of_cons. destruct (H2 p). split; by intros [|].
  - apply locks_ok_talk; [by intros []|]. by destruct L.
Qed.

(** A request that was received when nobody will greet the connection any more is lost. *)
Lemma queue_lose T n S r c t id :
  queued_of c t = Some id -> (forall c', c' <> c -> queued_of c' t = None) -> sure_of t = None ->
  doomed n c r -> queue_ok T n S (t :: r) -> queue_ok T n S r.
Proof.
  intros Hc Hne Hs Hd []. constructor; try done.
  - intros c' p Hin. apply qo_shaking. rewrite !elem_of_cons. tauto.
  - intros c' id' p Hin. apply (qo_pending c' id'). by right.
  - intros c' id' Hin. apply (qo_read c' id'). by right.
  - cbn in qo_owned. by rewrite Hs in qo_owned.
  - intros p Hin. apply qo_unsettled. cbn. by rewrite Hs.
  - intros c' t' Ht'. destruct (qo_queued c' t' Ht') as (rest & Hp & Hd'). rewrite queued_cons in Hp. destruct (decide (c = c')) as [<-|Hcc].
    + rewrite Hc in Hp. exists (id :: rest). split; [|done]. rewrite Hp. exact (Permutation_middle _ _ _).
    + rewrite Hne in Hp by done. exists rest. split; [done|]. intros [H1 H2]%Hd'. split; [done|]. intros p. destruct (H2 p) as [H3 H4].
      rewrite elem_of_cons in H3, H4. tauto.
Qed.

(** A token that names the request only. *)
Lemma queue_rename T n S r c id p : queue_ok T n S (TPending c id p :: r) -> queue_ok T n S (TRead c id :: r).
Proof.
  intros []. constructor; try done.
  - intros c' q Hin. apply qo_shaking. rewrite !elem_of_cons in *. destruct Hin as [[|]|[|]]; auto; done.
  - intros c' id' q [|Hin]%elem_of_cons; [done|]. apply (qo_pending c' id'). by right.
  - intros c' id' [[= -> ->]|Hin]%elem_of_cons; [|apply (qo_read c' id'); by right].
    destruct (qo_pending c id p ltac:(left)) as (s & Hs & _). by exists s.
  - intros c' t' Ht'. destruct (qo_queued c' t' Ht') as (rest & Hp & Hd). exists rest. split; [exact Hp|]. intros [H1 H2]%Hd. split; [done|].
    intros q. destruct (H2 q) as [H3 H4]. rewrite elem_of_cons in H3, H4. rewrite !elem_of_cons. split; intros [|]; try done; tauto.
Qed.

Lemma inv_queue w w' r r' :
  (forall t, ~ queue_token t -> t ∈ r' <-> t ∈ r) -> (forall t, t ∈ r' -> talk_token t -> t ∈ r) -> shakes r' = shakes r -> (forall c, requests c r' = requests c r) ->
  claims r' = claims r -> owned r' = owned r -> disposals r' = disposals r ->
  w_network w' = w_network w -> w_sessions w' = w_sessions w -> pr_lives (w_promises w') = pr_lives (w_promises w) -> w_trace w' = w_trace w ->
  (forall T, queue_ok T (w_network w) (pr_sure (w_promises w)) r -> queue_ok T (w_network w) (pr_sure (w_promises w')) r') ->
  Inv w r -> Inv w' r'.
Proof.
  intros Hin Htalk Hs Hr Hc Ho Hd Hn Hss Hp Ht Hqq (T & L & HT & HL & Hok & Hq & Hlk). exists T, L. rewrite Ht, Hn, Hss. split_and!; [done|done| |by apply Hqq|].
  - eapply network_ok_ext; [|done..]. intros t Ht' Hin'. by apply Htalk.
  - assert (locks_ok L w r') as Hlk' by (eapply locks_ok_ext; [|done..|exact Hlk]; intros t Ht' Hin'; apply Hin; [intros ?; by destruct t|done]).
    destruct L as [m|]; [|done]. cbn in *. rewrite Hss, Hp. exact Hlk'.
Qed.

Lemma inv_pending_read w c id p r : Inv w (TPending c id p :: r) -> Inv w (TRead c id :: r).
Proof.
  apply inv_queue; try done.
  - intros t Ht. rewrite !elem_of_cons. split; (intros [->|]; [by destruct Ht|by right]).
  - intros t [->|Hin]%elem_of_cons; [done|by right].
  - intros T. apply queue_rename.
Qed.

(** A request that was received waits for the handshake. *)
Lemma inv_read_pending w c s id p r :
  connection_at w c = Some s -> sc_handshake s = Some p -> Inv w (TRead c id :: r) -> Inv w (TPending c id p :: r).
Proof.
  intros Hs Hp. apply inv_queue; try done.
  - intros t Ht. rewrite !elem_of_cons. split; (intros [->|]; [by destruct Ht|by right]).
  - intros t [->|Hin]%elem_of_cons; [done|by right].
  - intros T []. constructor; try done.
    + intros c' q Hin. apply qo_shaking. rewrite !elem_of_cons in *. destruct Hin as [[|]|[|]]; auto; done.
    + intros c' id' q [[= -> -> ->]|Hin]%elem_of_cons; [by exists s|]. apply (qo_pending c' id'). by right.
    + intros c' id' [|Hin]%elem_of_cons; [done|]. apply (qo_read c' id'). by right.
    + intros c' t' Ht'. destruct (qo_queued c' t' Ht') as (rest & Hq & Hd). exists rest. split; [exact Hq|]. intros [H1 H2]%Hd. split; [done|].
      intros q. destruct (H2 q) as [H3 H4]. rewrite elem_of_cons in H3, H4. rewrite !elem_of_cons. split; intros [|]; try done; tauto.
Qed.

Lemma inv_facts w r : Inv w r -> exists T, queue_ok T (w_network w) (pr_sure (w_promises w)) r.
Proof. intros (T & L & _ & _ & _ & Hq & _). by exists T. Qed.

(** The two ways in which requests are lost: the first message was none, and the handshake failed. *)
Lemma inv_lose_first w c id r :
  (forall s, connection_at w c = Some s -> stage_over s /\ sc_handshake s = None) -> Inv w (TRead c id :: r) -> Inv w r.
Proof.
  intros Hs. apply inv_queue; try done.
  - intros t Ht. rewrite elem_of_cons. split; [by right|intros [->|]; [by destruct Ht|done]].
  - intros t Hin _. by right.
  - intros T Hok. apply (queue_lose _ _ _ _ c (TRead c id) id); [apply queued_of_eq|intros; by apply queued_of_ne|done| |done]. split.
    + intros s Hs'. by apply Hs.
    + intros p. split; intros Hin.
      * destruct (qo_shaking _ _ _ _ Hok c p) as (s & Hs' & Hp); [left; by right|]. destruct (Hs s Hs') as [_ Hn]. congruence.
      * destruct (qo_shaking _ _ _ _ Hok c p) as (s & Hs' & Hp); [right; by right|]. destruct (Hs s Hs') as [_ Hn]. congruence.
Qed.

Lemma inv_lose_pending w c id p r :
  settled (pr_sure (w_promises w)) p = Some () -> bool_decide (stage c w = SReady) && negb (disconnected c w) = false ->
  Inv w (TPending c id p :: r) -> Inv w r.
Proof.
  intros Hset Hs. apply inv_queue; try done.
  - intros t Ht. rewrite elem_of_cons. split; [by right|intros [->|]; [by destruct Ht|done]].
  - intros t Hin _. by right.
  - intros T Hok. destruct (qo_pending _ _ _ _ Hok c id p ltac:(left)) as (s & Hc & Hp).
    apply (queue_lose _ _ _ _ c (TPending c id p) id); [cbn; by rewrite decide_True|intros; cbn; by rewrite decide_False|done| |done].
    unfold stage, disconnected, connection_at in Hs. rewrite Hc in Hs. cbn in Hs. split.
    + intros s' Hs'. simplify_eq. split; intros Hst; [|pose proof (qo_awaiting _ _ _ _ Hok c s Hc Hst); congruence].
      rewrite bool_decide_eq_true_2 in Hs by done. apply negb_false_iff in Hs. destruct (qo_closed _ _ _ _ Hok c s Hc Hs); congruence.
    + assert (forall q, TShake c q ∈ r \/ TGreet c q ∈ r -> False) as Hno; [|intros q; split; intros Hin; eapply Hno; eauto].
      intros q Hin. destruct (qo_shaking _ _ _ _ Hok c q) as (s' & Hs' & Hpq); [rewrite !elem_of_cons; tauto|]. assert (s' = s) as -> by congruence. assert (q = p) as -> by congruence.
      assert (p ∈ sures (TPending c id p :: r)) as Hin'.
      { apply list_elem_of_omap. destruct Hin as [Hin|Hin]; [exists (TShake c p)|exists (TGreet c p)]; (split; [by right|done]). }
      apply (qo_unsettled _ _ _ _ Hok) in Hin'. unfold settled in Hset. by rewrite Hin' in Hset.
Qed.

Lemma inv_new_sure w r : Inv w r -> let p := length (pr_sure (w_promises w)) in Inv (on_promises (fun ps => set_sure (pr_sure ps ++ [None]) ps) w) (TSure p :: r).
Proof.
  intros Hi p. revert Hi. apply inv_queue; try done.
  - intros t Ht. rewrite elem_of_cons. split; [intros [->|]; [by destruct Ht|done]|by right].
  - by intros t [->|Hin]%elem_of_cons.
  - intros T []. cbn. constructor; try done.
    + intros c q Hin. apply qo_shaking. rewrite !elem_of_cons in Hin. destruct Hin as [[|]|[|]]; auto; done.
    + intros c id q [|Hin]%elem_of_cons; [done|by eapply qo_pending].
    + intros c id [|Hin]%elem_of_cons; [done|by eapply qo_read].
    + cbn. constructor; [|done]. intros Hin. apply qo_unsettled, lookup_lt_Some in Hin. unfold p in Hin. lia.
    + intros q [->|Hin]%elem_of_cons; [unfold p; by rewrite lookup_app_r, Nat.sub_diag by lia|]. apply lookup_app_l_Some. by apply qo_unsettled.
    + intros c t Ht. destruct (qo_queued c t Ht) as (rest & Hp & Hd). exists rest. split; [exact Hp|]. intros [H1 H2]%Hd. split; [done|].
      intros q. rewrite !elem_of_cons. destruct (H2 q). split; by intros [|].
Qed.

Lemma inv_settle_sure w p r : Inv w (TSure p :: r) -> Inv (on_promises (fun ps => set_sure (<[p := Some ()]> (pr_sure ps)) ps) w) r.
Proof.
  apply inv_queue; try done.
  - intros t Ht. rewrite elem_of_cons. split; [by right|intros [->|]; [by destruct Ht|done]].
  - intros t Hin _. by right.
  - intros T []. cbn in *. apply NoDup_cons in qo_owned as [Hnin Hnd]. constructor; try done.
    + intros c q Hin. apply qo_shaking. rewrite !elem_of_cons. tauto.
    + intros c id q Hin. apply (qo_pending c id). by right.
    + intros c id Hin. apply (qo_read c id). by right.
    + intros q Hin. rewrite list_lookup_insert_ne by (by intros ->). apply qo_unsettled. by right.
    + intros c t Ht. destruct (qo_queued c t Ht) as (rest & Hp & Hd). exists rest. split; [exact Hp|]. intros [H1 H2]%Hd. split; [done|].
      intros q. destruct (H2 q) as [H3 H4]. rewrite elem_of_cons in H3, H4. tauto.
Qed.

(** The tokens of a handshake. *)
Lemma queue_handshake T n S r t c p :
  sure_of t = Some p -> (forall c, queued_of c t = None) -> queue_ok T n S (t :: r) ->
  queue_ok T n S (TSure p :: r) /\ (t = TShake c p -> queue_ok T n S (TGreet c p :: r)).
Proof.
  intros Hs Hq Hok. pose proof Hok as []. cbn in qo_owned, qo_unsettled. rewrite Hs in qo_owned, qo_unsettled.
  assert (forall c', queued c' (t :: r) = queued c' r) as Hqr by (intros; by rewrite queued_cons, Hq).
  split; [|intros ->]; constructor; try done.
  - intros c' q Hin. apply qo_shaking. rewrite !elem_of_cons in *. destruct Hin as [[|]|[|]]; auto; done.
  - intros c' id q [|Hin]%elem_of_cons; [done|]. apply (qo_pending c' id). by right.
  - intros c' id [|Hin]%elem_of_cons; [done|]. apply (qo_read c' id). by right.
  - intros c' t' Ht'. destruct (qo_queued c' t' Ht') as (rest & Hp & Hd). exists rest. rewrite Hqr in Hp. split; [exact Hp|]. intros [H1 H2]%Hd. split; [done|].
    intros q. destruct (H2 q) as [H3 H4]. rewrite elem_of_cons in H3, H4. rewrite !elem_of_cons. split; intros [|]; try done; tauto.
  - intros c' q Hin. apply qo_shaking. rewrite !elem_of_cons in *. destruct Hin as [[|]|[[= -> ->]|]]; auto; done.
  - intros c' id q [|Hin]%elem_of_cons; [done|]. apply (qo_pending c' id). by right.
  - intros c' id [|Hin]%elem_of_cons; [done|]. apply (qo_read c' id). by right.
  - intros c' t' Ht'. destruct (qo_queued c' t' Ht') as (rest & Hp & Hd). exists rest. rewrite Hqr in Hp. split; [exact Hp|]. intros [H1 H2]%Hd. split; [done|].
    intros q. destruct (H2 q) as [H3 H4]. rewrite elem_of_cons in H3, H4. rewrite !elem_of_cons. split; [intros [|]; [done|tauto]|]. intros [[= -> ->]|]; [|tauto]. destruct (H2 p) as [H5 _]. apply H5. left.
Qed.

Definition shaking (p : nat) (s : ServerConnection) : ServerConnection := set_handshake p (set_stage SHandshaking s).

Lemma network_begin_handshake T n lives ls r c s p :
  nw_states n !! c = Some s -> sc_stage s = SAwaitingHello -> network_ok T n lives ls r ->
  network_ok T (set_states (alter (shaking p) c (nw_states n)) n) lives ls (TShake c p :: r).
Proof.
  intros Hs Hc Hok. assert (exists t, T !! c = Some t) as [t Ht].
  { apply lookup_lt_is_Some. rewrite (ServerSpec.no_length _ _ _ _ _ Hok). by eapply lookup_lt_Some. }
  assert (network_ok T (set_states (alter (shaking p) c (nw_states n)) n) lives ls r) as Hok'.
  { apply network_alter; [done|]. intros s0 Hs0. split; [|done]. split_and!; try done. exact (ServerSpec.no_ended _ _ _ _ _ Hok c s0 Hs0). }
  pose proof Hok' as []. constructor; try done.
  - intros c' q [[= -> ->]|Hin]%elem_of_cons; [|by eapply no_shake]. exists (shaking p s), t. cbn. rewrite list_lookup_alter_eq, Hs.
    split_and!; try done. by eapply (ServerSpec.no_awaiting _ _ _ _ _ Hok).
  - cbn. constructor; [|done]. intros Hin. apply list_elem_of_omap in Hin as (t' & Hin & Ht'). destruct t'; try discriminate Ht'. injection Ht' as ->.
    destruct (ServerSpec.no_shake _ _ _ _ _ Hok _ _ Hin) as (s0 & t0 & Hs0 & _ & _ & Hx). by simplify_eq.
  - intros c' Hin. apply no_greeted. by apply elem_of_cons in Hin as [|Hin].
  - intros c' id Hin. apply (no_request c' id). by apply elem_of_cons in Hin as [|Hin].
Qed.

Lemma queue_begin_handshake T n S r c s :
  nw_states n !! c = Some s -> sc_stage s = SAwaitingHello -> queue_ok T n S r ->
  queue_ok T (set_states (alter (shaking (length S)) c (nw_states n)) n) (S ++ [None]) (TShake c (length S) :: r).
Proof.
  intros Hs Hst Hok. pose proof Hok as []. set (p := length S) in *. pose proof (qo_awaiting c s Hs Hst) as Hnone.
  assert (forall c' s', alter (shaking p) c (nw_states n) !! c' = Some s' -> exists s0, nw_states n !! c' = Some s0 /\ (s' = if decide (c = c') then shaking p s0 else s0)) as Hinv
    by (intros c' s'; by apply lookup_alter_inv).
  assert (forall c' s' q, nw_states n !! c' = Some s' -> sc_handshake s' = Some q -> exists s0, alter (shaking p) c (nw_states n) !! c' = Some s0 /\ sc_handshake s0 = Some q) as Hkeep.
  { intros c' s' q Hs' Hq. rewrite list_lookup_alter. case_decide as Hd; [|by exists s']. subst c'. by simplify_eq. }
  constructor; cbn [set_states nw_states].
  - by rewrite length_alter.
  - intros c' s' (s0 & Hs0 & ->)%Hinv. case_decide as Hcc; [|by apply (qo_closed c' s0)]. subst c'. simplify_eq. cbn. intros Hd. destruct (qo_closed c s Hs Hd); congruence.
  - intros c' s' (s0 & Hs0 & ->)%Hinv. case_decide as Hcc; [done|]. by apply (qo_awaiting c' s0).
  - intros c' s' (s0 & Hs0 & ->)%Hinv. case_decide as Hcc; [by eexists|]. by apply (qo_handshaking c' s0).
  - intros c' q Hin. assert (c' = c /\ q = p \/ TShake c' q ∈ r \/ TGreet c' q ∈ r) as [[-> ->]|Hin'].
    { rewrite !elem_of_cons in Hin. destruct Hin as [[[= -> ->]|]|[|]]; auto; done. }
    + rewrite list_lookup_alter_eq, Hs. by exists (shaking p s).
    + apply qo_shaking in Hin' as (s' & Hs' & Hq). by eapply Hkeep.
  - intros c' id q [|Hin]%elem_of_cons; [done|]. apply qo_pending in Hin as (s' & Hs' & Hq). by eapply Hkeep.
  - intros c' id [|Hin]%elem_of_cons; [done|]. apply qo_read in Hin as [s' Hs']. rewrite list_lookup_alter. case_decide as E; [subst c'|]; rewrite Hs'; by eexists.
  - cbn. constructor; [|done]. intros Hin. apply qo_unsettled, lookup_lt_Some in Hin. unfold p in Hin. lia.
  - intros q [->|Hin]%elem_of_cons; [unfold p; by rewrite lookup_app_r, Nat.sub_diag by lia|]. apply lookup_app_l_Some. by apply qo_unsettled.
  - intros c' t Ht. destruct (qo_queued c' t Ht) as (rest & Hp & Hd). exists rest. split; [exact Hp|]. intros [H1 H2]%Hd.
    assert (c <> c') as Hne by (intros ->; by destruct (H1 s Hs)). split.
    + intros s' (s0 & Hs0 & ->)%Hinv. rewrite decide_False by done. by apply H1.
    + intros q. rewrite !elem_of_cons. destruct (H2 q). split; [intros [[= <- _]|]|intros [|]]; done.
Qed.

Lemma inv_begin_handshake w c r :
  stage c w = SAwaitingHello -> Inv w r ->
  let p := length (pr_sure (w_promises w)) in
  Inv (on_network (fun n => set_states (alter (shaking p) c (nw_states n)) n) (on_promises (fun ps => set_sure (pr_sure ps ++ [None]) ps) w)) (TShake c p :: r).
Proof.
  intros Hc (T & L & HT & HL & Hok & Hq & Hlk) p. unfold stage, connection_at in Hc. destruct (nw_states (w_network w) !! c) as [s|] eqn:Hs; [|done].
  exists T, L. split_and!; [done|done|by eapply network_begin_handshake|by eapply queue_begin_handshake|].
  apply locks_ok_talk; [by intros []|]. by destruct L.
Qed.

(** The connection is ready. *)
Definition readied (s : ServerConnection) : ServerConnection := clear_timeout (set_stage SReady (set_handshakeComplete s)).

Lemma queue_ready T n S r c p :
  (forall s, nw_states n !! c = Some s -> sc_disconnected s = false) ->
  queue_ok T n S (TGreet c p :: r) -> queue_ok T (set_states (alter readied c (nw_states n)) n) S (TGreet c p :: r).
Proof.
  intros Hd [].
  assert (forall c' s', alter readied c (nw_states n) !! c' = Some s' -> exists s0, nw_states n !! c' = Some s0 /\ (s' = if decide (c = c') then readied s0 else s0)) as Hinv
    by (intros c' s'; by apply lookup_alter_inv).
  assert (forall c' s', nw_states n !! c' = Some s' -> exists s0, alter readied c (nw_states n) !! c' = Some s0 /\ sc_handshake s0 = sc_handshake s') as Hkeep.
  { intros c' s' Hs'. rewrite list_lookup_alter. case_decide as E; [subst c'|]; rewrite Hs'; by eexists. }
  constructor; cbn [set_states nw_states]; try done.
  - by rewrite length_alter.
  - intros c' s' (s0 & Hs0 & ->)%Hinv. case_decide as Hcc; [|by apply (qo_closed c' s0)]. subst c'. cbn. by rewrite (Hd s0 Hs0).
  - intros c' s' (s0 & Hs0 & ->)%Hinv. case_decide; [done|]. by apply (qo_awaiting c' s0).
  - intros c' s' (s0 & Hs0 & ->)%Hinv. case_decide; [done|]. by apply (qo_handshaking c' s0).
  - intros c' q (s' & Hs' & Hq)%qo_shaking. destruct (Hkeep c' s' Hs') as (s0 & Hs0 & Hh). exists s0. by rewrite Hh.
  - intros c' id q (s' & Hs' & Hq)%qo_pending. destruct (Hkeep c' s' Hs') as (s0 & Hs0 & Hh). exists s0. by rewrite Hh.
  - intros c' id (s' & Hs')%qo_read. destruct (Hkeep c' s' Hs') as (s0 & Hs0 & Hh). by exists s0.
  - intros c' t Ht. destruct (qo_queued c' t Ht) as (rest & Hp & Hdm). exists rest. split; [done|]. intros [H1 H2]%Hdm. split; [|done].
    intros s' (s0 & Hs0 & ->)%Hinv. case_decide as Hcc; [|by apply H1]. subst c'. destruct (H2 p) as [_ H3]. destruct H3. left.
Qed.

Lemma inv_stage_ready w c p r :
  disconnected c w = false -> Inv w (TReady c :: TGreet c p :: r) -> Inv (alter_connection readied c w) (TReady c :: TGreet c p :: r).
Proof.
  intros Hd (T & L & HT & HL & Hok & Hq & Hlk). exists T, L. split_and!; [done|done| | |by destruct L].
  - apply network_alter; [done|]. intros s Hs. split; [|done].
    split_and!; try done; [right; apply (ServerSpec.no_greeted _ _ _ _ _ Hok); left|]. exact (ServerSpec.no_ended _ _ _ _ _ Hok c s Hs).
  - apply queue_ok_other; [by intros []|]. apply queue_ok_other in Hq; [|by intros []]. apply queue_ready; [|done].
    intros s Hs. unfold disconnected, connection_at in Hd. by rewrite Hs in Hd.
Qed.

Definition accepted (id : jsstr) (d : MessageDecoder) (refused : bool) : ServerConnection :=
  mkServerConnection id d [] (if refused then SClosed else SAwaitingHello) refused false None (negb refused).

Lemma queue_accept T n S r id d refused : queue_ok T n S r -> queue_ok (T ++ [mkTalk false [] []]) (add_connection id d refused n) S r.
Proof.
  intros Hok. pose proof Hok as [].
  assert (nw_states (add_connection id d refused n) = nw_states n ++ [accepted id d refused]) as Hst by (by destruct refused).
  assert (forall c s, nw_states (add_connection id d refused n) !! c = Some s -> nw_states n !! c = Some s \/ c = length T /\ s = accepted id d refused) as Hinv.
  { intros c s. rewrite Hst, lookup_app_Some. intros [?|[Hle Hs]]; [by left|right]. destruct (c - _) as [|k] eqn:Hc; [|done]. injection Hs as <-. split; [lia|done]. }
  assert (forall c s, nw_states n !! c = Some s -> nw_states (add_connection id d refused n) !! c = Some s) as Hkeep by (intros; rewrite Hst; by apply lookup_app_l_Some).
  assert (forall c s, nw_states n !! c = Some s -> c <> length T) as Hold by (intros c s Hs ->; apply lookup_lt_Some in Hs; lia).
  constructor; try done.
  - rewrite Hst, !length_app, qo_length. done.
  - intros c s [Hs|[-> ->]]%Hinv; [by apply (qo_closed c)|]. destruct refused; [by right|done].
  - intros c s [Hs|[-> ->]]%Hinv; [by apply (qo_awaiting c)|done].
  - intros c s [Hs|[-> ->]]%Hinv; [by apply (qo_handshaking c)|]. by destruct refused.
  - intros c p (s & Hs & Hp)%qo_shaking. exists s. split; [by apply Hkeep|done].
  - intros c i p (s & Hs & Hp)%qo_pending. exists s. split; [by apply Hkeep|done].
  - intros c i (s & Hs)%qo_read. exists s. by apply Hkeep.
  - intros c t Ht. apply lookup_app_Some in Ht as [Ht|[Hle Ht]].
    + destruct (qo_queued c t Ht) as (rest & Hp & Hd). exists rest. split; [done|]. intros [H1 H2]%Hd. split; [|done].
      intros s [Hs|[-> ->]]%Hinv; [by apply H1|]. apply lookup_lt_Some in Ht. lia.
    + destruct (c - _) as [|k] eqn:Hc; [|done]. injection Ht as <-. exists []. rewrite app_nil_r. split; [|done]. cbn [tk_queued].
      destruct (queued c r) as [|x q] eqn:Hq; [done|]. exfalso. assert (x ∈ queued c r) as Hin by (rewrite Hq; left).
      apply list_elem_of_omap in Hin as (t & Hin & Ht). destruct t; try discriminate Ht; cbn in Ht; case_decide; try done; subst.
      * apply qo_read in Hin as [s Hs]. apply lookup_lt_Some in Hs. lia.
      * apply qo_pending in Hin as (s & Hs & _). apply lookup_lt_Some in Hs. lia.
Qed.

Lemma inv_accept w id d refused r : Inv w r -> Inv (emit (OAccept (length (nw_states (w_network w)))) (on_network (add_connection id d refused) w)) r.
Proof.
  intros (T & L & HT & HL & Hok & Hqk & Hlk). exists (T ++ [mkTalk false [] []]), L. pose proof Hok as []. split_and!.
  - econstructor; [done|]. cbn. rewrite <- no_length. constructor.
  - econstructor; [done|]. destruct L; by constructor.
  - cbn. assert (nw_states (add_connection id d refused (w_network w)) = nw_states (w_network w) ++
      [mkServerConnection id d [] (if refused then SClosed else SAwaitingHello) refused false None (negb refused)]) as Hst by (by destruct refused).
    assert (forall c s, nw_states (add_connection id d refused (w_network w)) !! c = Some s -> nw_states (w_network w) !! c = Some s \/
      c = length T /\ s = mkServerConnection id d [] (if refused then SClosed else SAwaitingHello) refused false None (negb refused)) as Hinv.
    { intros c s. rewrite Hst, lookup_app_Some. intros [?|[Hle Hs]]; [by left|right]. destruct (c - _) as [|k] eqn:Hc; [|done]. injection Hs as <-. split; [lia|done]. }
    assert (forall c t, (T ++ [mkTalk false [] []]) !! c = Some t -> T !! c = Some t \/ c = length T /\ t = mkTalk false [] []) as HinvT.
    { intros c t. rewrite lookup_app_Some. intros [?|[Hle Hs]]; [by left|right]. destruct (c - _) as [|k] eqn:Hc; [|done]. injection Hs as <-. split; [lia|done]. }
    assert (forall c, greeted T c -> greeted (T ++ [mkTalk false [] []]) c) as Hgr.
    { intros c (t & Ht & Hg). exists t. split; [by apply lookup_app_l_Some|done]. }
    constructor; try done.
    + rewrite Hst, !length_app, no_length. done.
    + intros c s [Hs|[-> ->]]%Hinv; [intros; apply Hgr; by eapply no_ready|by destruct refused].
    + intros c s t Hs [Ht|[-> ->]]%HinvT; [|done]. apply Hinv in Hs as [Hs|[-> ->]]; [by eapply no_awaiting|]. apply lookup_lt_Some in Ht. lia.
    + intros c p Hin. destruct (no_shake c p Hin) as (s & t & Hs & Ht & Hx). exists s, t. rewrite Hst. split_and!; try apply Hx; by apply lookup_app_l_Some.
    + intros c Hin. by apply Hgr, no_greeted.
    + intros l lv c Hl Hc. apply Hgr. by eapply no_attached.
    + intros c t [Ht|[-> ->]]%HinvT; [by eapply no_open|done].
    + intros c t [Ht|[-> ->]]%HinvT.
      * destruct (no_requests c t Ht) as (rest & Ho & Hg). exists rest. split; [done|]. intros Hr. destruct (Hg Hr) as [(s & Hs & Hd)|Hc]; [left|right].
        -- exists s. rewrite Hst. split; [by apply lookup_app_l_Some|done].
        -- by destruct refused.
      * exists []. rewrite app_nil_r. split; [|done]. destruct (requests (length T) r) as [|x q] eqn:Hq; [done|]. exfalso.
        assert (x ∈ requests (length T) r) as Hin by (rewrite Hq; left). apply list_elem_of_omap in Hin as (t & Hin & Ht).
        destruct t; try discriminate Ht. cbn in Ht. case_decide; [|done]. subst. destruct (no_request _ _ Hin) as [t Hl]. apply lookup_lt_Some in Hl. lia.
    + intros c id' Hin. destruct (no_request c id' Hin) as [t Ht]. exists t. by apply lookup_app_l_Some.
    + intros id' l lv c Hl Hlv Hc. destruct (no_agree id' l lv c Hl Hlv Hc) as (s & Hs & Hin). exists s. rewrite Hst. split; [by apply lookup_app_l_Some|done].
    + intros c s [Hs|[-> ->]]%Hinv; [by eapply no_ended|done].
  - by apply queue_accept.
  - by destruct L.
Qed.

(** ** What is said on a connection *)

Lemma inv_open w T L r :
  trace_of (talk_step fuel maxFrameLength) [] (w_trace w) T -> trace_of lock_step (Some ∅) (w_trace w) L ->
  network_ok T (w_network w) (ss_lives (w_sessions w)) (ss_liveSessions (w_sessions w)) r -> queue_ok T (w_network w) (pr_sure (w_promises w)) r ->
  locks_ok L w r -> Inv w r.
Proof. intros. by exists T, L. Qed.

(** To know that a connection was greeted. *)
Lemma inv_know w c r : (forall T, network_ok T (w_network w) (ss_lives (w_sessions w)) (ss_liveSessions (w_sessions w)) r -> greeted T c) ->
  Inv w r -> Inv w (TReady c :: r).
Proof.
  intros Hg (T & L & HT & HL & Hok & Hq & Hlk). exists T, L. split_and!; [done..| |apply queue_ok_other; [by intros []|done]|apply locks_ok_talk; [by intros []|done]].
  specialize (Hg T Hok). destruct Hok. constructor; try done.
  - intros c' p [|Hin]%elem_of_cons; [done|by eapply no_shake].
  - intros c' [[= ->]|Hin]%elem_of_cons; [done|by apply no_greeted].
  - intros c' id [|Hin]%elem_of_cons; [done|by eapply no_request].
Qed.

Lemma inv_know_ready w c r : stage c w = SReady -> Inv w r -> Inv w (TReady c :: r).
Proof.
  intros Hc. apply inv_know. intros T Hok. unfold stage, connection_at in Hc. destruct (_ !! c) as [s|] eqn:Hs; [|done]. by eapply no_ready.
Qed.

Lemma inv_know_attached w c l r : c ∈ live_connections l w -> Inv w r -> Inv w (TReady c :: r).
Proof.
  intros Hc. apply inv_know. intros T Hok. unfold live_connections, live_at in Hc. destruct (_ !! l) as [lv|] eqn:Hl; [|by apply elem_of_nil in Hc].
  by eapply no_attached.
Qed.

Lemma inv_know_request w c id r : TRequest c id ∈ r -> Inv w r -> Inv w (TReady c :: r).
Proof.
  intros Hin. apply inv_know. intros T Hok. destruct (no_request _ _ _ _ _ Hok c id Hin) as [t Ht]. exists t. split; [done|].
  destruct (tk_greeted t) eqn:Hg; [done|]. destruct (no_requests _ _ _ _ _ Hok c t Ht) as (rest & Ho & _).
  rewrite (no_open _ _ _ _ _ Hok c t Ht Hg) in Ho. apply Permutation_nil_l in Ho. symmetry in Ho. apply app_nil in Ho as [Hq _].
  assert (id ∈ requests c r) as Hx; [|rewrite Hq in Hx; by apply elem_of_nil in Hx].
  apply list_elem_of_omap. exists (TRequest c id). split; [done|]. cbn. by rewrite decide_True.
Qed.

Lemma inv_forget w c r : Inv w (TReady c :: r) -> Inv w r.
Proof.
  intros (T & L & HT & HL & Hok & Hq & Hlk). apply (inv_open _ T L); [done..| | |apply locks_ok_talk in Hlk; [done|by intros []]].
  - revert Hok. apply network_ok_ext; try done. intros t _ Hin. by right.
  - apply queue_ok_other in Hq; [done|by intros []].
Qed.

Lemma inv_event w c m frame r :
  is_event m -> encodeServerMessage fuel maxFrameLength m = Ok frame -> TReady c ∈ r -> Inv w r -> Inv (emit (OSend c m frame) w) r.
Proof.
  intros Hm He Hin (T & L & HT & HL & Hok & Hq & Hlk). destruct (no_greeted _ _ _ _ _ Hok c Hin) as ([g q o] & Ht & Hg). cbn in Hg. subst g.
  apply (inv_open _ T L); [by econstructor; [|eapply Talk_event]|econstructor; [done|destruct L; by constructor]|done|done|by destruct L].
Qed.

Lemma inv_close w c final r :
  (forall e frame, final = Some (e, frame) -> encodeServerMessage fuel maxFrameLength (OutHelloError e) = Ok frame) -> Inv w r -> Inv (emit (OClose c final) w) r.
Proof.
  intros Hf (T & L & HT & HL & Hok & Hq & Hlk).
  apply (inv_open _ T L); [by econstructor; [|eapply Talk_close]|econstructor; [done|destruct L; by constructor]|done|done|by destruct L].
Qed.

(** A step that changes what was said on one connection. *)
Lemma network_talk T n lives ls r r' c t t' :
  network_ok T n lives ls r -> T !! c = Some t -> (tk_greeted t = true -> tk_greeted t' = true) -> (tk_greeted t' = false -> tk_open t' = []) ->
  (forall s, nw_states n !! c = Some s -> sc_stage s = SAwaitingHello -> tk_greeted t' = false) ->
  (tk_greeted t' = true -> forall p, TShake c p ∉ r') -> NoDup (shakes r') ->
  (forall u, talk_token u -> u ∈ r' -> u ∈ r \/ u = TReady c /\ tk_greeted t' = true \/ exists id, u = TRequest c id) ->
  (forall c', c' <> c -> requests c' r' = requests c' r) ->
  (exists rest, tk_open t' ≡ₚ requests c r' ++ rest /\ (rest <> [] -> gone n c)) ->
  network_ok (<[c := t']> T) n lives ls r'.
Proof.
  intros Hok Ht Hg Ho Haw Hsh Hnd Hin Hrq Hr. pose proof Hok as [].
  assert (forall c', greeted T c' -> greeted (<[c := t']> T) c') as Hgr.
  { intros c' (t0 & Ht0 & Hg0). unfold greeted. destruct (decide (c = c')) as [<-|Hne].
    - exists t'. rewrite list_lookup_insert_eq by (by eapply lookup_lt_Some). split; [done|]. apply Hg. by simplify_eq.
    - exists t0. by rewrite list_lookup_insert_ne. }
  assert (forall c' t0, <[c := t']> T !! c' = Some t0 -> c = c' /\ t0 = t' \/ c <> c' /\ T !! c' = Some t0) as Hinv.
  { intros c' t0. destruct (decide (c = c')) as [<-|Hne]; [|rewrite list_lookup_insert_ne by done; by right].
    rewrite list_lookup_insert_eq by (by eapply lookup_lt_Some). intros [= <-]. by left. }
  constructor; try done.
  - by rewrite length_insert.
  - intros c' s Hs Hst. apply Hgr. by eapply no_ready.
  - intros c' s t0 Hs [[<- ->]|[_ Ht0]]%Hinv Hst; [by eapply Haw|by eapply no_awaiting].
  - intros c' p Hc'. destruct (Hin (TShake c' p) I Hc') as [Hr'|[[? _]|[? ?]]]; [|done..]. destruct (no_shake c' p Hr') as (s & t0 & Hs & Ht0 & Hg0 & Hst).
    exists s. destruct (decide (c = c')) as [<-|Hne].
    + exists t'. rewrite list_lookup_insert_eq by (by eapply lookup_lt_Some). split_and!; try done. destruct (tk_greeted t') eqn:Hx; [|done]. by destruct (Hsh eq_refl p).
    + exists t0. by rewrite list_lookup_insert_ne.
  - intros c' Hc'. destruct (Hin (TReady c') I Hc') as [Hr'|[[[= ->] Hgt]|[? ?]]]; [by apply Hgr, no_greeted| |done].
    exists t'. by rewrite list_lookup_insert_eq by (by eapply lookup_lt_Some).
  - intros l lv c' Hl Hc'. apply Hgr. by eapply no_attached.
  - intros c' t0 [[<- ->]|[_ Ht0]]%Hinv Hst; [by apply Ho|by eapply no_open].
  - intros c' t0 [[<- ->]|[Hne Ht0]]%Hinv; [done|]. rewrite Hrq by done. by apply no_requests.
  - intros c' id Hc'. destruct (decide (c = c')) as [<-|Hne]; [rewrite list_lookup_insert_eq by (by eapply lookup_lt_Some); by eexists|].
    rewrite list_lookup_insert_ne by done. destruct (Hin (TRequest c' id) I Hc') as [Hr'|[[? _]|[id' [= ? ?]]]]; [by eapply no_request|done|done].
Qed.

Lemma requests_cons c t r : requests c (t :: r) = match request_of c t with Some id => id :: requests c r | None => requests c r end.
Proof. unfold requests. cbn. by destruct (request_of c t). Qed.

Lemma request_of_eq c id : request_of c (TRequest c id) = Some id.
Proof. cbn. by rewrite decide_True. Qed.

Lemma request_of_ne c c' id : c' <> c -> request_of c' (TRequest c id) = None.
Proof. intros. cbn. by rewrite decide_False. Qed.

(** What was said changes, and the requests that are queued do not. *)
Lemma queue_talk T n S r c t t' : T !! c = Some t -> tk_queued t' = tk_queued t -> queue_ok T n S r -> queue_ok (<[c := t']> T) n S r.
Proof.
  intros Ht Hq []. constructor; try done; [by rewrite length_insert|]. intros c' t0. destruct (decide (c = c')) as [<-|Hne].
  - rewrite list_lookup_insert_eq by (by eapply lookup_lt_Some). intros [= <-]. rewrite Hq. by apply qo_queued.
  - rewrite list_lookup_insert_ne by done. by apply qo_queued.
Qed.

(** A request that is handled leaves the queue. *)
Lemma queue_handle T n S r c t q id o :
  T !! c = Some t -> (forall rest, tk_queued t ≡ₚ id :: queued c r ++ rest -> q ≡ₚ queued c r ++ rest) ->
  queue_ok T n S (TRead c id :: r) -> queue_ok (<[c := mkTalk true q o]> T) n S r.
Proof.
  intros Ht Hq []. constructor; try done.
  - by rewrite length_insert.
  - intros c' p Hin. apply qo_shaking. rewrite !elem_of_cons. tauto.
  - intros c' i p Hin. apply (qo_pending c' i). by right.
  - intros c' i Hin. apply (qo_read c' i). by right.
  - intros c' t0. assert (forall rest : list jsstr, (rest <> [] -> doomed n c' (TRead c id :: r)) -> rest <> [] -> doomed n c' r) as Hdoom.
    { intros rest Hd [H1 H2]%Hd. split; [done|]. intros p. destruct (H2 p) as [H3 H4]. rewrite elem_of_cons in H3, H4. tauto. }
    destruct (decide (c = c')) as [<-|Hne].
    + rewrite list_lookup_insert_eq by (by eapply lookup_lt_Some). intros [= <-]. destruct (qo_queued c t Ht) as (rest & Hp & Hd).
      rewrite queued_cons, queued_of_eq in Hp. exists rest. split; [by apply Hq|by apply Hdoom].
    + rewrite list_lookup_insert_ne by done. intros Ht0. destruct (qo_queued c' t0 Ht0) as (rest & Hp & Hd).
      rewrite queued_cons, queued_of_ne in Hp by done. exists rest. split; [done|by apply Hdoom].
Qed.

Lemma inv_request w c id r : stage c w = SReady -> Inv w (TRead c id :: r) -> Inv (emit (ORequest c id) w) (TRequest c id :: r).
Proof.
  intros Hc (T & L & HT & HL & Hok & Hq & Hlk). unfold stage, connection_at in Hc. destruct (_ !! c) as [s|] eqn:Hs; [|done]. cbn in Hc.
  destruct (no_ready _ _ _ _ _ Hok c s Hs Hc) as ([g qs o] & Ht & Hg). cbn in Hg. subst g.
  destruct (qo_queued _ _ _ _ Hq c _ Ht) as (rest & Hp & _). rewrite queued_cons, queued_of_eq in Hp. cbn in Hp.
  apply (inv_open _ (<[c := mkTalk true (queued c r ++ rest) (id :: o)]> T) L).
  - econstructor; [done|]. by eapply Talk_request.
  - econstructor; [done|destruct L; by constructor].
  - apply network_ok_lock in Hok; [|by intros []]. eapply network_talk; [done|done|done|done| | | | | |].
    + intros s' Hs' Hst. cbn in Hs'. simplify_eq. congruence.
    + intros _ p [|Hin]%elem_of_cons; [done|]. destruct (no_shake _ _ _ _ _ Hok c p Hin) as (s' & t & _ & Ht' & Hg & _). by simplify_eq.
    + apply (no_shakes _ _ _ _ _ Hok).
    + intros u _ [->|Hin]%elem_of_cons; [right; right; by exists id|by left].
    + intros c' Hne. by rewrite requests_cons, request_of_ne.
    + destruct (no_requests _ _ _ _ _ Hok c _ Ht) as (rest' & Ho & Hg). exists rest'. split; [|done]. rewrite requests_cons, request_of_eq. cbn in *. by rewrite Ho.
  - apply queue_ok_other; [by intros []|]. eapply queue_handle; [done| |done]. cbn. intros rest' Hp'. rewrite Hp in Hp'. by apply Permutation_cons_inv in Hp'.
  - apply locks_ok_talk in Hlk; [|by intros []]. apply locks_ok_talk; [by intros []|]. by destruct L.
Qed.

Lemma inv_response w c id m frame r :
  encodeServerMessage fuel maxFrameLength (OutResponse id m) = Ok frame -> Inv w (TRequest c id :: r) -> Inv (emit (OSend c (OutResponse id m) frame) w) r.
Proof.
  intros He Hi. assert (Inv w (TReady c :: TRequest c id :: r)) as (T & L & HT & HL & Hok & Hq & Hlk) by (eapply inv_know_request; [left|done]). clear Hi.
  destruct (no_greeted _ _ _ _ _ Hok c ltac:(left)) as ([g qs o] & Ht & Hg). cbn in Hg. subst g.
  destruct (no_requests _ _ _ _ _ Hok c _ Ht) as (rest & Ho & Hgone). rewrite !requests_cons, request_of_eq in Ho. cbn in Ho.
  apply (inv_open _ (<[c := mkTalk true qs (requests c r ++ rest)]> T) L); [|econstructor; [done|destruct L; by constructor]| | |].
  - econstructor; [done|]. by eapply Talk_response.
  - eapply network_talk; [done|done|done|done| | | | | |].
    + intros s Hs Hst. cbn in Hs. pose proof (no_awaiting _ _ _ _ _ Hok c s _ Hs Ht Hst). done.
    + intros _ p Hin. destruct (no_shake _ _ _ _ _ Hok c p) as (s' & t & _ & Ht' & Hg & _); [by do 2 right|]. by simplify_eq.
    + apply (no_shakes _ _ _ _ _ Hok).
    + intros u _ Hin. left. by do 2 right.
    + intros c' Hne. by rewrite !requests_cons, request_of_ne.
    + exists rest. by split.
  - do 2 (apply queue_ok_other in Hq; [|by intros []]). by eapply queue_talk.
  - do 2 (apply locks_ok_talk in Hlk; [|by intros []]). by destruct L.
Qed.

(** A response that cannot be sent any more. *)
Lemma inv_unanswered w c id r : disconnected c w = true \/ transport_closed c w = true -> Inv w (TRequest c id :: r) -> Inv w r.
Proof.
  intros Hc (T & L & HT & HL & Hok & Hq & Hlk).
  apply (inv_open _ T L); [done..| |apply queue_ok_other in Hq; [done|by intros []]|apply locks_ok_talk in Hlk; [done|by intros []]].
  destruct (no_request _ _ _ _ _ Hok c id ltac:(left)) as [t Ht].
  assert (gone (w_network w) c) as Hgone.
  { destruct Hc as [Hd|Hx]; [left|right; by apply bool_decide_eq_true in Hx]. unfold disconnected, connection_at in Hd.
    destruct (nw_states (w_network w) !! c) as [s|] eqn:Hs; [by exists s|]. apply lookup_ge_None in Hs. rewrite <- (no_length _ _ _ _ _ Hok) in Hs.
    apply lookup_lt_Some in Ht. lia. }
  rewrite <- (list_insert_id T c t Ht). eapply network_talk; [done|done|done| | | | | | |].
  - by exact (no_open _ _ _ _ _ Hok c t Ht).
  - intros s Hs Hst. by eapply (no_awaiting _ _ _ _ _ Hok).
  - intros Hg p Hin. destruct (no_shake _ _ _ _ _ Hok c p) as (s' & t' & _ & Ht' & Hg' & _); [by right|]. simplify_eq. congruence.
  - apply (no_shakes _ _ _ _ _ Hok).
  - intros u _ Hin. left. by right.
  - intros c' Hne. by rewrite requests_cons, request_of_ne.
  - destruct (no_requests _ _ _ _ _ Hok c t Ht) as (rest & Ho & _). exists (id :: rest). split; [|done].
    rewrite Ho, requests_cons, request_of_eq. cbn. by rewrite Permutation_middle.
Qed.

Lemma inv_hello w c p id snapshot frame r :
  encodeServerMessage fuel maxFrameLength (OutHello id snapshot) = Ok frame -> Inv w (TShake c p :: r) ->
  Inv (emit (OSend c (OutHello id snapshot) frame) w) (TReady c :: TGreet c p :: r).
Proof.
  intros He (T & L & HT & HL & Hok & Hq & Hlk). destruct (no_shake _ _ _ _ _ Hok c p ltac:(left)) as (s & [g qs o] & Hs & Ht & Hg & Hst). cbn in Hg. subst g.
  pose proof (no_open _ _ _ _ _ Hok c _ Ht eq_refl) as Ho. cbn in Ho. subst o.
  pose proof (no_shakes _ _ _ _ _ Hok) as Hnd. cbn in Hnd. apply NoDup_cons in Hnd as [Hnin Hnd].
  apply (inv_open _ (<[c := mkTalk true qs []]> T) L); [by econstructor; [|eapply Talk_hello]|econstructor; [done|destruct L; by constructor]| | |].
  - eapply network_talk; [done|done|done|done| | | | | |].
    + intros s' Hs' Hst'. cbn in Hs'. by simplify_eq.
    + intros _ q [|[|Hin]%elem_of_cons]%elem_of_cons; [done|done|]. apply Hnin, list_elem_of_omap. by exists (TShake c q).
    + done.
    + intros u Hu [->|[->|Hin]%elem_of_cons]%elem_of_cons; [right; by left|by destruct Hu|left; by right].
    + intros c' Hne. by rewrite !requests_cons.
    + destruct (no_requests _ _ _ _ _ Hok c _ Ht) as (rest & Ho & Hgone). by exists rest.
  - apply queue_ok_other; [by intros []|]. eapply queue_talk; [done|done|]. by apply (queue_handshake _ _ _ _ (TShake c p) c p).
  - apply locks_ok_talk in Hlk; [|by intros []]. do 2 (apply locks_ok_talk; [by intros []|]). by destruct L.
Qed.

(** A handshake that ends is left with its promise. *)
Lemma inv_shake_end w c p r : Inv w (TShake c p :: r) -> Inv w (TSure p :: r).
Proof.
  intros (T & L & HT & HL & Hok & Hq & Hlk). apply (inv_open _ T L); [done..| | |].
  - apply network_ok_lock; [by intros []|]. destruct Hok. constructor; try done.
    + intros c' q Hin. eapply no_shake. by right.
    + cbn in no_shakes. by apply NoDup_cons in no_shakes as [_ ?].
    + intros c' Hin. apply no_greeted. by right.
    + intros c' id Hin. eapply no_request. by right.
  - by apply (queue_handshake _ _ _ _ (TShake c p) c p).
  - apply locks_ok_talk in Hlk; [|by intros []]. apply locks_ok_talk; [by intros []|done].
Qed.

Lemma inv_greet_end w c p r : Inv w (TGreet c p :: r) -> Inv w (TSure p :: r).
Proof.
  apply inv_queue; try done.
  - intros t Ht. rewrite !elem_of_cons. split; (intros [->|]; [by destruct Ht|by right]).
  - intros t [->|Hin]%elem_of_cons; [done|by right].
  - intros T Hq. by apply (queue_handshake _ _ _ _ (TGreet c p) c p).
Qed.

Lemma inv_connections w f r : Inv w r -> Inv (on_network (fun n => set_connections (f n) n) w) r.
Proof. intros Hi. rewrite on_network_const. apply inv_network; [| |done]; [intros T []; by constructor|]. intros T S. by apply queue_same. Qed.

Lemma inv_transport_closed w c r : Inv w r -> Inv (on_network (fun n => set_closed ({[c]} ∪ nw_closed n) n) w) r.
Proof.
  intros Hi. rewrite on_network_const. apply inv_network; [|intros T S; by apply queue_same|done].
  intros T Hok. pose proof Hok as []. eapply network_change; [exact Hok|done|cbn; set_solver| |done|done|].
  - intros c' s Hs. exists s. split; [done|]. split_and!; try done; [by left|]. by eapply no_ended.
  - intros id l lv c' s Hl Hlv Hc Hs. destruct (no_agree id l lv c' Hl Hlv Hc) as (s0 & Hs0 & Hin). cbn in Hs. by simplify_eq.
Qed.

(** ** The sessions of a connection *)

(** Two lists of live sessions that differ in their connections only. *)
Definition same_lives (lives lives' : list LiveSession) : Prop :=
  forall l lv', lives' !! l = Some lv' -> exists lv, lives !! l = Some lv /\ lv_id lv' = lv_id lv /\ lv_runtime lv' = lv_runtime lv /\ lv_disposing lv' = lv_disposing lv.

Lemma sessions_ok_lives m s s' P r :
  same_lives (ss_lives s) (ss_lives s') -> length (ss_lives s') = length (ss_lives s) -> ss_liveSessions s' = ss_liveSessions s ->
  ss_openingSessions s' = ss_openingSessions s -> sessions_ok m s P r -> sessions_ok m s' P r.
Proof.
  intros Hsame Hlen Hls Hop [].
  assert (forall l lv, ss_lives s !! l = Some lv -> exists lv', ss_lives s' !! l = Some lv' /\ lv_id lv' = lv_id lv /\ lv_runtime lv' = lv_runtime lv /\
    lv_disposing lv' = lv_disposing lv) as Hback.
  { intros l lv Hl. assert (is_Some (ss_lives s' !! l)) as [lv' Hl'].
    { apply lookup_lt_is_Some. rewrite Hlen. by eapply lookup_lt_Some. }
    exists lv'. split; [done|]. destruct (Hsame l lv' Hl') as (lv0 & Hl0 & Hx). by simplify_eq. }
  constructor; unfold opening in *; rewrite ?Hls, ?Hop; try done.
  - intros id l Hl. destruct (so_live id l Hl) as (lv & Hlv & Hid & Hm). destruct (Hback l lv Hlv) as (lv' & Hlv' & Hid' & Hrt & Hd).
    exists lv'. split_and!; [done|congruence|]. by unfold live_hold in *; rewrite Hrt, Hd.
  - intros l lv' Hlv' Hd'. destruct (Hsame l lv' Hlv') as (lv & Hlv & -> & _ & Hd). apply so_registered; [done|congruence].
  - intros l id rt Hl. destruct (so_disposing l id rt Hl) as (lv & Hlv & Hd & Hid & Hr & Hg). destruct (Hback l lv Hlv) as (lv' & Hlv' & Hid' & Hrt & Hd').
    exists lv'. rewrite Hid', Hd', Hrt. done.
Qed.

Lemma same_lives_alter f l lives :
  (forall lv, lv_id (f lv) = lv_id lv /\ lv_runtime (f lv) = lv_runtime lv /\ lv_disposing (f lv) = lv_disposing lv) -> same_lives lives (alter f l lives).
Proof. intros Hf l' lv' (lv & Hlv & ->)%lookup_alter_inv. exists lv. split; [done|]. by case_decide. Qed.

(** A step on the sessions and the objects of connections that touches no lock. *)
Lemma inv_sessions w w' r :
  ss_liveSessions (w_sessions w') = ss_liveSessions (w_sessions w) -> ss_openingSessions (w_sessions w') = ss_openingSessions (w_sessions w) ->
  same_lives (ss_lives (w_sessions w)) (ss_lives (w_sessions w')) -> length (ss_lives (w_sessions w')) = length (ss_lives (w_sessions w)) ->
  w_promises w' = w_promises w -> w_trace w' = w_trace w ->
  length (nw_states (w_network w')) = length (nw_states (w_network w)) ->
  (forall c s', nw_states (w_network w') !! c = Some s' -> exists s, nw_states (w_network w) !! c = Some s /\ keeps_queue s s') ->
  (forall T, network_ok T (w_network w) (ss_lives (w_sessions w)) (ss_liveSessions (w_sessions w)) r ->
     network_ok T (w_network w') (ss_lives (w_sessions w')) (ss_liveSessions (w_sessions w)) r) ->
  Inv w r -> Inv w' r.
Proof.
  intros Hls Hop Hsame Hlen Hp Ht Hlen' Hst Hn (T & L & HT & HL & Hok & Hq & Hlk). exists T, L. rewrite Ht, Hls, Hp.
  split_and!; [done|done|by apply Hn|by eapply queue_change|].
  destruct L as [m|]; [|done]. cbn. rewrite Hp. by eapply sessions_ok_lives.
Qed.

Lemma registered_kept T n lives lives' ls r id l :
  network_ok T n lives ls r -> same_lives lives lives' -> length lives' = length lives -> JsMap.get id ls = Some l -> exists lv, lives' !! l = Some lv /\ lv_id lv = id.
Proof.
  intros Hok Hsame Hlen Hl. destruct (no_registered _ _ _ _ _ Hok id l Hl) as (lv & Hlv & <-).
  assert (is_Some (lives' !! l)) as [lv' Hl'] by (apply lookup_lt_is_Some; rewrite Hlen; by eapply lookup_lt_Some).
  exists lv'. split; [done|]. destruct (Hsame l lv' Hl') as (lv0 & Hl0 & -> & _). by simplify_eq.
Qed.

Lemma unchanged_connection T n lives ls r c s : network_ok T n lives ls r -> nw_states n !! c = Some s -> may_become T c s s.
Proof. intros Hok Hs. split_and!; try done; [by left|]. by eapply no_ended. Qed.

(** An alteration of a live session that keeps its connections. *)
Lemma inv_alter_live w f l r :
  (forall lv, lv_id (f lv) = lv_id lv /\ lv_runtime (f lv) = lv_runtime lv /\ lv_disposing (f lv) = lv_disposing lv /\ lv_connections (f lv) = lv_connections lv) ->
  Inv w r -> Inv (alter_live f l w) r.
Proof.
  intros Hf. assert (same_lives (ss_lives (w_sessions w)) (alter f l (ss_lives (w_sessions w)))) as Hsame by (apply same_lives_alter; naive_solver).
  apply inv_sessions; try done; cbn; [by rewrite length_alter|intros c s Hs; by exists s|].
  intros T Hok. pose proof Hok as []. eapply network_change; [done|done|done| | | |].
  - intros c s Hs. exists s. split; [done|]. by eapply unchanged_connection.
  - intros l' lv' c (lv & Hlv & ->)%lookup_alter_inv Hc. apply (no_attached l' lv c Hlv). case_decide; [|done].
    by destruct (Hf lv) as (_ & _ & _ & <-).
  - intros id l'. apply (registered_kept _ _ _ _ _ _ _ _ Hok Hsame). apply length_alter.
  - intros id l' lv' c s Hl (lv & Hlv & ->)%lookup_alter_inv Hc Hs.
    destruct (no_agree id l' lv c Hl Hlv) as (s0 & Hs0 & Hin); [|by simplify_eq]. case_decide; [|done]. by destruct (Hf lv) as (_ & _ & _ & <-).
Qed.

Lemma elem_of_set_adjoin {A} `{EqDecision A} (a b : A) l : b ∈ set_adjoin a l <-> b = a \/ b ∈ l.
Proof. unfold set_adjoin. case_decide as Hin; [|rewrite elem_of_app, list_elem_of_singleton]; naive_solver. Qed.

Lemma elem_of_set_remove {A} `{EqDecision A} (a b : A) l : b ∈ set_remove a l <-> b <> a /\ b ∈ l.
Proof. unfold set_remove. by rewrite list_elem_of_filter. Qed.

Lemma inv_attach w c l r :
  is_closed c w = false -> Inv w r ->
  Inv (alter_live (fun lv => set_live_connections (set_adjoin c (lv_connections lv)) lv) l
        (alter_connection (fun s => set_sessionIds (set_adjoin (live_id l w) (sc_sessionIds s)) s) c w)) r.
Proof.
  intros Hc. unfold is_closed in Hc. apply orb_false_iff in Hc as [Hc _]. apply orb_false_iff in Hc as [Hd Hst]. apply negb_false_iff, bool_decide_eq_true in Hst.
  unfold disconnected, stage, connection_at in Hd, Hst. destruct (nw_states (w_network w) !! c) as [s|] eqn:Hs; [|done]. cbn in Hd, Hst.
  set (g := fun lv => set_live_connections (set_adjoin c (lv_connections lv)) lv).
  assert (same_lives (ss_lives (w_sessions w)) (alter g l (ss_lives (w_sessions w)))) as Hsame by (by apply same_lives_alter).
  apply inv_sessions; try done; cbn; [by rewrite length_alter|by rewrite length_alter| |].
  { intros c' s' (s0 & Hs0 & ->)%lookup_alter_inv. exists s0. split; [done|]. by destruct (decide (c = c')). }
  intros T Hok. pose proof Hok as [].
  eapply network_change; [done|cbn; by rewrite length_alter|done| | | |].
  - cbn. intros c' s' (s0 & Hs0 & ->)%lookup_alter_inv. exists s0. split; [done|]. case_decide; [|by eapply unchanged_connection].
    subst c'. simplify_eq. split_and!; try done; [by left|]. cbn. congruence.
  - intros l' lv' c' (lv & Hlv & ->)%lookup_alter_inv Hc'. case_decide as Hl; [|by eapply no_attached]. cbn in Hc'. apply elem_of_set_adjoin in Hc' as [->|Hc'].
    + by eapply no_ready.
    + by eapply no_attached.
  - intros id l'. apply (registered_kept _ _ _ _ _ _ _ _ Hok Hsame). apply length_alter.
  - cbn. intros id l' lv' c' s' Hl (lv & Hlv & ->)%lookup_alter_inv Hc' (s0 & Hs0 & ->)%lookup_alter_inv.
    assert (c' ∈ lv_connections lv \/ l = l' /\ c' = c) as [Hin|[<- ->]].
    { case_decide as Hll; [|by left]. cbn in Hc'. apply elem_of_set_adjoin in Hc' as [->|?]; [right|left]; done. }
    + destruct (no_agree id l' lv c' Hl Hlv Hin) as (s1 & Hs1 & Hid). simplify_eq. destruct (decide (c = c')); [|done]. cbn. apply elem_of_set_adjoin. by right.
    + rewrite decide_True by done. cbn. apply elem_of_set_adjoin. left. destruct (no_registered id l Hl) as (lv0 & Hlv0 & <-). simplify_eq.
      unfold live_id, live_at. by rewrite Hlv.
Qed.

(** Removing a session from a connection, and the connection from the session, if it is live. *)
Lemma inv_detach w c id r :
  Inv w r ->
  Inv (let w' := alter_connection (fun s => set_sessionIds (set_remove id (sc_sessionIds s)) s) c w in
       match liveSession id w with
       | Some l => alter_live (fun lv => set_live_connections (set_remove c (lv_connections lv)) lv) l w'
       | None => w'
       end) r.
Proof.
  set (g := fun lv => set_live_connections (set_remove c (lv_connections lv)) lv).
  assert (forall l, same_lives (ss_lives (w_sessions w)) (alter g l (ss_lives (w_sessions w)))) as Hsame by (intros; by apply same_lives_alter).
  assert (same_lives (ss_lives (w_sessions w)) (ss_lives (w_sessions w))) as Hrefl by (intros l lv Hl; by exists lv).
  apply inv_sessions; try by destruct (liveSession id w).
  - destruct (liveSession id w); [apply Hsame|done].
  - destruct (liveSession id w); [by cbn; rewrite length_alter|done].
  - destruct (liveSession id w); by cbn; rewrite length_alter.
  - intros c' s' Hs'. assert (alter (fun s => set_sessionIds (set_remove id (sc_sessionIds s)) s) c (nw_states (w_network w)) !! c' = Some s') as
      (s0 & Hs0 & ->)%lookup_alter_inv by (by destruct (liveSession id w)).
    exists s0. split; [done|]. by destruct (decide (c = c')).
  - intros T Hok. pose proof Hok as [].
    assert (forall l' lv', ss_lives (w_sessions (match liveSession id w with Some l => alter_live g l (alter_connection (fun s => set_sessionIds (set_remove id (sc_sessionIds s)) s) c w) |
       None => alter_connection (fun s => set_sessionIds (set_remove id (sc_sessionIds s)) s) c w end)) !! l' = Some lv' ->
      exists lv, ss_lives (w_sessions w) !! l' = Some lv /\ lv_id lv' = lv_id lv /\ lv_connections lv' ⊆ lv_connections lv /\
        (liveSession id w = Some l' -> c ∉ lv_connections lv')) as Hlives.
    { intros l' lv'. destruct (liveSession id w) as [l|] eqn:Hl; [|intros Hlv; by exists lv'].
      intros (lv & Hlv & ->)%lookup_alter_inv. exists lv. split; [done|]. case_decide as Hll.
      - cbn. split_and!; [done| |intros _ [? _]%elem_of_set_remove; done]. by intros x [_ ?]%elem_of_set_remove.
      - split_and!; [done|done|]. intros [= ->]. done. }
    eapply network_change; [done| | | | | |].
    + destruct (liveSession id w); cbn; by rewrite length_alter.
    + by destruct (liveSession id w).
    + intros c' s' Hs'. assert (alter (fun s => set_sessionIds (set_remove id (sc_sessionIds s)) s) c (nw_states (w_network w)) !! c' = Some s') as
        (s0 & Hs0 & ->)%lookup_alter_inv by (by destruct (liveSession id w)).
      exists s0. split; [done|]. case_decide; [|by eapply unchanged_connection]. split_and!; try done; [by left|]. cbn. intros Hd. by rewrite (no_ended _ _ Hs0 Hd).
    + intros l' lv' c' Hlv' Hc'. destruct (Hlives l' lv' Hlv') as (lv & Hlv & _ & Hsub & _). eapply no_attached; [done|by apply Hsub].
    + intros id' l' Hl'. destruct (no_registered id' l' Hl') as (lv & Hlv & <-).
      destruct (liveSession id w) as [l|]; cbn; [|by exists lv]. rewrite list_lookup_alter. case_decide; [|by exists lv]. subst. rewrite Hlv. by exists (g lv).
    + intros id' l' lv' c' s' Hl' Hlv' Hc' Hs'. destruct (Hlives l' lv' Hlv') as (lv & Hlv & _ & Hsub & Hnot).
      assert (alter (fun s => set_sessionIds (set_remove id (sc_sessionIds s)) s) c (nw_states (w_network w)) !! c' = Some s') as
        (s0 & Hs0 & ->)%lookup_alter_inv by (by destruct (liveSession id w)).
      destruct (no_agree id' l' lv c' Hl' Hlv (Hsub _ Hc')) as (s1 & Hs1 & Hid). simplify_eq. case_decide; [|done]. subst c'.
      cbn. apply elem_of_set_remove. split; [|done]. intros ->. by apply Hnot.
Qed.

(** The end of a connection. *)
Definition drop_connection (c : nat) (sessions : list nat) (w : World) : World :=
  foldl (fun w live => alter_live (fun l => set_live_connections (set_remove c (lv_connections l)) l) live w) w sessions.

Lemma drop_connection_lives c sessions : forall w l,
  ss_lives (w_sessions (drop_connection c sessions w)) !! l =
  (fun lv => if decide (l ∈ sessions) then set_live_connections (set_remove c (lv_connections lv)) lv else lv) <$> ss_lives (w_sessions w) !! l.
Proof.
  induction sessions as [|l0 sessions IH]; intros w l.
  - cbn. destruct (_ !! l); cbn; [|done]. by rewrite decide_False by apply not_elem_of_nil.
  - unfold drop_connection in *. cbn [foldl]. rewrite IH. cbn. rewrite list_lookup_alter. destruct (decide (l0 = l)) as [<-|Hne].
    + destruct (_ !! l0) as [lv|]; [|done]. cbn. rewrite (decide_True (P := l0 ∈ l0 :: sessions)) by left. f_equal. case_decide; [|done].
      unfold set_live_connections. cbn. f_equal. unfold set_remove. rewrite list_filter_filter. apply list_filter_iff. naive_solver.
    + destruct (_ !! l) as [lv|]; [|done]. cbn. f_equal. destruct (decide (l ∈ sessions)); [rewrite decide_True by (by right)|rewrite decide_False by (rewrite elem_of_cons; naive_solver)]; done.
Qed.

Lemma drop_connection_same c sessions w :
  let w' := drop_connection c sessions w in
  w_network w' = w_network w /\ ss_liveSessions (w_sessions w') = ss_liveSessions (w_sessions w) /\ ss_openingSessions (w_sessions w') = ss_openingSessions (w_sessions w) /\
  w_promises w' = w_promises w /\ w_trace w' = w_trace w /\ length (ss_lives (w_sessions w')) = length (ss_lives (w_sessions w)).
Proof.
  cbn. unfold drop_connection. revert w. induction sessions as [|l sessions IH]; intros w; [done|]. cbn [foldl].
  specialize (IH (alter_live (fun l => set_live_connections (set_remove c (lv_connections l)) l) l w)). cbn in IH. rewrite length_alter in IH. exact IH.
Qed.

(** [f] is what becomes of the object of the connection. *)
Lemma inv_disconnect w c f r :
  (forall s, sc_disconnected (f s) = true /\ sc_sessionIds (f s) = [] /\ sc_stage (f s) = SClosed /\ sc_handshake (f s) = sc_handshake s) -> Inv w r ->
  Inv (drop_connection c (omap (fun id => liveSession id w) (sessionIds c w)) (alter_connection f c w)) r.
Proof.
  intros Hf. set (sessions := omap _ _). destruct (drop_connection_same c sessions (alter_connection f c w)) as (Hn & Hls & Hop & Hp & Ht & Hlen).
  set (w' := drop_connection c sessions (alter_connection f c w)) in *.
  assert (forall l, ss_lives (w_sessions w') !! l = (fun lv => if decide (l ∈ sessions) then set_live_connections (set_remove c (lv_connections lv)) lv else lv) <$> ss_lives (w_sessions w) !! l) as Hl.
  { intros l. exact (drop_connection_lives c sessions (alter_connection f c w) l). }
  assert (same_lives (ss_lives (w_sessions w)) (ss_lives (w_sessions w'))) as Hsame.
  { intros l lv'. rewrite Hl. destruct (_ !! l) as [lv|]; [|done]. intros [= <-]. exists lv. by case_decide. }
  apply inv_sessions; try done; [by rewrite Hn; cbn; rewrite length_alter| |].
  { rewrite Hn. cbn. intros c' s' (s & Hs & ->)%lookup_alter_inv. exists s. split; [done|]. destruct (decide (c = c')); [|done].
    destruct (Hf s) as (H1 & H2 & H3 & H4). split; [done|]. rewrite H3. auto. }
  intros T Hok. pose proof Hok as []. eapply network_change; [done|rewrite Hn; cbn; by rewrite length_alter|by rewrite Hn| | | |].
  - rewrite Hn. cbn. intros c' s' (s & Hs & ->)%lookup_alter_inv. exists s. split; [done|]. case_decide; [|by eapply unchanged_connection].
    destruct (Hf s) as (H1 & H2 & H3 & _). unfold may_become. by rewrite H1, H2, H3.
  - intros l lv' c'. rewrite Hl. destruct (_ !! l) as [lv|] eqn:Hlv; [|done]. intros [= <-] Hc'. eapply no_attached; [done|]. case_decide; [|done].
    by apply elem_of_set_remove in Hc' as [_ ?].
  - intros id l. apply (registered_kept _ _ _ _ _ _ _ _ Hok Hsame). exact Hlen.
  - rewrite Hn. cbn. intros id l lv' c' s' Hg. rewrite Hl. destruct (_ !! l) as [lv|] eqn:Hlv; [|done]. intros [= <-] Hc' (s & Hs & ->)%lookup_alter_inv.
    assert (c' ∈ lv_connections lv) as Hin by (case_decide; [by apply elem_of_set_remove in Hc' as [_ ?]|done]).
    destruct (no_agree id l lv c' Hg Hlv Hin) as (s0 & Hs0 & Hid). simplify_eq. destruct (decide (c = c')) as [Hcc|]; [|done]. subst c'.
    assert (l ∈ sessions) as Hls'; [|rewrite decide_True in Hc' by done; by apply elem_of_set_remove in Hc' as [? _]].
    apply list_elem_of_omap. exists id. split; [|done]. unfold sessionIds, connection_at. by rewrite Hs.
Qed.

(** ** Locks *)

Lemma keys_get {V} id (m : list (jsstr * V)) : id ∈ JsMap.keys m <-> is_Some (JsMap.get id m).
Proof.
  split; [|intros [v Hv] ]; [intros Hin|].
  - destruct (JsMap.get id m) eqn:Hg; [done|]. by apply JsMap.get_None in Hg.
  - destruct (decide (id ∈ JsMap.keys m)) as [|Hn]; [done|]. apply JsMap.get_None in Hn. congruence.
Qed.

Lemma elem_of_claims id r : id ∈ claims r <-> (exists p, TAcquire id p ∈ r) \/ (exists rt p, TCreated id rt p ∈ r) \/ (exists rt p, TAborting id rt p ∈ r).
Proof.
  unfold claims. rewrite list_elem_of_omap. split.
  - intros (t & Hin & Ht). destruct t; try discriminate Ht; injection Ht as ->; eauto 6.
  - intros [(p & Hin)|[(rt & p & Hin)|(rt & p & Hin)]]; by eexists.
Qed.

Lemma elem_of_owned p r : p ∈ owned r <-> exists t, t ∈ r /\ promise_of t = Some p.
Proof. apply list_elem_of_omap. Qed.

Lemma owned_opening m s P r id p t : sessions_ok m s P r -> t ∈ r -> claim_of t = Some id -> promise_of t = Some p -> opening s id p.
Proof.
  intros [] Hin Hc Hp. destruct t; try discriminate Hc; injection Hc as ->; injection Hp as ->;
    [apply (so_acquire _ _ Hin)|apply (so_created _ _ _ Hin)|apply (so_aborting _ _ _ Hin)].
Qed.

(** A session that is not claimed by a token is not one of those that are. *)
Lemma claimed_fresh m s P r id : sessions_ok m s P r -> JsMap.get id (ss_liveSessions s) = None -> JsMap.get id (ss_openingSessions s) = None -> m !! id = None.
Proof.
  intros Hok Hl Ho. apply eq_None_not_Some. intros Hx. apply (so_held _ _ _ _ Hok) in Hx. apply elem_of_app in Hx as [Hx|Hx].
  - apply list_elem_of_omap in Hx as (t & Hin & Ht). assert (exists p, promise_of t = Some p) as [p Hp] by (destruct t; try discriminate Ht; by eexists).
    pose proof (owned_opening _ _ _ _ _ _ _ Hok Hin Ht Hp) as Hop. unfold opening in Hop. congruence.
  - apply keys_get in Hx as [l Hx]. congruence.
Qed.

(** A step of the locks. *)
Lemma inv_locks w w' o r r' :
  (forall t, ~ lock_token t -> t ∈ r' -> t ∈ r) -> shakes r' = shakes r -> (forall c, requests c r' = requests c r) ->
  sures r' = sures r -> (forall c, queued c r' = queued c r) -> pr_sure (w_promises w') = pr_sure (w_promises w) ->
  w_trace w' = w_trace w ++ [o] -> silent o -> w_network w' = w_network w ->
  (forall T, network_ok T (w_network w) (ss_lives (w_sessions w)) (ss_liveSessions (w_sessions w)) r ->
     network_ok T (w_network w) (ss_lives (w_sessions w')) (ss_liveSessions (w_sessions w')) r) ->
  (forall m, sessions_ok m (w_sessions w) (pr_lives (w_promises w)) r ->
     exists m', lock_step (Some m) o m' /\ locks_ok m' w' r') ->
  Inv w r -> Inv w' r'.
Proof.
  intros Hin Hs Hr Hsu Hqd Hps Ht Ho Hn Hnet Hm (T & L & HT & HL & Hok & Hq & Hlk).
  assert (exists L', lock_step L o L' /\ locks_ok L' w' r') as (L' & Hstep & Hlk').
  { destruct L as [m|]; [by apply Hm|]. exists None. split; [constructor|done]. }
  exists T, L'. rewrite Ht, Hn, Hps. split_and!; [econstructor; [done|by constructor]|by econstructor| | |done].
  - eapply network_ok_ext; [|done..|by apply Hnet]. intros t Htk. apply Hin. intros ?. by destruct t.
  - eapply queue_ok_ext; [|done..]. intros t Htk. apply Hin. intros ?. by destruct t.
Qed.

Lemma lookup_insert_other {A} (m : gmap jsstr A) id id' v x : m !! id = None -> m !! id' = Some x -> <[id := v]> m !! id' = Some x.
Proof. intros H1 H2. rewrite lookup_insert_ne by congruence. done. Qed.

Lemma inv_acquire w id options r :
  liveSession id w = None -> openingSession id w = None -> Inv w r ->
  let p := length (pr_lives (w_promises w)) in
  Inv (on_sessions (fun s => set_openingSessions (JsMap.set id p (ss_openingSessions s)) s)
        (emit (OAcquire id options) (on_promises (fun ps => set_live_promises (pr_lives ps ++ [None]) ps) w))) (TAcquire id p :: r).
Proof.
  intros Hl Ho Hi p. eapply inv_locks; [..|exact Hi]; try done; [by intros t Ht [->|]%elem_of_cons|].
  intros m Hok. pose proof (claimed_fresh _ _ _ _ _ Hok Hl Ho) as Hm. exists (Some (<[id := Acquiring]> m)). split; [by constructor|].
  pose proof Hok as [].
  assert (id ∉ claims r ++ JsMap.keys (ss_liveSessions (w_sessions w))) as Hnew.
  { intros [Hx|Hx]%elem_of_app; [|apply keys_get in Hx as [l Hx]; unfold liveSession in Hl; congruence].
    apply elem_of_claims in Hx as [(q & Hx)|[(rt & q & Hx)|(rt & q & Hx)]]; [apply so_acquire in Hx|apply so_created in Hx|apply so_aborting in Hx]; destruct Hx; congruence. }
  assert (forall id' q, opening (w_sessions w) id' q -> JsMap.get id' (JsMap.set id p (ss_openingSessions (w_sessions w))) = Some q) as Hop.
  { intros id' q Hq. unfold opening in Hq. rewrite JsMap.get_set_ne; [done|]. intros ->. unfold openingSession in Ho. congruence. }
  cbn. constructor; unfold opening; cbn.
  - by constructor.
  - intros id' [x Hx]. destruct (decide (id = id')) as [<-|Hne]; [left|]. rewrite lookup_insert_ne in Hx by done. right. by apply so_held.
  - intros id' q [[= -> ->]|Hin]%elem_of_cons; [by rewrite lookup_insert_eq, JsMap.get_set_eq|]. destruct (so_acquire _ _ Hin).
    split; [by eapply lookup_insert_other|by apply Hop].
  - intros id' rt q [|Hin]%elem_of_cons; [done|]. destruct (so_created _ _ _ Hin). split; [by eapply lookup_insert_other|by apply Hop].
  - intros id' rt q [|Hin]%elem_of_cons; [done|]. destruct (so_aborting _ _ _ Hin). split; [by eapply lookup_insert_other|by apply Hop].
  - constructor; [|done]. intros Hx. apply so_unsettled, lookup_lt_Some in Hx. unfold p in Hx. lia.
  - intros q [->|Hx]%elem_of_cons; [unfold p; by rewrite lookup_app_r, Nat.sub_diag by lia|]. apply lookup_app_l_Some. by apply so_unsettled.
  - intros id' l Hg. destruct (so_live _ _ Hg) as (lv & Hlv & Hid & Hx). exists lv. split_and!; try done. by eapply lookup_insert_other.
  - done.
  - intros l id' rt [|Hin]%elem_of_cons; [done|]. by apply so_disposing.
  - done.
  - intros [|Hin]%elem_of_cons; done.
Qed.

(** A token is exchanged for another with the same session, and the hold of that session changes. *)
Lemma sessions_exchange m m' s P t t' r id h :
  sessions_ok m s P (t :: r) -> claim_of t = Some id -> claim_of t' = Some id -> promise_of t' = promise_of t -> m' = <[id := h]> m ->
  match t' with TAcquire _ _ => h = Acquiring | TCreated _ rt _ => h = Held rt | TAborting _ rt _ => h = Disposing rt | _ => False end ->
  sessions_ok m' s P (t' :: r).
Proof.
  intros Hok Ht Ht' Hp -> Hh. pose proof Hok as [].
  assert (forall q, promise_of t' = Some q -> opening s id q) as Hop.
  { intros q Hq. eapply (owned_opening _ _ _ _ _ _ t); [done|left|done|by rewrite <- Hp]. }
  cbn in so_claims. rewrite Ht in so_claims. cbn in so_claims. apply NoDup_cons in so_claims as [Hnew Hnd].
  assert (forall u id', u ∈ r -> claim_of u = Some id' -> id <> id') as Hother.
  { intros u id' Hin Hu ->. apply Hnew, elem_of_app. left. apply list_elem_of_omap. by exists u. }
  constructor.
  - cbn. rewrite Ht'. cbn. by constructor.
  - intros id' [x Hx]. cbn. rewrite Ht'. destruct (decide (id = id')) as [<-|Hne]; [left|]. rewrite lookup_insert_ne in Hx by done.
    specialize (so_held id' (mk_is_Some _ _ Hx)). cbn in so_held. by rewrite Ht in so_held.
  - intros id' q [<-|Hin]%elem_of_cons.
    + injection Ht' as ->. subst h. split; [apply lookup_insert_eq|by apply Hop].
    + rewrite lookup_insert_ne by (by eapply Hother). apply so_acquire. by right.
  - intros id' rt q [<-|Hin]%elem_of_cons.
    + injection Ht' as ->. subst h. split; [apply lookup_insert_eq|by apply Hop].
    + rewrite lookup_insert_ne by (by eapply Hother). apply so_created. by right.
  - intros id' rt q [<-|Hin]%elem_of_cons.
    + injection Ht' as ->. subst h. split; [apply lookup_insert_eq|by apply Hop].
    + rewrite lookup_insert_ne by (by eapply Hother). apply so_aborting. by right.
  - cbn in *. by rewrite Hp.
  - intros q. cbn in *. rewrite Hp. apply so_unsettled.
  - intros id' l Hg. destruct (so_live _ _ Hg) as (lv & Hlv & Hid & Hx). exists lv. split_and!; try done. rewrite lookup_insert_ne; [done|].
    intros ->. apply Hnew, elem_of_app. right. apply keys_get. by rewrite Hg.
  - done.
  - intros l id' rt [<-|Hin]%elem_of_cons; [done|]. apply so_disposing. by right.
  - cbn in *. by destruct t, t'.
  - intros [<-|Hin]%elem_of_cons; [done|]. apply so_over. by right.
Qed.

(** A token gives up its session, which is free then. *)
Lemma sessions_release m s P t r id p :
  sessions_ok m s P (t :: r) -> claim_of t = Some id -> promise_of t = Some p -> sessions_ok (delete id m) s P (TOwner p :: r).
Proof.
  intros Hok Ht Hp. pose proof Hok as []. cbn in so_claims. rewrite Ht in so_claims. cbn in so_claims. apply NoDup_cons in so_claims as [Hnew Hnd].
  assert (forall u id', u ∈ r -> claim_of u = Some id' -> id <> id') as Hother.
  { intros u id' Hin Hu ->. apply Hnew, elem_of_app. left. apply list_elem_of_omap. by exists u. }
  constructor.
  - done.
  - intros id' [x Hx]. apply lookup_delete_Some in Hx as [Hne Hx]. specialize (so_held id' (mk_is_Some _ _ Hx)). cbn in so_held. rewrite Ht in so_held.
    by apply elem_of_cons in so_held as [?|?].
  - intros id' q [|Hin]%elem_of_cons; [done|]. rewrite lookup_delete_ne by (by eapply Hother). apply so_acquire. by right.
  - intros id' rt q [|Hin]%elem_of_cons; [done|]. rewrite lookup_delete_ne by (by eapply Hother). apply so_created. by right.
  - intros id' rt q [|Hin]%elem_of_cons; [done|]. rewrite lookup_delete_ne by (by eapply Hother). apply so_aborting. by right.
  - cbn in *. by rewrite Hp in so_owned.
  - intros q. cbn in *. rewrite Hp in so_unsettled. apply so_unsettled.
  - intros id' l Hg. destruct (so_live _ _ Hg) as (lv & Hlv & Hid & Hx). exists lv. split_and!; try done. rewrite lookup_delete_ne; [done|].
    intros ->. apply Hnew, elem_of_app. right. apply keys_get. by rewrite Hg.
  - done.
  - intros l id' rt [|Hin]%elem_of_cons; [done|]. apply so_disposing. by right.
  - cbn in *. by destruct t.
  - intros [|Hin]%elem_of_cons; [done|]. apply so_over. by right.
Qed.

(** Exchanging tokens of locks. *)
Ltac exchanged := try done; try (intros ? ?Ht; rewrite ?elem_of_cons; intros [->|?]; [by destruct Ht|by right]).

Lemma inv_acquired w id p r :
  Inv w (TAcquire id p :: r) ->
  let runtime := ss_runtimes (w_sessions w) in
  Inv (emit (OAcquired id (Some runtime)) (on_sessions (fun s => mkSessions (ss_lives s) (ss_liveSessions s) (ss_openingSessions s) (S runtime) (ss_phases s)) w))
    (TCreated id runtime p :: r).
Proof.
  intros Hi runtime. eapply inv_locks; [..|exact Hi]; exchanged. intros m Hok. exists (Some (<[id := Held runtime]> m)).
  split; [constructor; by apply (so_acquire _ _ _ _ Hok id p); left|].
  assert (sessions_ok (<[id := Held runtime]> m) (w_sessions w) (pr_lives (w_promises w)) (TCreated id runtime p :: r)) as Hok' by (by eapply sessions_exchange).
  revert Hok'. by apply sessions_ok_lives; [intros l lv Hl; exists lv|..].
Qed.

Lemma inv_acquire_failed w id p r : Inv w (TAcquire id p :: r) -> Inv (emit (OAcquired id None) w) (TOwner p :: r).
Proof.
  intros Hi. eapply inv_locks; [..|exact Hi]; exchanged. intros m Hok. exists (Some (delete id m)).
  split; [constructor; by apply (so_acquire _ _ _ _ Hok id p); left|]. by eapply sessions_release.
Qed.

Lemma inv_abort w id rt p r : Inv w (TCreated id rt p :: r) -> Inv (emit (ODispose id rt) w) (TAborting id rt p :: r).
Proof.
  intros Hi. eapply inv_locks; [..|exact Hi]; exchanged. intros m Hok. exists (Some (<[id := Disposing rt]> m)).
  split; [constructor; by apply (so_created _ _ _ _ Hok id rt p); left|]. by eapply sessions_exchange.
Qed.

Lemma inv_aborted w id rt p r : Inv w (TAborting id rt p :: r) -> Inv (emit (ODisposed id rt) w) (TOwner p :: r).
Proof.
  intros Hi. eapply inv_locks; [..|exact Hi]; exchanged. intros m Hok. exists (Some (delete id m)).
  split; [constructor; by apply (so_aborting _ _ _ _ Hok id rt p); left|]. by eapply sessions_release.
Qed.

Lemma inv_subscribe w id rt p r : TCreated id rt p ∈ r -> Inv w r -> Inv (emit (OSubscribe id rt) w) r.
Proof.
  intros Hin Hi. eapply inv_locks; [..|exact Hi]; try done. intros m Hok. exists (Some m). split; [|done]. constructor. by apply (so_created _ _ _ _ Hok _ _ p).
Qed.

(** Steps of the sessions without an output. *)
Lemma inv_quiet_locks w w' r r' :
  (forall t, ~ lock_token t -> t ∈ r' -> t ∈ r) -> shakes r' = shakes r -> (forall c, requests c r' = requests c r) ->
  sures r' = sures r -> (forall c, queued c r' = queued c r) -> pr_sure (w_promises w') = pr_sure (w_promises w) ->
  w_trace w' = w_trace w -> w_network w' = w_network w ->
  (forall T, network_ok T (w_network w) (ss_lives (w_sessions w)) (ss_liveSessions (w_sessions w)) r ->
     network_ok T (w_network w) (ss_lives (w_sessions w')) (ss_liveSessions (w_sessions w')) r) ->
  (forall m, sessions_ok m (w_sessions w) (pr_lives (w_promises w)) r -> sessions_ok m (w_sessions w') (pr_lives (w_promises w')) r') ->
  Inv w r -> Inv w' r'.
Proof.
  intros Hin Hs Hr Hsu Hqd Hps Ht Hn Hnet Hm (T & L & HT & HL & Hok & Hq & Hlk). exists T, L. rewrite Ht, Hn, Hps. split_and!; [done|done| | |].
  - eapply network_ok_ext; [|done..|by apply Hnet]. intros t Htk. apply Hin. intros ?. by destruct t.
  - eapply queue_ok_ext; [|done..]. intros t Htk. apply Hin. intros ?. by destruct t.
  - destruct L as [m|]; [by apply Hm|done].
Qed.

Lemma inv_register w id rt p r : Inv w (TCreated id rt p :: r) -> Inv (register id rt w) (TOwner p :: r).
Proof.
  intros Hi. unfold register. set (l := length (ss_lives (w_sessions w))). set (new := mkLiveSession id rt [] 0 true false None).
  assert (forall l' lv, (ss_lives (w_sessions w) ++ [new]) !! l' = Some lv -> ss_lives (w_sessions w) !! l' = Some lv \/ l' = l /\ lv = new) as Hinv.
  { intros l' lv. rewrite lookup_app_Some. intros [?|[Hle Hs]]; [by left|right]. destruct (l' - _) as [|k] eqn:Hc; [|done]. injection Hs as <-. split; [unfold l; lia|done]. }
  assert ((ss_lives (w_sessions w) ++ [new]) !! l = Some new) as Hnew by (rewrite lookup_app_r by done; unfold l; by rewrite Nat.sub_diag).
  eapply inv_quiet_locks; [..|exact Hi]; exchanged.
  - intros T Hok. pose proof Hok as []. cbn. eapply network_change; [done|done|done| | | |].
    + intros c s Hs. exists s. split; [done|]. by eapply unchanged_connection.
    + intros l' lv c [Hl|[-> ->]]%Hinv Hc; [by eapply no_attached|by apply elem_of_nil in Hc].
    + intros id' l'. rewrite JsMap.get_set. case_decide as Hid; [intros [= <-]; subst; by exists new|].
      intros Hg. destruct (no_registered _ _ Hg) as (lv & Hlv & <-). exists lv. split; [by apply lookup_app_l_Some|done].
    + intros id' l' lv c s Hg [Hl|[-> ->]]%Hinv Hc Hs; [|by apply elem_of_nil in Hc]. rewrite JsMap.get_set in Hg. case_decide as Hid.
      * injection Hg as <-. apply lookup_lt_Some in Hl. unfold l in Hl. lia.
      * destruct (no_agree id' l' lv c Hg Hl Hc) as (s0 & Hs0 & Hin). by simplify_eq.
  - intros m Hok. pose proof Hok as []. destruct (so_created id rt p ltac:(left)) as [Hm Hop].
    cbn in so_claims. apply NoDup_cons in so_claims as [Hnin Hnd].
    assert (JsMap.get id (ss_liveSessions (w_sessions w)) = None) as Hfree.
    { destruct (JsMap.get id _) eqn:Hg; [|done]. destruct Hnin. apply elem_of_app. right. apply keys_get. by rewrite Hg. }
    assert (JsMap.set id l (ss_liveSessions (w_sessions w)) = ss_liveSessions (w_sessions w) ++ [(id, l)]) as Hset by (by apply JsMap.set_new).
    constructor; cbn.
    + rewrite Hset. unfold JsMap.keys in *. rewrite fmap_app. cbn. fold (claims r). rewrite app_assoc. apply NoDup_app. split_and!; [done| |apply NoDup_singleton].
      intros x Hx ->%list_elem_of_singleton. done.
    + intros id' Hx. specialize (so_held id' Hx). cbn in so_held. rewrite Hset. unfold JsMap.keys in *. rewrite fmap_app. cbn. fold (claims r) in *.
      apply elem_of_cons in so_held as [->|Hin]; rewrite !elem_of_app in *; [right; right; left|naive_solver].
    + intros id' q [|Hin]%elem_of_cons; [done|]. apply so_acquire. by right.
    + intros id' rt' q [|Hin]%elem_of_cons; [done|]. apply so_created. by right.
    + intros id' rt' q [|Hin]%elem_of_cons; [done|]. apply so_aborting. by right.
    + done.
    + done.
    + intros id' l'. rewrite JsMap.get_set. case_decide as Hid.
      * intros [= <-]. subst. exists new. by split_and!.
      * intros Hg. destruct (so_live _ _ Hg) as (lv & Hlv & Hx). exists lv. split; [by apply lookup_app_l_Some|done].
    + intros l' lv [Hl|[-> ->]]%Hinv Hd; [|by rewrite JsMap.get_set_eq]. rewrite JsMap.get_set_ne; [by apply so_registered|].
      intros Heq. specialize (so_registered _ _ Hl Hd). congruence.
    + intros l' id' rt' [|Hin]%elem_of_cons; [done|]. destruct (so_disposing l' id' rt') as (lv & Hlv & Hd & Hid & Hrt & Hg); [by right|].
      exists lv. split_and!; try done; [by apply lookup_app_l_Some|]. rewrite JsMap.get_set_ne; [done|]. congruence.
    + done.
    + intros [|Hin]%elem_of_cons; [done|]. apply so_over. by right.
Qed.

Lemma inv_settle_live w p v r : Inv w (TOwner p :: r) -> Inv (settle_live p v w).1 r.
Proof.
  intros Hi. eapply inv_quiet_locks; [..|exact Hi]; try done; [intros; by right|]. intros m []. constructor; try done; cbn in *.
  - intros id q Hin. apply so_acquire. by right.
  - intros id rt q Hin. apply so_created. by right.
  - intros id rt q Hin. apply so_aborting. by right.
  - by apply NoDup_cons in so_owned as [_ ?].
  - intros q Hq. apply NoDup_cons in so_owned as [Hnin _]. rewrite list_lookup_insert_ne; [apply so_unsettled; by right|]. by intros ->.
  - intros l id rt Hin. apply so_disposing. by right.
  - intros Hin. apply so_over. by right.
Qed.

Lemma inv_opening_end w id p v r :
  settled (pr_lives (w_promises w)) p = Some v -> Inv w r ->
  Inv (if decide (openingSession id w = Some p) then on_sessions (fun s => set_openingSessions (JsMap.delete id (ss_openingSessions s)) s) w else w) r.
Proof.
  intros Hp Hi. case_decide as Hop; [|done]. eapply inv_quiet_locks; [..|exact Hi]; try done. intros m Hok. pose proof Hok as [].
  assert (forall id' q t, t ∈ r -> claim_of t = Some id' -> promise_of t = Some q -> opening (w_sessions w) id' q ->
    JsMap.get id' (JsMap.delete id (ss_openingSessions (w_sessions w))) = Some q) as Hkeep.
  { intros id' q t Hin Hc Hq Ho. rewrite JsMap.get_delete, decide_False; [done|]. intros ->. unfold opening, openingSession in *.
    assert (q = p) as -> by congruence. assert (p ∈ owned r) as Hx by (apply elem_of_owned; by exists t).
    apply so_unsettled in Hx. unfold settled in Hp. rewrite Hx in Hp. done. }
  constructor; try done; unfold opening; cbn.
  - intros id' q Hin. destruct (so_acquire _ _ Hin). split; [done|]. by eapply Hkeep.
  - intros id' rt q Hin. destruct (so_created _ _ _ Hin). split; [done|]. by eapply Hkeep.
  - intros id' rt q Hin. destruct (so_aborting _ _ _ Hin). split; [done|]. by eapply Hkeep.
Qed.

Lemma inv_operation w id l op r :
  liveSession id w = Some l -> live_disposing l w = None -> Inv w r -> Inv (emit (OOperation (live_id l w) (live_runtime l w) op) w) r.
Proof.
  intros Hl Hd Hi. eapply inv_locks; [..|exact Hi]; try done. intros m Hok. exists (Some m). split; [|done].
  destruct (so_live _ _ _ _ Hok id l Hl) as (lv & Hlv & Hid & Hm). unfold live_id, live_runtime, live_disposing, live_at in *. rewrite Hlv in *. cbn in *.
  constructor. unfold live_hold in Hm. rewrite Hd in Hm. by rewrite Hid.
Qed.

Lemma inv_begin_dispose w l p r :
  keeps_running l w = false -> Inv w r ->
  Inv (alter_live (set_disposing p) l (emit (ODispose (live_id l w) (live_runtime l w)) w)) (TDisposing l (live_id l w) (live_runtime l w) :: r).
Proof.
  unfold keeps_running. intros [_ Hk]%orb_false_iff Hi. destruct (live_at w l) as [lv|] eqn:Hlv; [|done].
  assert (lv_disposing lv = None) as Hd.
  { do 3 (apply orb_false_iff in Hk as [Hk _]). apply orb_false_iff in Hk as [_ Hk]. apply bool_decide_eq_false in Hk. by apply eq_None_not_Some. }
  unfold live_id, live_runtime. rewrite Hlv. cbn [from_option]. unfold live_at in Hlv.
  assert (forall l' lv', alter (set_disposing p) l (ss_lives (w_sessions w)) !! l' = Some lv' -> exists lv0, ss_lives (w_sessions w) !! l' = Some lv0 /\
    lv' = if decide (l = l') then set_disposing p lv0 else lv0) as Hinv by (intros; by apply lookup_alter_inv).
  eapply inv_locks; [..|exact Hi]; exchanged; [intros t Ht [->|Hin]%elem_of_cons; done| |].
  - intros T Hok. pose proof Hok as []. cbn. eapply network_change; [done|done|done| | | |].
    + intros c s Hs. exists s. split; [done|]. by eapply unchanged_connection.
    + intros l' lv' c (lv0 & Hl0 & ->)%Hinv Hc. eapply (no_attached l' lv0); [done|by destruct (decide (l = l'))].
    + intros id' l' Hg. destruct (no_registered _ _ Hg) as (lv0 & Hl0 & <-). rewrite list_lookup_alter. destruct (decide (l = l')) as [->|]; [|by exists lv0]. rewrite Hl0. by exists (set_disposing p lv0).
    + intros id' l' lv' c s Hg (lv0 & Hl0 & ->)%Hinv Hc Hs. destruct (no_agree id' l' lv0 c Hg Hl0) as (s0 & Hs0 & Hin); [by destruct (decide (l = l'))|]. by simplify_eq.
  - intros m Hok. pose proof Hok as []. pose proof (so_registered l lv Hlv Hd) as Hreg. destruct (so_live _ _ Hreg) as (lv1 & Hlv1 & Hid1 & Hm). simplify_eq.
    unfold live_hold in Hm. rewrite Hd in Hm. exists (Some (<[lv_id lv := Disposing (lv_runtime lv)]> m)). split; [by constructor|].
    assert (lv_id lv ∉ claims r) as Hnc.
    { intros Hx. apply NoDup_app in so_claims as (_ & Hdis & _). apply (Hdis _ Hx). apply keys_get. by rewrite Hreg. }
    assert (forall t id', t ∈ r -> claim_of t = Some id' -> lv_id lv <> id') as Hother.
    { intros t id' Hin Ht Heq. apply Hnc, list_elem_of_omap. exists t. by rewrite Heq. }
    constructor; cbn; try done.
    + intros id' [x Hx]. apply so_held. destruct (decide (lv_id lv = id')) as [<-|Hne]; [by eexists|]. rewrite lookup_insert_ne in Hx by done. by eexists.
    + intros id' q [|Hin]%elem_of_cons; [done|]. rewrite lookup_insert_ne by (by eapply Hother). by apply so_acquire.
    + intros id' rt q [|Hin]%elem_of_cons; [done|]. rewrite lookup_insert_ne by (by eapply Hother). by apply so_created.
    + intros id' rt q [|Hin]%elem_of_cons; [done|]. rewrite lookup_insert_ne by (by eapply Hother). by apply so_aborting.
    + intros id' l' Hg. destruct (so_live _ _ Hg) as (lv0 & Hl0 & Hid & Hx). rewrite list_lookup_alter. destruct (decide (l = l')) as [<-|Hne].
      * simplify_eq. exists (set_disposing p lv). rewrite Hlv. split_and!; try done. unfold live_hold. cbn. by rewrite lookup_insert_eq.
      * exists lv0. split_and!; [done|done|]. rewrite lookup_insert_ne; [done|]. intros Heq. congruence.
    + intros l' lv' (lv0 & Hl0 & ->)%Hinv Hd'. destruct (decide (l = l')); [done|]. by apply so_registered.
    + intros l' id' rt' [[= -> -> ->]|Hin]%elem_of_cons.
      * exists (set_disposing p lv). by rewrite list_lookup_alter_eq, Hlv.
      * destruct (so_disposing _ _ _ Hin) as (lv0 & Hl0 & Hd0 & Hid & Hrt & Hg). rewrite list_lookup_alter. destruct (decide (l = l')) as [->|]; [simplify_eq; by destruct Hd0|by exists lv0].
    + constructor; [|done]. intros Hx. apply list_elem_of_omap in Hx as (t & Hin & Ht). destruct t; try discriminate Ht. injection Ht as ->.
      destruct (so_disposing _ _ _ Hin) as (lv0 & Hl0 & Hd0 & _). by simplify_eq.
    + intros [|Hin]%elem_of_cons; done.
Qed.

Lemma get_delete_Some {V} id id' (m : list (jsstr * V)) v : JsMap.get id' (JsMap.delete id m) = Some v -> id' <> id /\ JsMap.get id' m = Some v.
Proof. rewrite JsMap.get_delete. by case_decide. Qed.

Lemma network_delete T n lives ls r id : network_ok T n lives ls r -> network_ok T n lives (JsMap.delete id ls) r.
Proof.
  intros Hok. pose proof Hok as []. eapply network_change; [done|done|done| |done| |].
  - intros c s Hs. exists s. split; [done|]. by eapply unchanged_connection.
  - intros id' l [_ Hg]%get_delete_Some. by apply no_registered.
  - intros id' l lv c s [_ Hg]%get_delete_Some Hl Hc Hs. destruct (no_agree id' l lv c Hg Hl Hc) as (s0 & Hs0 & Hin). by simplify_eq.
Qed.

Lemma keys_delete {V} id (m : list (jsstr * V)) : JsMap.keys (JsMap.delete id m) = filter (fun k => k <> id) (JsMap.keys m).
Proof.
  unfold JsMap.keys. induction m as [|[k v] m IH]; [done|]. cbn [JsMap.delete]. rewrite fmap_cons, filter_cons. cbn. rewrite <- IH.
  destruct (decide (id = k)) as [->|Hne]; [by rewrite decide_False by naive_solver|]. by rewrite decide_True by naive_solver.
Qed.

Lemma inv_disposed w l id rt r : Inv w (TDisposing l id rt :: r) -> Inv (forget_live l (emit (ODisposed id rt) w)) r.
Proof.
  intros Hi. unfold forget_live. set (w1 := emit _ w).
  assert (forall T, network_ok T (w_network w) (ss_lives (w_sessions w)) (ss_liveSessions (w_sessions w)) (TDisposing l id rt :: r) ->
    network_ok T (w_network w) (ss_lives (w_sessions w)) (JsMap.delete (live_id l w1) (ss_liveSessions (w_sessions w))) (TDisposing l id rt :: r)) as Hnet
    by (intros; by apply network_delete).
  eapply inv_locks; [..|exact Hi]; try done; try (by case_decide); [intros; by right|done|].
  intros m Hok. pose proof Hok as []. destruct (so_disposing l id rt ltac:(left)) as (lv & Hlv & Hd & Hid & Hrt & Hg).
  destruct (so_live _ _ Hg) as (lv1 & Hlv1 & _ & Hm). simplify_eq.
  assert (m !! lv_id lv = Some (Disposing (lv_runtime lv))) as Hm' by (unfold live_hold in Hm; by destruct (lv_disposing lv)).
  exists (Some (delete (lv_id lv) m)). split; [by constructor|].
  assert (live_id l w1 = lv_id lv) as Hlid by (unfold live_id, live_at; cbn; by rewrite Hlv). rewrite Hlid, decide_True by done.
  assert (lv_id lv ∉ claims r) as Hnc.
  { intros Hx. apply NoDup_app in so_claims as (_ & Hdis & _). apply (Hdis (lv_id lv) Hx). apply keys_get. by rewrite Hg. }
  assert (forall t id', t ∈ r -> claim_of t = Some id' -> lv_id lv <> id') as Hother.
  { intros t id' Hin Ht Heq. apply Hnc, list_elem_of_omap. exists t. by rewrite Heq. }
  constructor; cbn in *; try done.
  - change (NoDup (claims r ++ JsMap.keys (JsMap.delete (lv_id lv) (ss_liveSessions (w_sessions w))))). rewrite keys_delete. apply NoDup_app in so_claims as (H1 & H2 & H3). apply NoDup_app. split_and!; [done| |by apply NoDup_filter].
    intros x Hx [_ Hy]%list_elem_of_filter. by eapply H2.
  - intros id' [x Hx]. apply lookup_delete_Some in Hx as [Hne Hx]. specialize (so_held id' (mk_is_Some _ _ Hx)).
    change (id' ∈ claims r ++ JsMap.keys (JsMap.delete (lv_id lv) (ss_liveSessions (w_sessions w)))). rewrite keys_delete.
    apply elem_of_app in so_held as [?|?]; apply elem_of_app; [by left|right]. apply list_elem_of_filter. split; [congruence|done].
  - intros id' q Hin. rewrite lookup_delete_ne by (by eapply Hother). apply so_acquire. by right.
  - intros id' rt q Hin. rewrite lookup_delete_ne by (by eapply Hother). apply so_created. by right.
  - intros id' rt q Hin. rewrite lookup_delete_ne by (by eapply Hother). apply so_aborting. by right.
  - intros id' l' [Hne Hg']%get_delete_Some. destruct (so_live _ _ Hg') as (lv0 & Hl0 & Hid & Hx). exists lv0. split_and!; try done. by rewrite lookup_delete_ne.
  - intros l' lv' Hl' Hd'. specialize (so_registered _ _ Hl' Hd'). rewrite JsMap.get_delete, decide_False; [done|]. intros Heq. congruence.
  - intros l' id' rt' Hin. destruct (so_disposing l' id' rt' ltac:(by right)) as (lv0 & Hl0 & Hd0 & Hid & Hrt & Hg0). exists lv0. split_and!; try done.
    rewrite JsMap.get_delete, decide_False; [done|]. intros Heq. apply NoDup_cons in so_disposals as [Hnin _]. apply Hnin, list_elem_of_omap.
    exists (TDisposing l' id' rt'). split; [done|]. cbn. congruence.
  - by apply NoDup_cons in so_disposals as [_ ?].
  - intros Hin. apply so_over. by right.
Qed.

Lemma inv_sessions_closed w r : Inv w r -> Inv (emit OSessionsClosed (on_sessions (set_liveSessions []) w)) (TOver :: r).
Proof.
  intros Hi. eapply inv_locks; [..|exact Hi]; try done; [intros t Ht [->|Hin]%elem_of_cons; done| |].
  - intros T Hok. pose proof Hok as []. cbn. eapply network_change; [done|done|done| |done|done|done].
    intros c s Hs. exists s. split; [done|]. by eapply unchanged_connection.
  - intros m Hok. exists None. split; [constructor|done].
Qed.

(** Once the sessions are closed, nothing is promised of locks. *)
Lemma inv_over w o r : TOver ∈ r -> silent o -> Inv w r -> Inv (emit o w) r.
Proof.
  intros Hin Ho. intros Hi. eapply inv_locks; [..|exact Hi]; try done. intros m Hok. by destruct (so_over _ _ _ _ Hok).
Qed.

Lemma inv_over_again w r : TOver ∈ r -> Inv w r -> Inv w (TOver :: r).
Proof.
  intros Hin Hi. eapply inv_quiet_locks; [..|exact Hi]; try done; [intros t Ht [->|Hin']%elem_of_cons; done|]. intros m Hok. by destruct (so_over _ _ _ _ Hok).
Qed.

Lemma inv_over_forget w r : Inv w (TOver :: r) -> Inv w r.
Proof.
  intros Hi. eapply inv_quiet_locks; [..|exact Hi]; try done; [intros t Ht Hin'; by right|]. intros m Hok. destruct (so_over _ _ _ _ Hok). left.
Qed.
End steps.

(** * The operations *)

Section keeps.
Context `{Platform} `{Runtimes} (fuel : nat) (maxFrameLength : Z) (serverId : jsstr) (uuid : nat -> jsstr) (listeners : nat).
Abbreviation Inv := (ServerSpec.Inv fuel maxFrameLength).
Abbreviation quiet := (ServerLogic.quiet Inv).
Abbreviation sure := (ServerLogic.sure Inv).
Abbreviation spec := (ServerLogic.spec Inv).
Abbreviation wp := (ServerLogic.wp Inv).
Abbreviation good := (ServerLogic.good Inv).
Implicit Types (w : World) (r : tokens).

#[local] Notation perm := (Inv_perm fuel maxFrameLength).

(** ** Waiting *)

(** An answer that changes nothing. *)
Definition plain {A : Set} (q : wait A) : Prop := match q with WAcquire _ | WDispose _ _ => False | _ => True end.

Lemma arrive_plain {A : Set} (q : wait A) a v w w' : plain q -> arrive q a w = Some (v, w') -> w' = w.
Proof.
  intros Hq Ha. destruct q, a; cbn in *; try done; unfold unchanged in Ha;
    repeat match goal with H : context [match ?x with Some _ => _ | None => _ end] |- _ => destruct x; [|done] end; by injection Ha as _ <-.
Qed.

Lemma plain_inv {A : Set} (q : wait A) : plain q -> forall a v w w' r, arrive q a w = Some (v, w') -> Inv w r -> Inv w' r.
Proof. intros Hq a v w w' r Ha. by rewrite (arrive_plain q a v w w' Hq Ha). Qed.

Lemma sure_update o : silent o -> unlocked o -> sure (update o).
Proof. intros H1 H2. apply sure_modify. intros w r. by apply inv_emit. Qed.

(** A step on a part of the state that the invariant does not look at. *)
Lemma sure_same f :
  (forall w, w_network (f w) = w_network w /\ ss_lives (w_sessions (f w)) = ss_lives (w_sessions w) /\
     ss_liveSessions (w_sessions (f w)) = ss_liveSessions (w_sessions w) /\ ss_openingSessions (w_sessions (f w)) = ss_openingSessions (w_sessions w) /\
     pr_lives (w_promises (f w)) = pr_lives (w_promises w) /\ pr_sure (w_promises (f w)) = pr_sure (w_promises w) /\ w_trace (f w) = w_trace w) -> sure (modify f).
Proof. intros Hf. apply sure_modify. intros w r. destruct (Hf w) as (H1 & H2 & H3 & H4 & H5 & H6 & H7). by apply inv_same. Qed.

Lemma sure_promise_unit m : quiet m -> sure (promise_unit m).
Proof. apply sure_promise; [exact perm|intros w r; by apply inv_same|]. intros p v w r Hi. apply good_end. revert Hi. by apply inv_same. Qed.

Lemma sure_promise_snapshot m : quiet m -> sure (promise_snapshot m).
Proof. apply sure_promise; [exact perm|intros w r; by apply inv_same|]. intros p v w r Hi. apply good_end. revert Hi. by apply inv_same. Qed.

Lemma sure_promise_sure m : sure m -> sure (promise_sure m).
Proof.
  intros Hm. apply sure_intro. intros r f w Hi. eapply (wp_new_promise _ perm _ _ _ _ r); [|eauto].
  apply inv_new_sure in Hi. eapply (sure_use _ _ [TSure (length (pr_sure (w_promises w)))]); [done|exact Hi|].
  intros f' [] w' Hi'. apply good_end. by apply inv_settle_sure.
Qed.

(** ** Automation *)

Lemma quiet_await_plain {A : Set} (q : wait (outcome A)) : plain q -> quiet (await q).
Proof. intros Hq. apply quiet_await. by apply plain_inv. Qed.

Lemma sure_await_plain {A : Set} (q : wait A) : plain q -> sure (await_sure q).
Proof. intros Hq. apply sure_await_sure. by apply plain_inv. Qed.

Create HintDb server.

Ltac server_rule :=
  match goal with
  | |- ServerLogic.sure _ (mret _) => apply sure_ret
  | |- ServerLogic.sure _ (gets _) => apply sure_gets
  | |- ServerLogic.sure _ (awaiting _) => apply sure_awaiting
  | |- ServerLogic.sure _ (catch _ _) => apply sure_catch; [|intros ?]
  | |- ServerLogic.sure _ (spawn _) => apply (sure_spawn _ perm)
  | |- ServerLogic.sure _ (when _ _) => apply sure_when
  | |- ServerLogic.sure _ (for_each _ _) => apply sure_for_each; intros ?
  | |- ServerLogic.sure _ (collect _ _) => apply sure_collect; intros ?
  | |- ServerLogic.sure _ (promise_unit _) => apply sure_promise_unit
  | |- ServerLogic.sure _ (promise_sure _) => apply sure_promise_sure
  | |- ServerLogic.sure _ (promise_snapshot _) => apply sure_promise_snapshot
  | |- ServerLogic.sure _ (await_sure _) => apply sure_await_plain; exact I
  | |- ServerLogic.sure _ (update _) => apply sure_update; exact I
  | |- ServerLogic.sure _ (reportError _) => apply sure_update; exact I
  | |- ServerLogic.quiet _ (mret _) => apply quiet_ret
  | |- ServerLogic.quiet _ (throw _) => apply quiet_throw
  | |- ServerLogic.quiet _ (gets _) => apply quiet_gets
  | |- ServerLogic.quiet _ (awaiting _) => apply quiet_awaiting
  | |- ServerLogic.quiet _ (await _) => apply quiet_await_plain; exact I
  | |- ServerLogic.quiet _ (catch _ _) => apply quiet_catch; [|intros ?]
  | |- ServerLogic.quiet _ (finally _ _) => apply quiet_finally
  | |- ServerLogic.quiet _ (when _ _) => apply quiet_when
  | |- ServerLogic.quiet _ (for_each _ _) => apply quiet_for_each; intros ? _
  | |- ServerLogic.quiet _ (update _) => apply sure_quiet, sure_update; exact I
  | |- _ => solve [eauto with server]
  | |- ServerLogic.quiet _ (modify _) => solve [apply sure_quiet; eauto with server]
  | |- ServerLogic.quiet _ (spawn _) => apply sure_quiet
  | |- ServerLogic.quiet _ (promise_unit _) => apply sure_quiet
  | |- ServerLogic.quiet _ (promise_sure _) => apply sure_quiet
  | |- ServerLogic.quiet _ (promise_snapshot _) => apply sure_quiet
  | |- ServerLogic.quiet _ (collect _ _) => apply sure_quiet
  | |- ServerLogic.quiet _ (await_sure _) => apply sure_quiet
  | |- ServerLogic.quiet _ (reportError _) => apply sure_quiet
  | |- ServerLogic.sure _ (_ ≫= _) => apply sure_bind; [|intros ?]
  | |- ServerLogic.quiet _ (_ ≫= _) => apply quiet_bind; [|intros ?]
  | |- ServerLogic.sure _ (match ?x with _ => _ end) => destruct x
  | |- ServerLogic.quiet _ (match ?x with _ => _ end) => destruct x
  | |- ServerLogic.sure _ (let '(_, _) := ?x in _) => destruct x
  end.
Ltac server_rules := repeat server_rule.

(** ** The publisher, and what needs no connection *)

Lemma sure_publisher f : sure (modify (on_publisher f)).
Proof. by apply sure_same. Qed.
Lemma sure_lifetime f : sure (modify (on_lifetime f)).
Proof. by apply sure_same. Qed.
Lemma sure_unit_promises f : sure (modify (on_promises (fun ps => set_units (f ps) ps))).
Proof. by apply sure_same. Qed.
#[local] Hint Resolve sure_publisher sure_lifetime sure_unit_promises sure_quiet : server.

Lemma broadcast_sure : sure broadcast.
Proof. unfold broadcast. server_rules. Qed.
#[local] Hint Resolve broadcast_sure : server.

Lemma next_id_sure : sure (next_id uuid).
Proof. unfold next_id. server_rules. Qed.

Lemma normalizedSnapshot_quiet l : quiet (normalizedSnapshot l).
Proof. unfold normalizedSnapshot. server_rules. Qed.

Lemma unsubscribe_sure l : sure (unsubscribe l).
Proof. unfold unsubscribe. server_rules. Qed.
#[local] Hint Resolve next_id_sure normalizedSnapshot_quiet unsubscribe_sure : server.

Lemma listMetadata_quiet : quiet listMetadata.
Proof. unfold listMetadata. server_rules. Qed.
#[local] Hint Resolve listMetadata_quiet : server.

(** ** The end of a session *)

Lemma begin_dispose_keeps l r f w :
  keeps_running l w = false -> Inv w (r ++ f) -> wp f (begin_dispose l) (fun f v w => (exists p, v = Ok p) /\ Inv w (r ++ f)) w.
Proof.
  intros Hk Hi k Hpost. set (p := length (pr_units (w_promises w))). set (w0 := on_promises (fun ps => set_units (pr_units ps ++ [None]) ps) w).
  set (id := live_id l w0). set (rt := live_runtime l w0).
  set (w1 := alter_live (set_disposing p) l (emit (ODispose id rt) w0)).
  assert (Inv w1 (TDisposing l id rt :: r ++ f)) as Hi1.
  { apply inv_begin_dispose; [done|]. revert Hi. by apply inv_same. }
  change (good (let '(w, ts') := k (Ok p) w1 in (w, [Waiting (WDispose id rt) (fun v => modify (forget_live l) (fun v' => settle_unit p (match v' with Ok _ => v | Err e => Err e end)))] ++ ts')) f).
  assert (good (k (Ok p) w1) (concat [[TDisposing l id rt]] ++ f)) as Hg.
  { apply Hpost. split; [by eexists|]. revert Hi1. apply perm. cbn. by rewrite Permutation_middle. }
  destruct (k (Ok p) w1) as [w2 ts']. eapply (good_more _ perm); [|exact Hg]. constructor; [|done]. constructor.
  intros a v w3 w4 f' Ha Hi3. exists []. split; [|constructor]. destruct a as [| | | |a]; try discriminate Ha. cbn in Ha. injection Ha as <- <-.
  cbn. eapply inv_same; [..|eapply inv_disposed; exact Hi3]; done.
Qed.

Lemma maybeDispose_quiet l : quiet (maybeDispose l).
Proof.
  apply quiet_intro. intros r f w Hi. unfold maybeDispose. apply wp_bind, wp_gets. destruct (keeps_running l w) eqn:Hk.
  { eapply quiet_use; [|done|done]. server_rules. }
  apply wp_bind, wp_modify. apply wp_bind. eapply wp_mono; [|apply begin_dispose_keeps; [|by apply inv_emit]; done].
  intros f' v w' [[p ->] Hi']. eapply quiet_use; [|done|done]. server_rules.
Qed.
#[local] Hint Resolve maybeDispose_quiet : server.

Lemma scheduleMaybeDispose_sure l : sure (scheduleMaybeDispose l).
Proof. unfold scheduleMaybeDispose. server_rules. Qed.
#[local] Hint Resolve scheduleMaybeDispose_sure : server.

(** ** The end of a connection *)

Lemma drop_connection_network c sessions g w : drop_connection c sessions (on_network g w) = on_network g (drop_connection c sessions w).
Proof. unfold drop_connection. revert w. induction sessions as [|l sessions IH]; intros w; [done|]. cbn [foldl]. by rewrite <- IH. Qed.

Definition ended_connection (s : ServerConnection) : ServerConnection := clear_timeout (set_stage SClosed (set_disconnected s)).

(** The state that [disconnect] leaves when it first waits. *)
Definition disconnecting (c : nat) (w : World) : World :=
  drop_connection c (omap (fun id => liveSession id w) (sessionIds c w))
    (alter_connection (set_sessionIds []) c
      (on_network (fun n => set_connections (set_remove c (nw_connections n)) n) (alter_connection ended_connection c w))).

Lemma inv_disconnecting w c r : Inv w r -> Inv (disconnecting c w) r.
Proof.
  intros Hi. unfold disconnecting.
  apply (inv_disconnect _ _ w c (fun s => set_sessionIds [] (ended_connection s))) in Hi; [|done].
  apply (inv_connections _ _ _ (fun n => set_remove c (nw_connections n))) in Hi. revert Hi.
  unfold alter_connection. rewrite !drop_connection_network. unfold on_network. cbn. unfold set_connections, set_states. cbn.
  by rewrite (list_alter_alter_eq (set_sessionIds []) ended_connection).
Qed.

Lemma disconnecting_disconnected w c : is_Some (connection_at w c) -> disconnected c (disconnecting c w) = true.
Proof.
  intros [s Hs]. unfold disconnected, connection_at, disconnecting in *. destruct (drop_connection_same c (omap (fun id => liveSession id w) (sessionIds c w))
    (alter_connection (set_sessionIds []) c (on_network (fun n => set_connections (set_remove c (nw_connections n)) n) (alter_connection ended_connection c w)))) as [-> _].
  cbn. by rewrite !list_lookup_alter_eq, Hs.
Qed.

(** The tokens [before] are only worth [lost] when the connection has ended. *)
Lemma disconnect_spec c before lost :
  (forall w r, disconnected c w = true -> Inv w (before ++ r) -> Inv w (lost ++ r)) ->
  spec (fun _ => True) before (disconnect c) (fun v r => (exists a, v = Ok a) /\ r = lost).
Proof.
  intros Hdrop r0 f w _ Hi. unfold disconnect. apply wp_bind, wp_gets. destruct (disconnected c w) eqn:Hd.
  { apply wp_ret. exists lost. split; [eauto|]. by apply Hdrop. }
  apply wp_bind, wp_gets. do 2 apply wp_bind, wp_modify. apply wp_bind, wp_awaiting. unfold disconnect_sessions.
  apply wp_bind, wp_gets. do 2 apply wp_bind, wp_modify.
  match goal with |- context [foldl ?g ?a ?l] => assert (foldl g a l = disconnecting c w) as -> end.
  { unfold disconnecting, drop_connection. f_equal. unfold sessionIds, connection_at. cbn. rewrite list_lookup_alter_eq. by destruct (_ !! c). }
  assert (Inv (disconnecting c w) ((lost ++ r0) ++ f)) as Hi'.
  { rewrite <- app_assoc. apply Hdrop; [apply disconnecting_disconnected|by apply inv_disconnecting]. unfold disconnected in Hd. destruct (connection_at w c); [by eexists|done]. }
  eapply (sure_use _ _ (lost ++ r0)); [|exact Hi'|].
  { server_rules. }
  intros f' [] w' Hi''. exists (lost ++ r0). split; [done|]. intros f2 w2 Hi2. apply wp_bind, wp_gets.
  eapply (sure_use _ _ (lost ++ r0)); [|exact Hi2|]; [server_rules|]. intros f3 a w3 Hi3. exists lost. split; [eauto|by rewrite app_assoc].
Qed.

Lemma disconnect_sure c : sure (disconnect c).
Proof. by apply (disconnect_spec c [] []). Qed.
#[local] Hint Resolve disconnect_sure : server.

(** ** Sending *)

Definition final_encoded (final : option (ProtocolError * list Z)) : Prop :=
  forall e frame, final = Some (e, frame) -> encodeServerMessage fuel maxFrameLength (OutHelloError e) = Ok frame.

Lemma closeConnection_sure c final : final_encoded final -> sure (closeConnection c final).
Proof.
  intros Hf. unfold closeConnection. apply sure_catch; [|intros; server_rules].
  apply quiet_bind; [|intros []; server_rules]. apply sure_quiet, sure_modify. intros w r. by apply inv_close.
Qed.

Lemma closeConnection_none c : sure (closeConnection c None).
Proof. by apply closeConnection_sure. Qed.
#[local] Hint Resolve closeConnection_none : server.

Definition unsent (lost : tokens) (v : outcome bool) r : Prop := v = Ok false /\ r = lost.

Lemma message_failed_spec c e before lost :
  (forall w r, disconnected c w = true -> Inv w (before ++ r) -> Inv w (lost ++ r)) -> spec (fun _ => True) before (message_failed c e) (unsent lost).
Proof.
  intros Hdrop r0 f w _ Hi. rewrite app_assoc in Hi. unfold message_failed.
  apply wp_bind. eapply (sure_use _ _ (before ++ r0)); [server_rules|exact Hi|]. intros f1 [] w1 Hi1.
  apply wp_bind. eapply (sure_use _ _ (before ++ r0)); [server_rules|exact Hi1|]. intros f2 [] w2 Hi2. rewrite <- app_assoc in Hi2.
  apply wp_bind, wp_awaiting. eapply spec_use; [by apply disconnect_spec|done|exact Hi2|]. intros f3 v w3 r' [[[] ->] ->] Hi3.
  exists (lost ++ r0). split; [by rewrite <- app_assoc|]. intros f4 w4 Hi4. apply wp_ret. exists lost. split; [done|by rewrite app_assoc].
Qed.

(** A message exchanges the tokens [before] for [after]; when it is not sent [lost] is left. *)
Lemma sendMessage_spec c m before after lost :
  (forall frame w r, encodeServerMessage fuel maxFrameLength m = Ok frame -> Inv w (before ++ r) -> Inv (emit (OSend c m frame) w) (after ++ r)) ->
  (forall w r, disconnected c w = true \/ transport_closed c w = true -> Inv w (before ++ r) -> Inv w (lost ++ r)) ->
  (forall w r, Inv w (after ++ r) -> Inv w (lost ++ r)) ->
  spec (fun _ => True) before (sendMessage fuel maxFrameLength c m) (fun v r => (v = Ok true /\ r = after) \/ unsent lost v r).
Proof.
  intros Hsend Hlost Hdrop r0 f w _ Hi. unfold sendMessage. apply wp_bind, wp_gets. destruct (disconnected c w || transport_closed c w) eqn:Hg.
  { apply wp_ret. exists lost. split; [by right|]. apply orb_true_iff in Hg. by eapply Hlost. }
  destruct (encodeServerMessage fuel maxFrameLength m) as [frame|e] eqn:He.
  - apply wp_catch, wp_bind, wp_modify. apply (Hsend frame) in Hi; [|done].
    apply wp_bind. rewrite app_assoc in Hi. eapply quiet_use; [server_rules|exact Hi|]. intros f1 [[]|e] w1 Hi1; rewrite <- app_assoc in Hi1.
    + apply wp_ret. exists after. split; [by left|done].
    + eapply spec_use; [apply (message_failed_spec c e after lost)|done|exact Hi1|]; [eauto|]. intros f2 v w2 r' [-> ->] Hi2. exists lost. split; [by right|done].
  - eapply spec_use; [apply (message_failed_spec c _ before lost)|done|exact Hi|]; [eauto|]. intros f2 v w2 r' [-> ->] Hi2. exists lost. split; [by right|done].
Qed.

Lemma inv_forgets w (cs : list nat) r : Inv w (map TReady cs ++ r) -> Inv w r.
Proof. induction cs as [|c cs IH]; [done|]. intros Hi. by apply IH, (inv_forget _ _ _ c). Qed.

(** An event on a connection that was greeted. *)
Lemma send_event_message_spec c m :
  is_event m -> spec (fun _ => True) [TReady c] (sendMessage fuel maxFrameLength c m) (fun v r => (exists b, v = Ok b) /\ r = []).
Proof.
  intros Hm r0 f w _ Hi. eapply spec_use; [apply (sendMessage_spec c m [TReady c] [] [])|done|exact Hi|].
  - intros frame w' r He Hi'. apply (inv_forget _ _ _ c), inv_event; [done|done|left|done].
  - intros w' r _. apply inv_forget.
  - done.
  - intros f' v w' r' [[-> ->]|[-> ->]] Hi'; exists []; split; eauto.
Qed.

Lemma send_event_spec c m : is_event m -> spec (fun _ => True) [TReady c] (send_event fuel maxFrameLength m c) (fun v r => v = Ok () /\ r = []).
Proof.
  intros Hm r0 f w _ Hi. unfold send_event. eapply (wp_spawn _ perm f r0 r0); [|done|].
  - apply wp_bind. eapply (spec_use _ _ [TReady c] _ _ []); [by apply send_event_message_spec|done|exact Hi|].
    intros f' v w' r' [[b ->] ->] Hi'. by apply wp_ret.
  - intros f' w' Hi'. by exists [].
Qed.

(** Events for the connections of a session. *)
Lemma send_events_spec cs m : is_event m -> spec (fun _ => True) (map TReady cs) (for_each cs (send_event fuel maxFrameLength m)) (fun v r => v = Ok () /\ r = []).
Proof.
  intros Hm. induction cs as [|c cs IH]; intros r0 f w _ Hi; cbn [for_each]; [apply wp_ret; by exists []|].
  apply wp_bind. eapply (spec_use _ _ [TReady c] _ _ (map TReady cs ++ r0)); [by apply send_event_spec|done|by rewrite <- app_assoc|].
  intros f' v w' r' [-> ->] Hi'. eapply spec_use; [exact IH|done|by rewrite app_assoc|]. intros f2 v w2 r' [-> ->] Hi2. by exists [].
Qed.

Lemma inv_know_list w cs r : (forall c r, c ∈ cs -> Inv w r -> Inv w (TReady c :: r)) -> Inv w r -> Inv w (map TReady cs ++ r).
Proof.
  intros Hk Hi. induction cs as [|c cs IH]; [done|]. cbn. apply Hk; [left|]. apply IH. intros c' r' Hc. apply Hk. by right.
Qed.

Lemma send_to_session l m r f w Post :
  is_event m -> Inv w (r ++ f) -> (forall f w, Inv w (r ++ f) -> Post f (Ok ()) w) ->
  wp f (for_each (live_connections l w) (send_event fuel maxFrameLength m)) Post w.
Proof.
  intros Hm Hi Hpost. eapply (spec_use _ _ (map TReady (live_connections l w)) _ _ r); [by apply send_events_spec|done| |].
  - apply inv_know_list; [|done]. intros c r' Hc. by apply (inv_know_attached _ _ _ _ l).
  - intros f' v w' r' [-> ->] Hi'. by apply Hpost.
Qed.

Lemma broadcastSnapshot_quiet l : quiet (broadcastSnapshot fuel maxFrameLength l).
Proof.
  unfold broadcastSnapshot. apply quiet_bind; [server_rules|]. intros snapshot. apply quiet_intro. intros r f w Hi.
  apply wp_bind, wp_gets, wp_bind. apply (send_to_session _ _ r); [done|done|]. intros f' w' Hi'. by apply wp_ret.
Qed.
#[local] Hint Resolve broadcastSnapshot_quiet : server.

Lemma current_snapshot_quiet models : quiet (current_snapshot serverId models).
Proof. unfold current_snapshot, listModels. server_rules. Qed.
#[local] Hint Resolve current_snapshot_quiet : server.

(** A computation that exchanges its tokens for others in the end, and one that loses them. *)
Definition turns {A} r r1 (m : async A) : Prop := spec (fun _ => True) r m (fun _ r' => r' = r1).
Definition spends {A} r (m : async A) : Prop := turns r [] m.

Lemma turns_use {A} r r1 (m : async A) r0 f w Post :
  turns r r1 m -> Inv w (r ++ r0 ++ f) -> (forall f v w, Inv w (r1 ++ r0 ++ f) -> Post f v w) -> wp f m Post w.
Proof. intros Hm Hi Hpost. eapply (spec_use _ _ r _ _ r0); [exact Hm|done|exact Hi|]. intros f' v w' r' ->. apply Hpost. Qed.

Lemma turns_quiet {A} r r1 (m : async A) : (forall w r', Inv w (r ++ r') -> Inv w (r1 ++ r')) -> quiet m -> turns r r1 m.
Proof.
  intros Hdrop Hm r0 f w _ Hi. rewrite app_assoc in Hi. eapply quiet_use; [done|exact Hi|]. intros f' v w' Hi'.
  rewrite <- app_assoc in Hi'. exists r1. split; [done|]. by apply Hdrop.
Qed.

Lemma turns_bind {A B} r r1 (m : async A) (g : A -> async B) :
  (forall w r', Inv w (r ++ r') -> Inv w (r1 ++ r')) -> quiet m -> (forall a, turns r r1 (g a)) -> turns r r1 (m ≫= g).
Proof.
  intros Hdrop Hm Hg r0 f w _ Hi. rewrite app_assoc in Hi. apply wp_bind. eapply quiet_use; [done|exact Hi|].
  intros f' [a|e] w' Hi'; rewrite <- app_assoc in Hi'; [by apply Hg|]. exists r1. split; [done|]. by apply Hdrop.
Qed.

Lemma spends_use {A} r (m : async A) r0 f w Post :
  spends r m -> Inv w (r ++ r0 ++ f) -> (forall f v w, Inv w (r0 ++ f) -> Post f v w) -> wp f m Post w.
Proof. exact (turns_use r [] m r0 f w Post). Qed.

Lemma spends_quiet {A} r (m : async A) : (forall w r', Inv w (r ++ r') -> Inv w r') -> quiet m -> spends r m.
Proof. exact (turns_quiet r [] m). Qed.

Lemma spends_bind {A B} r (m : async A) (g : A -> async B) :
  (forall w r', Inv w (r ++ r') -> Inv w r') -> quiet m -> (forall a, spends r (g a)) -> spends r (m ≫= g).
Proof. exact (turns_bind r [] m g). Qed.

(** An event for connections that were greeted, one after the other. *)
Lemma send_snapshots_spends cs m : is_event m -> spends (map TReady cs) (for_each cs (fun c => awaiting (sendMessage fuel maxFrameLength c m);; mret ())).
Proof.
  intros Hm. induction cs as [|c cs IH]; intros r0 f w _ Hi; cbn [for_each]; [apply wp_ret; by exists []|].
  apply wp_bind, wp_bind, wp_awaiting. eapply (spec_use _ _ [TReady c] _ _ (map TReady cs ++ r0)); [by apply send_event_message_spec|done|by rewrite <- app_assoc|].
  intros f' v w' r' [[b ->] ->] Hi'. eexists. split; [exact Hi'|]. intros f2 w2 Hi2. apply wp_ret. apply IH; [done|]. by rewrite app_assoc.
Qed.

Lemma performBroadcast_quiet : quiet (performBroadcast fuel maxFrameLength serverId).
Proof.
  apply quiet_intro. intros r f w Hi. unfold performBroadcast. do 2 apply wp_bind, wp_gets. destruct (_ || _); [by apply wp_ret|].
  set (cs := ready_connections w). assert (Inv w (map TReady cs ++ r ++ f)) as Hi1.
  { apply inv_know_list; [|done]. intros c r' Hc. unfold cs, ready_connections in Hc. apply list_elem_of_filter in Hc as [[Hs _] _]. by apply inv_know_ready. }
  eapply (spends_use (map TReady cs)); [|exact Hi1|done].
  do 4 (apply spends_bind; [intros w' r'; apply inv_forgets|unfold listModels; server_rules|intros ?]).
  destruct a2. by apply send_snapshots_spends.
Qed.
#[local] Hint Resolve performBroadcast_quiet : server.

(** ** Opening a session *)

Lemma aborting_spec id rt p : spec (fun _ => True) [TAborting id rt p] (await (WDispose id rt)) (fun _ r => r = [TOwner p]).
Proof.
  intros r0 f w _ Hi. eapply (wp_await _ f (TAborting id rt p :: r0)); [exact Hi|]. intros f' a v w1 w2 Ha Hi1. destruct a as [| | | |a]; try discriminate Ha.
  cbn in Ha. injection Ha as <- <-. exists [TOwner p]. split; [done|]. by eapply inv_aborted.
Qed.

Lemma dispose_failed_spec id rt p e : spec (fun _ => True) [TCreated id rt p] (dispose_failed id rt e) (fun _ r => r = [TOwner p]).
Proof.
  intros r0 f w _ Hi. unfold dispose_failed. apply wp_bind, wp_catch, wp_bind, wp_modify. apply inv_abort in Hi.
  eapply (spec_use _ _ [TAborting id rt p]); [apply aborting_spec|done|exact Hi|]. intros f1 [[]|e'] w1 r' -> Hi1.
  - apply wp_throw. by exists [TOwner p].
  - apply wp_modify, wp_throw. exists [TOwner p]. split; [done|]. by apply inv_emit.
Qed.

Lemma create_live_spec id rt p : spec (fun _ => True) [TCreated id rt p] (create_live id rt) (fun _ r => r = [TOwner p]).
Proof.
  intros r0 f w _ Hi. unfold create_live. apply wp_bind, wp_gets. destruct (closing w).
  { apply wp_bind, wp_modify, wp_bind. apply inv_abort in Hi.
    eapply (spec_use _ _ [TAborting id rt p]); [apply aborting_spec|done|exact Hi|]. intros f1 [[]|e'] w1 r' -> Hi1; [apply wp_throw|]; by exists [TOwner p]. }
  apply wp_catch, wp_bind, wp_modify, wp_bind. apply (inv_emit _ _ _ (OSnapshot id rt)) in Hi; [|done|done].
  eapply (quiet_use _ _ (TCreated id rt p :: r0)); [server_rules|exact Hi|]. intros f1 [snapshot|e] w1 Hi1; cbn beta iota; [|by apply dispose_failed_spec].
  destruct (decide _); [|apply wp_throw; by apply dispose_failed_spec].
  unfold subscribe. apply wp_bind, wp_bind, wp_modify. apply (inv_subscribe _ _ _ id rt p) in Hi1; [|left].
  destruct (subscribe_error rt); [apply wp_throw; by apply dispose_failed_spec|]. apply wp_ret, wp_bind, wp_gets, wp_bind, wp_modify, wp_ret.
  exists [TOwner p]. split; [done|]. by eapply inv_register.
Qed.

(** What follows the answer of the service in [create]. *)
Definition created (id : jsstr) (p : nat) (r : outcome nat) : step :=
  match r with Ok rt => create_live id rt (settle_live p) | Err e => settle_live p (Err e) end.

Lemma acquiring_safe id p : safe Inv [TAcquire id p] (Waiting (WAcquire id) (created id p)).
Proof.
  constructor. intros a v w w' f Ha Hi. change (good (created id p v w') f).
  destruct a as [| | | |[[]|e]]; try discriminate Ha; cbn in Ha; injection Ha as <- <-.
  - apply inv_acquired in Hi. eapply (create_live_spec _ _ _ [] f); [done|exact Hi|]. intros f' v w2 (r' & -> & Hi2).
    apply good_end. by eapply inv_settle_live.
  - apply inv_acquire_failed in Hi. apply good_end. by eapply inv_settle_live.
Qed.

Lemma open_session_keeps id options r f w :
  liveSession id w = None -> openingSession id w = None -> Inv w (r ++ f) -> wp f (open_session id options) (fun f _ w => Inv w (r ++ f)) w.
Proof.
  intros Hl Ho Hi k Hpost. set (p := length (pr_lives (w_promises w))).
  apply (inv_acquire _ _ _ id options) in Hi as Hi1; [|done|done]. cbv zeta in Hi1. fold p in Hi1.
  match type of Hi1 with ServerSpec.Inv _ _ ?w' _ => set (w1 := w') in * end.
  set (rest := finally (await (WLive p)) (modify (fun w => if decide (openingSession id w = Some p)
       then on_sessions (fun s => set_openingSessions (JsMap.delete id (ss_openingSessions s)) s) w else w))).
  change (good (let '(w, ts') := rest k w1 in (w, [Waiting (WAcquire id) (created id p)] ++ ts')) f).
  assert (good (rest k w1) (concat [[TAcquire id p]] ++ f)) as Hg.
  { assert (wp (TAcquire id p :: f) rest (fun f _ w => Inv w (r ++ f)) w1) as Hr; [|by apply Hr].
    apply wp_finally. eapply (wp_await _ _ r); [revert Hi1; apply perm; by rewrite Permutation_middle|].
    intros f' a v w2 w3 Ha Hi3. apply wp_modify. destruct a; try discriminate Ha. cbn in Ha. unfold unchanged in Ha.
    destruct (settled _ p) as [x|] eqn:Hs; [|done]. injection Ha as <- <-. by eapply inv_opening_end. }
  destruct (rest k w1) as [w2 ts']. eapply (good_more _ perm); [|exact Hg]. constructor; [apply acquiring_safe|done].
Qed.

Lemma acquire_quiet id options : quiet (acquire id options).
Proof.
  apply quiet_intro. intros r f w Hi. unfold acquire. eapply (wp_forever _ _ r); [exact Hi| |done]. clear w f Hi. intros w f Hi.
  destruct (liveSession id w) as [l|] eqn:Hl.
  - destruct (live_terminal l w); [by apply wp_throw|]. destruct (live_disposing l w); [done|by apply wp_ret].
  - destruct (openingSession id w) as [p|] eqn:Ho; [|by apply open_session_keeps].
    eapply quiet_use; [|exact Hi|done]. server_rules.
Qed.
#[local] Hint Resolve acquire_quiet : server.

(** ** Commands *)

Lemma attach_quiet c l : quiet (attach c l).
Proof.
  apply quiet_intro. intros r f w Hi. unfold attach. apply wp_bind, wp_gets. destruct (is_closed c w) eqn:Hc.
  - eapply quiet_use; [|exact Hi|done]. server_rules.
  - apply wp_bind, wp_gets, wp_bind, wp_modify, wp_modify. by apply inv_attach.
Qed.

Lemma open_and_attach_quiet c id options : quiet (open_and_attach fuel maxFrameLength c id options).
Proof. pose proof (attach_quiet c). unfold open_and_attach. server_rules. Qed.
#[local] Hint Resolve open_and_attach_quiet : server.

Lemma detach_quiet c id : quiet (detach fuel maxFrameLength c id).
Proof.
  apply quiet_intro. intros r f w Hi. unfold detach. apply wp_bind, wp_gets, wp_bind, wp_gets. destruct (bool_decide _); [|by apply wp_ret].
  apply wp_bind, wp_modify. apply (inv_detach _ _ _ c id) in Hi. cbv zeta in Hi. destruct (liveSession id w) as [l|].
  - apply wp_bind, wp_bind, wp_modify. eapply quiet_use; [|exact Hi|].
    { server_rules. }
    intros f1 [[]|e] w1 Hi1; [|done]. eapply quiet_use; [|exact Hi1|done]. server_rules.
  - apply wp_bind, wp_ret. eapply quiet_use; [|exact Hi|done]. server_rules.
Qed.
#[local] Hint Resolve detach_quiet : server.

Lemma sure_add_operations n l : sure (modify (alter_live (add_operations n) l)).
Proof. apply sure_modify. intros w r. by apply inv_alter_live. Qed.
#[local] Hint Resolve sure_add_operations : server.

Lemma runOperation_keeps c l id op r f w :
  liveSession id w = Some l -> live_disposing l w = None -> Inv w (r ++ f) -> wp f (runOperation fuel maxFrameLength c l op) (fun f _ w => Inv w (r ++ f)) w.
Proof.
  intros Hl Hd Hi. unfold runOperation. apply wp_bind, wp_modify, wp_finally, wp_bind, wp_gets, wp_bind, wp_gets, wp_bind, wp_modify.
  set (w1 := alter_live _ l w). eapply quiet_use; [server_rules|eapply (inv_operation _ _ w1 id l op)|]; [done| |by apply inv_alter_live|].
  - unfold live_disposing, live_at, w1 in *. cbn. rewrite list_lookup_alter_eq. by destruct (_ !! l).
  - intros f' v w' Hi'. eapply sure_use; [|exact Hi'|done]. server_rules.
Qed.

Lemma operate_quiet c name id op : quiet (operate fuel maxFrameLength c name id op).
Proof.
  apply quiet_intro. intros r f w Hi. unfold operate, requireAttached. apply wp_bind, wp_bind, wp_gets. destruct (bool_decide _); [|by apply wp_throw].
  apply wp_bind, wp_gets. destruct (liveSession id w) as [l|] eqn:Hl; [|by apply wp_throw]. cbn [mbind option_bind].
  destruct (live_terminal l w || _) eqn:Ht; [by apply wp_throw|]. apply orb_false_iff in Ht as [_ Ht]. apply bool_decide_eq_false, eq_None_not_Some in Ht.
  apply wp_ret, wp_bind, wp_awaiting. eapply wp_mono; [|by eapply (runOperation_keeps _ _ _ _ r)]. intros f' v w' Hi'. exists r. split; [done|].
  intros f2 w2 Hi2. destruct v; [by apply wp_ret|done].
Qed.
#[local] Hint Resolve operate_quiet : server.

Lemma executeCommand_quiet c command : quiet (executeCommand fuel maxFrameLength uuid c command).
Proof. unfold executeCommand. server_rules. Qed.
#[local] Hint Resolve executeCommand_quiet : server.

(** ** Events of runtimes, and the end of the sessions *)

Lemma sure_set_terminal l : sure (modify (alter_live set_terminal l)).
Proof. apply sure_modify. intros w r. by apply inv_alter_live. Qed.
#[local] Hint Resolve sure_set_terminal : server.

Lemma terminate_quiet l e : quiet (terminate l e).
Proof. unfold terminate. server_rules. Qed.
#[local] Hint Resolve terminate_quiet : server.

Lemma handleRuntimeEvent_sure l e : sure (handleRuntimeEvent fuel maxFrameLength l e).
Proof.
  destruct e as [|progress|e]; unfold handleRuntimeEvent; [server_rules| |server_rules].
  apply sure_intro. intros r f w Hi. apply wp_bind, wp_gets, wp_bind, wp_gets, wp_bind. apply (send_to_session _ _ r); [done|done|].
  intros f' w' Hi'. eapply sure_use; [|exact Hi'|eauto]. server_rules.
Qed.
#[local] Hint Resolve handleRuntimeEvent_sure : server.

(** Each call of [close] of a session knows that the sessions are closed. *)
Lemma close_live_spends l : spends [TOver] (close_live l).
Proof.
  assert (forall w r, Inv w ([TOver] ++ r) -> Inv w r) as Hdrop by (intros w r; by apply inv_over_forget).
  unfold close_live. apply spends_bind; [done|server_rules|]. intros [p|]; [apply spends_quiet; [done|server_rules]|].
  do 3 (apply spends_bind; [done|server_rules|intros ?]). intros r0 f w _ Hi. apply wp_bind, wp_modify. apply (inv_over _ _ _ (ODispose a0 a1)) in Hi; [|left|done].
  eapply (wp_await _ _ (TOver :: r0)); [exact Hi|]. intros f' x v w1 w2 Ha Hi1. destruct x as [| | | |x]; try discriminate Ha.
  cbn in Ha. injection Ha as <- <-. exists []. split; [done|]. apply inv_over_forget, inv_over; [left|done|done].
Qed.

Lemma close_lives_spec ls : spec (fun _ => True) [TOver] (collect ls (fun l => promise_unit (close_live l))) (fun _ r => r = [TOver]).
Proof.
  induction ls as [|l ls IH]; intros r0 f w _ Hi; cbn [collect]; [apply wp_ret; by exists [TOver]|].
  apply wp_bind. eapply (wp_new_promise _ perm _ _ _ _ (TOver :: r0)).
  - eapply (spends_use [TOver] _ []); [apply close_live_spends| |].
    + apply inv_over_again; [left|]. revert Hi. by apply inv_same.
    + intros f' v w' Hi'. apply good_end. revert Hi'. by apply inv_same.
  - intros f' w' Hi'. apply wp_bind. eapply spec_use; [exact IH|done|exact Hi'|]. intros f2 [ps|e] w2 r' -> Hi2; [apply wp_ret|]; by exists [TOver].
Qed.

Lemma close_sessions_quiet : quiet close_sessions.
Proof.
  unfold close_sessions. do 4 (apply quiet_bind; [server_rules|intros ?]). apply quiet_intro. intros r f w Hi.
  apply wp_bind, wp_modify, wp_bind. apply inv_sessions_closed in Hi.
  eapply (spec_use _ _ [TOver]); [apply close_lives_spec|done|exact Hi|]. intros f1 [ps|e] w1 r' -> Hi1; apply inv_over_forget in Hi1; [|done].
  eapply quiet_use; [|exact Hi1|done]. server_rules.
Qed.
#[local] Hint Resolve close_sessions_quiet : server.

(** ** Requests *)

Lemma toProtocolError_sure e : sure (toProtocolError e).
Proof. destruct e as [[]| |[]|]; unfold toProtocolError; server_rules. Qed.
#[local] Hint Resolve toProtocolError_sure : server.

Lemma sure_alter_connection f c :
  (forall s, sc_sessionIds (f s) = sc_sessionIds s /\ sc_disconnected (f s) = sc_disconnected s /\ sc_handshake (f s) = sc_handshake s /\
     (sc_stage (f s) = sc_stage s \/ sc_stage (f s) = SClosing)) -> sure (modify (alter_connection f c)).
Proof. intros Hf. apply sure_modify. intros w r. by apply inv_alter_connection. Qed.

Lemma sure_stage_closing c : sure (modify (alter_connection (fun s => clear_timeout (set_stage SClosing s)) c)).
Proof. apply sure_alter_connection. intros s. split_and!; [done..|by right]. Qed.

Lemma sure_set_decoder d c : sure (modify (alter_connection (set_message_decoder d) c)).
Proof. apply sure_alter_connection. intros s. split_and!; [done..|by left]. Qed.

Lemma sure_clear_timeout c : sure (modify (alter_connection clear_timeout c)).
Proof. apply sure_alter_connection. intros s. split_and!; [done..|by left]. Qed.
#[local] Hint Resolve sure_stage_closing sure_set_decoder sure_clear_timeout : server.

Lemma fail_sure c error : sure
  (final ← match encodeServerMessage fuel maxFrameLength (OutHelloError error) with
           | Ok frame => mret (Some (error, frame))
           | Err e => reportError (InvalidMessage e);; mret None
           end;
   awaiting (closeConnection c final);;
   awaiting (disconnect c)).
Proof.
  apply sure_intro. intros r f w Hi. apply wp_bind.
  assert (forall final w, final_encoded final -> Inv w (r ++ f) ->
    wp f (awaiting (closeConnection c final);; awaiting (disconnect c)) (fun f v w => (exists a, v = Ok a) /\ Inv w (r ++ f)) w) as Hend.
  { clear w Hi. intros final w Hf Hi. eapply sure_use; [|exact Hi|eauto]. apply sure_bind; [by apply sure_awaiting, closeConnection_sure|]. intros []. server_rules. }
  destruct (encodeServerMessage _ _ _) as [frame|e] eqn:He.
  - apply wp_ret, Hend; [|done]. by intros e frame' [= <- <-].
  - apply wp_bind, wp_modify, wp_ret, Hend; [done|by apply inv_emit].
Qed.

Lemma failProtocol_sure c error : sure (failProtocol fuel maxFrameLength c error).
Proof.
  unfold failProtocol. apply sure_bind; [server_rules|]. intros []; [server_rules|]. apply sure_bind; [server_rules|]. intros _. apply fail_sure.
Qed.
#[local] Hint Resolve failProtocol_sure : server.

(** The first message is a request. *)
Lemma fail_first_keeps c id error r f w :
  stage c w = SAwaitingHello -> disconnected c w = false -> Inv w (TRead c id :: r ++ f) ->
  wp f (failProtocol fuel maxFrameLength c error) (fun f v w => (exists a, v = Ok a) /\ Inv w (r ++ f)) w.
Proof.
  intros Hs Hd Hi. unfold failProtocol. apply wp_bind, wp_gets. rewrite Hs, Hd. cbn [orb bool_decide]. apply wp_bind, wp_modify.
  set (w1 := alter_connection _ c w). assert (Inv w1 (r ++ f)) as Hi1.
  { apply (inv_lose_first _ _ w1 c id).
    - unfold w1, connection_at. cbn. intros s'. rewrite list_lookup_alter_eq. intros (s & Hc & ->)%fmap_Some. split; [done|]. cbn.
      unfold stage, connection_at in Hs. rewrite Hc in Hs. destruct (inv_facts _ _ _ _ Hi) as (T & Hok). by apply (qo_awaiting _ _ _ _ Hok c s).
    - apply inv_alter_connection; [|exact Hi]. intros s. split_and!; [done..|by right]. }
  eapply sure_use; [apply fail_sure|exact Hi1|]. eauto.
Qed.

Lemma respond_spec c id result :
  spec (fun _ => True) [TRequest c id] (awaiting (sendMessage fuel maxFrameLength c (OutResponse id result));; mret ()) (fun v r => v = Ok () /\ r = []).
Proof.
  intros r0 f w _ Hi. apply wp_bind, wp_awaiting. eapply spec_use; [apply (sendMessage_spec c (OutResponse id result) [TRequest c id] [] [])|done|exact Hi|].
  - intros frame w' r He. by apply inv_response.
  - intros w' r. apply inv_unanswered.
  - done.
  - intros f' v w' r' Hv Hi'. assert (r' = [] /\ exists b, v = Ok b) as [-> [b ->]] by (destruct Hv as [[-> ->]|[-> ->]]; eauto).
    exists r0. split; [done|]. intros f2 w2 Hi2. apply wp_ret. by exists [].
Qed.

Lemma handleRequest_keeps c id request r f w :
  stage c w = SReady -> Inv w (TRead c id :: r ++ f) ->
  wp f (handleRequest fuel maxFrameLength uuid c id request) (fun f v w => v = Ok () /\ Inv w (r ++ f)) w.
Proof.
  intros Hs Hi. unfold handleRequest. apply wp_bind, wp_modify. apply inv_request in Hi; [|done].
  apply wp_catch, wp_bind. eapply (quiet_use _ _ (TRequest c id :: r)); [server_rules|exact Hi|]. intros f1 [result|e] w1 Hi1; cbn beta iota.
  - eapply (spec_use _ _ [TRequest c id] _ _ r); [by apply respond_spec|done|exact Hi1|]. by intros f2 v w2 r' [-> ->] Hi2.
  - apply wp_bind. eapply (sure_use _ _ (TRequest c id :: r)); [server_rules|exact Hi1|]. intros f2 error w2 Hi2.
    eapply (spec_use _ _ [TRequest c id] _ _ r); [by apply respond_spec|done|exact Hi2|]. by intros f3 v w3 r' [-> ->] Hi3.
Qed.

(** A request is handled apart. *)
Lemma spawn_request c id request r f w :
  stage c w = SReady -> Inv w (TRead c id :: r ++ f) ->
  wp f (spawn (handleRequest fuel maxFrameLength uuid c id request)) (fun f v w => (exists a, v = Ok a) /\ Inv w (r ++ f)) w.
Proof. intros Hs Hi. eapply (wp_spawn _ perm f r r); [|done|eauto]. by apply (handleRequest_keeps _ _ _ []). Qed.

(** ** The handshake *)

Lemma hello_spec c p id snapshot :
  spec (fun _ => True) [TShake c p] (sendMessage fuel maxFrameLength c (OutHello id snapshot))
    (fun v r => (v = Ok true /\ r = [TReady c; TGreet c p]) \/ unsent [TSure p] v r).
Proof.
  apply sendMessage_spec.
  - intros frame w r He. by apply inv_hello.
  - intros w r _. apply inv_shake_end.
  - intros w r Hi. apply (inv_greet_end _ _ _ c), (inv_forget _ _ _ c). exact Hi.
Qed.

Lemma finishHandshake_turns c p version : turns [TShake c p] [TSure p] (finishHandshake fuel maxFrameLength serverId c version).
Proof.
  assert (forall w r, Inv w ([TShake c p] ++ r) -> Inv w ([TSure p] ++ r)) as Hdrop by (intros w r; apply inv_shake_end).
  assert (forall w r, Inv w (TReady c :: TGreet c p :: r) -> Inv w (TReady c :: TSure p :: r)) as Hend.
  { intros w r Hi. apply (perm _ (TSure p :: TReady c :: r)); [apply perm_swap|]. apply (inv_greet_end _ _ _ c). revert Hi. apply perm, perm_swap. }
  unfold finishHandshake. destruct (negb _); [apply turns_quiet; [done|server_rules]|].
  apply turns_bind; [done|server_rules|]. intros [revision snapshot]. apply turns_bind; [done|server_rules|]. intros []; [apply turns_quiet; [done|server_rules]|].
  apply turns_bind; [done|server_rules|]. intros id r0 f w _ Hi. apply wp_bind, wp_awaiting.
  eapply (spec_use _ _ [TShake c p] _ _ r0); [by apply hello_spec|done|exact Hi|]. intros f1 v w1 r' Hv Hi1. exists (r' ++ r0). split; [by rewrite <- app_assoc|].
  intros f2 w2 Hi2. rewrite <- app_assoc in Hi2. destruct Hv as [[-> ->]|[-> ->]]; [|apply wp_bind, wp_gets, wp_ret; by exists [TSure p]].
  cbn [app] in Hi2. apply wp_bind, wp_gets. destruct (true && _ && _) eqn:Hg.
  2: { apply wp_ret. exists [TSure p]. split; [done|]. by apply (inv_forget _ _ _ c), Hend. }
  apply andb_true_iff in Hg as [[_ Hg%negb_true_iff]%andb_true_iff _]. apply wp_bind, wp_modify. apply inv_stage_ready in Hi2; [|done]. apply Hend in Hi2.
  eapply (spends_use [TReady c] _ (TSure p :: r0)); [|exact Hi2|by exists [TSure p]].
  assert (forall w r, Inv w ([TReady c] ++ r) -> Inv w r) as Hdrop' by (intros w' r; apply inv_forget).
  apply spends_bind; [done|server_rules|]. intros current. unfold when. destruct (negb current); [|apply spends_quiet; [done|server_rules]].
  apply spends_bind; [done|server_rules|]. intros [r s]. exact (send_snapshots_spends [c] (OutServerSnapshot s) I).
Qed.

Abbreviation handshake_of c version :=
  (catch (finishHandshake fuel maxFrameLength serverId c version) (fun e => error ← toProtocolError e; failProtocol fuel maxFrameLength c error)).

(** Until it waits, a handshake neither reads nor sets the field with its promise. *)
Lemma handshake_commutes p c version k w :
  handshake_of c version k (alter_connection (set_handshake p) c w) =
  (let '(w', ts) := handshake_of c version k w in (alter_connection (set_handshake p) c w', ts)).
Proof.
  unfold finishHandshake. destruct (negb _); [|reflexivity].
  assert (forall f, alter_connection f c (alter_connection (set_handshake p) c w) = alter_connection (fun s => f (set_handshake p s)) c w) as Hf.
  { intros f. unfold alter_connection, on_network. cbn. unfold set_states. cbn. by rewrite (list_alter_alter_eq f (set_handshake p)). }
  unfold failProtocol, catch, awaiting, mbind, async_bind, gets.
  assert (disconnected c (alter_connection (set_handshake p) c w) = disconnected c w /\ stage c (alter_connection (set_handshake p) c w) = stage c w) as [-> ->].
  { unfold disconnected, stage, connection_at. cbn. rewrite list_lookup_alter_eq. by destruct (_ !! c). }
  destruct (disconnected c w || _ || _); [reflexivity|]. unfold modify. rewrite Hf.
  assert (forall f, alter_connection (set_handshake p) c (alter_connection f c w) = alter_connection (fun s => set_handshake p (f s)) c w) as Hf'.
  { intros f. unfold alter_connection, on_network. cbn. unfold set_states. cbn. by rewrite (list_alter_alter_eq (set_handshake p) f). }
  destruct (encodeServerMessage _ _ _) as [frame|e]; unfold mret, async_ret, closeConnection, reportError, update, catch, awaiting, mbind, async_bind, modify, await.
  - f_equal. change (emit (OClose c (Some (version_error version, frame))) ?x) with (emit (OClose c (Some (version_error version, frame))) x).
    change (alter_connection (set_handshake p) c (emit ?o ?x)) with (emit o (alter_connection (set_handshake p) c x)). by rewrite Hf'.
  - f_equal. change (alter_connection (set_handshake p) c (emit ?o (emit ?o' ?x))) with (emit o (emit o' (alter_connection (set_handshake p) c x))). by rewrite Hf'.
Qed.

(** A handshake that throws fails the protocol. *)
Lemma handshake_keeps c version r f w :
  stage c w = SAwaitingHello -> Inv w (r ++ f) ->
  wp f (modify (alter_connection (set_stage SHandshaking) c);;
        handshake ← promise_sure (handshake_of c version);
        modify (alter_connection (set_handshake handshake) c)) (fun f v w => (exists a, v = Ok a) /\ Inv w (r ++ f)) w.
Proof.
  intros Hs Hi k Hk. apply (inv_begin_handshake _ _ _ c) in Hi; [|done]. cbv zeta in Hi. set (p := length (pr_sure (w_promises w))) in *.
  set (w0 := on_promises (fun ps => set_sure (pr_sure ps ++ [None]) ps) (alter_connection (set_stage SHandshaking) c w)).
  change (good (let '(w2, ts) := handshake_of c version (settle_sure p) w0 in
    let '(w3, ts') := k (Ok ()) (alter_connection (set_handshake p) c w2) in (w3, ts ++ ts')) f).
  assert (alter_connection (set_handshake p) c w0 =
    on_network (fun n => set_states (alter (shaking p) c (nw_states n)) n) (on_promises (fun ps => set_sure (pr_sure ps ++ [None]) ps) w)) as Hw0.
  { unfold w0, alter_connection, on_network, on_promises. cbn. unfold set_states. cbn. by rewrite (list_alter_alter_eq (set_handshake p) (set_stage SHandshaking)). }
  rewrite <- Hw0 in Hi. assert (good (handshake_of c version (settle_sure p) (alter_connection (set_handshake p) c w0)) (r ++ f)) as Hg.
  { assert (wp (r ++ f) (handshake_of c version) (fun f v w => good (settle_sure p v w) f) (alter_connection (set_handshake p) c w0)) as Hm; [|by apply Hm].
    apply wp_catch. eapply (turns_use [TShake c p] [TSure p] _ []); [apply finishHandshake_turns|exact Hi|].
    intros f1 [[]|e] w1 Hi1; [apply good_end; by apply inv_settle_sure|].
    eapply (sure_use _ _ [TSure p]); [|exact Hi1|]; [server_rules|]. intros f2 [] w2 Hi2. apply good_end. by apply inv_settle_sure. }
  rewrite handshake_commutes in Hg. destruct (handshake_of c version (settle_sure p) w0) as [w2 ts]. destruct Hg as (rs & Hi2 & Hts). cbn in Hi2, Hts.
  assert (good (k (Ok ()) (alter_connection (set_handshake p) c w2)) (concat rs ++ f)) as Hg.
  { apply Hk. split; [by eexists|]. revert Hi2. apply perm. rewrite !app_assoc. by rewrite (Permutation_app_comm (concat rs) r). }
  destruct (k (Ok ()) _) as [w3 ts']. by eapply (good_more _ perm).
Qed.

(** ** Messages *)

(** The token of a message that was marked. *)
Definition reading (c : nat) (message : ClientMessage) : tokens := match message with ClientRequest id _ => [TRead c id] | ClientHello _ => [] end.

Lemma mark_keeps c message r f w :
  is_Some (connection_at w c) -> Inv w (r ++ f) ->
  wp f (mark_received c message) (fun f' v w' => v = Ok () /\ f' = f /\ isTerminalConnection c w' = isTerminalConnection c w /\ Inv w' (reading c message ++ r ++ f)) w.
Proof. intros Hc Hi. destruct message as [version|id request]; [by apply wp_ret|]. apply wp_modify. split_and!; [done..|]. by apply inv_received. Qed.

(** A request that came during the handshake. *)
Lemma pending_keeps c id request p r f w :
  Inv w (TPending c id p :: r ++ f) ->
  wp f (spawn (await_sure (WSure p);;
               ready ← gets (fun w => bool_decide (stage c w = SReady) && negb (disconnected c w));
               when ready (spawn (handleRequest fuel maxFrameLength uuid c id request)))) (fun f v w => (exists a, v = Ok a) /\ Inv w (r ++ f)) w.
Proof.
  intros Hi. eapply (wp_spawn _ perm f r r); [|done|eauto]. apply wp_bind. eapply (wp_await_sure _ _ [TPending c id p]); [exact Hi|].
  intros f1 a v w1 w2 Ha Hi1. destruct a; try discriminate Ha. cbn in Ha. unfold unchanged in Ha. destruct (settled _ p) as [[]|] eqn:Hset; [|done].
  injection Ha as <- <-. apply wp_bind, wp_gets. destruct (bool_decide (stage c w1 = SReady) && _) eqn:Hr.
  - apply inv_pending_read in Hi1. apply andb_true_iff in Hr as [Hr%bool_decide_eq_true _].
    eapply wp_mono; [|by apply (spawn_request c id request [])]. by intros f2 v w2 [[[] ->] Hi2].
  - apply wp_ret. split; [done|]. by eapply inv_lose_pending.
Qed.

Lemma dispatchMessage_keeps c message r f w :
  isTerminalConnection c w = false -> Inv w (reading c message ++ r ++ f) ->
  wp f (dispatchMessage fuel maxFrameLength serverId uuid c message) (fun f v w => (exists a, v = Ok a) /\ Inv w (r ++ f)) w.
Proof.
  unfold isTerminalConnection. intros [[Hd Hclosing%bool_decide_eq_false]%orb_false_iff Hclosed%bool_decide_eq_false]%orb_false_iff Hi.
  unfold dispatchMessage. apply wp_bind, wp_gets.
  destruct (stage c w) eqn:Hs; destruct message as [version|id request]; try done; cbn [reading app] in Hi;
    try (eapply sure_use; [|exact Hi|by eauto]; server_rules; fail).
  - by apply handshake_keeps.
  - eapply (wp_spawn _ perm f r r); [|done|eauto]. eapply wp_mono; [|by eapply (fail_first_keeps c id _ [])]. by intros f2 v w2 [[[] ->] Hi2].
  - apply wp_bind, wp_gets. destruct (connection_at w c) as [s|] eqn:Hc; cbn [mbind option_bind]; [|unfold stage in Hs; by rewrite Hc in Hs].
    destruct (sc_handshake s) as [p|] eqn:Hp; [apply pending_keeps; by eapply inv_read_pending|]. exfalso.
    destruct (inv_facts _ _ _ _ Hi) as (T & Hok). unfold stage in Hs. rewrite Hc in Hs. destruct (qo_handshaking _ _ _ _ Hok c s Hc Hs). congruence.
  - by apply spawn_request.
Qed.

Lemma dispatchMessages_sure c messages : sure (dispatchMessages fuel maxFrameLength serverId uuid c messages).
Proof.
  induction messages as [|t messages IH]; cbn [dispatchMessages]; [server_rules|]. apply sure_intro. intros r f w Hi. apply wp_bind, wp_gets.
  destruct (isTerminalConnection c w) eqn:Ht; [apply wp_ret; eauto|]. destruct (client_message (of_cbor t)) as [message|]; [|apply wp_ret; eauto].
  assert (is_Some (connection_at w c)) as Hc.
  { unfold isTerminalConnection, disconnected in Ht. destruct (connection_at w c); [by eexists|done]. }
  apply wp_bind. eapply wp_mono; [|by apply (mark_keeps c message r)]. intros f1 v w1 (-> & -> & Ht1 & Hi1). rewrite Ht in Ht1.
  apply wp_bind. eapply wp_mono; [|by apply (dispatchMessage_keeps c message r)]. intros f2 v w2 [[a ->] Hi2]. eapply sure_use; [exact IH|exact Hi2|]. eauto.
Qed.
#[local] Hint Resolve dispatchMessages_sure : server.

Lemma receive_sure c chunk : sure (receive fuel maxFrameLength serverId uuid c chunk).
Proof.
  unfold receive. apply sure_bind; [server_rules|]. intros ended. apply sure_bind; [server_rules|]. intros state.
  destruct (if ended : bool then None else state) as [s|]; [|server_rules]. destruct (md_push fuel (sc_decoder s) chunk) as [d [messages|e]]; server_rules.
Qed.

Lemma transportClosed_sure c : sure (transportClosed c).
Proof.
  unfold transportClosed. apply sure_bind; [server_rules|]. intros [s|]; [|server_rules]. apply sure_bind; [|intros _; server_rules].
  destruct (_ && _); [|server_rules]. destruct (md_end (sc_decoder s)) as [d r]. server_rules.
Qed.

Lemma transport_error_sure c e : sure (transport_error c e).
Proof. unfold transport_error. server_rules. Qed.

Lemma handshake_timeout_sure c : sure (handshake_timeout fuel maxFrameLength c).
Proof. unfold handshake_timeout. server_rules. Qed.

Lemma accept_sure : sure (accept maxFrameLength uuid).
Proof.
  unfold accept. destruct (new_MessageDecoder _ _) as [d|e]; [|server_rules]. apply sure_intro. intros r f w Hi. apply wp_bind, wp_gets, wp_bind, wp_gets.
  destruct (closing w).
  - apply wp_bind, wp_modify. eapply sure_use; [|eapply inv_accept; exact Hi|eauto]. server_rules.
  - apply wp_bind. unfold next_id. apply wp_bind, wp_gets, wp_bind, wp_modify, wp_ret, wp_modify. split; [eauto|].
    match goal with |- ServerSpec.Inv _ _ (emit _ (on_network _ ?w')) _ => apply (inv_accept _ _ w') end. revert Hi. by apply inv_same.
Qed.
#[local] Hint Resolve receive_sure transportClosed_sure transport_error_sure handshake_timeout_sure accept_sure : server.

(** ** Starting and closing *)

Lemma sure_set_connections l : sure (modify (on_network (set_connections l))).
Proof. apply sure_modify. intros w r. by apply (inv_connections _ _ w (fun _ => l)). Qed.
#[local] Hint Resolve sure_set_connections : server.

Lemma closeServerState_quiet : quiet closeServerState.
Proof. unfold closeServerState. server_rules. Qed.

Lemma listener_close_quiet i : quiet (listener_close i).
Proof. unfold listener_close. server_rules. Qed.
#[local] Hint Resolve closeServerState_quiet listener_close_quiet : server.

Lemma start_listeners_quiet todo : forall started, quiet (start_listeners started todo).
Proof. induction todo as [|i todo IH]; intros started; cbn [start_listeners]; server_rules. Qed.
#[local] Hint Resolve start_listeners_quiet : server.

Lemma start_sure : sure (start listeners).
Proof. unfold start, startInternal. server_rules. Qed.

Lemma close_sure : sure (close listeners).
Proof. unfold close, closeInternal. server_rules. Qed.
#[local] Hint Resolve start_sure close_sure : server.

Lemma handle_sure e : sure (handle fuel maxFrameLength serverId uuid listeners e).
Proof.
  destruct e; cbn [handle]; try (by server_rules).
  - apply sure_modify. intros w r. by apply inv_transport_closed.
  - by apply sure_same.
Qed.

(** ** Runs *)

Abbreviation server_step := (server_step fuel maxFrameLength serverId uuid listeners).
Abbreviation server_run := (server_run fuel maxFrameLength serverId uuid listeners).
Abbreviation pool_good := (ServerLogic.pool_good Inv).

Lemma server_step_good x e : pool_good x -> pool_good (server_step x e).
Proof.
  destruct x as [w ts]. intros Hg.
  assert (pool_good (let '(w', ts') := handle fuel maxFrameLength serverId uuid listeners e dropped w in (w', ts ++ ts'))) as Hh.
  { pose proof (good_run _ perm (handle fuel maxFrameLength serverId uuid listeners e) dropped w ts Hg) as Hr.
    destruct (handle _ _ _ _ _ _ _ _) as [w' ts'] eqn:Hx. apply Hr. intros f Hi. rewrite <- Hx.
    assert (wp f (handle fuel maxFrameLength serverId uuid listeners e) (fun f v w => v = Ok () /\ Inv w f) w) as Hw.
    { eapply (sure_use _ _ []); [apply handle_sure|exact Hi|]. by intros f1 [] w1. }
    apply Hw. intros f1 v w1 [-> Hi1]. by apply good_end. }
  destruct e; try exact Hh; cbn.
  - destruct (sp_jobs (w_publisher w) !! job) as [[queue p]|]; [|done]. destruct (settled _ queue); [|done].
    set (w1 := on_publisher _ w). assert (pool_good (w1, ts)) as Hg1.
    { destruct Hg as (rs & Hi & Hts). exists rs. split; [|done]. revert Hi. by apply inv_same. }
    pose proof (good_run _ perm (performBroadcast fuel maxFrameLength serverId) (settle_unit p) w1 ts Hg1) as Hr.
    destruct (performBroadcast _ _ _ _ _) as [w' ts'] eqn:Hx. apply Hr. intros f Hi. rewrite <- Hx.
    assert (wp f (performBroadcast fuel maxFrameLength serverId) (fun f _ w => Inv w f) w1) as Hw.
    { eapply (quiet_use _ _ []); [apply performBroadcast_quiet|exact Hi|done]. }
    apply Hw. intros f1 v w2 Hi1. apply good_end. revert Hi1. by apply inv_same.
  - destruct (nth_error ts thread) as [t|] eqn:Ht; [|done]. destruct (resume_thread t a w) as [[w' ts']|] eqn:Hr; [|done].
    by eapply (good_resume _ perm).
Qed.

Lemma new_PiServer_good : pool_good (new_PiServer, []).
Proof.
  apply good_end. exists [], (Some ∅). split_and!; [constructor|constructor|..].
  - constructor; try done; cbn; try (by intros *; intros ?%elem_of_nil); try (by constructor).
  - constructor; try done; cbn; try (by intros *; intros ?%elem_of_nil); try (by constructor). by intros c p [?%elem_of_nil|?%elem_of_nil].
  - constructor; try done; cbn; try (by intros *; intros ?%elem_of_nil); try (by constructor). intros id [x Hx]. by rewrite lookup_empty in Hx.
Qed.

Lemma server_run_good events : pool_good (server_run events (new_PiServer, [])).
Proof.
  unfold Server.server_run. generalize (new_PiServer_good). generalize (new_PiServer, [] : list thread). induction events as [|e events IH]; intros x Hx; [done|].
  cbn [foldl]. by apply IH, server_step_good.
Qed.

(** What holds of every run. *)
Lemma server_run_inv events : exists r, Inv (server_run events (new_PiServer, [])).1 r /\ ((server_run events (new_PiServer, [])).2 = [] -> r = []).
Proof.
  destruct (server_run_good events) as (rs & Hi & Hts). exists (concat rs ++ []). split; [exact Hi|]. intros Hn. rewrite Hn in Hts. by inversion Hts.
Qed.
End keeps.
