(* ===== verification/ServerTheorems.v ===== *)
(** The theorems on the server: what it says on each connection, who has the runtime of each
    session, that requests are answered, and who is attached. *)
From S2P Require Import Prelude JsNumber JsText JsObject JsData CborWriter CborValue CborEncoder CborDecoder Framing Schema ProtocolSchemas ProtocolValue ProtocolCodec ClientMessages ServerWorld Server ServerLogic ServerSpec ServerKeeps.
Local Open Scope nat_scope.

(** ** Traces *)

(** The identifiers of the requests that were received on a connection, of those that were
    handled, and of the responses. *)
Definition received (c : nat) (l : list output) : list jsstr :=
  omap (fun o => match o with OReceived c' id => if decide (c' = c) then Some id else None | _ => None end) l.
Definition requested (c : nat) (l : list output) : list jsstr :=
  omap (fun o => match o with ORequest c' id => if decide (c' = c) then Some id else None | _ => None end) l.
Definition responded (c : nat) (l : list output) : list jsstr :=
  omap (fun o => match o with OSend c' (OutResponse id _) _ => if decide (c' = c) then Some id else None | _ => None end) l.

Section traces.
Context `{Platform} (fuel : nat) (maxFrameLength : Z).
Abbreviation talks := (trace_of (talk_step fuel maxFrameLength) []).


Section lookups.
Context {A : Type} (f : talk -> list A).


End lookups.

End traces.

(** Until the sessions are closed there is a state of the locks. *)
Lemma locks_over l L : trace_of lock_step (Some ∅) l L -> L = None -> OSessionsClosed ∈ l.
Proof.
  induction 1 as [|l L o L' _ IH Hstep]; [done|]. intros ->. apply elem_of_app. inversion Hstep; subst; [right; by left|left; by apply IH].
Qed.

(** ** The server *)

Section server.
Context `{Platform} `{Runtimes} (fuel : nat) (maxFrameLength : Z) (serverId : jsstr) (uuid : nat -> jsstr) (listeners : nat).
Abbreviation run events := (server_run fuel maxFrameLength serverId uuid listeners events (new_PiServer, [])).

(** C35: The server follows its protocol, whatever clients, transports, runtimes and the service
    do, and however the calls that wait are interleaved: each connection is greeted at most once,
    a request is handled once, after it was received, requests are handled and events sent
    only on a connection that was greeted, a response
    answers a request that is open on its connection, each message sent is an encoding, and no
    error is left unhandled. *)
Theorem server_follows_protocol (events : list event) :
  exists T, trace_of (talk_step fuel maxFrameLength) [] (w_trace (run events).1) T.
Proof. destruct (server_run_inv fuel maxFrameLength serverId uuid listeners events) as (r & (T & L & HT & _) & _). by exists T. Qed.

(** C36: Until the server closes its sessions, at most one runtime of a session exists at a
    time: the service is asked for a session only when none is acquired, held or disposed of; a
    runtime is subscribed to, operated and disposed of only by its holder and before its
    disposal, and it is disposed of once. *)
Theorem runtimes_exclusive (events : list event) :
  let l := w_trace (run events).1 in
  exists L, trace_of lock_step (Some ∅) l L /\ (L = None -> OSessionsClosed ∈ l).
Proof.
  intros l. destruct (server_run_inv fuel maxFrameLength serverId uuid listeners events) as (r & (T & L & _ & HL & _) & _).
  exists L. split; [done|]. by apply locks_over.
Qed.


(** C38: In every state the two sides of an attachment agree: a registered session is known
    under its identifier, and the connections it sends its events to have the session among
    theirs and have not ended. *)
Theorem attachments_agree (events : list event) (id : jsstr) (live : nat) (w : World) :
  w = (run events).1 -> liveSession id w = Some live ->
  live_id live w = id /\ forall c, c ∈ live_connections live w -> id ∈ sessionIds c w /\ disconnected c w = false.
Proof.
  intros Hw Hl. destruct (server_run_inv fuel maxFrameLength serverId uuid listeners events) as (r & (T & L & HT & _ & Hn & _) & _).
  rewrite <- Hw in *. destruct (no_registered _ _ _ _ _ Hn id live Hl) as (lv & Hlv & Hid).
  unfold live_id, live_connections, live_at. rewrite Hlv. split; [done|]. intros c Hc. cbn in Hc.
  destruct (no_agree _ _ _ _ _ Hn id live lv c Hl Hlv Hc) as (s & Hs & Hin). unfold sessionIds, disconnected, connection_at. rewrite Hs. cbn.
  split; [done|]. destruct (sc_disconnected s) eqn:Hd; [|done]. rewrite (no_ended _ _ _ _ _ Hn c s Hs Hd) in Hin. by apply elem_of_nil in Hin.
Qed.
End server.

(** ** Options *)

(** Options that are accepted are in range, and connections get their decoders: [accept] drops
    no connection for them. *)
Theorem options_make_decoders (options : ServerOptions) (maxFrameLength timeout : Z) :
  Server.resolveOptions options = Ok (maxFrameLength, timeout) ->
  (1 <= maxFrameLength <= 0xffffffff)%Z /\ (1 <= timeout <= 2147483647)%Z /\ forall k, is_ok (new_MessageDecoder k (frame_options maxFrameLength)) = true.
Proof.
  unfold Server.resolveOptions. intros ([] & _ & (m & Hm%or_throw_Ok & (t & Ht%or_throw_Ok & [= -> ->])%bind_Ok)%bind_Ok)%bind_Ok.
  unfold safe_positive in *. repeat (case_match; try done). simplify_eq. split_and!; [lia..|]. intros k.
  unfold new_MessageDecoder, new_FrameDecoder, resolveMaxFrameLength, isSafeInteger, FRAME_MAX_UINT32.
  cbn. match goal with |- context [if ?b then _ else _] => destruct b eqn:Hb end; [|done]. exfalso. revert Hb. unfold is_safe_Z, MAX_SAFE_INTEGER. lia.
Qed.

(** ** Scenes *)

Module ServerScenes.
#[export] Instance plain : Platform :=
  {| regexp := fun _ => None; number_to_string := fun _ => js "1.5"; string_to_number := fun _ => JInt 0 |}.
#[export] Instance obliging : Runtimes := {| subscribe_error := fun _ => None |}.
Definition uuid (n : nat) : jsstr := js ("id" +:+ pretty n).
Abbreviation step := (server_step 60 1000000 (js "server") uuid 1).
Abbreviation run events := (server_run 60 1000000 (js "server") uuid 1 events (new_PiServer, [])).

(** The snapshot of a session, with or without a name. *)
Definition snap (id : string) (named : bool) : props := map (fun p => (js p.1, p.2))
  ([("id", text id)] ++ (if named then [("name", text "n")] else []) ++
   [("cwd", text "/"); ("createdAt", DNum (JInt 1)); ("updatedAt", DNum (JInt 1)); ("phase", text "idle");
    ("model", object [("provider", text "p"); ("id", text "m")]); ("thinkingLevel", text "off"); ("attached", DBool false); ("locked", DBool true);
    ("revision", DNum (JInt 1)); ("transcript", DArr []); ("queuedSteer", DArr []); ("queuedSteerCount", DNum (JInt 0))]).

(** Resumes the first call that can go on, as long as there is one. *)
Definition answers : list answer := [AResume; ASessions (Ok []); AModels (Ok []); ASnapshot (Ok (snap "x" true)); ADone (Ok ())].
Definition accepts (t : thread) (w : World) (a : answer) : bool :=
  match t with
  | Waiting q _ => match arrive q a w with Some _ => true | None => false end
  | Looping p _ => match arrive (WUnit p) a w with Some _ => true | None => false end
  end.
Fixpoint next_event (w : World) (i : nat) (ts : list thread) : option event :=
  match ts with
  | [] => match sp_jobs (w_publisher w) with [] => None | _ => Some (EBroadcast 0) end
  | t :: ts' =>
      match List.find (accepts t w) answers with
      | Some a => Some (EResume i a)
      | None => next_event w (S i) ts'
      end
  end.
Fixpoint settle (n : nat) (x : World * list thread) : list event * (World * list thread) :=
  match n with
  | O => ([], x)
  | S n' =>
      match next_event x.1 0 x.2 with
      | Some e => let '(es, y) := settle n' (step x e) in (e :: es, y)
      | None => ([], x)
      end
  end.

(** The events of a run in which every event is handled to its end before the next. *)
Fixpoint play (script : list event) (x : World * list thread) : list event :=
  match script with
  | [] => []
  | e :: script' => let '(es, y) := settle 200 (step x e) in e :: es ++ play script' y
  end.

Definition request (id : string) (c : Command) : list Z := match encode_request 1000000 (js id) c with Ok f => f | _ => [] end.
Definition hello : list Z := match encode_hello 1000000 with Ok f => f | _ => [] end.
Definition attaching : list event := [EAccept; EData 0 hello; EData 0 (request "1" (AttachCommand (js "x")))].

(** A connection attaches to a session. *)
Definition attach_events : list event := Eval vm_compute in play attaching (new_PiServer, []).

(** A request in the chunk of the hello waits for the handshake, and is answered. *)
Definition early_events : list event := Eval vm_compute in play [EAccept; EData 0 (hello ++ request "1" ListCommand)] (new_PiServer, []).

Example early_request_answered :
  let '(w, waiting) := run early_events in
  (waiting, stage 0 w, received 0 (w_trace w), requested 0 (w_trace w), responded 0 (w_trace w)) = ([], SReady, [js "1"], [js "1"], [js "1"]).
Proof. vm_compute. reflexivity. Qed.

(** It attaches again and detaches, in one chunk: the session is disposed of while the call that
    attaches goes on.  The connection is told that it is attached, and has the session among its
    own, which no longer exists. *)
Definition disposed_events : list event := Eval vm_compute in
  attach_events ++ play [EData 0 (request "2" (AttachCommand (js "x")) ++ request "3" (DetachCommand (js "x")))] (run attach_events).

Example attached_to_disposed :
  let '(w, waiting) := run disposed_events in
  (waiting, responded 0 (w_trace w), sessionIds 0 w, live_connections 0 w, ss_liveSessions (w_sessions w)) =
  ([], [js "1"; js "3"; js "2"], [js "x"], [0], []).
Proof. vm_compute. reflexivity. Qed.

(** A session without a name: the snapshot of the server is not a message, so that [sendMessage]
    closes every connection it is for. *)
Example unnamed_session_disconnects :
  let message named := encodeServerMessage 60 1000000 (OutServerSnapshot (server_snapshot (js "server") 1 [toMetadata (snap "x" named)] [])) in
  (is_ok (message true), message false) = (true, Err (ProtocolValidationError "Invalid server protocol message")).
Proof. vm_compute. reflexivity. Qed.

(** Without listeners [startInternal] ends before [start] keeps its promise, which stays: the
    server has started and is starting. *)
Example start_without_listeners :
  let '(w, waiting) := server_run 60 1000000 (js "server") uuid 0 [EStart] (new_PiServer, []) in
  (waiting, sv_started (w_lifetime w), sv_startPromise (w_lifetime w), pr_units (w_promises w)) = ([], true, Some 0, [Some (Ok ())]).
Proof. vm_compute. reflexivity. Qed.
End ServerScenes.

(** ** The theorem applies *)

Import ServerScenes.

Lemma attachments_agree_witness :
  let w := (run attach_events).1 in
  live_id 0 w = js "x" /\ forall c, c ∈ live_connections 0 w -> js "x" ∈ sessionIds c w /\ disconnected c w = false.
Proof.
  assert (liveSession (js "x") (run attach_events).1 = Some 0) as Hl by (vm_compute; reflexivity).
  exact (attachments_agree 60 1000000 (js "server") uuid 1 attach_events (js "x") 0 _ eq_refl Hl).
Defined.
