(* ===== verification/Conversation.v ===== *)
(** Client and server together: what each of them sends is what the other reads. *)
From S2P Require Import Prelude JsNumber JsText JsObject JsData CborWriter CborValue CborEncoder CborDecoder Framing Schema SchemaCheck ProtocolSchemas ProtocolValue ProtocolCodec ProtocolTheorems ClientMessages ServerWorld.
Local Open Scope nat_scope.

(** ** From the client to the server *)

(** Texts are lists of code units. *)
Definition units (s : jsstr) : Prop := Forall is_code_unit s.
Definition model_units (m : ModelRef) : Prop := units (mr_provider m) /\ units (mr_id m).
Definition options_units (o : CreateSessionOptions) : Prop :=
  from_option units True (co_cwd o) /\ from_option units True (co_name o) /\ from_option model_units True (co_model o) /\ from_option units True (co_thinkingLevel o).
Definition command_units (c : Command) : Prop :=
  match c with
  | ListCommand => True
  | CreateCommand o => options_units o
  | AttachCommand s | DetachCommand s | AbortCommand s => units s
  | PromptCommand s text | SteerCommand s text | SetThinkingCommand s text => units s /\ units text
  | SetModelCommand s m => units s /\ model_units m
  end.

(** The messages a client sends, with their frames. *)
Definition client_sends `{Platform} (maxFrameLength : Z) (m : ClientMessage) (frame : list Z) : Prop :=
  match m with
  | ClientHello version => version = JInt PROTOCOL_VERSION /\ encode_hello maxFrameLength = Ok frame
  | ClientRequest id c => units id /\ command_units c /\ encode_request maxFrameLength id c = Ok frame
  end.

Lemma request_data id c :
  (d ← to_data (H := heap_values (request_heap id c) ∅) client_fuel (VRef 1); client_message (strip d)) = Some (ClientRequest id c).
Proof. destruct c as [|[[] [] [[]|] []]| | | | | |s []|]; vm_compute; reflexivity. Qed.

Lemma hello_data : (d ← to_data (H := heap_values hello_heap ∅) client_fuel (VRef 1); client_message (strip d)) = Some (ClientHello (JInt PROTOCOL_VERSION)).
Proof. vm_compute. reflexivity. Qed.

Lemma wf_heap_forall (h : heap) : map_Forall (fun _ => wf_obj) h -> wf_heap h.
Proof. intros Hh l obj Hl. by apply (map_Forall_lookup_1 _ _ _ _ Hh Hl). Qed.

Lemma js_units s : units (js s).
Proof.
  unfold units, js. induction s as [|a s IH]; cbn; [constructor|]. constructor; [|exact IH].
  unfold is_code_unit. pose proof (Ascii.N_ascii_bounded a). lia.
Qed.

(** The properties of an object with names and texts of code units. *)
Definition entries_ok (l : list (jsstr * jsval)) : Prop := Forall (fun e => Forall is_code_unit e.1 /\ wf_val e.2) l.

Lemma text_entries k s : units s -> entries_ok (v_text k s).
Proof. intros Hs. constructor; [|constructor]. split; [apply js_units|exact Hs]. Qed.

Lemma optional_entries k s : from_option units True s -> entries_ok (v_optional k s).
Proof. destruct s as [s|]; [apply text_entries|constructor]. Qed.

Lemma command_entries_ok c : command_units c -> entries_ok (command_entries c).
Proof.
  intros Hc. unfold command_entries. apply Forall_app. split; [apply text_entries, js_units|].
  assert (entries_ok v_model) as Hm by (constructor; [split; [apply js_units|done]|constructor]).
  destruct c as [|[cwd name model level]|s|s|s text|s text|s|s m|s level]; cbn in Hc; try (by apply text_entries); [constructor|..].
  - destruct Hc as (H1 & H2 & H3 & H4). cbn in *. apply Forall_app. split; [by apply optional_entries|]. apply Forall_app. split; [by apply optional_entries|].
    apply Forall_app. split; [by destruct model|by apply optional_entries].
  - destruct Hc. apply Forall_app. split; by apply text_entries.
  - destruct Hc. apply Forall_app. split; by apply text_entries.
  - destruct Hc. apply Forall_app. split; [by apply text_entries|done].
  - destruct Hc. apply Forall_app. split; by apply text_entries.
Qed.

Lemma request_heap_ok id c : units id -> command_units c -> wf_heap (request_heap id c).
Proof.
  intros Hid Hc. apply wf_heap_forall, map_Forall_insert_2; [|apply map_Forall_insert_2].
  - split; [done|]. apply Forall_app. split; [apply text_entries, js_units|]. apply Forall_app. split; [by apply text_entries|].
    constructor; [|constructor]. split; [apply js_units|done].
  - split; [|by apply command_entries_ok]. by destruct c as [|[[] [] [[]|] []]| | | | | | |].
  - destruct (command_model c) as [m|] eqn:Hm; [|apply map_Forall_empty].
    assert (model_units m) as [Hp Hi].
    { destruct c as [|[cwd name model level]| | | | | | |]; cbn in Hm; try done; [destruct Hc as (_ & _ & Hc & _); cbn in *; by subst model|injection Hm as ->; apply Hc]. }
    apply map_Forall_singleton. split; [done|]. apply Forall_app. split; by apply text_entries.
Qed.

Lemma hello_heap_ok : wf_heap hello_heap.
Proof. apply wf_heap_forall, map_Forall_singleton. split; [done|]. repeat constructor; cbn; lia. Qed.

#[local] Strategy expand [encode_hello encode_request].

Section wire.
Context `{Platform}.

(** One message of the client. *)
Lemma client_carried maxFrameLength m limit frame :
  resolveMaxFrameLength (frame_options maxFrameLength) = Ok limit -> client_sends maxFrameLength m frame ->
  exists t, carries Client (frame_options maxFrameLength) limit frame t /\ client_message (of_cbor t) = Some m.
Proof.
  intros Hl. destruct m as [version|id c].
  - intros [-> He]. unfold encode_hello in He. destruct (encoded_message _ _ _ _ (VRef 1) _ _ _ hello_heap_ok I Hl He) as (t & Ht & _ & _ & d & Hd & Hs).
    exists t. split; [done|]. rewrite Hs. pose proof hello_data as Hr. rewrite Hd in Hr. cbn [mbind option_bind] in Hr. exact Hr.
  - intros (Hid & Hc & He). unfold encode_request in He. destruct (encoded_message _ _ _ _ (VRef 1) _ _ _ (request_heap_ok id c Hid Hc) I Hl He) as (t & Ht & _ & _ & d & Hd & Hs).
    exists t. split; [done|]. rewrite Hs. pose proof (request_data id c) as Hr. rewrite Hd in Hr. cbn [mbind option_bind] in Hr. exact Hr.
Qed.

(** C39: What a client says is what the server hears: the messages of a client, sent one after
    the other and cut into any chunks, are decoded by the server's decoder and read as the same
    messages, in order and nothing else. *)
Theorem client_is_heard (maxFrameLength : Z) (messages : list ClientMessage) (frames chunks : list (list Z)) (d : MessageDecoder) :
  new_MessageDecoder Client (frame_options maxFrameLength) = Ok d ->
  Forall2 (client_sends maxFrameLength) messages frames -> concat chunks = concat frames ->
  exists ts, map (fun t => client_message (of_cbor t)) ts = map Some messages /\
    exists enough, forall fuel, enough <= fuel -> exists d1 d2, md_push_all fuel d chunks = (d1, Ok ts) /\ md_end d1 = (d2, Ok ()).
Proof.
  intros Hnew Hsends Hchunks. destruct (decoder_limit _ _ _ Hnew) as (limit & Hl).
  assert (exists ts, map (fun t => client_message (of_cbor t)) ts = map Some messages /\ Forall2 (carries Client (frame_options maxFrameLength) limit) frames ts) as (ts & Hts & Hc).
  { clear Hchunks. induction Hsends as [|m frame messages frames Hm _ (ts & Hts & Hc)]; [by exists []|].
    destruct (client_carried _ _ _ _ Hl Hm) as (t & Ht & Hread). exists (t :: ts). split; [cbn; by rewrite Hread, Hts|by constructor]. }
  exists ts. split; [done|]. by eapply stream_decoded.
Qed.
End wire.

(** ** From the server to the client *)

(** Data of code units and numbers, with properties in the order of JavaScript. *)
Fixpoint sound (d : data) : Prop :=
  match d with
  | DNum n => wf_num n
  | DStr s => units s
  | DArr ds => fold_right (fun d acc => sound d /\ acc) True ds
  | DObj ps => ordered ps.*1 = true /\ fold_right (fun p acc => (units p.1 /\ sound p.2) /\ acc) True ps
  | _ => True
  end.

(** The value holds the data. *)
Inductive holds (h : heap) : jsval -> data -> Prop :=
  | Holds_undefined : holds h VUndefined DUndefined
  | Holds_null : holds h VNull DNull
  | Holds_bool b : holds h (VBool b) (DBool b)
  | Holds_num n : holds h (VNum n) (DNum n)
  | Holds_str s : holds h (VStr s) (DStr s)
  | Holds_fun s : holds h (VOther s) DFun
  | Holds_arr l vs ds : h !! l = Some (OArray (map Some vs)) -> Forall2 (holds h) vs ds -> holds h (VRef l) (DArr ds)
  | Holds_obj l es ps : h !! l = Some (OPlain es false) -> Forall2 (fun e p => e.1 = p.1 /\ holds h e.2 p.2) es ps -> holds h (VRef l) (DObj ps).

Lemma holds_more h h' d : h ⊆ h' -> forall v, holds h v d -> holds h' v d.
Proof.
  intros Hh. induction d as [| | | | |ds IH|ps IH|] using data_ind'; intros v Hv; inversion Hv as [| | | | | |l vs ds' Hl Hvs|l es ps' Hl Hes]; subst; try constructor.
  - eapply Holds_arr; [by eapply lookup_weaken|]. clear Hl Hv. induction Hvs as [|v d vs ds Hv _ IHvs]; [done|]. apply Forall_cons in IH as [IHd IH]. constructor; auto.
  - eapply Holds_obj; [by eapply lookup_weaken|]. clear Hl Hv. induction Hes as [|e p es ps [Hk He] _ IHes]; [done|]. apply Forall_cons in IH as [IHp IH]. constructor; auto.
Qed.

(** Reading gives the data. *)
Lemma holds_read h d : forall fuel v d', holds h v d -> to_data (H := heap_values h ∅) fuel v = Some d' -> d' = d.
Proof.
  induction d as [| | | | |ds IH|ps IH|] using data_ind'; intros [|fuel] v d' Hv; try done; cbn [to_data];
    inversion Hv as [| | | | | |l vs ds' Hl Hvs|l es ps' Hl Hes]; subst; try (by intros [= <-]); try done; cbn [see heap_values]; unfold heap_values; rewrite Hl.
  - intros (ds' & Hds & ->)%fmap_Some. f_equal. apply mapM_Some in Hds. clear Hl Hv. revert ds' Hds.
    induction Hvs as [|v d vs ds Hv _ IHvs]; intros ds' Hds; inversion Hds as [|? d2 ? ds2 Hd Hds2]; subst; [done|].
    apply Forall_cons in IH as [IHd IH]. f_equal; [by eapply IHd|by apply IHvs].
  - rewrite decide_False by set_solver. intros (ds' & Hds & ->)%fmap_Some. f_equal. apply mapM_Some in Hds. clear Hl Hv. revert ds' Hds.
    induction Hes as [|[k v] [k' d] es ps [Hk He] _ IHes]; intros ds' Hds; inversion Hds as [|? d2 ? ds2 Hd Hds2]; subst; [done|].
    apply Forall_cons in IH as [IHd IH]. apply fmap_Some in Hd as (d3 & Hd & ->). cbn in *. subst k'. f_equal; [f_equal; by eapply IHd|by apply IHes].
Qed.

(** Allocation extends a heap at its free locations. *)
Definition extends (x : loc * heap) (y : loc * heap) : Prop :=
  (x.1 <= y.1)%positive /\ x.2 ⊆ y.2 /\ (forall l, (y.1 <= l)%positive -> y.2 !! l = None) /\ wf_heap y.2.

Lemma extends_trans x y z : extends x y -> extends y z -> extends x z.
Proof. intros (H1 & H2 & H3 & H4) (H5 & H6 & H7 & H8). split_and!; [lia|by etrans|done|done]. Qed.

Lemma extends_insert next h obj : extends (next, h) (next, h) -> wf_obj obj -> extends (next, h) (Pos.succ next, <[next := obj]> h).
Proof.
  intros (_ & _ & Hf & Hh) Ho. cbn in *. split_and!; cbn; [lia|apply insert_subseteq, Hf; lia| |].
  - intros l Hl. rewrite lookup_insert_ne by lia. apply Hf. lia.
  - intros l obj'. destruct (decide (l = next)) as [->|Hne]; [rewrite lookup_insert_eq; by intros [= <-]|rewrite lookup_insert_ne by done; apply Hh].
Qed.

Lemma extends_self x y : extends x y -> extends y y.
Proof. intros (_ & _ & ? & ?). by split_and!. Qed.

Lemma allocate_holds d : forall next h, extends (next, h) (next, h) -> sound d ->
  let '(next', h', v) := allocate d next h in extends (next, h) (next', h') /\ holds h' v d /\ wf_val v.
Proof.
  induction d as [| | | | |ds IH|ps IH|] using data_ind'; intros next h Hx Hs; cbn [allocate]; try (split_and!; [done|constructor|done]).
  - enough (let '(next', h', items) := foldr (fun d r => let '(next, h, vs) := r in let '(next, h, v) := allocate d next h in (next, h, Some v :: vs)) (next, h, []) ds in
      extends (next, h) (next', h') /\ exists vs, items = map Some vs /\ Forall2 (holds h') vs ds /\ Forall wf_val vs) as Hlist.
    { destruct (foldr _ _ ds) as [[next' h'] items]. destruct Hlist as (He & vs & -> & Hvs & Hwf).
      assert (extends (next', h') (Pos.succ next', <[next' := OArray (map Some vs)]> h')) as He'.
      { apply extends_insert; [by eapply extends_self|]. cbn. by rewrite Forall_map. }
      split_and!; [by eapply extends_trans| |done]. eapply Holds_arr; [by rewrite lookup_insert_eq|]. eapply Forall2_impl; [exact Hvs|].
      intros v d. apply holds_more. apply He'. }
    revert Hs. induction IH as [|d ds Hd _ IHds]; intros Hs; cbn [foldr]; [split; [done|]; by exists []|]. destruct Hs as [Hsd Hs].
    specialize (IHds Hs). destruct (foldr _ _ ds) as [[next1 h1] items]. destruct IHds as (He1 & vs & -> & Hvs & Hwf).
    specialize (Hd next1 h1 (extends_self _ _ He1) Hsd). destruct (allocate d next1 h1) as [[next2 h2] v]. destruct Hd as (He2 & Hv & Hwv).
    split; [by eapply extends_trans|]. exists (v :: vs). split_and!; [done| |by constructor]. constructor; [done|]. eapply Forall2_impl; [exact Hvs|].
    intros v' d'. apply holds_more. apply He2.
  - enough (let '(next', h', es) := foldr (fun p r => let '(next, h, vs) := r in let '(next, h, v) := allocate p.2 next h in (next, h, (p.1, v) :: vs)) (next, h, []) ps in
      extends (next, h) (next', h') /\ Forall2 (fun e p => e.1 = p.1 /\ holds h' e.2 p.2) es ps /\ es.*1 = ps.*1 /\ entries_ok es) as Hlist.
    { destruct (foldr _ _ ps) as [[next' h'] es]. destruct Hlist as (He & Hes & Hkeys & Hwf).
      assert (extends (next', h') (Pos.succ next', <[next' := OPlain es false]> h')) as He'.
      { apply extends_insert; [by eapply extends_self|]. cbn. split; [|done]. rewrite Hkeys. apply Hs. }
      split_and!; [by eapply extends_trans| |done]. eapply Holds_obj; [by rewrite lookup_insert_eq|]. eapply Forall2_impl; [exact Hes|].
      intros e p [Hk Hv]. split; [done|]. revert Hv. apply holds_more. apply He'. }
    destruct Hs as [_ Hs]. revert Hs. induction IH as [|p ps Hd _ IHps]; intros Hs; cbn [foldr]; [split_and!; [done|constructor|done|constructor]|]. destruct Hs as [[Hk Hsd] Hs].
    specialize (IHps Hs). destruct (foldr _ _ ps) as [[next1 h1] es]. destruct IHps as (He1 & Hes & Hkeys & Hwf).
    specialize (Hd next1 h1 (extends_self _ _ He1) Hsd). destruct (allocate p.2 next1 h1) as [[next2 h2] v]. destruct Hd as (He2 & Hv & Hwv).
    split_and!; [by eapply extends_trans| |cbn; by rewrite Hkeys|by constructor]. constructor; [done|]. eapply Forall2_impl; [exact Hes|].
    intros e q [Hk' He]. split; [done|]. revert He. apply holds_more. apply He2.
Qed.

(** How the client sees a message of the server. *)
Definition seen (m : outgoing) : option ServerMessage :=
  match m with
  | OutHello _ snapshot => HelloMessage <$> server_snapshot (strip (DObj snapshot))
  | OutHelloError e => Some (HelloErrorMessage (strip (error_data e)))
  | OutResponse id (Ok result) => (fun r => ResponseMessage id (inr r)) <$> command_result (strip (DObj result))
  | OutResponse id (Err e) => Some (ResponseMessage id (inl (strip (error_data e))))
  | OutServerSnapshot snapshot => (fun s => EventMessage (ServerSnapshotEvent s)) <$> server_snapshot (strip (DObj snapshot))
  | OutSessionSnapshot snapshot => (fun s => EventMessage (SessionSnapshotEvent s)) <$> session_snapshot (strip (DObj snapshot))
  | OutProgress id progress => Some (EventMessage (ProgressEvent id (strip progress)))
  end.

Lemma seen_message m : server_message (strip (message_data m)) = seen m.
Proof.
  destruct m as [id snapshot|e|id [r|e]|snapshot|snapshot|id progress]; cbn [seen].
  - reflexivity.
  - reflexivity.
  - reflexivity.
  - reflexivity.
  - change (EventMessage <$> (ServerSnapshotEvent <$> server_snapshot (strip (DObj snapshot))) = (fun s => EventMessage (ServerSnapshotEvent s)) <$> server_snapshot (strip (DObj snapshot))).
    by destruct (server_snapshot _).
  - change (EventMessage <$> (SessionSnapshotEvent <$> session_snapshot (strip (DObj snapshot))) = (fun s => EventMessage (SessionSnapshotEvent s)) <$> session_snapshot (strip (DObj snapshot))).
    by destruct (session_snapshot _).
  - by destruct progress.
Qed.

#[local] Strategy expand [encodeServerMessage].

Section answers.
Context `{Platform}.

(** One message of the server. *)
Lemma server_carried fuel maxFrameLength m limit frame :
  resolveMaxFrameLength (frame_options maxFrameLength) = Ok limit -> sound (message_data m) -> encodeServerMessage fuel maxFrameLength m = Ok frame ->
  exists t, carries Server (frame_options maxFrameLength) limit frame t /\ server_message (of_cbor t) = seen m /\ is_Some (seen m).
Proof.
  intros Hl Hs He. unfold encodeServerMessage in He. pose proof (allocate_holds (message_data m) 1%positive ∅) as Ha.
  destruct (allocate (message_data m) 1%positive ∅) as [[next h] v].
  destruct Ha as ((_ & _ & _ & Hh) & Hv & Hwv); [|done|].
  { split_and!; [done|done|by intros l _|by intros l obj Hx]. }
  destruct (encoded_message _ _ _ _ _ _ _ _ Hh Hwv Hl He) as (t & Ht & _ & Htype & d & Hd & Hstrip).
  apply (holds_read _ _ _ _ _ Hv) in Hd as ->. exists t. split; [done|].
  assert (server_message (of_cbor t) = seen m) as Hm by (rewrite Hstrip; apply seen_message). split; [done|]. rewrite <- Hm. by eapply message_readable.
Qed.

(** C40: What the server says is what the client hears: the messages of the server, sent one
    after the other and cut into any chunks, are decoded by the client's decoder and read as
    these messages, with their identifiers and results, in order and nothing else. *)
Theorem server_is_heard (fuel : nat) (maxFrameLength : Z) (messages : list outgoing) (frames chunks : list (list Z)) (d : MessageDecoder) :
  new_MessageDecoder Server (frame_options maxFrameLength) = Ok d -> Forall (fun m => sound (message_data m)) messages ->
  Forall2 (fun m frame => encodeServerMessage fuel maxFrameLength m = Ok frame) messages frames -> concat chunks = concat frames ->
  exists ts, Forall2 (fun m t => server_message (of_cbor t) = seen m /\ is_Some (seen m)) messages ts /\
    exists enough, forall fuel, enough <= fuel -> exists d1 d2, md_push_all fuel d chunks = (d1, Ok ts) /\ md_end d1 = (d2, Ok ()).
Proof.
  intros Hnew Hsound Hsends Hchunks. destruct (decoder_limit _ _ _ Hnew) as (limit & Hl).
  assert (exists ts, Forall2 (fun m t => server_message (of_cbor t) = seen m /\ is_Some (seen m)) messages ts /\
    Forall2 (carries Server (frame_options maxFrameLength) limit) frames ts) as (ts & Hts & Hc).
  { clear Hchunks. induction Hsends as [|m frame messages frames Hm _ IH]; [by exists []|]. apply Forall_cons in Hsound as [Hs Hsound].
    destruct (IH Hsound) as (ts & Hts & Hc), (server_carried _ _ _ _ _ Hl Hs Hm) as (t & Ht & Hread). exists (t :: ts). split; by constructor. }
  exists ts. split; [done|]. by eapply stream_decoded.
Qed.
End answers.

(** ** A conversation *)

Module Talk.
#[export] Instance plain : Platform :=
  {| regexp := fun _ => None; number_to_string := fun _ => js "1.5"; string_to_number := fun _ => JInt 0 |}.

Definition decoder (k : side) : MessageDecoder := mkMessageDecoder false (mkDecoder [0; 0; 0; 0]%Z 0 1000 [] None 0 None 0 Open) k (JInt 1000).
Definition ok {E} (r : result E (list Z)) : list Z := match r with Ok l => l | Err _ => [] end.

Definition asked : list ClientMessage := [ClientHello (JInt PROTOCOL_VERSION); ClientRequest (js "1") (PromptCommand (js "x") (js "hi"))].
Definition asked_frames : list (list Z) := [ok (encode_hello 1000); ok (encode_request 1000 (js "1") (PromptCommand (js "x") (js "hi")))].
Definition answered : list outgoing :=
  [OutResponse (js "1") (Err (mkProtocolError "not_found" (js "no session") None));
   OutResponse (js "2") (Ok [(js "command", text "detach"); (js "sessionId", text "x")])].
Definition answered_frames : list (list Z) := map (fun m => ok (encodeServerMessage 40 1000 m)) answered.

(** In pieces of five bytes. *)
Fixpoint pieces (n : nat) (l : list Z) : list (list Z) := match n with O => [l] | S n' => take 5 l :: pieces n' (drop 5 l) end.
Lemma concat_pieces n l : concat (pieces n l) = l.
Proof. revert l. induction n as [|n IH]; intros l; cbn [pieces concat]; [apply app_nil_r|]. by rewrite IH, take_drop. Qed.
End Talk.

(** ** The theorems apply *)

Import Talk.

Lemma client_is_heard_witness :
  exists ts, map (fun t => client_message (of_cbor t)) ts = map Some asked /\
    exists enough, forall fuel, enough <= fuel ->
    exists d1 d2, md_push_all fuel (decoder Client) (pieces 9 (concat asked_frames)) = (d1, Ok ts) /\ md_end d1 = (d2, Ok ()).
Proof.
  apply (client_is_heard 1000 asked asked_frames).
  - vm_compute. reflexivity.
  - constructor; [split; [done|vm_compute; reflexivity]|]. constructor; [|constructor]. split_and!; [apply js_units|split; apply js_units|vm_compute; reflexivity].
  - apply concat_pieces.
Defined.

Lemma server_is_heard_witness :
  exists ts, Forall2 (fun m t => server_message (of_cbor t) = seen m /\ is_Some (seen m)) answered ts /\
    exists enough, forall fuel, enough <= fuel ->
    exists d1 d2, md_push_all fuel (decoder Server) (pieces 9 (concat answered_frames)) = (d1, Ok ts) /\ md_end d1 = (d2, Ok ()).
Proof.
  apply (server_is_heard 40 1000 answered answered_frames).
  - vm_compute. reflexivity.
  - repeat first [apply Forall_nil_2|apply Forall_cons_2|split|exact I]; unfold is_code_unit; cbn; (reflexivity || lia).
  - constructor; [vm_compute; reflexivity|]. constructor; [vm_compute; reflexivity|constructor].
  - apply concat_pieces.
Defined.
